(* ===== verification/_CoqProject ===== *)
-Q . S2P
Prelude.v
Protocol.v
TerminalCheckpoint.v
NativeService.v
Retention.v
OutputLog.v
OutputLogSpec.v
TerminalCheckpointSpec.v
OutputLogProps.v
Resources.v
LiveEventJournal.v
LiveEventJournalSpec.v
LiveEvents.v
LiveEventsSpec.v
Wire.v
UpgradeGate.v
Attachment.v
AttachmentSpec.v
AttachmentStream.v
NativeControl.v
NativeControlSpec.v
NativeControlSections.v
NativeControlAdmission.v
NativeOwnerTurn.v
NativeControlSteps.v
NativeControlHandoff.v
NativeControlSystem.v
NativeControlDrain.v
NativeControlProps.v
TmuxParser.v
TmuxParserSpec.v
TmuxControl.v
TmuxProps.v
TmuxDiscovery.v
Runs.v
Registry.v
RegistryQueries.v
RegistrySpec.v
RegistrySystem.v
RegistryHeap.v
RegistryRemoval.v
RegistrySteps.v
RegistryStopSteps.v
RegistryRemovalSteps.v
RegistryPublishSteps.v
RegistryConsumeSteps.v
RegistryHistory.v
RegistryProps.v
StorageErrors.v
ReplayStore.v
ReplayStoreSpec.v
ReplayTables.v
ReplayAppend.v
ReplayRead.v
ReplayPrune.v
ReplayProps.v
StoreTransaction.v
StoreTransactionSpec.v
StoreTransactionProps.v
StoreAppend.v
StoreAppendSpec.v
StoreSession.v
StoreAppendSession.v
StoreReclaim.v
StoreReclaimSpec.v
StoreReclaimSession.v
StoreCompaction.v
StoreCompactionSpec.v
StoreCompactionSession.v
StoreCompactionOnce.v
StoreAppendProps.v
StoreCompactionProps.v
ClientErrors.v
ClientInbox.v
ClientAttachment.v
ClientRequests.v
PersistenceActor.v
PersistenceActorSpec.v
PersistenceActorTurns.v
PersistenceActorProps.v
