(* ===== verification/Prelude.v ===== *)
(** * A verification library for the ctxmux daemon

    ctxmux keeps Runs (programs on a PTY, or imported tmux panes) alive in a
    daemon and lets clients attach, control and replay them over a line-framed
    JSON protocol.  This library models the state machines of the daemon and of its
    Rust client in Rocq and proves what they promise each other and their users.  Source paths
    below are relative to [src/crates/].

    ** Reading conventions

    Locked sections of the source become pure functions from the locked state to
    an [outcome]: [Ret] is a normal return, [Panic m] an [expect], an index or
    slice out of range, an overflow check or an assertion that fires.  Rust's
    [Result] is [result].  A theorem that an operation equals [Ret ...] is
    therefore also a proof that it cannot panic and that it terminates.  [u64],
    [usize] and [u32] values are [N] with their bounds written out (64-bit host);
    [checked_add], [saturating_add] and the wrapping atomics keep their names.
    Mutexes order operations; where the source releases a lock between two steps,
    or another thread can run in between, the interleaving is explicit: a step
    relation ([Inductive step]) or a parameter that stands for the other owners'
    moves, restricted only by what they can do.

    Third-party code, vendored or not, is a parameter with a class of its own:
    the VT emulator vt100 of [src/third_party] ([TerminalCheckpoint.VtParser]), serde
    and the implementations it derives for the messages ([Wire.Serde]), the
    allocator's rounding ([LiveEventJournal.Allocator]), the layout of an event
    ([LiveEvents.EventLayout]), of control structs
    ([NativeControl.ControlLayout]), the host ([Resources.Host]) and UUID printing
    ([Protocol.UuidDisplay]).  Of the VT emulator every call may unwind; that it
    reads its input as a stream ([VtStreaming]) is the one thing assumed of it, by
    [stored_checkpoint_recovers] alone, which says nothing of how well the restore
    bytes reproduce the parser they were cut from.  Of serde nothing is assumed.

    [Arc] counts and the [i64] arithmetic of the store's rows are unbounded numbers
    here; the source relies on neither reaching its width.

    ** The parts and their files

    - [Protocol], [Wire] ([ctxmux-protocol/src/lib.rs]): the vocabulary of the
      protocol with its constructors, key and revision validation, [OutputGapCauses],
      [encode_frame] and [decode_frame] with the duplicate-member walk.  Theorems:
      a frame decodes exactly when it is in bounds, well typed and unambiguous;
      a value is encoded whole or refused with its size.
    - [TerminalCheckpoint] ([ctxmux-daemon/src/terminal_checkpoint.rs]): the
      optional VT model of a Run, its checkpoint, its resize tail and its recovery
      from a stored checkpoint.  [TerminalCheckpointSpec]: recovery plays exactly the
      bytes and resizes since the cut, and never refuses what a live model stored.
    - [NativeService] ([native_service.rs]): the revisioned projection of a native
      Run's owner, output, input and terminal fault.
    - [Retention] ([retention.rs]): the daemon-wide budget of retained output,
      parameterised by the class [RetentionVictim] (the source's trait) and its laws
      [RetentionVictimLaws].  Theorems: one reclaim pass frees exactly the excess, or
      everything there is; it sheds in key order; the read grant has a closed form.
    - [OutputLog], [OutputLogSpec], [OutputLogProps] ([lib.rs], [OutputLog]): the raw
      replay window.  [OutputLogSpec] defines the well-formedness invariant
      ([log_wf]: contiguous bounded chunks, exact byte accounting, published facts)
      and the abstract content ([content]), [OutputLogProps] states pushes, replays,
      pages, offers, reclamation and resizes against it.  [run_victim] is the
      [RetentionVictim] instance, whose laws [OutputLogSpec] discharges.
    - [Resources] ([resources.rs], [diagnostics.rs]): startup policy, its validation
      and resolution, the storage reservation and the shared [ByteBudget].
    - [LiveEventJournal], [LiveEventJournalSpec]
      ([live_event_journal.rs]): the funded multi-reader event queue.  Its step
      relation interleaves publishers, subscribers, receivers and drops; every
      receiver accounts for every event.
    - [LiveEvents], [LiveEventsSpec] ([lib.rs], [LiveEventOwner]): the cursor, the
      publication with its degradation under pressure, subscription.  Every
      receiver's history is one chain of cursors ending at the owner's.
    - [UpgradeGate] ([lib.rs]): the admission gate of exec-in-place upgrades.
    - [Attachment], [AttachmentSpec], [AttachmentStream] ([attachment.rs]): the live
      attachment loop, one function per [select!] branch.  Commands are answered
      exactly once; the client's output has no silent hole.
    - [NativeControl] ([native_control.rs]): the sole live-control authority of one
      native Run, with [NativeOwnerTurn] ([native_runtime.rs]): the owner's turn
      over it, the cleanup worker and the child's reap state.  [NativeControlSpec]
      defines the invariant [core] over the queue, the ledger, the budget and a
      ghost history (what crossed the PTY, what every caller was told) and proves
      it for each elementary change; [NativeControlSections],
      [NativeControlAdmission] and [NativeControlSteps] lift it to every locked
      section and owner step, [NativeControlHandoff] relates the scan of a
      handed-off ledger to a declarative predicate and inverts the snapshot,
      [NativeControlSystem] is the step relation of all parties, and
      [NativeControlDrain] follows [progress_input].  [NativeControlProps]: the PTY
      receives exactly the acknowledged payloads; every payload is answered once;
      no section panics; a fence is final; a retry is told what happened; a handoff
      loses nothing; a willing kernel drains the queue.  Signals are admitted as on
      every platform but macOS, whose arm asks the PTY and queues nothing.

    - [TmuxParser], [TmuxControl], [TmuxDiscovery] ([tmux.rs], and in [lib.rs]
      [TmuxRunControl], [TmuxCommandTracker], [read_tmux_output],
      [wait_for_tmux_control], [complete_tmux_control]): an imported tmux pane.
      The Control Mode parser with its bounded lines and blocks, the command
      tracker, the reader's loop over a byte feed whose buffering is a parameter,
      the waiter's causes and how reader and waiter agree on a termination, pane
      discovery and the socket identity.  The Run a reader writes to is the class
      [TmuxControl.RunSink]; [Debug] of bytes is [TmuxParser.DebugString]; what the
      waiter's thread does between two lines is [LineEnv].  [TmuxParserSpec] gives
      the declarative transcript of control lines; [TmuxProps]: parsing is exactly
      that transcript, buffering is invisible, the reader ends, the Run receives exactly
      the calls of its items, an import is acknowledged only when a probe's answer
      confirmed it.
    - [Runs] ([lib.rs], [impl Run]; [creation.rs],
      [TerminalPublicationOwner]): the state of a Run the registry and its owners
      share, its quiescence and collection, its terminal publication and the
      persistence binding (pending, committed, active).  In every order of commit,
      activation and exit the terminal is published once and only when it may be.
      [RunLayout] stands for the resident sizes.
    - [Registry], [RegistryQueries] ([creation.rs], [RunRegistry]): the locked
      state of every retained Run with its creation and Stop keys, reservations,
      capacities and the [Arc] counts of the shared Runs (a heap of cells with
      strong counts, so that "nothing else holds it" is the source's test).
      [reserve_publication], [publish_creation], [publish_unkeyed], unresolved
      publications, Stop admission and settlement, memory and persistent removal,
      listing, snapshots, startup and handoff of Stop receipts.  [StopLayout]
      stands for two struct sizes.  [RegistrySpec] defines the clauses of the
      invariant, [RegistrySystem] the system ([Sys]): the registry, the owners of
      reservations, unpublished and pinned Runs, unsettled Stops, removals, detached
      entries, and the requests they make ([Req], [sys_step]); [enabled] is what a
      caller owes (a fresh Run id, a settlement it owns, metadata it sized within
      64 bits), and [sys_inv B R L] the invariant for metadata, record and live
      bounds [B], [R], [L]: the capacities, or what startup recovered beyond them.
      [RegistryHeap] and [RegistryRemoval] prove one locked section each,
      [Registry*Steps] lift them to the system, [RegistryConsumeSteps] also has the
      invariant of all reachable states, [RegistryHistory] the pages (for any
      [select_nth_unstable] that meets [selects_nth], its documentation) and the life
      of one Stop operation, [RegistryProps] the properties and a sample execution.

    - [StorageErrors] ([persistence.rs]): the error type of the durable store, its
      classes (transient, debt, needs reconciliation) and the bounded retries.
      SQLite's and the host's numeric codes are the class [StorageCodes].
    - [ReplayStore] ([persistence.rs]): the durable replay window.  A SQL statement
      is its effect on the tables [replay_chunks] and [runs] (their rows, keys,
      constraints, accounting triggers and cascades), a file operation its effect on
      the replay files; [StorageEnv] says which calls the host fails, how much of a
      failed write stays, and the time.  The lifecycle JSON is the class [StateJson].
      Appending with its coalesced rows, pruning of one Run and of all, paging,
      validation of windows and extents.  [ReplayStoreSpec] defines the invariant
      [store_ok] and the window a Run's rows denote ([window_of]); [ReplayTables]
      preserves it per statement; [ReplayAppend], [ReplayRead] and [ReplayPrune]
      prove the operations; [ReplayProps]: appending is [receive] on windows,
      a page is a slice of the window, startup validation accepts what appends
      left, pruning reaches the limit.
    - [StoreTransaction] ([persistence.rs], [StateStore]): the transaction every
      maintenance step and output batch commits through.  [TxEnv] is the host: which
      calls fail, what a failed COMMIT or ROLLBACK did, sizes and identities of
      files.  [before_tx] is what SQLite would restore, [unresolved] the record of a
      transaction whose outcome is unknown.  [StoreTransactionSpec] follows
      [commit_maintenance_batch_with_admission] and [reconcile_maintenance] through
      every failure; [StoreTransactionProps]: a transaction is known to be kept, known
      to be dropped, or recorded, and reconciliation settles what SQLite kept.
    - [StoreAppend] ([persistence.rs], [append_transaction_once] and what it calls):
      one output transaction: the coalesced batch, the staged closure (append, prune,
      terminal row, sync), the commit and the publication of the watermarks that
      producers read ([cells]).  [StoreAppendSpec]: what the closure does, and that
      kept rows stay backed by synced bytes ([recoverable]).
    - [StoreSession] ([persistence.rs], [StateStore]): the two states between
      transactions, [clear] and [stuck] on a recorded one, that a crash finds a
      recoverable store in both, and that settling leads from the second to the first.
      [StoreAppendSession] relates one output transaction to them.
    - [StoreReclaim] ([persistence.rs], [reclaim_output_prefix],
      [reclaim_confirmed_prefix], [reclaim_database_pages]): the maintenance
      transactions that retire the oldest confirmed output, halving their rows when the
      WAL cannot hold them.  [SpaceEnv] extends the host by pages, free space and UUIDs.
      [StoreReclaimSpec]: a batch of extents is a front of the windows;
      [StoreReclaimSession]: maintenance transactions between the session's states, and
      that the loops end (fuel: the binary length of the row limit).
    - [StoreCompaction] ([persistence.rs], [compact_replay] and what it calls,
      [normalize_replay_files], [prepare_storage_work]): publishing a fresh active file,
      copying and moving the rows of every older file in batches, removing files no row
      names, retrying after retiring pages, and the funding of the next append from what
      the file system has.  [StoreCompactionSpec]: moved rows keep every window
      ([repacked]); [StoreCompactionSession]: files and flags; [StoreCompactionOnce]:
      the batches of one source (fuel: its rows and the binary length of the row limit,
      one of which every round lowers), publication, a whole
      pass, and the retries (fuel: the bytes held, each retry retires one).  A UUID is
      displayed without a slash and a fresh one names no file ([plain_uuids],
      [fresh_names]); [CompactDemo] has both.
    - [StoreAppendProps], [StoreCompactionProps]: the invariant of every interleaving of
      writes, reclamations, compactions, fundings and reconciliations, what a transaction
      publishes, what making room and compacting keep, that storage work ends, and the
      one error path that loses committed bytes: a write that ends with an error
      requiring no reconciliation while its record is kept, which the invariant's steps
      therefore leave out.

    - [PersistenceActor], [PersistenceActorSpec], [PersistenceActorTurns],
      [PersistenceActorProps] ([persistence.rs], [actor_main] and the sends of
      [PersistentRun] and [PersistenceInner]): the thread that owns the store.  A turn
      ([turn_body]) is a monadic program that may be left early, as the loop's [continue]
      and [return] do.  The store is the class [ActorStore]; at each look at what is shared
      ([observe]) other threads act first ([Event], [Send]).  Ghost state: commands are
      numbered as they are sent ([sent]), and what the actor did is listed ([acts]).
      A lifecycle slot comes back with the command's end, or with [ReturnSlot] when a
      send is cancelled or fails.
      [PersistenceActorSpec]: the books ([holds]), with the commands in hand before and
      behind the queue; [PersistenceActorTurns]: a triple for each section up to the
      whole turn; [PersistenceActorProps]: exact books, order, ending turns, the lane's
      dependencies, and how a settled transaction lets a command overtake.  Fuel: what is
      queued and what others will still send.

    - [ClientErrors], [ClientInbox], [ClientAttachment], [ClientRequests]
      ([ctxmux-client/src/lib.rs], [attachment.rs], [terminal_seed.rs]): the Rust
      client.  [ClientErrors]: its failures, receipts and the checks an answer has to
      pass.  [ClientInbox]: the bounded view of an attachment's events; [Host] has the
      struct sizes and the allocator ([host_ok]: growth is at least what was asked).
      [tells] says what a view may make of the stream its connection was handed, and
      every [history] of pushes, reads and closings keeps it, the windows and the
      output positions; draining shows all of it.  [ClientAttachment]: the commands
      outstanding on a connection, its reader and writer tasks, detach, failure and
      drop.  [step] interleaves caller, tasks and consumer as the issue lock and
      ownership allow; [ledger] are the books every [Life] keeps: identifiers never
      shared, one answer per channel, exact capacities.  [ClientRequests]: the client's
      requests over a [Net], the dials and lines its peers will answer with; a control
      command knows whether it can have been applied, an accepted snapshot is whole.
      The loops read one line or dial once a turn, which is their fuel.
    ** Fuel

    A recursion that follows a [while] or [loop] carries fuel computed from the
    state it starts in (the number of chunks, of queued events, of bytes left); the
    theorems that state an operation's result prove that this fuel is enough, since
    running out of it is a [Panic].

    ** Not modelled

    Socket and PTY I/O, the poll loop, process spawning and reaping system calls,
    [exec] with descriptor passing ([handoff.rs]), the rest of [persistence.rs]
    (opening the store and its recovery at startup, staged starts; SQLite itself), telemetry ([qualification_stats.rs]),
    command-line parsing, the remote crate and the TypeScript SDK.  Of the client, the
    foreground observation's deadline is left out, and a wait ([await]) is the state in
    which it ends.  The VT emulator, the PTY library
    and serde are third-party code.  The registry's metrics ([sync_registry_stats])
    and hash-map allocation failures other than the ones an operation reports are
    left out. *)

From stdpp Require Export base tactics option list gmap strings pretty numbers sorting.
From Stdlib Require Export NArith ZArith Lia.
From Stdlib Require Export Init.Byte.

#[global] Open Scope N_scope.

(** ** Machine integers

    Rust's [u64]/[usize]/[u32]/[u16] are natural numbers [N] with the width
    written out.  The host is 64-bit, so [usize] and [u64] share one bound.
    [saturating_sub] is [N.sub]. *)

Definition u64_max : N := 18446744073709551615.
Definition usize_max : N := u64_max.
Definition u32_max : N := 4294967295.
Definition i64_max : N := 9223372036854775807.

Definition checked_add (a b : N) : option N :=
  if decide (a + b ≤ u64_max) then Some (a + b) else None.
Definition checked_sub (a b : N) : option N :=
  if decide (b ≤ a) then Some (a - b) else None.
Definition checked_mul (a b : N) : option N :=
  if decide (a * b ≤ u64_max) then Some (a * b) else None.
Definition saturating_add (a b : N) : N := N.min (a + b) u64_max.
Definition saturating_mul (a b : N) : N := N.min (a * b) u64_max.
(** [usize::try_from(u64).unwrap_or(usize::MAX)]. *)
Definition usize_or_max (a : N) : N := if decide (a ≤ usize_max) then a else usize_max.
(** Atomic [fetch_add]/[fetch_sub] wrap. *)
Definition wrapping_add (a b : N) : N := (a + b) mod (u64_max + 1).
Definition wrapping_sub (a b : N) : N := (a + (u64_max + 1) - b) mod (u64_max + 1).
Lemma wrapping_sub_ok a b : b ≤ a → a ≤ u64_max → wrapping_sub a b = a - b.
Proof.
  intros. unfold wrapping_sub.
  replace (a + (u64_max + 1) - b) with (a - b + 1 * (u64_max + 1)) by lia.
  rewrite N.Div0.mod_add, N.mod_small; lia.
Qed.
Lemma wrapping_add_ok a b : a + b ≤ u64_max → wrapping_add a b = a + b.
Proof. intros. unfold wrapping_add. apply N.mod_small. lia. Qed.

Declare Scope ctx_scope.
Delimit Scope ctx_scope with ctx.
Notation "a '+sat' b" := (saturating_add a b) (at level 50, left associativity) : ctx_scope.
Notation "a '-sat' b" := (N.sub a b)
  (at level 50, left associativity, only parsing) : ctx_scope.
#[global] Open Scope ctx_scope.

(** ** Results, panics and the state monad of a locked section *)

Inductive result (A E : Type) : Type :=
  | Ok (a : A)
  | Err (e : E).
Arguments Ok {A E} _.
Arguments Err {A E} _.

Definition result_map {A B E} (f : A → B) (r : result A E) : result B E :=
  match r with Ok a => Ok (f a) | Err e => Err e end.
Definition map_err {A E F} (f : E → F) (r : result A E) : result A F :=
  match r with Ok a => Ok a | Err e => Err (f e) end.
Definition is_ok {A E} (r : result A E) : bool :=
  match r with Ok _ => true | Err _ => false end.
Definition ok_or {A E} (e : E) (o : option A) : result A E :=
  match o with Some a => Ok a | None => Err e end.
Definition result_bind {A B E} (r : result A E) (k : A → result B E) : result B E :=
  match r with Ok a => k a | Err e => Err e end.
Notation "'let?' x ':=' r 'in' k" := (result_bind r (λ x, k))
  (at level 10, x name, r at level 100, k at level 200) : ctx_scope.
Notation "'let?' ' p ':=' r 'in' k" := (result_bind r (λ p, k))
  (at level 10, p strict pattern, r at level 100, k at level 200) : ctx_scope.
Lemma result_bind_Ok {A B E} (r : result A E) (k : A → result B E) b :
  result_bind r k = Ok b ↔ ∃ a, r = Ok a ∧ k a = Ok b.
Proof. destruct r; simpl; naive_solver. Qed.

(** The value of code that may panic: [expect], [assert!], [debug_assert!] and
    plain arithmetic that overflows are the ways the source can stop.  They are
    all values of this type, so "does not panic" is a theorem, and it covers
    the release profile (where [debug_assert!] is skipped and plain arithmetic
    wraps) because a run that never panics is the same run there. *)
Inductive outcome (A : Type) : Type :=
  | Ret (a : A)
  | Panic (why : string).
Arguments Ret {A} _.
Arguments Panic {A} _.

Definition obind {A B} (o : outcome A) (k : A → outcome B) : outcome B :=
  match o with Ret a => k a | Panic w => Panic w end.
Definition expect {A} (why : string) (o : option A) : outcome A :=
  match o with Some a => Ret a | None => Panic why end.
Definition check (why : string) (b : bool) : outcome unit :=
  if b then Ret tt else Panic why.
Notation "'let!' x ':=' o 'in' k" := (obind o (λ x, k))
  (at level 10, x name, o at level 100, k at level 200) : ctx_scope.
Notation "'let!' ' p ':=' o 'in' k" := (obind o (λ p, k))
  (at level 10, p strict pattern, o at level 100, k at level 200) : ctx_scope.

Definition plus_u64 (a b : N) : outcome N :=
  expect "attempt to add with overflow" (checked_add a b).
Definition minus_u64 (a b : N) : outcome N :=
  expect "attempt to subtract with overflow" (checked_sub a b).

(** A locked section: explicit state, early return with [Err], panic. *)
Definition M (S E A : Type) : Type := S → outcome (S * result A E).

Section monad.
Context {S E : Type}.
Definition mret_ {A} (a : A) : M S E A := λ s, Ret (s, Ok a).
Definition mfail {A} (e : E) : M S E A := λ s, Ret (s, Err e).
Definition mpanic {A} (why : string) : M S E A := λ _, Panic why.
Definition bind {A B} (m : M S E A) (k : A → M S E B) : M S E B := λ s,
  match m s with
  | Ret (s', Ok a) => k a s'
  | Ret (s', Err e) => Ret (s', Err e)
  | Panic w => Panic w
  end.
Definition get : M S E S := λ s, Ret (s, Ok s).
Definition put (s : S) : M S E unit := λ _, Ret (s, Ok tt).
Definition modify (f : S → S) : M S E unit := λ s, Ret (f s, Ok tt).
Definition lift_result {A} (r : result A E) : M S E A := λ s, Ret (s, r).
Definition lift_outcome {A} (o : outcome A) : M S E A := λ s,
  match o with Ret a => Ret (s, Ok a) | Panic w => Panic w end.
Definition ensure (b : bool) (e : E) : M S E unit := if b then mret_ tt else mfail e.
Definition debug_assert (b : bool) : M S E unit :=
  if b then mret_ tt else mpanic "debug assertion failed".
Definition when (b : bool) (m : M S E unit) : M S E unit := if b then m else mret_ tt.
Fixpoint mfor {A} (f : A → M S E unit) (l : list A) : M S E unit :=
  match l with
  | [] => mret_ tt
  | x :: l' => bind (f x) (λ _, mfor f l')
  end.

(** Total correctness: the section does not panic and ends in [Q]. *)
Definition wp {A} (m : M S E A) (s : S) (Q : S → result A E → Prop) : Prop :=
  match m s with Ret (s', r) => Q s' r | Panic _ => False end.
End monad.

Notation "'let*' x ':=' m 'in' k" := (bind m (λ x, k))
  (at level 10, x name, m at level 100, k at level 200) : ctx_scope.
Notation "'let*' ' p ':=' m 'in' k" := (bind m (λ p, k))
  (at level 10, p strict pattern, m at level 100, k at level 200) : ctx_scope.
Notation "m ';;;' k" := (bind m (λ _, k))
  (at level 199, right associativity) : ctx_scope.

Section wp.
Context {S E : Type}.
Implicit Types s : S.

Lemma wp_ret {A} (a : A) s (Q : S → result A E → Prop) :
  wp (mret_ a) s Q ↔ Q s (Ok a).
Proof. done. Qed.
Lemma wp_fail {A} (e : E) s (Q : S → result A E → Prop) :
  wp (mfail e) s Q ↔ Q s (Err e).
Proof. done. Qed.
Lemma wp_panic {A} w s (Q : S → result A E → Prop) : wp (mpanic w) s Q ↔ False.
Proof. done. Qed.
Lemma wp_get s (Q : S → result S E → Prop) : wp get s Q ↔ Q s (Ok s).
Proof. done. Qed.
Lemma wp_put s s' (Q : S → result unit E → Prop) : wp (put s') s Q ↔ Q s' (Ok tt).
Proof. done. Qed.
Lemma wp_modify f s (Q : S → result unit E → Prop) : wp (modify f) s Q ↔ Q (f s) (Ok tt).
Proof. done. Qed.
Lemma wp_lift_result {A} (r : result A E) s (Q : S → result A E → Prop) :
  wp (lift_result r) s Q ↔ Q s r.
Proof. done. Qed.
Lemma wp_bind {A B} (m : M S E A) (k : A → M S E B) s Q :
  wp (bind m k) s Q ↔
  wp m s (λ s' r, match r with Ok a => wp (k a) s' Q | Err e => Q s' (Err e) end).
Proof. unfold wp, bind. destruct (m s) as [[s' [a|e]]|w]; done. Qed.
Lemma wp_ensure b (e : E) s (Q : S → result unit E → Prop) :
  wp (ensure b e) s Q ↔ if b then Q s (Ok tt) else Q s (Err e).
Proof. by destruct b. Qed.
Lemma wp_debug_assert b s (Q : S → result unit E → Prop) :
  wp (debug_assert b) s Q ↔ b = true ∧ Q s (Ok tt).
Proof. destruct b; unfold debug_assert, wp; naive_solver. Qed.
Lemma wp_lift_outcome {A} (o : outcome A) s (Q : S → result A E → Prop) :
  wp (lift_outcome o) s Q ↔ ∃ a, o = Ret a ∧ Q s (Ok a).
Proof. destruct o; unfold lift_outcome, wp; naive_solver. Qed.
Lemma wp_mono {A} (m : M S E A) s (Q Q' : S → result A E → Prop) :
  wp m s Q → (∀ s' r, Q s' r → Q' s' r) → wp m s Q'.
Proof. unfold wp. destruct (m s) as [[s' r]|]; auto. Qed.
Lemma wp_conj {A} (m : M S E A) s (Q Q' : S → result A E → Prop) :
  wp m s Q → wp m s Q' → wp m s (λ s' r, Q s' r ∧ Q' s' r).
Proof. unfold wp. destruct (m s) as [[s' r]|]; auto. Qed.
Lemma wp_elim {A} (m : M S E A) s Q :
  wp m s Q → ∃ s' r, m s = Ret (s', r) ∧ Q s' r.
Proof. unfold wp. destruct (m s) as [[s' r]|]; naive_solver. Qed.
Lemma wp_intro {A} (m : M S E A) s s' r Q : m s = Ret (s', r) → Q s' r → wp m s Q.
Proof. unfold wp. by intros ->. Qed.
End wp.

Create Rewrite HintDb wp.
#[export] Hint Rewrite @wp_ret @wp_fail @wp_panic @wp_get @wp_put @wp_modify
  @wp_lift_result @wp_bind @wp_ensure @wp_debug_assert @wp_lift_outcome : wp.
(** One round of symbolic execution of a locked section. *)
Ltac wp_simp := repeat (progress (autorewrite with wp; cbn beta iota match)).

(** ** Sums *)

Definition len {A} (l : list A) : N := N.of_nat (length l).

Definition sumN {A} (f : A → N) (l : list A) : N := foldr (λ x acc, f x + acc) 0 l.

Section sums.
Context {A : Type} (f : A → N).
Implicit Types l : list A.

Lemma len_nil : len (@nil A) = 0.
Proof. done. Qed.
Lemma len_cons x l : len (x :: l) = 1 + len l.
Proof. unfold len. cbn [length]. lia. Qed.
Lemma len_app l l' : len (l ++ l') = len l + len l'.
Proof. unfold len. rewrite length_app. lia. Qed.
Lemma len_take n l : len (take n l) = N.min (N.of_nat n) (len l).
Proof. unfold len. rewrite length_take. lia. Qed.
Lemma len_drop n l : len (drop n l) = len l - N.of_nat n.
Proof. unfold len. rewrite length_drop. lia. Qed.
Lemma len_zero l : len l = 0 ↔ l = [].
Proof. destruct l; [done|]. rewrite len_cons. split; [lia|done]. Qed.

Lemma sumN_nil : sumN f [] = 0.
Proof. done. Qed.
Lemma sumN_cons x l : sumN f (x :: l) = f x + sumN f l.
Proof. done. Qed.
Lemma sumN_app l l' : sumN f (l ++ l') = sumN f l + sumN f l'.
Proof. induction l as [|x l IH]; cbn [app]; rewrite ?sumN_nil, ?sumN_cons; lia. Qed.
#[global] Instance sumN_perm : Proper ((≡ₚ) ==> (=)) (sumN f).
Proof. induction 1; rewrite ?sumN_cons; lia. Qed.
Lemma sumN_elem x l : x ∈ l → f x ≤ sumN f l.
Proof. induction 1; rewrite sumN_cons; lia. Qed.
End sums.

Lemma len_map {A B} (f : A → B) (l : list A) : len (map f l) = len l.
Proof. unfold len. by rewrite length_map. Qed.
Lemma sumN_ext {A} (f g : A → N) l : (∀ x, x ∈ l → f x = g x) → sumN f l = sumN g l.
Proof.
  induction l as [|x l IH]; intros H; [done|].
  rewrite !sumN_cons, H, IH; [done| |]; set_solver.
Qed.
Lemma sumN_map_id {A} (f : A → N) l : sumN f l = sumN id (map f l).
Proof. induction l as [|x l IH]; cbn [map]; rewrite ?sumN_nil, ?sumN_cons; [done|]. by rewrite IH. Qed.
Lemma sumN_const_len {A} (l : list A) : sumN (λ _, 1) l = len l.
Proof. induction l; [done|]. rewrite sumN_cons, len_cons. lia. Qed.
Lemma len_concat {A} (ls : list (list A)) : len (concat ls) = sumN len ls.
Proof. induction ls; [done|]. cbn [concat]. rewrite len_app, sumN_cons. lia. Qed.

(** Sums over the values of a map. *)
Definition msum {K V} `{Countable K} (f : V → N) (m : gmap K V) : N :=
  sumN (λ kv, f kv.2) (map_to_list m).

Section msums.
Context {K V : Type} `{Countable K} (f : V → N).
Implicit Types m : gmap K V.

Lemma msum_empty : msum f (∅ : gmap K V) = 0.
Proof. unfold msum. by rewrite map_to_list_empty. Qed.
Lemma msum_insert_None m k v : m !! k = None → msum f (<[k:=v]> m) = f v + msum f m.
Proof. intros Hk. unfold msum. by rewrite (map_to_list_insert m k v Hk), sumN_cons. Qed.
Lemma msum_delete m k v : m !! k = Some v → msum f m = f v + msum f (delete k m).
Proof.
  intros Hk. rewrite <-(insert_delete_id m k v Hk) at 1.
  by rewrite msum_insert_None by apply lookup_delete_eq.
Qed.
Lemma msum_insert_Some m k v v' :
  m !! k = Some v → msum f (<[k:=v']> m) + f v = msum f m + f v'.
Proof.
  intros Hk. rewrite (msum_delete m k v Hk), <-insert_delete_eq.
  rewrite msum_insert_None by apply lookup_delete_eq. lia.
Qed.
Lemma msum_lookup_le m k v : m !! k = Some v → f v ≤ msum f m.
Proof. intros Hk. rewrite (msum_delete m k v Hk). lia. Qed.
End msums.

(** ** Tactics *)

(** Unfold the machine-integer helpers and finish arithmetically; the bounds
    themselves stay folded. *)
Ltac machine :=
  unfold checked_add, checked_sub, checked_mul, saturating_add, saturating_mul,
    usize_or_max, wrapping_add, wrapping_sub, plus_u64, minus_u64, expect, check,
    usize_max in *;
  repeat case_decide; simplify_eq; try lia; try done.

Lemma checked_add_Some a b c : checked_add a b = Some c ↔ c = a + b ∧ a + b ≤ u64_max.
Proof. unfold checked_add. case_decide; naive_solver. Qed.
Lemma checked_sub_Some a b c : checked_sub a b = Some c ↔ c = a - b ∧ b ≤ a.
Proof. unfold checked_sub. case_decide; naive_solver. Qed.
Lemma checked_mul_Some a b c : checked_mul a b = Some c ↔ c = a * b ∧ a * b ≤ u64_max.
Proof. unfold checked_mul. case_decide; naive_solver. Qed.
Lemma plus_u64_ok a b : a + b ≤ u64_max → plus_u64 a b = Ret (a + b).
Proof. intros. unfold plus_u64, checked_add. by rewrite decide_True. Qed.
Lemma minus_u64_ok a b : b ≤ a → minus_u64 a b = Ret (a - b).
Proof. intros. unfold minus_u64, checked_sub. by rewrite decide_True. Qed.
Lemma usize_or_max_le a : usize_or_max a ≤ a ∧ usize_or_max a ≤ usize_max.
Proof. unfold usize_or_max. case_decide; lia. Qed.
Lemma usize_or_max_id a : a ≤ usize_max → usize_or_max a = a.
Proof. intros. unfold usize_or_max. by rewrite decide_True. Qed.

Create Rewrite HintDb lens.
#[export] Hint Rewrite @len_nil @len_cons @len_app @len_take @len_drop @len_map
  @sumN_nil @sumN_cons @sumN_app @msum_empty : lens.
Ltac simp_len := autorewrite with lens in *.

Lemma StronglySorted_lookup {A} (R : relation A) l i j x y :
  Sorted.StronglySorted R l → (i < j)%nat → l !! i = Some x → l !! j = Some y → R x y.
Proof.
  intros Hs. revert i j. induction Hs as [|z l Hs IH Hall]; intros i j Hij; [done|].
  destruct j as [|j]; [lia|]. destruct i as [|i]; simpl.
  - intros [= ->] Hj. rewrite List.Forall_forall in Hall. apply Hall, list_elem_of_In.
    by eapply list_elem_of_lookup_2.
  - apply IH. lia.
Qed.

(** ** Take and drop by [N] *)
Definition takeN {A} (n : N) (l : list A) : list A := take (N.to_nat n) l.
Definition dropN {A} (n : N) (l : list A) : list A := drop (N.to_nat n) l.

Section takedrop.
Context {A : Type}.
Implicit Types l : list A.
Lemma takeN_dropN n l : takeN n l ++ dropN n l = l.
Proof. apply take_drop. Qed.
Lemma len_takeN n l : len (takeN n l) = N.min n (len l).
Proof. unfold takeN. rewrite len_take. lia. Qed.
Lemma len_dropN n l : len (dropN n l) = len l - n.
Proof. unfold dropN. rewrite len_drop. lia. Qed.
Lemma dropN_dropN n m l : dropN n (dropN m l) = dropN (m + n) l.
Proof. unfold dropN. rewrite drop_drop. f_equal. lia. Qed.
Lemma dropN_app_ge n l l' : len l ≤ n → dropN n (l ++ l') = dropN (n - len l) l'.
Proof. intros. unfold dropN, len in *. rewrite drop_app_ge by lia. f_equal. lia. Qed.
Lemma dropN_app_le n l l' : n ≤ len l → dropN n (l ++ l') = dropN n l ++ l'.
Proof. intros. unfold dropN, len in *. rewrite drop_app_le by lia. done. Qed.
Lemma takeN_app_ge n l l' : len l ≤ n → takeN n (l ++ l') = l ++ takeN (n - len l) l'.
Proof. intros. unfold takeN, len in *. rewrite take_app_ge by lia. do 2 f_equal. lia. Qed.
Lemma takeN_app_le n l l' : n ≤ len l → takeN n (l ++ l') = takeN n l.
Proof. intros. unfold takeN, len in *. by rewrite take_app_le by lia. Qed.
Lemma dropN_0 l : dropN 0 l = l.
Proof. done. Qed.
Lemma dropN_ge n l : len l ≤ n → dropN n l = [].
Proof. intros. unfold dropN, len in *. apply drop_ge. lia. Qed.
Lemma takeN_ge n l : len l ≤ n → takeN n l = l.
Proof. intros. unfold takeN, len in *. apply take_ge. lia. Qed.
Lemma takeN_0 l : takeN 0 l = [].
Proof. done. Qed.
Lemma takeN_takeN n m l : takeN n (takeN m l) = takeN (N.min n m) l.
Proof. unfold takeN. rewrite take_take. f_equal. lia. Qed.
Lemma takeN_app n l l' : takeN n (l ++ l') = takeN n l ++ takeN (n - len l) l'.
Proof. unfold takeN, len. rewrite take_app. do 2 f_equal. lia. Qed.
Lemma dropN_app n l l' : dropN n (l ++ l') = dropN n l ++ dropN (n - len l) l'.
Proof. unfold dropN, len. rewrite drop_app. do 2 f_equal. lia. Qed.
Lemma takeN_nil n : takeN n (@nil A) = [].
Proof. unfold takeN. by rewrite take_nil. Qed.
Lemma dropN_nil n : dropN n (@nil A) = [].
Proof. unfold dropN. by rewrite drop_nil. Qed.
Lemma dropN_takeN n m l : dropN n (takeN m l) = takeN (m - n) (dropN n l).
Proof.
  unfold takeN, dropN.
  replace (N.to_nat (m - n)) with (N.to_nat m - N.to_nat n)%nat by lia.
  destruct (decide (N.to_nat n ≤ N.to_nat m)%nat).
  - rewrite take_drop_commute. do 2 f_equal. lia.
  - rewrite (drop_ge (take _ _)) by (rewrite length_take; lia).
    by replace (N.to_nat m - N.to_nat n)%nat with 0%nat by lia.
Qed.
End takedrop.
#[export] Hint Rewrite @len_takeN @len_dropN : lens.
#[global] Arguments sumN : simpl never.
#[global] Arguments msum : simpl never.
#[global] Arguments len : simpl never.
#[global] Arguments takeN : simpl never.
#[global] Arguments dropN : simpl never.
