(* ===== verification/Protocol.v ===== *)
(** * Protocol

    The wire vocabulary of [crates/ctxmux-protocol/src/lib.rs] that the owners
    below exchange: identities, operation keys, errors, control receipts and
    events, together with the validators, the capability-version number parser
    and the duplicate-member check applied to every decoded frame. *)

From S2P Require Import Prelude.

(** ** Identities and bounded keys *)

(** [RunId] wraps a 128-bit UUID and is ordered like its value. *)
Abbreviation RunId := N (only parsing).

(** [Display for RunId] is the [uuid] crate's: a parameter of the model. *)
Class UuidDisplay := show_run_id : RunId → string.

Definition MAX_FRAME_BYTES : N := 1024 * 1024.
Definition LIST_MAX_PAGE_RUNS : N := 512.
Definition MAX_CREATE_OPERATION_KEY_BYTES : N := 128.
Definition MAX_INPUT_OPERATION_KEY_BYTES : N := 128.
Definition MAX_STOP_OPERATION_KEY_BYTES : N := 128.
Definition MAX_RUNTIME_BUILD_ID_BYTES : N := 128.
Definition MAX_RUNTIME_CAPABILITY_VERSION : N := 9007199254740991.

(** A Rust [String]/[&str] is its UTF-8 bytes. *)
Definition slen (s : string) : N := N.of_nat (String.length s).

Abbreviation CreateOperationKey := string (only parsing).
Abbreviation InputOperationKey := string (only parsing).
Abbreviation StopOperationKey := string (only parsing).

Inductive OperationKeyError :=
  | KeyEmpty
  | KeyTooLong (actual maximum : N).

Definition validate_key (maximum : N) (key : string) : result unit OperationKeyError :=
  let bytes := slen key in
  if decide (bytes = 0) then Err KeyEmpty
  else if decide (maximum < bytes) then Err (KeyTooLong bytes maximum)
  else Ok tt.

Definition create_key_validate (key : CreateOperationKey) : result unit OperationKeyError :=
  validate_key MAX_CREATE_OPERATION_KEY_BYTES key.
Definition input_key_validate (key : InputOperationKey) : result unit OperationKeyError :=
  validate_key MAX_INPUT_OPERATION_KEY_BYTES key.
Definition stop_key_validate (key : StopOperationKey) : result unit OperationKeyError :=
  validate_key MAX_STOP_OPERATION_KEY_BYTES key.
Definition build_id_validate (id : string) : result unit OperationKeyError :=
  validate_key MAX_RUNTIME_BUILD_ID_BYTES id.
Definition create_key_new (value : string) : result CreateOperationKey OperationKeyError :=
  let? _ := create_key_validate value in Ok value.

Definition create_key_error_display (e : OperationKeyError) : string :=
  match e with
  | KeyEmpty => "Run creation operation key must not be empty"
  | KeyTooLong actual maximum =>
      "Run creation operation key is " +:+ pretty actual +:+ " bytes; maximum is " +:+ pretty maximum
  end.
Definition input_key_error_display (e : OperationKeyError) : string :=
  match e with
  | KeyEmpty => "native Input operation key must not be empty"
  | KeyTooLong actual maximum =>
      "native Input operation key is " +:+ pretty actual +:+ " bytes; maximum is " +:+ pretty maximum
  end.
Definition stop_key_error_display (e : OperationKeyError) : string :=
  match e with
  | KeyEmpty => "native Stop operation key must not be empty"
  | KeyTooLong actual maximum =>
      "native Stop operation key is " +:+ pretty actual +:+ " bytes; maximum is " +:+ pretty maximum
  end.

(** [AttachmentCommandId::new] over [u32]. *)
Inductive AttachmentCommandIdError := CommandIdZero.
Definition attachment_command_id_new (value : N) : result N AttachmentCommandIdError :=
  if decide (value = 0) then Err CommandIdZero else Ok value.

(** ** Geometry, specifications and lifecycle *)

Record TerminalSize := { cols : N; rows : N }.
#[global] Instance TerminalSize_eq_dec : EqDecision TerminalSize.
Proof. solve_decision. Defined.
Definition TerminalSize_default : TerminalSize := {| cols := 80; rows := 24 |}.

Inductive RunInputKind := Workspace | Artifact | ContextInput.
#[global] Instance RunInputKind_eq_dec : EqDecision RunInputKind.
Proof. solve_decision. Defined.

Record RunInputReference := { input_kind : RunInputKind; reference : string }.
#[global] Instance RunInputReference_eq_dec : EqDecision RunInputReference.
Proof. solve_decision. Defined.

Record RunSpec := {
  program : string;
  args : list string;
  cwd : option string;
  env : gmap string string;
  initial_size : TerminalSize;
  declared_inputs : list RunInputReference;
}.
#[global] Instance RunSpec_eq_dec : EqDecision RunSpec.
Proof. solve_decision. Defined.

Inductive ForkFidelity := LevelAFidelity | LevelBFidelity.
#[global] Instance ForkFidelity_eq_dec : EqDecision ForkFidelity.
Proof. solve_decision. Defined.

Record RunLineage := { lineage_parent : RunId; lineage_fidelity : ForkFidelity }.
#[global] Instance RunLineage_eq_dec : EqDecision RunLineage.
Proof. solve_decision. Defined.

Inductive ForkPlan := LevelA | LevelB (spec : RunSpec).
#[global] Instance ForkPlan_eq_dec : EqDecision ForkPlan.
Proof. solve_decision. Defined.

Inductive InterruptionReason :=
  | DaemonRestart | TmuxServerUnavailable | TmuxProtocolError | TmuxTargetChanged.
#[global] Instance InterruptionReason_eq_dec : EqDecision InterruptionReason.
Proof. solve_decision. Defined.

Inductive RunState :=
  | Running
  | Exited (code : N) (signal : option string)
  | Interrupted (reason : InterruptionReason).
#[global] Instance RunState_eq_dec : EqDecision RunState.
Proof. solve_decision. Defined.

Definition run_state_is_running (s : RunState) : bool :=
  match s with Running => true | _ => false end.

(** ** Native service facts *)

Inductive NativeOwnerIoStage := Poll | WakeDrain.
Inductive NativeServiceFailure :=
  | OwnerStopped
  | OwnerUnwound
  | OwnerIoFailed (stage : NativeOwnerIoStage) (os_error : option Z)
  | ReadFailed
  | WriteFailed
  | Historical
  | ControlClosed.
Inductive NativeOwnerStatus :=
  | OwnerStarting | OwnerServing | OwnerDraining
  | OwnerStoppedStatus (reason : NativeServiceFailure).
Inductive NativeOutputStatus :=
  | OutputPending | OutputServing | OutputBackpressured | OutputClosed
  | OutputUnavailable (reason : NativeServiceFailure).
Inductive NativeInputPhase :=
  | InputOpen | InputClosed | InputUnavailable (reason : NativeServiceFailure).
Inductive NativeTerminalFaultStage := StageProcess | StageResize | StageExport | StageRecovery.

Record NativeInputStatus := {
  input_phase : NativeInputPhase;
  unsettled_commands : N;
  unsettled_request_bytes : N;
  write_blocked : bool;
  completed_input_bytes : option N;
  current_size : option TerminalSize;
  active_confirmed_bytes : N;
}.
Record NativeTerminalFault := { fault_stage : NativeTerminalFaultStage; fault_through_byte : N }.
Record NativeServiceSnapshot := {
  revision : N;
  owner : NativeOwnerStatus;
  output : NativeOutputStatus;
  input : NativeInputStatus;
  terminal_fault : option NativeTerminalFault;
}.

#[global] Instance NativeOwnerIoStage_eq_dec : EqDecision NativeOwnerIoStage.
Proof. solve_decision. Defined.
#[global] Instance NativeServiceFailure_eq_dec : EqDecision NativeServiceFailure.
Proof. solve_decision. Defined.
#[global] Instance NativeOwnerStatus_eq_dec : EqDecision NativeOwnerStatus.
Proof. solve_decision. Defined.
#[global] Instance NativeOutputStatus_eq_dec : EqDecision NativeOutputStatus.
Proof. solve_decision. Defined.
#[global] Instance NativeInputPhase_eq_dec : EqDecision NativeInputPhase.
Proof. solve_decision. Defined.
#[global] Instance NativeTerminalFaultStage_eq_dec : EqDecision NativeTerminalFaultStage.
Proof. solve_decision. Defined.
#[global] Instance NativeInputStatus_eq_dec : EqDecision NativeInputStatus.
Proof. solve_decision. Defined.
#[global] Instance NativeTerminalFault_eq_dec : EqDecision NativeTerminalFault.
Proof. solve_decision. Defined.
#[global] Instance NativeServiceSnapshot_eq_dec : EqDecision NativeServiceSnapshot.
Proof. solve_decision. Defined.

(** ** Output ranges *)

Abbreviation bytes := (list byte) (only parsing).
#[global] Instance byte_eq_dec : EqDecision byte := Byte.byte_eq_dec.

Record OutputChunk := { start_byte : N; end_byte : N; data : bytes }.
#[global] Instance OutputChunk_eq_dec : EqDecision OutputChunk.
Proof. solve_decision. Defined.

Record OutputReplay := {
  replay_chunks : list OutputChunk;
  replay_first_available_byte : N;
  replay_latest_output_bytes : N;
  replay_truncated : bool;
}.

(** ** Terminal checkpoints *)

Record TerminalCheckpointHeader := {
  cp_run_id : RunId;
  cp_through_byte : N;
  cp_resize_revision : N;
  cp_size : TerminalSize;
  cp_restore_size : TerminalSize;
  cp_restore_scrollback_rows : option N;
  cp_resize_after_restore_bytes : N;
  cp_restore_bytes : N;
}.
Record TerminalResize := {
  resize_through_byte : N;
  resize_resize_revision : N;
  resize_size : TerminalSize;
}.
Inductive TerminalCheckpointUnavailableReason :=
  | OriginUnknown | SourceGap | TailEvicted | CheckpointTooLarge | InvalidCheckpoint.
#[global] Instance TerminalCheckpointUnavailableReason_eq_dec :
  EqDecision TerminalCheckpointUnavailableReason.
Proof. solve_decision. Defined.
Inductive TerminalContinuation :=
  | NotRequested
  | BasicVt (checkpoint : TerminalCheckpointHeader) (resizes : list TerminalResize)
  | UnknownContinuation (reason : TerminalCheckpointUnavailableReason)
  | UnavailableContinuation (reason : TerminalCheckpointUnavailableReason).

(** ** Errors *)

Inductive ErrorCode :=
  | VersionMismatch | InvalidRequest | RunNotFound | InvalidRunState | SpawnFailed | Io
  | Persistence | BackendUnavailable | UnsupportedBackendVersion | UnsupportedCapability
  | TargetChanged | CreationConflict | InputOperationConflict | StopOperationConflict
  | InputCursorMismatch | DaemonInstanceMismatch | RunCapacity | ControlBackpressure
  | ResponseTooLarge | Internal.
#[global] Instance ErrorCode_eq_dec : EqDecision ErrorCode.
Proof. solve_decision. Defined.

Inductive CommandDisposition := NotApplied | Unknown.
#[global] Instance CommandDisposition_eq_dec : EqDecision CommandDisposition.
Proof. solve_decision. Defined.

Inductive StorageFailureStage :=
  | StorageOpen | StorageRead | StorageStart | StorageAppend | StorageFinalize
  | StorageMaintenance | StorageCheckpoint.
Inductive StorageTransactionOutcome :=
  | TxNotStarted | TxNotCommitted | TxCommitted | TxUnknown.
Record StorageFailure := {
  storage_stage : option StorageFailureStage;
  sqlite_primary_code : option Z;
  sqlite_extended_code : option Z;
  system_errno : option Z;
  transaction_outcome : StorageTransactionOutcome;
}.
Record CreationFailure := {
  failed_operation_key : CreateOperationKey;
  creation_disposition : CommandDisposition;
}.
#[global] Instance StorageFailureStage_eq_dec : EqDecision StorageFailureStage.
Proof. solve_decision. Defined.
#[global] Instance StorageTransactionOutcome_eq_dec : EqDecision StorageTransactionOutcome.
Proof. solve_decision. Defined.
#[global] Instance StorageFailure_eq_dec : EqDecision StorageFailure.
Proof. solve_decision. Defined.
#[global] Instance CreationFailure_eq_dec : EqDecision CreationFailure.
Proof. solve_decision. Defined.

Record ProtocolError := {
  code : ErrorCode;
  message : string;
  creation_failure : option CreationFailure;
  storage_failure : option StorageFailure;
}.
#[global] Instance ProtocolError_eq_dec : EqDecision ProtocolError.
Proof. solve_decision. Defined.
Definition protocol_error (c : ErrorCode) (m : string) : ProtocolError :=
  {| code := c; message := m; creation_failure := None; storage_failure := None |}.

(** ** Control *)

Inductive RunSignal := Interrupt.
#[global] Instance RunSignal_eq_dec : EqDecision RunSignal.
Proof. solve_decision. Defined.
Inductive StopDisposition := Graceful | Forced.
#[global] Instance StopDisposition_eq_dec : EqDecision StopDisposition.
Proof. solve_decision. Defined.

Inductive ControlReceipt :=
  | InputReceipt (written_bytes : N)
  | ResizeReceipt (applied_size : TerminalSize)
  | SignalReceipt (signal : RunSignal)
  | StopReceipt (disposition : StopDisposition).
#[global] Instance ControlReceipt_eq_dec : EqDecision ControlReceipt.
Proof. solve_decision. Defined.

Record ControlFailure := {
  error : ProtocolError;
  disposition : CommandDisposition;
  confirmed_input_bytes : option N;
}.
#[global] Instance ControlFailure_eq_dec : EqDecision ControlFailure.
Proof. solve_decision. Defined.

Definition ControlResult : Type := result ControlReceipt ControlFailure.
#[global] Instance result_eq_dec {A E} `{EqDecision A, EqDecision E} : EqDecision (result A E).
Proof. solve_decision. Defined.

Record AppliedInputRange := { range_start_byte : N; range_end_byte : N }.
#[global] Instance AppliedInputRange_eq_dec : EqDecision AppliedInputRange.
Proof. solve_decision. Defined.

(** ** Discontinuity causes and events *)

Record OutputGapCauses := {
  live_event_pressure : bool;
  subscriber_lag : bool;
  source_discontinuity : bool;
  terminal_catchup : bool;
  geometry_lag : bool;
  client_view_pressure : bool;
  unknown_cause : bool;
}.
#[global] Instance OutputGapCauses_eq_dec : EqDecision OutputGapCauses.
Proof. solve_decision. Defined.

Module OutputGapCauses.
Definition NONE : OutputGapCauses :=
  {| live_event_pressure := false; subscriber_lag := false; source_discontinuity := false;
     terminal_catchup := false; geometry_lag := false; client_view_pressure := false;
     unknown_cause := false |}.
Definition LIVE_EVENT_PRESSURE : OutputGapCauses :=
  {| live_event_pressure := true; subscriber_lag := false; source_discontinuity := false;
     terminal_catchup := false; geometry_lag := false; client_view_pressure := false;
     unknown_cause := false |}.
Definition SOURCE_DISCONTINUITY : OutputGapCauses :=
  {| live_event_pressure := false; subscriber_lag := false; source_discontinuity := true;
     terminal_catchup := false; geometry_lag := false; client_view_pressure := false;
     unknown_cause := false |}.
Definition SUBSCRIBER_LAG : OutputGapCauses :=
  {| live_event_pressure := false; subscriber_lag := true; source_discontinuity := false;
     terminal_catchup := false; geometry_lag := false; client_view_pressure := false;
     unknown_cause := false |}.
Definition TERMINAL_CATCHUP : OutputGapCauses :=
  {| live_event_pressure := false; subscriber_lag := false; source_discontinuity := false;
     terminal_catchup := true; geometry_lag := false; client_view_pressure := false;
     unknown_cause := false |}.
Definition GEOMETRY_LAG : OutputGapCauses :=
  {| live_event_pressure := false; subscriber_lag := false; source_discontinuity := false;
     terminal_catchup := false; geometry_lag := true; client_view_pressure := false;
     unknown_cause := false |}.
Definition UNKNOWN : OutputGapCauses :=
  {| live_event_pressure := false; subscriber_lag := false; source_discontinuity := false;
     terminal_catchup := false; geometry_lag := false; client_view_pressure := false;
     unknown_cause := true |}.
Definition union (a b : OutputGapCauses) : OutputGapCauses :=
  {| live_event_pressure := live_event_pressure a || live_event_pressure b;
     subscriber_lag := subscriber_lag a || subscriber_lag b;
     source_discontinuity := source_discontinuity a || source_discontinuity b;
     terminal_catchup := terminal_catchup a || terminal_catchup b;
     geometry_lag := geometry_lag a || geometry_lag b;
     client_view_pressure := client_view_pressure a || client_view_pressure b;
     unknown_cause := unknown_cause a || unknown_cause b |}.
(** The wire decoder: no observed cause is refused. *)
Definition deserialize (fields : OutputGapCauses) : result OutputGapCauses string :=
  if decide (fields = NONE)
  then Err "Gap requires an observed cause or explicit unknown"
  else Ok fields.
End OutputGapCauses.

Inductive TmuxRunEvent := SessionRenamedEvent (name : bytes) | PausedEvent | ContinuedEvent.
#[global] Instance TmuxRunEvent_eq_dec : EqDecision TmuxRunEvent.
Proof. solve_decision. Defined.

Inductive RunEvent :=
  | OutputEvent (chunk : OutputChunk)
  | ServiceChanged (service : NativeServiceSnapshot)
  | Resized (size : TerminalSize) (through_byte resize_revision : N)
  | ExitedEvent (state : RunState)
  | InterruptedEvent (reason : InterruptionReason)
  | Tmux (event : TmuxRunEvent)
  | ObservationDiscontinuity
  | Gap (latest_output_bytes : N) (causes : OutputGapCauses).

(** ** Capability versions *)

Inductive RuntimeCapabilityVersionError :=
  | VersionZero
  | ExceedsSafeInteger (actual maximum : N).

Definition validate_runtime_capability_version (version : N)
    : result unit RuntimeCapabilityVersionError :=
  if decide (version = 0) then Err VersionZero
  else if decide (MAX_RUNTIME_CAPABILITY_VERSION < version)
  then Err (ExceedsSafeInteger version MAX_RUNTIME_CAPABILITY_VERSION)
  else Ok tt.

Definition runtime_capability_version_error_display (e : RuntimeCapabilityVersionError) : string :=
  match e with
  | VersionZero => "Runtime capability version must be greater than zero"
  | ExceedsSafeInteger actual maximum =>
      "Runtime capability version " +:+ pretty actual +:+
      " exceeds the safe-integer maximum " +:+ pretty maximum
  end.
