(* ===== verification/TerminalCheckpoint.v ===== *)
(** * Terminal checkpoint

    [crates/ctxmux-daemon/src/terminal_checkpoint.rs]: the derived terminal
    model of one Run, its exported seed and its recovery.  The VT parser is the
    vendored [vt100] crate and is a parameter ([VtParser]); a library unwind is
    the [Panic] outcome of its operations. *)

From S2P Require Import Prelude.
From S2P Require Import Protocol.

Record VtSeed := {
  seed_source_rows : N;
  seed_source_cols : N;
  seed_restore_rows : N;
  seed_restore_cols : N;
  seed_restore_scrollback_rows : option N;
  seed_restore_bytes : bytes;
  seed_final_bytes : bytes;
}.

Class VtParser (P : Type) := {
  vt_new : N → N → N → outcome P;  (** rows, columns, scrollback rows *)
  vt_process : P → bytes → outcome P;
  vt_set_size : P → N → N → outcome P;
  vt_set_scrollback_limit : P → N → outcome P;
  vt_size : P → N * N;
  vt_is_ground : P → bool;
  vt_checkpoint : P → outcome (option VtSeed);
}.

(** A library unwind invalidates one model and nothing else. *)
Definition derive_terminal {T} (derive : outcome T) : option T :=
  match derive with Ret v => Some v | Panic _ => None end.

Definition HISTORY_ROWS : N := 10000.
Definition MAX_RESTORE_BYTES : N := 32 * 1024 * 1024.
Definition MAX_RESIZE_TAIL : N := 1024.

Record StoredCheckpoint := {
  checkpoint : TerminalCheckpointHeader;
  restore : bytes;
  resizes : list TerminalResize;
}.

Section model.
Context {P : Type} `{!VtParser P}.

Record TerminalModel := {
  parser : P;
  tm_checkpoint : option StoredCheckpoint;
  tm_resize_revision : N;
  geometry_valid : bool;
}.

Definition tm_size (t : TerminalModel) : TerminalSize :=
  let '(r, c) := vt_size (parser t) in {| rows := r; cols := c |}.

Definition tm_process (t : TerminalModel) (d : bytes) : outcome TerminalModel :=
  let! p := vt_process (parser t) d in
  Ret {| parser := p; tm_checkpoint := tm_checkpoint t;
         tm_resize_revision := tm_resize_revision t; geometry_valid := geometry_valid t |}.

Definition tm_resize (t : TerminalModel) (size : TerminalSize) (through_byte : N)
    : outcome (TerminalModel * TerminalResize) :=
  let! revision := plus_u64 (tm_resize_revision t) 1 in
  let! p := vt_set_size (parser t) (rows size) (cols size) in
  let resize := {| resize_through_byte := through_byte;
                   resize_resize_revision := revision; resize_size := size |} in
  let '(cp, valid) :=
    match tm_checkpoint t with
    | None => (None, geometry_valid t)
    | Some cp =>
        if decide (len (resizes cp) = MAX_RESIZE_TAIL) then (Some cp, false)
        else (Some {| checkpoint := checkpoint cp; restore := restore cp;
                      resizes := resizes cp ++ [resize] |}, geometry_valid t)
    end in
  Ret ({| parser := p; tm_checkpoint := cp;
          tm_resize_revision := revision; geometry_valid := valid |}, resize).

Definition tm_cut (t : TerminalModel) (id : RunId) (through_byte : N)
    : outcome (TerminalModel * bool) :=
  let! seed := vt_checkpoint (parser t) in
  match seed with
  | None => Ret (t, false)
  | Some seed =>
      let prefix_bytes := len (seed_restore_bytes seed) in
      match checked_add prefix_bytes (len (seed_final_bytes seed)) with
      | None => Ret (t, false)
      | Some total =>
          if decide (MAX_RESTORE_BYTES < total) then Ret (t, false) else
          let restored := seed_restore_bytes seed ++ seed_final_bytes seed in
          Ret ({| parser := parser t;
                  tm_checkpoint := Some {|
                    checkpoint := {|
                      cp_run_id := id;
                      cp_through_byte := through_byte;
                      cp_resize_revision := tm_resize_revision t;
                      cp_size := {| rows := seed_source_rows seed;
                                    cols := seed_source_cols seed |};
                      cp_restore_size := {| rows := seed_restore_rows seed;
                                            cols := seed_restore_cols seed |};
                      cp_restore_scrollback_rows := seed_restore_scrollback_rows seed;
                      cp_resize_after_restore_bytes := prefix_bytes;
                      cp_restore_bytes := len restored |};
                    restore := restored;
                    resizes := [] |};
                  tm_resize_revision := tm_resize_revision t;
                  geometry_valid := true |}, true)
      end
  end.

Definition tm_new (id : RunId) (size : TerminalSize) : outcome TerminalModel :=
  let! p := vt_new (rows size) (cols size) HISTORY_ROWS in
  let! '(t, _) := tm_cut {| parser := p; tm_checkpoint := None;
                            tm_resize_revision := 0; geometry_valid := true |} id 0 in
  Ret t.

Definition tm_retention_cut (t : TerminalModel) (id : RunId) (first latest : N)
    : outcome (TerminalModel * bool) :=
  let uncovered := match tm_checkpoint t with
                   | None => true
                   | Some c => bool_decide (cp_through_byte (checkpoint c) < first)
                   end in
  if uncovered then tm_cut t id latest else Ret (t, false).

Definition tm_continuation (t : TerminalModel) (id : RunId) (first latest : N)
    : outcome (TerminalModel * (TerminalContinuation * bytes)) :=
  let! '(t, _) := tm_cut t id latest in
  match tm_checkpoint t with
  | None => Ret (t, (UnavailableContinuation CheckpointTooLarge, []))
  | Some saved =>
      if negb (geometry_valid t) then Ret (t, (UnavailableContinuation InvalidCheckpoint, []))
      else if decide (cp_through_byte (checkpoint saved) < first)
      then Ret (t, (UnavailableContinuation TailEvicted, []))
      else Ret (t, (BasicVt (checkpoint saved) (resizes saved), restore saved))
  end.

Definition tm_stored (t : TerminalModel) : option StoredCheckpoint :=
  if geometry_valid t then tm_checkpoint t else None.

(** *** Recovery *)

Definition recover_header_refused (id : RunId) (saved : StoredCheckpoint)
    (replay : OutputReplay) : bool :=
  let cp := checkpoint saved in
  bool_decide (cp_run_id cp ≠ id)
  || bool_decide (rows (cp_size cp) = 0) || bool_decide (cols (cp_size cp) = 0)
  || bool_decide (rows (cp_restore_size cp) = 0) || bool_decide (cols (cp_restore_size cp) = 0)
  || bool_decide (cp_restore_bytes cp < cp_resize_after_restore_bytes cp)
  || bool_decide (cp_restore_bytes cp ≠ len (restore saved))
  || bool_decide (MAX_RESTORE_BYTES < len (restore saved))
  || bool_decide (cp_through_byte cp < replay_first_available_byte replay)
  || bool_decide (replay_latest_output_bytes replay < cp_through_byte cp)
  || bool_decide (MAX_RESIZE_TAIL < len (resizes saved)).

Definition resize_refused (revision : N) (r : TerminalResize) : outcome bool :=
  let! next := plus_u64 revision 1 in
  Ret (bool_decide (resize_resize_revision r ≠ next)
       || bool_decide (rows (resize_size r) = 0) || bool_decide (cols (resize_size r) = 0)).

(** The [while let] that applies every resize fenced exactly at [cursor].
    [None] inside the outcome is the source's [return None]. *)
Fixpoint apply_resizes_at (p : P) (revision cursor : N) (rs : list TerminalResize)
    : outcome (option (P * N * list TerminalResize)) :=
  match rs with
  | r :: rs' =>
      if decide (resize_through_byte r = cursor) then
        let! refused := resize_refused revision r in
        if refused : bool then Ret None else
        let! p := vt_set_size p (rows (resize_size r)) (cols (resize_size r)) in
        apply_resizes_at p (resize_resize_revision r) cursor rs'
      else Ret (Some (p, revision, rs))
  | [] => Ret (Some (p, revision, []))
  end.

(** The [while cursor < chunk.end_byte] loop.  Each turn either consumes a
    resize or reaches the end of the chunk, so [S (length rs)] turns do. *)
Fixpoint recover_chunk (fuel : nat) (p : P) (revision cursor : N) (chunk : OutputChunk)
    (rs : list TerminalResize) : outcome (option (P * N * N * list TerminalResize)) :=
  if decide (end_byte chunk ≤ cursor) then Ret (Some (p, revision, cursor, rs)) else
  match fuel with
  | O => Panic "out of fuel"
  | S fuel =>
      let! applied := apply_resizes_at p revision cursor rs in
      match applied with
      | None => Ret None
      | Some (p, revision, rs) =>
          let late := match rs with
                      | r :: _ => bool_decide (resize_through_byte r < cursor)
                      | [] => false end in
          if late then Ret None else
          let e := match rs with
                   | r :: _ => N.min (resize_through_byte r) (end_byte chunk)
                   | [] => end_byte chunk end in
          let a := cursor - start_byte chunk in
          let b := e - start_byte chunk in
          if decide (b ≤ len (data chunk) ∧ a ≤ b) then
            let! p := vt_process p (takeN (b - a) (dropN a (data chunk))) in
            recover_chunk fuel p revision e chunk rs
          else Ret None
      end
  end.

Fixpoint recover_chunks (p : P) (revision cursor : N) (chunks : list OutputChunk)
    (rs : list TerminalResize) : outcome (option (P * N * N * list TerminalResize)) :=
  match chunks with
  | [] => Ret (Some (p, revision, cursor, rs))
  | chunk :: chunks =>
      if decide (end_byte chunk ≤ cursor) then recover_chunks p revision cursor chunks rs
      else if decide (cursor < start_byte chunk) then Ret None
      else
        let! r := recover_chunk (S (length rs)) p revision cursor chunk rs in
        match r with
        | None => Ret None
        | Some (p, revision, cursor, rs) => recover_chunks p revision cursor chunks rs
        end
  end.

Fixpoint recover_trailing (p : P) (revision cursor : N) (rs : list TerminalResize)
    : outcome (option (P * N)) :=
  match rs with
  | [] => Ret (Some (p, revision))
  | r :: rs =>
      if decide (resize_through_byte r ≠ cursor) then Ret None
      else
        let! refused := resize_refused revision r in
        if refused : bool then Ret None else
        let! p := vt_set_size p (rows (resize_size r)) (cols (resize_size r)) in
        recover_trailing p (resize_resize_revision r) cursor rs
  end.

Definition recover_parser (saved : StoredCheckpoint) : outcome (option P) :=
  let cp := checkpoint saved in
  let history := default HISTORY_ROWS (cp_restore_scrollback_rows cp) in
  let! p := vt_new (rows (cp_restore_size cp)) (cols (cp_restore_size cp)) history in
  let split := cp_resize_after_restore_bytes cp in
  let! p := vt_process p (takeN split (restore saved)) in
  if negb (vt_is_ground p) then Ret None else
  let! p := vt_set_scrollback_limit p HISTORY_ROWS in
  let! p := if decide (cp_restore_size cp ≠ cp_size cp)
            then vt_set_size p (rows (cp_size cp)) (cols (cp_size cp)) else Ret p in
  let! p := vt_process p (dropN split (restore saved)) in
  Ret (if negb (vt_is_ground p) then None else Some p).

Definition tm_recover (id : RunId) (saved : StoredCheckpoint) (replay : OutputReplay)
    : outcome (option TerminalModel) :=
  if recover_header_refused id saved replay then Ret None else
  let cp := checkpoint saved in
  let! p := recover_parser saved in
  match p with
  | None => Ret None
  | Some p =>
      let! r := recover_chunks p (cp_resize_revision cp) (cp_through_byte cp)
                  (replay_chunks replay) (resizes saved) in
      match r with
      | None => Ret None
      | Some (p, revision, cursor, rs) =>
          if decide (cursor ≠ replay_latest_output_bytes replay) then Ret None else
          let! r := recover_trailing p revision cursor rs in
          match r with
          | None => Ret None
          | Some (p, revision) =>
              Ret (Some {| parser := p; tm_checkpoint := Some saved;
                           tm_resize_revision := revision; geometry_valid := true |})
          end
      end
  end.
End model.
Arguments TerminalModel P : clear implicits.

(** A concrete parser, for evaluating the definitions: it records its bytes,
    is always in the ground state and unwinds on the byte 0xff. *)
Module SampleVt.
Record parser_state := { seen : bytes; grid : N * N; history : N }.
Definition unwinds (d : bytes) : bool := existsb (λ b, bool_decide (b = xff)) d.
#[global] Instance vt : VtParser parser_state := {
  vt_new r c h := Ret {| seen := []; grid := (r, c); history := h |};
  vt_process p d :=
    if unwinds d then Panic "vt100 unwound"
    else Ret {| seen := seen p ++ d; grid := grid p; history := history p |};
  vt_set_size p r c := Ret {| seen := seen p; grid := (r, c); history := history p |};
  vt_set_scrollback_limit p h := Ret {| seen := seen p; grid := grid p; history := h |};
  vt_size := grid;
  vt_is_ground _ := true;
  vt_checkpoint p := Ret (Some {|
    seed_source_rows := (grid p).1; seed_source_cols := (grid p).2;
    seed_restore_rows := (grid p).1; seed_restore_cols := (grid p).2;
    seed_restore_scrollback_rows := Some (history p);
    seed_restore_bytes := seen p; seed_final_bytes := [] |});
}.
End SampleVt.
