(* ===== verification/NativeService.v ===== *)
(** * Native service

    [crates/ctxmux-daemon/src/native_service.rs]: the revisioned projection of
    native service facts.  The run binding is a weak handle; an update reports
    the event it publishes, if any, and the caller delivers it. *)

From S2P Require Import Prelude.
From S2P Require Import Protocol.

Module NativeService.
Record t := { snapshot : NativeServiceSnapshot; bound : bool }.

Definition new (historical : bool) : t :=
  {| snapshot := {|
       revision := 0;
       owner := if historical then OwnerStoppedStatus Historical else OwnerStarting;
       output := if historical then OutputClosed else OutputPending;
       input := {|
         input_phase := if historical then InputClosed else InputOpen;
         unsettled_commands := 0;
         unsettled_request_bytes := 0;
         write_blocked := false;
         completed_input_bytes := if historical then None else Some 0;
         current_size := None;
         active_confirmed_bytes := 0 |};
       terminal_fault := None |};
     bound := false |}.

Definition set_owner (o : NativeOwnerStatus) (s : NativeServiceSnapshot) :=
  {| revision := revision s; owner := o; output := output s; input := input s;
     terminal_fault := terminal_fault s |}.
Definition set_output (o : NativeOutputStatus) (s : NativeServiceSnapshot) :=
  {| revision := revision s; owner := owner s; output := o; input := input s;
     terminal_fault := terminal_fault s |}.
Definition set_input (i : NativeInputStatus) (s : NativeServiceSnapshot) :=
  {| revision := revision s; owner := owner s; output := output s; input := i;
     terminal_fault := terminal_fault s |}.
Definition set_fault (f : option NativeTerminalFault) (s : NativeServiceSnapshot) :=
  {| revision := revision s; owner := owner s; output := output s; input := input s;
     terminal_fault := f |}.
Definition set_revision (r : N) (s : NativeServiceSnapshot) :=
  {| revision := r; owner := owner s; output := output s; input := input s;
     terminal_fault := terminal_fault s |}.

(** [update]: an unchanged snapshot is silent; a change takes the next
    revision and publishes the whole snapshot while a Run is bound. *)
Definition update (f : NativeServiceSnapshot → NativeServiceSnapshot) (s : t)
    : outcome (t * option RunEvent) :=
  let before := snapshot s in
  let after := f before in
  if decide (after = before) then Ret (s, None) else
  let! r := expect "native service revision remains representable"
              (checked_add (revision before) 1) in
  let after := set_revision r after in
  Ret ({| snapshot := after; bound := bound s |},
       if bound s then Some (ServiceChanged after) else None).

Definition owner_loss (r : NativeServiceFailure) : bool :=
  match r with OwnerStopped | OwnerUnwound | OwnerIoFailed _ _ => true | _ => false end.
Definition output_is_closed (o : NativeOutputStatus) : bool :=
  match o with OutputClosed => true | _ => false end.

Definition update_input (i : NativeInputStatus) : t → outcome (t * option RunEvent) :=
  update (λ s,
    let s := match input_phase i with
             | InputUnavailable reason =>
                 if owner_loss reason then
                   let s := set_owner (OwnerStoppedStatus reason) s in
                   if output_is_closed (output s) then s
                   else set_output (OutputUnavailable reason) s
                 else s
             | _ => s
             end in
    set_input i s).

Definition update_output (o : NativeOutputStatus) := update (set_output o).

Definition update_output_pressure (pressured : bool) :=
  update (λ s,
    match output s, owner s with
    | (OutputServing | OutputBackpressured), (OwnerServing | OwnerDraining) =>
        set_output (if pressured then OutputBackpressured else OutputServing) s
    | _, _ => s
    end).

Definition ready := update (λ s, set_output OutputServing (set_owner OwnerServing s)).
Definition draining := update (set_owner OwnerDraining).

Definition stopped (reason : NativeServiceFailure) :=
  update (λ s,
    let s := set_owner (OwnerStoppedStatus reason) s in
    let s := if output_is_closed (output s) then s
             else set_output (OutputUnavailable reason) s in
    match input_phase (input s) with
    | InputClosed => s
    | _ =>
        let i := input s in
        set_input {| input_phase := InputUnavailable reason;
                     unsettled_commands := unsettled_commands i;
                     unsettled_request_bytes := unsettled_request_bytes i;
                     write_blocked := false;
                     completed_input_bytes := completed_input_bytes i;
                     current_size := current_size i;
                     active_confirmed_bytes := active_confirmed_bytes i |} s
    end).

Definition record_terminal_fault (fault : NativeTerminalFault) :=
  update (λ s, match terminal_fault s with
               | None => set_fault (Some fault) s
               | Some _ => s
               end).

(** The operations a Run's owners may apply to its service cell. *)
Inductive op :=
  | OpInput (i : NativeInputStatus)
  | OpOutput (o : NativeOutputStatus)
  | OpPressure (pressured : bool)
  | OpReady
  | OpDraining
  | OpStopped (reason : NativeServiceFailure)
  | OpFault (fault : NativeTerminalFault).

Definition apply (o : op) : t → outcome (t * option RunEvent) :=
  match o with
  | OpInput i => update_input i
  | OpOutput o => update_output o
  | OpPressure p => update_output_pressure p
  | OpReady => ready
  | OpDraining => draining
  | OpStopped r => stopped r
  | OpFault f => record_terminal_fault f
  end.

(** A history of the cell: the operations applied and the events published. *)
Fixpoint run (ops : list op) (s : t) : outcome (t * list RunEvent) :=
  match ops with
  | [] => Ret (s, [])
  | o :: ops =>
      let! '(s, e) := apply o s in
      let! '(s, es) := run ops s in
      Ret (s, match e with Some e => e :: es | None => es end)
  end.

(** ** What readers of the projection rely on *)

Definition revisions (es : list RunEvent) : list N :=
  omap (λ e, match e with ServiceChanged s => Some (revision s) | _ => None end) es.
(** What an observer that started from [s0] holds after the events [es]. *)
Definition observed (s0 : NativeServiceSnapshot) (es : list RunEvent) : NativeServiceSnapshot :=
  foldl (λ s e, match e with ServiceChanged s' => s' | _ => s end) s0 es.

Lemma set_revision_same s : set_revision (revision s) s = s.
Proof. by destruct s. Qed.

Definition keeps_revision (f : NativeServiceSnapshot → NativeServiceSnapshot) : Prop :=
  ∀ s, revision (f s) = revision s.
(** The first terminal fault stays. *)
Definition keeps_fault (f : NativeServiceSnapshot → NativeServiceSnapshot) : Prop :=
  ∀ s x, terminal_fault s = Some x → terminal_fault (f s) = Some x.

Lemma update_ok f s (Hk : keeps_revision f) (Hroom : revision (snapshot s) < u64_max) :
  ∃ s' e, update f s = Ret (s', e) ∧ bound s' = bound s ∧
    (s' = s ∧ e = None ∧ f (snapshot s) = snapshot s ∨
     snapshot s' = set_revision (revision (snapshot s) + 1) (f (snapshot s)) ∧
     e = (if bound s then Some (ServiceChanged (snapshot s')) else None)).
Proof.
  unfold update. case_decide; [by eexists _, _; split_and!; auto|].
  unfold checked_add. rewrite decide_True by lia. simpl. eexists _, _. split_and!; simpl; auto.
Qed.

(** Every operation is one [update] by a function of the snapshot alone. *)
Lemma apply_update o : ∃ f, (∀ s, apply o s = update f s) ∧ keeps_revision f ∧ keeps_fault f.
Proof.
  destruct o; simpl; eexists; (split; [reflexivity|]); split;
    intros s **; cbv zeta; repeat (case_match; simplify_eq/=); auto; congruence.
Qed.
End NativeService.

Section projection.
Import NativeService.

(** Any sequence of service operations on a published Run neither panics
    nor skips a revision: every change is published with the next revision, an
    unchanged snapshot is silent, an observer that applies the events holds
    exactly the cell's snapshot, and the first terminal fault is never replaced. *)
Theorem service_history_is_exact ops s (Hbound : bound s = true)
    (Hroom : revision (snapshot s) + len ops ≤ u64_max) :
  ∃ s' es, run ops s = Ret (s', es) ∧
    observed (snapshot s) es = snapshot s' ∧
    revisions es = map (λ k, revision (snapshot s) + N.of_nat k) (seq 1 (length es)) ∧
    revision (snapshot s') = revision (snapshot s) + len es ∧
    (∀ x, terminal_fault (snapshot s) = Some x → terminal_fault (snapshot s') = Some x).
Proof.
  revert s Hbound Hroom. induction ops as [|o ops IH]; intros s Hbound Hroom; simpl.
  { eexists _, _. split_and!; try done. unfold len; simpl; lia. }
  destruct (apply_update o) as (f & Hf & Hk & Hfault). rewrite Hf.
  unfold len in *; simpl in Hroom.
  destruct (update_ok f s Hk) as (s1 & e & -> & Hb1 & Hs1); [lia|]. simpl.
  destruct Hs1 as [(-> & -> & Hsame)|[Hs1 ->]].
  { destruct (IH s Hbound) as (s' & es & -> & ?); [lia|]. by eexists _, _. }
  rewrite Hbound. simpl.
  assert (Hr1 : revision (snapshot s1) = revision (snapshot s) + 1) by by rewrite Hs1.
  destruct (IH s1) as (s' & es & -> & Hobs & Hrev & Hlast & Hflt); [congruence|lia|].
  eexists s', (ServiceChanged (snapshot s1) :: es). split_and!; [done|exact Hobs|..].
  - change (revisions (_ :: es)) with (revision (snapshot s1) :: revisions es).
    rewrite Hrev, Hr1. cbn [length seq map]. f_equal.
    rewrite <- (seq_shift (length es) 1), map_map. apply map_ext. intros k. lia.
  - cbn [length]. lia.
  - intros x Hx. apply Hflt. rewrite Hs1. simpl. by apply Hfault.
Qed.
End projection.

Lemma service_history_is_exact_witness :
  ∃ s' es, NativeService.run
      [NativeService.OpReady; NativeService.OpReady; NativeService.OpPressure true;
       NativeService.OpStopped OwnerStopped]
      {| NativeService.snapshot := NativeService.snapshot (NativeService.new false);
         NativeService.bound := true |} = Ret (s', es) ∧ length es = 3%nat.
Proof.
  destruct (service_history_is_exact
    [NativeService.OpReady; NativeService.OpReady; NativeService.OpPressure true;
     NativeService.OpStopped OwnerStopped]
    {| NativeService.snapshot := NativeService.snapshot (NativeService.new false);
       NativeService.bound := true |}) as (s' & es & Hrun & _); [reflexivity|by vm_compute|].
  exists s', es. split; [exact Hrun|]. vm_compute in Hrun. by simplify_eq.
Defined.
