(* ===== verification/Retention.v ===== *)
(** * Retention

    [crates/ctxmux-daemon/src/retention.rs]: the daemon-wide hot replay budget.
    The trait [RetentionVictim] is a typeclass; the Runs implement it in
    [OutputLog].  The shared [total] is threaded explicitly, because a victim's
    trim subtracts from it through its own handle. *)

From S2P Require Import Prelude.
From S2P Require Import Protocol.

Class RetentionVictim (V : Type) := {
  run_id : V → RunId;
  (** [None]: the local owner is busy. *)
  retained_output_bytes : V → option N;
  reclaimable_output_bytes : V → N;
  is_attached : V → bool;
  (** [reclaim_output v drop_at_least total]: the victim afterwards, the bytes
      freed and the shared total afterwards. *)
  reclaim_output : V → N → N → outcome (V * N * N);
}.

(** What the budget relies on from a victim whose state satisfies [ok]. *)
Class RetentionVictimLaws (V : Type) `{RetentionVictim V} (ok : V → Prop) := {
  reclaim_spec : ∀ v drop total, ok v → reclaimable_output_bytes v ≤ total →
    ∃ v', reclaim_output v drop total =
            Ret (v', N.min drop (reclaimable_output_bytes v),
                 total - N.min drop (reclaimable_output_bytes v))
      ∧ ok v' ∧ run_id v' = run_id v
      ∧ reclaimable_output_bytes v' =
          reclaimable_output_bytes v - N.min drop (reclaimable_output_bytes v);
}.

Definition budget_add (bytes total : N) : N := wrapping_add total bytes.
Definition budget_sub (bytes total : N) : N := total -sat bytes.

Section budget.
Context {V : Type} `{!RetentionVictim V}.

(** [participants] holds weak handles: [None] is a Run that was dropped. *)
Record RetentionBudget := {
  limit : N;
  per_run_limit : N;
  total : N;
  participants : gmap RunId (option V);
  (** Another thread holds the single-flight gate. *)
  reclaiming : bool;
}.

Definition set_total (t : N) (b : RetentionBudget) : RetentionBudget :=
  {| limit := limit b; per_run_limit := per_run_limit b; total := t;
     participants := participants b; reclaiming := reclaiming b |}.
Definition set_participants (p : gmap RunId (option V)) (b : RetentionBudget) :=
  {| limit := limit b; per_run_limit := per_run_limit b; total := total b;
     participants := p; reclaiming := reclaiming b |}.

Definition with_event_limits (lim per_run : N) : RetentionBudget :=
  {| limit := lim; per_run_limit := per_run; total := 0; participants := ∅;
     reclaiming := false |}.

Definition register (v : V) (b : RetentionBudget) : RetentionBudget :=
  set_participants (<[run_id v := Some v]> (participants b)) b.
Definition unregister (id : RunId) (b : RetentionBudget) : RetentionBudget :=
  set_participants (delete id (participants b)) b.

(** [participants.values().filter_map(Weak::upgrade)]. *)
Definition upgraded (b : RetentionBudget) : list V :=
  omap snd (map_to_list (participants b)).

Fixpoint available_scan (wanted : N) (except : RunId) (available : N) (victims : list V) : N :=
  match victims with
  | [] => available
  | v :: victims =>
      let available := if decide (run_id v = except) then available
                       else available +sat reclaimable_output_bytes v in
      if decide (wanted ≤ available) then available
      else available_scan wanted except available victims
  end.

Definition available_for_read (b : RetentionBudget) (except : RunId)
    (wanted own_reclaimable : N) : N :=
  let wanted := N.min wanted (limit b) in
  let available := (limit b -sat total b) +sat own_reclaimable in
  let available := if decide (available < wanted)
                   then available_scan wanted except available (upgraded b)
                   else available in
  usize_or_max (N.min available wanted).

(** *** Victim order *)

(** [(id == except, is_attached, Reverse(retained), id)], lexicographically;
    [false < true], [None < Some _]. *)
Definition victim_key : Type := bool * bool * option N * RunId.
Definition key_of (except : RunId) (v : V) : victim_key :=
  (bool_decide (run_id v = except), is_attached v, retained_output_bytes v, run_id v).

Definition compare_bool (a b : bool) : comparison :=
  match a, b with
  | false, true => Lt | true, false => Gt | _, _ => Eq
  end.
Definition compare_option (a b : option N) : comparison :=
  match a, b with
  | None, None => Eq | None, Some _ => Lt | Some _, None => Gt
  | Some a, Some b => N.compare a b
  end.
Definition compare_key (a b : victim_key) : comparison :=
  let '(ea, aa, ra, ia) := a in
  let '(eb, ab, rb, ib) := b in
  match compare_bool ea eb with
  | Eq => match compare_bool aa ab with
          | Eq => match compare_option rb ra with
                  | Eq => N.compare ia ib
                  | c => c
                  end
          | c => c
          end
  | c => c
  end.
Definition key_le (except : RunId) (v w : V) : Prop :=
  compare_key (key_of except v) (key_of except w) ≠ Gt.
#[export] Instance key_le_dec except v w : Decision (key_le except v w).
Proof. unfold key_le. apply _. Defined.

(** The loop over the ordered victims: [remaining] bytes are still to be shed. *)
Fixpoint reclaim_from (remaining total : N) (victims : list V)
    : outcome (list V * N) :=
  match victims with
  | [] => Ret ([], total)
  | v :: victims =>
      if decide (remaining = 0) then Ret (v :: victims, total) else
      let! '(v, freed, total) := reclaim_output v (usize_or_max remaining) total in
      let! '(victims, total) := reclaim_from (remaining -sat freed) total victims in
      Ret (v :: victims, total)
  end.

Definition ordered_victims (except : RunId) (b : RetentionBudget) : list V :=
  merge_sort (key_le except) (upgraded b).

Definition store_victims (victims : list V) (b : RetentionBudget) : RetentionBudget :=
  set_participants
    (list_to_map (map (λ v, (run_id v, Some v)) victims)) b.

Definition reclaim_to (except : RunId) (target : N) (b : RetentionBudget)
    : outcome RetentionBudget :=
  if decide (total b ≤ target) then Ret b
  else if reclaiming b then Ret b
  else
    let over := total b -sat target in
    if decide (over = 0) then Ret b else
    let! '(victims, t) := reclaim_from over (total b) (ordered_victims except b) in
    Ret (set_total t (store_victims victims b)).

Definition reclaim_excess (except : RunId) (b : RetentionBudget) : outcome RetentionBudget :=
  reclaim_to except (limit b) b.

(** *** Lemmas *)

Definition reclaimable_sum (vs : list V) : N := sumN reclaimable_output_bytes vs.

#[export] Instance key_le_total except : Total (key_le except).
Proof.
  intros v w. unfold key_le, compare_key, key_of.
  destruct (bool_decide (run_id v = except)), (bool_decide (run_id w = except)),
    (is_attached v), (is_attached w); simpl; try (left; discriminate);
    try (right; discriminate);
    destruct (retained_output_bytes v) as [a|], (retained_output_bytes w) as [c|]; simpl;
    try (left; discriminate); try (right; discriminate);
    try (rewrite (N.compare_antisym a c); destruct (N.compare_spec a c));
    try rewrite (N.compare_antisym (run_id w) (run_id v));
    destruct (N.compare_spec (run_id w) (run_id v)); simpl;
    first [left; discriminate | right; discriminate].
Qed.

#[export] Instance key_le_trans except : Transitive (key_le except).
Proof.
  intros u v w. unfold key_le, compare_key, key_of.
  destruct (bool_decide (run_id u = except)), (bool_decide (run_id v = except)),
    (bool_decide (run_id w = except)), (is_attached u), (is_attached v), (is_attached w);
    simpl; try congruence;
    destruct (retained_output_bytes u) as [a|], (retained_output_bytes v) as [c|],
      (retained_output_bytes w) as [d|]; simpl; try congruence;
    repeat match goal with |- context [N.compare ?x ?y] =>
      destruct (N.compare_spec x y); simpl; try congruence end; intros; exfalso; lia.
Qed.

(** Every victim but the triggering Run. *)
Definition others (except : RunId) (v : V) : N :=
  if decide (run_id v = except) then 0 else reclaimable_output_bytes v.

Lemma available_scan_spec wanted except available vs :
  wanted ≤ u64_max →
  N.min (available_scan wanted except available vs) wanted =
  N.min (available + sumN (others except) vs) wanted.
Proof.
  intros Hw. revert available. induction vs as [|v vs IH]; intros available; simpl.
  { f_equal. rewrite sumN_nil. lia. }
  rewrite sumN_cons. unfold others at 1. unfold saturating_add.
  repeat case_decide; rewrite ?IH; lia.
Qed.

(** What each ordered victim gives up. *)
Fixpoint greedy (remaining : N) (rs : list N) : list N :=
  match rs with
  | [] => []
  | r :: rs => N.min remaining r :: greedy (remaining - N.min remaining r) rs
  end.

Lemma greedy_sum remaining rs :
  sumN id (greedy remaining rs) = N.min remaining (sumN id rs).
Proof.
  revert remaining. induction rs as [|r rs IH]; intros remaining; simpl;
    rewrite ?sumN_nil, ?sumN_cons; [lia|]. rewrite IH. unfold id. lia.
Qed.
Lemma greedy_zero rs : greedy 0 rs = map (λ _, 0) rs.
Proof. induction rs; simpl; [done|]. by rewrite N.min_0_l, N.sub_diag, IHrs. Qed.
Lemma greedy_app remaining rs rs' :
  greedy remaining (rs ++ rs') =
  greedy remaining rs ++ greedy (remaining - sumN id rs) rs'.
Proof.
  revert remaining. induction rs as [|r rs IH]; intros remaining; simpl.
  - rewrite sumN_nil. f_equal. lia.
  - rewrite IH, sumN_cons. unfold id. do 3 f_equal. lia.
Qed.

Definition concede (rs fs : list N) : list N := zip_with N.sub rs fs.
Lemma concede_zero rs : concede rs (map (λ _, 0) rs) = rs.
Proof. induction rs; simpl; [done|]. by rewrite IHrs, N.sub_0_r. Qed.

(** A later victim pays only when every earlier one is exhausted. *)
Lemma concede_prefix remaining rs i j ri rj ri' rj' :
  (i < j)%nat → rs !! i = Some ri → rs !! j = Some rj →
  concede rs (greedy remaining rs) !! i = Some ri' →
  concede rs (greedy remaining rs) !! j = Some rj' →
  rj' < rj → ri' = 0.
Proof.
  revert remaining i j. induction rs as [|r rs IH]; intros remaining i j Hij; [done|].
  unfold concede in *. destruct j as [|j]; [lia|]. destruct i as [|i]; simpl.
  - intros [= ->] Hj [= <-] Hj' Hlt.
    destruct (decide (remaining ≤ ri)); [|lia].
    replace (remaining - N.min remaining ri) with 0 in Hj' by lia.
    rewrite greedy_zero in Hj'.
    change (concede rs (map (λ _, 0) rs) !! j = Some rj') in Hj'.
    rewrite concede_zero in Hj'. simplify_eq. lia.
  - intros. eapply IH; [|done..]. lia.
Qed.

Lemma key_le_antisym except v w : key_le except v w → key_le except w v → run_id v = run_id w.
Proof.
  unfold key_le, compare_key, key_of.
  destruct (bool_decide (run_id v = except)), (bool_decide (run_id w = except)),
    (is_attached v), (is_attached w); simpl; try congruence;
    destruct (retained_output_bytes v) as [a|], (retained_output_bytes w) as [c|]; simpl;
    try congruence;
    repeat match goal with |- context [N.compare ?x ?y] =>
      destruct (N.compare_spec x y); simpl; try congruence end; intros; lia.
Qed.

Lemma concede_greedy_sum remaining rs :
  sumN id (concede rs (greedy remaining rs)) = sumN id rs - remaining.
Proof.
  revert remaining. induction rs as [|r rs IH]; intros remaining; [done|].
  unfold concede in *. simpl. rewrite !sumN_cons, IH. unfold id. lia.
Qed.

Lemma merge_sort_split except (vs : list V) :
  ∃ l1 l2, merge_sort (key_le except) vs = l1 ++ l2
    ∧ Forall (λ v, run_id v ≠ except) l1 ∧ Forall (λ v, run_id v = except) l2.
Proof.
  pose proof (StronglySorted_merge_sort (key_le except) vs) as Hs.
  induction Hs as [|v l Hs IH Hall]; [by exists [], []|].
  destruct (decide (run_id v = except)) as [Hv|Hv].
  - exists [], (v :: l). split_and!; [done|constructor|].
    constructor; [done|]. eapply Forall_impl; [exact Hall|]. intros w.
    unfold key_le, compare_key, key_of. rewrite bool_decide_true by done.
    case_bool_decide; [done|]. simpl. congruence.
  - destruct IH as (l1 & l2 & -> & ? & ?). exists (v :: l1), l2. auto.
Qed.

Section laws.
Context {ok : V → Prop} `{!RetentionVictimLaws V ok}.

Lemma reclaim_from_spec remaining total vs :
  Forall ok vs → remaining ≤ usize_max → reclaimable_sum vs ≤ total →
  ∃ vs', reclaim_from remaining total vs =
           Ret (vs', total - N.min remaining (reclaimable_sum vs))
    ∧ Forall ok vs' ∧ map run_id vs' = map run_id vs
    ∧ map reclaimable_output_bytes vs' =
        concede (map reclaimable_output_bytes vs)
          (greedy remaining (map reclaimable_output_bytes vs)).
Proof.
  intros Hok. revert remaining total.
  induction Hok as [|v vs Hv Hok IH]; intros remaining total Hr Hsum; simpl.
  { exists []. split_and!; try done. f_equal. f_equal. unfold reclaimable_sum.
    rewrite sumN_nil. lia. }
  unfold reclaimable_sum in *. rewrite sumN_cons in *. case_decide as Hz.
  { subst. exists (v :: vs). split_and!; [do 2 f_equal; lia|by constructor|done|].
    change (map reclaimable_output_bytes (v :: vs) =
      concede (map reclaimable_output_bytes (v :: vs))
        (greedy 0 (map reclaimable_output_bytes (v :: vs)))).
    by rewrite greedy_zero, concede_zero. }
  rewrite usize_or_max_id by done.
  destruct (reclaim_spec v remaining total Hv) as (v' & -> & Hv' & Hid & Hrec); [lia|].
  simpl.
  destruct (IH (remaining - N.min remaining (reclaimable_output_bytes v))
               (total - N.min remaining (reclaimable_output_bytes v)))
    as (vs' & -> & ? & ? & Hm); [lia..|].
  exists (v' :: vs'). split_and!; [|by constructor|simpl; congruence|].
  - simpl. do 2 f_equal. lia.
  - simpl. unfold concede in *. simpl. by rewrite Hm, Hrec.
Qed.

Definition budget_wf (b : RetentionBudget) : Prop :=
  ∀ k v, participants b !! k = Some (Some v) → run_id v = k.

Lemma upgraded_lookup (b : RetentionBudget) v :
  budget_wf b → v ∈ upgraded b ↔ participants b !! run_id v = Some (Some v).
Proof.
  intros Hwf. unfold upgraded. rewrite list_elem_of_omap. split.
  - intros ([k o] & Hin & Ho). simpl in Ho. subst o.
    apply elem_of_map_to_list in Hin. by rewrite (Hwf _ _ Hin).
  - intros Hl. exists (run_id v, Some v). by rewrite elem_of_map_to_list.
Qed.

Lemma NoDup_upgraded_ids (b : RetentionBudget) :
  budget_wf b → NoDup (map run_id (upgraded b)).
Proof.
  intros Hwf. unfold upgraded.
  pose proof (NoDup_fst_map_to_list (participants b)) as Hnd.
  assert (∀ p, p ∈ map_to_list (participants b) → participants b !! p.1 = Some p.2) as Hl.
  { intros [k o] Hin. by apply elem_of_map_to_list in Hin. }
  induction (map_to_list (participants b)) as [|[k [v|]] l IH]; simpl in *; [constructor| |].
  - apply NoDup_cons in Hnd as [Hk Hnd]. constructor; [|apply IH; set_solver].
    rewrite <-(Hwf k v) in Hk by (apply (Hl (k, Some v)); set_solver).
    contradict Hk. apply list_elem_of_fmap in Hk as (w & Hid & Hw).
    apply list_elem_of_omap in Hw as ([k' o] & Hin & Ho). simpl in Ho. subst o.
    apply list_elem_of_fmap. exists (k', Some w). split; [simpl|done].
    rewrite Hid. apply Hwf, (Hl (k', Some w)). set_solver.
  - apply NoDup_cons in Hnd as [_ Hnd]. apply IH; set_solver.
Qed.

Lemma store_victims_lookup (b : RetentionBudget) vs k v :
  NoDup (map run_id vs) →
  participants (store_victims vs b) !! k = Some (Some v) ↔ v ∈ vs ∧ run_id v = k.
Proof.
  intros Hnd. unfold store_victims. simpl.
  rewrite <-elem_of_list_to_map.
  - rewrite list_elem_of_fmap. split.
    + intros (w & Heq & Hin). by simplify_eq.
    + intros [Hin <-]. by exists v.
  - rewrite map_map. exact Hnd.
Qed.

Lemma store_victims_wf (b : RetentionBudget) vs :
  NoDup (map run_id vs) → budget_wf (store_victims vs b).
Proof. intros Hnd k v Hl. by apply store_victims_lookup in Hl as [_ ?]. Qed.

Lemma reclaimable_sum_ordered except (b : RetentionBudget) :
  reclaimable_sum (ordered_victims except b) = reclaimable_sum (upgraded b).
Proof. unfold reclaimable_sum, ordered_victims. by rewrite merge_sort_Permutation. Qed.

(** The whole reclamation, as one equation on the ordered victims. *)
Lemma reclaim_to_spec except target (b : RetentionBudget) :
  budget_wf b → Forall ok (upgraded b) → reclaiming b = false →
  target < total b ≤ usize_max → reclaimable_sum (upgraded b) ≤ total b →
  ∃ vs', reclaim_to except target b =
           Ret (set_total (total b - N.min (total b - target) (reclaimable_sum (upgraded b)))
                  (store_victims vs' b))
    ∧ Forall ok vs' ∧ map run_id vs' = map run_id (ordered_victims except b)
    ∧ NoDup (map run_id vs')
    ∧ map reclaimable_output_bytes vs' =
        concede (map reclaimable_output_bytes (ordered_victims except b))
          (greedy (total b - target)
             (map reclaimable_output_bytes (ordered_victims except b))).
Proof.
  intros Hwf Hok Hgate [Hover Hmax] Hsum.
  assert (Forall ok (ordered_victims except b)) as Hok'.
  { unfold ordered_victims. by rewrite merge_sort_Permutation. }
  destruct (reclaim_from_spec (total b - target) (total b) _ Hok')
    as (vs' & Hrun & ? & Hids & Hm); [lia|by rewrite reclaimable_sum_ordered|].
  exists vs'. rewrite reclaimable_sum_ordered in Hrun. unfold reclaim_to.
  rewrite decide_False by lia. rewrite Hgate, decide_False by lia. rewrite Hrun.
  split_and!; try done. rewrite Hids. unfold ordered_victims.
  rewrite merge_sort_Permutation. by apply NoDup_upgraded_ids.
Qed.

Lemma ordered_key_position except (b : RetentionBudget) v w i j :
  ordered_victims except b !! i = Some v → ordered_victims except b !! j = Some w →
  run_id v ≠ run_id w → key_le except v w → (i < j)%nat.
Proof.
  intros Hi Hj Hne Hle. destruct (decide (i < j)%nat) as [|Hij]; [done|].
  destruct (decide (i = j)) as [->|]; [simplify_eq|].
  contradict Hne. apply (key_le_antisym except); [done|].
  pose proof (StronglySorted_merge_sort (key_le except) (upgraded b)) as Hs.
  by apply (StronglySorted_lookup _ _ j i _ _ Hs); [lia|..].
Qed.

Lemma ids_lookup (vs ws : list V) v' :
  map run_id vs = map run_id ws → v' ∈ vs →
  ∃ i v, vs !! i = Some v' ∧ ws !! i = Some v ∧ run_id v = run_id v'.
Proof.
  intros Hids Hin. apply list_elem_of_lookup in Hin as [i Hi].
  assert (map run_id ws !! i = Some (run_id v')) as Hw.
  { rewrite <-Hids. by apply list_lookup_fmap_Some_2. }
  apply list_lookup_fmap_Some in Hw as (v & Heq & Hw). by exists i, v.
Qed.

(** One reclaim pass over a well-formed budget terminates without a
    panic, lowers the shared total by exactly the excess, or by all that can
    be reclaimed when that is less, and so ends within the limit unless no
    participant has anything left to give. *)
Theorem reclaim_excess_restores_limit except (b : RetentionBudget)
    (Hwf : budget_wf b) (Hok : Forall ok (upgraded b)) (Hgate : reclaiming b = false)
    (Hmax : total b ≤ usize_max) (Hsum : reclaimable_sum (upgraded b) ≤ total b) :
  ∃ b', reclaim_excess except b = Ret b'
    ∧ total b' = total b - N.min (total b - limit b) (reclaimable_sum (upgraded b))
    ∧ (total b' ≤ limit b' ∨ reclaimable_sum (upgraded b') = 0)
    ∧ budget_wf b' ∧ Forall ok (upgraded b').
Proof.
  unfold reclaim_excess. destruct (decide (total b ≤ limit b)) as [Hle|Hgt].
  { exists b. unfold reclaim_to. rewrite decide_True by done.
    split_and!; try done; [lia|by left]. }
  destruct (reclaim_to_spec except (limit b) b) as (vs' & -> & Hok' & Hids & Hnd & Hm);
    [done..|lia|done|].
  eexists. split; [done|]. simpl.
  assert (upgraded (store_victims vs' b) ≡ₚ vs') as Hperm.
  { apply NoDup_Permutation.
    - eapply NoDup_fmap_1, NoDup_upgraded_ids, store_victims_wf, Hnd.
    - by eapply NoDup_fmap_1.
    - intros v. rewrite upgraded_lookup by by apply store_victims_wf.
      rewrite store_victims_lookup by done. naive_solver. }
  change (upgraded (set_total ?t ?b)) with (upgraded b).
  split_and!; [done| | |by rewrite Hperm].
  - destruct (decide (total b - limit b ≤ reclaimable_sum (upgraded b))); [left; lia|right].
    unfold reclaimable_sum at 1. rewrite Hperm.
    rewrite (sumN_map_id reclaimable_output_bytes vs'), Hm.
    rewrite concede_greedy_sum, <-sumN_map_id.
    change (sumN reclaimable_output_bytes) with reclaimable_sum.
    rewrite reclaimable_sum_ordered. lia.
  - by apply store_victims_wf.
Qed.

(** reclamation is strictly prioritised: when the pass takes anything
    from a Run, every Run that comes before it (other Runs before the one
    being served, detached before attached, larger logs first) has nothing
    reclaimable left. *)
Theorem reclaim_sheds_in_key_order except (b b' : RetentionBudget) v w v' w'
    (Hwf : budget_wf b) (Hok : Forall ok (upgraded b)) (Hgate : reclaiming b = false)
    (Hmax : total b ≤ usize_max) (Hsum : reclaimable_sum (upgraded b) ≤ total b)
    (Hrun : reclaim_excess except b = Ret b')
    (Hv : participants b !! run_id v = Some (Some v))
    (Hw : participants b !! run_id w = Some (Some w))
    (Hv' : participants b' !! run_id v = Some (Some v'))
    (Hw' : participants b' !! run_id w = Some (Some w'))
    (Hne : run_id v ≠ run_id w) (Hle : key_le except v w)
    (Hpaid : reclaimable_output_bytes w' < reclaimable_output_bytes w) :
  reclaimable_output_bytes v' = 0.
Proof.
  unfold reclaim_excess in Hrun. destruct (decide (total b ≤ limit b)) as [Hlim|Hgt].
  { unfold reclaim_to in Hrun. rewrite decide_True in Hrun by done. simplify_eq. lia. }
  destruct (reclaim_to_spec except (limit b) b) as (vs' & Heq & _ & Hids & Hnd & Hm);
    [done..|lia|done|].
  rewrite Heq in Hrun. simplify_eq. simpl in *.
  apply store_victims_lookup in Hv' as [Hinv Hidv], Hw' as [Hinw Hidw]; [|done..].
  destruct (ids_lookup _ _ _ Hids Hinv) as (i & v0 & Hi & Hi0 & Hid0).
  destruct (ids_lookup _ _ _ Hids Hinw) as (j & w0 & Hj & Hj0 & Hjd0).
  assert (v0 = v) as ->.
  { assert (v0 ∈ upgraded b) as Hin.
    { rewrite <-(merge_sort_Permutation (key_le except)). by eapply list_elem_of_lookup_2. }
    apply upgraded_lookup in Hin; [|done]. congruence. }
  assert (w0 = w) as ->.
  { assert (w0 ∈ upgraded b) as Hin.
    { rewrite <-(merge_sort_Permutation (key_le except)). by eapply list_elem_of_lookup_2. }
    apply upgraded_lookup in Hin; [|done]. congruence. }
  eapply (concede_prefix _ (map reclaimable_output_bytes (ordered_victims except b)) i j).
  - by eapply ordered_key_position.
  - by apply list_lookup_fmap_Some_2.
  - by apply list_lookup_fmap_Some_2.
  - rewrite <-Hm. by apply list_lookup_fmap_Some_2.
  - rewrite <-Hm. by apply list_lookup_fmap_Some_2.
  - done.
Qed.

(** the read grant is exactly the wanted bytes capped by the limit and
    by the room in the budget plus what this Run and the other participants
    could still reclaim; the early exit of the scan changes nothing. *)
Theorem available_for_read_spec (b : RetentionBudget) except wanted own
    (Hw : wanted ≤ usize_max) :
  available_for_read b except wanted own =
  N.min (N.min wanted (limit b))
        ((limit b - total b) + own + sumN (others except) (upgraded b)).
Proof.
  unfold available_for_read. rewrite usize_or_max_id by lia.
  case_decide as Hlt.
  - rewrite available_scan_spec by (unfold usize_max in Hw; lia). machine.
  - machine.
Qed.
End laws.
End budget.
Arguments RetentionBudget V : clear implicits.

(** A minimal victim: an identity, an attachment flag and reclaimable bytes. *)
Module Sample.
Record victim := { sample_id : RunId; sample_attached : bool; sample_bytes : N }.
#[global] Instance sample_victim : RetentionVictim victim := {
  run_id := sample_id;
  retained_output_bytes v := Some (sample_bytes v);
  reclaimable_output_bytes := sample_bytes;
  is_attached := sample_attached;
  reclaim_output v drop total :=
    let freed := N.min drop (sample_bytes v) in
    Ret ({| sample_id := sample_id v; sample_attached := sample_attached v;
            sample_bytes := sample_bytes v - freed |}, freed, total - freed);
}.
#[global] Instance sample_laws : RetentionVictimLaws victim (λ _, True).
Proof. constructor. intros v drop total _ Hle. eexists. split; [reflexivity|done]. Qed.

Definition v1 := {| sample_id := 1; sample_attached := false; sample_bytes := 5 |}.
Definition v2 := {| sample_id := 2; sample_attached := true; sample_bytes := 9 |}.
Definition v3 := {| sample_id := 3; sample_attached := false; sample_bytes := 8 |}.
Definition budget : RetentionBudget victim :=
  set_total 22 (register v1 (register v2 (register v3 (with_event_limits 12 1000)))).

Lemma budget_ok : budget_wf budget.
Proof.
  intros k v. unfold budget, register, with_event_limits. simpl.
  rewrite !lookup_insert, lookup_empty. repeat case_decide; naive_solver.
Qed.
End Sample.

Lemma reclaim_excess_restores_limit_witness :
  ∃ b', reclaim_excess 3 Sample.budget = Ret b' ∧ total b' = 12.
Proof.
  destruct (reclaim_excess_restores_limit 3 Sample.budget Sample.budget_ok)
    as (b' & Hrun & Ht & _).
  - by apply Forall_true.
  - reflexivity.
  - vm_compute. discriminate.
  - vm_compute. discriminate.
  - exists b'. split; [done|]. rewrite Ht. reflexivity.
Defined.

Lemma reclaim_sheds_in_key_order_witness :
  reclaimable_output_bytes {| Sample.sample_id := 1; Sample.sample_attached := false;
                              Sample.sample_bytes := 0 |} = 0.
Proof.
  eapply (reclaim_sheds_in_key_order 3 Sample.budget _ Sample.v1 Sample.v2 _
            {| Sample.sample_id := 2; Sample.sample_attached := true;
               Sample.sample_bytes := 4 |} Sample.budget_ok).
  - by apply Forall_true.
  - reflexivity.
  - vm_compute. discriminate.
  - vm_compute. discriminate.
  - vm_compute. reflexivity.
  - vm_compute. reflexivity.
  - vm_compute. reflexivity.
  - vm_compute. reflexivity.
  - vm_compute. reflexivity.
  - vm_compute. discriminate.
  - vm_compute. discriminate.
  - vm_compute. reflexivity.
Defined.

Lemma available_for_read_spec_witness :
  available_for_read Sample.budget 3 10 1 = 10.
Proof.
  rewrite (available_for_read_spec Sample.budget 3 10 1).
  - vm_compute. reflexivity.
  - vm_compute. discriminate.
Defined.
