(* ===== verification/OutputLog.v ===== *)
(** * Output log

    [OutputLog] of [crates/ctxmux-daemon/src/lib.rs]: the retained suffix of one
    Run's output, its replay pages and its accounting against the shared
    retention budget, and the Run's implementation of [RetentionVictim].

    The raw bytes ([chunks], [front_skip], counters) are authoritative; the
    terminal model is derived from them and is discarded on a library unwind. *)

From S2P Require Import Prelude.
From S2P Require Import Protocol.
From S2P Require Import TerminalCheckpoint.
From S2P Require Import NativeService.
From S2P Require Import Retention.

Definition REPLAY_CACHE_BLOCK_BYTES : N := 64 * 1024.

Record OutputFacts := {
  facts_latest_output_bytes : N;
  facts_first_available_byte : N;
  facts_retained_bytes : N;
}.

Section log.
Context {P : Type} `{!VtParser P}.

Record OutputLog := {
  chunks : list OutputChunk;
  front_skip : N;
  retained_bytes : N;
  latest_output_bytes : N;
  source_gap_after_byte : option N;
  terminal : option (TerminalModel P);
  terminal_absence : TerminalCheckpointUnavailableReason;
  resize_revision : N;
  checkpoint_dirty : bool;
  log_terminal_fault : option NativeTerminalFault;
  service : option NativeService.t;
  facts : option OutputFacts;
  (** Events the bound service handed to [Run::publish_event]. *)
  outbox : list RunEvent;
}.

Definition set_raw (cs : list OutputChunk) (skip retained latest : N) (l : OutputLog) :=
  {| chunks := cs; front_skip := skip; retained_bytes := retained;
     latest_output_bytes := latest; source_gap_after_byte := source_gap_after_byte l;
     terminal := terminal l; terminal_absence := terminal_absence l;
     resize_revision := resize_revision l; checkpoint_dirty := checkpoint_dirty l;
     log_terminal_fault := log_terminal_fault l; service := service l; facts := facts l;
     outbox := outbox l |}.
Definition set_gap (g : option N) (l : OutputLog) :=
  {| chunks := chunks l; front_skip := front_skip l; retained_bytes := retained_bytes l;
     latest_output_bytes := latest_output_bytes l; source_gap_after_byte := g;
     terminal := terminal l; terminal_absence := terminal_absence l;
     resize_revision := resize_revision l; checkpoint_dirty := checkpoint_dirty l;
     log_terminal_fault := log_terminal_fault l; service := service l; facts := facts l;
     outbox := outbox l |}.
Definition set_terminal (t : option (TerminalModel P))
    (absence : TerminalCheckpointUnavailableReason) (l : OutputLog) :=
  {| chunks := chunks l; front_skip := front_skip l; retained_bytes := retained_bytes l;
     latest_output_bytes := latest_output_bytes l;
     source_gap_after_byte := source_gap_after_byte l;
     terminal := t; terminal_absence := absence;
     resize_revision := resize_revision l; checkpoint_dirty := checkpoint_dirty l;
     log_terminal_fault := log_terminal_fault l; service := service l; facts := facts l;
     outbox := outbox l |}.
Definition set_resize_revision (r : N) (l : OutputLog) :=
  {| chunks := chunks l; front_skip := front_skip l; retained_bytes := retained_bytes l;
     latest_output_bytes := latest_output_bytes l;
     source_gap_after_byte := source_gap_after_byte l;
     terminal := terminal l; terminal_absence := terminal_absence l;
     resize_revision := r; checkpoint_dirty := checkpoint_dirty l;
     log_terminal_fault := log_terminal_fault l; service := service l; facts := facts l;
     outbox := outbox l |}.
Definition set_dirty (d : bool) (l : OutputLog) :=
  {| chunks := chunks l; front_skip := front_skip l; retained_bytes := retained_bytes l;
     latest_output_bytes := latest_output_bytes l;
     source_gap_after_byte := source_gap_after_byte l;
     terminal := terminal l; terminal_absence := terminal_absence l;
     resize_revision := resize_revision l; checkpoint_dirty := d;
     log_terminal_fault := log_terminal_fault l; service := service l; facts := facts l;
     outbox := outbox l |}.
Definition set_service (s : option NativeService.t) (f : option NativeTerminalFault)
    (evs : list RunEvent) (l : OutputLog) :=
  {| chunks := chunks l; front_skip := front_skip l; retained_bytes := retained_bytes l;
     latest_output_bytes := latest_output_bytes l;
     source_gap_after_byte := source_gap_after_byte l;
     terminal := terminal l; terminal_absence := terminal_absence l;
     resize_revision := resize_revision l; checkpoint_dirty := checkpoint_dirty l;
     log_terminal_fault := f; service := s; facts := facts l; outbox := evs |}.
Definition set_facts (f : option OutputFacts) (l : OutputLog) :=
  {| chunks := chunks l; front_skip := front_skip l; retained_bytes := retained_bytes l;
     latest_output_bytes := latest_output_bytes l;
     source_gap_after_byte := source_gap_after_byte l;
     terminal := terminal l; terminal_absence := terminal_absence l;
     resize_revision := resize_revision l; checkpoint_dirty := checkpoint_dirty l;
     log_terminal_fault := log_terminal_fault l; service := service l; facts := f;
     outbox := outbox l |}.

(** *** Construction *)

Definition empty_log (gap : option N) : OutputLog :=
  {| chunks := []; front_skip := 0; retained_bytes := 0; latest_output_bytes := 0;
     source_gap_after_byte := gap; terminal := None; terminal_absence := OriginUnknown;
     resize_revision := 0; checkpoint_dirty := false; log_terminal_fault := None;
     service := None; facts := None; outbox := [] |}.
Definition log_new : OutputLog := empty_log None.
Definition with_initial_truncation : OutputLog := empty_log (Some 0).

(** The new log and the shared total. *)
Definition from_replay (replay : OutputReplay) (source_gap : option N) (total : N)
    : OutputLog * N :=
  let retained := sumN (λ c, len (data c)) (replay_chunks replay) in
  ({| chunks := replay_chunks replay; front_skip := 0; retained_bytes := retained;
      latest_output_bytes := replay_latest_output_bytes replay;
      source_gap_after_byte :=
        match source_gap with
        | Some g => Some g
        | None =>
            if replay_truncated replay && bool_decide (replay_first_available_byte replay = 0)
            then Some (replay_latest_output_bytes replay) else None
        end;
      terminal := None; terminal_absence := OriginUnknown; resize_revision := 0;
      checkpoint_dirty := false; log_terminal_fault := None; service := None;
      facts := None; outbox := [] |},
   budget_add retained total).

Definition first_available_byte (l : OutputLog) : N :=
  match chunks l with
  | c :: _ => start_byte c + front_skip l
  | [] => latest_output_bytes l
  end.

Definition current_facts (l : OutputLog) : OutputFacts :=
  {| facts_latest_output_bytes := latest_output_bytes l;
     facts_first_available_byte := first_available_byte l;
     facts_retained_bytes := retained_bytes l |}.
Definition publish_facts (l : OutputLog) : OutputLog :=
  match facts l with
  | Some _ => set_facts (Some (current_facts l)) l
  | None => l
  end.

(** *** The derived terminal *)

Definition note_terminal_fault (stage : NativeTerminalFaultStage) (l : OutputLog)
    : outcome OutputLog :=
  match log_terminal_fault l with
  | Some _ => Ret l
  | None =>
      let fault := {| fault_stage := stage; fault_through_byte := latest_output_bytes l |} in
      match service l with
      | Some s =>
          let! '(s, e) := NativeService.record_terminal_fault fault s in
          Ret (set_service (Some s) (Some fault) (outbox l ++ option_list e) l)
      | None => Ret (set_service None (Some fault) (outbox l) l)
      end
  end.

Definition log_derive_terminal {A} (stage : NativeTerminalFaultStage)
    (derive : TerminalModel P → outcome (TerminalModel P * A)) (l : OutputLog)
    : outcome (OutputLog * option A) :=
  match terminal l with
  | None => Ret (l, None)
  | Some t =>
      match derive_terminal (derive t) with
      | Some (t, a) => Ret (set_terminal (Some t) (terminal_absence l) l, Some a)
      | None =>
          let l := set_dirty false (set_terminal None InvalidCheckpoint l) in
          let! l := note_terminal_fault stage l in
          Ret (l, None)
      end
  end.

Definition log_new_native (id : RunId) (size : option TerminalSize) : outcome OutputLog :=
  match size with
  | None => Ret log_new
  | Some size =>
      match derive_terminal (tm_new id size) with
      | Some t => Ret (set_terminal (Some t) OriginUnknown log_new)
      | None => note_terminal_fault StageProcess (set_terminal None InvalidCheckpoint log_new)
      end
  end.

(** [saved] is [persistence.load_terminal_checkpoint(id)]; the source returns
    the log unchanged when there is none.  The recovered model reads
    [self.replay(0)], which is passed in. *)
Definition recover_terminal (id : RunId) (saved : option StoredCheckpoint)
    (confirmed_size : option TerminalSize) (history : OutputReplay) (l : OutputLog)
    : outcome OutputLog :=
  match saved with
  | None => Ret l
  | Some saved =>
      let recovered := mjoin (derive_terminal (tm_recover id saved history)) in
      let disagrees := match recovered, confirmed_size with
                       | Some t, Some size => bool_decide (size ≠ tm_size t)
                       | _, _ => false
                       end in
      let recovered := if disagrees then None else recovered in
      match recovered with
      | Some t =>
          Ret (set_resize_revision (tm_resize_revision t)
                 (set_terminal (Some t) (terminal_absence l) l))
      | None => note_terminal_fault StageRecovery (set_terminal None InvalidCheckpoint l)
      end
  end.

Definition resize_terminal (size : TerminalSize) (l : OutputLog)
    : outcome (OutputLog * TerminalResize) :=
  let! revision := plus_u64 (resize_revision l) 1 in
  let l := set_resize_revision revision l in
  let through_byte := latest_output_bytes l in
  let! '(l, r) := log_derive_terminal StageResize (λ t, tm_resize t size through_byte) l in
  let resize := default {| resize_through_byte := through_byte;
                           resize_resize_revision := revision; resize_size := size |} r in
  Ret (set_dirty (bool_decide (is_Some (terminal l))) l, resize).

Definition terminal_snapshot (id : RunId) (l : OutputLog)
    : outcome (OutputLog * (TerminalContinuation * bytes)) :=
  let first := first_available_byte l in
  let latest := latest_output_bytes l in
  let! '(l, r) := log_derive_terminal StageExport (λ t, tm_continuation t id first latest) l in
  Ret (l, default
            (if decide (terminal_absence l = InvalidCheckpoint)
             then UnavailableContinuation (terminal_absence l)
             else UnknownContinuation (terminal_absence l), []) r).

Definition terminal_pressure (id : RunId) (l : OutputLog) : outcome OutputLog :=
  let first := first_available_byte l in
  let latest := latest_output_bytes l in
  let! '(l, r) := log_derive_terminal StageExport (λ t, tm_retention_cut t id first latest) l in
  Ret (if default false r then set_dirty true l else l).

Definition take_stored_checkpoint (l : OutputLog)
    : outcome (OutputLog * option StoredCheckpoint) :=
  if negb (checkpoint_dirty l) then Ret (l, None) else
  let l := set_dirty false l in
  let! '(l, r) := log_derive_terminal StageExport (λ t, Ret (t, tm_stored t)) l in
  Ret (l, mjoin r).

Definition mark_history_gap (l : OutputLog) : OutputLog * N :=
  (set_gap (Some (latest_output_bytes l)) l, latest_output_bytes l).
Definition mark_source_gap (l : OutputLog) : OutputLog * N :=
  mark_history_gap (set_terminal None SourceGap l).

Definition bind_service (s : NativeService.t) (l : OutputLog) : outcome OutputLog :=
  match log_terminal_fault l with
  | Some fault =>
      let! '(s, e) := NativeService.record_terminal_fault fault s in
      Ret (set_service (Some s) (Some fault) (outbox l ++ option_list e) l)
  | None => Ret (set_service (Some s) None (outbox l) l)
  end.

(** *** Trimming *)

(** One [while] loop: [fuel] is [S (length chunks)], since a turn either pops
    a block for good or makes the loop condition false. *)
Fixpoint trim_loop (fuel : nat) (cs : list OutputChunk)
    (skip retained total freed drop_at_least maximum : N)
    : outcome (list OutputChunk * N * N * N * N) :=
  if decide (freed < drop_at_least ∧ freed < maximum) then
    match cs with
    | [] => Ret (cs, skip, retained, total, freed)
    | evicted :: rest =>
        match fuel with
        | O => Panic "out of fuel"
        | S fuel =>
            let skipped := skip in
            let! available := minus_u64 (len (data evicted)) skipped in
            let bytes := N.min (N.min available (drop_at_least - freed)) (maximum - freed) in
            let '(cs, skip) := if decide (bytes < available)
                               then (evicted :: rest, skipped + bytes) else (rest, 0) in
            let! retained := minus_u64 retained bytes in
            let total := budget_sub bytes total in
            trim_loop fuel cs skip retained total (freed + bytes) drop_at_least maximum
        end
    end
  else Ret (cs, skip, retained, total, freed).

(** The log, the shared total and the bytes freed. *)
Definition trim_front_bounded (drop_at_least maximum : N) (l : OutputLog) (total : N)
    : outcome (OutputLog * N * N) :=
  let! '(cs, skip, retained, total, freed) :=
    trim_loop (S (length (chunks l))) (chunks l) (front_skip l) (retained_bytes l)
      total 0 drop_at_least maximum in
  Ret (publish_facts (set_raw cs skip retained (latest_output_bytes l) l), total, freed).

(** *** Pushing *)

(** [data.chunks(n)]. *)
Fixpoint chunks_of (fuel : nat) (n : N) (d : bytes) : list bytes :=
  match fuel, d with
  | _, [] => []
  | O, _ => []
  | S fuel, _ => takeN n d :: chunks_of fuel n (dropN n d)
  end.

Definition push_block (start : N) (d : bytes) (cs : list OutputChunk) : list OutputChunk :=
  let fresh := {| start_byte := start; end_byte := start + len d; data := d |} in
  match last cs with
  | Some tail =>
      if decide (end_byte tail = start ∧
                 len (data tail) + len d ≤ REPLAY_CACHE_BLOCK_BYTES)
      then removelast cs ++ [{| start_byte := start_byte tail; end_byte := start + len d;
                                data := data tail ++ d |}]
      else cs ++ [fresh]
  | None => cs ++ [fresh]
  end.

Fixpoint push_blocks (base index : N) (pieces : list bytes) (cs : list OutputChunk)
    : list OutputChunk :=
  match pieces with
  | [] => cs
  | d :: pieces =>
      push_blocks base (index + 1) pieces
        (push_block (base + index * REPLAY_CACHE_BLOCK_BYTES) d cs)
  end.

(** The log, the shared total and the whole admitted chunk. *)
Definition push_protected (d : bytes) (protected per_run_limit : N) (l : OutputLog) (total : N)
    : outcome (OutputLog * N * OutputChunk) :=
  let! _ := check "output chunks must contain at least one byte" (negb (bool_decide (d = []))) in
  let start := latest_output_bytes l in
  let! e := expect "one Run cannot allocate more than u64::MAX output bytes"
              (checked_add start (len d)) in
  let chunk := {| start_byte := start; end_byte := e; data := d |} in
  let retained := retained_bytes l +sat len d in
  let total := budget_add (len d) total in
  let cs := push_blocks start 0 (chunks_of (length d) REPLAY_CACHE_BLOCK_BYTES d) (chunks l) in
  let l := publish_facts (set_raw cs (front_skip l) retained e l) in
  let! '(l, _) := log_derive_terminal StageProcess
                    (λ t, let! t := tm_process t d in Ret (t, tt)) l in
  let excess := retained_bytes l -sat per_run_limit in
  let reclaimable := usize_or_max (protected -sat first_available_byte l) in
  let! '(l, total, _) := trim_front_bounded excess reclaimable l total in
  Ret (l, total, chunk).

(** *** Replay *)

Definition retained_after (chunk : OutputChunk) (after_byte : N) : option OutputChunk :=
  if decide (end_byte chunk ≤ after_byte) then None
  else if decide (after_byte ≤ start_byte chunk) then Some chunk
  else
    let offset := after_byte - start_byte chunk in
    if decide (offset ≤ len (data chunk)) then
      Some {| start_byte := after_byte; end_byte := end_byte chunk;
              data := dropN offset (data chunk) |}
    else None.

Definition gap_covers (l : OutputLog) (after_byte : N) : bool :=
  match source_gap_after_byte l with
  | Some gap => bool_decide (after_byte ≤ gap)
  | None => false
  end.

Definition replay (after_byte : N) (l : OutputLog) : OutputReplay :=
  let first := first_available_byte l in
  {| replay_chunks := omap (λ c, retained_after c (N.max after_byte first)) (chunks l);
     replay_first_available_byte := first;
     replay_latest_output_bytes := latest_output_bytes l;
     replay_truncated := gap_covers l after_byte || bool_decide (after_byte < first) |}.

Definition durable_replay (after_byte : N) (l : OutputLog) : OutputReplay :=
  let r := replay after_byte l in
  {| replay_chunks := replay_chunks r; replay_first_available_byte := 0;
     replay_latest_output_bytes := replay_latest_output_bytes r;
     replay_truncated := bool_decide (is_Some (source_gap_after_byte l)) |}.

(** Indexing [data[a..b]] panics out of range. *)
Definition slice (d : bytes) (a b : N) : outcome bytes :=
  if decide (a ≤ b ∧ b ≤ len d) then Ret (takeN (b - a) (dropN a d))
  else Panic "slice index out of range".

Fixpoint page_chunks (first last : N) (cs : list OutputChunk) : outcome (list OutputChunk) :=
  match cs with
  | [] => Ret []
  | c :: cs =>
      let start := N.max (start_byte c) first in
      let e := N.min (end_byte c) last in
      if decide (start < e) then
        let! d := slice (data c) (start - start_byte c) (e - start_byte c) in
        let! rest := page_chunks first last cs in
        Ret ({| start_byte := start; end_byte := e; data := d |} :: rest)
      else page_chunks first last cs
  end.

Definition replay_page (after_byte through : N) (l : OutputLog) : outcome OutputReplay :=
  let first := N.max after_byte (first_available_byte l) in
  let last := N.min through (first +sat (64 * 1024)) in
  let! cs := page_chunks first last (chunks l) in
  Ret {| replay_chunks := cs;
         replay_first_available_byte := first_available_byte l;
         replay_latest_output_bytes := N.min through (latest_output_bytes l);
         replay_truncated := bool_decide (after_byte < first_available_byte l)
                             || gap_covers l after_byte |}.

Definition offer_replay (after_byte : N) (l : OutputLog) : outcome OutputReplay :=
  let! r := replay_page after_byte (latest_output_bytes l) l in
  Ret {| replay_chunks := replay_chunks r; replay_first_available_byte := 0;
         replay_latest_output_bytes :=
           match last (replay_chunks r) with Some c => end_byte c | None => after_byte end;
         replay_truncated := bool_decide (is_Some (source_gap_after_byte l)) |}.

Definition recover_log (id : RunId) (saved : option StoredCheckpoint)
    (confirmed_size : option TerminalSize) (l : OutputLog) : outcome OutputLog :=
  recover_terminal id saved confirmed_size (replay 0 l) l.

(** [Drop for OutputLog]. *)
Definition drop_log (l : OutputLog) (total : N) : N := budget_sub (retained_bytes l) total.
End log.
Arguments OutputLog P : clear implicits.

(** ** The Run as a retention victim

    What the reclaimer reads of a Run: its output log, the start of the suffix
    persistence still protects ([u64::MAX] for a memory-only Run) and whether
    each of the two local owners is free ([try_owner] succeeds). *)

Record RunVictim {P} := {
  victim_id : RunId;
  victim_output : OutputLog P;
  victim_attachments : N;
  victim_protected : option N;  (** [try_output_protected_from]; [None] is busy. *)
  victim_output_free : bool;    (** [try_owner(&self.output)] succeeds. *)
}.
Arguments RunVictim P : clear implicits.

Definition run_reclaimable {P} (v : RunVictim P) : N :=
  match victim_protected v with
  | None => 0
  | Some protected =>
      if victim_output_free v then
        N.min (retained_bytes (victim_output v))
          (usize_or_max (protected -sat first_available_byte (victim_output v)))
      else 0
  end.

Definition run_reclaim_output {P} `{!VtParser P} (v : RunVictim P) (drop_at_least total : N)
    : outcome (RunVictim P * N * N) :=
  match victim_protected v with
  | None => Ret (v, 0, total)
  | Some protected =>
      if victim_output_free v then
        let reclaimable := protected -sat first_available_byte (victim_output v) in
        let! '(l, total, freed) :=
          trim_front_bounded drop_at_least (usize_or_max reclaimable) (victim_output v) total in
        let! l := terminal_pressure (victim_id v) l in
        Ret ({| victim_id := victim_id v; victim_output := l;
                victim_attachments := victim_attachments v;
                victim_protected := victim_protected v;
                victim_output_free := victim_output_free v |}, freed, total)
      else Ret (v, 0, total)
  end.

#[export] Instance run_victim {P} `{!VtParser P} : RetentionVictim (RunVictim P) := {
  run_id := victim_id;
  retained_output_bytes v :=
    if victim_output_free v then Some (retained_bytes (victim_output v)) else None;
  reclaimable_output_bytes := run_reclaimable;
  is_attached v := bool_decide (victim_attachments v ≠ 0);
  reclaim_output := run_reclaim_output;
}.
