(* ===== verification/OutputLogSpec.v ===== *)
(** * Output log: specification

    The abstract view of an [OutputLog] is the byte string it retains
    ([content]) together with the lifetime head; the theorems show that pushing,
    trimming, replaying and paging are the obvious operations on that string,
    that the shared budget is charged exactly, and that no operation panics. *)

From S2P Require Import Prelude.
From S2P Require Import Protocol.
From S2P Require Import TerminalCheckpoint.
From S2P Require Import NativeService.
From S2P Require Import Retention.
From S2P Require Import OutputLog.

(** ** Chains of contiguous blocks *)

Definition log_bytes (cs : list OutputChunk) : bytes := concat (map data cs).

Definition chunk_ok (c : OutputChunk) : Prop :=
  end_byte c = start_byte c + len (data c) ∧ data c ≠ [].

Fixpoint chain (a : N) (cs : list OutputChunk) (b : N) : Prop :=
  match cs with
  | [] => a = b
  | c :: cs => start_byte c = a ∧ chunk_ok c ∧ chain (end_byte c) cs b
  end.

Definition skip_ok (cs : list OutputChunk) (skip : N) : Prop :=
  match cs with [] => skip = 0 | c :: _ => skip < len (data c) end.

Lemma log_bytes_cons c cs : log_bytes (c :: cs) = data c ++ log_bytes cs.
Proof. done. Qed.
Lemma log_bytes_app cs cs' : log_bytes (cs ++ cs') = log_bytes cs ++ log_bytes cs'.
Proof. unfold log_bytes. by rewrite map_app, concat_app. Qed.
Lemma log_bytes_sum cs : len (log_bytes cs) = sumN (λ c, len (data c)) cs.
Proof.
  induction cs as [|c cs IH]; [done|]. by rewrite log_bytes_cons, len_app, sumN_cons, IH.
Qed.

Lemma chain_end a cs b : chain a cs b → b = a + len (log_bytes cs).
Proof.
  revert a. induction cs as [|c cs IH]; intros a; simpl.
  - intros ->. unfold log_bytes. simpl. rewrite len_nil. lia.
  - intros (<- & [He _] & Hc). rewrite log_bytes_cons, len_app. apply IH in Hc. lia.
Qed.

Lemma chain_app a cs cs' b : chain a (cs ++ cs') b ↔ ∃ m, chain a cs m ∧ chain m cs' b.
Proof.
  revert a. induction cs as [|c cs IH]; intros a; simpl; [naive_solver|].
  rewrite IH. naive_solver.
Qed.

Lemma chunk_ok_len c : chunk_ok c → 0 < len (data c).
Proof. intros [_ Hne]. destruct (data c); [done|]. rewrite len_cons. lia. Qed.

(** ** Trimming *)

Lemma Ret_triple {A B} (x : A) (y : B) (a b c a' b' c' : N) :
  a = a' → b = b' → c = c' → Ret (x, y, a, b, c) = Ret (x, y, a', b', c').
Proof. congruence. Qed.

Lemma trim_loop_spec fuel cs a b skip retained total freed dr mx :
  chain a cs b → skip_ok cs skip → retained + skip = len (log_bytes cs) →
  (length cs < fuel)%nat →
  let k := N.min (N.min (dr - freed) (mx - freed)) retained in
  ∃ cs' skip' a', trim_loop fuel cs skip retained total freed dr mx =
      Ret (cs', skip', retained - k, total - k, freed + k)
    ∧ chain a' cs' b ∧ skip_ok cs' skip' ∧ retained - k + skip' = len (log_bytes cs')
    ∧ dropN skip' (log_bytes cs') = dropN k (dropN skip (log_bytes cs)).
Proof.
  revert cs a skip retained total freed.
  induction fuel as [|fuel IH]; intros cs a skip retained total freed Hc Hs Hr Hf k; [lia|].
  simpl. case_decide as Hcond.
  2:{ exists cs, skip, a. assert (k = 0) as -> by lia. rewrite !N.sub_0_r, N.add_0_r. auto. }
  destruct cs as [|c cs].
  { exists [], skip, a. unfold log_bytes in Hr. simpl in Hr. rewrite len_nil in Hr.
    assert (k = 0) as -> by lia. rewrite !N.sub_0_r, N.add_0_r. auto. }
  simpl in Hs, Hf. destruct Hc as (Ha & Hok & Hc). rewrite log_bytes_cons, len_app in Hr.
  rewrite minus_u64_ok by lia. simpl.
  set (n := N.min (N.min (len (data c) - skip) (dr - freed)) (mx - freed)).
  case_decide as Hn.
  - rewrite minus_u64_ok by lia. simpl. unfold budget_sub.
    assert (k = n) as -> by lia.
    exists (c :: cs), (skip + n), a. split.
    { destruct fuel; simpl; rewrite decide_False by lia; done. }
    split; [done|]. split; [simpl; lia|]. split; [rewrite log_bytes_cons, len_app; lia|].
    by rewrite dropN_dropN.
  - rewrite minus_u64_ok by lia. simpl. unfold budget_sub.
    assert (n = len (data c) - skip) as Hnn by lia.
    destruct (IH cs (end_byte c) 0 (retained - n) (total - n) (freed + n))
      as (cs' & skip' & a' & Hrun & Hc' & Hs' & Hr' & Hd); [done| |lia|lia|].
    { destruct cs; [done|]. destruct Hc as (_ & Ho & _). by apply chunk_ok_len in Ho. }
    set (k2 := N.min (N.min (dr - (freed + n)) (mx - (freed + n))) (retained - n)) in *.
    assert (k = n + k2) as Hk by lia.
    assert (n ≤ retained) as Hn' by lia.
    exists cs', skip', a'. rewrite Hrun. clearbody k k2. clearbody n. subst k.
    split; [apply Ret_triple; lia|]. split; [done|]. split; [done|]. split; [lia|].
    rewrite Hd, dropN_dropN, log_bytes_cons, dropN_dropN, N.add_0_l.
    rewrite dropN_app_ge by lia. f_equal. lia.
Qed.

(** ** Pushing blocks *)

Lemma push_block_spec a cs s d :
  chain a cs s → d ≠ [] →
  chain a (push_block s d cs) (s + len d)
  ∧ log_bytes (push_block s d cs) = log_bytes cs ++ d
  ∧ (∀ skip, skip_ok cs skip → skip_ok (push_block s d cs) skip).
Proof.
  intros Hc Hd. assert (0 < len d) as Hpos by (destruct d; [done|rewrite len_cons; lia]).
  unfold push_block. destruct cs as [|tail cs _] using rev_ind; simpl.
  { simpl in Hc. subst. unfold chunk_ok. simpl. split_and!; try done.
    - unfold log_bytes. simpl. by rewrite app_nil_r.
    - intros ? ->. done. }
  rewrite last_snoc. apply chain_app in Hc as (m & Hc & Hm & [He Hne] & Hs). simpl in Hs.
  case_decide as Hmerge.
  - rewrite removelast_last. destruct Hmerge as [Heq _]. split_and!.
    + apply chain_app. exists m. split; [done|]. simpl. unfold chunk_ok. simpl.
      rewrite len_app. split_and!; try done; [lia|]. by destruct (data tail).
    + rewrite !log_bytes_app. unfold log_bytes. simpl. by rewrite !app_nil_r, app_assoc.
    + intros skip. destruct cs; simpl; [|done]. rewrite len_app. lia.
  - split_and!.
    + apply chain_app. exists s. split.
      * apply chain_app. exists m. simpl. unfold chunk_ok. auto.
      * simpl. unfold chunk_ok. simpl. auto.
    + rewrite !log_bytes_app. unfold log_bytes. simpl. by rewrite !app_nil_r.
    + intros skip. by destruct cs.
Qed.

Lemma chunks_of_nil fuel n : chunks_of fuel n [] = [].
Proof. by destruct fuel. Qed.

Lemma push_blocks_spec fuel a base i d cs :
  (length d ≤ fuel)%nat → chain a cs (base + i * REPLAY_CACHE_BLOCK_BYTES) →
  let cs' := push_blocks base i (chunks_of fuel REPLAY_CACHE_BLOCK_BYTES d) cs in
  chain a cs' (base + i * REPLAY_CACHE_BLOCK_BYTES + len d)
  ∧ log_bytes cs' = log_bytes cs ++ d
  ∧ (∀ skip, skip_ok cs skip → skip_ok cs' skip).
Proof.
  revert i d cs. induction fuel as [|fuel IH]; intros i d cs Hf Hc; simpl.
  { destruct d; [|simpl in Hf; lia]. simpl. rewrite len_nil, N.add_0_r, app_nil_r. auto. }
  destruct d as [|x d].
  { simpl. rewrite len_nil, N.add_0_r, app_nil_r. auto. }
  cbn [push_blocks]. set (B := REPLAY_CACHE_BLOCK_BYTES) in *.
  assert (0 < B) as HB by done. clearbody B.
  assert (takeN B (x :: d) ≠ []) as Hne.
  { intros He. apply (f_equal len) in He. rewrite len_takeN, len_cons, len_nil in He. lia. }
  destruct (push_block_spec a cs (base + i * B) _ Hc Hne) as (Hc' & Hb & Hs).
  rewrite len_takeN in Hc'.
  destruct (decide (len (x :: d) ≤ B)) as [Hlast|Hmore].
  - rewrite (dropN_ge B), chunks_of_nil by done. simpl.
    rewrite N.min_r in Hc' by done. rewrite takeN_ge in * by done. auto.
  - rewrite N.min_l in Hc' by lia.
    destruct (IH (i + 1) (dropN B (x :: d)) (push_block (base + i * B) (takeN B (x :: d)) cs))
      as (Hc2 & Hb2 & Hs2).
    + unfold dropN. rewrite length_drop. simpl in *. lia.
    + by replace (base + (i + 1) * B) with (base + i * B + B) by lia.
    + split_and!.
      * rewrite len_dropN, N.mul_add_distr_r, N.mul_1_l in Hc2.
        replace (base + i * B + len (x :: d))
          with (base + (i * B + B) + (len (x :: d) - B)) by lia. done.
      * by rewrite Hb2, Hb, <-app_assoc, takeN_dropN.
      * auto.
Qed.

(** ** Reading a range of a chain *)

Lemma retained_after_chunk c x :
  chunk_ok c →
  match retained_after c x with
  | None => end_byte c ≤ x
  | Some d => x < end_byte c ∧ start_byte d = N.max (start_byte c) x ∧ end_byte d = end_byte c
              ∧ chunk_ok d ∧ data d = dropN (x - start_byte c) (data c)
  end.
Proof.
  intros Hok. pose proof (chunk_ok_len c Hok) as Hpos. destruct Hok as [He Hne].
  unfold retained_after. repeat case_decide; try done.
  - split_and!; try done; try lia. by replace (x - start_byte c) with 0 by lia.
  - simpl. unfold chunk_ok. simpl. rewrite len_dropN. split_and!; try lia; [|done].
    intros Hn. apply (f_equal len) in Hn. rewrite len_dropN, len_nil in Hn. lia.
  - lia.
Qed.

Lemma retained_after_chain x cs a b :
  chain a cs b →
  let out := omap (λ c, retained_after c x) cs in
  log_bytes out = dropN (x - a) (log_bytes cs) ∧
  (x < b → chain (N.max a x) out b) ∧ (b ≤ x → out = []).
Proof.
  revert a. induction cs as [|c cs IH]; intros a Hc out.
  { simpl in Hc. subst. unfold log_bytes. simpl. rewrite dropN_nil. split_and!; try done. lia. }
  assert (out = match retained_after c x with
                | Some d => d :: omap (λ c, retained_after c x) cs
                | None => omap (λ c, retained_after c x) cs end) as -> by done.
  destruct Hc as (<- & Hok & Hc). destruct (IH _ Hc) as (Hb & Hlt & Hge).
  pose proof (retained_after_chunk c x Hok) as Hra. pose proof (chain_end _ _ _ Hc) as Hend.
  pose proof (chunk_ok_len _ Hok). destruct Hok as [He Hne].
  rewrite log_bytes_cons, dropN_app.
  replace (x - start_byte c - len (data c)) with (x - end_byte c) by lia.
  destruct (retained_after c x) as [d|] eqn:Hrad.
  - destruct Hra as (Hx & Hs & He' & Hok' & Hd). rewrite log_bytes_cons, Hb, Hd.
    split_and!; [done| |lia]. intros _. split_and!; [done|done|].
    rewrite He'. replace (end_byte c) with (N.max (end_byte c) x) at 1 by lia.
    destruct (decide (x < b)); [auto|]. lia.
  - rewrite Hb, (dropN_ge _ (data c)) by lia. split_and!; [done| |done].
    intros Hx. replace (N.max (start_byte c) x) with (N.max (end_byte c) x) by lia. auto.
Qed.

Lemma slice_ok d x y : x ≤ y → y ≤ len d → slice d x y = Ret (dropN x (takeN y d)).
Proof. intros. unfold slice. rewrite decide_True by done. by rewrite dropN_takeN. Qed.

Lemma page_chunks_spec f la cs a b :
  chain a cs b →
  ∃ out, page_chunks f la cs = Ret out ∧
    log_bytes out = dropN (f - a) (takeN (la - a) (log_bytes cs)) ∧
    (N.max a f < N.min la b → chain (N.max a f) out (N.min la b)) ∧
    (N.min la b ≤ N.max a f → out = []).
Proof.
  revert a. induction cs as [|c cs IH]; intros a Hc; simpl.
  { exists []. unfold log_bytes. simpl in *. subst.
    rewrite takeN_nil, dropN_nil. split_and!; try done. lia. }
  destruct Hc as (<- & Hok & Hc). destruct (IH _ Hc) as (out & Hrun & Hb & Hlt & Hge).
  pose proof (chain_end _ _ _ Hc) as Hend. pose proof (chunk_ok_len _ Hok). destruct Hok as [He Hne].
  assert (dropN (f - start_byte c) (takeN (la - start_byte c) (log_bytes (c :: cs)))
    = dropN (f - start_byte c) (takeN (la - start_byte c) (data c)) ++ log_bytes out) as Hsplit.
  { rewrite log_bytes_cons, takeN_app, dropN_app, Hb, len_takeN. f_equal.
    replace (la - start_byte c - len (data c)) with (la - end_byte c) by lia.
    destruct (decide (end_byte c ≤ la)).
    - f_equal. lia.
    - replace (la - end_byte c) with 0 by lia. by rewrite takeN_0, !dropN_nil. }
  rewrite Hsplit. case_decide as Hin.
  - rewrite slice_ok by lia. simpl. rewrite Hrun. simpl. eexists. split; [done|].
    split_and!; [| |lia].
    + rewrite log_bytes_cons. simpl. f_equal.
      destruct (decide (start_byte c ≤ f)), (decide (la ≤ end_byte c)).
      * f_equal; [lia|f_equal; lia].
      * rewrite (takeN_ge (N.min _ _ - _)), (takeN_ge (la - _)) by lia. f_equal. lia.
      * f_equal; [lia|f_equal; lia].
      * rewrite (takeN_ge (N.min _ _ - _)), (takeN_ge (la - _)) by lia. f_equal. lia.
    + intros _. simpl. split_and!; [lia| |].
      * unfold chunk_ok. simpl. rewrite dropN_takeN, len_takeN, len_dropN. split; [lia|].
        intros Hn. apply (f_equal len) in Hn. rewrite len_takeN, len_dropN, len_nil in Hn. lia.
      * destruct (decide (N.max (end_byte c) f < N.min la b)) as [Hm|Hm].
        -- replace (N.min (end_byte c) la) with (N.max (end_byte c) f) by lia. auto.
        -- rewrite (Hge ltac:(lia)). simpl. lia.
  - exists out. split; [done|].
    assert (dropN (f - start_byte c) (takeN (la - start_byte c) (data c)) = []) as ->.
    { apply dropN_ge. rewrite len_takeN. lia. }
    split_and!; [done| |].
    + intros Hm. replace (N.max (start_byte c) f) with (N.max (end_byte c) f) by lia.
      apply Hlt. lia.
    + intros Hm. destruct (decide (N.min la b ≤ N.max (end_byte c) f)); [auto|]. apply Hge. lia.
Qed.

(** ** The log invariant and its abstract content *)

Section spec.
Context {P : Type} `{!VtParser P}.
Implicit Types l : OutputLog P.

(** The retained bytes: what the raw blocks hold past the trimmed front. *)
Definition content l : bytes := dropN (front_skip l) (log_bytes (chunks l)).

Definition raw_wf l : Prop :=
  (∃ a, chain a (chunks l) (latest_output_bytes l)) ∧
  skip_ok (chunks l) (front_skip l) ∧
  retained_bytes l + front_skip l = len (log_bytes (chunks l)) ∧
  latest_output_bytes l ≤ u64_max.

Definition facts_wf l : Prop :=
  match facts l with Some f => f = current_facts l | None => True end.

(** The bound service can still publish the log's one terminal fault. *)
Definition service_wf l : Prop :=
  match log_terminal_fault l, service l with
  | None, Some s => revision (NativeService.snapshot s) < u64_max
  | _, _ => True
  end.

Definition log_wf l : Prop := raw_wf l ∧ facts_wf l ∧ service_wf l.

Lemma raw_wf_eq l l' :
  chunks l' = chunks l → front_skip l' = front_skip l → retained_bytes l' = retained_bytes l →
  latest_output_bytes l' = latest_output_bytes l → raw_wf l → raw_wf l'.
Proof. unfold raw_wf. by intros -> -> -> ->. Qed.

Lemma content_len l : raw_wf l → len (content l) = retained_bytes l.
Proof. intros (_ & _ & Hr & _). unfold content. rewrite len_dropN. lia. Qed.

Lemma first_available_spec l :
  raw_wf l → first_available_byte l + retained_bytes l = latest_output_bytes l.
Proof.
  intros ([a Hc] & Hs & Hr & _). pose proof (chain_end _ _ _ Hc) as Hend.
  unfold first_available_byte. destruct (chunks l) as [|c cs]; simpl in *.
  - unfold log_bytes in *. simpl in *. rewrite len_nil in *. lia.
  - destruct Hc as (<- & _ & _). lia.
Qed.

Lemma publish_facts_wf l : raw_wf l → service_wf l → log_wf (publish_facts l).
Proof.
  intros Hr Hs. unfold publish_facts. destruct (facts l) eqn:Hf.
  - split_and!; done.
  - split_and!; try done. unfold facts_wf. by rewrite Hf.
Qed.
Lemma publish_facts_raw l :
  chunks (publish_facts l) = chunks l ∧ front_skip (publish_facts l) = front_skip l ∧
  retained_bytes (publish_facts l) = retained_bytes l ∧
  latest_output_bytes (publish_facts l) = latest_output_bytes l ∧
  service (publish_facts l) = service l ∧
  log_terminal_fault (publish_facts l) = log_terminal_fault l ∧
  source_gap_after_byte (publish_facts l) = source_gap_after_byte l.
Proof. unfold publish_facts. by destruct (facts l). Qed.

(** What a derived-terminal step leaves alone. *)
Definition same_raw l l' : Prop :=
  chunks l' = chunks l ∧ front_skip l' = front_skip l ∧ retained_bytes l' = retained_bytes l ∧
  latest_output_bytes l' = latest_output_bytes l ∧
  source_gap_after_byte l' = source_gap_after_byte l ∧ facts l' = facts l ∧
  resize_revision l' = resize_revision l.

Lemma same_raw_refl l : same_raw l l.
Proof. by split_and!. Qed.
Lemma same_raw_trans l1 l2 l3 : same_raw l1 l2 → same_raw l2 l3 → same_raw l1 l3.
Proof. unfold same_raw. naive_solver congruence. Qed.
Lemma same_raw_first l l' :
  same_raw l l' → first_available_byte l' = first_available_byte l.
Proof. intros (E1 & E2 & _ & E4 & _). unfold first_available_byte. by rewrite E1, E2, E4. Qed.
Lemma same_raw_content l l' : same_raw l l' → content l' = content l.
Proof. intros (E1 & E2 & _). unfold content. by rewrite E1, E2. Qed.
Lemma same_raw_wf l l' : same_raw l l' → service_wf l' → log_wf l → log_wf l'.
Proof.
  intros E Hs (Hr & Hf & _). pose proof (same_raw_first _ _ E) as Ef.
  destruct E as (E1 & E2 & E3 & E4 & _ & E6 & _). split_and!; [by eapply raw_wf_eq| |done].
  unfold facts_wf, current_facts in *. by rewrite E6, Ef, E3, E4.
Qed.

Lemma note_terminal_fault_ok stage l :
  service_wf l → ∃ l', note_terminal_fault stage l = Ret l' ∧ same_raw l l' ∧
    log_terminal_fault l' ≠ None ∧ terminal l' = terminal l.
Proof.
  unfold note_terminal_fault, service_wf. intros Hs.
  destruct (log_terminal_fault l) eqn:Hf.
  { exists l. by rewrite Hf. }
  destruct (service l) as [s|]; [|by eexists].
  unfold NativeService.record_terminal_fault, NativeService.update.
  case_decide; [by eexists|]. unfold checked_add. rewrite decide_True by lia. by eexists.
Qed.

Lemma derive_ok {A} stage (derive : TerminalModel P → outcome (TerminalModel P * A)) l :
  service_wf l → ∃ l' r, log_derive_terminal stage derive l = Ret (l', r) ∧ same_raw l l' ∧
    service_wf l' ∧
    match r with
    | Some a => ∃ t t', terminal l = Some t ∧ derive t = Ret (t', a) ∧ terminal l' = Some t' ∧
                        log_terminal_fault l' = log_terminal_fault l
    | None => terminal l' = None ∧
              (terminal l = None ∨ log_terminal_fault l' ≠ None ∧
                 ∃ t why, terminal l = Some t ∧ derive t = Panic why)
    end.
Proof.
  intros Hs. unfold log_derive_terminal. destruct (terminal l) as [t|] eqn:Ht.
  2:{ exists l, None. split_and!; try done. by left. }
  unfold derive_terminal. destruct (derive t) as [[t' a]|why] eqn:Hd.
  { eexists _, (Some a). split; [reflexivity|]. split_and!; try done. naive_solver. }
  edestruct (note_terminal_fault_ok stage (set_dirty false (set_terminal None InvalidCheckpoint l)))
    as (l' & -> & Hraw & Hfault & Hterm); [done|].
  exists l', None. split; [reflexivity|]. split; [done|].
  split; [unfold service_wf; by destruct (log_terminal_fault l')|].
  split; [done|]. right. eauto.
Qed.

Lemma trim_front_ok dr mx l total :
  raw_wf l → service_wf l →
  let k := N.min (N.min dr mx) (retained_bytes l) in
  ∃ l', trim_front_bounded dr mx l total = Ret (l', total - k, k) ∧
    log_wf l' ∧ content l' = dropN k (content l) ∧
    retained_bytes l' = retained_bytes l - k ∧
    latest_output_bytes l' = latest_output_bytes l ∧
    source_gap_after_byte l' = source_gap_after_byte l ∧
    service l' = service l ∧ log_terminal_fault l' = log_terminal_fault l ∧
    terminal l' = terminal l.
Proof.
  intros ([a Hc] & Hs & Hr & Hl) Hsv k. unfold trim_front_bounded.
  destruct (trim_loop_spec (S (length (chunks l))) (chunks l) a (latest_output_bytes l)
              (front_skip l) (retained_bytes l) total 0 dr mx)
    as (cs' & skip' & a' & Hrun & Hc' & Hs' & Hr' & Hd'); [done..|lia|].
  rewrite Hrun. cbn [obind]. rewrite !N.sub_0_r in *. fold k in Hr', Hd' |- *.
  rewrite N.add_0_l.
  set (l1 := set_raw cs' skip' (retained_bytes l - k) (latest_output_bytes l) l).
  destruct (publish_facts_raw l1) as (E1 & E2 & E3 & E4 & E5 & E6 & E7).
  exists (publish_facts l1). split; [done|].
  split. { apply publish_facts_wf; [|done]. split_and!; [by exists a'|done..]. }
  unfold content. rewrite E1, E2, E3, E4, E5, E6, E7. split_and!; try done.
  unfold publish_facts. by destruct (facts l1).
Qed.

(** What one admitted read leaves behind, [k] being the bytes shed. *)
Record pushed (d : bytes) (protected per_run : N) l (total : N) l' (total' k : N) : Prop := {
  pushed_shed : k = N.min (N.min (retained_bytes l + len d - per_run)
                                 (protected - first_available_byte l))
                          (retained_bytes l + len d);
  pushed_wf : log_wf l';
  pushed_content : content l' = dropN k (content l ++ d);
  pushed_retained : retained_bytes l' = retained_bytes l + len d - k;
  pushed_latest : latest_output_bytes l' = latest_output_bytes l + len d;
  pushed_total : total' = total + len d - k;
  pushed_gap : source_gap_after_byte l' = source_gap_after_byte l;
}.

Lemma push_protected_ok d protected per_run l total :
  log_wf l → d ≠ [] → latest_output_bytes l + len d ≤ u64_max → protected ≤ usize_max →
  total + len d ≤ u64_max →
  ∃ l' total' k, push_protected d protected per_run l total =
      Ret (l', total', {| start_byte := latest_output_bytes l;
                          end_byte := latest_output_bytes l + len d; data := d |}) ∧
    pushed d protected per_run l total l' total' k.
Proof.
  intros (Hraw & Hfacts & Hsv) Hd Hmax Hp Htot.
  pose proof (first_available_spec l Hraw) as Hfirst.
  destruct Hraw as ([a Hc] & Hs & Hr & Hl).
  destruct (push_blocks_spec (length d) a (latest_output_bytes l) 0 d (chunks l))
    as (Hc' & Hb' & Hs'); [done|by rewrite N.mul_0_l, N.add_0_r|].
  rewrite N.mul_0_l, N.add_0_r in Hc'.
  set (l1 := set_raw (push_blocks (latest_output_bytes l) 0
               (chunks_of (length d) REPLAY_CACHE_BLOCK_BYTES d) (chunks l))
               (front_skip l) (retained_bytes l + len d) (latest_output_bytes l + len d) l).
  assert (log_wf (publish_facts l1)) as Hwf1.
  { apply publish_facts_wf; [|done]. split_and!; [by exists a|by apply Hs'| |done].
    simpl. rewrite Hb', len_app. lia. }
  destruct (publish_facts_raw l1) as (E1 & E2 & E3 & E4 & _ & _ & E7).
  destruct (derive_ok StageProcess (λ t, let! t := tm_process t d in Ret (t, tt))
              (publish_facts l1)) as (l2 & r & Hder & Hsame & Hsv2 & _); [apply Hwf1|].
  assert (log_wf l2) as Hwf2 by (by eapply same_raw_wf).
  pose proof (first_available_spec l2 (proj1 Hwf2)) as Hfirst2.
  pose proof (same_raw_content _ _ Hsame) as Hcon2.
  destruct Hsame as (_ & _ & F3 & F4 & F5 & _).
  rewrite E3 in F3. rewrite E4 in F4. simpl in F3, F4.
  set (k := N.min (N.min (retained_bytes l + len d - per_run)
              (protected - first_available_byte l)) (retained_bytes l + len d)).
  destruct (trim_front_ok (retained_bytes l + len d - per_run)
              (protected - first_available_byte l) l2 (total + len d))
    as (l3 & Htrim & Hwf3 & Hcon3 & Hret3 & Hlat3 & Hgap3 & _);
    [apply Hwf2|apply Hwf2|].
  rewrite F3 in Htrim, Hcon3, Hret3. fold k in Htrim, Hcon3, Hret3.
  exists l3, (total + len d - k), k. split.
  - unfold push_protected. rewrite bool_decide_eq_false_2 by done. simpl.
    unfold checked_add. rewrite decide_True by done. simpl.
    assert (retained_bytes l +sat len d = retained_bytes l + len d) as ->.
    { unfold saturating_add. lia. }
    fold l1. rewrite Hder. simpl. rewrite F3.
    assert (usize_or_max (protected - first_available_byte l2)
            = protected - first_available_byte l) as ->.
    { rewrite usize_or_max_id; unfold usize_max in *; lia. }
    assert (budget_add (len d) total = total + len d) as ->.
    { unfold budget_add, wrapping_add. rewrite N.mod_small; lia. }
    by rewrite Htrim.
  - split; try done.
    + rewrite Hcon3, Hcon2. f_equal. unfold content. rewrite E1, E2. simpl. rewrite Hb'.
      rewrite dropN_app_le by lia. done.
    + by rewrite Hlat3.
    + by rewrite Hgap3, F5, E7.
Qed.

Lemma terminal_pressure_ok id l :
  log_wf l → ∃ l', terminal_pressure id l = Ret l' ∧ same_raw l l' ∧ log_wf l'.
Proof.
  intros Hwf. unfold terminal_pressure.
  destruct (derive_ok StageExport (λ t, tm_retention_cut t id (first_available_byte l)
              (latest_output_bytes l)) l) as (l' & r & -> & Hsame & Hsv & _); [apply Hwf|].
  simpl. eexists. split; [done|].
  assert (∀ b, same_raw l (set_dirty b l')) as Hd by (intros b; exact Hsame).
  destruct (default false r).
  - split; [apply Hd|]. eapply same_raw_wf; [apply Hd| |done]. done.
  - split; [done|]. by eapply same_raw_wf.
Qed.

(** A Run discharges the promises the budget relies on: [ok] is the log
    invariant and that no machine word is exceeded. *)
Definition victim_ok (v : RunVictim P) : Prop :=
  log_wf (victim_output v) ∧ retained_bytes (victim_output v) ≤ usize_max ∧
  match victim_protected v with Some p => p ≤ u64_max | None => True end.

Lemma run_reclaimable_eq v p :
  victim_ok v → victim_protected v = Some p → victim_output_free v = true →
  run_reclaimable v =
    N.min (retained_bytes (victim_output v)) (p - first_available_byte (victim_output v)).
Proof.
  intros (_ & Hr & Hp) Hv Hf. rewrite Hv in Hp. unfold run_reclaimable. rewrite Hv, Hf.
  rewrite usize_or_max_id by (unfold usize_max; lia). done.
Qed.

#[export] Instance run_victim_laws : RetentionVictimLaws (RunVictim P) victim_ok.
Proof.
  constructor. intros v drop total Hok _. simpl.
  destruct (victim_protected v) as [p|] eqn:Hv; [destruct (victim_output_free v) eqn:Hf|].
  2-3: exists v; unfold run_reclaim_output, run_reclaimable; rewrite Hv, ?Hf, N.min_0_r, !N.sub_0_r;
    split_and!; done.
  pose proof (run_reclaimable_eq v p Hok Hv Hf) as Hrec. rewrite Hrec.
  unfold run_reclaim_output. rewrite Hv, Hf. destruct Hok as (Hwf & Hr & Hp). rewrite Hv in Hp.
  rewrite usize_or_max_id by (unfold usize_max; lia).
  set (first := first_available_byte (victim_output v)) in *.
  destruct (trim_front_ok drop (p - first) (victim_output v) total)
    as (l1 & Htrim & Hwf1 & _ & Hr1 & Hlat1 & _); [apply Hwf|apply Hwf|].
  replace (N.min (N.min drop (p - first)) (retained_bytes (victim_output v)))
    with (N.min drop (N.min (retained_bytes (victim_output v)) (p - first))) in * by lia.
  rewrite Htrim. cbn [obind].
  destruct (terminal_pressure_ok (victim_id v) l1 Hwf1) as (l2 & -> & Hsame & Hwf2).
  pose proof (first_available_spec _ (proj1 Hwf)) as Hfa. fold first in Hfa.
  pose proof (first_available_spec _ (proj1 Hwf2)) as Hfa2.
  destruct Hsame as (_ & _ & Er & El & _).
  cbn [obind]. eexists. split; [reflexivity|].
  match goal with |- victim_ok ?w ∧ _ => assert (victim_ok w) as Hok2 end.
  { split_and!; simpl; [done|lia|done]. }
  split; [done|]. split; [done|].
  rewrite (run_reclaimable_eq _ p Hok2) by done. simpl. lia.
Qed.
End spec.
#[export] Hint Resolve same_raw_refl : core.
