(* ===== verification/TerminalCheckpointSpec.v ===== *)
(** * Terminal checkpoint: specification

    A recovered model is described by its timeline: the list of bytes and
    resizes its parser went through after the restore bytes.  Recovery feeds the
    parser every original byte past the checkpoint once and in order, with each
    stored resize exactly at its fence; and a checkpoint that a live model
    stored is never refused for its tail. *)

From S2P Require Import Prelude.
From S2P Require Import Protocol.
From S2P Require Import TerminalCheckpoint.
From S2P Require Import NativeService.
From S2P Require Import Retention.
From S2P Require Import OutputLog.
From S2P Require Import OutputLogSpec.

(** ** Timelines *)

Inductive vt_op :=
  | VtBytes (d : bytes)
  | VtSize (s : TerminalSize).

Definition op_bytes (o : vt_op) : bytes := match o with VtBytes d => d | VtSize _ => [] end.
Definition timeline_bytes (ops : list vt_op) : bytes := concat (map op_bytes ops).

(** The resizes of a timeline that starts at byte [cursor], each at its fence. *)
Fixpoint fences (cursor : N) (ops : list vt_op) : list (N * TerminalSize) :=
  match ops with
  | [] => []
  | VtBytes d :: ops => fences (cursor + len d) ops
  | VtSize s :: ops => (cursor, s) :: fences cursor ops
  end.

Definition fence_of (r : TerminalResize) : N * TerminalSize :=
  (resize_through_byte r, resize_size r).

(** The revisions of a resize tail count up from [revision]. *)
Fixpoint consecutive (revision : N) (rs : list TerminalResize) : Prop :=
  match rs with
  | [] => True
  | r :: rs => resize_resize_revision r = revision + 1 ∧ consecutive (revision + 1) rs
  end.

Lemma timeline_bytes_app ops ops' :
  timeline_bytes (ops ++ ops') = timeline_bytes ops ++ timeline_bytes ops'.
Proof. unfold timeline_bytes. by rewrite map_app, concat_app. Qed.

Lemma fences_app cursor ops ops' :
  fences cursor (ops ++ ops') =
  fences cursor ops ++ fences (cursor + len (timeline_bytes ops)) ops'.
Proof.
  revert cursor. induction ops as [|[d|s] ops IH]; intros cursor; simpl.
  - unfold timeline_bytes. simpl. by rewrite len_nil, N.add_0_r.
  - rewrite IH. unfold timeline_bytes. simpl. by rewrite len_app, N.add_assoc.
  - by rewrite IH.
Qed.

Lemma consecutive_app revision rs rs' :
  consecutive revision (rs ++ rs') ↔
  consecutive revision rs ∧ consecutive (revision + len rs) rs'.
Proof.
  revert revision. induction rs as [|r rs IH]; intros revision; simpl.
  - rewrite len_nil, N.add_0_r. naive_solver.
  - rewrite IH, len_cons.
    replace (revision + (1 + len rs)) with (revision + 1 + len rs) by lia. naive_solver.
Qed.

Section spec.
Context {P : Type} `{!VtParser P}.

Fixpoint play (ops : list vt_op) (p : P) : outcome P :=
  match ops with
  | [] => Ret p
  | VtBytes d :: ops => let! p := vt_process p d in play ops p
  | VtSize s :: ops => let! p := vt_set_size p (rows s) (cols s) in play ops p
  end.

Lemma play_app ops ops' p p1 : play ops p = Ret p1 → play (ops ++ ops') p = play ops' p1.
Proof.
  revert p. induction ops as [|[d|s] ops IH]; intros p; simpl.
  - by intros [= ->].
  - destruct (vt_process p d); simpl; [apply IH|done].
  - destruct (vt_set_size p (rows s) (cols s)); simpl; [apply IH|done].
Qed.

(** From parser [p] at byte [cursor] and revision [rev], the timeline [ops]
    performs exactly the resizes [done_] and ends at [p'], [cursor'], [rev']. *)
Record plays (p : P) (cursor rev : N) (ops : list vt_op) (done_ : list TerminalResize)
    (p' : P) (cursor' rev' : N) : Prop := {
  plays_run : play ops p = Ret p';
  plays_fences : fences cursor ops = map fence_of done_;
  plays_cursor : cursor' = cursor + len (timeline_bytes ops);
  plays_consecutive : consecutive rev done_;
  plays_revision : rev' = rev + len done_;
}.

Lemma plays_nil p c v : plays p c v [] [] p c v.
Proof. constructor; simpl; unfold timeline_bytes; simpl; rewrite ?len_nil; auto; lia. Qed.

Lemma plays_trans p c v ops rs p1 c1 v1 ops' rs' p2 c2 v2 :
  plays p c v ops rs p1 c1 v1 → plays p1 c1 v1 ops' rs' p2 c2 v2 →
  plays p c v (ops ++ ops') (rs ++ rs') p2 c2 v2.
Proof.
  intros [Hr Hf -> Hk ->] [Hr' Hf' -> Hk' ->]. constructor.
  - by rewrite (play_app _ _ _ _ Hr).
  - by rewrite fences_app, map_app, Hf, Hf'.
  - rewrite timeline_bytes_app, len_app. lia.
  - by apply consecutive_app.
  - rewrite len_app. lia.
Qed.

Lemma plays_bytes p c v d p' :
  vt_process p d = Ret p' → plays p c v [VtBytes d] [] p' (c + len d) v.
Proof.
  intros Hp. constructor; simpl; unfold timeline_bytes; simpl; rewrite ?app_nil_r, ?len_nil.
  - by rewrite Hp.
  - done.
  - done.
  - done.
  - lia.
Qed.

Lemma plays_resize p c v r p' :
  resize_through_byte r = c → resize_resize_revision r = v + 1 →
  vt_set_size p (rows (resize_size r)) (cols (resize_size r)) = Ret p' →
  plays p c v [VtSize (resize_size r)] [r] p' c (resize_resize_revision r).
Proof.
  intros Hc Hv Hp. constructor; simpl; unfold timeline_bytes, fence_of; simpl;
    rewrite ?len_nil, ?len_cons, ?len_nil; try lia.
  - by rewrite Hp.
  - by rewrite Hc.
Qed.

(** ** Recovery is sound *)

Lemma obind_ret {A B} (o : outcome A) (k : A → outcome B) b :
  (let! x := o in k x) = Ret b → ∃ a, o = Ret a ∧ k a = Ret b.
Proof. destruct o; simpl; [eauto|done]. Qed.

Lemma resize_refused_false v r :
  resize_refused v r = Ret false → resize_resize_revision r = v + 1.
Proof.
  unfold resize_refused, plus_u64, checked_add. case_decide; [|done]. simpl.
  intros [= H1]. apply orb_false_iff in H1 as [H1 _]. apply orb_false_iff in H1 as [H1 _].
  by apply bool_decide_eq_false, dec_stable in H1.
Qed.

Lemma apply_resizes_sound rs p v c p' v' rs' :
  apply_resizes_at p v c rs = Ret (Some (p', v', rs')) →
  ∃ ops done_, rs = done_ ++ rs' ∧ plays p c v ops done_ p' c v' ∧ timeline_bytes ops = [].
Proof.
  revert p v. induction rs as [|r rs IH]; intros p v; simpl.
  { intros [= -> -> <-]. exists [], []. split_and!; auto using plays_nil. }
  case_decide as Hc; [|intros [= -> -> <-]; exists [], []; split_and!; auto using plays_nil].
  intros ([|] & Href & Hk)%obind_ret; [done|].
  apply obind_ret in Hk as (p1 & Hp1 & Hk).
  destruct (IH _ _ Hk) as (ops & done_ & -> & Hplay & Hempty).
  exists ([VtSize (resize_size r)] ++ ops), ([r] ++ done_). split_and!; [done| |done].
  eapply plays_trans; [|done]. apply plays_resize; auto using resize_refused_false.
Qed.

Lemma recover_chunk_sound fuel p v c chunk rs p' v' c' rs' :
  chunk_ok chunk → start_byte chunk ≤ c ≤ end_byte chunk →
  recover_chunk fuel p v c chunk rs = Ret (Some (p', v', c', rs')) →
  ∃ ops done_, rs = done_ ++ rs' ∧ plays p c v ops done_ p' c' v' ∧
    timeline_bytes ops = dropN (c - start_byte chunk) (data chunk) ∧ c' = end_byte chunk.
Proof.
  intros [Hend _]. revert p v c rs. induction fuel as [|fuel IH]; intros p v c rs Hc; simpl.
  all: case_decide as Hdone.
  1,3: intros [= -> -> -> ->]; exists [], []; split_and!; auto using plays_nil; try lia.
  1,2: rewrite dropN_ge by lia; done.
  { done. }
  intros ([[[p1 v1] rs1]|] & Happ & Hk)%obind_ret; [|done].
  apply apply_resizes_sound in Happ as (ops1 & done1 & -> & Hplay1 & Hempty1).
  case_match; [done|].
  set (e := match rs1 with r :: _ => N.min (resize_through_byte r) (end_byte chunk)
            | [] => end_byte chunk end) in *.
  assert (He : c ≤ e ≤ end_byte chunk).
  { subst e. destruct rs1; [lia|]. apply bool_decide_eq_false in H. lia. }
  case_decide as Hslice; [|done]. apply obind_ret in Hk as (p2 & Hp2 & Hk).
  destruct (IH p2 v1 e rs1) as (ops2 & done2 & -> & Hplay2 & Hbytes2 & ->); [lia|done|].
  exists (ops1 ++ [VtBytes (takeN (e - start_byte chunk - (c - start_byte chunk))
             (dropN (c - start_byte chunk) (data chunk)))] ++ ops2), (done1 ++ [] ++ done2).
  split_and!; [by rewrite <- app_assoc| | |done].
  - eapply plays_trans; [done|]. eapply plays_trans; [by apply plays_bytes|].
    rewrite len_takeN, len_dropN.
    replace (c + _) with e by lia. done.
  - rewrite !timeline_bytes_app, Hempty1, Hbytes2. simpl.
    unfold timeline_bytes. simpl. rewrite app_nil_r.
    replace (e - start_byte chunk) with
      (c - start_byte chunk + (e - start_byte chunk - (c - start_byte chunk))) at 2 by lia.
    rewrite <- dropN_dropN, takeN_dropN. done.
Qed.

Lemma chain_le a cs b : chain a cs b → a ≤ b.
Proof. intros H%chain_end. lia. Qed.

Lemma recover_chunks_sound chunks first last p v c rs p' v' c' rs' :
  chain first chunks last → first ≤ c ≤ last →
  recover_chunks p v c chunks rs = Ret (Some (p', v', c', rs')) →
  ∃ ops done_, rs = done_ ++ rs' ∧ plays p c v ops done_ p' c' v' ∧
    timeline_bytes ops = dropN (c - first) (log_bytes chunks) ∧ c' = last.
Proof.
  revert first p v c rs. induction chunks as [|chunk chunks IH];
    intros first p v c rs Hchain Hc; cbn [recover_chunks].
  { simpl in Hchain. subst. intros [= -> -> -> ->]. exists [], [].
    unfold log_bytes. simpl. rewrite dropN_nil. split_and!; auto using plays_nil. lia. }
  destruct Hchain as (<- & Hok & Hchain). pose proof (chain_le _ _ _ Hchain) as Hle.
  pose proof Hok as [Hend _]. rewrite log_bytes_cons.
  case_decide as Hskip.
  { intros Hk. destruct (IH (end_byte chunk) p v c rs) as (ops & done_ & -> & Hp & Hb & ->);
      [done|lia|done|].
    exists ops, done_. split_and!; [done..| |done].
    rewrite dropN_app_ge, Hb by lia. f_equal. lia. }
  case_decide; [done|].
  intros ([[[[p1 v1] c1] rs1]|] & Hchunk & Hk)%obind_ret; [|done].
  apply recover_chunk_sound in Hchunk as (ops1 & done1 & -> & Hp1 & Hb1 & ->); [|done|lia].
  destruct (IH (end_byte chunk) p1 v1 (end_byte chunk) rs1)
    as (ops2 & done2 & -> & Hp2 & Hb2 & ->); [done|lia|done|].
  exists (ops1 ++ ops2), (done1 ++ done2). split_and!; [by rewrite app_assoc| | |done].
  - by eapply plays_trans.
  - rewrite timeline_bytes_app, Hb1, Hb2, N.sub_diag, dropN_0.
    by rewrite dropN_app_le by lia.
Qed.

Lemma recover_trailing_sound rs p v c p' v' :
  recover_trailing p v c rs = Ret (Some (p', v')) →
  ∃ ops, plays p c v ops rs p' c v' ∧ timeline_bytes ops = [].
Proof.
  revert p v. induction rs as [|r rs IH]; intros p v; simpl.
  { intros [= -> ->]. exists []. auto using plays_nil. }
  case_decide as Hc; [done|].
  intros ([|] & Href & Hk)%obind_ret; [done|].
  apply obind_ret in Hk as (p1 & Hp1 & Hk).
  destruct (IH _ _ Hk) as (ops & Hplay & Hempty).
  exists ([VtSize (resize_size r)] ++ ops). split; [|done].
  change (r :: rs) with ([r] ++ rs).
  eapply plays_trans; [|done]. apply plays_resize; auto using resize_refused_false.
Qed.

(** ** Recovery is complete for what a live model stores *)

(** The resize tail of a live model at byte [latest]: ordered fences between
    the checkpoint and the head, positive sizes, revisions that count up. *)
Fixpoint ordered_from (through latest : N) (rs : list TerminalResize) : Prop :=
  match rs with
  | [] => through ≤ latest
  | r :: rs =>
      through ≤ resize_through_byte r ∧ 0 < rows (resize_size r) ∧ 0 < cols (resize_size r) ∧
      ordered_from (resize_through_byte r) latest rs
  end.

Lemma ordered_from_le through latest rs : ordered_from through latest rs → through ≤ latest.
Proof.
  revert through. induction rs as [|r rs IH]; intros through; simpl; [done|].
  intros (H1 & _ & _ & H2%IH). lia.
Qed.
Lemma ordered_from_snoc through latest rs r :
  ordered_from through latest rs → latest ≤ resize_through_byte r →
  0 < rows (resize_size r) → 0 < cols (resize_size r) →
  ordered_from through (resize_through_byte r) (rs ++ [r]).
Proof.
  revert through. induction rs as [|r' rs IH]; intros through; simpl; [intros; split_and!; auto; lia|].
  intros (? & ? & ? & ?) **. split_and!; auto.
Qed.
Lemma ordered_from_grow through latest latest' rs :
  ordered_from through latest rs → latest ≤ latest' → ordered_from through latest' rs.
Proof.
  revert through. induction rs as [|r' rs IH]; intros through; simpl; [lia|].
  intros (? & ? & ? & ?) **. split_and!; auto.
Qed.

(** The parser library's streaming behaviour: processing is incremental in the
    byte stream, and no bytes change nothing. *)
Class VtStreaming : Prop := {
  vt_process_nil p : vt_process p [] = Ret p;
  vt_process_app p d d' : vt_process p (d ++ d') = obind (vt_process p d) (λ p, vt_process p d');
}.
Context `{!VtStreaming}.

(** The parser's run is a function of the bytes and of the fences alone. *)
Fixpoint play_fences (c : N) (fs : list (N * TerminalSize)) (d : bytes) (p : P) : outcome P :=
  match fs with
  | [] => vt_process p d
  | (x, s) :: fs =>
      let! p := vt_process p (takeN (x - c) d) in
      let! p := vt_set_size p (rows s) (cols s) in
      play_fences x fs (dropN (x - c) d) p
  end.

Lemma fences_from c ops x s fs : fences c ops = (x, s) :: fs → c ≤ x.
Proof.
  revert c. induction ops as [|[d|s'] ops IH]; intros c; simpl; [done| |].
  - intros ?%IH. lia.
  - intros [= -> ? ?]. lia.
Qed.

Lemma play_fences_skip c fs d d' p :
  (∀ x s fs', fs = (x, s) :: fs' → c + len d ≤ x) →
  play_fences c fs (d ++ d') p = obind (vt_process p d) (play_fences (c + len d) fs d').
Proof.
  destruct fs as [|[x s] fs]; intros Hfrom; simpl; [apply vt_process_app|].
  specialize (Hfrom x s fs eq_refl).
  rewrite takeN_app_ge, vt_process_app, dropN_app_ge by lia.
  replace (x - c - len d) with (x - (c + len d)) by lia.
  by destruct (vt_process p d).
Qed.

Lemma play_normal c ops p : play ops p = play_fences c (fences c ops) (timeline_bytes ops) p.
Proof.
  revert c p. induction ops as [|[d|s] ops IH]; intros c p; simpl.
  - unfold timeline_bytes. simpl. by rewrite vt_process_nil.
  - change (timeline_bytes (VtBytes d :: ops)) with (d ++ timeline_bytes ops).
    rewrite play_fences_skip by (intros x s fs'; apply fences_from).
    destruct (vt_process p d); simpl; [apply IH|done].
  - rewrite N.sub_diag, takeN_0, dropN_0, vt_process_nil. simpl.
    destruct (vt_set_size p (rows s) (cols s)); simpl; [apply IH|done].
Qed.

(** What recovery still has to do at byte [c]: the resizes [rs] and the bytes
    [d], which take the parser to [pf] at byte [latest] and revision [vf]. *)
Record owes (c v latest vf : N) (d : bytes) (pf p : P) (rs : list TerminalResize) : Prop := {
  owes_order : ordered_from c latest rs;
  owes_revisions : consecutive v rs;
  owes_final : v + len rs = vf;
  owes_play : play_fences c (map fence_of rs) d p = Ret pf;
}.

Lemma apply_resizes_complete c v latest vf d pf p rs :
  vf ≤ u64_max → owes c v latest vf d pf p rs →
  ∃ p1 v1 rs1, apply_resizes_at p v c rs = Ret (Some (p1, v1, rs1)) ∧
    (length rs1 ≤ length rs)%nat ∧ owes c v1 latest vf d pf p1 rs1 ∧
    (∀ r rs', rs1 = r :: rs' → c < resize_through_byte r) ∧
    (rs1 = rs ∨ (length rs1 < length rs)%nat).
Proof.
  intros Hmax. revert p v. induction rs as [|r rs IH]; intros p v Ho; simpl.
  { exists p, v, []. by split_and!; auto. }
  pose proof Ho as [(Hc & Hrow & Hcol & Hord) [Hrev Hcons] Hvf Hplay]. rewrite len_cons in Hvf.
  case_decide as Hhere.
  2:{ exists p, v, (r :: rs). split_and!; auto. intros ? ? [= <- <-]. lia. }
  unfold resize_refused. rewrite plus_u64_ok by lia. simpl.
  rewrite !bool_decide_eq_false_2 by (try intros ?; lia). simpl.
  simpl in Hplay. rewrite Hhere, N.sub_diag, takeN_0, dropN_0, vt_process_nil in Hplay.
  simpl in Hplay. apply obind_ret in Hplay as (p1 & -> & Hplay). simpl.
  destruct (IH p1 (resize_resize_revision r)) as (p2 & v2 & rs2 & -> & Hlen & Ho2 & Hnext & _).
  { rewrite Hrev. constructor; [by rewrite <- Hhere|done|lia|done]. }
  exists p2, v2, rs2. split_and!; auto; lia.
Qed.

Lemma owes_advance c v latest vf d d' pf p rs :
  (∀ r rs', rs = r :: rs' → c + len d ≤ resize_through_byte r) → c + len d ≤ latest →
  owes c v latest vf (d ++ d') pf p rs →
  ∃ p1, vt_process p d = Ret p1 ∧ owes (c + len d) v latest vf d' pf p1 rs.
Proof.
  intros Hfrom Hle [Hord Hcons Hvf Hplay].
  rewrite play_fences_skip in Hplay.
  2:{ destruct rs as [|r rs]; [done|]. intros ? ? ? [= <- <- <-]. by eapply Hfrom. }
  apply obind_ret in Hplay as (p1 & Hp1 & Hplay). exists p1. split; [done|].
  constructor; auto. destruct rs as [|r rs]; [done|]. destruct Hord as (? & ? & ? & ?).
  simpl. split_and!; auto. by eapply Hfrom.
Qed.

Definition turns_enough (fuel : nat) (c : N) (rs : list TerminalResize) : Prop :=
  (length rs < fuel)%nat ∨
  ∃ r rs', rs = r :: rs' ∧ resize_through_byte r = c ∧ (length rs ≤ fuel)%nat.

Lemma recover_chunk_complete fuel chunk c v latest vf d' pf p rs :
  vf ≤ u64_max → chunk_ok chunk → start_byte chunk ≤ c ≤ end_byte chunk →
  end_byte chunk ≤ latest → turns_enough fuel c rs →
  owes c v latest vf (dropN (c - start_byte chunk) (data chunk) ++ d') pf p rs →
  ∃ p1 v1 rs1, recover_chunk fuel p v c chunk rs = Ret (Some (p1, v1, end_byte chunk, rs1)) ∧
    owes (end_byte chunk) v1 latest vf d' pf p1 rs1.
Proof.
  intros Hmax [Hend Hne] Hc Hle. revert c v p rs Hc.
  induction fuel as [|fuel IH]; intros c v p rs Hc Hfuel Ho; simpl; case_decide as Hdone.
  1,3: assert (c = end_byte chunk) as -> by lia;
    rewrite dropN_ge in Ho by lia; by exists p, v, rs.
  { destruct Hfuel as [|(? & ? & -> & _ & ?)]; simpl in *; lia. }
  destruct (apply_resizes_complete _ _ _ _ _ _ _ _ Hmax Ho)
    as (p1 & v1 & rs1 & -> & Hlen & Ho1 & Hnext & Hused). simpl.
  assert (Hlate : (match rs1 with r :: _ => bool_decide (resize_through_byte r < c)
                   | [] => false end) = false).
  { destruct rs1 as [|r1 rs1]; [done|]. specialize (Hnext _ _ eq_refl).
    apply bool_decide_eq_false. lia. }
  rewrite Hlate. set (e := match rs1 with r :: _ => _ | [] => _ end).
  assert (He : c < e ≤ end_byte chunk).
  { subst e. destruct rs1 as [|r1 rs1]; [lia|]. specialize (Hnext _ _ eq_refl). lia. }
  rewrite decide_True by lia. set (a := c - start_byte chunk) in *.
  set (n := e - start_byte chunk - a).
  rewrite <- (takeN_dropN n (dropN a (data chunk))), <- app_assoc, dropN_dropN in Ho1.
  assert (Hn : len (takeN n (dropN a (data chunk))) = n) by (rewrite len_takeN, len_dropN; lia).
  edestruct owes_advance as (p2 & Hp2 & Ho2); [| |exact Ho1|].
  { rewrite Hn. intros r rs' ->. subst e. lia. }
  { rewrite Hn. lia. }
  rewrite Hn in Ho2. rewrite Hp2. simpl. replace (c + n) with e in Ho2 by lia.
  destruct (decide (e = end_byte chunk)) as [Heq|Hneq].
  { rewrite Heq in *. rewrite dropN_ge in Ho2 by lia. exists p2, v1, rs1.
    split; [|done]. destruct fuel; simpl; by rewrite decide_True by lia. }
  apply IH; [lia| |by replace (e - start_byte chunk) with (a + n) by lia].
  subst e. destruct rs1 as [|r1 rs1]; [lia|]. specialize (Hnext _ _ eq_refl).
  right. exists r1, rs1. split; [done|]. split; [lia|].
  destruct Hfuel as [|(r & rs' & -> & Hr & ?)]; [lia|].
  destruct Hused as [[= -> ->]|]; [lia|simpl in *; lia].
Qed.

Lemma recover_chunks_complete chunks first last c v vf pf p rs :
  vf ≤ u64_max → chain first chunks last → first ≤ c ≤ last →
  owes c v last vf (dropN (c - first) (log_bytes chunks)) pf p rs →
  ∃ p1 v1 rs1, recover_chunks p v c chunks rs = Ret (Some (p1, v1, last, rs1)) ∧
    owes last v1 last vf [] pf p1 rs1.
Proof.
  intros Hmax. revert first c v p rs. induction chunks as [|chunk chunks IH];
    intros first c v p rs Hchain Hc Ho; cbn [recover_chunks].
  { simpl in Hchain. subst. exists p, v, rs. replace c with last in * by lia.
    unfold log_bytes in Ho. simpl in Ho. by rewrite dropN_nil in Ho. }
  destruct Hchain as (<- & Hok & Hchain). pose proof (chain_le _ _ _ Hchain) as Hle.
  pose proof Hok as [Hend _]. rewrite log_bytes_cons in Ho.
  case_decide as Hskip.
  { apply (IH (end_byte chunk)); [done|lia|].
    rewrite dropN_app_ge in Ho by lia.
    by replace (c - end_byte chunk) with (c - start_byte chunk - len (data chunk)) by lia. }
  rewrite decide_False by lia. rewrite dropN_app_le in Ho by lia.
  destruct (recover_chunk_complete (S (length rs)) chunk c v last vf (log_bytes chunks) pf p rs)
    as (p1 & v1 & rs1 & -> & Ho1); [done|done|lia|done|left; lia|done|]. simpl.
  apply (IH (end_byte chunk)); [done|lia|]. by rewrite N.sub_diag, dropN_0.
Qed.

Lemma recover_trailing_complete latest v vf pf p rs :
  vf ≤ u64_max → owes latest v latest vf [] pf p rs →
  recover_trailing p v latest rs = Ret (Some (pf, vf)).
Proof.
  intros Hmax. revert v p. induction rs as [|r rs IH]; intros v p [Hord Hcons Hvf Hplay]; simpl.
  { simpl in Hplay. rewrite vt_process_nil in Hplay. simplify_eq.
    by rewrite len_nil, N.add_0_r. }
  destruct Hord as (Hc & Hrow & Hcol & Hord). destruct Hcons as [Hrev Hcons].
  pose proof (ordered_from_le _ _ _ Hord). rewrite len_cons in Hvf.
  rewrite decide_False by lia. unfold resize_refused. rewrite plus_u64_ok by lia. simpl.
  rewrite !bool_decide_eq_false_2 by (try intros ?; lia). simpl.
  simpl in Hplay. replace (resize_through_byte r) with latest in * by lia.
  rewrite N.sub_diag, takeN_0, dropN_0, vt_process_nil in Hplay. simpl in Hplay.
  apply obind_ret in Hplay as (p1 & -> & Hplay). simpl. apply IH.
  rewrite Hrev. constructor; [done|done|lia|done].
Qed.

(** ** A live model since its last cut *)

(** The output owner's calls on a model whose log is at byte [at_]. *)
Fixpoint live (ops : list vt_op) (t : TerminalModel P) (at_ : N)
    : outcome (TerminalModel P * N) :=
  match ops with
  | [] => Ret (t, at_)
  | VtBytes d :: ops => let! t := tm_process t d in live ops t (at_ + len d)
  | VtSize s :: ops => let! '(t, _) := tm_resize t s at_ in live ops t at_
  end.

Definition positive_size (s : TerminalSize) : Prop := 0 < rows s ∧ 0 < cols s.
Definition positive_op (o : vt_op) : Prop :=
  match o with VtBytes _ => True | VtSize s => positive_size s end.

Definition with_tail (cp : StoredCheckpoint) (rs : list TerminalResize) : StoredCheckpoint :=
  {| checkpoint := checkpoint cp; restore := restore cp; resizes := resizes cp ++ rs |}.

Lemma with_tail_nil cp : with_tail cp [] = cp.
Proof. destruct cp. unfold with_tail. simpl. by rewrite app_nil_r. Qed.
Lemma with_tail_app cp rs rs' : with_tail (with_tail cp rs) rs' = with_tail cp (rs ++ rs').
Proof. unfold with_tail. simpl. by rewrite app_assoc. Qed.

Lemma live_geometry ops t at_ t1 at1 :
  live ops t at_ = Ret (t1, at1) → geometry_valid t1 = true → geometry_valid t = true.
Proof.
  revert t at_. induction ops as [|[d|s] ops IH]; intros t at_; simpl.
  - by intros [= <- <-].
  - intros (t2 & Hp & Hk)%obind_ret Hg. specialize (IH _ _ Hk Hg).
    unfold tm_process in Hp. apply obind_ret in Hp as (p & _ & [= <-]). done.
  - intros ([t2 r] & Hp & Hk)%obind_ret Hg. specialize (IH _ _ Hk Hg).
    unfold tm_resize in Hp. apply obind_ret in Hp as (v & _ & Hp).
    apply obind_ret in Hp as (p & _ & Hp).
    destruct (tm_checkpoint t); [case_decide|]; by simplify_eq/=.
Qed.

Lemma live_tail ops t at_ t1 at1 cp :
  live ops t at_ = Ret (t1, at1) → geometry_valid t1 = true →
  tm_checkpoint t = Some cp → len (resizes cp) ≤ MAX_RESIZE_TAIL →
  tm_resize_revision t ≤ u64_max → Forall positive_op ops →
  ∃ rs, tm_checkpoint t1 = Some (with_tail cp rs) ∧
    plays (parser t) at_ (tm_resize_revision t) ops rs (parser t1) at1 (tm_resize_revision t1) ∧
    ordered_from at_ at1 rs ∧ len (resizes cp ++ rs) ≤ MAX_RESIZE_TAIL ∧
    tm_resize_revision t1 ≤ u64_max.
Proof.
  intros Hlive Hgeo. revert t at_ cp Hlive. induction ops as [|[d|s] ops IH];
    intros t at_ cp Hlive Hcp Hlen Hrev Hpos; simpl in Hlive.
  - simplify_eq. exists []. rewrite with_tail_nil, app_nil_r.
    split_and!; auto using plays_nil. simpl. lia.
  - apply Forall_cons in Hpos as [_ Hpos].
    apply obind_ret in Hlive as (t2 & Hp & Hlive). unfold tm_process in Hp.
    apply obind_ret in Hp as (p & Hp & [= <-]).
    destruct (IH _ _ cp Hlive) as (rs & Hcp1 & Hplay & Hord & Hlen1 & Hmax); [done..|].
    exists rs. split_and!; [done| | |done|done].
    + change (VtBytes d :: ops) with ([VtBytes d] ++ ops). change rs with ([] ++ rs).
      eapply plays_trans; [by apply plays_bytes|]. exact Hplay.
    + destruct rs as [|r rs]; simpl in *; [lia|]. destruct Hord as (? & ? & ? & ?).
      split_and!; auto. lia.
  - apply Forall_cons in Hpos as [[Hr Hc] Hpos].
    apply obind_ret in Hlive as ([t2 r] & Hp & Hlive). unfold tm_resize in Hp.
    apply obind_ret in Hp as (v & Hv & Hp). apply obind_ret in Hp as (p & Hp1 & Hp).
    unfold plus_u64, checked_add in Hv. case_decide as Hvmax; [|done]. simplify_eq/=.
    rewrite Hcp in Hp. case_decide as Hfull; simplify_eq.
    { by apply live_geometry in Hlive. }
    set (r := {| resize_through_byte := at_; resize_resize_revision := _; resize_size := s |}) in *.
    destruct (IH _ _ (with_tail cp [r]) Hlive) as (rs & Hcp1 & Hplay & Hord & Hlen1 & Hmax);
      [done| |done|done|].
    { simpl. rewrite len_app, len_cons, len_nil. lia. }
    exists (r :: rs). rewrite with_tail_app in Hcp1. simpl in Hlen1.
    rewrite <- app_assoc in Hlen1. split_and!; [done| | |done|done].
    + change (VtSize s :: ops) with ([VtSize (resize_size r)] ++ ops).
      change (r :: rs) with ([r] ++ rs).
      eapply plays_trans; [|exact Hplay]. by apply plays_resize.
    + simpl. split_and!; auto.
Qed.

Lemma cut_ok t id at_ t' :
  tm_cut t id at_ = Ret (t', true) →
  ∃ cp, tm_checkpoint t' = Some cp ∧ parser t' = parser t ∧
    tm_resize_revision t' = tm_resize_revision t ∧ resizes cp = [] ∧
    cp_run_id (checkpoint cp) = id ∧ cp_through_byte (checkpoint cp) = at_ ∧
    cp_resize_revision (checkpoint cp) = tm_resize_revision t ∧
    cp_resize_after_restore_bytes (checkpoint cp) ≤ cp_restore_bytes (checkpoint cp) ∧
    cp_restore_bytes (checkpoint cp) = len (restore cp) ∧ len (restore cp) ≤ MAX_RESTORE_BYTES.
Proof.
  unfold tm_cut. intros ([seed|] & _ & Hk)%obind_ret; [|done].
  unfold checked_add in Hk. case_decide; [|done]. case_decide as Hmax; [done|].
  injection Hk as <-. eexists. split; [reflexivity|]. simpl. rewrite len_app in *.
  split_and!; try done; lia.
Qed.

Definition replay_of (saved : StoredCheckpoint) (replay : OutputReplay) : Prop :=
  chain (replay_first_available_byte replay) (replay_chunks replay)
        (replay_latest_output_bytes replay).
End spec.

Section theorems.
Context {P : Type} `{!VtParser P}.

(** A recovered model owes nothing to the checkpoint's tail: after the
    restore bytes its parser was fed every original byte from the checkpoint to
    the replay's head, once and in order, with exactly the stored resizes, each
    at its own fence and with consecutive revisions; whatever is missing,
    reordered or inconsistent is refused. *)
Theorem recovery_replays_the_tail id saved replay t
    (Hreplay : replay_of saved replay)
    (Hrec : tm_recover id saved replay = Ret (Some t)) :
  let cp := checkpoint saved in
  ∃ p0 ops, recover_parser saved = Ret (Some p0) ∧ play ops p0 = Ret (parser t) ∧
    timeline_bytes ops =
      dropN (cp_through_byte cp - replay_first_available_byte replay)
            (log_bytes (replay_chunks replay)) ∧
    fences (cp_through_byte cp) ops = map fence_of (resizes saved) ∧
    consecutive (cp_resize_revision cp) (resizes saved) ∧
    tm_resize_revision t = cp_resize_revision cp + len (resizes saved) ∧
    tm_stored t = Some saved ∧ cp_run_id cp = id.
Proof.
  intros cp. unfold tm_recover in Hrec. destruct (recover_header_refused id saved replay) eqn:Hh;
    [done|]. unfold recover_header_refused in Hh. rewrite !orb_false_iff in Hh.
  destruct Hh as ((((((((((Hid & _) & _) & _) & _) & _) & _) & _) & Hlo) & Hhi) & _).
  apply bool_decide_eq_false, dec_stable in Hid. apply bool_decide_eq_false in Hlo, Hhi.
  apply obind_ret in Hrec as ([p0|] & Hp0 & Hrec); [|done].
  apply obind_ret in Hrec as ([[[[p v] c] rs]|] & Hchunks & Hrec); [|done].
  eapply recover_chunks_sound in Hchunks as (ops1 & done1 & Hrs & Hplay1 & Hbytes1 & Hend);
    [|exact Hreplay|lia].
  subst c.
  rewrite decide_False in Hrec by (intros H; by apply H).
  apply obind_ret in Hrec as ([[p1 v1]|] & Htrail & Hrec); [|done]. simplify_eq.
  apply recover_trailing_sound in Htrail as (ops2 & Hplay2 & Hbytes2).
  pose proof (plays_trans _ _ _ _ _ _ _ _ _ _ _ _ _ Hplay1 Hplay2) as [Hr Hf Hc Hk Hv].
  exists p0, (ops1 ++ ops2). rewrite <- Hrs in *. split_and!; try done.
  by rewrite timeline_bytes_app, Hbytes1, Hbytes2, app_nil_r.
Qed.

(** C40: recovery goes through exactly what the live terminal went through since its cut.
    Take whatever a live model cut and then stored, whatever bytes and resizes came between,
    and the original bytes since, however the replay is cut into chunks.  The live parser is
    what the cut's parser became by those bytes and resizes, each resize at its place.
    Recovery never refuses the stored tail: it fails only if the restore bytes give back no
    parser, and from whatever parser they do give back, it plays the same bytes and resizes
    and returns the result, with the live model's resize revision and the stored checkpoint.
    So as far as the restored parser stands for the cut one, the recovered terminal stands for
    the live one; of the emulator only that it reads its input as a stream is assumed. *)
Theorem stored_checkpoint_recovers `{!VtStreaming} id t0 t at0 ops t1 at1 saved replay
    (Hcut : tm_cut t0 id at0 = Ret (t, true)) (Hrevision : tm_resize_revision t ≤ u64_max)
    (Hlive : live ops t at0 = Ret (t1, at1)) (Hops : Forall positive_op ops)
    (Hstored : tm_stored t1 = Some saved)
    (Hsize : positive_size (cp_size (checkpoint saved)))
    (Hrestore_size : positive_size (cp_restore_size (checkpoint saved)))
    (Hreplay : replay_of saved replay) (Hlatest : replay_latest_output_bytes replay = at1)
    (Hfirst : replay_first_available_byte replay ≤ at0)
    (Hbytes : dropN (at0 - replay_first_available_byte replay)
                (log_bytes (replay_chunks replay)) = timeline_bytes ops) :
  play ops (parser t) = Ret (parser t1) ∧
  (recover_parser saved = Ret None → tm_recover id saved replay = Ret None) ∧
  ∀ p0 p1, recover_parser saved = Ret (Some p0) → play ops p0 = Ret p1 →
    tm_recover id saved replay =
      Ret (Some {| parser := p1; tm_checkpoint := Some saved;
                   tm_resize_revision := tm_resize_revision t1; geometry_valid := true |}).
Proof.
  apply cut_ok in Hcut as (cp & Hcp & Hpar & Hrev0 & Hnil & Hid & Hthrough & Hcprev &
                           Hsplit & Hcount & Hmax).
  unfold tm_stored in Hstored. destruct (geometry_valid t1) eqn:Hgeo; [|done].
  destruct (live_tail _ _ _ _ _ _ Hlive Hgeo Hcp) as (rs & Hcp1 & Hplay & Hord & Hlen & Hvmax);
    [rewrite Hnil, len_nil; lia|done|done|].
  rewrite Hcp1 in Hstored. injection Hstored as <-.
  rewrite Hnil in Hlen. simpl in Hlen, Hsize, Hrestore_size.
  pose proof (ordered_from_le _ _ _ Hord) as Hle. destruct Hplay as [Hrun Hfences _ Hcons Hvf].
  destruct Hsize as [Hs1 Hs2], Hrestore_size as [Hs3 Hs4].
  assert (recover_header_refused id (with_tail cp rs) replay = false) as Hheader.
  { unfold recover_header_refused. simpl. rewrite Hnil, Hthrough, Hid, Hlatest. simpl.
    by rewrite !bool_decide_eq_false_2 by (try intros ?; try lia; by auto). }
  split; [exact Hrun|]. unfold tm_recover. rewrite Hheader. split; [by intros ->|].
  intros p0 p1 -> Hp1. simpl. rewrite Hnil, Hthrough, Hlatest, Hcprev, <- Hrev0. cbn [app].
  rewrite (play_normal at0), Hfences, <- Hbytes in Hp1.
  destruct (recover_chunks_complete (replay_chunks replay) (replay_first_available_byte replay)
              at1 at0 (tm_resize_revision t) (tm_resize_revision t1) p1 p0 rs)
    as (p2 & v2 & rs2 & -> & Howes); [done|by rewrite <- Hlatest|lia|by constructor|].
  simpl. rewrite decide_False by (intros Hne; by apply Hne).
  by rewrite (recover_trailing_complete _ _ _ _ _ _ Hvmax Howes).
Qed.
End theorems.

(** ** A concrete terminal *)

#[local] Instance sample_streaming : VtStreaming (P := SampleVt.parser_state).
Proof.
  split.
  - intros [d g h]. simpl. by rewrite app_nil_r.
  - intros p d d'. simpl.
    assert (SampleVt.unwinds (d ++ d') = SampleVt.unwinds d || SampleVt.unwinds d') as ->
      by apply existsb_app.
    destruct (SampleVt.unwinds d); simpl; [done|].
    destruct (SampleVt.unwinds d'); simpl; [done|]. by rewrite app_assoc.
Qed.

Definition sample_size (c r : N) : TerminalSize := {| cols := c; rows := r |}.
(** A Run that printed two bytes, was cut, printed, was resized and printed. *)
Definition sample_terminal : TerminalModel SampleVt.parser_state :=
  {| parser := {| SampleVt.seen := [x61; x62]; SampleVt.grid := (24, 80);
                  SampleVt.history := HISTORY_ROWS |};
     tm_checkpoint := None; tm_resize_revision := 3; geometry_valid := true |}.
Definition sample_ops : list vt_op :=
  [VtBytes [x63]; VtSize (sample_size 100 30); VtBytes [x64; x65]; VtSize (sample_size 90 20)].
Definition sample_cut : TerminalModel SampleVt.parser_state :=
  match tm_cut sample_terminal 7 2 with Ret (t, _) => t | _ => sample_terminal end.
Definition sample_live : TerminalModel SampleVt.parser_state :=
  match live sample_ops sample_cut 2 with Ret (t, _) => t | _ => sample_terminal end.
Definition sample_saved : StoredCheckpoint :=
  default {| checkpoint := {| cp_run_id := 0; cp_through_byte := 0; cp_resize_revision := 0;
                              cp_size := sample_size 1 1; cp_restore_size := sample_size 1 1;
                              cp_restore_scrollback_rows := None;
                              cp_resize_after_restore_bytes := 0; cp_restore_bytes := 0 |};
             restore := []; resizes := [] |} (tm_stored sample_live).
Definition sample_replay : OutputReplay :=
  {| replay_chunks := [{| start_byte := 1; end_byte := 4; data := [x62; x63; x64] |};
                       {| start_byte := 4; end_byte := 5; data := [x65] |}];
     replay_first_available_byte := 1; replay_latest_output_bytes := 5;
     replay_truncated := true |}.

Lemma sample_replay_chain : replay_of sample_saved sample_replay.
Proof. unfold replay_of. simpl. unfold chunk_ok. by vm_compute. Qed.

Lemma recovery_replays_the_tail_witness :
  ∃ t, tm_recover 7 sample_saved sample_replay = Ret (Some t) ∧
    tm_resize_revision t = 3 + len (resizes sample_saved).
Proof.
  eexists. split; [vm_compute; reflexivity|].
  edestruct (recovery_replays_the_tail 7 sample_saved sample_replay)
    as (p0 & ops & _ & _ & _ & _ & _ & Hrev & _);
    [exact sample_replay_chain|vm_compute; reflexivity|exact Hrev].
Defined.

Lemma stored_checkpoint_recovers_witness :
  ∃ p0, recover_parser sample_saved = Ret (Some p0) ∧
    play sample_ops p0 = Ret (parser sample_live) ∧
    tm_recover 7 sample_saved sample_replay =
      Ret (Some {| parser := parser sample_live; tm_checkpoint := Some sample_saved;
                   tm_resize_revision := 5; geometry_valid := true |}).
Proof.
  eexists. split; [vm_compute; reflexivity|]. split; [vm_compute; reflexivity|].
  eapply (stored_checkpoint_recovers 7 sample_terminal sample_cut 2 sample_ops sample_live 5).
  all: try (vm_compute; reflexivity); try (by vm_compute).
  repeat constructor; by vm_compute.
Defined.
