(* ===== verification/OutputLogProps.v ===== *)
(** * Output log: properties

    The functional specification of the log's operations on the abstract content
    of [OutputLogSpec], and evaluated instances on a small log. *)

From S2P Require Import Prelude.
From S2P Require Import Protocol.
From S2P Require Import TerminalCheckpoint.
From S2P Require Import NativeService.
From S2P Require Import Retention.
From S2P Require Import OutputLog.
From S2P Require Import OutputLogSpec.

Section props.
Context {P : Type} `{!VtParser P}.
Implicit Types l : OutputLog P.

(** Admitting a read never panics whatever the VT library does, appends
    exactly the bytes read, sheds an exact prefix [k] of the window, moves the
    shared total by [len d - k], keeps every protected byte and leaves the log
    within its own limit unless only protected bytes remain. *)
Theorem push_protected_exact d protected per_run l total
    (Hwf : log_wf l) (Hd : d ≠ []) (Hhead : latest_output_bytes l + len d ≤ u64_max)
    (Hp : protected ≤ usize_max) (Htotal : total + len d ≤ u64_max) :
  ∃ l' k, push_protected d protected per_run l total =
      Ret (l', total + len d - k, {| start_byte := latest_output_bytes l;
                                     end_byte := latest_output_bytes l + len d; data := d |}) ∧
    log_wf l' ∧ content l' = dropN k (content l ++ d) ∧ k ≤ len (content l ++ d) ∧
    latest_output_bytes l' = latest_output_bytes l + len d ∧
    first_available_byte l' = first_available_byte l + k ∧
    first_available_byte l' ≤ N.max (first_available_byte l) protected ∧
    (retained_bytes l' ≤ per_run ∨ protected ≤ first_available_byte l').
Proof.
  destruct (push_protected_ok d protected per_run l total)
    as (l' & total' & k & -> & [Hk Hwf' Hc Hr Hl Ht Hg]); [done..|].
  pose proof (first_available_spec l (proj1 Hwf)) as Hf.
  pose proof (first_available_spec l' (proj1 Hwf')) as Hf'.
  pose proof (content_len l (proj1 Hwf)).
  exists l', k. rewrite Ht, len_app. split_and!; try done; lia.
Qed.

(** A replay from [after] is the retained suffix past it, in contiguous
    chunks up to the head, flagged truncated exactly when bytes it asked for
    were evicted or lie behind a recorded source gap. *)
Theorem replay_exact after l (Hwf : log_wf l) :
  let r := replay after l in
  log_bytes (replay_chunks r) = dropN (after - first_available_byte l) (content l) ∧
  (N.max after (first_available_byte l) < latest_output_bytes l →
     chain (N.max after (first_available_byte l)) (replay_chunks r) (latest_output_bytes l)) ∧
  (latest_output_bytes l ≤ after → replay_chunks r = []) ∧
  (replay_truncated r = true ↔
     after < first_available_byte l ∨ ∃ g, source_gap_after_byte l = Some g ∧ after ≤ g).
Proof.
  destruct Hwf as [Hraw _]. pose proof (first_available_spec l Hraw) as Hf.
  destruct Hraw as ([a Hc] & Hs & Hr & _). pose proof (chain_end _ _ _ Hc) as Hend.
  destruct (retained_after_chain (N.max after (first_available_byte l)) (chunks l) a
              (latest_output_bytes l) Hc) as (Hb & Hlt & Hge).
  simpl. split_and!.
  - rewrite Hb. unfold content. rewrite dropN_dropN. f_equal. lia.
  - intros Hm. rewrite (N.max_r a (N.max after (first_available_byte l))) in Hlt by lia. auto.
  - intros Hm. apply Hge. lia.
  - rewrite orb_true_iff, bool_decide_eq_true. unfold gap_covers.
    destruct (source_gap_after_byte l) as [g|]; rewrite ?bool_decide_eq_true; naive_solver.
Qed.

(** a replay page never slices out of range: it is exactly the requested
    range of the retained bytes, cut at [through] and at the 64 KiB work unit,
    and its chunks are contiguous from the first byte they carry. *)
Theorem replay_page_exact after through l (Hwf : log_wf l)
    (Hfar : N.max after (first_available_byte l) + 64 * 1024 ≤ u64_max) :
  let first := N.max after (first_available_byte l) in
  ∃ r, replay_page after through l = Ret r ∧
    log_bytes (replay_chunks r) =
      takeN (N.min (64 * 1024) (through - first))
        (dropN (after - first_available_byte l) (content l)) ∧
    len (log_bytes (replay_chunks r)) ≤ 64 * 1024 ∧
    (first < N.min through (latest_output_bytes l) →
       chain first (replay_chunks r)
         (N.min (N.min through (first + 64 * 1024)) (latest_output_bytes l))) ∧
    replay_latest_output_bytes r = N.min through (latest_output_bytes l).
Proof.
  destruct Hwf as [Hraw _]. pose proof (first_available_spec l Hraw) as Hf.
  destruct Hraw as ([a Hc] & Hs & Hr & _). pose proof (chain_end _ _ _ Hc) as Hend.
  intros first. unfold replay_page. fold first. fold first in Hfar.
  set (W := 64 * 1024) in *. assert (0 < W) by done. clearbody W.
  assert (first +sat W = first + W) as -> by (unfold saturating_add; lia).
  destruct (page_chunks_spec first (N.min through (first + W)) (chunks l) a
              (latest_output_bytes l) Hc) as (out & -> & Hb & Hlt & Hge).
  simpl. eexists. split; [done|]. simpl.
  assert (log_bytes out = takeN (N.min W (through - first))
            (dropN (after - first_available_byte l) (content l))) as Hout.
  { rewrite Hb, dropN_takeN. unfold content. rewrite dropN_dropN.
    destruct (decide (first ≤ through)).
    - f_equal; [lia|]. f_equal. lia.
    - replace (N.min W (through - first)) with 0 by lia.
      replace (N.min through (first + W) - a - (first - a)) with 0 by lia. done. }
  split; [done|]. split; [rewrite Hout, len_takeN; lia|]. split; [|done].
  intros Hm. rewrite N.max_r in Hlt by lia. apply Hlt. lia.
Qed.

(** Offering pages until the head, as the reader does turn after turn: the
    next offer starts where the previous page's watermark stopped. *)
Fixpoint offer_until_head (fuel : nat) (after : N) l : outcome (bytes * N) :=
  match fuel with
  | O => Ret ([], after)
  | S fuel =>
      if decide (latest_output_bytes l ≤ after) then Ret ([], after) else
      let! r := offer_replay after l in
      let! '(d, head) := offer_until_head fuel (replay_latest_output_bytes r) l in
      Ret (log_bytes (replay_chunks r) ++ d, head)
  end.

Lemma offer_replay_ok after l :
  log_wf l → first_available_byte l ≤ after → after < latest_output_bytes l →
  latest_output_bytes l + 64 * 1024 ≤ u64_max →
  ∃ r n, offer_replay after l = Ret r ∧ 0 < n ∧ n = N.min (64 * 1024) (latest_output_bytes l - after)
    ∧ replay_latest_output_bytes r = after + n
    ∧ log_bytes (replay_chunks r) = takeN n (dropN (after - first_available_byte l) (content l)).
Proof.
  intros [Hraw _] Hfirst Hlast Hfar. pose proof (first_available_spec l Hraw) as Hf.
  destruct Hraw as ([a Hc] & Hs & Hr & _). pose proof (chain_end _ _ _ Hc) as Hend.
  set (W := 64 * 1024) in *. assert (0 < W) by done.
  unfold offer_replay, replay_page. fold W. clearbody W. rewrite N.max_l by done.
  assert (after +sat W = after + W) as -> by (unfold saturating_add; lia).
  set (n := N.min W (latest_output_bytes l - after)).
  assert (N.min (latest_output_bytes l) (after + W) = after + n) as -> by lia.
  destruct (page_chunks_spec after (after + n) (chunks l) a (latest_output_bytes l) Hc)
    as (out & -> & Hb & Hlt & _).
  rewrite N.max_r, N.min_l in Hlt by lia. specialize (Hlt ltac:(lia)).
  simpl. eexists _, n. split; [done|]. simpl. split_and!; [lia|done| |].
  - destruct out as [|c out _] using rev_ind; [simpl in Hlt; lia|].
    rewrite last_snoc. apply chain_app in Hlt as (m & _ & _ & _ & He). simpl in He. lia.
  - rewrite Hb, dropN_takeN. unfold content. rewrite dropN_dropN. do 2 f_equal; lia.
Qed.

(** C38: offering page after page terminates at the head and hands over exactly
    the unoffered bytes, each once and in order; every page makes progress. *)
Theorem offers_drain_the_log after l (Hwf : log_wf l)
    (Hfirst : first_available_byte l ≤ after) (Hlast : after ≤ latest_output_bytes l)
    (Hfar : latest_output_bytes l + 64 * 1024 ≤ u64_max) (fuel : nat)
    (Hfuel : (N.to_nat (latest_output_bytes l - after) ≤ fuel)%nat) :
  offer_until_head fuel after l =
    Ret (dropN (after - first_available_byte l) (content l), latest_output_bytes l).
Proof.
  pose proof (first_available_spec l (proj1 Hwf)) as Hf.
  pose proof (content_len l (proj1 Hwf)) as Hlen.
  revert after Hfirst Hlast Hfuel. induction fuel as [|fuel IH]; intros; simpl.
  { rewrite dropN_ge by lia. do 2 f_equal. lia. }
  case_decide. { rewrite dropN_ge by lia. do 2 f_equal. lia. }
  destruct (offer_replay_ok after l) as (r & n & -> & Hn & Hnn & Hw & Hb); [done|lia..|done|].
  cbn [obind]. rewrite Hw. rewrite IH by lia. cbn [obind]. rewrite Hb. do 2 f_equal.
  replace (after + n - first_available_byte l) with (after - first_available_byte l + n) by lia.
  by rewrite <-dropN_dropN, takeN_dropN.
Qed.
End props.

Section more_props.
Context {P : Type} `{!VtParser P}.
Implicit Types l : OutputLog P.

(** cross-Run reclamation takes from a Run only an exact prefix of bytes
    that persistence no longer protects, reports what it freed, subtracts the
    same amount from the shared total and takes nothing from a busy Run. *)
Theorem reclaim_output_exact (v : RunVictim P) drop total (Hok : victim_ok v) :
  let k := N.min drop (run_reclaimable v) in
  ∃ v', run_reclaim_output v drop total = Ret (v', k, total - k) ∧
    victim_ok v' ∧ content (victim_output v') = dropN k (content (victim_output v)) ∧
    latest_output_bytes (victim_output v') = latest_output_bytes (victim_output v) ∧
    (victim_output_free v = false ∨ victim_protected v = None → v' = v) ∧
    (∀ p, victim_protected v = Some p →
       first_available_byte (victim_output v') ≤ N.max (first_available_byte (victim_output v)) p).
Proof.
  destruct (victim_protected v) as [p|] eqn:Hv; [destruct (victim_output_free v) eqn:Hf|].
  2-3: unfold run_reclaim_output, run_reclaimable; rewrite Hv, ?Hf, N.min_0_r, N.sub_0_r;
    exists v; rewrite dropN_0; split_and!; try done; naive_solver lia.
  pose proof (run_reclaimable_eq v p Hok Hv Hf) as Hrec. intros k.
  unfold run_reclaim_output. rewrite Hv, Hf.
  pose proof Hok as (Hwf & Hr & Hp). rewrite Hv in Hp.
  rewrite usize_or_max_id by (unfold usize_max; lia).
  destruct (trim_front_ok drop (p - first_available_byte (victim_output v)) (victim_output v) total)
    as (l1 & Htrim & Hwf1 & Hc1 & Hr1 & Hlat1 & _); [apply Hwf|apply Hwf|].
  replace (N.min (N.min drop (p - first_available_byte (victim_output v)))
             (retained_bytes (victim_output v))) with k in * by lia.
  rewrite Htrim. cbn [obind].
  destruct (terminal_pressure_ok (victim_id v) l1 Hwf1) as (l2 & -> & Hsame & Hwf2).
  pose proof (first_available_spec _ (proj1 Hwf)) as Hfa.
  pose proof (first_available_spec _ (proj1 Hwf2)) as Hfa2.
  pose proof (same_raw_content _ _ Hsame) as Hc2.
  destruct Hsame as (_ & _ & Er & El & _).
  cbn [obind]. eexists. split; [reflexivity|]. simpl. rewrite Hc2, Hc1, El, Hlat1.
  split. { split_and!; simpl; [done|lia|done]. }
  split_and!; try done; [by intros [|]|]. intros q [= <-]. lia.
Qed.

Definition revision_synced l : Prop :=
  match terminal l with Some t => tm_resize_revision t = resize_revision l | None => True end.

(** A terminal resize is fenced at the output head with the next revision
    of the log whether or not the VT library unwinds, keeps the raw log and
    the agreement between the log's and the model's revisions; an unwind
    discards only the model and records the fault. *)
Theorem resize_terminal_exact size l (Hwf : log_wf l) (Hsync : revision_synced l)
    (Hrev : resize_revision l < u64_max) :
  ∃ l', resize_terminal size l =
      Ret (l', {| resize_through_byte := latest_output_bytes l;
                  resize_resize_revision := resize_revision l + 1; resize_size := size |}) ∧
    log_wf l' ∧ revision_synced l' ∧ content l' = content l ∧
    resize_revision l' = resize_revision l + 1 ∧
    (terminal l ≠ None → terminal l' = None → log_terminal_fault l' ≠ None) ∧
    checkpoint_dirty l' = bool_decide (is_Some (terminal l')).
Proof.
  unfold resize_terminal. rewrite plus_u64_ok by lia. cbn [obind].
  set (l1 := set_resize_revision (resize_revision l + 1) l).
  assert (log_wf l1) as Hwf1 by exact Hwf.
  destruct (derive_ok StageResize (λ t, tm_resize t size (latest_output_bytes l1)) l1)
    as (l2 & r & -> & Hsame & Hsv & Hr); [apply Hwf|].
  assert (log_wf l2) as Hwf2 by (by eapply same_raw_wf).
  pose proof (same_raw_content _ _ Hsame) as Hc.
  destruct Hsame as (_ & _ & _ & _ & _ & _ & Hrv). cbn [obind]. eexists. split.
  - do 2 f_equal. destruct r as [a|]; simpl; [|done].
    destruct Hr as (t & t' & Ht & Hd & Ht' & _). unfold revision_synced in Hsync.
    change (terminal l1) with (terminal l) in Ht. rewrite Ht in Hsync.
    unfold tm_resize in Hd. rewrite Hsync, plus_u64_ok in Hd by lia. simpl in Hd.
    destruct (vt_set_size _ _ _); [|done]. simpl in Hd. repeat case_match; naive_solver.
  - split; [exact Hwf2|]. unfold revision_synced. simpl. split_and!; try done.
    + rewrite Hrv. simpl. destruct r as [a|]; [|by destruct Hr as [-> _]].
      destruct Hr as (t & t' & Ht & Hd & -> & _). unfold revision_synced in Hsync.
      change (terminal l1) with (terminal l) in Ht. rewrite Ht in Hsync.
      unfold tm_resize in Hd. rewrite Hsync, plus_u64_ok in Hd by lia. simpl in Hd.
      destruct (vt_set_size _ _ _); [|done]. simpl in Hd. repeat case_match; naive_solver.
    + intros Hn Ht. destruct r; [naive_solver|]. destruct Hr as [_ [?|[? _]]]; done.
Qed.
End more_props.

(** ** Evaluated instances *)

Definition sample_log : OutputLog SampleVt.parser_state :=
  {| chunks := [{| start_byte := 0; end_byte := 3; data := [x61; x62; x63] |}];
     front_skip := 1; retained_bytes := 2; latest_output_bytes := 3;
     source_gap_after_byte := None; terminal := None; terminal_absence := OriginUnknown;
     resize_revision := 0; checkpoint_dirty := false; log_terminal_fault := None;
     service := None; facts := None; outbox := [] |}.

Lemma sample_log_wf : log_wf sample_log.
Proof.
  unfold log_wf, raw_wf. split_and!; [exists 0|..]; done.
Defined.

Lemma push_protected_exact_witness :
  ∃ l' k, push_protected [x64; xff] 2 1 sample_log 2 =
    Ret (l', 2 + 2 - k, {| start_byte := 3; end_byte := 3 + 2; data := [x64; xff] |})
    ∧ content l' = dropN k [x62; x63; x64; xff].
Proof.
  destruct (push_protected_exact [x64; xff] 2 1 sample_log 2 sample_log_wf)
    as (l' & k & H & _ & Hc & _); [done|by vm_compute..|].
  exists l', k. split; [exact H|exact Hc].
Defined.

Lemma replay_exact_witness :
  log_bytes (replay_chunks (replay 2 sample_log)) = [x63].
Proof. exact (proj1 (replay_exact 2 sample_log sample_log_wf)). Defined.

Lemma replay_page_exact_witness :
  ∃ r, replay_page 0 2 sample_log = Ret r ∧ log_bytes (replay_chunks r) = [x62].
Proof.
  destruct (replay_page_exact 0 2 sample_log sample_log_wf) as (r & H & Hb & _); [by vm_compute|].
  exists r. split; [exact H|exact Hb].
Defined.

Lemma offers_drain_the_log_witness :
  offer_until_head 2 1 sample_log = Ret ([x62; x63], 3).
Proof.
  apply (offers_drain_the_log 1 sample_log sample_log_wf);
    first [by vm_compute | vm_compute; lia].
Defined.

Definition sample_run : RunVictim SampleVt.parser_state :=
  {| victim_id := 7; victim_output := sample_log; victim_attachments := 0;
     victim_protected := Some 2; victim_output_free := true |}.
Lemma sample_run_ok : victim_ok sample_run.
Proof. split; [exact sample_log_wf|]. by vm_compute. Defined.
Lemma reclaim_output_exact_witness :
  ∃ v', run_reclaim_output sample_run 5 9 = Ret (v', 1, 8) ∧
        content (victim_output v') = [x63].
Proof.
  destruct (reclaim_output_exact sample_run 5 9 sample_run_ok) as (v' & H & _ & Hc & _).
  exists v'. split; [exact H|exact Hc].
Defined.

Lemma resize_terminal_exact_witness :
  ∃ l', resize_terminal {| rows := 24; cols := 80 |} sample_log =
    Ret (l', {| resize_through_byte := 3; resize_resize_revision := 1;
                resize_size := {| rows := 24; cols := 80 |} |}).
Proof.
  destruct (resize_terminal_exact {| rows := 24; cols := 80 |} sample_log sample_log_wf)
    as (l' & H & _); [done|by vm_compute|].
  exists l'. exact H.
Defined.
