(* ===== verification/Resources.v ===== *)
(** * Resources

    [crates/ctxmux-daemon/src/resources.rs]: the operator's resource policy, its
    resolution and validation, the storage reservation arithmetic, and the shared
    byte budget whose permits follow queue and receipt ownership.

    The JSON decoding of the startup choices is serde's and is not modelled; a
    [ResourceConfig] is the decoded value, where [Some None] is an explicit
    [null]. *)

From S2P Require Import Prelude.
From S2P Require Import Protocol.

Definition DEFAULT_HOT_REPLAY_BYTES : N := 1024 * 1024 * 1024.
Definition SQLITE_PAGE_BYTES : N := 4096.
Definition WAL_HEADER_BYTES : N := 32.
Definition WAL_FRAME_BYTES : N := SQLITE_PAGE_BYTES + 24.
Definition SHM_BLOCK_BYTES : N := 32768.
Definition SHM_FRAME_SLOTS : N := 4096.
Definition SHM_FIRST_FRAME_SLOTS : N := 4062.

Record ResourceLimits := {
  live_runs : option N;
  retained_runs : option N;
  hot_output_bytes : N;
  live_event_bytes : N;
  run_output_bytes : N;
  metadata_bytes : N;
  durable_replay_bytes : option N;
  durable_run_output_bytes : option N;
  database_bytes : option N;
  wal_checkpoint_bytes : N;
  handoff_bytes : N;
  control_state_bytes : N;
  diagnostic_queue_bytes : N;
  diagnostic_record_bytes : N;
  creation_workers : N;
  foreground_observation_workers : N;
  foreground_observation_bytes : N;
  foreground_observation_timeout_ms : N;
  input_turn_commands : N;
  input_turn_bytes : N;
  stop_admission_timeout_ms : N;
  cleanup_workers : N;
  finalize_workers : N;
  input_queue_commands : N;
  input_queue_bytes : N;
  input_result_entries : N;
  input_result_bytes : N;
  tmux_discovery_bytes : N;
}.

(** The sparse startup choices, field by field. *)
Record ResourceConfig := {
  c_live_runs : option (option N);
  c_retained_runs : option (option N);
  c_hot_output_bytes : option N;
  c_live_event_bytes : option N;
  c_run_output_bytes : option N;
  c_metadata_bytes : option N;
  c_durable_replay_bytes : option (option N);
  c_durable_run_output_bytes : option (option N);
  c_database_bytes : option (option N);
  c_wal_checkpoint_bytes : option N;
  c_handoff_bytes : option N;
  c_control_state_bytes : option N;
  c_diagnostic_queue_bytes : option N;
  c_diagnostic_record_bytes : option N;
  c_creation_workers : option N;
  c_foreground_observation_workers : option N;
  c_foreground_observation_bytes : option N;
  c_foreground_observation_timeout_ms : option N;
  c_input_turn_commands : option N;
  c_input_turn_bytes : option N;
  c_stop_admission_timeout_ms : option N;
  c_cleanup_workers : option N;
  c_finalize_workers : option N;
  c_input_queue_commands : option N;
  c_input_queue_bytes : option N;
  c_input_result_entries : option N;
  c_input_result_bytes : option N;
  c_tmux_discovery_bytes : option N;
}.

Definition empty_config : ResourceConfig :=
  {| c_live_runs := None; c_retained_runs := None; c_hot_output_bytes := None;
     c_live_event_bytes := None; c_run_output_bytes := None; c_metadata_bytes := None;
     c_durable_replay_bytes := None; c_durable_run_output_bytes := None;
     c_database_bytes := None; c_wal_checkpoint_bytes := None; c_handoff_bytes := None;
     c_control_state_bytes := None; c_diagnostic_queue_bytes := None;
     c_diagnostic_record_bytes := None; c_creation_workers := None;
     c_foreground_observation_workers := None; c_foreground_observation_bytes := None;
     c_foreground_observation_timeout_ms := None; c_input_turn_commands := None;
     c_input_turn_bytes := None; c_stop_admission_timeout_ms := None;
     c_cleanup_workers := None; c_finalize_workers := None; c_input_queue_commands := None;
     c_input_queue_bytes := None; c_input_result_entries := None;
     c_input_result_bytes := None; c_tmux_discovery_bytes := None |}.

Definition apply (c : ResourceConfig) (l : ResourceLimits) : ResourceLimits :=
  {| live_runs := default (live_runs l) (c_live_runs c);
     retained_runs := default (retained_runs l) (c_retained_runs c);
     hot_output_bytes := default (hot_output_bytes l) (c_hot_output_bytes c);
     live_event_bytes := default (live_event_bytes l) (c_live_event_bytes c);
     run_output_bytes := default (run_output_bytes l) (c_run_output_bytes c);
     metadata_bytes := default (metadata_bytes l) (c_metadata_bytes c);
     durable_replay_bytes := default (durable_replay_bytes l) (c_durable_replay_bytes c);
     durable_run_output_bytes :=
       default (durable_run_output_bytes l) (c_durable_run_output_bytes c);
     database_bytes := default (database_bytes l) (c_database_bytes c);
     wal_checkpoint_bytes := default (wal_checkpoint_bytes l) (c_wal_checkpoint_bytes c);
     handoff_bytes := default (handoff_bytes l) (c_handoff_bytes c);
     control_state_bytes := default (control_state_bytes l) (c_control_state_bytes c);
     diagnostic_queue_bytes := default (diagnostic_queue_bytes l) (c_diagnostic_queue_bytes c);
     diagnostic_record_bytes := default (diagnostic_record_bytes l) (c_diagnostic_record_bytes c);
     creation_workers := default (creation_workers l) (c_creation_workers c);
     foreground_observation_workers :=
       default (foreground_observation_workers l) (c_foreground_observation_workers c);
     foreground_observation_bytes :=
       default (foreground_observation_bytes l) (c_foreground_observation_bytes c);
     foreground_observation_timeout_ms :=
       default (foreground_observation_timeout_ms l) (c_foreground_observation_timeout_ms c);
     input_turn_commands := default (input_turn_commands l) (c_input_turn_commands c);
     input_turn_bytes := default (input_turn_bytes l) (c_input_turn_bytes c);
     stop_admission_timeout_ms :=
       default (stop_admission_timeout_ms l) (c_stop_admission_timeout_ms c);
     cleanup_workers := default (cleanup_workers l) (c_cleanup_workers c);
     finalize_workers := default (finalize_workers l) (c_finalize_workers c);
     input_queue_commands := default (input_queue_commands l) (c_input_queue_commands c);
     input_queue_bytes := default (input_queue_bytes l) (c_input_queue_bytes c);
     input_result_entries := default (input_result_entries l) (c_input_result_entries c);
     input_result_bytes := default (input_result_bytes l) (c_input_result_bytes c);
     tmux_discovery_bytes := default (tmux_discovery_bytes l) (c_tmux_discovery_bytes c) |}.

Definition DEFAULT : ResourceLimits :=
  {| live_runs := None; retained_runs := None;
     hot_output_bytes := DEFAULT_HOT_REPLAY_BYTES;
     live_event_bytes := 64 * 1024 * 1024;
     run_output_bytes := DEFAULT_HOT_REPLAY_BYTES;
     metadata_bytes := 64 * 1024 * 1024;
     durable_replay_bytes := None; durable_run_output_bytes := None; database_bytes := None;
     wal_checkpoint_bytes := 8 * 1024 * 1024;
     handoff_bytes := 256 * 1024 * 1024;
     control_state_bytes := 128 * 1024 * 1024;
     diagnostic_queue_bytes := 64 * 1024 * 1024;
     diagnostic_record_bytes := MAX_FRAME_BYTES;
     creation_workers := 8;
     foreground_observation_workers := 1;
     foreground_observation_bytes := MAX_FRAME_BYTES;
     foreground_observation_timeout_ms := 1000;
     input_turn_commands := 64; input_turn_bytes := 256 * 1024;
     stop_admission_timeout_ms := 250;
     cleanup_workers := 8; finalize_workers := 8;
     input_queue_commands := 1024; input_queue_bytes := 4 * 1024 * 1024;
     input_result_entries := 256; input_result_bytes := 1024 * 1024;
     tmux_discovery_bytes := 128 * 1024 |}.

(** The three quotas [resolve] derives when they are omitted. *)
Definition set_derived (run : N) (durable_run : option N) (observation : N)
    (l : ResourceLimits) : ResourceLimits :=
  {| live_runs := live_runs l; retained_runs := retained_runs l;
     hot_output_bytes := hot_output_bytes l; live_event_bytes := live_event_bytes l;
     run_output_bytes := run; metadata_bytes := metadata_bytes l;
     durable_replay_bytes := durable_replay_bytes l;
     durable_run_output_bytes := durable_run; database_bytes := database_bytes l;
     wal_checkpoint_bytes := wal_checkpoint_bytes l; handoff_bytes := handoff_bytes l;
     control_state_bytes := control_state_bytes l;
     diagnostic_queue_bytes := diagnostic_queue_bytes l;
     diagnostic_record_bytes := diagnostic_record_bytes l;
     creation_workers := creation_workers l;
     foreground_observation_workers := foreground_observation_workers l;
     foreground_observation_bytes := observation;
     foreground_observation_timeout_ms := foreground_observation_timeout_ms l;
     input_turn_commands := input_turn_commands l; input_turn_bytes := input_turn_bytes l;
     stop_admission_timeout_ms := stop_admission_timeout_ms l;
     cleanup_workers := cleanup_workers l; finalize_workers := finalize_workers l;
     input_queue_commands := input_queue_commands l; input_queue_bytes := input_queue_bytes l;
     input_result_entries := input_result_entries l; input_result_bytes := input_result_bytes l;
     tmux_discovery_bytes := tmux_discovery_bytes l |}.

Definition set_observation (workers observation : N) (l : ResourceLimits) : ResourceLimits :=
  {| live_runs := live_runs l; retained_runs := retained_runs l;
     hot_output_bytes := hot_output_bytes l; live_event_bytes := live_event_bytes l;
     run_output_bytes := run_output_bytes l; metadata_bytes := metadata_bytes l;
     durable_replay_bytes := durable_replay_bytes l;
     durable_run_output_bytes := durable_run_output_bytes l; database_bytes := database_bytes l;
     wal_checkpoint_bytes := wal_checkpoint_bytes l; handoff_bytes := handoff_bytes l;
     control_state_bytes := control_state_bytes l;
     diagnostic_queue_bytes := diagnostic_queue_bytes l;
     diagnostic_record_bytes := diagnostic_record_bytes l;
     creation_workers := creation_workers l;
     foreground_observation_workers := workers;
     foreground_observation_bytes := observation;
     foreground_observation_timeout_ms := foreground_observation_timeout_ms l;
     input_turn_commands := input_turn_commands l; input_turn_bytes := input_turn_bytes l;
     stop_admission_timeout_ms := stop_admission_timeout_ms l;
     cleanup_workers := cleanup_workers l; finalize_workers := finalize_workers l;
     input_queue_commands := input_queue_commands l; input_queue_bytes := input_queue_bytes l;
     input_result_entries := input_result_entries l; input_result_bytes := input_result_bytes l;
     tmux_discovery_bytes := tmux_discovery_bytes l |}.

#[local] Open Scope string_scope.
#[local] Open Scope N_scope.

Definition observation_bytes (workers : N) : result N string :=
  ok_or "foreground observation worker funding overflows" (checked_mul workers MAX_FRAME_BYTES).

Definition wal_bytes (l : ResourceLimits) : N := wal_checkpoint_bytes l * 2.

Definition div_ceil (a b : N) : N := (a + b - 1) / b.

Definition shm_bytes (l : ResourceLimits) : N :=
  let frames := (wal_bytes l -sat WAL_HEADER_BYTES) / WAL_FRAME_BYTES in
  let additional := frames -sat SHM_FIRST_FRAME_SLOTS in
  (1 + div_ceil additional SHM_FRAME_SLOTS) * SHM_BLOCK_BYTES.

Definition transpose {A E} (o : option (result A E)) : result (option A) E :=
  match o with None => Ok None | Some (Ok a) => Ok (Some a) | Some (Err e) => Err e end.

Definition state_file_bytes (l : ResourceLimits) : result (option N) string :=
  let overflow := "combined storage budgets overflow" in
  let? wal := ok_or overflow (checked_mul (wal_checkpoint_bytes l) 2) in
  let? fixed := ok_or overflow (checked_add wal (shm_bytes l) ≫= λ b, checked_add b (1024 * 1024)) in
  let? replay := transpose ((λ b, ok_or overflow (checked_mul b 3)) <$> durable_replay_bytes l) in
  let? _ := match database_bytes l with
            | Some d => let? _ := ok_or overflow (checked_add d fixed) in Ok tt
            | None => Ok tt end in
  let? _ := match replay with
            | Some r => let? _ := ok_or overflow (checked_add r fixed) in Ok tt
            | None => Ok tt end in
  match database_bytes l, replay with
  | Some d, Some r => ok_or overflow (Some <$> (checked_add d r ≫= λ b, checked_add b fixed))
  | _, _ => Ok None
  end.

Definition first_err {A E} (l : list A) (test : A → option E) : result unit E :=
  match head (omap test l) with Some e => Err e | None => Ok tt end.

Definition byte_count_ok (b : N) : bool :=
  negb (bool_decide (b = 0) || bool_decide (i64_max < b) || bool_decide (usize_max < b)).
Definition quota_ok (q : option N) : bool := match q with Some b => byte_count_ok b | None => true end.

(** What validation reads of the host and of code outside the crate:
    [tokio::sync::Semaphore::MAX_PERMITS], whether [Instant::now()] plus that
    many milliseconds is representable, the size of one diagnostic [Message] and
    [available_parallelism]. *)
Class Host := {
  MAX_PERMITS : N;
  deadline_representable : N → bool;
  ENVELOPE_BYTES : N;
  available_parallelism : option N;
}.

Section policy.
Context `{!Host}.

(** [diagnostics::validate_limits]. *)
Definition validate_diagnostic_limits (queue_bytes record_bytes : N) : result unit string :=
  if bool_decide (record_bytes = 0) ||
     match checked_add record_bytes ENVELOPE_BYTES with
     | Some required => bool_decide (queue_bytes < required)
     | None => true
     end
  then Err "diagnostic queue must fund one positive-size record and its envelope"
  else Ok tt.

Definition validate (l : ResourceLimits) : result unit string :=
  if bool_decide (live_runs l = Some 0) || bool_decide (retained_runs l = Some 0)
  then Err "population limits must be positive or null" else
  let? _ := first_err
    [("hot_output_bytes", hot_output_bytes l); ("live_event_bytes", live_event_bytes l);
     ("run_output_bytes", run_output_bytes l); ("metadata_bytes", metadata_bytes l);
     ("wal_checkpoint_bytes", wal_checkpoint_bytes l); ("handoff_bytes", handoff_bytes l);
     ("control_state_bytes", control_state_bytes l);
     ("foreground_observation_bytes", foreground_observation_bytes l);
     ("diagnostic_queue_bytes", diagnostic_queue_bytes l);
     ("diagnostic_record_bytes", diagnostic_record_bytes l)]
    (λ '(name, b), if byte_count_ok b then None
                   else Some (name +:+ " must fit a positive host/SQLite byte count")) in
  let? _ := first_err
    [("durable_replay_bytes", durable_replay_bytes l);
     ("durable_run_output_bytes", durable_run_output_bytes l);
     ("database_bytes", database_bytes l)]
    (λ '(name, q), if quota_ok q then None
                   else Some (name +:+ " must fit a positive host/SQLite byte count or null")) in
  if match database_bytes l with
     | Some b => bool_decide (b mod SQLITE_PAGE_BYTES ≠ 0) | None => false end
  then Err "database_bytes must be a multiple of the 4096-byte SQLite page" else
  if decide (wal_checkpoint_bytes l < WAL_HEADER_BYTES + WAL_FRAME_BYTES)
  then Err "wal_checkpoint_bytes must fund a WAL header and page frame" else
  let? _ := first_err
    [("creation_workers", creation_workers l);
     ("foreground_observation_workers", foreground_observation_workers l);
     ("input_turn_commands", input_turn_commands l); ("input_turn_bytes", input_turn_bytes l);
     ("cleanup_workers", cleanup_workers l); ("finalize_workers", finalize_workers l);
     ("input_queue_commands", input_queue_commands l); ("input_queue_bytes", input_queue_bytes l);
     ("input_result_entries", input_result_entries l);
     ("input_result_bytes", input_result_bytes l);
     ("tmux_discovery_bytes", tmux_discovery_bytes l)]
    (λ '(name, c), if bool_decide (c = 0) || bool_decide (MAX_PERMITS < c)
                   then Some (name +:+ " must fit a positive owner count") else None) in
  if bool_decide (stop_admission_timeout_ms l = 0) ||
     negb (deadline_representable (stop_admission_timeout_ms l))
  then Err "stop_admission_timeout_ms must fit a positive host deadline" else
  if bool_decide (foreground_observation_timeout_ms l = 0) ||
     negb (deadline_representable (foreground_observation_timeout_ms l))
  then Err "foreground_observation_timeout_ms must fit a positive host deadline" else
  let? _ := validate_diagnostic_limits (diagnostic_queue_bytes l) (diagnostic_record_bytes l) in
  let? _ := state_file_bytes l in
  Ok tt.

(** [ResourceLimits::default()]. *)
Definition default_limits : outcome ResourceLimits :=
  let workers := match available_parallelism with
                 | Some cpus => N.max (cpus / 4) 1 | None => 1 end in
  match observation_bytes workers with
  | Ok b => Ret (set_observation workers b DEFAULT)
  | Err _ => Panic "available host CPU width fits observation funding"
  end.

Definition resolve (c : ResourceConfig) : outcome (result ResourceLimits string) :=
  let! defaults := default_limits in
  Ret (let l := apply c defaults in
       let? run := match c_run_output_bytes c with
                   | None => ok_or "hot_output_bytes must fit the host"
                               (if decide (hot_output_bytes l ≤ usize_max)
                                then Some (hot_output_bytes l) else None)
                   | Some _ => Ok (run_output_bytes l)
                   end in
       let durable_run := match c_durable_run_output_bytes c with
                          | None => durable_replay_bytes l
                          | Some _ => durable_run_output_bytes l
                          end in
       let? observation := match c_foreground_observation_bytes c with
                           | None => observation_bytes (foreground_observation_workers l)
                           | Some _ => Ok (foreground_observation_bytes l)
                           end in
       let l := set_derived run durable_run observation l in
       let? _ := validate l in
       Ok l).
End policy.

(** ** The shared byte budget

    [used] is one atomic word: [reserve] is a successful or refused
    compare-and-swap and a permit's [Drop] is a wrapping [fetch_sub], so an
    interleaving of threads is a sequence of these steps.  A permit is the number
    of bytes it holds, and [permits] lists the live ones. *)
#[local] Close Scope string_scope.
Module ByteBudget.
Record t := { limit : N; used : N }.
Definition new (limit : N) : t := {| limit := limit; used := 0 |}.

Definition reserve (bytes : N) (b : t) : t * option N :=
  match checked_add (used b) bytes with
  | Some next => if decide (next ≤ limit b)
                 then ({| limit := limit b; used := next |}, Some bytes) else (b, None)
  | None => (b, None)
  end.
Definition drop_permit (permit : N) (b : t) : t :=
  {| limit := limit b; used := wrapping_sub (used b) permit |}.

(** Reachable states of the budget with its live permits. *)
Inductive step : t * list N → t * list N → Prop :=
  | step_reserved b ps bytes b' p :
      reserve bytes b = (b', Some p) → step (b, ps) (b', p :: ps)
  | step_refused b ps bytes b' :
      reserve bytes b = (b', None) → step (b, ps) (b', ps)
  | step_dropped b ps1 p ps2 :
      step (b, ps1 ++ p :: ps2) (drop_permit p b, ps1 ++ ps2).

Definition inv (s : t * list N) : Prop :=
  used s.1 = sumN id s.2 ∧ used s.1 ≤ limit s.1 ∧ limit s.1 ≤ u64_max.

Lemma reserve_spec bytes b :
  reserve bytes b =
    if decide (used b + bytes ≤ u64_max ∧ used b + bytes ≤ limit b)
    then ({| limit := limit b; used := used b + bytes |}, Some bytes) else (b, None).
Proof. unfold reserve, checked_add. repeat case_decide; naive_solver. Qed.

Lemma drop_spec p b : p ≤ used b → used b ≤ u64_max →
  drop_permit p b = {| limit := limit b; used := used b - p |}.
Proof.
  intros. unfold drop_permit, wrapping_sub. f_equal.
  replace (used b + (u64_max + 1) - p) with (used b - p + 1 * (u64_max + 1)) by lia.
  rewrite N.Div0.mod_add, N.mod_small; lia.
Qed.

Lemma budget_step_inv s s' : step s s' → inv s → inv s' ∧ limit s'.1 = limit s.1.
Proof.
  intros Hs (Hu & Hl & Hm). destruct Hs as [b ps bytes b' p H|b ps bytes b' H|b ps1 p ps2]; simpl in *.
  - rewrite reserve_spec in H. case_decide; simplify_eq. unfold inv. cbn [fst snd used limit].
    rewrite sumN_cons. unfold id at 1. split_and!; lia.
  - rewrite reserve_spec in H. case_decide; simplify_eq. by split_and!.
  - rewrite sumN_app, sumN_cons in Hu. unfold id at 2 in Hu. rewrite drop_spec by lia.
    unfold inv. cbn [fst snd used limit]. rewrite sumN_app. split_and!; lia.
Qed.

(** However the owners interleave, the budget's one word is exactly the
    sum of the live permits and never exceeds the limit, and a reservation is
    refused only when granting it would exceed the limit. *)
Theorem budget_never_overcommits lim s (Hlim : lim ≤ u64_max)
    (Hreach : rtc step (new lim, []) s) :
  used s.1 = sumN id s.2 ∧ sumN id s.2 ≤ lim ∧
  ∀ bytes, (reserve bytes s.1).2 = None ↔ lim < sumN id s.2 + bytes.
Proof.
  assert (inv s ∧ limit s.1 = lim) as [(Hu & Hl & Hm) Hlims].
  { remember (new lim, []) as s0 eqn:H0.
    assert (inv s0 ∧ limit s0.1 = lim) as Hi.
    { subst. unfold inv. simpl. rewrite sumN_nil. split_and!; done || lia. }
    clear H0. induction Hreach as [s|s1 s2 s3 H12 _ IH]; [done|].
    destruct Hi as [Hi Hl]. destruct (budget_step_inv _ _ H12 Hi) as [? ?]. apply IH. split; congruence. }
  rewrite Hlims in *. split_and!; [done|lia|].
  intros bytes. rewrite reserve_spec, Hlims, <-Hu. case_decide; simpl; split; (done || lia).
Qed.

Lemma budget_never_overcommits_witness :
  ∃ s, rtc step (new 10, []) s ∧ s = ({| limit := 10; used := 6 |}, [6]) ∧
       used s.1 = sumN id s.2.
Proof.
  exists ({| limit := 10; used := 6 |}, [6]).
  assert (rtc step (new 10, []) ({| limit := 10; used := 6 |}, [6])) as Hr.
  { apply rtc_once. by apply (step_reserved _ _ 6). }
  split; [exact Hr|split; [done|]].
  exact (proj1 (budget_never_overcommits 10 ({| limit := 10; used := 6 |}, [6]) ltac:(by vm_compute) Hr)).
Defined.
End ByteBudget.

(** ** What an accepted policy guarantees *)

Lemma first_err_ok {A E} (l : list A) (test : A → option E) :
  first_err l test = Ok tt ↔ Forall (λ a, test a = None) l.
Proof.
  unfold first_err. induction l as [|a l IH]; [done|]. rewrite Forall_cons. simpl.
  destruct (test a); simpl; naive_solver.
Qed.

Lemma bind_ok {A B E} (r : result A E) (k : A → result B E) b :
  result_bind r k = Ok b ↔ ∃ a, r = Ok a ∧ k a = Ok b.
Proof. destruct r; simpl; naive_solver. Qed.
Lemma ok_or_ok {A E} (e : E) (o : option A) a : ok_or e o = Ok a ↔ o = Some a.
Proof. destruct o; simpl; naive_solver. Qed.

Definition positive_bytes (b : N) : Prop := 0 < b ≤ i64_max.
Lemma byte_count_ok_spec b : byte_count_ok b = true ↔ positive_bytes b.
Proof.
  unfold byte_count_ok, positive_bytes.
  rewrite negb_true_iff, !orb_false_iff, !bool_decide_eq_false. unfold usize_max.
  assert (i64_max ≤ u64_max) by done. lia.
Qed.

(** The storage the daemon's own files may take: database, retained replay with
    its replacement and source generations, WAL, index and one admitted append. *)
Definition fixed_bytes (l : ResourceLimits) : N := wal_bytes l + shm_bytes l + 1024 * 1024.

Definition storage_fits (l : ResourceLimits) : Prop :=
  fixed_bytes l ≤ u64_max ∧
  default 0 (database_bytes l) + fixed_bytes l ≤ u64_max ∧
  3 * default 0 (durable_replay_bytes l) + fixed_bytes l ≤ u64_max ∧
  match database_bytes l, durable_replay_bytes l with
  | Some d, Some r => d + 3 * r + fixed_bytes l ≤ u64_max
  | _, _ => True
  end.

#[export] Instance storage_fits_dec l : Decision (storage_fits l).
Proof.
  unfold storage_fits. destruct (database_bytes l), (durable_replay_bytes l); apply _.
Defined.

Lemma state_file_bytes_spec l :
  state_file_bytes l =
    if decide (storage_fits l) then
      Ok (match database_bytes l, durable_replay_bytes l with
          | Some d, Some r => Some (d + 3 * r + fixed_bytes l)
          | _, _ => None
          end)
    else Err "combined storage budgets overflow"%string.
Proof.
  set (M := 1024 * 1024). assert (0 < M) by done.
  destruct (decide (storage_fits l)) as [Hfit|Hfit];
    unfold state_file_bytes, storage_fits, fixed_bytes, wal_bytes, checked_mul, checked_add in *;
    fold M in Hfit |- *; clearbody M;
    destruct (database_bytes l) as [d|], (durable_replay_bytes l) as [r|]; simpl in *;
    repeat (case_decide; simpl); try done; try (exfalso; lia).
  do 2 f_equal. lia.
Qed.

Section validation.
Context `{!Host}.

Definition owner_count (c : N) : Prop := 0 < c ≤ MAX_PERMITS.
Definition quota_valid (q : option N) : Prop :=
  match q with Some b => positive_bytes b | None => True end.
Definition deadline_valid (ms : N) : Prop := 0 < ms ∧ deadline_representable ms = true.

Definition byte_fields (l : ResourceLimits) : list N :=
  [hot_output_bytes l; live_event_bytes l; run_output_bytes l; metadata_bytes l;
   wal_checkpoint_bytes l; handoff_bytes l; control_state_bytes l;
   foreground_observation_bytes l; diagnostic_queue_bytes l; diagnostic_record_bytes l].
Definition count_fields (l : ResourceLimits) : list N :=
  [creation_workers l; foreground_observation_workers l; input_turn_commands l;
   input_turn_bytes l; cleanup_workers l; finalize_workers l; input_queue_commands l;
   input_queue_bytes l; input_result_entries l; input_result_bytes l; tmux_discovery_bytes l].

(** The policy an operator may run with. *)
Record limits_valid (l : ResourceLimits) : Prop := {
  valid_population : live_runs l ≠ Some 0 ∧ retained_runs l ≠ Some 0;
  valid_bytes : Forall positive_bytes (byte_fields l);
  valid_quotas : Forall quota_valid
    [durable_replay_bytes l; durable_run_output_bytes l; database_bytes l];
  valid_pages : match database_bytes l with
                | Some b => b mod SQLITE_PAGE_BYTES = 0 | None => True end;
  valid_wal : WAL_HEADER_BYTES + WAL_FRAME_BYTES ≤ wal_checkpoint_bytes l;
  valid_counts : Forall owner_count (count_fields l);
  valid_deadlines : deadline_valid (stop_admission_timeout_ms l) ∧
                    deadline_valid (foreground_observation_timeout_ms l);
  valid_diagnostics : 0 < diagnostic_record_bytes l ∧
    diagnostic_record_bytes l + ENVELOPE_BYTES ≤ u64_max ∧
    diagnostic_record_bytes l + ENVELOPE_BYTES ≤ diagnostic_queue_bytes l;
  valid_storage : storage_fits l;
}.

Lemma byte_tests_ok (l : list (string * N)) e :
  Forall (λ x : string * N, (let '(n, b) := x in if byte_count_ok b then None else Some (e n : string)) = None) l
    ↔ Forall positive_bytes (map snd l).
Proof.
  rewrite Forall_map. apply Forall_iff. intros [n b]. simpl. rewrite <-byte_count_ok_spec.
  destruct (byte_count_ok b); naive_solver.
Qed.
Lemma quota_tests_ok (l : list (string * option N)) e :
  Forall (λ x : string * option N, (let '(n, b) := x in if quota_ok b then None else Some (e n : string)) = None) l
    ↔ Forall quota_valid (map snd l).
Proof.
  rewrite Forall_map. apply Forall_iff. intros [n [b|]]; simpl; [|done].
  rewrite <-byte_count_ok_spec. destruct (byte_count_ok b); naive_solver.
Qed.
Lemma count_tests_ok (l : list (string * N)) e :
  Forall (λ x : string * N, (let '(n, c) := x in
            if bool_decide (c = 0) || bool_decide (MAX_PERMITS < c)
            then Some (e n : string) else None) = None) l
    ↔ Forall owner_count (map snd l).
Proof.
  rewrite Forall_map. apply Forall_iff. intros [n c]. simpl. unfold owner_count.
  repeat case_bool_decide; simpl; split; (done || lia).
Qed.
Lemma deadline_test_ok ms :
  bool_decide (ms = 0) || negb (deadline_representable ms) = false ↔ deadline_valid ms.
Proof.
  rewrite orb_false_iff, bool_decide_eq_false, negb_false_iff. unfold deadline_valid.
  split; intros [??]; split; (done || lia).
Qed.
Lemma diagnostics_ok q r :
  validate_diagnostic_limits q r = Ok tt ↔
  0 < r ∧ r + ENVELOPE_BYTES ≤ u64_max ∧ r + ENVELOPE_BYTES ≤ q.
Proof.
  unfold validate_diagnostic_limits, checked_add.
  repeat (case_bool_decide || case_decide; simpl); split; (done || lia || naive_solver lia).
Qed.
Lemma if_err_ok {E} (b : bool) (e : E) (k : result unit E) :
  (if b then Err e else k) = Ok tt ↔ b = false ∧ k = Ok tt.
Proof. destruct b; naive_solver. Qed.
Lemma bind_tt_ok {E} (r k : result unit E) :
  result_bind r (λ _, k) = Ok tt ↔ r = Ok tt ∧ k = Ok tt.
Proof. destruct r as [[]|]; simpl; naive_solver. Qed.

Lemma validate_accepts_exactly_iff l : validate l = Ok tt ↔ limits_valid l.
Proof.
  unfold validate. rewrite if_err_ok, !bind_tt_ok, !first_err_ok, byte_tests_ok, quota_tests_ok,
    !if_err_ok.
  case_decide as Hwal.
  { split; [naive_solver|]. intros [? ? ? ? Hw]. lia. }
  rewrite !bind_tt_ok, first_err_ok, count_tests_ok, !if_err_ok, !deadline_test_ok, !bind_tt_ok,
    diagnostics_ok, state_file_bytes_spec.
  rewrite orb_false_iff, !bool_decide_eq_false. cbn [map snd].
  split.
  - intros ((? & ?) & Hb & Hq & Hp & Hc & Hs & Hf & Hd & Hst).
    case_decide; [|done]. split; try done; try lia.
    destruct (database_bytes l); [|done]. by apply bool_decide_eq_false, dec_stable in Hp.
  - intros [[? ?] Hb Hq Hp Hw Hc [? ?] Hd Hst]. rewrite decide_True by done.
    split_and!; try done; try apply Hd. destruct (database_bytes l); [|done].
    apply bool_decide_eq_false. naive_solver.
Qed.

(** validation accepts exactly the funded and representable policies; an
    accepted one has a storage reservation whose every sum is representable. *)
Theorem validate_accepts_exactly l :
  (validate l = Ok tt ↔ limits_valid l) ∧
  (validate l = Ok tt → ∃ total, state_file_bytes l = Ok total ∧
     ∀ t, total = Some t → t ≤ u64_max ∧ fixed_bytes l ≤ t).
Proof.
  rewrite validate_accepts_exactly_iff. split; [done|]. intros [? ? ? ? ? ? ? ? Hst].
  rewrite state_file_bytes_spec, decide_True by done. eexists. split; [done|].
  intros t Ht. destruct Hst as (_ & _ & _ & Hst).
  destruct (database_bytes l), (durable_replay_bytes l); simplify_eq. lia.
Qed.

(** a resolved policy is valid, keeps every explicit choice, and each
    omitted per-Run or observation quota follows the owner it belongs to. *)
Theorem resolve_sound c l (Hres : resolve c = Ret (Ok l)) :
  limits_valid l ∧
  (∀ b, c_hot_output_bytes c = Some b → hot_output_bytes l = b) ∧
  (∀ q, c_durable_replay_bytes c = Some q → durable_replay_bytes l = q) ∧
  run_output_bytes l = default (hot_output_bytes l) (c_run_output_bytes c) ∧
  durable_run_output_bytes l = default (durable_replay_bytes l) (c_durable_run_output_bytes c) ∧
  foreground_observation_bytes l =
    default (foreground_observation_workers l * MAX_FRAME_BYTES) (c_foreground_observation_bytes c).
Proof.
  unfold resolve in Hres. destruct default_limits as [d|]; [|done]. cbn [obind] in Hres.
  injection Hres as Hres.
  apply bind_ok in Hres as (run & Hrun & Hres). apply bind_ok in Hres as (obs & Hobs & Hres).
  apply bind_ok in Hres as ([] & Hval & [= <-]).
  split; [by apply validate_accepts_exactly_iff|].
  unfold observation_bytes in Hobs. simpl.
  split_and!.
  - by intros b ->.
  - by intros q ->.
  - destruct (c_run_output_bytes c); simpl; [by injection Hrun|].
    apply ok_or_ok in Hrun. case_decide; naive_solver.
  - by destruct (c_durable_run_output_bytes c).
  - destruct (c_foreground_observation_bytes c); simpl; [by injection Hobs|].
    apply ok_or_ok, checked_mul_Some in Hobs. naive_solver.
Qed.

(** the policy of a daemon started without choices is accepted on every
    host with ordinary owner counts and clock range. *)
Theorem default_policy_resolves (Hpermits : 4 * 1024 * 1024 ≤ MAX_PERMITS)
    (Hd1 : deadline_representable 250 = true) (Hd2 : deadline_representable 1000 = true)
    (Henv : ENVELOPE_BYTES ≤ 1024 * 1024)
    (Hcpus : default 1 available_parallelism ≤ 1024 * 1024) :
  ∃ l, resolve empty_config = Ret (Ok l) ∧ run_output_bytes l = hot_output_bytes l ∧
       state_file_bytes l = Ok None.
Proof.
  unfold resolve, default_limits.
  set (w := match available_parallelism with Some cpus => N.max (cpus / 4) 1 | None => 1 end).
  assert (0 < w ∧ w ≤ 1024 * 1024) as [Hw0 Hw].
  { unfold w. destruct available_parallelism as [c|]; simpl in Hcpus; [|done].
    pose proof (N.Div0.div_le_upper_bound c 4 (1024 * 1024)). lia. }
  clearbody w. unfold observation_bytes.
  assert (checked_mul w MAX_FRAME_BYTES = Some (w * MAX_FRAME_BYTES)) as Hmul.
  { apply checked_mul_Some. split; [done|]. unfold MAX_FRAME_BYTES.
    etrans; [apply N.mul_le_mono_r, Hw|done]. }
  assert (w * MAX_FRAME_BYTES ≤ i64_max) as Hobs.
  { transitivity (1024 * 1024 * MAX_FRAME_BYTES); [apply N.mul_le_mono_r, Hw|by vm_compute]. }
  rewrite Hmul. cbn [ok_or obind].
  cbn [c_run_output_bytes empty_config c_durable_run_output_bytes
       c_foreground_observation_bytes].
  rewrite decide_True by done. cbn [ok_or result_bind].
  change (foreground_observation_workers (apply empty_config (set_observation w _ DEFAULT))) with w.
  rewrite Hmul. cbn [ok_or result_bind].
  match goal with |- context [validate ?l] => assert (validate l = Ok tt) as ->;
    [|by exists l] end.
  apply validate_accepts_exactly_iff. split; try done; simpl.
  - unfold byte_fields. simpl. rewrite !Forall_cons.
    split_and!; try apply Forall_nil_2;
    lazymatch goal with
    | |- positive_bytes (w * _) => split; [unfold MAX_FRAME_BYTES; lia|exact Hobs]
    | |- _ => by vm_compute
    end.
  - repeat constructor.
  - unfold count_fields, owner_count. simpl. rewrite !Forall_cons.
    split_and!; try apply Forall_nil_2; lia.
  - unfold MAX_FRAME_BYTES. split_and!; [done| |lia].
    assert (2 * (1024 * 1024) ≤ u64_max) by done. lia.
Qed.
End validation.

(** the WAL index reservation holds a slot for every frame the WAL can
    hold, and one index block less would not. *)
Theorem shm_indexes_every_frame l :
  let frames := (wal_bytes l - WAL_HEADER_BYTES) / WAL_FRAME_BYTES in
  ∃ blocks, 1 ≤ blocks ∧ shm_bytes l = blocks * SHM_BLOCK_BYTES ∧
    frames ≤ SHM_FIRST_FRAME_SLOTS + (blocks - 1) * SHM_FRAME_SLOTS ∧
    (2 ≤ blocks → SHM_FIRST_FRAME_SLOTS + (blocks - 2) * SHM_FRAME_SLOTS < frames).
Proof.
  intros frames. unfold shm_bytes. fold frames. clearbody frames.
  exists (1 + div_ceil (frames - SHM_FIRST_FRAME_SLOTS) SHM_FRAME_SLOTS).
  unfold div_ceil, SHM_FIRST_FRAME_SLOTS, SHM_FRAME_SLOTS.
  pose proof (N.Div0.div_mod (frames - 4062 + 4096 - 1) 4096) as Hdm.
  pose proof (N.mod_lt (frames - 4062 + 4096 - 1) 4096 ltac:(lia)).
  set (q := (frames - 4062 + 4096 - 1) / 4096) in *. clearbody q.
  set (r := _ mod 4096) in *. clearbody r. split_and!; try done; lia.
Qed.

(** ** Evaluated instances *)

Definition sample_host : Host :=
  {| MAX_PERMITS := 2 ^ 61 - 1; deadline_representable ms := bool_decide (ms < 2 ^ 53);
     ENVELOPE_BYTES := 64; available_parallelism := Some 16 |}.

Lemma resolve_sound_witness :
  ∃ l, resolve (H := sample_host) empty_config = Ret (Ok l) ∧ run_output_bytes l = 1024 * 1024 * 1024.
Proof.
  eexists. split; [by vm_compute|].
  destruct (resolve_sound (H := sample_host) empty_config
              (set_derived DEFAULT_HOT_REPLAY_BYTES None (4 * MAX_FRAME_BYTES)
                 (set_observation 4 (4 * MAX_FRAME_BYTES) DEFAULT)))
    as (_ & _ & _ & Hr & _); [by vm_compute|].
  exact Hr.
Defined.

Lemma default_policy_resolves_witness :
  ∃ l, resolve (H := sample_host) empty_config = Ret (Ok l) ∧ run_output_bytes l = hot_output_bytes l.
Proof.
  destruct (default_policy_resolves (H := sample_host)) as (l & Hl & Hr & _); [by vm_compute..|].
  exists l. split; [exact Hl|exact Hr].
Defined.
