(* ===== verification/LiveEventJournal.v ===== *)
(** * Live event journal

    [crates/ctxmux-daemon/src/live_event_journal.rs]: Run-local live delivery,
    funded by actual allocations.  One journal is shared by a sender and its
    receivers under one lock; every operation below is one locked section.

    An event may carry a lease: the reference-counted allocation
    ([Arc<FundedRunEvent>]) whose [BytePermit] returns to the budget when its last
    clone is dropped.  The heap of leases is explicit, since a receiver's clone
    outlives the journal's slot.  The allocator's answer to [try_reserve_exact] is
    a parameter: the capacity it gives for a requested one, or failure. *)

From S2P Require Import Prelude.
From S2P Require Import Protocol.
From S2P Require Import Resources.

Class Allocator := {
  alloc_capacity : N → option N;
  size_of_reader : N;  (** [size_of::<Option<u64>>()] *)
  size_of_event : N;   (** [size_of::<LiveRunEvent>()] *)
}.

(** The budget and the live leases: clone count and bytes of each. *)
Record Heap := { budget : ByteBudget.t; leases : gmap N (N * N) }.

Definition set_budget (b : ByteBudget.t) (h : Heap) : Heap := {| budget := b; leases := leases h |}.

Definition reserve (bytes : N) (h : Heap) : Heap * option N :=
  let '(b, p) := ByteBudget.reserve bytes (budget h) in (set_budget b h, p).
Definition drop_permits (ps : list N) (h : Heap) : Heap :=
  foldl (λ h p, set_budget (ByteBudget.drop_permit p (budget h)) h) h ps.

Definition clone_lease (id : N) (h : Heap) : Heap :=
  match leases h !! id with
  | Some (n, bytes) => {| budget := budget h; leases := <[id := (n + 1, bytes)]> (leases h) |}
  | None => h
  end.
Definition drop_lease (id : N) (h : Heap) : Heap :=
  match leases h !! id with
  | Some (n, bytes) =>
      if decide (n ≤ 1)
      then drop_permits [bytes] {| budget := budget h; leases := delete id (leases h) |}
      else {| budget := budget h; leases := <[id := (n - 1, bytes)]> (leases h) |}
  | None => h
  end.

(** [funded_vec]/[funded_deque]: the capacity obtained and its permits. *)
Definition funded `{!Allocator} (size capacity : N) (h : Heap)
    : Heap * option (N * list N) :=
  match checked_mul capacity size with
  | None => (h, None)
  | Some bytes =>
      match reserve bytes h with
      | (h, None) => (h, None)
      | (h, Some requested) =>
          match alloc_capacity capacity with
          | None => (drop_permits [requested] h, None)
          | Some actual =>
              (** [fund_extra] *)
              match (checked_sub actual capacity ≫= λ slots, checked_mul slots size) with
              | None => (drop_permits [requested] h, None)
              | Some extra =>
                  if decide (extra = 0) then (h, Some (actual, [requested]))
                  else match reserve extra h with
                       | (h, Some extra) => (h, Some (actual, [requested; extra]))
                       | (h, None) => (drop_permits [requested] h, None)
                       end
              end
          end
      end
  end.

Inductive TryRecvError := Lagged (n : N) | Empty | Closed.

Section journal.
Context {E : Type} (is_output : E → bool) (lease : E → option N).
Context `{!Allocator}.

Record State := {
  first : option E;
  rest : list E;
  rest_capacity : N;
  rest_memory : list N;
  base : N;
  next : N;
  readers : list (option N);
  readers_capacity : N;
  readers_memory : list N;
  receiver_count : N;
  closed : bool;
}.

Definition new_state : State :=
  {| first := None; rest := []; rest_capacity := 0; rest_memory := []; base := 0; next := 0;
     readers := []; readers_capacity := 0; readers_memory := []; receiver_count := 0;
     closed := false |}.

Definition set_queue (f : option E) (r : list E) (cap : N) (mem : list N) (b n : N)
    (s : State) : State :=
  {| first := f; rest := r; rest_capacity := cap; rest_memory := mem; base := b; next := n;
     readers := readers s; readers_capacity := readers_capacity s;
     readers_memory := readers_memory s; receiver_count := receiver_count s;
     closed := closed s |}.
Definition set_readers (rs : list (option N)) (cap : N) (mem : list N) (count : N)
    (s : State) : State :=
  {| first := first s; rest := rest s; rest_capacity := rest_capacity s;
     rest_memory := rest_memory s; base := base s; next := next s;
     readers := rs; readers_capacity := cap; readers_memory := mem; receiver_count := count;
     closed := closed s |}.
Definition set_closed (s : State) : State :=
  {| first := first s; rest := rest s; rest_capacity := rest_capacity s;
     rest_memory := rest_memory s; base := base s; next := next s;
     readers := readers s; readers_capacity := readers_capacity s;
     readers_memory := readers_memory s; receiver_count := receiver_count s;
     closed := true |}.

Definition drop_event (e : E) (h : Heap) : Heap :=
  match lease e with Some id => drop_lease id h | None => h end.
Definition clone_event (e : E) (h : Heap) : Heap :=
  match lease e with Some id => clone_lease id h | None => h end.

(** [Sender::new]: [None] when the shared cell itself cannot be funded. *)
Definition sender_new (size_of_shared : N) (h : Heap) : Heap * option (State * N) :=
  match checked_add size_of_shared (2 * 8) with
  | None => (h, None)
  | Some bytes =>
      match reserve bytes h with
      | (h, Some memory) => (h, Some (new_state, memory))
      | (h, None) => (h, None)
      end
  end.

Fixpoint free_slot (rs : list (option N)) : option nat :=
  match rs with
  | [] => None
  | None :: _ => Some O
  | Some _ :: rs => S <$> free_slot rs
  end.

(** The journal, the heap and the reader index handed out. *)
Definition subscribe (s : State) (h : Heap) : outcome (State * Heap * option nat) :=
  if closed s then Ret (s, h, None) else
  let claim (s : State) (h : Heap) (reader : nat) : outcome (State * Heap * option nat) :=
    let! count := plus_u64 (receiver_count s) 1 in
    Ret (set_readers (<[reader := Some (next s)]> (readers s)) (readers_capacity s)
           (readers_memory s) count s, h, Some reader) in
  match free_slot (readers s) with
  | Some index => claim s h index
  | None =>
      let push (s : State) (h : Heap) :=
        claim (set_readers (readers s ++ [None]) (readers_capacity s) (readers_memory s)
                 (receiver_count s) s) h (length (readers s)) in
      if decide (len (readers s) = readers_capacity s) then
        match checked_mul (readers_capacity s) 2 with
        | None => Ret (s, h, None)
        | Some doubled =>
            match funded size_of_reader (N.max doubled 1) h with
            | (h, None) => Ret (s, h, None)
            | (h, Some (actual, memory)) =>
                let h := drop_permits (readers_memory s) h in
                push (set_readers (readers s) actual memory (receiver_count s) s) h
            end
        end
      else push s h
  end.

(** [State::retire]: whether an output fact was retired. *)
Definition retire (s : State) (h : Heap) : outcome (State * Heap * bool) :=
  match first s with
  | None => Ret (s, h, false)
  | Some retired =>
      let! b := plus_u64 (base s) 1 in
      match rest s with
      | e :: rest =>
          Ret (set_queue (Some e) rest (rest_capacity s) (rest_memory s) b (next s) s,
               drop_event retired h, is_output retired)
      | [] =>
          Ret (set_queue None [] 0 [] b (next s) s,
               drop_event retired (drop_permits (rest_memory s) h), is_output retired)
      end
  end.

(** [while self.base < through { self.retire(); }] *)
Fixpoint reclaim_to (fuel : nat) (through : N) (s : State) (h : Heap) : outcome (State * Heap) :=
  if decide (base s < through) then
    match fuel with
    | O => Panic "out of fuel"
    | S fuel => let! '(s, h, _) := retire s h in reclaim_to fuel through s h
    end
  else Ret (s, h).

Definition through_of (rs : list (option N)) (next : N) : N :=
  match omap id rs with
  | [] => next
  | p :: ps => foldr N.min p ps
  end.
Definition reclaim (s : State) (h : Heap) : outcome (State * Heap) :=
  reclaim_to (S (length (rest s))) (through_of (readers s) (next s)) s h.

(** The [loop] of [prepare]: a refused reservation retires the oldest event. *)
Fixpoint reserve_retiring (fuel : nat) (bytes : N) (retired : bool) (s : State) (h : Heap)
    : outcome (State * Heap * bool * option N) :=
  match reserve bytes h with
  | (h, Some memory) => Ret (s, h, retired, Some memory)
  | (h, None) =>
      match first s with
      | None => Ret (s, h, retired, None)
      | Some _ =>
          match fuel with
          | O => Panic "out of fuel"
          | S fuel =>
              let! '(s, h, r) := retire s h in
              reserve_retiring fuel bytes (retired || r) s h
          end
      end
  end.

Record Prepared := { memory : option N; retired_output : bool }.

Definition prepare (allocation : option N) (s : State) (h : Heap)
    : outcome (State * Heap * Prepared) :=
  let! '(s, h) := reclaim s h in
  let! '(s, h, retired) :=
    if bool_decide (is_Some (first s)) && bool_decide (len (rest s) = rest_capacity s) then
      let grown := match checked_mul (rest_capacity s) 2 with
                   | None => (h, None)
                   | Some doubled => funded size_of_event (N.max doubled 1) h
                   end in
      match grown with
      | (h, Some (actual, memory)) =>
          Ret (set_queue (first s) (rest s) actual memory (base s) (next s) s,
               drop_permits (rest_memory s) h, false)
      | (h, None) => retire s h
      end
    else Ret (s, h, false) in
  match allocation with
  | None => Ret (s, h, {| memory := None; retired_output := retired |})
  | Some bytes =>
      let! '(s, h, retired, memory) :=
        reserve_retiring (S (length (rest s))) bytes retired s h in
      Ret (s, h, {| memory := memory; retired_output := retired |})
  end.

Definition send (e : E) (s : State) (h : Heap) : outcome (State * Heap) :=
  if closed s || bool_decide (receiver_count s = 0) then Ret (s, drop_event e h) else
  let! n := expect "event sequence remains representable" (checked_add (next s) 1) in
  match first s with
  | None => Ret (set_queue (Some e) (rest s) (rest_capacity s) (rest_memory s) (base s) n s, h)
  | Some _ =>
      let! _ := check "assertion failed: state.rest.len() < state.rest.capacity()"
                  (bool_decide (len (rest s) < rest_capacity s)) in
      Ret (set_queue (first s) (rest s ++ [e]) (rest_capacity s) (rest_memory s)
             (base s) n s, h)
  end.

(** [Drop for Sender]. *)
Definition drop_sender (s : State) : State := set_closed s.

Definition reader_at (s : State) (reader : nat) : outcome N :=
  match readers s !! reader with
  | Some (Some p) => Ret p
  | Some None => Panic "registered live receiver"
  | None => Panic "index out of bounds"
  end.
Definition set_reader (reader : nat) (p : option N) (s : State) : State :=
  set_readers (<[reader := p]> (readers s)) (readers_capacity s) (readers_memory s)
    (receiver_count s) s.

Definition try_recv (reader : nat) (s : State) (h : Heap)
    : outcome (State * Heap * result E TryRecvError) :=
  let! position := reader_at s reader in
  if decide (position < base s) then
    Ret (set_reader reader (Some (base s)) s, h, Err (Lagged (base s - position)))
  else if decide (position = next s) then
    Ret (s, h, Err (if closed s then Closed else Empty))
  else
    let offset := N.to_nat (position - base s) in
    let! e := match offset with
              | O => expect "retained first event" (first s)
              | S i => expect "Out of bounds access" (rest s !! i)
              end in
    let h := clone_event e h in
    let! p := plus_u64 position 1 in
    let! '(s, h) := reclaim (set_reader reader (Some p) s) h in
    Ret (s, h, Ok e).

(** [Drop for Receiver]. *)
Definition drop_receiver (reader : nat) (s : State) (h : Heap) : outcome (State * Heap) :=
  let! _ := reader_at s reader in
  let! count := minus_u64 (receiver_count s) 1 in
  let s := set_readers (<[reader := None]> (readers s)) (readers_capacity s)
             (readers_memory s) count s in
  let! '(s, h) := reclaim s h in
  if decide (count = 0)
  then Ret (set_readers [] 0 [] count s, drop_permits (readers_memory s) h)
  else Ret (s, h).
End journal.
Arguments State E : clear implicits.
