(* ===== verification/LiveEventJournalSpec.v ===== *)
(** * Live event journal: specification

    The abstract view of a journal is the history of every event sent while a
    receiver existed, and each receiver's position in it.  The retained queue is
    always a suffix of the history; a receiver reads the history at its position
    or is told exactly how many events it missed. *)

From S2P Require Import Prelude.
From S2P Require Import Protocol.
From S2P Require Import Resources.
From S2P Require Import LiveEventJournal.

Section spec.
Context {E : Type} (is_output : E → bool) (lease : E → option N).
Context `{!Allocator}.
Implicit Types (s : State E) (h : Heap) (hist : list E).

Definition queue s : list E := option_list (first s) ++ rest s.

Record jwf hist s : Prop := {
  j_queue : queue s = dropN (base s) hist;
  j_first : first s = None → rest s = [];
  j_next : next s = len hist;
  j_base : base s ≤ next s;
  j_max : next s ≤ u64_max;
  j_cap : len (rest s) ≤ rest_capacity s;
  j_readers : Forall (λ p, p ≤ next s) (omap id (readers s));
  j_count : receiver_count s = len (omap id (readers s));
}.

(** What queue operations leave alone. *)
Definition same_readers s s' : Prop :=
  readers s' = readers s ∧ readers_capacity s' = readers_capacity s ∧
  readers_memory s' = readers_memory s ∧ receiver_count s' = receiver_count s ∧
  closed s' = closed s ∧ next s' = next s.

Lemma same_readers_trans s1 s2 s3 :
  same_readers s1 s2 → same_readers s2 s3 → same_readers s1 s3.
Proof. unfold same_readers. naive_solver congruence. Qed.

Lemma queue_len hist s : jwf hist s → len (queue s) + base s = next s.
Proof. intros []. rewrite j_queue0, len_dropN. lia. Qed.

Definition roomy s : Prop := first s = None ∨ len (rest s) < rest_capacity s.

Lemma retire_ok hist s h e :
  jwf hist s → first s = Some e →
  ∃ s' h', retire is_output lease s h = Ret (s', h', is_output e) ∧ jwf hist s' ∧
    base s' = base s + 1 ∧ same_readers s s' ∧ roomy s' ∧
    hist !! N.to_nat (base s) = Some e ∧ (length (rest s') ≤ length (rest s) - 1)%nat.
Proof.
  intros Hwf He. pose proof (queue_len _ _ Hwf) as Hlen. destruct Hwf.
  unfold retire, queue in *. rewrite He in *. simpl in *. rewrite len_cons in Hlen.
  rewrite plus_u64_ok by lia. cbn [obind].
  assert (hist !! N.to_nat (base s) = Some e) as Hhist.
  { rewrite <-(Nat.add_0_r (N.to_nat (base s))), <-lookup_drop.
    unfold dropN in j_queue0. by rewrite <-j_queue0. }
  assert (dropN (base s + 1) hist = rest s) as Htail.
  { rewrite <-dropN_dropN, <-j_queue0. done. }
  destruct (rest s) as [|e' r] eqn:Hr; eexists _, _; (split; [reflexivity|]).
  - split; [constructor; simpl; unfold queue; simpl; done || lia|].
    split_and!; try done. by left.
  - rewrite !len_cons in *. split; [constructor; simpl; unfold queue; simpl; done || lia|].
    split_and!; try done; [right; simpl; lia|simpl; lia].
Qed.

Lemma through_of_spec (rs : list (option N)) n :
  Forall (λ p, p ≤ n) (omap id rs) →
  through_of rs n ≤ n ∧ ∀ p, p ∈ omap id rs → through_of rs n ≤ p.
Proof.
  unfold through_of. destruct (omap id rs) as [|q qs]; [intros; split; [lia|set_solver]|].
  intros [Hq Hqs]%Forall_cons.
  assert (∀ qs, foldr N.min q qs ≤ q ∧ ∀ p, p ∈ qs → foldr N.min q qs ≤ p) as Hm.
  { clear. induction qs as [|x qs [IH1 IH2]]; simpl; [split; [lia|set_solver]|].
    split; [lia|]. intros p [->|Hp]%elem_of_cons; [lia|]. specialize (IH2 p Hp). lia. }
  destruct (Hm qs) as [H1 H2]. split; [lia|]. intros p [->|Hp]%elem_of_cons; auto.
Qed.

Lemma reclaim_to_ok fuel hist through s h :
  jwf hist s → through ≤ next s → (length (rest s) < fuel)%nat →
  ∃ s' h', reclaim_to is_output lease fuel through s h = Ret (s', h') ∧ jwf hist s' ∧
    base s' = N.max (base s) through ∧ same_readers s s' ∧
    (length (rest s') ≤ length (rest s))%nat ∧ (roomy s → roomy s').
Proof.
  revert s h. induction fuel as [|fuel IH]; intros s h Hwf Ht Hf; [lia|]. simpl.
  case_decide as Hlt.
  2:{ exists s, h. split_and!; try done. lia. }
  destruct (first s) as [e|] eqn:He.
  2:{ pose proof (queue_len _ _ Hwf) as Hl. unfold queue in Hl. rewrite He in Hl. simpl in Hl.
      rewrite (j_first _ _ Hwf He), len_nil in Hl. lia. }
  destruct (retire_ok hist s h e Hwf He) as (s1 & h1 & -> & Hwf1 & Hb & Hsame & Hroom & _ & Hl).
  cbn [obind].
  destruct (decide (through ≤ base s1)) as [Hdone|Hmore].
  { exists s1, h1. split; [destruct fuel; simpl; by rewrite decide_False by lia|].
    split_and!; try done; lia. }
  destruct (rest s) as [|e' r] eqn:Hr.
  { pose proof (queue_len _ _ Hwf) as Hq. unfold queue in Hq. rewrite He, Hr in Hq.
    simpl in Hq. rewrite len_cons, len_nil in Hq. lia. }
  simpl in Hl, Hf. destruct (IH s1 h1) as (s2 & h2 & -> & Hwf2 & Hb2 & Hs2 & Hl2 & Hroom2);
    [done|destruct Hsame as (_ & _ & _ & _ & _ & ->); done|lia|].
  exists s2, h2. split_and!; try done; [lia|by eapply same_readers_trans|simpl; lia|auto].
Qed.

Lemma reclaim_ok hist s h :
  jwf hist s →
  ∃ s' h', reclaim is_output lease s h = Ret (s', h') ∧ jwf hist s' ∧
    base s' = N.max (base s) (through_of (readers s) (next s)) ∧ same_readers s s' ∧
    (length (rest s') ≤ length (rest s))%nat ∧ (roomy s → roomy s').
Proof.
  intros Hwf. apply reclaim_to_ok; [done| |lia].
  exact (proj1 (through_of_spec _ _ (j_readers _ _ Hwf))).
Qed.

(** The events retired by funding pressure while the base moves by [k]. *)
Definition pressured hist (from k : N) : bool := existsb is_output (takeN k (dropN from hist)).

Lemma pressured_cons hist b k e :
  hist !! N.to_nat b = Some e →
  pressured hist b (k + 1) = is_output e || pressured hist (b + 1) k.
Proof.
  intros He. unfold pressured, takeN, dropN. rewrite (drop_S _ _ _ He).
  replace (N.to_nat (k + 1)) with (S (N.to_nat k)) by lia.
  by replace (N.to_nat (b + 1)) with (S (N.to_nat b)) by lia.
Qed.

Lemma reserve_retiring_ok fuel bytes r hist s h :
  jwf hist s → roomy s → (length (rest s) < fuel)%nat →
  ∃ s' h' k m, reserve_retiring is_output lease fuel bytes r s h =
      Ret (s', h', r || pressured hist (base s) k, m) ∧
    jwf hist s' ∧ roomy s' ∧ base s' = base s + k ∧ same_readers s s' ∧
    (m = None → first s' = None).
Proof.
  revert r s h. induction fuel as [|fuel IH]; intros r s h Hwf Hroom Hf; [lia|]. simpl.
  assert (pressured hist (base s) 0 = false) as H0 by done.
  destruct (reserve bytes h) as [h1 [m|]].
  { exists s, h1, 0, (Some m). rewrite H0, orb_false_r, N.add_0_r. by split_and!. }
  destruct (first s) as [e|] eqn:He.
  2:{ exists s, h1, 0, None. rewrite H0, orb_false_r, N.add_0_r. by split_and!. }
  destruct (retire_ok hist s h1 e Hwf He) as (s1 & h2 & -> & Hwf1 & Hb & Hsame & Hroom1 & Hh & Hl).
  cbn [obind]. destruct (first s1) as [e1|] eqn:He1.
  - assert (length (rest s1) < fuel)%nat as Hf1.
    { destruct (rest s) eqn:Hr; [|simpl in *; lia].
      pose proof (queue_len _ _ Hwf) as Hq. pose proof (queue_len _ _ Hwf1) as Hq1.
      unfold queue in *. rewrite He, Hr in Hq. rewrite He1 in Hq1. simpl in *.
      rewrite len_cons in *. rewrite len_nil in Hq.
      destruct Hsame as (_ & _ & _ & _ & _ & Hn). lia. }
    destruct (IH (r || is_output e) s1 h2 Hwf1 Hroom1 Hf1)
      as (s2 & h3 & k & m & -> & Hwf2 & Hroom2 & Hb2 & Hs2 & Hm).
    exists s2, h3, (k + 1), m. rewrite (pressured_cons _ _ _ e) by done.
    rewrite orb_assoc, Hb. split_and!; try done; [lia|by eapply same_readers_trans].
  - assert (∀ r', reserve_retiring is_output lease fuel bytes r' s1 h2 =
      let '(h3, m) := reserve bytes h2 in Ret (s1, h3, r', m)) as ->.
    { intros r'. destruct fuel; simpl; destruct (reserve bytes h2) as [h3 [m|]];
        rewrite ?He1; done. }
    destruct (reserve bytes h2) as [h3 m]. exists s1, h3, 1, m.
    rewrite (pressured_cons _ _ 0 e) by done.
    change (pressured hist (base s + 1) 0) with false. rewrite orb_false_r. by split_and!.
Qed.

Lemma jwf_set_rest hist s cap mem :
  jwf hist s → len (rest s) ≤ cap →
  jwf hist (set_queue (first s) (rest s) cap mem (base s) (next s) s).
Proof. intros [] ?. by constructor. Qed.

Lemma funded_cap size cap h h' actual mem :
  funded size cap h = (h', Some (actual, mem)) → cap ≤ actual.
Proof.
  unfold funded. destruct (checked_mul cap size); [|done].
  destruct (reserve _ h) as [h1 [p|]]; [|done].
  destruct (alloc_capacity cap) as [a|]; [|done].
  destruct (checked_sub a cap) as [x|] eqn:Hx; simpl; [|done].
  apply checked_sub_Some in Hx as [_ Hx].
  destruct (checked_mul x size); [|done]. case_decide; [naive_solver|].
  destruct (reserve _ h1) as [? [?|]]; naive_solver.
Qed.

Lemma prepare_ok allocation hist s h :
  jwf hist s →
  ∃ s' h' k p, prepare is_output lease allocation s h = Ret (s', h', p) ∧
    jwf hist s' ∧ roomy s' ∧ same_readers s s' ∧
    base s' = N.max (base s) (through_of (readers s) (next s)) + k ∧
    retired_output p = pressured hist (N.max (base s) (through_of (readers s) (next s))) k ∧
    (allocation ≠ None → memory p = None → first s' = None) ∧
    (allocation = None → memory p = None).
Proof.
  intros Hwf. destruct (reclaim_ok hist s h Hwf) as (s1 & h1 & Hrec & Hwf1 & Hb1 & Hs1 & _ & _).
  unfold prepare. rewrite Hrec. cbn [obind]. rewrite <-Hb1.
  (** Slot growth or one retirement. *)
  assert (∃ s2 h2 k r,
    (if bool_decide (is_Some (first s1)) && bool_decide (len (rest s1) = rest_capacity s1) then
       match match checked_mul (rest_capacity s1) 2 with
             | None => (h1, None)
             | Some doubled => funded size_of_event (N.max doubled 1) h1
             end with
       | (h, Some (actual, memory)) =>
           Ret (set_queue (first s1) (rest s1) actual memory (base s1) (next s1) s1,
                drop_permits (rest_memory s1) h, false)
       | (h, None) => retire is_output lease s1 h
       end
     else Ret (s1, h1, false)) = Ret (s2, h2, r) ∧
    jwf hist s2 ∧ roomy s2 ∧ same_readers s1 s2 ∧ base s2 = base s1 + k ∧
    r = pressured hist (base s1) k) as (s2 & h2 & k2 & r2 & -> & Hwf2 & Hroom2 & Hs2 & Hb2 & Hr2).
  { assert (pressured hist (base s1) 0 = false) as H0 by done.
    case_bool_decide as Hfirst; [case_bool_decide as Hfull|]; cbn [andb].
    - destruct (match checked_mul _ _ with None => _ | Some _ => _ end) as [h2 [[a m]|]] eqn:Hg.
      + assert (len (rest s1) < a) as Ha.
        { destruct (checked_mul _ 2) eqn:Hm; [|done]. apply funded_cap in Hg.
          apply checked_mul_Some in Hm as [-> _]. lia. }
        eexists _, _, 0, false. rewrite H0, N.add_0_r. split; [done|].
        split_and!; try done; [apply jwf_set_rest; [done|lia]|by right].
      + destruct Hfirst as [e He]. 
        destruct (retire_ok hist s1 h2 e Hwf1 He) as (s3 & h3 & -> & Hw & Hb & Hs & Hr & Hh & _).
        exists s3, h3, 1, (is_output e). rewrite (pressured_cons _ _ 0 e) by done.
        change (pressured hist (base s1 + 1) 0) with false. by rewrite orb_false_r.
    - exists s1, h1, 0, false. rewrite H0, N.add_0_r. split_and!; try done.
      right. pose proof (j_cap _ _ Hwf1). lia.
    - exists s1, h1, 0, false. rewrite H0, N.add_0_r. split_and!; try done.
      left. destruct (first s1); [|done]. exfalso. eauto. }
  cbn [obind]. destruct allocation as [bytes|].
  2:{ exists s2, h2, k2, {| memory := None; retired_output := r2 |}.
      split_and!; try done. by eapply same_readers_trans. }
  destruct (reserve_retiring_ok (S (length (rest s2))) bytes r2 hist s2 h2 Hwf2 Hroom2)
    as (s3 & h3 & k3 & m & -> & Hwf3 & Hroom3 & Hb3 & Hs3 & Hm); [lia|].
  cbn [obind]. exists s3, h3, (k2 + k3), {| memory := m; retired_output := r2 || pressured hist (base s2) k3 |}.
  split_and!; try done; [by do 2 (eapply same_readers_trans; [done|])|lia|].
  simpl. rewrite Hr2, Hb2. unfold pressured. rewrite <-existsb_app. f_equal.
  rewrite <-dropN_dropN. generalize (dropN (base s1) hist). intros l.
  rewrite <-(takeN_dropN k2 (takeN (k2 + k3) l)). f_equal.
  - rewrite takeN_takeN. f_equal. lia.
  - rewrite dropN_takeN. f_equal. lia.
Qed.

Lemma send_ok e hist s h :
  jwf hist s → roomy s → closed s = false → receiver_count s ≠ 0 → next s < u64_max →
  ∃ s', send lease e s h = Ret (s', h) ∧ jwf (hist ++ [e]) s' ∧ base s' = base s ∧
    readers s' = readers s ∧ closed s' = closed s ∧ receiver_count s' = receiver_count s.
Proof.
  intros Hwf Hroom Hc Hr Hn. pose proof (queue_len _ _ Hwf) as Hq.
  unfold send. rewrite Hc, bool_decide_eq_false_2 by done. cbn [orb].
  unfold checked_add. rewrite decide_True by lia. cbn [expect obind].
  assert (dropN (base s) (hist ++ [e]) = dropN (base s) hist ++ [e]) as Hd.
  { apply dropN_app_le. rewrite <-(j_next _ _ Hwf). apply Hwf. }
  assert (Forall (λ p, p ≤ next s + 1) (omap id (readers s))) as Hrs.
  { eapply Forall_impl; [apply Hwf|]. simpl. lia. }
  destruct (first s) as [e0|] eqn:Hf.
  - destruct Hroom as [?|Hroom]; [congruence|]. rewrite bool_decide_eq_true_2 by done. simpl.
    eexists. split; [reflexivity|]. destruct Hwf. split; [|done].
    constructor; simpl; unfold queue in *; simpl; rewrite ?Hd, <-?j_queue0, ?Hf; try done;
      try lia; rewrite ?len_app, ?len_cons, ?len_nil; lia.
  - eexists. split; [reflexivity|]. pose proof (j_first _ _ Hwf Hf) as Hrest. destruct Hwf.
    split; [|done].
    constructor; simpl; unfold queue in *; simpl; rewrite ?Hd, <-?j_queue0, ?Hf, ?Hrest; try done;
      try lia; rewrite ?len_app, ?len_cons, ?len_nil; try lia.
Qed.

Lemma send_inv e hist s s' h h' :
  jwf hist s → closed s = false → receiver_count s ≠ 0 → send lease e s h = Ret (s', h') →
  roomy s ∧ next s < u64_max.
Proof.
  intros Hwf Hc Hr. unfold send. rewrite Hc, bool_decide_eq_false_2 by done. cbn [orb].
  unfold checked_add. case_decide; [|done]. cbn [expect obind]. unfold roomy.
  destruct (first s); [|split; [by left|lia]]. case_bool_decide; [|done]. split; [by right|lia].
Qed.

(** *** Receivers *)

Lemma omap_readers_insert (rs : list (option N)) i p q :
  rs !! i = Some p →
  ∃ l1 l2, rs = l1 ++ p :: l2 ∧ <[i := q]> rs = l1 ++ q :: l2 ∧ length l1 = i.
Proof.
  intros Hp. exists (take i rs), (drop (S i) rs). split; [by rewrite take_drop_middle|].
  rewrite insert_take_drop by (by eapply lookup_lt_Some). split; [done|].
  rewrite length_take. apply lookup_lt_Some in Hp. lia.
Qed.

Lemma jwf_move hist s i p q :
  jwf hist s → readers s !! i = Some (Some p) → q ≤ next s →
  jwf hist (set_reader i (Some q) s).
Proof.
  intros [] Hp Hq. destruct (omap_readers_insert _ _ _ (Some q) Hp) as (l1 & l2 & E1 & E2 & _).
  rewrite E1 in j_readers0, j_count0. rewrite omap_app in *. simpl in *.
  constructor; simpl; rewrite ?E2, ?omap_app; simpl; try done.
  - rewrite !Forall_app, !Forall_cons in *. naive_solver.
  - rewrite j_count0, !len_app, !len_cons. done.
Qed.

Lemma through_below hist s i p :
  jwf hist s → readers s !! i = Some (Some p) → through_of (readers s) (next s) ≤ p.
Proof.
  intros Hwf Hp. apply through_of_spec; [apply Hwf|].
  apply list_elem_of_omap. exists (Some p). split; [by eapply list_elem_of_lookup_2|done].
Qed.

(** The abstract receive: the answer at position [p] of the history. *)
Definition receive hist (b : N) (is_closed : bool) (p : N) : N * result E TryRecvError :=
  if decide (p < b) then (b, Err (Lagged (b - p)))
  else match hist !! N.to_nat p with
       | Some e => (p + 1, Ok e)
       | None => (p, Err (if is_closed then Closed else Empty))
       end.

Lemma try_recv_ok hist s h i p :
  jwf hist s → readers s !! i = Some (Some p) →
  ∃ s' h', try_recv is_output lease i s h =
      Ret (s', h', (receive hist (base s) (closed s) p).2) ∧
    jwf hist s' ∧ readers s' = <[i := Some (receive hist (base s) (closed s) p).1]> (readers s) ∧
    base s' = N.max (base s)
      (if decide (base s ≤ p ∧ p < next s) then through_of (readers s') (next s) else 0) ∧
    closed s' = closed s ∧ next s' = next s ∧ (roomy s → roomy s').
Proof.
  intros Hwf Hp. unfold try_recv, reader_at, receive. rewrite Hp. cbn [obind].
  assert (p ≤ next s) as Hpn.
  { pose proof (j_readers _ _ Hwf) as Hall. rewrite Forall_forall in Hall. apply Hall.
    apply list_elem_of_omap. exists (Some p). split; [by eapply list_elem_of_lookup_2|done]. }
  pose proof (j_next _ _ Hwf) as Hnext. pose proof (j_max _ _ Hwf) as Hmax.
  pose proof (j_base _ _ Hwf) as Hbase.
  case_decide as Hlag.
  { eexists _, h. split; [done|]. split; [by eapply jwf_move|].
    rewrite (decide_False (P := _ ∧ _)) by lia. split_and!; try done. simpl. lia. }
  case_decide as Hend.
  { rewrite (lookup_ge_None_2 hist) by (unfold len in *; lia).
    exists s, h. split_and!; try done; [by rewrite list_insert_id|].
    rewrite (decide_False (P := _ ∧ _)) by lia. lia. }
  destruct (hist !! N.to_nat p) as [e|] eqn:He.
  2:{ apply lookup_ge_None in He. unfold len in *. lia. }
  assert (queue s !! N.to_nat (p - base s) = Some e) as Hq.
  { rewrite (j_queue _ _ Hwf). unfold dropN. rewrite lookup_drop. rewrite <-He. f_equal. lia. }
  assert (∃ f, first s = Some f) as [f Hf].
  { destruct (first s) as [f|] eqn:Hf; [by exists f|].
    unfold queue in Hq. rewrite Hf, (j_first _ _ Hwf Hf) in Hq. done. }
  unfold queue in Hq. rewrite Hf in *. simpl in Hq.
  assert (match N.to_nat (p - base s) with
          | O => expect "retained first event" (Some f)
          | S i => expect "Out of bounds access" (rest s !! i) end = Ret e) as ->.
  { destruct (N.to_nat (p - base s)); simpl in Hq; [by injection Hq as ->|]. by rewrite Hq. }
  cbn [obind]. rewrite plus_u64_ok by lia. cbn [obind].
  assert (jwf hist (set_reader i (Some (p + 1)) s)) as Hwf1.
  { eapply jwf_move; [done|done|lia]. }
  destruct (reclaim_ok hist _ (clone_event lease e h) Hwf1)
    as (s2 & h2 & -> & Hwf2 & Hb2 & (Hr2 & _ & _ & _ & Hc2 & Hn2) & _ & Hroom).
  cbn [obind]. exists s2, h2. split; [done|]. rewrite Hb2, Hr2, Hc2, Hn2. simpl.
  split_and!; try done. by rewrite decide_True by lia.
Qed.

(** What other threads may do between two sections of a publication. *)
Definition rstep s s' : Prop :=
  (∃ i h r h', try_recv is_output lease i s h = Ret (s', h', r)) ∨
  (∃ i h h', drop_receiver is_output lease i s h = Ret (s', h')).

Lemma reader_at_Some s i p :
  reader_at s i = Ret p → readers s !! i = Some (Some p).
Proof. unfold reader_at. destruct (readers s !! i) as [[q|]|]; naive_solver. Qed.

Lemma reader_counted hist s i p :
  jwf hist s → readers s !! i = Some (Some p) → receiver_count s ≠ 0.
Proof.
  intros Hwf Hp. rewrite (j_count _ _ Hwf). rewrite len_zero.
  intros Hnil. assert (p ∈ omap id (readers s)) as Hin; [|rewrite Hnil in Hin; set_solver].
  apply list_elem_of_omap. exists (Some p). split; [by eapply list_elem_of_lookup_2|done].
Qed.

Lemma free_slot_spec (rs : list (option N)) i :
  free_slot rs = Some i → rs !! i = Some None.
Proof.
  revert i. induction rs as [|[q|] rs IH]; intros i; simpl; [done| |].
  - destruct (free_slot rs) as [j|]; simpl; [|done]. intros [= <-]. by apply IH.
  - by intros [= <-].
Qed.

Lemma subscribe_ok hist s h :
  jwf hist s → receiver_count s < u64_max →
  ∃ s' h' o, subscribe s h = Ret (s', h', o) ∧ jwf hist s' ∧ next s' = next s ∧
    match o with
    | None => readers s' = readers s
    | Some i => closed s = false ∧ readers s' !! i = Some (Some (next s)) ∧
                (∀ q, readers s !! i ≠ Some (Some q)) ∧
                ∀ j q, j ≠ i → readers s' !! j = Some (Some q) → readers s !! j = Some (Some q)
    end.
Proof.
  intros Hwf Hc. pose proof Hwf as []. unfold subscribe.
  destruct (closed s) eqn:Hclosed; [by exists s, h, None|].
  destruct (free_slot (readers s)) as [i|] eqn:Hfree.
  { apply free_slot_spec in Hfree. rewrite plus_u64_ok by lia. cbn [obind].
    destruct (omap_readers_insert _ _ _ (Some (next s)) Hfree) as (l1 & l2 & E1 & E2 & E3).
    eexists _, h, (Some i). split; [done|]. simpl.
    split.
    { rewrite E1, omap_app in j_readers0, j_count0. simpl in j_readers0, j_count0.
      constructor; simpl; rewrite ?E2, ?omap_app; simpl; try done.
      - rewrite !Forall_app, !Forall_cons in *. naive_solver lia.
      - rewrite j_count0, !len_app, !len_cons. lia. }
    split_and!; try done; [by apply list_lookup_insert_eq, lookup_lt_is_Some; eauto|congruence|].
    intros j q Hj. by rewrite list_lookup_insert_ne. }
  assert (∀ h cap mem, ∃ s',
    (let! count := plus_u64 (receiver_count s) 1 in
     Ret (set_readers (<[length (readers s) := Some (next s)]> (readers s ++ [None]))
            cap mem count
            (set_readers (readers s ++ [None]) cap mem (receiver_count s) s), h,
          Some (length (readers s)))) = Ret (s', h, Some (length (readers s))) ∧
    jwf hist s' ∧ next s' = next s ∧ readers s' = readers s ++ [Some (next s)]) as Hpush.
  { intros h1 cap mem. rewrite plus_u64_ok by lia. cbn [obind]. eexists. split; [done|].
    rewrite (insert_app_r_alt _ _ (length (readers s))), Nat.sub_diag by lia. simpl.
    split_and!; try done. constructor; simpl; rewrite ?omap_app; simpl; try done.
    - rewrite Forall_app, Forall_cons. split_and!; [done|lia|by apply Forall_nil].
    - rewrite len_app, len_cons, len_nil. lia. }
  assert (∀ s', readers s' = readers s ++ [Some (next s)] →
    readers s' !! length (readers s) = Some (Some (next s)) ∧
    (∀ q, readers s !! length (readers s) ≠ Some (Some q)) ∧
    ∀ j q, j ≠ length (readers s) → readers s' !! j = Some (Some q) →
           readers s !! j = Some (Some q)) as Hread.
  { intros s' ->. split_and!.
    - by rewrite lookup_app_r, Nat.sub_diag by lia.
    - intros q Hq. apply lookup_lt_Some in Hq. lia.
    - intros j q Hj Hq. apply lookup_app_Some in Hq as [?|[? Hq]]; [done|].
      destruct (j - length (readers s))%nat eqn:Hd; [lia|]. done. }
  case_decide.
  - destruct (checked_mul (readers_capacity s) 2) as [d|]; [|by exists s, h, None].
    destruct (funded size_of_reader (N.max d 1) h) as [h1 [[a m]|]]; [|by exists s, h1, None].
    destruct (Hpush (drop_permits (readers_memory s) h1) a m) as (s' & Hrun & Hw & Hn & Hr).
    exists s', (drop_permits (readers_memory s) h1), (Some (length (readers s))).
    split; [exact Hrun|]. destruct (Hread s' Hr) as (? & ? & ?). by split_and!.
  - destruct (Hpush h (readers_capacity s) (readers_memory s)) as (s' & Hrun & Hw & Hn & Hr).
    exists s', h, (Some (length (readers s))).
    split; [exact Hrun|]. destruct (Hread s' Hr) as (? & ? & ?). by split_and!.
Qed.

Lemma drop_receiver_ok hist s h i p :
  jwf hist s → readers s !! i = Some (Some p) →
  ∃ s' h', drop_receiver is_output lease i s h = Ret (s', h') ∧ jwf hist s' ∧
    next s' = next s ∧ closed s' = closed s ∧ (roomy s → roomy s') ∧
    ∀ j q, readers s' !! j = Some (Some q) → j ≠ i ∧ readers s !! j = Some (Some q).
Proof.
  intros Hwf Hp. unfold drop_receiver, reader_at. rewrite Hp. cbn [obind].
  destruct (omap_readers_insert _ _ _ None Hp) as (l1 & l2 & E1 & E2 & E3).
  assert (0 < receiver_count s) as Hpos.
  { rewrite (j_count _ _ Hwf), E1, omap_app. simpl. rewrite len_app, len_cons. lia. }
  rewrite minus_u64_ok by lia. cbn [obind].
  set (s1 := set_readers _ _ _ _ s).
  assert (jwf hist s1) as Hwf1.
  { destruct Hwf. unfold s1.
    rewrite E1, omap_app in j_readers0, j_count0. simpl in j_readers0, j_count0.
    constructor; simpl; rewrite ?E2, ?omap_app; simpl; try done.
    - rewrite !Forall_app, !Forall_cons in *. naive_solver.
    - rewrite j_count0, !len_app, !len_cons. lia. }
  destruct (reclaim_ok hist s1 h Hwf1)
    as (s2 & h2 & -> & Hwf2 & Hb2 & (Hr2 & _ & _ & Hcnt & Hc2 & Hn2) & _ & Hroom).
  cbn [obind]. case_decide as Hz.
  - eexists _, _. split; [done|]. split; [|split; [done|split; [done|split; [exact Hroom|]]]].
    + destruct Hwf2. constructor; simpl; done.
    + intros j q. simpl. by rewrite lookup_nil.
  - exists s2, h2. split_and!; try done. intros j q. rewrite Hr2. simpl. intros Hj.
    destruct (decide (j = i)) as [->|Hne].
    + rewrite list_lookup_insert_eq in Hj; [done|]. by eapply lookup_lt_Some.
    + by rewrite list_lookup_insert_ne in Hj.
Qed.

Lemma receive_mono hist b c p : p ≤ (receive hist b c p).1.
Proof. unfold receive. case_decide; [simpl; lia|]. destruct (hist !! _); simpl; lia. Qed.

Lemma rstep_ok hist s s' :
  jwf hist s → rstep s s' →
  jwf hist s' ∧ next s' = next s ∧ closed s' = closed s ∧ (roomy s → roomy s') ∧
  receiver_count s ≠ 0 ∧
  ∀ i q, readers s' !! i = Some (Some q) → ∃ p, readers s !! i = Some (Some p) ∧ p ≤ q.
Proof.
  intros Hwf [(i & h & r & h' & Hrun)|(i & h & h' & Hrun)].
  - assert (∃ p, readers s !! i = Some (Some p)) as [p Hp].
    { unfold try_recv in Hrun. destruct (reader_at s i) as [p|] eqn:Hat; [|done].
      exists p. by apply reader_at_Some. }
    destruct (try_recv_ok hist s h i p Hwf Hp)
      as (s1 & h1 & Hrun1 & Hwf1 & Hrd & _ & Hc & Hn & Hroom).
    rewrite Hrun1 in Hrun. simplify_eq. split_and!; try done; [by eapply reader_counted|].
    intros j q. rewrite Hrd. destruct (decide (j = i)) as [->|Hne].
    + rewrite list_lookup_insert_eq by (by eapply lookup_lt_Some). intros [= <-].
      exists p. split; [done|]. apply receive_mono.
    + rewrite list_lookup_insert_ne by done. intros Hq. exists q. split; [done|lia].
  - assert (∃ p, readers s !! i = Some (Some p)) as [p Hp].
    { unfold drop_receiver in Hrun. destruct (reader_at s i) as [p|] eqn:Hat; [|done].
      exists p. by apply reader_at_Some. }
    destruct (drop_receiver_ok hist s h i p Hwf Hp)
      as (s1 & h1 & Hrun1 & Hwf1 & Hn & Hc & Hroom & Hrd).
    rewrite Hrun1 in Hrun. simplify_eq. split_and!; try done; [by eapply reader_counted|].
    intros j q Hq. exists q. apply Hrd in Hq as [_ Hq]. split; [done|lia].
Qed.

Lemma rsteps_ok hist s s' :
  jwf hist s → rtc rstep s s' →
  jwf hist s' ∧ next s' = next s ∧ closed s' = closed s ∧ (roomy s → roomy s') ∧
  (receiver_count s = 0 → s' = s) ∧
  ∀ i q, readers s' !! i = Some (Some q) → ∃ p, readers s !! i = Some (Some p) ∧ p ≤ q.
Proof.
  intros Hwf Hsteps. revert Hwf. induction Hsteps as [s|s1 s2 s3 H12 H23 IH]; intros Hwf.
  { split_and!; try done. intros i q Hq. exists q. split; [done|lia]. }
  destruct (rstep_ok hist s1 s2 Hwf H12) as (Hwf2 & Hn2 & Hc2 & Hroom2 & Hcnt & Hrd2).
  destruct (IH Hwf2) as (Hwf3 & Hn3 & Hc3 & Hroom3 & Hz & Hrd3).
  split_and!; [done|congruence|congruence|auto|done|].
  intros i q Hq. destruct (Hrd3 i q Hq) as (p & Hp & Hle).
  destruct (Hrd2 i p Hp) as (p' & Hp' & Hle'). exists p'. split; [done|lia].
Qed.
End spec.

(** ** Histories of one journal

    A step is one locked section by any of the threads that share the journal;
    the heap is arbitrary at every step, because the budget and the leases are
    shared with every other Run.  [logs] records, per live receiver, where it
    subscribed and what its receives returned. *)

Section history.
Context {E : Type} (is_output : E → bool) (lease : E → option N).
Context `{!Allocator}.

Record Sys := { hist : list E; journal : State E; logs : gmap nat (N * list (E + N)) }.

Definition initial : Sys := {| hist := []; journal := new_state; logs := ∅ |}.

Definition log_add (r : result E TryRecvError) (log : list (E + N)) : list (E + N) :=
  match r with
  | Ok e => log ++ [inl e]
  | Err (Lagged n) => log ++ [inr n]
  | Err _ => log
  end.

Inductive step : Sys → Sys → Prop :=
  | step_prepare allocation S h s1 h1 p :
      prepare is_output lease allocation (journal S) h = Ret (s1, h1, p) →
      step S {| hist := hist S; journal := s1; logs := logs S |}
  | step_send e S h s2 h3 :
      receiver_count (journal S) ≠ 0 → closed (journal S) = false →
      send lease e (journal S) h = Ret (s2, h3) →
      step S {| hist := hist S ++ [e]; journal := s2; logs := logs S |}
  | step_send_unheard e S h s2 h3 :
      receiver_count (journal S) = 0 →
      send lease e (journal S) h = Ret (s2, h3) →
      step S {| hist := hist S; journal := s2; logs := logs S |}
  | step_subscribe S h s1 h1 i :
      receiver_count (journal S) < u64_max →
      subscribe (journal S) h = Ret (s1, h1, Some i) →
      step S {| hist := hist S; journal := s1;
                logs := <[i := (next (journal S), [])]> (logs S) |}
  | step_receive S h i s1 h1 r start log :
      logs S !! i = Some (start, log) →
      try_recv is_output lease i (journal S) h = Ret (s1, h1, r) →
      step S {| hist := hist S; journal := s1; logs := <[i := (start, log_add r log)]> (logs S) |}
  | step_drop_receiver S h i p s1 h1 :
      readers (journal S) !! i = Some (Some p) →
      drop_receiver is_output lease i (journal S) h = Ret (s1, h1) →
      step S {| hist := hist S; journal := s1; logs := delete i (logs S) |}
  | step_drop_sender S :
      step S {| hist := hist S; journal := drop_sender (journal S); logs := logs S |}.

(** A log accounts for a segment of the history: each delivered event is the
    next one, each lag count skips that many. *)
Fixpoint covers (log : list (E + N)) (seg : list E) : Prop :=
  match log with
  | [] => seg = []
  | inl e :: log => ∃ seg', seg = e :: seg' ∧ covers log seg'
  | inr n :: log => n ≤ len seg ∧ covers log (dropN n seg)
  end.

Lemma covers_snoc_event log seg e : covers log seg → covers (log ++ [inl e]) (seg ++ [e]).
Proof.
  revert seg. induction log as [|[e'|n] log IH]; intros seg; simpl.
  - intros ->. by exists [].
  - intros (seg' & -> & Hc). exists (seg' ++ [e]). split; [done|]. by apply IH.
  - intros [Hn Hc]. rewrite dropN_app_le by done. split; [rewrite len_app; lia|]. by apply IH.
Qed.
Lemma covers_snoc_lag log seg more :
  covers log seg → covers (log ++ [inr (len more)]) (seg ++ more).
Proof.
  revert seg. induction log as [|[e'|n] log IH]; intros seg; simpl.
  - intros ->. split; [simpl; lia|]. by rewrite dropN_ge by (simpl; lia).
  - intros (seg' & -> & Hc). exists (seg' ++ more). split; [done|]. by apply IH.
  - intros [Hn Hc]. rewrite dropN_app_le by done. split; [rewrite len_app; lia|]. by apply IH.
Qed.

Definition reader_inv (S : Sys) : Prop :=
  ∀ i p, readers (journal S) !! i = Some (Some p) →
    ∃ start log, logs S !! i = Some (start, log) ∧ start ≤ p ∧
      covers log (takeN (p - start) (dropN start (hist S))).
Definition sys_inv (S : Sys) : Prop := jwf (hist S) (journal S) ∧ reader_inv S.

Lemma reader_pos (h : list E) (s : State E) i p : jwf h s → readers s !! i = Some (Some p) → p ≤ next s.
Proof.
  intros Hwf Hp. pose proof (j_readers _ _ Hwf) as Hall. rewrite Forall_forall in Hall. apply Hall.
  apply list_elem_of_omap. exists (Some p). split; [by eapply list_elem_of_lookup_2|done].
Qed.

Lemma receive_covers hist0 b c p start log :
  start ≤ p → p ≤ len hist0 → b ≤ len hist0 →
  covers log (takeN (p - start) (dropN start hist0)) →
  let '(p', r) := receive hist0 b c p in
  start ≤ p' ∧ covers (log_add r log) (takeN (p' - start) (dropN start hist0)).
Proof.
  intros Hs Hp Hb Hc. unfold receive. case_decide as Hlag; simpl.
  - split; [lia|].
    set (more := takeN (b - p) (dropN p hist0)).
    assert (len more = b - p) as <- by (unfold more; rewrite len_takeN, len_dropN; lia).
    assert (takeN (b - start) (dropN start hist0)
            = takeN (p - start) (dropN start hist0) ++ more) as ->.
    { unfold more. rewrite <-(takeN_dropN (p - start) (takeN (b - start) _)), takeN_takeN, dropN_takeN,
        dropN_dropN. f_equal; [f_equal; lia|]. f_equal; [lia|]. f_equal. lia. }
    by apply covers_snoc_lag.
  - destruct (hist0 !! N.to_nat p) as [e|] eqn:He; simpl.
    + split; [lia|].
      assert (takeN (p + 1 - start) (dropN start hist0)
              = takeN (p - start) (dropN start hist0) ++ [e]) as ->.
      { rewrite <-(takeN_dropN (p - start) (takeN (p + 1 - start) _)), takeN_takeN, dropN_takeN,
          dropN_dropN. f_equal; [f_equal; lia|].
        replace (start + (p - start)) with p by lia.
        replace (p + 1 - start - (p - start)) with 1 by lia.
        unfold dropN. by rewrite (drop_S _ _ _ He). }
      by apply covers_snoc_event.
    + by destruct c.
Qed.

Lemma step_inv S S' : step S S' → sys_inv S → sys_inv S'.
Proof.
  intros Hstep [Hwf Hr]. destruct Hstep as
    [al S h s1 h1 p Hprep|e S h s2 h3 Hcnt Hcl Hsend|e S h s2 h3 Hcnt Hsend|S h s1 h1 i Hlt Hsub
    |S h i s1 h1 r start log Hlog Hrecv|S h i p s1 h1 Hp Hdrop|S].
  - destruct (prepare_ok is_output lease al _ _ h Hwf)
      as (s1' & h1' & k & p' & Hrun & Hwf1 & _ & (Hrd & _) & _).
    rewrite Hrun in Hprep. simplify_eq. split; [done|].
    intros i q Hq. simpl in *. rewrite Hrd in Hq. by apply Hr.
  - destruct (send_inv lease e (hist S) (journal S) s2 h h3 Hwf Hcl Hcnt Hsend) as [Hroom Hn].
    destruct (send_ok lease e (hist S) (journal S) h Hwf Hroom Hcl Hcnt Hn)
      as (s2' & Hrun2 & Hwf2 & _ & Hrd2 & _).
    rewrite Hrun2 in Hsend. simplify_eq. split; [done|].
    intros i q Hq. simpl in *. rewrite Hrd2 in Hq.
    pose proof (reader_pos _ _ _ _ Hwf Hq) as Hpos. rewrite (j_next _ _ Hwf) in Hpos.
    destruct (Hr i q Hq) as (st & log & Hl & Hle & Hcov). exists st, log. split_and!; try done.
    rewrite dropN_app_le, takeN_app_le by (rewrite ?len_dropN; lia). done.
  - unfold send in Hsend. rewrite Hcnt, bool_decide_eq_true_2, orb_true_r in Hsend by done.
    simplify_eq. by split.
  - destruct (subscribe_ok (hist S) (journal S) h Hwf Hlt) as (s' & h' & o & Hrun & Hwf' & Hn & Ho).
    rewrite Hrun in Hsub. simplify_eq. destruct Ho as (_ & Hi & Hnew & Hold).
    split; [done|]. intros j q Hq. simpl in *. destruct (decide (j = i)) as [->|Hne].
    + rewrite Hi in Hq. simplify_eq. eexists _, []. rewrite lookup_insert_eq.
      split; [done|]. split; [lia|]. rewrite N.sub_diag. done.
    + rewrite lookup_insert_ne by done. eauto.
  - unfold try_recv in Hrecv.
    destruct (reader_at (journal S) i) as [p|] eqn:Hat; [|done].
    unfold reader_at in Hat. destruct (readers (journal S) !! i) as [[q|]|] eqn:Hp; simplify_eq.
    destruct (try_recv_ok is_output lease (hist S) (journal S) h i p Hwf Hp)
      as (s' & h' & Hrun & Hwf' & Hrd & _).
    unfold try_recv, reader_at in Hrun. rewrite Hp in Hrun. rewrite Hrun in Hrecv. simplify_eq.
    split; [done|]. simpl in *. intros j q. simpl. rewrite Hrd. intros Hq.
    destruct (decide (j = i)) as [->|Hne].
    + rewrite list_lookup_insert_eq in Hq by (by eapply lookup_lt_Some). simplify_eq.
      destruct (Hr i p Hp) as (st & lg & Hl & Hle & Hcov). simplify_eq.
      rewrite lookup_insert_eq.
      pose proof (reader_pos _ _ _ _ Hwf Hp) as Hpos. pose proof (j_base _ _ Hwf).
      rewrite (j_next _ _ Hwf) in *.
      pose proof (receive_covers (hist S) (base (journal S)) (closed (journal S)) p start log
                    Hle Hpos ltac:(done) Hcov) as Hrc.
      destruct (receive _ _ _ _) as [p' r]. simpl in *. eauto.
    + rewrite list_lookup_insert_ne in Hq by done. rewrite lookup_insert_ne by done. eauto.
  - destruct (drop_receiver_ok is_output lease (hist S) (journal S) h i p Hwf Hp)
      as (s' & h' & Hrun & Hwf' & Hn & _ & _ & Hrd).
    rewrite Hrun in Hdrop. simplify_eq. split; [done|]. intros j q Hq. simpl in *.
    apply Hrd in Hq as [Hne Hq]. rewrite lookup_delete_ne by done. eauto.
  - destruct Hwf. split; [by constructor|]. done.
Qed.

Lemma reachable_inv S : rtc step initial S → sys_inv S.
Proof.
  assert (sys_inv initial) as H0.
  { split; [constructor; simpl; done|]. by intros i p. }
  revert H0. generalize initial. induction 2; [done|]. eauto using step_inv.
Qed.
End history.

Section props.
Context {E : Type} (is_output : E → bool) (lease : E → option N).
Context `{!Allocator}.

(** In every reachable state each live receiver has been handed, since it
    subscribed, every event of the history in order, up to gaps whose length it
    was told exactly: nothing is lost silently, duplicated or reordered. *)
Theorem reader_accounts_for_every_event S i p
    (Hreach : rtc (step is_output lease) initial S)
    (Hp : readers (journal S) !! i = Some (Some p)) :
  ∃ start log, logs S !! i = Some (start, log) ∧ start ≤ p ≤ len (hist S) ∧
    covers log (takeN (p - start) (dropN start (hist S))).
Proof.
  destruct (reachable_inv is_output lease S Hreach) as [Hwf Hr].
  destruct (Hr i p Hp) as (start & log & Hl & Hle & Hc). exists start, log.
  pose proof (reader_pos _ _ _ _ Hwf Hp) as Hpos. rewrite (j_next _ _ Hwf) in Hpos. done.
Qed.

(** in every reachable state a receive does not panic and answers exactly
    the event at the receiver's position, the number of retired events it
    missed, or that nothing is pending; only this receiver moves. *)
Theorem try_recv_exact S i p h
    (Hreach : rtc (step is_output lease) initial S)
    (Hp : readers (journal S) !! i = Some (Some p)) :
  let '(p', answer) := receive (hist S) (base (journal S)) (closed (journal S)) p in
  ∃ s' h', try_recv is_output lease i (journal S) h = Ret (s', h', answer) ∧
    jwf (hist S) s' ∧ readers s' = <[i := Some p']> (readers (journal S)) ∧
    (∀ e, answer = Ok e → hist S !! N.to_nat p = Some e ∧ p' = p + 1) ∧
    (∀ n, answer = Err (Lagged n) → p' = p + n ∧ p' = base (journal S) ∧ 0 < n).
Proof.
  destruct (reachable_inv is_output lease S Hreach) as [Hwf _].
  destruct (try_recv_ok is_output lease (hist S) (journal S) h i p Hwf Hp)
    as (s' & h' & Hrun & Hwf' & Hrd & _).
  destruct (receive _ _ _ _) as [p' answer] eqn:Hrc. simpl in *.
  exists s', h'. split; [done|]. split; [done|]. split; [done|].
  unfold receive in Hrc. case_decide; [|destruct (hist S !! N.to_nat p) as [e|] eqn:He];
    simplify_eq.
  - split; [done|]. intros n [= <-]. lia.
  - split; [by intros e' [= <-]|done].
  - split; [done|]. intros n Hn. by destruct (closed (journal S)).
Qed.

(** preparing a publication does not panic, drops first what every
    receiver has read, then retires oldest-first only under funding pressure,
    reports an output loss exactly when a retired event carried output, and
    always leaves room, so that the send that follows appends its event. *)
Theorem prepare_then_send_exact S h allocation
    (Hreach : rtc (step is_output lease) initial S) :
  let read := N.max (base (journal S))
                (through_of (readers (journal S)) (next (journal S))) in
  ∃ s' h' p k, prepare is_output lease allocation (journal S) h = Ret (s', h', p) ∧
    queue s' = dropN (read + k) (hist S) ∧
    retired_output p = existsb is_output (takeN k (dropN read (hist S))) ∧
    (allocation ≠ None → memory p = None → queue s' = []) ∧
    ∀ e h2, closed (journal S) = false → receiver_count (journal S) ≠ 0 →
      next (journal S) < u64_max →
      ∃ s2, send lease e s' h2 = Ret (s2, h2) ∧ queue s2 = queue s' ++ [e].
Proof.
  intros read. destruct (reachable_inv is_output lease S Hreach) as [Hwf _].
  destruct (prepare_ok is_output lease allocation _ _ h Hwf)
    as (s1 & h1 & k & p & Hrun & Hwf1 & Hroom & Hsame & Hb & Hret & Hmem & _).
  fold read in Hb, Hret. exists s1, h1, p, k. split; [done|].
  destruct Hsame as (_ & _ & _ & Hcnt & Hcl & Hn). split_and!.
  - by rewrite (j_queue _ _ Hwf1), Hb.
  - done.
  - intros Ha Hm. unfold queue. pose proof (Hmem Ha Hm) as Hf.
    by rewrite Hf, (j_first _ _ Hwf1 Hf).
  - intros e h2 Hc Hr Hlt.
    destruct (send_ok lease e (hist S) s1 h2 Hwf1 Hroom) as (s2 & Hs & Hwf2 & Hb2 & _);
      [congruence..|lia|].
    exists s2. split; [done|]. rewrite (j_queue _ _ Hwf2), (j_queue _ _ Hwf1), Hb2.
    apply dropN_app_le. rewrite <-(j_next _ _ Hwf1). apply Hwf1.
Qed.
End props.

(** ** Evaluated instances: numbers as events, the odd ones being output *)

#[local] Instance sample_allocator : Allocator :=
  {| alloc_capacity c := Some c; size_of_reader := 16; size_of_event := 200 |}.
Definition sample_heap : Heap := {| budget := ByteBudget.new 4096; leases := ∅ |}.
Definition sample_output (n : nat) : bool := Nat.odd n.
Definition sample_lease (n : nat) : option N := None.

(** One receiver subscribed, two events sent, one received. *)
Definition sample_journal : Sys (E := nat) :=
  {| hist := [7; 8]%nat;
     journal := {| first := Some 8%nat; rest := []; rest_capacity := 1; rest_memory := [200];
                   base := 1; next := 2; readers := [Some 1]; readers_capacity := 1;
                   readers_memory := [16]; receiver_count := 1; closed := false |};
     logs := {[ 0%nat := (0, [inl 7%nat]) ]} |}.

Lemma sample_journal_reachable : rtc (step sample_output sample_lease) initial sample_journal.
Proof.
  eapply rtc_l.
  { eapply (step_subscribe _ _ _ sample_heap) with (i := 0%nat);
      [by vm_compute|vm_compute; reflexivity]. }
  eapply rtc_l.
  { eapply (step_prepare _ _ None _ sample_heap). vm_compute. reflexivity. }
  eapply rtc_l.
  { eapply (step_send _ _ 7%nat) with (h := sample_heap);
      [done|done|vm_compute; reflexivity]. }
  eapply rtc_l.
  { eapply (step_prepare _ _ None _ sample_heap). vm_compute. reflexivity. }
  eapply rtc_l.
  { eapply (step_send _ _ 8%nat) with (h := sample_heap);
      [done|done|vm_compute; reflexivity]. }
  eapply rtc_l.
  { eapply (step_receive _ _ _ sample_heap) with (i := 0%nat);
      [vm_compute; reflexivity|vm_compute; reflexivity]. }
  apply rtc_refl.
Defined.

Lemma reader_accounts_for_every_event_witness :
  ∃ start log, logs sample_journal !! 0%nat = Some (start, log) ∧
    covers log (takeN (1 - start) (dropN start [7; 8]%nat)).
Proof.
  destruct (reader_accounts_for_every_event sample_output sample_lease sample_journal 0 1
              sample_journal_reachable) as (start & log & Hl & _ & Hc); [done|].
  exists start, log. split; [exact Hl|exact Hc].
Defined.

Lemma try_recv_exact_witness :
  ∃ s' h', try_recv sample_output sample_lease 0 (journal sample_journal) sample_heap
             = Ret (s', h', Ok 8%nat).
Proof.
  destruct (try_recv_exact sample_output sample_lease sample_journal 0 1 sample_heap
              sample_journal_reachable eq_refl) as (s' & h' & Hrun & _).
  exists s', h'. exact Hrun.
Defined.

Lemma prepare_then_send_exact_witness :
  ∃ s' h' p k, prepare sample_output sample_lease None (journal sample_journal) sample_heap
                 = Ret (s', h', p) ∧ queue s' = dropN (1 + k) [7; 8]%nat.
Proof.
  destruct (prepare_then_send_exact sample_output sample_lease sample_journal sample_heap None
              sample_journal_reachable) as (s' & h' & p & k & Hrun & Hq & _).
  exists s', h', p, k. split; [exact Hrun|exact Hq].
Defined.
