(* ===== verification/LiveEvents.v ===== *)
(** * Live events

    [LiveEventOwner], its cursor and its publication path
    ([crates/ctxmux-daemon/src/lib.rs]): the client of [LiveEventJournal].  The
    owner's mutex serialises publication and subscription, so every operation
    here is one locked section over the owner's state and the shared heap. *)

From S2P Require Import Prelude.
From S2P Require Import Protocol.
From S2P Require Import Resources.
From S2P Require Import LiveEventJournal.

Record GapCauseRevisions := {
  rev_live_event_pressure : N;
  rev_source_discontinuity : N;
  rev_unknown : N;
}.

Definition bump (observed : bool) (revision : N) : outcome N :=
  if observed then expect "live gap cause revision remains representable" (checked_add revision 1)
  else Ret revision.

Module GapCauses.
Definition zero : GapCauseRevisions :=
  {| rev_live_event_pressure := 0; rev_source_discontinuity := 0; rev_unknown := 0 |}.
Definition record (causes : OutputGapCauses) (g : GapCauseRevisions) : outcome GapCauseRevisions :=
  let! p := bump (live_event_pressure causes) (rev_live_event_pressure g) in
  let! s := bump (source_discontinuity causes) (rev_source_discontinuity g) in
  let! u := bump (unknown_cause causes) (rev_unknown g) in
  Ret {| rev_live_event_pressure := p; rev_source_discontinuity := s; rev_unknown := u |}.
Definition since (g before : GapCauseRevisions) : OutputGapCauses :=
  {| live_event_pressure :=
       bool_decide (rev_live_event_pressure before < rev_live_event_pressure g);
     subscriber_lag := false;
     source_discontinuity :=
       bool_decide (rev_source_discontinuity before < rev_source_discontinuity g);
     terminal_catchup := false; geometry_lag := false; client_view_pressure := false;
     unknown_cause := bool_decide (rev_unknown before < rev_unknown g) |}.
End GapCauses.

Record LiveEventCursor := {
  output_bytes : N;
  output_discontinuity_revision : N;
  latest_output_discontinuity_byte : N;
  observation_revision : N;
  terminal_revision : N;
  resize_revision : N;
  service_revision : N;
  gap_causes : GapCauseRevisions;
}.

Definition zero_cursor : LiveEventCursor :=
  {| output_bytes := 0; output_discontinuity_revision := 0; latest_output_discontinuity_byte := 0;
     observation_revision := 0; terminal_revision := 0; resize_revision := 0;
     service_revision := 0; gap_causes := GapCauses.zero |}.

Definition discontinuity (revision latest : N) (causes : GapCauseRevisions) (c : LiveEventCursor) :=
  {| output_bytes := output_bytes c; output_discontinuity_revision := revision;
     latest_output_discontinuity_byte := latest;
     observation_revision := observation_revision c; terminal_revision := terminal_revision c;
     resize_revision := resize_revision c; service_revision := service_revision c;
     gap_causes := causes |}.

Definition record (event : RunEvent) (c : LiveEventCursor) : outcome LiveEventCursor :=
  match event with
  | OutputEvent chunk =>
      Ret {| output_bytes := N.max (output_bytes c) (end_byte chunk);
             output_discontinuity_revision := output_discontinuity_revision c;
             latest_output_discontinuity_byte := latest_output_discontinuity_byte c;
             observation_revision := observation_revision c;
             terminal_revision := terminal_revision c; resize_revision := resize_revision c;
             service_revision := service_revision c; gap_causes := gap_causes c |}
  | Gap latest causes =>
      let! r := expect "live output-discontinuity revision remains representable"
                  (checked_add (output_discontinuity_revision c) 1) in
      let! g := GapCauses.record causes (gap_causes c) in
      Ret (discontinuity r latest g c)
  | ExitedEvent _ | InterruptedEvent _ =>
      let! r := expect "live terminal revision remains representable"
                  (checked_add (terminal_revision c) 1) in
      Ret {| output_bytes := output_bytes c;
             output_discontinuity_revision := output_discontinuity_revision c;
             latest_output_discontinuity_byte := latest_output_discontinuity_byte c;
             observation_revision := observation_revision c; terminal_revision := r;
             resize_revision := resize_revision c; service_revision := service_revision c;
             gap_causes := gap_causes c |}
  | Tmux _ | ObservationDiscontinuity =>
      let! r := expect "live observation revision remains representable"
                  (checked_add (observation_revision c) 1) in
      Ret {| output_bytes := output_bytes c;
             output_discontinuity_revision := output_discontinuity_revision c;
             latest_output_discontinuity_byte := latest_output_discontinuity_byte c;
             observation_revision := r; terminal_revision := terminal_revision c;
             resize_revision := resize_revision c; service_revision := service_revision c;
             gap_causes := gap_causes c |}
  | Resized _ _ _ =>
      let! r := expect "live recoverable snapshot revision remains representable"
                  (checked_add (resize_revision c) 1) in
      Ret {| output_bytes := output_bytes c;
             output_discontinuity_revision := output_discontinuity_revision c;
             latest_output_discontinuity_byte := latest_output_discontinuity_byte c;
             observation_revision := observation_revision c;
             terminal_revision := terminal_revision c; resize_revision := r;
             service_revision := service_revision c; gap_causes := gap_causes c |}
  | ServiceChanged _ =>
      let! r := expect "live recoverable snapshot revision remains representable"
                  (checked_add (service_revision c) 1) in
      Ret {| output_bytes := output_bytes c;
             output_discontinuity_revision := output_discontinuity_revision c;
             latest_output_discontinuity_byte := latest_output_discontinuity_byte c;
             observation_revision := observation_revision c;
             terminal_revision := terminal_revision c; resize_revision := resize_revision c;
             service_revision := r; gap_causes := gap_causes c |}
  end.

(** A funded event is the lease of its allocation. *)
Inductive PublishedRunEvent :=
  | Funded (lease : N) (event : RunEvent)
  | OutputGapMarker (latest_output_bytes : N) (causes : OutputGapCauses)
  | ObservationDiscontinuityMarker
  | SnapshotNeeded.

Record LiveRunEvent := {
  published : PublishedRunEvent;
  before : LiveEventCursor;
  after : LiveEventCursor;
}.

Definition event_of (e : LiveRunEvent) : option RunEvent :=
  match published e with
  | Funded _ event => Some event
  | OutputGapMarker latest causes => Some (Gap latest causes)
  | ObservationDiscontinuityMarker => Some ObservationDiscontinuity
  | SnapshotNeeded => None
  end.
Definition is_output (e : LiveRunEvent) : bool :=
  match event_of e with Some (OutputEvent _) | Some (Gap _ _) => true | _ => false end.
Definition lease_of (e : LiveRunEvent) : option N :=
  match published e with Funded lease _ => Some lease | _ => None end.

Definition is_gap (e : RunEvent) : bool := match e with Gap _ _ => true | _ => false end.

(** Layout and buffer-capacity facts the publication charges. *)
Class EventLayout := {
  EVENT_ALLOCATION_BYTES : N;
  size_of_shared : N;
  payload_capacity : RunEvent → N;
}.

Section owner.
Context `{!Allocator, !EventLayout}.

Record LiveEventState := {
  sender : option (State LiveRunEvent);
  sender_memory : list N;
  cursor : LiveEventCursor;
  attachments : N;
}.
Definition set_sender (s : option (State LiveRunEvent)) (mem : list N) (n : N)
    (o : LiveEventState) : LiveEventState :=
  {| sender := s; sender_memory := mem; cursor := cursor o; attachments := n |}.

Definition owner_new : LiveEventState :=
  {| sender := None; sender_memory := []; cursor := zero_cursor; attachments := 0 |}.

(** The retirement facts reach the cursor before the event's own. *)
Definition pressure (c : LiveEventCursor) : outcome LiveEventCursor :=
  let! r := expect "live output-discontinuity revision remains representable"
              (checked_add (output_discontinuity_revision c) 1) in
  let! g := GapCauses.record OutputGapCauses.LIVE_EVENT_PRESSURE (gap_causes c) in
  Ret (discontinuity r (N.max (output_bytes c) (latest_output_discontinuity_byte c)) g c).

(** What an unfunded event becomes. *)
Definition degrade (event : RunEvent) : RunEvent :=
  match event with
  | OutputEvent chunk => Gap (end_byte chunk) OutputGapCauses.LIVE_EVENT_PRESSURE
  | Tmux _ => ObservationDiscontinuity
  | event => event
  end.

Definition marker (event : RunEvent) : PublishedRunEvent :=
  match event with
  | Gap latest causes => OutputGapMarker latest causes
  | ObservationDiscontinuity | Tmux _ => ObservationDiscontinuityMarker
  | _ => SnapshotNeeded
  end.

Definition heard (s : option (State LiveRunEvent)) : bool :=
  match s with Some s => bool_decide (0 < receiver_count s) | None => false end.

(** Receivers take the journal's own lock, so receives and receiver drops may
    run between the sections of one publication: [others] is what they do. *)
Definition interleave (others : State LiveRunEvent → Heap → outcome (State LiveRunEvent * Heap))
    (s : option (State LiveRunEvent)) (h : Heap) : outcome (option (State LiveRunEvent) * Heap) :=
  match s with
  | Some s => let! '(s, h) := others s h in Ret (Some s, h)
  | None => Ret (None, h)
  end.

Definition fund_event (event : RunEvent) (memory : option N) (h : Heap)
    : Heap * PublishedRunEvent :=
  match memory with
  | Some bytes =>
      let id := fresh (dom (leases h)) in
      ({| budget := budget h; leases := <[id := (1, bytes)]> (leases h) |}, Funded id event)
  | None => (h, marker event)
  end.

Definition publish
    (others1 others2 others3 : State LiveRunEvent → Heap → outcome (State LiveRunEvent * Heap))
    (event : RunEvent) (o : LiveEventState) (h : Heap) : outcome (LiveEventState * Heap) :=
  (** [receiver_count() > 0], then [prepare] *)
  let! '(s, h, prepared) :=
    if heard (sender o) then
      let! '(s, h) := interleave others1 (sender o) h in
      match s with
      | Some s =>
          let! '(s, h, p) :=
            prepare is_output lease_of
              (if is_gap event then None
               else Some (payload_capacity event +sat EVENT_ALLOCATION_BYTES)) s h in
          Ret (Some s, h, Some p)
      | None => Ret (None, h, None)
      end
    else Ret (sender o, h, None) in
  let! cur := if (match prepared with Some p => retired_output p | None => false end : bool)
              then pressure (cursor o) else Ret (cursor o) in
  let memory := prepared ≫= memory in
  let! '(s, h) := interleave others2 s h in
  let event := if bool_decide (memory = None) && negb (is_gap event) && heard s
               then degrade event else event in
  let before := cur in
  let! cur := record event cur in
  let! '(s, h) := interleave others3 s h in
  match s with
  | Some s =>
      let '(h, published) := fund_event event memory h in
      let! '(s, h) := send lease_of {| published := published; before := before; after := cur |} s h in
      Ret ({| sender := Some s; sender_memory := sender_memory o; cursor := cur;
              attachments := attachments o |}, h)
  | None =>
      Ret ({| sender := None; sender_memory := sender_memory o; cursor := cur;
              attachments := attachments o |}, h)
  end.

(** [Run::try_subscribe]: [None] is the exhausted live-event budget. *)
Definition try_subscribe (o : LiveEventState) (h : Heap)
    : outcome (LiveEventState * Heap * option (nat * LiveEventCursor)) :=
  match sender o with
  | Some s =>
      let! '(s, h, reader) := subscribe s h in
      match reader with
      | Some i =>
          Ret (set_sender (Some s) (sender_memory o) (wrapping_add (attachments o) 1) o, h,
               Some (i, cursor o))
      | None => Ret (set_sender (Some s) (sender_memory o) (attachments o) o, h, None)
      end
  | None =>
      match sender_new size_of_shared h with
      | (h, None) => Ret (o, h, None)
      | (h, Some (s, memory)) =>
          let! '(s, h, reader) := subscribe s h in
          match reader with
          | Some i =>
              Ret (set_sender (Some s) [memory] (wrapping_add (attachments o) 1) o, h,
                   Some (i, cursor o))
          | None => Ret (o, drop_permits (memory :: readers_memory s) h, None)
          end
      end
  end.

(** An attachment's locals drop in reverse order: its receiver, then its guard. *)
Definition detach (reader : nat) (o : LiveEventState) (h : Heap)
    : outcome (LiveEventState * Heap) :=
  match sender o with
  | None => Panic "an attachment keeps the sender alive"
  | Some s =>
      let! '(s, h) := drop_receiver is_output lease_of reader s h in
      let! _ := check "attachment count cannot underflow" (bool_decide (0 < attachments o)) in
      let n := wrapping_sub (attachments o) 1 in
      if decide (n = 0) then
        Ret (set_sender None [] n o,
             drop_permits (rest_memory s ++ readers_memory s ++ sender_memory o) h)
      else Ret (set_sender (Some s) (sender_memory o) n o, h)
  end.
End owner.
