(* ===== verification/LiveEventsSpec.v ===== *)
(** * Live events: specification

    Every live receiver's part of the journal is a chain of envelopes: each
    envelope's [before] cursor is its predecessor's [after], possibly advanced by
    the pressure facts of retired events, and its [after] records its own event.
    Cursors only grow, so a receiver that skipped envelopes sees what it lost in
    the next envelope's [before]. *)

From S2P Require Import Prelude.
From S2P Require Import Protocol.
From S2P Require Import Resources.
From S2P Require Import LiveEventJournal.
From S2P Require Import LiveEventJournalSpec.
From S2P Require Import LiveEvents.

(** ** The order of cursors *)

Record causes_le (a b : GapCauseRevisions) : Prop := {
  cle_pressure : rev_live_event_pressure a ≤ rev_live_event_pressure b;
  cle_source : rev_source_discontinuity a ≤ rev_source_discontinuity b;
  cle_unknown : rev_unknown a ≤ rev_unknown b;
}.
Record cursor_le (a b : LiveEventCursor) : Prop := {
  le_output : output_bytes a ≤ output_bytes b;
  le_discontinuity : output_discontinuity_revision a ≤ output_discontinuity_revision b;
  le_latest : output_discontinuity_revision a = output_discontinuity_revision b →
              latest_output_discontinuity_byte a = latest_output_discontinuity_byte b ∧
              gap_causes a = gap_causes b;
  le_observation : observation_revision a ≤ observation_revision b;
  le_terminal : terminal_revision a ≤ terminal_revision b;
  le_resize : resize_revision a ≤ resize_revision b;
  le_service : service_revision a ≤ service_revision b;
  le_causes : causes_le (gap_causes a) (gap_causes b);
}.

#[export] Instance causes_le_preorder : PreOrder causes_le.
Proof.
  split; [by constructor|]. intros a b c [] []. constructor; etrans; eauto.
Qed.
#[export] Instance cursor_le_preorder : PreOrder cursor_le.
Proof.
  split; [by constructor|]. intros a b c [] [].
  constructor; try (etrans; eassumption). intros Heq.
  assert (output_discontinuity_revision a = output_discontinuity_revision b) as Hab by lia.
  assert (output_discontinuity_revision b = output_discontinuity_revision c) as Hbc by lia.
  destruct (le_latest0 Hab), (le_latest1 Hbc). split; congruence.
Qed.

Lemma bump_ok observed r r' : bump observed r = Ret r' → r ≤ r' ∧ (observed = true → r < r').
Proof.
  unfold bump. destruct observed; [|intros [= ->]; lia]. unfold expect, checked_add.
  case_decide; [|done]. intros [= <-]. lia.
Qed.

Lemma causes_record_ok causes g g' :
  GapCauses.record causes g = Ret g' →
  causes_le g g' ∧
  (live_event_pressure causes = true → rev_live_event_pressure g < rev_live_event_pressure g') ∧
  (source_discontinuity causes = true → rev_source_discontinuity g < rev_source_discontinuity g').
Proof.
  unfold GapCauses.record.
  destruct (bump _ (rev_live_event_pressure g)) as [p|] eqn:Hp; simpl; [|done].
  destruct (bump _ (rev_source_discontinuity g)) as [s|] eqn:Hs; simpl; [|done].
  destruct (bump _ (rev_unknown g)) as [u|] eqn:Hu; simpl; [|done]. intros [= <-].
  apply bump_ok in Hp as [? ?], Hs as [? ?], Hu as [? ?].
  split; [by constructor|]. by split.
Qed.

(** The fact an event leaves in the cursor. *)
Definition left_fact (event : RunEvent) (c c' : LiveEventCursor) : Prop :=
  match event with
  | OutputEvent chunk => output_bytes c' = N.max (output_bytes c) (end_byte chunk)
  | Gap latest causes =>
      output_discontinuity_revision c < output_discontinuity_revision c' ∧
      latest_output_discontinuity_byte c' = latest ∧ output_bytes c' = output_bytes c
  | ExitedEvent _ | InterruptedEvent _ => terminal_revision c < terminal_revision c'
  | Tmux _ | ObservationDiscontinuity => observation_revision c < observation_revision c'
  | Resized _ _ _ => resize_revision c < resize_revision c'
  | ServiceChanged _ => service_revision c < service_revision c'
  end.

Definition head_of (c : LiveEventCursor) : N :=
  N.max (output_bytes c) (latest_output_discontinuity_byte c).

Lemma record_ok event c c' :
  record event c = Ret c' → cursor_le c c' ∧ left_fact event c c' ∧
  (match event with
   | Gap _ _ => True
   | OutputEvent _ => latest_output_discontinuity_byte c' = latest_output_discontinuity_byte c
   | _ => head_of c' = head_of c
   end).
Proof.
  destruct event; cbn [record];
    try (unfold expect, checked_add; case_decide; cbn [obind]; [|done]).
  8:{ destruct (GapCauses.record causes (gap_causes c)) as [g|] eqn:Hg; cbn [obind]; [|done].
      apply causes_record_ok in Hg as [Hg _]. intros [= <-].
      split; [constructor; simpl; try done; lia|]. simpl. split_and!; done || lia. }
  all: intros [= <-]; split; [constructor; simpl; try done; try reflexivity; lia|];
    simpl; split_and!; done || lia.
Qed.

Lemma pressure_ok c c' :
  pressure c = Ret c' →
  cursor_le c c' ∧ output_discontinuity_revision c < output_discontinuity_revision c' ∧
  output_bytes c' = output_bytes c ∧ head_of c' = head_of c ∧
  latest_output_discontinuity_byte c' = head_of c ∧
  observation_revision c' = observation_revision c ∧ terminal_revision c' = terminal_revision c ∧
  rev_live_event_pressure (gap_causes c) < rev_live_event_pressure (gap_causes c').
Proof.
  unfold pressure, expect, checked_add. case_decide; cbn [obind]; [|done].
  destruct (GapCauses.record _ (gap_causes c)) as [g|] eqn:Hg; cbn [obind]; [|done].
  apply causes_record_ok in Hg as (Hg & Hp & _). intros [= <-].
  split; [constructor; simpl; try done; lia|]. unfold head_of. simpl. split_and!; auto; lia.
Qed.

(** ** Chains of envelopes *)

(** Which events an envelope's payload may stand for. *)
Definition carries (p : PublishedRunEvent) (event : RunEvent) : Prop :=
  match p with
  | Funded _ e => e = event
  | OutputGapMarker latest causes => event = Gap latest causes
  | ObservationDiscontinuityMarker => event = ObservationDiscontinuity
  | SnapshotNeeded =>
      match event with
      | ServiceChanged _ | Resized _ _ _ | ExitedEvent _ | InterruptedEvent _ => True
      | _ => False
      end
  end.

Definition follows (c : LiveEventCursor) (e : LiveRunEvent) : Prop :=
  (before e = c ∨ pressure c = Ret (before e)) ∧
  ∃ event, record event (before e) = Ret (after e) ∧ carries (published e) event.

Fixpoint linked (c : LiveEventCursor) (es : list LiveRunEvent) (c' : LiveEventCursor) : Prop :=
  match es with
  | [] => c = c'
  | e :: es => follows c e ∧ linked (after e) es c'
  end.

Lemma linked_snoc c es c' e : linked c es c' → follows c' e → linked c (es ++ [e]) (after e).
Proof.
  revert c. induction es as [|e' es IH]; intros c; simpl.
  - intros -> Hf. done.
  - intros [Hf Hl] He. auto.
Qed.

Lemma linked_app c es1 es2 c' :
  linked c (es1 ++ es2) c' ↔ ∃ m, linked c es1 m ∧ linked m es2 c'.
Proof.
  revert c. induction es1 as [|e es IH]; intros c; simpl; [naive_solver|].
  rewrite IH. naive_solver.
Qed.

Lemma follows_le c e : follows c e → cursor_le c (before e) ∧ cursor_le (before e) (after e).
Proof.
  intros [Hb (ev & Hr & _)]. split; [|by apply record_ok in Hr as [? _]].
  destruct Hb as [->|Hp]; [done|]. by apply pressure_ok in Hp as [? _].
Qed.
Lemma linked_le c es c' : linked c es c' → cursor_le c c'.
Proof.
  revert c. induction es as [|e es IH]; intros c; simpl; [by intros ->|].
  intros [Hf Hl]. apply follows_le in Hf as [? ?]. etrans; [|by apply IH]. by etrans.
Qed.

(** ** The owner's invariant *)

Section owner.
Context `{!Allocator, !EventLayout}.
Implicit Types (hist : list LiveRunEvent) (o : LiveEventState).

(** Where each live receiver subscribed, and the cursor it was given. *)
Definition readers_linked hist (subs : gmap nat (N * LiveEventCursor))
    (s : State LiveRunEvent) (c : LiveEventCursor) : Prop :=
  ∀ i p, readers s !! i = Some (Some p) →
    ∃ start c0, subs !! i = Some (start, c0) ∧ start ≤ p ∧ linked c0 (dropN start hist) c.

Definition owner_inv hist subs o : Prop :=
  match sender o with
  | Some s => jwf hist s ∧ closed s = false ∧ readers_linked hist subs s (cursor o)
  | None => True
  end.

(** What runs between the sections of one publication is receivers only, and
    they do not panic. *)
Definition receivers_only hist
    (others : State LiveRunEvent → Heap → outcome (State LiveRunEvent * Heap)) : Prop :=
  ∀ s h, jwf hist s → ∃ s' h', others s h = Ret (s', h') ∧ rtc (rstep is_output lease_of) s s'.

Definition cursor_room (c : LiveEventCursor) : Prop :=
  output_discontinuity_revision c + 2 ≤ u64_max ∧ observation_revision c + 1 ≤ u64_max ∧
  terminal_revision c + 1 ≤ u64_max ∧ resize_revision c + 1 ≤ u64_max ∧
  service_revision c + 1 ≤ u64_max ∧
  rev_live_event_pressure (gap_causes c) + 2 ≤ u64_max ∧
  rev_source_discontinuity (gap_causes c) + 1 ≤ u64_max ∧
  rev_unknown (gap_causes c) + 1 ≤ u64_max.

Lemma bump_total b r : r + 1 ≤ u64_max → ∃ r', bump b r = Ret r' ∧ r' ≤ r + 1.
Proof.
  intros. unfold bump. destruct b; [|exists r; split; [done|lia]].
  unfold checked_add. rewrite decide_True by done. simpl. eexists; split; [done|lia].
Qed.
Lemma causes_record_total causes g :
  rev_live_event_pressure g + 1 ≤ u64_max → rev_source_discontinuity g + 1 ≤ u64_max →
  rev_unknown g + 1 ≤ u64_max → ∃ g', GapCauses.record causes g = Ret g'.
Proof.
  intros Hp Hs Hu. unfold GapCauses.record.
  destruct (bump_total (live_event_pressure causes) _ Hp) as (p & -> & _).
  destruct (bump_total (source_discontinuity causes) _ Hs) as (s & -> & _).
  destruct (bump_total (unknown_cause causes) _ Hu) as (u & -> & _). by eexists.
Qed.
Lemma pressure_total c :
  cursor_room c → ∃ c', pressure c = Ret c' ∧
    output_discontinuity_revision c' + 1 ≤ u64_max ∧ observation_revision c' + 1 ≤ u64_max ∧
    terminal_revision c' + 1 ≤ u64_max ∧ resize_revision c' + 1 ≤ u64_max ∧
    service_revision c' + 1 ≤ u64_max ∧ rev_live_event_pressure (gap_causes c') + 1 ≤ u64_max ∧
    rev_source_discontinuity (gap_causes c') + 1 ≤ u64_max ∧
    rev_unknown (gap_causes c') + 1 ≤ u64_max.
Proof.
  intros (H1 & H2 & H3 & H4 & H5 & H6 & H7 & H8). unfold pressure, checked_add.
  rewrite decide_True by lia. cbn [expect obind]. unfold GapCauses.record. cbn -[N.add u64_max].
  unfold checked_add. rewrite decide_True by lia. cbn [expect obind].
  eexists. split; [done|]. simpl. lia.
Qed.
Lemma record_total ev c :
  output_discontinuity_revision c + 1 ≤ u64_max → observation_revision c + 1 ≤ u64_max →
  terminal_revision c + 1 ≤ u64_max → resize_revision c + 1 ≤ u64_max →
  service_revision c + 1 ≤ u64_max → rev_live_event_pressure (gap_causes c) + 1 ≤ u64_max →
  rev_source_discontinuity (gap_causes c) + 1 ≤ u64_max →
  rev_unknown (gap_causes c) + 1 ≤ u64_max → ∃ c', record ev c = Ret c'.
Proof.
  intros H1 H2 H3 H4 H5 H6 H7 H8.
  destruct ev; cbn [record]; unfold checked_add; rewrite ?decide_True by done;
    cbn [expect obind]; try by eexists.
  destruct (causes_record_total causes (gap_causes c)) as [g ->]; [done..|]. by eexists.
Qed.

Lemma readers_linked_mono hist subs s s' c :
  readers_linked hist subs s c →
  (∀ i q, readers s' !! i = Some (Some q) → ∃ p, readers s !! i = Some (Some p) ∧ p ≤ q) →
  readers_linked hist subs s' c.
Proof.
  intros Hl Hr i q Hq. destruct (Hr i q Hq) as (p & Hp & Hle).
  destruct (Hl i p Hp) as (st & c0 & Hs & Hst & Hlk). exists st, c0. split_and!; try done. lia.
Qed.

Lemma interleave_ok hist others s h :
  receivers_only hist others → jwf hist s →
  ∃ s' h', interleave others (Some s) h = Ret (Some s', h') ∧
    jwf hist s' ∧ next s' = next s ∧ closed s' = closed s ∧ (roomy s → roomy s') ∧
    (receiver_count s = 0 → s' = s) ∧
    (∀ i q, readers s' !! i = Some (Some q) → ∃ p, readers s !! i = Some (Some p) ∧ p ≤ q).
Proof.
  intros Ho Hwf. destruct (Ho s h Hwf) as (s' & h' & Hrun & Hsteps). unfold interleave.
  rewrite Hrun. cbn [obind]. exists s', h'. split; [done|]. by apply (rsteps_ok is_output lease_of).
Qed.

Definition carried_ok (ev : RunEvent) : Prop :=
  match ev with OutputEvent _ | Tmux _ => False | _ => True end.
Lemma marker_carries ev : carried_ok ev → carries (marker ev) ev.
Proof. by destruct ev. Qed.
Lemma degrade_carried ev : carried_ok (degrade ev).
Proof. by destruct ev. Qed.
Lemma is_gap_carried ev : is_gap ev = true → carried_ok ev.
Proof. by destruct ev. Qed.

Lemma fund_event_carries ev m h h' p :
  (m = None → carried_ok ev) → fund_event ev m h = (h', p) → carries p ev.
Proof.
  intros Hm. unfold fund_event. destruct m as [b|]; intros [= <- <-]; [done|].
  apply marker_carries. auto.
Qed.

(** The tail of a publication, from the prepared journal on. *)
Lemma send_linked hist subs s c c1 c2 ev m h :
  jwf hist s → closed s = false → next s < u64_max → readers_linked hist subs s c →
  (receiver_count s ≠ 0 → roomy s) →
  (c1 = c ∨ pressure c = Ret c1) → record ev c1 = Ret c2 →
  (receiver_count s ≠ 0 → m = None → carried_ok ev) →
  ∃ hist' s' h', (let '(h, published) := fund_event ev m h in
     send lease_of {| published := published; before := c1; after := c2 |} s h) = Ret (s', h') ∧
    jwf hist' s' ∧ closed s' = false ∧ readers_linked hist' subs s' c2 ∧
    (receiver_count s = 0 ∧ hist' = hist ∨
     ∃ e, hist' = hist ++ [e] ∧ before e = c1 ∧ after e = c2 ∧ carries (published e) ev).
Proof.
  intros Hwf Hcl Hn Hl Hroom Hc1 Hc2 Hm.
  destruct (fund_event ev m h) as [h1 p] eqn:Hf.
  destruct (decide (receiver_count s = 0)) as [Hz|Hz].
  { exists hist, s, (drop_event lease_of {| published := p; before := c1; after := c2 |} h1).
    split. { unfold send. rewrite Hz, bool_decide_eq_true_2, orb_true_r by done. done. }
    split; [done|]. split; [done|]. split; [|by left].
    intros i q Hq. by apply (reader_counted hist) in Hq. }
  assert (carries p ev) as Hcar by (eapply fund_event_carries; eauto).
  set (e := {| published := p; before := c1; after := c2 |}).
  destruct (send_ok lease_of e hist s h1 Hwf (Hroom Hz) Hcl Hz Hn)
    as (s' & -> & Hwf' & _ & Hrd & Hcl' & _).
  exists (hist ++ [e]), s', h1. split; [done|]. split; [done|]. split; [congruence|].
  split; [|right; by exists e].
  intros i q Hq. rewrite Hrd in Hq.
  destruct (Hl i q Hq) as (st & c0 & Hs & Hst & Hlk). exists st, c0. split; [done|].
  split; [done|]. pose proof (reader_pos _ _ _ _ Hwf Hq) as Hpos.
  rewrite (j_next _ _ Hwf) in Hpos. rewrite dropN_app_le by lia.
  apply (linked_snoc _ _ c e Hlk). split; [done|]. by exists ev.
Qed.

(** The sections up to and including [prepare]. *)
Lemma prepared_ok others event hist subs c s h :
  jwf hist s → closed s = false → readers_linked hist subs s c → receivers_only hist others →
  ∃ s1 h1 prepared,
    (if heard (Some s) then
       let! '(s, h) := interleave others (Some s) h in
       match s with
       | Some s =>
           let! '(s, h, p) :=
             prepare is_output lease_of
               (if is_gap event then None
                else Some (payload_capacity event +sat EVENT_ALLOCATION_BYTES)) s h in
           Ret (Some s, h, Some p)
       | None => Ret (None, h, None)
       end
     else Ret (Some s, h, None)) = Ret (Some s1, h1, prepared) ∧
    jwf hist s1 ∧ closed s1 = false ∧ next s1 = next s ∧
    readers_linked hist subs s1 c ∧ (receiver_count s1 ≠ 0 → roomy s1).
Proof.
  intros Hwf Hcl Hl H1.
  unfold heard. case_bool_decide as Hh.
  - destruct (interleave_ok hist others s h H1 Hwf)
        as (s0 & h0 & -> & Hwf0 & Hn0 & Hcl0 & _ & _ & Hr0).
      cbn [obind].
      destruct (prepare_ok is_output lease_of
                  (if is_gap event then None
                   else Some (payload_capacity event +sat EVENT_ALLOCATION_BYTES)) hist s0 h0 Hwf0)
        as (s1 & h1 & k & p & -> & Hwf1 & Hr1 & (Hrd & _ & _ & _ & Hc1 & Hn1) & _).
      cbn [obind]. exists s1, h1, (Some p). split; [done|]. split_and!; try congruence; try done.
      eapply readers_linked_mono; [exact Hl|]. intros i q. rewrite Hrd. apply Hr0.
  - exists s, h, None. split_and!; try done. intros Hz. lia.
Qed.

Lemma pressure_facts_ok (pressured : bool) c :
  cursor_room c →
  ∃ c1, (if pressured then pressure c else Ret c) = Ret c1 ∧
    (c1 = c ∨ pressure c = Ret c1) ∧ ∀ ev, ∃ c2, record ev c1 = Ret c2.
Proof.
  intros Hroom.
  destruct pressured.
    - destruct (pressure_total _ Hroom) as (c1 & Hp & Hb). rewrite Hp. exists c1.
      split; [done|]. split; [by right|]. intros ev.
      destruct Hb as (? & ? & ? & ? & ? & ? & ? & ?). by apply record_total.
    - exists c. split; [done|]. split; [by left|]. intros ev.
      destruct Hroom as (? & ? & ? & ? & ? & ? & ? & ?). apply record_total; lia.
Qed.

(** Sending to a journal nobody listens to leaves nobody listening. *)
Lemma send_unheard e s h s' h' :
  receiver_count s = 0 → send lease_of e s h = Ret (s', h') → heard (Some s') = false.
Proof.
  unfold send. intros Hz Hsend. rewrite Hz, bool_decide_eq_true_2, orb_true_r in Hsend by done.
  simplify_eq. cbn [heard]. apply bool_decide_eq_false. lia.
Qed.

(** publication never panics; it records the event, or what the event
    degrades to when it cannot be funded, after the pressure facts of anything
    retired for it; every live receiver's history stays one chain ending at the
    owner's cursor; and an event is only ever left out of the journal when
    nobody listens. *)
Theorem publish_keeps_every_reader_linked others1 others2 others3 event o hist subs h
    (Hinv : owner_inv hist subs o)
    (H1 : receivers_only hist others1) (H2 : receivers_only hist others2)
    (H3 : receivers_only hist others3) (Hroom : cursor_room (cursor o))
    (Hnext : match sender o with Some s => next s < u64_max | None => True end) :
  ∃ o' h' hist' c1 ev, publish others1 others2 others3 event o h = Ret (o', h') ∧
    owner_inv hist' subs o' ∧
    (c1 = cursor o ∨ pressure (cursor o) = Ret c1) ∧
    (ev = event ∨ ev = degrade event) ∧ record ev c1 = Ret (cursor o') ∧
    (hist' = hist ∧ heard (sender o') = false ∨
     ∃ e, hist' = hist ++ [e] ∧ before e = c1 ∧ after e = cursor o' ∧ carries (published e) ev).
Proof.
  unfold owner_inv in Hinv. unfold publish.
  destruct (sender o) as [s|] eqn:Hsend.
  2:{ cbn [heard obind interleave]. rewrite andb_false_r.
      destruct (record_total event (cursor o)) as [c2 Hc2]; try apply Hroom;
        [destruct Hroom; lia..|].
      rewrite Hc2. cbn [obind].
      eexists _, h, hist, (cursor o), event. split; [done|]. split_and!; auto. }
  destruct Hinv as (Hwf & Hcl & Hl).
  destruct (prepared_ok others1 event hist subs (cursor o) s h Hwf Hcl Hl H1)
    as (s1 & h1 & prepared & -> & Hwf1 & Hcl1 & Hn1 & Hl1 & Hroom1).
  cbn [obind]. destruct (pressure_facts_ok (match prepared with Some p => retired_output p | None => false end)
              (cursor o) Hroom) as (c1 & -> & Hc1 & Hrec).
  cbn [obind]. set (m := prepared ≫= memory).
  destruct (interleave_ok hist others2 s1 h1 H2 Hwf1)
    as (s2 & h2 & -> & Hwf2 & Hn2 & Hcl2 & Hroom2 & Hz2 & Hr2).
  cbn [obind].
  set (ev := if bool_decide (m = None) && negb (is_gap event) && heard (Some s2)
             then degrade event else event).
  destruct (Hrec ev) as [c2 Hc2]. rewrite Hc2. cbn [obind].
  destruct (interleave_ok hist others3 s2 h2 H3 Hwf2)
    as (s3 & h3 & -> & Hwf3 & Hn3 & Hcl3 & Hroom3 & Hz3 & Hr3).
  cbn [obind]. assert (readers_linked hist subs s3 (cursor o)) as Hl3.
  { eapply readers_linked_mono; [|exact Hr3]. by eapply readers_linked_mono. }
  destruct (send_linked hist subs s3 (cursor o) c1 c2 ev m h3)
    as (hist' & s4 & h4 & Hsend4 & Hwf4 & Hcl4 & Hl4 & Hcase); try done; [congruence|congruence| | |].
  { intros Hz. apply Hroom3, Hroom2, Hroom1; intros Hz'.
    apply Hz. rewrite <-Hz', Hz3, Hz2; [done|done|]. by rewrite Hz2. }
  { intros Hz Hm. unfold ev. rewrite bool_decide_eq_true_2 by done.
    assert (heard (Some s2) = true) as ->.
    { unfold heard. apply bool_decide_eq_true. destruct (decide (receiver_count s2 = 0)) as [E|]; [|lia].
      rewrite (Hz3 E) in Hz. done. }
    destruct (is_gap event) eqn:Hg; simpl; [by apply is_gap_carried|apply degrade_carried]. }
  destruct (fund_event ev m h3) as [h3' p3]. rewrite Hsend4. cbn [obind].
  eexists _, h4, hist', c1, ev. split; [done|]. split; [by split_and!|].
  split; [done|]. split; [unfold ev; case_match; auto|]. split; [done|].
  destruct Hcase as [[Hz ->]|(e & -> & ? & ? & ?)]; [left|right; by exists e].
  split; [done|]. by eapply send_unheard.
Qed.
End owner.

(** ** Evaluated instance: nobody listens, so only the cursor moves *)

Definition sample_layout : EventLayout :=
  {| EVENT_ALLOCATION_BYTES := 300; size_of_shared := 200; payload_capacity _ := 8 |}.
Definition sample_alloc : Allocator :=
  {| alloc_capacity c := Some c; size_of_reader := 16; size_of_event := 200 |}.
Definition quiet_others : State LiveRunEvent → Heap → outcome (State LiveRunEvent * Heap) :=
  λ s h, Ret (s, h).

Lemma publish_keeps_every_reader_linked_witness :
  ∃ o' h', publish (H := sample_alloc) (H0 := sample_layout)
      quiet_others quiet_others quiet_others
      (OutputEvent {| start_byte := 0; end_byte := 5; data := [] |}) owner_new
      {| budget := Resources.ByteBudget.new 4096; leases := ∅ |} = Ret (o', h').
Proof.
  assert (∀ hist, receivers_only hist quiet_others) as Hq.
  { intros hist s h _. exists s, h. split; [reflexivity|apply rtc_refl]. }
  destruct (@publish_keeps_every_reader_linked sample_alloc sample_layout
              quiet_others quiet_others quiet_others
              (OutputEvent {| start_byte := 0; end_byte := 5; data := [] |}) owner_new [] ∅
              {| budget := Resources.ByteBudget.new 4096; leases := ∅ |} I (Hq _) (Hq _) (Hq _))
    as (o' & h' & _ & _ & _ & Hrun & _).
  - by vm_compute.
  - exact I.
  - exists o', h'. exact Hrun.
Defined.
