(* ===== verification/Wire.v ===== *)
(** * Wire types and frames

    The request, response and attachment messages of
    [crates/ctxmux-protocol/src/lib.rs], and its frame boundary: the size limit and
    the refusal of duplicate object members.  Printing a value as JSON and parsing it
    back, by serde and the implementations derived or written for the message types,
    are the operations of the class [Serde]; nothing is assumed of them. *)

From S2P Require Import Prelude.
From S2P Require Import Protocol.

Abbreviation DaemonInstanceId := N (only parsing).
Abbreviation RuntimeId := N (only parsing).

(** ** Run metadata *)

Inductive RunBackend :=
  | NativeBackend
  | TmuxBackend (socket_path : string) (server_pid server_started_at : N)
      (session_id window_id pane_id tmux_version : string).
#[global] Instance RunBackend_eq_dec : EqDecision RunBackend.
Proof. solve_decision. Defined.

Inductive ReplayCapability := RawFromStart | RawSinceImport.
#[global] Instance ReplayCapability_eq_dec : EqDecision ReplayCapability.
Proof. solve_decision. Defined.

Record RunCapabilities := {
  cap_input : bool; cap_resize : bool; cap_signal : bool; cap_stop : bool;
  fork_level_a : bool; fork_level_b : bool; cap_replay : ReplayCapability;
}.
#[global] Instance RunCapabilities_eq_dec : EqDecision RunCapabilities.
Proof. solve_decision. Defined.
Definition NATIVE : RunCapabilities :=
  {| cap_input := true; cap_resize := true; cap_signal := true; cap_stop := true;
     fork_level_a := true; fork_level_b := true; cap_replay := RawFromStart |}.
Definition TMUX_READ_ONLY : RunCapabilities :=
  {| cap_input := false; cap_resize := false; cap_signal := false; cap_stop := false;
     fork_level_a := false; fork_level_b := false; cap_replay := RawSinceImport |}.

Record TmuxPaneInfo := {
  pane_socket_path : string; pane_tmux_version : string; pane_server_pid : N;
  pane_server_started_at : N; pane_session_id : string; pane_window_id : string;
  pane_pane_id : string; pane_pid : N; pane_size : TerminalSize;
}.

Record RunInfo := {
  info_id : RunId;
  info_spec : option RunSpec;
  info_lineage : option RunLineage;
  info_backend : RunBackend;
  info_capabilities : RunCapabilities;
  info_pid : option N;
  info_state : RunState;
  info_native_service : option NativeServiceSnapshot;
  info_latest_output_bytes : N;
  info_durable_output_bytes : option N;
  info_first_available_byte : N;
  info_attachments : N;
  info_applied_input_bytes : option N;
  info_current_size : option TerminalSize;
}.

Inductive RunBackendKind := NativeKind | TmuxKind.
#[global] Instance RunBackendKind_eq_dec : EqDecision RunBackendKind.
Proof. solve_decision. Defined.
Definition backend_kind (b : RunBackend) : RunBackendKind :=
  match b with NativeBackend => NativeKind | TmuxBackend _ _ _ _ _ _ _ => TmuxKind end.

Record RunSummary := {
  sum_id : RunId;
  sum_backend : RunBackendKind;
  sum_pid : option N;
  sum_state : RunState;
  sum_latest_output_bytes : N;
  sum_retained_output_bytes : N;
  sum_attachments : N;
}.
Definition summary_of_info (info : RunInfo) : RunSummary :=
  {| sum_id := info_id info; sum_backend := backend_kind (info_backend info);
     sum_pid := info_pid info; sum_state := info_state info;
     sum_latest_output_bytes := info_latest_output_bytes info;
     sum_retained_output_bytes := 0; sum_attachments := info_attachments info |}.

(** ** Recoverable operations *)

Record RecoverableInput := {
  rin_daemon_instance : DaemonInstanceId;
  rin_operation_key : InputOperationKey;
  rin_id : RunId;
  rin_expected_byte : N;
  rin_data : bytes;
}.
Record RecoverableStop := {
  rst_daemon_instance : DaemonInstanceId;
  rst_operation_key : StopOperationKey;
  rst_id : RunId;
}.
#[global] Instance RecoverableStop_eq_dec : EqDecision RecoverableStop.
Proof. solve_decision. Defined.

(** ** Requests *)

Inductive AttachmentView := RawView | TerminalView.

Inductive Request :=
  | ReqObserveCreation (operation_key : CreateOperationKey)
  | ReqObserveForeground (id : RunId)
  | ReqDiagnostics
  | ReqStart (operation_key : CreateOperationKey) (spec : RunSpec)
  | ReqDiscoverTmux (socket_path : string)
  | ReqImportTmux (socket_path pane_id : string)
  | ReqFork (operation_key : CreateOperationKey) (parent : RunId) (plan : ForkPlan)
  | ReqList (after : option RunId) (limit : option N)
  | ReqStatus (id : RunId)
  | ReqObserveStorage (id : RunId)
  | ReqRemove (id : RunId)
  | ReqInput (id : RunId) (d : bytes)
  | ReqRecoverableInput (operation : RecoverableInput)
  | ReqResize (id : RunId) (size : TerminalSize)
  | ReqSignal (id : RunId) (signal : RunSignal)
  | ReqStop (operation : RecoverableStop)
  | ReqAttachRecoverableStop (operation : RecoverableStop) (after_byte : N)
  | ReqAttach (id : RunId) (view : AttachmentView) (after_byte : N).

Inductive ClientFrame :=
  | ClientHello (protocol : N)
  | ClientRequest (request : Request)
  | ClientInput (command_id : N) (d : bytes)
  | ClientResize (command_id : N) (size : TerminalSize)
  | ClientSignal (command_id : N) (signal : RunSignal)
  | ClientStop (command_id : N) (operation : RecoverableStop)
  | ClientDetach.

(** ** Observations *)

Inductive DiagnosticsSinkState :=
  | SinkNotInitialized | SinkStarting | SinkIdle | SinkWriting | SinkFailed | SinkStopped.
Record DiagnosticsSnapshot := {
  queue_budget_bytes : N; record_limit_bytes : N; funded_bytes : N; formatting_records : N;
  queued_records : N; active_record_bytes : N; admitted_records : N; written_records : N;
  written_bytes : N; notice_written_bytes : N; dropped_before_encoding_records : N;
  dropped_encoded_records : N; discarded_encoded_bytes : N; oversized_records : N;
  format_failed_records : N; sink_write_failures : N; initialization_failures : N;
  partially_written_records : N; scoped_panics : N; sink : DiagnosticsSinkState;
  last_sink_errno : option Z; writer_alive : bool; shutdown_requested : bool;
  counters_saturated : bool;
}.
Definition deserialize_sink_errno (value : option Z) : result (option Z) string :=
  match value with
  | Some errno => if bool_decide (errno ≤ 0)%Z
                  then Err "diagnostic sink errno must be positive or null"%string
                  else Ok value
  | None => Ok value
  end.

Inductive CreationObservation :=
  | Retained (operation_key : CreateOperationKey) (run : RunInfo)
  | NotRetained (operation_key : CreateOperationKey).
Definition observation_operation_key (o : CreationObservation) : CreateOperationKey :=
  match o with Retained key _ | NotRetained key => key end.

Record ForegroundProcess := {
  fg_pid : N; process_incarnation : string; execution_generation : string; fg_pgid : N;
  fg_sid : N; executable_path : string; executable_image : string;
}.
Inductive RunForegroundObservation :=
  | ForegroundObserved (id : RunId) (started_at_ms completed_at_ms root_pid : N)
      (root_incarnation : string) (posix_session_id foreground_pgid : N)
      (processes : list ForegroundProcess)
  | ForegroundUnknown (id : RunId) (reason : string)
  | ForegroundUnsupported (id : RunId) (reason : string).

Record RunPersistenceObservation := {
  first_failure : option string; obs_storage_failure : option StorageFailure;
  actor_stopped : bool; queued_append_commands : N; offered_output_bytes : N;
  committed_output_bytes : N;
}.
Record RunStoragePolicy := {
  policy_run_output_bytes : N; policy_hot_output_bytes : N;
  policy_durable_run_output_bytes : N; policy_durable_replay_bytes : N;
  policy_database_bytes : N; policy_wal_checkpoint_bytes : N;
  terminal_history_rows : N; terminal_checkpoint_bytes : N;
}.
Record RunStorageObservation := {
  obs_run_id : RunId; obs_latest_output_bytes : N; memory_first_available_byte : N;
  obs_persistence : option RunPersistenceObservation; obs_policy : RunStoragePolicy;
}.

(** ** Responses and attachment frames *)

Inductive ControlOutcome := Accepted (receipt : ControlReceipt) | Rejected (failure : ControlFailure).

Inductive Response :=
  | RespCreationObservation (observation : CreationObservation)
  | RespForegroundObservation (observation : RunForegroundObservation)
  | RespDiagnostics (diagnostics : DiagnosticsSnapshot)
  | RespStorageObservation (observation : RunStorageObservation)
  | RespStarted (run : RunInfo)
  | RespTmuxPanes (tmux_version : string) (panes : list TmuxPaneInfo)
  | RespImported (run : RunInfo)
  | RespForked (run : RunInfo)
  | RespRuns (runs : list RunSummary) (next_cursor : option RunId)
  | RespStatus (run : RunInfo)
  | RespRemoved (id : RunId)
  | RespControlAccepted (run : RunInfo) (receipt : ControlReceipt)
  | RespControlRejected (failure : ControlFailure)
  | RespInputApplied (run : RunInfo) (range : AppliedInputRange).

Inductive RuntimeIdPersistence := DaemonLifetime | StateDir.
Record RuntimeIdentity := {
  daemon_instance_id : DaemonInstanceId; runtime_id : RuntimeId;
  runtime_id_persistence : RuntimeIdPersistence; build_id : string;
  protocol_generation : N; platform : string; arch : string;
  capabilities : gmap string N;
}.
Definition deserialize_non_empty_runtime_string (value : string) : result string string :=
  if decide (value = ""%string) then Err "Runtime build-target value must not be empty"%string
  else Ok value.
(** The map is walked in key order, so the first offending key is the least. *)
Fixpoint validate_runtime_capabilities (show_key : string → string) (entries : list (string * N))
    : result unit string :=
  match entries with
  | [] => Ok tt
  | (key, version) :: entries =>
      match validate_runtime_capability_version version with
      | Err e => Err ("Runtime capability " +:+ show_key key +:+ ": " +:+
                      runtime_capability_version_error_display e)%string
      | Ok _ => validate_runtime_capabilities show_key entries
      end
  end.

Record OutputReplayHeader := {
  hdr_first_available_byte : N; hdr_latest_output_bytes : N; hdr_truncated : bool;
}.
Record AttachedSnapshot := {
  snap_run : RunInfo; snap_replay : OutputReplay; snap_terminal : TerminalContinuation;
  snap_terminal_restore : bytes; snap_resize_revision : N;
}.
Record AttachedHeader := {
  head_run : RunInfo; head_replay : OutputReplayHeader; head_terminal : TerminalContinuation;
  head_resize_revision : N;
}.

Inductive ServerFrame :=
  | FHello (runtime : RuntimeIdentity)
  | FResponse (response : Response)
  | FAttached (snapshot : AttachedHeader)
  | FReplayWindow (first_available_byte latest_output_bytes : N)
  | FTerminalCheckpointChunk (offset : N) (d : bytes)
  | FEvent (event : RunEvent)
  | FCommandResult (command_id : N) (outcome : ControlOutcome)
  | FDetached
  | FError (error : ProtocolError).

(** ** The frame boundary *)

(** A parsed JSON value; an object keeps its members in order, duplicates
    included. *)
#[warnings="-register-all"]
Inductive Json :=
  | JScalar
  | JArray (elements : list Json)
  | JObject (members : list (string * Json)).

Inductive FrameError :=
  | FrameEncode (why : string)
  | FrameDecode (why : string)
  | FrameTooLarge (actual maximum : N).

Class Serde (T : Type) := {
  to_string : T → result bytes string;
  (** The deserializer's walk over one complete JSON value. *)
  json_value : bytes → result Json string;
  from_slice : bytes → result T string;
  show_member : string → string;
}.

Section frames.
Context {T : Type} `{!Serde T}.

Definition encode_frame (value : T) : result bytes FrameError :=
  let? encoded := map_err FrameEncode (to_string value) in
  if decide (MAX_FRAME_BYTES < len encoded)
  then Err (FrameTooLarge (len encoded) MAX_FRAME_BYTES)
  else Ok encoded.

(** [RejectDuplicateObjectMembers]: [visit_seq] and [visit_map]. *)
Fixpoint reject_duplicates (j : Json) : result unit string :=
  match j with
  | JScalar => Ok tt
  | JArray elements =>
      (fix walk (es : list Json) :=
         match es with
         | [] => Ok tt
         | e :: es => let? _ := reject_duplicates e in walk es
         end) elements
  | JObject members =>
      (fix walk (names : gset string) (ms : list (string * Json)) :=
         match ms with
         | [] => Ok tt
         | (name, value) :: ms =>
             if decide (name ∈ names)
             then Err ("duplicate object member " +:+ show_member name)%string
             else let? _ := reject_duplicates value in walk ({[name]} ∪ names) ms
         end) ∅ members
  end.

Definition decode_frame (value : bytes) : result T FrameError :=
  if decide (MAX_FRAME_BYTES < len value)
  then Err (FrameTooLarge (len value) MAX_FRAME_BYTES)
  else
    let? j := map_err FrameDecode (json_value value) in
    let? _ := map_err FrameDecode (reject_duplicates j) in
    map_err FrameDecode (from_slice value).

(** No object anywhere in the value has two members of one name. *)
Fixpoint members_unique (j : Json) : Prop :=
  match j with
  | JScalar => True
  | JArray elements => (fix all es := match es with [] => True | e :: es => members_unique e ∧ all es end) elements
  | JObject members =>
      NoDup (map fst members) ∧
      (fix all (ms : list (string * Json)) := match ms with [] => True | m :: ms => members_unique m.2 ∧ all ms end) members
  end.

Fixpoint json_size (j : Json) : nat :=
  match j with
  | JScalar => 1
  | JArray elements => S ((fix all es := match es with [] => O | e :: es => json_size e + all es end) elements)%nat
  | JObject members =>
      S ((fix all (ms : list (string * Json)) := match ms with [] => O | m :: ms => json_size m.2 + all ms end) members)%nat
  end.

Lemma reject_duplicates_spec j : reject_duplicates j = Ok tt ↔ members_unique j.
Proof.
  remember (json_size j) as n eqn:Hn. assert (json_size j ≤ n)%nat as Hle by lia. clear Hn.
  revert j Hle. induction n as [|n IH]; intros j Hle; [destruct j; simpl in Hle; lia|].
  destruct j as [|es|ms]; simpl in *; [done| |].
  - assert ((fix all es := match es with [] => O | e :: es => json_size e + all es end) es ≤ n)%nat
      as Hes by lia. clear Hle. revert Hes.
    induction es as [|e es IHes]; intros Hes; [done|].
    rewrite <-(IHes ltac:(lia)), <-(IH e ltac:(lia)).
    destruct (reject_duplicates e) as [[]|]; simpl; naive_solver.
  - assert ((fix all (ms : list (string * Json)) := match ms with [] => O | m :: ms => json_size m.2 + all ms end) ms ≤ n)%nat
      as Hms by lia. clear Hle.
    assert (∀ names : gset string,
      (fix walk (names : gset string) (ms : list (string * Json)) :=
         match ms with
         | [] => Ok tt
         | (name, value) :: ms =>
             if decide (name ∈ names)
             then Err ("duplicate object member " +:+ show_member name)%string
             else let? _ := reject_duplicates value in walk ({[name]} ∪ names) ms
         end) names ms = Ok tt ↔
      (NoDup (map fst ms) ∧ Forall (λ k, k ∉ names) (map fst ms)) ∧
      (fix all (ms : list (string * Json)) := match ms with [] => True | m :: ms => members_unique m.2 ∧ all ms end) ms)
      as Hwalk.
    { revert Hms. induction ms as [|[k v] ms IHms]; intros Hms names; simpl in *.
      { split; [|done]. intros _. split; [|done]. split; [constructor|done]. }
      rewrite NoDup_cons, Forall_cons. case_decide as Hk; [naive_solver|].
      assert (reject_duplicates v = Ok tt ↔ members_unique v) as Hv by (apply IH; lia).
      destruct (reject_duplicates v) as [[]|]; simpl; [|naive_solver].
      rewrite (IHms ltac:(lia)).
      assert ((Forall (λ x, x ∉ ({[k]} ∪ names)) (map fst ms)) ↔
              ((k ∉ map fst ms) ∧ Forall (λ x, (x ∉ names)) (map fst ms))) as ->; [|naive_solver].
      rewrite !Forall_forall. set_solver. }
    rewrite Hwalk. split; [naive_solver|]. intros [? ?]. split; [|done]. split; [done|].
    apply Forall_forall. set_solver.
Qed.

(** A decoded frame fits the frame limit and carries no object with two
    members of one name; every frame that fits and has none is handed to the
    deserializer unchanged. *)
Lemma decode_frame_exact (value : bytes) :
  (∀ t, decode_frame value = Ok t ↔
     (len value ≤ MAX_FRAME_BYTES ∧ from_slice value = Ok t ∧
      ∃ j, json_value value = Ok j ∧ members_unique j)).
Proof.
  intros t. unfold decode_frame. case_decide as Hlen.
  { split; [done|]. intros [? _]. lia. }
  destruct (json_value value) as [j|e] eqn:Hj; simpl; [|naive_solver].
  destruct (reject_duplicates j) as [[]|e] eqn:Hr; simpl.
  - apply reject_duplicates_spec in Hr. destruct (from_slice value); simpl; naive_solver lia.
  - split; [done|]. intros (_ & _ & j' & [= <-] & Hu).
    apply reject_duplicates_spec in Hu. congruence.
Qed.

(** C39: the frame boundary accepts exactly the frames it promises.  A frame decodes to a
    value exactly when it fits the frame limit, its deserializer yields that value, and no
    object anywhere in its JSON has two members of one name; a frame is refused for its size
    exactly when it is longer than the limit, before its JSON is looked at, and a frame that
    fits and repeats a member is a decode error whatever its deserializer makes of it.  A
    value is encoded exactly as its serializer printed it when that fits the limit, never cut,
    and is refused for its size exactly when it does not; both refusals name the actual size
    and the limit. *)
Theorem frame_boundary_is_exact :
  (∀ value t, decode_frame value = Ok t ↔
     len value ≤ MAX_FRAME_BYTES ∧ from_slice value = Ok t ∧
     ∃ j, json_value value = Ok j ∧ members_unique j) ∧
  (∀ value actual maximum, decode_frame value = Err (FrameTooLarge actual maximum) ↔
     MAX_FRAME_BYTES < len value ∧ actual = len value ∧ maximum = MAX_FRAME_BYTES) ∧
  (∀ value j, len value ≤ MAX_FRAME_BYTES → json_value value = Ok j → ¬ members_unique j →
     ∃ why, decode_frame value = Err (FrameDecode why)) ∧
  (∀ (t : T) encoded, encode_frame t = Ok encoded ↔
     to_string t = Ok encoded ∧ len encoded ≤ MAX_FRAME_BYTES) ∧
  (∀ (t : T) actual maximum, encode_frame t = Err (FrameTooLarge actual maximum) ↔
     ∃ encoded, to_string t = Ok encoded ∧ MAX_FRAME_BYTES < len encoded ∧
       actual = len encoded ∧ maximum = MAX_FRAME_BYTES).
Proof.
  split_and!.
  - exact decode_frame_exact.
  - intros value actual maximum. unfold decode_frame. case_decide as Hlen; [naive_solver|].
    destruct (json_value value) as [j|]; simpl; [|naive_solver].
    destruct (reject_duplicates j) as [[]|]; simpl; [|naive_solver].
    destruct (from_slice value); simpl; naive_solver.
  - intros value j Hlen Hj Hu. unfold decode_frame. rewrite decide_False, Hj by lia. simpl.
    destruct (reject_duplicates j) as [[]|why] eqn:Hr; simpl; [|by exists why].
    by apply reject_duplicates_spec in Hr.
  - intros t encoded. unfold encode_frame. destruct (to_string t) as [e|]; simpl; [|naive_solver].
    case_decide; naive_solver lia.
  - intros t actual maximum. unfold encode_frame. destruct (to_string t) as [e|]; simpl; [|naive_solver].
    case_decide; naive_solver.
Qed.
End frames.
