(* ===== verification/UpgradeGate.v ===== *)
(** * Upgrade request gate

    [UpgradeRequestGate], its permits and its fence
    ([crates/ctxmux-daemon/src/lib.rs]): the quiescence protocol of the
    exec-in-place upgrade.  Every section under the gate's mutex is one step; the
    condition variable's wait is the pair of steps before and after it. *)

From S2P Require Import Prelude.
From S2P Require Import Protocol.

Inductive UpgradeRequestPhase := Open | Draining | Sealed.
#[global] Instance UpgradeRequestPhase_eq_dec : EqDecision UpgradeRequestPhase.
Proof. solve_decision. Defined.

Record UpgradeRequestGateState := { phase : UpgradeRequestPhase; active : N }.

(** An admission owns a permit except when the gate is sealed. *)
Inductive UpgradeRequestAdmission := Execute | Retry | AdmissionSealed.
#[global] Instance UpgradeRequestAdmission_eq_dec : EqDecision UpgradeRequestAdmission.
Proof. solve_decision. Defined.

Definition gate_new : UpgradeRequestGateState := {| phase := Open; active := 0 |}.

Definition gate_admit (g : UpgradeRequestGateState)
    : outcome (UpgradeRequestGateState * UpgradeRequestAdmission) :=
  match phase g with
  | Open | Draining =>
      let! n := plus_u64 (active g) 1 in
      Ret ({| phase := phase g; active := n |},
           if decide (phase g = Open) then Execute else Retry)
  | Sealed => Ret (g, AdmissionSealed)
  end.

(** [Drop for UpgradeRequestPermit]. *)
Definition drop_permit (g : UpgradeRequestGateState) : outcome UpgradeRequestGateState :=
  let! n := expect "upgrade request permits remain balanced" (checked_sub (active g) 1) in
  Ret {| phase := phase g; active := n |}.

(** [begin_drain], cut at its wait: the loop test returns the sealed gate and a
    fence, the gate reopened by the deadline, or that the thread waits. *)
Inductive DrainTurn := DrainSealed | DrainTimedOut (message : string) | DrainWait.

Definition drain_turn (expired : bool) (g : UpgradeRequestGateState)
    : UpgradeRequestGateState * DrainTurn :=
  if decide (active g ≠ 0) then
    if expired then
      ({| phase := Open; active := active g |},
       DrainTimedOut ("timed out waiting for " +:+ pretty (active g) +:+
                      " admitted request(s) to finish"))
    else (g, DrainWait)
  else ({| phase := Sealed; active := active g |}, DrainSealed).

Definition begin_drain (expired : bool) (g : UpgradeRequestGateState)
    : UpgradeRequestGateState * result DrainTurn string :=
  if decide (phase g ≠ Open)
  then (g, Err "another exec-in-place upgrade is already draining requests"%string)
  else
    let '(g, turn) := drain_turn expired {| phase := Draining; active := active g |} in
    (g, Ok turn).

(** [Drop for UpgradeRequestFence]. *)
Definition drop_fence (committed : bool) (g : UpgradeRequestGateState)
    : outcome UpgradeRequestGateState :=
  if committed then Ret g else
  let! _ := check "assertion failed: phase == Sealed" (bool_decide (phase g = Sealed)) in
  Ret {| phase := Open; active := active g |}.

Definition upgrade_retry_error : ProtocolError :=
  protocol_error BackendUnavailable
    "ctxmux daemon is draining for an exec-in-place upgrade; reconnect and retry".

(** ** The threads around the gate *)

Record Sys := {
  gate : UpgradeRequestGateState;
  permits : list UpgradeRequestAdmission;  (** live permits, by how they were admitted *)
  waiting : N;                             (** threads inside [begin_drain]'s wait *)
  fences : list bool;                      (** live fences and whether each is committed *)
  committed : bool;                        (** a committed fence was dropped *)
}.
Definition initial : Sys :=
  {| gate := gate_new; permits := []; waiting := 0; fences := []; committed := false |}.

Definition after_turn (t : DrainTurn) (was_waiting : N) : N * list bool :=
  match t with
  | DrainSealed => (was_waiting - 1, [false])
  | DrainTimedOut _ => (was_waiting - 1, [])
  | DrainWait => (was_waiting, [])
  end.

Inductive step : Sys → Sys → Prop :=
  | step_admit S g a :
      gate_admit (gate S) = Ret (g, a) →
      step S {| gate := g; permits := if decide (a = AdmissionSealed) then permits S
                                      else a :: permits S;
                waiting := waiting S; fences := fences S; committed := committed S |}
  | step_drop_permit S ps1 a ps2 g :
      permits S = ps1 ++ a :: ps2 → drop_permit (gate S) = Ret g →
      step S {| gate := g; permits := ps1 ++ ps2; waiting := waiting S; fences := fences S;
                committed := committed S |}
  | step_begin_refused S expired g m :
      begin_drain expired (gate S) = (g, Err m) →
      step S {| gate := g; permits := permits S; waiting := waiting S; fences := fences S;
                committed := committed S |}
  | step_begin S expired g t :
      begin_drain expired (gate S) = (g, Ok t) →
      step S {| gate := g; permits := permits S;
                waiting := (after_turn t (waiting S + 1)).1;
                fences := (after_turn t (waiting S + 1)).2 ++ fences S;
                committed := committed S |}
  | step_wake S expired g t :
      0 < waiting S → drain_turn expired (gate S) = (g, t) →
      step S {| gate := g; permits := permits S;
                waiting := (after_turn t (waiting S)).1;
                fences := (after_turn t (waiting S)).2 ++ fences S; committed := committed S |}
  | step_commit S fs1 c fs2 :
      fences S = fs1 ++ c :: fs2 →
      step S {| gate := gate S; permits := permits S; waiting := waiting S;
                fences := fs1 ++ true :: fs2; committed := committed S |}
  | step_drop_fence S fs1 c fs2 g :
      fences S = fs1 ++ c :: fs2 → drop_fence c (gate S) = Ret g →
      step S {| gate := g; permits := permits S; waiting := waiting S;
                fences := fs1 ++ fs2; committed := committed S || c |}.

(** One owner of the drain at a time, matched to the phase. *)
Definition owners (S : Sys) : N := waiting S + len (fences S) + (if committed S then 1 else 0).

Definition inv (S : Sys) : Prop :=
  active (gate S) = len (permits S) ∧
  match phase (gate S) with
  | Open => owners S = 0
  | Draining => waiting S = 1 ∧ owners S = 1
  | Sealed => waiting S = 0 ∧ owners S = 1 ∧ permits S = []
  end.

Lemma gate_step_inv S S' : step S S' → inv S → inv S'.
Proof.
  unfold inv, owners.
  intros Hstep [Ha Hp].
  destruct Hstep as [S g a H|S ps1 a ps2 g H1 H2|S ex g m H|S ex g t H|S ex g t Hw H
    |S fs1 c fs2 H|S fs1 c fs2 g H1 H2]; simpl in *.
  - unfold gate_admit, plus_u64, checked_add in H.
    destruct (phase (gate S)) eqn:Hph; simpl in H; try case_decide; simpl in H; simplify_eq; simpl;
      rewrite ?Hph, ?len_cons; split; done || lia || (rewrite decide_False by done; rewrite len_cons; lia).
  - rewrite H1, len_app, len_cons in Ha. unfold drop_permit, checked_sub in H2.
    case_decide; simpl in H2; simplify_eq. simpl. rewrite len_app. split; [lia|].
    destruct (phase (gate S)); [done|done|]. destruct Hp as (_ & _ & Hp).
    rewrite H1 in Hp. by destruct ps1.
  - unfold begin_drain in H. case_decide; [|by destruct (drain_turn _ _)]. simplify_eq. done.
  - unfold begin_drain in H. case_decide as Hop; [done|].
    rewrite Hop in Hp. unfold drain_turn in H. simpl in H.
    destruct (committed S); [lia|].
    repeat case_decide; try destruct ex; simplify_eq; simpl; rewrite ?len_app, ?len_cons, ?len_nil;
      split_and!; try done; try lia.
    all: apply len_zero; lia.
  - assert (phase (gate S) = Draining ∧ waiting S = 1 ∧ owners S = 1) as (Hd & Hw1 & Ho).
    { unfold owners. destruct (phase (gate S)); [lia|done|lia]. }
    rewrite Hd in Hp. destruct Hp as [_ Hp]. unfold drain_turn in H.
    destruct (committed S); [lia|].
    repeat case_decide; try destruct ex; simplify_eq; simpl; rewrite ?Hd, ?len_app, ?len_cons, ?len_nil;
      split_and!; try done; try lia.
    all: apply len_zero; lia.
  - rewrite H in Hp. rewrite !len_app, !len_cons in *. done.
  - rewrite H1 in Hp. rewrite !len_app, !len_cons in *. unfold drop_fence in H2.
    destruct c.
    + simplify_eq. split; [done|]. rewrite orb_true_r.
      destruct (phase (gate S)), (committed S); try (exfalso; lia); destruct_and?;
        repeat split; done || lia.
    + case_bool_decide as Hs; [|done]. simpl in H2. simplify_eq. simpl.
      rewrite Hs in Hp. rewrite orb_false_r. split; [done|]. lia.
Qed.

Lemma gate_reachable_inv S : rtc step initial S → inv S.
Proof.
  assert (inv initial) as H0 by done. revert H0. generalize initial.
  induction 2; eauto using gate_step_inv.
Qed.

(** a fence is unique, and while one is held or was committed no admitted
    request is live and none can be admitted; every live permit was counted and
    its drop cannot panic; a request is executed only while the gate is open. *)
Theorem sealed_gate_is_quiescent S (Hreach : rtc step initial S) :
  (fences S ≠ [] ∨ committed S = true →
     phase (gate S) = Sealed ∧ permits S = [] ∧ len (fences S) + (if committed S then 1 else 0) = 1 ∧
     gate_admit (gate S) = Ret (gate S, AdmissionSealed)) ∧
  (permits S ≠ [] → ∃ g, drop_permit (gate S) = Ret g ∧ phase g = phase (gate S)) ∧
  (∀ g, gate_admit (gate S) = Ret (g, Execute) → phase (gate S) = Open ∧ waiting S = 0 ∧ fences S = []).
Proof.
  destruct (gate_reachable_inv S Hreach) as [Ha Hp]. unfold owners in Hp. split_and!.
  - intros Hf. assert (0 < len (fences S) + (if committed S then 1 else 0)).
    { destruct Hf as [Hf| ->]; [|lia]. rewrite <-len_zero in Hf. lia. }
    destruct (phase (gate S)) eqn:Hph; [lia|lia|]. destruct Hp as (Hw & Ho & Hperm).
    split_and!; try done; [lia|]. unfold gate_admit. by rewrite Hph.
  - intros Hne. rewrite <-len_zero in Hne. unfold drop_permit, checked_sub.
    rewrite decide_True by lia. by eexists.
  - intros g. unfold gate_admit. destruct (phase (gate S)) eqn:Hph; [|..|done].
    + intros _. split; [done|]. split; [lia|]. apply len_zero. lia.
    + by destruct (plus_u64 _ _).
Qed.

Lemma sealed_gate_is_quiescent_witness :
  ∃ S, rtc step initial S ∧ fences S = [false] ∧ permits S = [] ∧
       gate_admit (gate S) = Ret (gate S, AdmissionSealed).
Proof.
  set (S := {| gate := {| phase := Sealed; active := 0 |}; permits := []; waiting := 0;
               fences := [false]; committed := false |}).
  assert (rtc step initial S) as Hr.
  { apply rtc_once. by apply (step_begin initial false {| phase := Sealed; active := 0 |} DrainSealed). }
  exists S. split; [exact Hr|]. split; [reflexivity|].
  destruct (proj1 (sealed_gate_is_quiescent S Hr)) as (_ & Hp & _ & Hadm); [by left|].
  split; [exact Hp|exact Hadm].
Defined.

(** ** Failure latches *)

(** [IncarnationFailure]: the first recorded message stays. *)
Definition incarnation_record (message : string) (current : option string) : option string :=
  match current with None => Some message | Some _ => current end.
(** [NativeWaitFailure::record]: fences creation, then records. *)
Definition wait_failure_record (show : RunId → string) (run_id : RunId) (error : string)
    (fence : bool) (current : option string) : bool * option string :=
  (true, incarnation_record
           ("Run " +:+ show run_id +:+ " lost native child wait authority; restart is required: "
            +:+ error) current).
