(* ===== verification/Attachment.v ===== *)
(** * Attachment

    The delivery loop of one attachment connection
    ([crates/ctxmux-daemon/src/attachment.rs]): the turns of its [select!] over
    received live events, completed commands, admitted commands and client
    frames.  A turn is a function from the loop's locals to its locals, the frames
    it writes and whether the handler returns; what other owners answer during
    the turn (the Run's metadata, the upgrade gate, the control budget) is the
    turn's input.  Transport failure ends the handler and is not modelled. *)

From S2P Require Import Prelude.
From S2P Require Import Protocol.
From S2P Require Import Wire.
From S2P Require Import LiveEventJournal.
From S2P Require Import LiveEvents.
From S2P Require Import UpgradeGate.

(** ** Command identity *)

Definition observe_command_id (last : option N) (command_id : N) : result (option N) ProtocolError :=
  if match last with None => bool_decide (command_id = 1) | Some l => bool_decide (l < command_id) end
  then Ok (Some command_id)
  else Err (protocol_error InvalidRequest
              "attachment command ids must start at 1 and then increase strictly").

Definition control_not_applied (error : ProtocolError) : ControlFailure :=
  {| error := error; disposition := NotApplied; confirmed_input_bytes := None |}.
Definition control_unknown (error : ProtocolError) : ControlFailure :=
  {| error := error; disposition := Unknown; confirmed_input_bytes := None |}.
Definition with_disposition (d : CommandDisposition) (f : ControlFailure) : ControlFailure :=
  {| error := error f; disposition := d; confirmed_input_bytes := confirmed_input_bytes f |}.

Definition outcome_of (r : ControlResult) : ControlOutcome :=
  match r with Ok receipt => Accepted receipt | Err failure => Rejected failure end.

Definition observation_closed_failure (recoverable : bool) : ControlFailure :=
  let failure := control_not_applied
    (protocol_error BackendUnavailable
       "attachment observation stream ended; reattach to resume observation") in
  if recoverable then with_disposition Unknown failure else failure.

(** ** Live delivery *)

Definition terminal_event (s : RunState) : outcome RunEvent :=
  match s with
  | Interrupted reason => Ret (InterruptedEvent reason)
  | Exited _ _ => Ret (ExitedEvent s)
  | Running => Panic "running state is not terminal"
  end.

(** The cursors of one view. *)
Record View := {
  live_cursor : LiveEventCursor;
  sent_through_byte : N;
  sent_service_revision : N;
  sent_resize_revision : N;
  receiver_lagged : bool;
  observation_closed : bool;
}.
Definition set_live (c : LiveEventCursor) (v : View) : View :=
  {| live_cursor := c; sent_through_byte := sent_through_byte v;
     sent_service_revision := sent_service_revision v;
     sent_resize_revision := sent_resize_revision v; receiver_lagged := receiver_lagged v;
     observation_closed := observation_closed v |}.
Definition set_sent (through service resize : N) (v : View) : View :=
  {| live_cursor := live_cursor v; sent_through_byte := through;
     sent_service_revision := service; sent_resize_revision := resize;
     receiver_lagged := receiver_lagged v; observation_closed := observation_closed v |}.
Definition set_flags (lagged closed : bool) (v : View) : View :=
  {| live_cursor := live_cursor v; sent_through_byte := sent_through_byte v;
     sent_service_revision := sent_service_revision v;
     sent_resize_revision := sent_resize_revision v; receiver_lagged := lagged;
     observation_closed := closed |}.

Inductive LagRecovery := RecContinue | RecClose | RecTerminal (event : RunEvent).

(** [run] is [run.info()]. *)
Definition recover_lagged_delivery (run : RunInfo) (delivered retained_before : LiveEventCursor)
    (v : View) : outcome (View * list ServerFrame * LagRecovery) :=
  let running := run_state_is_running (info_state run) in
  let lost_observation :=
    bool_decide (observation_revision delivered < observation_revision retained_before) in
  let lost_terminal :=
    bool_decide (terminal_revision delivered < terminal_revision retained_before) in
  let lost_output_marker :=
    bool_decide (output_discontinuity_revision delivered
                 < output_discontinuity_revision retained_before) in
  let lost_output_bytes := bool_decide (sent_through_byte v < output_bytes retained_before) in
  let lost_resize := bool_decide (sent_resize_revision v < resize_revision retained_before) in
  let frames := if lost_observation then [FEvent ObservationDiscontinuity] else [] in
  let '(v, frames) :=
    if negb lost_observation && (lost_output_marker || lost_output_bytes || lost_resize) then
      let marker_head := if lost_output_marker
                         then latest_output_discontinuity_byte retained_before else 0 in
      let latest := N.max (N.max (output_bytes retained_before) marker_head)
                      (info_latest_output_bytes run) in
      (set_sent (N.max (sent_through_byte v) latest) (sent_service_revision v)
         (sent_resize_revision v) v,
       frames ++ [FEvent (Gap latest
         (OutputGapCauses.union
            (OutputGapCauses.union OutputGapCauses.SUBSCRIBER_LAG
               (if lost_resize then OutputGapCauses.GEOMETRY_LAG else OutputGapCauses.NONE))
            (GapCauses.since (gap_causes retained_before) (gap_causes delivered))))])
    else (v, frames) in
  if lost_observation && running then Ret (v, frames, RecClose) else
  let '(v, frames) :=
    match info_native_service run with
    | Some service =>
        if negb lost_observation
           && bool_decide (service_revision delivered < service_revision retained_before)
           && bool_decide (sent_service_revision v < revision service)
        then (set_sent (sent_through_byte v) (revision service) (sent_resize_revision v) v,
              frames ++ [FEvent (ServiceChanged service)])
        else (v, frames)
    | None => (v, frames)
    end in
  if (lost_observation || lost_terminal) && negb running then
    let! event := terminal_event (info_state run) in
    Ret (v, frames, RecTerminal event)
  else Ret (v, frames, RecContinue).

Definition finish_terminal_snapshot (after : LiveEventCursor) (terminal_state : RunState)
    (live : LiveEventCursor) (sent_through : N) : outcome (list ServerFrame) :=
  let discontinuous := bool_decide (observation_revision live < observation_revision after) in
  let frames := if discontinuous then [FEvent ObservationDiscontinuity] else [] in
  let frames :=
    if negb discontinuous
       && (bool_decide (sent_through < output_bytes after)
           || bool_decide (output_discontinuity_revision live < output_discontinuity_revision after))
    then frames ++ [FEvent (Gap (N.max (output_bytes after) (latest_output_discontinuity_byte after))
           (OutputGapCauses.union OutputGapCauses.TERMINAL_CATCHUP
              (GapCauses.since (gap_causes after) (gap_causes live))))]
    else frames in
  let! event := terminal_event terminal_state in
  Ret (frames ++ [FEvent event]).

(** ** The loop's locals *)

Record ControlState := {
  last_command_id : option N;
  pending_stops : N;
  held_terminal : option RunEvent;
}.
(** A command in the admission queue or among the pending results: its id and
    whether it is a Stop. *)
Abbreviation Pending := (N * bool)%type (only parsing).

Record At := {
  view : View;
  controls : ControlState;
  command_admissions : list Pending;
  command_results : list Pending;
}.

Definition with_view (v : View) (a : At) : At :=
  {| view := v; controls := controls a; command_admissions := command_admissions a;
     command_results := command_results a |}.
Definition with_controls (c : ControlState) (a : At) : At :=
  {| view := view a; controls := c; command_admissions := command_admissions a;
     command_results := command_results a |}.
Definition with_pending (admissions results : list Pending) (a : At) : At :=
  {| view := view a; controls := controls a; command_admissions := admissions;
     command_results := results |}.
Definition set_held (e : option RunEvent) (c : ControlState) : ControlState :=
  {| last_command_id := last_command_id c; pending_stops := pending_stops c; held_terminal := e |}.
Definition set_stops (n : N) (c : ControlState) : ControlState :=
  {| last_command_id := last_command_id c; pending_stops := n; held_terminal := held_terminal c |}.
Definition set_last (l : option N) (c : ControlState) : ControlState :=
  {| last_command_id := l; pending_stops := pending_stops c; held_terminal := held_terminal c |}.

Definition commands_settled (a : At) : bool :=
  bool_decide (pending_stops (controls a) = 0) && bool_decide (command_admissions a = [])
  && bool_decide (command_results a = []).

(** The locals afterwards, the frames written and whether the handler returns. *)
Definition Turn : Type := At * list ServerFrame * bool.

(** The top of the loop. *)
Definition loop_exit (a : At) : bool :=
  observation_closed (view a) && bool_decide (command_admissions a = [])
  && bool_decide (command_results a = []).

(** *** A completed command *)

(** [FuturesUnordered] yields any pending result: [i] is the one completed. *)
Definition command_completed (i : nat) (result : ControlResult) (a : At) : outcome Turn :=
  let! completed := expect "no such pending result" (command_results a !! i) in
  let '(command_id, is_stop) := completed in
  let results := take i (command_results a) ++ drop (S i) (command_results a) in
  let frames := [FCommandResult command_id (outcome_of result)] in
  let! stops := if (is_stop : bool) then minus_u64 (pending_stops (controls a)) 1
                else Ret (pending_stops (controls a)) in
  let a := with_controls (set_stops stops (controls a))
             (with_pending (command_admissions a) results a) in
  match held_terminal (controls a) with
  | Some event =>
      if commands_settled a
      then Ret (with_controls (set_held None (controls a)) a, frames ++ [FEvent event], true)
      else Ret (a, frames, false)
  | None => Ret (a, frames, false)
  end.

(** *** An admitted command: only the front admission is polled. *)
Definition command_admitted (a : At) : outcome Turn :=
  match command_admissions a with
  | [] => Panic "nonempty admission queue"
  | front :: rest => Ret (with_pending rest (command_results a ++ [front]) a, [], false)
  end.

(** *** A received event *)

Fixpoint cancel_unadmitted (admissions : list Pending) (stops : N)
    : outcome (N * list ServerFrame) :=
  match admissions with
  | [] => Ret (stops, [])
  | (command_id, is_stop) :: rest =>
      let! stops := if (is_stop : bool) then minus_u64 stops 1 else Ret stops in
      let! '(stops, frames) := cancel_unadmitted rest stops in
      Ret (stops, FCommandResult command_id (Rejected (observation_closed_failure is_stop)) :: frames)
  end.

(** A terminal event is sent at once, or held behind the commands in flight. *)
Definition deliver_terminal (event : RunEvent) (frames : list ServerFrame) (a : At) : Turn :=
  if commands_settled a then (a, frames ++ [FEvent event], true)
  else (with_controls (set_held (Some event) (controls a)) a, frames, false).

(** The [match event.as_ref()] of a received envelope. *)
Definition deliver_event (event : RunEvent) (frames : list ServerFrame) (a : At) : Turn :=
  let v := view a in
  let forward (v : View) := (with_view v a, frames ++ [FEvent event], false) in
  match event with
  | OutputEvent chunk =>
      if decide (end_byte chunk ≤ sent_through_byte v) then (a, frames, false)
      else forward (set_sent (end_byte chunk) (sent_service_revision v) (sent_resize_revision v) v)
  | Resized _ _ rev =>
      if decide (rev ≤ sent_resize_revision v) then (a, frames, false)
      else forward (set_sent (sent_through_byte v) (sent_service_revision v) rev v)
  | ServiceChanged service =>
      if decide (revision service ≤ sent_service_revision v) then (a, frames, false)
      else forward (set_sent (sent_through_byte v) (revision service) (sent_resize_revision v) v)
  | ExitedEvent _ | InterruptedEvent _ => deliver_terminal event frames a
  | Tmux _ | ObservationDiscontinuity | Gap _ _ => forward v
  end.

Definition snapshot_needed (e : LiveRunEvent) : bool :=
  match published e with SnapshotNeeded => true | _ => false end.

Inductive RecvResult := Received (e : LiveRunEvent) | RecvLagged (n : N) | RecvClosed.

Definition received (run : RunInfo) (r : RecvResult) (a : At) : outcome Turn :=
  match r with
  | RecvLagged _ => Ret (with_view (set_flags true (observation_closed (view a)) (view a)) a, [], false)
  | RecvClosed => Ret (a, [], true)
  | Received e =>
      let! '(a, frames, recovery) :=
        if receiver_lagged (view a) || snapshot_needed e then
          let v := set_flags false (observation_closed (view a)) (view a) in
          let! '(v, frames, recovery) :=
            recover_lagged_delivery run (live_cursor v)
              (if snapshot_needed e then after e else before e) v in
          Ret (with_view v a, frames, recovery)
        else Ret (a, [], RecContinue) in
      match recovery with
      | RecClose =>
          let v := set_flags (receiver_lagged (view a)) true (view a) in
          let! '(stops, cancelled) :=
            cancel_unadmitted (command_admissions a) (pending_stops (controls a)) in
          Ret (with_controls (set_stops stops (controls a))
                 (with_pending [] (command_results a) (with_view v a)),
               frames ++ cancelled, false)
      | RecTerminal event => Ret (deliver_terminal event frames a)
      | RecContinue =>
          let a := with_view (set_live (after e) (view a)) a in
          if snapshot_needed e then Ret (a, frames, false) else
          match event_of e with
          | None => Ret (a, frames, false)
          | Some event => Ret (deliver_event event frames a)
          end
      end
  end.

(** *** A client frame *)

Definition invalid_request (message : string) : ServerFrame :=
  FError (protocol_error InvalidRequest message).

(** The command a frame carries: its id and whether it is a Stop. *)
Definition frame_command (f : ClientFrame) : option Pending :=
  match f with
  | ClientInput id _ | ClientResize id _ | ClientSignal id _ => Some (id, false)
  | ClientStop id _ => Some (id, true)
  | _ => None
  end.

Definition reject_after_observation_close (f : ClientFrame) (a : At) : Turn :=
  match f with
  | ClientDetach => (a, [FDetached], true)
  | ClientHello _ | ClientRequest _ =>
      (a, [invalid_request "frame is not valid during attachment"], false)
  | _ =>
      match frame_command f with
      | None => (a, [], false)
      | Some (command_id, recoverable) =>
          match observe_command_id (last_command_id (controls a)) command_id with
          | Err e => (a, [FError e], true)
          | Ok last =>
              (with_controls (set_last last (controls a)) a,
               [FCommandResult command_id (Rejected (observation_closed_failure recoverable))], false)
          end
      end
  end.

(** What the owners answer while a frame is handled: the gate's admission, the
    Stop's validation, and the funding of the queued admission. *)
Record FrameVerdict := {
  verdict_gate : UpgradeRequestAdmission;
  verdict_stop : result unit ControlFailure;
  verdict_queue : result unit ControlFailure;
}.

Definition handle_frame (verdict : FrameVerdict) (f : ClientFrame) (a : At) : outcome Turn :=
  match f with
  | ClientDetach => Ret (a, [FDetached], true)
  | ClientHello _ | ClientRequest _ =>
      Ret (a, [invalid_request "frame is not valid during attachment"], false)
  | _ =>
      match frame_command f with
      | None => Ret (a, [], false)
      | Some (command_id, is_stop) =>
          match observe_command_id (last_command_id (controls a)) command_id with
          | Err e => Ret (a, [FError e], true)
          | Ok last =>
              let a := with_controls (set_last last (controls a)) a in
              let reject (failure : ControlFailure) : outcome Turn :=
                Ret (a, [FCommandResult command_id (Rejected failure)], false) in
              match verdict_gate verdict with
              | AdmissionSealed => Ret (a, [], true)
              | Retry => reject (control_not_applied upgrade_retry_error)
              | Execute =>
                  let queue (a : At) : outcome Turn :=
                    Ret (with_pending (command_admissions a ++ [(command_id, is_stop)])
                           (command_results a) a, [], false) in
                  if is_stop then
                    match verdict_stop verdict with
                    | Err failure => reject failure
                    | Ok _ =>
                        match verdict_queue verdict with
                        | Ok _ =>
                            let! stops := plus_u64 (pending_stops (controls a)) 1 in
                            queue (with_controls (set_stops stops (controls a)) a)
                        | Err failure => reject (with_disposition Unknown failure)
                        end
                    end
                  else
                    match verdict_queue verdict with
                    | Ok _ => queue a
                    | Err failure => reject failure
                    end
              end
          end
      end
  end.

Definition incoming (verdict : FrameVerdict) (f : ClientFrame) (a : At) : outcome Turn :=
  if observation_closed (view a) then Ret (reject_after_observation_close f a)
  else handle_frame verdict f a.

(** *** One turn of the loop, with the branches' guards *)

Inductive Event :=
  | CommandCompleted (i : nat) (result : ControlResult)
  | CommandAdmitted
  | Incoming (verdict : FrameVerdict) (f : ClientFrame)
  | Recv (run : RunInfo) (r : RecvResult).

Definition enabled (e : Event) (a : At) : bool :=
  negb (loop_exit a) &&
  match e with
  | CommandCompleted i _ => bool_decide (i < length (command_results a))%nat
  | CommandAdmitted => negb (bool_decide (command_admissions a = []))
  | Incoming _ _ => true
  | Recv _ _ => bool_decide (held_terminal (controls a) = None)
                && negb (observation_closed (view a))
  end.

Definition turn (e : Event) (a : At) : outcome Turn :=
  match e with
  | CommandCompleted i result => command_completed i result a
  | CommandAdmitted => command_admitted a
  | Incoming verdict f => incoming verdict f a
  | Recv run r => received run r a
  end.
