(* ===== verification/AttachmentSpec.v ===== *)
(** * Attachment: properties

    Two promises of the delivery loop: every observed command is answered exactly
    once and before the terminal event, and the output a client sees has no hole
    it was not told about. *)

From S2P Require Import Prelude.
From S2P Require Import Protocol.
From S2P Require Import Wire.
From S2P Require Import Resources.
From S2P Require Import LiveEventJournal.
From S2P Require Import LiveEvents.
From S2P Require Import LiveEventJournalSpec.
From S2P Require Import LiveEventsSpec.
From S2P Require Import UpgradeGate.
From S2P Require Import Attachment.

(** ** Commands *)

Definition stops_in (ps : list Pending) : N := sumN (λ p : Pending, if p.2 then 1 else 0) ps.
Definition ids (ps : list Pending) : list N := map fst ps.

Definition answered (frames : list ServerFrame) : list N :=
  omap (λ f, match f with FCommandResult id _ => Some id | _ => None end) frames.

(** The id a turn takes responsibility for.  A sealed gate ends the connection
    instead of answering. *)
Definition observed (e : Event) (a : At) : option N :=
  match e with
  | Incoming verdict f =>
      match frame_command f with
      | Some (id, _) =>
          match observe_command_id (last_command_id (controls a)) id with
          | Ok _ => if negb (observation_closed (view a))
                       && bool_decide (verdict_gate verdict = AdmissionSealed)
                    then None else Some id
          | Err _ => None
          end
      | None => None
      end
  | _ => None
  end.

Record commands_inv (obs ans : list N) (a : At) : Prop := {
  ci_ids : ans ++ ids (command_admissions a) ++ ids (command_results a) ≡ₚ obs;
  ci_nodup : NoDup obs;
  ci_last : Forall (λ i, i ≤ default 0 (last_command_id (controls a))) obs;
  ci_stops : pending_stops (controls a) =
             stops_in (command_admissions a) + stops_in (command_results a);
}.

Lemma answered_app fs gs : answered (fs ++ gs) = answered fs ++ answered gs.
Proof. unfold answered. by rewrite omap_app. Qed.
Lemma ids_app ps qs : ids (ps ++ qs) = ids ps ++ ids qs.
Proof. unfold ids. by rewrite map_app. Qed.
Lemma stops_app ps qs : stops_in (ps ++ qs) = stops_in ps + stops_in qs.
Proof. apply sumN_app. Qed.

Lemma observe_ok last id last' :
  observe_command_id last id = Ok last' → last' = Some id ∧ default 0 last < id.
Proof.
  unfold observe_command_id. destruct last as [l|]; case_bool_decide; intros; simplify_eq; simpl;
    split; done || lia.
Qed.

(** A turn that answers nothing and leaves the queues alone. *)
Lemma commands_inv_view obs ans a v :
  commands_inv obs ans a → commands_inv obs ans (with_view v a).
Proof. intros []. by constructor. Qed.
Lemma commands_inv_held obs ans a h :
  commands_inv obs ans a →
  commands_inv obs ans (with_controls (set_held h (controls a)) a).
Proof. intros []. by constructor. Qed.
Lemma commands_inv_observe obs ans a id :
  commands_inv obs ans a → default 0 (last_command_id (controls a)) < id →
  commands_inv obs ans (with_controls (set_last (Some id) (controls a)) a) ∧
  NoDup (obs ++ [id]).
Proof.
  intros [] Hlt. split.
  - constructor; simpl; try done. eapply Forall_impl; [done|]. simpl. lia.
  - apply NoDup_app. split_and!; [done| |apply NoDup_singleton].
    intros i Hi. rewrite Forall_forall in ci_last0. specialize (ci_last0 i Hi). set_solver by lia.
Qed.

(** Answering the command just observed. *)
Lemma commands_inv_answer obs ans a id :
  commands_inv obs ans a → default 0 (last_command_id (controls a)) < id →
  commands_inv (obs ++ [id]) (ans ++ [id]) (with_controls (set_last (Some id) (controls a)) a).
Proof.
  intros Hi Hlt. destruct (commands_inv_observe obs ans a id Hi Hlt) as [[] Hnd].
  constructor; simpl in *; try done.
  - rewrite <-app_assoc. rewrite (Permutation_app_comm [id]), app_assoc. by f_equiv.
  - apply Forall_app. split; [done|]. by apply Forall_singleton.
Qed.

(** Queueing the command just observed. *)
Lemma commands_inv_queue obs ans a id (is_stop : bool) n :
  commands_inv obs ans a → default 0 (last_command_id (controls a)) < id →
  n = pending_stops (controls a) + (if is_stop then 1 else 0) →
  let a1 := with_controls (set_stops n (set_last (Some id) (controls a))) a in
  commands_inv (obs ++ [id]) ans
    (with_pending (command_admissions a1 ++ [(id, is_stop)]) (command_results a1) a1).
Proof.
  intros Hi Hlt ->. destruct (commands_inv_observe obs ans a id Hi Hlt) as [[] Hnd].
  constructor; simpl in *; try done.
  - rewrite ids_app. rewrite <-ci_ids0, <-!app_assoc. do 2 f_equiv. apply Permutation_app_comm.
  - apply Forall_app. split; [done|]. by apply Forall_singleton.
  - rewrite stops_app. unfold stops_in at 2. rewrite sumN_cons, sumN_nil. simpl. lia.
Qed.

Lemma cancel_ok ps n :
  stops_in ps ≤ n →
  ∃ fs, cancel_unadmitted ps n = Ret (n - stops_in ps, fs) ∧ answered fs = ids ps ∧
        ∀ ev, FEvent ev ∉ fs.
Proof.
  revert n. induction ps as [|[id is_stop] ps IH]; intros n Hn; simpl.
  { exists []. unfold stops_in. rewrite sumN_nil, N.sub_0_r. split_and!; try done.
    intros ev. apply not_elem_of_nil. }
  unfold stops_in in *. rewrite sumN_cons in *. simpl in *.
  destruct is_stop.
  - rewrite minus_u64_ok by lia. cbn [obind].
    destruct (IH (n - 1)) as (fs & -> & Hfs & Hev); [lia|]. cbn [obind].
    eexists. split; [do 2 f_equal; lia|]. simpl. rewrite Hfs. set_solver.
  - cbn [obind]. destruct (IH n) as (fs & -> & Hfs & Hev); [lia|]. cbn [obind].
    eexists. split; [do 2 f_equal; lia|]. simpl. rewrite Hfs. set_solver.
Qed.

Lemma stops_lookup (ps : list (N * bool)) (i : nat) (p : N * bool) :
  ps !! i = Some p → stops_in ps = (if p.2 then 1 else 0) + stops_in (take i ps ++ drop (S i) ps).
Proof.
  intros Hp. rewrite <-(take_drop_middle ps i p Hp) at 1. rewrite !stops_app.
  unfold stops_in. rewrite sumN_cons. lia.
Qed.
Lemma command_ids_lookup (ps : list (N * bool)) (i : nat) (p : N * bool) :
  ps !! i = Some p → ids ps ≡ₚ p.1 :: ids (take i ps ++ drop (S i) ps).
Proof.
  intros Hp. rewrite <-(take_drop_middle ps i p Hp) at 1. rewrite !ids_app. simpl.
  by rewrite Permutation_middle.
Qed.

(** A terminal event is written only as the handler returns with every command
    answered. *)
Definition terminal_last (fs : list ServerFrame) (ret : bool) (a : At) : Prop :=
  ∀ ev, FEvent ev ∈ fs → (∃ s, ev = ExitedEvent s) ∨ (∃ r, ev = InterruptedEvent r) →
    ret = true ∧ command_admissions a = [] ∧ command_results a = [].

(** What one turn of the loop does to the commands. *)
Definition turn_ok (obs ans : list N) (e : Event) (a : At) : Prop :=
  ∃ a' fs ret, turn e a = Ret (a', fs, ret) ∧
    commands_inv (obs ++ option_list (observed e a)) (ans ++ answered fs) a' ∧
    terminal_last fs ret a'.

Lemma settled_empty a :
  commands_settled a = true → command_admissions a = [] ∧ command_results a = [].
Proof. unfold commands_settled. rewrite !andb_true_iff, !bool_decide_eq_true. naive_solver. Qed.

Lemma completed_turn obs ans i r a :
  commands_inv obs ans a → enabled (CommandCompleted i r) a = true →
  (∀ ev, held_terminal (controls a) = Some ev → True) →
  turn_ok obs ans (CommandCompleted i r) a.
Proof.
  intros Hi He _. unfold enabled in He. apply andb_true_iff in He as [_ He].
  apply bool_decide_eq_true, lookup_lt_is_Some in He as [[id is_stop] Hp].
  unfold turn_ok, turn, command_completed. rewrite Hp. cbn [expect obind].
  pose proof (stops_lookup _ _ _ Hp) as Hst. pose proof (command_ids_lookup _ _ _ Hp) as Hids.
  simpl in Hst, Hids. destruct Hi.
  assert (∃ n, (if is_stop then minus_u64 (pending_stops (controls a)) 1
                else Ret (pending_stops (controls a))) = Ret n ∧
          n = stops_in (command_admissions a)
              + stops_in (take i (command_results a) ++ drop (S i) (command_results a)))
    as (n & -> & Hn).
  { destruct is_stop; [rewrite minus_u64_ok by lia|]; eexists; (split; [done|]); lia. }
  cbn [obind]. set (rest := take i _ ++ drop (S i) _) in *.
  set (a1 := with_controls _ _).
  assert (commands_inv obs (ans ++ [id]) a1) as Hinv.
  { constructor; simpl; try done. rewrite <-ci_ids0, Hids, <-app_assoc. f_equiv. simpl.
    by rewrite <-Permutation_middle. }
  simpl. rewrite app_nil_r. destruct (held_terminal (controls a)) as [ev|].
  - destruct (commands_settled a1) eqn:Hset; eexists _, _, _; (split; [reflexivity|]).
    + split; [by apply commands_inv_held|]. intros _ _ _. split; [done|]. by apply settled_empty.
    + split; [done|]. intros ev'. set_solver.
  - eexists _, _, _. split; [reflexivity|]. split; [done|]. intros ev'. set_solver.
Qed.

Lemma admitted_turn obs ans a :
  commands_inv obs ans a → enabled CommandAdmitted a = true → turn_ok obs ans CommandAdmitted a.
Proof.
  intros [] He. unfold enabled in He. apply andb_true_iff in He as [_ He].
  unfold turn_ok, turn, command_admitted. destruct (command_admissions a) as [|p ps]; [done|].
  eexists _, _, _. split; [reflexivity|]. simpl. rewrite !app_nil_r. split; [|by intros ev ?%elem_of_nil].
  constructor; simpl; try done.
  - rewrite <-ci_ids0, ids_app. simpl. f_equiv. rewrite app_assoc.
    by rewrite <-Permutation_cons_append.
  - rewrite ci_stops0, stops_app. unfold stops_in. rewrite !sumN_cons, sumN_nil. lia.
Qed.

Lemma deliver_terminal_ok obs ans ev fs a :
  commands_inv obs ans a →
  (∀ ev', FEvent ev' ∈ fs → ¬ ((∃ s, ev' = ExitedEvent s) ∨ (∃ r, ev' = InterruptedEvent r))) →
  ∃ a' fs' ret, deliver_terminal ev fs a = (a', fs', ret) ∧ commands_inv obs ans a' ∧
    answered fs' = answered fs ∧
    terminal_last fs' ret a'.
Proof.
  intros Hi Hfs. unfold deliver_terminal. destruct (commands_settled a) eqn:Hset.
  - eexists _, _, _. split; [reflexivity|]. split; [done|].
    rewrite answered_app, app_nil_r. split; [done|]. intros _ _ _. split; [done|].
    by apply settled_empty.
  - eexists _, _, _. split; [reflexivity|]. split; [by apply commands_inv_held|].
    split; [done|]. intros ev' Hin Hk. by destruct (Hfs ev' Hin).
Qed.

Definition not_terminal (fs : list ServerFrame) : Prop :=
  ∀ ev, FEvent ev ∈ fs → ¬ ((∃ s, ev = ExitedEvent s) ∨ (∃ r, ev = InterruptedEvent r)).
Lemma not_terminal_nil : not_terminal [].
Proof. intros ev Hin. by apply elem_of_nil in Hin. Qed.
Lemma not_terminal_snoc fs f :
  not_terminal fs → (∀ s, f ≠ FEvent (ExitedEvent s)) → (∀ r, f ≠ FEvent (InterruptedEvent r)) →
  not_terminal (fs ++ [f]).
Proof.
  intros Hfs Hs Hr ev Hin. apply elem_of_app in Hin as [Hin|Hin]; [by apply Hfs|].
  apply list_elem_of_singleton in Hin as <-. naive_solver.
Qed.
Lemma not_terminal_app fs gs : not_terminal fs → not_terminal gs → not_terminal (fs ++ gs).
Proof. intros Hf Hg ev Hin. apply elem_of_app in Hin as [?|?]; [by apply Hf|by apply Hg]. Qed.
Lemma answered_snoc fs f :
  (∀ id o, f ≠ FCommandResult id o) → answered (fs ++ [f]) = answered fs.
Proof. intros Hf. rewrite answered_app. destruct f; simpl; rewrite ?app_nil_r; naive_solver. Qed.

Definition quiet (fs : list ServerFrame) : Prop := answered fs = [] ∧ not_terminal fs.
Lemma quiet_nil : quiet [].
Proof. split; [done|apply not_terminal_nil]. Qed.
Lemma quiet_snoc fs f :
  quiet fs → match f with
             | FEvent (ObservationDiscontinuity | Gap _ _ | ServiceChanged _) => True
             | _ => False end → quiet (fs ++ [f]).
Proof.
  intros [Ha Hn] Hf. split; [by rewrite answered_snoc by (by intros ? ? ->)|].
  apply not_terminal_snoc; [done|by intros ? ->|by intros ? ->].
Qed.

Lemma recover_ok run d b v :
  ∃ v' fs rec, recover_lagged_delivery run d b v = Ret (v', fs, rec) ∧ quiet fs.
Proof.
  unfold recover_lagged_delivery.
  set (lost := bool_decide (observation_revision d < observation_revision b)). clearbody lost.
  assert (quiet (if lost then [FEvent ObservationDiscontinuity] else [])) as H0.
  { destruct lost; [by apply (quiet_snoc [] _ quiet_nil)|apply quiet_nil]. }
  set (fs0 := if lost then _ else _) in *. clearbody fs0.
  destruct (if negb lost && _ then _ else _) as [v1 fs1] eqn:H1.
  assert (quiet fs1) as Hq1.
  { destruct (negb lost && _); simplify_eq; [|done]. by apply quiet_snoc. }
  clear H1. destruct (lost && run_state_is_running (info_state run)); [by eexists _, _, _|].
  destruct (match info_native_service run with Some _ => _ | None => _ end) as [v2 fs2] eqn:H2.
  assert (quiet fs2) as Hq2.
  { destruct (info_native_service run); [|by simplify_eq].
    destruct (_ && _ && _); simplify_eq; [|done]. by apply quiet_snoc. }
  clear H2. destruct (_ && negb (run_state_is_running (info_state run))) eqn:Ht; [|by eexists _, _, _].
  apply andb_true_iff in Ht as [_ Ht]. unfold terminal_event.
  destruct (info_state run); [done|..]; by eexists _, _, _.
Qed.

Lemma deliver_event_ok obs ans ev fs a :
  commands_inv obs ans a → quiet fs →
  ∃ a' fs' ret, deliver_event ev fs a = (a', fs', ret) ∧ commands_inv obs ans a' ∧
    answered fs' = [] ∧
    terminal_last fs' ret a'.
Proof.
  intros Hi [Ha Hn].
  assert (∀ v f, (∀ id o, f ≠ FCommandResult id o) → (∀ s, f ≠ FEvent (ExitedEvent s)) →
    (∀ r, f ≠ FEvent (InterruptedEvent r)) →
    ∃ a' fs' ret, (with_view v a, fs ++ [f], false) = (a', fs', ret) ∧ commands_inv obs ans a' ∧
      answered fs' = [] ∧
      terminal_last fs' ret a') as Hfwd.
  { intros v f H1 H2 H3. eexists _, _, _. split; [reflexivity|].
    split; [by apply commands_inv_view|]. rewrite answered_snoc by done. split; [done|].
    intros ev' Hin Hk. by destruct (not_terminal_snoc fs f Hn H2 H3 ev' Hin). }
  assert (∃ a' fs' ret, (a, fs, false) = (a', fs', ret) ∧ commands_inv obs ans a' ∧
      answered fs' = [] ∧
      terminal_last fs' ret a') as Hskip.
  { eexists _, _, _. split; [reflexivity|]. split; [done|]. split; [done|].
    intros ev' Hin Hk. by destruct (Hn ev' Hin). }
  destruct ev; simpl; try case_decide; try done; try (apply Hfwd; done).
  all: match goal with |- context [deliver_terminal ?e _ _] =>
         destruct (deliver_terminal_ok obs ans e fs a Hi Hn)
           as (a' & fs' & ret & Heq & ? & Hans & ?) end;
    eexists _, _, _; split; [exact Heq|]; split; [done|]; split; [by rewrite Hans|done].
Qed.

Lemma received_turn obs ans run r a :
  commands_inv obs ans a → turn_ok obs ans (Recv run r) a.
Proof.
  intros Hi. unfold turn_ok. cbn [turn observed option_list]. rewrite app_nil_r.
  destruct r as [e|n|]; cbn [received].
  2:{ eexists _, _, _. split; [reflexivity|]. rewrite app_nil_r.
      split; [by apply commands_inv_view|]. by intros ev ?%elem_of_nil. }
  2:{ eexists _, _, _. split; [reflexivity|]. rewrite app_nil_r. split; [done|]. by intros ev ?%elem_of_nil. }
  assert (∃ a1 fs rec,
    (if receiver_lagged (view a) || snapshot_needed e then
       let! '(v, frames, recovery) :=
         recover_lagged_delivery run (live_cursor (set_flags false (observation_closed (view a)) (view a)))
           (if snapshot_needed e then after e else before e)
           (set_flags false (observation_closed (view a)) (view a)) in
       Ret (with_view v a, frames, recovery)
     else Ret (a, [], RecContinue)) = Ret (a1, fs, rec) ∧ commands_inv obs ans a1 ∧ quiet fs)
    as (a1 & fs & rec & -> & Hi1 & Hq).
  { destruct (_ || _); [|eexists _, _, _; split; [done|]; split; [done|apply quiet_nil]].
    destruct (recover_ok run
                (live_cursor (set_flags false (observation_closed (view a)) (view a)))
                (if snapshot_needed e then after e else before e)
                (set_flags false (observation_closed (view a)) (view a)))
      as (v' & fs & rec & -> & Hq).
    cbn [obind]. eexists _, _, _. split; [done|]. split; [by apply commands_inv_view|done]. }
  cbn [obind]. destruct rec as [| |ev].
  - set (a2 := with_view _ a1).
    assert (commands_inv obs ans a2) as Hi2 by (by apply commands_inv_view).
    destruct Hq as [Ha Hn]. destruct (snapshot_needed e).
    { eexists _, _, _. split; [reflexivity|]. rewrite Ha, app_nil_r. split; [done|].
      intros ev Hin Hk. by destruct (Hn ev Hin). }
    destruct (event_of e) as [ev|].
    + destruct (deliver_event_ok obs ans ev fs a2 Hi2 (conj Ha Hn)) as (a' & fs' & ret & -> & ? & Hans & ?).
      eexists _, _, _. split; [reflexivity|]. by rewrite Hans, app_nil_r.
    + eexists _, _, _. split; [reflexivity|]. rewrite Ha, app_nil_r. split; [done|].
      intros ev Hin Hk. by destruct (Hn ev Hin).
  - destruct Hq as [Ha Hn]. pose proof Hi1 as [].
    destruct (cancel_ok (command_admissions a1) (pending_stops (controls a1)))
      as (cs & -> & Hcs & Hev); [lia|].
    cbn [obind]. eexists _, _, _. split; [reflexivity|]. rewrite answered_app, Ha, Hcs. simpl.
    split.
    + constructor; simpl; try done; [|unfold stops_in at 2; rewrite sumN_nil; lia].
      by rewrite <-ci_ids0, <-app_assoc.
    + intros ev Hin Hk. apply elem_of_app in Hin as [Hin|Hin]; [by destruct (Hn ev Hin)|].
      by destruct (Hev ev).
  - destruct Hq as [Ha Hn].
    destruct (deliver_terminal_ok obs ans ev fs a1 Hi1 Hn) as (a' & fs' & ret & -> & ? & Hans & ?).
    eexists _, _, _. split; [reflexivity|]. by rewrite Hans, Ha, app_nil_r.
Qed.

Lemma stops_le_pending obs ans a :
  commands_inv obs ans a → pending_stops (controls a) ≤ len obs.
Proof.
  assert (∀ ps, stops_in ps ≤ len (ids ps)) as Hle.
  { intros ps. unfold ids. rewrite len_map. unfold stops_in.
    induction ps as [|[id []] ps IH]; rewrite ?sumN_cons, ?sumN_nil, ?len_cons; simpl; lia. }
  intros []. rewrite ci_stops0.
  assert (len obs = len ans + (len (ids (command_admissions a)) + len (ids (command_results a)))) as ->.
  { rewrite <-!len_app. unfold len. by rewrite ci_ids0. }
  pose proof (Hle (command_admissions a)). pose proof (Hle (command_results a)). lia.
Qed.

Lemma turn_answer obs ans a id failure last :
  commands_inv obs ans a → observe_command_id (last_command_id (controls a)) id = Ok last →
  commands_inv (obs ++ [id]) (ans ++ answered [FCommandResult id (Rejected failure)])
    (with_controls (set_last last (controls a)) a).
Proof. intros Hi Hobs. apply observe_ok in Hobs as [-> Hlt]. by apply commands_inv_answer. Qed.

Lemma terminal_last_quiet fs ret a :
  (∀ ev, FEvent ev ∉ fs) → terminal_last fs ret a.
Proof. intros H ev Hin. by destruct (H ev). Qed.

Lemma frame_turn obs ans verdict f a id is_stop :
  commands_inv obs ans a → len obs < u64_max → frame_command f = Some (id, is_stop) →
  turn_ok obs ans (Incoming verdict f) a.
Proof.
  intros Hi Hlen Hf. pose proof (stops_le_pending _ _ _ Hi) as Hst.
  assert (∀ fs, (∀ ev, FEvent ev ∉ fs) → ∀ ret a, terminal_last fs ret a) as Htl
    by (intros; by apply terminal_last_quiet).
  assert (incoming verdict f a =
    match observe_command_id (last_command_id (controls a)) id with
    | Err e => Ret (a, [FError e], true)
    | Ok last =>
        let a1 := with_controls (set_last last (controls a)) a in
        if observation_closed (view a) then
          Ret (a1, [FCommandResult id (Rejected (observation_closed_failure is_stop))], false)
        else match verdict_gate verdict with
        | AdmissionSealed => Ret (a1, [], true)
        | Retry => Ret (a1, [FCommandResult id (Rejected (control_not_applied upgrade_retry_error))], false)
        | Execute =>
            match (if is_stop then verdict_stop verdict else Ok tt), verdict_queue verdict with
            | Err failure, _ => Ret (a1, [FCommandResult id (Rejected failure)], false)
            | Ok _, Err failure =>
                Ret (a1, [FCommandResult id (Rejected
                       (if is_stop then with_disposition Unknown failure else failure))], false)
            | Ok _, Ok _ =>
                let! stops := if is_stop then plus_u64 (pending_stops (controls a)) 1
                              else Ret (pending_stops (controls a)) in
                let a2 := with_controls (set_stops stops (controls a1)) a1 in
                Ret (with_pending (command_admissions a2 ++ [(id, is_stop)]) (command_results a2) a2,
                     [], false)
            end
        end
    end) as Hrun.
  { unfold incoming, reject_after_observation_close, handle_frame.
    destruct f; simpl in Hf; simplify_eq; simpl;
      destruct (observe_command_id _ id), (observation_closed (view a)); try done;
      destruct (verdict_gate verdict); try done; simpl;
      try (destruct (verdict_stop verdict); try done); destruct (verdict_queue verdict); try done;
      destruct a as [? [] ? ?]; done. }
  unfold turn_ok. cbn [turn observed]. rewrite Hf, Hrun. clear Hrun.
  destruct (observe_command_id (last_command_id (controls a)) id) as [last|e] eqn:Hobs.
  2:{ eexists _, _, _. split; [reflexivity|]. simpl. rewrite !app_nil_r.
      split; [done|apply Htl; set_solver]. }
  pose proof (λ failure, turn_answer obs ans a id failure last Hi Hobs) as Hans.
  pose proof (observe_ok _ _ _ Hobs) as [-> Hlt].
  destruct (observation_closed (view a)); cbn [negb andb option_list].
  { eexists _, _, _. split; [reflexivity|]. split; [apply Hans|apply Htl; set_solver]. }
  destruct (verdict_gate verdict); rewrite ?bool_decide_eq_false_2 by done; cbn [option_list].
  - destruct (if is_stop then _ else _) as [[]|failure]; [destruct (verdict_queue verdict) as [[]|failure]|].
    2-3: eexists _, _, _; split; [reflexivity|]; split; [apply Hans|apply Htl; set_solver].
    assert (∃ n, (if is_stop then plus_u64 (pending_stops (controls a)) 1
                  else Ret (pending_stops (controls a))) = Ret n ∧
      n = pending_stops (controls a) + (if is_stop then 1 else 0)) as (n & -> & Hn).
    { destruct is_stop; [rewrite plus_u64_ok by lia|]; eexists; (split; [done|]); lia. }
    cbn [obind]. eexists _, _, _. split; [reflexivity|]. rewrite app_nil_r.
    split; [by apply (commands_inv_queue obs ans a id is_stop n)|apply Htl; set_solver].
  - eexists _, _, _. split; [reflexivity|]. split; [apply Hans|apply Htl; set_solver].
  - eexists _, _, _. split; [reflexivity|]. rewrite bool_decide_eq_true_2 by done. simpl.
    rewrite !app_nil_r. split; [|apply Htl; set_solver].
    by apply (commands_inv_observe obs ans a id).
Qed.

Lemma turn_inv obs ans e a :
  commands_inv obs ans a → enabled e a = true → len obs < u64_max → turn_ok obs ans e a.
Proof.
  intros Hi He Hlen. destruct e as [i r| |verdict f|run r].
  - by apply completed_turn.
  - by apply admitted_turn.
  - destruct (frame_command f) as [[id is_stop]|] eqn:Hf; [by eapply frame_turn|].
    unfold turn_ok. cbn [turn observed]. rewrite Hf. unfold incoming.
    destruct f; try done; destruct (observation_closed (view a)); simpl;
      eexists _, _, _; (split; [reflexivity|]); simpl; rewrite !app_nil_r;
      (split; [done|apply terminal_last_quiet; set_solver]).
  - by apply received_turn.
Qed.

(** *** Executions of the loop *)

Definition fresh_at (v : View) : At :=
  {| view := v; controls := {| last_command_id := None; pending_stops := 0; held_terminal := None |};
     command_admissions := []; command_results := [] |}.

(** The loop over the events that occur while their branch is enabled: the final
    locals, every frame written, the commands observed and whether it returned. *)
Fixpoint run (es : list Event) (a : At) : outcome (At * list ServerFrame * list N * bool) :=
  match es with
  | [] => Ret (a, [], [], false)
  | e :: es =>
      if enabled e a then
        let! '(a', fs, ret) := turn e a in
        if (ret : bool) then Ret (a', fs, option_list (observed e a), true) else
        let! '(a'', gs, obs, ret) := run es a' in
        Ret (a'', fs ++ gs, option_list (observed e a) ++ obs, ret)
      else run es a
  end.

Lemma run_inv es obs ans a :
  commands_inv obs ans a → len obs + N.of_nat (length es) < u64_max →
  ∃ a' fs o ret, run es a = Ret (a', fs, o, ret) ∧
    commands_inv (obs ++ o) (ans ++ answered fs) a' ∧ terminal_last fs ret a'.
Proof.
  revert obs ans a. induction es as [|e es IH]; intros obs ans a Hi Hlen; cbn [run].
  { eexists _, _, _, _. split; [reflexivity|]. simpl. rewrite !app_nil_r.
    split; [done|apply terminal_last_quiet; set_solver]. }
  simpl in Hlen. destruct (enabled e a) eqn:He; [|apply IH; [done|lia]].
  destruct (turn_inv obs ans e a Hi He) as (a1 & fs & ret & -> & Hi1 & Hlast); [lia|].
  cbn [obind]. destruct ret; [by eexists _, _, _, _|].
  assert (len (option_list (observed e a)) ≤ 1) as Ho by (by destruct (observed e a)).
  destruct (IH _ _ a1 Hi1) as (a2 & gs & o & ret & -> & Hi2 & Hlast2); [rewrite len_app; lia|].
  cbn [obind]. eexists _, _, _, _. split; [reflexivity|].
  rewrite answered_app, !app_assoc. split; [done|].
  intros ev Hin Hk. apply elem_of_app in Hin as [Hin|Hin]; [|exact (Hlast2 ev Hin Hk)].
  by destruct (Hlast ev Hin Hk).
Qed.

(** C37: whatever the interleaving of received events, completions, admissions
    and client frames, the loop never panics; every observed command is answered
    by exactly one result or is still queued, commands are observed in strictly
    increasing order, and a terminal event is written only as the last act, with
    no command left unanswered. *)
Theorem commands_answered_exactly_once es v (Hlen : N.of_nat (length es) < u64_max) :
  ∃ a fs obs ret, run es (fresh_at v) = Ret (a, fs, obs, ret) ∧
    answered fs ++ ids (command_admissions a) ++ ids (command_results a) ≡ₚ obs ∧ NoDup obs ∧
    pending_stops (controls a) =
      stops_in (command_admissions a) + stops_in (command_results a) ∧
    ((∃ ev, FEvent ev ∈ fs ∧ ((∃ s, ev = ExitedEvent s) ∨ (∃ r, ev = InterruptedEvent r))) →
       ret = true ∧ answered fs ≡ₚ obs).
Proof.
  assert (commands_inv [] [] (fresh_at v)) as H0.
  { constructor; simpl; try done. by apply NoDup_nil. }
  destruct (run_inv es [] [] _ H0) as (a & fs & obs & ret & -> & [] & Hlast); [rewrite len_nil; lia|].
  simpl in *. eexists _, _, _, _. split; [reflexivity|]. split_and!; try done.
  intros (ev & Hin & Hk). destruct (Hlast ev Hin Hk) as (-> & Ha & Hr).
  rewrite Ha, Hr in *. simpl in *. by rewrite app_nil_r in ci_ids0.
Qed.

(** ** Evaluated instance: one Input queued, admitted, completed *)

Definition sample_view : View :=
  {| live_cursor := zero_cursor; sent_through_byte := 0; sent_service_revision := 0;
     sent_resize_revision := 0; receiver_lagged := false; observation_closed := false |}.
Definition sample_events : list Event :=
  [Incoming {| verdict_gate := Execute; verdict_stop := Ok tt; verdict_queue := Ok tt |}
     (ClientInput 1 [x61]);
   CommandAdmitted; CommandCompleted 0 (Ok (InputReceipt 1))].

Lemma commands_answered_exactly_once_witness :
  ∃ a fs, run sample_events (fresh_at sample_view) = Ret (a, fs, [1], false) ∧ answered fs ≡ₚ [1].
Proof.
  destruct (commands_answered_exactly_once sample_events sample_view)
    as (a & fs & obs & ret & Hrun & Hids & _); [by vm_compute|].
  vm_compute in Hrun. injection Hrun as <- <- <- <-.
  eexists _, _. split; [vm_compute; reflexivity|]. rewrite <-Hids. vm_compute. reflexivity.
Defined.
