(* ===== verification/AttachmentStream.v ===== *)
(** * Attachment: the output stream has no silent hole

    One view's live delivery composed with the journal and the publisher: the
    receive results account for a segment of the history ([covers]) and the
    segment is a chain of cursors ([linked]); the frames the loop writes then give
    the client every output byte in order, or a [Gap] before the next one. *)

From S2P Require Import Prelude.
From S2P Require Import Protocol.
From S2P Require Import Wire.
From S2P Require Import Resources.
From S2P Require Import LiveEventJournal.
From S2P Require Import LiveEvents.
From S2P Require Import LiveEventJournalSpec.
From S2P Require Import LiveEventsSpec.
From S2P Require Import UpgradeGate.
From S2P Require Import Attachment.

Definition as_log (r : RecvResult) : list (LiveRunEvent + N) :=
  match r with Received e => [inl e] | RecvLagged n => [inr n] | RecvClosed => [] end.

(** The turns of the event branch, while it is enabled. *)
Fixpoint deliver_all (rs : list (RunInfo * RecvResult)) (a : At)
    : outcome (At * list ServerFrame) :=
  match rs with
  | [] => Ret (a, [])
  | (run, r) :: rs =>
      if enabled (Recv run r) a then
        let! '(a, fs, ret) := received run r a in
        if (ret : bool) then Ret (a, fs) else
        let! '(a, gs) := deliver_all rs a in Ret (a, fs ++ gs)
      else Ret (a, [])
  end.

(** [covered] is the client's position; [told] that a [Gap] was written since the
    last output. *)
Fixpoint no_hole (covered : N) (told : bool) (fs : list ServerFrame) : Prop :=
  match fs with
  | [] => True
  | FEvent (OutputEvent c) :: fs =>
      (told = true ∨ start_byte c ≤ covered) ∧ no_hole (end_byte c) false fs
  | FEvent (Gap _ _) :: fs => no_hole covered true fs
  | _ :: fs => no_hole covered told fs
  end.

(** The publisher's order: a chunk starts at the head published so far, [h0]
    being the head when the publisher's cursor was created. *)
Definition in_order (h0 : N) (e : LiveRunEvent) : Prop :=
  match event_of e with
  | Some (OutputEvent c) =>
      head_of (before e) ≤ start_byte c ≤ N.max (head_of (before e)) h0 ∧ start_byte c ≤ end_byte c
  | _ => True
  end.

(** What the client knows against what the loop's cursors claim. *)
Record stream_inv (h0 covered : N) (told : bool) (v : View) : Prop := {
  si_h0 : h0 ≤ sent_through_byte v;
  si_head : told = true ∨ (head_of (live_cursor v) ≤ covered ∧ sent_through_byte v ≤ covered);
}.

(** Where frames leave the client. *)
Fixpoint client (covered : N) (told : bool) (fs : list ServerFrame) : N * bool :=
  match fs with
  | [] => (covered, told)
  | FEvent (OutputEvent c) :: fs => client (end_byte c) false fs
  | FEvent (Gap _ _) :: fs => client covered true fs
  | _ :: fs => client covered told fs
  end.

Lemma no_hole_app cov told fs gs :
  no_hole cov told fs →
  no_hole (client cov told fs).1 (client cov told fs).2 gs → no_hole cov told (fs ++ gs).
Proof.
  revert cov told. induction fs as [|f fs IH]; intros cov told; simpl; [done|].
  destruct f as [| | | | |ev| | |]; try apply IH.
  destruct ev; try apply IH. intros [? ?] ?. split; [done|]. by apply IH.
Qed.

(** The tail of a recovery that continues adds at most a service event. *)
Lemma recover_tail (run : RunInfo) (c : bool) (live : bool) v1 v2 fs1 fs2 v' fs :
  (if c && negb live then
     let! event := terminal_event (info_state run) in Ret (v2, fs2, RecTerminal event)
   else Ret (v2, fs2, RecContinue)) = Ret (v', fs, RecContinue) →
  (v2, fs2) = (v1, fs1) ∨
    (∃ s r, (v2, fs2) = (set_sent (sent_through_byte v1) r (sent_resize_revision v1) v1,
                         fs1 ++ [FEvent (ServiceChanged s)])) →
  live_cursor v' = live_cursor v1 ∧ sent_through_byte v' = sent_through_byte v1 ∧
  (fs = fs1 ∨ ∃ s, fs = fs1 ++ [FEvent (ServiceChanged s)]).
Proof.
  intros Hrun Hv. destruct (c && negb live); [by destruct (terminal_event _)|].
  destruct Hv as [?|(s & r & ?)]; simplify_eq; simpl; split_and!; auto.
  right. by exists s.
Qed.

Lemma client_snoc_service cov told fs s :
  client cov told (fs ++ [FEvent (ServiceChanged s)]) = client cov told fs.
Proof.
  revert cov told. induction fs as [|f fs IH]; intros cov told; simpl; [done|].
  destruct f as [| | | | |ev| | |]; try apply IH. destruct ev; apply IH.
Qed.

(** Recovery: either observation ends, or the client is told of any output the
    lag may have hidden. *)
Lemma recover_stream run b v h0 cov told v' fs :
  recover_lagged_delivery run (live_cursor v) b v = Ret (v', fs, RecContinue) →
  stream_inv h0 cov told v → cursor_le (live_cursor v) b →
  no_hole cov told fs ∧ (client cov told fs).1 = cov ∧
  h0 ≤ sent_through_byte v' ∧ live_cursor v' = live_cursor v ∧
  ((client cov told fs).2 = true ∨ (head_of b ≤ cov ∧ sent_through_byte v' ≤ cov)).
Proof.
  intros Hrun [Hh0 Hhead] Hle. unfold recover_lagged_delivery in Hrun.
  case_bool_decide as Hobs; cbn [negb andb orb] in Hrun.
  { destruct (run_state_is_running (info_state run)); [done|]. simpl in Hrun.
    destruct (info_native_service run); simpl in Hrun;
      destruct (terminal_event (info_state run)); simpl in Hrun; done. }
  destruct (bool_decide (output_discontinuity_revision _ < output_discontinuity_revision b)
            || _ || _) eqn:Hlost.
  - set (v1 := set_sent _ _ _ v) in Hrun. set (gap := FEvent (Gap _ _)) in Hrun.
    destruct (match info_native_service run with Some _ => _ | None => _ end)
      as [v2 fs2] eqn:Htail in Hrun.
    assert (live_cursor v' = live_cursor v1 ∧ sent_through_byte v' = sent_through_byte v1 ∧
      (fs = [gap] ∨ ∃ s, fs = [gap] ++ [FEvent (ServiceChanged s)])) as (Hl & Hs & Hfs).
    { eapply (recover_tail run _ (run_state_is_running (info_state run)) v1 v2 [gap] fs2).
      - exact Hrun.
      - destruct (info_native_service run); [|left; by simplify_eq].
        destruct (_ && _); simplify_eq; [right; eauto|by left]. }
    rewrite Hl, Hs. destruct Hfs as [->|[s ->]]; simpl; split_and!; try done; lia || by left.
  - apply orb_false_iff in Hlost as [Hlost _]. apply orb_false_iff in Hlost as [Hmark Hbytes].
    apply bool_decide_eq_false in Hmark, Hbytes.
    assert (told = true ∨ (head_of b ≤ cov ∧ sent_through_byte v ≤ cov)) as Hb.
    { destruct Hhead as [?|[Hh Hs]]; [by left|right]. split; [|done].
      destruct (le_latest _ _ Hle) as [Hl _]; [pose proof (le_discontinuity _ _ Hle); lia|].
      unfold head_of in *. rewrite <-Hl. lia. }
    destruct (match info_native_service run with Some _ => _ | None => _ end)
      as [v2 fs2] eqn:Htail in Hrun.
    assert (live_cursor v' = live_cursor v ∧ sent_through_byte v' = sent_through_byte v ∧
      (fs = [] ∨ ∃ s, fs = [] ++ [FEvent (ServiceChanged s)])) as (Hl & Hs & Hfs).
    { eapply (recover_tail run _ (run_state_is_running (info_state run)) v v2 [] fs2).
      - exact Hrun.
      - destruct (info_native_service run); [|left; by simplify_eq].
        destruct (_ && _); simplify_eq; [right; eauto|by left]. }
    rewrite Hl, Hs. destruct Hfs as [->|[s ->]]; simpl; split_and!; done.
Qed.

(** Nothing more is delivered: the handler returned, closed the observation or
    holds a terminal event. *)
Definition ended (a : At) (ret : bool) : Prop :=
  ret = true ∨ held_terminal (controls a) ≠ None ∨ observation_closed (view a) = true.

Lemma ended_delivers_nothing rs a : ended a false → deliver_all rs a = Ret (a, []).
Proof.
  intros [?|Hend]; [done|]. destruct rs as [|[run r] rs]; [done|]. simpl. unfold enabled.
  assert (bool_decide (held_terminal (controls a) = None) && negb (observation_closed (view a))
          = false) as ->; [|by rewrite andb_false_r].
  destruct Hend as [Hh| ->]; [|by rewrite andb_false_r]. by rewrite bool_decide_eq_false_2.
Qed.

Lemma deliver_terminal_stream ev fs0 a a' fs ret cov told :
  deliver_terminal ev fs0 a = (a', fs, ret) →
  (∀ c, ev ≠ OutputEvent c) →
  ∃ gs, fs = fs0 ++ gs ∧ no_hole cov told gs ∧ ended a' ret.
Proof.
  unfold deliver_terminal. intros Hrun Hev. destruct (commands_settled a); simplify_eq.
  - exists [FEvent ev]. split; [done|]. split; [|by left]. destruct ev; simpl; done || naive_solver.
  - exists []. rewrite app_nil_r. split; [done|]. split; [done|]. right. by left.
Qed.

Lemma deliver_event_stream e ev fs0 a a' fs ret h0 cov told :
  deliver_event ev fs0 a = (a', fs, ret) →
  event_of e = Some ev → record ev (before e) = Ret (after e) → in_order h0 e →
  live_cursor (view a) = after e → h0 ≤ sent_through_byte (view a) →
  (told = true ∨ (head_of (before e) ≤ cov ∧ sent_through_byte (view a) ≤ cov)) →
  ∃ gs, fs = fs0 ++ gs ∧ no_hole cov told gs ∧
    (ended a' ret ∨
     stream_inv h0 (client cov told gs).1 (client cov told gs).2 (view a') ∧
     live_cursor (view a') = after e ∧ receiver_lagged (view a') = receiver_lagged (view a)).
Proof.
  intros Hrun He Hrec Hord Hlive Hh0 Hcov. apply record_ok in Hrec as (_ & Hfact & Hsame).
  assert (∀ v f, live_cursor v = after e → receiver_lagged v = receiver_lagged (view a) →
      sent_through_byte v = sent_through_byte (view a) →
      (match f with FEvent (OutputEvent _) => False | _ => True end) →
      (head_of (after e) = head_of (before e) ∨ ∃ l c, f = FEvent (Gap l c)) →
      (with_view v a, fs0 ++ [f], false) = (a', fs, ret) →
      ∃ gs, fs = fs0 ++ gs ∧ no_hole cov told gs ∧
      (ended a' ret ∨
       stream_inv h0 (client cov told gs).1 (client cov told gs).2 (view a') ∧
       live_cursor (view a') = after e ∧ receiver_lagged (view a') = receiver_lagged (view a)))
    as Hfwd.
  { intros v f Hv Hlag Hsent Hf Hhead ?. simplify_eq. exists [f]. split; [done|].
    assert (no_hole cov told [f] ∧ (client cov told [f]).1 = cov ∧
            ((client cov told [f]).2 = told ∨ (client cov told [f]).2 = true)) as (Hn & Hc1 & Hc2).
    { destruct f as [| | | | |[]| | |]; simpl in *; try done; split_and!; auto. }
    split; [done|]. right. split; [|by split].
    assert ((client cov told [f]).2 = true ∨
            (head_of (after e) ≤ cov ∧ sent_through_byte (view a) ≤ cov)) as Hk.
    { destruct Hhead as [->|(l & c & ->)]; [|by left].
      destruct Hc2 as [->| ->]; [done|by left]. }
    destruct (client cov told [f]) as [c1 t1]. simpl in *. subst c1.
    by split; simpl; rewrite Hsent, ?Hv. }
  assert (head_of (after e) = head_of (before e) → (a, fs0, false) = (a', fs, ret) →
      ∃ gs, fs = fs0 ++ gs ∧ no_hole cov told gs ∧
      (ended a' ret ∨
       stream_inv h0 (client cov told gs).1 (client cov told gs).2 (view a') ∧
       live_cursor (view a') = after e ∧ receiver_lagged (view a') = receiver_lagged (view a)))
    as Hskip.
  { intros Hhead ?. simplify_eq. exists []. rewrite app_nil_r. split; [done|]. split; [done|].
    right. split_and!; try done. split; [done|]. simpl. by rewrite Hlive, Hhead. }
  destruct ev as [chunk|service|size tb rev|st|r|tm| |l c]; simpl in Hrun, Hfact, Hsame.
  - unfold in_order in Hord. rewrite He in Hord. destruct Hord as [[Ho1 Ho2] Ho3].
    assert (head_of (after e) = N.max (head_of (before e)) (end_byte chunk)) as Hhead.
    { unfold head_of. rewrite Hfact, Hsame. lia. }
    case_decide as Hend; simplify_eq.
    + exists []. rewrite app_nil_r. split; [done|]. split; [done|]. right. split_and!; try done.
      split; [done|]. simpl. rewrite Hlive, Hhead. destruct Hcov as [?|[? ?]]; [by left|right]. lia.
    + eexists [_]. split; [done|]. simpl. split; [|right; split; [|done]].
      * split; [|done]. destruct Hcov as [?|[? ?]]; [by left|right]. lia.
      * split; [simpl; lia|]. right. simpl. rewrite Hlive, Hhead. lia.
  - case_decide; [apply Hskip; done|].
    eapply Hfwd; [..|exact Hrun]; try done. by left.
  - case_decide; [apply Hskip; done|].
    eapply Hfwd; [..|exact Hrun]; try done. by left.
  - destruct (deliver_terminal_stream _ _ _ _ _ _ cov told Hrun) as (gs & ? & ? & ?); [done|eauto].
  - destruct (deliver_terminal_stream _ _ _ _ _ _ cov told Hrun) as (gs & ? & ? & ?); [done|eauto].
  - eapply Hfwd; [..|exact Hrun]; try done. by left.
  - eapply Hfwd; [..|exact Hrun]; try done. by left.
  - eapply Hfwd; [..|exact Hrun]; try done. right. eauto.
Qed.

Definition no_output (fs : list ServerFrame) : Prop := ∀ c, FEvent (OutputEvent c) ∉ fs.
Lemma no_output_no_hole cov told fs : no_output fs → no_hole cov told fs.
Proof.
  revert cov told. induction fs as [|f fs IH]; intros cov told Hf; simpl; [done|].
  assert (no_output fs) as Hfs by (intros c Hin; apply (Hf c); set_solver).
  destruct f as [| | | | |[]| | |]; try by apply IH. exfalso. eapply Hf. apply elem_of_cons. by left.
Qed.
Lemma no_output_app fs gs : no_output fs → no_output gs → no_output (fs ++ gs).
Proof. intros Hf Hg c Hin. apply elem_of_app in Hin as [?|?]; [by eapply Hf|by eapply Hg]. Qed.
Lemma no_output_singleton f : (∀ c, f ≠ FEvent (OutputEvent c)) → no_output [f].
Proof. intros Hf c Hin. apply list_elem_of_singleton in Hin. by apply (Hf c). Qed.

Lemma cancel_no_output ps n m fs : cancel_unadmitted ps n = Ret (m, fs) → no_output fs.
Proof.
  revert n m fs. induction ps as [|[id is_stop] ps IH]; intros n m fs; simpl.
  { intros [= _ <-] c Hin. by apply elem_of_nil in Hin. }
  destruct (if is_stop then _ else _) as [k|]; simpl; [|done].
  destruct (cancel_unadmitted ps k) as [[k' gs]|] eqn:Hc; simpl; [|done]. intros [= _ <-].
  apply (no_output_app [_]); [by apply no_output_singleton|]. by eapply IH.
Qed.

Lemma recover_no_output run d b v v' fs rec :
  recover_lagged_delivery run d b v = Ret (v', fs, rec) → no_output fs.
Proof.
  unfold recover_lagged_delivery. intros Hrun.
  set (lost := bool_decide (observation_revision d < observation_revision b)) in Hrun.
  clearbody lost.
  assert (no_output (if lost then [FEvent ObservationDiscontinuity] else [])) as H0.
  { destruct lost; [by apply no_output_singleton|]. intros c Hin. by apply elem_of_nil in Hin. }
  set (fs0 := if lost then _ else _) in *. clearbody fs0.
  destruct (if negb lost && _ then _ else _) as [v1 fs1] eqn:H1 in Hrun.
  assert (no_output fs1) as Hq1.
  { destruct (negb lost && _); simplify_eq; [|done].
    apply no_output_app; [done|by apply no_output_singleton]. }
  clear H1. destruct (lost && run_state_is_running (info_state run)); [by simplify_eq|].
  destruct (match info_native_service run with Some _ => _ | None => _ end) as [v2 fs2] eqn:H2 in Hrun.
  assert (no_output fs2) as Hq2.
  { destruct (info_native_service run); [|by simplify_eq].
    destruct (_ && _ && _); simplify_eq; [|done].
    apply no_output_app; [done|by apply no_output_singleton]. }
  clear H2. destruct (_ && negb (run_state_is_running (info_state run))); [|by simplify_eq].
  destruct (terminal_event (info_state run)); by simplify_eq/=.
Qed.

Lemma terminal_event_no_output s ev : terminal_event s = Ret ev → ∀ c, ev ≠ OutputEvent c.
Proof. destruct s; intros [= <-]; done. Qed.

(** What a recovery does to the view's flags, and the event it may end with. *)
Lemma recover_frame run d b v v' fs rec :
  recover_lagged_delivery run d b v = Ret (v', fs, rec) →
  receiver_lagged v' = receiver_lagged v ∧
  ∀ ev, rec = RecTerminal ev → ∀ c, ev ≠ OutputEvent c.
Proof.
  unfold recover_lagged_delivery. intros Hrun.
  destruct (if negb _ && _ then _ else _) as [v1 fs1] eqn:H1 in Hrun.
  assert (receiver_lagged v1 = receiver_lagged v) as Hv1 by (by destruct (negb _ && _); simplify_eq).
  clear H1. destruct (_ && run_state_is_running (info_state run)) in Hrun; [by simplify_eq|].
  destruct (match info_native_service run with Some _ => _ | None => _ end) as [v2 fs2] eqn:H2 in Hrun.
  assert (receiver_lagged v2 = receiver_lagged v) as Hv2.
  { destruct (info_native_service run); [|by simplify_eq]. by destruct (_ && _ && _); simplify_eq. }
  clear H2. destruct (_ && negb (run_state_is_running (info_state run))) in Hrun; [|by simplify_eq].
  destruct (terminal_event (info_state run)) as [ev|] eqn:Hev; simplify_eq/=. split; [done|].
  intros ev' [= <-]. by eapply terminal_event_no_output.
Qed.

Lemma client_app cov told fs gs :
  client cov told (fs ++ gs) = client (client cov told fs).1 (client cov told fs).2 gs.
Proof.
  revert cov told. induction fs as [|f fs IH]; intros cov told; simpl; [done|].
  destruct f as [| | | | |[]| | |]; apply IH.
Qed.

Lemma follows_head c e : follows c e → head_of (before e) = head_of c.
Proof.
  intros [[->|Hp] _]; [done|]. by apply pressure_ok in Hp as (_ & _ & _ & ? & _).
Qed.
Lemma follows_event c e ev :
  follows c e → event_of e = Some ev → record ev (before e) = Ret (after e).
Proof.
  intros [_ (ev' & Hrec & Hc)] He. unfold event_of in He. unfold carries in Hc.
  destruct (published e); simplify_eq; done.
Qed.

Lemma received_stream run e a a1 fs ret h0 cov told c :
  received run (Received e) a = Ret (a1, fs, ret) →
  stream_inv h0 cov told (view a) → follows c e → cursor_le (live_cursor (view a)) c →
  (receiver_lagged (view a) = false → c = live_cursor (view a)) → in_order h0 e →
  no_hole cov told fs ∧
  (ended a1 ret ∨
   stream_inv h0 (client cov told fs).1 (client cov told fs).2 (view a1) ∧
   live_cursor (view a1) = after e ∧ receiver_lagged (view a1) = false).
Proof.
  intros Hrun Hinv Hfol Hle Hlag Hord. pose proof (follows_le _ _ Hfol) as [Hle1 Hle2].
  cbn [received] in Hrun.
  destruct (receiver_lagged (view a) || snapshot_needed e) eqn:Hrec.
  - set (v := set_flags false (observation_closed (view a)) (view a)) in Hrun.
    set (b := if snapshot_needed e then after e else before e) in Hrun.
    destruct (recover_lagged_delivery run (live_cursor v) b v) as [[[v' fs0] rec]|] eqn:Hr; [|done].
    cbn [obind] in Hrun. pose proof (recover_no_output _ _ _ _ _ _ _ Hr) as Hno.
    destruct rec as [| |ev].
    + assert (stream_inv h0 cov told v) as Hinv' by (by destruct Hinv).
      assert (cursor_le (live_cursor v) b) as Hleb.
      { unfold b. simpl. destruct (snapshot_needed e); [|by etrans]. etrans; [done|]. by etrans. }
      destruct (recover_stream run b v h0 cov told v' fs0 Hr Hinv' Hleb)
        as (Hn & Hc1 & Hh0 & Hlive & Hk).
      destruct (recover_frame _ _ _ _ _ _ _ Hr) as [Hlag' _].
      destruct (snapshot_needed e) eqn:Hsn.
      * simplify_eq. split; [done|]. right. split; [|by split]. rewrite Hc1. by split.
      * destruct (event_of e) as [ev|] eqn:Hev.
        2:{ unfold event_of, snapshot_needed in *. by destruct (published e). }
        set (a2 := with_view _ (with_view v' a)) in Hrun.
        destruct (deliver_event ev fs0 a2) as [[a3 fs3] ret3] eqn:Hd.
        destruct (deliver_event_stream e ev fs0 a2 a3 fs3 ret3 h0 cov (client cov told fs0).2 Hd Hev)
          as (gs & -> & Hng & Hend); try done; [by eapply follows_event|].
        simplify_eq. split.
        { apply no_hole_app; [done|]. by rewrite Hc1. }
        destruct Hend as [?|(Hs & Hl & Hlg)]; [by left|right].
        rewrite client_app, Hc1.
        split; [done|]. split; [done|]. by rewrite Hlg.
    + destruct (cancel_unadmitted _ _) as [[n cs]|] eqn:Hcan; [|done]. simplify_eq/=.
      split; [|left; by right; right].
      apply no_output_no_hole, no_output_app; [done|]. by eapply cancel_no_output.
    + injection Hrun as Hrun.
      destruct (recover_frame _ _ _ _ _ _ _ Hr) as [_ Hter].
      destruct (deliver_terminal_stream ev fs0 _ _ _ _
                  (client cov told fs0).1 (client cov told fs0).2 Hrun)
        as (gs & -> & Hng & Hend); [by apply Hter|].
      split; [|by left]. apply no_hole_app; [by apply no_output_no_hole|done].
  - apply orb_false_iff in Hrec as [Hlagged Hsn]. cbn [obind] in Hrun. rewrite Hsn in Hrun.
    destruct (event_of e) as [ev|] eqn:Hev.
    2:{ unfold event_of, snapshot_needed in *. by destruct (published e). }
    set (a2 := with_view _ a) in Hrun.
    destruct (deliver_event ev [] a2) as [[a3 fs3] ret3] eqn:Hd.
    destruct Hinv as [Hh0 Hhead].
    destruct (deliver_event_stream e ev [] a2 a3 fs3 ret3 h0 cov told Hd Hev)
      as (gs & -> & Hng & Hend); try done; [by eapply follows_event| |].
    { rewrite (follows_head _ _ Hfol), (Hlag Hlagged). done. }
    simplify_eq. simpl. split; [done|].
    destruct Hend as [?|(Hs & Hl & Hlg)]; [by left|right]. split; [done|]. split; [done|].
    by rewrite Hlg.
Qed.

Lemma deliver_stream rs h0 cov told a a' fs seg c cN :
  deliver_all rs a = Ret (a', fs) →
  covers (concat (map (λ x, as_log x.2) rs)) seg → linked c seg cN → Forall (in_order h0) seg →
  stream_inv h0 cov told (view a) → cursor_le (live_cursor (view a)) c →
  (receiver_lagged (view a) = false → c = live_cursor (view a)) →
  no_hole cov told fs.
Proof.
  revert cov told a a' fs seg c. induction rs as [|[run r] rs IH];
    intros cov told a a' fs seg c Hrun Hcov Hlk Hord Hinv Hle Hlag; cbn [deliver_all] in Hrun.
  { by simplify_eq. }
  destruct (enabled (Recv run r) a); [|by simplify_eq].
  destruct r as [e|n|]; simpl in Hcov.
  - destruct Hcov as (seg' & -> & Hcov). destruct Hlk as [Hfol Hlk].
    apply Forall_cons in Hord as [Ho Hord].
    destruct (received run (Received e) a) as [[[a1 fs1] ret]|] eqn:Hr; [|done].
    cbn [obind] in Hrun.
    destruct (received_stream run e a a1 fs1 ret h0 cov told c Hr Hinv Hfol Hle Hlag Ho)
      as (Hn & Hnext).
    destruct ret; [by simplify_eq|].
    destruct (deliver_all rs a1) as [[a2 gs]|] eqn:Hd; [|done]. simplify_eq/=.
    destruct Hnext as [Hend|(Hi & Hl & Hf)].
    { rewrite ended_delivers_nothing in Hd by done. simplify_eq. by rewrite app_nil_r. }
    apply no_hole_app; [done|].
    eapply (IH _ _ a1 a' gs seg' (after e)); try done; by rewrite Hl.
  - cbn in Hrun.
    destruct (deliver_all rs _) as [[a2 gs]|] eqn:Hd; [|done]. simplify_eq/=.
    destruct Hcov as [Hn Hcov]. rewrite <-(takeN_dropN n seg) in Hlk, Hord.
    apply linked_app in Hlk as (m & Hlk1 & Hlk2). apply Forall_app in Hord as [_ Hord].
    apply linked_le in Hlk1.
    eapply (IH _ _ _ a' fs (dropN n seg) m Hd); try done; simpl; [by destruct Hinv|by etrans].
  - by simplify_eq/=.
Qed.

(** C36: a client that attached at [covered] and follows its live view gets the
    Run's output with no silent hole: every output frame starts at or before the
    byte the client has reached, unless a [Gap] was written since its last output.
    This holds through receiver lag, pressure retirement, unfunded events and
    source gaps. *)
Theorem attachment_output_has_no_silent_hole rs h0 covered a a' fs seg cN
    (Hrun : deliver_all rs a = Ret (a', fs))
    (Hcov : covers (concat (map (λ x, as_log x.2) rs)) seg)
    (Hlk : linked (live_cursor (view a)) seg cN) (Hord : Forall (in_order h0) seg)
    (Hh0 : h0 ≤ sent_through_byte (view a)) (Hhead : head_of (live_cursor (view a)) ≤ covered)
    (Hsent : sent_through_byte (view a) ≤ covered) :
  no_hole covered false fs.
Proof.
  eapply deliver_stream; try done. split; [done|]. by right.
Qed.

(** ** Evaluated instance: two chunks, the first of which the receiver lagged *)

Definition sample_chunk (s e : N) : OutputChunk := {| start_byte := s; end_byte := e; data := [] |}.
Definition sample_cursor (n : N) : LiveEventCursor :=
  {| output_bytes := n; output_discontinuity_revision := 0; latest_output_discontinuity_byte := 0;
     observation_revision := 0; terminal_revision := 0; resize_revision := 0;
     service_revision := 0; gap_causes := GapCauses.zero |}.
Definition sample_envelope (s e : N) : LiveRunEvent :=
  {| published := Funded 0 (OutputEvent (sample_chunk s e)); before := sample_cursor s;
     after := sample_cursor e |}.
Definition sample_info : RunInfo :=
  {| info_id := 1; info_spec := None; info_lineage := None; info_backend := NativeBackend;
     info_capabilities := NATIVE; info_pid := None; info_state := Running;
     info_native_service := None; info_latest_output_bytes := 9;
     info_durable_output_bytes := None; info_first_available_byte := 0; info_attachments := 1;
     info_applied_input_bytes := None; info_current_size := None |}.
Definition sample_view : View :=
  {| live_cursor := sample_cursor 0; sent_through_byte := 0; sent_service_revision := 0;
     sent_resize_revision := 0; receiver_lagged := false; observation_closed := false |}.
Definition sample_at : At :=
  {| view := sample_view;
     controls := {| last_command_id := None; pending_stops := 0; held_terminal := None |};
     command_admissions := []; command_results := [] |}.

Lemma attachment_output_has_no_silent_hole_witness :
  ∃ a' fs, deliver_all [(sample_info, RecvLagged 1); (sample_info, Received (sample_envelope 4 20))]
             sample_at = Ret (a', fs) ∧ no_hole 0 false fs ∧
           fs = [FEvent (Gap 9 OutputGapCauses.SUBSCRIBER_LAG);
                 FEvent (OutputEvent (sample_chunk 4 20))].
Proof.
  eexists _, _. split; [vm_compute; reflexivity|]. split; [|reflexivity].
  eapply (attachment_output_has_no_silent_hole
            [(sample_info, RecvLagged 1); (sample_info, Received (sample_envelope 4 20))]
            0 0 sample_at _ _ [sample_envelope 0 4; sample_envelope 4 20]).
  - vm_compute. reflexivity.
  - vm_compute. split; [done|]. by eexists.
  - assert (∀ s e, s ≤ e → follows (sample_cursor s) (sample_envelope s e)) as Hf.
    { intros s e Hse. split; [by left|]. exists (OutputEvent (sample_chunk s e)).
      split; [|done]. unfold record. simpl. rewrite N.max_r by done. done. }
    split; [by apply (Hf 0 4)|]. split; [by apply (Hf 4 20)|]. reflexivity.
  - repeat constructor; vm_compute; done.
  - done.
  - done.
  - done.
Defined.
