(* ===== verification/NativeControl.v ===== *)
(** * Native control

    [crates/ctxmux-daemon/src/native_control.rs]: the sole live-control authority
    of one native Run.  It queues PTY input, keeps the ledger of recoverable input
    operations, writes input in bounded turns, fences input behind Stop, exit and
    owner loss, and hands its settled ledger across an upgrade.

    A locked section is a function on [Control]: the fields of
    [NativeControlInner] and the [NativeControlState] behind its mutex.  Reply
    channels are numbered; a send is an entry of a log in [Control], in the order
   in which the source sends.  The kernel's answer to a [write] is an argument. *)

From S2P Require Import Prelude.
From S2P Require Import Protocol.
From S2P Require Import Resources.
Local Open Scope string_scope.
Local Open Scope N_scope.

Definition INPUT_RESULT_DIAGNOSTIC_RESERVE_BYTES : N := 4 * 1024.

(** [size_of] of the two structs the control budget is charged for. *)
Class ControlLayout := {
  size_of_input_command : N;
  size_of_operation_entry : N;
}.

Inductive ControlPhase := PhaseOpen | PhaseStopping | PhaseClosed | PhaseFailed.
#[global] Instance ControlPhase_eq_dec : EqDecision ControlPhase.
Proof. solve_decision. Defined.

(** A [oneshot] or [watch] sender is the number of its channel. *)
Inductive InputReply :=
  | Legacy (channel : N)
  | Recoverable (key : InputOperationKey) (channel : N).
#[global] Instance InputReply_eq_dec : EqDecision InputReply.
Proof. solve_decision. Defined.

Record InputCommand := {
  command_memory : option N;
  command_data : bytes;
  confirmed : N;
  reply : InputReply;
}.

Record InputOperationRequest := {
  request_memory : option N;
  expected_byte : N;
  request_data : bytes;
}.
(** [PartialEq for InputOperationRequest] ignores the permit. *)
Definition request_eq (a b : InputOperationRequest) : bool :=
  bool_decide (expected_byte a = expected_byte b) && bool_decide (request_data a = request_data b).

Inductive InputOperationEntry :=
  | EntryPending (request : InputOperationRequest) (channel : N)
  | EntryCompleted (request : InputOperationRequest) (range : AppliedInputRange)
  | EntryUnknown (request : InputOperationRequest) (failure : ControlFailure).

Definition entry_request (e : InputOperationEntry) : InputOperationRequest :=
  match e with EntryPending r _ | EntryCompleted r _ | EntryUnknown r _ => r end.

Inductive StopOwnerResult :=
  | StopAccepted (d : StopDisposition)
  | StopRejected (f : ControlFailure)
  | StopUnknown (message : string).

Inductive ChildCommand :=
  | ChildSignal (signal : RunSignal) (foreground_group : N) (channel : N)
  | ChildStop (channel : N) (timeout_ms : N)
  | CleanupUnpublished.

(** ** The state behind the mutex, field group by field group *)

Record InputLane := {
 input_queue : list InputCommand;
 input_commands : N;
 input_bytes : N;
 input_scheduled : bool;
 input_blocked : bool;
 input_failure : option ProtocolError;
  applied_input_bytes : N;
}.
Record InputLedger := {
 input_operations : gmap InputOperationKey InputOperationEntry;
  completed_input_operations : list InputOperationKey;
  retained_input_request_bytes : N;
}.
Record ChildLane := {
  child_open : bool;
  stop_pending : bool;
  child_commands : list ChildCommand;
}.
Record NativeControlState := {
  phase : ControlPhase;
  confirmed_size : option TerminalSize;
  owner_failure : option NativeServiceFailure;
  lane : InputLane;
  ledger : InputLedger;
  child : ChildLane;
 input_result_max_entries : N;
 input_result_max_request_bytes : N;
}.

(** What one reply channel was sent. *)
Inductive Sent :=
  | SentInput (reply : InputReply) (result : result AppliedInputRange ControlFailure)
  | SentSignal (channel : N) (result : result unit string)
  | SentStop (channel : N) (result : StopOwnerResult).

Record Control := {
  control_run : RunId;
  resources : ResourceLimits;
  state : NativeControlState;
 inner_failure : option NativeServiceFailure;  (** the [OnceLock] *)
  writer_open : bool;
  control_budget : ByteBudget.t;  (** shared by the daemon's owners *)
  service_bound : bool;
  published : list NativeInputStatus;  (** sent to [NativeService::update_input] *)
  next_channel : N;
  sent : list Sent;
}.

(** Field updates. *)
Definition set_queue (q : list InputCommand) (commands size : N) (l : InputLane) : InputLane :=
  {| input_queue := q; input_commands := commands; input_bytes := size; input_scheduled :=
    input_scheduled l; input_blocked := input_blocked l; input_failure := input_failure l;
     applied_input_bytes := applied_input_bytes l |}.
Definition set_head (q : list InputCommand) (l : InputLane) : InputLane :=
  {| input_queue := q; input_commands := input_commands l; input_bytes := input_bytes l;
    input_scheduled := input_scheduled l; input_blocked := input_blocked l; input_failure
     := input_failure l; applied_input_bytes := applied_input_bytes l |}.
Definition set_flags (scheduled blocked : bool) (l : InputLane) : InputLane :=
  {| input_queue := input_queue l; input_commands := input_commands l; input_bytes :=
    input_bytes l; input_scheduled := scheduled; input_blocked := blocked; input_failure :=
    input_failure l; applied_input_bytes := applied_input_bytes l |}.
Definition set_failure (e : option ProtocolError) (l : InputLane) : InputLane :=
  {| input_queue := input_queue l; input_commands := input_commands l; input_bytes :=
    input_bytes l; input_scheduled := input_scheduled l; input_blocked := input_blocked l;
    input_failure := e; applied_input_bytes := applied_input_bytes l |}.
Definition set_applied (n : N) (l : InputLane) : InputLane :=
  {| input_queue := input_queue l; input_commands := input_commands l; input_bytes :=
    input_bytes l; input_scheduled := input_scheduled l; input_blocked := input_blocked l;
    input_failure := input_failure l; applied_input_bytes := n |}.
Definition set_operations (m : gmap InputOperationKey InputOperationEntry) (g : InputLedger) : InputLedger :=
  {| input_operations := m; completed_input_operations := completed_input_operations g;
     retained_input_request_bytes := retained_input_request_bytes g |}.
Definition set_completed (ks : list InputOperationKey) (g : InputLedger) : InputLedger :=
  {| input_operations := input_operations g; completed_input_operations := ks;
     retained_input_request_bytes := retained_input_request_bytes g |}.
Definition set_retained (n : N) (g : InputLedger) : InputLedger :=
  {| input_operations := input_operations g; completed_input_operations :=
     completed_input_operations g; retained_input_request_bytes := n |}.
Definition set_phase (p : ControlPhase) (s : NativeControlState) : NativeControlState :=
  {| phase := p; confirmed_size := confirmed_size s; owner_failure := owner_failure s; lane
     := lane s; ledger := ledger s; child := child s; input_result_max_entries :=
    input_result_max_entries s; input_result_max_request_bytes :=
    input_result_max_request_bytes s |}.
Definition set_size (z : option TerminalSize) (s : NativeControlState) : NativeControlState :=
  {| phase := phase s; confirmed_size := z; owner_failure := owner_failure s; lane := lane
     s; ledger := ledger s; child := child s; input_result_max_entries :=
    input_result_max_entries s; input_result_max_request_bytes :=
    input_result_max_request_bytes s |}.
Definition set_owner_failure (r : option NativeServiceFailure) (s : NativeControlState) : NativeControlState :=
  {| phase := phase s; confirmed_size := confirmed_size s; owner_failure := r; lane := lane
     s; ledger := ledger s; child := child s; input_result_max_entries :=
    input_result_max_entries s; input_result_max_request_bytes :=
    input_result_max_request_bytes s |}.
Definition set_lane (l : InputLane) (s : NativeControlState) : NativeControlState :=
  {| phase := phase s; confirmed_size := confirmed_size s; owner_failure := owner_failure s;
     lane := l; ledger := ledger s; child := child s; input_result_max_entries :=
    input_result_max_entries s; input_result_max_request_bytes :=
    input_result_max_request_bytes s |}.
Definition set_ledger (g : InputLedger) (s : NativeControlState) : NativeControlState :=
  {| phase := phase s; confirmed_size := confirmed_size s; owner_failure := owner_failure s;
     lane := lane s; ledger := g; child := child s; input_result_max_entries :=
    input_result_max_entries s; input_result_max_request_bytes :=
    input_result_max_request_bytes s |}.
Definition set_child (d : ChildLane) (s : NativeControlState) : NativeControlState :=
  {| phase := phase s; confirmed_size := confirmed_size s; owner_failure := owner_failure s;
     lane := lane s; ledger := ledger s; child := d; input_result_max_entries :=
    input_result_max_entries s; input_result_max_request_bytes :=
    input_result_max_request_bytes s |}.
Definition set_state (s : NativeControlState) (c : Control) : Control :=
  {| control_run := control_run c; resources := resources c; state := s; inner_failure :=
    inner_failure c; writer_open := writer_open c; control_budget := control_budget c;
     service_bound := service_bound c; published := published c; next_channel :=
     next_channel c; sent := sent c |}.
Definition set_inner_failure (r : option NativeServiceFailure) (c : Control) : Control :=
  {| control_run := control_run c; resources := resources c; state := state c; inner_failure
     := r; writer_open := writer_open c; control_budget := control_budget c; service_bound
     := service_bound c; published := published c; next_channel := next_channel c; sent :=
     sent c |}.
Definition set_budget (b : ByteBudget.t) (c : Control) : Control :=
  {| control_run := control_run c; resources := resources c; state := state c; inner_failure
     := inner_failure c; writer_open := writer_open c; control_budget := b; service_bound :=
     service_bound c; published := published c; next_channel := next_channel c; sent := sent
     c |}.
Definition set_published (ps : list NativeInputStatus) (c : Control) : Control :=
  {| control_run := control_run c; resources := resources c; state := state c; inner_failure
     := inner_failure c; writer_open := writer_open c; control_budget := control_budget c;
     service_bound := service_bound c; published := ps; next_channel := next_channel c; sent
     := sent c |}.
Definition set_channel (n : N) (c : Control) : Control :=
  {| control_run := control_run c; resources := resources c; state := state c; inner_failure
     := inner_failure c; writer_open := writer_open c; control_budget := control_budget c;
     service_bound := service_bound c; published := published c; next_channel := n; sent :=
     sent c |}.
Definition set_sent (ss : list Sent) (c : Control) : Control :=
  {| control_run := control_run c; resources := resources c; state := state c; inner_failure
     := inner_failure c; writer_open := writer_open c; control_budget := control_budget c;
     service_bound := service_bound c; published := published c; next_channel :=
     next_channel c; sent := ss |}.

Definition upd_state (f : NativeControlState → NativeControlState) (c : Control) : Control :=
  set_state (f (state c)) c.
Definition upd_lane (f : InputLane → InputLane) : Control → Control :=
  upd_state (λ s, set_lane (f (lane s)) s).
Definition upd_ledger (f : InputLedger → InputLedger) : Control → Control :=
  upd_state (λ s, set_ledger (f (ledger s)) s).
Definition upd_child (f : ChildLane → ChildLane) : Control → Control :=
  upd_state (λ s, set_child (f (child s)) s).
Definition open_child (b : bool) (d : ChildLane) : ChildLane :=
  {| child_open := b; stop_pending := false; child_commands := child_commands d |}.
Definition set_stop_pending (b : bool) (d : ChildLane) : ChildLane :=
  {| child_open := child_open d; stop_pending := b; child_commands := child_commands d |}.
Definition set_child_commands (cs : list ChildCommand) (d : ChildLane) : ChildLane :=
  {| child_open := child_open d; stop_pending := stop_pending d; child_commands := cs |}.
Definition send (e : Sent) (c : Control) : Control := set_sent (sent c ++ [e]) c.
Definition drop_memory (memory : option N) (c : Control) : Control :=
  match memory with
  | Some permit => set_budget (ByteBudget.drop_permit permit (control_budget c)) c
  | None => c
  end.

(** ** Errors and the published status *)

Definition not_applied (e : ProtocolError) : ControlFailure :=
  {| error := e; disposition := NotApplied; confirmed_input_bytes := None |}.
Definition unknown (e : ProtocolError) : ControlFailure :=
  {| error := e; disposition := Unknown; confirmed_input_bytes := None |}.
Definition with_prefix (k : N) (f : ControlFailure) : ControlFailure :=
  {| error := error f; disposition := disposition f; confirmed_input_bytes := Some k |}.

Definition input_status (s : NativeControlState) : NativeInputStatus :=
  {| input_phase :=
       match owner_failure s with
       | Some reason => InputUnavailable reason
       | None =>
           if decide (phase s ≠ PhaseOpen) then InputClosed
           else match input_failure (lane s) with
                | Some _ => InputUnavailable WriteFailed
                | None => InputOpen
                end
       end;
     unsettled_commands := input_commands (lane s);
     unsettled_request_bytes := input_bytes (lane s);
     write_blocked := input_blocked (lane s);
     completed_input_bytes := Some (applied_input_bytes (lane s));
     current_size := confirmed_size s;
     active_confirmed_bytes :=
       match input_queue (lane s) with command :: _ => confirmed command | [] => 0 end |}.

Definition publish_input (c : Control) : Control :=
  if service_bound c then set_published (published c ++ [input_status (state c)]) c else c.

Section control.
Context `{!UuidDisplay, !ControlLayout}.

Definition input_receipt_charge (key : InputOperationKey) (d : bytes) : N :=
  len d + slen key * 2 + size_of_operation_entry + INPUT_RESULT_DIAGNOSTIC_RESERVE_BYTES.

Definition invalid_phase_error (id : RunId) (p : ControlPhase) (operation : string)
    : outcome ProtocolError :=
  match p with
  | PhaseOpen => Panic "open phase is valid"
  | PhaseStopping => Ret (protocol_error InvalidRunState
      ("cannot " +:+ operation +:+ " stopping Run " +:+ show_run_id id))
  | PhaseClosed => Ret (protocol_error InvalidRunState
      ("cannot " +:+ operation +:+ " exited Run " +:+ show_run_id id))
  | PhaseFailed => Ret (protocol_error BackendUnavailable
      ("cannot " +:+ operation +:+ " Run " +:+ show_run_id id +:+
       " after child wait authority was lost"))
  end.

(** ** Replies, capacity and the ledger *)

(** The receipt a [Legacy] caller reads for a whole applied range. *)
Definition legacy_receipt (r : result AppliedInputRange ControlFailure) : ControlResult :=
  result_map (λ range, InputReceipt (range_end_byte range - range_start_byte range)) r.

Definition resolve_input_reply (r : InputReply) (res : result AppliedInputRange ControlFailure)
    (c : Control) : outcome Control :=
  let! _ := match r, res with
            | Legacy _, Ok range =>
                let! written := minus_u64 (range_end_byte range) (range_start_byte range) in
                check "bounded input frame length fits u32" (bool_decide (written ≤ u32_max))
            | _, _ => Ret tt
            end in
  Ret (send (SentInput r res) c).

Fixpoint send_rejections (rejected : list (InputReply * ControlFailure)) (c : Control)
    : outcome Control :=
  match rejected with
  | [] => Ret c
  | (r, failure) :: rejected =>
      let! c := resolve_input_reply r (Err failure) c in
      send_rejections rejected c
  end.

Definition release_input_capacity (size : N) (c : Control) : outcome Control :=
  let l := lane (state c) in
  let! commands := expect "input command accounting remains balanced"
                     (checked_sub (input_commands l) 1) in
  let! left := expect "input byte accounting remains balanced"
                 (checked_sub (input_bytes l) size) in
  Ret (upd_lane (set_queue (input_queue l) commands left) c).

Definition remove_input_operation (key : InputOperationKey) (c : Control) : outcome Control :=
  let g := ledger (state c) in
  match input_operations g !! key with
  | None => Ret c
  | Some entry =>
      let c := upd_ledger (set_operations (delete key (input_operations g))) c in
      let! retained := expect "retained recoverable Input bytes remain balanced"
          (checked_sub (retained_input_request_bytes g) (len (request_data (entry_request entry)))) in
      Ret (drop_memory (request_memory (entry_request entry)) (upd_ledger (set_retained retained) c))
  end.

Definition retain_unknown_input_operation (r : InputReply) (failure : ControlFailure)
    (c : Control) : outcome Control :=
  match r with
  | Legacy _ => Ret c
  | Recoverable key _ =>
      let g := ledger (state c) in
      let! entry := expect "recoverable Input failure retains its pending operation"
                      (input_operations g !! key) in
      Ret (upd_ledger (set_operations
             (<[key := EntryUnknown (entry_request entry) failure]> (input_operations g))) c)
  end.

(** The [while let] of [reject_queued_inputs], over the queue it empties. *)
Fixpoint reject_commands (e : ProtocolError) (queue : list InputCommand) (c : Control)
    : outcome (Control * list (InputReply * ControlFailure)) :=
  match queue with
  | [] => Ret (c, [])
  | command :: queue =>
      let c := upd_lane (set_head queue) c in
      let! c := release_input_capacity (len (command_data command)) c in
      let! '(c, failure) :=
        if decide (confirmed command = 0) then
          let! c := match reply command with
                    | Recoverable key _ => remove_input_operation key c
                    | Legacy _ => Ret c
                    end in
          Ret (c, not_applied e)
        else
          let c := upd_lane (set_failure (Some e)) c in
          let failure := with_prefix (confirmed command) (unknown e) in
          let! c := retain_unknown_input_operation (reply command) failure c in
          Ret (c, failure) in
      let c := drop_memory (command_memory command) c in
      let! '(c, rejected) := reject_commands e queue c in
      Ret (c, (reply command, failure) :: rejected)
  end.

Definition reject_queued_inputs (e : ProtocolError) (c : Control)
    : outcome (Control * list (InputReply * ControlFailure)) :=
  let c := upd_lane (set_flags false false) c in
  reject_commands e (input_queue (lane (state c))) c.

Fixpoint reject_child_commands (commands : list ChildCommand) (reason : string) (kind : ErrorCode)
    (c : Control) : Control :=
  match commands with
  | [] => c
  | command :: commands =>
      let c := match command with
               | ChildSignal _ _ channel => send (SentSignal channel (Err reason)) c
               | ChildStop channel _ =>
                   send (SentStop channel (StopRejected (not_applied (protocol_error kind reason)))) c
               | CleanupUnpublished => c
               end in
      reject_child_commands commands reason kind c
  end.

(** ** Releasing the state guard

    [ControlStateGuard]'s [Drop]: the first release after the owner was lost
    settles everything that still waits in this Run. *)

Definition settle_owner_loss (c : Control)
    : outcome (Control * list (InputReply * ControlFailure) * list ChildCommand) :=
  match inner_failure c with
  | None => Ret (c, [], [])
  | Some reason =>
      match owner_failure (state c) with
      | Some _ => Ret (c, [], [])
      | None =>
          let c := upd_child (set_stop_pending false) (upd_state (set_owner_failure (Some reason)) c) in
          let! '(c, rejected) := reject_queued_inputs
            (protocol_error BackendUnavailable "daemon-wide Native input owner stopped") c in
          let c := publish_input c in
          Ret (upd_child (set_child_commands []) c, rejected, child_commands (child (state c)))
      end
  end.

Definition release_guard (c : Control) : outcome Control :=
  let! '(c, rejected, commands) := settle_owner_loss c in
  let! c := send_rejections rejected c in
  Ret (reject_child_commands commands "native owner stopped before control admission"
         BackendUnavailable c).

(** [fence_owner_loss]'s [OnceLock::set], which takes no lock: it can run at any
    moment of another thread's section. *)
Definition lose_owner (late : option NativeServiceFailure) (c : Control) : Control :=
  match inner_failure c with None => set_inner_failure late c | Some _ => c end.

(** A section under the guard; [late] is an owner loss recorded after the
    section looked and before the guard is released. *)
Definition with_guard {A} (late : option NativeServiceFailure) (m : M Control ControlFailure A)
    : M Control ControlFailure A := λ c,
  let! '(c, r) := m c in
  let! c := release_guard (lose_owner late c) in
  Ret (c, r).

Definition fence_owner_loss (reason : NativeServiceFailure) (busy : bool) (c : Control)
    : outcome Control :=
  let c := lose_owner (Some reason) c in
  if busy then Ret c else release_guard c.

(** ** Admission of input *)

Definition CM (A : Type) : Type := M Control ControlFailure A.

Definition ensure_open (operation : string) : CM unit :=
  let* c := get in
  if decide (phase (state c) = PhaseOpen) then mret_ tt
  else let* e := lift_outcome (invalid_phase_error (control_run c) (phase (state c)) operation) in
       mfail (not_applied e).

Definition ensure_owner (reason : string) : CM unit :=
  let* c := get in
  ensure (bool_decide (inner_failure c = None)) (not_applied (protocol_error BackendUnavailable reason)).

Definition ensure_lane : CM unit :=
  let* c := get in
  match input_failure (lane (state c)) with
  | Some e => mfail (not_applied e)
  | None => mret_ tt
  end.

(** A permit the caller already holds, or a new one. *)
Definition fund (memory : option N) (size : N) (refusal : ControlFailure) : CM N :=
  match memory with
  | Some permit => mret_ permit
  | None =>
      let* c := get in
      let '(b, permit) := ByteBudget.reserve size (control_budget c) in
      match permit with
      | Some permit => modify (set_budget b) ;;; mret_ permit
      | None => mfail refusal
      end
  end.

(** An early return drops the permit the caller passed in. *)
Definition dropping {A} (memory : option N) (m : CM A) : CM A := λ c,
  let! '(c, r) := m c in
  Ret (match r with Ok _ => c | Err _ => drop_memory memory c end, r).

Definition fresh_channel : CM N :=
  let* c := get in
  put (set_channel (next_channel c + 1) c) ;;; mret_ (next_channel c).

Definition enqueue (command : InputCommand) : CM unit :=
  modify (upd_lane (λ l,
    set_flags true (input_blocked l)
      (set_queue (input_queue l ++ [command]) (input_commands l + 1)
         (input_bytes l + len (command_data command)) l))).

Definition queue_full (size : N) (c : Control) : bool :=
  bool_decide (input_queue_commands (resources c) ≤ input_commands (lane (state c)))
  || bool_decide (input_queue_bytes (resources c) -sat input_bytes (lane (state c)) < size).

Definition begin_input_locked (d : bytes) (memory : option N) : CM N :=
  dropping memory (
    ensure_open "write to" ;;;
    ensure_owner "daemon-wide Native input owner stopped" ;;;
    ensure_lane ;;;
    let* c := get in
    ensure (negb (queue_full (len d) c)) (not_applied (protocol_error ControlBackpressure
      ("Run " +:+ show_run_id (control_run c) +:+ " PTY input queue exceeds its " +:+
       pretty (input_queue_commands (resources c)) +:+ "-command or " +:+
       pretty (input_queue_bytes (resources c)) +:+ "-byte budget"))) ;;;
    let* permit := fund memory (len d + size_of_input_command)
      (not_applied (protocol_error ControlBackpressure "daemon input queue byte budget is full")) in
    let* channel := fresh_channel in
    enqueue {| command_memory := Some permit; command_data := d; confirmed := 0;
               reply := Legacy channel |} ;;;
    modify publish_input ;;;
    mret_ channel).

Definition input_request (key : InputOperationKey) (expected : N) (d : bytes)
    : result InputOperationRequest ControlFailure :=
  let? _ := map_err (λ e, not_applied (protocol_error InvalidRequest (input_key_error_display e)))
              (input_key_validate key) in
  if decide (d = []) then
    Err (not_applied (protocol_error InvalidRequest "recoverable native Input must not be empty"))
  else Ok {| request_memory := None; expected_byte := expected; request_data := d |}.

(** [PendingRecoverableInput]: a settled result, or a channel to wait on. *)
Inductive PendingRecoverableInput :=
  | ReadyInput (r : result AppliedInputRange ControlFailure)
  | WaitingInput (channel : N).

Definition retained_input_result (s : NativeControlState) (key : InputOperationKey)
    (request : InputOperationRequest) (id : RunId)
    : result (option PendingRecoverableInput) ControlFailure :=
  match input_operations (ledger s) !! key with
  | None => Ok None
  | Some existing =>
      if negb (request_eq (entry_request existing) request) then
        Err (not_applied (protocol_error InputOperationConflict
          ("native Input operation key is retained for another request on Run " +:+ show_run_id id)))
      else Ok (Some (match existing with
                     | EntryPending _ channel => WaitingInput channel
                     | EntryCompleted _ range => ReadyInput (Ok range)
                     | EntryUnknown _ failure => ReadyInput (Err failure)
                     end))
  end.

Definition ledger_full (size : N) (s : NativeControlState) : bool :=
  bool_decide (input_result_max_entries s ≤ N.of_nat (base.size (input_operations (ledger s))))
  || bool_decide (input_result_max_request_bytes s -sat retained_input_request_bytes (ledger s) < size).

(** The [while] loop evicts oldest first; every turn pops one completed key. *)
Fixpoint evict_completed (completed : list InputOperationKey) (size : N) (c : Control)
    : outcome Control :=
  if negb (ledger_full size (state c)) then Ret c else
  match completed with
  | [] => Ret c
  | key :: completed =>
      let c := upd_ledger (set_completed completed) c in
      let! c := match input_operations (ledger (state c)) !! key with
                | Some (EntryCompleted _ _) => remove_input_operation key c
                | _ => Ret c
                end in
      evict_completed completed size c
  end.
Definition evict_completed_input_results (size : N) (c : Control) : outcome Control :=
  evict_completed (completed_input_operations (ledger (state c))) size c.

Definition lift_section (f : Control → outcome Control) : CM unit := λ c,
  let! c := f c in Ret (c, Ok tt).

Definition begin_recoverable_input_locked (key : InputOperationKey)
    (request : InputOperationRequest) : CM PendingRecoverableInput :=
  dropping (request_memory request) (
    let* c := get in
    let* retained := lift_result (retained_input_result (state c) key request (control_run c)) in
    match retained with
    | Some retained => modify (drop_memory (request_memory request)) ;;; mret_ retained
    | None =>
        ensure_open "write to" ;;;
        ensure_owner "daemon-wide Native input owner stopped" ;;;
        ensure_lane ;;;
        let size := len (request_data request) in
        lift_section (evict_completed_input_results size) ;;;
        let* c := get in
        ensure (negb (ledger_full size (state c) || queue_full size c))
          (not_applied (protocol_error ControlBackpressure
            ("Run " +:+ show_run_id (control_run c) +:+
             " recoverable Input result or queue capacity is full"))) ;;;
        let* permit := fund (request_memory request) (input_receipt_charge key (request_data request))
          (not_applied (protocol_error ControlBackpressure
            "daemon control-state byte budget is full")) in
        let* channel := fresh_channel in
        let request := {| request_memory := Some permit; expected_byte := expected_byte request;
                          request_data := request_data request |} in
        modify (upd_ledger (λ g,
          set_retained (retained_input_request_bytes g + size)
            (set_operations (<[key := EntryPending request channel]> (input_operations g)) g))) ;;;
        enqueue {| command_memory := None; command_data := request_data request; confirmed := 0;
                   reply := Recoverable key channel |} ;;;
        modify publish_input ;;;
        mret_ (WaitingInput channel)
    end).

(** The asynchronous entry points.  [immediate] is a successful [try_state]; a
    caller that has to wait first reserves its payload, and the section then runs
    with that permit in a later step. *)
Definition begin_input_async (immediate : bool) (late : option NativeServiceFailure) (d : bytes)
    : CM (N + N) :=
  ensure_owner "Native owner stopped before command admission" ;;;
  if immediate then let* channel := with_guard late (begin_input_locked d None) in mret_ (inl channel)
  else let* permit := fund None (len d + size_of_input_command)
         (not_applied (protocol_error ControlBackpressure
            "daemon input waiting-payload byte budget is full")) in
       mret_ (inr permit).

Definition begin_recoverable_input_async (immediate : bool) (late : option NativeServiceFailure)
    (key : InputOperationKey) (expected : N) (d : bytes)
    : CM (PendingRecoverableInput + InputOperationRequest) :=
  let* request := lift_result (input_request key expected d) in
  if immediate then
    let* pending := with_guard late (begin_recoverable_input_locked key request) in mret_ (inl pending)
  else
    let* permit := fund None (input_receipt_charge key d)
      (unknown (protocol_error ControlBackpressure
        "Native result ledger is busy and waiting-payload budget is full; application status is unknown")) in
    mret_ (inr {| request_memory := Some permit; expected_byte := expected; request_data := d |}).

(** ** One physical input turn *)

(** What the nonblocking [write] answered. *)
Inductive WriteResult :=
  | Wrote (n : N)
  | WouldBlock
  | Interrupted
  | WriteError (display : string)
  | WriteUnwound.

Inductive TurnEnd := TurnContinue (commands size : N) | TurnReturn.

(** [input_failure]: the lane is poisoned; the current caller gets its own error. *)
Definition record_input_failure (kind : ErrorCode) (detail : string) (c : Control)
    : Control * ProtocolError :=
  (upd_lane (set_failure (Some (protocol_error kind
     ("Run " +:+ show_run_id (control_run c) +:+ " PTY input lane is unavailable after " +:+ detail)))) c,
   protocol_error kind
     ("failed to write Run " +:+ show_run_id (control_run c) +:+ " PTY input: " +:+ detail)).

Definition expected_cursor (r : InputReply) (c : Control) : outcome N :=
  match r with
  | Legacy _ => Ret (applied_input_bytes (lane (state c)))
  | Recoverable key _ =>
      let! entry := expect "queued Input retains its funded ledger entry"
                      (input_operations (ledger (state c)) !! key) in
      Ret (expected_byte (entry_request entry))
  end.

(** The cursor check failed before any byte of the command was attempted. *)
Definition refuse_front (front : InputCommand) (queue : list InputCommand) (expected : N)
    (late : option NativeServiceFailure) (c : Control) : outcome Control :=
  let! _ := check "cursor checks precede every physical attempt"
              (bool_decide (confirmed front = 0)) in
  let c := upd_lane (set_head queue) c in
  let! c := release_input_capacity (len (command_data front)) c in
  let! c := match reply front with
            | Recoverable key _ => remove_input_operation key c
            | Legacy _ => Ret c
            end in
  let failure := not_applied (protocol_error InputCursorMismatch
    ("Run " +:+ show_run_id (control_run c) +:+ " applied-input cursor is " +:+
     pretty (applied_input_bytes (lane (state c))) +:+ ", not expected " +:+ pretty expected +:+
     ", or exhausted")) in
  let! c := release_guard (lose_owner late (publish_input c)) in
  let! c := resolve_input_reply (reply front) (Err failure) c in
  Ret (drop_memory (command_memory front) c).

(** The whole command crossed the PTY. *)
Definition complete_front (front : InputCommand) (queue : list InputCommand) (e : N)
    (late : option NativeServiceFailure) (c : Control) : outcome Control :=
  let c := upd_lane (set_head queue) c in
  let range := {| range_start_byte := applied_input_bytes (lane (state c)); range_end_byte := e |} in
  let c := upd_lane (set_applied e) c in
  let! c := release_input_capacity (len (command_data front)) c in
  let! c := match reply front with
            | Legacy _ => Ret c
            | Recoverable key _ =>
                let g := ledger (state c) in
                let! entry := expect "called `Option::unwrap()` on a `None` value"
                                (input_operations g !! key) in
                Ret (upd_ledger (λ g, set_completed (completed_input_operations g ++ [key])
                       (set_operations
                          (<[key := EntryCompleted (entry_request entry) range]>
                             (input_operations g)) g)) c)
            end in
  let c := upd_lane (set_flags (bool_decide (queue ≠ [])) (input_blocked (lane (state c)))) c in
  let! c := release_guard (lose_owner late (publish_input c)) in
  let! c := resolve_input_reply (reply front) (Ok range) c in
  Ret (drop_memory (command_memory front) c).

(** The lane fails with an unconfirmed attempt. *)
Definition fail_front (front : InputCommand) (queue : list InputCommand) (kind : ErrorCode)
    (detail : string) (late : option NativeServiceFailure) (c : Control) : outcome Control :=
  let c := upd_lane (set_head queue) c in
  let! c := release_input_capacity (len (command_data front)) c in
  let '(c, e) := record_input_failure kind detail c in
  let failure := with_prefix (confirmed front) (unknown e) in
  let! c := retain_unknown_input_operation (reply front) failure c in
  let! '(c, rejected) := reject_queued_inputs e c in
  let! c := release_guard (lose_owner late (publish_input c)) in
  let! c := resolve_input_reply (reply front) (Err failure) c in
  let! c := send_rejections rejected c in
  Ret (drop_memory (command_memory front) c).

Definition io_error (w : WriteResult) : ErrorCode * string :=
  match w with
  | WriteError display => (Io, "PTY input I/O failure: " +:+ display)
  | WriteUnwound => (Internal, "PTY input writer unwound before confirming its attempt")
  | _ => (Io, "PTY input write returned zero")
  end.

Definition write_at_front (written : N) (front : InputCommand) (queue : list InputCommand)
    (c : Control) : Control :=
  upd_lane (λ l, set_flags (input_scheduled l) false
    (set_head ({| command_memory := command_memory front; command_data := command_data front;
                  confirmed := confirmed front + written; reply := reply front |} :: queue) l)) c.

(** One turn of the [while] loop of [progress_input]: the state guard is taken
    and released inside it.  It also reports the bytes that crossed the PTY. *)
Definition progress_turn (w : WriteResult) (late : option NativeServiceFailure)
    (max_bytes commands size : N) (c : Control) : outcome (Control * bytes * TurnEnd) :=
  let release (c : Control) (e : TurnEnd) : outcome (Control * bytes * TurnEnd) :=
    let! c := release_guard (lose_owner late c) in Ret (c, [], e) in
  if decide (phase (state c) ≠ PhaseOpen ∨ is_Some (input_failure (lane (state c)))
             ∨ is_Some (inner_failure c)) then release c TurnReturn else
  match input_queue (lane (state c)) with
  | [] => release (publish_input (upd_lane (set_flags false false) c)) TurnReturn
  | front :: queue =>
      let d := command_data front in
      let offset := confirmed front in
      let! expected := expected_cursor (reply front) c in
      match decide (expected = applied_input_bytes (lane (state c))),
            checked_add (applied_input_bytes (lane (state c))) (len d) with
      | left _, Some e =>
          let length := N.min (len d - offset) (max_bytes - size) in
          let w := if decide (length = 0) then Wrote 0
                   else if writer_open c then w else WriteError "PTY input descriptor is closed" in
          match w with
          | WouldBlock =>
              release (publish_input (upd_lane (λ l, set_flags (input_scheduled l) true l) c)) TurnReturn
          | Interrupted => release (publish_input c) TurnReturn
          | Wrote written =>
              if decide (0 < written ∨ d = []) then
                let! _ := check "debug assertion failed" (bool_decide (written ≤ length)) in
                let c := write_at_front written front queue c in
                let emitted := takeN written (dropN offset d) in
                if decide (offset + written ≠ len d) then
                  let! c := release_guard (lose_owner late (publish_input c)) in
                  Ret (c, emitted, TurnContinue commands (size + written))
                else
                  let! c := complete_front front queue e late c in
                  Ret (c, emitted, TurnContinue (commands + 1) (size + written))
              else
                let '(kind, detail) := io_error w in
                let! c := fail_front front queue kind detail late c in Ret (c, [], TurnReturn)
          | _ =>
              let '(kind, detail) := io_error w in
              let! c := fail_front front queue kind detail late c in Ret (c, [], TurnReturn)
          end
      | _, _ =>
          let! c := refuse_front front queue expected late c in
          Ret (c, [], TurnContinue (commands + 1) size)
      end
  end.

(** The loop, when nobody else takes the lock between its turns: [kernel] answers
    the successive writes.  [busy] is a failed [try_state], which ends it. *)
Fixpoint progress_input (fuel : nat) (kernel : list (bool * WriteResult * option NativeServiceFailure))
    (max_commands max_bytes commands size : N) (c : Control) : outcome (Control * bytes) :=
  if decide (commands < max_commands ∧ size < max_bytes) then
    match fuel, kernel with
    | S fuel, (busy, w, late) :: kernel =>
        if (busy : bool) then Ret (c, []) else
        let! '(c, emitted, e) := progress_turn w late max_bytes commands size c in
        match e with
        | TurnReturn => Ret (c, emitted)
        | TurnContinue commands size =>
            let! '(c, rest) := progress_input fuel kernel max_commands max_bytes commands size c in
            Ret (c, (emitted ++ rest)%list)
        end
    | O, _ => Panic "out of fuel"
    | _, [] => Panic "the kernel answers every write"
    end
  else Ret (c, []).

(** ** Child controls *)

Definition push_child (command : ChildCommand) : CM unit :=
  modify (upd_child (λ d, set_child_commands (child_commands d ++ [command]) d)).

(** [foreground_group] is what [tcgetpgrp] on the master answers.  This is the arm of every
    platform but macOS; the macOS arm asks the PTY itself and queues nothing. *)
Definition begin_signal_locked (signal : RunSignal) (foreground_group : option N) : CM N :=
  let* channel := fresh_channel in
  ensure_owner "daemon-wide Native owner stopped before control admission" ;;;
  ensure_open "signal" ;;;
  let* c := get in
  ensure (child_open (child (state c))) (not_applied (protocol_error InvalidRunState
    ("cannot signal exited Run " +:+ show_run_id (control_run c)))) ;;;
  match foreground_group with
  | None => mfail (not_applied (protocol_error InvalidRunState
      ("Run " +:+ show_run_id (control_run c) +:+ " has no current foreground process group")))
  | Some group => push_child (ChildSignal signal group channel) ;;; mret_ channel
  end.

Definition begin_stop_locked : CM N :=
  let* channel := fresh_channel in
  ensure_owner "daemon-wide Native owner stopped before control admission" ;;;
  ensure_open "stop" ;;;
  let* c := get in
  if negb (child_open (child (state c))) then
    modify (upd_state (set_phase PhaseClosed)) ;;;
    mfail (not_applied (protocol_error InvalidRunState
      ("cannot stop exited Run " +:+ show_run_id (control_run c))))
  else
    ensure (negb (stop_pending (child (state c)))) (not_applied (protocol_error ControlBackpressure
      ("Run " +:+ show_run_id (control_run c) +:+ " already has one pending Stop admission"))) ;;;
    modify (upd_child (set_stop_pending true)) ;;;
    push_child (ChildStop channel (stop_admission_timeout_ms (resources c))) ;;;
    mret_ channel.

Definition stopping_error (c : Control) : ProtocolError :=
  protocol_error InvalidRunState
    ("cannot write to stopping Run " +:+ show_run_id (control_run c)).

(** The owner's turn over child commands holds the guard across these. *)
Definition drain_child_commands (c : Control) : Control * list ChildCommand :=
  (upd_child (set_child_commands []) c, child_commands (child (state c))).

Definition reject_pending_stop (c : Control) : Control := upd_child (set_stop_pending false) c.

Definition commit_pending_stop (c : Control) : outcome (Control * result unit ControlFailure) :=
  let d := child (state c) in
  let cleared := upd_child (set_stop_pending false) c in
  if decide (phase (state c) ≠ PhaseOpen ∨ stop_pending d = false ∨ child_open d = false) then
    let! e := invalid_phase_error (control_run c) (phase (state c)) "stop" in
    Ret (cleared, Err (not_applied e))
  else
    let c := upd_state (set_phase PhaseStopping) cleared in
    let! '(c, rejected) := reject_queued_inputs (stopping_error c) c in
    let! c := send_rejections rejected (publish_input c) in
    Ret (c, Ok tt).

Definition closed_phase (p : ControlPhase) : ControlPhase :=
  match p with PhaseFailed => PhaseFailed | _ => PhaseClosed end.

Definition fence_child_commands (c : Control) : outcome (Control * list ChildCommand) :=
  let c := upd_child (open_child false) (upd_state (λ s, set_phase (closed_phase (phase s)) s) c) in
  let! e := invalid_phase_error (control_run c) (phase (state c)) "write to" in
  let! '(c, rejected) := reject_queued_inputs e c in
  let! c := send_rejections rejected (publish_input c) in
  Ret (drain_child_commands c).

Inductive TurnOp := TurnDrain | TurnRejectStop | TurnCommitStop | TurnFence.
Definition turn_op (o : TurnOp) (c : Control) : outcome Control :=
  match o with
  | TurnDrain => Ret (drain_child_commands c).1
  | TurnRejectStop => Ret (reject_pending_stop c)
  | TurnCommitStop => let! '(c, _) := commit_pending_stop c in Ret c
  | TurnFence => let! '(c, _) := fence_child_commands c in Ret c
  end.
(** [NativeControlTurn]: any of them under one guard. *)
Fixpoint control_turn (ops : list TurnOp) (late : option NativeServiceFailure) (c : Control)
    : outcome Control :=
  match ops with
  | [] => release_guard (lose_owner late c)
  | o :: ops => let! c := turn_op o c in control_turn ops late c
  end.

Definition mark_closed (late : option NativeServiceFailure) (c : Control) : outcome Control :=
  let c := upd_child (open_child false) (upd_state (λ s, set_phase (closed_phase (phase s)) s) c) in
  let! e := invalid_phase_error (control_run c) (phase (state c)) "write to" in
  let! '(c, rejected) := reject_queued_inputs e c in
  let '(c, commands) := drain_child_commands (publish_input c) in
  let! c := release_guard (lose_owner late c) in
  let! c := send_rejections rejected c in
  Ret (reject_child_commands commands "native child owner is closed" InvalidRunState c).

(** The control half of [mark_wait_authority_lost]. *)
Definition mark_failed (message : string) (late : option NativeServiceFailure) (c : Control)
    : outcome Control :=
  let c := upd_child (open_child false) (upd_state (set_phase PhaseFailed) c) in
  let! '(c, rejected) := reject_queued_inputs (protocol_error BackendUnavailable message) c in
  let '(c, commands) := drain_child_commands (publish_input c) in
  let! c := release_guard (lose_owner late c) in
  let! c := send_rejections rejected c in
  Ret (reject_child_commands commands "native child wait authority was lost" BackendUnavailable c).

(** What [cleanup_unpublished] did before any reap query: [None] defers to
    [reap_result].  The last component is the error it recorded on the reap state with
    [record_cleanup_error]; that state is [NativeOwnerTurn]'s. *)
Definition cleanup_unpublished (late : option NativeServiceFailure) (c : Control)
    : outcome (Control * option (result unit string) * option string) :=
  let release (c : Control) (r : option (result unit string)) :=
    let! c := release_guard (lose_owner late c) in Ret (c, r, None) in
  if decide (is_Some (inner_failure c)) then
    release c (Some (Err "Native owner unavailable before unpublished cleanup")) else
  match phase (state c) with
  | PhaseStopping => release c (Some (Ok tt))
  | PhaseClosed | PhaseFailed => release c None
  | PhaseOpen =>
      let c := upd_state (set_phase PhaseStopping) c in
      if negb (child_open (child (state c))) then
        let error := ("Run " +:+ show_run_id (control_run c) +:+
          " child owner channel closed before unpublished cleanup")%string in
        let! c := release_guard (lose_owner late c) in
        Ret (c, Some (Err error), Some error)
      else
        let! '(c, rejected) := reject_queued_inputs (stopping_error c) c in
        let c := publish_input (upd_child (λ d,
          set_child_commands (child_commands d ++ [CleanupUnpublished]) d) c) in
        let! c := release_guard (lose_owner late c) in
        let! c := send_rejections rejected c in
        Ret (c, Some (Ok tt), None)
  end.

(** ** Resize *)

Definition confirm_size (size : option TerminalSize) : option TerminalSize :=
  match size with
  | Some z => if decide (rows z ≠ 0 ∧ cols z ≠ 0) then Some z else None
  | None => None
  end.

(** What the PTY answers: whether the master is still held, the [ioctl] and the
    read-back. *)
Record PtyAnswer := {
  pty_held : bool;
  pty_resized : result unit string;
  pty_read_back : result TerminalSize string;
}.

(** The size that [publish] receives is the receipt's. *)
Definition resize_locked (pty : PtyAnswer) : CM TerminalSize :=
  ensure_owner "daemon-wide Native owner stopped before control admission" ;;;
  ensure_open "resize" ;;;
  let* c := get in
  let run := show_run_id (control_run c) in
  ensure (pty_held pty) (unknown (protocol_error Internal
    ("Run " +:+ run +:+ " PTY control descriptor is closed"))) ;;;
  let* _ := lift_result (map_err (λ e, unknown (protocol_error Io
    ("failed to resize Run " +:+ run +:+ " PTY: " +:+ e))) (pty_resized pty)) in
  let* applied := lift_result (map_err (λ e, unknown (protocol_error Io
    ("failed to read back Run " +:+ run +:+ " PTY size after resize: " +:+ e))) (pty_read_back pty)) in
  match confirm_size (Some applied) with
  | None => mfail (unknown (protocol_error Io
      ("Run " +:+ run +:+ " PTY returned an invalid zero applied size")))
  | Some applied =>
      modify (upd_state (set_size (Some applied))) ;;;
      modify publish_input ;;;
      mret_ applied
  end.

(** ** Handoff *)

Inductive HandoffInputOperation :=
  | HandoffCompleted (key : InputOperationKey) (expected : N) (d : bytes) (range : AppliedInputRange)
  | HandoffUnknown (key : InputOperationKey) (expected : N) (d : bytes) (failure : ControlFailure).
Record HandoffInputState := {
  handoff_applied : N;
  handoff_failure : option ProtocolError;
  operations : list HandoffInputOperation;
}.
Definition handoff_empty : HandoffInputState :=
  {| handoff_applied := 0; handoff_failure := None; operations := [] |}.

Definition handoff_key (o : HandoffInputOperation) : InputOperationKey :=
  match o with HandoffCompleted k _ _ _ | HandoffUnknown k _ _ _ => k end.
Definition handoff_data (o : HandoffInputOperation) : bytes :=
  match o with HandoffCompleted _ _ d _ | HandoffUnknown _ _ d _ => d end.
Definition handoff_is_unknown (o : HandoffInputOperation) : bool :=
  match o with HandoffUnknown _ _ _ _ => true | _ => false end.

Definition validate_handoff_unknown_prefix (data_bytes : N) (f : ControlFailure)
    : result unit string :=
  if match confirmed_input_bytes f with Some k => bool_decide (data_bytes < k) | None => false end
  then Err "handoff unknown native Input prefix exceeds its request bytes"
  else if decide (disposition f ≠ Unknown)
  then Err "handoff unknown native Input has a non-unknown disposition"
  else Ok tt.

Definition retained_diagnostic_bytes (h : HandoffInputState) : N :=
  foldl (λ total o, total +sat match o with
                               | HandoffUnknown _ _ _ f => slen (message (error f))
                               | HandoffCompleted _ _ _ _ => 0
                               end)
    (match handoff_failure h with Some e => slen (message e) | None => 0 end) (operations h).

Definition additional_diagnostic_memory_bytes (h : HandoffInputState) : N :=
  retained_diagnostic_bytes h -sat
  saturating_mul (len (filter (λ o, handoff_is_unknown o = true) (operations h)))
    INPUT_RESULT_DIAGNOSTIC_RESERVE_BYTES.

Definition control_memory_bytes (h : HandoffInputState) : N :=
  foldl (λ total o, total +sat input_receipt_charge (handoff_key o) (handoff_data o))
    (additional_diagnostic_memory_bytes h) (operations h).

(** The running state of the validation loop. *)
Record HandoffScan := {
  scan_retained : N;
  scan_keys : gset InputOperationKey;
  scan_end : N;
  scan_unknown : N;
}.

Definition scan_operation (h : HandoffInputState) (o : HandoffInputOperation) (s : HandoffScan)
    : result HandoffScan string :=
  let? s :=
    match o with
    | HandoffCompleted _ expected d range =>
        let? expected_end := ok_or "handoff native Input range overflows"
                               (checked_add expected (len d)) in
        if decide (range_start_byte range ≠ expected ∨ range_end_byte range ≠ expected_end
                   ∨ handoff_applied h < range_end_byte range ∨ range_start_byte range < scan_end s)
        then Err "handoff completed native Input range is inconsistent"
        else Ok {| scan_retained := scan_retained s; scan_keys := scan_keys s;
                   scan_end := range_end_byte range; scan_unknown := scan_unknown s |}
    | HandoffUnknown _ expected d failure =>
        let? _ := validate_handoff_unknown_prefix (len d) failure in
        if decide (expected ≠ handoff_applied h)
        then Err "handoff unknown native Input does not fence the current cursor"
        else if decide (code <$> handoff_failure h ≠ Some (code (error failure)))
        then Err "handoff unknown native Input has a different poisoned-lane failure code"
        else Ok {| scan_retained := scan_retained s; scan_keys := scan_keys s;
                   scan_end := scan_end s; scan_unknown := scan_unknown s + 1 |}
    end in
  let? _ := map_err (λ e, "invalid handoff native Input key: " +:+ input_key_error_display e)
              (input_key_validate (handoff_key o)) in
  if decide (handoff_data o = []) then Err "handoff recoverable native Input payload is empty"
  else if decide (handoff_key o ∈ scan_keys s)
  then Err "handoff native Input ledger contains a duplicate key"
  else
    let? retained := ok_or "handoff native Input retained-byte count overflows"
                       (checked_add (scan_retained s) (len (handoff_data o))) in
    Ok {| scan_retained := retained; scan_keys := {[handoff_key o]} ∪ scan_keys s;
          scan_end := scan_end s; scan_unknown := scan_unknown s |}.

Fixpoint scan_operations (h : HandoffInputState) (os : list HandoffInputOperation) (s : HandoffScan)
    : result HandoffScan string :=
  match os with
  | [] => Ok s
  | o :: os => let? s := scan_operation h o s in scan_operations h os s
  end.

Definition validate_with_resources (l : ResourceLimits) (h : HandoffInputState)
    : result unit string :=
  if decide (input_result_entries l < len (operations h))
  then Err ("handoff native Input ledger has " +:+ pretty (len (operations h)) +:+
            " entries; maximum is " +:+ pretty (input_result_entries l))
  else
    let? s := scan_operations h (operations h)
                {| scan_retained := 0; scan_keys := ∅; scan_end := 0; scan_unknown := 0 |} in
    if decide (input_result_bytes l < scan_retained s)
    then Err ("handoff native Input ledger retains " +:+ pretty (scan_retained s) +:+
              " request bytes; maximum is " +:+ pretty (input_result_bytes l))
    else if decide (1 < scan_unknown s)
    then Err "handoff native Input ledger contains multiple unknown operations"
    else if decide (control_state_bytes l < control_memory_bytes h)
    then Err "handoff native Input state exceeds control owner funding"
    else Ok tt.

Definition control_idle (s : NativeControlState) : bool :=
  negb (stop_pending (child s)) && bool_decide (child_commands (child s) = [])
  && negb (input_scheduled (lane s)) && bool_decide (input_commands (lane s) = 0)
  && bool_decide (input_bytes (lane s) = 0) && bool_decide (input_queue (lane s) = []).

(** [handoff_input_state] over the completed keys, oldest first. *)
Fixpoint completed_operations (id : RunId) (m : gmap InputOperationKey InputOperationEntry)
    (ks : list InputOperationKey) : result (list HandoffInputOperation) string :=
  match ks with
  | [] => Ok []
  | k :: ks =>
      match m !! k with
      | Some (EntryCompleted r range) =>
          let? os := completed_operations id m ks in
          Ok (HandoffCompleted k (expected_byte r) (request_data r) range :: os)
      | _ => Err ("Run " +:+ show_run_id id +:+ " completed native Input order is inconsistent")
      end
  end.

Definition unknown_operations (m : gmap InputOperationKey InputOperationEntry)
    : list HandoffInputOperation :=
  map (λ '(k, r, f), HandoffUnknown k (expected_byte r) (request_data r) f)
    (merge_sort (λ a b, String.le a.1.1 b.1.1)
      (omap (λ '(k, e), match e with EntryUnknown r f => Some (k, r, f) | _ => None end)
         (map_to_list m))).

Definition is_pending (e : InputOperationEntry) : bool :=
  match e with EntryPending _ _ => true | _ => false end.

Definition handoff_snapshot (c : Control) : result HandoffInputState string :=
  let s := state c in
  let run := show_run_id (control_run c) in
  if negb (bool_decide (phase s = PhaseOpen ∨ phase s = PhaseClosed) && control_idle s)
  then Err ("Run " +:+ run +:+ " still has a crossing native control at handoff")
  else
    let m := input_operations (ledger s) in
    let? completed := completed_operations (control_run c) m (completed_input_operations (ledger s)) in
    if existsb (λ kv, is_pending kv.2) (map_to_list m)
    then Err ("Run " +:+ run +:+ " has a pending recoverable Input at handoff")
    else
      let os := (completed ++ unknown_operations m)%list in
      if decide (len os ≠ N.of_nat (base.size m))
      then Err ("Run " +:+ run +:+ " native Input handoff ledger is incomplete")
      else
        let h := {| handoff_applied := applied_input_bytes (lane s);
                    handoff_failure := input_failure (lane s); operations := os |} in
        let? _ := validate_with_resources (resources c) h in Ok h.

(** A busy owner admits no handoff. *)
Definition handoff_input_state (busy : bool) (late : option NativeServiceFailure) (c : Control)
    : outcome (Control * result HandoffInputState string) :=
  if busy then Ret (c, Err "Native control is busy; handoff not admitted")
  else let! c' := release_guard (lose_owner late c) in Ret (c', handoff_snapshot c).

(** ** Construction, fresh or from a handoff *)

Definition adopt_memory (charge : N) (why : string) (b : ByteBudget.t)
    : outcome (ByteBudget.t * N) :=
  let '(b, permit) := ByteBudget.reserve charge b in
  let! permit := expect why permit in Ret (b, permit).

Fixpoint adopt_operations (os : list HandoffInputOperation) (b : ByteBudget.t) (g : InputLedger)
    : outcome (ByteBudget.t * InputLedger) :=
  match os with
  | [] => Ret (b, g)
  | o :: os =>
      let k := handoff_key o in
      let! '(b, permit) := adopt_memory (input_receipt_charge k (handoff_data o))
        "handed-off control state was admitted by the same policy" b in
      let request expected := {| request_memory := Some permit; expected_byte := expected;
                                 request_data := handoff_data o |} in
      let g := match o with
        | HandoffCompleted _ expected _ range =>
            set_completed (completed_input_operations g ++ [k])
              (set_operations (<[k := EntryCompleted (request expected) range]>
                                 (input_operations g)) g)
        | HandoffUnknown _ expected _ failure =>
            set_operations (<[k := EntryUnknown (request expected) failure]> (input_operations g)) g
        end in
      adopt_operations os b g
  end.

(** [new_with_components]; also the permit of the adopted diagnostics, which the
    owner keeps for its lifetime. *)
Definition new_with_components (id : RunId) (l : ResourceLimits) (b : ByteBudget.t)
    (pty_size : option TerminalSize) (writer : bool) (h : HandoffInputState) (closed : bool)
    : outcome (Control * option N) :=
  let! _ := check "assertion failed: input_result_max_entries > 0"
              (bool_decide (0 < input_result_entries l)) in
  let! _ := check "assertion failed: input_result_max_request_bytes > 0"
              (bool_decide (0 < input_result_bytes l)) in
  let! _ := check "re-adopted native Input state is validated before construction"
              (is_ok (validate_with_resources l h)) in
  let diagnostic := additional_diagnostic_memory_bytes h in
  let! '(b, adopted) :=
    if decide (0 < diagnostic) then
      let! '(b, permit) := adopt_memory diagnostic
        "handed-off aggregate diagnostics were admitted by the preserved control policy" b in
      Ret (b, Some permit)
    else Ret (b, None) in
  let! '(b, g) := adopt_operations (operations h) b
    {| input_operations := ∅; completed_input_operations := [];
       retained_input_request_bytes := sumN (λ o, len (handoff_data o)) (operations h) |} in
  Ret ({| control_run := id; resources := l;
          state := {|
            phase := if closed then PhaseClosed else PhaseOpen;
            confirmed_size := confirm_size pty_size;
            owner_failure := None;
            lane := {| input_queue := []; input_commands := 0; input_bytes := 0;
                       input_scheduled := false; input_blocked := false;
                       input_failure := handoff_failure h;
                       applied_input_bytes := handoff_applied h |};
            ledger := g;
            child := {| child_open := negb closed; stop_pending := false; child_commands := [] |};
            input_result_max_entries := input_result_entries l;
            input_result_max_request_bytes := input_result_bytes l |};
          inner_failure := None; writer_open := writer; control_budget := b;
          service_bound := false; published := []; next_channel := 0; sent := [] |}, adopted).

Definition bind_service (late : option NativeServiceFailure) (c : Control) : outcome Control :=
  let! _ := check "one Native control service binding" (negb (service_bound c)) in
  let c := {| control_run := control_run c; resources := resources c; state := state c;
              inner_failure := inner_failure c; writer_open := writer_open c;
              control_budget := control_budget c; service_bound := true;
              published := published c; next_channel := next_channel c; sent := sent c |} in
  release_guard (lose_owner late (publish_input c)).

(** The control half of [closed_quiescence_result] and the descriptors' detach. *)
Definition quiescent (s : NativeControlState) : bool :=
  bool_decide (phase s = PhaseClosed) && negb (child_open (child s)) && control_idle s.
Definition detach_writer (c : Control) : Control :=
  {| control_run := control_run c; resources := resources c; state := state c;
     inner_failure := inner_failure c; writer_open := false; control_budget := control_budget c;
     service_bound := service_bound c; published := published c;
     next_channel := next_channel c; sent := sent c |}.
End control.
