(* ===== verification/NativeControlSpec.v ===== *)
(** * Native control: invariant

    What holds whenever the state mutex of a native control is free, however its
    callers interleave: the queue and the ledger agree, every byte the PTY took is
    accounted to one command, and the ledger's history is the cursor's history.
    The ghost state records what crossed the PTY and what every caller was told. *)

From S2P Require Import Prelude.
From S2P Require Import Protocol.
From S2P Require Import Resources.
From S2P Require Import NativeControl.

Definition reply_channel (r : InputReply) : N :=
  match r with Legacy ch | Recoverable _ ch => ch end.
Definition data_len (cmd : InputCommand) : N := len (command_data cmd).
Definition command_channel (cmd : InputCommand) : N := reply_channel (reply cmd).
Definition entry_data (e : InputOperationEntry) : bytes := request_data (entry_request e).
Definition entry_len (e : InputOperationEntry) : N := len (entry_data e).
Definition command_held (cmd : InputCommand) : N := default 0 (command_memory cmd).
Definition entry_held (e : InputOperationEntry) : N := default 0 (request_memory (entry_request e)).

(** ** Ghost state *)

Record ghost := {
  wire : bytes;  (** what the PTY took *)
  datas : gmap N bytes;  (** the payload admitted on each channel *)
  acked : list (InputReply * AppliedInputRange);
  refused : list (InputReply * ControlFailure);
}.

Definition data_of (ds : gmap N bytes) (r : InputReply) : bytes := default [] (ds !! reply_channel r).

(** The applied commands tile the cursor, in order. *)
Fixpoint ack_chain (ds : gmap N bytes) (a : N) (acks : list (InputReply * AppliedInputRange)) (b : N)
    : Prop :=
  match acks with
  | [] => a = b
  | (r, range) :: acks =>
      range_start_byte range = a ∧ range_end_byte range = a + len (data_of ds r) ∧
      ack_chain ds (range_end_byte range) acks b
  end.

Definition untouched (x : InputReply * ControlFailure) : Prop :=
  disposition x.2 = NotApplied ∧ confirmed_input_bytes x.2 = None.

Definition front_prefix (q : list InputCommand) : bytes :=
  match q with cmd :: _ => takeN (confirmed cmd) (command_data cmd) | [] => [] end.

(** The bytes on the wire after the last applied command: the confirmed prefix
    of the front command of a healthy lane; in a failed lane they belong to the
    one command whose caller was told [Unknown] with exactly that prefix. *)
Definition tail_ok (ds : gmap N bytes) (l : InputLane) (fs : list (InputReply * ControlFailure))
    (t : bytes) : Prop :=
  (input_failure l = None ∧ t = front_prefix (input_queue l) ∧ Forall untouched fs) ∨
  (is_Some (input_failure l) ∧ Forall (λ cmd, confirmed cmd = 0) (input_queue l) ∧
   (t = [] ∧ Forall untouched fs ∨
    ∃ r f rest, fs ≡ₚ (r, f) :: rest ∧ Forall untouched rest ∧ disposition f = Unknown ∧
      confirmed_input_bytes f = Some (len t) ∧ t = takeN (len t) (data_of ds r))).

Fixpoint completed_chain (m : gmap InputOperationKey InputOperationEntry) (a : N)
    (ks : list InputOperationKey) (b : N) : Prop :=
  match ks with
  | [] => a ≤ b
  | k :: ks => ∃ r range, m !! k = Some (EntryCompleted r range) ∧ a ≤ range_start_byte range ∧
      range_start_byte range = expected_byte r ∧
      range_end_byte range = expected_byte r + len (request_data r) ∧
      completed_chain m (range_end_byte range) ks b
  end.

Definition channels (l : InputLane) (G : ghost) : list N :=
  map (λ x, reply_channel x.1) (acked G) ++ map (λ x, reply_channel x.1) (refused G) ++
  map command_channel (input_queue l).

Definition held (l : InputLane) (g : InputLedger) : N :=
  sumN command_held (input_queue l) + msum entry_held (input_operations g).

(** [a0] is the cursor the owner was built with, [others] the bytes of the shared
    budget that other owners hold. *)
Record core (a0 others : N) (G : ghost) (l : InputLane) (g : InputLedger) (b : ByteBudget.t)
    (n : N) : Prop := {
  k_commands : input_commands l = len (input_queue l);
  k_bytes : input_bytes l = sumN data_len (input_queue l);
  k_retained : retained_input_request_bytes g = msum entry_len (input_operations g);
  k_queued : ∀ cmd k ch, cmd ∈ input_queue l → reply cmd = Recoverable k ch →
    ∃ r, input_operations g !! k = Some (EntryPending r ch) ∧ request_data r = command_data cmd;
  k_pending : ∀ k r ch, input_operations g !! k = Some (EntryPending r ch) →
    ∃ cmd, cmd ∈ input_queue l ∧ reply cmd = Recoverable k ch;
  k_behind : Forall (λ cmd, confirmed cmd = 0) (tail (input_queue l));
  k_front : ∀ cmd q, input_queue l = cmd :: q → confirmed cmd ≠ 0 →
    confirmed cmd ≤ data_len cmd ∧ applied_input_bytes l + data_len cmd ≤ u64_max ∧
    ∀ k ch r, reply cmd = Recoverable k ch → input_operations g !! k = Some (EntryPending r ch) →
      expected_byte r = applied_input_bytes l;
  k_channels : NoDup (channels l G);
  k_datas : ∀ ch, is_Some (datas G !! ch) ↔ ch ∈ channels l G;
  k_payload : ∀ cmd, cmd ∈ input_queue l → datas G !! command_channel cmd = Some (command_data cmd);
  k_fresh : ∀ ch, is_Some (datas G !! ch) → ch < n;
  k_small : ∀ cmd, cmd ∈ input_queue l → data_len cmd ≤ u32_max;
  k_acks : ack_chain (datas G) a0 (acked G) (applied_input_bytes l);
  k_applied : applied_input_bytes l ≤ u64_max;
  k_wire : ∃ t, wire G = concat (map (λ x, data_of (datas G) x.1) (acked G)) ++ t ∧
    tail_ok (datas G) l (refused G) t;
  k_completed : completed_chain (input_operations g) 0 (completed_input_operations g)
    (applied_input_bytes l);
  k_listed : ∀ k r range, input_operations g !! k = Some (EntryCompleted r range) →
    k ∈ completed_input_operations g;
  k_once : NoDup (completed_input_operations g);
  k_entries : ∀ k e, input_operations g !! k = Some e →
    entry_data e ≠ [] ∧ input_key_validate k = Ok tt;
  k_unknown : ∀ k r f, input_operations g !! k = Some (EntryUnknown r f) →
    expected_byte r = applied_input_bytes l ∧ disposition f = Unknown ∧
    (∀ x, confirmed_input_bytes f = Some x → x ≤ len (request_data r)) ∧
    code <$> input_failure l = Some (code (error f));
  k_one_unknown : ∀ k k' r r' f f', input_operations g !! k = Some (EntryUnknown r f) →
    input_operations g !! k' = Some (EntryUnknown r' f') → k = k';
  k_budget : ByteBudget.used b = others + held l g ∧ ByteBudget.used b ≤ ByteBudget.limit b ∧
    ByteBudget.limit b ≤ u64_max;
}.

(** ** Removing the head of the queue *)

Definition refuse (x : InputReply * ControlFailure) (G : ghost) : ghost :=
  {| wire := wire G; datas := datas G; acked := acked G; refused := refused G ++ [x] |}.
Definition ack (x : InputReply * AppliedInputRange) (G : ghost) : ghost :=
  {| wire := wire G; datas := datas G; acked := acked G ++ [x]; refused := refused G |}.

(** The ledger after the head left the queue unapplied. *)
Definition forget (r : InputReply) (g : InputLedger) : InputLedger :=
  match r with
  | Legacy _ => g
  | Recoverable k _ =>
      set_retained (retained_input_request_bytes g -
                    from_option entry_len 0 (input_operations g !! k))
        (set_operations (delete k (input_operations g)) g)
  end.
Definition settle_entry (r : InputReply) (e : InputOperationRequest → InputOperationEntry)
    (g : InputLedger) : InputLedger :=
  match r with
  | Legacy _ => g
  | Recoverable k _ =>
      match input_operations g !! k with
      | Some entry => set_operations (<[k := e (entry_request entry)]> (input_operations g)) g
      | None => g
      end
  end.
Definition pop (q : list InputCommand) (cmd : InputCommand) (l : InputLane) : InputLane :=
  set_queue q (input_commands l - 1) (input_bytes l - data_len cmd) l.

(** The memory that leaves with the head when its entry is forgotten. *)
Definition forgotten_memory (cmd : InputCommand) (g : InputLedger) : N :=
  command_held cmd +
  match reply cmd with
  | Legacy _ => 0
  | Recoverable k _ => from_option entry_held 0 (input_operations g !! k)
  end.
Definition release_memory (p : N) (b : ByteBudget.t) : ByteBudget.t :=
  {| ByteBudget.limit := ByteBudget.limit b; ByteBudget.used := ByteBudget.used b - p |}.

Section core.
Context (a0 others : N).
Implicit Types (G : ghost) (l : InputLane) (g : InputLedger).

(** Facts about the command at the head. *)
Lemma head_entry G l g b n cmd q k ch :
  core a0 others G l g b n → input_queue l = cmd :: q → reply cmd = Recoverable k ch →
  ∃ r, input_operations g !! k = Some (EntryPending r ch) ∧ request_data r = command_data cmd.
Proof. intros Hk Hq. eapply k_queued; [done|rewrite Hq; by left]. Qed.

Lemma queue_channels_NoDup G l g b n :
  core a0 others G l g b n → NoDup (map command_channel (input_queue l)).
Proof.
  intros Hk. pose proof (k_channels _ _ _ _ _ _ _ Hk) as Hc.
  unfold channels in Hc. by apply NoDup_app in Hc as (_ & _ & (_ & _ & ?)%NoDup_app).
Qed.

Lemma tail_other_key G l g b n cmd q cmd' k ch k' ch' :
  core a0 others G l g b n → input_queue l = cmd :: q → reply cmd = Recoverable k ch →
  cmd' ∈ q → reply cmd' = Recoverable k' ch' → k' ≠ k.
Proof.
  intros Hk Hq Hr Hin Hr' ->.
  destruct (head_entry _ _ _ _ _ _ _ _ _ Hk Hq Hr) as (r & Hm & _).
  destruct (k_queued _ _ _ _ _ _ _ Hk cmd' k ch') as (r' & Hm' & _);
    [rewrite Hq; by right|done|].
  rewrite Hm in Hm'. simplify_eq.
  pose proof (queue_channels_NoDup _ _ _ _ _ Hk) as Hd. rewrite Hq in Hd.
  apply NoDup_cons in Hd as [Hd _]. apply Hd. apply list_elem_of_fmap.
  exists cmd'. split; [|done]. unfold command_channel. by rewrite Hr, Hr'.
Qed.

Lemma pop_counts G l g b n cmd q :
  core a0 others G l g b n → input_queue l = cmd :: q →
  1 ≤ input_commands l ∧ data_len cmd ≤ input_bytes l ∧
  input_commands l - 1 = len q ∧ input_bytes l - data_len cmd = sumN data_len q.
Proof.
  intros Hk Hq. pose proof (k_commands _ _ _ _ _ _ _ Hk) as H1.
  pose proof (k_bytes _ _ _ _ _ _ _ Hk) as H2. rewrite Hq in H1, H2.
  rewrite len_cons in H1. rewrite sumN_cons in H2. lia.
Qed.

Lemma channels_refuse G l cmd q f (Hq : input_queue l = cmd :: q) c s :
  channels (set_queue q c s l) (refuse (reply cmd, f) G) ≡ₚ channels l G.
Proof.
  unfold channels, refuse. simpl. rewrite Hq, map_app. simpl.
  unfold command_channel at 2. by rewrite <- app_assoc.
Qed.
Lemma channels_ack G l cmd q x (Hq : input_queue l = cmd :: q) c s :
  channels (set_queue q c s l) (ack (reply cmd, x) G) ≡ₚ channels l G.
Proof.
  unfold channels, ack. simpl. rewrite Hq, map_app. simpl.
  unfold command_channel at 2. rewrite <- !app_assoc. simpl. apply Permutation_app_head.
  by rewrite Permutation_middle.
Qed.
Lemma channels_lane l l' G : input_queue l' = input_queue l → channels l' G = channels l G.
Proof. unfold channels. by intros ->. Qed.

Lemma forget_lookup r g k' e :
  input_operations (forget r g) !! k' = Some e ↔
  input_operations g !! k' = Some e ∧ (∀ k ch, r = Recoverable k ch → k' ≠ k).
Proof.
  destruct r as [ch|k ch]; simpl; [naive_solver|]. rewrite lookup_delete_Some. naive_solver.
Qed.
Lemma forget_completed r g : completed_input_operations (forget r g) = completed_input_operations g.
Proof. by destruct r. Qed.

Lemma completed_chain_ext m m' a ks b b' :
  (∀ k r range, k ∈ ks → m !! k = Some (EntryCompleted r range) →
     m' !! k = Some (EntryCompleted r range)) → b ≤ b' →
  completed_chain m a ks b → completed_chain m' a ks b'.
Proof.
  revert a. induction ks as [|k ks IH]; intros a Hm Hb; simpl; [lia|].
  intros (r & range & Hk & ? & ? & ? & Hc). exists r, range. split_and!; auto.
  - apply Hm; [by left|done].
  - apply IH; [|done|done]. intros. apply Hm; [by right|done].
Qed.
Lemma completed_chain_elem m a ks b k :
  completed_chain m a ks b → k ∈ ks →
  ∃ r range, m !! k = Some (EntryCompleted r range).
Proof.
  revert a. induction ks as [|k' ks IH]; intros a; simpl; [by intros _ ?%elem_of_nil|].
  intros (r & range & Hk & _ & _ & _ & Hc) [->|Hin]%elem_of_cons; eauto.
Qed.

Lemma forgotten_held l g G b n cmd q :
  core a0 others G l g b n → input_queue l = cmd :: q →
  held l g = forgotten_memory cmd g + held (pop q cmd l) (forget (reply cmd) g).
Proof.
  intros Hk Hq. unfold held, forgotten_memory. simpl. rewrite Hq, sumN_cons.
  destruct (reply cmd) as [ch|k ch] eqn:Hr; simpl; [lia|].
  destruct (head_entry _ _ _ _ _ _ _ _ _ Hk Hq Hr) as (r & Hm & _).
  rewrite (msum_delete entry_held _ _ _ Hm), Hm. simpl. lia.
Qed.

Lemma retained_forget G l g b n cmd q :
  core a0 others G l g b n → input_queue l = cmd :: q →
  retained_input_request_bytes (forget (reply cmd) g) =
    msum entry_len (input_operations (forget (reply cmd) g)).
Proof.
  intros Hk Hq. pose proof (k_retained _ _ _ _ _ _ _ Hk) as Hret.
  destruct (reply cmd) as [ch|k ch] eqn:Hr; simpl; [done|].
  destruct (head_entry _ _ _ _ _ _ _ _ _ Hk Hq Hr) as (r & Hm & _).
  rewrite Hret, (msum_delete entry_len _ _ _ Hm), Hm. simpl. lia.
Qed.

Lemma behind_tail (q : list InputCommand) :
  Forall (λ cmd, confirmed cmd = 0) q → Forall (λ cmd, confirmed cmd = 0) (tail q).
Proof. destruct q; [done|]. by intros [_ ?]%Forall_cons. Qed.
Lemma front_prefix_zero q : Forall (λ cmd, confirmed cmd = 0) q → front_prefix q = [].
Proof. destruct q; [done|]. intros [H _]%Forall_cons. simpl. by rewrite H, takeN_0. Qed.

(** The head leaves the queue and its caller is told that nothing was applied. *)
Lemma core_refuse G l g b n cmd q f :
  core a0 others G l g b n → input_queue l = cmd :: q → confirmed cmd = 0 →
  untouched (reply cmd, f) →
  core a0 others (refuse (reply cmd, f) G) (pop q cmd l) (forget (reply cmd) g)
    (release_memory (forgotten_memory cmd g) b) n.
Proof.
  intros Hk Hq Hzero Huntouched.
  destruct (pop_counts _ _ _ _ _ _ _ Hk Hq) as (Hc1 & Hc2 & Hc3 & Hc4).
  pose proof (forgotten_held _ _ _ _ _ _ _ Hk Hq) as Hheld.
  pose proof (retained_forget _ _ _ _ _ _ _ Hk Hq) as Hret.
  pose proof (channels_refuse G l cmd q f Hq (input_commands l - 1)
                (input_bytes l - data_len cmd)) as Hperm.
  pose proof (k_behind _ _ _ _ _ _ _ Hk) as Hbehind. rewrite Hq in Hbehind. simpl in Hbehind.
  constructor; simpl; rewrite ?forget_completed; try done.
  - intros cmd' k' ch' Hin Hr'.
    destruct (k_queued _ _ _ _ _ _ _ Hk cmd' k' ch') as (r' & Hm & Hd);
      [rewrite Hq; by right|done|].
    exists r'. split; [|done]. apply forget_lookup. split; [done|].
    intros k ch Hr. by eapply tail_other_key.
  - intros k' r' ch' [Hm Hother]%forget_lookup.
    destruct (k_pending _ _ _ _ _ _ _ Hk k' r' ch' Hm) as (cmd' & Hin & Hr').
    rewrite Hq in Hin. apply elem_of_cons in Hin as [->|Hin]; [|by eauto].
    by destruct (Hother k' ch').
  - by apply behind_tail.
  - intros cmd' q' -> Hne. apply Forall_cons in Hbehind as [? _]. done.
  - unfold pop. rewrite Hperm. apply (k_channels _ _ _ _ _ _ _ Hk).
  - intros ch. unfold pop. rewrite Hperm. apply (k_datas _ _ _ _ _ _ _ Hk).
  - intros cmd' Hin. apply (k_payload _ _ _ _ _ _ _ Hk). rewrite Hq. by right.
  - apply (k_fresh _ _ _ _ _ _ _ Hk).
  - intros cmd' Hin. apply (k_small _ _ _ _ _ _ _ Hk). rewrite Hq. by right.
  - apply (k_acks _ _ _ _ _ _ _ Hk).
  - apply (k_applied _ _ _ _ _ _ _ Hk).
  - destruct (k_wire _ _ _ _ _ _ _ Hk) as (t & Hw & Ht). exists t. split; [done|].
    destruct Ht as [(Hf & -> & Hu)|(Hf & Hz & Hcase)].
    + left. split; [done|]. rewrite Hq. simpl. rewrite Hzero, takeN_0.
      split; [by rewrite front_prefix_zero|]. apply Forall_app. auto.
    + right. split; [done|]. split; [done|].
      destruct Hcase as [[-> Hu]|(r & f' & rest & Hp & Hu & Hd & Hcn & Htk)].
      * left. split; [done|]. apply Forall_app. auto.
      * right. exists r, f', (rest ++ [(reply cmd, f)]). split_and!; try done.
        { by rewrite Hp. }
        apply Forall_app. auto.
  - eapply completed_chain_ext; [|done|apply (k_completed _ _ _ _ _ _ _ Hk)].
    intros k r range Hin Hm. apply forget_lookup. split; [done|]. intros k' ch' Hr ->.
    destruct (head_entry _ _ _ _ _ _ _ _ _ Hk Hq Hr) as (r' & Hm' & _). congruence.
  - intros k r range [Hm _]%forget_lookup. by eapply k_listed.
  - apply (k_once _ _ _ _ _ _ _ Hk).
  - intros k e [Hm _]%forget_lookup. by eapply k_entries.
  - intros k r f' [Hm _]%forget_lookup. by eapply k_unknown.
  - intros k k' r r' f1 f2 [Hm _]%forget_lookup [Hm' _]%forget_lookup. by eapply k_one_unknown.
  - pose proof (k_budget _ _ _ _ _ _ _ Hk) as (Hb1 & Hb2 & Hb3). split_and!; lia.
Qed.

Definition cursor_ok l g (cmd : InputCommand) : Prop :=
  ∀ k ch r, reply cmd = Recoverable k ch → input_operations g !! k = Some (EntryPending r ch) →
    expected_byte r = applied_input_bytes l.

Lemma settle_lookup r e g k' x :
  input_operations (settle_entry r e g) !! k' = Some x ↔
  (∃ ch entry, r = Recoverable k' ch ∧ input_operations g !! k' = Some entry ∧
     x = e (entry_request entry)) ∨
  (input_operations g !! k' = Some x ∧ ∀ k ch, r = Recoverable k ch → k' ≠ k).
Proof.
  destruct r as [ch|k ch]; simpl; [naive_solver|].
  destruct (input_operations g !! k) as [entry|] eqn:Hm; simpl.
  - rewrite lookup_insert_Some. naive_solver.
  - naive_solver.
Qed.

Lemma settled_sums l g G b n cmd q e (He : ∀ r, entry_request (e r) = r) :
  core a0 others G l g b n → input_queue l = cmd :: q →
  msum entry_len (input_operations (settle_entry (reply cmd) e g)) =
    msum entry_len (input_operations g) ∧
  msum entry_held (input_operations (settle_entry (reply cmd) e g)) =
    msum entry_held (input_operations g).
Proof.
  intros Hk Hq. destruct (reply cmd) as [ch|k ch] eqn:Hr; simpl; [done|].
  destruct (head_entry _ _ _ _ _ _ _ _ _ Hk Hq Hr) as (r & Hm & _). rewrite Hm. simpl.
  pose proof (msum_insert_Some entry_len _ _ _ (e r) Hm) as H1.
  pose proof (msum_insert_Some entry_held _ _ _ (e r) Hm) as H2.
  unfold entry_len, entry_data, entry_held in *. rewrite He in *. simpl in *. lia.
Qed.

Lemma settle_plain r e g :
  retained_input_request_bytes (settle_entry r e g) = retained_input_request_bytes g ∧
  completed_input_operations (settle_entry r e g) = completed_input_operations g.
Proof. destruct r as [|k ch]; simpl; [done|]. by destruct (input_operations g !! k). Qed.

Lemma healthy_no_unknown G l g b n k r f :
  core a0 others G l g b n → input_failure l = None →
  input_operations g !! k ≠ Some (EntryUnknown r f).
Proof.
  intros Hk Hf Hm. destruct (k_unknown _ _ _ _ _ _ _ Hk _ _ _ Hm) as (_ & _ & _ & Hc).
  by rewrite Hf in Hc.
Qed.

Lemma healthy_tail G l g b n :
  core a0 others G l g b n → input_failure l = None →
  wire G = concat (map (λ x, data_of (datas G) x.1) (acked G)) ++ front_prefix (input_queue l) ∧
  Forall untouched (refused G).
Proof.
  intros Hk Hf. destruct (k_wire _ _ _ _ _ _ _ Hk) as (t & Hw & [(_ & -> & Hu)|([x Hx] & _)]);
    [done|congruence].
Qed.

Lemma head_payload G l g b n cmd q :
  core a0 others G l g b n → input_queue l = cmd :: q →
  data_of (datas G) (reply cmd) = command_data cmd.
Proof.
  intros Hk Hq. unfold data_of. pose proof (k_payload _ _ _ _ _ _ _ Hk cmd) as Hp.
  unfold command_channel in Hp. rewrite Hp; [done|]. rewrite Hq. by left.
Qed.

(** The head leaves the queue with its fate unknown, and the lane fails. *)
Lemma core_unknown G l g b n cmd q f e :
  core a0 others G l g b n → input_queue l = cmd :: q → input_failure l = None →
  disposition f = Unknown → confirmed_input_bytes f = Some (confirmed cmd) →
  code e = code (error f) → confirmed cmd ≤ data_len cmd → cursor_ok l g cmd →
  core a0 others (refuse (reply cmd, f) G) (set_failure (Some e) (pop q cmd l))
    (settle_entry (reply cmd) (λ r, EntryUnknown r f) g) (release_memory (command_held cmd) b) n.
Proof.
  intros Hk Hq Hok Hd Hprefix Hcode Hle Hcursor.
  destruct (pop_counts _ _ _ _ _ _ _ Hk Hq) as (Hc1 & Hc2 & Hc3 & Hc4).
  destruct (settled_sums _ _ _ _ _ _ _ (λ r, EntryUnknown r f) (λ r, eq_refl) Hk Hq) as [Hs1 Hs2].
  destruct (settle_plain (reply cmd) (λ r, EntryUnknown r f) g) as [Hp1 Hp2].
  pose proof (channels_refuse G l cmd q f Hq (input_commands l - 1)
                (input_bytes l - data_len cmd)) as Hperm.
  pose proof (k_behind _ _ _ _ _ _ _ Hk) as Hbehind. rewrite Hq in Hbehind. simpl in Hbehind.
  constructor; simpl; rewrite ?Hp1, ?Hp2; try done.
  - rewrite Hs1. apply (k_retained _ _ _ _ _ _ _ Hk).
  - intros cmd' k' ch' Hin Hr'.
    destruct (k_queued _ _ _ _ _ _ _ Hk cmd' k' ch') as (r' & Hm & Hdd);
      [rewrite Hq; by right|done|].
    exists r'. split; [|done]. apply settle_lookup. right. split; [done|].
    intros k ch Hr. by eapply tail_other_key.
  - intros k' r' ch' [(? & ? & _ & _ & [=])|[Hm Hother]]%settle_lookup.
    destruct (k_pending _ _ _ _ _ _ _ Hk k' r' ch' Hm) as (cmd' & Hin & Hr').
    rewrite Hq in Hin. apply elem_of_cons in Hin as [->|Hin]; [|by eauto].
    by destruct (Hother k' ch').
  - by apply behind_tail.
  - intros cmd' q' -> Hne. apply Forall_cons in Hbehind as [? _]. done.
  - change (NoDup (channels (pop q cmd l) (refuse (reply cmd, f) G))).
    unfold pop. rewrite Hperm. apply (k_channels _ _ _ _ _ _ _ Hk).
  - intros ch. change (channels (set_failure _ _) _) with (channels (pop q cmd l) (refuse (reply cmd, f) G)).
    unfold pop. rewrite Hperm. apply (k_datas _ _ _ _ _ _ _ Hk).
  - intros cmd' Hin. apply (k_payload _ _ _ _ _ _ _ Hk). rewrite Hq. by right.
  - apply (k_fresh _ _ _ _ _ _ _ Hk).
  - intros cmd' Hin. apply (k_small _ _ _ _ _ _ _ Hk). rewrite Hq. by right.
  - apply (k_acks _ _ _ _ _ _ _ Hk).
  - apply (k_applied _ _ _ _ _ _ _ Hk).
  - destruct (healthy_tail _ _ _ _ _ Hk Hok) as [Hw Hu].
    exists (takeN (confirmed cmd) (command_data cmd)). split; [by rewrite Hw, Hq|].
    right. simpl. split; [eauto|]. split; [done|]. right.
    assert (Hlen : len (takeN (confirmed cmd) (command_data cmd)) = confirmed cmd).
    { rewrite len_takeN. unfold data_len in Hle. lia. }
    exists (reply cmd), f, (refused G). rewrite Hlen, (head_payload _ _ _ _ _ _ _ Hk Hq).
    split_and!; try done. simpl. symmetry. apply Permutation_cons_append.
  - eapply completed_chain_ext; [|done|apply (k_completed _ _ _ _ _ _ _ Hk)].
    intros k r range Hin Hm. apply settle_lookup. right. split; [done|]. intros k' ch' Hr ->.
    destruct (head_entry _ _ _ _ _ _ _ _ _ Hk Hq Hr) as (r' & Hm' & _). congruence.
  - intros k r range [(? & ? & _ & _ & [=])|[Hm _]]%settle_lookup. by eapply k_listed.
  - apply (k_once _ _ _ _ _ _ _ Hk).
  - intros k x [(ch & entry & Hr & Hm & ->)|[Hm _]]%settle_lookup; [|by eapply k_entries].
    destruct (k_entries _ _ _ _ _ _ _ Hk _ _ Hm) as [? ?]. by split.
  - intros k r f' [(ch & entry & Hr & Hm & [= -> ->])|[Hm _]]%settle_lookup.
    2:{ by destruct (healthy_no_unknown _ _ _ _ _ k r f' Hk Hok). }
    destruct (head_entry _ _ _ _ _ _ _ _ _ Hk Hq Hr) as (r' & Hm' & Hdata).
    rewrite Hm' in Hm. simplify_eq/=. split_and!; [|done| |by rewrite Hcode].
    + by eapply Hcursor.
    + intros x. rewrite Hprefix. intros [= <-]. rewrite Hdata. done.
  - intros k k' r r' f1 f2 [(? & ? & Hr & _ & _)|[Hm _]]%settle_lookup Hx;
      [|by destruct (healthy_no_unknown _ _ _ _ _ k r f1 Hk Hok)].
    apply settle_lookup in Hx as [(? & ? & Hr' & _ & _)|[Hm _]];
      [|by destruct (healthy_no_unknown _ _ _ _ _ k' r' f2 Hk Hok)]. congruence.
  - pose proof (k_budget _ _ _ _ _ _ _ Hk) as (Hb1 & Hb2 & Hb3).
    unfold held in *. simpl. rewrite Hq, sumN_cons in Hb1. rewrite Hs2. split_and!; lia.
Qed.

(** ** Writing at the head *)

Definition wrote (d : bytes) (G : ghost) : ghost :=
  {| wire := wire G ++ d; datas := datas G; acked := acked G; refused := refused G |}.
Definition advance (w : N) (cmd : InputCommand) : InputCommand :=
  {| command_memory := command_memory cmd; command_data := command_data cmd;
     confirmed := confirmed cmd + w; reply := reply cmd |}.

Lemma takeN_extend {A} (k w : N) (d : list A) :
  takeN k d ++ takeN w (dropN k d) = takeN (k + w) d.
Proof.
  destruct (decide (k ≤ len d)) as [Hk|Hk].
  - rewrite <- (takeN_dropN k d) at 3.
    rewrite takeN_app_ge by (rewrite len_takeN; lia). rewrite len_takeN.
    by replace (k + w - N.min k (len d)) with w by lia.
  - rewrite dropN_ge, takeN_nil, app_nil_r by lia. by rewrite !takeN_ge by lia.
Qed.

Lemma core_write G l g b n cmd q w :
  core a0 others G l g b n → input_queue l = cmd :: q → input_failure l = None →
  confirmed cmd + w ≤ data_len cmd → cursor_ok l g cmd →
  applied_input_bytes l + data_len cmd ≤ u64_max →
  core a0 others (wrote (takeN w (dropN (confirmed cmd) (command_data cmd))) G)
    (set_head (advance w cmd :: q) l) g b n.
Proof.
  intros Hk Hq Hok Hle Hcursor Hend.
  assert (Hch : channels (set_head (advance w cmd :: q) l)
    (wrote (takeN w (dropN (confirmed cmd) (command_data cmd))) G) = channels l G).
  { unfold channels. simpl. by rewrite Hq. }
  constructor; rewrite ?Hch; simpl.
  - rewrite (k_commands _ _ _ _ _ _ _ Hk), Hq. by rewrite !len_cons.
  - by rewrite (k_bytes _ _ _ _ _ _ _ Hk), Hq.
  - apply (k_retained _ _ _ _ _ _ _ Hk).
  - intros cmd' k' ch' Hin Hr'.
    apply elem_of_cons in Hin as [->|Hin].
    + simpl in *. by apply (k_queued _ _ _ _ _ _ _ Hk cmd); [rewrite Hq; left|].
    + by apply (k_queued _ _ _ _ _ _ _ Hk cmd'); [rewrite Hq; right|].
  - intros k' r' ch' Hm. destruct (k_pending _ _ _ _ _ _ _ Hk k' r' ch' Hm) as (cmd' & Hin & Hr').
    rewrite Hq in Hin. apply elem_of_cons in Hin as [->|Hin].
    + exists (advance w cmd). by split; [left|].
    + exists cmd'. by split; [right|].
  - pose proof (k_behind _ _ _ _ _ _ _ Hk) as Hb. by rewrite Hq in Hb.
  - intros cmd' q' [= <- <-] _. split_and!; [done|done|]. exact Hcursor.
  - apply (k_channels _ _ _ _ _ _ _ Hk).
  - apply (k_datas _ _ _ _ _ _ _ Hk).
  - intros cmd' Hin. apply elem_of_cons in Hin as [->|Hin].
    + apply (k_payload _ _ _ _ _ _ _ Hk cmd). rewrite Hq. by left.
    + apply (k_payload _ _ _ _ _ _ _ Hk cmd'). rewrite Hq. by right.
  - apply (k_fresh _ _ _ _ _ _ _ Hk).
  - intros cmd' Hin. apply elem_of_cons in Hin as [->|Hin].
    + apply (k_small _ _ _ _ _ _ _ Hk cmd). rewrite Hq. by left.
    + apply (k_small _ _ _ _ _ _ _ Hk cmd'). rewrite Hq. by right.
  - apply (k_acks _ _ _ _ _ _ _ Hk).
  - apply (k_applied _ _ _ _ _ _ _ Hk).
  - destruct (healthy_tail _ _ _ _ _ Hk Hok) as [Hw Hu].
    exists (takeN (confirmed cmd + w) (command_data cmd)). split.
    + rewrite Hw, Hq. simpl. by rewrite <- app_assoc, takeN_extend.
    + left. by split_and!.
  - apply (k_completed _ _ _ _ _ _ _ Hk).
  - apply (k_listed _ _ _ _ _ _ _ Hk).
  - apply (k_once _ _ _ _ _ _ _ Hk).
  - apply (k_entries _ _ _ _ _ _ _ Hk).
  - apply (k_unknown _ _ _ _ _ _ _ Hk).
  - apply (k_one_unknown _ _ _ _ _ _ _ Hk).
  - pose proof (k_budget _ _ _ _ _ _ _ Hk) as Hb. unfold held in *. simpl.
    by rewrite Hq, sumN_cons in Hb.
Qed.

(** ** Completing the head *)

Definition list_completed (r : InputReply) (g : InputLedger) : InputLedger :=
  match r with
  | Legacy _ => g
  | Recoverable k _ => set_completed (completed_input_operations g ++ [k]) g
  end.

Lemma ack_chain_snoc ds a acks b x :
  ack_chain ds a acks b → range_start_byte x.2 = b →
  range_end_byte x.2 = b + len (data_of ds x.1) →
  ack_chain ds a (acks ++ [x]) (range_end_byte x.2).
Proof.
  destruct x as [r range]. simpl. intros Hc Hs He. revert a Hc.
  induction acks as [|[r' range'] acks IH]; intros a; simpl.
  - intros ->. by split_and!.
  - intros (H1 & H2 & H3). split_and!; auto.
Qed.

Lemma completed_chain_snoc m a ks b b' k r range :
  completed_chain m a ks b → m !! k = Some (EntryCompleted r range) →
  b ≤ range_start_byte range → range_start_byte range = expected_byte r →
  range_end_byte range = expected_byte r + len (request_data r) →
  range_end_byte range ≤ b' →
  completed_chain m a (ks ++ [k]) b'.
Proof.
  intros Hc Hm Hb Hs He Hb'. revert a Hc.
  induction ks as [|k' ks IH]; intros a; simpl.
  - intros Ha. exists r, range. split_and!; auto. lia.
  - intros (r' & range' & ? & ? & ? & ? & Hc). exists r', range'. split_and!; auto.
Qed.

Lemma core_ack G l g b n cmd q e :
  core a0 others G l g b n → input_queue l = cmd :: q → input_failure l = None →
  confirmed cmd = data_len cmd → cursor_ok l g cmd →
  e = applied_input_bytes l + data_len cmd → e ≤ u64_max →
  let range := {| range_start_byte := applied_input_bytes l; range_end_byte := e |} in
  core a0 others (ack (reply cmd, range) G) (set_applied e (pop q cmd l))
    (list_completed (reply cmd) (settle_entry (reply cmd) (λ r, EntryCompleted r range) g))
    (release_memory (command_held cmd) b) n.
Proof.
  intros Hk Hq Hok Hfull Hcursor -> Hend range.
  destruct (pop_counts _ _ _ _ _ _ _ Hk Hq) as (Hc1 & Hc2 & Hc3 & Hc4).
  set (E := λ r, EntryCompleted r range).
  destruct (settled_sums _ _ _ _ _ _ _ E (λ r, eq_refl) Hk Hq) as [Hs1 Hs2].
  destruct (settle_plain (reply cmd) E g) as [Hp1 Hp2].
  set (g1 := settle_entry (reply cmd) E g) in *. set (g2 := list_completed (reply cmd) g1).
  assert (Hops : input_operations g2 = input_operations g1) by (subst g2; by destruct (reply cmd)).
  assert (Hret : retained_input_request_bytes g2 = retained_input_request_bytes g1)
    by (subst g2; by destruct (reply cmd)).
  pose proof (channels_ack G l cmd q range Hq (input_commands l - 1)
                (input_bytes l - data_len cmd)) as Hperm.
  pose proof (k_behind _ _ _ _ _ _ _ Hk) as Hbehind. rewrite Hq in Hbehind. simpl in Hbehind.
  pose proof (head_payload _ _ _ _ _ _ _ Hk Hq) as Hpay.
  constructor; simpl; rewrite ?Hops, ?Hret, ?Hp1; try done.
  - rewrite Hs1. apply (k_retained _ _ _ _ _ _ _ Hk).
  - intros cmd' k' ch' Hin Hr'.
    destruct (k_queued _ _ _ _ _ _ _ Hk cmd' k' ch') as (r' & Hm & Hdd);
      [rewrite Hq; by right|done|].
    exists r'. split; [|done]. apply settle_lookup. right. split; [done|].
    intros k ch Hr. by eapply tail_other_key.
  - intros k' r' ch' [(? & ? & _ & _ & [=])|[Hm Hother]]%settle_lookup.
    destruct (k_pending _ _ _ _ _ _ _ Hk k' r' ch' Hm) as (cmd' & Hin & Hr').
    rewrite Hq in Hin. apply elem_of_cons in Hin as [->|Hin]; [|by eauto].
    by destruct (Hother k' ch').
  - by apply behind_tail.
  - intros cmd' q' -> Hne. apply Forall_cons in Hbehind as [? _]. done.
  - change (NoDup (channels (pop q cmd l) (ack (reply cmd, range) G))).
    unfold pop. rewrite Hperm. apply (k_channels _ _ _ _ _ _ _ Hk).
  - intros ch. change (channels (set_applied _ _) _) with (channels (pop q cmd l) (ack (reply cmd, range) G)).
    unfold pop. rewrite Hperm. apply (k_datas _ _ _ _ _ _ _ Hk).
  - intros cmd' Hin. apply (k_payload _ _ _ _ _ _ _ Hk). rewrite Hq. by right.
  - apply (k_fresh _ _ _ _ _ _ _ Hk).
  - intros cmd' Hin. apply (k_small _ _ _ _ _ _ _ Hk). rewrite Hq. by right.
  - change (applied_input_bytes l + data_len cmd) with (range_end_byte (reply cmd, range).2).
    eapply ack_chain_snoc; [apply (k_acks _ _ _ _ _ _ _ Hk)|done|]. simpl. by rewrite Hpay.
  - destruct (healthy_tail _ _ _ _ _ Hk Hok) as [Hw Hu].
    exists []. rewrite Hw, Hq. simpl. rewrite map_app, concat_app. simpl.
    rewrite Hpay, takeN_ge, !app_nil_r by (unfold data_len in *; lia). split; [done|].
    left. split; [done|]. split; [|done]. simpl. by rewrite front_prefix_zero.
  - assert (Hold : completed_chain (input_operations g1) 0 (completed_input_operations g)
                     (applied_input_bytes l)).
    { eapply completed_chain_ext; [|done|apply (k_completed _ _ _ _ _ _ _ Hk)].
      intros k r range' Hin Hm. apply settle_lookup. right. split; [done|]. intros k' ch' Hr ->.
      destruct (head_entry _ _ _ _ _ _ _ _ _ Hk Hq Hr) as (r' & Hm' & _). congruence. }
    subst g2. destruct (reply cmd) as [ch|k ch] eqn:Hr; simpl.
    + rewrite Hp2. eapply completed_chain_ext; [done| |done]. lia.
    + rewrite Hp2.
      destruct (head_entry _ _ _ _ _ _ _ _ _ Hk Hq Hr) as (r & Hm & Hd).
      specialize (Hcursor _ _ _ Hr Hm).
      eapply (completed_chain_snoc _ _ _ _ _ k r range); [done| |simpl; lia|simpl; lia| |simpl; lia].
      * subst g1. apply settle_lookup. left. by eexists _, _.
      * simpl. unfold data_len. rewrite <- Hd. lia.
  - intros k r range' [(ch & entry & Hr & Hm & _)|[Hm Hother]]%settle_lookup.
    + subst g2. rewrite Hr. simpl. rewrite elem_of_app. right. by left.
    + subst g2. apply (k_listed _ _ _ _ _ _ _ Hk) in Hm. rewrite <- Hp2 in Hm.
      destruct (reply cmd); simpl; [done|]. rewrite elem_of_app. by left.
  - subst g2. destruct (reply cmd) as [ch|k ch] eqn:Hr; simpl; rewrite Hp2.
    + apply (k_once _ _ _ _ _ _ _ Hk).
    + apply NoDup_app. split_and!; [apply (k_once _ _ _ _ _ _ _ Hk)| |apply NoDup_singleton].
      intros k' Hin ->%list_elem_of_singleton.
      destruct (completed_chain_elem _ _ _ _ _ (k_completed _ _ _ _ _ _ _ Hk) Hin) as (r & rg & Hm).
      destruct (head_entry _ _ _ _ _ _ _ _ _ Hk Hq Hr) as (r' & Hm' & _). congruence.
  - intros k x [(ch & entry & Hr & Hm & ->)|[Hm _]]%settle_lookup; [|by eapply k_entries].
    destruct (k_entries _ _ _ _ _ _ _ Hk _ _ Hm) as [? ?]. by split.
  - intros k r f' [(ch & entry & Hr & Hm & [=])|[Hm _]]%settle_lookup.
    by destruct (healthy_no_unknown _ _ _ _ _ k r f' Hk Hok).
  - intros k k' r r' f1 f2 [(ch & entry & Hr & Hm & [=])|[Hm _]]%settle_lookup Hx.
    by destruct (healthy_no_unknown _ _ _ _ _ k r f1 Hk Hok).
  - pose proof (k_budget _ _ _ _ _ _ _ Hk) as (Hb1 & Hb2 & Hb3).
    unfold held in *. simpl. rewrite Hq, sumN_cons in Hb1. rewrite Hops, Hs2. split_and!; lia.
Qed.

(** ** Admitting a command *)

Definition admitted (ch : N) (d : bytes) (G : ghost) : ghost :=
  {| wire := wire G; datas := <[ch := d]> (datas G); acked := acked G; refused := refused G |}.
Definition push (cmd : InputCommand) (l : InputLane) : InputLane :=
  set_queue (input_queue l ++ [cmd]) (input_commands l + 1) (input_bytes l + data_len cmd) l.
Definition add_entry (r : InputReply) (request : InputOperationRequest) (g : InputLedger)
    : InputLedger :=
  match r with
  | Legacy _ => g
  | Recoverable k ch =>
      set_retained (retained_input_request_bytes g + len (request_data request))
        (set_operations (<[k := EntryPending request ch]> (input_operations g)) g)
  end.
Definition entry_charge (r : InputReply) (request : InputOperationRequest) : N :=
  match r with Legacy _ => 0 | Recoverable _ _ => default 0 (request_memory request) end.

Lemma channels_admitted G l cmd :
  channels (push cmd l) (admitted (command_channel cmd) (command_data cmd) G) ≡ₚ
  command_channel cmd :: channels l G.
Proof.
  unfold channels. simpl. rewrite map_app. simpl.
  by rewrite !app_assoc, <- Permutation_cons_append.
Qed.

Lemma data_of_fresh ds ch d r : ds !! ch = None → is_Some (ds !! reply_channel r) →
  data_of (<[ch := d]> ds) r = data_of ds r.
Proof.
  intros Hn [x Hx]. unfold data_of. rewrite lookup_insert_ne; [done|]. intros ->. congruence.
Qed.

Lemma ack_chain_fresh ds ch d a acks b :
  ds !! ch = None → (∀ x, x ∈ acks → is_Some (ds !! reply_channel x.1)) →
  ack_chain ds a acks b → ack_chain (<[ch := d]> ds) a acks b.
Proof.
  intros Hn. revert a. induction acks as [|[r range] acks IH]; intros a Hin; simpl; [done|].
  intros (H1 & H2 & H3). split_and!; [done| |].
  - rewrite data_of_fresh; [done|done|]. apply (Hin (r, range)). by left.
  - apply IH; [|done]. intros x Hx. apply Hin. by right.
Qed.

Lemma reply_known G l g b n x :
  core a0 others G l g b n →
  x ∈ map fst (acked G) ++ map fst (refused G) → is_Some (datas G !! reply_channel x).
Proof.
  intros Hk Hin. apply (k_datas _ _ _ _ _ _ _ Hk). unfold channels. rewrite !elem_of_app.
  apply elem_of_app in Hin as [Hin|Hin]; [left|right; left];
    apply list_elem_of_fmap in Hin as (y & -> & Hin);
    apply list_elem_of_fmap; by exists y.
Qed.

Lemma front_prefix_push cmd q :
  confirmed cmd = 0 → front_prefix (q ++ [cmd]) = front_prefix q.
Proof. intros Hz. destruct q; simpl; [by rewrite Hz, takeN_0|done]. Qed.

Lemma core_enqueue others' G l g b b' n cmd request :
  core a0 others G l g b n → confirmed cmd = 0 → command_channel cmd = n →
  data_len cmd ≤ u32_max →
  (∀ k ch, reply cmd = Recoverable k ch → input_operations g !! k = None ∧
     request_data request = command_data cmd ∧ command_data cmd ≠ [] ∧
     input_key_validate k = Ok tt) →
  ByteBudget.used b' = others' + (held l g + command_held cmd + entry_charge (reply cmd) request) →
  ByteBudget.used b' ≤ ByteBudget.limit b' → ByteBudget.limit b' ≤ u64_max →
  core a0 others' (admitted n (command_data cmd) G) (push cmd l)
    (add_entry (reply cmd) request g) b' (n + 1).
Proof.
  intros Hk Hz Hch Hsmall Hentry Hb1 Hb2 Hb3.
  assert (Hfresh : datas G !! n = None).
  { apply eq_None_not_Some. intros Hs%(k_fresh _ _ _ _ _ _ _ Hk). lia. }
  assert (Hperm : channels (push cmd l) (admitted n (command_data cmd) G) ≡ₚ n :: channels l G)
    by (rewrite <- Hch; apply channels_admitted).
  assert (Hkeep : ∀ k' x, input_operations g !! k' = Some x →
            input_operations (add_entry (reply cmd) request g) !! k' = Some x).
  { intros k' x Hx. destruct (reply cmd) as [|k ch] eqn:Hr; simpl; [done|].
    destruct (Hentry k ch eq_refl) as (Hnone & _). rewrite lookup_insert_ne; [done|congruence]. }
  assert (Hcases : ∀ k' x, input_operations (add_entry (reply cmd) request g) !! k' = Some x →
            input_operations g !! k' = Some x ∨
            ∃ ch, reply cmd = Recoverable k' ch ∧ x = EntryPending request ch).
  { intros k' x. destruct (reply cmd) as [|k ch] eqn:Hr; simpl; [by left|].
    rewrite lookup_insert_Some. intros [[<- <-]|[_ ?]]; eauto. }
  assert (Hcompleted : completed_input_operations (add_entry (reply cmd) request g)
                       = completed_input_operations g) by (by destruct (reply cmd)).
  constructor; simpl; rewrite ?Hcompleted; try done.
  - rewrite len_app, len_cons, len_nil, (k_commands _ _ _ _ _ _ _ Hk). lia.
  - rewrite sumN_app, sumN_cons, sumN_nil, (k_bytes _ _ _ _ _ _ _ Hk). lia.
  - pose proof (k_retained _ _ _ _ _ _ _ Hk) as Hret.
    destruct (reply cmd) as [|k ch] eqn:Hr; simpl; [done|].
    destruct (Hentry k ch eq_refl) as (Hnone & _).
    rewrite msum_insert_None by done. unfold entry_len at 1, entry_data. simpl. lia.
  - intros cmd' k' ch' [Hin| ->%list_elem_of_singleton]%elem_of_app Hr'.
    + destruct (k_queued _ _ _ _ _ _ _ Hk cmd' k' ch') as (r & Hm & Hd); [done..|]. eauto.
    + rewrite Hr' in *. destruct (Hentry k' ch' eq_refl) as (_ & Hd & _).
      exists request. simpl. by rewrite lookup_insert_eq.
  - intros k' r ch' [Hm|(ch & Hr & [= -> ->])]%Hcases.
    + destruct (k_pending _ _ _ _ _ _ _ Hk _ _ _ Hm) as (cmd' & Hin & Hr').
      exists cmd'. split; [|done]. apply elem_of_app. by left.
    + exists cmd. split; [|done]. apply elem_of_app. right. by left.
  - destruct (input_queue l) as [|front q] eqn:Hq; simpl; [by constructor|].
    pose proof (k_behind _ _ _ _ _ _ _ Hk) as Hb. rewrite Hq in Hb. simpl in Hb.
    apply Forall_app. auto.
  - intros front q Hfront Hne. destruct (input_queue l) as [|front' q'] eqn:Hq; simplify_eq/=.
    destruct (k_front _ _ _ _ _ _ _ Hk _ _ Hq Hne) as (H1 & H2 & H3). split_and!; [done|done|].
    intros k ch r Hr [Hm|(ch' & Hr' & _)]%Hcases; [by eapply H3|].
    destruct (k_queued _ _ _ _ _ _ _ Hk front k ch) as (r' & Hm & _); [rewrite Hq; by left|done|].
    destruct (Hentry k ch' Hr') as (Hnone & _). congruence.
  - rewrite Hperm. apply NoDup_cons. split; [|apply (k_channels _ _ _ _ _ _ _ Hk)].
    intros Hin%(k_datas _ _ _ _ _ _ _ Hk). rewrite Hfresh in Hin. by destruct Hin.
  - intros ch. rewrite Hperm, elem_of_cons, <- (k_datas _ _ _ _ _ _ _ Hk).
    destruct (decide (ch = n)) as [->|Hne].
    + rewrite lookup_insert_eq. split; [by left|eauto].
    + rewrite lookup_insert_ne by done. naive_solver.
  - intros cmd' [Hin| ->%list_elem_of_singleton]%elem_of_app.
    + pose proof (k_payload _ _ _ _ _ _ _ Hk _ Hin) as Hp.
      rewrite lookup_insert_ne; [done|congruence].
    + by rewrite Hch, lookup_insert_eq.
  - intros ch. destruct (decide (ch = n)) as [->|Hne]; [lia|].
    rewrite lookup_insert_ne by done. intros Hs%(k_fresh _ _ _ _ _ _ _ Hk). lia.
  - intros cmd' [Hin| ->%list_elem_of_singleton]%elem_of_app; [|done].
    by apply (k_small _ _ _ _ _ _ _ Hk).
  - apply ack_chain_fresh; [done| |apply (k_acks _ _ _ _ _ _ _ Hk)].
    intros x Hx. eapply reply_known; [done|]. apply elem_of_app. left.
    apply list_elem_of_fmap. by exists x.
  - apply (k_applied _ _ _ _ _ _ _ Hk).
  - destruct (k_wire _ _ _ _ _ _ _ Hk) as (t & Hw & Ht). exists t. split.
    { rewrite Hw. f_equal. f_equal. apply map_ext_in. intros x Hx%list_elem_of_In.
      rewrite data_of_fresh; [done|done|]. eapply reply_known; [done|].
      apply elem_of_app. left. apply list_elem_of_fmap. by exists x. }
    destruct Ht as [(Hf & -> & Hu)|(Hf & Hzs & Hcase)].
    + left. split_and!; [done|simpl; by rewrite front_prefix_push|done].
    + right. split; [done|]. split; [apply Forall_app; auto|].
      destruct Hcase as [?|(r & f & rest & Hp & Hu & Hd & Hcn & Htk)]; [by left|right].
      exists r, f, rest. split_and!; try done. rewrite data_of_fresh; [done|done|].
      eapply reply_known; [done|]. apply elem_of_app. right.
      apply list_elem_of_fmap. exists (r, f). split; [done|]. rewrite Hp. by left.
  - eapply completed_chain_ext; [|done|apply (k_completed _ _ _ _ _ _ _ Hk)]. eauto.
  - intros k r range [Hm|(ch & _ & [=])]%Hcases. by eapply k_listed.
  - apply (k_once _ _ _ _ _ _ _ Hk).
  - intros k e [Hm|(ch & Hr & ->)]%Hcases; [by eapply k_entries|].
    destruct (Hentry k ch Hr) as (_ & Hd & Hne & Hv). unfold entry_data. simpl. by rewrite Hd.
  - intros k r f [Hm|(ch & _ & [=])]%Hcases. by eapply k_unknown.
  - intros k k' r r' f f' [Hm|(? & _ & [=])]%Hcases [Hm'|(? & _ & [=])]%Hcases.
    by eapply k_one_unknown.
  - split_and!; [|done|done]. rewrite Hb1. unfold held. simpl.
    rewrite sumN_app, sumN_cons, sumN_nil.
    destruct (reply cmd) as [|k ch] eqn:Hr; simpl; [lia|].
    destruct (Hentry k ch eq_refl) as (Hnone & _).
    rewrite msum_insert_None by done. unfold entry_held at 2. simpl. lia.
Qed.

(** ** Evicting the oldest completed result *)

Lemma completed_chain_lower m a a' ks b :
  a' ≤ a → completed_chain m a ks b → completed_chain m a' ks b.
Proof.
  destruct ks; simpl; [lia|]. intros Ha (r & range & ? & ? & ? & ? & ?).
  exists r, range. split_and!; auto. lia.
Qed.

Definition evicted (k : InputOperationKey) (ks : list InputOperationKey) (g : InputLedger)
    : InputLedger :=
  set_retained (retained_input_request_bytes g - from_option entry_len 0 (input_operations g !! k))
    (set_operations (delete k (input_operations g)) (set_completed ks g)).

Lemma core_evict G l g b n k ks :
  core a0 others G l g b n → completed_input_operations g = k :: ks →
  core a0 others G l (evicted k ks g)
    (release_memory (from_option entry_held 0 (input_operations g !! k)) b) n.
Proof.
  intros Hk Hks. pose proof (k_completed _ _ _ _ _ _ _ Hk) as Hc. rewrite Hks in Hc.
  pose proof (k_once _ _ _ _ _ _ _ Hk) as Honce. rewrite Hks in Honce.
  apply NoDup_cons in Honce as [Hnot Honce].
  destruct Hc as (r & range & Hm & Ha & Hs & He & Hc).
  assert (Hsub : ∀ k' x, input_operations (evicted k ks g) !! k' = Some x →
            k' ≠ k ∧ input_operations g !! k' = Some x).
  { simpl. intros k' x [? ?]%lookup_delete_Some. done. }
  assert (Hkeep : ∀ k' x, k' ≠ k → input_operations g !! k' = Some x →
            input_operations (evicted k ks g) !! k' = Some x).
  { simpl. intros k' x ? ?. by rewrite lookup_delete_ne. }
  constructor; try apply Hk.
  - simpl. rewrite (k_retained _ _ _ _ _ _ _ Hk), (msum_delete entry_len _ _ _ Hm), Hm. simpl. lia.
  - intros cmd k' ch' Hin Hr. destruct (k_queued _ _ _ _ _ _ _ Hk cmd k' ch' Hin Hr) as (r' & Hm' & ?).
    exists r'. split; [|done]. apply Hkeep; [|done]. intros ->. congruence.
  - intros k' r' ch' [_ Hm']%Hsub. by eapply k_pending.
  - intros cmd q Hq Hne. destruct (k_front _ _ _ _ _ _ _ Hk cmd q Hq Hne) as (H1 & H2 & H3).
    split_and!; [done|done|]. intros k' ch' r' Hr [_ Hm']%Hsub. by eapply H3.
  - simpl. eapply completed_chain_lower; [|eapply completed_chain_ext; [|done|exact Hc]]; [lia|].
    intros k' r' range' Hin Hm'. apply Hkeep; [|done]. by intros ->.
  - intros k' r' range' [Hne Hm']%Hsub. apply (k_listed _ _ _ _ _ _ _ Hk) in Hm'.
    rewrite Hks in Hm'. simpl. by apply elem_of_cons in Hm' as [->|].
  - done.
  - intros k' x [_ Hm']%Hsub. by eapply k_entries.
  - intros k' r' f [_ Hm']%Hsub. by eapply k_unknown.
  - intros k1 k2 r1 r2 f1 f2 [_ H1]%Hsub [_ H2]%Hsub. by eapply k_one_unknown.
  - pose proof (k_budget _ _ _ _ _ _ _ Hk) as (Hb1 & Hb2 & Hb3). unfold held in *. simpl.
    rewrite (msum_delete entry_held _ _ _ Hm) in Hb1. rewrite Hm. simpl. split_and!; lia.
Qed.
End core.

(** ** Operations on the owner *)

Definition cinv (a0 others : N) (G : ghost) (c : Control) : Prop :=
  core a0 others G (lane (state c)) (ledger (state c)) (control_budget c) (next_channel c).

Definition refuse_all (rej : list (InputReply * ControlFailure)) (G : ghost) : ghost :=
  {| wire := wire G; datas := datas G; acked := acked G; refused := refused G ++ rej |}.

Lemma refuse_all_nil G : refuse_all [] G = G.
Proof. destruct G. unfold refuse_all. simpl. by rewrite app_nil_r. Qed.
Lemma refuse_all_cons x rej G : refuse_all rej (refuse x G) = refuse_all (x :: rej) G.
Proof. unfold refuse_all, refuse. simpl. by rewrite <- app_assoc. Qed.

(** What a section that only settles queued input leaves alone. *)
Record frame (c c' : Control) : Prop := {
  f_run : control_run c' = control_run c;
  f_resources : resources c' = resources c;
  f_phase : phase (state c') = phase (state c);
  f_size : confirmed_size (state c') = confirmed_size (state c);
  f_owner : owner_failure (state c') = owner_failure (state c);
  f_child : child (state c') = child (state c);
  f_entries : input_result_max_entries (state c') = input_result_max_entries (state c);
  f_result_bytes : input_result_max_request_bytes (state c') = input_result_max_request_bytes (state c);
  f_scheduled : input_scheduled (lane (state c')) = input_scheduled (lane (state c));
  f_blocked : input_blocked (lane (state c')) = input_blocked (lane (state c));
  f_applied : applied_input_bytes (lane (state c')) = applied_input_bytes (lane (state c));
  f_inner : inner_failure c' = inner_failure c;
  f_writer : writer_open c' = writer_open c;
  f_bound : service_bound c' = service_bound c;
  f_published : published c' = published c;
  f_channel : next_channel c' = next_channel c;
  f_sent : sent c' = sent c;
  f_ledger_size : (size (input_operations (ledger (state c'))) ≤
                   size (input_operations (ledger (state c))))%nat;
  f_retained : retained_input_request_bytes (ledger (state c')) ≤
               retained_input_request_bytes (ledger (state c));
  f_commands : input_commands (lane (state c')) ≤ input_commands (lane (state c));
  f_bytes : input_bytes (lane (state c')) ≤ input_bytes (lane (state c));
}.

Lemma frame_trans c1 c2 c3 : frame c1 c2 → frame c2 c3 → frame c1 c3.
Proof. intros [] []. constructor; try (etrans; eassumption); congruence || lia. Qed.


(** ** What callers were told *)

Definition acks (ss : list Sent) : list (InputReply * AppliedInputRange) :=
  omap (λ s, match s with SentInput r (Ok range) => Some (r, range) | _ => None end) ss.
Definition fails (ss : list Sent) : list (InputReply * ControlFailure) :=
  omap (λ s, match s with SentInput r (Err f) => Some (r, f) | _ => None end) ss.
Definition rejection (x : InputReply * ControlFailure) : Sent := SentInput x.1 (Err x.2).

Lemma acks_app ss ss' : acks (ss ++ ss') = acks ss ++ acks ss'.
Proof. apply omap_app. Qed.
Lemma fails_app ss ss' : fails (ss ++ ss') = fails ss ++ fails ss'.
Proof. apply omap_app. Qed.
Lemma acks_rejections rej : acks (map rejection rej) = [].
Proof. unfold acks. induction rej; [done|]. simpl. done. Qed.
Lemma fails_rejections rej : fails (map rejection rej) = rej.
Proof. unfold fails. induction rej as [|[r f] rej IH]; [done|]. simpl. f_equal. done. Qed.

Lemma core_refused_perm a0 others G fs l g b n :
  refused G ≡ₚ fs → core a0 others G l g b n →
  core a0 others {| wire := wire G; datas := datas G; acked := acked G; refused := fs |} l g b n.
Proof.
  intros Hp Hk.
  assert (Hch : channels l {| wire := wire G; datas := datas G; acked := acked G; refused := fs |}
                ≡ₚ channels l G).
  { unfold channels. simpl. by rewrite Hp. }
  constructor; try apply Hk.
  - rewrite Hch. apply Hk.
  - intros ch. rewrite Hch. apply Hk.
  - destruct (k_wire _ _ _ _ _ _ _ Hk) as (t & Hw & Ht). exists t. split; [done|]. simpl.
    destruct Ht as [(?&?&Hu)|(?&?&[[? Hu]|(r & f & rest & Hq & ?)])].
    + left. by rewrite <- Hp.
    + right. split; [done|]. split; [done|]. left. by rewrite <- Hp.
    + right. split; [done|]. split; [done|]. right. exists r, f, rest. by rewrite <- Hp.
Qed.

Section ops.
Context `{!UuidDisplay, !ControlLayout}.
Context (a0 : N).
Implicit Types (others : N) (G : ghost) (c : Control).

Lemma core_budget others others' G l g b b' n :
  core a0 others G l g b n → ByteBudget.used b' = others' + held l g →
  ByteBudget.used b' ≤ ByteBudget.limit b' → ByteBudget.limit b' ≤ u64_max →
  core a0 others' G l g b' n.
Proof. intros Hk ???. constructor; try apply Hk. done. Qed.

Lemma drop_memory_eq m c :
  default 0 m ≤ ByteBudget.used (control_budget c) →
  ByteBudget.used (control_budget c) ≤ u64_max →
  drop_memory m c = set_budget (release_memory (default 0 m) (control_budget c)) c.
Proof.
  intros H1 H2. destruct m as [p|]; simpl in *.
  - by rewrite ByteBudget.drop_spec.
  - unfold release_memory, set_budget. rewrite N.sub_0_r. by destruct c as [? ? ? ? ? [? ?]].
Qed.

Lemma drop_memory_ok others m G c :
  cinv a0 (others + default 0 m) G c → cinv a0 others G (drop_memory m c).
Proof.
  intros Hk. pose proof (k_budget _ _ _ _ _ _ _ Hk) as (Hb1 & Hb2 & Hb3).
  rewrite drop_memory_eq by lia. eapply core_budget; [exact Hk|..]; simpl; lia.
Qed.
Lemma drop_memory_frame m c : frame c (drop_memory m c).
Proof. destruct m; constructor; done. Qed.
Lemma drop_memory_lane m c : lane (state (drop_memory m c)) = lane (state c).
Proof. by destruct m. Qed.

Lemma remove_operation_ok others G c k e :
  cinv a0 others G c → input_operations (ledger (state c)) !! k = Some e →
  remove_input_operation k c = Ret (drop_memory (request_memory (entry_request e))
    (upd_ledger (λ g, set_retained (retained_input_request_bytes g - entry_len e)
       (set_operations (delete k (input_operations g)) g)) c)).
Proof.
  intros Hk He. unfold remove_input_operation. rewrite He.
  pose proof (k_retained _ _ _ _ _ _ _ Hk) as Hr.
  pose proof (msum_lookup_le entry_len _ _ _ He) as Hle.
  assert (Hsub : checked_sub (retained_input_request_bytes (ledger (state c)))
                   (len (request_data (entry_request e))) =
                 Some (retained_input_request_bytes (ledger (state c)) - entry_len e)).
  { apply checked_sub_Some. unfold entry_len, entry_data in *. lia. }
  by rewrite Hsub.
Qed.

Lemma release_capacity_ok others G c cmd q :
  cinv a0 others G c → input_queue (lane (state c)) = cmd :: q →
  release_input_capacity (data_len cmd) (upd_lane (set_head q) c) =
    Ret (upd_lane (pop q cmd) c).
Proof.
  intros Hk Hq. destruct (pop_counts _ _ _ _ _ _ _ _ _ Hk Hq) as (H1 & H2 & _ & _).
  unfold release_input_capacity. simpl.
  rewrite (proj2 (checked_sub_Some _ _ _) (conj eq_refl H1)).
  rewrite (proj2 (checked_sub_Some _ _ _) (conj eq_refl H2)). done.
Qed.

(** The popped command is dropped later, so its own memory is still in hand. *)
Lemma pop_refused_ok others G c cmd q f :
  cinv a0 others G c → input_queue (lane (state c)) = cmd :: q → confirmed cmd = 0 →
  untouched (reply cmd, f) →
  ∃ c', (match reply cmd with
         | Recoverable key _ => remove_input_operation key (upd_lane (pop q cmd) c)
         | Legacy _ => Ret (upd_lane (pop q cmd) c)
         end) = Ret c' ∧
    cinv a0 (others + command_held cmd) (refuse (reply cmd, f) G) c' ∧ frame c c' ∧
    input_queue (lane (state c')) = q ∧
    input_failure (lane (state c')) = input_failure (lane (state c)).
Proof.
  intros Hk Hq Hz Hu. pose proof (core_refuse _ _ _ _ _ _ _ _ _ f Hk Hq Hz Hu) as Hnew.
  destruct (pop_counts _ _ _ _ _ _ _ _ _ Hk Hq) as (H1 & H2 & _ & _).
  pose proof (k_budget _ _ _ _ _ _ _ Hk) as (Hb1 & Hb2 & Hb3).
  pose proof (k_budget _ _ _ _ _ _ _ Hnew) as (Hn1 & Hn2 & Hn3).
  pose proof (forgotten_held _ _ _ _ _ _ _ _ _ Hk Hq) as Hheld.
  destruct (reply cmd) as [ch|k ch] eqn:Hr.
  - eexists. split; [done|]. split_and!; [|constructor; simpl; lia || done|done|done].
    simpl in Hn1, Hn2, Hn3. unfold forgotten_memory in *. rewrite Hr in *.
    eapply core_budget; [exact Hnew|..]; simpl; lia.
  - destruct (head_entry _ _ _ _ _ _ _ _ _ _ _ Hk Hq Hr) as (r & Hm & _).
    pose proof (k_retained _ _ _ _ _ _ _ Hk) as Hret.
    pose proof (msum_lookup_le entry_len _ _ _ Hm) as Hle.
    unfold remove_input_operation. simpl. rewrite Hm.
    assert (Hsub : checked_sub (retained_input_request_bytes (ledger (state c)))
                     (len (request_data r)) =
                   Some (retained_input_request_bytes (ledger (state c)) - len (request_data r))).
    { apply checked_sub_Some. unfold entry_len, entry_data in *. simpl in *. lia. }
    simpl. rewrite Hsub. simpl.
    unfold forgotten_memory in *. rewrite Hr, Hm in *. simpl in *.
    rewrite drop_memory_eq by (simpl; unfold entry_held in *; simpl in *; lia).
    eexists. split; [done|]. split_and!; [| |done|done].
    + unfold entry_held in *. simpl in *. rewrite Hm in Hnew. simpl in Hnew.
      unfold cinv. simpl. unfold entry_len in Hnew. unfold entry_data in Hnew. simpl in Hnew.
      eapply core_budget; [exact Hnew|..]; simpl; try lia.
      rewrite Hm in Hn1. simpl in Hn1. unfold entry_len in Hn1. unfold entry_data in Hn1.
      simpl in Hn1. lia.
    + constructor; simpl; try lia; try done. rewrite map_size_delete, Hm. simpl. lia.
Qed.

Lemma pop_unknown_ok others G c cmd q f e :
  cinv a0 others G c → input_queue (lane (state c)) = cmd :: q →
  input_failure (lane (state c)) = None → disposition f = Unknown →
  confirmed_input_bytes f = Some (confirmed cmd) → code e = code (error f) →
  confirmed cmd ≤ data_len cmd → cursor_ok (lane (state c)) (ledger (state c)) cmd →
  ∃ c', retain_unknown_input_operation (reply cmd) f
          (upd_lane (set_failure (Some e)) (upd_lane (pop q cmd) c)) = Ret c' ∧
    cinv a0 (others + command_held cmd) (refuse (reply cmd, f) G) c' ∧ frame c c' ∧
    input_queue (lane (state c')) = q ∧ input_failure (lane (state c')) = Some e.
Proof.
  intros Hk Hq Hok Hd Hp Hcode Hle Hcur.
  pose proof (core_unknown _ _ _ _ _ _ _ _ _ f e Hk Hq Hok Hd Hp Hcode Hle Hcur) as Hnew.
  destruct (pop_counts _ _ _ _ _ _ _ _ _ Hk Hq) as (H1 & H2 & _ & _).
  pose proof (k_budget _ _ _ _ _ _ _ Hk) as (Hb1 & Hb2 & Hb3).
  pose proof (k_budget _ _ _ _ _ _ _ Hnew) as (Hn1 & Hn2 & Hn3).
  assert (Hheld : command_held cmd ≤ held (lane (state c)) (ledger (state c))).
  { unfold held. rewrite Hq, sumN_cons. lia. }
  destruct (reply cmd) as [ch|k ch] eqn:Hr.
  - eexists. split; [done|]. split_and!; [|constructor; simpl; lia || done|done|done].
    eapply core_budget; [exact Hnew|..]; simpl in *; lia.
  - destruct (head_entry _ _ _ _ _ _ _ _ _ _ _ Hk Hq Hr) as (r & Hm & _).
    unfold retain_unknown_input_operation. simpl. rewrite Hm. simpl.
    eexists. split; [done|]. split_and!; [| |done|done].
    + unfold cinv. simpl in *. rewrite Hm in Hnew, Hn1. simpl in *.
      eapply core_budget; [exact Hnew|..]; simpl; lia.
    + constructor; simpl; try lia; try done.
      rewrite map_size_insert_Some; [done|by rewrite Hm].
Qed.

Lemma reject_commands_ok e q : ∀ others G c,
  cinv a0 others G c → input_queue (lane (state c)) = q →
  ∃ c' rej, reject_commands e q c = Ret (c', rej) ∧
    cinv a0 others (refuse_all rej G) c' ∧ frame c c' ∧ input_queue (lane (state c')) = [] ∧
    (input_failure (lane (state c')) = input_failure (lane (state c)) ∨
     input_failure (lane (state c)) = None ∧ input_failure (lane (state c')) = Some e) ∧
    length rej = length q.
Proof.
  induction q as [|cmd q IH]; intros others G c Hk Hq.
  { exists c, []. rewrite refuse_all_nil. split_and!; auto. by constructor. }
  cbn [reject_commands]. change (len (command_data cmd)) with (data_len cmd).
  rewrite (release_capacity_ok _ _ _ _ _ Hk Hq). simpl.
  assert (Hstep : ∃ c1 f, (if decide (confirmed cmd = 0) then
      let! c := match reply cmd with
                | Recoverable key _ => remove_input_operation key (upd_lane (pop q cmd) c)
                | Legacy _ => Ret (upd_lane (pop q cmd) c)
                end in Ret (c, not_applied e)
    else
      let! c := retain_unknown_input_operation (reply cmd) (with_prefix (confirmed cmd) (unknown e))
                  (upd_lane (set_failure (Some e)) (upd_lane (pop q cmd) c)) in
      Ret (c, with_prefix (confirmed cmd) (unknown e))) = Ret (c1, f) ∧
    cinv a0 (others + command_held cmd) (refuse (reply cmd, f) G) c1 ∧ frame c c1 ∧
    input_queue (lane (state c1)) = q ∧
    (input_failure (lane (state c1)) = input_failure (lane (state c)) ∨
     input_failure (lane (state c)) = None ∧ input_failure (lane (state c1)) = Some e)).
  { case_decide as Hz.
    - destruct (pop_refused_ok _ _ _ _ _ (not_applied e) Hk Hq Hz) as (c1 & -> & ?); [done|].
      simpl. exists c1, (not_applied e). naive_solver.
    - assert (Hok : input_failure (lane (state c)) = None).
      { destruct (k_wire _ _ _ _ _ _ _ Hk) as (t & _ & [[? _]|(_ & Hzs & _)]); [done|].
        rewrite Hq in Hzs. by apply Forall_cons in Hzs as [? _]. }
      destruct (k_front _ _ _ _ _ _ _ Hk _ _ Hq Hz) as (Hle & _ & Hcur).
      destruct (pop_unknown_ok _ _ _ _ _ (with_prefix (confirmed cmd) (unknown e)) e Hk Hq Hok)
        as (c1 & -> & ? & ? & ? & ?); [done..|].
      simpl. eexists c1, _. naive_solver. }
  destruct Hstep as (c1 & f & -> & Hk1 & Hf1 & Hq1 & Hfail1). simpl.
  apply drop_memory_ok in Hk1.
  destruct (IH others (refuse (reply cmd, f) G) (drop_memory (command_memory cmd) c1))
    as (c2 & rej & -> & Hk2 & Hf2 & Hq2 & Hfail2 & Hlen); [done|by rewrite drop_memory_lane|].
  simpl. exists c2, ((reply cmd, f) :: rej). rewrite refuse_all_cons in Hk2.
  rewrite drop_memory_lane in Hfail2. split_and!; [done|done| |done| |simpl; by rewrite Hlen].
  - eapply frame_trans; [done|]. eapply frame_trans; [apply drop_memory_frame|done].
  - destruct Hfail1 as [H1|[H1 H2]], Hfail2 as [H3|[H3 H4]]; rewrite ?H1, ?H2 in *; eauto; congruence.
Qed.

Lemma send_rejections_ok rej : ∀ c,
  send_rejections rej c = Ret (set_sent (sent c ++ map rejection rej) c).
Proof.
  induction rej as [|[r f] rej IH]; intros c.
  - simpl. rewrite app_nil_r. by destruct c.
  - cbn [send_rejections]. destruct r; simpl; rewrite IH; simpl; by rewrite <- app_assoc.
Qed.

Lemma reject_child_ok cs reason kind : ∀ c,
  ∃ ss, reject_child_commands cs reason kind c = set_sent (sent c ++ ss) c ∧
    acks ss = [] ∧ fails ss = [].
Proof.
  induction cs as [|cmd cs IH]; intros c; simpl.
  - exists []. rewrite app_nil_r. by destruct c.
  - destruct (IH (match cmd with
                  | ChildSignal _ _ ch => send (SentSignal ch (Err reason)) c
                  | ChildStop ch _ => send (SentStop ch (StopRejected (not_applied (protocol_error kind reason)))) c
                  | CleanupUnpublished => c end)) as (ss & -> & Ha & Hf).
    destruct cmd; simpl; [eexists (_ :: ss)|eexists (_ :: ss)|eexists ss];
      rewrite <- ?app_assoc; simpl; by split_and!.
Qed.

End ops.
