(* ===== verification/NativeControlSections.v ===== *)
(** * Native control: locked sections

    The invariant between two sections of a native control, and that every section
    keeps it.  Inside a section promises can be open: replies decided under the
    guard and sent after it is released. *)

From S2P Require Import Prelude.
From S2P Require Import Protocol.
From S2P Require Import Resources.
From S2P Require Import NativeControl.
From S2P Require Import NativeControlSpec.
Local Open Scope N_scope.

(** What holds at every point of a section. *)
Record shape (c : Control) : Prop := {
  s_child : phase (state c) = PhaseOpen → child_open (child (state c)) = true;
  s_owner : ∀ r, owner_failure (state c) = Some r → inner_failure c = Some r;
  s_entries : N.of_nat (base.size (input_operations (ledger (state c)))) ≤
              input_result_max_entries (state c);
  s_bytes : retained_input_request_bytes (ledger (state c)) ≤ input_result_max_request_bytes (state c);
  s_config : input_result_max_entries (state c) = input_result_entries (resources c) ∧
             input_result_max_request_bytes (state c) = input_result_bytes (resources c);
}.

(** What holds when the guard is about to be released. *)
Record presettled (c : Control) : Prop := {
  s_fenced : phase (state c) ≠ PhaseOpen ∨ is_Some (owner_failure (state c)) ∨
             is_Some (input_failure (lane (state c))) → input_queue (lane (state c)) = [];
  s_scheduled : input_queue (lane (state c)) ≠ [] → input_scheduled (lane (state c)) = true;
  s_published : service_bound c = true → last (published c) = Some (input_status (state c));
}.
(** An owner loss has been settled by the time the guard is released. *)
Definition settled (c : Control) : Prop :=
  presettled c ∧ (is_Some (inner_failure c) → is_Some (owner_failure (state c))).

(** While the lane is open, an admitted Stop the owner has not committed is
    marked; [p] is one the owner has already drained. *)
Definition has_stop (cs : list ChildCommand) : Prop := ∃ ch t, ChildStop ch t ∈ cs.
Definition stop_owed (p : bool) (c : Control) : Prop :=
  phase (state c) = PhaseOpen → inner_failure c = None →
  p = true ∨ has_stop (child_commands (child (state c))) → stop_pending (child (state c)) = true.

(** The direction of time. *)
Record later (c c' : Control) : Prop := {
  t_run : control_run c' = control_run c;
  t_closed : phase (state c) ≠ PhaseOpen → phase (state c') ≠ PhaseOpen;
  t_owner : ∀ r, owner_failure (state c) = Some r → owner_failure (state c') = Some r;
  t_failed : is_Some (input_failure (lane (state c))) → is_Some (input_failure (lane (state c')));
  t_applied : applied_input_bytes (lane (state c)) ≤ applied_input_bytes (lane (state c'));
  t_inner : ∀ r, inner_failure c = Some r → inner_failure c' = Some r;
  t_sent : ∃ ss, sent c' = (sent c ++ ss)%list;
  t_stop : ∀ p, stop_owed p c → stop_owed p c';
}.
#[global] Instance later_preorder : PreOrder later.
Proof.
  split.
  - intros c. constructor; auto; try lia. exists []. by rewrite app_nil_r.
  - intros c1 c2 c3 [] []. constructor; eauto; try congruence; try lia.
    + destruct t_sent0 as [s1 H1], t_sent1 as [s2 H2]. exists (s1 ++ s2)%list.
      by rewrite app_assoc, <- H1.
Qed.

(** [pa] and [pf] are decided and not sent yet. *)
Definition told (G : ghost) (c : Control) (pa : list (InputReply * AppliedInputRange))
    (pf : list (InputReply * ControlFailure)) : Prop :=
  acked G = (acks (sent c) ++ pa)%list ∧ refused G ≡ₚ (fails (sent c) ++ pf)%list.

Record mid (a0 others : N) (w : bytes) (ds : gmap N bytes) (c : Control)
    (pa : list (InputReply * AppliedInputRange)) (pf : list (InputReply * ControlFailure)) : Prop := {
  m_core : ∃ G, cinv a0 others G c ∧ wire G = w ∧ datas G = ds ∧ told G c pa pf;
  m_shape : shape c;
}.
(** Between sections. *)
Definition inv (a0 others : N) (w : bytes) (ds : gmap N bytes) (c : Control) : Prop :=
  mid a0 others w ds c [] [] ∧ settled c.

Lemma settled_same c c' :
  state c' = state c → inner_failure c' = inner_failure c → service_bound c' = service_bound c →
  published c' = published c → settled c → settled c'.
Proof. intros Hs Hi Hb Hp [[] ?]. split; [constructor|]; rewrite ?Hs, ?Hi, ?Hb, ?Hp; done. Qed.

Section sections.
Context `{!UuidDisplay, !ControlLayout}.
Context (a0 : N).
Implicit Types (others : N) (w : bytes) (ds : gmap N bytes) (c : Control).

(** ** Publishing *)

Lemma publish_state c : state (publish_input c) = state c.
Proof. unfold publish_input. by destruct (service_bound c). Qed.
Lemma publish_fields c :
  resources (publish_input c) = resources c ∧ inner_failure (publish_input c) = inner_failure c ∧
  control_run (publish_input c) = control_run c ∧ service_bound (publish_input c) = service_bound c ∧
  control_budget (publish_input c) = control_budget c ∧
  next_channel (publish_input c) = next_channel c ∧ sent (publish_input c) = sent c.
Proof. unfold publish_input. destruct (service_bound c) eqn:Hb; by split_and!. Qed.
Lemma publish_last c :
  service_bound (publish_input c) = true →
  last (published (publish_input c)) = Some (input_status (state (publish_input c))).
Proof.
  unfold publish_input. destruct (service_bound c) eqn:Hb; simpl; [by rewrite last_snoc|congruence].
Qed.

Lemma publish_mid others w ds c pa pf :
  mid a0 others w ds c pa pf → mid a0 others w ds (publish_input c) pa pf.
Proof.
  destruct (publish_fields c) as (H1 & H2 & H3 & H4 & H5 & H6 & H7).
  intros [(G & Hk & ? & ? & Ht) []]. split.
  - exists G. split_and!; try done.
    + unfold cinv. by rewrite publish_state, H5, H6.
    + unfold told. by rewrite H7.
  - constructor; rewrite ?publish_state, ?H1, ?H2; done.
Qed.
Lemma publish_later c : later c (publish_input c).
Proof. unfold publish_input. destruct (service_bound c); [|done]. by constructor; eauto using app_nil_r. Qed.
Lemma publish_empty c :
  input_queue (lane (state c)) = [] → presettled (publish_input c).
Proof.
  intros Hq. constructor; rewrite ?publish_state; [done|done|]. intros Hb.
  rewrite publish_last by done. by rewrite publish_state.
Qed.
Lemma publish_presettled c :
  (phase (state c) ≠ PhaseOpen ∨ is_Some (owner_failure (state c)) ∨
   is_Some (input_failure (lane (state c))) → input_queue (lane (state c)) = []) →
  (input_queue (lane (state c)) ≠ [] → input_scheduled (lane (state c)) = true) →
  presettled (publish_input c).
Proof.
  intros H1 H2. constructor; rewrite ?publish_state; [done|done|]. intros Hb.
  rewrite publish_last by done. by rewrite publish_state.
Qed.

(** ** Frames *)

Lemma frame_shape c c' :
  frame c c' → shape c → shape c'.
Proof.
  intros [] []. constructor; rewrite ?f_phase, ?f_owner, ?f_child, ?f_inner, ?f_entries, ?f_result_bytes, ?f_resources; try done; lia.
Qed.
Lemma frame_told c c' G pa pf : frame c c' → told G c pa pf → told G c' pa pf.
Proof. intros []. unfold told. by rewrite f_sent. Qed.
Lemma frame_later c c' :
  frame c c' → (is_Some (input_failure (lane (state c))) → is_Some (input_failure (lane (state c')))) →
  later c c'.
Proof.
  intros [] Hi. constructor; rewrite ?f_phase, ?f_owner, ?f_inner, ?f_applied, ?f_child; auto; try lia.
  - exists []. by rewrite app_nil_r, f_sent.
  - intros p. unfold stop_owed. by rewrite f_phase, f_inner, f_child.
Qed.

Lemma flags_mid others w ds c pa pf b1 b2 :
  mid a0 others w ds c pa pf → mid a0 others w ds (upd_lane (set_flags b1 b2) c) pa pf.
Proof.
  intros [(G & Hk & ? & ? & ?) []]. split; [|by constructor].
  exists G. split_and!; try done. unfold cinv in *. simpl. constructor; apply Hk.
Qed.

Lemma reject_queued_mid others w ds c pa pf e :
  mid a0 others w ds c pa pf →
  ∃ c' rej, reject_queued_inputs e c = Ret (c', rej) ∧
    mid a0 others w ds c' pa (pf ++ rej) ∧ later c c' ∧
    frame (upd_lane (set_flags false false) c) c' ∧ input_queue (lane (state c')) = [].
Proof.
  intros Hm. destruct (flags_mid _ _ _ _ _ _ false false Hm) as [(G & Hk & ? & ? & Ht) Hs].
  destruct (reject_commands_ok a0 e _ others G _ Hk eq_refl)
    as (c' & rej & Heq & Hk' & Hf & Hq & Hfail & _).
  exists c', rej. split_and!; [exact Heq| | |done|done].
  - split; [|by eapply frame_shape].
    exists (refuse_all rej G). split_and!; try done.
    destruct (frame_told _ _ _ _ _ Hf Ht) as [Ha Hp]. split; simpl; [done|].
    by rewrite Hp, app_assoc.
  - transitivity (upd_lane (set_flags false false) c); [constructor; auto; try lia|].
    + exists []. by rewrite app_nil_r.
    + apply frame_later; [done|]. simpl in Hfail |- *. intros [x Hx].
      destruct Hfail as [->|[? _]]; [eauto|congruence].
Qed.

(** ** Sending *)

Lemma sent_mid others w ds c pa pf pa' pf' ss :
  (acks (sent c) ++ pa)%list = (acks ss ++ pa')%list →
  (fails (sent c) ++ pf)%list ≡ₚ (fails ss ++ pf')%list →
  mid a0 others w ds c pa pf → mid a0 others w ds (set_sent ss c) pa' pf'.
Proof.
  intros Ha Hp [(G & Hk & ? & ? & [H1 H2]) []]. split; [|by constructor].
  exists G. split_and!; try done. split; simpl; [by rewrite <- Ha|by rewrite <- Hp].
Qed.
Lemma sent_settled c ss : settled c → settled (set_sent ss c).
Proof. by apply settled_same. Qed.
Lemma sent_later c ss : later c (set_sent (sent c ++ ss) c).
Proof. constructor; auto; try lia. eauto. Qed.

Lemma send_rejections_mid others w ds c pa rej pf :
  mid a0 others w ds c pa (rej ++ pf) →
  mid a0 others w ds (set_sent (sent c ++ map rejection rej) c) pa pf.
Proof.
  apply sent_mid.
  - by rewrite acks_app, acks_rejections, app_nil_r.
  - by rewrite fails_app, fails_rejections, app_assoc.
Qed.

Lemma reject_child_mid others w ds c pa pf cs reason kind :
  mid a0 others w ds c pa pf →
  mid a0 others w ds (reject_child_commands cs reason kind c) pa pf ∧
  later c (reject_child_commands cs reason kind c) ∧
  (settled c → settled (reject_child_commands cs reason kind c)).
Proof.
  destruct (reject_child_ok cs reason kind c) as (ss & -> & Ha & Hf). intros Hm.
  split_and!; [|apply sent_later|apply sent_settled].
  eapply sent_mid; [..|exact Hm]; by rewrite ?acks_app, ?fails_app, ?Ha, ?Hf, app_nil_r.
Qed.

(** ** Releasing the guard *)

Lemma lose_owner_mid others w ds c pa pf late :
  mid a0 others w ds c pa pf → mid a0 others w ds (lose_owner late c) pa pf.
Proof.
  unfold lose_owner. destruct (inner_failure c) eqn:Hi; [done|].
  intros [(G & Hk & ? & ? & Ht) []]. split; [by exists G|].
  constructor; simpl; try done. intros r Hr. apply s_owner0 in Hr. congruence.
Qed.
Lemma lose_owner_presettled c late : presettled c → presettled (lose_owner late c).
Proof. unfold lose_owner. destruct (inner_failure c); [done|]. intros []. by constructor. Qed.
Lemma lose_owner_later c late : later c (lose_owner late c).
Proof.
  unfold lose_owner. destruct (inner_failure c) eqn:Hi; [done|].
  constructor; auto; simpl; try lia; [congruence|exists []; by rewrite app_nil_r|].
  intros p Hs Ho _. by apply Hs.
Qed.

Lemma clear_commands_owed c p :
  stop_owed p c → stop_owed p (upd_child (set_child_commands []) c).
Proof. intros Hs Ho Hi [->|(? & ? & []%elem_of_nil)]. apply Hs; auto. Qed.

Lemma release_mid others w ds c pa pf :
  mid a0 others w ds c pa pf → presettled c →
  ∃ c', release_guard c = Ret c' ∧ mid a0 others w ds c' pa pf ∧ settled c' ∧ later c c'.
Proof.
  intros Hm Hp. unfold release_guard, settle_owner_loss.
  destruct (inner_failure c) as [reason|] eqn:Hi.
  2: { exists c. simpl. split_and!; try done; try (split; [done|]; rewrite Hi; by intros []). }
  destruct (owner_failure (state c)) as [r|] eqn:Ho.
  { exists c. simpl. split_and!; try done; try (split; [done|]; rewrite Ho; eauto). }
  set (c1 := upd_child _ _).
  assert (Hm1 : mid a0 others w ds c1 pa pf).
  { destruct Hm as [? []]. split; [done|]. constructor; simpl; try done. congruence. }
  assert (Hl1 : later c c1).
  { constructor; simpl; auto; try lia; [congruence|exists []; by rewrite app_nil_r|].
    intros p _ _ Hn. simpl in Hn. congruence. }
  destruct (reject_queued_mid _ _ _ _ _ _
    (protocol_error BackendUnavailable "daemon-wide Native input owner stopped") Hm1)
    as (c2 & rej & Hr & Hm2 & Hl2 & Hf & Hq).
  rewrite Hr. cbn [obind].
  apply publish_mid in Hm2. pose proof (publish_empty _ Hq) as Hp2.
  pose proof (publish_later c2) as Hl3. pose proof (publish_fields c2) as (_ & Hi3 & _).
  pose proof (publish_state c2) as Hs3. set (c3 := publish_input c2) in *.
  set (c4 := upd_child (set_child_commands []) c3).
  assert (Hm4 : mid a0 others w ds c4 pa (rej ++ pf)).
  { destruct Hm2 as [(G & Hk & ? & ? & [? Hp3]) []]. split; [|by constructor].
    exists G. split_and!; try done. split; [done|]. by rewrite Hp3, (Permutation_app_comm pf). }
  assert (Hset : settled c4).
  { destruct Hp2. split; [by constructor|]. intros _. simpl. rewrite Hs3, (f_owner _ _ Hf). by eexists. }
  assert (Hl4 : later c c4).
  { etrans; [exact Hl1|]. etrans; [exact Hl2|]. etrans; [exact Hl3|].
    constructor; auto; simpl; try lia; [exists []; by rewrite app_nil_r|apply clear_commands_owed]. }
  rewrite send_rejections_ok. cbn [obind].
  apply send_rejections_mid in Hm4.
  destruct (reject_child_mid _ _ _ _ _ _ (child_commands (child (state c3)))
    "native owner stopped before control admission" BackendUnavailable Hm4) as (Hm5 & Hl5 & Hs5).
  eexists. split_and!; [done|exact Hm5| |].
  - apply Hs5, sent_settled, Hset.
  - etrans; [exact Hl4|]. etrans; [apply sent_later|exact Hl5].
Qed.

Lemma late_release_mid others w ds c pa pf late :
  mid a0 others w ds c pa pf → presettled c →
  ∃ c', release_guard (lose_owner late c) = Ret c' ∧ mid a0 others w ds c' pa pf ∧ settled c' ∧
    later c c'.
Proof.
  intros Hm Hp.
  destruct (release_mid _ _ _ _ _ _ (lose_owner_mid _ _ _ _ _ _ late Hm)
              (lose_owner_presettled _ late Hp)) as (c' & ? & ? & ? & ?).
  exists c'. split_and!; try done. etrans; [apply lose_owner_later|done].
Qed.

(** ** After the guard: replies and the dropped command *)

Lemma send_err_mid others w ds c pa r f pf :
  mid a0 others w ds c pa ((r, f) :: pf) → settled c →
  ∃ c', resolve_input_reply r (Err f) c = Ret c' ∧ mid a0 others w ds c' pa pf ∧ settled c' ∧
    later c c'.
Proof.
  intros Hm Hs. exists (send (SentInput r (Err f)) c).
  split_and!; [by destruct r| |by apply sent_settled|apply sent_later].
  apply (send_rejections_mid _ _ _ _ _ [(r, f)] pf Hm).
Qed.
Lemma send_ok_mid others w ds c pa r range pf :
  mid a0 others w ds c ((r, range) :: pa) pf → settled c →
  range_start_byte range ≤ range_end_byte range →
  range_end_byte range - range_start_byte range ≤ u32_max →
  ∃ c', resolve_input_reply r (Ok range) c = Ret c' ∧ mid a0 others w ds c' pa pf ∧ settled c' ∧
    later c c'.
Proof.
  intros Hm Hs Hle Hu. exists (send (SentInput r (Ok range)) c).
  split_and!; [|..|by apply sent_settled|apply sent_later].
  - unfold resolve_input_reply. destruct r; [|done]. rewrite minus_u64_ok by done. cbn [obind].
    by rewrite bool_decide_eq_true_2.
  - eapply sent_mid; [..|exact Hm].
    + by rewrite acks_app, <- app_assoc.
    + by rewrite fails_app, app_nil_r.
Qed.
Lemma send_all_mid others w ds c pa rej pf :
  mid a0 others w ds c pa (rej ++ pf) → settled c →
  ∃ c', send_rejections rej c = Ret c' ∧ mid a0 others w ds c' pa pf ∧ settled c' ∧ later c c'.
Proof.
  intros Hm Hs. rewrite send_rejections_ok. eexists.
  split_and!; [done|by apply send_rejections_mid|by apply sent_settled|apply sent_later].
Qed.
Lemma drop_mid others w ds c pa pf m :
  mid a0 (others + default 0 m) w ds c pa pf → mid a0 others w ds (drop_memory m c) pa pf.
Proof.
  intros [(G & Hk & ? & ? & Ht) Hs]. split.
  - exists G. split_and!; try done; [by apply drop_memory_ok|].
    by eapply frame_told; [apply drop_memory_frame|].
  - by eapply frame_shape; [apply drop_memory_frame|].
Qed.
Lemma drop_settled c m : settled c → settled (drop_memory m c).
Proof. apply settled_same; by destruct m. Qed.
Lemma drop_later c m : later c (drop_memory m c).
Proof. apply frame_later; [apply drop_memory_frame|by rewrite drop_memory_lane]. Qed.
(** The end of a turn: the guard is released, the reply is sent, the command dropped. *)
Lemma settle_reply_mid others w ds c late cmd f rej :
  mid a0 (others + command_held cmd) w ds c [] ((reply cmd, f) :: rej) → presettled c →
  ∃ c', (let! c := release_guard (lose_owner late c) in
         let! c := resolve_input_reply (reply cmd) (Err f) c in
         let! c := send_rejections rej c in
         Ret (drop_memory (command_memory cmd) c)) = Ret c' ∧
    inv a0 others w ds c' ∧ later c c'.
Proof.
  intros Hm Hp.
  destruct (late_release_mid _ _ _ _ _ _ late Hm Hp) as (c1 & -> & Hm1 & Hs1 & Hl1).
  destruct (send_err_mid _ _ _ _ _ _ _ _ Hm1 Hs1) as (c2 & Hc2 & Hm2 & Hs2 & Hl2).
  cbn [obind]. rewrite Hc2. cbn [obind]. rewrite <- (app_nil_r rej) in Hm2.
  destruct (send_all_mid _ _ _ _ _ _ _ Hm2 Hs2) as (c3 & -> & Hm3 & Hs3 & Hl3). cbn [obind].
  eexists. split_and!; [done|split; [by apply drop_mid|by apply drop_settled]|].
  etrans; [exact Hl1|]. etrans; [exact Hl2|]. etrans; [exact Hl3|apply drop_later].
Qed.

(** A healthy open lane, as a turn finds it. *)
Record running (c : Control) : Prop := {
  r_open : phase (state c) = PhaseOpen;
  r_healthy : input_failure (lane (state c)) = None;
  r_owner : owner_failure (state c) = None;
}.
Lemma running_presettled c :
  running c → (input_queue (lane (state c)) ≠ [] → input_scheduled (lane (state c)) = true) →
  presettled (publish_input c).
Proof.
  intros [Ho Hh Hw] Hs. apply publish_presettled; [|done].
  rewrite Ho, Hh, Hw. intros [?|[[? ?]|[? ?]]]; congruence.
Qed.

(** ** One physical turn *)

Lemma refuse_front_mid others w ds c front queue expected late :
  inv a0 others w ds c → running c → input_queue (lane (state c)) = front :: queue →
  confirmed front = 0 →
  ∃ c', refuse_front front queue expected late c = Ret c' ∧ inv a0 others w ds c' ∧ later c c'.
Proof.
  intros [[(G & Hk & Hw & Hd & [Ha Hr]) Hsh] [Hp Howner]] Hrun Hq Hz.
  unfold refuse_front. rewrite bool_decide_eq_true_2 by done. cbn [obind check].
  change (len (command_data front)) with (data_len front).
  rewrite (release_capacity_ok _ _ _ _ _ _ Hk Hq). cbn [obind].
  set (f := not_applied (protocol_error InputCursorMismatch
    ("Run " +:+ show_run_id (control_run c) +:+ " applied-input cursor is " +:+
     pretty (applied_input_bytes (lane (state c))) +:+ ", not expected " +:+ pretty expected +:+
     ", or exhausted"))).
  destruct (pop_refused_ok _ _ _ _ _ _ f Hk Hq Hz) as (c1 & -> & Hk1 & Hf & Hq1 & Hi1); [done|].
  cbn [obind]. rewrite (f_run _ _ Hf), (f_applied _ _ Hf). fold f.
  assert (Hm1 : mid a0 (others + command_held front) w ds c1 [] [(reply front, f)]).
  { split; [|by eapply frame_shape]. eexists. split_and!; [exact Hk1|done..|].
    split; simpl; rewrite (f_sent _ _ Hf); [done|]. rewrite Hr. by rewrite app_nil_r. }
  assert (Hl1 : later c c1) by (apply frame_later; [done|by rewrite Hi1]).
  destruct (settle_reply_mid _ _ _ _ late _ _ _ (publish_mid _ _ _ _ _ _ Hm1)) as (c2 & Hc2 & ? & ?).
  { destruct Hrun. apply running_presettled.
    - constructor; [by rewrite (f_phase _ _ Hf)|by rewrite Hi1|by rewrite (f_owner _ _ Hf)].
    - intros _. rewrite (f_scheduled _ _ Hf). apply Hp. by rewrite Hq. }
  exists c2. split_and!; [exact Hc2|done|]. etrans; [exact Hl1|].
  by etrans; [apply publish_later|].
Qed.

Lemma fail_front_mid others w ds c front queue kind detail late :
  inv a0 others w ds c → running c → input_queue (lane (state c)) = front :: queue →
  confirmed front ≤ data_len front → cursor_ok (lane (state c)) (ledger (state c)) front →
  ∃ c', fail_front front queue kind detail late c = Ret c' ∧ inv a0 others w ds c' ∧ later c c' ∧
    is_Some (input_failure (lane (state c'))).
Proof.
  intros [[(G & Hk & Hw & Hd & [Ha Hr]) Hsh] [Hp Howner]] Hrun Hq Hle Hcur.
  unfold fail_front. change (len (command_data front)) with (data_len front).
  rewrite (release_capacity_ok _ _ _ _ _ _ Hk Hq). cbn [obind].
  unfold record_input_failure.
  set (e := protocol_error kind ("failed to write Run " +:+ _)).
  set (e' := protocol_error kind ("Run " +:+ _)).
  destruct (pop_unknown_ok _ _ _ _ _ _ (with_prefix (confirmed front) (unknown e)) e' Hk Hq
    (r_healthy _ Hrun)) as (c1 & Hc1 & Hk1 & Hf & Hq1 & Hi1); [done..|].
  rewrite Hc1. cbn [obind].
  assert (Hm1 : mid a0 (others + command_held front) w ds c1 []
                  [(reply front, with_prefix (confirmed front) (unknown e))]).
  { split; [|by eapply frame_shape]. eexists. split_and!; [exact Hk1|done..|].
    split; simpl; rewrite (f_sent _ _ Hf); [done|]. rewrite Hr. by rewrite app_nil_r. }
  assert (Hl1 : later c c1).
  { apply frame_later; [done|]. rewrite Hi1. eauto. }
  destruct (reject_queued_mid _ _ _ _ _ _ e Hm1) as (c2 & rej & -> & Hm2 & Hl2 & Hf2 & Hq2).
  cbn [obind].
  destruct (settle_reply_mid _ _ _ _ late _ _ _ (publish_mid _ _ _ _ _ _ Hm2)
              (publish_empty _ Hq2)) as (c3 & Hc3 & ? & Hl3).
  assert (later c1 c3) by (etrans; [exact Hl2|]; by etrans; [apply publish_later|]).
  exists c3. split_and!; [exact Hc3|done|by etrans|].
  eapply t_failed; [eassumption|]. rewrite Hi1. eauto.
Qed.

(** The head left the queue as applied. *)
Lemma complete_pop_ok others G c front queue e :
  cinv a0 others G c → input_queue (lane (state c)) = front :: queue →
  input_failure (lane (state c)) = None → confirmed front = data_len front →
  cursor_ok (lane (state c)) (ledger (state c)) front →
  e = applied_input_bytes (lane (state c)) + data_len front → e ≤ u64_max →
  let range := {| range_start_byte := applied_input_bytes (lane (state c)); range_end_byte := e |} in
  let c1 := upd_ledger (λ g, list_completed (reply front)
              (settle_entry (reply front) (λ r, EntryCompleted r range) g))
              (upd_lane (set_applied e) (upd_lane (pop queue front) c)) in
  (let! c := release_input_capacity (data_len front)
               (upd_lane (set_applied e) (upd_lane (set_head queue) c)) in
   match reply front with
   | Legacy _ => Ret c
   | Recoverable key _ =>
       let g := ledger (state c) in
       let! entry := expect "called `Option::unwrap()` on a `None` value"
                       (input_operations g !! key) in
       Ret (upd_ledger (λ g, set_completed (completed_input_operations g ++ [key])
              (set_operations
                 (<[key := EntryCompleted (entry_request entry) range]>
                    (input_operations g)) g)) c)
   end) = Ret c1 ∧
  cinv a0 (others + command_held front) (ack (reply front, range) G) c1.
Proof.
  intros Hk Hq Hok Hall Hcur He Hmax range c1.
  pose proof (core_ack _ _ _ _ _ _ _ _ _ _ Hk Hq Hok Hall Hcur He Hmax) as Hnew.
  cbv zeta in Hnew. fold range in Hnew.
  destruct (pop_counts _ _ _ _ _ _ _ _ _ Hk Hq) as (H1 & H2 & _ & _).
  assert (Hrel : release_input_capacity (data_len front)
            (upd_lane (set_applied e) (upd_lane (set_head queue) c)) =
          Ret (upd_lane (set_applied e) (upd_lane (pop queue front) c))).
  { unfold release_input_capacity. simpl.
    rewrite (proj2 (checked_sub_Some _ _ _) (conj eq_refl H1)).
    by rewrite (proj2 (checked_sub_Some _ _ _) (conj eq_refl H2)). }
  rewrite Hrel. cbn [obind].
  pose proof (k_budget _ _ _ _ _ _ _ Hk) as (Hb1 & Hb2 & Hb3).
  pose proof (k_budget _ _ _ _ _ _ _ Hnew) as (Hn1 & Hn2 & Hn3).
  assert (Hheld : command_held front ≤ held (lane (state c)) (ledger (state c))).
  { unfold held. rewrite Hq, sumN_cons. lia. }
  split.
  - subst c1. destruct (reply front) as [ch|k ch] eqn:Hr; simpl.
    + unfold upd_ledger, upd_state, set_ledger. by destruct c as [? ? [] ? ? ? ? ? ? ?].
    + destruct (head_entry _ _ _ _ _ _ _ _ _ _ _ Hk Hq Hr) as (r & Hm & _). rewrite Hm. simpl.
      by unfold upd_ledger, upd_state; simpl; rewrite Hm.
  - eapply core_budget; [exact Hnew|..]; simpl in *; lia.
Qed.

Lemma obind_assoc {A B C} (o : outcome A) (f : A → outcome B) (k : B → outcome C) :
  obind (obind o f) k = obind o (λ x, obind (f x) k).
Proof. by destruct o. Qed.

Lemma settle_size r e g :
  base.size (input_operations (settle_entry r e g)) = base.size (input_operations g).
Proof.
  destruct r as [|k ch]; simpl; [done|]. destruct (input_operations g !! k) eqn:Hk; [|done].
  simpl. by rewrite map_size_insert_Some by (by rewrite Hk).
Qed.
Lemma list_plain r g :
  input_operations (list_completed r g) = input_operations g ∧
  retained_input_request_bytes (list_completed r g) = retained_input_request_bytes g.
Proof. by destruct r. Qed.

Lemma complete_front_mid others w ds c front queue e late :
  mid a0 others w ds c [] [] → running c → input_queue (lane (state c)) = front :: queue →
  confirmed front = data_len front → cursor_ok (lane (state c)) (ledger (state c)) front →
  e = applied_input_bytes (lane (state c)) + data_len front → e ≤ u64_max →
  ∃ c', complete_front front queue e late c = Ret c' ∧ inv a0 others w ds c' ∧ later c c'.
Proof.
  intros [(G & Hk & Hw & Hd & [Ha Hr]) Hsh] Hrun Hq Hall Hcur He Hmax.
  destruct (complete_pop_ok _ _ _ _ _ _ Hk Hq (r_healthy _ Hrun) Hall Hcur He Hmax) as [Hpop Hk1].
  pose proof (k_small _ _ _ _ _ _ _ Hk front) as Hsmall.
  unfold complete_front. change (len (command_data front)) with (data_len front).
  cbn zeta. cbn zeta in Hpop, Hk1. change (applied_input_bytes (lane (state (upd_lane (set_head queue) c))))
    with (applied_input_bytes (lane (state c))).
  set (range := {| range_start_byte := _; range_end_byte := e |}) in *.
  set (c1 := upd_ledger _ (upd_lane _ (upd_lane (pop queue front) c))) in *.
  rewrite <- obind_assoc. rewrite Hpop. cbn [obind].
  set (c2 := upd_lane (set_flags _ _) c1).
  assert (Hm2 : mid a0 (others + command_held front) w ds c2 [(reply front, range)] []).
  { destruct Hsh. split.
    - exists (ack (reply front, range) G). split_and!; [|done|done|].
      + unfold cinv in *. simpl. constructor; apply Hk1.
      + split; simpl; [by rewrite Ha, app_nil_r|done].
    - destruct (list_plain (reply front) (settle_entry (reply front)
        (λ r, EntryCompleted r range) (ledger (state c)))) as [H1 H2].
      constructor; try done; simpl; [by rewrite H1, settle_size|].
      rewrite H2. by destruct (settle_plain (reply front) (λ r, EntryCompleted r range)
        (ledger (state c))) as [-> _]. }
  assert (Hl2 : later c c2).
  { constructor; simpl; auto; try lia. exists []. by rewrite app_nil_r. }
  assert (Hq2 : presettled (publish_input c2)).
  { destruct Hrun. apply running_presettled; [by constructor|]. simpl. intros.
    by rewrite bool_decide_eq_true_2. }
  destruct (late_release_mid _ _ _ _ _ _ late (publish_mid _ _ _ _ _ _ Hm2) Hq2)
    as (c3 & -> & Hm3 & Hs3 & Hl3). cbn [obind].
  destruct (send_ok_mid _ _ _ _ _ _ _ _ Hm3 Hs3) as (c4 & -> & Hm4 & Hs4 & Hl4); cbn [obind].
  - subst range. simpl. lia.
  - subst range e. simpl. rewrite Hq in Hsmall. specialize (Hsmall (list_elem_of_here _ _)). lia.
  - eexists. split_and!; [done|split; [by apply drop_mid|by apply drop_settled]|].
    etrans; [exact Hl2|]. etrans; [apply publish_later|]. etrans; [exact Hl3|].
    etrans; [exact Hl4|apply drop_later].
Qed.
(** The expected cursor of the head, and what a match gives. *)
Lemma expected_cursor_ok others G c front queue :
  cinv a0 others G c → input_queue (lane (state c)) = front :: queue →
  ∃ x, expected_cursor (reply front) c = Ret x ∧
    (x = applied_input_bytes (lane (state c)) →
     cursor_ok (lane (state c)) (ledger (state c)) front) ∧
    (confirmed front ≠ 0 → x = applied_input_bytes (lane (state c)) ∧
     applied_input_bytes (lane (state c)) + data_len front ≤ u64_max) ∧
    confirmed front ≤ data_len front.
Proof.
  intros Hk Hq. pose proof (k_front _ _ _ _ _ _ _ Hk _ _ Hq) as Hfront.
  destruct (reply front) as [ch|k ch] eqn:Hr; simpl.
  - eexists. split_and!; [done|..].
    + intros _ k ch' r Hr'. congruence.
    + intros Hne. by apply Hfront in Hne as (? & ? & _).
    + destruct (decide (confirmed front = 0)) as [->|Hne]; [lia|]. by apply Hfront in Hne as (? & _).
  - destruct (head_entry _ _ _ _ _ _ _ _ _ _ _ Hk Hq Hr) as (r & Hm & Hd).
    rewrite Hm. simpl. eexists. split_and!; [done|..].
    + intros Hx k' ch' r' Hr' Hm'. rewrite Hr in Hr'. injection Hr' as <- <-.
      rewrite Hm in Hm'. by injection Hm' as <-.
    + intros Hne. apply Hfront in Hne as (? & ? & Hall). eauto.
    + destruct (decide (confirmed front = 0)) as [->|Hne]; [lia|]. by apply Hfront in Hne as (? & _).
Qed.

Lemma write_at_front_mid others w ds c front queue n :
  mid a0 others w ds c [] [] → running c → input_queue (lane (state c)) = front :: queue →
  confirmed front + n ≤ data_len front → cursor_ok (lane (state c)) (ledger (state c)) front →
  applied_input_bytes (lane (state c)) + data_len front ≤ u64_max →
  let c1 := write_at_front n front queue c in
  mid a0 others (w ++ takeN n (dropN (confirmed front) (command_data front))) ds c1 [] [] ∧
  running c1 ∧ later c c1.
Proof.
  intros [(G & Hk & Hw & Hd & [Ha Hr]) Hsh] Hrun Hq Hle Hcur Hmax c1.
  pose proof (core_write _ _ _ _ _ _ _ _ _ n Hk Hq (r_healthy _ Hrun) Hle Hcur Hmax) as Hk1.
  split_and!.
  - destruct Hsh. split; [|by constructor].
    exists (wrote (takeN n (dropN (confirmed front) (command_data front))) G).
    split_and!; [|simpl; by rewrite Hw|done|done]. unfold cinv. simpl. constructor; apply Hk1.
  - destruct Hrun. by constructor.
  - constructor; simpl; auto; try lia. exists []. by rewrite app_nil_r.
Qed.

Definition write_fits (k : WriteResult) (room : N) (c : Control) : Prop :=
  ∀ n front queue, k = Wrote n → input_queue (lane (state c)) = front :: queue →
    n ≤ N.min (len (command_data front) - confirmed front) room.

Definition turn_ok (others : N) (w : bytes) (ds : gmap N bytes) (c : Control)
    (commands size : N) (o : outcome (Control * bytes * TurnEnd)) : Prop :=
  ∃ c' out e, o = Ret (c', out, e) ∧ inv a0 others (w ++ out) ds c' ∧ later c c' ∧
    ∀ commands' size', e = TurnContinue commands' size' →
      size' = size + len out ∧ commands + size < commands' + size'.

Lemma turn_release_ok others w ds c c1 commands size late :
  mid a0 others w ds c1 [] [] → presettled c1 → later c c1 →
  turn_ok others w ds c commands size
    (let! c := release_guard (lose_owner late c1) in Ret (c, [], TurnReturn)).
Proof.
  intros Hm Hp Hl. destruct (late_release_mid _ _ _ _ _ _ late Hm Hp) as (c2 & -> & ? & ? & ?).
  eexists _, _, _. split_and!; [done|rewrite app_nil_r; by split|by etrans|done].
Qed.

Lemma turn_fail_ok others w ds c front queue kind detail commands size late :
  inv a0 others w ds c → running c → input_queue (lane (state c)) = front :: queue →
  confirmed front ≤ data_len front → cursor_ok (lane (state c)) (ledger (state c)) front →
  turn_ok others w ds c commands size
    (let! c := fail_front front queue kind detail late c in Ret (c, [], TurnReturn)).
Proof.
  intros Hi Hrun Hq Hle Hcur.
  destruct (fail_front_mid _ _ _ _ _ _ kind detail late Hi Hrun Hq Hle Hcur)
    as (c1 & -> & ? & ? & ?).
  eexists _, _, _. split_and!; [done|by rewrite app_nil_r|done|done].
Qed.

Lemma turn_write_ok others w ds c front queue n commands size late :
  inv a0 others w ds c → running c → input_queue (lane (state c)) = front :: queue →
  confirmed front + n ≤ data_len front → 0 < n ∨ command_data front = [] →
  cursor_ok (lane (state c)) (ledger (state c)) front →
  applied_input_bytes (lane (state c)) + data_len front ≤ u64_max →
  turn_ok others w ds c commands size
    (let c := write_at_front n front queue c in
     let emitted := takeN n (dropN (confirmed front) (command_data front)) in
     if decide (confirmed front + n ≠ data_len front) then
       let! c := release_guard (lose_owner late (publish_input c)) in
       Ret (c, emitted, TurnContinue commands (size + n))
     else
       let! c := complete_front front queue
                   (applied_input_bytes (lane (state c)) + data_len front) late c in
       Ret (c, emitted, TurnContinue (commands + 1) (size + n))).
Proof.
  intros [Hm [Hp _]] Hrun Hq Hle Hn Hcur Hmax.
  destruct (write_at_front_mid _ _ _ _ _ _ n Hm Hrun Hq Hle Hcur Hmax) as (Hm1 & Hrun1 & Hl1).
  assert (Hlen : len (takeN n (dropN (confirmed front) (command_data front))) = n).
  { rewrite len_takeN, len_dropN. unfold data_len in *. lia. }
  cbn zeta. set (c1 := write_at_front n front queue c) in *. case_decide as Hrest.
  - assert (Hp1 : presettled (publish_input c1)).
    { apply running_presettled; [done|]. intros _. simpl. apply Hp. by rewrite Hq. }
    destruct (late_release_mid _ _ _ _ _ _ late (publish_mid _ _ _ _ _ _ Hm1) Hp1)
      as (c2 & -> & ? & ? & Hl2).
    eexists _, _, _. split_and!; [done|by split| |].
    + etrans; [exact Hl1|]. by etrans; [apply publish_later|].
    + intros ? ? [= <- <-]. rewrite Hlen. split; [done|]. destruct Hn as [?|Hnil]; [lia|].
      assert (data_len front = 0) by (unfold data_len; by rewrite Hnil). lia.
  -
    change (complete_front front) with (complete_front (advance n front)).
    destruct (complete_front_mid others _ ds c1 (advance n front) queue
      (applied_input_bytes (lane (state c1)) + data_len front) late Hm1 Hrun1)
      as (c2 & -> & ? & Hl2); [done|done| |done|done|].
    { intros k ch r Hr Hin. by apply (Hcur k ch r). }
    eexists _, _, _. split_and!; [done|done|by etrans|].
    intros ? ? [= <- <-]. rewrite Hlen. lia.
Qed.

Lemma turn_running c :
  shape c →
  ¬ (phase (state c) ≠ PhaseOpen ∨ is_Some (input_failure (lane (state c))) ∨
     is_Some (inner_failure c)) → running c.
Proof.
  intros [] Hstop. constructor.
  - destruct (phase (state c)); [done|exfalso; apply Hstop; by left..].
  - destruct (input_failure (lane (state c))); [|done]. exfalso. apply Hstop. right. left. eauto.
  - destruct (owner_failure (state c)) eqn:Ho; [|done].
    exfalso. apply Hstop. right. right. erewrite s_owner0; eauto.
Qed.

Lemma turn_written_ok others w ds c front queue n room commands size late :
  inv a0 others w ds c → running c → input_queue (lane (state c)) = front :: queue →
  confirmed front ≤ data_len front → cursor_ok (lane (state c)) (ledger (state c)) front →
  applied_input_bytes (lane (state c)) + data_len front ≤ u64_max →
  room ≤ data_len front - confirmed front → n ≤ room →
  turn_ok others w ds c commands size
    (if decide (0 < n ∨ command_data front = []) then
       let! _ := check "debug assertion failed" (bool_decide (n ≤ room)) in
       let c := write_at_front n front queue c in
       let emitted := takeN n (dropN (confirmed front) (command_data front)) in
       if decide (confirmed front + n ≠ data_len front) then
         let! c := release_guard (lose_owner late (publish_input c)) in
         Ret (c, emitted, TurnContinue commands (size + n))
       else
         let! c := complete_front front queue
                     (applied_input_bytes (lane (state c)) + data_len front) late c in
         Ret (c, emitted, TurnContinue (commands + 1) (size + n))
     else
       let '(kind, detail) := io_error (Wrote n) in
       let! c := fail_front front queue kind detail late c in Ret (c, [], TurnReturn)).
Proof.
  intros Hinv Hrun Hq Hle Hcur Hmax Hroom Hn. case_decide as Hpos; [|by apply turn_fail_ok].
  rewrite bool_decide_eq_true_2 by done. cbn [obind check]. apply turn_write_ok; try done. lia.
Qed.

(** A turn neither panics nor loses the invariant, whatever the kernel answers. *)
Lemma progress_turn_ok others w ds c k late max_bytes commands size :
  inv a0 others w ds c → write_fits k (max_bytes - size) c →
  turn_ok others w ds c commands size (progress_turn k late max_bytes commands size c).
Proof.
  intros Hinv Hfit. pose proof Hinv as [Hm [Hp Howner]].
  unfold progress_turn. case_decide as Hstop; [by apply turn_release_ok|].
  assert (Hrun : running c) by (apply turn_running; [by apply Hm|done]).
  destruct (input_queue (lane (state c))) as [|front queue] eqn:Hq.
  { apply turn_release_ok.
    - by apply publish_mid, flags_mid.
    - apply publish_empty. by simpl.
    - etrans; [|apply publish_later]. constructor; auto; try lia. exists []. by rewrite app_nil_r. }
  destruct Hm as [(G & Hk & Hw & Hd & Ht) Hsh].
  destruct (expected_cursor_ok _ _ _ _ _ Hk Hq) as (x & -> & Hcur & Hpart & Hle). cbn [obind].
  assert (Hrefuse : confirmed front = 0 → turn_ok others w ds c commands size
    (let! c := refuse_front front queue x late c in Ret (c, [], TurnContinue (commands + 1) size))).
  { intros Hz. destruct (refuse_front_mid _ _ _ _ _ _ x late Hinv Hrun Hq Hz) as (c1 & -> & ? & ?).
    eexists _, _, _. split_and!; [done|by rewrite app_nil_r|done|].
    intros ? ? [= <- <-]. split; [|lia]. by rewrite N.add_0_r. }
  change (len (command_data front)) with (data_len front).
  assert (Hzero : x ≠ applied_input_bytes (lane (state c)) ∨
    ¬ applied_input_bytes (lane (state c)) + data_len front ≤ u64_max → confirmed front = 0).
  { intros Hc. destruct (decide (confirmed front = 0)) as [?|Hne]; [done|].
    apply Hpart in Hne as [? ?]. destruct Hc; done. }
  destruct (decide (x = _)) as [Hx|Hx]; [|apply Hrefuse; auto].
  destruct (checked_add _ _) as [e|] eqn:He; [apply checked_add_Some in He as [-> Hmax]|].
  2: { apply Hrefuse, Hzero. right. intros Hmax. unfold checked_add in He.
       by rewrite decide_True in He. }
  specialize (Hcur Hx). set (room := N.min _ _).
  assert (Hfail : ∀ kind detail, turn_ok others w ds c commands size
    (let! c := fail_front front queue kind detail late c in Ret (c, [], TurnReturn))).
  { intros. by apply turn_fail_ok. }
  assert (Hwritten := λ n Hn, turn_written_ok others w ds c front queue n room commands size late
    Hinv Hrun Hq Hle Hcur Hmax (N.le_min_l _ _) Hn).
  case_decide as Hlen; [apply (Hwritten 0); lia|].
  destruct (writer_open c); [|apply Hfail].
  destruct k as [n| | |d|]; [apply Hwritten; by eapply Hfit| | |apply Hfail..].
  - apply turn_release_ok.
    + apply publish_mid.
      exact (flags_mid _ _ _ _ _ _ (input_scheduled (lane (state c))) true (proj1 Hinv)).
    + apply running_presettled; [by destruct Hrun|]. simpl. rewrite Hq. intros _.
      apply Hp. by rewrite Hq.
    + etrans; [|apply publish_later]. constructor; auto; try lia. exists []. by rewrite app_nil_r.
  - apply turn_release_ok; [by apply publish_mid, Hinv| |apply publish_later].
    apply running_presettled; [done|]. apply Hp.
Qed.
End sections.
