(* ===== verification/NativeControlAdmission.v ===== *)
(** * Native control: admission

    [begin_input_locked] and [begin_recoverable_input_locked] keep the invariant
    of [NativeControlSections]; a refusal leaves no trace but evicted results. *)

From S2P Require Import Prelude.
From S2P Require Import Protocol.
From S2P Require Import Resources.
From S2P Require Import NativeControl.
From S2P Require Import NativeControlSpec.
From S2P Require Import NativeControlSections.
Local Open Scope N_scope.

Section admission.
Context `{!UuidDisplay, !ControlLayout}.
Context (a0 : N).
Implicit Types (others : N) (w : bytes) (ds : gmap N bytes) (c : Control).

(** ** Guards *)

Lemma wp_ensure_open op c (Q : Control → result unit ControlFailure → Prop) :
  (phase (state c) = PhaseOpen → Q c (Ok tt)) →
  (∀ f, phase (state c) ≠ PhaseOpen → disposition f = NotApplied →
     confirmed_input_bytes f = None → Q c (Err f)) →
  wp (ensure_open op) c Q.
Proof.
  intros H1 H2. unfold ensure_open. wp_simp. case_decide as Hp; [by apply H1|].
  wp_simp. destruct (phase (state c)); [done|eexists; split; [done|by apply H2]..].
Qed.
Lemma wp_ensure_owner why c (Q : Control → result unit ControlFailure → Prop) :
  (inner_failure c = None → Q c (Ok tt)) →
  (∀ f, disposition f = NotApplied → confirmed_input_bytes f = None → Q c (Err f)) →
  wp (ensure_owner why) c Q.
Proof.
  intros H1 H2. unfold ensure_owner. wp_simp. case_bool_decide; [by apply H1|by apply H2].
Qed.
Lemma wp_ensure_lane c (Q : Control → result unit ControlFailure → Prop) :
  (input_failure (lane (state c)) = None → Q c (Ok tt)) →
  (∀ f, disposition f = NotApplied → confirmed_input_bytes f = None → Q c (Err f)) →
  wp ensure_lane c Q.
Proof.
  intros H1 H2. unfold ensure_lane. wp_simp.
  destruct (input_failure (lane (state c))); wp_simp; [by apply H2|by apply H1].
Qed.
Lemma wp_dropping {A} m (p : CM A) c (Q : Control → result A ControlFailure → Prop) :
  wp p c (λ c' r, Q (match r with Ok _ => c' | Err _ => drop_memory m c' end) r) →
  wp (dropping m p) c Q.
Proof. unfold wp, dropping. destruct (p c) as [[c' r]|]; done. Qed.

(** The permit in hand is accounted to nobody yet. *)
Lemma wp_fund others w ds c m size f (Q : Control → result N ControlFailure → Prop) :
  mid a0 (others + default 0 m) w ds c [] [] → presettled c →
  (∀ b p, let c' := set_budget b c in
     mid a0 (others + p) w ds c' [] [] → presettled c' → Q c' (Ok p)) →
  (m = None → Q c (Err f)) →
  wp (fund m size f) c Q.
Proof.
  intros [(G & Hk & Hw & Hd & Ht) Hs] Hp HOk HErr. unfold fund. destruct m as [p|]; wp_simp.
  - replace c with (set_budget (control_budget c) c) by (by destruct c).
    apply HOk; [|by destruct Hp]. destruct Hs. split; [by exists G|by constructor].
  - rewrite ByteBudget.reserve_spec. case_decide as Hroom; wp_simp; [|by apply HErr].
    apply HOk; [|by destruct Hp]. destruct Hs. split; [|by constructor].
    exists G. split_and!; try done.
    pose proof (k_budget _ _ _ _ _ _ _ Hk) as (H1 & H2 & H3). simpl in H1.
    eapply core_budget; [exact Hk|..]; simpl; lia.
Qed.

(** ** The new command *)

Definition enqueued (cmd : InputCommand) (request : InputOperationRequest) (c : Control) : Control :=
  upd_lane (λ l, set_flags true (input_blocked l) (push cmd l))
    (upd_ledger (add_entry (reply cmd) request) (set_channel (next_channel c + 1) c)).

Lemma enqueue_mid others w ds c cmd request :
  mid a0 (others + (command_held cmd + entry_charge (reply cmd) request)) w ds c [] [] →
  running c → confirmed cmd = 0 → command_channel cmd = next_channel c → data_len cmd ≤ u32_max →
  (∀ k ch, reply cmd = Recoverable k ch →
     input_operations (ledger (state c)) !! k = None ∧
     request_data request = command_data cmd ∧ command_data cmd ≠ [] ∧
     input_key_validate k = Ok tt ∧ ledger_full (data_len cmd) (state c) = false) →
  mid a0 others w (<[next_channel c := command_data cmd]> ds)
    (publish_input (enqueued cmd request c)) [] [] ∧
  presettled (publish_input (enqueued cmd request c)) ∧
  later c (publish_input (enqueued cmd request c)).
Proof.
  intros [(G & Hk & Hw & Hd & Ht) Hs] Hrun Hz Hch Hlen Hrec. split_and!.
  - apply publish_mid. destruct Hs. split.
    + exists (admitted (next_channel c) (command_data cmd) G). split_and!; [|done|by simpl; rewrite Hd|done].
      pose proof (k_budget _ _ _ _ _ _ _ Hk) as (H1 & H2 & H3).
      assert (Hnew := core_enqueue _ _ others _ _ _ _ (control_budget c) _ cmd request Hk Hz Hch Hlen).
      unfold cinv. simpl. destruct Hnew; [|lia..|by constructor].
      intros k ch Hr. destruct (Hrec k ch Hr) as (? & ? & ? & ? & ?). done.
    + constructor; simpl; try done; destruct (reply cmd) as [ch|k ch] eqn:Hr; simpl; try done;
        destruct (Hrec _ _ eq_refl) as (Hnone & Hdata & _ & _ & Hroom);
        unfold ledger_full in Hroom; apply orb_false_iff in Hroom as [Hr1 Hr2];
        apply bool_decide_eq_false in Hr1, Hr2; unfold data_len in *; rewrite Hdata in *.
      * rewrite map_size_insert_None by done. lia.
      * lia.
  - destruct Hrun. apply running_presettled; [by constructor|done].
  - etrans; [|apply publish_later]. constructor; simpl; auto; try lia. exists []. by rewrite app_nil_r.
Qed.
(** ** Legacy input *)

Definition refusal (f : ControlFailure) : Prop :=
  disposition f = NotApplied ∧ confirmed_input_bytes f = None.

Lemma drop_presettled c m : presettled c → presettled (drop_memory m c).
Proof. destruct m; [|done]. intros []. by constructor. Qed.

Lemma begin_input_locked_ok others w ds c d m :
  mid a0 (others + default 0 m) w ds c [] [] → presettled c → len d ≤ u32_max →
  wp (begin_input_locked d m) c (λ c' r, later c c' ∧ presettled c' ∧
    match r with
    | Ok ch => ch = next_channel c ∧ mid a0 others w (<[ch := d]> ds) c' [] []
    | Err f => refusal f ∧ mid a0 others w ds c' [] []
    end).
Proof.
  intros Hm Hp Hd. unfold begin_input_locked. apply wp_dropping.
  assert (Hno : ∀ f, refusal f → later c (drop_memory m c) ∧ presettled (drop_memory m c) ∧
            refusal f ∧ mid a0 others w ds (drop_memory m c) [] []).
  { intros f Hf. split_and!; [apply drop_later|by apply drop_presettled|done|by apply drop_mid]. }
  rewrite wp_bind. apply wp_ensure_open; [|intros; by apply Hno]. intros Hopen.
  rewrite wp_bind. apply wp_ensure_owner; [|intros; by apply Hno]. intros Hown.
  rewrite wp_bind. apply wp_ensure_lane; [|intros; by apply Hno]. intros Hlane.
  wp_simp. destruct (negb (queue_full (len d) c)) eqn:Hfull; [|by apply Hno].
  rewrite wp_bind. eapply wp_fund; [exact Hm|done| |intros; by apply Hno].
  intros b p c1 Hm1 Hp1. unfold fresh_channel, enqueue. wp_simp.
  assert (Hrun : running c1).
  { apply turn_running; [apply Hm1|]. simpl. rewrite Hopen, Hown, Hlane.
    intros [?|[[]|[]]]; done. }
  destruct (enqueue_mid others w ds c1 {| command_memory := Some p; command_data := d; confirmed := 0;
              reply := Legacy (next_channel c) |} {| request_memory := None; expected_byte := 0;
              request_data := d |}) as (Hm2 & Hp2 & Hl2); [|done..|].
  - simpl. by rewrite N.add_0_r.
  - split_and!; [|exact Hp2|done|exact Hm2].
    etrans; [|exact Hl2]. constructor; auto; try lia. exists []. by rewrite app_nil_r.
Qed.

(** ** Evicting completed results *)

Lemma evict_one_mid others w ds c k ks :
  mid a0 others w ds c [] [] → completed_input_operations (ledger (state c)) = k :: ks →
  ∃ c', (let c := upd_ledger (set_completed ks) c in
         match input_operations (ledger (state c)) !! k with
         | Some (EntryCompleted _ _) => remove_input_operation k c
         | _ => Ret c
         end) = Ret c' ∧
    mid a0 others w ds c' [] [] ∧ frame c c' ∧ lane (state c') = lane (state c) ∧
    completed_input_operations (ledger (state c')) = ks ∧
    input_operations (ledger (state c')) = delete k (input_operations (ledger (state c))).
Proof.
  intros [(G & Hk & Hw & Hd & Ht) Hs] Hks.
  pose proof (core_evict _ _ _ _ _ _ _ _ _ Hk Hks) as Hnew.
  pose proof (k_completed _ _ _ _ _ _ _ Hk) as Hchain. rewrite Hks in Hchain.
  destruct (completed_chain_elem _ _ _ _ k Hchain (list_elem_of_here _ _)) as (r & range & Hm).
  pose proof (k_budget _ _ _ _ _ _ _ Hk) as (H1 & H2 & H3).
  pose proof (msum_lookup_le entry_held _ _ _ Hm) as Hheld.
  pose proof (msum_lookup_le entry_len _ _ _ Hm) as Hlen.
  pose proof (k_retained _ _ _ _ _ _ _ Hk) as Hret.
  cbn zeta. simpl. rewrite Hm. unfold remove_input_operation. simpl. rewrite Hm.
  assert (Hsub : checked_sub (retained_input_request_bytes (ledger (state c))) (len (request_data r)) =
    Some (retained_input_request_bytes (ledger (state c)) - len (request_data r))).
  { apply checked_sub_Some. unfold entry_len, entry_data in *. simpl in *. lia. }
  simpl. rewrite Hsub. simpl. unfold held in *.
  change (entry_held (EntryCompleted r range)) with (default 0 (request_memory r)) in Hheld.
  rewrite drop_memory_eq by (simpl; lia).
  unfold evicted in Hnew. rewrite Hm in Hnew. simpl in Hnew.
  change (entry_held (EntryCompleted r range)) with (default 0 (request_memory r)) in Hnew.
  change (entry_len (EntryCompleted r range)) with (len (request_data r)) in Hnew. eexists. split; [done|].
  assert (Hf : frame c (set_budget (release_memory (default 0 (request_memory r)) (control_budget c))
    (upd_ledger (set_retained (retained_input_request_bytes (ledger (state c)) - len (request_data r)))
      (upd_ledger (set_operations (delete k (input_operations (ledger (state c)))))
        (upd_ledger (set_completed ks) c))))).
  { constructor; simpl; try lia; try done. rewrite map_size_delete, Hm. simpl. lia. }
  split_and!; [|exact Hf|done..]. split; [|by eapply frame_shape].
  exists G. split_and!; [exact Hnew|done..].
Qed.

(** Only completed results leave, oldest first, and only while room is wanted. *)
Lemma evict_ok others w ds size ks : ∀ c,
  mid a0 others w ds c [] [] → completed_input_operations (ledger (state c)) = ks →
  ∃ c', evict_completed ks size c = Ret c' ∧ mid a0 others w ds c' [] [] ∧ frame c c' ∧
    lane (state c') = lane (state c) ∧
    (∀ k, input_operations (ledger (state c)) !! k = None →
       input_operations (ledger (state c')) !! k = None) ∧
    (∀ k e, input_operations (ledger (state c)) !! k = Some e →
       k ∉ ks → input_operations (ledger (state c')) !! k = Some e) ∧
    (ledger_full size (state c') = true → completed_input_operations (ledger (state c')) = []).
Proof.
  induction ks as [|k ks IH]; intros c Hm Hks; cbn [evict_completed].
  - exists c. destruct (ledger_full size (state c)) eqn:Hfull; simpl;
      (split_and!; [done|done|by constructor|done..]).
  - destruct (ledger_full size (state c)) eqn:Hfull; cbn [negb].
    2: { exists c. split_and!; [done|done|by constructor|done|done|done|]. congruence. }
    destruct (evict_one_mid _ _ _ _ _ _ Hm Hks) as (c1 & Hc1 & Hm1 & Hf1 & Hl1 & Hks1 & Hops1).
    cbn zeta in Hc1. rewrite Hc1. cbn [obind].
    destruct (IH c1 Hm1 Hks1) as (c2 & -> & Hm2 & Hf2 & Hl2 & Hn2 & He2 & Hfull2).
    exists c2. split_and!; [done|done|by eapply frame_trans|congruence| | |done].
    + intros k' Hk'. apply Hn2. rewrite Hops1. by apply lookup_delete_None; right.
    + intros k' e He Hnot. apply not_elem_of_cons in Hnot as [Hne Hnot].
      apply He2; [|done]. rewrite Hops1. by rewrite lookup_delete_ne.
Qed.

(** ** Recoverable input *)

Definition record_payload (ch : N) (d : bytes) (c : Control) (ds : gmap N bytes) : gmap N bytes :=
  if decide (ch = next_channel c) then <[ch := d]> ds else ds.

Lemma record_payload_other others w ds c pa pf key r ch d :
  mid a0 others w ds c pa pf →
  input_operations (ledger (state c)) !! key = Some (EntryPending r ch) →
  record_payload ch d c ds = ds.
Proof.
  intros [(G & Hk & _ & <- & _) _] Hr. unfold record_payload. rewrite decide_False; [done|].
  destruct (k_pending _ _ _ _ _ _ _ Hk _ _ _ Hr) as (cmd & Hin & Hreply).
  pose proof (k_payload _ _ _ _ _ _ _ Hk _ Hin) as Hd.
  assert (ch < next_channel c); [|lia]. apply (k_fresh _ _ _ _ _ _ _ Hk).
  replace ch with (command_channel cmd) by (unfold command_channel; by rewrite Hreply). eauto.
Qed.

Lemma begin_recoverable_input_locked_ok others w ds c key request :
  mid a0 (others + default 0 (request_memory request)) w ds c [] [] → presettled c →
  len (request_data request) ≤ u32_max → request_data request ≠ [] →
  input_key_validate key = Ok tt →
  wp (begin_recoverable_input_locked key request) c (λ c' r, later c c' ∧ presettled c' ∧
    match r with
    | Ok (WaitingInput ch) =>
        mid a0 others w (record_payload ch (request_data request) c ds) c' [] []
    | Ok (ReadyInput _) => mid a0 others w ds c' [] []
    | Err f => refusal f ∧ mid a0 others w ds c' [] []
    end).
Proof.
  intros Hm Hp Hlen Hne Hkey. unfold begin_recoverable_input_locked. apply wp_dropping.
  set (m := request_memory request) in *.
  assert (Hno : ∀ c1 f, mid a0 (others + default 0 m) w ds c1 [] [] → presettled c1 → later c c1 →
    refusal f → later c (drop_memory m c1) ∧ presettled (drop_memory m c1) ∧
    refusal f ∧ mid a0 others w ds (drop_memory m c1) [] []).
  { intros c1 f Hm1 Hp1 Hl1 Hf.
    split_and!; [etrans; [exact Hl1|apply drop_later]|by apply drop_presettled|done|by apply drop_mid]. }
  assert (Hself : later c c) by done.
  wp_simp. unfold retained_input_result.
  destruct (input_operations (ledger (state c)) !! key) as [e|] eqn:He.
  { destruct (request_eq (entry_request e) request); cbn [negb]; wp_simp; [|by apply Hno].
    split_and!; [apply drop_later|by apply drop_presettled|].
    apply drop_mid in Hm as Hm'.
    destruct e as [r ch|r range|r f]; [|done..].
    by rewrite (record_payload_other _ _ _ _ _ _ _ _ _ _ Hm He). }
  rewrite wp_bind. apply wp_ensure_open; [|intros; by apply Hno]. intros Hopen.
  rewrite wp_bind. apply wp_ensure_owner; [|intros; by apply Hno]. intros Hown.
  rewrite wp_bind. apply wp_ensure_lane; [|intros; by apply Hno]. intros Hlane.
  rewrite wp_bind. unfold lift_section, evict_completed_input_results.
  destruct (evict_ok _ _ _ (len (request_data request)) _ c Hm eq_refl)
    as (c1 & Hc1 & Hm1 & Hf1 & Hl1 & Hnone & _ & _).
  unfold wp at 1. rewrite Hc1. cbn [obind].
  assert (Hlater1 : later c c1) by (apply frame_later; [done|by rewrite Hl1]).
  assert (Hp1 : presettled c1).
  { destruct Hf1, Hp. constructor; rewrite ?Hl1, ?f_phase, ?f_owner, ?f_bound, ?f_published; try done.
    intros Hb. rewrite s_published by done. unfold input_status.
    by rewrite Hl1, f_phase, f_owner, f_size. }
  wp_simp. destruct (ledger_full _ _) eqn:Hfull; [by apply Hno|].
  destruct (queue_full _ _); [by apply Hno|]. cbn [orb negb]. wp_simp.
  eapply wp_fund; [exact Hm1|done| |intros; by apply Hno].
  intros b p c2 Hm2 Hp2. unfold fresh_channel, enqueue. wp_simp.
  assert (Hrun : running c2).
  { apply turn_running; [apply Hm2|]. simpl.
    rewrite (f_phase _ _ Hf1), (f_inner _ _ Hf1), Hl1, Hopen, Hown, Hlane. intros [?|[[]|[]]]; done. }
  destruct (enqueue_mid others w ds c2 {| command_memory := None; command_data := request_data request;
    confirmed := 0; reply := Recoverable key (next_channel c2) |} {| request_memory := Some p;
    expected_byte := expected_byte request; request_data := request_data request |})
    as (Hm3 & Hp3 & Hl3); [exact Hm2|done..| |].
  { intros k ch [= <- <-]. simpl. auto. }
  assert (Hch : next_channel c2 = next_channel c) by (simpl; apply (f_channel _ _ Hf1)).
  split_and!; [|exact Hp3|].
  - etrans; [exact Hlater1|]. etrans; [|exact Hl3]. constructor; auto; try lia.
    exists []. by rewrite app_nil_r.
  - unfold record_payload. rewrite decide_True by (exact Hch). exact Hm3.
Qed.
End admission.
