(* ===== verification/NativeOwnerTurn.v ===== *)
(** * The owner's turn over one Run

    [crates/ctxmux-daemon/src/native_runtime.rs]: [drive_lifecycle] for one entry,
    the cleanup worker, the worker that cannot be started, and the owner's own
    end; with [ChildReapState] of [native_control.rs], which they write.

    The kernel and the session answer through [TurnAnswers] and through arguments:
    admission permits, deadlines, the leader's peeked state, the interrupt, the
    result of stopping the session. *)

From S2P Require Import Prelude.
From S2P Require Import Protocol.
From S2P Require Import Resources.
From S2P Require Import NativeControl.
Local Open Scope string_scope.
Local Open Scope N_scope.

Inductive CleanupKind :=
  | KindStop (channel : N)
  | KindUnpublished
  | KindNatural (stop : option N).

(** The [pending_stop] of the entry's [Watching] travels with it. *)
Inductive Lifecycle :=
  | Watching (pending_stop : option N)
  | WaitingCleanup (kind : CleanupKind) (pending_stop : option N)
  | Queued (kind : CleanupKind) (pending_stop : option N)
  | Cleaning (kind : CleanupKind) (pending_stop : option N)
  | AuthorityLost
  | Done.

(** The child handle itself is not data. *)
Inductive ChildReapState :=
  | ReapPending (cleanup_error wait_error : option string)
  | OwnerStoppedReap (cleanup_error : option string)
  | WaitAuthorityLost (cleanup_error : option string) (wait_error : string)
  | Reaped.

Record NativeEntry := {
  control : Control;
  reap : ChildReapState;
  lifecycle : Lifecycle;
}.
Definition with_lifecycle (l : Lifecycle) (c : Control) (e : NativeEntry) : NativeEntry :=
  {| control := c; reap := reap e; lifecycle := l |}.
Definition with_reap (r : ChildReapState) (e : NativeEntry) : NativeEntry :=
  {| control := control e; reap := r; lifecycle := lifecycle e |}.

(** ** The reap state *)

Definition mark_reaped (r : ChildReapState) : ChildReapState :=
  match r with ReapPending _ _ => Reaped | _ => r end.
Definition record_cleanup_error (e : string) (r : ChildReapState) : ChildReapState :=
  let keep old := Some (default e old) in
  match r with
  | ReapPending c w => ReapPending (keep c) w
  | WaitAuthorityLost c w => WaitAuthorityLost (keep c) w
  | OwnerStoppedReap c => OwnerStoppedReap (keep c)
  | Reaped => Reaped
  end.
Definition record_wait_error (e : string) (r : ChildReapState) : ChildReapState :=
  match r with ReapPending c w => ReapPending c (Some (default e w)) | _ => r end.
Definition retain_owner_stopped_child (r : ChildReapState) : ChildReapState :=
  match r with ReapPending c _ => OwnerStoppedReap c | _ => r end.
Definition lose_wait_authority (e : string) (r : ChildReapState) : outcome ChildReapState :=
  match r with
  | ReapPending c _ => Ret (WaitAuthorityLost c e)
  | _ => Panic "child wait authority is lost at most once"
  end.

Definition join_errors (es : list string) (none : string) : result unit string :=
  match es with
  | [] => Err none
  | first :: rest => Err (foldl (λ combined e, combined +:+ "; " +:+ e) first rest)
  end.

Section turn.
Context `{!UuidDisplay, !ControlLayout}.

Definition reap_result (id : RunId) (r : ChildReapState) : result unit string :=
  let none := "Run " +:+ show_run_id id +:+ " child waiter has not yet proven reap" in
  match r with
  | Reaped => Ok tt
  | ReapPending c w => join_errors (omap (λ o, o) [c; w]) none
  | OwnerStoppedReap _ => Err ("Run " +:+ show_run_id id +:+
      " retains its unreaped child after Native owner stopped")
  | WaitAuthorityLost c w => join_errors (omap (λ o, o) [c; Some w]) none
  end.

(** ** One entry of [drive_lifecycle] *)

Record TurnAnswers := {
  unpublished_permit : bool;  (** [try_acquire] for an unpublished cleanup *)
  stop_permit : bool;  (** and for the pending Stop *)
  deadline_elapsed : bool;
  interrupt : N → result unit string;
}.

Definition stop_admission_failure (id : RunId) (detail : string) : ControlFailure :=
  not_applied (protocol_error ControlBackpressure
    ("Run " +:+ show_run_id id +:+ " cannot stop: " +:+ detail)).

(** The [for] over the drained commands; [None] when an unpublished cleanup finds
    no permit, which abandons the commands after it. *)
Fixpoint sort_commands (a : TurnAnswers) (cs : list ChildCommand) (pending : option N)
    (cleanup : bool) (c : Control) : Control * option N * option bool :=
  match cs with
  | [] => (c, pending, Some cleanup)
  | ChildSignal _ group ch :: cs =>
      sort_commands a cs pending cleanup (send (SentSignal ch (interrupt a group)) c)
  | ChildStop ch _ :: cs =>
      match pending with
      | None => sort_commands a cs (Some ch) cleanup c
      | Some _ =>
          sort_commands a cs pending cleanup (send (SentStop ch (StopRejected
            (stop_admission_failure (control_run c)
               "multiple Stop commands crossed one native owner fence"))) c)
      end
  | CleanupUnpublished :: cs =>
      if cleanup then sort_commands a cs pending cleanup c
      else if unpublished_permit a then sort_commands a cs pending true c
      else (c, pending, None)
  end.

(** The pending Stop: its deadline, then its commit. *)
Definition expire_stop (a : TurnAnswers) (pending : option N) (c : Control) : Control * option N :=
  match pending with
  | Some ch =>
      if deadline_elapsed a then
        (send (SentStop ch (StopRejected (stop_admission_failure (control_run c)
           "native Stop admission deadline elapsed before an owner turn could commit Stop")))
           (reject_pending_stop c), None)
      else (c, pending)
  | None => (c, None)
  end.

Definition admit_stop (a : TurnAnswers) (pending : option N) (c : Control)
    : outcome (Control * Lifecycle) :=
  match pending with
  | Some ch =>
      if stop_permit a then
        let! '(c, r) := commit_pending_stop c in
        match r with
        | Ok _ => Ret (c, Queued (KindStop ch) None)
        | Err f => Ret (send (SentStop ch (StopRejected f)) c, Watching None)
        end
      else Ret (c, Watching pending)
  | None => Ret (c, Watching None)
  end.

(** Up to the first release of the guard. *)
Definition owner_turn (a : TurnAnswers) (late : option NativeServiceFailure) (pending : option N)
    (c : Control) : outcome (Control * Lifecycle) :=
  let '(c, cs) := drain_child_commands c in
  let '(c, pending, cleanup) := sort_commands a cs pending false c in
  let! '(c, l) :=
    match cleanup with
    | None => Ret (c, WaitingCleanup KindUnpublished pending)
    | Some true => Ret (c, Queued KindUnpublished pending)
    | Some false => let '(c, pending) := expire_stop a pending c in admit_stop a pending c
    end in
  let! c := release_guard (lose_owner late c) in
  Ret (c, l).

(** The commands fenced by an observed exit. *)
Fixpoint fence_commands (cs : list ChildCommand) (stop : option N) (c : Control)
    : Control * option N :=
  match cs with
  | [] => (c, stop)
  | ChildSignal _ _ ch :: cs =>
      fence_commands cs stop
        (send (SentSignal ch (Err "native session leader exited before interrupt")) c)
  | ChildStop ch _ :: cs =>
      fence_commands cs (Some ch)
        match stop with
        | Some previous => send (SentStop previous (StopRejected
            (stop_admission_failure (control_run c)
               "multiple Stop commands crossed one native owner fence"))) c
        | None => c
        end
  | CleanupUnpublished :: cs => fence_commands cs stop c
  end.

Definition mark_wait_authority_lost (message : string) (late : option NativeServiceFailure)
    (e : NativeEntry) : outcome NativeEntry :=
  let! r := lose_wait_authority message (reap e) in
  let! c := mark_failed message late (control e) in
  Ret {| control := c; reap := r; lifecycle := lifecycle e |}.

(** After the probe of the leader: [None] is a busy [try_turn]. *)
Definition owner_probe (leader : result bool string) (permit : option bool)
    (late : option NativeServiceFailure) (pending : option N) (e : NativeEntry)
    : outcome NativeEntry :=
  match leader with
  | Ok false => Ret e
  | Ok true =>
      match permit with
      | None => Ret e
      | Some false =>
          let! c := release_guard (lose_owner late (control e)) in
          Ret (with_lifecycle (lifecycle e) c e)
      | Some true =>
          let! '(c, cs) := fence_child_commands (control e) in
          let '(c, stop) := fence_commands cs pending c in
          let! c := release_guard (lose_owner late c) in
          Ret (with_lifecycle (Queued (KindNatural stop) None) c e)
      end
  | Err message =>
      let! e := mark_wait_authority_lost message late e in
      Ret (with_lifecycle AuthorityLost (control e) e)
  end.

(** ** The cleanup worker *)

Definition kind_stop (k : CleanupKind) : option N :=
  match k with KindStop ch => Some ch | KindUnpublished => None | KindNatural stop => stop end.
Definition answer_stop (k : CleanupKind) (r : StopOwnerResult) (c : Control) : Control :=
  match kind_stop k with Some ch => send (SentStop ch r) c | None => c end.

(** [execute_cleanup] with the lifecycle its outcome is applied as. *)
Definition execute_cleanup (k : CleanupKind) (pending : option N)
    (stopped : result StopDisposition string) (late : option NativeServiceFailure)
    (e : NativeEntry) : outcome NativeEntry :=
  match stopped with
  | Ok d =>
      let! c := mark_closed late (answer_stop k (StopAccepted d) (control e)) in
      Ret {| control := c; reap := mark_reaped (reap e); lifecycle := Done |}
  | Err message =>
      match k with
      | KindNatural _ =>
          let e := with_lifecycle (lifecycle e) (answer_stop k (StopUnknown message) (control e)) e in
          let! e := mark_wait_authority_lost message late e in
          Ret (with_lifecycle AuthorityLost (control e) e)
      | KindStop _ =>
          Ret (with_lifecycle (Watching pending) (answer_stop k (StopUnknown message) (control e)) e)
      | KindUnpublished =>
          Ret (with_lifecycle (Watching pending) (control e)
            (with_reap (record_cleanup_error
               ("failed to stop unpublished Run session: " +:+ message) (reap e)) e))
      end
  end.

Definition fail_cleanup_spawn (k : CleanupKind) (error : string)
    (late : option NativeServiceFailure) (e : NativeEntry) : outcome NativeEntry :=
  let message := "failed to start bounded native cleanup owner: " +:+ error in
  let e := match k with
           | KindUnpublished => with_reap (record_cleanup_error message (reap e)) e
           | _ => with_lifecycle (lifecycle e) (answer_stop k (StopUnknown message) (control e)) e
           end in
  let! e := mark_wait_authority_lost message late e in
  Ret (with_lifecycle AuthorityLost (control e) e).

(** ** The end of the owner *)

Definition complete_stopped_entry (reason : NativeServiceFailure) (busy : bool) (e : NativeEntry)
    : outcome NativeEntry :=
  let '(c, l) := match lifecycle e with
    | Watching (Some ch) =>
        (send (SentStop ch (StopRejected (not_applied (protocol_error BackendUnavailable
           ("Run " +:+ show_run_id (control_run (control e)) +:+
            " Native owner stopped before Stop admission"))))) (control e), Watching None)
    | l => (control e, l)
    end in
  let! c := fence_owner_loss reason busy c in
  Ret (with_lifecycle l c e).

(** [preserve_shutdown_authority]: a running worker keeps its own child. *)
Definition preserve_shutdown_authority (e : NativeEntry) : NativeEntry :=
  match lifecycle e with
  | Watching _ | WaitingCleanup _ _ | Queued _ _ =>
      {| control := control e; reap := retain_owner_stopped_child (reap e); lifecycle := Done |}
  | Cleaning _ _ => e
  | AuthorityLost | Done =>
      {| control := control e; reap := reap e; lifecycle := Done |}
  end.

(** ** The entry as a state machine

    [owner_running]: [owner_main] is still in its loop. *)
Inductive EntryOp :=
  | OpTurn (a : TurnAnswers)
  | OpProbe (leader : result bool string) (permit : option bool)
  | OpAcquire
  | OpStart
  | OpSpawnFailed (error : string)
  | OpFinish (stopped : result StopDisposition string)
  | OpComplete (reason : NativeServiceFailure) (busy : bool)
  | OpPreserve.

Definition entry_step (o : EntryOp) (late : option NativeServiceFailure) (e : NativeEntry)
    : outcome NativeEntry :=
  match o, lifecycle e with
  | OpTurn a, Watching pending =>
      let! '(c, l) := owner_turn a late pending (control e) in Ret (with_lifecycle l c e)
  | OpProbe leader permit, Watching pending => owner_probe leader permit late pending e
  | OpAcquire, WaitingCleanup k pending => Ret (with_lifecycle (Queued k pending) (control e) e)
  | OpStart, Queued k pending => Ret (with_lifecycle (Cleaning k pending) (control e) e)
  | OpSpawnFailed error, Queued k _ => fail_cleanup_spawn k error late e
  | OpFinish stopped, Cleaning k pending => execute_cleanup k pending stopped late e
  | OpComplete reason busy, _ => complete_stopped_entry reason busy e
  | OpPreserve, _ => Ret (preserve_shutdown_authority e)
  | _, _ => Ret e
  end.
End turn.
