(* ===== verification/NativeControlSteps.v ===== *)
(** * Native control: the remaining sections

    Signal, Stop, resize, the fences of exit, failure and unpublished cleanup, the
    owner's turn and its end: each keeps the invariant of [NativeControlSections]. *)

From S2P Require Import Prelude.
From S2P Require Import Protocol.
From S2P Require Import Resources.
From S2P Require Import NativeControl.
From S2P Require Import NativeControlSpec.
From S2P Require Import NativeControlSections.
From S2P Require Import NativeControlAdmission.
From S2P Require Import NativeOwnerTurn.
Local Open Scope N_scope.

(** What the owner's own turn keeps: it alone withdraws a pending Stop. *)
Record onward (c c' : Control) : Prop := {
  o_run : control_run c' = control_run c;
  o_closed : phase (state c) ≠ PhaseOpen → phase (state c') ≠ PhaseOpen;
  o_owner : ∀ r, owner_failure (state c) = Some r → owner_failure (state c') = Some r;
  o_failed : is_Some (input_failure (lane (state c))) → is_Some (input_failure (lane (state c')));
  o_applied : applied_input_bytes (lane (state c)) ≤ applied_input_bytes (lane (state c'));
  o_inner : ∀ r, inner_failure c = Some r → inner_failure c' = Some r;
  o_sent : ∃ ss, sent c' = (sent c ++ ss)%list;
}.
#[global] Instance onward_preorder : PreOrder onward.
Proof.
  split.
  - intros c. constructor; auto; try lia. exists []. by rewrite app_nil_r.
  - intros c1 c2 c3 [] []. constructor; eauto; try congruence; try lia.
    destruct o_sent0 as [s1 H1], o_sent1 as [s2 H2]. exists (s1 ++ s2)%list.
    by rewrite app_assoc, <- H1.
Qed.
Lemma later_onward c c' : later c c' → onward c c'.
Proof. by intros []. Qed.
#[export] Hint Resolve later_onward : core.

Section steps.
Context `{!UuidDisplay, !ControlLayout}.
Context (a0 : N).
Implicit Types (others : N) (w : bytes) (ds : gmap N bytes) (c : Control).

(** A change of the child lane, the phase or the channel counter only. *)
Lemma same_mid others w ds c c' pa pf :
  mid a0 others w ds c pa pf →
  lane (state c') = lane (state c) → ledger (state c') = ledger (state c) →
  control_budget c' = control_budget c → next_channel c ≤ next_channel c' →
  sent c' = sent c → shape c' → mid a0 others w ds c' pa pf.
Proof.
  intros [(G & Hk & Hw & Hd & Ht) _] H1 H2 H3 H4 H5 Hs. split; [|done].
  exists G. split_and!; [|done|done|unfold told; by rewrite H5].
  unfold cinv in *. rewrite H1, H2, H3.
  constructor; try apply Hk. intros ch Hch%(k_fresh _ _ _ _ _ _ _ Hk). lia.
Qed.

Definition section_ok {A} (others : N) (w : bytes) (ds : gmap N bytes) (c c' : Control)
    (r : result A ControlFailure) : Prop :=
  later c c' ∧ presettled c' ∧ mid a0 others w ds c' [] [].

Lemma channel_ok others w ds c n :
  mid a0 others w ds c [] [] → presettled c → next_channel c ≤ n →
  mid a0 others w ds (set_channel n c) [] [] ∧ presettled (set_channel n c) ∧
  later c (set_channel n c).
Proof.
  intros Hm [] Hn. split_and!; [|by constructor|].
  - eapply same_mid; [exact Hm|done..|]. by destruct Hm as [_ []].
  - constructor; auto; try lia. exists []. by rewrite app_nil_r.
Qed.

Lemma child_ok others w ds c f :
  mid a0 others w ds c [] [] → presettled c →
  (phase (state c) = PhaseOpen → child_open (f (child (state c))) = true) →
  mid a0 others w ds (upd_child f c) [] [] ∧ presettled (upd_child f c).
Proof.
  intros Hm [] Hf. split; [|by constructor].
  eapply same_mid; [exact Hm|done..|]. by destruct Hm as [_ []].
Qed.

Lemma begin_signal_locked_ok others w ds c s fg :
  mid a0 others w ds c [] [] → presettled c →
  wp (begin_signal_locked s fg) c (section_ok others w ds c).
Proof.
  intros Hm Hp. unfold begin_signal_locked, fresh_channel. wp_simp.
  destruct (channel_ok others w ds c (next_channel c + 1) Hm Hp) as (Hm1 & Hp1 & Hl1); [lia|].
  set (c1 := set_channel _ c) in *.
  assert (Hno : ∀ f, section_ok (A:=N) others w ds c c1 (Err f)) by done.
  apply wp_ensure_owner; [|intros; apply Hno]. intros Hown.
  rewrite wp_bind. apply wp_ensure_open; [|intros; apply Hno]. intros Hopen. wp_simp.
  destruct (child_open _) eqn:Hc; [|apply Hno].
  destruct fg as [g|]; wp_simp; [|apply Hno]. unfold push_child. wp_simp.
  destruct (child_ok others w ds c1 (λ d, set_child_commands
    (child_commands d ++ [ChildSignal s g (next_channel c)]) d) Hm1 Hp1) as [Hm2 Hp2]; [done|].
  split_and!; [|done|done]. etrans; [exact Hl1|].
  constructor; auto; try lia; [exists []; by rewrite app_nil_r|].
  intros p Hs Ho Hi Hst. apply Hs; [done|done|]. destruct Hst as [?|(ch & t & Hin)]; [by left|right].
  apply elem_of_app in Hin as [Hin|Hin%list_elem_of_singleton]; [by exists ch, t|done].
Qed.

Lemma begin_stop_locked_ok others w ds c :
  mid a0 others w ds c [] [] → presettled c →
  wp begin_stop_locked c (section_ok others w ds c).
Proof.
  intros Hm Hp. unfold begin_stop_locked, fresh_channel. wp_simp.
  destruct (channel_ok others w ds c (next_channel c + 1) Hm Hp) as (Hm1 & Hp1 & Hl1); [lia|].
  set (c1 := set_channel _ c) in *.
  assert (Hno : ∀ f, section_ok (A:=N) others w ds c c1 (Err f)) by done.
  apply wp_ensure_owner; [|intros; apply Hno]. intros Hown.
  rewrite wp_bind. apply wp_ensure_open; [|intros; apply Hno]. intros Hopen. wp_simp.
  destruct Hm1 as [Hk1 Hsh1]. rewrite (s_child _ Hsh1 Hopen). cbn [negb]. wp_simp.
  destruct (negb (stop_pending _)) eqn:Hst; [|apply Hno]. unfold push_child. wp_simp.
  set (c2 := upd_child _ (upd_child _ c1)).
  assert (Hm2 : mid a0 others w ds c2 [] []).
  { apply (same_mid others w ds c1); [by split|done..|]. by destruct Hsh1. }
  split_and!; [|by destruct Hp1; constructor|done]. etrans; [exact Hl1|].
  constructor; auto; try lia; [exists []; by rewrite app_nil_r|]. by intros p _ _ _ _.
Qed.

Lemma resize_locked_ok others w ds c pty :
  mid a0 others w ds c [] [] → presettled c →
  wp (resize_locked pty) c (section_ok others w ds c).
Proof.
  intros Hm Hp. unfold resize_locked.
  assert (Hno : ∀ f, section_ok (A:=TerminalSize) others w ds c c (Err f)) by done.
  rewrite wp_bind. apply wp_ensure_owner; [|intros; apply Hno]. intros Hown.
  rewrite wp_bind. apply wp_ensure_open; [|intros; apply Hno]. intros Hopen. wp_simp.
  destruct (pty_held pty); wp_simp; [|apply Hno].
  destruct (pty_resized pty); cbn [map_err]; wp_simp; [|apply Hno].
  destruct (pty_read_back pty) as [applied|]; cbn [map_err]; wp_simp; [|apply Hno].
  destruct (confirm_size (Some applied)) as [z|]; wp_simp; [|apply Hno].
  set (c1 := upd_state _ c).
  assert (Hm1 : mid a0 others w ds c1 [] []).
  { apply (same_mid others w ds c); [done..|]. by destruct Hm as [_ []]. }
  split_and!; [|by apply publish_presettled; apply Hp|by apply publish_mid].
  etrans; [|apply publish_later]. constructor; auto; try lia. exists []. by rewrite app_nil_r.
Qed.

(** ** Releasing the guard after a section *)

Lemma with_guard_ok {A} others w c late (m : CM A) (P : Control → result A ControlFailure → Prop) :
  wp m c P → (∀ c' r, P c' r → later c c' ∧ presettled c') →
  (∀ c' r, P c' r → ∃ ds', mid a0 others w ds' c' [] []) →
  wp (with_guard late m) c (λ c' r, later c c' ∧ ∃ c1, P c1 r ∧
    ∀ ds', mid a0 others w ds' c1 [] [] → inv a0 others w ds' c').
Proof.
  intros (c1 & r & Hc1 & HP)%wp_elim H1 H2. unfold with_guard, wp. rewrite Hc1. cbn [obind].
  destruct (H1 _ _ HP) as [Hl Hp], (H2 _ _ HP) as [ds1 Hm].
  destruct (late_release_mid _ _ _ _ _ _ _ late Hm Hp) as (c2 & Hc2 & Hm2 & Hs2 & Hl2).
  rewrite Hc2. cbn [obind]. split; [by etrans|]. exists c1. split; [done|].
  intros ds' Hm'. destruct (late_release_mid _ _ _ _ _ _ _ late Hm' Hp) as (c3 & Hc3 & ? & ? & _).
  rewrite Hc2 in Hc3. injection Hc3 as <-. by split.
Qed.

Lemma guarded_section_ok {A} others w ds c late (m : CM A) :
  wp m c (section_ok others w ds c) →
  wp (with_guard late m) c (λ c' r, later c c' ∧ inv a0 others w ds c').
Proof.
  intros Hwp. eapply wp_mono; [eapply with_guard_ok; [exact Hwp|..]|].
  - by intros ? ? (? & ? & ?).
  - intros ? ? (? & ? & ?). eauto.
  - intros c' r (Hl & c1 & (_ & _ & Hm) & Hi). auto.
Qed.

(** ** Fences *)

Definition done_ok (others : N) (w : bytes) (ds : gmap N bytes) (c : Control) (o : outcome Control)
    : Prop :=
  ∃ c', o = Ret c' ∧ inv a0 others w ds c' ∧ later c c'.

Lemma not_open_panics p id op : p ≠ PhaseOpen → ∃ e, invalid_phase_error id p op = Ret e.
Proof. destruct p; [done|by eexists..]. Qed.

(** The phase is closed before queued input is rejected, and child commands leave. *)
Lemma close_ok others w ds c p e late reason kind :
  inv a0 others w ds c → p ≠ PhaseOpen →
  done_ok others w ds c
    (let c := upd_child (open_child false) (upd_state (set_phase p) c) in
     let! '(c, rejected) := reject_queued_inputs e c in
     let '(c, commands) := drain_child_commands (publish_input c) in
     let! c := release_guard (lose_owner late c) in
     let! c := send_rejections rejected c in
     Ret (reject_child_commands commands reason kind c)).
Proof.
  intros [Hm [Hp _]] Hne. cbn zeta. set (c1 := upd_child _ (upd_state _ c)).
  assert (Hm1 : mid a0 others w ds c1 [] []).
  { apply (same_mid others w ds c); [done..|]. destruct Hm as [_ []]. by constructor. }
  assert (Hl1 : later c c1).
  { constructor; auto; try lia; [exists []; by rewrite app_nil_r|]. intros q _ Ho. done. }
  destruct (reject_queued_mid a0 _ _ _ _ _ _ e Hm1) as (c2 & rej & -> & Hm2 & Hl2 & Hf2 & Hq2).
  cbn [obind app] in *. apply publish_mid in Hm2. pose proof (publish_empty c2 Hq2) as Hp2.
  pose proof (publish_later c2) as Hl3. set (c3 := publish_input c2) in *.
  unfold drain_child_commands. set (c4 := upd_child (set_child_commands []) c3).
  assert (Hm4 : mid a0 others w ds c4 [] rej).
  { apply (same_mid others w ds c3); [done..|]. by destruct Hm2 as [_ []]. }
  destruct (late_release_mid a0 _ _ _ _ _ _ late Hm4) as (c5 & -> & Hm5 & Hs5 & Hl5);
    [by destruct Hp2; constructor|]. cbn [obind]. rewrite <- (app_nil_r rej) in Hm5.
  destruct (send_all_mid a0 _ _ _ _ _ _ _ Hm5 Hs5) as (c6 & -> & Hm6 & Hs6 & Hl6). cbn [obind].
  destruct (reject_child_mid a0 _ _ _ _ _ _ (child_commands (child (state c3))) reason kind Hm6)
    as (Hm7 & Hl7 & Hs7).
  eexists. split_and!; [done|split; auto|]. do 3 (etrans; [eassumption|]).
  etrans; [|etrans; [exact Hl5|by etrans]].
  constructor; auto; try lia; [exists []; by rewrite app_nil_r|apply clear_commands_owed].
Qed.

Lemma mark_closed_ok others w ds c late :
  inv a0 others w ds c → done_ok others w ds c (mark_closed late c).
Proof.
  intros Hi. assert (Hne : closed_phase (phase (state c)) ≠ PhaseOpen) by (by destruct (phase _)).
  destruct (not_open_panics _ (control_run c) "write to" Hne) as [e He].
  pose proof (close_ok others w ds c _ e late "native child owner is closed" InvalidRunState Hi Hne)
    as Hok. unfold mark_closed. cbn [obind state upd_child upd_state set_state phase set_child set_phase].
  simpl control_run. rewrite He. exact Hok.
Qed.

Lemma mark_failed_ok others w ds c message late :
  inv a0 others w ds c → done_ok others w ds c (mark_failed message late c).
Proof. intros Hi. by apply close_ok. Qed.

Lemma late_inv others w ds c late :
  mid a0 others w ds c [] [] → presettled c →
  done_ok others w ds c (release_guard (lose_owner late c)).
Proof.
  intros Hm Hp. destruct (late_release_mid a0 _ _ _ _ _ _ late Hm Hp) as (c' & -> & ? & ? & ?).
  exists c'. split_and!; [done|by split|done].
Qed.

Lemma phase_mid others w ds c p pa pf :
  mid a0 others w ds c pa pf → p ≠ PhaseOpen → mid a0 others w ds (upd_state (set_phase p) c) pa pf.
Proof. intros Hm Hne. apply (same_mid others w ds c); [done..|]. by destruct Hm as [_ []]. Qed.
Lemma phase_later c p : p ≠ PhaseOpen → later c (upd_state (set_phase p) c).
Proof.
  intros Hne. constructor; auto; try lia; [exists []; by rewrite app_nil_r|].
  intros q _ Ho. done.
Qed.

Lemma cleanup_unpublished_ok others w ds c late :
  inv a0 others w ds c →
  ∃ c' r e, cleanup_unpublished late c = Ret (c', r, e) ∧ inv a0 others w ds c' ∧ later c c'.
Proof.
  intros [Hm [Hp _]]. unfold cleanup_unpublished.
  assert (Hrel : ∀ r : option (result unit string), ∃ c' r' (e : option string),
    (let! c := release_guard (lose_owner late c) in Ret (c, r, @None string)) = Ret (c', r', e) ∧
    inv a0 others w ds c' ∧ later c c').
  { intros r. destruct (late_inv _ _ _ _ late Hm Hp) as (c' & -> & ? & ?). by exists c', r, None. }
  case_decide; [apply Hrel|]. destruct (phase (state c)) eqn:Hph; [|apply Hrel..].
  set (c1 := upd_state (set_phase PhaseStopping) c).
  assert (Hm1 : mid a0 others w ds c1 [] []) by by apply phase_mid.
  assert (Hl1 : later c c1) by by apply phase_later.
  change (child_open (child (state c1))) with (child_open (child (state c))).
  rewrite (s_child _ (m_shape _ _ _ _ _ _ _ Hm) Hph). cbn [negb].
  destruct (reject_queued_mid a0 _ _ _ _ _ _ (stopping_error c1) Hm1)
    as (c2 & rej & -> & Hm2 & Hl2 & Hf2 & Hq2). cbn [obind app] in *.
  set (c3 := upd_child _ c2).
  assert (Hm3 : mid a0 others w ds c3 [] rej).
  { apply (same_mid others w ds c2); [done..|]. by destruct Hm2 as [_ []]. }
  assert (Hl3 : later c2 c3).
  { constructor; auto; try lia; [exists []; by rewrite app_nil_r|].
    intros q _ Ho. simpl in Ho. by rewrite (f_phase _ _ Hf2) in Ho. }
  destruct (late_release_mid a0 _ _ _ _ _ _ late (publish_mid a0 _ _ _ _ _ _ Hm3)
    (publish_empty c3 Hq2)) as (c4 & -> & Hm4 & Hs4 & Hl4). cbn [obind].
  rewrite <- (app_nil_r rej) in Hm4.
  destruct (send_all_mid a0 _ _ _ _ _ _ _ Hm4 Hs4) as (c5 & -> & Hm5 & Hs5 & Hl5). cbn [obind].
  eexists _, _, _. split_and!; [done|by split|]. do 3 (etrans; [eassumption|]).
  etrans; [apply publish_later|]. by etrans.
Qed.

Lemma bind_service_ok others w ds c late :
  inv a0 others w ds c → service_bound c = false →
  done_ok others w ds c (bind_service late c).
Proof.
  intros [Hm [Hp _]] Hb. unfold bind_service. rewrite Hb. cbn [negb check obind].
  set (c1 := {| control_run := control_run c |}).
  assert (Hm1 : mid a0 others w ds c1 [] []).
  { apply (same_mid others w ds c); [done..|]. by destruct Hm as [_ []]. }
  destruct (late_inv _ _ _ _ late (publish_mid a0 _ _ _ _ _ _ Hm1)) as (c2 & -> & ? & Hl).
  { apply publish_presettled; apply Hp. }
  exists c2. split_and!; [done|done|]. etrans; [|exact Hl]. etrans; [|apply publish_later].
  constructor; auto; try lia. exists []. by rewrite app_nil_r.
Qed.

Lemma detach_ok others w ds c :
  inv a0 others w ds c → inv a0 others w ds (detach_writer c) ∧ later c (detach_writer c).
Proof.
  intros [Hm [[] Ho]]. split_and!; [split; [|by split; [constructor|]]|].
  - apply (same_mid others w ds c); [done..|]. by destruct Hm as [_ []].
  - constructor; auto; try lia. exists []. by rewrite app_nil_r.
Qed.

Lemma lose_owner_settled_busy others w ds c reason busy :
  inv a0 others w ds c → busy = false ∨ is_Some (inner_failure c) →
  done_ok others w ds c (fence_owner_loss reason busy c).
Proof.
  intros [Hm [Hp Ho]] Hbusy. unfold fence_owner_loss. destruct busy; [|by apply late_inv].
  destruct Hbusy as [?|[r Hr]]; [done|]. exists c. unfold lose_owner. rewrite Hr.
  split_and!; [done|by split|done].
Qed.

(** ** The owner's turn *)

(** Replies about signals and Stops. *)
Definition quiet (ss : list Sent) : Prop := acks ss = [] ∧ fails ss = [].
Definition quiet_send (c c' : Control) : Prop := ∃ ss, c' = set_sent (sent c ++ ss) c ∧ quiet ss.

Lemma quiet_refl c : quiet_send c c.
Proof. exists []. rewrite app_nil_r. split; [by destruct c|done]. Qed.
Lemma quiet_step c c' e : quiet [e] → quiet_send (send e c) c' → quiet_send c c'.
Proof.
  intros [H1 H2] (ss & -> & H3 & H4). exists (e :: ss). split.
  - unfold send. simpl. by rewrite <- app_assoc.
  - unfold quiet in *. change (e :: ss) with ([e] ++ ss). by rewrite acks_app, fails_app, H1, H2.
Qed.
Lemma quiet_mid others w ds c c' pa pf :
  quiet_send c c' → mid a0 others w ds c pa pf → mid a0 others w ds c' pa pf.
Proof.
  intros (ss & -> & Ha & Hf). apply sent_mid.
  - by rewrite acks_app, Ha, app_nil_r.
  - by rewrite fails_app, Hf, app_nil_r.
Qed.
Lemma quiet_presettled c c' : quiet_send c c' → presettled c → presettled c'.
Proof. intros (ss & -> & _) []. by constructor. Qed.
Lemma quiet_later c c' : quiet_send c c' → later c c'.
Proof. intros (ss & -> & _). apply sent_later. Qed.
Lemma quiet_state c c' : quiet_send c c' → state c' = state c ∧ inner_failure c' = inner_failure c.
Proof. by intros (ss & -> & _). Qed.
Lemma quiet_inv others w ds c c' : quiet_send c c' → inv a0 others w ds c → inv a0 others w ds c'.
Proof.
  intros Hq [Hm [Hp Ho]]. pose proof (quiet_state _ _ Hq) as [Hs Hi].
  split; [by eapply quiet_mid|]. split; [by eapply quiet_presettled|]. by rewrite Hs, Hi.
Qed.

Lemma sort_commands_ok a cs : ∀ pending cleanup c,
  ∃ c' p b, sort_commands a cs pending cleanup c = (c', p, b) ∧ quiet_send c c' ∧
    (is_Some p → is_Some pending ∨ has_stop cs).
Proof.
  induction cs as [|cmd cs IH]; intros pending cleanup c; cbn [sort_commands].
  { eexists _, _, _. split_and!; [done|apply quiet_refl|by left]. }
  assert (Hcons : has_stop cs → has_stop (cmd :: cs)).
  { intros (ch & t & Hin). exists ch, t. by apply elem_of_cons; right. }
  destruct cmd as [s g ch|ch t|].
  - destruct (IH pending cleanup (send (SentSignal ch (interrupt a g)) c)) as (c' & p & b & -> & Hq & Hp).
    eexists _, _, _. split_and!; [done|by eapply quiet_step; [|exact Hq]|naive_solver].
  - destruct pending as [previous|].
    + destruct (IH (Some previous) cleanup (send (SentStop ch (StopRejected
        (stop_admission_failure (control_run c)
           "multiple Stop commands crossed one native owner fence"))) c)) as (c' & p & b & -> & Hq & Hp).
      eexists _, _, _. split_and!; [done|by eapply quiet_step; [|exact Hq]|eauto].
    + destruct (IH (Some ch) cleanup c) as (c' & p & b & -> & Hq & Hp).
      eexists _, _, _. split_and!; [done|done|]. intros _. right. exists ch, t. by left.
  - destruct cleanup; [|destruct (unpublished_permit a)].
    + destruct (IH pending true c) as (c' & p & b & -> & Hq & Hp).
      eexists _, _, _. split_and!; [done|done|naive_solver].
    + destruct (IH pending true c) as (c' & p & b & -> & Hq & Hp).
      eexists _, _, _. split_and!; [done|done|naive_solver].
    + eexists _, _, _. split_and!; [done|apply quiet_refl|by left].
Qed.

Definition pending_of (l : Lifecycle) : option N :=
  match l with
  | Watching p | WaitingCleanup _ p | Queued _ p | Cleaning _ p => p
  | AuthorityLost | Done => None
  end.
Definition owed (l : Lifecycle) (c : Control) : Prop :=
  stop_owed (bool_decide (is_Some (pending_of l))) c.

Lemma closed_owed p c : phase (state c) ≠ PhaseOpen → stop_owed p c.
Proof. by intros H1 H2. Qed.
Lemma none_owed c : child_commands (child (state c)) = [] → stop_owed false c.
Proof. intros H1 _ _ [?|(? & ? & Hin)]; [done|]. rewrite H1 in Hin. by apply elem_of_nil in Hin. Qed.
Lemma later_owed l c c' : later c c' → owed l c → owed l c'.
Proof. intros Hl. apply (t_stop _ _ Hl). Qed.

Lemma reject_stop_ok others w ds c :
  mid a0 others w ds c [] [] → presettled c →
  mid a0 others w ds (reject_pending_stop c) [] [] ∧ presettled (reject_pending_stop c) ∧
  onward c (reject_pending_stop c).
Proof.
  intros Hm Hp. destruct (child_ok others w ds c (set_stop_pending false) Hm Hp) as [? ?].
  { apply (s_child _ (m_shape _ _ _ _ _ _ _ Hm)). }
  split_and!; [done|done|]. constructor; auto; try lia. exists []. by rewrite app_nil_r.
Qed.

(** A drained Stop finds its mark, so the commit never reaches the phase error of
    an open lane. *)
Lemma commit_stop_ok others w ds c :
  mid a0 others w ds c [] [] → presettled c → inner_failure c = None → stop_owed true c →
  ∃ c' r, commit_pending_stop c = Ret (c', r) ∧ mid a0 others w ds c' [] [] ∧ presettled c' ∧
    onward c c' ∧ phase (state c') ≠ PhaseOpen ∧
    (r = Ok tt → phase (state c) = PhaseOpen ∧ phase (state c') = PhaseStopping).
Proof.
  intros Hm Hp Hin Howed. unfold commit_pending_stop.
  destruct (reject_stop_ok others w ds c Hm Hp) as (Hm1 & Hp1 & Ho1).
  case_decide as Hno.
  - assert (Hne : phase (state c) ≠ PhaseOpen).
    { intros Hopen. pose proof (s_child _ (m_shape _ _ _ _ _ _ _ Hm) Hopen) as Hc.
      pose proof (Howed Hopen Hin (or_introl eq_refl)) as Hs. rewrite Hc, Hs in Hno. naive_solver. }
    destruct (not_open_panics _ (control_run c) "stop" Hne) as [e ->]. cbn [obind].
    eexists _, _. split_and!; [done|exact Hm1|exact Hp1|exact Ho1|done|done].
  - assert (Hopen : phase (state c) = PhaseOpen) by (destruct (phase (state c)); naive_solver).
    set (c1 := upd_state (set_phase PhaseStopping) _).
    assert (Hm2 : mid a0 others w ds c1 [] []) by by apply phase_mid.
    assert (Hl2 : onward c c1).
    { etrans; [exact Ho1|]. by apply later_onward, phase_later. }
    destruct (reject_queued_mid a0 _ _ _ _ _ _ (stopping_error c1) Hm2)
      as (c2 & rej & -> & Hm3 & Hl3 & Hf3 & Hq3). cbn [obind app] in *.
    rewrite send_rejections_ok. cbn [obind].
    apply (publish_mid a0) in Hm3. rewrite <- (app_nil_r rej) in Hm3.
    apply send_rejections_mid in Hm3.
    assert (Hph : phase (state c2) = PhaseStopping) by (by rewrite (f_phase _ _ Hf3)).
    eexists _, _. split_and!; [done|exact Hm3| | | |].
    + pose proof (publish_empty c2 Hq3) as []. by constructor.
    + etrans; [exact Hl2|]. etrans; [exact (later_onward _ _ Hl3)|].
      etrans; [apply later_onward, publish_later|apply later_onward, sent_later].
    + simpl. rewrite publish_state. congruence.
    + intros _. split; [done|]. simpl. by rewrite publish_state.
Qed.

Definition turn_end (others : N) (w : bytes) (ds : gmap N bytes) (c : Control)
    (o : outcome (Control * Lifecycle)) : Prop :=
  ∃ c' l, o = Ret (c', l) ∧ mid a0 others w ds c' [] [] ∧ presettled c' ∧ onward c c' ∧ owed l c'.

Lemma admit_stop_ok others w ds c a pending :
  mid a0 others w ds c [] [] → presettled c → inner_failure c = None → owed (Watching pending) c →
  turn_end others w ds c (admit_stop a pending c).
Proof.
  intros Hm Hp Hin Hs. destruct pending as [ch|]; simpl; [|by eexists _, _].
  destruct (stop_permit a); [|by eexists _, _].
  destruct (commit_stop_ok _ _ _ _ Hm Hp Hin Hs) as (c1 & r & Hc1 & Hm1 & Hp1 & Ho1 & Hne & _).
  rewrite Hc1. cbn [obind]. destruct r as [u|f].
  - eexists _, _. split_and!; [done..|by apply closed_owed].
  - set (c2 := send _ c1).
    assert (Hq : quiet_send c1 c2) by (by eexists).
    eexists _, _. split_and!; [done|by eapply quiet_mid|by eapply quiet_presettled| |].
    + etrans; [exact Ho1|]. by apply later_onward, quiet_later.
    + apply closed_owed. by rewrite (proj1 (quiet_state _ _ Hq)).
Qed.

Lemma expire_stop_ok others w ds c a pending :
  mid a0 others w ds c [] [] → presettled c → owed (Watching pending) c →
  child_commands (child (state c)) = [] →
  let '(c', p) := expire_stop a pending c in
  mid a0 others w ds c' [] [] ∧ presettled c' ∧ onward c c' ∧ owed (Watching p) c' ∧
  inner_failure c' = inner_failure c.
Proof.
  intros Hm Hp Hs Hcs. destruct pending as [ch|]; simpl; [|by split_and!].
  destruct (deadline_elapsed a); [|by split_and!].
  destruct (reject_stop_ok _ _ _ _ Hm Hp) as (Hm1 & Hp1 & Ho1).
  set (c2 := send _ (reject_pending_stop c)).
  assert (Hq : quiet_send (reject_pending_stop c) c2) by (by eexists).
  split_and!; [by eapply quiet_mid|by eapply quiet_presettled| | |done].
  - etrans; [exact Ho1|]. by apply later_onward, quiet_later.
  - by apply none_owed.
Qed.

Lemma owner_turn_ok others w ds c a late pending :
  inv a0 others w ds c → inner_failure c = None → owed (Watching pending) c →
  ∃ c' l, owner_turn a late pending c = Ret (c', l) ∧ inv a0 others w ds c' ∧ onward c c' ∧
    owed l c'.
Proof.
  intros [Hm [Hp _]] Hin Hs. unfold owner_turn, drain_child_commands.
  destruct (child_ok others w ds c (set_child_commands []) Hm Hp) as [Hm1 Hp1].
  { apply (s_child _ (m_shape _ _ _ _ _ _ _ Hm)). }
  set (c1 := upd_child _ c) in *.
  assert (Ho1 : onward c c1).
  { constructor; auto; try lia. exists []. by rewrite app_nil_r. }
  destruct (sort_commands_ok a (child_commands (child (state c))) pending false c1)
    as (c2 & p & b & -> & Hq & Hpend).
  pose proof (quiet_state _ _ Hq) as [Hst Hi2].
  assert (Hm2 := quiet_mid _ _ _ _ _ _ _ Hq Hm1). assert (Hp2 := quiet_presettled _ _ Hq Hp1).
  assert (Ho2 : onward c c2) by (etrans; [exact Ho1|by apply later_onward, quiet_later]).
  assert (Hs2 : owed (Watching p) c2).
  { intros Ho Hn [Hsome|(ch & t & Hel)]; rewrite Hst in *.
    - apply bool_decide_eq_true in Hsome. apply Hs; [done|done|].
      destruct (Hpend Hsome) as [Hsp|?]; [left; by apply bool_decide_eq_true|by right].
    - by apply elem_of_nil in Hel. }
  assert (Hend : turn_end others w ds c2 (match b with
    | None => Ret (c2, WaitingCleanup KindUnpublished p)
    | Some true => Ret (c2, Queued KindUnpublished p)
    | Some false => let '(c, p) := expire_stop a p c2 in admit_stop a p c
    end)).
  { destruct b as [[|]|]; [by eexists _, _| |by eexists _, _].
    pose proof (expire_stop_ok others w ds c2 a p Hm2 Hp2 Hs2) as Hex.
    destruct (expire_stop a p c2) as [c3 p3].
    destruct Hex as (Hm3 & Hp3 & Ho3 & Hs3 & Hi3); [by rewrite Hst|].
    destruct (admit_stop_ok _ _ _ _ a p3 Hm3 Hp3) as (c4 & l & -> & ? & ? & ? & ?);
      [by rewrite Hi3, Hi2|done|].
    eexists _, _. split_and!; [done..|by etrans|done]. }
  destruct Hend as (c3 & l & -> & Hm3 & Hp3 & Ho3 & Hs3). cbn [obind].
  destruct (late_inv _ _ _ _ late Hm3 Hp3) as (c4 & -> & Hi4 & Hl4). cbn [obind].
  eexists _, _. split_and!; [done|done| |by eapply later_owed].
  etrans; [exact Ho2|]. etrans; [exact Ho3|auto].
Qed.

(** ** The entry *)

Definition active (l : Lifecycle) : bool :=
  match l with AuthorityLost | Done => false | _ => true end.
Record entry_inv (others : N) (w : bytes) (ds : gmap N bytes) (e : NativeEntry) : Prop := {
  e_control : inv a0 others w ds (control e);
  e_owed : owed (lifecycle e) (control e);
  e_reap : active (lifecycle e) = true → ∃ cl x, reap e = ReapPending cl x;
}.
Definition entry_ok (others : N) (w : bytes) (ds : gmap N bytes) (e : NativeEntry)
    (o : outcome NativeEntry) : Prop :=
  ∃ e', o = Ret e' ∧ entry_inv others w ds e' ∧ onward (control e) (control e').

Lemma owed_weaken p c : stop_owed p c → stop_owed false c.
Proof. intros H1 H2 H3 [?|?]; [done|apply H1; auto]. Qed.

Lemma fence_commands_ok cs : ∀ stop c, ∃ c' stop', fence_commands cs stop c = (c', stop') ∧
  quiet_send c c'.
Proof.
  induction cs as [|cmd cs IH]; intros stop c; cbn [fence_commands].
  { eexists _, _. split; [done|apply quiet_refl]. }
  destruct cmd as [s g ch|ch t|]; [|destruct stop|].
  all: match goal with |- context [fence_commands _ ?s ?c1] =>
         destruct (IH s c1) as (c' & stop' & -> & Hq) end.
  all: eexists _, _; split; [done|]; done || (eapply quiet_step; [|exact Hq]; done).
Qed.

Lemma fence_child_ok others w ds c :
  inv a0 others w ds c →
  ∃ c' cs, fence_child_commands c = Ret (c', cs) ∧ mid a0 others w ds c' [] [] ∧ presettled c' ∧
    later c c' ∧ phase (state c') ≠ PhaseOpen.
Proof.
  intros [Hm [Hp _]]. unfold fence_child_commands.
  set (c1 := upd_child (open_child false) _).
  assert (Hne : phase (state c1) ≠ PhaseOpen) by (simpl; by destruct (phase _)).
  destruct (not_open_panics _ (control_run c1) "write to" Hne) as [e ->]. cbn [obind].
  assert (Hm1 : mid a0 others w ds c1 [] []).
  { apply (same_mid others w ds c); [done..|]. destruct Hm as [_ []]. by constructor. }
  assert (Hl1 : later c c1).
  { constructor; auto; try lia; [exists []; by rewrite app_nil_r|]. intros q _ Ho. done. }
  destruct (reject_queued_mid a0 _ _ _ _ _ _ e Hm1) as (c2 & rej & -> & Hm2 & Hl2 & Hf2 & Hq2).
  cbn [obind app] in *. rewrite send_rejections_ok. cbn [obind]. unfold drain_child_commands.
  apply (publish_mid a0) in Hm2. rewrite <- (app_nil_r rej) in Hm2. apply send_rejections_mid in Hm2.
  pose proof (publish_empty c2 Hq2) as Hp2. set (c3 := set_sent _ _) in *.
  assert (Hph : phase (state c3) ≠ PhaseOpen).
  { simpl. rewrite publish_state, (f_phase _ _ Hf2). exact Hne. }
  eexists _, _. split_and!; [done| | | |exact Hph].
  - apply (same_mid others w ds c3); [done..|]. by destruct Hm2 as [_ []].
  - destruct Hp2. by constructor.
  - etrans; [exact Hl1|]. etrans; [exact Hl2|]. etrans; [apply publish_later|].
    etrans; [apply sent_later|]. constructor; auto; try lia; [exists []; by rewrite app_nil_r|].
    apply clear_commands_owed.
Qed.

Lemma lose_wait_ok others w ds e message late :
  inv a0 others w ds (control e) → active (lifecycle e) = true → 
  (∃ cl x, reap e = ReapPending cl x) → stop_owed false (control e) →
  entry_ok others w ds e
    (let! e := mark_wait_authority_lost message late e in
     Ret (with_lifecycle AuthorityLost (control e) e)).
Proof.
  intros Hi _ (cl & x & Hr) Ho. unfold mark_wait_authority_lost. rewrite Hr. cbn [lose_wait_authority obind].
  destruct (mark_failed_ok others w ds (control e) message late Hi) as (c' & -> & Hi' & Hl).
  cbn [obind]. eexists. split_and!; [done| |auto].
  constructor; [exact Hi'| |done]. by apply (t_stop _ _ Hl).
Qed.

Lemma quiet_entry others w ds e c' :
  quiet_send (control e) c' → entry_inv others w ds e →
  entry_inv others w ds (with_lifecycle (lifecycle e) c' e) ∧ onward (control e) c'.
Proof.
  intros Hq [H1 H2 H3]. split; [|by apply later_onward, quiet_later].
  constructor; [by eapply quiet_inv|by eapply later_owed; [apply quiet_later|]|done].
Qed.

Lemma answer_stop_quiet k r c : quiet_send c (answer_stop k r c).
Proof.
  unfold answer_stop. destruct (kind_stop k); [|apply quiet_refl]. by eexists.
Qed.

Lemma owner_probe_ok others w ds e leader permit late pending :
  entry_inv others w ds e → lifecycle e = Watching pending →
  entry_ok others w ds e (owner_probe leader permit late pending e).
Proof.
  intros He Hl. pose proof He as [Hi Ho Hr]. rewrite Hl in Ho, Hr.
  unfold owner_probe. destruct leader as [[|]|message].
  - destruct permit as [[|]|]; [| |by exists e].
    + destruct (fence_child_ok _ _ _ _ Hi) as (c1 & cs & -> & Hm1 & Hp1 & Hl1 & Hne). cbn [obind].
      destruct (fence_commands_ok cs pending c1) as (c2 & stop & -> & Hq).
      pose proof (quiet_state _ _ Hq) as [Hst _].
      destruct (late_inv others w ds c2 late) as (c3 & -> & Hi3 & Hl3);
        [by eapply quiet_mid|by eapply quiet_presettled|]. cbn [obind].
      eexists. split_and!; [done| |].
      * constructor; [exact Hi3| |by intros _; apply Hr].
        eapply later_owed; [exact Hl3|]. apply closed_owed. by rewrite Hst.
      * simpl. etrans; [apply later_onward, Hl1|]. etrans; [apply later_onward, quiet_later, Hq|auto].
    + destruct (late_inv others w ds (control e) late) as (c3 & -> & Hi3 & Hl3);
        [apply Hi|apply Hi|]. cbn [obind]. eexists. split_and!; [done| |auto].
      constructor; [exact Hi3| |simpl; rewrite Hl; exact Hr]. simpl. rewrite Hl. by eapply later_owed.
  - by exists e.
  - apply lose_wait_ok; [done|by rewrite Hl|by apply Hr|by eapply owed_weaken].
Qed.

Lemma execute_cleanup_ok others w ds e k pending stopped late :
  entry_inv others w ds e → lifecycle e = Cleaning k pending →
  entry_ok others w ds e (execute_cleanup k pending stopped late e).
Proof.
  intros He Hl. pose proof He as [Hi Ho Hr]. rewrite Hl in Ho, Hr.
  destruct (Hr eq_refl) as (cl & x & Hreap).
  unfold execute_cleanup. destruct stopped as [d|message].
  - pose proof (answer_stop_quiet k (StopAccepted d) (control e)) as Hq.
    destruct (mark_closed_ok others w ds _ late (quiet_inv _ _ _ _ _ Hq Hi)) as (c1 & -> & Hi1 & Hl1).
    cbn [obind]. eexists. split_and!; [done| |].
    + constructor; [exact Hi1| |done]. apply (t_stop _ _ Hl1), (t_stop _ _ (quiet_later _ _ Hq)).
      by eapply owed_weaken.
    + simpl. etrans; [apply later_onward, quiet_later, Hq|auto].
  - pose proof (answer_stop_quiet k (StopUnknown message) (control e)) as Hq.
    pose proof (quiet_inv _ _ _ _ _ Hq Hi) as Hi1.
    assert (Hs1 : owed (Watching pending) (answer_stop k (StopUnknown message) (control e))).
    { apply (t_stop _ _ (quiet_later _ _ Hq)). exact Ho. }
    destruct k as [ch| |stop].
    + eexists. split_and!; [done| |by apply later_onward, quiet_later].
      constructor; [exact Hi1|exact Hs1|by intros _; apply Hr].
    + eexists. split_and!; [done| |done]. constructor; [exact Hi|exact Ho|].
      intros _. simpl. rewrite Hreap. simpl. by eexists _, _.
    + destruct (lose_wait_ok others w ds (with_lifecycle (lifecycle e)
        (answer_stop (KindNatural stop) (StopUnknown message) (control e)) e) message late)
        as (e' & He' & Hinv & Hon); [exact Hi1|by simpl; rewrite Hl|by apply Hr| |].
      { by eapply owed_weaken. }
      exists e'. split_and!; [exact He'|done|].
      etrans; [apply later_onward, quiet_later, Hq|exact Hon].
Qed.

Lemma fail_cleanup_spawn_ok others w ds e k pending error late :
  entry_inv others w ds e → lifecycle e = Queued k pending →
  entry_ok others w ds e (fail_cleanup_spawn k error late e).
Proof.
  intros He Hl. pose proof He as [Hi Ho Hr]. rewrite Hl in Ho, Hr.
  destruct (Hr eq_refl) as (cl & x & Hreap). unfold fail_cleanup_spawn.
  set (message := String.append _ _). pose proof (answer_stop_quiet k (StopUnknown message) (control e)) as Hq.
  pose proof (quiet_inv _ _ _ _ _ Hq Hi) as Hi1.
  assert (Hs1 := t_stop _ _ (quiet_later _ _ Hq) _ (owed_weaken _ _ Ho)).
  assert (Hcase : ∀ e1, inv a0 others w ds (control e1) → lifecycle e1 = lifecycle e →
    (∃ cl x, reap e1 = ReapPending cl x) → stop_owed false (control e1) →
    onward (control e) (control e1) → entry_ok others w ds e
      (let! e := mark_wait_authority_lost message late e1 in
       Ret (with_lifecycle AuthorityLost (control e) e))).
  { intros e1 H1 H2 H3 H4 H5.
    destruct (lose_wait_ok others w ds e1 message late H1) as (e' & He' & ? & ?);
      [by rewrite H2, Hl|done|done|]. exists e'. split_and!; [exact He'|done|by etrans]. }
  destruct k as [ch| |stop]; apply Hcase; try done.
  - by exists cl, x.
  - by apply later_onward, quiet_later.
  - simpl. rewrite Hreap. by eexists _, _.
  - by exists cl, x.
  - by apply later_onward, quiet_later.
Qed.

Lemma complete_stopped_ok others w ds e reason busy :
  entry_inv others w ds e → busy = false ∨ is_Some (inner_failure (control e)) →
  entry_ok others w ds e (complete_stopped_entry reason busy e).
Proof.
  intros He Hb. pose proof He as [Hi Ho Hr]. unfold complete_stopped_entry.
  assert (Hc : ∃ c l, match lifecycle e with
    | Watching (Some ch) =>
        (send (SentStop ch (StopRejected (not_applied (protocol_error BackendUnavailable
           ("Run " +:+ show_run_id (control_run (control e)) +:+
            " Native owner stopped before Stop admission"))))) (control e), Watching None)
    | l => (control e, l)
    end = (c, l) ∧ quiet_send (control e) c ∧ owed l c ∧ (active l = true → active (lifecycle e) = true)).
  { destruct (lifecycle e) as [[ch|]| | | | |];
      (eexists _, _; split_and!; [done|by eexists + apply quiet_refl| |done]); try done.
    apply (t_stop (control e)); [by apply quiet_later; eexists|]. by eapply owed_weaken. }
  destruct Hc as (c1 & l & -> & Hq & Hs1 & Hact).
  destruct (lose_owner_settled_busy others w ds c1 reason busy) as (c2 & -> & Hi2 & Hl2).
  { by eapply quiet_inv. }
  { by rewrite (proj2 (quiet_state _ _ Hq)). }
  cbn [obind]. eexists. split_and!; [done| |].
  - constructor; [exact Hi2|by eapply later_owed|by auto].
  - etrans; [by apply later_onward, quiet_later|auto].
Qed.

Lemma preserve_ok others w ds e :
  entry_inv others w ds e →
  entry_inv others w ds (preserve_shutdown_authority e) ∧
  control (preserve_shutdown_authority e) = control e.
Proof.
  intros [Hi Ho Hr]. unfold preserve_shutdown_authority.
  destruct (lifecycle e) eqn:Hl; (split; [|done]); try by constructor; rewrite ?Hl.
  all: constructor; simpl; try done; by eapply owed_weaken.
Qed.

(** What the owner thread needs for its own steps. *)
Definition step_allowed (o : EntryOp) (late : option NativeServiceFailure) (e : NativeEntry) : Prop :=
  match o with
  | OpTurn _ => inner_failure (control e) = None
  | OpComplete _ busy => busy = false ∨ is_Some (inner_failure (control e))
  | _ => True
  end.

Lemma entry_step_ok others w ds e o late :
  entry_inv others w ds e → step_allowed o late e →
  entry_ok others w ds e (entry_step o late e).
Proof.
  intros He Hok. pose proof He as [Hi Ho Hr]. unfold entry_step.
  destruct o as [a|leader permit| | |error|stopped|reason busy|].
  - destruct (lifecycle e) as [pending| | | | |] eqn:Hl; try by exists e.
    destruct (owner_turn_ok others w ds (control e) a late pending Hi Hok Ho)
      as (c1 & l & -> & Hi1 & Hon & Hs). cbn [obind].
    eexists. split_and!; [done| |exact Hon]. constructor; [exact Hi1|exact Hs|by auto].
  - destruct (lifecycle e) eqn:Hl; try by exists e. by apply owner_probe_ok.
  - destruct (lifecycle e) eqn:Hl; try by exists e.
    eexists. split_and!; [done| |done]. constructor; [exact Hi|exact Ho|by intros _; apply Hr].
  - destruct (lifecycle e) eqn:Hl; try by exists e.
    eexists. split_and!; [done| |done]. constructor; [exact Hi|exact Ho|by intros _; apply Hr].
  - destruct (lifecycle e) eqn:Hl; try by exists e. by eapply fail_cleanup_spawn_ok.
  - destruct (lifecycle e) eqn:Hl; try by exists e. by apply execute_cleanup_ok.
  - destruct (lifecycle e) eqn:Hl; by apply complete_stopped_ok.
  - destruct (preserve_ok _ _ _ _ He) as [? Heq].
    destruct (lifecycle e) eqn:Hl; (eexists; split_and!; [done|done|by rewrite Heq]).
Qed.
End steps.
