(* ===== verification/NativeControlHandoff.v ===== *)
(** * Native control: handoff

    What [HandoffInputState::validate_with_resources] accepts, stated without the
    scan, and the round trip of the settled ledger through a handoff. *)

From S2P Require Import Prelude.
From S2P Require Import Protocol.
From S2P Require Import Resources.
From S2P Require Import NativeControl.
From S2P Require Import NativeControlSpec.
From S2P Require Import NativeControlSections.
Local Open Scope N_scope.

Lemma map_err_Ok {A E F} (f : E → F) (r : result A E) a : map_err f r = Ok a ↔ r = Ok a.
Proof. destruct r; simpl; naive_solver. Qed.
Lemma if_decide_Ok {P : Prop} `{Decision P} {A E} (e : E) (r : result A E) a :
  (if decide P then Err e else r) = Ok a ↔ ¬ P ∧ r = Ok a.
Proof. case_decide; naive_solver. Qed.

(** ** The declarative reading *)

Definition operation_ok (h : HandoffInputState) (o : HandoffInputOperation) : Prop :=
  input_key_validate (handoff_key o) = Ok tt ∧ handoff_data o ≠ [] ∧
  match o with
  | HandoffCompleted _ expected d range =>
      range_start_byte range = expected ∧ range_end_byte range = expected + len d ∧
      expected + len d ≤ u64_max ∧ range_end_byte range ≤ handoff_applied h
  | HandoffUnknown _ expected d f =>
      expected = handoff_applied h ∧ disposition f = Unknown ∧
      (∀ k, confirmed_input_bytes f = Some k → k ≤ len d) ∧
      code <$> handoff_failure h = Some (code (error f))
  end.

(** Completed ranges are disjoint and in order; they end at [b]. *)
Fixpoint ranges_ordered (a : N) (os : list HandoffInputOperation) (b : N) : Prop :=
  match os with
  | [] => a = b
  | HandoffCompleted _ _ _ range :: os =>
      a ≤ range_start_byte range ∧ ranges_ordered (range_end_byte range) os b
  | HandoffUnknown _ _ _ _ :: os => ranges_ordered a os b
  end.

Definition unknown_count (os : list HandoffInputOperation) : N :=
  sumN (λ o, if handoff_is_unknown o then 1 else 0) os.
Definition data_sum (os : list HandoffInputOperation) : N := sumN (λ o, len (handoff_data o)) os.

(** ** One operation *)

Definition scanned (o : HandoffInputOperation) (s : HandoffScan) : HandoffScan :=
  {| scan_retained := scan_retained s + len (handoff_data o);
     scan_keys := {[handoff_key o]} ∪ scan_keys s;
     scan_end := match o with
                 | HandoffCompleted _ _ _ range => range_end_byte range
                 | HandoffUnknown _ _ _ _ => scan_end s
                 end;
     scan_unknown := scan_unknown s + (if handoff_is_unknown o then 1 else 0) |}.

Lemma validate_prefix_Ok n f :
  validate_handoff_unknown_prefix n f = Ok tt ↔
  disposition f = Unknown ∧ ∀ k, confirmed_input_bytes f = Some k → k ≤ n.
Proof.
  unfold validate_handoff_unknown_prefix. destruct (confirmed_input_bytes f) as [k|].
  - case_bool_decide; [split; [done|]; intros [_ Hk]; specialize (Hk _ eq_refl); lia|].
    rewrite if_decide_Ok. split.
    + intros [Hd _]. split; [by apply dec_stable|]. intros ? [= <-]. lia.
    + intros [-> _]. split; [naive_solver|done].
  - rewrite if_decide_Ok. split; [|naive_solver].
    intros [Hd _]. split; [by apply dec_stable|done].
Qed.

Lemma scan_operation_Ok h o s s' :
  scan_operation h o s = Ok s' ↔
  operation_ok h o ∧ (match o with
                      | HandoffCompleted _ _ _ range => scan_end s ≤ range_start_byte range
                      | HandoffUnknown _ _ _ _ => True
                      end) ∧
  (handoff_key o ∉ scan_keys s) ∧ scan_retained s + len (handoff_data o) ≤ u64_max ∧ s' = scanned o s.
Proof.
  unfold scan_operation, operation_ok, scanned. rewrite result_bind_Ok.
  split.
  - intros (s1 & H1 & H2). rewrite result_bind_Ok in H2. destruct H2 as ([] & Hkey%map_err_Ok & H2).
    rewrite !if_decide_Ok in H2. destruct H2 as (Hne & Hin & H2).
    rewrite result_bind_Ok in H2. destruct H2 as (r & Hr & [= <-]).
    unfold ok_or in Hr. destruct (checked_add _ _) as [r'|] eqn:Hadd; [|done]. injection Hr as <-.
    apply checked_add_Some in Hadd as [-> Hmax].
    destruct o as [k x d range|k x d f]; simpl in *; rewrite result_bind_Ok in H1.
    + destruct H1 as (e & He & H1). unfold ok_or in He.
      destruct (checked_add x (len d)) as [e'|] eqn:Hx; [|done]. injection He as <-.
      apply checked_add_Some in Hx as [-> Hx]. rewrite if_decide_Ok in H1.
      destruct H1 as [H1 [= <-]]. simpl in *.
      apply Decidable.not_or in H1 as [H1 H3]. apply Decidable.not_or in H3 as [H3 H4].
      apply Decidable.not_or in H4 as [H4 H5]. apply dec_stable in H1, H3.
      split_and!; try done; try lia. by rewrite N.add_0_r.
    + destruct H1 as ([] & [Hd Hp]%validate_prefix_Ok & H1). rewrite !if_decide_Ok in H1.
      destruct H1 as (H1 & H3 & [= <-]). simpl in *. apply dec_stable in H1, H3.
      by split_and!.
  - intros ((Hkey & Hne & Ho) & Hend & Hin & Hmax & ->).
    destruct o as [k x d range|k x d f]; simpl in *.
    + destruct Ho as (H1 & H2 & H3 & H4).
      exists {| scan_retained := scan_retained s; scan_keys := scan_keys s;
                scan_end := range_end_byte range; scan_unknown := scan_unknown s |}.
      unfold checked_add. rewrite decide_True by done. simpl.
      rewrite decide_False by (intros [?|[?|[?|?]]]; lia). split; [done|].
      rewrite Hkey. simpl. rewrite decide_False, decide_False, decide_True by done. simpl.
      by rewrite N.add_0_r.
    + destruct Ho as (H1 & H2 & H3 & H4).
      exists {| scan_retained := scan_retained s; scan_keys := scan_keys s;
                scan_end := scan_end s; scan_unknown := scan_unknown s + 1 |}.
      rewrite (proj2 (validate_prefix_Ok (len d) f)) by done. simpl.
      rewrite decide_False, decide_False by (intros Hc; by apply Hc). split; [done|].
      rewrite Hkey. simpl. unfold checked_add. by rewrite decide_False, decide_False, decide_True by done.
Qed.

(** ** The whole scan *)

Fixpoint scan_all (os : list HandoffInputOperation) (s : HandoffScan) : HandoffScan :=
  match os with [] => s | o :: os => scan_all os (scanned o s) end.

Lemma scan_all_fields os : ∀ s,
  scan_retained (scan_all os s) = scan_retained s + data_sum os ∧
  scan_unknown (scan_all os s) = scan_unknown s + unknown_count os.
Proof.
  unfold data_sum, unknown_count. induction os as [|o os IH]; intros s; cbn [scan_all].
  - by rewrite !sumN_nil, !N.add_0_r.
  - destruct (IH (scanned o s)) as [-> ->]. rewrite !sumN_cons. simpl. split; lia.
Qed.

Lemma scan_operations_Ok h os : ∀ s s',
  scan_operations h os s = Ok s' ↔
  Forall (operation_ok h) os ∧ ranges_ordered (scan_end s) os (scan_end s') ∧
  NoDup (map handoff_key os) ∧ (∀ o, o ∈ os → handoff_key o ∉ scan_keys s) ∧
  (os ≠ [] → scan_retained s + data_sum os ≤ u64_max) ∧ s' = scan_all os s.
Proof.
  induction os as [|o os IH]; intros s s'; simpl.
  { split.
    - intros [= ->]. split_and!; try done; [constructor|]. intros o []%elem_of_nil.
    - by intros (_ & _ & _ & _ & _ & ->). }
  rewrite result_bind_Ok. setoid_rewrite scan_operation_Ok. setoid_rewrite IH.
  rewrite Forall_cons, NoDup_cons. replace (data_sum (o :: os)) with (len (handoff_data o) + data_sum os) by done.
  split.
  - intros (s1 & (Ho & Hend & Hin & Hmax & ->) & Hos & Hr & Hnd & Hfresh & Hsum & ->).
    split_and!; try done.
    + destruct o; simpl in *; auto.
    + intros (o' & Hk & Ho')%list_elem_of_fmap. apply (Hfresh o' Ho'). simpl. set_solver.
    + intros o' [->|Ho']%elem_of_cons; [done|]. specialize (Hfresh o' Ho'). simpl in Hfresh. set_solver.
    + intros _. destruct os as [|o' os']; [change (data_sum []) with 0; lia|].
      specialize (Hsum ltac:(done)). cbn [scanned scan_retained] in Hsum. lia.
  - intros ((Ho & Hos) & Hr & (Hnotin & Hnd) & Hfresh & Hsum & ->).
    specialize (Hsum ltac:(done)). exists (scanned o s). split_and!; try done; try lia.
    + destruct o; simpl in *; [by destruct Hr|done].
    + apply Hfresh. by left.
    + destruct o; simpl in *; [by destruct Hr|done].
    + intros o' Ho'. simpl. rewrite not_elem_of_union, not_elem_of_singleton. split.
      * intros Heq. apply Hnotin. apply list_elem_of_fmap. by exists o'.
      * apply Hfresh. by right.
    + intros _. simpl. lia.
Qed.

Definition handoff_end (os : list HandoffInputOperation) : N :=
  foldl (λ a o, match o with HandoffCompleted _ _ _ range => range_end_byte range | _ => a end) 0 os.

(** What a handoff must be. *)
Record handoff_wf `{!ControlLayout} (l : ResourceLimits) (h : HandoffInputState) : Prop := {
  h_entries : len (operations h) ≤ input_result_entries l;
  h_operations : Forall (operation_ok h) (operations h);
  h_ranges : ∃ b, ranges_ordered 0 (operations h) b;
  h_keys : NoDup (map handoff_key (operations h));
  h_data : data_sum (operations h) ≤ N.min u64_max (input_result_bytes l);
  h_unknown : unknown_count (operations h) ≤ 1;
  h_memory : control_memory_bytes h ≤ control_state_bytes l;
}.

Lemma ranges_scan_end os : ∀ s b,
  ranges_ordered (scan_end s) os b → b = scan_end (scan_all os s).
Proof.
  induction os as [|[k x d range|k x d f] os IH]; intros s b; simpl; [done|..].
  - intros [_ Hr]. by apply (IH (scanned (HandoffCompleted k x d range) s)).
  - intros Hr. by apply (IH (scanned (HandoffUnknown k x d f) s)).
Qed.

(** The staged validation of a handed-off ledger accepts exactly the ledgers
    that are well formed: distinct valid keys with non-empty payloads, completed
    ranges that are the expected ones, in order, disjoint and below the cursor, at
    most one unknown operation, at the cursor, with an admissible prefix and the
    poisoned lane's code, within the entry, byte and control-memory limits. *)
Lemma validate_wf `{!ControlLayout} l h :
  validate_with_resources l h = Ok tt ↔ handoff_wf l h.
Proof.
  unfold validate_with_resources. rewrite if_decide_Ok, result_bind_Ok.
  set (s0 := {| scan_retained := 0 |}). setoid_rewrite scan_operations_Ok.
  do 3 setoid_rewrite if_decide_Ok. split.
  - intros (Hn & s & (Hos & Hr & Hnd & _ & Hsum & ->) & H1 & H2 & H3 & _).
    destruct (scan_all_fields (operations h) s0) as [Ha Hb]. rewrite Ha in H1. rewrite Hb in H2.
    subst s0. cbn [scan_retained scan_unknown scan_end] in *.
    constructor; [lia|done|eauto|done| |lia|lia].
    destruct (operations h) as [|o os]; [change (data_sum []) with 0; lia|].
    specialize (Hsum ltac:(done)). lia.
  - intros [Hn Hos [b Hr] Hnd Hd Hu Hm]. split; [lia|].
    exists (scan_all (operations h) s0).
    destruct (scan_all_fields (operations h) s0) as [Ha Hb].
    split_and!; try done.
    + by rewrite <- (ranges_scan_end (operations h) s0 b Hr).
    + intros _. subst s0. cbn [scan_retained]. lia.
    + rewrite Ha. subst s0. cbn [scan_retained]. lia.
    + rewrite Hb. subst s0. cbn [scan_unknown]. lia.
    + lia.
Qed.

(** ** Adoption *)

Section adoption.
Context `{!UuidDisplay, !ControlLayout}.

Definition operation_charge (o : HandoffInputOperation) : N :=
  input_receipt_charge (handoff_key o) (handoff_data o).
Definition handoff_charge (h : HandoffInputState) : N :=
  additional_diagnostic_memory_bytes h + sumN operation_charge (operations h).

Definition adopted_entry (o : HandoffInputOperation) : InputOperationEntry :=
  let request expected := {| request_memory := Some (operation_charge o); expected_byte := expected;
                             request_data := handoff_data o |} in
  match o with
  | HandoffCompleted _ expected _ range => EntryCompleted (request expected) range
  | HandoffUnknown _ expected _ f => EntryUnknown (request expected) f
  end.
Definition adopted_pair (o : HandoffInputOperation) : InputOperationKey * InputOperationEntry :=
  (handoff_key o, adopted_entry o).
Definition adopted_map (os : list HandoffInputOperation)
    : gmap InputOperationKey InputOperationEntry := list_to_map (map adopted_pair os).
Definition completed_keys (os : list HandoffInputOperation) : list InputOperationKey :=
  map handoff_key (filter (λ o, handoff_is_unknown o = false) os).

Lemma adopt_ok os : ∀ b g,
  NoDup (map handoff_key os) → (∀ o, o ∈ os → input_operations g !! handoff_key o = None) →
  ByteBudget.used b + sumN operation_charge os ≤ ByteBudget.limit b → ByteBudget.limit b ≤ u64_max →
  adopt_operations os b g = Ret (
    {| ByteBudget.limit := ByteBudget.limit b;
       ByteBudget.used := ByteBudget.used b + sumN operation_charge os |},
    {| input_operations := adopted_map os ∪ input_operations g;
       completed_input_operations := completed_input_operations g ++ completed_keys os;
       retained_input_request_bytes := retained_input_request_bytes g |}).
Proof.
  induction os as [|o os IH]; intros b g Hnd Hfresh Hroom Hlim; cbn [adopt_operations].
  { rewrite sumN_nil, N.add_0_r. unfold adopted_map. simpl. rewrite (left_id_L ∅ (∪)). unfold completed_keys. simpl.
    rewrite app_nil_r. by destruct b, g. }
  cbn [map] in Hnd. apply NoDup_cons in Hnd as [Hnot Hnd]. rewrite sumN_cons in *.
  unfold adopt_memory. rewrite ByteBudget.reserve_spec.
  change (input_receipt_charge (handoff_key o) (handoff_data o)) with (operation_charge o).
  rewrite decide_True by lia. cbn [expect obind].
  assert (Hne : ∀ o', o' ∈ os → handoff_key o' ≠ handoff_key o).
  { intros o' Ho' Heq. apply Hnot. rewrite <- Heq. by apply list_elem_of_fmap_2. }
  assert (Hmap : adopted_map os !! handoff_key o = None).
  { apply not_elem_of_list_to_map. intros ([k e] & Hk & (o' & Ho' & Hin)%list_elem_of_fmap)%list_elem_of_fmap.
    simpl in Hk. injection Ho' as -> _. by apply (Hne o' Hin). }
  match goal with |- adopt_operations os ?b' ?g' = _ =>
    specialize (IH b' g' Hnd) end.
  rewrite IH; simpl; [| |lia|done].
  - f_equal. f_equal; [f_equal; lia|].
    assert (Hun : ∀ e, adopted_map os ∪ <[handoff_key o:=e]> (input_operations g)
        = <[handoff_key o:=e]> (adopted_map os) ∪ input_operations g).
    { intros e. rewrite <- insert_union_l. by rewrite insert_union_r. }
    destruct o as [k x d range|k x d f]; unfold completed_keys; simpl; rewrite Hun; simpl.
    + by rewrite <- app_assoc.
    + done.
  - intros o' Ho'. destruct o as [k x d range|k x d f]; simpl;
      (rewrite lookup_insert_ne; [apply Hfresh; by right|]);
      intros Heq; by apply (Hne o' Ho').
Qed.

Lemma msum_list_to_map {V} (f : V → N) (l : list (InputOperationKey * V)) :
  NoDup l.*1 → msum f (list_to_map l : gmap _ _) = sumN (λ kv, f kv.2) l.
Proof. intros Hl. unfold msum. by rewrite map_to_list_to_map. Qed.

Lemma adopted_keys os : (map adopted_pair os).*1 = map handoff_key os.
Proof. induction os as [|o os IH]; [done|]. simpl. by f_equal. Qed.

Lemma adopted_lookup os k e :
  NoDup (map handoff_key os) →
  adopted_map os !! k = Some e ↔
  ∃ o, o ∈ os ∧ handoff_key o = k ∧ adopted_entry o = e.
Proof.
  intros Hnd. unfold adopted_map. rewrite <- elem_of_list_to_map by (by rewrite adopted_keys).
  rewrite list_elem_of_fmap. unfold adopted_pair. naive_solver.
Qed.

Lemma completed_chain_adopted h m os : ∀ a b,
  Forall (operation_ok h) os → ranges_ordered a os b → a ≤ handoff_applied h →
  (∀ o, o ∈ os → m !! handoff_key o = Some (adopted_entry o)) →
  completed_chain m a (completed_keys os) (handoff_applied h).
Proof.
  unfold completed_keys.
  induction os as [|[k x d range|k x d f] os IH]; intros a b Hos Hr Ha Hm; simpl; [done|..];
    apply Forall_cons in Hos as [Ho Hos]; simpl in Hr.
  - destruct Ho as (_ & _ & H1 & H2 & H3 & H4), Hr as [Hle Hr].
    eexists _, range. split; [apply (Hm (HandoffCompleted k x d range)); by left|].
    split_and!; [done|done|done|]. eapply IH; [done|exact Hr|done|].
    intros o Hin. apply Hm. by right.
  - eapply IH; [done|exact Hr|done|]. intros o Hin. apply Hm. by right.
Qed.

Lemma unknown_unique os o o' :
  unknown_count os ≤ 1 → o ∈ os → o' ∈ os → handoff_is_unknown o = true →
  handoff_is_unknown o' = true → o = o'.
Proof.
  unfold unknown_count. intros Hu Ho Ho' H1 H2.
  apply list_elem_of_split in Ho as (l1 & l2 & ->).
  assert (Hin : o' = o ∨ o' ∈ (l1 ++ l2)%list) by (set_solver).
  destruct Hin as [->|Hin]; [done|]. exfalso.
  pose proof (sumN_elem (λ o, if handoff_is_unknown o then 1 else 0) _ _ Hin) as Hle.
  cbn beta in Hle. rewrite H2, sumN_app in Hle. rewrite sumN_app, sumN_cons, H1 in Hu. lia.
Qed.

Definition handoff_ledger (h : HandoffInputState) : InputLedger :=
  {| input_operations := adopted_map (operations h);
     completed_input_operations := completed_keys (operations h);
     retained_input_request_bytes := data_sum (operations h) |}.
Definition handoff_lane (h : HandoffInputState) : InputLane :=
  {| input_queue := []; input_commands := 0; input_bytes := 0; input_scheduled := false;
     input_blocked := false; input_failure := handoff_failure h;
     applied_input_bytes := handoff_applied h |}.
Definition no_ghost : ghost := {| wire := []; datas := ∅; acked := []; refused := [] |}.

Lemma adopted_request o :
  request_data (entry_request (adopted_entry o)) = handoff_data o ∧
  entry_held (adopted_entry o) = operation_charge o.
Proof. by destruct o. Qed.

Lemma handoff_core l h b n others :
  handoff_wf l h → handoff_applied h ≤ u64_max →
  ByteBudget.used b = others + sumN operation_charge (operations h) →
  ByteBudget.used b ≤ ByteBudget.limit b → ByteBudget.limit b ≤ u64_max →
  core (handoff_applied h) others no_ghost (handoff_lane h) (handoff_ledger h) b n.
Proof.
  intros [_ Hos [e Hr] Hnd _ Hu _] Happ Hb1 Hb2 Hb3.
  assert (Hlook := λ k e, adopted_lookup (operations h) k e Hnd).
  assert (Hok : ∀ o, o ∈ operations h → operation_ok h o) by (by apply Forall_forall).
  assert (Hsum : ∀ (f : InputOperationEntry → N), msum f (adopted_map (operations h)) =
    sumN (λ o, f (adopted_entry o)) (operations h)).
  { intros f. unfold adopted_map. rewrite msum_list_to_map by (by rewrite adopted_keys).
    clear. induction (operations h) as [|o os IH]; [done|]. cbn [map]. by rewrite !sumN_cons, IH. }
  constructor; simpl; try done.
  - rewrite Hsum. apply sumN_ext. intros o _. unfold entry_len, entry_data.
    by rewrite (proj1 (adopted_request o)).
  - intros cmd k ch []%elem_of_nil.
  - intros k r ch (o & _ & _ & Ho)%Hlook. by destruct o.
  - constructor.
  - intros ch. unfold channels. simpl. rewrite lookup_empty. split; [by intros []|].
    intros []%elem_of_nil.
  - intros cmd []%elem_of_nil.
  - intros ch. rewrite lookup_empty. by intros [].
  - intros cmd []%elem_of_nil.
  - exists []. split; [done|]. unfold tail_ok. simpl. destruct (handoff_failure h) as [x|].
    + right. split; [eauto|]. split; [constructor|]. by left.
    + left. by split_and!.
  - eapply completed_chain_adopted; [done|exact Hr|lia|]. intros o Ho. apply Hlook. eauto.
  - intros k r range (o & Ho & <- & He)%Hlook. apply list_elem_of_fmap. exists o. split; [done|].
    apply list_elem_of_filter. split; [by destruct o|done].
  - unfold completed_keys. eapply sublist_NoDup; [exact Hnd|].
    apply fmap_sublist, sublist_filter.
  - intros k en (o & Ho & <- & <-)%Hlook. unfold entry_data.
    rewrite (proj1 (adopted_request o)). destruct (Hok o Ho) as (? & ? & _). done.
  - intros k r f (o & Ho & <- & He)%Hlook. destruct (Hok o Ho) as (_ & _ & Hcase).
    destruct o as [|k x d f']; [done|]. injection He as <- <-. simpl. naive_solver.
  - intros k k' r r' f f' (o & Ho & <- & He)%Hlook (o' & Ho' & <- & He')%Hlook. f_equal.
    eapply unknown_unique; [exact Hu|done|done|by destruct o|by destruct o'].
  - unfold held. simpl. rewrite Hsum. split_and!; [|done|done].
    rewrite Hb1. change (sumN command_held []) with 0. rewrite N.add_0_l. f_equal.
    apply sumN_ext. intros o _. by rewrite (proj2 (adopted_request o)).
Qed.

(** ** A new owner satisfies the invariant *)

Definition adopted_permit (h : HandoffInputState) : option N :=
  if decide (0 < additional_diagnostic_memory_bytes h)
  then Some (additional_diagnostic_memory_bytes h) else None.

Definition adopted_control (id : RunId) (l : ResourceLimits) (b : ByteBudget.t)
    (size : option TerminalSize) (writer : bool) (h : HandoffInputState) (closed : bool) : Control :=
  {| control_run := id; resources := l;
     state := {| phase := if closed then PhaseClosed else PhaseOpen;
                 confirmed_size := confirm_size size; owner_failure := None;
                 lane := handoff_lane h; ledger := handoff_ledger h;
                 child := {| child_open := negb closed; stop_pending := false;
                             child_commands := [] |};
                 input_result_max_entries := input_result_entries l;
                 input_result_max_request_bytes := input_result_bytes l |};
     inner_failure := None; writer_open := writer;
     control_budget := {| ByteBudget.limit := ByteBudget.limit b;
                          ByteBudget.used := ByteBudget.used b + handoff_charge h |};
     service_bound := false; published := []; next_channel := 0; sent := [] |}.

Lemma new_with_components_eq id l b size writer h closed :
  0 < input_result_entries l → 0 < input_result_bytes l →
  handoff_wf l h → ByteBudget.used b + handoff_charge h ≤ ByteBudget.limit b →
  ByteBudget.limit b ≤ u64_max →
  new_with_components id l b size writer h closed =
    Ret (adopted_control id l b size writer h closed, adopted_permit h).
Proof.
  intros Hp1 Hp2 Hwf Hroom Hlim. unfold new_with_components, adopted_control, adopted_permit.
  rewrite !bool_decide_eq_true_2 by done. cbn [check obind].
  rewrite (proj2 (validate_wf l h) Hwf). cbn [is_ok check obind].
  unfold handoff_charge in *.
  assert (Hadopt : ∀ b', ByteBudget.limit b' = ByteBudget.limit b →
    ByteBudget.used b' = ByteBudget.used b + additional_diagnostic_memory_bytes h →
    adopt_operations (operations h) b' {| input_operations := ∅; completed_input_operations := [];
       retained_input_request_bytes := data_sum (operations h) |} =
    Ret ({| ByteBudget.limit := ByteBudget.limit b; ByteBudget.used := ByteBudget.used b +
       (additional_diagnostic_memory_bytes h + sumN operation_charge (operations h)) |}, handoff_ledger h)).
  { intros b' Hl Hu. rewrite adopt_ok; [|apply Hwf|intros; apply lookup_empty|lia|lia].
    cbn [input_operations completed_input_operations retained_input_request_bytes].
    unfold handoff_ledger. by rewrite Hl, Hu, (right_id_L ∅ (∪)), N.add_assoc. }
  case_decide as Hd; cbn [obind].
  - unfold adopt_memory. rewrite ByteBudget.reserve_spec, decide_True by lia. cbn [expect obind].
    fold (data_sum (operations h)). by rewrite Hadopt.
  - fold (data_sum (operations h)). rewrite Hadopt; [done|done|lia].
Qed.

Lemma adopted_control_inv id l b size writer h closed others :
  handoff_wf l h → handoff_applied h ≤ u64_max → ByteBudget.used b = others →
  ByteBudget.used b + handoff_charge h ≤ ByteBudget.limit b → ByteBudget.limit b ≤ u64_max →
  inv (handoff_applied h) (others + default 0 (adopted_permit h)) [] ∅
    (adopted_control id l b size writer h closed).
Proof.
  intros Hwf Happ Hu Hroom Hlim. unfold handoff_charge in *. split.
  - split.
    + exists no_ghost. split_and!; [|done|done|done].
      apply (handoff_core l); simpl; try done; unfold handoff_charge.
      unfold adopted_permit. case_decide; simpl; lia.
    + constructor; simpl; try done; [by destruct closed| |].
      * unfold adopted_map. rewrite map_size_list_to_map.
        -- rewrite length_map. apply (h_entries _ _ Hwf).
        -- rewrite adopted_keys. apply Hwf.
      * pose proof (h_data _ _ Hwf). lia.
  - split; [by constructor|]. by intros [].
Qed.

(** ** The snapshot *)

(** What a handoff keeps of an entry. *)
Definition entry_view (k : InputOperationKey) (e : InputOperationEntry)
    : option HandoffInputOperation :=
  match e with
  | EntryPending _ _ => None
  | EntryCompleted r range => Some (HandoffCompleted k (expected_byte r) (request_data r) range)
  | EntryUnknown r f => Some (HandoffUnknown k (expected_byte r) (request_data r) f)
  end.

Lemma view_adopted o : entry_view (handoff_key o) (adopted_entry o) = Some o.
Proof. by destruct o. Qed.
Lemma view_key k e o : entry_view k e = Some o → handoff_key o = k.
Proof. destruct e; naive_solver. Qed.

Lemma completed_operations_Ok id m ks : ∀ os,
  completed_operations id m ks = Ok os →
  map handoff_key os = ks ∧ Forall (λ o, handoff_is_unknown o = false) os ∧
  ∀ o, o ∈ os → ∃ e, m !! handoff_key o = Some e ∧ entry_view (handoff_key o) e = Some o.
Proof.
  induction ks as [|k ks IH]; intros os; cbn [completed_operations].
  - intros [= <-]. split_and!; [done|constructor|]. intros o []%elem_of_nil.
  - destruct (m !! k) as [[r ch|r range|r f]|] eqn:Hk; try done.
    rewrite result_bind_Ok. intros (os1 & H1 & [= <-]). destruct (IH _ H1) as (H2 & H3 & H4).
    split_and!; [by simpl; f_equal|by constructor|].
    intros o [->|Ho]%elem_of_cons; [|by apply H4]. by eexists.
Qed.

(** The round trip of one completed prefix. *)
Lemma completed_operations_back id m os :
  Forall (λ o, handoff_is_unknown o = false) os →
  (∀ o, o ∈ os → m !! handoff_key o = Some (adopted_entry o)) →
  completed_operations id m (map handoff_key os) = Ok os.
Proof.
  induction os as [|o os IH]; intros Hu Hm; [done|]. apply Forall_cons in Hu as [Ho Hu].
  cbn [map completed_operations]. rewrite (Hm o) by by left.
  rewrite IH; [|done|intros; apply Hm; by right]. by destruct o.
Qed.

Lemma unknown_operations_perm m :
  unknown_operations m ≡ₚ
  omap (λ '(k, e), match e with EntryUnknown _ _ => entry_view k e | _ => None end) (map_to_list m).
Proof.
  unfold unknown_operations. rewrite merge_sort_Permutation.
  induction (map_to_list m) as [|[k e] l IH]; [done|]. simpl. by destruct e; simpl; rewrite IH.
Qed.
Lemma unknown_operations_elem m o :
  o ∈ unknown_operations m ↔ handoff_is_unknown o = true ∧
    ∃ e, m !! handoff_key o = Some e ∧ entry_view (handoff_key o) e = Some o.
Proof.
  rewrite unknown_operations_perm, list_elem_of_omap. split.
  - intros ([k e] & Hin%elem_of_map_to_list & Ho). destruct e as [| |r f]; try done.
    injection Ho as <-. split; [done|]. by exists (EntryUnknown r f).
  - intros (Hu & e & He & Hv). exists (handoff_key o, e). split; [by apply elem_of_map_to_list|].
    destruct e; [done| |done]. destruct o; [done|]. by destruct (handoff_key _).
Qed.

Lemma handoff_snapshot_Ok c h :
  handoff_snapshot c = Ok h ↔
  (phase (state c) = PhaseOpen ∨ phase (state c) = PhaseClosed) ∧ control_idle (state c) = true ∧
  (∃ os, completed_operations (control_run c) (input_operations (ledger (state c)))
           (completed_input_operations (ledger (state c))) = Ok os ∧
     operations h = os ++ unknown_operations (input_operations (ledger (state c)))) ∧
  existsb (λ kv, is_pending kv.2) (map_to_list (input_operations (ledger (state c)))) = false ∧
  len (operations h) = N.of_nat (base.size (input_operations (ledger (state c)))) ∧
  handoff_applied h = applied_input_bytes (lane (state c)) ∧
  handoff_failure h = input_failure (lane (state c)) ∧
  handoff_wf (resources c) h.
Proof.
  unfold handoff_snapshot. split.
  - destruct (negb _) eqn:Hq; [done|]. apply negb_false_iff, andb_true_iff in Hq as [Hph Hidle].
    apply bool_decide_eq_true in Hph. rewrite result_bind_Ok. intros (os & Hos & H1).
    destruct (existsb _ _) eqn:Hpend; [done|]. rewrite if_decide_Ok, result_bind_Ok in H1.
    destruct H1 as (Hlen & [] & Hval & [= <-]). apply dec_stable in Hlen. simpl.
    apply validate_wf in Hval. split_and!; eauto.
  - intros (Hph & -> & (os & -> & Hops) & -> & Hlen & Ha & Hf & Hwf).
    rewrite bool_decide_eq_true_2 by done. cbn [andb negb result_bind].
    rewrite <- Hops, <- Ha, <- Hf, decide_False by (intros Hc; by apply Hc).
    destruct h as [a f hops]. simpl in *. by rewrite (proj2 (validate_wf _ _) Hwf).
Qed.

Lemma adopted_view_perm os :
  NoDup (map handoff_key os) →
  unknown_operations (adopted_map os) ≡ₚ filter (λ o, handoff_is_unknown o = true) os.
Proof.
  intros Hnd. rewrite unknown_operations_perm. unfold adopted_map.
  rewrite map_to_list_to_map by (by rewrite adopted_keys).
  clear Hnd. induction os as [|o os IH]; [done|]. rewrite filter_cons. simpl.
  destruct o as [k x d range|k x d f]; simpl; [exact IH|by rewrite IH].
Qed.

Lemma split_known os us :
  Forall (λ o, handoff_is_unknown o = false) os → Forall (λ o, handoff_is_unknown o = true) us →
  filter (λ o, handoff_is_unknown o = false) (os ++ us) = os ∧
  filter (λ o, handoff_is_unknown o = true) (os ++ us) = us.
Proof.
  intros Ho Hu. induction Ho as [|o os Ho Hos [IH1 IH2]]; simpl.
  - induction Hu as [|u us Hu Hus [IH1 IH2]]; [done|]. rewrite !filter_cons, Hu. simpl.
    by rewrite IH1, IH2.
  - rewrite !filter_cons, Ho. simpl. by rewrite IH1, IH2.
Qed.

Lemma unknown_count_filter os :
  unknown_count os = len (filter (λ o, handoff_is_unknown o = true) os).
Proof.
  unfold unknown_count. induction os as [|o os IH]; [done|]. rewrite sumN_cons, filter_cons, IH.
  destruct (handoff_is_unknown o) eqn:Ho; simpl; [by rewrite len_cons|done].
Qed.

Lemma perm_singleton {A} (l l' : list A) : l ≡ₚ l' → len l' ≤ 1 → l = l'.
Proof.
  intros Hp Hl. destruct l' as [|x [|y l']].
  - by apply Permutation_nil_r in Hp.
  - by apply Permutation_singleton_r in Hp.
  - rewrite !len_cons in Hl. lia.
Qed.

Lemma snapshot_again c h id l b size writer closed :
  handoff_snapshot c = Ok h → l = resources c → 
  handoff_snapshot (adopted_control id l b size writer h closed) = Ok h.
Proof.
  intros Hs ->. apply handoff_snapshot_Ok in Hs as (_ & _ & (os & Hos & Hops) & _ & _ & _ & _ & Hwf).
  pose proof (completed_operations_Ok _ _ _ _ Hos) as (Hkeys & Hknown & Hfrom).
  set (us := unknown_operations _) in Hops.
  assert (Hus : Forall (λ o, handoff_is_unknown o = true) us).
  { apply Forall_forall. intros o [Ho _]%unknown_operations_elem. done. }
  destruct (split_known os us Hknown Hus) as [Hf1 Hf2].
  assert (Hnd := h_keys _ _ Hwf).
  assert (Hu : unknown_operations (adopted_map (operations h)) = us).
  { apply perm_singleton.
    - rewrite (adopted_view_perm _ Hnd). by rewrite Hops, Hf2.
    - rewrite <- Hf2, <- Hops, <- unknown_count_filter. apply Hwf. }
  apply handoff_snapshot_Ok. simpl. split_and!; try done.
  - destruct closed; auto.
  - exists os. split; [|by rewrite Hu].
    unfold completed_keys. rewrite Hops, Hf1. apply completed_operations_back; [done|].
    intros o Ho. rewrite <- Hops. apply adopted_lookup; [done|]. exists o.
    rewrite Hops. split_and!; [set_solver|done|done].
  - apply not_true_iff_false. intros ([k e] & Hin & Hp)%existsb_exists.
    apply list_elem_of_In, elem_of_map_to_list, adopted_lookup in Hin as (o & _ & _ & <-); [|done].
    by destruct o.
  - unfold adopted_map. rewrite map_size_list_to_map by (by rewrite adopted_keys).
    by rewrite length_map.
Qed.

(** The ledger itself, up to the permits that fund it. *)
Lemma snapshot_elem c h a0 others G o :
  cinv a0 others G c → handoff_snapshot c = Ok h →
  o ∈ operations h ↔ ∃ e, input_operations (ledger (state c)) !! handoff_key o = Some e ∧
    entry_view (handoff_key o) e = Some o.
Proof.
  intros Hk (_ & _ & (os & Hos & ->) & _)%handoff_snapshot_Ok.
  pose proof (completed_operations_Ok _ _ _ _ Hos) as (Hkeys & Hknown & Hfrom).
  rewrite elem_of_app, unknown_operations_elem. split.
  - intros [Ho|[_ Ho]]; [by apply Hfrom|done].
  - intros (e & He & Hv). destruct e as [r ch|r range|r f]; [done|..].
    + left. pose proof (k_listed _ _ _ _ _ _ _ Hk _ _ _ He) as Hin. rewrite <- Hkeys in Hin.
      apply list_elem_of_fmap in Hin as (o' & Hkey & Ho').
      destruct (Hfrom o' Ho') as (e' & He' & Hv'). rewrite <- Hkey, He in He'. injection He' as <-.
      rewrite <- Hkey in Hv'. rewrite Hv in Hv'. by injection Hv' as ->.
    + right. split; [by destruct o|]. eauto.
Qed.

Lemma retained_same_view s1 s2 key request id :
  input_operations (ledger s1) !! key ≫= entry_view key =
    input_operations (ledger s2) !! key ≫= entry_view key →
  (∀ e, input_operations (ledger s1) !! key = Some e → is_pending e = false) →
  (∀ e, input_operations (ledger s2) !! key = Some e → is_pending e = false) →
  retained_input_result s1 key request id = retained_input_result s2 key request id.
Proof.
  unfold retained_input_result. intros Hv H1 H2.
  destruct (input_operations (ledger s1) !! key) as [[r1 ch|r1 x1|r1 x1]|];
    try (by specialize (H1 _ eq_refl));
  destruct (input_operations (ledger s2) !! key) as [[r2 ch|r2 x2|r2 x2]|];
    try (by specialize (H2 _ eq_refl)); simpl in Hv; try done;
  injection Hv as He Hd ->; unfold request_eq; simpl; by rewrite He, Hd.
Qed.

Lemma no_pending m k e :
  existsb (λ kv : InputOperationKey * InputOperationEntry, is_pending kv.2) (map_to_list m) = false →
  m !! k = Some e → is_pending e = false.
Proof.
  intros Hno He. apply not_true_iff_false. intros Hp. apply not_true_iff_false in Hno. apply Hno.
  apply existsb_exists. exists (k, e). split; [|done]. apply list_elem_of_In. by apply elem_of_map_to_list.
Qed.

Lemma adopted_retained c h a0 others G id l b size writer closed key request rid :
  cinv a0 others G c → handoff_snapshot c = Ok h →
  retained_input_result (state (adopted_control id l b size writer h closed)) key request rid =
  retained_input_result (state c) key request rid.
Proof.
  intros Hk Hs. pose proof (proj1 (handoff_snapshot_Ok _ _) Hs) as (_&_&_&Hpend&_&_&_&Hwf).
  pose proof (adopted_lookup (operations h) key) as Hlook. specialize (λ e, Hlook e (h_keys _ _ Hwf)).
  apply retained_same_view; simpl.
  - destruct (input_operations (ledger (state c)) !! key) as [e|] eqn:He; simpl.
    + pose proof (no_pending _ _ _ Hpend He) as Hnp.
      assert (∃ o, entry_view key e = Some o) as [o Hv] by (destruct e; eauto; done).
      pose proof (view_key _ _ _ Hv) as Hkey. rewrite Hv.
      assert (Hin : o ∈ operations h).
      { eapply snapshot_elem; [exact Hk|exact Hs|]. exists e. by rewrite Hkey. }
      rewrite (proj2 (Hlook (adopted_entry o))) by eauto. simpl. rewrite <- Hkey. apply view_adopted.
    + destruct (adopted_map (operations h) !! key) as [e|] eqn:He2; [|done].
      destruct (proj1 (Hlook e) eq_refl) as (o & Ho & <- & _).
      eapply snapshot_elem in Ho as (e' & He' & _); [|exact Hk|exact Hs]. congruence.
  - intros e (o & _ & _ & <-)%Hlook. by destruct o.
  - intros e He. by eapply no_pending.
Qed.
End adoption.
