(* ===== verification/NativeControlSystem.v ===== *)
(** * Native control as a system

    One Run's control, its entry in the owner, the callers that wait for the lock
    with funded payloads and the other users of the control budget, as a step
    relation: a step is one locked section, one owner step or one outside change.
    The bytes the PTY took and the payload of every channel are recorded. *)

From S2P Require Import Prelude.
From S2P Require Import Protocol.
From S2P Require Import Resources.
From S2P Require Import NativeControl.
From S2P Require Import NativeControlSpec.
From S2P Require Import NativeControlSections.
From S2P Require Import NativeControlAdmission.
From S2P Require Import NativeOwnerTurn.
From S2P Require Import NativeControlSteps.
From S2P Require Import NativeControlHandoff.
Local Open Scope N_scope.

(** A caller of an asynchronous entry point that holds its funded payload. *)
Inductive Waiting :=
  | WaitInput (d : bytes) (permit : N)
  | WaitRecoverable (key : InputOperationKey) (request : InputOperationRequest).
Definition waiting_memory (x : Waiting) : N :=
  match x with WaitInput _ p => p | WaitRecoverable _ r => default 0 (request_memory r) end.

Record Sys := {
  s_entry : NativeEntry;
  s_wire : bytes;
  s_payloads : gmap N bytes;
  s_waiting : list Waiting;
  s_outside : N;
}.
Definition s_control (s : Sys) : Control := control (s_entry s).
Definition others_of (s : Sys) : N := s_outside s + sumN waiting_memory (s_waiting s).

Inductive Req :=
  | ReqInput (immediate : bool) (d : bytes)
  | ReqRecoverable (immediate : bool) (key : InputOperationKey) (expected : N) (d : bytes)
  | ReqResume (i : nat)
  | ReqAbandon (i : nat)
  | ReqSignal (foreground_group : option N)
  | ReqStop
  | ReqResize (pty : PtyAnswer)
  | ReqCleanup
  | ReqWrite (k : WriteResult) (max_bytes commands size : N)
  | ReqEntry (o : EntryOp)
  | ReqMarkClosed
  | ReqBind
  | ReqDetach
  | ReqReserve (n : N)
  | ReqRelease (n : N).

Definition with_control (c : Control) (s : Sys) : Sys :=
  {| s_entry := with_lifecycle (lifecycle (s_entry s)) c (s_entry s); s_wire := s_wire s;
     s_payloads := s_payloads s; s_waiting := s_waiting s; s_outside := s_outside s |}.
Definition with_payloads (ds : gmap N bytes) (s : Sys) : Sys :=
  {| s_entry := s_entry s; s_wire := s_wire s; s_payloads := ds; s_waiting := s_waiting s;
     s_outside := s_outside s |}.
Definition with_waiting (ws : list Waiting) (s : Sys) : Sys :=
  {| s_entry := s_entry s; s_wire := s_wire s; s_payloads := s_payloads s; s_waiting := ws;
     s_outside := s_outside s |}.
Definition with_outside (n : N) (s : Sys) : Sys :=
  {| s_entry := s_entry s; s_wire := s_wire s; s_payloads := s_payloads s;
     s_waiting := s_waiting s; s_outside := n |}.
Definition with_wire (d : bytes) (s : Sys) : Sys :=
  {| s_entry := s_entry s; s_wire := s_wire s ++ d; s_payloads := s_payloads s;
     s_waiting := s_waiting s; s_outside := s_outside s |}.
Definition with_entry (e : NativeEntry) (s : Sys) : Sys :=
  {| s_entry := e; s_wire := s_wire s; s_payloads := s_payloads s; s_waiting := s_waiting s;
     s_outside := s_outside s |}.

Section system.
Context `{!UuidDisplay, !ControlLayout}.

Definition run_section {A} (m : CM A) (s : Sys) (k : A → Sys → Sys) : outcome Sys :=
  let! '(c, r) := m (s_control s) in
  Ret (let s := with_control c s in match r with Ok a => k a s | Err _ => s end).

(** A pending recoverable call is a new payload only when its channel is new. *)
Definition note_pending (before : Control) (d : bytes) (p : PendingRecoverableInput) (s : Sys) : Sys :=
  match p with
  | WaitingInput ch => with_payloads (record_payload ch d before (s_payloads s)) s
  | ReadyInput _ => s
  end.

Definition sys_step (late : option NativeServiceFailure) (r : Req) (s : Sys) : outcome Sys :=
  match r with
  | ReqInput immediate d =>
      run_section (begin_input_async immediate late d) s (λ a s,
        match a with
        | inl ch => with_payloads (<[ch := d]> (s_payloads s)) s
        | inr permit => with_waiting (s_waiting s ++ [WaitInput d permit]) s
        end)
  | ReqRecoverable immediate key expected d =>
      run_section (begin_recoverable_input_async immediate late key expected d) s (λ a s',
        match a with
        | inl p => note_pending (s_control s) d p s'
        | inr request => with_waiting (s_waiting s' ++ [WaitRecoverable key request]) s'
        end)
  | ReqResume i =>
      match s_waiting s !! i with
      | Some (WaitInput d p) =>
          run_section (with_guard late (begin_input_locked d (Some p)))
            (with_waiting (delete i (s_waiting s)) s)
            (λ ch s, with_payloads (<[ch := d]> (s_payloads s)) s)
      | Some (WaitRecoverable key request) =>
          run_section (with_guard late (begin_recoverable_input_locked key request))
            (with_waiting (delete i (s_waiting s)) s)
            (λ p s', note_pending (s_control s) (request_data request) p s')
      | None => Ret s
      end
  | ReqAbandon i =>
      match s_waiting s !! i with
      | Some x => Ret (with_control (drop_memory (Some (waiting_memory x)) (s_control s))
                        (with_waiting (delete i (s_waiting s)) s))
      | None => Ret s
      end
  | ReqSignal fg => run_section (with_guard late (begin_signal_locked Interrupt fg)) s (λ _ s, s)
  | ReqStop => run_section (with_guard late begin_stop_locked) s (λ _ s, s)
  | ReqResize pty => run_section (with_guard late (resize_locked pty)) s (λ _ s, s)
  | ReqCleanup =>
      let! '(c, _, _) := cleanup_unpublished late (s_control s) in Ret (with_control c s)
  | ReqWrite k max_bytes commands size =>
      let! '(c, out, _) := progress_turn k late max_bytes commands size (s_control s) in
      Ret (with_wire out (with_control c s))
  | ReqEntry o => let! e := entry_step o late (s_entry s) in Ret (with_entry e s)
  | ReqMarkClosed => let! c := mark_closed late (s_control s) in Ret (with_control c s)
  | ReqBind => let! c := bind_service late (s_control s) in Ret (with_control c s)
  | ReqDetach => Ret (with_control (detach_writer (s_control s)) s)
  | ReqReserve n =>
      let '(b, permit) := ByteBudget.reserve n (control_budget (s_control s)) in
      Ret (with_outside (s_outside s + default 0 permit) (with_control (set_budget b (s_control s)) s))
  | ReqRelease n =>
      if decide (n ≤ s_outside s) then
        Ret (with_outside (s_outside s - n) (with_control (drop_memory (Some n) (s_control s)) s))
      else Ret s
  end.

(** What the callers promise: frames fit u32 (the protocol's frame limit), a write
    never reports more than it was offered, one service binding, and the owner
    turns over a Run only before it recorded its own loss. *)
Definition enabled (late : option NativeServiceFailure) (r : Req) (s : Sys) : Prop :=
  match r with
  | ReqInput _ d | ReqRecoverable _ _ _ d => len d ≤ u32_max
  | ReqWrite k max_bytes _ size => write_fits k (max_bytes - size) (s_control s)
  | ReqEntry o => step_allowed o late (s_entry s)
  | ReqBind => service_bound (s_control s) = false
  | _ => True
  end.

Definition waiting_ok (x : Waiting) : Prop :=
  match x with
  | WaitInput d _ => len d ≤ u32_max
  | WaitRecoverable key r =>
      len (request_data r) ≤ u32_max ∧ request_data r ≠ [] ∧ input_key_validate key = Ok tt
  end.

Record sys_inv (a0 : N) (s : Sys) : Prop := {
  si_entry : entry_inv a0 (others_of s) (s_wire s) (s_payloads s) (s_entry s);
  si_waiting : Forall waiting_ok (s_waiting s);
}.

Definition next (s s' : Sys) : Prop :=
  ∃ late r, enabled late r s ∧ sys_step late r s = Ret s'.
Definition start (id : RunId) (l : ResourceLimits) (b : ByteBudget.t) (size : option TerminalSize)
    (writer : bool) (h : HandoffInputState) (closed : bool) : Sys :=
  {| s_entry := {| control := adopted_control id l b size writer h closed;
                   reap := ReapPending None None; lifecycle := Watching None |};
     s_wire := []; s_payloads := ∅; s_waiting := [];
     s_outside := ByteBudget.used b + default 0 (adopted_permit h) |}.

Section steps.
Context (a0 : N).

(** ** The entry points *)

Lemma guarded_input_ok others w ds c d m late :
  mid a0 (others + default 0 m) w ds c [] [] → presettled c → len d ≤ u32_max →
  wp (with_guard late (begin_input_locked d m)) c (λ c' r, later c c' ∧
    match r with
    | Ok ch => inv a0 others w (<[ch := d]> ds) c'
    | Err f => refusal f ∧ inv a0 others w ds c'
    end).
Proof.
  intros Hm Hp Hd. eapply wp_mono.
  - eapply with_guard_ok; [by apply begin_input_locked_ok|by intros ? ? (? & ? & _)|].
    intros c' [ch|f] (_ & _ & [_ ?]); eauto.
  - intros c' r (Hl & c1 & (_ & _ & Hr) & Hi). split; [done|].
    destruct r as [ch|f]; destruct Hr; auto.
Qed.

Lemma guarded_recoverable_ok others w ds c key request late :
  mid a0 (others + default 0 (request_memory request)) w ds c [] [] → presettled c →
  len (request_data request) ≤ u32_max → request_data request ≠ [] →
  input_key_validate key = Ok tt →
  wp (with_guard late (begin_recoverable_input_locked key request)) c (λ c' r, later c c' ∧
    match r with
    | Ok (WaitingInput ch) => inv a0 others w (record_payload ch (request_data request) c ds) c'
    | Ok (ReadyInput _) => inv a0 others w ds c'
    | Err f => refusal f ∧ inv a0 others w ds c'
    end).
Proof.
  intros Hm Hp Hlen Hne Hkey. eapply wp_mono.
  - eapply with_guard_ok; [by apply begin_recoverable_input_locked_ok|by intros ? ? (? & ? & _)|].
    intros c' [[r|ch]|f] (_ & _ & Hr); eauto. destruct Hr; eauto.
  - intros c' r (Hl & c1 & (_ & _ & Hr) & Hi). split; [done|].
    destruct r as [[r|ch]|f]; [auto|auto|destruct Hr; auto].
Qed.

Lemma funded_ok others w ds c size f (Q : Control → result N ControlFailure → Prop) :
  inv a0 others w ds c →
  (∀ b p, inv a0 (others + p) w ds (set_budget b c) → Q (set_budget b c) (Ok p)) → Q c (Err f) →
  wp (fund None size f) c Q.
Proof.
  intros [Hm [Hp Ho]] H1 H2. eapply (wp_fund a0 others); [|exact Hp| |done].
  - by rewrite N.add_0_r.
  - intros b p c' Hm' Hp'. apply H1. split; [done|by split].
Qed.

Lemma budget_later c b : later c (set_budget b c).
Proof. constructor; auto; try lia. exists []. by rewrite app_nil_r. Qed.

Lemma begin_input_async_ok others w ds c immediate late d :
  inv a0 others w ds c → len d ≤ u32_max →
  wp (begin_input_async immediate late d) c (λ c' r, later c c' ∧
    match r with
    | Ok (inl ch) => inv a0 others w (<[ch := d]> ds) c'
    | Ok (inr p) => inv a0 (others + p) w ds c'
    | Err f => refusal f ∧ inv a0 others w ds c'
    end).
Proof.
  intros Hi Hd. unfold begin_input_async. rewrite wp_bind.
  apply wp_ensure_owner; [intros _|intros; by split_and!]. destruct immediate; rewrite wp_bind.
  - eapply wp_mono; [apply guarded_input_ok; [rewrite N.add_0_r; apply Hi|apply Hi|done]|].
    intros c' [ch|f] [Hl Hr]; wp_simp; auto.
  - eapply funded_ok; [exact Hi| |by split_and!].
    intros b p Hi'. wp_simp. split; [apply budget_later|done].
Qed.

Lemma input_request_Ok key expected d request :
  input_request key expected d = Ok request →
  input_key_validate key = Ok tt ∧ d ≠ [] ∧
  request = {| request_memory := None; expected_byte := expected; request_data := d |}.
Proof.
  unfold input_request. rewrite result_bind_Ok.
  intros ([] & Hk%map_err_Ok & Hd). rewrite if_decide_Ok in Hd. by destruct Hd as [? [= <-]].
Qed.
Lemma input_request_Err key expected d f : input_request key expected d = Err f → refusal f.
Proof.
  unfold input_request. destruct (input_key_validate key); simpl; [|by intros [= <-]].
  case_decide; [by intros [= <-]|done].
Qed.

Lemma begin_recoverable_input_async_ok others w ds c immediate late key expected d :
  inv a0 others w ds c → len d ≤ u32_max →
  wp (begin_recoverable_input_async immediate late key expected d) c (λ c' r, later c c' ∧
    match r with
    | Ok (inl (WaitingInput ch)) => inv a0 others w (record_payload ch d c ds) c'
    | Ok (inl (ReadyInput _)) => inv a0 others w ds c'
    | Ok (inr request) => waiting_ok (WaitRecoverable key request) ∧
        inv a0 (others + default 0 (request_memory request)) w ds c'
    | Err f => inv a0 others w ds c'
    end).
Proof.
  intros Hi Hd. unfold begin_recoverable_input_async. wp_simp.
  destruct (input_request key expected d) as [request|f] eqn:Hreq; [|done].
  apply input_request_Ok in Hreq as (Hkey & Hne & ->). destruct immediate; wp_simp.
  - eapply wp_mono; [apply guarded_recoverable_ok; [rewrite N.add_0_r; apply Hi|apply Hi|done..]|].
    intros c' [[r|ch]|f] [Hl Hr]; wp_simp; auto. by destruct Hr.
  - eapply funded_ok; [exact Hi| |by split_and!].
    intros b p Hi'. wp_simp. split; [apply budget_later|]. by split_and!.
Qed.

(** ** One step *)

Definition step_ok (s : Sys) (o : outcome Sys) : Prop :=
  ∃ s', o = Ret s' ∧ sys_inv a0 s' ∧ onward (s_control s) (s_control s').

Lemma control_step others others' w w' ds ds' e c' :
  entry_inv a0 others w ds e → later (control e) c' → inv a0 others' w' ds' c' →
  entry_inv a0 others' w' ds' (with_lifecycle (lifecycle e) c' e).
Proof. intros [H1 H2 H3] Hl Hi. constructor; [exact Hi|by eapply later_owed|exact H3]. Qed.

Lemma section_step_ok {A} (m : CM A) s0 s k :
  s_entry s = s_entry s0 → (∃ o w ds, entry_inv a0 o w ds (s_entry s)) →
  wp m (s_control s) (λ c' r, later (s_control s) c' ∧
    let s' := match r with Ok a => k a (with_control c' s) | Err _ => with_control c' s end in
    s_entry s' = s_entry (with_control c' s) ∧ Forall waiting_ok (s_waiting s') ∧
    inv a0 (others_of s') (s_wire s') (s_payloads s') c') →
  step_ok s0 (run_section m s k).
Proof.
  intros He (o & w & ds & Hinv) (c' & r & Hm & Hl & Hs & Hw & Hi)%wp_elim.
  unfold run_section. rewrite Hm. cbn [obind]. eexists. split; [done|].
  set (s' := match r with Ok a => k a (with_control c' s) | Err _ => _ end) in *.
  split; [constructor|].
  - rewrite Hs. by eapply control_step.
  - exact Hw.
  - unfold s_control in *. rewrite Hs, <- He. by apply later_onward.
Qed.

Lemma plain_step_ok s c' :
  sys_inv a0 s → later (s_control s) c' → inv a0 (others_of s) (s_wire s) (s_payloads s) c' →
  sys_inv a0 (with_control c' s) ∧ onward (s_control s) (s_control (with_control c' s)).
Proof.
  intros [He Hw] Hl Hi. split; [|by apply later_onward].
  constructor; [by eapply control_step|exact Hw].
Qed.

Lemma wp_section_ok {A} (m : CM A) s late :
  sys_inv a0 s →
  wp m (s_control s) (section_ok a0 (others_of s) (s_wire s) (s_payloads s) (s_control s)) →
  step_ok s (run_section (with_guard late m) s (λ _ s, s)).
Proof.
  intros [He Hw] Hm. apply section_step_ok; [done|by eexists _, _, _|].
  eapply wp_mono; [by apply (guarded_section_ok a0 _ _ _ _ late _ Hm)|].
  intros c' [a|f] [Hl Hi]; by split_and!.
Qed.

Lemma waiting_split s i x :
  s_waiting s !! i = Some x →
  others_of s = others_of (with_waiting (delete i (s_waiting s)) s) + waiting_memory x ∧
  (Forall waiting_ok (s_waiting s) → waiting_ok x ∧ Forall waiting_ok (delete i (s_waiting s))).
Proof.
  intros Hx. unfold others_of. simpl.
  pose proof (delete_Permutation _ _ _ Hx) as Hp. split.
  - rewrite Hp at 1. rewrite sumN_cons. lia.
  - rewrite Hp at 1. by intros ?%Forall_cons.
Qed.

Lemma input_step_ok s immediate d late :
  sys_inv a0 s → len d ≤ u32_max → step_ok s (sys_step late (ReqInput immediate d) s).
Proof.
  intros [He Hw] Hd. apply section_step_ok; [done|by eexists _, _, _|].
  eapply wp_mono; [by apply begin_input_async_ok; [apply He|]|].
  intros c' [[ch|p]|f] [Hl Hi]; (split; [done|]); cbn zeta.
  - by split_and!.
  - split_and!; [done|apply Forall_app; split; [done|by constructor]|].
    unfold others_of in *. simpl. rewrite sumN_app, sumN_cons, sumN_nil. simpl.
    by rewrite N.add_0_r, N.add_assoc.
  - destruct Hi as [_ Hi]. by split_and!.
Qed.

Lemma recoverable_step_ok s immediate key expected d late :
  sys_inv a0 s → len d ≤ u32_max →
  step_ok s (sys_step late (ReqRecoverable immediate key expected d) s).
Proof.
  intros [He Hw] Hd. apply section_step_ok; [done|by eexists _, _, _|].
  eapply wp_mono; [by apply begin_recoverable_input_async_ok; [apply He|]|].
  intros c' [[[r|ch]|request]|f] [Hl Hi]; (split; [done|]); cbn zeta; [by split_and!..| |by split_and!].
  destruct Hi as [Hok Hi]. split_and!; [done|apply Forall_app; split; [done|by constructor]|].
  unfold others_of in *. simpl. rewrite sumN_app, sumN_cons, sumN_nil. simpl.
  by rewrite N.add_0_r, N.add_assoc.
Qed.

Lemma resume_step_ok s i late :
  sys_inv a0 s → step_ok s (sys_step late (ReqResume i) s).
Proof.
  intros [He Hw]. cbn [sys_step]. destruct (s_waiting s !! i) as [x|] eqn:Hx; [|by exists s].
  destruct (waiting_split _ _ _ Hx) as [Hsum Hrest]. destruct (Hrest Hw) as [Hxok Hw'].
  rewrite Hsum in He. destruct x as [d p|key request]; simpl in Hxok, He;
    (apply section_step_ok; [done|by eexists _, _, _|]).
  - eapply wp_mono; [eapply guarded_input_ok; [exact (proj1 (e_control _ _ _ _ _ He))|
      apply (e_control _ _ _ _ _ He)|exact Hxok]|].
    intros c' [ch|f] [Hl Hi]; (split; [done|]); cbn zeta; [|destruct Hi as [_ Hi]]; by split_and!.
  - destruct Hxok as (H1 & H2 & H3).
    eapply wp_mono; [eapply guarded_recoverable_ok; [exact (proj1 (e_control _ _ _ _ _ He))|
      apply (e_control _ _ _ _ _ He)|done..]|].
    intros c' [[r|ch]|f] [Hl Hi]; (split; [done|]); cbn zeta; [| |destruct Hi as [_ Hi]]; by split_and!.
Qed.

Lemma abandon_step_ok s i late : sys_inv a0 s → step_ok s (sys_step late (ReqAbandon i) s).
Proof.
  intros [He Hw]. cbn [sys_step]. destruct (s_waiting s !! i) as [x|] eqn:Hx; [|by exists s].
  destruct (waiting_split _ _ _ Hx) as [Hsum Hrest]. destruct (Hrest Hw) as [_ Hw'].
  eexists. split; [done|]. split; [constructor|].
  - eapply control_step; [exact He|apply drop_later|]. rewrite Hsum in He. destruct (e_control _ _ _ _ _ He).
    split; [by apply (drop_mid a0 _ _ _ _ _ _ (Some (waiting_memory x)))|by apply drop_settled].
  - exact Hw'.
  - simpl. apply later_onward, (drop_later _ (Some (waiting_memory x))).
Qed.

Lemma done_step_ok s o :
  sys_inv a0 s → done_ok a0 (others_of s) (s_wire s) (s_payloads s) (s_control s) o →
  step_ok s (let! c := o in Ret (with_control c s)).
Proof.
  intros Hs (c' & -> & Hi & Hl). cbn [obind]. eexists. split; [done|]. by apply plain_step_ok.
Qed.

Lemma outside_step_ok s n c' :
  sys_inv a0 s → later (s_control s) c' →
  inv a0 (n + sumN waiting_memory (s_waiting s)) (s_wire s) (s_payloads s) c' →
  step_ok s (Ret (with_outside n (with_control c' s))).
Proof.
  intros [He Hw] Hl Hi. eexists. split; [done|]. split; [constructor|by apply later_onward].
  - by eapply control_step.
  - exact Hw.
Qed.

Lemma reserve_step_ok s n late : sys_inv a0 s → step_ok s (sys_step late (ReqReserve n) s).
Proof.
  intros Hs. pose proof (si_entry _ _ Hs) as He. pose proof (e_control _ _ _ _ _ He) as [Hm [Hp Ho]].
  cbn [sys_step]. rewrite ByteBudget.reserve_spec. unfold others_of in *. unfold s_control in *.
  destruct Hm as [(G & Hk & Hw & Hd & Ht) Hsh].
  pose proof (k_budget _ _ _ _ _ _ _ Hk) as (H1 & H2 & H3).
  case_decide as Hroom; apply outside_step_ok; try done; try apply budget_later;
    (split; [split; [exists G; split_and!; try done|by destruct Hsh; constructor]|by split;
       [destruct Hp; constructor|]]); eapply core_budget; try exact Hk; simpl; lia.
Qed.

(** The invariant is kept and no section panics. *)
Lemma sys_step_ok s late r :
  sys_inv a0 s → enabled late r s → step_ok s (sys_step late r s).
Proof.
  intros Hs Hen. pose proof (si_entry _ _ Hs) as He. pose proof (e_control _ _ _ _ _ He) as Hi.
  destruct r as [imm d|imm key x d|i|i|fg| |pty| |k mb cs sz|o| | | |n|n].
  - by apply input_step_ok.
  - by apply recoverable_step_ok.
  - by apply resume_step_ok.
  - by apply abandon_step_ok.
  - apply wp_section_ok; [done|]. apply begin_signal_locked_ok; apply Hi.
  - apply wp_section_ok; [done|]. apply begin_stop_locked_ok; apply Hi.
  - apply wp_section_ok; [done|]. apply resize_locked_ok; apply Hi.
  - cbn [sys_step]. destruct (cleanup_unpublished_ok a0 _ _ _ _ late Hi) as (c' & r & e & Hc & Hi' & Hl).
    unfold s_control. rewrite Hc. cbn [obind]. eexists. split; [done|]. by apply plain_step_ok.
  - cbn [sys_step]. destruct (progress_turn_ok a0 _ _ _ _ k late mb cs sz Hi Hen)
      as (c' & out & e & Hc & Hi' & Hl & _).
    unfold s_control. rewrite Hc. cbn [obind]. eexists. split; [done|].
    split; [constructor|by apply later_onward]; [by eapply control_step|apply Hs].
  - cbn [sys_step]. destruct (entry_step_ok a0 _ _ _ _ o late He Hen) as (e' & -> & He' & Ho).
    cbn [obind]. eexists. split; [done|]. split; [|exact Ho]. constructor; [exact He'|apply Hs].
  - cbn [sys_step]. apply done_step_ok; [done|]. by apply mark_closed_ok.
  - cbn [sys_step]. apply done_step_ok; [done|]. by apply bind_service_ok.
  - destruct (detach_ok a0 _ _ _ _ Hi) as [? ?]. eexists. split; [done|]. by apply plain_step_ok.
  - by apply reserve_step_ok.
  - cbn [sys_step]. case_decide as Hn; [|by exists s].
    apply outside_step_ok; [done|apply drop_later|]. unfold others_of in *.
    replace (s_outside s + _) with
      (s_outside s - n + sumN waiting_memory (s_waiting s) + default 0 (Some n)) in Hi by (simpl; lia).
    destruct Hi. split; [by apply (drop_mid a0 _ _ _ _ _ _ (Some n))|by apply drop_settled].
Qed.
End steps.

Lemma start_inv id l b size writer h closed :
  handoff_wf l h → handoff_applied h ≤ u64_max →
  ByteBudget.used b + handoff_charge h ≤ ByteBudget.limit b → ByteBudget.limit b ≤ u64_max →
  sys_inv (handoff_applied h) (start id l b size writer h closed).
Proof.
  intros Hwf Ha Hroom Hlim. constructor; [|constructor]. constructor.
  - unfold others_of, start. simpl. rewrite N.add_0_r. by apply adopted_control_inv.
  - by apply none_owed.
  - intros _. by eexists _, _.
Qed.

(** Reachable states satisfy the invariant. *)
Lemma reach_inv a0 s s' : rtc next s s' → sys_inv a0 s → sys_inv a0 s' ∧
  onward (s_control s) (s_control s').
Proof.
  induction 1 as [s|s s1 s' (late & r & Hen & Hstep) _ IH]; intros Hs; [done|].
  destruct (sys_step_ok a0 s late r Hs Hen) as (s2 & Heq & Hs2 & Ho2).
  rewrite Hstep in Heq. injection Heq as <-. destruct (IH Hs2) as [? ?]. split; [done|by etrans].
Qed.
End system.
