(* ===== verification/NativeControlDrain.v ===== *)
(** * Native control: the drain answers everything

    When nobody interferes and the kernel takes what it is offered, one
    [progress_input] empties the queue.  And [progress_input] always ends. *)

From S2P Require Import Prelude.
From S2P Require Import Protocol.
From S2P Require Import Resources.
From S2P Require Import NativeControl.
From S2P Require Import NativeControlSpec.
From S2P Require Import NativeControlSections.
From S2P Require Import NativeControlSteps.
Local Open Scope N_scope.

Section drain.
Context `{!UuidDisplay, !ControlLayout}.
Context (a0 : N).
Implicit Types (others : N) (w : bytes) (ds : gmap N bytes) (c : Control).

(** A healthy lane whose owner is not lost. *)
Record idle (q : list InputCommand) (c : Control) : Prop := {
  i_running : running c;
  i_owner : inner_failure c = None;
  i_queue : input_queue (lane (state c)) = q;
}.

Lemma idle_release c : inner_failure c = None → release_guard (lose_owner None c) = Ret c.
Proof.
  intros Hi. unfold lose_owner. rewrite Hi. replace (set_inner_failure None c) with c.
  - unfold release_guard, settle_owner_loss. by rewrite Hi.
  - destruct c. simpl in *. by subst.
Qed.

Lemma idle_same q c c' :
  state c' = state c → inner_failure c' = inner_failure c → idle q c → idle q c'.
Proof. intros H1 H2 [[] H3 H4]. constructor; [constructor|..]; by rewrite ?H1, ?H2. Qed.
Lemma publish_idle q c : idle q c → idle q (publish_input c).
Proof. apply idle_same; [apply publish_state|apply publish_fields]. Qed.

Lemma resolve_state r res c c' : resolve_input_reply r res c = Ret c' →
  state c' = state c ∧ inner_failure c' = inner_failure c.
Proof.
  unfold resolve_input_reply.
  destruct (match r with Legacy _ => _ | Recoverable _ _ => _ end); simpl; [|done].
  by intros [= <-].
Qed.

Lemma refuse_front_idle others w ds c front queue expected c' :
  inv a0 others w ds c → idle (front :: queue) c → confirmed front = 0 →
  refuse_front front queue expected None c = Ret c' → idle queue c'.
Proof.
  intros [[(G & Hk & Hw & Hd & _) _] _] [Hrun Hi Hq] Hz. unfold refuse_front.
  rewrite bool_decide_eq_true_2 by done. cbn [obind check].
  change (len (command_data front)) with (data_len front).
  rewrite (release_capacity_ok _ _ _ _ _ _ Hk Hq). cbn [obind].
  set (f := λ c : Control, not_applied (protocol_error InputCursorMismatch
    ("Run " +:+ show_run_id (control_run c) +:+ " applied-input cursor is " +:+
     pretty (applied_input_bytes (lane (state c))) +:+ ", not expected " +:+ pretty expected +:+
     ", or exhausted"))).
  destruct (pop_refused_ok _ _ _ _ _ _ (f c) Hk Hq Hz) as (c1 & -> & _ & Hf & Hq1 & Hi1); [done|].
  cbn [obind].
  assert (Hidle : idle queue (publish_input c1)).
  { apply publish_idle. destruct Hf, Hrun. constructor; [constructor|..]; congruence. }
  rewrite (idle_release _ (i_owner _ _ Hidle)). cbn [obind].
  destruct (resolve_input_reply _ _ _) as [c2|] eqn:Hres; [|done]. cbn [obind]. intros [= <-].
  apply resolve_state in Hres as [H1 H2]. eapply idle_same; [| |exact Hidle].
  - rewrite <- H1. by destruct (command_memory front).
  - rewrite <- H2. by destruct (command_memory front).
Qed.

Lemma obind_assoc_drain {A B C} (o : outcome A) (f : A → outcome B) (k : B → outcome C) :
  obind (obind o f) k = obind o (λ x, obind (f x) k).
Proof. by destruct o. Qed.

Lemma complete_front_idle others w ds c front queue e c' :
  mid a0 others w ds c [] [] → idle (front :: queue) c → confirmed front = data_len front →
  cursor_ok (lane (state c)) (ledger (state c)) front →
  e = applied_input_bytes (lane (state c)) + data_len front → e ≤ u64_max →
  complete_front front queue e None c = Ret c' → idle queue c'.
Proof.
  intros [(G & Hk & Hw & Hd & _) _] [Hrun Hi Hq] Hall Hcur He Hmax.
  destruct (complete_pop_ok _ _ _ _ _ _ _ Hk Hq (r_healthy _ Hrun) Hall Hcur He Hmax) as [Hpop _].
  unfold complete_front. change (len (command_data front)) with (data_len front).
  cbn zeta. cbn zeta in Hpop. change (applied_input_bytes (lane (state (upd_lane (set_head queue) c))))
    with (applied_input_bytes (lane (state c))).
  rewrite <- obind_assoc_drain. rewrite Hpop. cbn [obind].
  match goal with |- obind (release_guard (lose_owner None ?c1)) _ = _ → _ =>
    assert (Hidle : idle queue c1) end.
  { apply publish_idle. destruct Hrun. by constructor. }
  rewrite (idle_release _ (i_owner _ _ Hidle)). cbn [obind].
  destruct (resolve_input_reply _ _ _) as [c2|] eqn:Hres; [|done]. cbn [obind]. intros [= <-].
  apply resolve_state in Hres as [H1 H2]. eapply idle_same; [| |exact Hidle].
  - rewrite <- H1. by destruct (command_memory front).
  - rewrite <- H2. by destruct (command_memory front).
Qed.

(** The turn takes the head off, or fails the lane and with it the whole queue. *)
Definition full_turn (others : N) (w : bytes) (ds : gmap N bytes) (queue : list InputCommand)
    (commands size n : N) (o : outcome (Control * bytes * TurnEnd)) : Prop :=
  ∃ c' out e, o = Ret (c', out, e) ∧ inv a0 others (w ++ out) ds c' ∧
    ((∃ size', e = TurnContinue (commands + 1) size' ∧ size' ≤ size + n ∧ idle queue c') ∨
     (e = TurnReturn ∧ input_queue (lane (state c')) = [])).

Lemma full_fail others w ds c front queue kind detail commands size n :
  inv a0 others w ds c → idle (front :: queue) c → confirmed front ≤ data_len front →
  cursor_ok (lane (state c)) (ledger (state c)) front →
  full_turn others w ds queue commands size n
    (let! c := fail_front front queue kind detail None c in Ret (c, [], TurnReturn)).
Proof.
  intros Hinv [Hrun Hi Hq] Hle Hcur.
  destruct (fail_front_mid a0 _ _ _ _ _ _ kind detail None Hinv Hrun Hq Hle Hcur)
    as (c1 & -> & Hinv1 & _ & Hfail). cbn [obind].
  eexists _, _, _. split_and!; [done|by rewrite app_nil_r|]. right. split; [done|].
  destruct Hinv1 as [_ [[Hfenced _ _] _]]. apply Hfenced. auto.
Qed.

Lemma full_write others w ds c front queue n commands size :
  inv a0 others w ds c → idle (front :: queue) c → confirmed front + n = data_len front →
  cursor_ok (lane (state c)) (ledger (state c)) front →
  applied_input_bytes (lane (state c)) + data_len front ≤ u64_max →
  full_turn others w ds queue commands size (data_len front)
    (let c := write_at_front n front queue c in
     let emitted := takeN n (dropN (confirmed front) (command_data front)) in
     if decide (confirmed front + n ≠ data_len front) then
       let! c := release_guard (lose_owner None (publish_input c)) in
       Ret (c, emitted, TurnContinue commands (size + n))
     else
       let! c := complete_front front queue
                   (applied_input_bytes (lane (state c)) + data_len front) None c in
       Ret (c, emitted, TurnContinue (commands + 1) (size + n))).
Proof.
  intros Hinv [Hrun Hi Hq] Hall Hcur Hmax. pose proof (proj1 Hinv) as Hm.
  assert (Hle : confirmed front + n ≤ data_len front) by lia.
  destruct (write_at_front_mid a0 _ _ _ _ _ _ n Hm Hrun Hq Hle Hcur Hmax) as (Hm1 & Hrun1 & _).
  cbn zeta. set (c1 := write_at_front n front queue c) in *.
  rewrite decide_False by (intros Hne; by apply Hne).
  change (complete_front front) with (complete_front (advance n front)).
  assert (Hcur1 : cursor_ok (lane (state c1)) (ledger (state c1)) (advance n front)).
  { intros k ch r Hr Hin. by apply (Hcur k ch r). }
  destruct (complete_front_mid a0 others _ ds c1 (advance n front) queue
    (applied_input_bytes (lane (state c1)) + data_len front) None Hm1 Hrun1)
    as (c2 & Hc2 & Hinv2 & _); [done..|].
  rewrite Hc2. cbn [obind]. eexists _, _, _. split_and!; [done|exact Hinv2|]. left.
  eexists. split_and!; [done|lia|].
  eapply complete_front_idle; [exact Hm1| |..|exact Hc2]; done.
Qed.

Lemma full_progress_turn others w ds c front queue max_bytes commands size :
  inv a0 others w ds c → idle (front :: queue) c → size + data_len front ≤ max_bytes →
  full_turn others w ds queue commands size (data_len front)
    (progress_turn (Wrote (data_len front - confirmed front)) None max_bytes commands size c).
Proof.
  intros Hinv Hidle Hroom. pose proof Hidle as [Hrun Hi Hq].
  unfold progress_turn. rewrite Hq.
  rewrite decide_False by (intros [Ho|[[y Hy]|[y Hy]]]; [by apply Ho, Hrun
    |rewrite (r_healthy _ Hrun) in Hy; done|rewrite Hi in Hy; done]).
  pose proof Hinv as [[(G & Hk & Hw & Hd & Ht) Hsh] Hset].
  destruct (expected_cursor_ok a0 _ _ _ _ _ Hk Hq) as (x & -> & Hcur & Hpart & Hle). cbn [obind].
  assert (Hrefuse : confirmed front = 0 → full_turn others w ds queue commands size (data_len front)
    (let! c := refuse_front front queue x None c in Ret (c, [], TurnContinue (commands + 1) size))).
  { intros Hz.
    destruct (refuse_front_mid a0 _ _ _ _ _ _ x None Hinv Hrun Hq Hz) as (c1 & Hc1 & Hi1 & _).
    rewrite Hc1. cbn [obind]. eexists _, _, _. split_and!; [done|by rewrite app_nil_r|]. left.
    eexists. split_and!; [done|lia|].
    exact (refuse_front_idle _ _ _ _ _ _ _ _ Hinv Hidle Hz Hc1). }
  change (len (command_data front)) with (data_len front).
  assert (Hzero : x ≠ applied_input_bytes (lane (state c)) ∨
    ¬ applied_input_bytes (lane (state c)) + data_len front ≤ u64_max → confirmed front = 0).
  { intros Hc. destruct (decide (confirmed front = 0)) as [?|Hne]; [done|].
    apply Hpart in Hne as [? ?]. destruct Hc; done. }
  destruct (decide (x = _)) as [Hx|Hx]; [|apply Hrefuse; auto].
  destruct (checked_add _ _) as [e|] eqn:He; [apply checked_add_Some in He as [-> Hmax]|].
  2: { apply Hrefuse, Hzero. right. intros Hmax. unfold checked_add in He.
       by rewrite decide_True in He. }
  specialize (Hcur Hx). rewrite N.min_l by lia. case_decide as Hlen.
  - case_decide as Hempty; [|by apply full_fail].
    rewrite bool_decide_eq_true_2 by lia. cbn [obind check].
    apply full_write; [done|done| |done|done].
    destruct Hempty as [?|Hnil]; [lia|]. assert (data_len front = 0) by (unfold data_len; by rewrite Hnil). lia.
  - destruct (writer_open c); [|by apply full_fail].
    rewrite decide_True by (left; lia).
    rewrite bool_decide_eq_true_2 by lia. cbn [obind check]. apply full_write; try done. lia.
Qed.

Lemma progress_input_S fuel busy k late kernel max_commands max_bytes commands size c :
  progress_input (S fuel) ((busy, k, late) :: kernel) max_commands max_bytes commands size c =
  if decide (commands < max_commands ∧ size < max_bytes) then
    if (busy : bool) then Ret (c, []) else
    let! '(c, emitted, e) := progress_turn k late max_bytes commands size c in
    match e with
    | TurnReturn => Ret (c, emitted)
    | TurnContinue commands size =>
        let! '(c, rest) := progress_input fuel kernel max_commands max_bytes commands size c in
        Ret (c, (emitted ++ rest)%list)
    end
  else Ret (c, []).
Proof. done. Qed.

(** The writes a willing kernel answers with, one for each queued command. *)
Definition willing (q : list InputCommand) : list (bool * WriteResult * option NativeServiceFailure) :=
  (map (λ cmd, (false, Wrote (data_len cmd - confirmed cmd), None)) q ++ [(false, WouldBlock, None)])%list.

Lemma drain_ok max_commands max_bytes others ds q : ∀ w c commands size,
  inv a0 others w ds c → idle q c → commands + len q < max_commands →
  size + sumN data_len q < max_bytes →
  ∃ c' out, progress_input (S (length q)) (willing q) max_commands max_bytes commands size c
              = Ret (c', out) ∧
    inv a0 others (w ++ out) ds c' ∧ input_queue (lane (state c')) = [].
Proof.
  induction q as [|front q IH]; intros w c commands size Hinv Hidle Hmc Hmb.
  - change (len []) with 0 in Hmc. change (sumN data_len []) with 0 in Hmb.
    cbn [willing map app length]. rewrite progress_input_S, decide_True by lia.
    assert (Hfit : write_fits WouldBlock (max_bytes - size) c) by (intros n front queue; done).
    destruct (progress_turn_ok a0 _ _ _ _ WouldBlock None max_bytes commands size Hinv Hfit)
      as (c' & out & e & Ht & Hinv' & Hl & _). pose proof Ht as Ht'.
    unfold progress_turn in Ht'. pose proof Hidle as [Hrun Hi Hq].
    rewrite Hq in Ht'. rewrite decide_False in Ht' by (intros [Ho|[[y Hy]|[y Hy]]]; [by apply Ho, Hrun
      |rewrite (r_healthy _ Hrun) in Hy; done|rewrite Hi in Hy; done]).
    set (c1 := publish_input _) in Ht'.
    assert (Hidle1 : idle [] c1) by (apply publish_idle; destruct Hrun; by constructor).
    rewrite (idle_release _ (i_owner _ _ Hidle1)) in Ht'. injection Ht' as <- <- <-.
    rewrite Ht. cbn [obind]. eexists _, _. split_and!; [done|done|apply Hidle1].
  - rewrite len_cons, sumN_cons in *. cbn [length].
    change (willing (front :: q)) with ((false, Wrote (data_len front - confirmed front), None) :: willing q).
    rewrite progress_input_S, decide_True by lia.
    destruct (full_progress_turn others w ds c front q max_bytes commands size Hinv Hidle)
      as (c1 & out & e & -> & Hinv1 & Hcase); [lia|]. cbn [obind].
    destruct Hcase as [(size' & -> & Hs & Hidle1)|[-> Hnil]]; [|by eexists _, _].
    destruct (IH (w ++ out)%list c1 (commands + 1) size' Hinv1 Hidle1) as (c2 & out2 & Hc2 & Hinv2 & Hq2);
      [lia|lia|].
    rewrite Hc2. cbn [obind]. eexists _, _. split_and!; [done|by rewrite app_assoc|done].
Qed.

(** The contract of [write] along an execution: no more than was offered. *)
Fixpoint kernel_fits (kernel : list (bool * WriteResult * option NativeServiceFailure))
    (max_bytes commands size : N) (c : Control) : Prop :=
  match kernel with
  | [] => True
  | (_, k, late) :: kernel =>
      write_fits k (max_bytes - size) c ∧
      ∀ c' out commands' size', progress_turn k late max_bytes commands size c
          = Ret (c', out, TurnContinue commands' size') →
        kernel_fits kernel max_bytes commands' size' c'
  end.

Lemma progress_ends max_commands max_bytes others ds kernel : ∀ w c commands size,
  inv a0 others w ds c → kernel_fits kernel max_bytes commands size c →
  max_commands + max_bytes ≤ commands + size + len kernel →
  ∃ c' out, progress_input (length kernel) kernel max_commands max_bytes commands size c
              = Ret (c', out) ∧ inv a0 others (w ++ out) ds c' ∧ later c c'.
Proof.
  induction kernel as [|[[busy k] late] kernel IH]; intros w c commands size Hinv Hfit Hfuel.
  - change (len []) with 0 in Hfuel. cbn [progress_input length]. rewrite decide_False by lia.
    eexists _, _. split_and!; [done|by rewrite app_nil_r|done].
  - cbn [length]. rewrite progress_input_S. rewrite len_cons in Hfuel. destruct Hfit as [Hw Hrest].
    case_decide as Hgo.
    2: { eexists _, _. split_and!; [done|by rewrite app_nil_r|done]. }
    destruct busy.
    { eexists _, _. split_and!; [done|by rewrite app_nil_r|done]. }
    destruct (progress_turn_ok a0 _ _ _ _ k late max_bytes commands size Hinv Hw)
      as (c1 & out & e & Ht & Hinv1 & Hl1 & Hcont). rewrite Ht. cbn [obind].
    destruct e as [commands' size'|]; [|by eexists _, _].
    destruct (Hcont _ _ eq_refl) as [_ Hgrow].
    destruct (IH (w ++ out)%list c1 commands' size' Hinv1 (Hrest _ _ _ _ Ht))
      as (c2 & out2 & -> & Hinv2 & Hl2); [lia|]. cbn [obind].
    eexists _, _. split_and!; [done|by rewrite app_assoc|by etrans].
Qed.
End drain.
