(* ===== verification/NativeControlProps.v ===== *)
(** * Native control: properties

    What holds of every reachable state of the system of [NativeControlSystem]. *)

From S2P Require Import Prelude.
From S2P Require Import Protocol.
From S2P Require Import Resources.
From S2P Require Import NativeControl.
From S2P Require Import NativeControlSpec.
From S2P Require Import NativeControlSections.
From S2P Require Import NativeControlAdmission.
From S2P Require Import NativeOwnerTurn.
From S2P Require Import NativeControlSteps.
From S2P Require Import NativeControlHandoff.
From S2P Require Import NativeControlSystem.
From S2P Require Import NativeControlDrain.
Local Open Scope N_scope.

(** No byte crosses the PTY any more. *)
Definition fenced (c : Control) : Prop :=
  phase (state c) ≠ PhaseOpen ∨ is_Some (inner_failure c) ∨ is_Some (input_failure (lane (state c))).

Section props.
Context `{!UuidDisplay, !ControlLayout}.

Lemma fenced_turn k late mb cs sz c c' out e :
  fenced c → progress_turn k late mb cs sz c = Ret (c', out, e) → out = [].
Proof.
  intros Hf. unfold progress_turn. rewrite decide_True by (unfold fenced in Hf; tauto).
  destruct (release_guard _); [by intros [= <- <- <-]|done].
Qed.

Lemma obind_Ret {A B} (o : outcome A) (k : A → outcome B) b :
  obind o k = Ret b → ∃ a, o = Ret a ∧ k a = Ret b.
Proof. destruct o; simpl; eauto. done. Qed.

Lemma note_wire before d p s : s_wire (note_pending before d p s) = s_wire s.
Proof. by destruct p. Qed.

Lemma section_wire {A} (m : CM A) s k s' :
  (∀ a s, s_wire (k a s) = s_wire s) → run_section m s k = Ret s' → s_wire s' = s_wire s.
Proof.
  intros Hk ([c r] & _ & [= <-])%obind_Ret. destruct r; [by rewrite Hk|done].
Qed.

Lemma wire_kept late r s s' : fenced (s_control s) → sys_step late r s = Ret s' → s_wire s' = s_wire s.
Proof.
  intros Hf. destruct r as [imm d|imm key x d|i|i|fg| |pty| |k mb cs sz|o| | | |n|n]; cbn [sys_step].
  - apply section_wire. by intros [] ?.
  - apply section_wire. intros [] ?; [apply note_wire|done].
  - destruct (s_waiting s !! i) as [[]|]; [| |by intros [= <-]].
    + intros H1. by apply section_wire in H1.
    + intros H1. apply section_wire in H1; [done|]. intros; apply note_wire.
  - destruct (s_waiting s !! i); by intros [= <-].
  - by apply section_wire.
  - by apply section_wire.
  - by apply section_wire.
  - by intros ([[? ?] ?] & _ & [= <-])%obind_Ret.
  - intros ([[c' out] e] & Ht & [= <-])%obind_Ret. apply fenced_turn in Ht as ->; [|done].
    simpl. apply app_nil_r.
  - by intros (e & _ & [= <-])%obind_Ret.
  - by intros (e & _ & [= <-])%obind_Ret.
  - by intros (e & _ & [= <-])%obind_Ret.
  - by intros [= <-].
  - destruct (ByteBudget.reserve _ _). by intros [= <-].
  - case_decide; by intros [= <-].
Qed.

Lemma fenced_later c c' : onward c c' → fenced c → fenced c'.
Proof.
  intros [] [?|[[x Hx]|?]]; [left; auto|right; left; rewrite (o_inner _ Hx); eauto|right; right; auto].
Qed.

Context (id : RunId) (l : ResourceLimits) (b : ByteBudget.t) (size : option TerminalSize)
  (writer : bool) (h : HandoffInputState) (closed : bool).

(** A Run's control is built from validated state its budget can fund. *)
Record startable : Prop := {
  st_wf : handoff_wf l h;
  st_applied : handoff_applied h ≤ u64_max;
  st_room : ByteBudget.used b + handoff_charge h ≤ ByteBudget.limit b;
  st_limit : ByteBudget.limit b ≤ u64_max;
}.

Lemma control_reach_inv s :
  startable → rtc next (start id l b size writer h closed) s → sys_inv (handoff_applied h) s.
Proof. intros [] Hr. by apply (reach_inv _ _ _ Hr), start_inv. Qed.

(** C1: whatever callers, the owner and the other users of the budget do, the
    bytes the PTY took are the payloads of the applied commands, in the order of
    their receipts, each receipt continuing the cursor where the last one ended,
    then a tail; while the lane is healthy the tail is the confirmed prefix of the
    command at the head and every refused caller was told that nothing was
    applied; in a failed lane the tail is empty, or it is exactly the confirmed
    prefix reported to the one caller whose outcome is unknown. *)
Theorem input_bytes_are_exact s (Hst : startable)
    (Hr : rtc next (start id l b size writer h closed) s) :
  let c := s_control s in
  ∃ t, s_wire s = (concat (map (λ x, data_of (s_payloads s) x.1) (acks (sent c))) ++ t)%list ∧
    ack_chain (s_payloads s) (handoff_applied h) (acks (sent c))
      (applied_input_bytes (lane (state c))) ∧
    tail_ok (s_payloads s) (lane (state c)) (fails (sent c)) t.
Proof.
  pose proof (control_reach_inv s Hst Hr) as [He _].
  destruct (e_control _ _ _ _ _ He) as [[(G & Hk & Hw & Hd & [Ha Hf]) _] _].
  rewrite app_nil_r in Ha, Hf. fold (s_control s) in *.
  pose proof (k_acks _ _ _ _ _ _ _ Hk) as Hacks. rewrite Ha, Hd in Hacks.
  destruct (k_wire _ _ _ _ _ _ _ Hk) as (t & Ht & Htail). rewrite Ha, Hd, Hw in Ht.
  exists t. split_and!; [done|done|]. rewrite Hd in Htail.
  destruct Htail as [(H1 & H2 & H3)|(H1 & H2 & [[H3 H4]|(r & f & rest & H3 & H4)])].
  - left. by rewrite <- Hf.
  - right. split; [done|]. split; [done|]. left. by rewrite <- Hf.
  - right. split; [done|]. split; [done|]. right. exists r, f, rest. by rewrite <- Hf.
Qed.

(** C2: every payload that was admitted on a channel is still queued or its
    channel was answered, and no channel is both or was answered twice. *)
Theorem input_answered_exactly_once s (Hst : startable)
    (Hr : rtc next (start id l b size writer h closed) s) :
  let c := s_control s in
  let answered := (map (λ x, reply_channel x.1) (acks (sent c)) ++
                   map (λ x, reply_channel x.1) (fails (sent c)))%list in
  NoDup (answered ++ map command_channel (input_queue (lane (state c)))) ∧
  ∀ ch, is_Some (s_payloads s !! ch) ↔
        ch ∈ (answered ++ map command_channel (input_queue (lane (state c))))%list.
Proof.
  pose proof (control_reach_inv s Hst Hr) as [He _].
  destruct (e_control _ _ _ _ _ He) as [[(G & Hk & Hw & Hd & [Ha Hf]) _] _].
  rewrite app_nil_r in Ha, Hf. cbn zeta. rewrite <- app_assoc.
  pose proof (k_channels _ _ _ _ _ _ _ Hk) as Hc. pose proof (k_datas _ _ _ _ _ _ _ Hk) as Hall.
  unfold channels in *. fold (s_control s) in *. rewrite Ha in *. rewrite Hd in *.
  rewrite <- Hf. by setoid_rewrite <- Hf.
Qed.

(** C3: no section of a native control panics: every accounting [expect], every
    [debug_assert!], the phase error of an open lane and the single loss of wait
    authority hold in every reachable state, whoever acts next. *)
Theorem control_never_panics s late r (Hst : startable)
    (Hr : rtc next (start id l b size writer h closed) s) (Hen : enabled late r s) :
  ∃ s', sys_step late r s = Ret s'.
Proof.
  destruct (sys_step_ok _ s late r (control_reach_inv s Hst Hr) Hen) as (s' & ? & _). eauto.
Qed.

(** Once a Run is stopping, closed or failed, its owner is lost or its lane
    poisoned, it stays so: from then on no byte reaches the PTY, and as soon as
    the guard is free nothing is left in the queue. *)
Theorem fence_is_final s s' (Hst : startable)
    (Hr : rtc next (start id l b size writer h closed) s) (Hf : fenced (s_control s))
    (Hr' : rtc next s s') :
  fenced (s_control s') ∧ s_wire s' = s_wire s ∧ input_queue (lane (state (s_control s'))) = [].
Proof.
  assert (Hi := control_reach_inv s Hst Hr).
  destruct (reach_inv _ _ _ Hr' Hi) as [Hi' Ho'].
  split; [by eapply fenced_later|]. split.
  - clear Hr Hi' Ho'. induction Hr' as [|s s1 s2 (late & r & Hen & Hstep) _ IH]; [done|].
    destruct (sys_step_ok _ s late r Hi Hen) as (s1' & Heq & Hi1 & Ho1).
    rewrite Hstep in Heq. injection Heq as <-.
    rewrite IH; [by eapply wire_kept|by eapply fenced_later|done].
  - destruct (fenced_later _ _ Ho' Hf) as [H1|[H1|H1]];
      destruct (e_control _ _ _ _ _ (si_entry _ _ Hi')) as [_ [[Hq _ _] Hw]]; apply Hq; auto.
Qed.

(** What the Run's public record last received from the control is the
    control's present input status, whenever the guard is free. *)
Theorem published_status_is_current s (Hst : startable)
    (Hr : rtc next (start id l b size writer h closed) s)
    (Hb : service_bound (s_control s) = true) :
  last (published (s_control s)) = Some (input_status (state (s_control s))).
Proof.
  destruct (e_control _ _ _ _ _ (si_entry _ _ (control_reach_inv s Hst Hr))) as [_ [[_ _ Hp] _]].
  by apply Hp.
Qed.

(** the control budget is accounted exactly: the queue, the ledger and the
    funded waiters hold their permits, and the rest belongs to other owners. *)
Theorem control_memory_is_accounted s (Hst : startable)
    (Hr : rtc next (start id l b size writer h closed) s) :
  let c := s_control s in
  ByteBudget.used (control_budget c) =
    s_outside s + sumN waiting_memory (s_waiting s) + held (lane (state c)) (ledger (state c)) ∧
  ByteBudget.used (control_budget c) ≤ ByteBudget.limit (control_budget c) ∧
  input_commands (lane (state c)) = len (input_queue (lane (state c))) ∧
  N.of_nat (base.size (input_operations (ledger (state c)))) ≤ input_result_entries (resources c) ∧
  retained_input_request_bytes (ledger (state c)) ≤ input_result_bytes (resources c).
Proof.
  pose proof (control_reach_inv s Hst Hr) as [He _].
  destruct (e_control _ _ _ _ _ He) as [[(G & Hk & _) Hsh] _].
  pose proof (k_budget _ _ _ _ _ _ _ Hk) as (H1 & H2 & _).
  pose proof (k_commands _ _ _ _ _ _ _ Hk) as H3. destruct (s_config _ Hsh) as [H4 H5].
  pose proof (s_entries _ Hsh) as H6. pose proof (s_bytes _ Hsh) as H7.
  unfold others_of in H1. fold (s_control s) in *. split_and!; [exact H1|exact H2|exact H3|lia|lia].
Qed.

Lemma completed_chain_range m ks : ∀ a b k r range,
  completed_chain m a ks b → k ∈ ks → m !! k = Some (EntryCompleted r range) →
  range_start_byte range = expected_byte r ∧
  range_end_byte range = expected_byte r + len (request_data r) ∧ range_end_byte range ≤ b.
Proof.
  induction ks as [|k' ks IH]; intros a e k r range; simpl; [by intros _ ?%elem_of_nil|].
  intros (r' & range' & Hk' & Ha & Hs & He & Hc) [->|Hin]%elem_of_cons Hk.
  - rewrite Hk in Hk'. injection Hk' as <- <-. split_and!; [done|done|].
    clear -Hc. revert Hc. generalize (range_end_byte range). induction ks as [|k ks IH]; simpl; [done|].
    intros n (r1 & range1 & _ & H1 & H2 & H3 & Hc). apply IH in Hc. lia.
  - by eapply IH.
Qed.

(** When nobody interferes and the kernel takes what it is offered, one
    [progress_input] with room for the queue empties it: no admitted command waits
    for ever, and its channel has been answered. *)
Theorem willing_kernel_drains_queue s max_commands max_bytes (Hst : startable)
    (Hr : rtc next (start id l b size writer h closed) s)
    (Hopen : ¬ fenced (s_control s)) :
  let c := s_control s in
  let q := input_queue (lane (state c)) in
  len q < max_commands → sumN data_len q < max_bytes →
  ∃ c' out, progress_input (S (length q)) (willing q) max_commands max_bytes 0 0 c = Ret (c', out) ∧
    input_queue (lane (state c')) = [].
Proof.
  intros c q Hc Hb. pose proof (control_reach_inv s Hst Hr) as [He _].
  pose proof (e_control _ _ _ _ _ He) as Hi.
  assert (Hidle : idle q c).
  { unfold fenced in Hopen. constructor; [|by destruct (inner_failure _); naive_solver|done].
    apply turn_running; [apply Hi|]. intros Hstop. apply Hopen. destruct Hstop as [?|[?|?]]; auto. }
  destruct (drain_ok _ max_commands max_bytes _ _ q _ c 0 0 Hi Hidle) as (c' & out & ? & _ & ?);
    [lia|lia|]. by exists c', out.
Qed.

(** [progress_input] ends within its command and byte allowance, whatever the
    kernel answers, a busy lock or a lost owner included. *)
Theorem progress_input_ends s max_commands max_bytes kernel (Hst : startable)
    (Hr : rtc next (start id l b size writer h closed) s)
    (Hfit : kernel_fits kernel max_bytes 0 0 (s_control s))
    (Hfuel : max_commands + max_bytes ≤ len kernel) :
  ∃ c' out, progress_input (length kernel) kernel max_commands max_bytes 0 0 (s_control s)
    = Ret (c', out).
Proof.
  pose proof (control_reach_inv s Hst Hr) as [He _].
  destruct (progress_ends _ max_commands max_bytes _ _ kernel _ _ 0 0 (e_control _ _ _ _ _ He) Hfit)
    as (c' & out & ? & _); [lia|]. eauto.
Qed.

(** C4: a retry with a key the ledger holds never queues a second command: the
    same request gets the retained result or the channel of the pending one, a
    different request is a conflict, and either way only the retry's own permit is
    given back.  What it is told is what happened: a completed range starts at the
    expected byte, has the request's length and lies below the cursor; an unknown
    one stands at the cursor of a poisoned lane. *)
Theorem recoverable_retry s key request e (Hst : startable)
    (Hr : rtc next (start id l b size writer h closed) s)
    (He : input_operations (ledger (state (s_control s))) !! key = Some e) :
  let c := s_control s in
  begin_recoverable_input_locked key request c =
    Ret (drop_memory (request_memory request) c,
         if request_eq (entry_request e) request then
           Ok match e with
              | EntryPending _ channel => WaitingInput channel
              | EntryCompleted _ range => ReadyInput (Ok range)
              | EntryUnknown _ failure => ReadyInput (Err failure)
              end
         else Err (not_applied (protocol_error InputOperationConflict
           ("native Input operation key is retained for another request on Run " +:+
            show_run_id (control_run c))))) ∧
  match e with
  | EntryPending r channel => s_payloads s !! channel = Some (request_data r)
  | EntryCompleted r range =>
      range_start_byte range = expected_byte r ∧
      range_end_byte range = expected_byte r + len (request_data r) ∧
      range_end_byte range ≤ applied_input_bytes (lane (state c))
  | EntryUnknown r f =>
      expected_byte r = applied_input_bytes (lane (state c)) ∧ disposition f = Unknown ∧
      is_Some (input_failure (lane (state c)))
  end.
Proof.
  cbn zeta. split.
  - unfold begin_recoverable_input_locked, dropping, retained_input_result. unfold bind at 1, get at 1.
    unfold bind at 1, lift_result at 1. rewrite He.
    destruct (request_eq (entry_request e) request); simpl; [|done].
    unfold bind, modify, mret_. by destruct (request_memory request).
  - pose proof (control_reach_inv s Hst Hr) as [Hen _].
    destruct (e_control _ _ _ _ _ Hen) as [[(G & Hk & _ & Hd & _) _] _]. fold (s_control s) in *.
    destruct e as [r ch|r range|r f].
    + destruct (k_pending _ _ _ _ _ _ _ Hk _ _ _ He) as (cmd & Hin & Hreply).
      destruct (k_queued _ _ _ _ _ _ _ Hk _ _ _ Hin Hreply) as (r' & He' & Hdata).
      rewrite He in He'. injection He' as <-. rewrite Hdata, <- Hd.
      replace ch with (command_channel cmd) by (unfold command_channel; by rewrite Hreply).
      by apply (k_payload _ _ _ _ _ _ _ Hk).
    + pose proof (k_completed _ _ _ _ _ _ _ Hk) as Hchain.
      pose proof (k_listed _ _ _ _ _ _ _ Hk _ _ _ He) as Hin.
      by apply (completed_chain_range _ _ _ _ _ _ _ Hchain Hin He).
    + destruct (k_unknown _ _ _ _ _ _ _ Hk _ _ _ He) as (H1 & H2 & _ & H4).
      split_and!; [done|done|]. destruct (input_failure _); [eauto|done].
Qed.

(** C5: a handoff loses nothing: a settled owner's snapshot, adopted by a budget
    that can fund it, yields a startable owner with the same cursor whose own
    snapshot is the same again and which answers every retry as the old one did. *)
Theorem handoff_preserves_ledger s h1 id1 b1 size1 writer1 closed1 (Hst : startable)
    (Hr : rtc next (start id l b size writer h closed) s)
    (Hs : handoff_snapshot (s_control s) = Ok h1)
    (Hentries : 0 < input_result_entries (resources (s_control s)))
    (Hbytes : 0 < input_result_bytes (resources (s_control s)))
    (Hroom : ByteBudget.used b1 + handoff_charge h1 ≤ ByteBudget.limit b1)
    (Hlim : ByteBudget.limit b1 ≤ u64_max) :
  ∃ c' permit, new_with_components id1 (resources (s_control s)) b1 size1 writer1 h1 closed1
      = Ret (c', permit) ∧
    handoff_snapshot c' = Ok h1 ∧
    applied_input_bytes (lane (state c')) = applied_input_bytes (lane (state (s_control s))) ∧
    (∀ key request rid, retained_input_result (state c') key request rid =
       retained_input_result (state (s_control s)) key request rid) ∧
    handoff_wf (resources (s_control s)) h1 ∧ handoff_applied h1 ≤ u64_max.
Proof.
  pose proof (control_reach_inv s Hst Hr) as [Hen _].
  destruct (e_control _ _ _ _ _ Hen) as [[(G & Hk & _) _] _]. fold (s_control s) in *.
  pose proof (proj1 (handoff_snapshot_Ok _ _) Hs) as (_ & _ & _ & _ & _ & Ha & _ & Hwf).
  rewrite (new_with_components_eq id1 _ b1 size1 writer1 h1 closed1 Hentries Hbytes Hwf Hroom Hlim).
  eexists _, _. split_and!; [done|by eapply snapshot_again|simpl; congruence| |done|].
  - intros. by eapply adopted_retained.
  - rewrite Ha. apply (k_applied _ _ _ _ _ _ _ Hk).
Qed.

(** C6: the staged validation of a handed-off ledger accepts exactly the well
    formed ones: within the entry, byte and control-memory limits, distinct valid
    keys with non-empty payloads, completed ranges as expected, in order, disjoint
    and below the cursor, and at most one unknown operation, at the cursor, with an
    admissible prefix and the poisoned lane's code. *)
Theorem validate_accepts_exactly_wf limits state :
  validate_with_resources limits state = Ok tt ↔ handoff_wf limits state.
Proof. apply validate_wf. Qed.
End props.

(** ** A concrete history *)

Module Sample.
#[export] Instance display : UuidDisplay := λ _, "r"%string.
#[export] Instance layout : ControlLayout :=
  {| size_of_input_command := 64; size_of_operation_entry := 128 |}.
Definition budget : ByteBudget.t := ByteBudget.new (1024 * 1024).
Definition first : Sys := start 1 DEFAULT budget None true handoff_empty false.
Definition after (r : Req) (s : Sys) : Sys :=
  match sys_step None r s with Ret s' => s' | Panic _ => s end.
Definition text : bytes := ["h"; "i"]%byte.
Definition admitted_text : Sys := after (ReqInput true text) (after ReqBind first).
Definition half_written : Sys := after (ReqWrite (Wrote 1) 4096 0 0) admitted_text.
Definition stopped : Sys := after ReqCleanup half_written.

Definition receipt_pending : Sys := after (ReqRecoverable true "op-1" 0 text) (after ReqBind first).
Definition receipt_done : Sys := after (ReqWrite (Wrote 2) 4096 0 0) receipt_pending.
Definition snapshot : HandoffInputState :=
  match handoff_snapshot (s_control receipt_done) with Ok h => h | Err _ => handoff_empty end.

Lemma first_startable : startable DEFAULT budget handoff_empty.
Proof.
  constructor; try (vm_compute; discriminate).
  apply validate_wf. by vm_compute.
Qed.
Lemma reach_admitted : rtc next first admitted_text.
Proof.
  eapply rtc_l; [exists None, ReqBind; split; vm_compute; reflexivity|].
  apply rtc_once. exists None, (ReqInput true text). split; vm_compute; [discriminate|reflexivity].
Qed.
Lemma reach_pending : rtc next first receipt_pending.
Proof.
  eapply rtc_l; [exists None, ReqBind; split; vm_compute; reflexivity|].
  apply rtc_once. exists None, (ReqRecoverable true "op-1" 0 text).
  split; vm_compute; [discriminate|reflexivity].
Qed.
Lemma reach_done : rtc next first receipt_done.
Proof.
  eapply rtc_r; [exact reach_pending|]. exists None, (ReqWrite (Wrote 2) 4096 0 0). split.
  - intros n front q [= <-] Hq. vm_compute in Hq. injection Hq as <- _. vm_compute. discriminate.
  - vm_compute. reflexivity.
Qed.
Lemma reach_half : rtc next first half_written.
Proof.
  eapply rtc_r; [exact reach_admitted|]. exists None, (ReqWrite (Wrote 1) 4096 0 0). split.
  - intros n front q [= <-] Hq. vm_compute in Hq. injection Hq as <- _. vm_compute. discriminate.
  - vm_compute. reflexivity.
Qed.
Lemma reach_stopped : rtc next first stopped.
Proof.
  eapply rtc_r; [exact reach_half|]. exists None, ReqCleanup. split; [done|]. vm_compute. reflexivity.
Qed.
End Sample.
#[local] Existing Instances Sample.display Sample.layout.

Lemma input_bytes_are_exact_witness :
  s_wire Sample.stopped = ["h"%byte] ∧ fails (sent (s_control Sample.stopped)) ≠ [] ∧
  ∃ t, s_wire Sample.stopped = t ∧
    tail_ok (s_payloads Sample.stopped) (lane (state (s_control Sample.stopped)))
      (fails (sent (s_control Sample.stopped))) t.
Proof.
  split; [vm_compute; reflexivity|]. split; [vm_compute; discriminate|].
  destruct (input_bytes_are_exact 1 DEFAULT Sample.budget None true handoff_empty false Sample.stopped
    Sample.first_startable Sample.reach_stopped) as (t & Hw & _ & Ht).
  exists t. split; [exact Hw|exact Ht].
Defined.

Lemma input_answered_exactly_once_witness :
  NoDup (map command_channel (input_queue (lane (state (s_control Sample.half_written))))) ∧
  is_Some (s_payloads Sample.half_written !! 0).
Proof.
  destruct (input_answered_exactly_once 1 DEFAULT Sample.budget None true handoff_empty false
    Sample.half_written Sample.first_startable Sample.reach_half) as [Hnd Hall].
  split; [exact Hnd|]. apply Hall. vm_compute. left.
Defined.

Lemma control_never_panics_witness :
  ∃ s', sys_step None (ReqWrite WouldBlock 4096 0 0) Sample.half_written = Ret s'.
Proof.
  apply (control_never_panics 1 DEFAULT Sample.budget None true handoff_empty false
    Sample.half_written None _ Sample.first_startable Sample.reach_half).
  intros n front q Hn. discriminate Hn.
Defined.

Lemma fence_is_final_witness :
  phase (state (s_control Sample.stopped)) = PhaseStopping ∧
  fenced (s_control (Sample.after (ReqInput true Sample.text) Sample.stopped)) ∧
  s_wire (Sample.after (ReqInput true Sample.text) Sample.stopped) = ["h"%byte].
Proof.
  split; [vm_compute; reflexivity|].
  assert (Hf : fenced (s_control Sample.stopped)) by (left; vm_compute; discriminate).
  assert (Hr : rtc next Sample.stopped (Sample.after (ReqInput true Sample.text) Sample.stopped)).
  { apply rtc_once. exists None, (ReqInput true Sample.text).
    split; vm_compute; [discriminate|reflexivity]. }
  destruct (fence_is_final 1 DEFAULT Sample.budget None true handoff_empty false Sample.stopped _
    Sample.first_startable Sample.reach_stopped Hf Hr) as (H1 & H2 & _).
  split; [exact H1|]. rewrite H2. vm_compute. reflexivity.
Defined.

Lemma published_status_is_current_witness :
  last (published (s_control Sample.half_written)) =
    Some (input_status (state (s_control Sample.half_written))).
Proof.
  apply (published_status_is_current 1 DEFAULT Sample.budget None true handoff_empty false
    Sample.half_written Sample.first_startable Sample.reach_half). vm_compute. reflexivity.
Defined.

Lemma control_memory_is_accounted_witness :
  ByteBudget.used (control_budget (s_control Sample.half_written)) = 66 ∧
  input_commands (lane (state (s_control Sample.half_written))) =
    len (input_queue (lane (state (s_control Sample.half_written)))).
Proof.
  split; [vm_compute; reflexivity|].
  apply (control_memory_is_accounted 1 DEFAULT Sample.budget None true handoff_empty false
    Sample.half_written Sample.first_startable Sample.reach_half).
Defined.

Lemma willing_kernel_drains_queue_witness :
  len (input_queue (lane (state (s_control Sample.admitted_text)))) = 1 ∧
  ∃ c' out, progress_input 2 (willing (input_queue (lane (state (s_control Sample.admitted_text)))))
    8 4096 0 0 (s_control Sample.admitted_text) = Ret (c', out) ∧
    input_queue (lane (state c')) = [].
Proof.
  split; [vm_compute; reflexivity|].
  apply (willing_kernel_drains_queue 1 DEFAULT Sample.budget None true handoff_empty false
    Sample.admitted_text 8 4096 Sample.first_startable Sample.reach_admitted).
  - intros [Hc|[[x Hx]|[x Hx]]]; [by apply Hc|vm_compute in Hx; discriminate..].
  - vm_compute. reflexivity.
  - vm_compute. reflexivity.
Defined.

Lemma progress_input_ends_witness :
  ∃ c' out, progress_input 2 [(false, Wrote 1, None); (false, WouldBlock, None)] 1 1 0 0
    (s_control Sample.admitted_text) = Ret (c', out).
Proof.
  apply (progress_input_ends 1 DEFAULT Sample.budget None true handoff_empty false
    Sample.admitted_text 1 1 [(false, Wrote 1, None); (false, WouldBlock, None)]
    Sample.first_startable Sample.reach_admitted).
  - split; [|intros; split; [by intros ? ? ?|done]].
    intros n front q [= <-] Hq. vm_compute in Hq. injection Hq as <- _. vm_compute. discriminate.
  - vm_compute. discriminate.
Defined.

Lemma recoverable_retry_witness :
  ∃ e, input_operations (ledger (state (s_control Sample.receipt_done))) !! "op-1"%string = Some e ∧
  begin_recoverable_input_locked "op-1"
    {| request_memory := None; expected_byte := 0; request_data := Sample.text |}
    (s_control Sample.receipt_done) =
  Ret (s_control Sample.receipt_done,
       Ok (ReadyInput (Ok {| range_start_byte := 0; range_end_byte := 2 |}))).
Proof.
  eexists. split; [vm_compute; reflexivity|].
  refine (eq_trans (proj1 (recoverable_retry 1 DEFAULT Sample.budget None true handoff_empty false
    Sample.receipt_done "op-1" _ _ Sample.first_startable Sample.reach_done _)) _);
    [vm_compute; reflexivity|]. vm_compute. reflexivity.
Defined.

Lemma handoff_preserves_ledger_witness :
  len (operations Sample.snapshot) = 1 ∧
  ∃ c' permit, new_with_components 2 DEFAULT Sample.budget None true Sample.snapshot false
    = Ret (c', permit) ∧ handoff_snapshot c' = Ok Sample.snapshot.
Proof.
  split; [vm_compute; reflexivity|].
  destruct (handoff_preserves_ledger 1 DEFAULT Sample.budget None true handoff_empty false
    Sample.receipt_done Sample.snapshot 2 Sample.budget None true false
    Sample.first_startable Sample.reach_done) as (c' & p & H1 & H2 & _);
    [vm_compute; (reflexivity || discriminate)..|].
  exists c', p. split; [exact H1|exact H2].
Defined.
