(* ===== verification/TmuxParser.v ===== *)
(** * TmuxParser

    The tmux Control Mode reader of [crates/ctxmux-daemon/src/tmux.rs]: bounded
    line reads from a buffered stream, the line parser with its command blocks,
    octal decoding and the numeric, identifier and version parsers.  The stream's
    buffering is explicit: a reader is the list of chunks [fill_buf] will return. *)

From S2P Require Import Prelude.
From S2P Require Import Protocol.
From S2P Require Import Wire.

Definition MAX_CONTROL_LINE_BYTES : N := 1024 * 1024.
Definition MAX_COMMAND_BLOCK_LINES : N := 32 * 1024.

(** Byte-string literals. *)
Definition lit (s : string) : bytes := String.list_byte_of_string s.
Definition text (b : bytes) : string := String.string_of_list_byte b.

(** ** Slices *)

Definition is_digit (b : byte) : bool := (48 <=? Byte.to_N b) && (Byte.to_N b <=? 57).
Definition is_octal (b : byte) : bool := (48 <=? Byte.to_N b) && (Byte.to_N b <=? 55).
Definition digit_value (b : byte) : N := Byte.to_N b - 48.

Fixpoint strip_prefix (p l : bytes) : option bytes :=
  match p, l with
  | [], _ => Some l
  | x :: p, y :: l => if decide (x = y) then strip_prefix p l else None
  | _ :: _, [] => None
  end.
Definition starts_with (p l : bytes) : bool := bool_decide (is_Some (strip_prefix p l)).

(** [slice::split] on one byte: always at least one field. *)
Fixpoint split_on (sep : byte) (l : bytes) : list bytes :=
  match l with
  | [] => [[]]
  | b :: l =>
      if decide (b = sep) then [] :: split_on sep l
      else match split_on sep l with f :: fs => (b :: f) :: fs | [] => [[b]] end
  end.
Fixpoint split_once (sep : byte) (l : bytes) : option (bytes * bytes) :=
  match l with
  | [] => None
  | b :: l => if decide (b = sep) then Some ([], l)
              else '(x, y) ← split_once sep l; Some (b :: x, y)
  end.
(** The first [windows(3)] equal to [sep], as what precedes and follows it. *)
Fixpoint split_window (sep : bytes) (l : bytes) : option (bytes * bytes) :=
  match strip_prefix sep l with
  | Some rest => Some ([], rest)
  | None => match l with
            | [] => None
            | b :: l => '(x, y) ← split_window sep l; Some (b :: x, y)
            end
  end.

(** ** Numbers and identifiers *)

(** Checked accumulation of decimal digits in an unsigned type whose largest
    value is [max]. *)
Fixpoint parse_digits (max : N) (l : bytes) (acc : N) : option N :=
  match l with
  | [] => Some acc
  | b :: l =>
      if is_digit b then
        let acc := acc * 10 + digit_value b in
        if decide (acc ≤ max) then parse_digits max l acc else None
      else None
  end.
(** [str::parse] on the UTF-8 check's success: one optional plus sign.  A byte
    that is no digit is refused by either check. *)
Definition parse_unsigned (max : N) (l : bytes) : option N :=
  match l with
  | [] => None
  | b :: l' =>
      if decide (b = x2b) then match l' with [] => None | _ => parse_digits max l' 0 end
      else parse_digits max l 0
  end.
Definition u16_max : N := 65535.

Definition ascii_u64 (value : bytes) : result N string :=
  ok_or "invalid tmux control integer" (parse_unsigned u64_max value).
Definition parse_control_number (max : N) (value : bytes) (label : string) : result N string :=
  ok_or ("tmux target probe returned an invalid " +:+ label) (parse_unsigned max value).
Definition parse_number (max : N) (value : bytes) (label : string) : result N ProtocolError :=
  ok_or (protocol_error BackendUnavailable ("tmux returned an invalid " +:+ label))
        (parse_unsigned max value).

Definition id_ok (prefix : byte) (value : bytes) : bool :=
  match value with
  | b :: (_ :: _) as ds => bool_decide (b = prefix) && forallb is_digit (tail value)
  | _ => false
  end.
Definition control_id (value : bytes) (prefix : byte) (label : string) : result string string :=
  if id_ok prefix value then Ok (text value) else Err ("invalid tmux " +:+ label +:+ " ID").
Definition parse_id (value : bytes) (prefix : byte) (label : string)
    : result string ProtocolError :=
  if id_ok prefix value then Ok (text value)
  else Err (protocol_error BackendUnavailable ("tmux returned an invalid " +:+ label +:+ " ID")).
Definition validate_pane_id (value : bytes) : result unit ProtocolError :=
  match strip_prefix (lit "%") value with
  | Some digits =>
      if negb (bool_decide (digits = [])) && forallb is_digit digits then Ok tt
      else Err (protocol_error InvalidRequest
                  "tmux pane ID must be '%' followed by decimal digits")
  | None => Err (protocol_error InvalidRequest
                   "tmux pane ID must be '%' followed by decimal digits")
  end.

(** ** Versions *)

Definition MINIMUM_TMUX_MAJOR : N := 3.
Definition MINIMUM_TMUX_MINOR : N := 4.

Record ParsedVersion := { major : N; minor : N }.
Definition is_lower (b : byte) : bool := (97 <=? Byte.to_N b) && (Byte.to_N b <=? 122).

Fixpoint take_digits (l : bytes) : bytes * bytes :=
  match l with
  | b :: l' => if is_digit b then let '(ds, rest) := take_digits l' in (b :: ds, rest)
               else ([], l)
  | [] => ([], [])
  end.
Definition version_suffix_ok (suffix : bytes) : bool :=
  match suffix with [] => true | [b] => is_lower b | _ => false end.
Definition parse_version (value : bytes) : option ParsedVersion :=
  '(major, remainder) ← split_once x2e value;
  if bool_decide (major = []) || negb (forallb is_digit major) then None else
  let '(digits, suffix) := take_digits remainder in
  if bool_decide (digits = []) then None else
  if negb (version_suffix_ok suffix) then None else
  major ← parse_unsigned u32_max major;
  minor ← parse_unsigned u32_max digits;
  Some {| major := major; minor := minor |}.

(** [{version:?}] is Rust's escaped [Debug] form, a parameter. *)
Class DebugString := debug_string : bytes → string.

Definition validate_supported_version `{!DebugString} (version : bytes) (owner : string)
    : result unit ProtocolError :=
  match parse_version version with
  | None => Err (protocol_error UnsupportedBackendVersion
      ("unrecognized tmux " +:+ owner +:+ " version " +:+ debug_string version))
  | Some v =>
      if decide (major v ≠ MINIMUM_TMUX_MAJOR ∨ minor v < MINIMUM_TMUX_MINOR) then
        Err (protocol_error UnsupportedBackendVersion
          ("tmux " +:+ owner +:+ " " +:+ text version +:+
           " is unsupported; ctxmux requires tmux 3.4 through 3.x"))
      else Ok tt
  end.

(** ** Octal escapes *)

Definition octal_value (a b c : byte) : N :=
  digit_value a * 64 + digit_value b * 8 + digit_value c.

Fixpoint decode_octal (value : bytes) : result bytes string :=
  match value with
  | [] => Ok []
  | b :: rest =>
      if decide (b ≠ x5c) then result_map (cons b) (decode_octal rest) else
      match rest with
      | d0 :: d1 :: d2 :: rest =>
          if negb (is_octal d0 && is_octal d1 && is_octal d2)
          then Err "invalid tmux octal escape" else
          match Byte.of_N (octal_value d0 d1 d2) with
          | None => Err "tmux octal escape exceeds one byte"
          | Some o => result_map (cons o) (decode_octal rest)
          end
      | _ => Err "truncated tmux octal escape"
      end
  end.

(** ** Control items and blocks *)

Inductive ControlItem :=
  | Output (pane_id : string) (d : bytes) (age_millis : option N)
  | CommandResult (number : N) (success : bool) (output : list bytes)
  | SessionChanged (session_id : string)
  | SessionRenamed (session_id : string) (name : bytes)
  | WindowClosed (window_id : string)
  | Paused (pane_id : string)
  | Continued (pane_id : string)
  | Exit
  | Notification.

Record CommandBlock := {
  block_time : N; block_number : N; block_flags : N;
  payload_bytes : N; line_count : N; block_output : list bytes;
}.
(** [ControlParser] is its one field. *)
Definition ControlParser : Type := option CommandBlock.

Definition push_output (line : bytes) (b : CommandBlock) : result CommandBlock string :=
  if decide (MAX_COMMAND_BLOCK_LINES ≤ line_count b)
  then Err "tmux command block has too many output lines" else
  match checked_add (payload_bytes b) (len line) with
  | None => Err "tmux command block output exceeds 1 MiB"
  | Some payload =>
      if decide (MAX_CONTROL_LINE_BYTES < payload)
      then Err "tmux command block output exceeds 1 MiB"
      else Ok {| block_time := block_time b; block_number := block_number b;
                 block_flags := block_flags b; payload_bytes := payload;
                 line_count := line_count b + 1; block_output := block_output b ++ [line] |}
  end.

Definition parse_block_header (prefix line : bytes) : result (N * N * N) string :=
  match strip_prefix prefix line with
  | None => Err "invalid tmux command block prefix"
  | Some rest =>
      match split_on x20 rest with
      | [a; b; c] =>
          let? a := ascii_u64 a in
          let? b := ascii_u64 b in
          let? c := ascii_u64 c in
          Ok (a, b, c)
      | _ => Err "invalid tmux command block header"
      end
  end.

Definition parse_session_renamed (value : bytes) : result ControlItem string :=
  let? '(session, name) :=
    ok_or "malformed tmux session-renamed notification" (split_once x20 value) in
  let? session := control_id session x24 "session" in
  let? name := decode_octal name in
  Ok (SessionRenamed session name).

Definition reject_stray_block_terminator (line : bytes) : result unit string :=
  if starts_with (lit "%end ") line || starts_with (lit "%error ") line
  then Err "tmux command block terminator without begin" else Ok tt.

Definition parse_output (rest : bytes) : result ControlItem string :=
  let? '(pane, value) := ok_or "malformed tmux output notification" (split_once x20 rest) in
  let? pane := control_id pane x25 "pane" in
  let? d := decode_octal value in
  Ok (Output pane d None).

Definition parse_extended_output (rest : bytes) : result ControlItem string :=
  let? '(header, value) :=
    ok_or "malformed tmux extended-output separator" (split_window (lit " : ") rest) in
  let fields := split_on x20 header in
  let? pane := ok_or "tmux extended-output has no pane" (head fields) in
  let? age := ok_or "tmux extended-output has invalid age"
                (head (tail fields) ≫= parse_unsigned u64_max) in
  let? pane := control_id pane x25 "pane" in
  let? d := decode_octal value in
  Ok (Output pane d (Some age)).

Definition parse_session_changed (rest : bytes) : result ControlItem string :=
  let? '(session, _) :=
    ok_or "malformed tmux session-changed notification" (split_once x20 rest) in
  let? session := control_id session x24 "session" in
  Ok (SessionChanged session).

(** [parse_line] outside a block, from the notifications on, as the chain of
    prefixes it tries. *)
Definition parse_notification (line : bytes) : result ControlItem string :=
  match strip_prefix (lit "%output ") line with Some rest => parse_output rest | None =>
  match strip_prefix (lit "%extended-output ") line with
  | Some rest => parse_extended_output rest | None =>
  match strip_prefix (lit "%session-changed ") line with
  | Some rest => parse_session_changed rest | None =>
  match strip_prefix (lit "%session-renamed ") line with
  | Some rest => parse_session_renamed rest | None =>
  match strip_prefix (lit "%window-close ") line with
  | Some window => result_map WindowClosed (control_id window x40 "window") | None =>
  match strip_prefix (lit "%pause ") line with
  | Some pane => result_map Paused (control_id pane x25 "pane") | None =>
  match strip_prefix (lit "%continue ") line with
  | Some pane => result_map Continued (control_id pane x25 "pane") | None =>
  if bool_decide (line = lit "%exit") || starts_with (lit "%exit ") line then Ok Exit else
  let? _ := reject_stray_block_terminator line in
  if starts_with (lit "%") line then Ok Notification
  else Err "tmux emitted an unframed control line"
  end end end end end end end.

Definition parse_in_block (line : bytes) (block : CommandBlock)
    : ControlParser * result (option ControlItem) string :=
  if starts_with (lit "%begin ") line then (Some block, Err "nested tmux command block") else
  if starts_with (lit "%end ") line || starts_with (lit "%error ") line then
    let success := starts_with (lit "%end ") line in
    match parse_block_header (if success then lit "%end " else lit "%error ") line with
    | Err e => (Some block, Err e)
    | Ok header =>
        if decide ((block_time block, block_number block, block_flags block) = header)
        then (None, Ok (Some (CommandResult (block_number block) success (block_output block))))
        else (Some block, Err "tmux command block terminator does not match begin")
    end
  else match push_output line block with
       | Ok block => (Some block, Ok None)
       | Err e => (Some block, Err e)
       end.

Definition parse_line (line : bytes) (parser : ControlParser)
    : ControlParser * result (option ControlItem) string :=
  match parser with
  | Some block => parse_in_block line block
  | None =>
      if bool_decide (line = []) then (None, Ok None) else
      if starts_with (lit "%begin ") line then
        match parse_block_header (lit "%begin ") line with
        | Err e => (None, Err e)
        | Ok (time, number, flags) =>
            (Some {| block_time := time; block_number := number; block_flags := flags;
                     payload_bytes := 0; line_count := 0; block_output := [] |}, Ok None)
        end
      else (None, result_map Some (parse_notification line))
  end.

Definition parser_finish (parser : ControlParser) : result unit string :=
  match parser with
  | Some _ => Err "tmux Control Mode stream ended inside a command block"
  | None => Ok tt
  end.

(** ** Bounded line reads *)

(** A buffered reader: the chunk in the buffer and those [fill_buf] will bring.
    An I/O error of the reader ends a list of chunks. *)
Inductive Feed := FeedEof | FeedError (e : string) | FeedChunk (c : bytes) (more : Feed).

Inductive BoundedLineRead := ReadLine (line : bytes) | ReadEof | ReadError (e : string).

(** The chunk up to and including its first newline, and what is left of it. *)
Fixpoint take_line (c : bytes) : bytes * bytes :=
  match c with
  | [] => ([], [])
  | b :: c => if decide (b = x0a) then ([b], c)
              else let '(t, rest) := take_line c in (b :: t, rest)
  end.
Definition pop_if (b : byte) (line : bytes) : bytes :=
  match last line with
  | Some x => if decide (x = b) then removelast line else line
  | None => line
  end.
Definition ends_with (b : byte) (line : bytes) : bool := bool_decide (last line = Some b).

(** [consume] leaves the unread part of the chunk in the buffer. *)
Definition refeed (rest : bytes) (more : Feed) : Feed :=
  match rest with [] => more | _ => FeedChunk rest more end.

(** The loop; an empty chunk is [fill_buf]'s end of file. *)
Fixpoint read_bounded_line (feed : Feed) (line : bytes) : BoundedLineRead * Feed :=
  match feed with
  | FeedError e => (ReadError e, feed)
  | FeedEof | FeedChunk [] _ =>
      (match line with [] => ReadEof | _ => ReadLine line end, feed)
  | FeedChunk available more =>
      let '(taken, rest) := take_line available in
      if decide (MAX_CONTROL_LINE_BYTES < len line +sat len taken) then
        (ReadError "tmux Control Mode line exceeds 1 MiB", refeed rest more) else
      let line := line ++ taken in
      if ends_with x0a line then (ReadLine (pop_if x0d (pop_if x0a line)), refeed rest more)
      else read_bounded_line more line
  end.
