(* ===== verification/TmuxParserSpec.v ===== *)
(** * TmuxParserSpec

    What the tmux line reader and the Control Mode parser accept, stated without
    them: the lines of a stream however it is buffered ([line_of]), the octal
    escaping relation ([escaped]), and the transcripts of control lines
    ([transcript]) with the items they carry. *)

From S2P Require Import Prelude.
From S2P Require Import Protocol.
From S2P Require Import Wire.
From S2P Require Import TmuxParser.

(** ** Slices *)

Lemma strip_prefix_Some p l rest : strip_prefix p l = Some rest ↔ l = p ++ rest.
Proof.
  revert l. induction p as [|x p IH]; intros l; simpl; [naive_solver|].
  destruct l as [|y l]; [naive_solver|]. case_decide; [rewrite IH|]; naive_solver.
Qed.
Lemma strip_prefix_app p rest : strip_prefix p (p ++ rest) = Some rest.
Proof. by apply strip_prefix_Some. Qed.
Lemma starts_with_true p l : starts_with p l = true ↔ ∃ rest, l = p ++ rest.
Proof.
  unfold starts_with. rewrite bool_decide_eq_true. split.
  - intros [rest H]. exists rest. by apply strip_prefix_Some.
  - intros [rest ->]. exists rest. apply strip_prefix_app.
Qed.
Lemma starts_with_None p l : starts_with p l = false ↔ strip_prefix p l = None.
Proof. unfold starts_with. rewrite bool_decide_eq_false, eq_None_not_Some. done. Qed.

Lemma split_once_Some sep l x y : split_once sep l = Some (x, y) ↔ (sep ∉ x) ∧ l = x ++ (sep :: y).
Proof.
  split.
  - revert x. induction l as [|b l IH]; intros x; simpl; [done|]. case_decide as Hb.
    + intros [= <- <-]. subst. split; [apply not_elem_of_nil|done].
    + destruct (split_once sep l) as [[x' y']|]; simpl; [|done]. intros [= <- <-].
      destruct (IH x') as [? ->]; [done|]. split; [set_solver|done].
  - intros [Hx ->]. induction x as [|b x IH]; simpl; [by rewrite decide_True|].
    rewrite decide_False by set_solver. by rewrite IH by set_solver.
Qed.
Lemma split_once_None sep l : split_once sep l = None ↔ sep ∉ l.
Proof.
  induction l as [|b l IH]; simpl; [split; [intros _; apply not_elem_of_nil|done]|].
  case_decide; [set_solver|]. destruct (split_once sep l) as [[]|]; set_solver.
Qed.
Lemma split_once_app sep x y : sep ∉ x → split_once sep (x ++ (sep :: y)) = Some (x, y).
Proof. intros. by apply split_once_Some. Qed.

(** ** Lines of a stream *)

(** The bytes a feed will bring and how it ends. *)
Fixpoint flat (f : Feed) : bytes * option string :=
  match f with
  | FeedEof | FeedChunk [] _ => ([], None)
  | FeedError e => ([], Some e)
  | FeedChunk c more => let '(s, e) := flat more in (c ++ s, e)
  end.

Definition too_long : BoundedLineRead := ReadError "tmux Control Mode line exceeds 1 MiB".

(** The next line of a stream of bytes with its end, and what follows it. *)
Definition line_of (s : bytes) (e : option string) : BoundedLineRead * bytes :=
  match split_once x0a s with
  | Some (l, rest) =>
      (if decide (MAX_CONTROL_LINE_BYTES < len l + 1) then too_long else ReadLine (pop_if x0d l),
       rest)
  | None =>
      (if decide (MAX_CONTROL_LINE_BYTES < len s) then too_long else
       match e with
       | Some e => ReadError e
       | None => match s with [] => ReadEof | _ => ReadLine s end
       end, [])
  end.

Lemma take_line_spec c :
  take_line c = match split_once x0a c with
                | Some (l, rest) => (l ++ [x0a], rest)
                | None => (c, [])
                end.
Proof.
  induction c as [|b c IH]; [done|]. simpl. case_decide as Hb; [by subst|].
  rewrite IH. by destruct (split_once x0a c) as [[]|].
Qed.

Lemma flat_refeed rest more : flat (refeed rest more) = (rest ++ (flat more).1, (flat more).2).
Proof. destruct rest; simpl; by destruct (flat more). Qed.

Lemma ends_with_snoc b l : ends_with b (l ++ [b]) = true.
Proof. unfold ends_with. rewrite last_snoc. by apply bool_decide_eq_true. Qed.
Lemma ends_with_notin b l : b ∉ l → ends_with b l = false.
Proof.
  intros Hb. unfold ends_with. apply bool_decide_eq_false. intros Hl.
  apply last_Some in Hl as [l' ->]. set_solver.
Qed.
Lemma pop_if_snoc b l : pop_if b (l ++ [b]) = l.
Proof. unfold pop_if. rewrite last_snoc, decide_True by done. apply removelast_last. Qed.
Lemma over_limit a b : MAX_CONTROL_LINE_BYTES < a +sat b ↔ MAX_CONTROL_LINE_BYTES < a + b.
Proof. unfold saturating_add, MAX_CONTROL_LINE_BYTES, u64_max. lia. Qed.

Lemma split_once_pre sep x y : sep ∉ x →
  split_once sep (x ++ y) = (λ p, (x ++ p.1, p.2)) <$> split_once sep y.
Proof.
  intros Hx. destruct (split_once sep y) as [[a b]|] eqn:H; simpl.
  - apply split_once_Some in H as [? ->]. rewrite app_assoc. apply split_once_app. set_solver.
  - apply split_once_None in H. apply split_once_None. set_solver.
Qed.

(** One bounded read is the next line of the stream, however it is buffered. *)
Lemma read_bounded_line_spec feed line : x0a ∉ line → len line ≤ MAX_CONTROL_LINE_BYTES →
  (read_bounded_line feed line).1 = (line_of (line ++ (flat feed).1) (flat feed).2).1 ∧
  ((∃ l, (read_bounded_line feed line).1 = ReadLine l) →
   (flat (read_bounded_line feed line).2).1 = (line_of (line ++ (flat feed).1) (flat feed).2).2 ∧
   (flat (read_bounded_line feed line).2).2 = (flat feed).2).
Proof.
  revert line. induction feed as [|e|c more IH]; intros line Hn Hl.
  1,2: cbn [read_bounded_line flat fst snd]; rewrite app_nil_r; unfold line_of;
    rewrite (proj2 (split_once_None _ _)) by done;
    rewrite decide_False by lia; cbn [fst snd]; split; [done|]; try done; by intros [? ?].
  destruct c as [|b c].
  { cbn [read_bounded_line flat fst snd]; rewrite app_nil_r; unfold line_of.
    rewrite (proj2 (split_once_None _ _)) by done. rewrite decide_False by lia. done. }
  set (ch := b :: c). assert (flat (FeedChunk ch more) = (ch ++ (flat more).1, (flat more).2)) as ->.
  { unfold ch. cbn [flat]. by destruct (flat more). }
  assert (read_bounded_line (FeedChunk ch more) line =
    let '(taken, rest) := take_line ch in
    if decide (MAX_CONTROL_LINE_BYTES < len line +sat len taken) then (too_long, refeed rest more)
    else if ends_with x0a (line ++ taken)
         then (ReadLine (pop_if x0d (pop_if x0a (line ++ taken))), refeed rest more)
         else read_bounded_line more (line ++ taken)) as ->.
  { unfold ch. cbn [read_bounded_line]. done. }
  clearbody ch. rewrite take_line_spec. unfold line_of. cbn [fst snd].
  rewrite split_once_pre by done.
  destruct (split_once x0a ch) as [[l rest]|] eqn:Hs.
  - apply split_once_Some in Hs as [Hnl ->].
    rewrite <-app_assoc. cbn [app]. rewrite split_once_app by done. cbn [fmap option_fmap option_map fst snd].
    rewrite (app_assoc line l [x0a]).
    rewrite ends_with_snoc, pop_if_snoc. simp_len.
    case_decide as H1; rewrite over_limit in H1; case_decide; try lia; cbn [fst snd].
    + split; [done|]. by intros [? ?].
    + split; [done|]. intros _. rewrite flat_refeed. done.
  - apply split_once_None in Hs. rewrite ends_with_notin by set_solver.
    case_decide as H1; rewrite over_limit in H1.
    + cbn [fst snd]. rewrite split_once_pre by done.
      split; [|by intros [? ?]].
      destruct (split_once x0a (flat more).1) as [[l rest]|]; cbn [fmap option_fmap option_map fst snd];
        simp_len; rewrite decide_True by lia; done.
    + destruct (IH (line ++ ch)) as [IH1 IH2]; [set_solver|simp_len; lia|].
      rewrite <-app_assoc in IH1, IH2. unfold line_of in IH1, IH2.
      rewrite split_once_pre in IH1, IH2 by done. done.
Qed.

(** ** Octal escapes *)

(** [v] writes [d] with some of its bytes as backslash escapes; a backslash always. *)
Inductive escaped : bytes → bytes → Prop :=
  | escaped_nil : escaped [] []
  | escaped_plain b d v : b ≠ x5c → escaped d v → escaped (b :: d) (b :: v)
  | escaped_octal b d a0 a1 a2 v :
      is_octal a0 = true → is_octal a1 = true → is_octal a2 = true →
      octal_value a0 a1 a2 = Byte.to_N b → escaped d v →
      escaped (b :: d) (x5c :: a0 :: a1 :: a2 :: v).

Lemma byte_of_N_Some n b : Byte.of_N n = Some b ↔ Byte.to_N b = n.
Proof. split; [apply Byte.to_of_N|]. intros <-. apply Byte.of_to_N. Qed.

Lemma decode_octal_escaped v d : decode_octal v = Ok d ↔ escaped d v.
Proof.
  split.
  - remember (length v) as n eqn:Hn. assert (length v ≤ n)%nat as Hle by lia. clear Hn.
    revert v d Hle. induction n as [|n IH]; intros [|b v] d Hle; cbn [length] in Hle; try lia;
      [intros [= <-]; constructor..|].
    cbn [decode_octal]. case_decide as Hb.
    + destruct (decode_octal v) as [d'|] eqn:Hv; intros [= <-]. constructor; [done|].
      apply IH; [lia|done].
    + destruct (decide (b = x5c)) as [->|]; [|done].
      destruct v as [|a0 [|a1 [|a2 v]]]; [done..|]. cbn [length] in Hle.
      destruct (is_octal a0) eqn:H0, (is_octal a1) eqn:H1, (is_octal a2) eqn:H2; try done.
      cbn [andb negb]. destruct (Byte.of_N _) as [o|] eqn:Ho; [|done].
      apply byte_of_N_Some in Ho.
      destruct (decode_octal v) as [d'|] eqn:Hv; intros [= <-].
      by constructor; [..|apply IH; [lia|done]].
  - induction 1 as [|b d v Hb _ IH|b d a0 a1 a2 v H0 H1 H2 Ho _ IH]; [done|..]; cbn [decode_octal].
    + by rewrite decide_True, IH by done.
    + rewrite decide_False by (intros []; done). rewrite H0, H1, H2. cbn [andb negb].
      apply eq_sym, byte_of_N_Some in Ho. by rewrite Ho, IH.
Qed.

(** An escape costs nothing: the decoded data is never longer than its line. *)
Lemma escaped_len d v : escaped d v → len d ≤ len v.
Proof. induction 1; simp_len; lia. Qed.

(** ** Identifiers and numbers *)

Definition is_id (prefix : byte) (v : bytes) : Prop :=
  ∃ ds, v = prefix :: ds ∧ ds ≠ [] ∧ Forall (λ b, is_digit b = true) ds.

Lemma id_ok_spec prefix v : id_ok prefix v = true ↔ is_id prefix v.
Proof.
  unfold id_ok, is_id. destruct v as [|b [|c ds]]; [naive_solver..|].
  rewrite andb_true_iff, bool_decide_eq_true. cbn [tail].
  rewrite forallb_forall. split.
  - intros [-> H]. exists (c :: ds). split_and!; [done..|]. by apply List.Forall_forall.
  - intros (? & [= -> <-] & _ & H). split; [done|]. by apply List.Forall_forall.
Qed.
Lemma control_id_Ok v prefix label s :
  control_id v prefix label = Ok s ↔ is_id prefix v ∧ s = text v.
Proof.
  unfold control_id. destruct (id_ok prefix v) eqn:H.
  - apply id_ok_spec in H. naive_solver.
  - split; [done|]. intros [Hid _]. apply id_ok_spec in Hid. congruence.
Qed.
Lemma ok_or_Ok {A E} (e : E) (o : option A) a : ok_or e o = Ok a ↔ o = Some a.
Proof. destruct o; simpl; naive_solver. Qed.
Lemma result_map_Ok {A B E} (f : A → B) (r : result A E) b :
  result_map f r = Ok b ↔ ∃ a, r = Ok a ∧ b = f a.
Proof. destruct r; simpl; naive_solver. Qed.

Lemma is_id_no_space prefix v sep : is_id prefix v → sep ≠ prefix → is_digit sep = false → sep ∉ v.
Proof.
  intros (ds & -> & _ & H) Hp Hs Hin. apply elem_of_cons in Hin as [->|Hin]; [done|].
  rewrite Forall_forall in H. specialize (H _ Hin). congruence.
Qed.

(** ** Notifications *)

Definition known_prefixes : list bytes :=
  [lit "%output "; lit "%extended-output "; lit "%session-changed "; lit "%session-renamed ";
   lit "%window-close "; lit "%pause "; lit "%continue "; lit "%exit "; lit "%end ";
   lit "%error "].

(** Which lines outside a block carry which item. *)
Inductive notifies : bytes → ControlItem → Prop :=
  | notifies_output p d v : is_id x25 p → escaped d v →
      notifies (lit "%output " ++ p ++ (x20 :: v)) (Output (text p) d None)
  | notifies_extended header fields p a d v age :
      split_window (lit " : ") (header ++ lit " : " ++ v) = Some (header, v) →
      split_on x20 header = p :: a :: fields → is_id x25 p →
      parse_unsigned u64_max a = Some age → escaped d v →
      notifies (lit "%extended-output " ++ header ++ lit " : " ++ v) (Output (text p) d (Some age))
  | notifies_session_changed s name : is_id x24 s →
      notifies (lit "%session-changed " ++ s ++ (x20 :: name)) (SessionChanged (text s))
  | notifies_session_renamed s d v : is_id x24 s → escaped d v →
      notifies (lit "%session-renamed " ++ s ++ (x20 :: v)) (SessionRenamed (text s) d)
  | notifies_window_close w : is_id x40 w →
      notifies (lit "%window-close " ++ w) (WindowClosed (text w))
  | notifies_pause p : is_id x25 p → notifies (lit "%pause " ++ p) (Paused (text p))
  | notifies_continue p : is_id x25 p → notifies (lit "%continue " ++ p) (Continued (text p))
  | notifies_exit : notifies (lit "%exit") Exit
  | notifies_exit_reason reason : notifies (lit "%exit " ++ reason) Exit
  | notifies_other l : l ≠ lit "exit" →
      (∀ p, p ∈ known_prefixes → strip_prefix p (lit "%" ++ l) = None) →
      notifies (lit "%" ++ l) Notification.

Lemma split_window_Some sep l x y : split_window sep l = Some (x, y) → l = x ++ sep ++ y.
Proof.
  revert x. induction l as [|b l IH]; intros x; cbn [split_window].
  - destruct (strip_prefix sep []) eqn:H; [|done]. intros [= <- <-]. by apply strip_prefix_Some in H.
  - destruct (strip_prefix sep (b :: l)) eqn:H.
    + intros [= <- <-]. by apply strip_prefix_Some in H.
    + destruct (split_window sep l) as [[x' y']|] eqn:Hw; [|done]. intros [= <- <-].
      cbn [app]. f_equal. by apply IH.
Qed.

Lemma parse_output_Ok rest item : parse_output rest = Ok item ↔
  ∃ p d v, is_id x25 p ∧ escaped d v ∧ rest = p ++ (x20 :: v) ∧ item = Output (text p) d None.
Proof.
  unfold parse_output. rewrite result_bind_Ok. split.
  - intros ([pane value] & Hs & Hk). apply ok_or_Ok, split_once_Some in Hs as [_ ->].
    apply result_bind_Ok in Hk as (p & Hp & Hk). apply control_id_Ok in Hp as [Hp ->].
    apply result_bind_Ok in Hk as (d & Hd & [= <-]). apply decode_octal_escaped in Hd.
    by exists pane, d, value.
  - intros (p & d & v & Hp & Hd & -> & ->). exists (p, v).
    rewrite split_once_app by (eapply is_id_no_space; [eassumption|done..]). split; [done|].
    rewrite (proj2 (control_id_Ok p x25 "pane" (text p))) by done. cbn [result_bind].
    by rewrite (proj2 (decode_octal_escaped v d)).
Qed.

Lemma parse_extended_output_Ok rest item : parse_extended_output rest = Ok item ↔
  ∃ header fields p a d v age, split_window (lit " : ") rest = Some (header, v) ∧
    split_on x20 header = p :: a :: fields ∧ is_id x25 p ∧
    parse_unsigned u64_max a = Some age ∧ escaped d v ∧ item = Output (text p) d (Some age).
Proof.
  unfold parse_extended_output. rewrite result_bind_Ok. split.
  - intros ([header v] & Hs & Hk). apply ok_or_Ok in Hs. cbn beta iota in Hk.
    apply result_bind_Ok in Hk as (p & Hp & Hk). apply ok_or_Ok in Hp.
    apply result_bind_Ok in Hk as (age & Ha & Hk). apply ok_or_Ok in Ha.
    apply result_bind_Ok in Hk as (q & Hq & Hk). apply control_id_Ok in Hq as [Hq ->].
    apply result_bind_Ok in Hk as (d & Hd & [= <-]). apply decode_octal_escaped in Hd.
    destruct (split_on x20 header) as [|p' [|a fields]] eqn:Hf; simplify_eq/=.
    by exists header, fields, p, a, d, v, age.
  - intros (header & fields & p & a & d & v & age & Hw & Hf & Hp & Ha & Hd & ->).
    exists (header, v). rewrite Hw. split; [done|]. rewrite Hf. cbn [head tail ok_or result_bind mbind option_bind].
    rewrite Ha. cbn [ok_or result_bind].
    rewrite (proj2 (control_id_Ok p x25 "pane" (text p))) by done. cbn [result_bind].
    by rewrite (proj2 (decode_octal_escaped v d)).
Qed.

Lemma parse_session_changed_Ok rest item : parse_session_changed rest = Ok item ↔
  ∃ s name, is_id x24 s ∧ rest = s ++ (x20 :: name) ∧ item = SessionChanged (text s).
Proof.
  unfold parse_session_changed. rewrite result_bind_Ok. split.
  - intros ([s name] & Hs & Hk). apply ok_or_Ok, split_once_Some in Hs as [_ ->].
    apply result_bind_Ok in Hk as (q & Hq & [= <-]). apply control_id_Ok in Hq as [Hq ->]. eauto.
  - intros (s & name & Hs & -> & ->). exists (s, name).
    rewrite split_once_app by (eapply is_id_no_space; [eassumption|done..]). split; [done|].
    by rewrite (proj2 (control_id_Ok s x24 "session" (text s))).
Qed.

Lemma parse_session_renamed_Ok rest item : parse_session_renamed rest = Ok item ↔
  ∃ s d v, is_id x24 s ∧ escaped d v ∧ rest = s ++ (x20 :: v) ∧ item = SessionRenamed (text s) d.
Proof.
  unfold parse_session_renamed. rewrite result_bind_Ok. split.
  - intros ([s value] & Hs & Hk). apply ok_or_Ok, split_once_Some in Hs as [_ ->].
    apply result_bind_Ok in Hk as (q & Hq & Hk). apply control_id_Ok in Hq as [Hq ->].
    apply result_bind_Ok in Hk as (d & Hd & [= <-]). apply decode_octal_escaped in Hd.
    by exists s, d, value.
  - intros (s & d & v & Hs & Hd & -> & ->). exists (s, v).
    rewrite split_once_app by (eapply is_id_no_space; [eassumption|done..]). split; [done|].
    rewrite (proj2 (control_id_Ok s x24 "session" (text s))) by done. cbn [result_bind].
    by rewrite (proj2 (decode_octal_escaped v d)).
Qed.

Lemma window_id_Ok rest f label prefix (item : ControlItem) :
  result_map f (control_id rest prefix label) = Ok item ↔ is_id prefix rest ∧ item = f (text rest).
Proof.
  rewrite result_map_Ok. split.
  - intros (s & Hs & ->). apply control_id_Ok in Hs as [? ->]. done.
  - intros [? ->]. exists (text rest). by rewrite control_id_Ok.
Qed.

(** A member of a closed list. *)
Ltac known :=
  unfold known_prefixes;
  repeat (apply elem_of_cons; first [left; reflexivity | right]).

Lemma parse_notification_notifies line item :
  parse_notification line = Ok item ↔ notifies line item.
Proof.
  split.
  - unfold parse_notification. intros H.
    repeat match type of H with
    | match strip_prefix ?p line with _ => _ end = _ =>
        let E := fresh "E" in
        destruct (strip_prefix p line) as [?rest|] eqn:E; [apply strip_prefix_Some in E|]
    end.
    + apply parse_output_Ok in H as (p & d & v & ? & ? & -> & ->). subst. by constructor.
    + apply parse_extended_output_Ok in H as (header & fields & p & a & d & v & age & Hw & ? & ? & ? & ? & ->).
      pose proof (split_window_Some _ _ _ _ Hw). subst. by econstructor.
    + apply parse_session_changed_Ok in H as (s & name & ? & -> & ->). subst. by constructor.
    + apply parse_session_renamed_Ok in H as (s & d & v & ? & ? & -> & ->). subst. by constructor.
    + apply window_id_Ok in H as [? ->]. subst. by constructor.
    + apply window_id_Ok in H as [? ->]. subst. by constructor.
    + apply window_id_Ok in H as [? ->]. subst. by constructor.
    + destruct (bool_decide_reflect (line = lit "%exit")) as [->|Hne].
      { simpl in H. simplify_eq. constructor. }
      destruct (starts_with (lit "%exit ") line) eqn:Hr; cbn [orb] in H.
      { simplify_eq. apply starts_with_true in Hr as [r ->]. constructor. }
      unfold reject_stray_block_terminator in H.
      destruct (starts_with (lit "%end ") line) eqn:H1; [done|].
      destruct (starts_with (lit "%error ") line) eqn:H2; [done|]. cbn [orb result_bind] in H.
      destruct (starts_with (lit "%") line) eqn:H3; [|done]. simplify_eq.
      apply starts_with_true in H3 as [l ->]. apply starts_with_None in Hr, H1, H2.
      constructor.
      { intros ->. by apply Hne. }
      intros p Hp. unfold known_prefixes in Hp.
      repeat (apply elem_of_cons in Hp as [->|Hp]; [assumption|]). by apply elem_of_nil in Hp.
  - intros H. unfold parse_notification. destruct H as
      [p d v Hp Hd|header fields p a d v age Hw Hf Hp Ha Hd|s name Hs|s d v Hs Hd|w Hw|p Hp|p Hp| |reason|l Hl Hk].
    + rewrite strip_prefix_app. apply parse_output_Ok. eauto 10.
    + rewrite strip_prefix_app. change (strip_prefix (lit "%output ") _) with (@None bytes).
      cbn beta iota. apply parse_extended_output_Ok. eauto 15.
    + rewrite strip_prefix_app. apply parse_session_changed_Ok. eauto 10.
    + rewrite strip_prefix_app. apply parse_session_renamed_Ok. eauto 10.
    + rewrite strip_prefix_app. by apply window_id_Ok.
    + rewrite strip_prefix_app. by apply window_id_Ok.
    + rewrite strip_prefix_app. by apply window_id_Ok.
    + done.
    + rewrite (proj2 (starts_with_true (lit "%exit ") (lit "%exit " ++ reason))) by eauto.
      rewrite orb_true_r. done.
    + repeat match goal with
      | |- context [match strip_prefix ?p (lit "%" ++ l) with _ => _ end] =>
          rewrite (Hk p) by known
      end.
      rewrite bool_decide_false by (intros [=]; done).
      unfold reject_stray_block_terminator.
      rewrite !(proj2 (starts_with_None _ _)) by (apply Hk; known).
      cbn [orb result_bind].
      by rewrite (proj2 (starts_with_true (lit "%") (lit "%" ++ l))) by eauto.
Qed.

(** ** Command blocks and transcripts *)

(** [line] is [prefix] followed by the three numbers of [header]. *)
Definition header_line (prefix line : bytes) (header : N * N * N) : Prop :=
  ∃ a b c, (∃ rest, line = prefix ++ rest ∧ split_on x20 rest = [a; b; c]) ∧
    parse_unsigned u64_max a = Some header.1.1 ∧ parse_unsigned u64_max b = Some header.1.2 ∧
    parse_unsigned u64_max c = Some header.2.
Definition terminator (success : bool) : bytes :=
  if success then lit "%end " else lit "%error ".
(** A line that a block takes as output. *)
Definition block_line (l : bytes) : Prop :=
  starts_with (lit "%begin ") l = false ∧ starts_with (lit "%end ") l = false ∧
  starts_with (lit "%error ") l = false.
Definition block_fits (output : list bytes) : Prop :=
  len output ≤ MAX_COMMAND_BLOCK_LINES ∧ sumN len output ≤ MAX_CONTROL_LINE_BYTES.

(** The complete transcripts of a Control Mode stream and the items they carry. *)
Inductive transcript : list bytes → list ControlItem → Prop :=
  | transcript_nil : transcript [] []
  | transcript_empty ls items : transcript ls items → transcript ([] :: ls) items
  | transcript_note l item ls items :
      l ≠ [] → starts_with (lit "%begin ") l = false → notifies l item →
      transcript ls items → transcript (l :: ls) (item :: items)
  | transcript_block b e header success output ls items :
      header_line (lit "%begin ") b header → Forall block_line output → block_fits output →
      header_line (terminator success) e header → transcript ls items →
      transcript (b :: output ++ (e :: ls)) (CommandResult header.1.2 success output :: items).

(** [parse_line] over a list of lines. *)
Fixpoint parse_lines (ls : list bytes) (parser : ControlParser)
    : ControlParser * result (list ControlItem) string :=
  match ls with
  | [] => (parser, Ok [])
  | l :: ls =>
      match parse_line l parser with
      | (parser, Err e) => (parser, Err e)
      | (parser, Ok item) =>
          let '(parser, r) := parse_lines ls parser in
          (parser, result_map (λ items, option_list item ++ items) r)
      end
  end.

Lemma parse_block_header_Ok prefix line header :
  parse_block_header prefix line = Ok header ↔ header_line prefix line header.
Proof.
  unfold parse_block_header, header_line, ascii_u64. split.
  - destruct (strip_prefix prefix line) as [rest|] eqn:Hp; [|done].
    apply strip_prefix_Some in Hp as ->.
    destruct (split_on x20 rest) as [|a [|b [|c [|]]]] eqn:Hs; try done.
    intros H. apply result_bind_Ok in H as (n1 & H1%ok_or_Ok & H).
    apply result_bind_Ok in H as (n2 & H2%ok_or_Ok & H).
    apply result_bind_Ok in H as (n3 & H3%ok_or_Ok & [= <-]).
    exists a, b, c. split; [by exists rest|]. done.
  - intros (a & b & c & (rest & -> & Hs) & H1 & H2 & H3). rewrite strip_prefix_app, Hs, H1, H2, H3.
    by destruct header as [[]].
Qed.

Lemma header_starts prefix line header : header_line prefix line header → starts_with prefix line = true.
Proof. intros (? & ? & ? & (rest & -> & _) & _). apply starts_with_true. eauto. Qed.
Lemma starts_with_app p rest : starts_with p (p ++ rest) = true.
Proof. apply starts_with_true. eauto. Qed.
Lemma header_not_empty prefix line header : prefix ≠ [] → header_line prefix line header → line ≠ [].
Proof. intros Hp (? & ? & ? & (rest & -> & _) & _) H. apply app_eq_nil in H as [-> _]. done. Qed.
Lemma terminator_inj line success header :
  header_line (terminator success) line header →
  starts_with (lit "%begin ") line = false ∧ starts_with (lit "%end ") line = success ∧
  starts_with (lit "%error ") line = negb success.
Proof. intros (? & ? & ? & (rest & -> & _) & _). by destruct success. Qed.

Lemma push_output_Ok l b : push_output l b =
  if decide (line_count b + 1 ≤ MAX_COMMAND_BLOCK_LINES) then
    if decide (payload_bytes b + len l ≤ MAX_CONTROL_LINE_BYTES) then
      Ok {| block_time := block_time b; block_number := block_number b;
            block_flags := block_flags b; payload_bytes := payload_bytes b + len l;
            line_count := line_count b + 1; block_output := block_output b ++ [l] |}
    else Err "tmux command block output exceeds 1 MiB"
  else Err "tmux command block has too many output lines".
Proof.
  unfold push_output, checked_add, MAX_COMMAND_BLOCK_LINES, MAX_CONTROL_LINE_BYTES, u64_max.
  repeat case_decide; try done; lia.
Qed.

(** The block a parser is inside of counts what it holds. *)
Definition block_wf (b : CommandBlock) : Prop :=
  payload_bytes b = sumN len (block_output b) ∧ line_count b = len (block_output b) ∧
  block_fits (block_output b).
Definition parser_wf (p : ControlParser) : Prop :=
  match p with Some b => block_wf b | None => True end.

Lemma block_new_wf t n f :
  block_wf {| block_time := t; block_number := n; block_flags := f; payload_bytes := 0;
              line_count := 0; block_output := [] |}.
Proof. done. Qed.

Lemma push_output_wf l b b' : block_wf b → push_output l b = Ok b' → block_wf b'.
Proof.
  intros (Hp & Hc & _ & _). rewrite push_output_Ok. repeat case_decide; intros [= <-].
  unfold block_wf, block_fits. cbn [payload_bytes line_count block_output]. simp_len. lia.
Qed.

Lemma parse_line_wf l p : parser_wf p → parser_wf (parse_line l p).1.
Proof.
  intros Hp. destruct p as [b|]; unfold parse_line, parse_in_block.
  - destruct (starts_with (lit "%begin ") l); [done|].
    destruct (_ || _).
    + destruct (parse_block_header _ l); [case_decide|]; done.
    + destruct (push_output l b) as [b'|] eqn:Hpush; [|done]. by eapply push_output_wf.
  - case_match; [done|]. case_match; [|done].
    destruct (parse_block_header _ l) as [[[t n] f]|]; [|done].
    apply block_new_wf.
Qed.

(** Inside a block: the lines up to the terminator become its output. *)
Lemma parse_lines_block b output e success ls :
  block_wf b → Forall block_line output → block_fits (block_output b ++ output) →
  header_line (terminator success) e (block_time b, block_number b, block_flags b) →
  parse_lines (output ++ (e :: ls)) (Some b) =
    (let '(p, r) := parse_lines ls None in
     (p, result_map (cons (CommandResult (block_number b) success (block_output b ++ output))) r)).
Proof.
  intros Hb Hout Hfits He. revert b Hb Hfits He.
  induction Hout as [|l output [H1 [H2 H3]] _ IH]; intros b Hb Hfits He; cbn [app].
  - rewrite app_nil_r in *. cbn [parse_lines parse_line]. unfold parse_in_block.
    destruct (terminator_inj e success _ He) as (E1 & E2 & E3). rewrite E1, E2, E3.
    replace (success || negb success) with true by by destruct success. cbn zeta.
    change (if success then lit "%end " else lit "%error ") with (terminator success).
    rewrite (proj2 (parse_block_header_Ok _ _ _) He), decide_True by done.
    by destruct (parse_lines ls None) as [p r].
  - cbn [parse_lines parse_line]. unfold parse_in_block. rewrite H1, H2, H3. cbn [orb].
    rewrite push_output_Ok. destruct Hb as (Hp & Hc & _). destruct Hfits as [Hf1 Hf2].
    simp_len. rewrite !decide_True by lia.
    set (b' := {| block_time := block_time b; block_number := block_number b;
                  block_flags := block_flags b; payload_bytes := payload_bytes b + len l;
                  line_count := line_count b + 1; block_output := block_output b ++ [l] |}).
    rewrite (IH b').
    + cbn [block_number block_output b']. rewrite <-app_assoc. cbn [app].
      destruct (parse_lines ls None) as [p [r|r]]; done.
    + unfold b', block_wf, block_fits. cbn [payload_bytes line_count block_output]. simp_len. lia.
    + unfold b', block_fits. cbn [block_output]. rewrite <-app_assoc. cbn [app]. simp_len. lia.
    + done.
Qed.

Lemma transcript_parses ls items : transcript ls items → parse_lines ls None = (None, Ok items).
Proof.
  induction 1 as [|ls items _ IH|l item ls items Hne Hb Hn _ IH|b e h success output ls items Hb Hout Hf He _ IH];
    [done|..].
  - cbn [parse_lines parse_line]. rewrite bool_decide_true by done. by rewrite IH.
  - cbn [parse_lines parse_line]. rewrite bool_decide_false, Hb by done.
    rewrite (proj2 (parse_notification_notifies l item) Hn). cbn [result_map]. by rewrite IH.
  - cbn [parse_lines parse_line].
    rewrite bool_decide_false by (eapply header_not_empty; [|exact Hb]; done).
    rewrite (header_starts _ _ _ Hb), (proj2 (parse_block_header_Ok _ _ _) Hb).
    destruct h as [[t n] f]. rewrite (parse_lines_block _ output e success).
    + cbn [block_output block_number app]. rewrite IH. done.
    + apply block_new_wf.
    + done.
    + done.
    + done.
Qed.

Lemma parse_lines_in_block b ls items : block_wf b →
  parse_lines ls (Some b) = (None, Ok items) →
  ∃ output e success ls' items', ls = output ++ (e :: ls') ∧ Forall block_line output ∧
    block_fits (block_output b ++ output) ∧
    header_line (terminator success) e (block_time b, block_number b, block_flags b) ∧
    parse_lines ls' None = (None, Ok items') ∧
    items = CommandResult (block_number b) success (block_output b ++ output) :: items'.
Proof.
  revert b items. induction ls as [|l ls IH]; intros b items Hb; cbn [parse_lines parse_line]; [done|].
  unfold parse_in_block.
  destruct (starts_with (lit "%begin ") l) eqn:H1; [done|].
  destruct (starts_with (lit "%end ") l || starts_with (lit "%error ") l) eqn:H23.
  - cbn zeta. set (success := starts_with (lit "%end ") l).
    change (if success then lit "%end " else lit "%error ") with (terminator success).
    destruct (parse_block_header (terminator success) l) as [h|] eqn:Hh; [|done].
    case_decide as Heq; [|done]. subst h. apply parse_block_header_Ok in Hh.
    destruct (parse_lines ls None) as [p [r|r]] eqn:Hrest; cbn [result_map]; [|done].
    intros [= -> <-]. exists [], l, success, ls, r. rewrite app_nil_r.
    split_and!; try done. apply Hb.
  - apply orb_false_iff in H23 as [H2 H3].
    destruct (push_output l b) as [b'|] eqn:Hpush; [|done].
    pose proof (push_output_wf _ _ _ Hb Hpush) as Hb'.
    destruct (parse_lines ls (Some b')) as [p [r|r]] eqn:Hrest; cbn [result_map]; [|done].
    intros [= -> <-].
    destruct (IH b' r Hb' Hrest) as (output & e & success & ls' & items' & -> & Hout & Hf & He & Hp & ->).
    rewrite push_output_Ok in Hpush. repeat case_decide; simplify_eq.
    cbn [block_output block_number block_time block_flags] in *. rewrite <-app_assoc in *.
    exists (l :: output), e, success, ls', items'. split_and!; try done. by constructor.
Qed.

Lemma parses_transcript ls items : parse_lines ls None = (None, Ok items) → transcript ls items.
Proof.
  remember (length ls) as n eqn:Hn. assert (length ls ≤ n)%nat as Hle by lia. clear Hn.
  revert ls items Hle. induction n as [|n IH]; intros [|l ls] items Hle; cbn [length] in Hle;
    try lia; try (intros [= <-]; constructor).
  cbn [parse_lines parse_line].
  case_bool_decide as Hl.
  { subst. destruct (parse_lines ls None) as [p [r|r]] eqn:Hr; cbn [result_map]; [|done].
    intros [= -> <-]. constructor. apply IH; [lia|done]. }
  destruct (starts_with (lit "%begin ") l) eqn:Hb.
  - destruct (parse_block_header _ l) as [[[t k] f]|] eqn:Hh; [|done]. apply parse_block_header_Ok in Hh.
    destruct (parse_lines ls _) as [p [r|r]] eqn:Hr; cbn [result_map]; [|done].
    intros [= -> <-].
    apply parse_lines_in_block in Hr as
      (output & e & success & ls' & items' & -> & Hout & Hf & He & Hp & ->).
    2:{ apply block_new_wf. }
    cbn [block_output block_number block_time block_flags app option_list] in *.
    apply (transcript_block l e (t, k, f)); try done. apply IH; [|done].
    rewrite length_app in Hle. cbn [length] in Hle. lia.
  - destruct (parse_notification l) as [item|] eqn:Hi; cbn [result_map]; [|done].
    apply parse_notification_notifies in Hi.
    destruct (parse_lines ls None) as [p [r|r]] eqn:Hr; cbn [result_map]; [|done].
    intros [= -> <-]. constructor; try done. apply IH; [lia|done].
Qed.
