(* ===== verification/TmuxControl.v ===== *)
(** * TmuxControl

    One imported tmux pane's control client ([crates/ctxmux-daemon/src/lib.rs]): the
    command tracker and writer, the completion receipt, the output reader with its
    item handler, and the resolution of why the client ended.  What the reader does
    to its Run goes through the class [RunSink]. *)

From S2P Require Import Prelude.
From S2P Require Import Protocol.
From S2P Require Import Wire.
From S2P Require Import TmuxParser.

(** ** Commands and their results *)

Inductive TmuxCommandKind := TargetProbe | Continue.
#[global] Instance TmuxCommandKind_eq_dec : EqDecision TmuxCommandKind.
Proof. solve_decision. Defined.
Inductive TmuxCommandResultKind := Bootstrap | PendingResult (kind : TmuxCommandKind).
#[global] Instance TmuxCommandResultKind_eq_dec : EqDecision TmuxCommandResultKind.
Proof. solve_decision. Defined.
Inductive TmuxControlCommand :=
  | InterruptControl (reason : InterruptionReason) | ReaderTerminated | ShutdownControl.

Record TmuxCommandTracker := {
  session_established : bool;
  bootstrap_result_seen : bool;
  last_result_number : option N;
  pending : list TmuxCommandKind;
}.
Definition tracker_default : TmuxCommandTracker :=
  {| session_established := false; bootstrap_result_seen := false;
     last_result_number := None; pending := [] |}.
Definition set_pending (p : list TmuxCommandKind) (t : TmuxCommandTracker) : TmuxCommandTracker :=
  {| session_established := session_established t;
     bootstrap_result_seen := bootstrap_result_seen t;
     last_result_number := last_result_number t; pending := p |}.

Definition MAX_PENDING : N := 2.

Definition observe_session (t : TmuxCommandTracker) : TmuxCommandTracker * bool :=
  if session_established t then (t, false)
  else ({| session_established := true; bootstrap_result_seen := bootstrap_result_seen t;
           last_result_number := last_result_number t; pending := pending t |}, true).

Definition prepare_enqueue (kind : TmuxCommandKind) (t : TmuxCommandTracker)
    : result bool string :=
  if negb (session_established t)
  then Err "tmux adapter command arrived before session establishment" else
  if decide (kind ∈ pending t) then Ok false else
  if decide (MAX_PENDING ≤ len (pending t))
  then Err "tmux adapter command queue exceeded its bound" else Ok true.

Definition commit_enqueue (kind : TmuxCommandKind) (t : TmuxCommandTracker)
    : outcome TmuxCommandTracker :=
  let! _ := check "debug assertion failed" (session_established t) in
  let! _ := check "debug assertion failed" (bool_decide (kind ∉ pending t)) in
  let! _ := check "debug assertion failed" (bool_decide (len (pending t) < MAX_PENDING)) in
  Ret (set_pending (pending t ++ [kind]) t).

Definition correlate_result (number : N) (t : TmuxCommandTracker)
    : TmuxCommandTracker * result TmuxCommandResultKind string :=
  if match last_result_number t with Some last => bool_decide (number ≤ last) | None => false end
  then (t, Err "tmux command result number did not advance") else
  let t := {| session_established := session_established t;
              bootstrap_result_seen := bootstrap_result_seen t;
              last_result_number := Some number; pending := pending t |} in
  match pending t with
  | kind :: rest => (set_pending rest t, Ok (PendingResult kind))
  | [] =>
      if negb (session_established t) && negb (bootstrap_result_seen t) then
        ({| session_established := session_established t; bootstrap_result_seen := true;
            last_result_number := last_result_number t; pending := pending t |}, Ok Bootstrap)
      else (t, Err "tmux returned a command result without a pending adapter command")
  end.

(** ** The writer *)

(** What the client's standard input answers to one [write_all] and [flush]. *)
Inductive StdinAnswer := StdinWritten | StdinFailed (written : N) (error : string).

Record TmuxCommandWriter := { stdin : bytes; tracker : TmuxCommandTracker }.

(** An [io::Error] is its message. *)
Definition write_command (a : StdinAnswer) (kind : TmuxCommandKind) (command : bytes)
    (w : TmuxCommandWriter) : outcome (TmuxCommandWriter * result unit string) :=
  match prepare_enqueue kind (tracker w) with
  | Err message => Ret (w, Err message)
  | Ok false => Ret (w, Ok tt)
  | Ok true =>
      match a with
      | StdinFailed n e =>
          Ret ({| stdin := stdin w ++ takeN n command; tracker := tracker w |}, Err e)
      | StdinWritten =>
          let! t := commit_enqueue kind (tracker w) in
          Ret ({| stdin := stdin w ++ command; tracker := t |}, Ok tt)
      end
  end.

Definition establish_session_and_write (a : StdinAnswer) (kind : TmuxCommandKind)
    (command : bytes) (w : TmuxCommandWriter)
    : outcome (TmuxCommandWriter * result unit string) :=
  let '(t, established) := observe_session (tracker w) in
  let w := {| stdin := stdin w; tracker := t |} in
  if (established : bool) then write_command a kind command w else Ret (w, Ok tt).

Definition write_periodic_probe (a : StdinAnswer) (command : bytes) (w : TmuxCommandWriter)
    : outcome (TmuxCommandWriter * result unit string) :=
  if session_established (tracker w) then write_command a TargetProbe command w
  else Ret (w, Ok tt).

(** ** Completion and the control *)

(** The receipt channel: what was sent and whether the waiter still holds the
    sender. *)
Inductive TmuxCompletion :=
  | CompletionPending (sent : option (result unit string)) (sender : bool)
  | Complete (result : result unit string).
Inductive TmuxCompletionObservation :=
  | ObservedPending | ObservedComplete (result : result unit string).

Definition waiter_ended : result unit string :=
  Err "tmux control waiter ended without a completion receipt".

Definition observe (c : TmuxCompletion) : TmuxCompletion * TmuxCompletionObservation :=
  match c with
  | Complete r => (c, ObservedComplete r)
  | CompletionPending (Some r) _ => (Complete r, ObservedComplete r)
  | CompletionPending None true => (c, ObservedPending)
  | CompletionPending None false => (Complete waiter_ended, ObservedComplete waiter_ended)
  end.

(** [wait]: [arrives] is what the channel brings within the timeout. *)
Inductive Arrival := ArrivesResult (r : result unit string) | ArrivesNothing | ArrivesHangup.
Definition wait_completion (arrives : Arrival) (c : TmuxCompletion)
    : TmuxCompletion * result unit string :=
  match c with
  | Complete r => (c, r)
  | CompletionPending (Some r) _ => (Complete r, r)
  | CompletionPending None false => (Complete waiter_ended, waiter_ended)
  | CompletionPending None true =>
      match arrives with
      | ArrivesResult r => (Complete r, r)
      | ArrivesNothing => (c, Err "timed out waiting for tmux control cleanup")
      | ArrivesHangup => (Complete waiter_ended, waiter_ended)
      end
  end.

Record TmuxRunControl := {
  writer : option TmuxCommandWriter;
  commands : list TmuxControlCommand;  (** sent on the command channel *)
  completion : TmuxCompletion;
}.
Definition set_writer (w : option TmuxCommandWriter) (c : TmuxRunControl) : TmuxRunControl :=
  {| writer := w; commands := commands c; completion := completion c |}.
Definition set_completion (d : TmuxCompletion) (c : TmuxRunControl) : TmuxRunControl :=
  {| writer := writer c; commands := commands c; completion := d |}.
Definition send_command (e : TmuxControlCommand) (c : TmuxRunControl) : TmuxRunControl :=
  {| writer := writer c; commands := commands c ++ [e]; completion := completion c |}.

Definition with_writer
    (operation : TmuxCommandWriter → outcome (TmuxCommandWriter * result unit string))
    (c : TmuxRunControl) : outcome (TmuxRunControl * result unit string) :=
  match writer c with
  | None => Ret (c, Err "tmux control client is closed")
  | Some w => let! '(w, r) := operation w in Ret (set_writer (Some w) c, r)
  end.
Definition control_correlate (number : N) (c : TmuxRunControl)
    : TmuxRunControl * result TmuxCommandResultKind string :=
  match writer c with
  | None => (c, Err "tmux control client is closed")
  | Some w =>
      let '(t, r) := correlate_result number (tracker w) in
      (set_writer (Some {| stdin := stdin w; tracker := t |}) c, r)
  end.
Definition close_writer (c : TmuxRunControl) : TmuxRunControl * bool :=
  (set_writer None c, bool_decide (is_Some (writer c))).
Definition observe_completion (c : TmuxRunControl)
    : TmuxRunControl * TmuxCompletionObservation :=
  let '(d, o) := observe (completion c) in (set_completion d c, o).

Definition tmux_quiescence (c : TmuxRunControl) : TmuxRunControl * result unit string :=
  if bool_decide (is_Some (writer c)) then (c, Err "tmux control writer is still open") else
  let '(c, o) := observe_completion c in
  (c, match o with
      | ObservedComplete r => r
      | ObservedPending => Err "tmux control cleanup is still pending"
      end).

Definition request_tmux_import_cleanup (c : TmuxRunControl) : TmuxRunControl :=
  (close_writer (send_command (InterruptControl TmuxServerUnavailable) c)).1.

(** ** Target identity *)

Record TargetIdentity := {
  server_pid : N; server_started_at : N; session_id : string; window_id : string;
  pane_id : string; identity_pane_pid : N;
}.
#[global] Instance TargetIdentity_eq_dec : EqDecision TargetIdentity.
Proof. solve_decision. Defined.
Definition identity_of (target : TmuxPaneInfo) : TargetIdentity :=
  {| server_pid := pane_server_pid target; server_started_at := pane_server_started_at target;
     session_id := pane_session_id target; window_id := pane_window_id target;
     pane_id := pane_pane_id target; identity_pane_pid := pane_pid target |}.

Definition TARGET_IDENTITY_FORMAT : string :=
  "#{pid}	#{start_time}	#{session_id}	#{window_id}	#{pane_id}	#{pane_pid}".
Definition newline : string := String (Ascii.ascii_of_nat 10) "".
Definition target_probe_command (pane : string) : bytes :=
  lit ("display-message -p -t " +:+ pane +:+ " '" +:+ TARGET_IDENTITY_FORMAT +:+ "'" +:+ newline).

Definition target_identity_matches (target : TmuxPaneInfo) (output : bytes)
    : result bool string :=
  match split_on x09 output with
  | [f0; f1; f2; f3; f4; f5] =>
      let? server := parse_control_number u32_max f0 "server PID" in
      let? started := parse_control_number u64_max f1 "server start time" in
      let? session := control_id f2 x24 "session" in
      let? window := control_id f3 x40 "window" in
      let? pane := control_id f4 x25 "pane" in
      let? pid := parse_control_number u32_max f5 "pane PID" in
      Ok (bool_decide ({| server_pid := server; server_started_at := started;
                          session_id := session; window_id := window; pane_id := pane;
                          identity_pane_pid := pid |} = identity_of target))
  | _ => Err "tmux target probe returned an unexpected field count"
  end.

(** ** Terminations *)

Record TmuxTermination := { term_error : ProtocolError; term_reason : InterruptionReason }.
Record TmuxReaderTermination := { failure : TmuxTermination; reader_ready : bool }.

Definition tmux_control_failure (e : ProtocolError) (r : InterruptionReason) : TmuxTermination :=
  {| term_error := e; term_reason := r |}.
Definition backend_protocol_error (action error : string) : ProtocolError :=
  protocol_error BackendUnavailable ("failed to " +:+ action +:+ ": " +:+ error).

(** ** The reader's handler *)

(** What the reader needs of its Run. *)
Class RunSink (R : Type) := {
  record_output : bytes → R → outcome R;
  mark_output_source_gap : R → outcome (R * N);
  publish_event : RunEvent → R → outcome R;
}.

(** The reader's world: the Run, its control, the readiness flag and the one-slot
    channel to the importer, as what was put into it. *)
Record Reader (R : Type) := {
  run : R;
  control : TmuxRunControl;
  ready : bool;
  announced : list (result unit ProtocolError);
}.
Arguments run {R} _.
Arguments control {R} _.
Arguments ready {R} _.
Arguments announced {R} _.

Section reader.
Context {R : Type} `{!RunSink R}.

Definition set_run (r : R) (x : Reader R) : Reader R :=
  {| run := r; control := control x; ready := ready x; announced := announced x |}.
Definition set_control (c : TmuxRunControl) (x : Reader R) : Reader R :=
  {| run := run x; control := c; ready := ready x; announced := announced x |}.

Definition RM (A : Type) : Type := M (Reader R) TmuxTermination A.

Definition on_run (f : R → outcome R) : RM unit := λ x,
  let! r := f (run x) in Ret (set_run r x, Ok tt).
Definition write_or_fail (action : string)
    (f : TmuxCommandWriter → outcome (TmuxCommandWriter * result unit string)) : RM unit := λ x,
  let! '(c, r) := with_writer f (control x) in
  Ret (set_control c x,
       match r with
       | Ok _ => Ok tt
       | Err e => Err (tmux_control_failure (backend_protocol_error action e)
                         TmuxServerUnavailable)
       end).
Definition fail_with {A} (code : ErrorCode) (message : string) (reason : InterruptionReason)
    : RM A := mfail (tmux_control_failure (protocol_error code message) reason).
Definition before_ready_reason (x : Reader R) : InterruptionReason :=
  if ready x then TmuxProtocolError else TmuxServerUnavailable.

(** [try_send] on the channel of capacity one, whose importer may have received or
    dropped what came before: [room] says whether it takes the message. *)
Definition announce (room : bool) (m : result unit ProtocolError) (x : Reader R) : Reader R :=
  {| run := run x; control := control x; ready := ready x;
     announced := if room then announced x ++ [m] else announced x |}.
Definition set_ready (x : Reader R) : Reader R :=
  {| run := run x; control := control x; ready := true; announced := announced x |}.

Definition probe_result (room : bool) (target : TmuxPaneInfo) (output : list bytes) : RM unit :=
  match output with
  | [line] =>
      match target_identity_matches target line with
      | Ok true =>
          modify (λ x, if ready x then x else announce room (Ok tt) (set_ready x))
      | Ok false =>
          fail_with TargetChanged "tmux target identity changed after import" TmuxTargetChanged
      | Err e =>
          mfail (tmux_control_failure (backend_protocol_error "parse tmux target probe" e)
                   TmuxProtocolError)
      end
  | _ => fail_with BackendUnavailable "tmux target probe returned an unexpected output shape"
           TmuxProtocolError
  end.

Definition handle_tmux_command_result (room : bool) (target : TmuxPaneInfo) (number : N)
    (success : bool) (output : list bytes) : RM unit := λ x,
  let '(c, r) := control_correlate number (control x) in
  let x := set_control c x in
  match r with
  | Err e =>
      Ret (x, Err (tmux_control_failure (backend_protocol_error "correlate tmux command result" e)
                     (before_ready_reason x)))
  | Ok Bootstrap =>
      if success && bool_decide (output = []) then Ret (x, Ok tt)
      else fail_with BackendUnavailable "tmux Control Mode bootstrap returned an unexpected result"
             TmuxServerUnavailable x
  | Ok (PendingResult kind) =>
      if negb success then
        fail_with TargetChanged ("tmux pane " +:+ pane_pane_id target +:+
          " no longer accepts adapter commands") TmuxTargetChanged x
      else
      match kind with
      | TargetProbe => probe_result room target output x
      | Continue =>
          if bool_decide (output = []) then Ret (x, Ok tt)
          else fail_with BackendUnavailable "tmux continue command returned unexpected output"
                 TmuxProtocolError x
      end
  end.

(** [answer] is what the client's standard input does with a command written while
    this item is handled. *)
Definition handle_tmux_control_item (room : bool) (answer : StdinAnswer)
    (target : TmuxPaneInfo) (item : ControlItem) : RM unit :=
  match item with
  | Output p d _ =>
      if decide (p = pane_pane_id target) then on_run (record_output d) else mret_ tt
  | SessionChanged s =>
      if decide (s = pane_session_id target) then
        write_or_fail "write initial tmux target probe"
          (establish_session_and_write answer TargetProbe
             (target_probe_command (pane_pane_id target)))
      else fail_with TargetChanged "tmux Control Mode client attached to a different session"
             TmuxTargetChanged
  | CommandResult number success output =>
      handle_tmux_command_result room target number success output
  | SessionRenamed s name =>
      if decide (s = pane_session_id target)
      then on_run (publish_event (Tmux (SessionRenamedEvent name))) else mret_ tt
  | WindowClosed w =>
      if decide (w = pane_window_id target) then
        fail_with TargetChanged ("tmux target window " +:+ w +:+ " closed") TmuxTargetChanged
      else mret_ tt
  | Paused p =>
      if decide (p = pane_pane_id target) then
        (λ x,
          let! '(r, latest) := mark_output_source_gap (run x) in
          let! r := publish_event (Tmux PausedEvent) r in
          let! r := publish_event (Gap latest OutputGapCauses.SOURCE_DISCONTINUITY) r in
          write_or_fail "write tmux continue command"
            (write_command answer Continue
               (lit ("refresh-client -A " +:+ p +:+ ":continue" +:+ newline)))
            (set_run r x))
      else mret_ tt
  | Continued p =>
      if decide (p = pane_pane_id target)
      then on_run (publish_event (Tmux ContinuedEvent)) else mret_ tt
  | Exit => fail_with BackendUnavailable "tmux Control Mode client reported exit"
              TmuxServerUnavailable
  | Notification => mret_ tt
  end.

(** What the waiter's thread does to the shared control between two of the reader's
    sections: its periodic probe, or closing the writer. *)
Inductive WaiterMove := WaiterProbe (answer : StdinAnswer) (command : bytes) | WaiterCloses.
Definition waiter_move (m : WaiterMove) (c : TmuxRunControl) : outcome TmuxRunControl :=
  match m with
  | WaiterProbe answer command =>
      let! '(c, _) := with_writer (write_periodic_probe answer command) c in Ret c
  | WaiterCloses => Ret (close_writer c).1
  end.
Fixpoint waiter_moves (ms : list WaiterMove) (c : TmuxRunControl) : outcome TmuxRunControl :=
  match ms with
  | [] => Ret c
  | m :: ms => let! c := waiter_move m c in waiter_moves ms c
  end.

(** What surrounds one line: the waiter's moves since the last one, the importer's
    channel and the client's standard input. *)
Record LineEnv := { others : list WaiterMove; room : bool; answer : StdinAnswer }.

(** One line of [read_tmux_output]'s loop after it was read. *)
Definition reader_line (env : LineEnv) (target : TmuxPaneInfo)
    (line : bytes) (parser : ControlParser) (x : Reader R)
    : outcome (Reader R * result ControlParser TmuxTermination) :=
  let! c := waiter_moves (others env) (control x) in
  let x := set_control c x in
  let '(parser, item) := parse_line line parser in
  match item with
  | Err e =>
      Ret (x, Err (tmux_control_failure (backend_protocol_error "parse tmux Control Mode stream" e)
                     (before_ready_reason x)))
  | Ok None => Ret (x, Ok parser)
  | Ok (Some item) =>
      let! '(x, r) := handle_tmux_control_item (room env) (answer env) target item x in
      Ret (x, match r with Ok _ => Ok parser | Err f => Err f end)
  end.

Definition reader_eof (parser : ControlParser) (x : Reader R) : TmuxTermination :=
  match parser_finish parser with
  | Err e => tmux_control_failure (backend_protocol_error "finish tmux Control Mode stream" e)
               (before_ready_reason x)
  | Ok _ => tmux_control_failure
              (protocol_error BackendUnavailable "tmux Control Mode stream closed")
              TmuxServerUnavailable
  end.

(** The loop; each line takes at least one byte from the feed. *)
Fixpoint read_tmux_output (fuel : nat) (envs : nat → LineEnv)
    (target : TmuxPaneInfo) (feed : Feed) (parser : ControlParser) (x : Reader R)
    : outcome (Reader R * TmuxReaderTermination) :=
  match fuel with
  | O => Panic "out of fuel"
  | S fuel =>
      match read_bounded_line feed [] with
      | (ReadEof, _) => Ret (x, {| failure := reader_eof parser x; reader_ready := ready x |})
      | (ReadError e, _) =>
          Ret (x, {| failure := tmux_control_failure
                       (backend_protocol_error "read tmux Control Mode stream" e)
                       (before_ready_reason x);
                     reader_ready := ready x |})
      | (ReadLine line, feed) =>
          let! '(x, r) := reader_line (envs fuel) target line parser x in
          match r with
          | Err f => Ret (x, {| failure := f; reader_ready := ready x |})
          | Ok parser => read_tmux_output fuel envs target feed parser x
          end
      end
  end.
End reader.

(** ** Why the client ended *)

Inductive TmuxWaitCause :=
  | CauseReaderTerminated
  | CauseInterrupted (reason : InterruptionReason)
  | CauseShutdown
  | CauseCommandChannelClosed
  | CauseSocketTargetChanged
  | CauseProbeWriteFailed (error : string)
  | CauseChildExited
  | CauseChildStatusFailed (error : string).

Definition interruption_error_code (r : InterruptionReason) : ErrorCode :=
  match r with
  | TmuxTargetChanged => TargetChanged
  | DaemonRestart | TmuxServerUnavailable | TmuxProtocolError => BackendUnavailable
  end.

Definition fallback_tmux_termination (cause : TmuxWaitCause) (control_pid : N)
    : TmuxTermination :=
  let '(code, message, reason) :=
    match cause with
    | CauseReaderTerminated =>
        (BackendUnavailable, "tmux output reader ended without a termination receipt",
         TmuxServerUnavailable)
    | CauseInterrupted reason =>
        (interruption_error_code reason, "tmux Control Mode client was interrupted", reason)
    | CauseShutdown =>
        (BackendUnavailable, "tmux Control Mode client stopped during daemon shutdown",
         TmuxServerUnavailable)
    | CauseCommandChannelClosed =>
        (BackendUnavailable, "tmux Control Mode command channel closed", TmuxServerUnavailable)
    | CauseSocketTargetChanged =>
        (TargetChanged, "tmux server socket identity changed", TmuxTargetChanged)
    | CauseProbeWriteFailed error =>
        (BackendUnavailable, "failed to write tmux target probe: " +:+ error,
         TmuxServerUnavailable)
    | CauseChildExited =>
        (BackendUnavailable, "tmux Control Mode client " +:+ pretty control_pid +:+
           " exited before import", TmuxServerUnavailable)
    | CauseChildStatusFailed error =>
        (BackendUnavailable, "failed to query tmux Control Mode client " +:+ pretty control_pid
           +:+ ": " +:+ error, TmuxServerUnavailable)
    end in
  tmux_control_failure (protocol_error code message) reason.

Definition resolve_tmux_termination (cause : TmuxWaitCause)
    (reader : option TmuxReaderTermination) (control_pid : N) : TmuxTermination :=
  match cause with
  | CauseReaderTerminated | CauseChildExited =>
      match reader with
      | Some t => failure t
      | None => fallback_tmux_termination cause control_pid
      end
  | CauseProbeWriteFailed _ =>
      match reader with
      | Some t => if decide (term_reason (failure t) = TmuxServerUnavailable)
                  then fallback_tmux_termination cause control_pid else failure t
      | None => fallback_tmux_termination cause control_pid
      end
  | cause => fallback_tmux_termination cause control_pid
  end.

Definition combine_cleanup_failure (existing : result unit string) (fail : string)
    : result unit string :=
  match existing with
  | Ok _ => Err fail
  | Err e => Err (e +:+ "; " +:+ fail)
  end.

(** The reader's receipt within the drain timeout. *)
Inductive ReaderReceipt :=
  | ReceiptArrived (t : TmuxReaderTermination) | ReceiptTimeout | ReceiptHangup.

Definition confirms_identity (cause : TmuxWaitCause) (reader : option TmuxReaderTermination)
    : bool :=
  match reader with
  | Some t =>
      reader_ready t &&
      match cause with
      | CauseReaderTerminated | CauseChildExited | CauseProbeWriteFailed _ => true
      | _ => false
      end
  | None => false
  end.

(** [complete_tmux_control] up to what it publishes: the termination and the
    cleanup receipt.  [rediscovery] is [target_changed_after_control_loss]. *)
Definition conclude_tmux_control (receipt : ReaderReceipt) (cause : TmuxWaitCause)
    (cleanup : result unit string) (control_pid : N) (rediscovery : result bool ProtocolError)
    : TmuxTermination * result unit string :=
  let '(reader, cleanup) :=
    match receipt with
    | ReceiptArrived t => (Some t, cleanup)
    | ReceiptTimeout =>
        (None, combine_cleanup_failure cleanup "tmux output reader did not finish during shutdown")
    | ReceiptHangup =>
        (None, combine_cleanup_failure cleanup
                 "tmux output reader ended without a completion receipt")
    end in
  let termination := resolve_tmux_termination cause reader control_pid in
  let termination :=
    if confirms_identity cause reader
       && bool_decide (term_reason termination = TmuxServerUnavailable) then
      match rediscovery with
      | Ok true =>
          tmux_control_failure (protocol_error TargetChanged
            "tmux target identity no longer exists after control loss") TmuxTargetChanged
      | Ok false => termination
      | Err e =>
          if decide (code e = TargetChanged) then tmux_control_failure e TmuxTargetChanged
          else
            {| term_error :=
                 {| code := code (term_error termination);
                    message := message (term_error termination)
                      +:+ "; target identity unconfirmed: " +:+ message e;
                    creation_failure := creation_failure (term_error termination);
                    storage_failure := storage_failure (term_error termination) |};
               term_reason := term_reason termination |}
      end
    else termination in
  (termination, cleanup).
