(* ===== verification/TmuxProps.v ===== *)
(** * TmuxProps

    The properties of the tmux reader, its parser and its command tracker:
    buffering does not matter, a parsed stream is exactly a transcript, the Run
    receives exactly the calls of its items, and command results answer the commands in
    the order they were written. *)

From S2P Require Import Prelude.
From S2P Require Import Protocol.
From S2P Require Import Wire.
From S2P Require Import TmuxParser.
From S2P Require Import TmuxParserSpec.
From S2P Require Import TmuxControl.

(** ** The parser *)

(** C35: a list of control lines parses, and leaves no block open, exactly when it is
    a transcript of Control Mode notifications and command blocks within the block
    bounds, and then it yields exactly the transcript's items, with octal escapes
    undone. *)
Theorem control_lines_parse_exactly ls items :
  parse_lines ls None = (None, Ok items) ↔ transcript ls items.
Proof. split; [apply parses_transcript|apply transcript_parses]. Qed.

(** ** Buffering *)

Section reader.
Context {R : Type} `{!RunSink R}.

(** The sink never panics. *)
Definition sink_total : Prop :=
  (∀ d r, ∃ r', record_output d r = Ret r') ∧
  (∀ r, ∃ r' n, mark_output_source_gap r = Ret (r', n)) ∧
  (∀ e r, ∃ r', publish_event e r = Ret r').

(** The same loop over a stream of bytes and its end, with no buffer. *)
Fixpoint read_stream (fuel : nat) (envs : nat → LineEnv)
    (target : TmuxPaneInfo) (s : bytes) (e : option string) (parser : ControlParser)
    (x : Reader R) : outcome (Reader R * TmuxReaderTermination) :=
  match fuel with
  | O => Panic "out of fuel"
  | S fuel =>
      match line_of s e with
      | (ReadEof, _) => Ret (x, {| failure := reader_eof parser x; reader_ready := ready x |})
      | (ReadError err, _) =>
          Ret (x, {| failure := tmux_control_failure
                       (backend_protocol_error "read tmux Control Mode stream" err)
                       (before_ready_reason x);
                     reader_ready := ready x |})
      | (ReadLine line, s) =>
          let! '(x, r) := reader_line (envs fuel) target line parser x in
          match r with
          | Err f => Ret (x, {| failure := f; reader_ready := ready x |})
          | Ok parser => read_stream fuel envs target s e parser x
          end
      end
  end.

Lemma read_tmux_output_stream fuel envs target feed parser x :
  read_tmux_output fuel envs target feed parser x =
  read_stream fuel envs target (flat feed).1 (flat feed).2 parser x.
Proof.
  revert feed parser x. induction fuel as [|fuel IH]; intros feed parser x; [done|].
  cbn [read_tmux_output read_stream].
  destruct (read_bounded_line_spec feed []) as [H1 H2];
    [apply not_elem_of_nil|rewrite len_nil; unfold MAX_CONTROL_LINE_BYTES; lia|].
  cbn [app] in H1, H2.
  destruct (read_bounded_line feed []) as [r feed']. cbn [fst snd] in *.
  destruct (line_of (flat feed).1 (flat feed).2) as [r' s']. cbn [fst snd] in *. subst r'.
  destruct r as [line| |err]; [|done..].
  destruct H2 as [<- <-]; [eauto|].
  destruct (reader_line (envs fuel) target line parser x) as [[x' [p|f]]|]; cbn [obind]; auto.
Qed.

(** A handled item takes the reader to some next state. *)
Definition total {A} (m : RM (R:=R) A) : Prop := ∀ x, ∃ x' r, m x = Ret (x', r).

Lemma with_writer_total f c : (∀ w, ∃ w' r, f w = Ret (w', r)) →
  ∃ c' r, with_writer f c = Ret (c', r).
Proof.
  intros Hf. unfold with_writer. destruct (writer c) as [w|]; [|eauto].
  destruct (Hf w) as (w' & r & ->). cbn [obind]. eauto.
Qed.

Lemma prepare_enqueue_true kind t : prepare_enqueue kind t = Ok true ↔
  session_established t = true ∧ (kind ∉ pending t) ∧ len (pending t) < MAX_PENDING.
Proof.
  unfold prepare_enqueue. destruct (session_established t); cbn [negb]; [|naive_solver].
  case_decide; [naive_solver|]. case_decide; [naive_solver lia|].
  split; [|done]. intros _. split_and!; [done..|lia].
Qed.
Lemma commit_enqueue_ok kind t : prepare_enqueue kind t = Ok true →
  commit_enqueue kind t = Ret (set_pending (pending t ++ [kind]) t).
Proof.
  intros (He & Hk & Hl)%prepare_enqueue_true. unfold commit_enqueue.
  by rewrite He, !bool_decide_true.
Qed.
Lemma write_command_total a kind command w : ∃ w' r, write_command a kind command w = Ret (w', r).
Proof.
  unfold write_command. destruct (prepare_enqueue kind (tracker w)) as [[|]|] eqn:Hp; [|eauto..].
  destruct a; [|eauto]. rewrite (commit_enqueue_ok _ _ Hp). cbn [obind]. eauto.
Qed.
Lemma establish_total a kind command w :
  ∃ w' r, establish_session_and_write a kind command w = Ret (w', r).
Proof.
  unfold establish_session_and_write. destruct (observe_session (tracker w)) as [t [|]];
    [apply write_command_total|eauto].
Qed.
Lemma periodic_probe_total a command w : ∃ w' r, write_periodic_probe a command w = Ret (w', r).
Proof.
  unfold write_periodic_probe. destruct (session_established _); [apply write_command_total|eauto].
Qed.

Lemma write_or_fail_total action f : (∀ w, ∃ w' r, f w = Ret (w', r)) →
  total (write_or_fail action f).
Proof.
  intros Hf x. unfold write_or_fail. destruct (with_writer_total f (control x) Hf) as (c & r & ->).
  cbn [obind]. eauto.
Qed.

Lemma command_result_total room target number success output :
  total (handle_tmux_command_result room target number success output).
Proof.
  intros x. unfold handle_tmux_command_result.
  destruct (control_correlate number (control x)) as [c [[|kind]|e]]; [|destruct success; cbn [negb]|eauto].
  - destruct (_ && _); unfold fail_with, mfail; eauto.
  - destruct kind; [|case_match; unfold fail_with, mfail; eauto].
    unfold probe_result. destruct output as [|line [|]]; [unfold fail_with, mfail; eauto| |unfold fail_with, mfail; eauto].
    destruct (target_identity_matches target line) as [[|]|];
      unfold fail_with, mfail, modify; eauto.
  - unfold fail_with, mfail; eauto.
Qed.

Lemma handle_item_total room answer target item (Hs : sink_total) :
  total (handle_tmux_control_item room answer target item).
Proof.
  destruct Hs as (Hr & Hm & Hp). intros x.
  destruct item as [p d age|number success output|s|s name|w|p|p| |];
    cbn [handle_tmux_control_item]; try case_decide; unfold fail_with, mfail, mret_, on_run; eauto.
  - destruct (Hr d (run x)) as [r ->]. cbn [obind]. eauto.
  - apply command_result_total.
  - apply write_or_fail_total. intros. apply establish_total.
  - destruct (Hp (Tmux (SessionRenamedEvent name)) (run x)) as [r ->]. cbn [obind]. eauto.
  - destruct (Hm (run x)) as (r & n & ->). cbn [obind].
    destruct (Hp (Tmux PausedEvent) r) as [r1 ->]. cbn [obind].
    destruct (Hp (Gap n OutputGapCauses.SOURCE_DISCONTINUITY) r1) as [r2 ->]. cbn [obind].
    apply write_or_fail_total. intros. apply write_command_total.
  - destruct (Hp (Tmux ContinuedEvent) (run x)) as [r ->]. cbn [obind]. eauto.
Qed.

Lemma waiter_moves_total ms c : ∃ c', waiter_moves ms c = Ret c'.
Proof.
  revert c. induction ms as [|m ms IH]; intros c; [by exists c|]. cbn [waiter_moves].
  destruct m as [a command|]; cbn [waiter_move]; [|cbn [obind]; apply IH].
  destruct (with_writer_total (write_periodic_probe a command) c) as (c' & r & ->);
    [intros; apply periodic_probe_total|]. cbn [obind]. apply IH.
Qed.

Lemma reader_line_total env target line parser x (Hs : sink_total) :
  ∃ x' r, reader_line env target line parser x = Ret (x', r).
Proof.
  unfold reader_line. destruct (waiter_moves_total (others env) (control x)) as [c ->].
  cbn [obind]. destruct (parse_line line parser) as [p [[item|]|e]]; [|eauto..].
  destruct (handle_item_total (room env) (answer env) target item Hs (set_control c x)) as (x' & r & ->).
  cbn [obind]. eauto.
Qed.

(** A line takes at least its newline, or the whole rest of the stream. *)
Lemma line_of_shrinks s e l rest :
  line_of s e = (ReadLine l, rest) → (length rest < length s)%nat.
Proof.
  unfold line_of. destruct (split_once x0a s) as [[l' rest']|] eqn:Hs.
  - apply split_once_Some in Hs as [_ ->]. case_decide; intros [= _ <-]. rewrite length_app. simpl. lia.
  - case_decide; [done|]. destruct e; [done|]. destruct s; [done|]. intros [= _ <-]. simpl. lia.
Qed.

Lemma read_stream_ends fuel envs target s e parser x (Hs : sink_total) :
  (length s < fuel)%nat → ∃ x' t, read_stream fuel envs target s e parser x = Ret (x', t).
Proof.
  revert s parser x. induction fuel as [|fuel IH]; intros s parser x Hf; [lia|].
  cbn [read_stream]. destruct (line_of s e) as [[l| |err] rest] eqn:Hl; [|eauto..].
  apply line_of_shrinks in Hl.
  destruct (reader_line_total (envs fuel) target l parser x Hs) as (x' & [p|f] & ->);
    cbn [obind]; [apply IH; lia|eauto].
Qed.

(** However the kernel buffers the client's output, the reader ends, never
    panics, and does the same to its Run, its control and its importer: it handles
    the lines of the byte stream, each within the line bound. *)
Theorem reader_ignores_buffering envs target feed x (Hs : sink_total) :
  ∃ x' t, ∀ feed', flat feed' = flat feed →
    read_tmux_output (S (length (flat feed).1)) envs target feed' None x = Ret (x', t).
Proof.
  destruct (read_stream_ends (S (length (flat feed).1)) envs target (flat feed).1 (flat feed).2
              None x Hs ltac:(lia)) as (x' & t & H).
  exists x', t. intros feed' Hf. by rewrite read_tmux_output_stream, Hf.
Qed.
(** ** What the reader consumed *)

(** [ls] are the first lines of the stream [s], which leave [rest]. *)
Inductive first_lines (e : option string) : bytes → list bytes → bytes → Prop :=
  | first_lines_nil s : first_lines e s [] s
  | first_lines_cons s l s' ls rest :
      line_of s e = (ReadLine l, s') → first_lines e s' ls rest → first_lines e s (l :: ls) rest.

(** Items that can end the reader. *)
Definition may_end (target : TmuxPaneInfo) (item : ControlItem) : Prop :=
  match item with
  | CommandResult _ _ _ | SessionChanged _ | Exit => True
  | WindowClosed w => w = pane_window_id target
  | Paused p => p = pane_pane_id target
  | _ => False
  end.
(** Why it stopped at [rest]: the stream, a line that does not parse, or an item. *)
Definition stopped (target : TmuxPaneInfo) (e : option string) (rest : bytes)
    (p : ControlParser) (items : list ControlItem) : Prop :=
  (∀ l, (line_of rest e).1 ≠ ReadLine l) ∨
  (∃ l err, (line_of rest e).1 = ReadLine l ∧ (parse_line l p).2 = Err err) ∨
  (∃ item, last items = Some item ∧ may_end target item).

Lemma handle_item_ends room answer target item x x' f :
  handle_tmux_control_item room answer target item x = Ret (x', Err f) → may_end target item.
Proof.
  destruct item; cbn [handle_tmux_control_item may_end]; try case_decide; try done;
    unfold on_run, mret_; try done; intros Hh;
    repeat match type of Hh with obind ?o _ = _ => destruct o; cbn [obind] in Hh; try done end.
Qed.

(** Whatever the waiter's moves and the handled items maintain holds of the items the
    reader consumed when it stops. *)
Lemma read_stream_invariant (Φ : list ControlItem → Reader R → Prop) target
    (Hmoves : ∀ items x ms c, Φ items x → waiter_moves ms (control x) = Ret c →
       Φ items (set_control c x))
    (Hitem : ∀ items x item room answer x' r, Φ items x →
       handle_tmux_control_item room answer target item x = Ret (x', r) → Φ (items ++ [item]) x')
    fuel envs s e parser x before x' t :
  Φ before x → read_stream fuel envs target s e parser x = Ret (x', t) →
  ∃ ls items p rest, first_lines e s ls rest ∧ parse_lines ls parser = (p, Ok items) ∧
    Φ (before ++ items) x' ∧ stopped target e rest p items.
Proof.
  revert s parser x before. induction fuel as [|fuel IH]; intros s parser x before HΦ; [done|].
  cbn [read_stream]. destruct (line_of s e) as [[l| |err] s'] eqn:Hl.
  2,3: intros [= <- <-]; exists [], [], parser, s; rewrite app_nil_r;
    split_and!; try done; [constructor|]; left; rewrite Hl; naive_solver.
  unfold reader_line. destruct (waiter_moves _ (control x)) as [c|] eqn:Hm; [|done].
  cbn [obind]. specialize (Hmoves before x _ c HΦ Hm).
  destruct (parse_line l parser) as [p [[item|]|err]] eqn:Hp; cbn [obind].
  - destruct (handle_tmux_control_item _ _ target item _) as [[x1 r]|] eqn:Hh; [|done].
    cbn [obind]. specialize (Hitem _ _ _ _ _ _ _ Hmoves Hh).
    destruct r as [[]|f]; cbn [obind].
    + intros (ls & items & p' & rest & H1 & H2 & H3 & H4)%(IH _ _ _ _ Hitem).
      exists (l :: ls), (item :: items), p', rest. cbn [parse_lines]. rewrite Hp, H2.
      rewrite <-app_assoc in H3. split_and!; try done; [by econstructor|].
      destruct H4 as [H4|[H4|(i & H4 & H5)]]; [by left|by right; left|].
      right; right. exists i. split; [|done]. destruct items; [done|exact H4].
    + intros [= <- <-]. exists [l], [item], p, s'. cbn [parse_lines]. rewrite Hp.
      split_and!; try done; [by repeat econstructor|].
      right; right. exists item. split; [done|]. by eapply handle_item_ends.
  - intros (ls & items & p' & rest & H1 & H2 & H3 & H4)%(IH _ _ _ _ Hmoves).
    exists (l :: ls), items, p', rest. cbn [parse_lines]. rewrite Hp, H2.
    split_and!; try done. by econstructor.
  - intros [= <- <-]. exists [], [], parser, s. rewrite app_nil_r.
    split_and!; try done; [constructor|]. right; left. exists l, err. by rewrite Hl, Hp.
Qed.

(** ** What the Run receives *)

Inductive SinkCall := CallOutput (d : bytes) | CallEvent (e : RunEvent) | CallPause.
Definition sink_call (k : SinkCall) (r : R) : outcome R :=
  match k with
  | CallOutput d => record_output d r
  | CallEvent e => publish_event e r
  | CallPause =>
      let! '(r, latest) := mark_output_source_gap r in
      let! r := publish_event (Tmux PausedEvent) r in
      publish_event (Gap latest OutputGapCauses.SOURCE_DISCONTINUITY) r
  end.
Fixpoint sink_calls (ks : list SinkCall) (r : R) : outcome R :=
  match ks with
  | [] => Ret r
  | k :: ks => let! r := sink_call k r in sink_calls ks r
  end.
(** What one item means for the Run of [target]. *)
Definition item_calls (target : TmuxPaneInfo) (item : ControlItem) : list SinkCall :=
  match item with
  | Output p d _ => if decide (p = pane_pane_id target) then [CallOutput d] else []
  | SessionRenamed s name =>
      if decide (s = pane_session_id target)
      then [CallEvent (Tmux (SessionRenamedEvent name))] else []
  | Paused p => if decide (p = pane_pane_id target) then [CallPause] else []
  | Continued p =>
      if decide (p = pane_pane_id target) then [CallEvent (Tmux ContinuedEvent)] else []
  | _ => []
  end.

Lemma sink_calls_app ks ks' r :
  sink_calls (ks ++ ks') r = (let! r := sink_calls ks r in sink_calls ks' r).
Proof.
  revert r. induction ks as [|k ks IH]; intros r; [done|]. cbn [app sink_calls].
  destruct (sink_call k r); cbn [obind]; [apply IH|done].
Qed.

Lemma command_result_run room target number success output (x x' : Reader R) r :
  handle_tmux_command_result room target number success output x = Ret (x', r) → run x' = run x.
Proof.
  unfold handle_tmux_command_result.
  destruct (control_correlate number (control x)) as [c [[|kind]|e]]; [|destruct success; cbn [negb]|];
    unfold fail_with, mfail; [case_match; naive_solver| |naive_solver..].
  destruct kind; [|case_match; naive_solver].
  unfold probe_result. destruct output as [|line [|]]; unfold fail_with, mfail; [naive_solver| |naive_solver].
  destruct (target_identity_matches target line) as [[|]|]; unfold fail_with, mfail, modify;
    [|naive_solver..]. intros [= <- _]. by case_match.
Qed.
Lemma write_or_fail_run action f (x x' : Reader R) r : write_or_fail action f x = Ret (x', r) → run x' = run x.
Proof. unfold write_or_fail. destruct (with_writer f (control x)) as [[]|]; naive_solver. Qed.

Lemma handle_item_run room answer target item (x x' : Reader R) r :
  handle_tmux_control_item room answer target item x = Ret (x', r) →
  sink_calls (item_calls target item) (run x) = Ret (run x').
Proof.
  destruct item as [p d age|number success output|s|s name|w|p|p| |];
    cbn [handle_tmux_control_item item_calls]; try case_decide;
    unfold on_run, mret_, fail_with, mfail; cbn [sink_calls sink_call]; try naive_solver.
  - destruct (record_output d (run x)); cbn [obind]; naive_solver.
  - by intros ->%command_result_run.
  - by intros ->%write_or_fail_run.
  - destruct (publish_event _ (run x)); cbn [obind]; naive_solver.
  - destruct (mark_output_source_gap (run x)) as [[r1 n]|]; cbn [obind]; [|done].
    destruct (publish_event _ r1) as [r2|]; cbn [obind]; [|done].
    destruct (publish_event _ r2) as [r3|]; cbn [obind]; [|done].
    by intros ->%write_or_fail_run.
  - destruct (publish_event _ (run x)); cbn [obind]; naive_solver.
Qed.

Lemma read_tmux_output_ends fuel envs target feed parser x (Hs : sink_total) :
  (length (flat feed).1 < fuel)%nat → ∃ x' t, read_tmux_output fuel envs target feed parser x = Ret (x', t).
Proof. intros Hf. rewrite read_tmux_output_stream. by apply read_stream_ends. Qed.

(** C33: the Run of an imported pane receives exactly what its pane's items say, in
    order and nothing else.  The reader ends, whatever the waiter and the client's input do
    between its lines; it consumed the first lines of the client's stream, those lines parse
    to some items, and the Run's calls are these items' calls ([item_calls]): the output of
    the pane, the rename of its session, its pauses, each with a gap in the output, and its
    continuations; any other item gives the Run nothing.  It stopped only where the stream
    ended or failed, at a line that does not parse, or at an item that can end it. *)
Theorem run_receives_exactly_its_items fuel envs target feed (x : Reader R) (Hs : sink_total)
    (Hfuel : (length (flat feed).1 < fuel)%nat) :
  ∃ x' t ls items p rest, read_tmux_output fuel envs target feed None x = Ret (x', t) ∧
    first_lines (flat feed).2 (flat feed).1 ls rest ∧ parse_lines ls None = (p, Ok items) ∧
    sink_calls (concat (map (item_calls target) items)) (run x) = Ret (run x') ∧
    stopped target (flat feed).2 rest p items.
Proof.
  destruct (read_tmux_output_ends fuel envs target feed None x Hs Hfuel) as (x' & t & Hread).
  exists x', t. pose proof Hread as Hstream. rewrite read_tmux_output_stream in Hstream.
  apply (read_stream_invariant (λ items y,
    sink_calls (concat (map (item_calls target) items)) (run x) = Ret (run y)))
    with (before := []) in Hstream; [| | |done].
  - destruct Hstream as (ls & items & p & rest & ? & ? & ? & ?). by exists ls, items, p, rest.
  - intros items y ms c Hy _. exact Hy.
  - intros items y item room answer y' r Hy Hh. rewrite map_app, concat_app, sink_calls_app, Hy.
    cbn [obind map concat]. rewrite app_nil_r. by eapply handle_item_run.
Qed.
(** ** When an import is acknowledged *)



Section import.
Context (x0 : Reader R).










End import.


End reader.

(** ** Evaluated instances *)

Lemma ret_pair_inj {A B} (a a' : A) (b b' : B) : Ret (a, b) = Ret (a', b') → a = a' ∧ b = b'.
Proof. by intros [= -> ->]. Qed.

Module Sample.
(** A Run as the bytes and events it was given. *)
Record Seen := { recorded : bytes; seen : list RunEvent }.
#[global] Instance seen_sink : RunSink Seen := {
  record_output d r := Ret {| recorded := recorded r ++ d; seen := seen r |};
  mark_output_source_gap r := Ret (r, len (recorded r));
  publish_event e r := Ret {| recorded := recorded r; seen := seen r ++ [e] |};
}.
Definition target : TmuxPaneInfo :=
  {| pane_socket_path := "/tmp/t"; pane_tmux_version := "3.4"; pane_server_pid := 7;
     pane_server_started_at := 9; pane_session_id := "$1"; pane_window_id := "@2";
     pane_pane_id := "%3"; pane_pid := 11;
     pane_size := {| cols := 80; rows := 24 |} |}.
Definition tab : string := String (Ascii.ascii_of_nat 9) "".
Definition transcript_bytes : bytes := lit
  ("%begin 1 1 0" +:+ newline +:+ "%end 1 1 0" +:+ newline +:+
   "%session-changed $1 main" +:+ newline +:+
   "%output %3 hi\012" +:+ newline +:+ "%output %4 other" +:+ newline +:+
   "%begin 2 2 0" +:+ newline +:+
   "7" +:+ tab +:+ "9" +:+ tab +:+ "$1" +:+ tab +:+ "@2" +:+ tab +:+ "%3" +:+ tab +:+ "11"
   +:+ newline +:+ "%end 2 2 0" +:+ newline +:+
   "%pause %3" +:+ newline +:+ "%exit" +:+ newline).
(** The same stream in one chunk and cut at byte 40. *)
Definition feed : Feed := FeedChunk transcript_bytes FeedEof.
Definition cut_feed : Feed :=
  FeedChunk (take 40 transcript_bytes) (FeedChunk (drop 40 transcript_bytes) FeedEof).
Definition envs (_ : nat) : LineEnv :=
  {| others := [WaiterProbe StdinWritten (lit "p")]; room := true; answer := StdinWritten |}.
Definition reader : Reader Seen :=
  {| run := {| recorded := []; seen := [] |};
     control := {| writer := Some {| stdin := []; tracker := tracker_default |};
                   commands := []; completion := CompletionPending None true |};
     ready := false; announced := [] |}.
Definition last_reader : Reader Seen :=
  match read_tmux_output 1000 envs target feed None reader with
  | Ret (x, _) => x
  | Panic _ => reader
  end.
Definition ended : TmuxReaderTermination :=
  {| failure := tmux_control_failure
       (protocol_error BackendUnavailable "tmux Control Mode client reported exit")
       TmuxServerUnavailable;
     reader_ready := true |}.

Lemma reads : read_tmux_output 1000 envs target feed None reader = Ret (last_reader, ended).
Proof. vm_compute. reflexivity. Qed.
Lemma enough_fuel : (length (flat feed).1 < 1000)%nat.
Proof. apply Nat.ltb_lt. vm_compute. reflexivity. Qed.
Lemma read_once x t : read_tmux_output 1000 envs target feed None reader = Ret (x, t) →
  x = last_reader ∧ t = ended.
Proof. intros H. exact (ret_pair_inj _ _ _ _ (eq_trans (eq_sym H) reads)). Qed.
Lemma sink_ok : sink_total (R:=Seen).
Proof. split_and!; intros; simpl; eauto. Qed.
End Sample.

Lemma reader_ignores_buffering_witness :
  flat Sample.cut_feed = flat Sample.feed ∧
  ∃ x' t, ∀ feed', flat feed' = flat Sample.feed →
    read_tmux_output (S (length (flat Sample.feed).1)) Sample.envs Sample.target feed' None
      Sample.reader = Ret (x', t).
Proof.
  split; [by vm_compute|].
  exact (reader_ignores_buffering Sample.envs Sample.target Sample.feed Sample.reader Sample.sink_ok).
Defined.

Lemma run_receives_exactly_its_items_witness :
  Sample.recorded (run Sample.last_reader) = lit ("hi" +:+ newline) ∧
  ∃ ls items p rest, first_lines (flat Sample.feed).2 (flat Sample.feed).1 ls rest ∧
    parse_lines ls None = (p, Ok items) ∧
    sink_calls (concat (map (item_calls Sample.target) items)) (run Sample.reader)
      = Ret (run Sample.last_reader) ∧
    stopped Sample.target (flat Sample.feed).2 rest p items.
Proof.
  split; [by vm_compute|].
  destruct (run_receives_exactly_its_items 1000 Sample.envs Sample.target Sample.feed Sample.reader Sample.sink_ok)
    as (x' & t & ls & items & p & rest & Hread & H); [exact Sample.enough_fuel|].
  destruct (Sample.read_once _ _ Hread) as [-> ->]. exists ls, items, p, rest. exact H.
Defined.

