(* ===== verification/TmuxDiscovery.v ===== *)
(** * TmuxDiscovery

    Pane discovery and import targeting ([crates/ctxmux-daemon/src/tmux.rs]): the
    rows of [list-panes], the version gate, the choice of an unambiguous pane, the
    check for a changed target after a control loss, and one turn of the waiter
    ([wait_for_tmux_control] in [lib.rs]).  Running the tmux executable and reading
    the socket's metadata are inputs. *)

From S2P Require Import Prelude.
From S2P Require Import Protocol.
From S2P Require Import Wire.
From S2P Require Import TmuxParser.
From S2P Require Import TmuxControl.

Record SocketIdentity := { device : N; inode : N }.
#[global] Instance SocketIdentity_eq_dec : EqDecision SocketIdentity.
Proof. solve_decision. Defined.

(** [fs::metadata] on the socket path: it failed, names something else, or a socket. *)
Inductive Metadata := MetadataError (e : string) | NotSocket (id : SocketIdentity) | Socket (id : SocketIdentity).

Definition socket_identity_changed (m : Metadata) (expected : SocketIdentity) : bool :=
  match m with
  | MetadataError _ => false
  | NotSocket _ => true
  | Socket id => bool_decide (id ≠ expected)
  end.
Definition confirm_socket_identity (m : Metadata) (expected : SocketIdentity)
    : result unit ProtocolError :=
  match m with
  | Socket id =>
      if decide (id = expected) then Ok tt
      else Err (protocol_error TargetChanged "tmux socket identity changed")
  | NotSocket _ =>
      Err (protocol_error TargetChanged "tmux socket path was replaced by a non-socket")
  | MetadataError e => Err (backend_protocol_error "confirm tmux socket identity" e)
  end.

Section discovery.
Context `{!DebugString}.

(** A row: its version, and its pane unless the pane is dead.  [is_utf8] is
    [str::from_utf8]'s verdict on the version field. *)
Definition parse_pane_line (is_utf8 : bytes → bool) (socket_path : string) (line : bytes)
    : result (bytes * option TmuxPaneInfo) ProtocolError :=
  match split_on x09 line with
  | [f0; f1; f2; f3; f4; f5; f6; f7; f8; f9] =>
      let? _ := if is_utf8 f0 then Ok tt
                else Err (protocol_error UnsupportedBackendVersion
                            "tmux server version is not UTF-8") in
      let? _ := validate_supported_version f0 "server" in
      if decide (f9 = lit "1") then Ok (f0, None) else
      if decide (f9 ≠ lit "0") then
        Err (protocol_error BackendUnavailable
               "tmux pane discovery returned an invalid dead-pane flag")
      else
      let? server := parse_number u32_max f1 "server PID" in
      let? started := parse_number u64_max f2 "server start time" in
      let? session := parse_id f3 x24 "session" in
      let? window := parse_id f4 x40 "window" in
      let? pane := parse_id f5 x25 "pane" in
      let? pid := parse_number u32_max f6 "pane PID" in
      let? cols := parse_number u16_max f7 "pane columns" in
      let? rows := parse_number u16_max f8 "pane rows" in
      if decide (cols = 0 ∨ rows = 0) then
        Err (protocol_error BackendUnavailable "tmux pane dimensions must be nonzero")
      else
        Ok (f0, Some {| pane_socket_path := socket_path; pane_tmux_version := text f0;
                        pane_server_pid := server; pane_server_started_at := started;
                        pane_session_id := session; pane_window_id := window;
                        pane_pane_id := pane; pane_pid := pid;
                        pane_size := {| cols := cols; rows := rows |} |})
  | _ => Err (protocol_error BackendUnavailable
                "tmux pane discovery returned an unexpected field count")
  end.

(** The loop over the rows: one server version, the live panes in order. *)
Fixpoint discover_rows (is_utf8 : bytes → bool) (socket_path : string) (lines : list bytes)
    (version : option bytes) (panes : list TmuxPaneInfo)
    : result (option bytes * list TmuxPaneInfo) ProtocolError :=
  match lines with
  | [] => Ok (version, panes)
  | line :: lines =>
      let? '(v, pane) := parse_pane_line is_utf8 socket_path line in
      if match version with Some w => bool_decide (w ≠ v) | None => false end then
        Err (protocol_error BackendUnavailable
               "tmux pane discovery returned inconsistent server versions")
      else discover_rows is_utf8 socket_path lines
             (Some (default v version)) (panes ++ option_list pane)
  end.

Definition current_socket_identity (m : Metadata) : result SocketIdentity string :=
  match m with
  | Socket identity => Ok identity
  | NotSocket _ => Err "tmux socket path does not name a Unix socket"
  | MetadataError e => Err e
  end.
Definition read_socket_identity (socket_path : string) (m : Metadata)
    : result SocketIdentity ProtocolError :=
  map_err (λ e, protocol_error BackendUnavailable ("failed to inspect tmux socket "
             +:+ debug_string (lit socket_path) +:+ ": " +:+ e))
    (current_socket_identity m).

Definition nonempty_lines (output : bytes) : list bytes :=
  filter (λ l, l ≠ []) (split_on x0a output).

(** [discover] after its commands succeeded within the deadline. *)
Definition discover (is_utf8 : bytes → bool) (socket_path : string) (before after : Metadata)
    (output : bytes) : result (bytes * list TmuxPaneInfo * SocketIdentity) ProtocolError :=
  if decide (socket_path = "") then
    Err (protocol_error InvalidRequest "tmux socket path must not be empty") else
  let? identity := read_socket_identity socket_path before in
  let? _ := confirm_socket_identity after identity in
  let? '(version, panes) := discover_rows is_utf8 socket_path (nonempty_lines output) None [] in
  let? version := ok_or (protocol_error BackendUnavailable
                    "tmux pane discovery returned no target server rows") version in
  Ok (version, panes, identity).

(** [spawn_control]'s choice of its target. *)
Definition select_target (pane : string) (panes : list TmuxPaneInfo)
    : result TmuxPaneInfo ProtocolError :=
  match filter (λ p, pane_pane_id p = pane) panes with
  | [] => Err (protocol_error TargetChanged ("tmux pane " +:+ pane +:+ " does not exist"))
  | [p] => Ok p
  | _ => Err (protocol_error TargetChanged ("tmux pane " +:+ pane +:+
           " is linked into multiple targets and cannot be imported unambiguously"))
  end.

(** [target_changed_after_control_loss]: [now] and [later] are the socket's metadata
    around the rediscovery. *)
Definition target_changed_after_control_loss (target : TmuxPaneInfo)
    (expected : SocketIdentity) (now later : Metadata)
    (rediscovered : result (list TmuxPaneInfo * SocketIdentity) ProtocolError)
    : result bool ProtocolError :=
  if socket_identity_changed now expected then Ok true else
  match rediscovered with
  | Err e => if socket_identity_changed later expected then Ok true else Err e
  | Ok (panes, identity) =>
      if decide (identity ≠ expected) then Ok true else
      match filter (λ p, pane_pane_id p = pane_pane_id target) panes with
      | [p] => Ok (bool_decide (identity_of p ≠ identity_of target))
      | _ => Ok true
      end
  end.

(** A pane is still the target exactly when discovery finds that identity once. *)
Lemma target_unchanged_exact target expected now later panes identity :
  socket_identity_changed now expected = false →
  target_changed_after_control_loss target expected now later (Ok (panes, identity)) = Ok false ↔
  identity = expected ∧
  ∃ p, filter (λ p, pane_pane_id p = pane_pane_id target) panes = [p] ∧
       identity_of p = identity_of target.
Proof.
  intros Hn. unfold target_changed_after_control_loss. rewrite Hn.
  case_decide as Hi; [naive_solver|].
  destruct (filter _ panes) as [|p [|]].
  - split; [done|]. by intros (_ & p & [=] & _).
  - split.
    + intros [= Hf]. apply bool_decide_eq_false in Hf. split; [exact Hi|].
      exists p. split; [done|].
      destruct (decide (identity_of p = identity_of target)) as [|Hd]; [done|destruct (Hf Hd)].
    + intros (_ & q & [= ->] & Hq). by rewrite bool_decide_false by (intros Hne; exact (Hne Hq)).
  - split; [done|]. by intros (_ & q & [=] & _).
Qed.
End discovery.

(** ** The waiter *)

(** One poll of the command channel. *)
Inductive CommandPoll :=
  | PolledCommand (c : TmuxControlCommand) | PollDisconnected | PollTimeout.
(** What one turn of [wait_for_tmux_control] observes. *)
Record WaitEnv := {
  poll : CommandPoll;
  target_poll_due : bool;
  socket_now : Metadata;
  probe_written : result unit string;
  child_status : result bool string;  (** exited without being reaped *)
  terminated : result unit string;  (** [terminate_and_reap] *)
}.

(** [None] is another turn. *)
Definition wait_turn (expected : SocketIdentity) (e : WaitEnv)
    : option (TmuxWaitCause * result unit string) :=
  match poll e with
  | PolledCommand (InterruptControl r) => Some (CauseInterrupted r, terminated e)
  | PolledCommand ReaderTerminated => Some (CauseReaderTerminated, terminated e)
  | PolledCommand ShutdownControl => Some (CauseShutdown, terminated e)
  | PollDisconnected => Some (CauseCommandChannelClosed, terminated e)
  | PollTimeout =>
      if target_poll_due e && socket_identity_changed (socket_now e) expected
      then Some (CauseSocketTargetChanged, terminated e) else
      match (if target_poll_due e then probe_written e else Ok tt) with
      | Err error => Some (CauseProbeWriteFailed error, terminated e)
      | Ok _ =>
          match child_status e with
          | Ok true => Some (CauseChildExited, terminated e)
          | Ok false => None
          | Err error =>
              Some (CauseChildStatusFailed error,
                    combine_cleanup_failure (terminated e)
                      ("failed to query tmux Control Mode client status: " +:+ error))
          end
      end
  end.
Fixpoint wait_for_tmux_control (expected : SocketIdentity) (turns : list WaitEnv)
    : option (TmuxWaitCause * result unit string) :=
  match turns with
  | [] => None
  | e :: turns =>
      match wait_turn expected e with
      | Some outcome => Some outcome
      | None => wait_for_tmux_control expected turns
      end
  end.

(** An imported Run is reported as having lost its target only on evidence: the
    socket was replaced, an owner said so, the reader saw it, or rediscovery after
    a confirmed import no longer finds the identity. *)
Lemma target_change_needs_evidence receipt cause cleanup pid rediscovery :
  term_reason (conclude_tmux_control receipt cause cleanup pid rediscovery).1 = TmuxTargetChanged →
  cause = CauseSocketTargetChanged ∨ cause = CauseInterrupted TmuxTargetChanged ∨
  (∃ t, receipt = ReceiptArrived t ∧ term_reason (failure t) = TmuxTargetChanged) ∨
  (∃ t, receipt = ReceiptArrived t ∧ reader_ready t = true ∧
    (rediscovery = Ok true ∨ ∃ e, rediscovery = Err e ∧ code e = TargetChanged)).
Proof.
  unfold conclude_tmux_control.
  destruct receipt as [t| |].
  - destruct (confirms_identity cause (Some t) && _) eqn:Hc.
    + apply andb_true_iff in Hc as [Hr Hs]. apply bool_decide_eq_true in Hs.
      cbn [confirms_identity] in Hr. apply andb_true_iff in Hr as [Hr _].
      destruct rediscovery as [[|]|e]; cbn [fst term_reason tmux_control_failure]; [eauto 10|congruence|].
      case_decide; cbn [fst term_reason tmux_control_failure]; [eauto 10|congruence].
    + cbn [fst]. destruct cause; cbn; try destruct (decide _); naive_solver.
  - cbn. destruct cause; cbn; naive_solver.
  - cbn. destruct cause; cbn; naive_solver.
Qed.
