(* ===== verification/Runs.v ===== *)
(** * Runs

    The parts of one [Run] ([crates/ctxmux-daemon/src/lib.rs]) that the registry and the
    creation owners rely on: its controls and their quiescence, the order of
    terminal publications, the persistence binding that defers a terminal until a
    Run is public, and the public observations. *)

From S2P Require Import Prelude.
From S2P Require Import Protocol.
From S2P Require Import OutputLog.
From S2P Require Import Resources.
From S2P Require Import Wire.
From S2P Require Import NativeControl.
From S2P Require Import NativeOwnerTurn.
From S2P Require Import TmuxControl.

(** ** The Run *)

Inductive PersistenceMode := MemoryOnly | PersistentCapable.
#[global] Instance PersistenceMode_eq_dec : EqDecision PersistenceMode.
Proof. solve_decision. Defined.

(** What a Run asks of the persistence actor. *)
Inductive ActorCall :=
  | ActorAppend (replay : OutputReplay)
  | ActorMarkSourceGap (gap : option N)
  | ActorFinalize (pid : N) (replay : OutputReplay) (terminal : RunState).

(** The durable handle: the address of its shared metadata counter and what was
    asked of its actor through it. *)
Record PersistentRun := { metadata_owner : N; durable_head : N; asked : list ActorCall }.

Inductive PersistenceBinding :=
  | BindingDisabled
  | BindingPending (terminal : option RunState)
  | CommittedPendingActivation (durable : PersistentRun) (terminal : option RunState)
  | BindingActive (durable : PersistentRun).
Definition binding_durable (b : PersistenceBinding) : option PersistentRun :=
  match b with
  | CommittedPendingActivation d _ | BindingActive d => Some d
  | BindingDisabled | BindingPending _ => None
  end.
Definition binding_active (b : PersistenceBinding) : option PersistentRun :=
  match b with BindingActive d => Some d | _ => None end.

Record NativeRunControl := {
  native : Control;
  native_reap : ChildReapState;
  entry_is_retired : bool;
  inner_owners : N;  (** [Arc::strong_count] of the control's inner *)
  pty_open : bool;
}.
Inductive RunControl := NativeRun (c : NativeRunControl) | TmuxRun (c : TmuxRunControl).

Record Run := {
  run_id : RunId;
  run_spec : option RunSpec;
  run_lineage : option RunLineage;
  run_backend : RunBackend;
  run_capabilities : RunCapabilities;
  run_pid : option N;
  run_state : RunState;
  run_output : OutputFacts;
  run_service : option NativeServiceSnapshot;
  durable_output_head : option N;
  incarnation_control : option RunControl;
  persistence_mode : PersistenceMode;
  persistence : PersistenceBinding;
  run_attachments : N;
  terminal_ordinal : option N;
  live_permit : bool;
  run_events : list RunEvent;  (** handed to [publish_event] *)
}.

(** Field updates. *)
Definition set_run_state (s : RunState) (ord : option N) (r : Run) : Run :=
  {| run_id := run_id r; run_spec := run_spec r; run_lineage := run_lineage r;
     run_backend := run_backend r; run_capabilities := run_capabilities r; run_pid := run_pid r;
     run_state := s; run_output := run_output r; run_service := run_service r;
     durable_output_head := durable_output_head r; incarnation_control := incarnation_control r;
     persistence_mode := persistence_mode r; persistence := persistence r;
     run_attachments := run_attachments r; terminal_ordinal := ord; live_permit := live_permit r;
     run_events := run_events r |}.
Definition set_incarnation (c : option RunControl) (r : Run) : Run :=
  {| run_id := run_id r; run_spec := run_spec r; run_lineage := run_lineage r;
     run_backend := run_backend r; run_capabilities := run_capabilities r; run_pid := run_pid r;
     run_state := run_state r; run_output := run_output r; run_service := run_service r;
     durable_output_head := durable_output_head r; incarnation_control := c;
     persistence_mode := persistence_mode r; persistence := persistence r;
     run_attachments := run_attachments r; terminal_ordinal := terminal_ordinal r;
     live_permit := live_permit r; run_events := run_events r |}.
Definition set_persistence (b : PersistenceBinding) (r : Run) : Run :=
  {| run_id := run_id r; run_spec := run_spec r; run_lineage := run_lineage r;
     run_backend := run_backend r; run_capabilities := run_capabilities r; run_pid := run_pid r;
     run_state := run_state r; run_output := run_output r; run_service := run_service r;
     durable_output_head := durable_output_head r; incarnation_control := incarnation_control r;
     persistence_mode := persistence_mode r; persistence := b;
     run_attachments := run_attachments r; terminal_ordinal := terminal_ordinal r;
     live_permit := live_permit r; run_events := run_events r |}.
Definition set_live_permit (b : bool) (r : Run) : Run :=
  {| run_id := run_id r; run_spec := run_spec r; run_lineage := run_lineage r;
     run_backend := run_backend r; run_capabilities := run_capabilities r; run_pid := run_pid r;
     run_state := run_state r; run_output := run_output r; run_service := run_service r;
     durable_output_head := durable_output_head r; incarnation_control := incarnation_control r;
     persistence_mode := persistence_mode r; persistence := persistence r;
     run_attachments := run_attachments r; terminal_ordinal := terminal_ordinal r;
     live_permit := b; run_events := run_events r |}.
Definition set_durable_head (n : option N) (r : Run) : Run :=
  {| run_id := run_id r; run_spec := run_spec r; run_lineage := run_lineage r;
     run_backend := run_backend r; run_capabilities := run_capabilities r; run_pid := run_pid r;
     run_state := run_state r; run_output := run_output r; run_service := run_service r;
     durable_output_head := n; incarnation_control := incarnation_control r;
     persistence_mode := persistence_mode r; persistence := persistence r;
     run_attachments := run_attachments r; terminal_ordinal := terminal_ordinal r;
     live_permit := live_permit r; run_events := run_events r |}.
Definition add_event (e : RunEvent) (r : Run) : Run :=
  {| run_id := run_id r; run_spec := run_spec r; run_lineage := run_lineage r;
     run_backend := run_backend r; run_capabilities := run_capabilities r; run_pid := run_pid r;
     run_state := run_state r; run_output := run_output r; run_service := run_service r;
     durable_output_head := durable_output_head r; incarnation_control := incarnation_control r;
     persistence_mode := persistence_mode r; persistence := persistence r;
     run_attachments := run_attachments r; terminal_ordinal := terminal_ordinal r;
     live_permit := live_permit r; run_events := run_events r ++ [e] |}.

(** ** Observations *)

Definition info (r : Run) : RunInfo :=
  {| info_id := run_id r; info_spec := run_spec r; info_lineage := run_lineage r;
     info_backend := run_backend r; info_capabilities := run_capabilities r;
     info_pid := run_pid r; info_state := run_state r; info_native_service := run_service r;
     info_latest_output_bytes := facts_latest_output_bytes (run_output r);
     info_durable_output_bytes := durable_output_head r;
     info_first_available_byte := facts_first_available_byte (run_output r);
     info_attachments := run_attachments r;
     info_applied_input_bytes := run_service r ≫= λ s, completed_input_bytes (Protocol.input s);
     info_current_size := run_service r ≫= λ s, current_size (Protocol.input s) |}.
Definition summary (r : Run) : RunSummary :=
  {| sum_id := run_id r; sum_backend := backend_kind (run_backend r); sum_pid := run_pid r;
     sum_state := run_state r; sum_latest_output_bytes := facts_latest_output_bytes (run_output r);
     sum_retained_output_bytes := facts_retained_bytes (run_output r);
     sum_attachments := run_attachments r |}.
Definition is_running (r : Run) : bool := run_state_is_running (run_state r).

(** Owner type sizes, the capacities of a Run's strings (the allocator's), and the
    length of an observation's JSON (serde's). *)
Class RunLayout := {
  resident_run_owner_bytes : N;
  resident_metadata_bytes : Run → N;
  info_json_bytes : RunInfo → N;
}.
Definition registry_metadata_bytes `{!RunLayout} (r : Run) (key : option CreateOperationKey) : N :=
  resident_metadata_bytes r +
  (info_json_bytes (info r) + match key with Some k => slen k | None => 0 end
   + resident_run_owner_bytes + 128).

(** ** Quiescence *)

Section run.
Context `{!UuidDisplay}.

(** [busy] says that another thread holds the control's lock, which [try_state]
    reports instead of waiting. *)
Definition native_quiescence (id : RunId) (busy : bool) (c : NativeRunControl)
    : result unit string :=
  let? _ := reap_result id (native_reap c) in
  if busy then Err ("Run " +:+ show_run_id id +:+ " native control cleanup owner is busy") else
  if negb (quiescent (state (native c)))
  then Err ("Run " +:+ show_run_id id +:+ " native control cleanup is not quiescent") else
  if decide (inner_owners c ≠ 1)
  then Err ("Run " +:+ show_run_id id +:+ " native control cleanup retains "
            +:+ pretty (inner_owners c) +:+ " owners")
  else Ok tt.

(** The tmux check caches the receipt it reads; [observe_again] shows that no later
    observation can tell. *)
Definition control_quiescence (id : RunId) (busy : bool) (c : RunControl) : result unit string :=
  match c with
  | NativeRun c => native_quiescence id busy c
  | TmuxRun c => (tmux_quiescence c).2
  end.

Definition collection_ordinal (busy : bool) (r : Run) : option N :=
  if is_running r || negb (bool_decide (run_attachments r = 0)) then None else
  ordinal ← terminal_ordinal r;
  if match incarnation_control r with
     | Some c => is_ok (control_quiescence (run_id r) busy c)
     | None => bool_decide (persistence_mode r = PersistentCapable)
     end then Some ordinal else None.

Definition detach_native (c : NativeRunControl) : NativeRunControl :=
  {| native := detach_writer (native c); native_reap := native_reap c;
     entry_is_retired := entry_is_retired c; inner_owners := inner_owners c; pty_open := false |}.
Definition detach_collection_descriptors (busy : bool) (r : Run) : result Run string :=
  match incarnation_control r with
  | Some (NativeRun c) =>
      let? _ := native_quiescence (run_id r) busy c in
      Ok (set_incarnation (Some (NativeRun (detach_native c))) r)
  | Some (TmuxRun c) => let? _ := (tmux_quiescence c).2 in Ok r
  | None =>
      if decide (persistence_mode r = PersistentCapable) then Ok r
      else Err ("Run " +:+ show_run_id (run_id r) +:+ " has no incarnation owner to collect")
  end.

(** The Run, and whether its live permit was dropped. *)
Definition release_closed_resources (busy : bool) (r : Run) : Run * bool :=
  if is_running r then (r, false) else
  match incarnation_control r with
  | Some (NativeRun c) =>
      match native_quiescence (run_id r) busy c with
      | Ok _ => (set_live_permit false (set_incarnation (Some (NativeRun (detach_native c))) r),
                 live_permit r)
      | Err _ => (r, false)
      end
  | Some (TmuxRun c) =>
      if is_ok (tmux_quiescence c).2 then (set_live_permit false r, live_permit r) else (r, false)
  | None => (set_live_permit false r, live_permit r)
  end.

Definition native_control (r : Run) : result NativeRunControl ProtocolError :=
  match incarnation_control r with
  | Some (NativeRun c) => Ok c
  | Some (TmuxRun _) => Err (protocol_error UnsupportedCapability
      ("Run " +:+ show_run_id (run_id r) +:+ " backend does not support native control"))
  | None => Err (protocol_error InvalidRunState
      ("cannot control historical Run " +:+ show_run_id (run_id r)))
  end.

(** [owners] is [Arc::strong_count] of the Run. *)
Definition unpublished_cleanup_result (busy : bool) (owners : N) (r : Run) : result unit string :=
  let? c := map_err message (native_control r) in
  let? _ := native_quiescence (run_id r) busy c in
  if decide (owners ≠ 1)
  then Err ("unpublished Run " +:+ show_run_id (run_id r) +:+ " retains " +:+ pretty owners
            +:+ " reader, waiter, or external owners")
  else Ok tt.
Definition tmux_unpublished_cleanup_result (r : Run) : result unit string :=
  match incarnation_control r with
  | Some (TmuxRun c) => (tmux_quiescence c).2
  | Some (NativeRun _) => Err "unpublished tmux cleanup references a native Run"
  | None => Err "unpublished tmux cleanup has no incarnation owner"
  end.

Definition entry_retired (r : Run) : bool :=
  match incarnation_control r with
  | Some (NativeRun c) => entry_is_retired c
  | _ => true
  end.
Definition terminal_visibility_ready (r : Run) : bool := negb (is_running r) && entry_retired r.
Definition child_reaped (r : Run) : bool :=
  match incarnation_control r with
  | Some (NativeRun c) => is_ok (reap_result (run_id r) (native_reap c))
  | Some (TmuxRun c) =>
      match (observe_completion c).2 with ObservedComplete _ => true | ObservedPending => false end
  | None => false
  end.
End run.

(** ** Terminal publication *)

Definition next_ordinal (next : N) : outcome N :=
  expect "terminal ordinal does not overflow" (checked_add next 1).
(** [TerminalPublicationOwner::recover]. *)
Definition recover_ordinal (next : N) (r : Run) : outcome (N * Run) :=
  let! next := next_ordinal next in
  let! _ := check "one recovered Run receives one terminal ordinal"
              (bool_decide (terminal_ordinal r = None)) in
  Ret (next, set_run_state (run_state r) (Some next) r).
(** [TerminalPublicationOwner::publish]: the ordinal and the state in one section. *)
Definition publish_ordinal (terminal : RunState) (next : N) (r : Run) : outcome (N * Run) :=
  let! next := next_ordinal next in
  let! _ := check "one Run publishes terminal state once"
              (bool_decide (terminal_ordinal r = None)) in
  Ret (next, set_run_state terminal (Some next) r).

Definition publish_event (e : RunEvent) (r : Run) : Run :=
  if decide (run_attachments r = 0) then r else add_event e r.
Definition ask (c : ActorCall) (d : PersistentRun) : PersistentRun :=
  {| metadata_owner := metadata_owner d; durable_head := durable_head d; asked := asked d ++ [c] |}.

(** What the output log answers while it is locked: its durable replay from byte 0 and
    its source gap. *)
Record LogFacts := { log_replay : OutputReplay; log_gap : option N }.

Definition finish_durable (log : LogFacts) (terminal : RunState) (pid : N) (d : PersistentRun)
    : PersistentRun :=
  ask (ActorFinalize pid (log_replay log) terminal) (ask (ActorMarkSourceGap (log_gap log)) d).

Definition publish_terminal (log : LogFacts) (terminal : RunState) (next : N) (r : Run)
    : outcome (N * Run) :=
  match persistence_mode r with
  | MemoryOnly =>
      let! '(next, r) := publish_ordinal terminal next r in
      Ret (next, publish_event (ExitedEvent terminal) r)
  | PersistentCapable =>
      match persistence r with
      | BindingPending pending =>
          let! _ := check "debug assertion failed" (bool_decide (pending = None)) in
          Ret (next, set_persistence (BindingPending (Some terminal)) r)
      | CommittedPendingActivation d pending =>
          let! _ := check "debug assertion failed" (bool_decide (pending = None)) in
          Ret (next, set_persistence (CommittedPendingActivation d (Some terminal)) r)
      | BindingActive d =>
          let! pid := expect "native Run has a child PID" (run_pid r) in
          let r := set_persistence (BindingActive (finish_durable log terminal pid d)) r in
          let! '(next, r) := publish_ordinal terminal next r in
          Ret (next, publish_event (ExitedEvent terminal) r)
      | BindingDisabled => Panic "persistence-capable Run retains a persistence binding"
      end
  end.

Definition publish_interrupted (reason : InterruptionReason) (next : N) (r : Run)
    : outcome (N * Run) :=
  let! '(next, r) := publish_ordinal (Protocol.Interrupted reason) next r in
  Ret (next, publish_event (InterruptedEvent reason) r).

Definition install_committed_persistence (d : PersistentRun) (r : Run) : outcome Run :=
  let! _ := check "only persistence-capable Runs can bind durable state"
              (bool_decide (persistence_mode r = PersistentCapable)) in
  match persistence r with
  | BindingPending terminal =>
      let! _ := check "one committed output owner per Run"
                  (bool_decide (durable_output_head r = None)) in
      Ret (set_durable_head (Some (durable_head d))
             (set_persistence (CommittedPendingActivation d terminal) r))
  | _ => Panic "persistent Run installs one committed binding"
  end.

Definition activate_persistence_after_publication (log : LogFacts) (next : N) (r : Run)
    : outcome (N * Run) :=
  match persistence r with
  | CommittedPendingActivation d (Some terminal) =>
      let! pid := expect "native Run has a child PID" (run_pid r) in
      let r := set_persistence (BindingActive (finish_durable log terminal pid d)) r in
      let! '(next, r) := publish_ordinal terminal next r in
      Ret (next, publish_event (ExitedEvent terminal) r)
  | CommittedPendingActivation d None =>
      Ret (next, set_persistence (BindingActive (ask (ActorAppend (log_replay log)) d)) r)
  | _ => Panic "committed persistence activates exactly once after publication"
  end.

(** ** Lemmas *)

Lemma observe_again c : (observe (observe c).1).2 = (observe c).2.
Proof. by destruct c as [[|] []|]. Qed.

Lemma release_keeps `{!UuidDisplay} busy r :
  run_id (release_closed_resources busy r).1 = run_id r ∧
  ((release_closed_resources busy r).2 = true → live_permit r = true) ∧
  live_permit (release_closed_resources busy r).1
    = live_permit r && negb (release_closed_resources busy r).2.
Proof.
  unfold release_closed_resources. destruct (is_running r); simpl.
  { split_and!; try done. by destruct (live_permit r). }
  destruct (incarnation_control r) as [[c|c]|]; [destruct (native_quiescence _ _ _)|destruct (is_ok _)|];
    simpl; split_and!; try done; by destruct (live_permit r).
Qed.

(** What happens to a Run's binding. *)
Inductive BindingEvent := ChildExits | StoreCommits | PublicationActivates.
#[global] Instance BindingEvent_eq_dec : EqDecision BindingEvent.
Proof. solve_decision. Defined.

Section binding.
Context (log : LogFacts) (terminal : RunState) (d : PersistentRun).

Definition binding_step (e : BindingEvent) (s : N * Run) : outcome (N * Run) :=
  match e with
  | ChildExits => publish_terminal log terminal s.1 s.2
  | StoreCommits => let! r := install_committed_persistence d s.2 in Ret (s.1, r)
  | PublicationActivates => activate_persistence_after_publication log s.1 s.2
  end.
Fixpoint binding_steps (es : list BindingEvent) (s : N * Run) : outcome (N * Run) :=
  match es with
  | [] => Ret s
  | e :: es => let! s := binding_step e s in binding_steps es s
  end.

(** A persistent Run that was just launched. *)
Record launched (pid : N) (r : Run) : Prop := {
  l_mode : persistence_mode r = PersistentCapable;
  l_binding : persistence r = BindingPending None;
  l_ordinal : terminal_ordinal r = None;
  l_head : durable_output_head r = None;
  l_pid : run_pid r = Some pid;
}.
(** Commit comes before activation; the exit may come at any time. *)
Definition schedules : list (list BindingEvent) :=
  [[ChildExits; StoreCommits; PublicationActivates];
   [StoreCommits; ChildExits; PublicationActivates];
   [StoreCommits; PublicationActivates; ChildExits]].

Definition is_finalize (c : ActorCall) : bool :=
  match c with ActorFinalize _ _ _ => true | _ => false end.
Definition finalize_calls (l : list ActorCall) : list ActorCall := filter is_finalize l.
Definition bound_calls (r : Run) : list ActorCall :=
  match binding_durable (persistence r) with Some d => asked d | None => [] end.

(** C32: in every order of the three events nothing panics; until the handle is active
    the Run stays in its state with no ordinal, announces nothing and finalizes
    nothing; in the end the terminal is its state with the next ordinal, and the
    store was asked to finalize it exactly once, after its source gap. *)
Theorem terminal_waits_for_activation es pid next r (Hes : es ∈ schedules) (Hlaunched : launched pid r)
    (Hnext : next + 1 ≤ u64_max) :
  (∀ k, (k < 3)%nat → ∃ n r', binding_steps (take k es) (next, r) = Ret (n, r') ∧
     n = next ∧ run_state r' = run_state r ∧ terminal_ordinal r' = None ∧ run_events r' = run_events r ∧
     finalize_calls (bound_calls r') = if decide (StoreCommits ∈ take k es) then finalize_calls (asked d) else []) ∧
  ∃ r', binding_steps es (next, r) = Ret (next + 1, r') ∧
    run_state r' = terminal ∧ terminal_ordinal r' = Some (next + 1) ∧
    run_events r' = run_events r ++ (if decide (run_attachments r = 0) then [] else [ExitedEvent terminal]) ∧
    finalize_calls (bound_calls r') = finalize_calls (asked d) ++ [ActorFinalize pid (log_replay log) terminal].
Proof.
  destruct Hlaunched as [Hm Hb Ho Hh Hp].
  destruct r as [a1 a2 a3 a4 a5 a6 a7 a8 a9 a10 a11 a12 a13 a14 a15 a16 a17]. cbn in *. subst.
  assert (Hn : checked_add next 1 = Some (next + 1)) by (by apply checked_add_Some).
  unfold schedules in Hes. rewrite !elem_of_cons in Hes. destruct Hes as [->|[->|[->|Hes]]]; [..|by apply not_elem_of_nil in Hes].
  all: split; [intros k Hk; destruct k as [|[|[|k]]]; [| | |lia]|].
  all: lazymatch goal with |- ∃ n, ∃ r', _ => eexists _, _ | |- _ => eexists end; cbn [take];
    repeat progress (cbn; unfold publish_terminal, install_committed_persistence,
      activate_persistence_after_publication, publish_ordinal, next_ordinal;
      rewrite ?Hn; rewrite ?bool_decide_true by done);
    split; [reflexivity|]; cbn.
  all: unfold publish_event, finalize_calls, bound_calls; cbn;
    repeat (case_decide as Hd; cbn in *; try (exfalso; set_solver)); rewrite ?filter_app; cbn;
    rewrite ?app_nil_r; split_and!; reflexivity.
Qed.
End binding.

(** A Run that commits, exits and is then published. *)
Definition sample_run : Run :=
  {| run_id := 4; run_spec := None; run_lineage := None; run_backend := NativeBackend;
     run_capabilities := NATIVE; run_pid := Some 9; run_state := Running;
     run_output := {| facts_latest_output_bytes := 2; facts_first_available_byte := 0; facts_retained_bytes := 2 |};
     run_service := None; durable_output_head := None; incarnation_control := None;
     persistence_mode := PersistentCapable; persistence := BindingPending None; run_attachments := 1;
     terminal_ordinal := None; live_permit := true; run_events := [] |}.
Definition sample_log : LogFacts :=
  {| log_replay := {| replay_chunks := []; replay_first_available_byte := 2; replay_latest_output_bytes := 2;
                      replay_truncated := true |};
     log_gap := Some 2 |}.
Definition sample_durable : PersistentRun := {| metadata_owner := 0; durable_head := 0; asked := [] |}.
Lemma terminal_waits_for_activation_witness :
  [StoreCommits; ChildExits; PublicationActivates] ∈ schedules ∧
  ∃ r', binding_steps sample_log (Exited 0 None) sample_durable
          [StoreCommits; ChildExits; PublicationActivates] (5, sample_run) = Ret (6, r') ∧
        run_events r' = [ExitedEvent (Exited 0 None)].
Proof.
  split; [right; left|].
  destruct (terminal_waits_for_activation sample_log (Exited 0 None) sample_durable
    [StoreCommits; ChildExits; PublicationActivates] 9 5 sample_run) as (_ & r' & Hr & _ & _ & He & _).
  - right. left.
  - by constructor.
  - vm_compute. discriminate.
  - exists r'. split; [exact Hr|]. rewrite He. vm_compute. reflexivity.
Defined.
