(* ===== verification/Registry.v ===== *)
(** * Registry

    [RunRegistry] of [crates/ctxmux-daemon/src/creation.rs]: the single owner of the
    retained Runs, their creation and Stop keys, and the reservations that fund a
    publication before its Backend starts.

    Runs, Stop result cells and metadata counters are shared objects ([Arc]); they
    live in the heap of [Shared] and entries hold their addresses.  A section is one
    critical section of the registry's lock.  The order of a [HashMap] is that of
    [map_to_list]; the operations either sort what they read from it or do not depend
    on it. *)

From S2P Require Import Prelude.
From S2P Require Import Protocol.
From S2P Require Import Resources.
From S2P Require Import Wire.
From S2P Require Import NativeControl.
From S2P Require Import Runs.

Inductive CreationRequest :=
  | StartRequest (spec : RunSpec)
  | ForkRequest (parent : RunId) (plan : ForkPlan).
#[global] Instance CreationRequest_eq_dec : EqDecision CreationRequest.
Proof. solve_decision. Defined.

Definition matches_run (request : CreationRequest) (r : Run) : bool :=
  match request, run_spec r, run_lineage r with
  | StartRequest spec, Some run_spec, None => bool_decide (spec = run_spec)
  | ForkRequest parent LevelA, Some _, Some lineage =>
      bool_decide (lineage_parent lineage = parent)
      && bool_decide (lineage_fidelity lineage = LevelAFidelity)
  | ForkRequest parent (LevelB spec), Some run_spec, Some lineage =>
      bool_decide (lineage_parent lineage = parent)
      && bool_decide (lineage_fidelity lineage = LevelBFidelity)
      && bool_decide (spec = run_spec)
  | _, _, _ => false
  end.

(** ** State *)

Record StopOperationRecord := {
  stop_key : StopOperationKey;
  stop_cell : N;
  stop_memory : N;  (** its budget permit *)
}.
Class StopLayout := { size_of_stop_record : N; size_of_stop_cell : N }.
Definition stop_receipt_charge `{!StopLayout} (key : StopOperationKey) : N :=
  slen key * 2 + size_of_stop_record + size_of_stop_cell + INPUT_RESULT_DIAGNOSTIC_RESERVE_BYTES.

Inductive RegistryResidency := Retained | Collecting (ticket : N) | Removing.
#[global] Instance RegistryResidency_eq_dec : EqDecision RegistryResidency.
Proof. solve_decision. Defined.

Record RegistryEntry := {
  entry_run : N;
  entry_key : option CreateOperationKey;
  stop_operation : option StopOperationRecord;
  metadata_bytes : option N;
  metadata_charge : N;
  residency : RegistryResidency;
}.
Record RegistryReservation := {
  new_run_id : RunId;
  reserved_key : option CreateOperationKey;
  reserved_request : option CreationRequest;
  new_metadata_bytes : option N;
  candidates : list RunId;
}.

Record RegistryState := {
  runs : gmap RunId RegistryEntry;
  creation_runs : gmap CreateOperationKey RunId;
  stop_runs : gmap StopOperationKey RunId;
  reservations : gmap N RegistryReservation;
  next_ticket : N;
  record_capacity : N;
  live_capacity : N;
  live_resources : N;
  metadata_capacity : N;
  retained_metadata_bytes : N;
  control_budget : ByteBudget.t;
}.

(** A shared Run and its [Arc::strong_count]. *)
Record RunCell := { the_run : Run; strong : N }.
Record Shared := {
  registry : RegistryState;
  heap : gmap N RunCell;
  cells : gmap N (option ControlResult);
  counters : gmap N N;
}.

(** *** Updates *)

Definition set_residency (x : RegistryResidency) (e : RegistryEntry) : RegistryEntry :=
  {| entry_run := entry_run e; entry_key := entry_key e; stop_operation := stop_operation e;
     metadata_bytes := metadata_bytes e; metadata_charge := metadata_charge e; residency := x |}.
Definition set_stop (x : option StopOperationRecord) (e : RegistryEntry) : RegistryEntry :=
  {| entry_run := entry_run e; entry_key := entry_key e; stop_operation := x;
     metadata_bytes := metadata_bytes e; metadata_charge := metadata_charge e;
     residency := residency e |}.

Definition set_runs (m : gmap RunId RegistryEntry) (s : RegistryState) : RegistryState :=
  {| runs := m; creation_runs := creation_runs s; stop_runs := stop_runs s;
     reservations := reservations s; next_ticket := next_ticket s;
     record_capacity := record_capacity s; live_capacity := live_capacity s;
     live_resources := live_resources s; metadata_capacity := metadata_capacity s;
     retained_metadata_bytes := retained_metadata_bytes s; control_budget := control_budget s |}.
Definition set_creation_runs (m : gmap CreateOperationKey RunId) (s : RegistryState)
    : RegistryState :=
  {| runs := runs s; creation_runs := m; stop_runs := stop_runs s;
     reservations := reservations s; next_ticket := next_ticket s;
     record_capacity := record_capacity s; live_capacity := live_capacity s;
     live_resources := live_resources s; metadata_capacity := metadata_capacity s;
     retained_metadata_bytes := retained_metadata_bytes s; control_budget := control_budget s |}.
Definition set_stop_runs (m : gmap StopOperationKey RunId) (s : RegistryState) : RegistryState :=
  {| runs := runs s; creation_runs := creation_runs s; stop_runs := m;
     reservations := reservations s; next_ticket := next_ticket s;
     record_capacity := record_capacity s; live_capacity := live_capacity s;
     live_resources := live_resources s; metadata_capacity := metadata_capacity s;
     retained_metadata_bytes := retained_metadata_bytes s; control_budget := control_budget s |}.
Definition set_reservations (m : gmap N RegistryReservation) (ticket : N) (s : RegistryState)
    : RegistryState :=
  {| runs := runs s; creation_runs := creation_runs s; stop_runs := stop_runs s;
     reservations := m; next_ticket := ticket;
     record_capacity := record_capacity s; live_capacity := live_capacity s;
     live_resources := live_resources s; metadata_capacity := metadata_capacity s;
     retained_metadata_bytes := retained_metadata_bytes s; control_budget := control_budget s |}.
Definition set_live_resources (n : N) (s : RegistryState) : RegistryState :=
  {| runs := runs s; creation_runs := creation_runs s; stop_runs := stop_runs s;
     reservations := reservations s; next_ticket := next_ticket s;
     record_capacity := record_capacity s; live_capacity := live_capacity s;
     live_resources := n; metadata_capacity := metadata_capacity s;
     retained_metadata_bytes := retained_metadata_bytes s; control_budget := control_budget s |}.
Definition set_live_capacity (n : N) (s : RegistryState) : RegistryState :=
  {| runs := runs s; creation_runs := creation_runs s; stop_runs := stop_runs s;
     reservations := reservations s; next_ticket := next_ticket s;
     record_capacity := record_capacity s; live_capacity := n;
     live_resources := live_resources s; metadata_capacity := metadata_capacity s;
     retained_metadata_bytes := retained_metadata_bytes s; control_budget := control_budget s |}.
Definition set_retained_metadata (n : N) (s : RegistryState) : RegistryState :=
  {| runs := runs s; creation_runs := creation_runs s; stop_runs := stop_runs s;
     reservations := reservations s; next_ticket := next_ticket s;
     record_capacity := record_capacity s; live_capacity := live_capacity s;
     live_resources := live_resources s; metadata_capacity := metadata_capacity s;
     retained_metadata_bytes := n; control_budget := control_budget s |}.
Definition set_control_budget (b : ByteBudget.t) (s : RegistryState) : RegistryState :=
  {| runs := runs s; creation_runs := creation_runs s; stop_runs := stop_runs s;
     reservations := reservations s; next_ticket := next_ticket s;
     record_capacity := record_capacity s; live_capacity := live_capacity s;
     live_resources := live_resources s; metadata_capacity := metadata_capacity s;
     retained_metadata_bytes := retained_metadata_bytes s; control_budget := b |}.

Definition upd_registry (f : RegistryState → RegistryState) (s : Shared) : Shared :=
  {| registry := f (registry s); heap := heap s; cells := cells s; counters := counters s |}.
Definition set_heap (h : gmap N RunCell) (s : Shared) : Shared :=
  {| registry := registry s; heap := h; cells := cells s; counters := counters s |}.
Definition set_cells (c : gmap N (option ControlResult)) (s : Shared) : Shared :=
  {| registry := registry s; heap := heap s; cells := c; counters := counters s |}.
Definition set_counters (c : gmap N N) (s : Shared) : Shared :=
  {| registry := registry s; heap := heap s; cells := cells s; counters := c |}.

(** *** Shared Runs *)

(** An [Arc] always points at its Run. *)
Definition deref (p : N) (s : Shared) : outcome RunCell := expect "a live Arc" (heap s !! p).
Definition write_run (p : N) (r : Run) (s : Shared) : Shared :=
  match heap s !! p with
  | Some c => set_heap (<[p := {| the_run := r; strong := strong c |}]> (heap s)) s
  | None => s
  end.
Definition clone_run (p : N) (s : Shared) : outcome Shared :=
  let! c := deref p s in
  Ret (set_heap (<[p := {| the_run := the_run c; strong := strong c + 1 |}]> (heap s)) s).

(** [LiveResourcePermit::drop]. *)
Definition drop_live_permit (permit : bool) (s : Shared) : Shared :=
  if permit then
    upd_registry (λ g, set_live_resources (wrapping_sub (live_resources g) 1) g) s
  else s.
(** Dropping one [Arc<Run>]: the last one drops the Run and its live permit. *)
Definition drop_run (p : N) (s : Shared) : outcome Shared :=
  let! c := deref p s in
  if decide (strong c = 1) then
    Ret (drop_live_permit (live_permit (the_run c)) (set_heap (delete p (heap s)) s))
  else
    Ret (set_heap (<[p := {| the_run := the_run c; strong := strong c - 1 |}]> (heap s)) s).
Definition drop_memory (permit : option N) (s : Shared) : Shared :=
  match permit with
  | Some n => upd_registry (λ g, set_control_budget (ByteBudget.drop_permit n (control_budget g)) g) s
  | None => s
  end.
(** A removed entry drops outside the lock: its Run and its Stop permit. *)
Definition drop_entry (e : RegistryEntry) (s : Shared) : outcome Shared :=
  let! s := drop_run (entry_run e) s in
  Ret (drop_memory (stop_memory <$> stop_operation e) s).

(** ** Reads *)

Definition creation_entry (s : RegistryState) (key : CreateOperationKey)
    : result (option RegistryEntry) ProtocolError :=
  match creation_runs s !! key with
  | None => Ok None
  | Some id =>
      match runs s !! id with
      | None => Err (protocol_error Internal "Run creation registry lost its retained Run")
      | Some e =>
          if decide (entry_key e = Some key) then Ok (Some e)
          else Err (protocol_error Internal "Run creation registry lost its exact key owner")
      end
  end.

(** The reservation that [values().find] meets for a key. *)
Definition find_reservation (key : CreateOperationKey) (s : RegistryState)
    : option RegistryReservation :=
  snd <$> head (filter (λ kv, reserved_key kv.2 = Some key) (map_to_list (reservations s))).

Definition being_replaced (id : string) : ProtocolError :=
  protocol_error BackendUnavailable ("Run " +:+ id +:+
    " is temporarily unavailable while its retained owner is being replaced or removed").
Definition fenced_creation : ProtocolError :=
  protocol_error BackendUnavailable
    "Run creation is temporarily fenced by an unpublished Registry reservation".

Inductive CreationObservation := NotRetained (key : CreateOperationKey)
  | RetainedCreation (key : CreateOperationKey) (run : RunInfo).

Definition retained_info (e : RegistryEntry) (s : Shared) : outcome (result RunInfo ProtocolError) :=
  match residency e with
  | Retained => let! c := deref (entry_run e) s in Ret (Ok (info (the_run c)))
  | Collecting _ | Removing =>
      Ret (Err (protocol_error BackendUnavailable
        "Run creation is temporarily unavailable while its retained owner is being replaced or removed"))
  end.

Definition observe_creation (key : CreateOperationKey) (s : Shared)
    : outcome (result CreationObservation ProtocolError) :=
  match create_key_validate key with
  | Err e => Ret (Err (protocol_error InvalidRequest (create_key_error_display e)))
  | Ok _ =>
      if bool_decide (is_Some (find_reservation key (registry s))) then Ret (Err fenced_creation)
      else
        match creation_entry (registry s) key with
        | Err e => Ret (Err e)
        | Ok None => Ret (Ok (NotRetained key))
        | Ok (Some e) =>
            let! r := retained_info e s in
            Ret (result_map (RetainedCreation key) r)
        end
  end.

Definition resolve_creation_info (key : CreateOperationKey) (request : CreationRequest)
    (s : Shared) : outcome (result (option RunInfo) ProtocolError) :=
  match find_reservation key (registry s) with
  | Some reservation =>
      Ret (Err (if match reserved_request reservation with
                   | Some owned => bool_decide (owned = request)
                   | None => true
                   end
                then fenced_creation
                else protocol_error CreationConflict
                       "Run creation operation key is reserved for a different request"))
  | None =>
      match creation_entry (registry s) key with
      | Err e => Ret (Err e)
      | Ok None => Ret (Ok None)
      | Ok (Some e) =>
          let! c := deref (entry_run e) s in
          if negb (matches_run request (the_run c)) then
            Ret (Err (protocol_error CreationConflict
              "Run creation operation key is already bound to a different request"))
          else
            let! r := retained_info e s in
            Ret (result_map Some r)
      end
  end.

(** ** Candidate selection *)

(** [Iterator::sum] of [u64]s. *)
Fixpoint sum_u64 (l : list N) : outcome N :=
  match l with
  | [] => Ret 0
  | n :: l => let! m := sum_u64 l in plus_u64 n m
  end.

Definition charge_of (m : gmap RunId RegistryEntry) (id : RunId) : N :=
  match m !! id with Some e => metadata_charge e | None => 0 end.
(** What one reservation adds to the projected metadata. *)
Definition reserved_metadata (m : gmap RunId RegistryEntry) (x : RegistryReservation)
    : outcome (option N) :=
  match new_metadata_bytes x with
  | None => Ret None
  | Some n =>
      let! released := sum_u64 (map metadata_charge (omap (λ id, m !! id) (candidates x))) in
      Ret (Some (n -sat released))
  end.
Fixpoint collect_metadata (m : gmap RunId RegistryEntry) (xs : list RegistryReservation)
    : outcome (list N) :=
  match xs with
  | [] => Ret []
  | x :: xs =>
      let! n := reserved_metadata m x in
      let! ns := collect_metadata m xs in
      Ret (option_list n ++ ns)
  end.
Definition projected_metadata_bytes (s : RegistryState) : outcome N :=
  let! ns := collect_metadata (runs s) (map snd (map_to_list (reservations s))) in
  let! reserved := sum_u64 ns in
  Ret (retained_metadata_bytes s +sat reserved).

Definition Candidate : Type := N * string * RunId.
(** [compare_memory_collection_candidates], as "not after". *)
Definition candidate_le (a b : Candidate) : Prop :=
  a.1.1 < b.1.1 ∨ a.1.1 = b.1.1 ∧ String.le a.1.2 b.1.2.
#[global] Instance candidate_le_dec a b : Decision (candidate_le a b).
Proof. unfold candidate_le. apply _. Defined.

Section registry.
Context `{!UuidDisplay, !RunLayout, !StopLayout}.

(** [busy] is, per Run, whether another thread holds its control's lock at that
    moment. *)
Definition eligible (busy : N → bool) (funding : bool) (s : Shared) (id : RunId)
    (e : RegistryEntry) : outcome (option Candidate) :=
  let! c := deref (entry_run e) s in
  if negb (bool_decide (residency e = Retained)) || negb (bool_decide (strong c = 1))
     || (funding && bool_decide (metadata_bytes e = None))
  then Ret None
  else Ret ((λ ordinal, (ordinal, show_run_id id, id))
              <$> collection_ordinal (busy (entry_run e)) (the_run c)).
Fixpoint eligible_all (busy : N → bool) (funding : bool) (s : Shared)
    (l : list (RunId * RegistryEntry)) : outcome (list Candidate) :=
  match l with
  | [] => Ret []
  | (id, e) :: l =>
      let! c := eligible busy funding s id e in
      let! cs := eligible_all busy funding s l in
      Ret (option_list c ++ cs)
  end.

Fixpoint take_candidates (m : gmap RunId RegistryEntry) (needs_record : bool) (to_fund : N)
    (ordered : list Candidate) (taken : list RunId) (metadata : N) : list RunId * N :=
  match ordered with
  | [] => (taken, metadata)
  | (_, id) :: ordered =>
      if (negb needs_record || negb (bool_decide (taken = []))) && bool_decide (to_fund ≤ metadata)
      then (taken, metadata)
      else take_candidates m needs_record to_fund ordered (taken ++ [id])
             (metadata +sat charge_of m id)
  end.

Record CandidateSelection := { evaluated : N; selected : result (list RunId) ProtocolError }.

(** The scan and the sort, which a publication without pressure skips. *)
Definition scan_candidates (busy : N → bool) (new_metadata : option N) (needs_record : bool)
    (to_fund : N) (s : Shared) : outcome CandidateSelection :=
  let g := registry s in
  let! found := eligible_all busy (bool_decide (is_Some new_metadata)) s (map_to_list (runs g)) in
  let ordered := merge_sort candidate_le found in
  let '(taken, metadata) := take_candidates (runs g) needs_record to_fund ordered [] 0 in
  let n := N.of_nat (size (runs g)) in
  Ret {| evaluated := n; selected :=
    if (needs_record && bool_decide (taken = [])) || bool_decide (metadata < to_fund)
    then Err (protocol_error RunCapacity ("retained Run capacity " +:+ pretty (record_capacity g)
                +:+ " has no eligible exact replacement"))
    else if bool_decide (1 < len taken) &&
            existsb (λ kv, bool_decide (1 < len (candidates kv.2))) (map_to_list (reservations g))
    then Err (protocol_error BackendUnavailable
                "persistent metadata replacement is already reserved")
    else Ok taken |}.

Definition record_burden (x : RegistryReservation) : N :=
  if bool_decide (candidates x = []) then 1 else 0.
Definition projected_records (g : RegistryState) : outcome N :=
  let! burden := sum_u64 (map (λ kv, record_burden kv.2) (map_to_list (reservations g))) in
  expect "projected Registry count does not overflow"
    (checked_add (N.of_nat (size (runs g))) burden).
Definition metadata_to_fund (new_metadata : option N) (g : RegistryState) : outcome N :=
  match new_metadata with
  | None => Ret 0
  | Some n => let! projected := projected_metadata_bytes g in
              Ret (projected +sat n -sat metadata_capacity g)
  end.

Definition select_publication_candidates (busy : N → bool) (new_metadata : option N)
    (s : Shared) : outcome CandidateSelection :=
  let g := registry s in
  let! records := projected_records g in
  let! to_fund := metadata_to_fund new_metadata g in
  let needs_record := bool_decide (record_capacity g ≤ records) in
  if negb needs_record && bool_decide (to_fund = 0)
  then Ret {| evaluated := 0; selected := Ok [] |}
  else scan_candidates busy new_metadata needs_record to_fund s.

(** ** Reservations *)

(** The RAII owner a caller holds. *)
Record PublicationReservation := {
  ticket : option N;
  removed : list RegistryEntry;
  permit : bool;
  owner_metadata_bytes : N;
}.

Fixpoint release_all (busy : N → bool) (l : list (RunId * RegistryEntry)) (s : Shared)
    : outcome Shared :=
  match l with
  | [] => Ret s
  | (_, e) :: l =>
      let! c := deref (entry_run e) s in
      let '(r, freed) := release_closed_resources (busy (entry_run e)) (the_run c) in
      release_all busy l (drop_live_permit freed (write_run (entry_run e) r s))
  end.

Fixpoint fence_candidates (t : N) (ids : list RunId) (s : Shared) : outcome Shared :=
  match ids with
  | [] => Ret s
  | id :: ids =>
      let! e := expect "selected collection candidate remains retained"
                  (runs (registry s) !! id) in
      let! _ := check "debug assertion failed" (bool_decide (residency e = Retained)) in
      fence_candidates t ids
        (upd_registry (λ g, set_runs (<[id := set_residency (Collecting t) e]> (runs g)) g) s)
  end.

Fixpoint unfence_candidates (t : N) (ids : list RunId) (s : Shared) : outcome Shared :=
  match ids with
  | [] => Ret s
  | id :: ids =>
      let! e := expect "uncommitted candidate remains in the Registry"
                  (runs (registry s) !! id) in
      let! _ := check "debug assertion failed" (bool_decide (residency e = Collecting t)) in
      unfence_candidates t ids
        (upd_registry (λ g, set_runs (<[id := set_residency Retained e]> (runs g)) g) s)
  end.
Definition restore_reservation (t : N) (s : Shared) : outcome Shared :=
  let! x := expect "active publication ticket remains registered"
              (reservations (registry s) !! t) in
  unfence_candidates t (candidates x)
    (upd_registry (λ g, set_reservations (delete t (reservations g)) (next_ticket g) g) s).

(** Detaching the fenced candidates' descriptors, up to the first refusal. *)
Fixpoint detach_candidates (busy : N → bool) (ids : list RunId) (s : Shared)
    : outcome (Shared * result unit string) :=
  match ids with
  | [] => Ret (s, Ok tt)
  | id :: ids =>
      match runs (registry s) !! id with
      | None => detach_candidates busy ids s
      | Some e =>
          let! c := deref (entry_run e) s in
          match detach_collection_descriptors (busy (entry_run e)) (the_run c) with
          | Err error => Ret (s, Err error)
          | Ok r => detach_candidates busy ids (write_run (entry_run e) r s)
          end
      end
  end.

(** What the section observes of other threads and of the allocator: the controls
    held while it releases, selects and detaches, and the two [try_reserve]s. *)
Record ReserveEnv := {
  busy_release : N → bool;
  busy_select : N → bool;
  busy_detach : N → bool;
  index_memory : result unit string;
  removed_memory : result unit string;
}.

Definition live_exhausted (g : RegistryState) : bool :=
  bool_decide (live_capacity g ≤ live_resources g).

Definition reserve_publication (env : ReserveEnv) (id : RunId)
    (key : option CreateOperationKey) (request : option CreationRequest)
    (new_metadata : option N) : M Shared ProtocolError PublicationReservation := λ s,
  let g := registry s in
  let! _ := check "debug assertion failed" (bool_decide (runs g !! id = None)) in
  let! _ := check "debug assertion failed"
              (match key with Some k => bool_decide (creation_runs g !! k = None) | None => true end) in
  let! s := if live_exhausted g then release_all (busy_release env) (map_to_list (runs g)) s
            else Ret s in
  if live_exhausted (registry s) then
    Ret (s, Err (protocol_error RunCapacity ("physical live Run resources exhausted at "
               +:+ pretty (live_capacity (registry s)) +:+ " slots")))
  else
  let! selection := select_publication_candidates (busy_select env) new_metadata s in
  match selected selection with
  | Err e => Ret (s, Err e)
  | Ok ids =>
      match index_memory env, removed_memory env with
      | Err e, _ => Ret (s, Err (protocol_error Internal e))
      | _, Err e => Ret (s, Err (protocol_error Internal
                      ("failed to reserve Registry replacement memory: " +:+ e)))
      | Ok _, Ok _ =>
          let! t := expect "Registry publication ticket does not overflow"
                      (checked_add (next_ticket (registry s)) 1) in
          let! s := fence_candidates t ids s in
          let! _ := check "debug assertion failed"
                      (bool_decide (reservations (registry s) !! t = None)) in
          let s := upd_registry (λ g, set_reservations
            (<[t := {| new_run_id := id; reserved_key := key; reserved_request := request;
                       new_metadata_bytes := new_metadata; candidates := ids |}]>
               (reservations g)) t g) s in
          let! '(s, detached) := detach_candidates (busy_detach env) ids s in
          match detached with
          | Err e =>
              let! s := restore_reservation t s in
              Ret (s, Err (protocol_error Internal
                             ("failed to fence retained Run replacement: " +:+ e)))
          | Ok _ =>
              Ret (upd_registry (λ g, set_live_resources (wrapping_add (live_resources g) 1) g) s,
                   Ok {| ticket := Some t; removed := []; permit := true;
                         owner_metadata_bytes := default 0 new_metadata |})
          end
      end
  end.

Definition reserve_memory_publication (env : ReserveEnv) (id : RunId)
    (key : option CreateOperationKey) (bytes : N) :=
  reserve_publication env id key None (Some bytes).
Definition reserve_persistent_publication (env : ReserveEnv) (id : RunId)
    (key : CreateOperationKey) (request : CreationRequest) (bytes : N) :=
  reserve_publication env id (Some key) (Some request) (Some (bytes +sat resident_run_owner_bytes)).

(** Dropping an owner: its ticket is restored, then its permit returns. *)
Definition drop_reservation (x : PublicationReservation) (s : Shared) : outcome Shared :=
  let! s := match ticket x with Some t => restore_reservation t s | None => Ret s end in
  Ret (drop_live_permit (permit x) s).

(** What an unresolved durable publication keeps: its ticket and its permit. *)
Record UnresolvedPublicationReservation := { unresolved_ticket : N; unresolved_permit : bool }.
Definition into_unresolved (x : PublicationReservation)
    : option UnresolvedPublicationReservation :=
  (λ t, {| unresolved_ticket := t; unresolved_permit := permit x |}) <$> ticket x.

Record PersistentCollectionCandidate := {
  candidate_id : RunId;
  candidate_key : CreateOperationKey;
  candidate_metadata : N;
}.
Definition load_counter (p : N) (s : Shared) : outcome N :=
  expect "a live Arc" (counters s !! p).
Fixpoint collect_candidates (ids : list RunId) (s : Shared)
    : outcome (list PersistentCollectionCandidate) :=
  match ids with
  | [] => Ret []
  | id :: ids =>
      let! e := expect "persistent candidate remains Registry-owned" (runs (registry s) !! id) in
      let! key := expect "persistent native Run has an exact creation key" (entry_key e) in
      let! p := expect "persistent candidate has metadata accounting" (metadata_bytes e) in
      let! n := load_counter p s in
      let! cs := collect_candidates ids s in
      Ret ({| candidate_id := id; candidate_key := key; candidate_metadata := n |} :: cs)
  end.
Definition persistent_candidates (x : PublicationReservation) (s : Shared)
    : outcome (list PersistentCollectionCandidate) :=
  let! t := expect "active publication reservation owns one ticket" (ticket x) in
  let! r := expect "active publication ticket remains registered"
              (reservations (registry s) !! t) in
  let! _ := check "debug assertion failed" (bool_decide (is_Some (new_metadata_bytes r))) in
  collect_candidates (candidates r) s.
(** ** Removing entries *)

Definition remove_key {V} `{EqDecision V} (key : string) (v : V) (m : gmap string V)
    : outcome (gmap string V) :=
  let! _ := check "debug assertion failed" (bool_decide (m !! key = Some v)) in
  Ret (delete key m).

Definition remove_registry_entry (id : RunId) (s : Shared) : outcome (Shared * RegistryEntry) :=
  let g := registry s in
  let! e := expect "validated removal candidate remains Registry-owned" (runs g !! id) in
  let g := set_retained_metadata (retained_metadata_bytes g -sat metadata_charge e)
             (set_runs (delete id (runs g)) g) in
  let! creation := match entry_key e with
                   | Some key => remove_key key id (creation_runs g)
                   | None => Ret (creation_runs g)
                   end in
  let! stops := match stop_operation e with
                | Some record => remove_key (stop_key record) id (stop_runs g)
                | None => Ret (stop_runs g)
                end in
  Ret (upd_registry (λ _, set_stop_runs stops (set_creation_runs creation g)) s, e).

(** ** Publication *)

Fixpoint remove_candidates (t : N) (ids : list RunId) (s : Shared)
    : outcome (Shared * list RegistryEntry) :=
  match ids with
  | [] => Ret (s, [])
  | id :: ids =>
      let! '(s, e) := remove_registry_entry id s in
      let! _ := check "debug assertion failed" (bool_decide (residency e = Collecting t)) in
      let! '(s, es) := remove_candidates t ids s in
      Ret (s, e :: es)
  end.

(** The entries it removed and the key the reservation held. *)
Definition consume_reservation (x : PublicationReservation) (id : RunId)
    (key : option CreateOperationKey) (s : Shared)
    : outcome (Shared * list RegistryEntry * option CreateOperationKey) :=
  let! t := expect "publication consumes one active Registry ticket" (ticket x) in
  let! r := expect "publication ticket remains registered" (reservations (registry s) !! t) in
  let s := upd_registry (λ g, set_reservations (delete t (reservations g)) (next_ticket g) g) s in
  let! _ := check "debug assertion failed" (bool_decide (new_run_id r = id)) in
  let! _ := check "debug assertion failed" (bool_decide (reserved_key r = key)) in
  let! _ := check "debug assertion failed" (bool_decide (removed x = [])) in
  let! '(s, es) := remove_candidates t (candidates r) s in
  Ret (s, es, reserved_key r).

(** [*run.live_permit = permit]: the replaced permit drops. *)
Definition assign_live_permit (p : N) (b : bool) (s : Shared) : outcome Shared :=
  let! c := deref p s in
  Ret (drop_live_permit (live_permit (the_run c)) (write_run p (set_live_permit b (the_run c)) s)).

Definition insert_entry (id : RunId) (e : RegistryEntry) (g : RegistryState)
    : outcome RegistryState :=
  let! total := plus_u64 (retained_metadata_bytes g) (metadata_charge e) in
  Ret (set_runs (<[id := e]> (runs g)) (set_retained_metadata total g)).
Definition lift_registry (f : RegistryState → outcome RegistryState) (s : Shared)
    : outcome Shared :=
  let! g := f (registry s) in Ret (upd_registry (λ _, g) s).

(** A new counter object. *)
Definition new_counter (n : N) (s : Shared) : Shared * N :=
  let p := fresh (dom (counters s)) in (set_counters (<[p := n]> (counters s)) s, p).

(** The part of [publish_creation] under the registry's lock, for the Run at [p],
    whose [Arc] moves from the pending owner into the entry.  It returns the replaced
    entries, which drop after the lock.  The overlap reservation is the creation
    owners'; the activation of persistence follows. *)
Definition publish_creation (key : CreateOperationKey) (p : N)
    (x : option PublicationReservation) (s : Shared) : outcome (Shared * list RegistryEntry) :=
  let! c := deref p s in
  let r := the_run c in
  let id := run_id r in
  let g := registry s in
  let! _ := check "debug assertion failed" (bool_decide (creation_runs g !! key = None)) in
  let! _ := check "debug assertion failed" (bool_decide (runs g !! id = None)) in
  let memory_metadata := match x with
                         | Some x => owner_metadata_bytes x
                         | None => registry_metadata_bytes r (Some key)
                         end in
  let! '(s, removed, key_of_entry) :=
    match x with
    | Some x =>
        let! s := assign_live_permit p (permit x) s in
        consume_reservation x id (Some key) s
    | None => Ret (s, [], Some key)
    end in
  let '(s, owner) :=
    match binding_durable (persistence r) with
    | Some d => (s, metadata_owner d)
    | None => new_counter memory_metadata s
    end in
  let! charge :=
    if decide (persistence_mode r = PersistentCapable) then
      let! n := load_counter owner s in
      let! n := plus_u64 n resident_run_owner_bytes in
      plus_u64 n (resident_metadata_bytes r)
    else Ret memory_metadata in
  let e := {| entry_run := p; entry_key := key_of_entry; stop_operation := None;
              metadata_bytes := Some owner; metadata_charge := charge; residency := Retained |} in
  let! s := lift_registry (insert_entry id e) s in
  Ret (upd_registry (λ g, set_creation_runs (<[key := id]> (creation_runs g)) g) s, removed).

Definition publish_unkeyed (p : N) (x : PublicationReservation) (s : Shared)
    : outcome (Shared * list RegistryEntry) :=
  let! c := deref p s in
  let id := run_id (the_run c) in
  let! s := assign_live_permit p (permit x) s in
  let! '(s, removed, key) := consume_reservation x id None s in
  let! _ := check "debug assertion failed" (bool_decide (key = None)) in
  let '(s, owner) := new_counter (owner_metadata_bytes x) s in
  let! _ := check "debug assertion failed" (bool_decide (runs (registry s) !! id = None)) in
  let e := {| entry_run := p; entry_key := None; stop_operation := None;
              metadata_bytes := Some owner; metadata_charge := owner_metadata_bytes x;
              residency := Retained |} in
  let! s := lift_registry (insert_entry id e) s in
  Ret (s, removed).

(** ** Recoverable Stop *)

Record StopFlight := { flight_run : N; flight_cell : N }.
Record StopSettlement := {
  settle_id : RunId; settle_key : StopOperationKey; settle_cell : N; settle_run : N;
}.
Inductive StopAdmission := StopOwner (f : StopFlight) (x : StopSettlement) | StopRetry (f : StopFlight).

Definition stop_operation_conflict (message : string) : ControlFailure :=
  not_applied (protocol_error StopOperationConflict message).
Definition being_collected (id : RunId) : ControlFailure :=
  not_applied (protocol_error BackendUnavailable
    ("Run " +:+ show_run_id id +:+ " is being collected")).

(** A key that is already bound. *)
Definition retry_stop (id bound : RunId) (key : StopOperationKey) (s : Shared)
    : outcome (Shared * result StopAdmission ControlFailure) :=
  if decide (bound ≠ id) then
    Ret (s, Err (stop_operation_conflict
      "native Stop operation key is already bound to another Run"))
  else
  match runs (registry s) !! id with
  | None => Ret (s, Err (not_applied (protocol_error Internal
                  "native Stop key index lost its retained Run")))
  | Some e =>
      if decide (residency e ≠ Retained) then Ret (s, Err (being_collected id)) else
      match stop_operation e with
      | None => Ret (s, Err (not_applied (protocol_error Internal
                      "native Stop key index lost its per-Run operation")))
      | Some record =>
          if decide (stop_key record ≠ key) then
            Ret (s, Err (not_applied (protocol_error Internal
              "native Stop key index disagrees with its per-Run operation")))
          else
            let! s := clone_run (entry_run e) s in
            Ret (s, Ok (StopRetry {| flight_run := entry_run e; flight_cell := stop_cell record |}))
      end
  end.

(** A new key: [index_memory] is the key index's [try_reserve]. *)
Definition admit_stop (index_memory : result unit string) (id : RunId) (key : StopOperationKey)
    (s : Shared) : outcome (Shared * result StopAdmission ControlFailure) :=
  match runs (registry s) !! id with
  | None => Ret (s, Err (not_applied (protocol_error RunNotFound
                  ("Run " +:+ show_run_id id +:+ " does not exist"))))
  | Some e =>
      if decide (residency e ≠ Retained) then Ret (s, Err (being_collected id)) else
      if bool_decide (is_Some (stop_operation e)) then
        Ret (s, Err (stop_operation_conflict
          "Run already belongs to another native Stop operation"))
      else
      match index_memory with
      | Err error => Ret (s, Err (not_applied (protocol_error Internal
                       ("failed to reserve native Stop key ownership: " +:+ error))))
      | Ok _ =>
          match ByteBudget.reserve (stop_receipt_charge key) (control_budget (registry s)) with
          | (_, None) => Ret (s, Err (not_applied (protocol_error ControlBackpressure
              "daemon control_state_bytes cannot fund a Stop receipt before its side effect")))
          | (b, Some memory) =>
              let s := upd_registry (set_control_budget b) s in
              let! c := deref (entry_run e) s in
              match native_control (the_run c) with
              | Err error => Ret (drop_memory (Some memory) s, Err (not_applied error))
              | Ok _ =>
                  let cell := fresh (dom (cells s)) in
                  let s := set_cells (<[cell := None]> (cells s)) s in
                  let record := {| stop_key := key; stop_cell := cell; stop_memory := memory |} in
                  let s := upd_registry (λ g, set_runs (<[id := set_stop (Some record) e]> (runs g)) g) s in
                  let! _ := check "debug assertion failed"
                              (bool_decide (stop_runs (registry s) !! key = None)) in
                  let s := upd_registry (λ g, set_stop_runs (<[key := id]> (stop_runs g)) g) s in
                  let! s := clone_run (entry_run e) s in
                  let! s := clone_run (entry_run e) s in
                  Ret (s, Ok (StopOwner {| flight_run := entry_run e; flight_cell := cell |}
                                {| settle_id := id; settle_key := key; settle_cell := cell;
                                   settle_run := entry_run e |}))
              end
          end
      end
  end.

Definition begin_recoverable_stop (index_memory : result unit string) (id : RunId)
    (key : StopOperationKey) (s : Shared)
    : outcome (Shared * result StopAdmission ControlFailure) :=
  match stop_key_validate key with
  | Err e => Ret (s, Err (not_applied (protocol_error InvalidRequest (stop_key_error_display e))))
  | Ok _ =>
      match stop_runs (registry s) !! key with
      | Some bound => retry_stop id bound key s
      | None => admit_stop index_memory id key s
      end
  end.

(** [StopOperationCell::settle]. *)
Definition settle_cell_with (cell : N) (result : ControlResult) (s : Shared) : outcome Shared :=
  let! previous := expect "a live Arc" (cells s !! cell) in
  let! _ := check "one Stop operation settles once" (bool_decide (previous = None)) in
  Ret (set_cells (<[cell := Some result]> (cells s)) s).

(** Consumes the settlement: its [Arc] of the Run drops. *)
Definition settle_recoverable_stop (x : StopSettlement) (result : ControlResult) (s : Shared)
    : outcome Shared :=
  let g := registry s in
  let! e := expect "in-flight Stop operation pins its retained Run" (runs g !! settle_id x) in
  let! record := expect "in-flight Stop operation keeps its per-Run record" (stop_operation e) in
  let! _ := check "Stop settlement retains its exact key"
              (bool_decide (stop_key record = settle_key x)) in
  let! _ := check "Stop settlement retains its exact result cell"
              (bool_decide (stop_cell record = settle_cell x)) in
  let remove := match result with
                | Err failure => bool_decide (disposition failure = NotApplied)
                | Ok _ => false
                end in
  let! s :=
    if remove then
      let s := drop_memory (Some (stop_memory record)) s in
      let! stops := remove_key (settle_key x) (settle_id x) (stop_runs (registry s)) in
      Ret (upd_registry (λ g, set_stop_runs stops
             (set_runs (<[settle_id x := set_stop None e]> (runs g)) g)) s)
    else Ret s in
  let! s := settle_cell_with (settle_cell x) result s in
  drop_run (settle_run x) s.

(** What a waiter of the flight reads: the retained result, turned into an unknown
    outcome while the Run's terminal is not visible. *)
Definition resolve_flight (id : RunId) (visible : bool) (result : ControlResult) : ControlResult :=
  match result with
  | Ok receipt =>
      if visible then Ok receipt
      else Err (unknown (protocol_error Internal ("Run " +:+ show_run_id id +:+
        " stopped but terminal publication or Native entry retirement is not yet complete")))
  | result => result
  end.
End registry.
