(* ===== verification/RegistryQueries.v ===== *)
(** * RegistryQueries

    The rest of [RunRegistry] ([crates/ctxmux-daemon/src/creation.rs]): pins, explicit
    removal with its durable fence, the paged listing, the snapshots, recovery at
    startup and the Stop ledger carried across an exec-in-place upgrade. *)

From S2P Require Import Prelude.
From S2P Require Import Protocol.
From S2P Require Import Resources.
From S2P Require Import Wire.
From S2P Require Import NativeControl.
From S2P Require Import NativeOwnerTurn.
From S2P Require Import Runs.
From S2P Require Import Registry.

Section queries.
Context `{!UuidDisplay, !RunLayout, !StopLayout}.

(** ** Pins *)

(** The pinned Run's address; its [Arc] is the caller's. *)
Definition pin (id : RunId) (s : Shared) : outcome (Shared * result (option N) ProtocolError) :=
  match runs (registry s) !! id with
  | None => Ret (s, Ok None)
  | Some e =>
      match residency e with
      | Retained => let! s := clone_run (entry_run e) s in Ret (s, Ok (Some (entry_run e)))
      | Collecting _ | Removing => Ret (s, Err (being_replaced (show_run_id id)))
      end
  end.

(** ** Removal *)

Definition validate_removable_entry (busy : N → bool) (id : RunId) (s : Shared)
    : outcome (result RegistryEntry ProtocolError) :=
  let named := "Run " +:+ show_run_id id in
  match runs (registry s) !! id with
  | None => Ret (Err (protocol_error RunNotFound (named +:+ " does not exist")))
  | Some e =>
      if decide (residency e ≠ Retained) then
        Ret (Err (protocol_error BackendUnavailable
                    (named +:+ " is already being replaced or removed"))) else
      let! c := deref (entry_run e) s in
      if is_running (the_run c) then
        Ret (Err (protocol_error InvalidRunState
                    (named +:+ " is still running; stop it before removing"))) else
      if decide (strong c ≠ 1) then
        Ret (Err (protocol_error BackendUnavailable
                    (named +:+ " is attached or in use and cannot be removed"))) else
      match collection_ordinal (busy (entry_run e)) (the_run c) with
      | None => Ret (Err (protocol_error BackendUnavailable
                            (named +:+ " has not reached collectable quiescence")))
      | Some _ => Ret (Ok e)
      end
  end.

(** Detaching the descriptors of a validated entry. *)
Definition detach_entry (busy : N → bool) (e : RegistryEntry) (failure : string → ProtocolError)
    (s : Shared) : outcome (Shared * result unit ProtocolError) :=
  let! c := deref (entry_run e) s in
  match detach_collection_descriptors (busy (entry_run e)) (the_run c) with
  | Err error => Ret (s, Err (failure error))
  | Ok r => Ret (write_run (entry_run e) r s, Ok tt)
  end.

(** [remove_memory]: the removed entry, to drop after the lock. *)
Definition remove_memory (busy busy_detach : N → bool) (id : RunId) (s : Shared)
    : outcome (Shared * result RegistryEntry ProtocolError) :=
  let! v := validate_removable_entry busy id s in
  match v with
  | Err e => Ret (s, Err e)
  | Ok e =>
      let! '(s, detached) := detach_entry busy_detach e (λ error, protocol_error Internal
        ("failed to detach Run " +:+ show_run_id id +:+ " descriptors for removal: " +:+ error)) s in
      match detached with
      | Err e => Ret (s, Err e)
      | Ok _ => let! '(s, e) := remove_registry_entry id s in Ret (s, Ok e)
      end
  end.

(** The candidate of an explicit removal. *)
Definition removal_candidate (id : RunId) (e : RegistryEntry) (s : Shared)
    : outcome (result PersistentCollectionCandidate ProtocolError) :=
  match entry_key e with
  | None => Ret (Err (protocol_error Internal
      ("persistent Run " +:+ show_run_id id +:+ " has no exact creation key to remove")))
  | Some key =>
      match metadata_bytes e with
      | None => Ret (Err (protocol_error Internal
          ("persistent Run " +:+ show_run_id id +:+ " has no durable metadata accounting")))
      | Some p =>
          let! n := load_counter p s in
          Ret (Ok {| candidate_id := id; candidate_key := key; candidate_metadata := n |})
      end
  end.

Definition begin_persistent_removal (busy busy_detach : N → bool) (id : RunId) (s : Shared)
    : outcome (Shared * result PersistentCollectionCandidate ProtocolError) :=
  let! v := validate_removable_entry busy id s in
  match v with
  | Err e => Ret (s, Err e)
  | Ok e =>
      let! candidate := removal_candidate id e s in
      match candidate with
      | Err e => Ret (s, Err e)
      | Ok candidate =>
          let! '(s, detached) := detach_entry busy_detach e (λ error, protocol_error Internal
            ("failed to fence Run " +:+ show_run_id id +:+ " for removal: " +:+ error)) s in
          match detached with
          | Err e => Ret (s, Err e)
          | Ok _ =>
              let s := upd_registry (λ g, set_runs (<[id := set_residency Removing e]> (runs g)) g) s in
              Ret (s, Ok candidate)
          end
      end
  end.

(** [PersistentRemoval::commit]; the removed entry drops after the lock. *)
Definition commit_removal (id : RunId) (s : Shared) : outcome (Shared * RegistryEntry) :=
  let! _ := check "debug assertion failed"
              (bool_decide (residency <$> runs (registry s) !! id = Some Removing)) in
  remove_registry_entry id s.
(** Dropping the fence without a commit. *)
Definition abandon_removal (id : RunId) (s : Shared) : outcome Shared :=
  match runs (registry s) !! id with
  | None => Ret s
  | Some e =>
      let! _ := check "debug assertion failed" (bool_decide (residency e = Removing)) in
      Ret (upd_registry (λ g, set_runs (<[id := set_residency Retained e]> (runs g)) g) s)
  end.

(** [remove_persistent]: the fence, the store's decision, and how the fence ends;
    [None] keeps it for a decision that is still unknown. *)
Inductive RemovalDisposition :=
  | Removed | NotRemoved (error : string) | RemovalUnknown (error : ProtocolError).
Definition conclude_removal (d : RemovalDisposition) (id : RunId) (s : Shared)
    : outcome (Shared * option RegistryEntry * result unit ProtocolError) :=
  match d with
  | Removed => let! '(s, e) := commit_removal id s in Ret (s, Some e, Ok tt)
  | NotRemoved error =>
      let! s := abandon_removal id s in
      Ret (s, None, Err (protocol_error Persistence
                           ("durable Run removal was rejected: " +:+ error)))
  | RemovalUnknown e => Ret (s, None, Err e)
  end.

(** ** Listing *)

(** [select_nth_unstable], as the standard library documents it. *)
Definition selects_nth (select : nat → list N → list N) : Prop :=
  ∀ n l, (n < length l)%nat → select n l ≡ₚ l ∧
    ∃ x, select n l !! n = Some x ∧
      Forall (λ y, y ≤ x) (take n (select n l)) ∧ Forall (λ y, x ≤ y) (drop (S n) (select n l)).

Definition after_cursor (after : option RunId) (id : RunId) : bool :=
  match after with Some cursor => bool_decide (cursor < id) | None => true end.

(** The ids of one page and whether more remain. *)
Definition page_ids (select : nat → list N → list N) (after : option RunId) (limit : nat)
    (keys : list RunId) : list RunId * bool :=
  let ids := filter (λ id, after_cursor after id) keys in
  let lookahead := S limit in
  let ids := if decide (lookahead < length ids)%nat
             then take lookahead (select limit ids) else ids in
  let ids := merge_sort N.le ids in
  (take limit ids, bool_decide (limit < length ids)%nat).

Definition list_summaries_after (select : nat → list N → list N) (after : option RunId)
    (limit : nat) (s : Shared) : list RunSummary * bool :=
  let '(ids, more) := page_ids select after limit (map fst (map_to_list (runs (registry s)))) in
  (omap (λ id, e ← runs (registry s) !! id;
               c ← heap s !! entry_run e; Some (summary (the_run c))) ids, more).

Definition clamp_list_limit (limit : option N) : nat :=
  match limit with
  | None | Some 0 => N.to_nat LIST_MAX_PAGE_RUNS
  | Some n => N.to_nat (N.min (usize_or_max n) LIST_MAX_PAGE_RUNS)
  end.
(** [RunManager::list]. *)
Definition list_page (select : nat → list N → list N) (after : option RunId)
    (limit : option N) (s : Shared) : list RunSummary * option RunId :=
  let '(page, more) := list_summaries_after select after (clamp_list_limit limit) s in
  (page, if (more : bool) then sum_id <$> last page else None).
(** The client's walk: it feeds back each cursor. *)
Fixpoint list_walk (fuel : nat) (select : nat → list N → list N) (after : option RunId)
    (limit : option N) (s : Shared) : option (list RunSummary) :=
  match fuel with
  | O => None
  | S fuel =>
      match list_page select after limit s with
      | (page, None) => Some page
      | (page, Some cursor) => app page <$> list_walk fuel select (Some cursor) limit s
      end
  end.

(** ** Snapshots *)

Definition info_of (id : RunId) (s : Shared) : option RunInfo :=
  e ← runs (registry s) !! id; c ← heap s !! entry_run e; Some (info (the_run c)).

(** The addresses whose Runs pass a test, each cloned for the caller. *)
Definition pin_all (test : RegistryEntry → Run → bool) (s : Shared) : outcome (Shared * list N) :=
  let ps := omap (λ kv, c ← heap s !! entry_run kv.2;
                        if test kv.2 (the_run c) then Some (entry_run kv.2) else None)
                 (map_to_list (runs (registry s))) in
  let! s := foldl (λ s p, let! s := s in clone_run p s) (Ret s) ps in
  Ret (s, ps).
Definition pin_tmux_for_shutdown : Shared → outcome (Shared * list N) :=
  pin_all (λ e r, bool_decide (residency e = Retained) &&
                  match incarnation_control r with Some (TmuxRun _) => true | _ => false end).
Definition pin_native_for_checkpoint : Shared → outcome (Shared * list N) :=
  pin_all (λ e r, bool_decide (residency e = Retained) &&
                  match incarnation_control r with Some (NativeRun _) => true | _ => false end &&
                  is_running r).
Definition snapshot : Shared → outcome (Shared * list N) := pin_all (λ _ _, true).

Definition wait_authority_failure (c : NativeRunControl) : option string :=
  match native_reap c with WaitAuthorityLost _ w => Some w | _ => None end.
Definition native_wait_failures (s : Shared) : list (RunId * string) :=
  omap (λ kv, c ← heap s !! entry_run kv.2;
              match incarnation_control (the_run c) with
              | Some (NativeRun n) => pair kv.1 <$> wait_authority_failure n
              | _ => None
              end) (map_to_list (runs (registry s))).

Definition clamp_live_capacity (funded : N) (s : Shared) : Shared :=
  upd_registry (λ g, set_live_capacity (N.min (live_capacity g) funded) g) s.

(** ** Startup *)

Definition registry_new (retained live : option N) (metadata control : N) : RegistryState :=
  {| runs := ∅; creation_runs := ∅; stop_runs := ∅; reservations := ∅; next_ticket := 0;
     record_capacity := default usize_max retained; live_capacity := default usize_max live;
     live_resources := 0; metadata_capacity := metadata; retained_metadata_bytes := 0;
     control_budget := ByteBudget.new control |}.

(** One recovered Run: its key, its [Arc] and its metadata counter. *)
Definition recover_run (x : CreateOperationKey * N * N) (s : Shared) : outcome Shared :=
  let '(key, p, counter) := x in
  let! c := deref p s in
  let id := run_id (the_run c) in
  let! s :=
    if is_running (the_run c) then
      assign_live_permit p true
        (upd_registry (λ g, set_live_resources (wrapping_add (live_resources g) 1) g) s)
    else Ret s in
  let! n := load_counter counter s in
  let! n := plus_u64 n resident_run_owner_bytes in
  let! charge := plus_u64 n (resident_metadata_bytes (the_run c)) in
  let! _ := check "debug assertion failed" (bool_decide (runs (registry s) !! id = None)) in
  let! _ := check "debug assertion failed"
              (bool_decide (creation_runs (registry s) !! key = None)) in
  let e := {| entry_run := p; entry_key := Some key; stop_operation := None;
              metadata_bytes := Some counter; metadata_charge := charge; residency := Retained |} in
  let! s := lift_registry (insert_entry id e) s in
  Ret (upd_registry (λ g, set_creation_runs (<[key := id]> (creation_runs g)) g) s).
Fixpoint recover_runs (xs : list (CreateOperationKey * N * N)) (s : Shared) : outcome Shared :=
  match xs with
  | [] => Ret s
  | x :: xs => let! s := recover_run x s in recover_runs xs s
  end.

(** ** The Stop ledger of a handoff *)

Inductive HandoffStopOutcome :=
  | StopAccepted (disposition : StopDisposition) | StopUnknown (failure : ControlFailure).
Record HandoffStopOperation := {
  handoff_run : RunId;
  handoff_stop_key : StopOperationKey;
  handoff_outcome : HandoffStopOutcome;
}.
Definition into_result (o : HandoffStopOutcome) : ControlResult :=
  match o with
  | StopAccepted d => Ok (StopReceipt d)
  | StopUnknown failure => Err failure
  end.
Definition validate_stop (o : HandoffStopOperation) : result unit string :=
  let? _ := map_err (λ e, "invalid handoff native Stop key: " +:+ stop_key_error_display e)
              (stop_key_validate (handoff_stop_key o)) in
  match handoff_outcome o with
  | StopUnknown failure =>
      if decide (disposition failure ≠ Unknown)
      then Err "handoff native Stop failure has a non-unknown disposition" else Ok tt
  | StopAccepted _ => Ok tt
  end.
Definition diagnostic_bytes (o : HandoffStopOperation) : N :=
  match handoff_outcome o with
  | StopUnknown failure => slen (message (error failure))
  | StopAccepted _ => 0
  end.
Definition stop_control_memory_bytes (o : HandoffStopOperation) : N :=
  stop_receipt_charge (handoff_stop_key o)
    +sat (diagnostic_bytes o -sat INPUT_RESULT_DIAGNOSTIC_RESERVE_BYTES).

(** One retained operation of the snapshot. *)
Definition handoff_stop_operation (id : RunId) (e : RegistryEntry) (record : StopOperationRecord)
    (s : Shared) : outcome (result HandoffStopOperation string) :=
  let named := "Run " +:+ show_run_id id in
  if decide (residency e ≠ Retained) then
    Ret (Err (named +:+ " native Stop operation is crossing collection at handoff")) else
  let! settled := expect "a live Arc" (cells s !! stop_cell record) in
  Ret (match settled with
       | None => Err (named +:+ " has a pending recoverable Stop at handoff")
       | Some result =>
           let? outcome :=
             match result with
             | Ok (StopReceipt d) => Ok (StopAccepted d)
             | Ok _ => Err (named +:+ " native Stop ledger retained another receipt kind")
             | Err failure =>
                 if decide (disposition failure = Unknown) then Ok (StopUnknown failure)
                 else Err (named +:+ " native Stop ledger retained a not-applied result")
             end in
           let o := {| handoff_run := id; handoff_stop_key := stop_key record;
                       handoff_outcome := outcome |} in
           let? _ := validate_stop o in
           Ok o
       end).
Fixpoint collect_stop_operations (l : list (RunId * RegistryEntry)) (s : Shared)
    : outcome (result (list HandoffStopOperation) string) :=
  match l with
  | [] => Ret (Ok [])
  | (id, e) :: l =>
      match stop_operation e with
      | None => collect_stop_operations l s
      | Some record =>
          let! o := handoff_stop_operation id e record s in
          match o with
          | Err e => Ret (Err e)
          | Ok o => let! os := collect_stop_operations l s in Ret (result_map (cons o) os)
          end
      end
  end.
Definition by_run_name (a b : HandoffStopOperation) : Prop :=
  String.le (show_run_id (handoff_run a)) (show_run_id (handoff_run b)).
#[global] Instance by_run_name_dec a b : Decision (by_run_name a b).
Proof. unfold by_run_name. apply _. Defined.
Definition handoff_stop_operations (s : Shared)
    : outcome (result (list HandoffStopOperation) string) :=
  let! os := collect_stop_operations (map_to_list (runs (registry s))) s in
  Ret (result_map (merge_sort by_run_name) os).

Definition invalid_handoff (m : string) : ProtocolError := protocol_error InvalidRequest m.

(** The validation pass over the adopted ledger. *)
Fixpoint scan_stop_operations (os : list HandoffStopOperation) (run_ids : list RunId)
    (keys : list StopOperationKey) (s : Shared) : result unit ProtocolError :=
  match os with
  | [] => Ok tt
  | o :: os =>
      let? _ := map_err invalid_handoff (validate_stop o) in
      if decide (handoff_run o ∈ run_ids) then
        Err (invalid_handoff "handoff native Stop ledger contains a duplicate Run") else
      if decide (handoff_stop_key o ∈ keys) then
        Err (invalid_handoff "handoff native Stop ledger contains a duplicate key") else
      match runs (registry s) !! handoff_run o with
      | None => Err (invalid_handoff "handoff native Stop ledger names an unknown retained Run")
      | Some e =>
          if bool_decide (is_Some (stop_operation e)) then
            Err (invalid_handoff "handoff native Stop ledger duplicates a restored operation")
          else scan_stop_operations os (handoff_run o :: run_ids) (handoff_stop_key o :: keys) s
      end
  end.
Fixpoint adopt_stop_operations (os : list HandoffStopOperation) (s : Shared)
    : outcome (Shared * result unit ProtocolError) :=
  match os with
  | [] => Ret (s, Ok tt)
  | o :: os =>
      match ByteBudget.reserve (stop_control_memory_bytes o) (control_budget (registry s)) with
      | (_, None) => Ret (s, Err (invalid_handoff
                       "handed-off Stop control state exceeds preserved policy"))
      | (b, Some memory) =>
          let s := upd_registry (set_control_budget b) s in
          let cell := fresh (dom (cells s)) in
          let s := set_cells (<[cell := Some (into_result (handoff_outcome o))]> (cells s)) s in
          let! e := expect "validated handed-off Stop Run remains retained"
                      (runs (registry s) !! handoff_run o) in
          let record := {| stop_key := handoff_stop_key o; stop_cell := cell;
                           stop_memory := memory |} in
          let s := upd_registry (λ g, set_runs
                     (<[handoff_run o := set_stop (Some record) e]> (runs g)) g) s in
          let! _ := check "debug assertion failed"
                      (bool_decide (stop_runs (registry s) !! handoff_stop_key o = None)) in
          let s := upd_registry (λ g, set_stop_runs
                     (<[handoff_stop_key o := handoff_run o]> (stop_runs g)) g) s in
          adopt_stop_operations os s
      end
  end.
Definition restore_handoff_stop_operations (index_memory : result unit string)
    (os : list HandoffStopOperation) (s : Shared) : outcome (Shared * result unit ProtocolError) :=
  match scan_stop_operations os [] [] s with
  | Err e => Ret (s, Err e)
  | Ok _ =>
      match index_memory with
      | Err error => Ret (s, Err (protocol_error Internal
                       ("failed to reserve handed-off native Stop keys: " +:+ error)))
      | Ok _ => adopt_stop_operations os s
      end
  end.
End queries.
