(* ===== verification/RegistrySpec.v ===== *)
(** * RegistrySpec

    The invariants of the registry and their preservation by the elementary changes
    of a section: exact key indexes, fences that match reservations, exact metadata
    accounting, [Arc] counts that match their holders.  The sections themselves are
    followed in [RegistryHeap]. *)

From S2P Require Import Prelude.
From S2P Require Import Protocol.
From S2P Require Import Resources.
From S2P Require Import NativeControl.
From S2P Require Import Runs.
From S2P Require Import Registry.

(** ** Index, fence and name invariants *)

Definition key_index (m : gmap RunId RegistryEntry) (c : gmap CreateOperationKey RunId) : Prop :=
  ∀ k id, c !! k = Some id ↔ ∃ e, m !! id = Some e ∧ entry_key e = Some k.
Definition stop_of (e : RegistryEntry) : option StopOperationKey := stop_key <$> stop_operation e.
Definition stop_index (m : gmap RunId RegistryEntry) (c : gmap StopOperationKey RunId) : Prop :=
  ∀ k id, c !! k = Some id ↔ ∃ e, m !! id = Some e ∧ stop_of e = Some k.

(** A fence and the ticket it belongs to find each other. *)
Definition fences_ok (m : gmap RunId RegistryEntry) (rs : gmap N RegistryReservation) : Prop :=
  (∀ t r, rs !! t = Some r → NoDup (candidates r) ∧
     ∀ id, id ∈ candidates r → ∃ e, m !! id = Some e ∧ residency e = Collecting t) ∧
  (∀ id e t, m !! id = Some e → residency e = Collecting t →
     ∃ r, rs !! t = Some r ∧ id ∈ candidates r).
Definition removals_ok (m : gmap RunId RegistryEntry) (removals : list RunId) : Prop :=
  NoDup removals ∧
  ∀ id, id ∈ removals ↔ ∃ e, m !! id = Some e ∧ residency e = Removing.

(** What a reservation announces is still free, and no other announces it. *)
Definition names_ok (m : gmap RunId RegistryEntry) (c : gmap CreateOperationKey RunId)
    (rs : gmap N RegistryReservation) : Prop :=
  (∀ t r, rs !! t = Some r →
     m !! new_run_id r = None ∧ ∀ k, reserved_key r = Some k → c !! k = None) ∧
  (∀ t t' r r', rs !! t = Some r → rs !! t' = Some r' →
     new_run_id r = new_run_id r' ∨
     (∃ k, reserved_key r = Some k ∧ reserved_key r' = Some k) → t = t').

(** Every entry's Run exists and carries the entry's id. *)
Definition ids_ok (m : gmap RunId RegistryEntry) (h : gmap N RunCell) : Prop :=
  ∀ id e, m !! id = Some e → ∃ c, h !! entry_run e = Some c ∧ run_id (the_run c) = id.
Definition counters_ok (m : gmap RunId RegistryEntry) (h : gmap N RunCell) (cs : gmap N N) : Prop :=
  (∀ id e p, m !! id = Some e → metadata_bytes e = Some p → is_Some (cs !! p)) ∧
  (∀ p c d, h !! p = Some c → binding_durable (persistence (the_run c)) = Some d →
     is_Some (cs !! metadata_owner d)).

(** ** Accounting *)

Definition charges (m : gmap RunId RegistryEntry) : N := msum metadata_charge m.
Definition released (m : gmap RunId RegistryEntry) (ids : list RunId) : N := sumN (charge_of m) ids.
(** What a reservation will add at most. *)
Definition owed (m : gmap RunId RegistryEntry) (r : RegistryReservation) : N :=
  match new_metadata_bytes r with Some n => n - released m (candidates r) | None => 0 end.
Definition projected (m : gmap RunId RegistryEntry) (rs : gmap N RegistryReservation) : N :=
  charges m + msum (owed m) rs.
Definition records (m : gmap RunId RegistryEntry) (rs : gmap N RegistryReservation) : N :=
  N.of_nat (size m) + msum record_burden rs.

Definition b2n (b : bool) : N := if b then 1 else 0.
Definition permits (h : gmap N RunCell) : N := msum (λ c, b2n (live_permit (the_run c))) h.
Definition stop_bytes (e : RegistryEntry) : N :=
  match stop_operation e with Some r => stop_memory r | None => 0 end.

(** ** Arcs *)

(** [f] counts the holders of every Run: the heap agrees with it. *)
Definition one (p q : N) : N := if decide (p = q) then 1 else 0.
Definition counted (h : gmap N RunCell) (f : N → N) : Prop :=
  ∀ p, match h !! p with Some c => strong c = f p ∧ 1 ≤ f p | None => f p = 0 end.

Lemma counted_ext h f g : counted h f → (∀ p, f p = g p) → counted h g.
Proof. intros Hc He p. rewrite <-He. apply Hc. Qed.
Lemma counted_live h f p : counted h f → 1 ≤ f p → ∃ c, h !! p = Some c ∧ strong c = f p.
Proof. intros Hc Hp. specialize (Hc p). destruct (h !! p) as [c|]; [naive_solver|lia]. Qed.
Lemma one_same p : one p p = 1.
Proof. unfold one. by rewrite decide_True. Qed.
Lemma one_le p q : one p q ≤ 1.
Proof. unfold one. case_decide; lia. Qed.

(** ** Elementary changes *)

Lemma with_Some {V} (m : gmap RunId V) id v : m !! id = Some v → is_Some (m !! id).
Proof. eauto. Qed.

Section changes.
Implicit Types (m : gmap RunId RegistryEntry) (e : RegistryEntry).

(** Changing an entry without touching its keys, its Run, its charge or its counter. *)
Definition same_but_residency e e' : Prop :=
  entry_run e' = entry_run e ∧ entry_key e' = entry_key e ∧ stop_operation e' = stop_operation e ∧
  metadata_bytes e' = metadata_bytes e ∧ metadata_charge e' = metadata_charge e.
Lemma set_residency_same x e : same_but_residency e (set_residency x e).
Proof. by unfold same_but_residency. Qed.

Lemma lookup_update m id e e' j :
  m !! id = Some e → (<[id := e']> m) !! j = (λ x, if decide (j = id) then e' else x) <$> m !! j.
Proof.
  intros Hid. destruct (decide (j = id)) as [->|Hne].
  - by rewrite lookup_insert_eq, Hid.
  - rewrite lookup_insert_ne by done. by destruct (m !! j).
Qed.

Lemma exists_update {Q : RegistryEntry → Prop} m id e e' j :
  m !! id = Some e → (Q e ↔ Q e') →
  (∃ x, (<[id := e']> m) !! j = Some x ∧ Q x) ↔ (∃ x, m !! j = Some x ∧ Q x).
Proof.
  intros Hid HQ. destruct (decide (j = id)) as [->|Hne].
  - rewrite lookup_insert_eq, Hid. naive_solver.
  - by rewrite lookup_insert_ne by done.
Qed.

Lemma key_index_update m c id e e' : m !! id = Some e → entry_key e' = entry_key e →
  key_index m c → key_index (<[id := e']> m) c.
Proof.
  intros Hid He H k j. rewrite (H k j). symmetry.
  apply (exists_update (Q := λ x, entry_key x = Some k) m id e e' j Hid). by rewrite He.
Qed.
Lemma stop_index_update m c id e e' : m !! id = Some e → stop_of e' = stop_of e →
  stop_index m c → stop_index (<[id := e']> m) c.
Proof.
  intros Hid He H k j. rewrite (H k j). symmetry.
  apply (exists_update (Q := λ x, stop_of x = Some k) m id e e' j Hid). by rewrite He.
Qed.
Lemma ids_ok_update m h id e e' : m !! id = Some e → entry_run e' = entry_run e →
  ids_ok m h → ids_ok (<[id := e']> m) h.
Proof.
  intros Hid He H j x. destruct (decide (j = id)) as [->|Hne].
  - rewrite lookup_insert_eq. intros [= <-]. rewrite He. by apply H.
  - rewrite lookup_insert_ne by done. apply H.
Qed.
Lemma charges_update m id e e' : m !! id = Some e → metadata_charge e' = metadata_charge e →
  charges (<[id := e']> m) = charges m.
Proof. intros Hid He. unfold charges. pose proof (msum_insert_Some metadata_charge m id e e' Hid). lia. Qed.
Lemma charge_of_update m id e e' j : m !! id = Some e → metadata_charge e' = metadata_charge e →
  charge_of (<[id := e']> m) j = charge_of m j.
Proof.
  intros Hid He. unfold charge_of. destruct (decide (j = id)) as [->|Hne].
  - by rewrite lookup_insert_eq, Hid.
  - by rewrite lookup_insert_ne.
Qed.

(** The key index across an inserted or deleted entry. *)
Lemma key_index_insert m c id e k : m !! id = None → c !! k = None → entry_key e = Some k →
  key_index m c → key_index (<[id := e]> m) (<[k := id]> c).
Proof.
  intros Hid Hk He H k' j. destruct (decide (k' = k)) as [->|Hne].
  - rewrite lookup_insert_eq. split.
    + intros [= <-]. exists e. by rewrite lookup_insert_eq.
    + intros (x & Hx & Hkx). destruct (decide (j = id)) as [->|Hj]; [done|].
      rewrite lookup_insert_ne in Hx by done. assert (c !! k = Some j) by (apply H; eauto). congruence.
  - rewrite lookup_insert_ne by done. rewrite (H k' j). destruct (decide (j = id)) as [->|Hj].
    + rewrite lookup_insert_eq, Hid. split; [naive_solver|]. intros (x & [= <-] & Hkx). congruence.
    + by rewrite lookup_insert_ne.
Qed.
Lemma key_index_insert_unkeyed m c id e : m !! id = None → entry_key e = None →
  key_index m c → key_index (<[id := e]> m) c.
Proof.
  intros Hid He H k j. rewrite (H k j). destruct (decide (j = id)) as [->|Hj].
  - rewrite lookup_insert_eq, Hid. naive_solver congruence.
  - by rewrite lookup_insert_ne.
Qed.
Lemma key_index_delete m c id e : m !! id = Some e → key_index m c →
  key_index (delete id m) (match entry_key e with Some k => delete k c | None => c end).
Proof.
  intros Hid H k j.
  assert (∀ k', entry_key e = Some k' → c !! k' = Some id) as Hk by (intros; apply H; eauto).
  destruct (decide (j = id)) as [->|Hj].
  - rewrite lookup_delete_eq. split; [|naive_solver].
    intros Hc. destruct (entry_key e) as [k'|] eqn:He.
    + destruct (decide (k' = k)) as [->|]; [by rewrite lookup_delete_eq in Hc|].
      rewrite lookup_delete_ne in Hc by done. apply H in Hc as (x & Hx & ?). congruence.
    + apply H in Hc as (x & Hx & ?). congruence.
  - rewrite lookup_delete_ne by done. rewrite <-(H k j). destruct (entry_key e) as [k'|] eqn:He; [|done].
    destruct (decide (k' = k)) as [->|]; [|by rewrite lookup_delete_ne].
    rewrite lookup_delete_eq. split; [done|]. specialize (Hk _ eq_refl). congruence.
Qed.
Lemma stop_index_insert m c id e : m !! id = None → stop_operation e = None →
  stop_index m c → stop_index (<[id := e]> m) c.
Proof.
  intros Hid He H k j. rewrite (H k j). destruct (decide (j = id)) as [->|Hj].
  - rewrite lookup_insert_eq, Hid. unfold stop_of. split; [naive_solver|].
    intros (x & [= <-] & Hx). by rewrite He in Hx.
  - by rewrite lookup_insert_ne.
Qed.
Lemma stop_index_delete m c id e : m !! id = Some e → stop_index m c →
  stop_index (delete id m) (match stop_of e with Some k => delete k c | None => c end).
Proof.
  intros Hid H k j.
  assert (∀ k', stop_of e = Some k' → c !! k' = Some id) as Hk by (intros; apply H; eauto).
  destruct (decide (j = id)) as [->|Hj].
  - rewrite lookup_delete_eq. split; [|naive_solver].
    intros Hc. destruct (stop_of e) as [k'|] eqn:He.
    + destruct (decide (k' = k)) as [->|]; [by rewrite lookup_delete_eq in Hc|].
      rewrite lookup_delete_ne in Hc by done. apply H in Hc as (x & Hx & ?). congruence.
    + apply H in Hc as (x & Hx & ?). congruence.
  - rewrite lookup_delete_ne by done. rewrite <-(H k j). destruct (stop_of e) as [k'|] eqn:He; [|done].
    destruct (decide (k' = k)) as [->|]; [|by rewrite lookup_delete_ne].
    rewrite lookup_delete_eq. split; [done|]. specialize (Hk _ eq_refl). congruence.
Qed.
(** Binding and releasing a Stop key. *)
Lemma stop_index_bind m c id e r k : m !! id = Some e → stop_operation e = None →
  c !! k = None → stop_key r = k → stop_index m c →
  stop_index (<[id := set_stop (Some r) e]> m) (<[k := id]> c).
Proof.
  intros Hid He Hk Hr H k' j. destruct (decide (j = id)) as [->|Hj].
  - rewrite lookup_insert_eq. unfold stop_of. cbn [stop_operation set_stop].
    destruct (decide (k' = k)) as [->|Hne].
    + rewrite lookup_insert_eq. split; [intros _; eexists; split; [done|]; simpl; by rewrite Hr|done].
    + rewrite lookup_insert_ne by done. rewrite (H k' id). unfold stop_of. split.
      * intros (x & Hx & Hs). simplify_eq. by rewrite He in Hs.
      * intros (x & [= <-] & Hs). simpl in Hs. congruence.
  - rewrite (lookup_insert_ne m) by done. destruct (decide (k' = k)) as [->|Hne].
    + rewrite lookup_insert_eq. split; [intros [= ->]; done|].
      intros Hx. apply H in Hx. congruence.
    + rewrite lookup_insert_ne by done. apply H.
Qed.
Lemma stop_index_unbind m c id e r k : m !! id = Some e → stop_operation e = Some r →
  stop_key r = k → stop_index m c → stop_index (<[id := set_stop None e]> m) (delete k c).
Proof.
  intros Hid He Hr H k' j.
  assert (c !! k = Some id) as Hk by (apply H; exists e; unfold stop_of; rewrite He; simpl; by rewrite Hr).
  destruct (decide (j = id)) as [->|Hj].
  - rewrite lookup_insert_eq. split.
    + intros Hc. apply lookup_delete_Some in Hc as [Hne Hc]. apply H in Hc as (x & Hx & Hs).
      simplify_eq. unfold stop_of in Hs. rewrite He in Hs. simpl in Hs. congruence.
    + by intros (x & [= <-] & Hs).
  - rewrite lookup_insert_ne by done. destruct (decide (k' = k)) as [->|Hne].
    + rewrite lookup_delete_eq. split; [done|]. intros Hx. apply H in Hx. congruence.
    + rewrite lookup_delete_ne by done. apply H.
Qed.
End changes.
