(* ===== verification/RegistrySystem.v ===== *)
(** * RegistrySystem

    The registry with everything that holds a part of it: reservation owners, Arcs of
    callers, Stop settlements, removal fences, entries removed but not yet dropped,
    and the other users of the control budget.  A step is one critical section, one
    change of a Run by its own owners, or one drop.  [enabled] is what the callers
    guarantee: the creation stripe's check, fresh Run ids, and owners used once. *)

From S2P Require Import Prelude.
From S2P Require Import Protocol.
From S2P Require Import Resources.
From S2P Require Import NativeControl.
From S2P Require Import Runs.
From S2P Require Import Registry.
From S2P Require Import RegistryQueries.
From S2P Require Import RegistrySpec.

Record Sys := {
  shared : Shared;
  (** Active reservation owners by ticket: whether the publication is unresolved, and
      the metadata it reserved. *)
  owners : gmap N (bool * N);
  garbage : list RegistryEntry;
  pins : list N;
  settlements : list StopSettlement;
  removals : list RunId;
  outside : N;  (** other permits of the control budget *)
}.

Definition g_of (s : Sys) : RegistryState := registry (shared s).

(** The holders of a Run. *)
Definition arcs (m : gmap RunId RegistryEntry) (es : list RegistryEntry) (ps : list N)
    (xs : list StopSettlement) (p : N) : N :=
  msum (λ e, one p (entry_run e)) m + sumN (λ e, one p (entry_run e)) es + sumN (one p) ps
  + sumN (λ x, one p (settle_run x)) xs.
Definition arcs_of (s : Sys) : N → N :=
  arcs (runs (g_of s)) (garbage s) (pins s) (settlements s).

(** ** Invariant *)

Definition owners_ok (rs : gmap N RegistryReservation) (os : gmap N (bool * N)) (last : N) : Prop :=
  (∀ t, is_Some (os !! t) ↔ is_Some (rs !! t)) ∧
  (∀ t r o, rs !! t = Some r → os !! t = Some o →
     new_metadata_bytes r = Some o.2 ∧ t ≤ last) ∧ last ≤ u64_max.
Definition settlements_ok (m : gmap RunId RegistryEntry) (cs : gmap N (option ControlResult))
    (xs : list StopSettlement) : Prop :=
  NoDup (map settle_id xs) ∧ NoDup (map settle_cell xs) ∧
  (∀ x, x ∈ xs → ∃ e r, m !! settle_id x = Some e ∧ residency e = Retained ∧
     entry_run e = settle_run x ∧ stop_operation e = Some r ∧ stop_key r = settle_key x ∧
     stop_cell r = settle_cell x ∧ cs !! settle_cell x = Some None) ∧
  (∀ id e r, m !! id = Some e → stop_operation e = Some r → is_Some (cs !! stop_cell r)).
Definition budget_ok (b : ByteBudget.t) (m : gmap RunId RegistryEntry)
    (es : list RegistryEntry) (others : N) : Prop :=
  ByteBudget.used b = msum stop_bytes m + sumN stop_bytes es + others ∧
  ByteBudget.used b ≤ ByteBudget.limit b ∧ ByteBudget.limit b ≤ u64_max.

(** [B], [R] and [L] bound the projected metadata, the projected records and the
    live resources; they are the capacities unless startup recovered more. *)
Record sys_inv (B R L : N) (s : Sys) : Prop := {
  i_keys : key_index (runs (g_of s)) (creation_runs (g_of s));
  i_stops : stop_index (runs (g_of s)) (stop_runs (g_of s));
  i_fences : fences_ok (runs (g_of s)) (reservations (g_of s));
  i_removals : removals_ok (runs (g_of s)) (removals s);
  i_names : names_ok (runs (g_of s)) (creation_runs (g_of s)) (reservations (g_of s));
  i_owners : owners_ok (reservations (g_of s)) (owners s) (next_ticket (g_of s));
  i_ids : ids_ok (runs (g_of s)) (heap (shared s));
  i_counters : counters_ok (runs (g_of s)) (heap (shared s)) (counters (shared s));
  i_arcs : counted (heap (shared s)) (arcs_of s);
  i_settle : settlements_ok (runs (g_of s)) (cells (shared s)) (settlements s);
  i_budget : budget_ok (control_budget (g_of s)) (runs (g_of s)) (garbage s) (outside s);
  i_metadata : retained_metadata_bytes (g_of s) = charges (runs (g_of s));
  i_projected : projected (runs (g_of s)) (reservations (g_of s)) ≤ B;
  i_records : records (runs (g_of s)) (reservations (g_of s)) ≤ R;
  i_live : live_resources (g_of s) = permits (heap (shared s)) + N.of_nat (size (owners s));
  i_live_le : live_resources (g_of s) ≤ L;
  i_caps : metadata_capacity (g_of s) ≤ B ∧ B ≤ u64_max ∧ record_capacity (g_of s) ≤ R ∧
           R ≤ u64_max ∧ live_capacity (g_of s) ≤ L ∧ L ≤ u64_max;
}.

(** ** Steps *)

Inductive Req :=
  | ReqReserve (env : ReserveEnv) (id : RunId) (key : option CreateOperationKey)
      (request : option CreationRequest) (bytes : N)
  | ReqAbandon (t : N)
  | ReqUnresolve (t : N)
  | ReqLaunch (t p : N) (r : Run)
  | ReqRun (p : N) (r : Run)
  | ReqRelease (p : N) (busy : bool)
  | ReqCounter (p n : N)
  | ReqPublish (t p : N) (key : CreateOperationKey)
  | ReqPublishUnkeyed (t p : N)
  | ReqBeginStop (index_memory : result unit string) (id : RunId) (key : StopOperationKey)
  | ReqSettle (x : StopSettlement) (result : ControlResult)
  | ReqPin (id : RunId)
  | ReqClone (p : N)
  | ReqUnpin (p : N)
  | ReqRemoveMemory (busy busy_detach : N → bool) (id : RunId)
  | ReqBeginRemoval (busy busy_detach : N → bool) (id : RunId)
  | ReqConcludeRemoval (id : RunId) (d : RemovalDisposition)
  | ReqDrop (e : RegistryEntry)
  | ReqFund (n : N)
  | ReqRefund (n : N).

Fixpoint remove_one {A} `{EqDecision A} (x : A) (l : list A) : list A :=
  match l with [] => [] | y :: l => if decide (x = y) then l else y :: remove_one x l end.
#[global] Instance StopOperationRecord_eq_dec : EqDecision StopOperationRecord.
Proof. solve_decision. Defined.
#[global] Instance RegistryEntry_eq_dec : EqDecision RegistryEntry.
Proof. solve_decision. Defined.
#[global] Instance StopSettlement_eq_dec : EqDecision StopSettlement.
Proof. solve_decision. Defined.

Definition with_shared (x : Shared) (s : Sys) : Sys :=
  {| shared := x; owners := owners s; garbage := garbage s; pins := pins s;
     settlements := settlements s; removals := removals s; outside := outside s |}.
Definition with_owners (os : gmap N (bool * N)) (s : Sys) : Sys :=
  {| shared := shared s; owners := os; garbage := garbage s; pins := pins s;
     settlements := settlements s; removals := removals s; outside := outside s |}.
Definition with_garbage (es : list RegistryEntry) (s : Sys) : Sys :=
  {| shared := shared s; owners := owners s; garbage := es; pins := pins s;
     settlements := settlements s; removals := removals s; outside := outside s |}.
Definition with_pins (ps : list N) (s : Sys) : Sys :=
  {| shared := shared s; owners := owners s; garbage := garbage s; pins := ps;
     settlements := settlements s; removals := removals s; outside := outside s |}.
Definition with_settlements (xs : list StopSettlement) (s : Sys) : Sys :=
  {| shared := shared s; owners := owners s; garbage := garbage s; pins := pins s;
     settlements := xs; removals := removals s; outside := outside s |}.
Definition with_removals (ids : list RunId) (s : Sys) : Sys :=
  {| shared := shared s; owners := owners s; garbage := garbage s; pins := pins s;
     settlements := settlements s; removals := ids; outside := outside s |}.
Definition with_outside (n : N) (s : Sys) : Sys :=
  {| shared := shared s; owners := owners s; garbage := garbage s; pins := pins s;
     settlements := settlements s; removals := removals s; outside := n |}.

Section system.
Context `{!UuidDisplay, !RunLayout, !StopLayout}.

(** The owner value of an active ticket. *)
Definition owner_of (t n : N) : PublicationReservation :=
  {| ticket := Some t; removed := []; permit := true; owner_metadata_bytes := n |}.

Definition sys_step (q : Req) (s : Sys) : outcome Sys :=
  match q with
  | ReqReserve env id key request bytes =>
      let! '(x, r) := reserve_publication env id key request (Some bytes) (shared s) in
      let s := with_shared x s in
      Ret (match r with
           | Ok o => match ticket o with
                     | Some t => with_owners (<[t := (false, owner_metadata_bytes o)]> (owners s)) s
                     | None => s
                     end
           | Err _ => s
           end)
  | ReqAbandon t =>
      let! o := expect "an owner" (owners s !! t) in
      let! x := drop_reservation (owner_of t o.2) (shared s) in
      Ret (with_owners (delete t (owners s)) (with_shared x s))
  | ReqUnresolve t =>
      let! o := expect "an owner" (owners s !! t) in
      Ret (with_owners (<[t := (true, o.2)]> (owners s)) s)
  | ReqLaunch t p r =>
      Ret (with_pins (p :: pins s)
             (with_shared (set_heap (<[p := {| the_run := r; strong := 1 |}]> (heap (shared s)))
                             (shared s)) s))
  | ReqRun p r => Ret (with_shared (write_run p r (shared s)) s)
  | ReqRelease p busy =>
      let! c := deref p (shared s) in
      let '(r, freed) := release_closed_resources busy (the_run c) in
      Ret (with_shared (drop_live_permit freed (write_run p r (shared s))) s)
  | ReqCounter p n => Ret (with_shared (set_counters (<[p := n]> (counters (shared s))) (shared s)) s)
  | ReqPublish t p key =>
      let! o := expect "an owner" (owners s !! t) in
      let! '(x, es) := publish_creation key p (Some (owner_of t o.2)) (shared s) in
      Ret (with_pins (remove_one p (pins s)) (with_garbage (es ++ garbage s)
             (with_owners (delete t (owners s)) (with_shared x s))))
  | ReqPublishUnkeyed t p =>
      let! o := expect "an owner" (owners s !! t) in
      let! '(x, es) := publish_unkeyed p (owner_of t o.2) (shared s) in
      Ret (with_pins (remove_one p (pins s)) (with_garbage (es ++ garbage s)
             (with_owners (delete t (owners s)) (with_shared x s))))
  | ReqBeginStop index_memory id key =>
      let! '(x, r) := begin_recoverable_stop index_memory id key (shared s) in
      let s := with_shared x s in
      Ret (match r with
           | Ok (StopOwner f y) =>
               with_pins (flight_run f :: pins s) (with_settlements (y :: settlements s) s)
           | Ok (StopRetry f) => with_pins (flight_run f :: pins s) s
           | Err _ => s
           end)
  | ReqSettle y result =>
      let! x := settle_recoverable_stop y result (shared s) in
      Ret (with_settlements (remove_one y (settlements s)) (with_shared x s))
  | ReqPin id =>
      let! '(x, r) := pin id (shared s) in
      let s := with_shared x s in
      Ret (match r with Ok (Some p) => with_pins (p :: pins s) s | _ => s end)
  | ReqClone p =>
      let! x := clone_run p (shared s) in Ret (with_pins (p :: pins s) (with_shared x s))
  | ReqUnpin p =>
      let! x := drop_run p (shared s) in Ret (with_pins (remove_one p (pins s)) (with_shared x s))
  | ReqRemoveMemory busy busy_detach id =>
      let! '(x, r) := remove_memory busy busy_detach id (shared s) in
      let s := with_shared x s in
      Ret (match r with Ok e => with_garbage (e :: garbage s) s | Err _ => s end)
  | ReqBeginRemoval busy busy_detach id =>
      let! '(x, r) := begin_persistent_removal busy busy_detach id (shared s) in
      let s := with_shared x s in
      Ret (match r with Ok _ => with_removals (id :: removals s) s | Err _ => s end)
  | ReqConcludeRemoval id d =>
      let! '(x, e, _) := conclude_removal d id (shared s) in
      let s := with_garbage (option_list e ++ garbage s) (with_shared x s) in
      Ret (match d with
           | RemovalUnknown _ => s
           | _ => with_removals (remove_one id (removals s)) s
           end)
  | ReqDrop e =>
      let! x := drop_entry e (shared s) in
      Ret (with_garbage (remove_one e (garbage s)) (with_shared x s))
  | ReqFund n =>
      match ByteBudget.reserve n (control_budget (g_of s)) with
      | (b, Some m) => Ret (with_outside (outside s + m)
                              (with_shared (upd_registry (set_control_budget b) (shared s)) s))
      | (_, None) => Ret s
      end
  | ReqRefund n =>
      Ret (with_outside (outside s - n) (with_shared (upd_registry (λ g,
        set_control_budget (ByteBudget.drop_permit n (control_budget g)) g) (shared s)) s))
  end.

(** A Run changed by its own owners keeps its identity and its permit; a durable
    binding comes with its counter. *)
Definition run_moves (cs : gmap N N) (r r' : Run) : Prop :=
  run_id r' = run_id r ∧ live_permit r' = live_permit r ∧
  (∀ d, binding_durable (persistence r') = Some d → is_Some (cs !! metadata_owner d)).

(** What a persistent publication charges is within what it reserved. *)
Definition charge_within (s : Shared) (r : Run) (n : N) : Prop :=
  persistence_mode r = PersistentCapable →
  ∃ d k, binding_durable (persistence r) = Some d ∧ counters s !! metadata_owner d = Some k ∧
    k + resident_run_owner_bytes + resident_metadata_bytes r ≤ n.

Definition enabled (q : Req) (s : Sys) : Prop :=
  match q with
  | ReqReserve _ id key _ bytes =>
      projected (runs (g_of s)) (reservations (g_of s)) + bytes ≤ u64_max ∧
      runs (g_of s) !! id = None ∧
      (∀ t r, reservations (g_of s) !! t = Some r → new_run_id r ≠ id) ∧
      (∀ k, key = Some k → find_reservation k (g_of s) = None ∧
                           creation_runs (g_of s) !! k = None) ∧
      next_ticket (g_of s) < u64_max
  | ReqAbandon t => ∃ n, owners s !! t = Some (false, n)
  | ReqUnresolve t => ∃ n, owners s !! t = Some (false, n)
  | ReqLaunch t p r =>
      heap (shared s) !! p = None ∧ live_permit r = false ∧
      (∃ x, reservations (g_of s) !! t = Some x ∧ run_id r = new_run_id x) ∧
      (∀ d, binding_durable (persistence r) = Some d →
         is_Some (counters (shared s) !! metadata_owner d))
  | ReqRun p r =>
      ∃ c, heap (shared s) !! p = Some c ∧ run_moves (counters (shared s)) (the_run c) r
  | ReqRelease p _ => is_Some (heap (shared s) !! p)
  | ReqCounter _ _ => True
  | ReqPublish t p key =>
      ∃ n x c, owners s !! t = Some (false, n) ∧ reservations (g_of s) !! t = Some x ∧
        reserved_key x = Some key ∧ p ∈ pins s ∧ heap (shared s) !! p = Some c ∧
        run_id (the_run c) = new_run_id x ∧ charge_within (shared s) (the_run c) n
  | ReqPublishUnkeyed t p =>
      ∃ n x c, owners s !! t = Some (false, n) ∧ reservations (g_of s) !! t = Some x ∧
        reserved_key x = None ∧ p ∈ pins s ∧ heap (shared s) !! p = Some c ∧
        run_id (the_run c) = new_run_id x
  | ReqBeginStop _ _ _ | ReqPin _ | ReqRemoveMemory _ _ _ | ReqBeginRemoval _ _ _ => True
  | ReqSettle x _ => x ∈ settlements s
  | ReqClone p | ReqUnpin p => p ∈ pins s
  | ReqConcludeRemoval id _ => id ∈ removals s
  | ReqDrop e => e ∈ garbage s
  | ReqFund _ => True
  | ReqRefund n => n ≤ outside s
  end.
End system.
