(* ===== verification/RegistryHeap.v ===== *)
(** * RegistryHeap

    What the registry's sections compute, in closed form: fencing and restoring
    candidates, removing entries, releasing and detaching the Runs' resources.  And what
    they do to the shared Runs: they keep every Run's identity and durable binding, each
    lost live permit leaves the live count, and the [Arc] counts follow the holders. *)

From S2P Require Import Prelude.
From S2P Require Import Protocol.
From S2P Require Import Resources.
From S2P Require Import NativeControl.
From S2P Require Import NativeOwnerTurn.
From S2P Require Import TmuxControl.
From S2P Require Import Runs.
From S2P Require Import Registry.
From S2P Require Import RegistryQueries.
From S2P Require Import RegistrySpec.

(** ** Sums over maps *)

Lemma msum_fmap {K V W} `{Countable K} (f : W → N) (g : V → W) (m : gmap K V) :
  msum f (g <$> m) = msum (λ v, f (g v)) m.
Proof.
  unfold msum. rewrite map_to_list_fmap.
  induction (map_to_list m) as [|[k v] l IH]; [done|]. cbn [fmap list_fmap prod_map fst snd id].
  rewrite !sumN_cons. by rewrite <-IH.
Qed.
Lemma msum_ext {K V} `{Countable K} (f g : V → N) (m : gmap K V) :
  (∀ k v, m !! k = Some v → f v = g v) → msum f m = msum g m.
Proof.
  intros Hfg. unfold msum. apply sumN_ext. intros [k v] Hkv. apply elem_of_map_to_list in Hkv. eauto.
Qed.
Lemma msum_zero {K V} `{Countable K} (f : V → N) (m : gmap K V) :
  (∀ k v, m !! k = Some v → f v = 0) → msum f m = 0.
Proof.
  intros Hf. rewrite (msum_ext f (λ _, 0)) by done. unfold msum.
  induction (map_to_list m); [done|]. rewrite sumN_cons. lia.
Qed.

Fixpoint delete_all {V} (ids : list N) (m : gmap N V) : gmap N V :=
  match ids with [] => m | id :: ids => delete_all ids (delete id m) end.
Lemma lookup_delete_all {V} ids (m : gmap N V) j :
  delete_all ids m !! j = if decide (j ∈ ids) then None else m !! j.
Proof.
  revert m. induction ids as [|id ids IH]; intros m; [done|]. cbn [delete_all]. rewrite IH.
  destruct (decide (j = id)) as [->|Hne].
  - rewrite lookup_delete_eq. rewrite (decide_True (P := id ∈ id :: ids)) by set_solver. by case_decide.
  - rewrite lookup_delete_ne by done. repeat case_decide; set_solver.
Qed.
Lemma msum_delete_all {V} (f : V → N) ids vs (m : gmap N V) :
  NoDup ids → Forall2 (λ id v, m !! id = Some v) ids vs →
  msum f (delete_all ids m) + sumN f vs = msum f m.
Proof.
  intros Hnd Hvs. revert m Hvs. induction Hnd as [|id ids Hid _ IH] in vs |- *; intros m Hvs;
    inversion Hvs as [|? v ? vs' Hv Hvs']; subst; cbn [delete_all].
  - rewrite sumN_nil. lia.
  - rewrite sumN_cons, (msum_delete f m id v Hv). rewrite <-(IH vs' (delete id m)); [lia|].
    apply Forall2_same_length_lookup. apply Forall2_same_length_lookup in Hvs' as [Hl Hlk].
    split; [done|]. intros i j w Hj Hw. rewrite lookup_delete_ne; [eauto|].
    intros <-. apply Hid. by eapply list_elem_of_lookup_2.
Qed.
Lemma size_delete_all {V} ids (m : gmap N V) vs :
  NoDup ids → Forall2 (λ id v, m !! id = Some v) ids vs →
  N.of_nat (size (delete_all ids m)) + len ids = N.of_nat (size m).
Proof.
  intros Hnd Hvs. pose proof (msum_delete_all (λ _, 1) ids vs m Hnd Hvs) as H.
  rewrite sumN_const_len in H.
  assert (len vs = len ids) as Hl by (unfold len; by rewrite (Forall2_length _ _ _ Hvs)).
  assert (∀ m' : gmap N V, msum (λ _, 1) m' = N.of_nat (size m')) as Hs.
  { intros m'. unfold msum. rewrite sumN_const_len. unfold len. by rewrite length_map_to_list. }
  rewrite !Hs, Hl in H. lia.
Qed.

Lemma sum_u64_ok l : sumN id l ≤ u64_max → sum_u64 l = Ret (sumN id l).
Proof.
  induction l as [|n l IH]; intros Hl; [done|]. rewrite sumN_cons in Hl. unfold id at 1 in Hl.
  cbn [sum_u64]. rewrite IH by lia. cbn [obind]. rewrite plus_u64_ok by lia.
  by rewrite sumN_cons.
Qed.

(** ** Residencies *)

(** Two maps that differ only in residencies. *)
Definition strip : RegistryEntry → RegistryEntry := set_residency Retained.
Definition reseated (m m' : gmap RunId RegistryEntry) : Prop := strip <$> m = strip <$> m'.

Lemma reseated_lookup m m' id e : reseated m m' → m' !! id = Some e →
  ∃ e0, m !! id = Some e0 ∧ strip e0 = strip e.
Proof.
  intros Hr He. assert ((strip <$> m) !! id = Some (strip e)) as H
    by (by rewrite Hr, lookup_fmap, He).
  rewrite lookup_fmap in H. destruct (m !! id) as [e0|]; [|done].
  apply (inj Some) in H. eauto.
Qed.
Lemma reseated_sym m m' : reseated m m' → reseated m' m.
Proof. unfold reseated. done. Qed.
Lemma strip_fields e0 e : strip e0 = strip e → same_but_residency e e0.
Proof. unfold strip, set_residency. intros [=]. by unfold same_but_residency. Qed.
Lemma reseated_exists m m' id (Q : RegistryEntry → Prop) :
  reseated m m' → (∀ e, Q e ↔ Q (strip e)) →
  (∃ e, m !! id = Some e ∧ Q e) ↔ (∃ e, m' !! id = Some e ∧ Q e).
Proof.
  intros Hr HQ. assert (∀ m1 m2, reseated m1 m2 →
    (∃ e, m1 !! id = Some e ∧ Q e) → ∃ e, m2 !! id = Some e ∧ Q e) as Hone.
  { intros m1 m2 H12 (e & He & Hq). apply reseated_sym in H12.
    destruct (reseated_lookup _ _ _ _ H12 He) as (e0 & He0 & Hs). exists e0. split; [done|].
    apply HQ. rewrite Hs. by apply (HQ e). }
  split; apply Hone; [done|by apply reseated_sym].
Qed.
Lemma reseated_msum m m' (f : RegistryEntry → N) : reseated m m' → (∀ e, f (strip e) = f e) →
  msum f m' = msum f m.
Proof.
  intros Hr Hf. rewrite (msum_ext f (λ e, f (strip e)) m), (msum_ext f (λ e, f (strip e)) m') by auto.
  rewrite <-!(msum_fmap f strip). by rewrite Hr.
Qed.
Lemma reseated_size m m' : reseated m m' → size m' = size m.
Proof. intros Hr. rewrite <-(map_size_fmap strip m), <-(map_size_fmap strip m'). by rewrite Hr. Qed.
Lemma reseated_None m m' id : reseated m m' → m !! id = None → m' !! id = None.
Proof.
  intros Hr H. destruct (m' !! id) eqn:He; [|done].
  apply (reseated_lookup _ _ _ _ Hr) in He as (? & ? & _). congruence.
Qed.
Lemma reseated_charge_of m m' id : reseated m m' → charge_of m' id = charge_of m id.
Proof.
  intros Hr. unfold charge_of. destruct (m' !! id) as [e|] eqn:He.
  - destruct (reseated_lookup _ _ _ _ Hr He) as (e0 & -> & Hs).
    apply strip_fields in Hs as (_ & _ & _ & _ & ->). done.
  - by rewrite (reseated_None _ _ _ (reseated_sym _ _ Hr) He).
Qed.

Lemma reseated_key_index m m' c : reseated m m' → key_index m c → key_index m' c.
Proof. intros Hr H k id. rewrite (H k id). by apply reseated_exists. Qed.
Lemma reseated_stop_index m m' c : reseated m m' → stop_index m c → stop_index m' c.
Proof. intros Hr H k id. rewrite (H k id). by apply reseated_exists. Qed.
Lemma reseated_ids m m' h : reseated m m' → ids_ok m h → ids_ok m' h.
Proof.
  intros Hr H id e He. destruct (reseated_lookup _ _ _ _ Hr He) as (e0 & He0 & Hs).
  apply strip_fields in Hs as (<- & _). by apply H.
Qed.
Lemma reseated_counters m m' h cs : reseated m m' → counters_ok m h cs → counters_ok m' h cs.
Proof.
  intros Hr [H1 H2]. split; [|done]. intros id e p He Hp.
  destruct (reseated_lookup _ _ _ _ Hr He) as (e0 & He0 & Hs).
  apply strip_fields in Hs as (_ & _ & _ & Hm & _). eapply H1; [exact He0|congruence].
Qed.
Lemma reseated_owed m m' r : reseated m m' → owed m' r = owed m r.
Proof.
  intros Hr. unfold owed, released. case_match; [|done].
  f_equal. apply sumN_ext. intros. by apply reseated_charge_of.
Qed.
Lemma reseated_projected m m' rs : reseated m m' → projected m' rs = projected m rs.
Proof.
  intros Hr. unfold projected, charges. rewrite (reseated_msum m m') by done.
  f_equal. apply msum_ext. intros. by apply reseated_owed.
Qed.
Lemma reseated_records m m' rs : reseated m m' → records m' rs = records m rs.
Proof. intros Hr. unfold records. by rewrite (reseated_size m m'). Qed.

(** Setting the residency of some entries. *)
Fixpoint with_residency (x : RegistryResidency) (ids : list RunId)
    (m : gmap RunId RegistryEntry) : gmap RunId RegistryEntry :=
  match ids with
  | [] => m
  | id :: ids => with_residency x ids (alter (set_residency x) id m)
  end.
Lemma lookup_with_residency x ids m j :
  with_residency x ids m !! j = (if decide (j ∈ ids) then set_residency x else id) <$> m !! j.
Proof.
  revert m. induction ids as [|i ids IH]; intros m; cbn [with_residency].
  - rewrite decide_False by set_solver. by destruct (m !! j).
  - rewrite IH. destruct (decide (j = i)) as [->|Hne].
    + rewrite lookup_alter_eq, (decide_True (P := i ∈ i :: ids)) by set_solver.
      destruct (m !! i) as [e|]; [|done]. simpl. by case_decide.
    + rewrite lookup_alter_ne by done.
      destruct (decide (j ∈ ids)); [rewrite decide_True by set_solver|rewrite decide_False by set_solver]; done.
Qed.
Lemma with_residency_reseated x ids m : reseated m (with_residency x ids m).
Proof.
  apply map_eq. intros j. rewrite !lookup_fmap, lookup_with_residency.
  destruct (m !! j) as [e|]; [|done]. simpl. by case_decide.
Qed.

Lemma fence_candidates_ok t ids s : NoDup ids →
  (∀ id, id ∈ ids → ∃ e, runs (registry s) !! id = Some e ∧ residency e = Retained) →
  fence_candidates t ids s =
    Ret (upd_registry (λ g, set_runs (with_residency (Collecting t) ids (runs g)) g) s).
Proof.
  intros Hnd. revert s. induction Hnd as [|id ids Hid _ IH]; intros s Hs.
  { cbn [fence_candidates with_residency]. by destruct s as [[]]. }
  cbn [fence_candidates]. destruct (Hs id) as (e & He & Hr); [set_solver|].
  rewrite He. cbn [expect obind]. rewrite Hr, bool_decide_true by done. cbn [check obind].
  rewrite IH.
  - f_equal. unfold upd_registry, set_runs. cbn.
    repeat f_equal. apply map_eq. intros j. destruct (decide (j = id)) as [->|Hne].
    + by rewrite lookup_insert_eq, lookup_alter_eq, He.
    + by rewrite lookup_insert_ne, lookup_alter_ne.
  - intros j Hj. cbn. rewrite lookup_insert_ne by (intros ->; done). apply Hs. set_solver.
Qed.
Lemma unfence_candidates_ok t ids s : NoDup ids →
  (∀ id, id ∈ ids → ∃ e, runs (registry s) !! id = Some e ∧ residency e = Collecting t) →
  unfence_candidates t ids s =
    Ret (upd_registry (λ g, set_runs (with_residency Retained ids (runs g)) g) s).
Proof.
  intros Hnd. revert s. induction Hnd as [|id ids Hid _ IH]; intros s Hs.
  { cbn [unfence_candidates with_residency]. by destruct s as [[]]. }
  cbn [unfence_candidates]. destruct (Hs id) as (e & He & Hr); [set_solver|].
  rewrite He. cbn [expect obind]. rewrite Hr, bool_decide_true by done. cbn [check obind].
  rewrite IH.
  - f_equal. unfold upd_registry, set_runs. cbn.
    repeat f_equal. apply map_eq. intros j. destruct (decide (j = id)) as [->|Hne].
    + by rewrite lookup_insert_eq, lookup_alter_eq, He.
    + by rewrite lookup_insert_ne, lookup_alter_ne.
  - intros j Hj. cbn. rewrite lookup_insert_ne by (intros ->; done). apply Hs. set_solver.
Qed.

(** ** Drifts *)

(** The later heap holds no Run the earlier one did not. *)
Definition heap_le (h h' : gmap N RunCell) : Prop :=
  ∀ p c', h' !! p = Some c' → ∃ c, h !! p = Some c ∧
    run_id (the_run c') = run_id (the_run c) ∧
    binding_durable (persistence (the_run c')) = binding_durable (persistence (the_run c)).
Definition same_arcs (h h' : gmap N RunCell) : Prop :=
  ∀ p, strong <$> h' !! p = strong <$> h !! p.

Record drifts (s s' : Shared) : Prop := {
  dr_registry : registry s' = set_live_resources (live_resources (registry s')) (registry s);
  dr_cells : cells s' = cells s;
  dr_counters : counters s' = counters s;
  dr_heap : heap_le (heap s) (heap s');
  dr_live : live_resources (registry s') + permits (heap s)
            = live_resources (registry s) + permits (heap s');
  dr_le : live_resources (registry s') ≤ live_resources (registry s);
}.
Definition live_ok (s : Shared) : Prop :=
  permits (heap s) ≤ live_resources (registry s) ∧ live_resources (registry s) ≤ u64_max.

Lemma heap_le_refl h : heap_le h h.
Proof. intros p c Hc. eauto. Qed.
Lemma heap_le_trans h1 h2 h3 : heap_le h1 h2 → heap_le h2 h3 → heap_le h1 h3.
Proof.
  intros H12 H23 p c3 Hc3. destruct (H23 _ _ Hc3) as (c2 & Hc2 & Hi2 & Hb2).
  destruct (H12 _ _ Hc2) as (c1 & Hc1 & Hi1 & Hb1). exists c1. split_and!; congruence.
Qed.
Lemma drifts_refl s : drifts s s.
Proof. constructor; try done; [by destruct s as [[]]|apply heap_le_refl]. Qed.
Lemma drifts_trans s1 s2 s3 : drifts s1 s2 → drifts s2 s3 → drifts s1 s3.
Proof.
  intros [R12 C12 K12 H12 L12 E12] [R23 C23 K23 H23 L23 E23]. constructor; try congruence; try lia.
  - rewrite R23, R12 at 1. done.
  - by eapply heap_le_trans.
Qed.
Lemma drifts_live_ok s s' : drifts s s' → live_ok s → live_ok s'.
Proof. intros [] []. split; lia. Qed.
Lemma same_arcs_refl h : same_arcs h h.
Proof. done. Qed.
Lemma same_arcs_trans h1 h2 h3 : same_arcs h1 h2 → same_arcs h2 h3 → same_arcs h1 h3.
Proof. intros H12 H23 p. by rewrite (H23 p), (H12 p). Qed.

Lemma counted_same h h' f : same_arcs h h' → counted h f → counted h' f.
Proof.
  intros Hs Hc p. specialize (Hc p). specialize (Hs p).
  destruct (h !! p), (h' !! p); simpl in *; congruence || naive_solver congruence.
Qed.
Lemma counters_drift m cs h h' : heap_le h h' → counters_ok m h cs → counters_ok m h' cs.
Proof.
  intros Hh [H1 H2]. split; [done|]. intros p c' d Hc' Hd.
  destruct (Hh _ _ Hc') as (c & Hc & _ & Hb). eapply H2; [exact Hc|]. congruence.
Qed.
(** Entries whose Runs are still held keep pointing at them. *)
Lemma ids_drift m h h' f : heap_le h h' → ids_ok m h → counted h' f →
  (∀ id e, m !! id = Some e → 1 ≤ f (entry_run e)) → ids_ok m h'.
Proof.
  intros Hh Hi Hc Hf id e He. destruct (counted_live _ _ _ Hc (Hf _ _ He)) as (c' & Hc' & _).
  exists c'. split; [done|]. destruct (Hh _ _ Hc') as (c & Hc0 & -> & _).
  destruct (Hi _ _ He) as (c0 & Hc0' & <-). congruence.
Qed.
Lemma ids_same m h h' : heap_le h h' → same_arcs h h' → ids_ok m h → ids_ok m h'.
Proof.
  intros Hh Hs Hi id e He. destruct (Hi _ _ He) as (c & Hc & Hid).
  specialize (Hs (entry_run e)). rewrite Hc in Hs. destruct (h' !! entry_run e) as [c'|] eqn:Hc'; [|done].
  destruct (Hh _ _ Hc') as (c0 & Hc0 & Hi0 & _). exists c'. split; [done|]. congruence.
Qed.

(** ** Writing a Run *)

Lemma permits_insert h p c c' : h !! p = Some c →
  permits (<[p := c']> h) + b2n (live_permit (the_run c)) = permits h + b2n (live_permit (the_run c')).
Proof. exact (msum_insert_Some (λ c, b2n (live_permit (the_run c))) h p c c'). Qed.
Lemma permits_write h p c r : h !! p = Some c →
  permits (<[p := {| the_run := r; strong := strong c |}]> h) + b2n (live_permit (the_run c))
  = permits h + b2n (live_permit r).
Proof. intros Hc. by rewrite (permits_insert _ _ _ _ Hc). Qed.
Lemma write_same_arcs p r s : same_arcs (heap s) (heap (write_run p r s)).
Proof.
  intros q. unfold write_run. destruct (heap s !! p) as [c|] eqn:Hc; [|done]. cbn.
  destruct (decide (q = p)) as [->|]; [by rewrite lookup_insert_eq, Hc|by rewrite lookup_insert_ne].
Qed.
Lemma write_eq p r s c : heap s !! p = Some c →
  write_run p r s = set_heap (<[p := {| the_run := r; strong := strong c |}]> (heap s)) s.
Proof. intros Hc. unfold write_run. by rewrite Hc. Qed.

Definition same_run (r r' : Run) : Prop :=
  run_id r' = run_id r ∧ binding_durable (persistence r') = binding_durable (persistence r).
Lemma write_heap_le p r s c : heap s !! p = Some c → same_run (the_run c) r →
  heap_le (heap s) (heap (write_run p r s)).
Proof.
  intros Hc [Hi Hb] q c' Hc'. rewrite (write_eq _ _ _ _ Hc) in Hc'. cbn in Hc'.
  destruct (decide (q = p)) as [->|].
  - rewrite lookup_insert_eq in Hc'. simplify_eq. eauto.
  - rewrite lookup_insert_ne in Hc' by done. eauto.
Qed.
Lemma write_drifts p r s c : heap s !! p = Some c → same_run (the_run c) r →
  live_permit r = live_permit (the_run c) → drifts s (write_run p r s).
Proof.
  intros Hc Hr Hl. pose proof (write_heap_le p r s c Hc Hr) as Hle.
  rewrite (write_eq _ _ _ _ Hc) in *. constructor; cbn; try done; [by destruct s as [[]]|].
  pose proof (permits_write _ _ _ r Hc) as Hp. rewrite Hl in Hp. lia.
Qed.

(** A Run written back after it lost its permit. *)
Lemma write_freed_drifts p r s c freed : heap s !! p = Some c → live_ok s →
  same_run (the_run c) r → (freed = true → live_permit (the_run c) = true) →
  live_permit r = live_permit (the_run c) && negb freed →
  drifts s (drop_live_permit freed (write_run p r s)) ∧
  same_arcs (heap s) (heap (drop_live_permit freed (write_run p r s))).
Proof.
  intros Hc [Hle Hmax] Hr Hf Hl. destruct freed; simpl.
  2:{ split; [|apply write_same_arcs]. eapply write_drifts; eauto. by rewrite Hl, andb_true_r. }
  split; [|intros q; apply (write_same_arcs p r s)].
  pose proof (write_heap_le p r s c Hc Hr) as Hheap. pose proof (permits_write _ _ _ r Hc) as Hp.
  rewrite Hl, (Hf eq_refl) in Hp. cbn in Hp.
  rewrite (write_eq _ _ _ _ Hc) in *. cbn in *.
  constructor; cbn; try done; rewrite wrapping_sub_ok by lia; try lia; try done.
Qed.

Lemma release_same_run `{!UuidDisplay} busy r : same_run r (release_closed_resources busy r).1.
Proof.
  unfold same_run, release_closed_resources. destruct (is_running r); [done|].
  by destruct (incarnation_control r) as [[c|c]|]; [destruct (native_quiescence _ _ _)|destruct (is_ok _)|].
Qed.
Lemma detach_same_run `{!UuidDisplay} busy r r' : detach_collection_descriptors busy r = Ok r' →
  same_run r r' ∧ live_permit r' = live_permit r.
Proof.
  unfold same_run, detach_collection_descriptors.
  destruct (incarnation_control r) as [[c|c]|].
  - destruct (native_quiescence _ _ _); [|done]. cbn [result_bind]. by intros [= <-].
  - destruct (tmux_quiescence c).2; [|done]. cbn [result_bind]. by intros [= <-].
  - case_decide; [|done]. by intros [= <-].
Qed.

Section heap.
Context `{!UuidDisplay, !RunLayout, !StopLayout}.

Lemma release_one_ok busy p s c : heap s !! p = Some c → live_ok s →
  let '(r, freed) := release_closed_resources busy (the_run c) in
  drifts s (drop_live_permit freed (write_run p r s)) ∧
  same_arcs (heap s) (heap (drop_live_permit freed (write_run p r s))).
Proof.
  intros Hc Hl. pose proof (release_same_run busy (the_run c)) as Hr.
  destruct (release_keeps busy (the_run c)) as (_ & Hf & Hp).
  destruct (release_closed_resources busy (the_run c)) as [r freed]. cbn [fst snd] in *.
  by eapply write_freed_drifts.
Qed.
Lemma release_all_ok busy l s :
  (∀ id e, (id, e) ∈ l → is_Some (heap s !! entry_run e)) → live_ok s →
  ∃ s', release_all busy l s = Ret s' ∧ drifts s s' ∧ same_arcs (heap s) (heap s').
Proof.
  revert s. induction l as [|[id e] l IH]; intros s Hl Hok.
  { exists s. split; [done|]. split; [apply drifts_refl|done]. }
  destruct (Hl id e) as [c Hc]; [set_solver|]. cbn [release_all]. unfold deref. rewrite Hc.
  cbn [expect obind]. pose proof (release_one_ok (busy (entry_run e)) _ s c Hc Hok) as Hone.
  destruct (release_closed_resources _ _) as [r freed]. destruct Hone as [Hd Ha].
  destruct (IH (drop_live_permit freed (write_run (entry_run e) r s))) as (s' & -> & Hd' & Ha').
  - intros j x Hx. specialize (Ha (entry_run x)). destruct (Hl j x) as [cx Hcx]; [set_solver|].
    rewrite Hcx in Ha. by destruct (heap _ !! entry_run x).
  - by eapply drifts_live_ok.
  - exists s'. split; [done|]. split; [by eapply drifts_trans|by eapply same_arcs_trans].
Qed.

Lemma detach_candidates_ok busy ids s : ids_ok (runs (registry s)) (heap s) →
  ∃ s' r, detach_candidates busy ids s = Ret (s', r) ∧ drifts s s' ∧
          registry s' = registry s ∧ same_arcs (heap s) (heap s').
Proof.
  revert s. induction ids as [|id ids IH]; intros s Hi.
  { exists s, (Ok tt). split_and!; [done|apply drifts_refl|done|done]. }
  cbn [detach_candidates]. destruct (runs (registry s) !! id) as [e|] eqn:He; [|by apply IH].
  destruct (Hi _ _ He) as (c & Hc & _). unfold deref. rewrite Hc. cbn [expect obind].
  destruct (detach_collection_descriptors _ _) as [r|x] eqn:Hd.
  2:{ exists s, (Err x). split_and!; [done|apply drifts_refl|done|done]. }
  apply detach_same_run in Hd as [Hr Hl].
  pose proof (write_drifts _ _ _ _ Hc Hr Hl) as Hd. pose proof (write_same_arcs (entry_run e) r s) as Ha.
  assert (registry (write_run (entry_run e) r s) = registry s) as Hg by by rewrite (write_eq _ _ _ _ Hc).
  destruct (IH (write_run (entry_run e) r s)) as (s' & x & -> & Hd' & Hg' & Ha').
  { rewrite Hg. eapply ids_same; [apply Hd|done|done]. }
  exists s', x. split_and!; [done|by eapply drifts_trans|congruence|by eapply same_arcs_trans].
Qed.
Lemma detach_entry_ok busy e failure s c : heap s !! entry_run e = Some c →
  ∃ s' r, detach_entry busy e failure s = Ret (s', r) ∧ drifts s s' ∧
          registry s' = registry s ∧ same_arcs (heap s) (heap s').
Proof.
  intros Hc. unfold detach_entry, deref. rewrite Hc. cbn [expect obind].
  destruct (detach_collection_descriptors _ _) as [r|x] eqn:Hd.
  2:{ eexists _, _. split_and!; [done|apply drifts_refl|done|done]. }
  apply detach_same_run in Hd as [Hr Hl]. eexists _, _. split; [done|].
  split; [by eapply write_drifts|]. split; [by rewrite (write_eq _ _ _ _ Hc)|apply write_same_arcs].
Qed.
End heap.

(** ** Arcs *)

Lemma clone_ok p s f : counted (heap s) f → 1 ≤ f p →
  ∃ s', clone_run p s = Ret s' ∧ drifts s s' ∧ registry s' = registry s ∧
        counted (heap s') (λ q, f q + one q p).
Proof.
  intros Hf Hp. destruct (counted_live _ _ _ Hf Hp) as (c & Hc & Hs).
  unfold clone_run, deref. rewrite Hc. cbn [expect obind]. eexists. split; [done|].
  assert (∀ c', the_run c' = the_run c → permits (<[p := c']> (heap s)) = permits (heap s)) as Hpm.
  { intros c' H'. pose proof (permits_insert _ p c c' Hc) as Hm. rewrite H' in Hm. lia. }
  split_and!.
  - constructor; cbn; try done; [by destruct s as [[]]| |by rewrite Hpm].
    intros q c' Hc'. destruct (decide (q = p)) as [->|].
    + rewrite lookup_insert_eq in Hc'. simplify_eq. cbn. eauto.
    + rewrite lookup_insert_ne in Hc' by done. eauto.
  - by destruct s as [[]].
  - intros q. cbn. specialize (Hf q). destruct (decide (q = p)) as [->|Hne].
    + rewrite lookup_insert_eq, one_same. cbn. rewrite Hc in Hf. lia.
    + rewrite lookup_insert_ne by done. unfold one. rewrite decide_False by done.
      destruct (heap s !! q); lia.
Qed.

Lemma drop_live_permit_heap b s : heap (drop_live_permit b s) = heap s.
Proof. by destruct b. Qed.
Lemma drop_run_ok p s f f' : counted (heap s) f → live_ok s → (∀ q, f q = f' q + one q p) →
  ∃ s', drop_run p s = Ret s' ∧ drifts s s' ∧ counted (heap s') f'.
Proof.
  intros Hf [Hle Hmax] Hff. assert (1 ≤ f p) as Hp by (rewrite Hff, one_same; lia).
  destruct (counted_live _ _ _ Hf Hp) as (c & Hc & Hs).
  assert (∀ h', (∀ q, q ≠ p → h' !! q = heap s !! q) →
    match h' !! p with Some c' => strong c' = f' p ∧ 1 ≤ f' p | None => f' p = 0 end →
    counted h' f') as Hcount.
  { intros h' Hq Hhp q. destruct (decide (q = p)) as [->|Hne]; [done|]. rewrite Hq by done.
    specialize (Hf q). rewrite Hff in Hf. unfold one in Hf. rewrite decide_False in Hf by done.
    by rewrite N.add_0_r in Hf. }
  rewrite Hff, one_same in Hs, Hp.
  unfold drop_run, deref. rewrite Hc. cbn [expect obind]. case_decide as Hone.
  - eexists. split; [done|]. split.
    2:{ rewrite drop_live_permit_heap. cbn. apply Hcount; [intros; by rewrite lookup_delete_ne|].
        rewrite lookup_delete_eq. lia. }
    pose proof (msum_delete (λ c, b2n (live_permit (the_run c))) _ _ _ Hc) as Hperm.
    fold (permits (heap s)) in Hperm. fold (permits (delete p (heap s))) in Hperm.
    assert (heap_le (heap s) (delete p (heap s))) as Hheap.
    { intros q c' Hc'. apply lookup_delete_Some in Hc' as [_ Hc']. eauto. }
    cbn beta in Hperm. destruct (live_permit (the_run c)); cbn [b2n] in Hperm;
      constructor; cbn; try done; rewrite ?wrapping_sub_ok by lia; try lia; by destruct s as [[]].
  - eexists. split; [done|]. split.
    + constructor; cbn; try done; [by destruct s as [[]]| |].
      * intros q c' Hc'. destruct (decide (q = p)) as [->|].
        -- rewrite lookup_insert_eq in Hc'. simplify_eq. cbn. eauto.
        -- rewrite lookup_insert_ne in Hc' by done. eauto.
      * pose proof (permits_insert _ p c
          {| the_run := the_run c; strong := strong c - 1 |} Hc) as Hm. cbn in Hm. lia.
    + cbn. apply Hcount; [intros; by rewrite lookup_insert_ne|]. rewrite lookup_insert_eq. cbn. lia.
Qed.
