(* ===== verification/RegistryRemoval.v ===== *)
(** * RegistryRemoval

    The candidates that fund a publication: projected metadata without overflow, and
    [select_publication_candidates] as the shortest sufficient prefix of the
    collectable Runs, oldest terminal first; the publication fast path, which skips
    the scan and the sort, is the same choice.  And removing entries: the key indexes and
    the metadata total follow exactly, the removed entries are returned to drop outside
    the lock, and nothing else of the registry changes. *)

From S2P Require Import Prelude.
From S2P Require Import Protocol.
From S2P Require Import Resources.
From S2P Require Import Wire.
From S2P Require Import NativeControl.
From S2P Require Import Runs.
From S2P Require Import Registry.
From S2P Require Import RegistrySpec.
From S2P Require Import RegistryHeap.

Lemma sumN_map {A B} (f : B → N) (g : A → B) l : sumN f (map g l) = sumN (λ x, f (g x)) l.
Proof. induction l as [|x l IH]; [done|]. cbn [map]. by rewrite !sumN_cons, IH. Qed.

(** ** Released and projected metadata *)

Lemma charge_of_delete m i j : i ≠ j → charge_of (delete i m) j = charge_of m j.
Proof. intros Hne. unfold charge_of. by rewrite lookup_delete_ne. Qed.
Lemma released_delete m i ids : i ∉ ids → released (delete i m) ids = released m ids.
Proof. intros Hi. apply sumN_ext. intros j Hj. apply charge_of_delete. by intros ->. Qed.
Lemma released_le m ids : NoDup ids → released m ids ≤ charges m.
Proof.
  intros Hnd. revert m. induction Hnd as [|id ids Hid _ IH]; intros m; [unfold released; rewrite sumN_nil; lia|].
  unfold released. rewrite sumN_cons. fold (released m ids). destruct (m !! id) as [e|] eqn:He.
  - unfold charges. rewrite (msum_delete metadata_charge m id e He).
    fold (charges (delete id m)). specialize (IH (delete id m)).
    rewrite released_delete in IH by done. unfold charge_of. rewrite He. lia.
  - unfold charge_of. rewrite He. specialize (IH m). lia.
Qed.
Lemma released_omap m ids : sumN id (map metadata_charge (omap (λ i, m !! i) ids)) = released m ids.
Proof.
  unfold released. induction ids as [|i ids IH]; [done|]. rewrite sumN_cons, <-IH.
  unfold charge_of. cbn. destruct (m !! i); [|done]. cbn. by rewrite sumN_cons.
Qed.

Lemma collect_metadata_ok m xs : charges m ≤ u64_max → (∀ x, x ∈ xs → NoDup (candidates x)) →
  ∃ ns, collect_metadata m xs = Ret ns ∧ sumN id ns = sumN (owed m) xs.
Proof.
  intros Hm. induction xs as [|x xs IH]; intros Hx; [by exists []|].
  destruct IH as (ns & Hns & Hsum); [set_solver|]. cbn [collect_metadata].
  unfold reserved_metadata. rewrite sumN_cons. unfold owed at 1.
  destruct (new_metadata_bytes x) as [n|]; cbn [obind].
  - assert (NoDup (candidates x)) as Hnd by (apply Hx; set_solver). pose proof (released_le m _ Hnd).
    rewrite sum_u64_ok by (rewrite released_omap; lia). cbn [obind]. rewrite Hns. cbn [obind].
    eexists. split; [done|]. cbn. by rewrite sumN_cons, released_omap, Hsum.
  - rewrite Hns. cbn [obind]. eexists. split; [done|]. by rewrite N.add_0_l.
Qed.
Lemma projected_metadata_ok g : retained_metadata_bytes g = charges (runs g) →
  (∀ t r, reservations g !! t = Some r → NoDup (candidates r)) →
  projected (runs g) (reservations g) ≤ u64_max →
  projected_metadata_bytes g = Ret (projected (runs g) (reservations g)).
Proof.
  intros Hr Hc Hp. unfold projected in *. unfold projected_metadata_bytes.
  destruct (collect_metadata_ok (runs g) (map snd (map_to_list (reservations g)))) as (ns & -> & Hns).
  - lia.
  - intros x Hx. apply list_elem_of_fmap in Hx as ([t r] & -> & Hx).
    apply elem_of_map_to_list in Hx. by eapply Hc.
  - assert (sumN id ns = msum (owed (runs g)) (reservations g)) as Hs.
    { by rewrite Hns, sumN_map. }
    cbn [obind]. rewrite sum_u64_ok by lia. cbn [obind]. rewrite Hr, Hs.
    unfold saturating_add. by rewrite N.min_l.
Qed.
Lemma records_ok g : records (runs g) (reservations g) ≤ u64_max →
  projected_records g = Ret (records (runs g) (reservations g)).
Proof.
  intros Hle. unfold projected_records, records in *.
  assert (sumN id (map (λ kv, record_burden kv.2) (map_to_list (reservations g)))
          = msum record_burden (reservations g)) as Hs by (unfold msum; by rewrite <-sumN_map_id).
  rewrite sum_u64_ok by (rewrite Hs; lia). cbn [obind]. rewrite Hs.
  unfold checked_add. by rewrite decide_True.
Qed.

(** ** The scan *)

Section selection.
Context `{!UuidDisplay, !RunLayout, !StopLayout}.

(** What the scan makes of one entry. *)
Definition candidate_of (busy : N → bool) (funding : bool) (h : gmap N RunCell)
    (kv : RunId * RegistryEntry) : option Candidate :=
  c ← h !! entry_run kv.2;
  if decide (residency kv.2 = Retained ∧ strong c = 1
             ∧ (funding = true → metadata_bytes kv.2 ≠ None))
  then (λ ordinal, (ordinal, show_run_id kv.1, kv.1))
         <$> collection_ordinal (busy (entry_run kv.2)) (the_run c)
  else None.

Lemma eligible_ok busy funding s id e : is_Some (heap s !! entry_run e) →
  eligible busy funding s id e = Ret (candidate_of busy funding (heap s) (id, e)).
Proof.
  intros [c Hc]. unfold eligible, candidate_of, deref. cbn [fst snd]. rewrite Hc. cbn [expect obind mbind option_bind].
  case_decide as Hd.
  - destruct Hd as (Hr & Hs & Hf). rewrite !bool_decide_true by done.
    destruct funding; [|done]. by rewrite bool_decide_false by auto.
  - destruct (bool_decide_reflect (residency e = Retained)); [|done].
    destruct (bool_decide_reflect (strong c = 1)); [|done]. simpl.
    destruct funding; [|by destruct Hd]. simpl. rewrite bool_decide_true; [done|].
    destruct (metadata_bytes e); [|done]. by destruct Hd.
Qed.
Lemma eligible_all_ok busy funding s l :
  (∀ id e, (id, e) ∈ l → is_Some (heap s !! entry_run e)) →
  eligible_all busy funding s l = Ret (omap (candidate_of busy funding (heap s)) l).
Proof.
  induction l as [|[id e] l IH]; intros Hl; [done|]. cbn [eligible_all].
  rewrite eligible_ok by (apply (Hl id); set_solver). cbn [obind].
  rewrite IH by (intros i x ?; apply (Hl i); set_solver). cbn [obind omap list_omap].
  by destruct (candidate_of _ _ _ (id, e)).
Qed.

(** The candidates in the order they are taken. *)
Definition oldest_first (busy : N → bool) (funding : bool) (s : Shared) : list RunId :=
  map snd (merge_sort candidate_le
    (omap (candidate_of busy funding (heap s)) (map_to_list (runs (registry s))))).

Lemma oldest_first_elem busy funding s id : id ∈ oldest_first busy funding s →
  ∃ e c, runs (registry s) !! id = Some e ∧ heap s !! entry_run e = Some c ∧
         residency e = Retained ∧ strong c = 1 ∧ (funding = true → metadata_bytes e ≠ None) ∧
         is_Some (collection_ordinal (busy (entry_run e)) (the_run c)).
Proof.
  unfold oldest_first. intros Hid. apply list_elem_of_fmap in Hid as (x & -> & Hx).
  rewrite merge_sort_Permutation in Hx. apply list_elem_of_omap in Hx as ([i e] & Hi & He).
  apply elem_of_map_to_list in Hi. unfold candidate_of in He. cbn [fst snd] in He.
  destruct (heap s !! entry_run e) as [c|] eqn:Hc; [|done]. cbn in He.
  case_decide as Hd; [|done]. destruct Hd as (? & ? & ?).
  destruct (collection_ordinal _ _) eqn:Ho; [|done]. injection He as <-. cbn.
  exists e, c. split_and!; eauto.
Qed.
Lemma oldest_first_NoDup busy funding s : NoDup (oldest_first busy funding s).
Proof.
  unfold oldest_first. rewrite merge_sort_Permutation.
  assert (map snd (omap (candidate_of busy funding (heap s)) (map_to_list (runs (registry s))))
    `sublist_of` map fst (map_to_list (runs (registry s)))) as Hs.
  { induction (map_to_list (runs (registry s))) as [|[i e] l IH]; [done|].
    cbn [omap list_omap map fst]. destruct (candidate_of _ _ _ (i, e)) as [[[o n] j]|] eqn:Hc; [|by constructor].
    cbn [map snd]. unfold candidate_of in Hc. cbn [fst snd] in Hc. destruct (heap s !! _); [|done]. cbn in Hc.
    case_decide; [|done]. destruct (collection_ordinal _ _); [|done]. injection Hc as <- <- <-. by constructor. }
  exact (sublist_NoDup _ _ (NoDup_fst_map_to_list (runs (registry s))) Hs).
Qed.

(** ** The shortest sufficient prefix *)

Fixpoint prefixes {A} (taken l : list A) : list (list A) :=
  taken :: match l with [] => [] | x :: l => prefixes (taken ++ [x]) l end.
Definition enough (m : gmap RunId RegistryEntry) (needs_record : bool) (to_fund : N)
    (ids : list RunId) : Prop :=
  (needs_record = true → ids ≠ []) ∧ to_fund ≤ released m ids.
#[global] Instance enough_dec m n f ids : Decision (enough m n f ids).
Proof. unfold enough. apply _. Defined.
Definition shortest (m : gmap RunId RegistryEntry) (needs_record : bool) (to_fund : N)
    (taken l : list RunId) : option (list RunId) :=
  head (filter (enough m needs_record to_fund) (prefixes taken l)).

Lemma shortest_enough m n f taken l ids : shortest m n f taken l = Some ids →
  enough m n f ids ∧ ∃ k, ids = taken ++ take k l.
Proof.
  unfold shortest. revert taken. induction l as [|x l IH]; intros taken; cbn [prefixes];
    rewrite filter_cons; case_decide as Hd; cbn [head].
  - intros [= <-]. split; [done|]. exists 0%nat. by rewrite app_nil_r.
  - done.
  - intros [= <-]. split; [done|]. exists 0%nat. by rewrite app_nil_r.
  - intros Hx. destruct (IH _ Hx) as [He [k ->]]. split; [done|]. exists (S k). cbn [take].
    by rewrite <-app_assoc.
Qed.
Lemma shortest_fast m f l : f = 0 → shortest m false f [] l = Some [].
Proof.
  intros ->. unfold shortest. destruct l; cbn [prefixes]; rewrite filter_cons, decide_True; try done;
    split; try done; unfold released; rewrite sumN_nil; lia.
Qed.
(** No proper prefix suffices. *)
Lemma shortest_minimal m n f l ids k : shortest m n f [] l = Some ids →
  (k < length ids)%nat → ¬ enough m n f (take k ids).
Proof.
  assert (∀ taken, shortest m n f taken l = Some ids → (length taken ≤ k)%nat → (k < length ids)%nat →
    ¬ enough m n f (take k ids)) as Hgen.
  { unfold shortest. induction l as [|x l IH]; intros taken; cbn [prefixes]; rewrite filter_cons;
      case_decide as Hd; cbn [head]; try done; try (intros [= <-]; lia).
    intros Hx Hk Hlt. destruct (decide (k = length taken)) as [->|].
    - destruct (shortest_enough m n f _ l ids Hx) as [_ [j ->]].
      by rewrite <-app_assoc, take_app_length.
    - eapply IH; eauto. rewrite length_app. cbn. lia. }
  intros Hs Hk. by apply (Hgen [] Hs); [simpl; lia|].
Qed.

Lemma released_app m l l' : released m (l ++ l') = released m l + released m l'.
Proof. apply sumN_app. Qed.
Lemma take_candidates_ok m n f ordered taken : NoDup (taken ++ map snd ordered) →
  charges m ≤ u64_max →
  take_candidates m n f ordered taken (released m taken) =
    (let ids := default (taken ++ map snd ordered) (shortest m n f taken (map snd ordered)) in
     (ids, released m ids)).
Proof.
  intros Hnd Hm. revert taken Hnd. induction ordered as [|[x id] ordered IH]; intros taken Hnd;
    cbn [take_candidates map snd].
  - unfold shortest. cbn [prefixes]. rewrite filter_cons, app_nil_r. by case_decide.
  - unfold shortest. cbn [prefixes]. rewrite filter_cons.
    assert ((negb n || negb (bool_decide (taken = []))) && bool_decide (f ≤ released m taken)
            = bool_decide (enough m n f taken)) as ->.
    { unfold enough. destruct n; repeat case_bool_decide; naive_solver. }
    case_bool_decide as He.
    + rewrite decide_True by done. done.
    + rewrite decide_False by done. cbn [map snd] in Hnd. replace (taken ++ id :: map snd ordered) with ((taken ++ [id]) ++ map snd ordered) in Hnd |- * by (by rewrite <-app_assoc).
      assert (released m (taken ++ [id]) ≤ u64_max) as Hle.
      { pose proof (released_le m _ Hnd) as Hle. rewrite released_app in Hle. lia. }
      assert (released m taken +sat charge_of m id = released m (taken ++ [id])) as ->.
      { assert (released m [id] = charge_of m id) as Hone
          by (unfold released; rewrite sumN_cons, sumN_nil; lia).
        rewrite released_app, Hone in Hle |- *. unfold saturating_add. by rewrite N.min_l. }
      rewrite IH by done. done.
Qed.

(** ** Selection *)

Definition to_fund_of (new_metadata : option N) (g : RegistryState) : N :=
  match new_metadata with
  | None => 0
  | Some n => projected (runs g) (reservations g) + n - metadata_capacity g
  end.
Definition needs_record_of (g : RegistryState) : bool :=
  bool_decide (record_capacity g ≤ records (runs g) (reservations g)).
Definition crowded (g : RegistryState) (ids : list RunId) : bool :=
  bool_decide (1 < len ids) &&
  existsb (λ kv, bool_decide (1 < len (candidates kv.2))) (map_to_list (reservations g)).
(** The choice without the fast path and without machine arithmetic. *)
Definition reference_selection (busy : N → bool) (new_metadata : option N) (s : Shared)
    : result (list RunId) ProtocolError :=
  let g := registry s in
  match shortest (runs g) (needs_record_of g) (to_fund_of new_metadata g) []
          (oldest_first busy (bool_decide (is_Some new_metadata)) s) with
  | None => Err (protocol_error RunCapacity ("retained Run capacity " +:+ pretty (record_capacity g)
                  +:+ " has no eligible exact replacement"))
  | Some ids => if crowded g ids
                then Err (protocol_error BackendUnavailable
                            "persistent metadata replacement is already reserved")
                else Ok ids
  end.

Lemma shortest_None m n f taken l : shortest m n f taken l = None → ¬ enough m n f (taken ++ l).
Proof.
  unfold shortest. revert taken. induction l as [|x l IH]; intros taken; cbn [prefixes];
    rewrite filter_cons; case_decide as Hd; cbn [head]; try done.
  - by rewrite app_nil_r.
  - intros Hx. apply IH in Hx. by rewrite <-app_assoc in Hx.
Qed.
Lemma scan_ok busy new_metadata n f s :
  (∀ id e, runs (registry s) !! id = Some e → is_Some (heap s !! entry_run e)) →
  charges (runs (registry s)) ≤ u64_max →
  ∃ k, scan_candidates busy new_metadata n f s =
    Ret {| evaluated := k; selected :=
      match shortest (runs (registry s)) n f [] (oldest_first busy (bool_decide (is_Some new_metadata)) s) with
      | None => Err (protocol_error RunCapacity ("retained Run capacity " +:+
                  pretty (record_capacity (registry s)) +:+ " has no eligible exact replacement"))
      | Some ids => if crowded (registry s) ids
                    then Err (protocol_error BackendUnavailable
                            "persistent metadata replacement is already reserved")
                    else Ok ids
      end |}.
Proof.
  intros Hh Hm. eexists. unfold scan_candidates. rewrite eligible_all_ok.
  2:{ intros id e He. apply elem_of_map_to_list in He. eauto. }
  cbn [obind]. pose proof (oldest_first_NoDup busy (bool_decide (is_Some new_metadata)) s) as Hnd.
  unfold oldest_first in *. set (ordered := merge_sort _ _) in *.
  pose proof (take_candidates_ok (runs (registry s)) n f ordered [] Hnd Hm) as Ht.
  change (released (runs (registry s)) []) with 0 in Ht. rewrite Ht. cbn [app]. f_equal. f_equal.
  destruct (shortest _ _ _ _ _) as [ids|] eqn:Hs; cbn [default].
  - apply shortest_enough in Hs as [[Hne Hfund] _].
    rewrite (bool_decide_false (released (runs (registry s)) ids < f)) by lia.
    destruct n; [rewrite bool_decide_false by auto|]; done.
  - apply shortest_None in Hs. cbn [app] in Hs. unfold enough in Hs. cbn [id default].
    destruct (bool_decide_reflect (released (runs (registry s)) (map snd ordered) < f));
      [by rewrite orb_true_r|]. rewrite orb_false_r.
    destruct n; [|exfalso; apply Hs; split; [done|lia]]. simpl.
    rewrite bool_decide_true; [done|]. destruct (map snd ordered); [done|].
    exfalso; apply Hs; split; [done|lia].
Qed.

Lemma select_ok busy bytes s :
  retained_metadata_bytes (registry s) = charges (runs (registry s)) →
  (∀ t r, reservations (registry s) !! t = Some r → NoDup (candidates r)) →
  (∀ id e, runs (registry s) !! id = Some e → is_Some (heap s !! entry_run e)) →
  records (runs (registry s)) (reservations (registry s)) ≤ u64_max →
  projected (runs (registry s)) (reservations (registry s)) + default 0 bytes ≤ u64_max →
  ∃ k, select_publication_candidates busy bytes s =
         Ret {| evaluated := k; selected := reference_selection busy bytes s |}.
Proof.
  intros Hr Hc Hh Hrec Hp. unfold select_publication_candidates.
  rewrite records_ok by done. cbn [obind].
  assert (metadata_to_fund bytes (registry s) = Ret (to_fund_of bytes (registry s))) as ->.
  { unfold metadata_to_fund, to_fund_of. destruct bytes as [n|]; [|done]. simpl in Hp.
    rewrite projected_metadata_ok by (done || lia). cbn [obind]. unfold saturating_add. by rewrite N.min_l by lia. }
  cbn [obind]. fold (needs_record_of (registry s)).
  destruct (negb (needs_record_of (registry s)) && bool_decide (to_fund_of bytes (registry s) = 0)) eqn:Hfast.
  - apply andb_true_iff in Hfast as [Hn Hf]. apply negb_true_iff in Hn. apply bool_decide_eq_true in Hf.
    exists 0. unfold reference_selection. by rewrite Hn, shortest_fast.
  - destruct (scan_ok busy bytes (needs_record_of (registry s)) (to_fund_of bytes (registry s)) s) as [k ->];
      [done|unfold projected in Hp; lia|].
    by exists k.
Qed.

(** What a selected list guarantees. *)
Lemma reference_selected busy bytes s ids : reference_selection busy bytes s = Ok ids →
  NoDup ids ∧ enough (runs (registry s)) (needs_record_of (registry s)) (to_fund_of bytes (registry s)) ids ∧
  ∀ id, id ∈ ids → id ∈ oldest_first busy (bool_decide (is_Some bytes)) s.
Proof.
  unfold reference_selection. destruct (shortest _ _ _ _ _) as [ids'|] eqn:Hs; [|done].
  destruct (crowded _ _); [done|]. intros [= ->]. apply shortest_enough in Hs as [He [k ->]].
  cbn [app] in *. split_and!; [|done|].
  - eapply sublist_NoDup; [apply oldest_first_NoDup|apply sublist_take].
  - intros id Hid. rewrite <-(take_drop k (oldest_first _ _ s)). apply elem_of_app. by left.
Qed.
End selection.

(** What a removal leaves alone. *)
Definition rest (g : RegistryState) :=
  (reservations g, next_ticket g, record_capacity g, live_capacity g, live_resources g,
   metadata_capacity g, control_budget g).

Record index_ok (g : RegistryState) : Prop := {
  x_keys : key_index (runs g) (creation_runs g);
  x_stops : stop_index (runs g) (stop_runs g);
  x_metadata : retained_metadata_bytes g = charges (runs g);
}.
Record shrinks (ids : list RunId) (s s' : Shared) (es : list RegistryEntry) : Prop := {
  sh_runs : runs (registry s') = delete_all ids (runs (registry s));
  sh_index : index_ok (registry s');
  sh_rest : rest (registry s') = rest (registry s);
  sh_sub : creation_runs (registry s') ⊆ creation_runs (registry s);
  sh_stop_sub : stop_runs (registry s') ⊆ stop_runs (registry s);
  sh_shared : heap s' = heap s ∧ cells s' = cells s ∧ counters s' = counters s;
  sh_entries : Forall2 (λ id e, runs (registry s) !! id = Some e) ids es;
}.

Lemma shrinks_refl s : index_ok (registry s) → shrinks [] s s [].
Proof. intros Hx. constructor; try done. Qed.
Lemma shrinks_cons id ids s s1 s' e es : id ∉ ids →
  shrinks [id] s s1 [e] → shrinks ids s1 s' es → shrinks (id :: ids) s s' (e :: es).
Proof.
  intros Hid [R1 X1 T1 C1 S1 (H1 & L1 & K1) E1] [R2 X2 T2 C2 S2 (H2 & L2 & K2) E2].
  inversion E1 as [|? ? ? ? He _]; subst. constructor; try done; try congruence.
  - rewrite R2, R1. done.
  - by etrans.
  - by etrans.
  - split_and!; congruence.
  - constructor; [done|]. apply Forall2_same_length_lookup in E2 as [Hl Hlk].
    apply Forall2_same_length_lookup. split; [done|]. intros i j x Hj Hx.
    specialize (Hlk i j x Hj Hx). rewrite R1 in Hlk. cbn [delete_all] in Hlk.
    by apply lookup_delete_Some in Hlk as [_ ?].
Qed.

Lemma delete_opt_sub {V} (k : option string) (c : gmap string V) :
  (match k with Some k => delete k c | None => c end) ⊆ c.
Proof. destruct k; [apply delete_subseteq|done]. Qed.
Lemma remove_key_ok {V} `{EqDecision V} key (v : V) m : m !! key = Some v →
  remove_key key v m = Ret (delete key m).
Proof. intros Hk. unfold remove_key. by rewrite bool_decide_true. Qed.

Lemma remove_entry_ok id e s : runs (registry s) !! id = Some e → index_ok (registry s) →
  ∃ s', remove_registry_entry id s = Ret (s', e) ∧ shrinks [id] s s' [e].
Proof.
  intros He [Hk Hs Hm]. unfold remove_registry_entry. rewrite He. cbn [expect obind].
  set (g1 := set_retained_metadata _ _).
  assert (match entry_key e with
          | Some key => remove_key key id (creation_runs g1)
          | None => Ret (creation_runs g1) end
          = Ret (match entry_key e with Some k => delete k (creation_runs (registry s))
                 | None => creation_runs (registry s) end)) as ->.
  { destruct (entry_key e) as [k|] eqn:Hek; [|done]. apply remove_key_ok. apply Hk. eauto. }
  assert (match stop_operation e with
          | Some record => remove_key (stop_key record) id (stop_runs g1)
          | None => Ret (stop_runs g1) end
          = Ret (match stop_of e with Some k => delete k (stop_runs (registry s))
                 | None => stop_runs (registry s) end)) as ->.
  { unfold stop_of. destruct (stop_operation e) as [r|] eqn:Hr; [|done]. apply remove_key_ok. apply Hs.
    exists e. unfold stop_of. by rewrite Hr. }
  cbn [obind]. eexists. split; [done|]. constructor; cbn; try done.
  - constructor; cbn.
    + by apply key_index_delete.
    + by apply stop_index_delete.
    + rewrite Hm. unfold charges. rewrite (msum_delete metadata_charge _ _ _ He). lia.
  - apply delete_opt_sub.
  - apply delete_opt_sub.
  - by constructor.
Qed.

Lemma remove_candidates_ok t ids s : NoDup ids → index_ok (registry s) →
  (∀ id, id ∈ ids → ∃ e, runs (registry s) !! id = Some e ∧ residency e = Collecting t) →
  ∃ s' es, remove_candidates t ids s = Ret (s', es) ∧ shrinks ids s s' es.
Proof.
  intros Hnd. revert s. induction Hnd as [|id ids Hid _ IH]; intros s Hx Hs.
  { exists s, []. split; [done|]. by apply shrinks_refl. }
  destruct (Hs id) as (e & He & Hr); [set_solver|].
  destruct (remove_entry_ok id e s He Hx) as (s1 & Hrem & Hsh).
  cbn [remove_candidates]. rewrite Hrem. cbn [obind].
  rewrite bool_decide_true by done. cbn [check obind].
  destruct (IH s1) as (s' & es & -> & Hsh').
  - apply Hsh.
  - intros j Hj. rewrite (sh_runs _ _ _ _ Hsh). cbn [delete_all].
    rewrite lookup_delete_ne by (intros ->; done). apply Hs. set_solver.
  - cbn [obind]. exists s', (e :: es). split; [done|]. by eapply shrinks_cons.
Qed.

(** Sums are conserved between the map and the removed entries. *)
Lemma shrinks_sum f ids s s' es : NoDup ids → shrinks ids s s' es →
  msum f (runs (registry s')) + sumN f es = msum f (runs (registry s)).
Proof. intros Hnd Hsh. rewrite (sh_runs _ _ _ _ Hsh). apply msum_delete_all; [done|apply Hsh]. Qed.
Lemma shrinks_size ids s s' es : NoDup ids → shrinks ids s s' es →
  N.of_nat (size (runs (registry s'))) + len ids = N.of_nat (size (runs (registry s))).
Proof.
  intros Hnd Hsh. rewrite (sh_runs _ _ _ _ Hsh). eapply size_delete_all; [done|apply Hsh].
Qed.
Lemma shrinks_lookup ids s s' es j : shrinks ids s s' es →
  runs (registry s') !! j = if decide (j ∈ ids) then None else runs (registry s) !! j.
Proof. intros Hsh. rewrite (sh_runs _ _ _ _ Hsh). apply lookup_delete_all. Qed.
Lemma shrinks_some ids s s' es j e : shrinks ids s s' es →
  runs (registry s') !! j = Some e → (j ∉ ids) ∧ runs (registry s) !! j = Some e.
Proof. intros Hsh. rewrite (shrinks_lookup _ _ _ _ _ Hsh). by case_decide. Qed.
Lemma shrinks_released ids s s' es : NoDup ids → shrinks ids s s' es →
  sumN metadata_charge es = released (runs (registry s)) ids.
Proof.
  intros _ Hsh. destruct Hsh as [_ _ _ _ _ _ He]. induction He as [|id e ids es Hid _ IH]; [done|].
  unfold released in *. rewrite !sumN_cons, IH. f_equal. unfold charge_of. by rewrite Hid.
Qed.
