(* ===== verification/RegistrySteps.v ===== *)
(** * RegistrySteps

    The steps that change who holds a Run, a Run itself, a counter or the control
    budget, and the end of a reservation whose publication never happened. *)

From S2P Require Import Prelude.
From S2P Require Import Protocol.
From S2P Require Import Resources.
From S2P Require Import NativeControl.
From S2P Require Import Runs.
From S2P Require Import Registry.
From S2P Require Import RegistryQueries.
From S2P Require Import RegistrySpec.
From S2P Require Import RegistrySystem.
From S2P Require Import RegistryHeap.
From S2P Require Import RegistryRemoval.

(** ** Holders *)

Lemma sumN_remove_one {A} `{EqDecision A} (f : A → N) x l : x ∈ l →
  sumN f (remove_one x l) + f x = sumN f l.
Proof.
  induction 1 as [x l|x y l _ IH]; cbn [remove_one].
  - rewrite decide_True by done. rewrite sumN_cons. lia.
  - case_decide as Hd; rewrite !sumN_cons; [subst; lia|]. lia.
Qed.
Lemma arcs_pin m es p ps xs q : arcs m es (p :: ps) xs q = arcs m es ps xs q + one q p.
Proof. unfold arcs. rewrite sumN_cons. lia. Qed.
Lemma arcs_unpin m es p ps xs q : p ∈ ps → arcs m es ps xs q = arcs m es (remove_one p ps) xs q + one q p.
Proof. intros Hp. unfold arcs. pose proof (sumN_remove_one (one q) p ps Hp). lia. Qed.
Lemma arcs_entry m es ps xs id e : m !! id = Some e → 1 ≤ arcs m es ps xs (entry_run e).
Proof.
  intros He. unfold arcs. pose proof (msum_lookup_le (λ x, one (entry_run e) (entry_run x)) m id e He) as Hle.
  cbn beta in Hle. rewrite one_same in Hle. lia.
Qed.
Lemma arcs_pinned m es ps xs p : p ∈ ps → 1 ≤ arcs m es ps xs p.
Proof. intros Hp. unfold arcs. pose proof (sumN_elem (one p) p ps Hp). rewrite one_same in *. lia. Qed.
(** A settlement is a second holder beside the entry. *)
Lemma arcs_settled m es ps xs id e x : m !! id = Some e → x ∈ xs → settle_run x = entry_run e →
  2 ≤ arcs m es ps xs (entry_run e).
Proof.
  intros He Hx Hr. unfold arcs.
  pose proof (msum_lookup_le (λ x, one (entry_run e) (entry_run x)) m id e He) as Hle.
  pose proof (sumN_elem (λ x, one (entry_run e) (settle_run x)) x xs Hx) as Hs.
  cbn beta in *. rewrite Hr in Hs. rewrite one_same in *. lia.
Qed.

(** ** Residency changes *)

Lemma removals_reseat m m' ids :
  (∀ id, (∃ e, m' !! id = Some e ∧ residency e = Removing) ↔
         (∃ e, m !! id = Some e ∧ residency e = Removing)) →
  removals_ok m ids → removals_ok m' ids.
Proof. intros Heq [Hnd Hi]. split; [done|]. intros id. by rewrite Hi, Heq. Qed.
Lemma settlements_reseat m m' cs xs : reseated m m' →
  (∀ x e e', x ∈ xs → m !! settle_id x = Some e → m' !! settle_id x = Some e' →
     residency e = Retained → residency e' = Retained) →
  settlements_ok m cs xs → settlements_ok m' cs xs.
Proof.
  intros Hr Hkeep (Hi & Hc & Hx & Hs). split_and!; [done|done| |].
  - intros x Hin. destruct (Hx x Hin) as (e & r & He & Hres & Hp & Hso & Hk & Hcell & Hv).
    destruct (reseated_lookup _ _ _ _ (reseated_sym _ _ Hr) He) as (e' & He' & Hst).
    pose proof (strip_fields _ _ Hst) as (S1 & S2 & S3 & S4 & S5).
    exists e', r. split_and!; try done; try congruence. by eapply Hkeep.
  - intros id e' r He' Hso. destruct (reseated_lookup _ _ _ _ Hr He') as (e & He & Hst).
    pose proof (strip_fields _ _ Hst) as (S1 & S2 & S3 & S4 & S5). eapply (Hs id e); [done|]. congruence.
Qed.
Lemma arcs_reseat m m' es ps xs q : reseated m m' → arcs m' es ps xs q = arcs m es ps xs q.
Proof. intros Hr. unfold arcs. by rewrite (reseated_msum m m'). Qed.
Lemma budget_reseat b m m' es n : reseated m m' → budget_ok b m es n → budget_ok b m' es n.
Proof. intros Hr. unfold budget_ok. by rewrite (reseated_msum m m' stop_bytes). Qed.

Lemma with_residency_removing x ids m id : x ≠ Removing →
  (∀ i, i ∈ ids → ∃ e, m !! i = Some e ∧ residency e ≠ Removing) →
  (∃ e, with_residency x ids m !! id = Some e ∧ residency e = Removing) ↔
  (∃ e, m !! id = Some e ∧ residency e = Removing).
Proof.
  intros Hx Hids. rewrite lookup_with_residency. destruct (decide (id ∈ ids)) as [Hid|Hid].
  - destruct (Hids id Hid) as (e & -> & He). simpl. split.
    + intros (e' & [= <-] & Hr). by destruct Hx.
    + intros (e' & [= <-] & Hr). by destruct He.
  - destruct (m !! id); done.
Qed.

(** A ticket leaves with its fences. *)
Lemma fences_unfence m rs t r : fences_ok m rs → rs !! t = Some r →
  fences_ok (with_residency Retained (candidates r) m) (delete t rs).
Proof.
  intros [H1 H2] Hr. split.
  - intros t' r' Hr'. apply lookup_delete_Some in Hr' as [Hne Hr']. destruct (H1 _ _ Hr') as [Hnd Hc].
    split; [done|]. intros id Hid. destruct (Hc id Hid) as (e & He & Hres). exists e.
    rewrite lookup_with_residency, decide_False; [by rewrite He|].
    intros Hin. destruct (proj2 (H1 _ _ Hr) id Hin) as (e' & He' & Hres'). congruence.
  - intros id e t' He Hres. rewrite lookup_with_residency in He. case_decide as Hin.
    + destruct (m !! id); [|done]. simpl in He. by simplify_eq.
    + destruct (m !! id) as [x|] eqn:Hx; [|done]. simpl in He. simplify_eq.
      destruct (H2 _ _ _ Hx Hres) as (r' & Hr' & Hin'). exists r'. split; [|done].
      apply lookup_delete_Some. split; [|done]. intros ->. by simplify_eq.
Qed.
Lemma names_delete m c rs t : names_ok m c rs → names_ok m c (delete t rs).
Proof.
  intros [H1 H2]. split.
  - intros t' r' Hr. apply lookup_delete_Some in Hr as [_ Hr]. eauto.
  - intros t1 t2 r1 r2 Hr1 Hr2. apply lookup_delete_Some in Hr1 as [_ Hr1].
    apply lookup_delete_Some in Hr2 as [_ Hr2]. eauto.
Qed.
Lemma names_reseat m m' c rs : reseated m m' → names_ok m c rs → names_ok m' c rs.
Proof.
  intros Hr [H1 H2]. split; [|done]. intros t r Ht. destruct (H1 _ _ Ht) as [Hn Hk]. split; [|done].
  by apply (reseated_None m).
Qed.
Lemma owners_delete rs os n t : owners_ok rs os n → owners_ok (delete t rs) (delete t os) n.
Proof.
  intros (H1 & H2 & H3). split_and!; [| |done].
  - intros t'. destruct (decide (t' = t)) as [->|].
    + by rewrite !lookup_delete_eq.
    + by rewrite !lookup_delete_ne.
  - intros t' r o Hr Ho. apply lookup_delete_Some in Hr as [_ Hr].
    apply lookup_delete_Some in Ho as [_ Ho]. eauto.
Qed.
Lemma projected_delete m rs t r : rs !! t = Some r →
  projected m rs = projected m (delete t rs) + owed m r.
Proof. intros Hr. unfold projected. rewrite (msum_delete (owed m) rs t r Hr). lia. Qed.
Lemma records_delete m rs t r : rs !! t = Some r →
  records m rs = records m (delete t rs) + record_burden r.
Proof. intros Hr. unfold records. rewrite (msum_delete record_burden rs t r Hr). lia. Qed.
Lemma size_delete_owner (os : gmap N (bool * N)) t o : os !! t = Some o →
  N.of_nat (size os) = N.of_nat (size (delete t os)) + 1.
Proof.
  intros Ho. rewrite map_size_delete_Some by eauto.
  assert (size os ≠ 0%nat) by (intros Hz; apply map_size_empty_inv in Hz; by subst). lia.
Qed.

(** Name the conjuncts of the invariant. *)
Ltac open_inv Hi :=
  destruct Hi as [Ikeys Istops Ifences Iremovals Inames Iowners Iids Icounters Iarcs Isettle
    Ibudget Imetadata Iprojected Irecords Ilive Ilive_le Icaps];
  unfold g_of, arcs_of in *.

Section steps.
Context `{!UuidDisplay, !RunLayout, !StopLayout} (B R L : N).

Lemma inv_live_ok s : sys_inv B R L s → live_ok (shared s).
Proof. intros Hi. open_inv Hi. split; lia. Qed.

(** Runs drift while one kind of holder changes. *)
Lemma inv_rehold x ps s : sys_inv B R L s → drifts (shared s) x →
  counted (heap x) (arcs (runs (g_of s)) (garbage s) ps (settlements s)) →
  sys_inv B R L (with_pins ps (with_shared x s)).
Proof.
  intros Hi [Hg Hc Hk Hh Hl Hle] Hn. open_inv Hi.
  assert (∃ l, registry x = set_live_resources l (registry (shared s))) as [l Hx] by eauto.
  clear Hg. destruct x as [g' h' cs' ks']. cbn in *. subst.
  constructor; unfold g_of, arcs_of; cbn in *; try done; try lia.
  - eapply ids_drift; [done|done|exact Hn|]. intros id e He. by eapply arcs_entry.
  - by eapply counters_drift.
Qed.
Lemma inv_drift x s : sys_inv B R L s → drifts (shared s) x → same_arcs (heap (shared s)) (heap x) →
  sys_inv B R L (with_shared x s).
Proof.
  intros Hi Hd Ha. apply (inv_rehold x (pins s) s Hi Hd). eapply counted_same; [done|]. apply Hi.
Qed.

Lemma step_release p busy s : sys_inv B R L s → enabled (ReqRelease p busy) s →
  ∃ s', sys_step (ReqRelease p busy) s = Ret s' ∧ sys_inv B R L s'.
Proof.
  intros Hi [c Hc]. cbn [sys_step]. unfold deref. rewrite Hc. cbn [expect obind].
  pose proof (release_one_ok busy p _ c Hc (inv_live_ok s Hi)) as Hr.
  destruct (release_closed_resources busy (the_run c)) as [r freed]. destruct Hr as [Hd Ha].
  eexists. split; [done|]. by apply inv_drift.
Qed.
Lemma step_clone p s : sys_inv B R L s → enabled (ReqClone p) s →
  ∃ s', sys_step (ReqClone p) s = Ret s' ∧ sys_inv B R L s'.
Proof.
  intros Hi Hp. cbn [sys_step enabled] in *. destruct (clone_ok p (shared s) (arcs_of s)) as (x & -> & Hd & _ & Hn).
  { apply Hi. } { by apply arcs_pinned. }
  cbn [obind]. eexists. split; [done|]. apply inv_rehold; [done|done|].
  eapply counted_ext; [exact Hn|]. intros q. unfold arcs_of. by rewrite arcs_pin.
Qed.
Lemma step_unpin p s : sys_inv B R L s → enabled (ReqUnpin p) s →
  ∃ s', sys_step (ReqUnpin p) s = Ret s' ∧ sys_inv B R L s'.
Proof.
  intros Hi Hp. cbn [sys_step enabled] in *.
  destruct (drop_run_ok p (shared s) (arcs_of s)
    (arcs (runs (g_of s)) (garbage s) (remove_one p (pins s)) (settlements s))) as (x & -> & Hd & Hn).
  { apply Hi. } { by apply inv_live_ok. } { intros q. by apply arcs_unpin. }
  cbn [obind]. eexists. split; [done|]. by apply inv_rehold.
Qed.
Lemma step_pin id s : sys_inv B R L s → ∃ s', sys_step (ReqPin id) s = Ret s' ∧ sys_inv B R L s'.
Proof.
  intros Hi. cbn [sys_step]. unfold pin.
  assert (with_shared (shared s) s = s) as Hsame by by destruct s.
  destruct (runs (registry (shared s)) !! id) as [e|] eqn:He; [|cbn [obind]; rewrite Hsame; eauto].
  destruct (residency e); [|cbn [obind]; rewrite Hsame; eauto..].
  destruct (clone_ok (entry_run e) (shared s) (arcs_of s)) as (x & -> & Hd & _ & Hn).
  { apply Hi. } { by eapply arcs_entry. }
  cbn [obind]. eexists. split; [done|]. apply inv_rehold; [done|done|].
  eapply counted_ext; [exact Hn|]. intros q. unfold arcs_of. by rewrite arcs_pin.
Qed.

Lemma step_run p r s : sys_inv B R L s → enabled (ReqRun p r) s →
  ∃ s', sys_step (ReqRun p r) s = Ret s' ∧ sys_inv B R L s'.
Proof.
  intros Hi (c & Hc & Hid & Hl & Hd). cbn [sys_step]. eexists. split; [done|].
  pose proof (counted_same _ _ _ (write_same_arcs p r (shared s)) (i_arcs _ _ _ _ Hi)) as Hn.
  rewrite (write_eq _ _ _ _ Hc) in *. open_inv Hi.
  constructor; unfold g_of, arcs_of in *; cbn; try done.
  - intros id e He. destruct (Iids id e He) as (c' & Hc' & Hi').
    destruct (decide (entry_run e = p)) as [Heq|Hne].
    + rewrite Heq in *. rewrite lookup_insert_eq. eexists. split; [done|]. cbn. congruence.
    + rewrite lookup_insert_ne by done. eauto.
  - destruct Icounters as [Hk1 Hk2]. split; [done|]. intros q c' d Hc' Hb.
    destruct (decide (q = p)) as [->|Hne].
    + rewrite lookup_insert_eq in Hc'. simplify_eq. by apply Hd.
    + rewrite lookup_insert_ne in Hc' by done. eauto.
  - rewrite Ilive. f_equal. pose proof (permits_write _ _ _ r Hc) as Hp. rewrite Hl in Hp. lia.
Qed.
Lemma step_counter p n s : sys_inv B R L s →
  ∃ s', sys_step (ReqCounter p n) s = Ret s' ∧ sys_inv B R L s'.
Proof.
  intros Hi. open_inv Hi. cbn [sys_step]. eexists. split; [done|]. constructor; unfold g_of, arcs_of in *; cbn; try done.
  assert (∀ q, is_Some (counters (shared s) !! q) → is_Some (<[p:=n]> (counters (shared s)) !! q)) as Hk.
  { intros q Hq. destruct (decide (q = p)) as [->|]; [by rewrite lookup_insert_eq|by rewrite lookup_insert_ne]. }
  destruct Icounters as [Hk1 Hk2]. split; intros; apply Hk; eauto.
Qed.
(** A new Run starts with one holder. *)
Lemma inv_load p r s : sys_inv B R L s → heap (shared s) !! p = None → live_permit r = false →
  (∀ d, binding_durable (persistence r) = Some d → is_Some (counters (shared s) !! metadata_owner d)) →
  sys_inv B R L (with_pins (p :: pins s) (with_shared
    (set_heap (<[p := {| the_run := r; strong := 1 |}]> (heap (shared s))) (shared s)) s)).
Proof.
  intros Hi Hp Hl Hd. open_inv Hi. constructor; unfold g_of, arcs_of in *; cbn; try done.
  - intros id e He. destruct (Iids id e He) as (c & Hc & Hid). exists c. split; [|done].
    rewrite lookup_insert_ne; [done|]. intros ->. congruence.
  - destruct Icounters as [Hk1 Hk2]. split; [done|]. intros q c d Hc Hb.
    destruct (decide (q = p)) as [->|].
    + rewrite lookup_insert_eq in Hc. simplify_eq. by apply Hd.
    + rewrite lookup_insert_ne in Hc by done. eauto.
  - intros q. rewrite arcs_pin. specialize (Iarcs q). destruct (decide (q = p)) as [->|Hne].
    + rewrite lookup_insert_eq, one_same. cbn. rewrite Hp in Iarcs. lia.
    + rewrite lookup_insert_ne by done. unfold one. rewrite decide_False by done.
      destruct (heap (shared s) !! q); lia.
  - unfold permits. rewrite (msum_insert_None (λ c, b2n (live_permit (the_run c))) _ p _ Hp). cbn.
    rewrite Hl. cbn. done.
Qed.
Lemma step_launch t p r s : sys_inv B R L s → enabled (ReqLaunch t p r) s →
  ∃ s', sys_step (ReqLaunch t p r) s = Ret s' ∧ sys_inv B R L s'.
Proof. intros Hi (Hp & Hl & _ & Hd). eexists. split; [done|]. by apply inv_load. Qed.
Lemma step_fund n s : sys_inv B R L s → ∃ s', sys_step (ReqFund n) s = Ret s' ∧ sys_inv B R L s'.
Proof.
  intros Hi. cbn [sys_step]. rewrite ByteBudget.reserve_spec. case_decide as Hn; [|eauto].
  eexists. split; [done|]. open_inv Hi. constructor; unfold g_of, arcs_of in *; cbn; try done.
  destruct Ibudget as (K1 & K2 & K3). unfold budget_ok. cbn. split_and!; lia.
Qed.
Lemma step_refund n s : sys_inv B R L s → enabled (ReqRefund n) s →
  ∃ s', sys_step (ReqRefund n) s = Ret s' ∧ sys_inv B R L s'.
Proof.
  intros Hi Hn. open_inv Hi. cbn [sys_step enabled] in *. eexists. split; [done|].
  constructor; unfold g_of, arcs_of in *; cbn; try done.
  destruct Ibudget as (K1 & K2 & K3). unfold budget_ok. rewrite ByteBudget.drop_spec by lia. cbn. split_and!; lia.
Qed.

Lemma step_unresolve t s : sys_inv B R L s → enabled (ReqUnresolve t) s →
  ∃ s', sys_step (ReqUnresolve t) s = Ret s' ∧ sys_inv B R L s'.
Proof.
  intros Hi [n Ho]. open_inv Hi. cbn [sys_step]. rewrite Ho. cbn [expect obind]. eexists. split; [done|].
  constructor; unfold g_of, arcs_of in *; cbn; try done.
  - destruct Iowners as (K1 & K2 & K3). split_and!; [| |done].
    + intros t'. rewrite <-K1. destruct (decide (t' = t)) as [->|]; [|by rewrite lookup_insert_ne].
      by rewrite lookup_insert_eq, Ho.
    + intros t' r o Hr Ho'. destruct (decide (t' = t)) as [->|].
      * rewrite lookup_insert_eq in Ho'. simplify_eq. cbn. apply (K2 t r (false, n) Hr Ho).
      * rewrite lookup_insert_ne in Ho' by done. eauto.
  - rewrite map_size_insert_Some by eauto. done.
Qed.

(** Residencies, reservations and their owners change together. *)
Lemma inv_reseat m rs n l os rem s : sys_inv B R L s → reseated (runs (g_of s)) m →
  fences_ok m rs → removals_ok m rem →
  names_ok (runs (g_of s)) (creation_runs (g_of s)) rs → owners_ok rs os n →
  (∀ x e e', x ∈ settlements s → runs (g_of s) !! settle_id x = Some e → m !! settle_id x = Some e' →
     residency e = Retained → residency e' = Retained) →
  projected (runs (g_of s)) rs ≤ B → records (runs (g_of s)) rs ≤ R →
  l = permits (heap (shared s)) + N.of_nat (size os) → l ≤ L →
  sys_inv B R L {| shared := upd_registry (λ g, set_live_resources l (set_reservations rs n (set_runs m g)))
                              (shared s);
    owners := os; garbage := garbage s; pins := pins s; settlements := settlements s;
    removals := rem; outside := outside s |}.
Proof.
  intros Hi Hm Hf Hrem Hn Ho Hset Hp Hr Hl Hle. open_inv Hi.
  constructor; unfold g_of, arcs_of; cbn; try done.
  - by eapply reseated_key_index.
  - by eapply reseated_stop_index.
  - by eapply names_reseat.
  - by eapply reseated_ids.
  - by eapply reseated_counters.
  - eapply counted_ext; [done|]. intros q. by rewrite (arcs_reseat _ _ _ _ _ _ Hm).
  - by eapply settlements_reseat.
  - by eapply budget_reseat.
  - rewrite Imetadata. symmetry. by apply reseated_msum.
  - by rewrite (reseated_projected _ _ _ Hm).
  - by rewrite (reseated_records _ _ _ Hm).
Qed.

(** An owner that drops gives back its candidates, its ticket and its permit. *)
Lemma step_abandon t s : sys_inv B R L s → enabled (ReqAbandon t) s →
  ∃ s', sys_step (ReqAbandon t) s = Ret s' ∧ sys_inv B R L s'.
Proof.
  intros Hi [n Ho]. destruct (i_owners _ _ _ _ Hi) as (Hos & _ & _).
  destruct (proj1 (Hos t)) as [r Hr]; [eauto|]. cbn [sys_step]. rewrite Ho. cbn [expect obind].
  unfold drop_reservation, restore_reservation. cbn [owner_of ticket permit]. unfold g_of in Hr.
  rewrite Hr. cbn [expect obind]. destruct (i_fences _ _ _ _ Hi) as [Hf _].
  destruct (Hf _ _ Hr) as [Hnd Hc]. rewrite unfence_candidates_ok by done.
  cbn [obind drop_live_permit]. eexists. split; [done|].
  pose proof (with_residency_reseated Retained (candidates r) (runs (g_of s))) as Hm.
  pose proof (size_delete_owner _ _ _ Ho) as Hsz.
  pose proof (i_live _ _ _ _ Hi) as Hl. pose proof (i_live_le _ _ _ _ Hi) as Hle.
  pose proof (i_caps _ _ _ _ Hi) as Hcaps. unfold g_of in *.
  refine (inv_reseat (with_residency Retained (candidates r) (runs (g_of s))) (delete t (reservations (g_of s)))
    (next_ticket (g_of s)) _ (delete t (owners s)) (removals s) s Hi Hm _ _ _ _ _ _ _ _ _); unfold g_of in *.
  - apply fences_unfence; [apply Hi|done].
  - eapply removals_reseat; [|apply Hi]. intros id. apply with_residency_removing; [done|].
    intros i Hin. destruct (Hc i Hin) as (e & He & Hres). exists e. split; [done|congruence].
  - apply names_delete, Hi.
  - apply owners_delete, Hi.
  - intros x e e' Hx He He' Hres.
    rewrite lookup_with_residency in He'. case_decide; rewrite He in He'; simpl in He'; by simplify_eq.
  - pose proof (i_projected _ _ _ _ Hi) as Hp. unfold g_of in Hp. rewrite (projected_delete _ _ _ _ Hr) in Hp. lia.
  - pose proof (i_records _ _ _ _ Hi) as Hp. unfold g_of in Hp. rewrite (records_delete _ _ _ _ Hr) in Hp. lia.
  - cbn. rewrite wrapping_sub_ok by lia. lia.
  - cbn. rewrite wrapping_sub_ok by lia. lia.
Qed.
End steps.
