(* ===== verification/RegistryStopSteps.v ===== *)
(** * RegistryStopSteps

    Recoverable Stops: admission binds one key to one Run and one result cell, pays
    for the receipt and pins the Run twice; settlement writes the cell once, forgets
    a Stop that was not applied, and lets go of the Run.  Also the drop of an entry
    that left the registry. *)

From S2P Require Import Prelude.
From S2P Require Import Protocol.
From S2P Require Import Resources.
From S2P Require Import NativeControl.
From S2P Require Import Runs.
From S2P Require Import Registry.
From S2P Require Import RegistryQueries.
From S2P Require Import RegistrySpec.
From S2P Require Import RegistrySystem.
From S2P Require Import RegistryHeap.
From S2P Require Import RegistryRemoval.
From S2P Require Import RegistrySteps.

(** ** Changing one entry's Stop *)

Lemma fences_update m rs id e e' : m !! id = Some e → residency e' = residency e →
  fences_ok m rs → fences_ok (<[id := e']> m) rs.
Proof.
  intros He Hr [H1 H2]. split.
  - intros t r Ht. destruct (H1 _ _ Ht) as [Hnd Hc]. split; [done|]. intros j Hj.
    apply (exists_update (Q := λ x, residency x = Collecting t) m id e e' j He); [by rewrite Hr|]. by apply Hc.
  - intros j x t Hx Hres. destruct (decide (j = id)) as [->|Hne].
    + rewrite lookup_insert_eq in Hx. simplify_eq. eapply (H2 id e); [done|congruence].
    + rewrite lookup_insert_ne in Hx by done. eauto.
Qed.
Lemma removals_update m ids id e e' : m !! id = Some e → residency e' = residency e →
  removals_ok m ids → removals_ok (<[id := e']> m) ids.
Proof.
  intros He Hr. apply removals_reseat. intros j.
  apply (exists_update (Q := λ x, residency x = Removing) m id e e' j He). by rewrite Hr.
Qed.
Lemma names_update m c rs id e e' : m !! id = Some e → names_ok m c rs → names_ok (<[id := e']> m) c rs.
Proof.
  intros He [H1 H2]. split; [|done]. intros t r Ht. destruct (H1 _ _ Ht) as [Hn Hk]. split; [|done].
  rewrite lookup_insert_ne; [done|]. intros ->. congruence.
Qed.
Lemma counters_update m h cs id e e' : m !! id = Some e → metadata_bytes e' = metadata_bytes e →
  counters_ok m h cs → counters_ok (<[id := e']> m) h cs.
Proof.
  intros He Hm [H1 H2]. split; [|done]. intros j x p Hx Hp. destruct (decide (j = id)) as [->|Hne].
  - rewrite lookup_insert_eq in Hx. simplify_eq. eapply (H1 id e); [done|congruence].
  - rewrite lookup_insert_ne in Hx by done. eauto.
Qed.
Lemma projected_update m rs id e e' : m !! id = Some e → metadata_charge e' = metadata_charge e →
  projected (<[id := e']> m) rs = projected m rs.
Proof.
  intros He Hc. unfold projected. rewrite (charges_update m id e e' He Hc). f_equal.
  apply msum_ext. intros t r _. unfold owed, released. case_match; [|done]. f_equal.
  apply sumN_ext. intros j _. by eapply charge_of_update.
Qed.
Lemma records_update m rs id e e' : m !! id = Some e → records (<[id := e']> m) rs = records m rs.
Proof. intros He. unfold records. by rewrite map_size_insert_Some by eauto. Qed.
Lemma arcs_update m es ps xs q id e e' : m !! id = Some e → entry_run e' = entry_run e →
  arcs (<[id := e']> m) es ps xs q = arcs m es ps xs q.
Proof.
  intros He Hr. unfold arcs. pose proof (msum_insert_Some (λ e, one q (entry_run e)) m id e e' He) as Hm.
  cbn beta in Hm. rewrite Hr in Hm. lia.
Qed.

Lemma settled_other m cs xs x id e : settlements_ok m cs xs → x ∈ xs → m !! id = Some e →
  stop_operation e = None → settle_id x ≠ id.
Proof.
  intros (_ & _ & Hx & _) Hin He Hs <-. destruct (Hx x Hin) as (e' & r & He' & _ & _ & Hso & _). congruence.
Qed.

Section stops.
Context `{!UuidDisplay, !RunLayout, !StopLayout} (B R L : N).

Lemma inv_stop id e o c' cs' b' s : sys_inv B R L s → runs (g_of s) !! id = Some e →
  (∀ x, x ∈ settlements s → settle_id x ≠ id) →
  stop_index (<[id := set_stop o e]> (runs (g_of s))) c' →
  (∀ k, is_Some (cells (shared s) !! k) → is_Some (cs' !! k)) →
  (∀ x, x ∈ settlements s → cs' !! settle_cell x = Some None) →
  (∀ r, o = Some r → is_Some (cs' !! stop_cell r)) →
  budget_ok b' (<[id := set_stop o e]> (runs (g_of s))) (garbage s) (outside s) →
  sys_inv B R L (with_shared
    {| registry := set_stop_runs c' (set_runs (<[id := set_stop o e]> (runs (g_of s)))
                                      (set_control_budget b' (g_of s)));
       heap := heap (shared s); cells := cs'; counters := counters (shared s) |} s).
Proof.
  intros Hi He Hx Hstop Hcs Hpend Ho Hb. open_inv Hi.
  constructor; unfold g_of, arcs_of; cbn; try done.
  - by eapply key_index_update.
  - by eapply fences_update.
  - by eapply removals_update.
  - by eapply names_update.
  - by eapply ids_ok_update.
  - by eapply counters_update.
  - eapply counted_ext; [done|]. intros q. by rewrite (arcs_update _ _ _ _ _ id e).
  - destruct Isettle as (Hn1 & Hn2 & Hs & Hso). split_and!; [done|done| |].
    + intros x Hin. destruct (Hs x Hin) as (e0 & r & He0 & Hres & Hp & Hso0 & Hk & Hcell & Hv).
      exists e0, r. rewrite lookup_insert_ne by (intros ->; by apply (Hx x)). split_and!; auto.
    + intros j x r Hj Hr. destruct (decide (j = id)) as [->|Hne].
      * rewrite lookup_insert_eq in Hj. simplify_eq. by apply Ho.
      * rewrite lookup_insert_ne in Hj by done. apply Hcs. eauto.
  - rewrite Imetadata. symmetry. by eapply charges_update.
  - by rewrite (projected_update _ _ id e).
  - by rewrite (records_update _ _ id e).
Qed.

(** A pin becomes a settlement, and back. *)
Lemma inv_pin_settle y p ps s : sys_inv B R L s → pins s = p :: ps → settle_run y = p →
  settlements_ok (runs (g_of s)) (cells (shared s)) (y :: settlements s) →
  sys_inv B R L (with_pins ps (with_settlements (y :: settlements s) s)).
Proof.
  intros Hi Hps Hy Hs. open_inv Hi. constructor; unfold g_of, arcs_of; cbn; try done.
  eapply counted_ext; [exact Iarcs|]. intros q. unfold arcs, g_of. cbn. rewrite Hps, !sumN_cons, Hy. lia.
Qed.
Lemma NoDup_remove_one {A X} `{EqDecision A} (f : A → X) x l : NoDup (map f l) → NoDup (map f (remove_one x l)).
Proof.
  induction l as [|y l IH]; [done|]. cbn [map remove_one]. intros [Hy Hnd]%NoDup_cons.
  case_decide; [done|]. cbn [map]. constructor; [|auto]. intros Hin. apply Hy. clear - Hin.
  induction l as [|z l IH]; [done|]. cbn [map remove_one] in *. case_decide; [by right|].
  cbn [map] in Hin. apply elem_of_cons in Hin as [->|Hin]; [by left|right; auto].
Qed.
Lemma remove_one_elem {A} `{EqDecision A} (x y : A) l : y ∈ remove_one x l → y ∈ l.
Proof.
  induction l as [|z l IH]; [done|]. cbn [remove_one]. case_decide; [by right|].
  intros [->|Hin]%elem_of_cons; [by left|right; auto].
Qed.
Lemma remove_one_distinct {A X} `{EqDecision A} (f : A → X) (x y : A) l : NoDup (map f l) → x ∈ l →
  y ∈ remove_one x l → f y ≠ f x.
Proof.
  induction l as [|z l IH]; [by intros _ Hx%not_elem_of_nil|].
  cbn [map remove_one]. intros [Hz Hnd]%NoDup_cons Hx Hy.
  case_decide as Hd.
  - subst. intros Heq. apply Hz. rewrite <-Heq. by apply list_elem_of_fmap_2.
  - apply elem_of_cons in Hx as [->|Hx]; [done|]. apply elem_of_cons in Hy as [->|Hy]; [|by apply IH].
    intros Heq. apply Hz. rewrite Heq. by apply list_elem_of_fmap_2.
Qed.
Lemma inv_settle_pin x s : sys_inv B R L s → x ∈ settlements s →
  sys_inv B R L (with_pins (settle_run x :: pins s) (with_settlements (remove_one x (settlements s)) s)).
Proof.
  intros Hi Hx. open_inv Hi. constructor; unfold g_of, arcs_of; cbn; try done.
  - eapply counted_ext; [exact Iarcs|]. intros q. unfold arcs, g_of. cbn.
    pose proof (sumN_remove_one (λ x, one q (settle_run x)) x _ Hx). cbn beta in *. rewrite sumN_cons. lia.
  - destruct Isettle as (Hn1 & Hn2 & Hs & Hso).
    split_and!; [by apply NoDup_remove_one|by apply NoDup_remove_one| |done].
    intros y Hy. apply Hs. by eapply remove_one_elem.
Qed.

Lemma with_same s : with_shared (shared s) s = s.
Proof. by destruct s. Qed.
Lemma set_stop_id e : set_stop (stop_operation e) e = e.
Proof. by destruct e. Qed.

Lemma step_begin_stop mem id key s : sys_inv B R L s →
  ∃ s', sys_step (ReqBeginStop mem id key) s = Ret s' ∧ sys_inv B R L s'.
Proof.
  intros Hi. cbn [sys_step]. unfold begin_recoverable_stop.
  destruct (stop_key_validate key); [|cbn [obind]; rewrite with_same; eauto].
  destruct (stop_runs (registry (shared s)) !! key) as [bound|] eqn:Hkey.
  - (* a bound key *)
    unfold retry_stop. case_decide; [cbn [obind]; rewrite with_same; eauto|].
    destruct (runs (registry (shared s)) !! id) as [e|] eqn:He; [|cbn [obind]; rewrite with_same; eauto].
    case_decide; [cbn [obind]; rewrite with_same; eauto|].
    destruct (stop_operation e) as [r|]; [|cbn [obind]; rewrite with_same; eauto].
    case_decide; [cbn [obind]; rewrite with_same; eauto|].
    destruct (clone_ok (entry_run e) (shared s) (arcs_of s)) as (x & -> & Hd & _ & Hn).
    { apply Hi. } { by eapply arcs_entry. }
    cbn [obind flight_run]. eexists. split; [done|]. apply inv_rehold; [done|done|].
    eapply counted_ext; [exact Hn|]. intros q. unfold arcs_of. by rewrite arcs_pin.
  - (* a new key *)
    unfold admit_stop.
    destruct (runs (registry (shared s)) !! id) as [e|] eqn:He; [|cbn [obind]; rewrite with_same; eauto].
    case_decide as Hres; [cbn [obind]; rewrite with_same; eauto|].
    case_bool_decide as Hso; [cbn [obind]; rewrite with_same; eauto|].
    apply eq_None_not_Some in Hso.
    destruct mem; [|cbn [obind]; rewrite with_same; eauto].
    rewrite ByteBudget.reserve_spec. case_decide as Hfit; [|cbn [obind]; rewrite with_same; eauto].
    set (n := stop_receipt_charge key) in *. unfold deref.
    destruct (i_ids _ _ _ _ Hi id e He) as (c & Hc & _). cbn [heap upd_registry]. rewrite Hc. cbn [expect obind].
    pose proof (i_budget _ _ _ _ Hi) as (Hused & Hlim & Hmax). unfold g_of in Hused, Hlim, Hmax.
    destruct (native_control (the_run c)) as [nc|err].
    2:{ (* not a native Run: the receipt is refunded *)
      cbn [obind]. eexists. split; [done|]. cbn [drop_memory].
      match goal with |- sys_inv _ _ _ (with_shared ?x _) => assert (x = shared s) as -> end.
      { unfold upd_registry. cbn. rewrite ByteBudget.drop_spec by (cbn; lia). cbn. destruct s as [[[]] ]. cbn.
        f_equal. unfold set_control_budget. cbn. f_equal. destruct control_budget. cbn. f_equal. lia. }
      by rewrite with_same. }
    cbn [obind]. cbn [registry upd_registry set_cells stop_runs set_runs set_control_budget].
    rewrite bool_decide_true by done. cbn [check obind].
    set (cell := fresh (dom (cells (shared s)))).
    assert (cells (shared s) !! cell = None) as Hfresh by (apply not_elem_of_dom, is_fresh).
    pose proof (i_settle _ _ _ _ Hi) as (Hn1 & Hn2 & Hsx & Hsc).
    set (rec := {| stop_key := key; stop_cell := cell; stop_memory := n |}).
    match goal with |- context [clone_run _ ?x] => set (x1 := x) end.
    assert (sys_inv B R L (with_shared x1 s)) as Hi1.
    { apply (inv_stop id e (Some rec) (<[key := id]> (stop_runs (g_of s))) (<[cell := None]> (cells (shared s)))
        {| ByteBudget.limit := ByteBudget.limit (control_budget (g_of s));
           ByteBudget.used := ByteBudget.used (control_budget (g_of s)) + n |} s); try done.
      - intros x Hx. by eapply settled_other; [apply Hi|done|exact He|].
      - eapply stop_index_bind; try done. apply Hi.
      - intros k Hk. destruct (decide (k = cell)) as [->|]; [by rewrite lookup_insert_eq|by rewrite lookup_insert_ne].
      - intros x Hx. destruct (Hsx x Hx) as (? & ? & _ & _ & _ & _ & _ & _ & Hv).
        rewrite lookup_insert_ne; [done|]. intros Heq. rewrite <-Heq in Hv. congruence.
      - intros r [= <-]. cbn. rewrite lookup_insert_eq. eauto.
      - unfold budget_ok. cbn. unfold g_of in *.
        pose proof (msum_insert_Some stop_bytes (runs (registry (shared s))) id e (set_stop (Some rec) e) He) as Hm.
        unfold stop_bytes at 2 4 in Hm. rewrite Hso in Hm. cbn in Hm. split_and!; lia. }
    assert (runs (registry x1) !! id = Some (set_stop (Some rec) e)) as He1 by (cbn; by rewrite lookup_insert_eq).
    destruct (clone_ok (entry_run e) x1 (arcs_of (with_shared x1 s))) as (x2 & Hx2 & Hd2 & Hg2 & Hc2).
    { apply Hi1. }
    { apply (arcs_entry _ _ _ _ id (set_stop (Some rec) e)). exact He1. }
    rewrite Hx2. cbn [obind].
    assert (sys_inv B R L (with_pins (entry_run e :: pins s) (with_shared x2 s))) as Hi2.
    { apply (inv_rehold B R L x2 (entry_run e :: pins s) (with_shared x1 s) Hi1 Hd2).
      eapply counted_ext; [exact Hc2|]. intros q. unfold arcs_of. cbn. by rewrite arcs_pin. }
    set (s2 := with_pins _ (with_shared x2 s)) in *.
    destruct (clone_ok (entry_run e) x2 (arcs_of s2)) as (x3 & Hx3 & Hd3 & Hg3 & Hc3).
    { apply Hi2. } { apply arcs_pinned. by left. }
    rewrite Hx3. cbn [obind]. eexists. split; [done|]. cbn [flight_run].
    assert (sys_inv B R L (with_pins (entry_run e :: pins s2) (with_shared x3 s2))) as Hi3.
    { apply (inv_rehold B R L x3 (entry_run e :: pins s2) s2 Hi2 Hd3).
      eapply counted_ext; [exact Hc3|]. intros q. unfold arcs_of. cbn. symmetry. apply arcs_pin. }
    refine (inv_pin_settle _ (entry_run e) (entry_run e :: pins s) _ Hi3 _ _ _); [done|done|].
    assert (registry x3 = registry x1) as Hg31 by congruence.
    assert (cells x3 = <[cell := None]> (cells (shared s))) as Hcell.
    { rewrite (dr_cells _ _ Hd3), (dr_cells _ _ Hd2). done. }
    unfold g_of. cbn. rewrite Hg31, Hcell.
    pose proof (i_settle _ _ _ _ Hi1) as (_ & _ & Hsx1 & Hsc1). unfold g_of in Hsx1, Hsc1. cbn [with_shared shared settlements] in Hsx1, Hsc1.
    split_and!.
    + cbn [map]. constructor; [|done]. intros Hin. apply list_elem_of_fmap in Hin as (x & Hx & Hin).
      cbn in Hx. destruct (Hsx x Hin) as (e0 & r0 & He0 & _ & _ & Hso0 & _). rewrite <-Hx in He0.
      unfold g_of in He0. congruence.
    + cbn [map]. constructor; [|done]. intros Hin. apply list_elem_of_fmap in Hin as (x & Hx & Hin).
      cbn in Hx. destruct (Hsx x Hin) as (e0 & r0 & _ & _ & _ & _ & _ & _ & Hv). rewrite <-Hx in Hv. by pose proof (eq_trans (eq_sym Hfresh) Hv).
    + intros x [->|Hx]%elem_of_cons; [|by apply Hsx1].
      exists (set_stop (Some rec) e), rec. cbn. rewrite !lookup_insert_eq. split_and!; try done.
    + exact Hsc1.
Qed.

Lemma set_control_same s : upd_registry (set_control_budget (control_budget (registry s))) s = s.
Proof. by destruct s as [[]]. Qed.

Lemma step_settle x result s : sys_inv B R L s → enabled (ReqSettle x result) s →
  ∃ s', sys_step (ReqSettle x result) s = Ret s' ∧ sys_inv B R L s'.
Proof.
  intros Hi Hx. cbn [enabled] in Hx. pose proof (i_settle _ _ _ _ Hi) as (Hn1 & Hn2 & Hsx & Hsc).
  destruct (Hsx x Hx) as (e & r & He & Hres & Hp & Hso & Hk & Hcell & Hv).
  pose proof (inv_settle_pin x s Hi Hx) as Hi1.
  set (s1 := with_pins (settle_run x :: pins s) (with_settlements (remove_one x (settlements s)) s)) in *.
  cbn [sys_step]. unfold settle_recoverable_stop. unfold g_of in He. rewrite He. cbn [expect obind].
  rewrite Hso. cbn [expect obind]. rewrite Hk, Hcell, !bool_decide_true by done. cbn [check obind].
  assert (∀ x2, sys_inv B R L (with_shared x2 s1) → ∃ s',
    (let! x0 := drop_run (settle_run x) x2 in
     Ret (with_settlements (remove_one x (settlements s)) (with_shared x0 s))) = Ret s' ∧ sys_inv B R L s') as Hdrop.
  { intros x2 Hi2. destruct (step_unpin B R L (settle_run x) (with_shared x2 s1) Hi2) as (s' & Hs' & Hi').
    { by left. }
    cbn [sys_step] in Hs'. cbn in Hs'. destruct (drop_run (settle_run x) x2) as [x3|]; [|done].
    cbn [obind] in *. eexists. split; [done|]. injection Hs' as <-.
    rewrite decide_True in Hi' by done. exact Hi'. }
  assert (∀ y, y ∈ remove_one x (settlements s) → settle_id y ≠ settle_id x) as Hother.
  { intros y. by apply remove_one_distinct. }
  assert (∀ y, y ∈ remove_one x (settlements s) →
    <[settle_cell x := Some result]> (cells (shared s)) !! settle_cell y = Some None) as Hpend.
  { intros y Hy. rewrite lookup_insert_ne.
    - destruct (Hsx y) as (? & ? & _ & _ & _ & _ & _ & _ & Hvy); [by eapply remove_one_elem|done].
    - intros Heq. symmetry in Heq. by eapply (remove_one_distinct settle_cell x y). }
  assert (∀ k, is_Some (cells (shared s) !! k) →
    is_Some (<[settle_cell x := Some result]> (cells (shared s)) !! k)) as Hdom.
  { intros k Hsome. destruct (decide (k = settle_cell x)) as [->|]; [by rewrite lookup_insert_eq|by rewrite lookup_insert_ne]. }
  pose proof (i_budget _ _ _ _ Hi) as (Hused & Hlim & Hmax). unfold g_of in Hused, Hlim, Hmax.
  destruct (match result with Err failure => bool_decide (disposition failure = NotApplied) | Ok _ => false end).
  - cbn [drop_memory]. cbn [registry upd_registry stop_runs set_control_budget].
    rewrite (remove_key_ok (settle_key x) (settle_id x)).
    2:{ apply (i_stops _ _ _ _ Hi). exists e. split; [done|]. unfold stop_of. rewrite Hso. cbn. by rewrite Hk. }
    cbn [obind]. unfold settle_cell_with. cbn [cells upd_registry]. rewrite Hv. cbn [expect obind].
    rewrite bool_decide_true by done. cbn [check obind]. apply Hdrop.
    refine (inv_stop (settle_id x) e None (delete (settle_key x) (stop_runs (g_of s)))
      (<[settle_cell x := Some result]> (cells (shared s)))
      (ByteBudget.drop_permit (stop_memory r) (control_budget (g_of s))) s1 Hi1 He Hother _ Hdom Hpend _ _).
    + eapply stop_index_unbind; try done. apply Hi.
    + done.
    + unfold g_of. cbn. pose proof (msum_insert_Some stop_bytes _ (settle_id x) e (set_stop None e) He) as Hm.
      unfold stop_bytes at 2 4 in Hm. rewrite Hso in Hm. cbn in Hm.
      pose proof (msum_lookup_le stop_bytes _ _ _ He) as Hle. unfold stop_bytes at 1 in Hle. rewrite Hso in Hle.
      unfold budget_ok. rewrite ByteBudget.drop_spec by lia. cbn. split_and!; lia.
  - cbn [obind]. unfold settle_cell_with. rewrite Hv. cbn [expect obind].
    rewrite bool_decide_true by done. cbn [check obind]. apply Hdrop.
    assert (<[settle_id x := set_stop (stop_operation e) e]> (runs (g_of s)) = runs (g_of s)) as Hsame.
    { rewrite set_stop_id. by apply insert_id. }
    pose proof (inv_stop (settle_id x) e (stop_operation e) (stop_runs (g_of s))
      (<[settle_cell x := Some result]> (cells (shared s))) (control_budget (g_of s)) s1 Hi1 He Hother) as Hinv.
    change (g_of s1) with (g_of s) in Hinv. rewrite Hsame in Hinv.
    assert (set_stop_runs (stop_runs (g_of s)) (set_runs (runs (g_of s))
              (set_control_budget (control_budget (g_of s)) (g_of s))) = registry (shared s)) as Hreg.
    { unfold g_of. by destruct (registry (shared s)). }
    rewrite Hreg in Hinv. apply Hinv; try done; try apply Hi.
    intros r' Hr'. apply Hdom. by eapply Hsc.
Qed.

(** ** Entries that left *)

Lemma inv_garbage_pin e s : sys_inv B R L s → e ∈ garbage s →
  sys_inv B R L (with_outside (outside s + stop_bytes e)
    (with_pins (entry_run e :: pins s) (with_garbage (remove_one e (garbage s)) s))).
Proof.
  intros Hi He. open_inv Hi. constructor; unfold g_of, arcs_of; cbn; try done.
  - eapply counted_ext; [exact Iarcs|]. intros q. unfold arcs, g_of. cbn.
    pose proof (sumN_remove_one (λ e, one q (entry_run e)) e _ He). cbn beta in *. rewrite sumN_cons. lia.
  - destruct Ibudget as (Hu & Hl & Hm). unfold budget_ok.
    pose proof (sumN_remove_one stop_bytes e _ He). split_and!; lia.
Qed.
Lemma step_drop e s : sys_inv B R L s → enabled (ReqDrop e) s →
  ∃ s', sys_step (ReqDrop e) s = Ret s' ∧ sys_inv B R L s'.
Proof.
  intros Hi He. cbn [enabled] in He. pose proof (inv_garbage_pin e s Hi He) as Hi1.
  destruct (step_unpin B R L (entry_run e) _ Hi1) as (s2 & Hs2 & Hi2); [by left|].
  cbn [sys_step] in *. unfold drop_entry. cbn in Hs2.
  destruct (drop_run (entry_run e) (shared s)) as [x|]; [|done]. cbn [obind] in *.
  eexists. split; [done|]. injection Hs2 as <-. rewrite decide_True in Hi2 by done.
  unfold stop_bytes in Hi2. destruct (stop_operation e) as [r|]; cbn [fmap option_fmap option_map drop_memory].
  - destruct (step_refund B R L (stop_memory r) _ Hi2) as (s3 & Hs3 & Hi3); [cbn; lia|].
    cbn [sys_step] in Hs3. injection Hs3 as <-. cbn in Hi3. by rewrite N.add_sub in Hi3.
  - by rewrite N.add_0_r in Hi2.
Qed.
End stops.
