(* ===== verification/RegistryRemovalSteps.v ===== *)
(** * RegistryRemovalSteps

    Explicit removal: an entry is removed, or fenced for the store's decision, only
    when nothing else holds its Run, and an undecided fence keeps its entry. *)

From S2P Require Import Prelude.
From S2P Require Import Protocol.
From S2P Require Import Resources.
From S2P Require Import NativeControl.
From S2P Require Import Runs.
From S2P Require Import Registry.
From S2P Require Import RegistryQueries.
From S2P Require Import RegistrySpec.
From S2P Require Import RegistrySystem.
From S2P Require Import RegistryHeap.
From S2P Require Import RegistryRemoval.
From S2P Require Import RegistrySteps.
From S2P Require Import RegistryStopSteps.

(** ** Fewer entries *)

Lemma delete_all_sub {V} ids (m : gmap RunId V) : delete_all ids m ⊆ m.
Proof. apply map_subseteq_spec. intros j e. rewrite lookup_delete_all. by case_decide. Qed.
Lemma ids_sub m m' h : m' ⊆ m → ids_ok m h → ids_ok m' h.
Proof. intros Hs Hi id e He. apply Hi. by eapply lookup_weaken. Qed.
Lemma counters_sub m m' h cs : m' ⊆ m → counters_ok m h cs → counters_ok m' h cs.
Proof. intros Hs [H1 H2]. split; [|done]. intros id e p He. apply (H1 id). by eapply lookup_weaken. Qed.
Lemma names_sub m m' (c c' : gmap CreateOperationKey RunId) rs : m' ⊆ m → c' ⊆ c →
  names_ok m c rs → names_ok m' c' rs.
Proof.
  intros Hm Hc [H1 H2]. split; [|done]. intros t r Hr. destruct (H1 _ _ Hr) as [Hn Hk]. split.
  - by eapply lookup_weaken_None.
  - intros k Hkr. eapply lookup_weaken_None; [by apply Hk|done].
Qed.
Lemma settlements_sub ids m cs xs : (∀ x, x ∈ xs → settle_id x ∉ ids) →
  settlements_ok m cs xs → settlements_ok (delete_all ids m) cs xs.
Proof.
  intros Hids (Hi & Hc & Hx & Hs). split_and!; [done|done| |].
  - intros x Hin. destruct (Hx x Hin) as (e & r & He & Hrest). exists e, r.
    rewrite lookup_delete_all, decide_False by auto. done.
  - intros id e r He. rewrite lookup_delete_all in He. case_decide; [done|]. by apply (Hs id).
Qed.
(** A settlement's entry is held twice. *)
Lemma settled_not_single m es ps xs cs h x id e c : counted h (arcs m es ps xs) → settlements_ok m cs xs →
  m !! id = Some e → h !! entry_run e = Some c → strong c = 1 → x ∈ xs → settle_id x ≠ id.
Proof.
  intros Hn (_ & _ & Hx & _) He Hc Hs Hin <-. destruct (Hx x Hin) as (e' & r & He' & _ & Hp & _). simplify_eq.
  specialize (Hn (entry_run e)). rewrite Hc in Hn. destruct Hn as [Hn _].
  pose proof (arcs_settled m es ps xs _ e x He Hin (eq_sym Hp)). lia.
Qed.
Lemma owed_disjoint ids m r : (∀ j, j ∈ candidates r → j ∉ ids) → owed (delete_all ids m) r = owed m r.
Proof.
  intros Hd. unfold owed, released. case_match; [|done]. f_equal. apply sumN_ext. intros j Hj.
  unfold charge_of. by rewrite lookup_delete_all, decide_False by auto.
Qed.
Lemma fences_sub ids m rs : (∀ t r id, rs !! t = Some r → id ∈ candidates r → id ∉ ids) →
  fences_ok m rs → fences_ok (delete_all ids m) rs.
Proof.
  intros Hd [H1 H2]. split.
  - intros t r Hr. destruct (H1 _ _ Hr) as [Hnd Hc]. split; [done|]. intros id Hid.
    rewrite lookup_delete_all, decide_False by eauto. by apply Hc.
  - intros id e t He. rewrite lookup_delete_all in He. case_decide; [done|]. eauto.
Qed.
Lemma arcs_shrink ids m es gs ps xs q : NoDup ids → Forall2 (λ id e, m !! id = Some e) ids es →
  arcs (delete_all ids m) (es ++ gs) ps xs q = arcs m gs ps xs q.
Proof.
  intros Hnd He. unfold arcs. rewrite sumN_app.
  pose proof (msum_delete_all (λ e, one q (entry_run e)) ids es m Hnd He). lia.
Qed.
Lemma budget_shrink b ids m es gs n : NoDup ids → Forall2 (λ id e, m !! id = Some e) ids es →
  budget_ok b m gs n → budget_ok b (delete_all ids m) (es ++ gs) n.
Proof.
  intros Hnd He (Hu & Hl). unfold budget_ok. rewrite sumN_app.
  pose proof (msum_delete_all stop_bytes ids es m Hnd He). split; [lia|done].
Qed.
Lemma rest_eq g g' : rest g' = rest g →
  reservations g' = reservations g ∧ next_ticket g' = next_ticket g ∧
  record_capacity g' = record_capacity g ∧ live_capacity g' = live_capacity g ∧
  live_resources g' = live_resources g ∧ metadata_capacity g' = metadata_capacity g ∧
  control_budget g' = control_budget g.
Proof. unfold rest. intros [= ]. done. Qed.

Lemma removals_remove m id e rem : m !! id = Some e → removals_ok m rem →
  removals_ok (delete id m) (remove_one id rem).
Proof.
  intros He [Hnd Hr]. split.
  - pose proof (NoDup_remove_one (λ x, x) id rem) as Hn. rewrite !map_id in Hn. auto.
  - intros j. destruct (decide (j = id)) as [->|Hne].
    + rewrite lookup_delete_eq. split; [|naive_solver]. intros Hj.
      destruct (decide (id ∈ rem)) as [Hin|Hin].
      * pose proof (remove_one_distinct (λ x, x) id id rem) as Hd. rewrite map_id in Hd. by destruct (Hd Hnd Hin Hj).
      * by apply remove_one_elem in Hj.
    + rewrite lookup_delete_ne by done. rewrite <-Hr. split; [apply remove_one_elem|].
      clear -Hne. induction rem as [|y rem IH]; [done|]. cbn [remove_one].
      case_decide as Hd; rewrite elem_of_cons; intros [->|Hj]; try done; set_solver.
Qed.
Lemma remove_one_absent {A} `{EqDecision A} (x : A) l : x ∉ l → remove_one x l = l.
Proof.
  induction l as [|y l IH]; [done|]. intros Hx. cbn [remove_one].
  rewrite decide_False by set_solver. f_equal. set_solver.
Qed.

Section removal.
Context `{!UuidDisplay, !RunLayout, !StopLayout} (B R L : N).

(** One entry that no reservation fences leaves the registry. *)
Lemma inv_remove id e x s : sys_inv B R L s → runs (g_of s) !! id = Some e →
  (∀ t, residency e ≠ Collecting t) → (∀ y, y ∈ settlements s → settle_id y ≠ id) →
  shrinks [id] (shared s) x [e] →
  sys_inv B R L (with_removals (remove_one id (removals s)) (with_garbage (e :: garbage s) (with_shared x s))).
Proof.
  intros Hi He Hres Hset Hsh.
  pose proof (shrinks_sum metadata_charge _ _ _ _ (NoDup_singleton id) Hsh) as Hcharge.
  pose proof (shrinks_size _ _ _ _ (NoDup_singleton id) Hsh) as Hsize.
  destruct Hsh as [Hruns [Xk Xs Xm] Hrest Hsub _ (Hh & Hcs & Hks) Hes].
  apply rest_eq in Hrest as (Gr & Gt & Gc & Gl & Glr & Gm & Gb).
  open_inv Hi.
  assert (∀ t r j, reservations (registry (shared s)) !! t = Some r → j ∈ candidates r → j ∉ [id]) as Hfree.
  { intros t r j Hr Hj ->%list_elem_of_singleton. destruct (proj2 (proj1 Ifences t r Hr) id Hj) as (e' & He' & Hc).
    simplify_eq. by apply (Hres t). }
  constructor; unfold g_of, arcs_of; cbn [with_removals with_garbage with_shared shared owners garbage pins
    settlements removals outside]; try done;
    rewrite ?Gr, ?Gt, ?Gc, ?Gl, ?Glr, ?Gm, ?Gb, ?Hh, ?Hcs, ?Hks; try done.
  - rewrite Hruns. by apply fences_sub.
  - rewrite Hruns. by eapply removals_remove.
  - eapply names_sub; [|exact Hsub|exact Inames]. rewrite Hruns. apply delete_all_sub.
  - eapply ids_sub; [|done]. rewrite Hruns. apply delete_all_sub.
  - eapply counters_sub; [|done]. rewrite Hruns. apply delete_all_sub.
  - eapply counted_ext; [done|]. intros q. unfold g_of. cbn. rewrite Hruns. symmetry.
    by apply (arcs_shrink [id] _ [e] _ _ _ q (NoDup_singleton id)).
  - rewrite Hruns. apply settlements_sub; [|done]. intros y Hy ?%list_elem_of_singleton. by apply (Hset y).
  - rewrite Hruns. by apply (budget_shrink _ [id] _ [e] _ _ (NoDup_singleton id)).
  - unfold projected in *. rewrite (msum_ext _ (owed (runs (registry (shared s)))) (reservations _)).
    2:{ intros t r Hr. rewrite Hruns. apply owed_disjoint. intros j Hj. exact (Hfree t r j Hr Hj). }
    unfold charges in *. lia.
  - unfold records in *. lia.
Qed.

Lemma validate_ok busy id s : ids_ok (runs (registry s)) (heap s) →
  ∃ v, validate_removable_entry busy id s = Ret v ∧
    ∀ e, v = Ok e → runs (registry s) !! id = Some e ∧ residency e = Retained ∧
      ∃ c, heap s !! entry_run e = Some c ∧ strong c = 1 ∧ is_running (the_run c) = false ∧
           is_Some (collection_ordinal (busy (entry_run e)) (the_run c)).
Proof.
  intros Hi. unfold validate_removable_entry. destruct (runs (registry s) !! id) as [e|] eqn:He.
  2:{ eexists. split; [done|]. done. }
  case_decide as Hr; [eexists; by split|]. destruct (Hi _ _ He) as (c & Hc & _).
  unfold deref. rewrite Hc. cbn [expect obind].
  destruct (is_running (the_run c)) eqn:Hrun; [eexists; by split|].
  case_decide as Hs; [eexists; by split|].
  destruct (collection_ordinal _ _) eqn:Ho; [|eexists; by split].
  eexists. split; [done|]. intros e' [= <-]. split_and!; [done|done|]. exists c. rewrite Ho. split_and!; eauto.
Qed.

Lemma step_remove_memory busy busy' id s : sys_inv B R L s →
  ∃ s', sys_step (ReqRemoveMemory busy busy' id) s = Ret s' ∧ sys_inv B R L s'.
Proof.
  intros Hi. cbn [sys_step]. unfold remove_memory.
  destruct (validate_ok busy id (shared s) (i_ids _ _ _ _ Hi)) as (v & -> & Hv). cbn [obind].
  destruct v as [e|err]; [|cbn [obind]; rewrite with_same; eauto].
  destruct (Hv e eq_refl) as (He & Hres & c & Hc & Hone & _).
  destruct (detach_entry_ok busy' e (λ error, protocol_error Internal
        ("failed to detach Run " +:+ show_run_id id +:+ " descriptors for removal: " +:+ error))
        (shared s) c Hc) as (x & d & -> & Hd & Hg & Ha).
  cbn [obind]. pose proof (inv_drift B R L x s Hi Hd Ha) as Hi1.
  destruct d as [|err]; [|cbn [obind]; eauto].
  destruct (remove_entry_ok id e x) as (x' & -> & Hsh).
  { by rewrite Hg. } { constructor; apply Hi1. }
  cbn [obind]. eexists. split; [done|].
  assert (id ∉ removals s) as Hnr.
  { intros Hin. apply (i_removals _ _ _ _ Hi) in Hin as (e' & He' & Hr'). unfold g_of in He'. congruence. }
  pose proof (inv_remove id e x' (with_shared x s) Hi1) as Hfinal. cbn in Hfinal.
  rewrite remove_one_absent in Hfinal by done. apply Hfinal; try done.
  - unfold g_of. cbn. by rewrite Hg.
  - intros t Ht. congruence.
  - intros y Hy. eapply settled_not_single; [apply Hi|apply Hi|exact He|exact Hc|done|done].
Qed.

Lemma reseated_insert m id e x : m !! id = Some e → reseated m (<[id := set_residency x e]> m).
Proof.
  intros He. unfold reseated. rewrite fmap_insert. change (strip (set_residency x e)) with (strip e).
  rewrite <-fmap_insert. by rewrite insert_id.
Qed.
(** One entry's residency changes without a reservation. *)
Lemma fences_reseat_one m rs id e x : m !! id = Some e → (∀ t, residency e ≠ Collecting t) →
  (∀ t, x ≠ Collecting t) → fences_ok m rs → fences_ok (<[id := set_residency x e]> m) rs.
Proof.
  intros He Hr Hx [K1 K2]. split.
  - intros t r Ht. destruct (K1 _ _ Ht) as [Hnd Hc]. split; [done|]. intros j Hj.
    destruct (Hc j Hj) as (e' & He' & Hce). exists e'. split; [|done].
    rewrite lookup_insert_ne; [done|]. intros ->. simplify_eq. by apply (Hr t).
  - intros j e' t He' Hc. destruct (decide (j = id)) as [->|].
    + rewrite lookup_insert_eq in He'. simplify_eq. by destruct (Hx t).
    + rewrite lookup_insert_ne in He' by done. eauto.
Qed.
Lemma inv_reseat_one id e x rem s : sys_inv B R L s → runs (g_of s) !! id = Some e →
  (∀ t, residency e ≠ Collecting t) → (∀ t, x ≠ Collecting t) →
  removals_ok (<[id := set_residency x e]> (runs (g_of s))) rem →
  (∀ y, y ∈ settlements s → settle_id y = id → residency e = Retained → x = Retained) →
  sys_inv B R L (with_removals rem (with_shared
    (upd_registry (λ g, set_runs (<[id := set_residency x e]> (runs g)) g) (shared s)) s)).
Proof.
  intros Hi He Hr Hx Hrem Hset.
  refine (inv_reseat B R L (<[id := set_residency x e]> (runs (g_of s))) (reservations (g_of s))
    (next_ticket (g_of s)) (live_resources (g_of s)) (owners s) rem s Hi _ _ Hrem _ _ _ _ _ _ _); try apply Hi.
  - by apply reseated_insert.
  - apply fences_reseat_one; try done. apply Hi.
  - intros y e0 e' Hy He0 He' Hr0. destruct (decide (settle_id y = id)) as [Heq|Hne].
    + rewrite Heq in *. rewrite lookup_insert_eq in He'. simplify_eq. by apply (Hset y).
    + rewrite lookup_insert_ne in He' by done. congruence.
Qed.

Lemma removal_candidate_ok id e s : counters_ok (runs (registry s)) (heap s) (counters s) →
  runs (registry s) !! id = Some e → ∃ v, removal_candidate id e s = Ret v.
Proof.
  intros [Hk _] He. unfold removal_candidate. destruct (entry_key e); [|eauto].
  destruct (metadata_bytes e) as [p|] eqn:Hp; [|eauto]. destruct (Hk id e p He Hp) as [n Hn].
  unfold load_counter. rewrite Hn. cbn [expect obind]. eauto.
Qed.

Lemma step_begin_removal busy busy' id s : sys_inv B R L s →
  ∃ s', sys_step (ReqBeginRemoval busy busy' id) s = Ret s' ∧ sys_inv B R L s'.
Proof.
  intros Hi. cbn [sys_step]. unfold begin_persistent_removal.
  destruct (validate_ok busy id (shared s) (i_ids _ _ _ _ Hi)) as (v & -> & Hv). cbn [obind].
  destruct v as [e|err]; [|cbn [obind]; rewrite with_same; eauto].
  destruct (Hv e eq_refl) as (He & Hres & c & Hc & Hone & _).
  destruct (removal_candidate_ok id e (shared s) (i_counters _ _ _ _ Hi) He) as (w & ->). cbn [obind].
  destruct w as [cand|err]; [|cbn [obind]; rewrite with_same; eauto].
  destruct (detach_entry_ok busy' e (λ error, protocol_error Internal
        ("failed to fence Run " +:+ show_run_id id +:+ " for removal: " +:+ error))
        (shared s) c Hc) as (x & d & -> & Hd & Hg & Ha).
  cbn [obind]. pose proof (inv_drift B R L x s Hi Hd Ha) as Hi1.
  destruct d as [|err]; [|cbn [obind]; eauto].
  cbn [obind]. eexists. split; [done|].
  refine (inv_reseat_one id e Removing (id :: removals s) (with_shared x s) Hi1 _ _ _ _ _);
    unfold g_of; cbn; rewrite ?Hg; try done.
  - intros t. by rewrite Hres.
  - destruct (i_removals _ _ _ _ Hi) as [Hnd Hr]. unfold g_of in Hr. split.
    + constructor; [|done]. rewrite Hr. intros (e' & He' & Hre). congruence.
    + intros j. rewrite elem_of_cons, Hr. destruct (decide (j = id)) as [->|].
      * rewrite lookup_insert_eq. split; [|by left]. intros _. by eexists.
      * rewrite lookup_insert_ne by done. naive_solver.
  - intros y Hy Hid _. exfalso. revert Hid.
    eapply settled_not_single; [apply Hi|apply Hi|exact He|exact Hc|done|done].
Qed.

Lemma step_conclude id d s : sys_inv B R L s → enabled (ReqConcludeRemoval id d) s →
  ∃ s', sys_step (ReqConcludeRemoval id d) s = Ret s' ∧ sys_inv B R L s'.
Proof.
  intros Hi Hin. cbn [enabled] in Hin.
  destruct (proj1 (proj2 (i_removals _ _ _ _ Hi) id) Hin) as (e & He & Hres).
  cbn [sys_step]. unfold conclude_removal. unfold g_of in He. destruct d as [|err|err].
  - unfold commit_removal. rewrite He. cbn [fmap option_fmap option_map]. rewrite Hres, bool_decide_true by done.
    cbn [check obind]. destruct (remove_entry_ok id e (shared s) He) as (x & -> & Hsh).
    { constructor; apply Hi. }
    cbn [obind]. eexists. split; [done|]. apply (inv_remove id e x s); try done.
    + intros t Ht. congruence.
    + intros y Hy <-. destruct (i_settle _ _ _ _ Hi) as (_ & _ & Hx & _).
      destruct (Hx y Hy) as (e' & _ & He' & Hr' & _). unfold g_of in He'. congruence.
  - unfold abandon_removal. rewrite He, Hres, bool_decide_true by done. cbn [check obind].
    eexists. split; [done|].
    refine (inv_reseat_one id e Retained (remove_one id (removals s)) s Hi He _ _ _ _); try done.
    + intros t. by rewrite Hres.
    + destruct (removals_remove _ id e _ He (i_removals _ _ _ _ Hi)) as [Hnd Hr]. split; [done|]. intros j. rewrite Hr.
      destruct (decide (j = id)) as [->|].
      * rewrite lookup_delete_eq, lookup_insert_eq. naive_solver.
      * by rewrite lookup_delete_ne, lookup_insert_ne.
  - cbn [obind]. eexists. split; [done|]. cbn. by destruct s.
Qed.
End removal.
