(* ===== verification/RegistryPublishSteps.v ===== *)
(** * RegistryPublishSteps

    Publication: a reservation funds the new Run before its Backend starts, by spare
    capacity or by fencing collectable Runs; publishing consumes it, so the fenced
    entries leave as the new one enters. *)

From S2P Require Import Prelude.
From S2P Require Import Protocol.
From S2P Require Import Resources.
From S2P Require Import NativeControl.
From S2P Require Import Runs.
From S2P Require Import Registry.
From S2P Require Import RegistryQueries.
From S2P Require Import RegistrySpec.
From S2P Require Import RegistrySystem.
From S2P Require Import RegistryHeap.
From S2P Require Import RegistryRemoval.
From S2P Require Import RegistrySteps.
From S2P Require Import RegistryStopSteps.
From S2P Require Import RegistryRemovalSteps.

(** ** A new reservation *)

Lemma fences_fence m rs t r : fences_ok m rs → rs !! t = None → NoDup (candidates r) →
  (∀ id, id ∈ candidates r → ∃ e, m !! id = Some e ∧ residency e = Retained) →
  fences_ok (with_residency (Collecting t) (candidates r) m) (<[t := r]> rs).
Proof.
  intros [H1 H2] Ht Hnd Hc. split.
  - intros t' r' Hr'. destruct (decide (t' = t)) as [->|Hne].
    + rewrite lookup_insert_eq in Hr'. simplify_eq. split; [done|]. intros id Hid.
      destruct (Hc id Hid) as (e & He & _). rewrite lookup_with_residency, decide_True, He by done. by eexists.
    + rewrite lookup_insert_ne in Hr' by done. destruct (H1 _ _ Hr') as [Hnd' Hc']. split; [done|].
      intros id Hid. destruct (Hc' id Hid) as (e & He & Hres). exists e.
      rewrite lookup_with_residency, decide_False; [by rewrite He|].
      intros Hin. destruct (Hc id Hin) as (e' & He' & Hr). congruence.
  - intros id e t' He Hres. rewrite lookup_with_residency in He. case_decide as Hin.
    + destruct (Hc id Hin) as (e' & He' & _). rewrite He' in He. simpl in He. simplify_eq. cbn in Hres.
      injection Hres as <-. exists r. by rewrite lookup_insert_eq.
    + destruct (m !! id) as [x|] eqn:Hx; [|done]. simpl in He. simplify_eq.
      destruct (H2 _ _ _ Hx Hres) as (r' & Hr' & Hin'). exists r'. split; [|done].
      rewrite lookup_insert_ne; [done|]. intros ->. congruence.
Qed.
Lemma fence_unfence t ids m : (∀ id, id ∈ ids → ∃ e, m !! id = Some e ∧ residency e = Retained) →
  with_residency Retained ids (with_residency (Collecting t) ids m) = m.
Proof.
  intros Hids. apply map_eq. intros j. rewrite !lookup_with_residency. case_decide as Hj.
  - destruct (Hids j Hj) as (e & -> & Hr). simpl. f_equal. destruct e. by simplify_eq/=.
  - by destruct (m !! j).
Qed.
Lemma find_reservation_None key g t r : find_reservation key g = None →
  reservations g !! t = Some r → reserved_key r ≠ Some key.
Proof.
  unfold find_reservation. intros Hf Hr Hk. apply elem_of_map_to_list in Hr.
  assert ((t, r) ∈ filter (λ kv, reserved_key kv.2 = Some key) (map_to_list (reservations g))) as Hin.
  { apply list_elem_of_filter. done. }
  destruct (filter _ _); [by apply not_elem_of_nil in Hin|done].
Qed.
Lemma names_insert m c rs t r : names_ok m c rs → m !! new_run_id r = None →
  (∀ k, reserved_key r = Some k → c !! k = None) →
  (∀ t' r', rs !! t' = Some r' → new_run_id r' ≠ new_run_id r ∧
     ∀ k, reserved_key r = Some k → reserved_key r' ≠ Some k) →
  names_ok m c (<[t := r]> rs).
Proof.
  intros [H1 H2] Hid Hk Hfree. split.
  - intros t' r' Hr'. destruct (decide (t' = t)) as [->|Hne].
    + rewrite lookup_insert_eq in Hr'. by simplify_eq.
    + rewrite lookup_insert_ne in Hr' by done. eauto.
  - intros t1 t2 r1 r2 Hr1 Hr2 Hsame.
    assert (∀ t' r', t' ≠ t → <[t := r]> rs !! t' = Some r' → rs !! t' = Some r') as Hold
      by (intros t' r' Hne Hr'; by rewrite lookup_insert_ne in Hr').
    destruct (decide (t1 = t)) as [->|Ht1]; destruct (decide (t2 = t)) as [->|Ht2]; [done|..|eauto].
    + rewrite lookup_insert_eq in Hr1. simplify_eq. destruct (Hfree _ _ (Hold _ _ Ht2 Hr2)) as [Hn Hkk].
      destruct Hsame as [Hs|(k & Ha & Hb)]; [congruence|]. by destruct (Hkk k Ha).
    + rewrite lookup_insert_eq in Hr2. simplify_eq. destruct (Hfree _ _ (Hold _ _ Ht1 Hr1)) as [Hn Hkk].
      destruct Hsame as [Hs|(k & Ha & Hb)]; [congruence|]. by destruct (Hkk k Hb).
Qed.
Lemma owners_insert rs os n r o : owners_ok rs os n → new_metadata_bytes r = Some o.2 → n < u64_max →
  owners_ok (<[n + 1 := r]> rs) (<[n + 1 := o]> os) (n + 1).
Proof.
  intros (H1 & H2 & H3) Hr Hn. split_and!; [| |lia].
  - intros t. destruct (decide (t = n + 1)) as [->|]; [by rewrite !lookup_insert_eq|by rewrite !lookup_insert_ne].
  - intros t r' o' Hr' Ho'. destruct (decide (t = n + 1)) as [->|].
    + rewrite lookup_insert_eq in Hr'. rewrite lookup_insert_eq in Ho'. simplify_eq. split; [done|lia].
    + rewrite lookup_insert_ne in Hr' by done. rewrite lookup_insert_ne in Ho' by done. destruct (H2 _ _ _ Hr' Ho'). split; [done|lia].
Qed.
Lemma owners_fresh rs os n : owners_ok rs os n → rs !! (n + 1) = None ∧ os !! (n + 1) = None.
Proof.
  intros (H1 & H2 & H3). destruct (rs !! (n + 1)) as [r|] eqn:Hr.
  - destruct (proj2 (H1 (n + 1))) as [o Ho]; [eauto|]. destruct (H2 _ _ _ Hr Ho). lia.
  - split; [done|]. apply eq_None_not_Some. intros [o Ho]. destruct (proj1 (H1 (n + 1))); [eauto|congruence].
Qed.
Lemma owners_later rs os n n' : owners_ok rs os n → n ≤ n' → n' ≤ u64_max → owners_ok rs os n'.
Proof.
  intros (H1 & H2 & H3) Hn Hm. split_and!; [done| |done]. intros t r o Hr Ho.
  destruct (H2 _ _ _ Hr Ho). split; [done|lia].
Qed.
Lemma drifts_upd f x y : drifts x y → registry y = registry x →
  drifts (upd_registry f x) (upd_registry f y).
Proof.
  intros [_ Hc Hk Hh Hl _] Hg. constructor; cbn; rewrite ?Hg; try done; [by destruct (f _)|].
  rewrite Hg in Hl. lia.
Qed.

Section publication.
Context `{!UuidDisplay, !RunLayout, !StopLayout} (B R L : N).

Lemma inv_reserved t r n s : sys_inv B R L s → t = next_ticket (g_of s) + 1 →
  next_ticket (g_of s) < u64_max → new_metadata_bytes r = Some n →
  NoDup (candidates r) →
  (∀ id, id ∈ candidates r → ∃ e, runs (g_of s) !! id = Some e ∧ residency e = Retained ∧
     ∀ y, y ∈ settlements s → settle_id y ≠ id) →
  names_ok (runs (g_of s)) (creation_runs (g_of s)) (<[t := r]> (reservations (g_of s))) →
  projected (runs (g_of s)) (reservations (g_of s)) + owed (runs (g_of s)) r ≤ B →
  records (runs (g_of s)) (reservations (g_of s)) + record_burden r ≤ R →
  live_resources (g_of s) + 1 ≤ L →
  sys_inv B R L {| shared := upd_registry (λ g, set_live_resources (live_resources (g_of s) + 1)
      (set_reservations (<[t := r]> (reservations (g_of s))) t
         (set_runs (with_residency (Collecting t) (candidates r) (runs (g_of s))) g))) (shared s);
    owners := <[t := (false, n)]> (owners s); garbage := garbage s; pins := pins s;
    settlements := settlements s; removals := removals s; outside := outside s |}.
Proof.
  intros Hi -> Hlt Hn Hnd Hc Hnames Hp Hr Hl.
  pose proof (owners_fresh _ _ _ (i_owners _ _ _ _ Hi)) as [Ht Hto].
  apply inv_reseat; try done.
  - apply with_residency_reseated.
  - apply fences_fence; [apply Hi|done|done|]. intros id Hid. destruct (Hc id Hid) as (e & He & Hres & _). eauto.
  - eapply removals_reseat; [|apply Hi]. intros id. apply with_residency_removing; [done|].
    intros i Hin. destruct (Hc i Hin) as (e & He & Hres & _). exists e. split; [done|congruence].
  - apply owners_insert; [apply Hi|done|done].
  - intros x e e' Hx He He' Hres. rewrite lookup_with_residency in He'. case_decide as Hin.
    + destruct (Hc _ Hin) as (_ & _ & _ & Hy). by destruct (Hy x Hx).
    + rewrite He in He'. simpl in He'. by simplify_eq.
  - unfold projected in *. rewrite msum_insert_None by done. lia.
  - unfold records in *. rewrite msum_insert_None by done. lia.
  - rewrite map_size_insert_None by done. rewrite (i_live _ _ _ _ Hi). lia.
Qed.

(** What the selection promises to the reservation. *)
Lemma select_inv busy bytes s : sys_inv B R L s →
  projected (runs (g_of s)) (reservations (g_of s)) + bytes ≤ u64_max →
  ∃ k sel, select_publication_candidates busy (Some bytes) (shared s) = Ret {| evaluated := k; selected := sel |} ∧
    ∀ ids, sel = Ok ids → NoDup ids ∧
      (∀ id, id ∈ ids → ∃ e, runs (g_of s) !! id = Some e ∧ residency e = Retained ∧
         ∀ y, y ∈ settlements s → settle_id y ≠ id) ∧
      projected (runs (g_of s)) (reservations (g_of s)) + (bytes - released (runs (g_of s)) ids) ≤ B ∧
      records (runs (g_of s)) (reservations (g_of s)) + (if bool_decide (ids = []) then 1 else 0) ≤ R.
Proof.
  intros Hi Hp. pose proof Hi as Hi'. open_inv Hi'.
  destruct (select_ok busy (Some bytes) (shared s)) as [k ->].
  - done.
  - intros t r Hr. by apply (proj1 Ifences t r).
  - intros id e He. destruct (Iids id e He) as (c & Hc & _). eauto.
  - lia.
  - done.
  - exists k, (reference_selection busy (Some bytes) (shared s)). split; [done|].
    intros ids Hids. apply reference_selected in Hids as (Hnd & [Hne Hfund] & Hold). split_and!; [done| | |].
    + intros id Hid. destruct (oldest_first_elem _ _ _ _ (Hold id Hid)) as (e & c & He & Hc & Hres & Hone & _).
      exists e. split_and!; [done|done|]. intros y Hy.
      by eapply settled_not_single; [exact Iarcs|exact Isettle|exact He|exact Hc|..].
    + unfold to_fund_of in Hfund. lia.
    + destruct (bool_decide_reflect (ids = [])) as [Hnil|]; [|lia]. destruct (needs_record_of (registry (shared s))) eqn:Hn.
      * by destruct (Hne eq_refl).
      * unfold needs_record_of in Hn. apply bool_decide_eq_false in Hn. lia.
Qed.

Lemma step_reserve env id key req bytes s : sys_inv B R L s → enabled (ReqReserve env id key req bytes) s →
  ∃ s', sys_step (ReqReserve env id key req bytes) s = Ret s' ∧ sys_inv B R L s'.
Proof.
  intros Hi Hen. cbn [enabled] in Hen. destruct Hen as (Hfit & Hid & Hids & Hkey & Hlast). cbn [sys_step]. unfold reserve_publication.
  unfold g_of in *. rewrite bool_decide_true by done. cbn [check obind].
  assert (match key with Some k => bool_decide (creation_runs (registry (shared s)) !! k = None) | None => true end
          = true) as ->.
  { destruct key as [k|]; [|done]. apply bool_decide_eq_true. by apply Hkey. }
  cbn [check obind].
  assert (∃ x, (if live_exhausted (registry (shared s))
                then release_all (busy_release env) (map_to_list (runs (registry (shared s)))) (shared s)
                else Ret (shared s)) = Ret x ∧ drifts (shared s) x ∧ same_arcs (heap (shared s)) (heap x))
    as (x & -> & Hd & Ha).
  { destruct (live_exhausted _); [|exists (shared s); split; [done|split; [apply drifts_refl|done]]].
    apply release_all_ok; [|by apply (inv_live_ok B R L)]. intros i e He. apply elem_of_map_to_list in He.
    destruct (i_ids _ _ _ _ Hi i e He) as (c & Hc & _). eauto. }
  cbn [obind]. pose proof (inv_drift B R L x s Hi Hd Ha) as Hi1.
  assert (∃ l, registry x = set_live_resources l (registry (shared s))) as [l Hx] by (eexists; apply Hd).
  destruct (live_exhausted (registry x)) eqn:Hlive; [cbn [obind]; eauto|].
  apply bool_decide_eq_false in Hlive.
  set (s1 := with_shared x s) in *.
  destruct (select_inv (busy_select env) bytes s1 Hi1) as (k & sel & Hsel & Hok).
  { unfold g_of. cbn. by rewrite Hx. }
  change (shared s1) with x in Hsel. rewrite Hsel. cbn [obind selected].
  destruct sel as [ids|err]; [|cbn [obind]; eauto].
  destruct (Hok ids eq_refl) as (Hnd & Hcand & Hproj & Hrec). clear Hok Hsel.
  destruct (index_memory env); [|cbn [obind]; eauto].
  destruct (removed_memory env); [|cbn [obind]; eauto].
  assert (next_ticket (registry x) = next_ticket (registry (shared s))) as Hnext by (by rewrite Hx).
  unfold checked_add at 1. rewrite decide_True by (rewrite Hnext; lia). cbn [expect obind].
  set (t := next_ticket (registry x) + 1) in *.
  assert (∀ i, i ∈ ids → ∃ e, runs (registry x) !! i = Some e ∧ residency e = Retained) as Hret.
  { intros i Hin. destruct (Hcand i Hin) as (e & He & Hr & _). eauto. }
  rewrite fence_candidates_ok by done. cbn [obind].
  pose proof (owners_fresh _ _ _ (i_owners _ _ _ _ Hi1)) as [Ht _]. unfold g_of in Ht. cbn in Ht. fold t in Ht.
  cbn [registry upd_registry reservations set_runs]. rewrite bool_decide_true by done. cbn [check obind].
  set (r := {| new_run_id := id; reserved_key := key; reserved_request := req;
               new_metadata_bytes := Some bytes; candidates := ids |}).
  match goal with |- context [detach_candidates _ _ ?y] => set (x2 := y) end.
  assert (sys_inv B R L {| shared := upd_registry (λ g, set_live_resources (live_resources (registry x) + 1) g) x2;
    owners := <[t := (false, bytes)]> (owners s); garbage := garbage s; pins := pins s;
    settlements := settlements s; removals := removals s; outside := outside s |}) as Hi2.
  { refine (inv_reserved t r bytes s1 Hi1 _ _ _ Hnd Hcand _ _ _ _); unfold g_of; cbn; try done.
    - rewrite Hnext. lia.
    - apply names_insert; [apply Hi1|by rewrite Hx| |].
      + intros k' Hk'. rewrite Hx. by apply Hkey.
      + intros t' r' Hr'. rewrite Hx in Hr'. cbn in *. split; [by eapply Hids|]. intros k' Hk'.
        destruct (Hkey k' Hk') as [Hf _]. by eapply find_reservation_None.
    - pose proof (i_caps _ _ _ _ Hi1) as Hcaps. unfold g_of in Hcaps. cbn in Hcaps. lia. }
  destruct (detach_candidates_ok (busy_detach env) ids x2) as (x3 & d & -> & Hd3 & Hg3 & Ha3).
  { eapply i_ids in Hi2. exact Hi2. }
  cbn [obind]. destruct d as [|err].
  - (* funded *)
    cbn [obind ticket owner_metadata_bytes default]. eexists. split; [done|].
    pose proof (drifts_upd (λ g, set_live_resources (live_resources (registry x) + 1) g) _ _ Hd3 Hg3) as Hd4.
    pose proof (inv_drift B R L _ _ Hi2 Hd4 Ha3) as Hfinal.
    assert (upd_registry (λ g, set_live_resources (wrapping_add (live_resources g) 1) g) x3 =
            upd_registry (λ g, set_live_resources (live_resources (registry x) + 1) g) x3) as ->.
    { unfold upd_registry. f_equal. rewrite Hg3. cbn. f_equal. apply wrapping_add_ok.
      pose proof (i_caps _ _ _ _ Hi1) as Hcaps. unfold g_of in Hcaps. cbn in Hcaps. lia. }
    exact Hfinal.
  - (* a descriptor could not be detached: everything is restored *)
    unfold restore_reservation. rewrite Hg3. cbn [registry x2 upd_registry reservations set_reservations].
    rewrite lookup_insert_eq. cbn [expect obind candidates r].
    rewrite unfence_candidates_ok; [|done|].
    2:{ intros i Hin. cbn. rewrite Hg3. cbn. destruct (Hret i Hin) as (e & He & Hr).
        rewrite lookup_with_residency, decide_True, He by done. by eexists. }
    cbn [obind]. eexists. split; [done|].
    assert (sys_inv B R L (with_shared (upd_registry (λ g, set_reservations (reservations g) t g) x) s)) as Hi5.
    { refine (inv_reseat B R L (runs (registry x)) (reservations (registry x)) t (live_resources (registry x))
        (owners s) (removals s) s1 Hi1 _ _ _ _ _ _ _ _ _ _); try apply Hi1; try done.
      - eapply owners_later; [apply Hi1|unfold g_of; cbn; lia|]. rewrite <-Hnext in Hlast. lia.
      - unfold g_of. cbn. intros. congruence. }
    match goal with |- sys_inv _ _ _ (with_shared ?y _) => set (x5 := y) end.
    refine (inv_drift B R L x5 _ Hi5 _ _); cbn [shared with_shared].
    + assert (registry x5 = set_reservations (reservations (registry x)) t (registry x)) as Hg5.
      { unfold x5. cbn. rewrite Hg3. cbn. rewrite fence_unfence by done. rewrite delete_insert_id by done.
        by destruct (registry x). }
      destruct Hd3 as [_ Hc3 Hk3 Hh3 Hl3 _]. rewrite Hg3 in Hl3.
      constructor; rewrite ?Hg5; [cbn; by destruct (registry x)|exact Hc3|exact Hk3|exact Hh3| |done].
      change (heap x5) with (heap x3). change (heap x2) with (heap x) in Hl3. cbn. lia.
    + exact Ha3.
Qed.
End publication.
