(* ===== verification/RegistryConsumeSteps.v ===== *)
(** * RegistryConsumeSteps

    Publishing a funded Run: the permit moves into the Run, the reservation and its
    fenced entries leave together, and the new entry with its keys enters within
    what the reservation announced. *)

From S2P Require Import Prelude.
From S2P Require Import Protocol.
From S2P Require Import Resources.
From S2P Require Import NativeControl.
From S2P Require Import Runs.
From S2P Require Import Registry.
From S2P Require Import RegistryQueries.
From S2P Require Import RegistrySpec.
From S2P Require Import RegistrySystem.
From S2P Require Import RegistryHeap.
From S2P Require Import RegistryRemoval.
From S2P Require Import RegistrySteps.
From S2P Require Import RegistryStopSteps.
From S2P Require Import RegistryRemovalSteps.
From S2P Require Import RegistryPublishSteps.

(** The permit of a reservation enters a Run. *)
Lemma assign_ok p c s : heap s !! p = Some c → live_ok s →
  ∃ x, assign_live_permit p true s = Ret x ∧
    heap x = <[p := {| the_run := set_live_permit true (the_run c); strong := strong c |}]> (heap s) ∧
    registry x = set_live_resources (live_resources (registry x)) (registry s) ∧
    cells x = cells s ∧ counters x = counters s ∧
    heap_le (heap s) (heap x) ∧ same_arcs (heap s) (heap x) ∧
    live_resources (registry x) + permits (heap s) + 1 = live_resources (registry s) + permits (heap x) ∧
    live_resources (registry x) ≤ live_resources (registry s).
Proof.
  intros Hc [Hle Hmax]. unfold assign_live_permit, deref. rewrite Hc. cbn [expect obind].
  eexists. split; [done|]. rewrite drop_live_permit_heap.
  pose proof (write_heap_le p (set_live_permit true (the_run c)) s c Hc) as Hheap.
  pose proof (write_same_arcs p (set_live_permit true (the_run c)) s) as Harcs.
  pose proof (permits_write _ _ _ (set_live_permit true (the_run c)) Hc) as Hp.
  pose proof (permits_insert _ _ _ c Hc) as Hone. rewrite insert_id in Hone by done.
  pose proof (msum_lookup_le (λ c, b2n (live_permit (the_run c))) _ _ _ Hc) as Hlp. cbn beta in Hlp.
  fold (permits (heap s)) in Hlp.
  rewrite (write_eq _ _ _ _ Hc) in *. cbn [heap set_heap] in *. cbn [live_permit set_live_permit b2n] in Hp.
  destruct (live_permit (the_run c)) eqn:Hl; cbn [b2n] in *; cbn; rewrite ?wrapping_sub_ok by lia;
    (split_and!; [done|by destruct s as [[]]|done|done|by apply Hheap|done|lia|lia]).
Qed.

Section consume.
Context `{!UuidDisplay, !RunLayout, !StopLayout} (B R L : N).

Lemma fences_consume m rs t r : fences_ok m rs → rs !! t = Some r →
  fences_ok (delete_all (candidates r) m) (delete t rs).
Proof.
  intros [K1 K2] Hr. split.
  - intros t' r' Hr'. apply lookup_delete_Some in Hr' as [Hne Hr']. destruct (K1 _ _ Hr') as [Hnd Hc].
    split; [done|]. intros id Hid. destruct (Hc id Hid) as (e & He & Hres). exists e. split; [|done].
    rewrite lookup_delete_all, decide_False; [done|].
    intros Hin. destruct (proj2 (K1 _ _ Hr) id Hin) as (e' & He' & Hres'). congruence.
  - intros id e t' He Hres. rewrite lookup_delete_all in He. case_decide as Hin; [done|].
    destruct (K2 _ _ _ He Hres) as (r' & Hr' & Hin'). exists r'. split; [|done].
    apply lookup_delete_Some. split; [|done]. intros ->. by simplify_eq.
Qed.
Lemma removals_consume m ids rem : (∀ id, id ∈ ids → ∃ e, m !! id = Some e ∧ residency e ≠ Removing) →
  removals_ok m rem → removals_ok (delete_all ids m) rem.
Proof.
  intros Hids. apply removals_reseat. intros id. rewrite lookup_delete_all. case_decide as Hin; [|done].
  destruct (Hids id Hin) as (e & He & Hr). split; [by intros (? & ? & _)|]. intros (e' & He' & Hr'). congruence.
Qed.
(** What a consumed reservation leaves room for. *)
Lemma projected_consume m rs t r n : fences_ok m rs → rs !! t = Some r → new_metadata_bytes r = Some n →
  charges (delete_all (candidates r) m) + released m (candidates r) = charges m →
  projected (delete_all (candidates r) m) (delete t rs) + n ≤ projected m rs.
Proof.
  intros [K1 _] Hr Hn Hc.
  assert (owed m r = n - released m (candidates r)) as Ho by (unfold owed; by rewrite Hn).
  rewrite (projected_delete m rs t r Hr), Ho. unfold projected.
  rewrite (msum_ext (owed (delete_all _ _)) (owed m)).
  - lia.
  - intros t' r' Hr'. apply lookup_delete_Some in Hr' as [Hne Hr']. apply owed_disjoint. intros j Hj Hin.
    destruct (proj2 (K1 _ _ Hr) j Hin) as (e & He & He1). destruct (proj2 (K1 _ _ Hr') j Hj) as (e' & He' & He2).
    congruence.
Qed.

Lemma consume_ok t p r n c s : sys_inv B R L s → owners s !! t = Some (false, n) →
  reservations (g_of s) !! t = Some r → heap (shared s) !! p = Some c →
  ∃ xa x es, assign_live_permit p true (shared s) = Ret xa ∧
    consume_reservation (owner_of t n) (new_run_id r) (reserved_key r) xa = Ret (x, es, reserved_key r) ∧
    sys_inv B R L (with_garbage (es ++ garbage s) (with_owners (delete t (owners s)) (with_shared x s))) ∧
    heap x = <[p := {| the_run := set_live_permit true (the_run c); strong := strong c |}]> (heap (shared s)) ∧
    counters x = counters (shared s) ∧ reservations (registry x) = delete t (reservations (g_of s)) ∧
    runs (registry x) ⊆ runs (g_of s) ∧ creation_runs (registry x) ⊆ creation_runs (g_of s) ∧
    projected (runs (registry x)) (reservations (registry x)) + n ≤ B ∧
    records (runs (registry x)) (reservations (registry x)) + 1 ≤ R.
Proof.
  intros Hi Ho Hr Hc. destruct (assign_ok p c (shared s) Hc (inv_live_ok B R L s Hi))
    as (xa & Hxa & Hha & Hga & Hca & Hka & Hle & Harcs & Hlive & Hll).
  exists xa. assert (∃ l, registry xa = set_live_resources l (registry (shared s))) as [l Hg] by eauto.
  destruct (i_fences _ _ _ _ Hi) as [Hf1 _]. unfold g_of in *. destruct (Hf1 _ _ Hr) as [Hnd Hcand].
  set (xb := upd_registry (λ g, set_reservations (delete t (reservations g)) (next_ticket g) g) xa).
  destruct (remove_candidates_ok t (candidates r) xb) as (x & es & Hrem & Hsh); [done|..].
  { unfold xb. constructor; cbn; rewrite Hg; apply Hi. }
  { unfold xb. cbn. rewrite Hg. done. }
  pose proof (owners_delete _ _ _ t (i_owners _ _ _ _ Hi)) as Hos. unfold g_of in Hos.
  destruct (i_owners _ _ _ _ Hi) as (_ & Hmeta & _). destruct (Hmeta _ _ _ Hr Ho) as [Hn _]. cbn in Hn.
  pose proof (shrinks_sum metadata_charge _ _ _ _ Hnd Hsh) as Hcharge.
  pose proof (shrinks_size _ _ _ _ Hnd Hsh) as Hsize.
  rewrite (shrinks_released _ _ _ _ Hnd Hsh) in Hcharge.
  pose proof (size_delete_owner _ _ _ Ho) as Hown.
  destruct Hsh as [Hruns [Xk Xs Xm] Hrest Hsub _ (Hh & Hcs & Hks) Hes].
  apply rest_eq in Hrest as (Gr & Gt & Gc & Gl & Glr & Gm & Gb).
  unfold xb in *. cbn [registry upd_registry heap cells counters runs set_reservations] in *. cbn in Gr, Gt, Gc, Gl, Glr, Gm, Gb, Hsub.
  rewrite Hg in *. cbn in *. rewrite Hruns in Hcharge.
  pose proof (projected_consume _ _ t r n (i_fences _ _ _ _ Hi) Hr Hn Hcharge) as Hproj.
  assert (records (runs (registry x)) (reservations (registry x)) + 1 ≤
          records (runs (registry (shared s))) (reservations (registry (shared s)))) as Hrec.
  { rewrite (records_delete _ _ t r Hr). unfold records, record_burden. rewrite Gr.
    destruct (candidates r); [rewrite len_nil in Hsize; simpl; lia|]. rewrite len_cons in Hsize. simpl. lia. }
  open_inv Hi. exists x, es. split_and!.
  - done.
  - unfold consume_reservation. cbn [ticket owner_of expect obind]. rewrite Hg. cbn. rewrite Hr. cbn [expect obind].
    rewrite !bool_decide_true by done. cbn [check obind removed]. rewrite Hrem. done.
  - constructor; unfold g_of, arcs_of; cbn [with_removals with_garbage with_owners with_shared shared owners garbage pins
      settlements removals outside]; try done;
    rewrite ?Gr, ?Gt, ?Gc, ?Gl, ?Glr, ?Gm, ?Gb, ?Hh, ?Hcs, ?Hks, ?Hka, ?Hca; try done.
    + rewrite Hruns. by apply fences_consume.
    + rewrite Hruns. apply removals_consume; [|done]. intros id Hid. destruct (Hcand id Hid) as (e & He & Hre).
      exists e. split; [done|congruence].
    + eapply names_sub; [|exact Hsub|by apply names_delete]. rewrite Hruns. apply delete_all_sub.
    + eapply ids_sub; [|by eapply ids_same]. rewrite Hruns. apply delete_all_sub.
    + eapply counters_sub; [|by eapply counters_drift]. rewrite Hruns. apply delete_all_sub.
    + eapply counted_same; [done|]. eapply counted_ext; [done|]. intros q. unfold g_of. cbn. rewrite Hruns. symmetry.
      by apply arcs_shrink.
    + rewrite Hruns. apply settlements_sub; [|done]. intros y Hy Hin. destruct Isettle as (_ & _ & Hx & _).
      destruct (Hx y Hy) as (e & _ & He & Hre & _). destruct (Hcand _ Hin) as (e' & He' & Hre'). congruence.
    + rewrite Hruns. by apply budget_shrink.
    + rewrite Hruns. lia.
    + rewrite Gr in Hrec. lia.
    + lia.
    + lia.
  - by rewrite Hh.
  - by rewrite Hks, Hka.
  - done.
  - rewrite Hruns. apply delete_all_sub.
  - done.
  - rewrite Gr, Hruns. lia.
  - lia.
Qed.

(** The new entry takes a pin's place. *)
Lemma inv_insert p id c e keys s : sys_inv B R L s → runs (g_of s) !! id = None → p ∈ pins s →
  heap (shared s) !! p = Some c → run_id (the_run c) = id → entry_run e = p →
  stop_operation e = None → residency e = Retained →
  (∀ q, metadata_bytes e = Some q → is_Some (counters (shared s) !! q)) →
  projected (runs (g_of s)) (reservations (g_of s)) + metadata_charge e ≤ B →
  records (runs (g_of s)) (reservations (g_of s)) + 1 ≤ R →
  key_index (<[id := e]> (runs (g_of s))) keys →
  (∀ t r, reservations (g_of s) !! t = Some r → new_run_id r ≠ id ∧
     ∀ k, reserved_key r = Some k → keys !! k = None) →
  sys_inv B R L (with_pins (remove_one p (pins s)) (with_shared (upd_registry (λ g,
    set_creation_runs keys (set_runs (<[id := e]> (runs g))
      (set_retained_metadata (retained_metadata_bytes g + metadata_charge e) g))) (shared s)) s)).
Proof.
  intros Hi Hid Hp Hc Hrun He Hso Hre Hmeta Hproj Hrec Hkeys Hnames. open_inv Hi.
  assert (∀ j x, runs (registry (shared s)) !! j = Some x → j ≠ id) as Hne by (intros j x Hj ->; congruence).
  constructor; unfold g_of, arcs_of; cbn; try done.
  - by apply stop_index_insert.
  - destruct Ifences as [K1 K2]. split.
    + intros t r Hr. destruct (K1 _ _ Hr) as [Hnd Hcand]. split; [done|]. intros j Hj.
      destruct (Hcand j Hj) as (x & Hx & Hcx). exists x. by rewrite lookup_insert_ne by (symmetry; eauto).
    + intros j x t Hx Hcx. destruct (decide (j = id)) as [->|].
      * rewrite lookup_insert_eq in Hx. simplify_eq. congruence.
      * rewrite lookup_insert_ne in Hx by done. eauto.
  - eapply removals_reseat; [|done]. intros j. destruct (decide (j = id)) as [->|].
    + rewrite lookup_insert_eq, Hid. split; [|naive_solver]. intros (x & [= <-] & Hx). congruence.
    + by rewrite lookup_insert_ne.
  - destruct Inames as [K1 K2]. split; [|done]. intros t r Hr. destruct (Hnames _ _ Hr) as [Hn Hk].
    destruct (K1 _ _ Hr) as [Hm _]. rewrite lookup_insert_ne by done. done.
  - intros j x Hx. destruct (decide (j = id)) as [->|].
    + rewrite lookup_insert_eq in Hx. simplify_eq. eauto.
    + rewrite lookup_insert_ne in Hx by done. eauto.
  - destruct Icounters as [K1 K2]. split; [|done]. intros j x q Hx Hq. destruct (decide (j = id)) as [->|].
    + rewrite lookup_insert_eq in Hx. simplify_eq. eauto.
    + rewrite lookup_insert_ne in Hx by done. eauto.
  - eapply counted_ext; [exact Iarcs|]. intros q. unfold g_of. rewrite (arcs_unpin _ _ p) by done.
    unfold arcs. rewrite (msum_insert_None (λ e, one q (entry_run e)) _ _ _ Hid). rewrite He. lia.
  - destruct Isettle as (Hn1 & Hn2 & Hs & Hsc). split_and!; [done|done| |].
    + intros y Hy. destruct (Hs y Hy) as (x & r & Hx & Hrest). exists x, r.
      by rewrite lookup_insert_ne by (symmetry; eauto).
    + intros j x r Hx Hr. destruct (decide (j = id)) as [->|].
      * rewrite lookup_insert_eq in Hx. simplify_eq.
      * rewrite lookup_insert_ne in Hx by done. eauto.
  - destruct Ibudget as (Hu & Hl). unfold budget_ok. rewrite msum_insert_None by done.
    unfold stop_bytes at 1. rewrite Hso. split; [lia|done].
  - rewrite Imetadata. unfold charges. rewrite msum_insert_None by done. lia.
  - unfold projected, charges in *. rewrite (msum_insert_None metadata_charge) by done.
    rewrite (msum_ext (owed (<[id:=e]> _)) (owed (runs (registry (shared s))))); [lia|].
    intros t r Hr. unfold owed, released. case_match; [|done]. f_equal. apply sumN_ext. intros j Hj.
    destruct (proj2 (proj1 Ifences t r Hr) j Hj) as (x & Hx & _).
    unfold charge_of. by rewrite lookup_insert_ne by (symmetry; eauto).
  - unfold records in *. rewrite map_size_insert_None by done. lia.
Qed.

Lemma fresh_counter n s : counters s !! (new_counter n s).2 = None.
Proof. apply not_elem_of_dom, is_fresh. Qed.

(** The entry's counter: the durable one, or a new one. *)
Lemma counter_ok d n x s : sys_inv B R L s → x = shared s →
  (∀ d', d = Some d' → is_Some (counters x !! metadata_owner d')) →
  ∃ x' owner, match d with Some d => (x, metadata_owner d) | None => new_counter n x end = (x', owner) ∧
    sys_inv B R L (with_shared x' s) ∧ is_Some (counters x' !! owner) ∧
    registry x' = registry x ∧ heap x' = heap x ∧
    (∀ d', d = Some d' → x' = x ∧ owner = metadata_owner d').
Proof.
  intros Hi -> Hd. destruct d as [d|].
  - exists (shared s), (metadata_owner d). rewrite with_same. split_and!; eauto. intros d' [= <-]. done.
  - unfold new_counter. eexists _, _. split; [done|]. split_and!; try done.
    + destruct (step_counter B R L (fresh (dom (counters (shared s)))) n s Hi) as (s' & Hs & Hi').
      cbn [sys_step] in Hs. injection Hs as <-. done.
    + cbn. rewrite lookup_insert_eq. eauto.
Qed.

Lemma step_publish t p key s : sys_inv B R L s → enabled (ReqPublish t p key) s →
  ∃ s', sys_step (ReqPublish t p key) s = Ret s' ∧ sys_inv B R L s'.
Proof.
  intros Hi (n & r & c & Ho & Hr & Hkey & Hp & Hc & Hid & Hcharge).
  destruct (consume_ok t p r n c s Hi Ho Hr Hc)
    as (xa & x & es & Hxa & Hcons & Hi1 & Hheap & Hcnt & Hres & Hsub & Hksub & Hproj & Hrec).
  destruct (i_names _ _ _ _ Hi) as [Hn1 Hn2]. destruct (Hn1 _ _ Hr) as [Hfree Hkfree].
  pose proof (Hkfree _ Hkey) as Hk. unfold g_of in *.
  cbn [sys_step]. rewrite Ho. cbn [expect obind]. unfold publish_creation, deref. rewrite Hc. cbn [expect obind].
  rewrite Hid, Hk, Hfree, !bool_decide_true by done. cbn [check obind owner_of permit owner_metadata_bytes snd].
  rewrite Hxa. cbn [obind]. rewrite <-Hkey. change {| ticket := Some t; removed := []; permit := true;
    owner_metadata_bytes := n |} with (owner_of t n). rewrite Hcons. cbn [obind].
  set (s1 := with_garbage _ _) in Hi1.
  destruct (counter_ok (binding_durable (persistence (the_run c))) n x s1 Hi1 eq_refl) as
    (x' & owner & -> & Hi2 & Hown & Hg & Hh & Hdur).
  { intros d Hd. rewrite Hcnt. destruct (i_counters _ _ _ _ Hi) as [_ Hk2]. by eapply Hk2. }
  set (charge := (if decide _ then _ else _)).
  assert (∃ m, charge = Ret m ∧ m ≤ n) as (m & -> & Hm).
  { subst charge. case_decide as Hcap; [|eauto]. destruct (Hcharge Hcap) as (d & k & Hd & Hdk & Hle).
    destruct (Hdur d Hd) as [-> ->]. unfold load_counter. rewrite Hcnt, Hdk. cbn [expect obind].
    pose proof (i_caps _ _ _ _ Hi) as Hcaps.
    rewrite plus_u64_ok by lia. cbn [obind]. rewrite plus_u64_ok by lia. eexists. split; [done|lia]. }
  cbn [obind]. unfold lift_registry, insert_entry. cbn [metadata_charge].
  assert (retained_metadata_bytes (registry x') + m ≤ u64_max) as Hfit.
  { pose proof (i_metadata _ _ _ _ Hi2) as Hmd. unfold g_of in Hmd. cbn in Hmd. rewrite Hmd, Hg.
    pose proof (i_caps _ _ _ _ Hi) as Hcaps. unfold projected in Hproj. lia. }
  rewrite plus_u64_ok by done. cbn [obind]. eexists. split; [done|].
  assert (runs (registry x) !! new_run_id r = None) as Hnone by (by eapply lookup_weaken_None).
  assert (creation_runs (registry x) !! key = None) as Hknone by (by eapply lookup_weaken_None).
  refine (inv_insert p (new_run_id r) _ {| entry_run := p; entry_key := reserved_key r; stop_operation := None;
      metadata_bytes := Some owner; metadata_charge := m; residency := Retained |}
    (<[key := new_run_id r]> (creation_runs (registry x'))) _ Hi2 _ Hp _ _ _ _ _ _ _ _ _ _);
    unfold g_of; cbn; rewrite ?Hg, ?Hh, ?Hheap, ?lookup_insert_eq; try done.
  - intros q [= <-]. done.
  - lia.
  - apply key_index_insert; try done. pose proof (i_keys _ _ _ _ Hi2) as Hki. unfold g_of in Hki. cbn in Hki.
    by rewrite Hg in Hki.
  - intros t' r' Hr'. rewrite Hres in Hr'. apply lookup_delete_Some in Hr' as [Hne Hr'].
    split; [intros Heq; apply Hne; symmetry; eapply (Hn2 t' t); eauto|].
    intros k Hk'. rewrite lookup_insert_ne.
    + destruct (Hn1 _ _ Hr') as [_ Hkk]. eapply lookup_weaken_None; [by apply Hkk|done].
    + intros <-. apply Hne. symmetry. eapply (Hn2 t' t); eauto.
Qed.

Lemma step_publish_unkeyed t p s : sys_inv B R L s → enabled (ReqPublishUnkeyed t p) s →
  ∃ s', sys_step (ReqPublishUnkeyed t p) s = Ret s' ∧ sys_inv B R L s'.
Proof.
  intros Hi (n & r & c & Ho & Hr & Hkey & Hp & Hc & Hid).
  destruct (consume_ok t p r n c s Hi Ho Hr Hc)
    as (xa & x & es & Hxa & Hcons & Hi1 & Hheap & Hcnt & Hres & Hsub & Hksub & Hproj & Hrec).
  destruct (i_names _ _ _ _ Hi) as [Hn1 Hn2]. destruct (Hn1 _ _ Hr) as [Hfree _]. unfold g_of in *.
  cbn [sys_step]. rewrite Ho. cbn [expect obind]. unfold publish_unkeyed, deref. rewrite Hc. cbn [expect obind].
  rewrite Hid. cbn [owner_of permit owner_metadata_bytes snd]. rewrite Hxa. cbn [obind]. rewrite Hkey in Hcons.
  change {| ticket := Some t; removed := []; permit := true; owner_metadata_bytes := n |} with (owner_of t n).
  rewrite Hcons. cbn [obind]. rewrite bool_decide_true by done. cbn [check obind].
  set (s1 := with_garbage _ _) in Hi1.
  destruct (counter_ok None n x s1 Hi1 eq_refl) as (x' & owner & Hnew & Hi2 & Hown & Hg & Hh & _); [done|].
  rewrite Hnew. assert (runs (registry x) !! new_run_id r = None) as Hnone by (by eapply lookup_weaken_None).
  rewrite Hg, Hnone, bool_decide_true by done. cbn [check obind]. unfold lift_registry, insert_entry. cbn [metadata_charge].
  assert (retained_metadata_bytes (registry x') + n ≤ u64_max) as Hfit.
  { pose proof (i_metadata _ _ _ _ Hi2) as Hmd. unfold g_of in Hmd. cbn in Hmd. rewrite Hmd, Hg.
    pose proof (i_caps _ _ _ _ Hi) as Hcaps. unfold projected in Hproj. lia. }
  rewrite plus_u64_ok by done. cbn [obind]. eexists. split; [done|].
  refine (inv_insert p (new_run_id r) _ {| entry_run := p; entry_key := None; stop_operation := None;
      metadata_bytes := Some owner; metadata_charge := n; residency := Retained |}
    (creation_runs (registry x')) _ Hi2 _ Hp _ _ _ _ _ _ _ _ _ _);
    unfold g_of; cbn; rewrite ?Hg, ?Hh, ?Hheap, ?lookup_insert_eq; try done.
  - intros q [= <-]. done.
  - apply key_index_insert_unkeyed; try done. pose proof (i_keys _ _ _ _ Hi2) as Hki. unfold g_of in Hki. cbn in Hki.
    by rewrite Hg in Hki.
  - intros t' r' Hr'. rewrite Hres in Hr'. apply lookup_delete_Some in Hr' as [Hne Hr'].
    split; [intros Heq; apply Hne; symmetry; eapply (Hn2 t' t); eauto|].
    intros k Hk'. destruct (Hn1 _ _ Hr') as [_ Hkk]. eapply lookup_weaken_None; [by apply Hkk|done].
Qed.
End consume.

Definition shared_new (g : RegistryState) : Shared :=
  {| registry := g; heap := ∅; cells := ∅; counters := ∅ |}.
Definition sys_new (retained live : option N) (metadata control : N) : Sys :=
  {| shared := shared_new (registry_new retained live metadata control);
     owners := ∅; garbage := []; pins := []; settlements := []; removals := []; outside := 0 |}.

Section reach.
Context `{!UuidDisplay, !RunLayout, !StopLayout} (B R L : N).

(** What recovery charges for a Run whose counter reads [n]. *)
Definition recovered_charge (n : N) (r : Run) : N :=
  n + resident_run_owner_bytes + resident_metadata_bytes r.

(** Startup: load a Run of the store, then recover it under its key.  [B], [R] and
    [L] cover the configured capacities and whatever was recovered. *)
Inductive booted : Sys → Prop :=
  | booted_new retained live metadata control :
      metadata ≤ B → B ≤ u64_max → default usize_max retained ≤ R → R ≤ u64_max →
      default usize_max live ≤ L → L ≤ u64_max → control ≤ u64_max →
      booted (sys_new retained live metadata control)
  | booted_counter s p n : booted s →
      booted (with_shared (set_counters (<[p := n]> (counters (shared s))) (shared s)) s)
  | booted_load s p r : booted s → heap (shared s) !! p = None → live_permit r = false →
      (∀ d, binding_durable (persistence r) = Some d → is_Some (counters (shared s) !! metadata_owner d)) →
      booted (with_pins (p :: pins s) (with_shared
        (set_heap (<[p := {| the_run := r; strong := 1 |}]> (heap (shared s))) (shared s)) s))
  | booted_recover s p c key counter n x : booted s → p ∈ pins s → heap (shared s) !! p = Some c →
      live_permit (the_run c) = false → reservations (g_of s) = ∅ →
      runs (g_of s) !! run_id (the_run c) = None → creation_runs (g_of s) !! key = None →
      counters (shared s) !! counter = Some n →
      projected (runs (g_of s)) (reservations (g_of s)) + recovered_charge n (the_run c) ≤ B →
      records (runs (g_of s)) (reservations (g_of s)) + 1 ≤ R → live_resources (g_of s) + 1 ≤ L →
      recover_run (key, p, counter) (shared s) = Ret x →
      booted (with_pins (remove_one p (pins s)) (with_shared x s)).

Definition moves (s s' : Sys) : Prop := ∃ q, enabled q s ∧ sys_step q s = Ret s'.

Lemma inv_new retained live metadata control :
  metadata ≤ B → B ≤ u64_max → default usize_max retained ≤ R → R ≤ u64_max →
  default usize_max live ≤ L → L ≤ u64_max → control ≤ u64_max →
  sys_inv B R L (sys_new retained live metadata control).
Proof.
  intros. constructor; unfold g_of, arcs_of; cbn; try done.
  - intros k id. rewrite !lookup_empty. naive_solver.
  - intros k id. rewrite !lookup_empty. naive_solver.
  - split; [constructor|]. intros id. rewrite elem_of_nil, lookup_empty. naive_solver.
  - split_and!; [|intros; simplify_map_eq|lia]. intros t. by rewrite !lookup_empty.
  - split_and!; [constructor|constructor|intros x Hx; by apply not_elem_of_nil in Hx|].
    intros id e r He. simplify_map_eq.
  - unfold budget_ok. cbn. split_and!; [done|lia|done].
  - unfold projected, charges. rewrite !msum_empty. lia.
  - unfold records. rewrite msum_empty, map_size_empty. lia.
  - lia.
Qed.

(** A live permit granted together with its unit. *)
Lemma inv_grant p c s : sys_inv B R L s → heap (shared s) !! p = Some c → live_permit (the_run c) = false →
  live_resources (g_of s) + 1 ≤ L →
  sys_inv B R L (with_shared (upd_registry (λ g, set_live_resources (live_resources g + 1) g)
    (write_run p (set_live_permit true (the_run c)) (shared s))) s).
Proof.
  intros Hi Hc Hl Hle. pose proof (write_heap_le p (set_live_permit true (the_run c)) _ c Hc) as Hheap.
  pose proof (write_same_arcs p (set_live_permit true (the_run c)) (shared s)) as Harcs.
  pose proof (permits_write _ _ _ (set_live_permit true (the_run c)) Hc) as Hp. rewrite Hl in Hp. cbn in Hp.
  rewrite (write_eq _ _ _ _ Hc) in *. open_inv Hi.
  constructor; unfold g_of, arcs_of; cbn; try done.
  - eapply ids_same; [by apply Hheap|done|done].
  - eapply counters_drift; [by apply Hheap|done].
  - by eapply counted_same.
  - lia.
Qed.

Lemma recovered_ok s p c key counter n : sys_inv B R L s → p ∈ pins s → heap (shared s) !! p = Some c →
  live_permit (the_run c) = false → reservations (g_of s) = ∅ →
  runs (g_of s) !! run_id (the_run c) = None → creation_runs (g_of s) !! key = None →
  counters (shared s) !! counter = Some n →
  projected (runs (g_of s)) (reservations (g_of s)) + recovered_charge n (the_run c) ≤ B →
  records (runs (g_of s)) (reservations (g_of s)) + 1 ≤ R → live_resources (g_of s) + 1 ≤ L →
  ∃ x, recover_run (key, p, counter) (shared s) = Ret x ∧
       sys_inv B R L (with_pins (remove_one p (pins s)) (with_shared x s)).
Proof.
  intros Hi Hp Hc Hl Hres Hid Hkey Hn Hproj Hrec Hlive.
  pose proof (i_caps _ _ _ _ Hi) as Hcaps. unfold g_of in *.
  unfold recover_run, deref. rewrite Hc. cbn [expect obind].
  assert (∃ x1 c1, (if is_running (the_run c)
    then assign_live_permit p true (upd_registry (λ g, set_live_resources (wrapping_add (live_resources g) 1) g) (shared s))
    else Ret (shared s)) = Ret x1 ∧ sys_inv B R L (with_shared x1 s) ∧ heap x1 !! p = Some c1 ∧
    run_id (the_run c1) = run_id (the_run c) ∧ counters x1 = counters (shared s) ∧
    ∃ l, registry x1 = set_live_resources l (registry (shared s)))
    as (x1 & c1 & -> & Hi1 & Hc1 & Hid1 & Hcnt & l & Hg).
  { destruct (is_running (the_run c)).
    - unfold assign_live_permit, deref. cbn [heap upd_registry]. rewrite Hc. cbn [expect obind]. rewrite Hl. cbn [drop_live_permit].
      pose proof (inv_grant p c s Hi Hc Hl Hlive) as Hgrant.
      rewrite (write_eq _ _ (upd_registry _ (shared s)) c Hc). rewrite (write_eq _ _ _ c Hc) in Hgrant.
      eexists _, _. split; [done|]. split_and!; [|cbn; by rewrite lookup_insert_eq|done|done|by eexists].
      refine (eq_rect _ (λ y, sys_inv B R L (with_shared y s)) Hgrant _ _).
      unfold upd_registry, set_heap. cbn. by rewrite wrapping_add_ok by lia.
    - exists (shared s), c. rewrite with_same. split_and!; try done.
      exists (live_resources (registry (shared s))). by destruct (registry (shared s)). }
  cbn [obind]. unfold load_counter. rewrite Hcnt, Hn. cbn [expect obind]. unfold recovered_charge in Hproj.
  rewrite plus_u64_ok by lia. cbn [obind]. rewrite plus_u64_ok by lia. cbn [obind].
  rewrite Hg. cbn [runs creation_runs set_live_resources]. rewrite Hid, Hkey, !bool_decide_true by done.
  cbn [check obind]. unfold lift_registry, insert_entry. cbn [metadata_charge].
  assert (retained_metadata_bytes (registry x1) + recovered_charge n (the_run c) ≤ u64_max) as Hfit.
  { pose proof (i_metadata _ _ _ _ Hi1) as Hm. unfold g_of in Hm. cbn in Hm. rewrite Hm, Hg. cbn.
    unfold projected, recovered_charge in *. lia. }
  rewrite plus_u64_ok by done. cbn [obind]. eexists. split; [done|].
  refine (inv_insert B R L p (run_id (the_run c)) c1 {| entry_run := p; entry_key := Some key; stop_operation := None;
      metadata_bytes := Some counter; metadata_charge := n + resident_run_owner_bytes + resident_metadata_bytes (the_run c);
      residency := Retained |} (<[key := run_id (the_run c)]> (creation_runs (registry x1))) _ Hi1 _ Hp Hc1 _ _ _ _ _ _ _ _ _);
    unfold g_of; cbn; rewrite ?Hg, ?Hcnt; try done.
  - intros q [= <-]. eauto.
  - cbn. apply key_index_insert; try done. apply Hi.
  - cbn. rewrite Hres. intros t r Hr. by rewrite lookup_empty in Hr.
Qed.

Lemma booted_inv s : booted s → sys_inv B R L s.
Proof.
  induction 1 as [| | |s p c key counter n x _ Hi Hp Hc Hl Hr Hid Hk Hn Hproj Hrec Hlive Hx].
  - by apply inv_new.
  - destruct (step_counter B R L p n s) as (s' & Hs & Hi'); [done|]. cbn [sys_step] in Hs. by injection Hs as <-.
  - by apply inv_load.
  - destruct (recovered_ok s p c key counter n) as (x' & Hx' & Hi'); try done. congruence.
Qed.

(** Every step keeps the invariant and returns. *)
Lemma registry_step_ok q s : sys_inv B R L s → enabled q s → ∃ s', sys_step q s = Ret s' ∧ sys_inv B R L s'.
Proof.
  intros Hi He. destruct q.
  - by apply step_reserve.
  - by apply step_abandon.
  - by apply step_unresolve.
  - by apply step_launch.
  - by apply step_run.
  - by apply step_release.
  - by apply step_counter.
  - by apply step_publish.
  - by apply step_publish_unkeyed.
  - by apply step_begin_stop.
  - by apply step_settle.
  - by apply step_pin.
  - by apply step_clone.
  - by apply step_unpin.
  - by apply step_remove_memory.
  - by apply step_begin_removal.
  - by apply step_conclude.
  - by apply step_drop.
  - by apply step_fund.
  - by apply step_refund.
Qed.
Lemma registry_reach_inv s0 s : booted s0 → rtc moves s0 s → sys_inv B R L s.
Proof.
  intros Hb Hr. apply booted_inv in Hb. induction Hr as [|s1 s2 s3 (q & He & Hs) _ IH]; [done|].
  apply IH. destruct (registry_step_ok q s1 Hb He) as (s' & Hs' & Hi). congruence.
Qed.
End reach.
