(* ===== verification/RegistryHistory.v ===== *)
(** * RegistryHistory

    The paged listing: a page is the next slice of the retained ids in order, though
    the code sorts only what [select_nth_unstable] left in front, and a walk over the
    cursors meets every retained Run once.  And what a later step may do to an entry that
    is still there: every section leaves its Run and its Stop operation alone, except the
    two Stop sections themselves. *)

From S2P Require Import Prelude.
From S2P Require Import Protocol.
From S2P Require Import Resources.
From S2P Require Import Wire.
From S2P Require Import NativeControl.
From S2P Require Import Runs.
From S2P Require Import Registry.
From S2P Require Import RegistryQueries.
From S2P Require Import RegistrySpec.
From S2P Require Import RegistrySystem.

(** ** Sorted ids *)

Lemma sorted_app (l k : list N) : Sorted.StronglySorted N.le l → Sorted.StronglySorted N.le k →
  (∀ x y, x ∈ l → y ∈ k → x ≤ y) → Sorted.StronglySorted N.le (l ++ k).
Proof.
  intros Hl Hk Hlk. induction Hl as [|x l Hl IH Hx]; [done|]. cbn [app]. constructor.
  - apply IH. intros a b Ha. apply Hlk. by right.
  - apply List.Forall_app. split; [done|]. apply List.Forall_forall. intros y Hy%list_elem_of_In.
    apply Hlk; [by left|done].
Qed.
Lemma take_elem {A} n (l : list A) x : x ∈ take n l → x ∈ l.
Proof. intros Hx. rewrite <-(take_drop n l). apply elem_of_app. by left. Qed.
#[local] Instance le_total : Total N.le.
Proof. intros x y. lia. Qed.
#[local] Instance le_trans : Transitive N.le.
Proof. intros x y z. lia. Qed.
#[local] Instance le_anti : AntiSymm (=) N.le.
Proof. intros x y. lia. Qed.
Lemma merge_sort_strong (l : list N) : Sorted.StronglySorted N.le (merge_sort N.le l).
Proof. apply StronglySorted_merge_sort; apply _. Qed.

Lemma select_prefix select limit (ids : list N) : selects_nth select → (S limit < length ids)%nat →
  merge_sort N.le (take (S limit) (select limit ids)) = take (S limit) (merge_sort N.le ids).
Proof.
  intros Hsel Hlen. destruct (Hsel limit ids) as (Hperm & x & Hx & Hlo & Hhi); [lia|].
  set (l := select limit ids) in *. set (a := take (S limit) l). set (b := drop (S limit) l).
  assert (length a = S limit) as Ha.
  { unfold a. rewrite length_take, (Permutation_length Hperm). lia. }
  assert (merge_sort N.le ids = merge_sort N.le a ++ merge_sort N.le b) as ->.
  { apply (StronglySorted_unique N.le); [apply merge_sort_strong| |].
    - apply sorted_app; [apply merge_sort_strong..|]. intros u v Hu Hv.
      rewrite merge_sort_Permutation in Hu. rewrite merge_sort_Permutation in Hv.
      assert (x ≤ v) as Hxv.
      { rewrite List.Forall_forall in Hhi. apply Hhi. by apply list_elem_of_In. }
      assert (a = take limit l ++ [x]) as Heq by (unfold a; by apply take_S_r).
      rewrite Heq, elem_of_app, list_elem_of_singleton in Hu. destruct Hu as [Hu| ->]; [|done].
      rewrite List.Forall_forall in Hlo. assert (u ≤ x) by (apply Hlo; by apply list_elem_of_In). lia.
    - rewrite !merge_sort_Permutation. unfold a, b. by rewrite take_drop. }
  rewrite take_app_le by (rewrite merge_sort_Permutation; lia).
  rewrite take_ge; [done|]. rewrite merge_sort_Permutation. lia.
Qed.

Section listing.
Context (select : nat → list N → list N) (Hsel : selects_nth select).

Definition later (after : option RunId) (keys : list RunId) : list RunId :=
  filter (λ id, after_cursor after id) (merge_sort N.le keys).
Lemma later_sort after (keys : list N) : later after keys = merge_sort N.le (filter (λ id, after_cursor after id) keys).
Proof.
  unfold later. apply (StronglySorted_unique N.le).
  - pose proof (merge_sort_strong keys) as Hs. induction Hs as [|x l Hs IH Hx]; [constructor|].
    rewrite filter_cons. case_decide; [|done]. constructor; [done|].
    rewrite List.Forall_forall in Hx |- *. intros y Hy%list_elem_of_In. apply list_elem_of_filter in Hy as [_ Hy].
    apply Hx. by apply list_elem_of_In.
  - apply merge_sort_strong.
  - by rewrite !merge_sort_Permutation.
Qed.

Lemma page_ok after limit (keys : list N) :
  page_ids select after limit keys = (take limit (later after keys), bool_decide (limit < length (later after keys))%nat).
Proof.
  unfold page_ids. rewrite later_sort. set (ids := filter _ keys).
  assert (length (merge_sort N.le ids) = length ids) as Hlen by by rewrite merge_sort_Permutation.
  case_decide as Hl.
  - rewrite select_prefix by done. rewrite take_take, Nat.min_l by lia. f_equal.
    rewrite length_take, Hlen. apply bool_decide_ext. lia.
  - done.
Qed.

(** ** The walk *)

Definition row (m : gmap RunId RegistryEntry) (h : gmap N RunCell) (id : RunId) : option RunSummary :=
  e ← m !! id; c ← h !! entry_run e; Some (summary (the_run c)).
(** Every retained Run, in id order. *)
Definition full_list (s : Shared) : list RunSummary :=
  omap (row (runs (registry s)) (heap s)) (merge_sort N.le (map fst (map_to_list (runs (registry s))))).

Lemma later_None keys : later None keys = merge_sort N.le keys.
Proof.
  unfold later. generalize (merge_sort N.le keys). intros l. induction l as [|x l IH]; [done|].
  rewrite filter_cons_True by done. by rewrite IH.
Qed.
Lemma later_cursor (keys : list N) after n cursor : NoDup keys →
  last (take n (later after keys)) = Some cursor →
  later (Some cursor) keys = drop n (later after keys).
Proof.
  intros Hnd Hlast. unfold later in *.
  assert (Sorted.StronglySorted N.lt (merge_sort N.le keys)) as Hs.
  { assert (NoDup (merge_sort N.le keys)) as Hn by by rewrite merge_sort_Permutation.
    pose proof (merge_sort_strong keys) as Hs. clear - Hn Hs. revert Hn.
    induction Hs as [|x l Hs IH Hx]; intros Hn; [constructor|].
    apply NoDup_cons in Hn as [Hin Hn]. constructor; [by apply IH|].
    rewrite List.Forall_forall in Hx |- *. intros y Hy. pose proof (Hx y Hy).
    assert (x ≠ y) by (intros ->; by apply Hin, list_elem_of_In). lia. }
  revert n Hlast. generalize dependent (merge_sort N.le keys). intros l Hs.
  induction Hs as [|x l Hs IH Hx]; intros n Hlast; [by destruct n|].
  rewrite !filter_cons in *. destruct (decide (after_cursor after x)) as [Ha|Ha].
  - destruct n as [|n]; [done|]. cbn [take drop] in *.
    destruct (take n (filter (λ id, after_cursor after id) l)) as [|y p] eqn:Hp.
    + simpl in Hlast. injection Hlast as <-. rewrite decide_False by (simpl; rewrite bool_decide_spec; lia).
      assert (∀ P `{∀ y, Decision (P y)}, (∀ y, y ∈ l → P y) → filter P l = l) as Hall.
      { clear. intros P HP Hl. induction l as [|y l IH]; [done|]. rewrite filter_cons_True by (apply Hl; by left).
        f_equal. apply IH. intros z Hz. apply Hl. by right. }
      rewrite List.Forall_forall in Hx.
      rewrite Hall by (intros y Hy; simpl; rewrite bool_decide_spec; apply Hx; by apply list_elem_of_In).
      destruct n as [|n].
      * cbn [drop]. symmetry. apply Hall. intros y Hy. assert (x < y) by (apply Hx; by apply list_elem_of_In).
        destruct after as [a|]; [|done]. simpl in *. rewrite bool_decide_spec in *. lia.
      * destruct (filter (λ id, after_cursor after id) l) as [|z q] eqn:Hf; [|done].
        destruct l as [|z l]; [done|]. exfalso.
        assert (x < z) by (apply Hx; by left). rewrite filter_cons_True in Hf; [done|].
        destruct after as [a|]; [|done]. simpl in *. rewrite bool_decide_spec in *. lia.
    + assert (last (y :: p) = Some cursor) as Hl by done. rewrite <-Hp in Hl. rewrite (IH n Hl).
      rewrite decide_False; [done|]. simpl. rewrite bool_decide_spec.
      assert (cursor ∈ l) as Hin.
      { apply last_Some_elem_of in Hl. apply (list_elem_of_filter (λ id, after_cursor after id) l cursor).
        by eapply take_elem. }
      rewrite List.Forall_forall in Hx. assert (x < cursor) by (apply Hx; by apply list_elem_of_In). lia.
  - rewrite (IH n Hlast). rewrite decide_False; [done|].
    assert (cursor ∈ l ∧ after_cursor after cursor) as [Hin Hc].
    { apply last_Some_elem_of in Hlast. apply take_elem in Hlast.
      apply list_elem_of_filter in Hlast. naive_solver. }
    rewrite List.Forall_forall in Hx. assert (x < cursor) by (apply Hx; by apply list_elem_of_In).
    simpl. rewrite bool_decide_spec. lia.
Qed.

Lemma rows_ids m h (ids : list N) : ids_ok m h → (∀ id, id ∈ ids → is_Some (m !! id)) →
  map sum_id (omap (row m h) ids) = ids.
Proof.
  intros Hi Hids. induction ids as [|id ids IH]; [done|]. cbn [omap list_omap].
  destruct (Hids id) as [e He]; [by left|]. destruct (Hi id e He) as (c & Hc & Hid).
  assert (row m h id = Some (summary (the_run c))) as -> by (unfold row; rewrite He; cbn; by rewrite Hc).
  cbn [map]. rewrite IH by (intros j Hj; apply Hids; by right). f_equal. exact Hid.
Qed.

Lemma clamp_positive limit : (1 ≤ clamp_list_limit limit)%nat.
Proof.
  assert (1 ≤ LIST_MAX_PAGE_RUNS) by (by vm_compute).
  unfold clamp_list_limit. destruct limit as [[|n]|]; [lia| |lia].
  assert (1 ≤ usize_or_max (N.pos n)); [|lia]. unfold usize_or_max, usize_max. case_decide; [lia|by vm_compute].
Qed.

Definition keys_of (s : Shared) : list RunId := map fst (map_to_list (runs (registry s))).
Lemma keys_elem s id : id ∈ keys_of s ↔ is_Some (runs (registry s) !! id).
Proof.
  unfold keys_of. split.
  - intros Hid. apply list_elem_of_fmap in Hid as ([i e] & -> & Hie). apply elem_of_map_to_list in Hie. eauto.
  - intros [e He]. apply list_elem_of_fmap. exists (id, e). split; [done|]. by apply elem_of_map_to_list.
Qed.
Lemma keys_NoDup s : NoDup (keys_of s).
Proof. apply NoDup_fst_map_to_list. Qed.
Lemma later_elem after keys id : id ∈ later after keys → id ∈ keys.
Proof. unfold later. intros [_ Hid]%list_elem_of_filter. by rewrite merge_sort_Permutation in Hid. Qed.

Lemma list_page_ok after limit s : ids_ok (runs (registry s)) (heap s) →
  let ids := take (clamp_list_limit limit) (later after (keys_of s)) in
  list_page select after limit s =
    (omap (row (runs (registry s)) (heap s)) ids,
     if decide (clamp_list_limit limit < length (later after (keys_of s)))%nat then last ids else None).
Proof.
  intros Hi ids. unfold list_page, list_summaries_after. fold (keys_of s). rewrite page_ok. fold ids.
  change (omap _ ids) with (omap (row (runs (registry s)) (heap s)) ids). f_equal.
  assert (map sum_id (omap (row (runs (registry s)) (heap s)) ids) = ids) as Hmap.
  { apply rows_ids; [done|]. intros id Hid. apply take_elem, later_elem in Hid. by apply keys_elem. }
  case_bool_decide; [|by rewrite decide_False]. rewrite decide_True by done.
  rewrite <-fmap_last. by f_equal.
Qed.

Lemma list_walk_ok fuel after limit s : ids_ok (runs (registry s)) (heap s) →
  (length (later after (keys_of s)) < fuel)%nat →
  list_walk fuel select after limit s = Some (omap (row (runs (registry s)) (heap s)) (later after (keys_of s))).
Proof.
  intros Hi. revert after. induction fuel as [|fuel IH]; intros after Hf; [lia|]. cbn [list_walk].
  rewrite list_page_ok by done. pose proof (clamp_positive limit) as Hpos.
  set (n := clamp_list_limit limit) in *. case_decide as Hmore.
  - destruct (last (take n (later after (keys_of s)))) as [cursor|] eqn:Hlast.
    2:{ apply last_None in Hlast. apply (f_equal length) in Hlast. rewrite length_take in Hlast. simpl in Hlast. lia. }
    pose proof (later_cursor (keys_of s) after n cursor (keys_NoDup s) Hlast) as Hnext.
    rewrite IH by (rewrite Hnext, length_drop; lia). cbn [fmap option_fmap option_map]. rewrite Hnext.
    by rewrite <-omap_app, take_drop.
  - by rewrite take_ge by lia.
Qed.
End listing.

(** Whatever is under [id] later was there before, with the same Run and Stop. *)
Definition keeps (id : RunId) (m m' : gmap RunId RegistryEntry) : Prop :=
  ∀ e', m' !! id = Some e' → ∃ e, m !! id = Some e ∧
    stop_operation e' = stop_operation e ∧ entry_run e' = entry_run e.
Definition kept (id : RunId) (s s' : Shared) : Prop := keeps id (runs (registry s)) (runs (registry s')).

Lemma keeps_refl id m : keeps id m m.
Proof. intros e He. eauto. Qed.
Lemma keeps_trans id m1 m2 m3 : keeps id m1 m2 → keeps id m2 m3 → keeps id m1 m3.
Proof.
  intros H12 H23 e3 He3. destruct (H23 _ He3) as (e2 & He2 & ? & ?).
  destruct (H12 _ He2) as (e1 & He1 & ? & ?). exists e1. split_and!; congruence.
Qed.
Lemma keeps_residency id j e x m : m !! j = Some e → keeps id m (<[j := set_residency x e]> m).
Proof.
  intros He e' He'. destruct (decide (id = j)) as [->|Hne].
  - rewrite lookup_insert_eq in He'. simplify_eq. eauto.
  - rewrite lookup_insert_ne in He' by done. eauto.
Qed.
Lemma keeps_other id j e m : id ≠ j → keeps id m (<[j := e]> m).
Proof. intros Hne e' He'. rewrite lookup_insert_ne in He' by done. eauto. Qed.
Lemma keeps_delete id j m : keeps id m (delete j m).
Proof. intros e' He'. apply lookup_delete_Some in He' as [_ He']. eauto. Qed.

(** Follow an outcome that returned. *)
Ltac returned H :=
  repeat match type of H with
  | obind (check _ ?b) _ = Ret _ => let E := fresh "Hb" in destruct b eqn:E; cbn [check obind] in H; [|discriminate H]
  | obind (expect _ ?o) _ = Ret _ => let E := fresh "Ho" in destruct o eqn:E; cbn [expect obind] in H; [|discriminate H]
  | obind ?o _ = Ret _ => let E := fresh "Hr" in destruct o eqn:E; cbn [obind] in H; [|discriminate H]
  | (let '(_, _) := ?p in _) = Ret _ => destruct p; cbn beta iota in H
  | Panic _ = Ret _ => discriminate H
  end; try (injection H as H; subst).

Section history.
Context `{!UuidDisplay, !RunLayout, !StopLayout}.

Lemma clone_registry p s s' : clone_run p s = Ret s' → registry s' = registry s.
Proof. unfold clone_run, deref. intros H'. by returned H'. Qed.
Lemma drop_permit_runs b s : runs (registry (drop_live_permit b s)) = runs (registry s).
Proof. by destruct b. Qed.
Lemma drop_run_runs p s s' : drop_run p s = Ret s' → runs (registry s') = runs (registry s).
Proof.
  unfold drop_run, deref. intros H'. returned H'. case_decide; injection H' as <-; [|done].
  by rewrite drop_permit_runs.
Qed.
Lemma drop_memory_runs o s : runs (registry (drop_memory o s)) = runs (registry s).
Proof. by destruct o. Qed.
Lemma write_runs p r s : registry (write_run p r s) = registry s.
Proof. unfold write_run. by destruct (heap s !! p). Qed.
Lemma assign_runs p b s s' : assign_live_permit p b s = Ret s' → runs (registry s') = runs (registry s).
Proof.
  unfold assign_live_permit, deref. intros H'. returned H'. by rewrite drop_permit_runs, write_runs.
Qed.
Lemma release_all_runs busy l s s' : release_all busy l s = Ret s' → runs (registry s') = runs (registry s).
Proof.
  revert s. induction l as [|[j e] l IH]; intros s; cbn [release_all]; [by intros [= ->]|].
  unfold deref. intros H'. returned H'. 
  rewrite (IH _ H'). by rewrite drop_permit_runs, write_runs.
Qed.
Lemma detach_candidates_runs busy ids s s' r : detach_candidates busy ids s = Ret (s', r) →
  registry s' = registry s.
Proof.
  revert s. induction ids as [|j ids IH]; intros s; cbn [detach_candidates]; [by intros [= <- <-]|].
  destruct (runs (registry s) !! j) as [e|]; [|apply IH]. unfold deref. intros H'. returned H'.
  destruct (detach_collection_descriptors _ _); [|by injection H' as <- <-].
  rewrite (IH _ H'). by rewrite write_runs.
Qed.
Lemma detach_entry_runs busy e f s s' r : detach_entry busy e f s = Ret (s', r) → registry s' = registry s.
Proof.
  unfold detach_entry, deref. intros H'. returned H'. destruct (detach_collection_descriptors _ _).
  - injection H' as <- <-. by rewrite write_runs.
  - by injection H' as <- <-.
Qed.
Lemma validate_entry busy id s e : validate_removable_entry busy id s = Ret (Ok e) →
  runs (registry s) !! id = Some e.
Proof.
  unfold validate_removable_entry, deref. destruct (runs (registry s) !! id) as [e0|]; [|done].
  case_decide; [done|]. intros H'. returned H'. destruct (is_running _); [done|]. case_decide; [done|].
  destruct (collection_ordinal _ _); [|done]. by injection H' as ->.
Qed.

Lemma fence_kept id t ids s s' : fence_candidates t ids s = Ret s' → kept id s s'.
Proof.
  revert s. induction ids as [|j ids IH]; intros s; cbn [fence_candidates]; [intros [= ->]; apply keeps_refl|].
  intros H'. returned H'. apply IH in H'. eapply keeps_trans; [|exact H']. by apply keeps_residency.
Qed.
Lemma unfence_kept id t ids s s' : unfence_candidates t ids s = Ret s' → kept id s s'.
Proof.
  revert s. induction ids as [|j ids IH]; intros s; cbn [unfence_candidates]; [intros [= ->]; apply keeps_refl|].
  intros H'. returned H'. apply IH in H'. eapply keeps_trans; [|exact H']. by apply keeps_residency.
Qed.
Lemma restore_kept id t s s' : restore_reservation t s = Ret s' → kept id s s'.
Proof. unfold restore_reservation. intros H'. returned H'. by apply (unfence_kept id) in H'. Qed.
Lemma remove_entry_kept id j s s' e : remove_registry_entry j s = Ret (s', e) → kept id s s'.
Proof.
  unfold remove_registry_entry. intros H'. returned H'. apply keeps_delete.
Qed.
Lemma remove_candidates_kept id t ids s s' es : remove_candidates t ids s = Ret (s', es) → kept id s s'.
Proof.
  revert s es. induction ids as [|j ids IH]; intros s es; cbn [remove_candidates]; [intros [= <- <-]; apply keeps_refl|].
  intros H'. returned H'. eapply keeps_trans; [by eapply remove_entry_kept|by eapply IH].
Qed.
Lemma consume_kept id x j key s s' es k : consume_reservation x j key s = Ret (s', es, k) → kept id s s'.
Proof.
  unfold consume_reservation. intros H'. returned H'. by eapply (remove_candidates_kept id) in Hr.
Qed.
Lemma insert_kept id j e s s' : id ≠ j → lift_registry (insert_entry j e) s = Ret s' → kept id s s'.
Proof.
  intros Hne. unfold lift_registry, insert_entry. intros H'.
  destruct (plus_u64 _ _); [|done]. cbn [obind] in H'. injection H' as <-. by apply keeps_other.
Qed.

(** A Stop that this request forgets. *)
Definition forgets (q : Req) (id : RunId) : Prop :=
  ∃ x f, q = ReqSettle x (Err f) ∧ settle_id x = id ∧ disposition f = NotApplied.

Lemma begin_stop_kept mem j key s s' r id e o : begin_recoverable_stop mem j key s = Ret (s', r) →
  runs (registry s) !! id = Some e → stop_operation e = Some o → kept id s s'.
Proof.
  intros H' He Ho. unfold begin_recoverable_stop in H'.
  destruct (stop_key_validate key); [|returned H'; apply keeps_refl].
  destruct (stop_runs (registry s) !! key) as [bound|].
  - unfold retry_stop in H'. case_decide; [returned H'; apply keeps_refl|].
    destruct (runs (registry s) !! j) as [x|]; [|returned H'; apply keeps_refl].
    case_decide; [returned H'; apply keeps_refl|]. destruct (stop_operation x); [|returned H'; apply keeps_refl].
    case_decide; [returned H'; apply keeps_refl|]. returned H'. apply clone_registry in Hr.
    unfold kept. rewrite Hr. apply keeps_refl.
  - unfold admit_stop in H'. destruct (runs (registry s) !! j) as [x|] eqn:Hx; [|returned H'; apply keeps_refl].
    case_decide; [returned H'; apply keeps_refl|]. case_bool_decide as Hn; [returned H'; apply keeps_refl|].
    destruct mem; [|returned H'; apply keeps_refl].
    destruct (ByteBudget.reserve _ _) as [b [m|]]; [|returned H'; apply keeps_refl].
    unfold deref in H'. returned H'. destruct (native_control _) as [nc|]; [|returned H'; apply keeps_refl].
    returned H'. apply clone_registry in Hr, Hr0. unfold kept. rewrite Hr0, Hr. cbn.
    apply keeps_other. intros ->. simplify_eq. apply Hn. by rewrite Ho.
Qed.

Lemma conclude_kept id d j s s' e r : conclude_removal d j s = Ret (s', e, r) → kept id s s'.
Proof.
  unfold conclude_removal. destruct d as [|err|err]; intros H'.
  - returned H'. unfold commit_removal in Hr. returned Hr. by eapply remove_entry_kept.
  - returned H'. unfold abandon_removal in Hr.
    destruct (runs (registry s) !! j) as [x|] eqn:Hx; returned Hr; [|apply keeps_refl].
    by apply keeps_residency.
  - returned H'. apply keeps_refl.
Qed.

Lemma publish_kept id t p key n c s s' es : publish_creation key p (Some (owner_of t n)) s = Ret (s', es) →
  heap s !! p = Some c → run_id (the_run c) ≠ id → kept id s s'.
Proof.
  intros H' Hc Hne. unfold publish_creation, deref in H'. rewrite Hc in H'. cbn [expect obind] in H'.
  destruct (bool_decide _); [|done]. cbn [check obind] in H'. destruct (bool_decide _); [|done]. cbn [check obind] in H'.
  destruct (assign_live_permit _ _ _) as [s1|] eqn:Ha; [|done]. cbn [obind] in H'.
  destruct (consume_reservation _ _ _ _) as [[[s2 es2] k]|] eqn:Hcons; [|done]. cbn [obind] in H'.
  set (y := match binding_durable _ with Some _ => _ | None => _ end) in H'.
  assert (registry y.1 = registry s2) as Hy by (subst y; by destruct (binding_durable _)).
  destruct y as [s3 owner]. cbn [fst] in Hy.
  destruct (if decide _ then _ else _); [|done]. cbn [obind] in H'.
  destruct (lift_registry _ _) as [s4|] eqn:Hins; [|done]. cbn [obind] in H'. injection H' as <- <-.
  apply assign_runs in Ha. apply (consume_kept id) in Hcons. apply (insert_kept id) in Hins; [|done].
  unfold kept in *. cbn. rewrite Ha in Hcons. rewrite Hy in Hins. by eapply keeps_trans.
Qed.
Lemma publish_unkeyed_kept id t p n c s s' es : publish_unkeyed p (owner_of t n) s = Ret (s', es) →
  heap s !! p = Some c → run_id (the_run c) ≠ id → kept id s s'.
Proof.
  intros H' Hc Hne. unfold publish_unkeyed, deref in H'. rewrite Hc in H'. cbn [expect obind] in H'.
  destruct (assign_live_permit _ _ _) as [s1|] eqn:Ha; [|done]. cbn [obind] in H'.
  destruct (consume_reservation _ _ _ _) as [[[s2 es2] k]|] eqn:Hcons; [|done]. cbn [obind new_counter] in H'.
  destruct (bool_decide (k = None)); [|done]. cbn [check obind] in H'.
  destruct (bool_decide _); [|done]. cbn [check obind] in H'.
  destruct (lift_registry _ _) as [s4|] eqn:Hins; [|done]. cbn [obind] in H'. injection H' as <- <-.
  apply assign_runs in Ha. apply (consume_kept id) in Hcons. apply (insert_kept id) in Hins; [|done].
  unfold kept in *. cbn in Hins. rewrite Ha in Hcons. by eapply keeps_trans.
Qed.
Lemma reserve_kept env j key req n s s' r id : reserve_publication env j key req n s = Ret (s', r) → kept id s s'.
Proof.
  intros H'. unfold reserve_publication in H'. destruct (bool_decide _); [|done]. cbn [check obind] in H'.
  destruct (match key with Some _ => _ | None => _ end); [|done]. cbn [check obind] in H'.
  destruct (if live_exhausted _ then _ else _) as [s1|] eqn:H1'; [|done]. cbn [obind] in H'.
  assert (runs (registry s1) = runs (registry s)) as E1.
  { destruct (live_exhausted (registry s)); [by eapply release_all_runs|by injection H1' as ->]. }
  unfold kept. rewrite <-E1. clear H1' E1.
  destruct (live_exhausted _); [returned H'; apply keeps_refl|].
  destruct (select_publication_candidates _ _ _) as [[k [ids|err]]|]; cbn [obind selected] in H'; [| |done].
  2:{ returned H'. apply keeps_refl. }
  destruct (index_memory env); [|returned H'; apply keeps_refl].
  destruct (removed_memory env); [|returned H'; apply keeps_refl].
  destruct (checked_add _ _) as [t|]; [|done]. cbn [expect obind] in H'.
  destruct (fence_candidates _ _ _) as [s2|] eqn:Hf; [|done]. cbn [obind] in H'. apply (fence_kept id) in Hf.
  destruct (bool_decide _); [|done]. cbn [check obind] in H'.
  destruct (detach_candidates _ _ _) as [[s3 d]|] eqn:Hd; [|done]. cbn [obind] in H'. apply detach_candidates_runs in Hd.
  assert (keeps id (runs (registry s1)) (runs (registry s3))) as H3 by (rewrite Hd; exact Hf).
  destruct d as [|err].
  - injection H' as <- <-. exact H3.
  - destruct (restore_reservation t s3) as [s4|] eqn:Hr; [|done]. cbn [obind] in H'. injection H' as <- <-.
    eapply keeps_trans; [exact H3|]. by eapply restore_kept.
Qed.
Lemma settle_kept y res s s' id : settle_recoverable_stop y res s = Ret s' →
  (settle_id y = id → ∀ f, res = Err f → disposition f ≠ NotApplied) → kept id s s'.
Proof.
  unfold settle_recoverable_stop. intros H' Hq. returned H'. apply drop_run_runs in H'.
  assert (kept id s a) as Hk.
  { clear H' Hr0. destruct res as [rc|f]; [injection Hr as <-; apply keeps_refl|].
    case_bool_decide as Hd; [|injection Hr as <-; apply keeps_refl].
    destruct (remove_key _ _ _); [|done]. cbn [obind] in Hr. injection Hr as <-.
    apply keeps_other. intros ->. by eapply Hq. }
  unfold settle_cell_with in Hr0. returned Hr0. unfold kept in *. by rewrite H'.
Qed.

Lemma step_kept q s s' id e o : sys_step q s = Ret s' → enabled q s →
  names_ok (runs (g_of s)) (creation_runs (g_of s)) (reservations (g_of s)) →
  runs (g_of s) !! id = Some e → stop_operation e = Some o → ¬ forgets q id →
  keeps id (runs (g_of s)) (runs (g_of s')).
Proof.
  intros H' Hen [Hn _] He Ho Hq. destruct q; cbn [sys_step] in H'.
  - destruct (reserve_publication _ _ _ _ _ _) as [[x r]|] eqn:Hr; [|done]. cbn [obind] in H'. injection H' as <-.
    apply (reserve_kept _ _ _ _ _ _ _ _ id) in Hr. destruct r as [y|]; [destruct (ticket y)|]; exact Hr.
  - returned H'. unfold drop_reservation in Hr. returned Hr. apply (restore_kept id) in Hr0.
    exact Hr0.
  - returned H'. apply keeps_refl.
  - returned H'. apply keeps_refl.
  - returned H'. unfold g_of. cbn. rewrite write_runs. apply keeps_refl.
  - unfold deref in H'. returned H'. unfold g_of. cbn. rewrite drop_permit_runs, write_runs. apply keeps_refl.
  - returned H'. apply keeps_refl.
  - destruct Hen as (n & x & c & Hown & Hres & _ & _ & Hc & Hid & _). rewrite Hown in H'. returned H'.
    eapply (publish_kept id); [exact Hr|exact Hc|]. intros Heq. destruct (Hn _ _ Hres) as [Hnone _]. congruence.
  - destruct Hen as (n & x & c & Hown & Hres & _ & _ & Hc & Hid). rewrite Hown in H'. returned H'.
    eapply (publish_unkeyed_kept id); [exact Hr|exact Hc|]. intros Heq. destruct (Hn _ _ Hres) as [Hnone _]. congruence.
  - destruct (begin_recoverable_stop _ _ _ _) as [[x r]|] eqn:Hr; [|done]. cbn [obind] in H'. injection H' as <-.
    pose proof (begin_stop_kept _ _ _ _ _ _ id e o Hr He Ho) as Hk. by destruct r as [[]|].
  - returned H'. apply (settle_kept _ _ _ _ id) in Hr; [exact Hr|]. intros <- f -> Hd. apply Hq. by exists x, f.
  - destruct (pin _ _) as [[x r]|] eqn:Hr; [|done]. cbn [obind] in H'. injection H' as <-.
    assert (registry x = registry (shared s)) as Hx.
    { unfold pin in Hr. destruct (runs _ !! _) as [e0|]; [|by injection Hr as <- <-].
      destruct (residency e0); [|by injection Hr as <- <-..]. returned Hr. by apply clone_registry in Hr0. }
    unfold g_of. destruct r as [[]|]; cbn; rewrite Hx; apply keeps_refl.
  - returned H'. apply clone_registry in Hr. unfold g_of. cbn. rewrite Hr. apply keeps_refl.
  - returned H'. apply drop_run_runs in Hr. unfold g_of. cbn. rewrite Hr. apply keeps_refl.
  - destruct (remove_memory _ _ _ _) as [[x r]|] eqn:Hr; [|done]. cbn [obind] in H'. injection H' as <-.
    assert (kept id (shared s) x) as Hk; [|by destruct r].
    unfold remove_memory in Hr. returned Hr. destruct a as [e0|]; [|returned Hr; apply keeps_refl].
    destruct (detach_entry _ _ _ _) as [[x1 d]|] eqn:Hd; [|done]. cbn [obind] in Hr. apply detach_entry_runs in Hd.
    unfold kept. rewrite <-Hd. destruct d; [|returned Hr; apply keeps_refl]. returned Hr. by eapply remove_entry_kept.
  - destruct (begin_persistent_removal _ _ _ _) as [[x r]|] eqn:Hr; [|done]. cbn [obind] in H'. injection H' as <-.
    assert (kept id (shared s) x) as Hk; [|by destruct r].
    unfold begin_persistent_removal in Hr. returned Hr. destruct a as [e0|]; [|returned Hr; apply keeps_refl].
    apply validate_entry in Hr0. returned Hr. destruct a as [cand|]; [|returned Hr; apply keeps_refl].
    destruct (detach_entry _ _ _ _) as [[x1 d]|] eqn:Hd; [|done]. cbn [obind] in Hr. apply detach_entry_runs in Hd.
    unfold kept. rewrite <-Hd in Hr0 |- *. destruct d; [|returned Hr; apply keeps_refl]. returned Hr.
    by apply keeps_residency.
  - destruct (conclude_removal _ _ _) as [[[x o'] r]|] eqn:Hr; [|done]. cbn [obind] in H'. injection H' as <-.
    apply (conclude_kept id) in Hr. by destruct d.
  - returned H'. unfold drop_entry in Hr. returned Hr. apply drop_run_runs in Hr0.
    unfold g_of. cbn. rewrite drop_memory_runs, Hr0. apply keeps_refl.
  - destruct (ByteBudget.reserve _ _) as [b [m|]]; injection H' as <-; apply keeps_refl.
  - returned H'. apply keeps_refl.
Qed.
End history.
