(* ===== verification/RegistryProps.v ===== *)
(** * RegistryProps

    What the registry promises, over every state its sections can reach, with a
    concrete history of publication, Stop, replacement and listing. *)

From S2P Require Import Prelude.
From S2P Require Import Protocol.
From S2P Require Import Resources.
From S2P Require Import Wire.
From S2P Require Import OutputLog.
From S2P Require Import NativeControl.
From S2P Require Import NativeOwnerTurn.
From S2P Require Import Runs.
From S2P Require Import Registry.
From S2P Require Import RegistryQueries.
From S2P Require Import RegistrySpec.
From S2P Require Import RegistrySystem.
From S2P Require Import RegistryHeap.
From S2P Require Import RegistryRemoval.
From S2P Require Import RegistrySteps.
From S2P Require Import RegistryStopSteps.
From S2P Require Import RegistryRemovalSteps.
From S2P Require Import RegistryPublishSteps.
From S2P Require Import RegistryConsumeSteps.
From S2P Require Import RegistryHistory.

Section props.
Context `{!UuidDisplay, !RunLayout, !StopLayout} (B R L : N).

(** C21: however publications, Stops, removals, pins and drops interleave, a section
    whose caller keeps its side never panics: no [expect], [debug_assert!] or
    arithmetic of the registry can fail, "one Stop operation settles once" included. *)
Theorem registry_sections_never_panic s0 s q (Hboot : booted B R L s0) (Hreach : rtc moves s0 s)
    (Hcaller : enabled q s) : ∃ s', sys_step q s = Ret s'.
Proof.
  destruct (registry_step_ok B R L q s (registry_reach_inv B R L s0 s Hboot Hreach) Hcaller) as (s' & Hs & _). eauto.
Qed.

(** the metadata total is the exact sum of the retained charges, and with what the
    reservations will still add it stays within the capacity (or what startup
    recovered beyond it); so do the retained and announced records; the live count is
    exactly the Runs' permits and the reservations' owners, within its capacity; and
    the control budget never overcommits. *)
Theorem registry_stays_within_capacity s0 s (Hboot : booted B R L s0) (Hreach : rtc moves s0 s) :
  let g := registry (shared s) in
  retained_metadata_bytes g = charges (runs g) ∧ projected (runs g) (reservations g) ≤ B ∧
  N.of_nat (size (runs g)) + msum record_burden (reservations g) ≤ R ∧
  live_resources g = permits (heap (shared s)) + N.of_nat (size (owners s)) ∧ live_resources g ≤ L ∧
  ByteBudget.used (control_budget g) ≤ ByteBudget.limit (control_budget g).
Proof.
  pose proof (registry_reach_inv B R L s0 s Hboot Hreach) as Hi. open_inv Hi. destruct Ibudget as (_ & Hb & _).
  cbn zeta. split_and!; done.
Qed.

(** C22: both key indexes are exact, every entry points at a shared Run with its id
    whose [Arc] count is the number of its holders, every [Collecting] fence belongs to
    exactly one reservation that lists it and every [Removing] fence to a removal in flight,
    and what a reservation announces is still free.  The metadata total is the sum of the
    retained charges, and the control budget holds exactly the Stop records of the entries,
    of the entries not dropped yet, and what its other users hold, within its limit. *)
Theorem registry_indexes_are_exact s0 s (Hboot : booted B R L s0) (Hreach : rtc moves s0 s) :
  let g := registry (shared s) in
  (∀ k id, creation_runs g !! k = Some id ↔ ∃ e, runs g !! id = Some e ∧ entry_key e = Some k) ∧
  (∀ k id, stop_runs g !! k = Some id ↔
     ∃ e r, runs g !! id = Some e ∧ stop_operation e = Some r ∧ stop_key r = k) ∧
  (∀ id e, runs g !! id = Some e → ∃ c, heap (shared s) !! entry_run e = Some c ∧
     run_id (the_run c) = id ∧ strong c = arcs_of s (entry_run e)) ∧
  (∀ id t, (∃ e, runs g !! id = Some e ∧ residency e = Collecting t) ↔
     ∃ r, reservations g !! t = Some r ∧ id ∈ candidates r) ∧
  (∀ id, (∃ e, runs g !! id = Some e ∧ residency e = Removing) ↔ id ∈ removals s) ∧ NoDup (removals s) ∧
  (∀ t r, reservations g !! t = Some r → runs g !! new_run_id r = None) ∧
  retained_metadata_bytes g = charges (runs g) ∧
  ByteBudget.used (control_budget g) = msum stop_bytes (runs g) + sumN stop_bytes (garbage s) + outside s ∧
  ByteBudget.used (control_budget g) ≤ ByteBudget.limit (control_budget g).
Proof.
  pose proof (registry_reach_inv B R L s0 s Hboot Hreach) as Hi. open_inv Hi. cbn zeta.
  destruct Ibudget as (Hused & Hlimit & _). destruct Iremovals as [Hnodup Hrem]. split_and!; [done| | | | |done| |done..].
  - intros k id. rewrite (Istops k id). unfold stop_of. split.
    + intros (e & He & Hs). destruct (stop_operation e) as [r|] eqn:Hr; [|done]. simpl in Hs. simplify_eq. eauto.
    + intros (e & r & He & Hr & <-). exists e. by rewrite Hr.
  - intros id e He. destruct (Iids id e He) as (c & Hc & Hid). exists c. split_and!; [done|done|].
    specialize (Iarcs (entry_run e)). rewrite Hc in Iarcs. by destruct Iarcs.
  - intros id t. split.
    + intros (e & He & Hr). by apply (proj2 Ifences id e t).
    + intros (r & Hr & Hin). by apply (proj2 (proj1 Ifences t r Hr)).
  - intros id. symmetry. apply Hrem.
  - intros t r Hr. by destruct (proj1 Inames t r Hr).
Qed.

(** What the admission of a new key leaves behind. *)
Lemma admitted_stop mem id key s x f y : begin_recoverable_stop mem id key s = Ret (x, Ok (StopOwner f y)) →
  ∃ e n, stop_key_validate key = Ok tt ∧ runs (registry s) !! id = Some e ∧ residency e = Retained ∧
    f = {| flight_run := entry_run e; flight_cell := fresh (dom (cells s)) |} ∧
    runs (registry x) = <[id := set_stop (Some {| stop_key := key; stop_cell := fresh (dom (cells s));
                                                  stop_memory := n |}) e]> (runs (registry s)) ∧
    stop_runs (registry x) = <[key := id]> (stop_runs (registry s)) ∧
    cells x = <[fresh (dom (cells s)) := None]> (cells s) ∧ is_Some (heap x !! entry_run e).
Proof.
  unfold begin_recoverable_stop. destruct (stop_key_validate key) as [[]|]; [|done].
  destruct (stop_runs (registry s) !! key) as [bound|].
  { unfold retry_stop. case_decide; [done|]. destruct (runs (registry s) !! id) as [e|]; [|done].
    case_decide; [done|]. destruct (stop_operation e); [|done]. case_decide; [done|]. by destruct (clone_run _ _). }
  unfold admit_stop. destruct (runs (registry s) !! id) as [e|]; [|done].
  case_decide as Hres; [done|]. case_bool_decide; [done|]. destruct mem; [|done].
  destruct (ByteBudget.reserve _ _) as [b [n|]]; [|done]. unfold deref. intros H'.
  destruct (heap _ !! _) as [c|]; [|done]. cbn [expect obind] in H'.
  destruct (native_control _); [|done]. cbn [obind] in H'. destruct (bool_decide _); [|done]. cbn [check obind] in H'.
  destruct (clone_run _ _) as [x1|] eqn:H1'; [|done]. cbn [obind] in H'.
  destruct (clone_run _ x1) as [x2|] eqn:H2'; [|done]. cbn [obind] in H'. injection H' as <- <- <-.
  exists e, n. unfold clone_run, deref in H1', H2'.
  destruct (heap _ !! _) as [c1|]; [|done]. injection H1' as <-.
  destruct (heap _ !! _) as [c2|]; [|done]. injection H2' as <-. cbn. split_and!; try done.
  rewrite lookup_insert_eq. eauto.
Qed.
(** A bound key on a retained entry. *)
Lemma bound_retry mem id key s e r : stop_key_validate key = Ok tt → stop_runs (registry s) !! key = Some id →
  runs (registry s) !! id = Some e → residency e = Retained → stop_operation e = Some r → stop_key r = key →
  is_Some (heap s !! entry_run e) →
  ∃ x, begin_recoverable_stop mem id key s =
         Ret (x, Ok (StopRetry {| flight_run := entry_run e; flight_cell := stop_cell r |})) ∧
       registry x = registry s ∧ cells x = cells s.
Proof.
  intros Hv Hk He Hr Hs Hkey [c Hc]. unfold begin_recoverable_stop. rewrite Hv, Hk. unfold retry_stop.
  rewrite decide_False by auto. rewrite He. rewrite decide_False by auto. rewrite Hs.
  rewrite decide_False by auto. unfold clone_run, deref. rewrite Hc. cbn [expect obind].
  eexists. split; [done|]. by destruct s as [[]].
Qed.

(** Admission binds a Stop key to one operation before its side effect: the new
    result cell is pending; the same request retried gets the same flight and changes
    only an [Arc] count; the key is refused to every other Run, and the Run to every
    other key. *)
Theorem stop_key_binds_one_operation mem id key s x f y
    (Hstop : begin_recoverable_stop mem id key s = Ret (x, Ok (StopOwner f y))) :
  cells s !! flight_cell f = None ∧ cells x !! flight_cell f = Some None ∧
  (∀ mem', ∃ x', begin_recoverable_stop mem' id key x = Ret (x', Ok (StopRetry f)) ∧
     registry x' = registry x ∧ cells x' = cells x) ∧
  (∀ mem' other, other ≠ id → ∃ e, begin_recoverable_stop mem' other key x = Ret (x, Err e) ∧
     disposition e = NotApplied ∧ code (error e) = StopOperationConflict) ∧
  (∀ mem' key', stop_key_validate key' = Ok tt → stop_runs (registry x) !! key' = None →
     ∃ e, begin_recoverable_stop mem' id key' x = Ret (x, Err e) ∧
       disposition e = NotApplied ∧ code (error e) = StopOperationConflict).
Proof.
  destruct (admitted_stop _ _ _ _ _ _ _ Hstop) as (e & n & Hv & He & Hres & -> & Hruns & Hstops & Hcells & Hheap).
  cbn [flight_cell]. split_and!.
  - apply not_elem_of_dom, is_fresh.
  - by rewrite Hcells, lookup_insert_eq.
  - intros mem'. set (rec := {| stop_key := key; stop_cell := fresh (dom (cells s)); stop_memory := n |}) in *.
    refine (bound_retry mem' id key x (set_stop (Some rec) e) rec Hv _ _ Hres eq_refl eq_refl Hheap).
    + by rewrite Hstops, lookup_insert_eq.
    + by rewrite Hruns, lookup_insert_eq.
  - intros mem' other Hne. unfold begin_recoverable_stop. rewrite Hv, Hstops, lookup_insert_eq.
    unfold retry_stop. rewrite decide_True by auto. by eexists.
  - intros mem' key' Hv' Hfree. unfold begin_recoverable_stop. rewrite Hv', Hfree. unfold admit_stop.
    rewrite Hruns, lookup_insert_eq. rewrite decide_False by auto. by eexists.
Qed.

(** The operation a Run carries. *)
Definition carries (id : RunId) (key : StopOperationKey) (f : StopFlight) (s : Sys) : Prop :=
  ∃ e r, runs (g_of s) !! id = Some e ∧ stop_operation e = Some r ∧ stop_key r = key ∧
         f = {| flight_run := entry_run e; flight_cell := stop_cell r |}.
(** Steps that neither settle the Run's Stop as not applied nor take the Run away. *)
Definition stays (id : RunId) (s s' : Sys) : Prop :=
  ∃ q, enabled q s ∧ sys_step q s = Ret s' ∧ ¬ forgets q id ∧ is_Some (runs (g_of s') !! id).

Lemma carries_stays id key f s s' : sys_inv B R L s → rtc (stays id) s s' → carries id key f s →
  sys_inv B R L s' ∧ carries id key f s'.
Proof.
  intros Hi Hr. revert Hi. induction Hr as [s|s1 s2 s3 (q & Hen & Hs & Hq & [e2 He2]) _ IH]; [done|].
  intros Hi (e & r & He & Hr & Hk & ->). destruct (registry_step_ok B R L q s1 Hi Hen) as (s' & Hs' & Hi').
  rewrite Hs in Hs'. injection Hs' as <-. apply IH; [done|].
  destruct (step_kept q s1 s2 id e r Hs Hen (i_names _ _ _ _ Hi) He Hr Hq e2 He2) as (e1 & He1 & Hso & Hp).
  simplify_eq. exists e2, r. split_and!; [done|congruence|done|congruence].
Qed.

(** Over any later history that keeps the Run and does not settle its Stop as not
    applied, a retry joins the flight the first request started, or, while the Run is
    fenced, is answered that it is being collected; the side effect never starts again. *)
Theorem retries_join_one_flight s0 s s1 s2 mem id key f y (Hboot : booted B R L s0)
    (Hreach : rtc moves s0 s)
    (Hstop : sys_step (ReqBeginStop mem id key) s = Ret s1 ∧
             ∃ x, begin_recoverable_stop mem id key (shared s) = Ret (x, Ok (StopOwner f y)))
    (Hlater : rtc (stays id) s1 s2) :
  ∀ mem', ∃ x r, begin_recoverable_stop mem' id key (shared s2) = Ret (x, r) ∧
    (r = Ok (StopRetry f) ∨ r = Err (being_collected id) ∧ x = shared s2) ∧
    registry x = g_of s2 ∧ cells x = cells (shared s2).
Proof.
  destruct Hstop as [Hs1 [x Hx]].
  assert (sys_inv B R L s1) as Hi1.
  { destruct (registry_step_ok B R L _ s (registry_reach_inv B R L s0 s Hboot Hreach) (I : enabled (ReqBeginStop mem id key) s))
      as (s1' & Hs1' & Hi1). congruence. }
  cbn [sys_step] in Hs1. rewrite Hx in Hs1. cbn [obind] in Hs1.
  destruct (admitted_stop _ _ _ _ _ _ _ Hx) as (e & n & Hv & He & Hres & Hf & Hruns & Hstops & Hcells & Hheap).
  assert (carries id key f s1) as Hc.
  { injection Hs1 as <-. eexists _, _. unfold g_of. cbn. rewrite Hruns, lookup_insert_eq. split_and!; done. }
  destruct (carries_stays id key f s1 s2 Hi1 Hlater Hc)
    as [Hi2 (e2 & r2 & He2 & Hr2 & Hk2 & ->)].
  intros mem'. assert (stop_runs (registry (shared s2)) !! key = Some id) as Hkey.
  { apply (i_stops _ _ _ _ Hi2). exists e2. split; [done|]. unfold stop_of. rewrite Hr2. cbn. by f_equal. }
  destruct (decide (residency e2 = Retained)) as [Hret|Hfenced].
  - destruct (i_ids _ _ _ _ Hi2 id e2 He2) as (c & Hc2 & _).
    destruct (bound_retry mem' id key (shared s2) e2 r2) as (x' & Hb & Hg & Hcs); eauto.
    exists x', (Ok (StopRetry {| flight_run := entry_run e2; flight_cell := stop_cell r2 |})). eauto.
  - exists (shared s2), (Err (being_collected id)). split; [|eauto].
    unfold begin_recoverable_stop. rewrite Hv, Hkey. unfold retry_stop. rewrite decide_False by auto.
    unfold g_of in He2. rewrite He2. by rewrite decide_True.
Qed.

(** C23: the candidates chosen for a publication, fast path and saturating arithmetic
    included, are the shortest prefix, oldest terminal first, of the Runs that are retained,
    held by nothing else, unattached and quiescent, that frees a record when one is needed and
    funds the missing metadata; no shorter prefix would do.  There are two refusals: for want
    of capacity, and then all those Runs together would not do; and as unavailable, and then
    such a prefix exists but has two Runs or more while another reservation already collects
    two or more. *)
Theorem selection_is_shortest_oldest_prefix s0 s busy bytes (Hboot : booted B R L s0)
    (Hreach : rtc moves s0 s)
    (Hfit : projected (runs (g_of s)) (reservations (g_of s)) + bytes ≤ u64_max) :
  let ordered := oldest_first busy true (shared s) in
  let does ids := enough (runs (g_of s)) (needs_record_of (g_of s)) (to_fund_of (Some bytes) (g_of s)) ids in
  let chosen ids := (∃ n, ids = take n ordered) ∧ does ids ∧ ∀ n, (n < length ids)%nat → ¬ does (take n ids) in
  ∃ k r, select_publication_candidates busy (Some bytes) (shared s) = Ret {| evaluated := k; selected := r |} ∧
  match r with
  | Ok ids => chosen ids ∧ ∀ id, id ∈ ids → ∃ e c, runs (g_of s) !! id = Some e ∧ heap (shared s) !! entry_run e = Some c ∧
       residency e = Retained ∧ strong c = 1 ∧ is_Some (collection_ordinal (busy (entry_run e)) (the_run c))
  | Err e => code e = RunCapacity ∧ ¬ does ordered ∨
      code e = BackendUnavailable ∧ ∃ ids t r, chosen ids ∧ 1 < len ids ∧
        reservations (g_of s) !! t = Some r ∧ 1 < len (candidates r)
  end.
Proof.
  pose proof (registry_reach_inv B R L s0 s Hboot Hreach) as Hi. open_inv Hi. cbv zeta.
  destruct (select_ok busy (Some bytes) (shared s)) as [k Hk]; try done.
  - intros t r Hr. by apply (proj1 Ifences t r).
  - intros id e He. destruct (Iids id e He) as (c & Hc & _). eauto.
  - lia.
  - exists k, (reference_selection busy (Some bytes) (shared s)). split; [exact Hk|].
    unfold reference_selection. rewrite bool_decide_true by eauto.
    destruct (shortest _ _ _ _ _) as [ids|] eqn:Hs.
    2:{ left. split; [done|]. by apply shortest_None in Hs. }
    destruct (shortest_enough _ _ _ _ _ _ Hs) as [Hdoes [n Hn]].
    assert (∀ n, (n < length ids)%nat → ¬ enough (runs (g_of s)) (needs_record_of (g_of s))
      (to_fund_of (Some bytes) (g_of s)) (take n ids)) as Hmin by (intros n' ?; by eapply shortest_minimal).
    destruct (crowded _ _) eqn:Hcrowded.
    + right. split; [done|]. apply andb_true_iff in Hcrowded as [Hlen%bool_decide_eq_true Hother].
      apply existsb_exists in Hother as ([t r] & Hin%list_elem_of_In%elem_of_map_to_list & Hr%bool_decide_eq_true).
      exists ids, t, r. split_and!; eauto.
    + split; [by eauto|]. intros id Hid. assert (id ∈ oldest_first busy true (shared s)) as Hold.
      { rewrite Hn in Hid. cbn in Hid. by eapply subseteq_take. }
      destruct (oldest_first_elem _ _ _ _ Hold) as (e & c & ? & ? & ? & ? & _ & ?). eauto 10.
Qed.

(** C24: a walk over the list pages, each fed the previous page's cursor, ends within
    one call more than there are Runs and returns every retained Run exactly once, in
    id order, whatever the page size and however [select_nth_unstable] orders what it
    leaves unsorted. *)
Theorem listing_walk_meets_every_run_once s0 s select limit (Hboot : booted B R L s0) (Hreach : rtc moves s0 s)
    (Hselect : selects_nth select) :
  ∃ rows, list_walk (S (size (runs (g_of s)))) select None limit (shared s) = Some rows ∧
    map sum_id rows = merge_sort N.le (map fst (map_to_list (runs (g_of s)))) ∧
    ∀ row, row ∈ rows → ∃ e c, runs (g_of s) !! sum_id row = Some e ∧
      heap (shared s) !! entry_run e = Some c ∧ row = summary (the_run c).
Proof.
  pose proof (i_ids _ _ _ _ (registry_reach_inv B R L s0 s Hboot Hreach)) as Hi.
  eexists. split; [|split].
  - apply (list_walk_ok select Hselect); [done|]. rewrite later_None, merge_sort_Permutation.
    unfold keys_of. rewrite length_map, length_map_to_list. unfold g_of. lia.
  - rewrite later_None. apply rows_ids; [done|]. intros id Hid. rewrite merge_sort_Permutation in Hid.
    by apply keys_elem.
  - intros x Hx. apply list_elem_of_omap in Hx as (id & _ & Hrow). unfold row in Hrow. unfold g_of.
    destruct (runs (registry (shared s)) !! id) as [e|] eqn:He; [|done]. cbn in Hrow.
    destruct (heap (shared s) !! entry_run e) as [c|] eqn:Hc; [|done]. injection Hrow as <-.
    exists e, c. destruct (Hi id e He) as (c' & Hc' & Hid). simplify_eq. by cbn.
Qed.

(** Removing a memory Run succeeds only for a terminal, unattached, quiescent Run
    whose only holder is its entry; then exactly its entry, its creation key, its Stop
    key and its charge are gone. *)
Theorem removal_takes_only_idle_runs s0 s busy busy' id x e (Hboot : booted B R L s0) (Hreach : rtc moves s0 s)
    (Hremove : remove_memory busy busy' id (shared s) = Ret (x, Ok e)) :
  (∃ c, heap (shared s) !! entry_run e = Some c ∧ is_running (the_run c) = false ∧
        is_Some (collection_ordinal (busy (entry_run e)) (the_run c))) ∧
  residency e = Retained ∧ arcs_of s (entry_run e) = 1 ∧
  runs (g_of s) !! id = Some e ∧ runs (registry x) = delete id (runs (g_of s)) ∧
  retained_metadata_bytes (registry x) + metadata_charge e = retained_metadata_bytes (g_of s) ∧
  (∀ k, creation_runs (registry x) !! k ≠ Some id) ∧ (∀ k, stop_runs (registry x) !! k ≠ Some id).
Proof.
  pose proof (registry_reach_inv B R L s0 s Hboot Hreach) as Hi. open_inv Hi. unfold remove_memory in Hremove.
  destruct (validate_ok busy id (shared s) Iids) as (v & Hv & Hok). rewrite Hv in Hremove. cbn [obind] in Hremove.
  destruct v as [e0|]; [|done]. destruct (Hok e0 eq_refl) as (He & Hres & c & Hc & Hone & Hrun & Hord).
  destruct (detach_entry _ _ _ _) as [[x1 d]|] eqn:Hd; [|done]. cbn [obind] in Hremove. apply detach_entry_runs in Hd.
  destruct d; [|done]. destruct (remove_entry_ok id e0 x1) as (x2 & Hrem & Hsh).
  { by rewrite Hd. } { by constructor; rewrite Hd. }
  rewrite Hrem in Hremove. cbn [obind] in Hremove. injection Hremove as <- <-.
  pose proof (Iarcs (entry_run e0)) as Ha. rewrite Hc in Ha. unfold arcs_of.
  destruct Hsh as [Hruns [Xk Xs Xm] _ _ _ _ _]. rewrite Hd in Hruns. cbn [delete_all] in Hruns.
  split_and!; [by exists c|done|by rewrite <-(proj1 Ha)|done|done| | |].
  - rewrite Xm, Hruns, Imetadata. unfold charges. rewrite (msum_delete metadata_charge _ _ _ He). lia.
  - intros k Hk. apply Xk in Hk as (e' & He' & _). by rewrite Hruns, lookup_delete_eq in He'.
  - intros k Hk. apply Xs in Hk as (e' & He' & _). by rewrite Hruns, lookup_delete_eq in He'.
Qed.

(** What a publication leaves under its key. *)
Lemma published_entry key p t n s x es : publish_creation key p (Some (owner_of t n)) s = Ret (x, es) →
  ∃ id e, runs (registry x) !! id = Some e ∧ entry_run e = p ∧ residency e = Retained ∧
          entry_key e = Some key ∧ creation_runs (registry x) !! key = Some id.
Proof.
  intros H'. unfold publish_creation, deref in H'. destruct (heap s !! p) as [c|] eqn:Hc; [|done]. cbn [expect obind] in H'.
  destruct (bool_decide _); [|done]. cbn [check obind] in H'. destruct (bool_decide _); [|done]. cbn [check obind] in H'.
  destruct (assign_live_permit _ _ _) as [s1|] eqn:Ha; [|done]. cbn [obind] in H'.
  destruct (consume_reservation _ _ _ _) as [[[s2 es2] k]|] eqn:Hcons; [|done]. cbn [obind] in H'.
  assert (k = Some key) as ->.
  { unfold consume_reservation in Hcons. returned Hcons.
    by match goal with Hb : bool_decide (reserved_key _ = Some key) = true |- _ => apply bool_decide_eq_true_1 in Hb end. }
  destruct (match binding_durable _ with Some _ => _ | None => _ end) as [s3 owner].
  destruct (if decide _ then _ else _) as [m|]; [|done]. cbn [obind] in H'.
  unfold lift_registry, insert_entry in H'. destruct (plus_u64 _ _); [|done]. cbn [obind] in H'. injection H' as <- <-.
  eexists (run_id (the_run c)), _. cbn. rewrite !lookup_insert_eq. by split_and!.
Qed.

(** Once a Run is published under its creation key, resolving the key answers a
    request for the same creation with that Run, and any other request with a conflict. *)
Theorem published_key_resolves s0 s t p key s' (Hboot : booted B R L s0) (Hreach : rtc moves s0 s)
    (Hcaller : enabled (ReqPublish t p key) s) (Hpublish : sys_step (ReqPublish t p key) s = Ret s') :
  ∃ c, heap (shared s') !! p = Some c ∧ ∀ request,
    resolve_creation_info key request (shared s') =
      Ret (if matches_run request (the_run c) then Ok (Some (info (the_run c)))
           else Err (protocol_error CreationConflict
                  "Run creation operation key is already bound to a different request")).
Proof.
  pose proof (registry_reach_inv B R L s0 s Hboot Hreach) as Hi.
  destruct (registry_step_ok B R L _ s Hi Hcaller) as (s1 & Hs1 & Hi'). rewrite Hpublish in Hs1. injection Hs1 as <-.
  destruct Hcaller as (n & x & c & Ho & _). cbn [sys_step] in Hpublish. rewrite Ho in Hpublish. cbn [expect obind] in Hpublish.
  destruct (publish_creation _ _ _ _) as [[y es]|] eqn:Hp; [|done]. cbn [obind] in Hpublish. injection Hpublish as <-.
  destruct (published_entry _ _ _ _ _ _ _ Hp) as (id & e & He & <- & Hres & Hkey & Hk).
  destruct (i_ids _ _ _ _ Hi' id e He) as (c' & Hc' & _). exists c'. split; [exact Hc'|]. intros request.
  cbn in Hc' |- *. unfold resolve_creation_info.
  destruct (find_reservation key (registry y)) as [r|] eqn:Hf.
  { exfalso. unfold find_reservation in Hf. destruct (filter _ _) as [|[t' r'] l] eqn:Hl; [done|].
    assert ((t', r') ∈ filter (λ kv, reserved_key kv.2 = Some key) (map_to_list (reservations (registry y)))) as Hin
      by (rewrite Hl; by left).
    apply list_elem_of_filter in Hin as [Hrk Hin]. apply elem_of_map_to_list in Hin.
    destruct (i_names _ _ _ _ Hi') as [Hn _]. destruct (Hn _ _ Hin) as [_ Hfree].
    specialize (Hfree key Hrk). unfold g_of in Hfree. cbn in Hfree. congruence. }
  unfold creation_entry. rewrite Hk, He. rewrite decide_True by done. unfold deref at 1. rewrite Hc'. cbn [expect obind].
  destruct (matches_run request (the_run c')); [|done]. cbn [negb]. unfold retained_info. rewrite Hres.
  unfold deref. rewrite Hc'. done.
Qed.
End props.

(** ** A concrete history *)

Create HintDb history.
Module Sample.
#[export] Instance display : UuidDisplay := λ id, pretty id.
#[export] Instance run_layout : RunLayout :=
  {| resident_run_owner_bytes := 10; resident_metadata_bytes := λ _, 5; info_json_bytes := λ _, 20 |}.
#[export] Instance stop_layout : StopLayout := {| size_of_stop_record := 8; size_of_stop_cell := 8 |}.

Definition lane_control (id : RunId) (closed : bool) : NativeRunControl :=
  {| native := {| control_run := id; resources := DEFAULT;
       state := {| phase := if closed then PhaseClosed else PhaseOpen; confirmed_size := None; owner_failure := None;
         lane := {| input_queue := []; input_commands := 0; input_bytes := 0; input_scheduled := false;
                    input_blocked := false; input_failure := None; applied_input_bytes := 0 |};
         ledger := {| input_operations := ∅; completed_input_operations := []; retained_input_request_bytes := 0 |};
         child := {| child_open := negb closed; stop_pending := false; child_commands := [] |};
         input_result_max_entries := 8; input_result_max_request_bytes := 4096 |};
       inner_failure := None; writer_open := negb closed;
       NativeControl.control_budget := ByteBudget.new 4096;
       service_bound := true; published := []; next_channel := 0; sent := [] |};
     native_reap := if closed then Reaped else ReapPending None None;
     entry_is_retired := closed; inner_owners := 1; pty_open := negb closed |}.
Definition native_run (id : RunId) (ended : option N) : Run :=
  {| run_id := id; run_spec := None; run_lineage := None; run_backend := NativeBackend;
     run_capabilities := NATIVE; run_pid := Some 7;
     run_state := match ended with Some _ => Exited 0 None | None => Running end;
     run_output := {| facts_latest_output_bytes := 3; facts_first_available_byte := 0; facts_retained_bytes := 3 |};
     run_service := None; durable_output_head := None;
     incarnation_control := Some (NativeRun (lane_control id (bool_decide (is_Some ended))));
     persistence_mode := MemoryOnly; persistence := BindingDisabled; run_attachments := 0;
     terminal_ordinal := ended; live_permit := false; run_events := [] |}.

Definition env : ReserveEnv :=
  {| busy_release := λ _, false; busy_select := λ _, false; busy_detach := λ _, false;
     index_memory := Ok tt; removed_memory := Ok tt |}.
Definition after (q : Req) (s : Sys) : Sys := match sys_step q s with Ret s' => s' | Panic _ => s end.
(** Two Runs may be retained, both live. *)
Definition s0 : Sys := sys_new (Some 2) (Some 2) 1000 1000000.
Definition s1 : Sys := Eval vm_compute in after (ReqReserve env 1 (Some "a") None 100) s0.
Definition s2 : Sys := Eval vm_compute in after (ReqLaunch 1 0 (native_run 1 None)) s1.
Definition s3 : Sys := Eval vm_compute in after (ReqPublish 1 0 "a") s2.
Definition s4 : Sys := Eval vm_compute in after (ReqReserve env 2 (Some "b") None 100) s3.
Definition s5 : Sys := Eval vm_compute in after (ReqLaunch 2 1 (native_run 2 None)) s4.
Definition s6 : Sys := Eval vm_compute in after (ReqPublish 2 1 "b") s5.
(** The first Run is stopped and ends. *)
Definition settlement : StopSettlement :=
  {| settle_id := 1; settle_key := "halt"; settle_cell := 0; settle_run := 0 |}.
Definition flight : StopFlight := {| flight_run := 0; flight_cell := 0 |}.
Definition s7 : Sys := Eval vm_compute in after (ReqBeginStop (Ok tt) 1 "halt") s6.
Definition s8 : Sys := Eval vm_compute in after (ReqSettle settlement (Ok (StopReceipt Graceful))) s7.
Definition s9 : Sys := Eval vm_compute in after (ReqRun 0 (set_live_permit true (native_run 1 (Some 1)))) s8.
Definition s10 : Sys := Eval vm_compute in after (ReqUnpin 0) s9.
(** Its record and its live slot fund a third Run. *)
Definition s11 : Sys := Eval vm_compute in after (ReqReserve env 3 (Some "c") None 100) s10.
Definition s12 : Sys := Eval vm_compute in after (ReqLaunch 3 2 (native_run 3 None)) s11.
Definition s13 : Sys := Eval vm_compute in after (ReqPublish 3 2 "c") s12.

Lemma moved q s s' : enabled q s → sys_step q s = Ret s' → moves s s'.
Proof. intros He Hs. by exists q. Qed.
Lemma idle_reserve id key bytes s : reservations (g_of s) = ∅ → runs (g_of s) !! id = None →
  creation_runs (g_of s) !! key = None → projected (runs (g_of s)) (reservations (g_of s)) + bytes ≤ u64_max →
  next_ticket (g_of s) < u64_max → enabled (ReqReserve env id (Some key) None bytes) s.
Proof.
  intros Hr Hid Hk Hp Hn. cbn [enabled]. split_and!; try done.
  - intros t r Ht. rewrite Hr in Ht. by rewrite lookup_empty in Ht.
  - intros k [= <-]. split; [|done]. unfold find_reservation. by rewrite Hr, map_to_list_empty.
Qed.
Ltac computed := vm_compute; first [discriminate|reflexivity].
Ltac reserved q := apply (moved q); [apply idle_reserve; computed|computed].
Ltac launched q :=
  apply (moved q); [split_and!; [computed|reflexivity|eexists; split; computed|by intros d Hd]|computed].
Ltac published q :=
  apply (moved q);
  [eexists _, _, _; split_and!; [computed|computed|reflexivity|left|computed|reflexivity|by intros Hd]|computed].

Lemma boot : booted 1000 2 2 s0.
Proof. apply (booted_new 1000 2 2 (Some 2) (Some 2) 1000 1000000); vm_compute; discriminate. Qed.
Lemma move1 : moves s0 s1.
Proof. reserved (ReqReserve env 1 (Some "a") None 100). Qed.
Lemma move2 : moves s1 s2.
Proof. launched (ReqLaunch 1 0 (native_run 1 None)). Qed.
Lemma move3 : moves s2 s3.
Proof. published (ReqPublish 1 0 "a"). Qed.
Lemma move4 : moves s3 s4.
Proof. reserved (ReqReserve env 2 (Some "b") None 100). Qed.
Lemma move5 : moves s4 s5.
Proof. launched (ReqLaunch 2 1 (native_run 2 None)). Qed.
Lemma move6 : moves s5 s6.
Proof. published (ReqPublish 2 1 "b"). Qed.
Lemma move7 : moves s6 s7.
Proof. apply (moved (ReqBeginStop (Ok tt) 1 "halt")); [exact I|computed]. Qed.
Lemma move8 : moves s7 s8.
Proof. apply (moved (ReqSettle settlement (Ok (StopReceipt Graceful)))); [left|computed]. Qed.
Lemma move9 : moves s8 s9.
Proof. apply (moved (ReqRun 0 (set_live_permit true (native_run 1 (Some 1))))); [|computed]. eexists. split; [computed|]. split_and!; [computed|computed|by intros d Hd]. Qed.
Lemma move10 : moves s9 s10.
Proof. apply (moved (ReqUnpin 0)); [left|computed]. Qed.
Lemma move11 : moves s10 s11.
Proof. reserved (ReqReserve env 3 (Some "c") None 100). Qed.
Lemma move12 : moves s11 s12.
Proof. launched (ReqLaunch 3 2 (native_run 3 None)). Qed.
#[local] Hint Resolve move1 move2 move3 move4 move5 move6 move7 move8 move9 move10 move11 move12 : history.
Lemma to_s5 : rtc moves s0 s5.
Proof. do 5 (eapply rtc_l; [eauto with history|]). constructor. Qed.
Lemma to_s6 : rtc moves s0 s6.
Proof. eapply rtc_r; [exact to_s5|exact move6]. Qed.
Lemma to_s10 : rtc moves s0 s10.
Proof. etrans; [exact to_s6|]. do 4 (eapply rtc_l; [eauto with history|]). constructor. Qed.
Lemma to_s12 : rtc moves s0 s12.
Proof. etrans; [exact to_s6|]. do 6 (eapply rtc_l; [eauto with history|]). constructor. Qed.
Lemma stop_kept_s10 : rtc (stays 1) s7 s10.
Proof.
  assert (∀ q s s', enabled q s → sys_step q s = Ret s' → ¬ forgets q 1 →
    is_Some (runs (g_of s') !! 1) → stays 1 s s') as Hstay by (intros q; intros; by exists q).
  eapply rtc_l; [apply (Hstay (ReqSettle settlement (Ok (StopReceipt Graceful)))); [left|computed|by intros (? & ? & ? & _)|eexists; computed]|].
  eapply rtc_l; [apply (Hstay (ReqRun 0 (set_live_permit true (native_run 1 (Some 1))))); [|computed|by intros (? & ? & ? & _)|eexists; computed]|].
  - eexists. split; [computed|]. split_and!; [computed|computed|by intros d Hd].
  - apply rtc_once. apply (Hstay (ReqUnpin 0)); [left|computed|by intros (? & ? & ? & _)|eexists; computed].
Qed.
End Sample.
#[local] Existing Instances Sample.display Sample.run_layout Sample.stop_layout.

(** ** The properties at work *)

Lemma registry_sections_never_panic_witness : ∃ s', sys_step (ReqPublish 3 2 "c") Sample.s12 = Ret s'.
Proof.
  apply (registry_sections_never_panic 1000 2 2 Sample.s0 Sample.s12 _ Sample.boot Sample.to_s12).
  eexists _, _, _. split; [vm_compute; reflexivity|]. split; [vm_compute; reflexivity|].
  split; [reflexivity|]. split; [left|]. split; [vm_compute; reflexivity|]. split; [reflexivity|by intros Hd].
Defined.

Lemma registry_stays_within_capacity_witness :
  size (runs (registry (shared Sample.s12))) = 2%nat ∧ charges (runs (registry (shared Sample.s12))) = 200 ∧
  N.of_nat (size (runs (registry (shared Sample.s12))))
    + msum record_burden (reservations (registry (shared Sample.s12))) ≤ 2.
Proof.
  split; [vm_compute; reflexivity|]. split; [vm_compute; reflexivity|].
  exact (proj1 (proj2 (proj2
    (registry_stays_within_capacity 1000 2 2 Sample.s0 Sample.s12 Sample.boot Sample.to_s12)))).
Defined.

Lemma registry_indexes_are_exact_witness :
  creation_runs (registry (shared Sample.s12)) !! "a"%string = Some 1 ∧
  ∃ e, runs (registry (shared Sample.s12)) !! 1 = Some e ∧ entry_key e = Some "a"%string.
Proof.
  split; [vm_compute; reflexivity|].
  apply (registry_indexes_are_exact 1000 2 2 Sample.s0 Sample.s12 Sample.boot Sample.to_s12).
  vm_compute. reflexivity.
Defined.

Lemma stop_key_binds_one_operation_witness :
  ∃ x, begin_recoverable_stop (Ok tt) 1 "halt" (shared Sample.s6) = Ret (x, Ok (StopOwner Sample.flight Sample.settlement)) ∧
  ∃ e, begin_recoverable_stop (Ok tt) 2 "halt" x = Ret (x, Err e) ∧ code (error e) = StopOperationConflict.
Proof.
  eexists. split; [vm_compute; reflexivity|].
  edestruct (stop_key_binds_one_operation (Ok tt) 1 "halt" (shared Sample.s6)) as (_ & _ & _ & Hother & _);
    [vm_compute; reflexivity|].
  destruct (Hother (Ok tt) 2) as (e & He & _ & Hc); [discriminate|]. exists e. split; [exact He|exact Hc].
Defined.

Lemma retries_join_one_flight_witness :
  cells (shared Sample.s10) !! 0 = Some (Some (Ok (StopReceipt Graceful))) ∧
  ∃ x r, begin_recoverable_stop (Ok tt) 1 "halt" (shared Sample.s10) = Ret (x, r) ∧
    cells x = cells (shared Sample.s10).
Proof.
  split; [vm_compute; reflexivity|].
  edestruct (retries_join_one_flight 1000 2 2 Sample.s0 Sample.s6 Sample.s7 Sample.s10 (Ok tt) 1 "halt"
    Sample.flight Sample.settlement Sample.boot Sample.to_s6) as (x & r & Hb & _ & _ & Hc).
  - split; [vm_compute; reflexivity|]. eexists. vm_compute. reflexivity.
  - exact Sample.stop_kept_s10.
  - exists x, r. split; [exact Hb|exact Hc].
Defined.

Lemma selection_is_shortest_oldest_prefix_witness :
  ∃ k, select_publication_candidates (λ _, false) (Some 100) (shared Sample.s10) =
    Ret {| evaluated := k; selected := Ok [1] |} ∧
  enough (runs (g_of Sample.s10)) (needs_record_of (g_of Sample.s10)) (to_fund_of (Some 100) (g_of Sample.s10)) [1].
Proof.
  destruct (selection_is_shortest_oldest_prefix 1000 2 2 Sample.s0 Sample.s10 (λ _, false) 100 Sample.boot
    Sample.to_s10) as (k & r & Hk & Hr); [vm_compute; discriminate|].
  exists k. assert (match select_publication_candidates (λ _, false) (Some 100) (shared Sample.s10) with
    | Ret c => selected c = Ok [1] | Panic _ => False end) as Hone by (vm_compute; reflexivity).
  rewrite Hk in Hone. cbn [selected] in Hone. rewrite Hone in Hk, Hr. split; [exact Hk|]. exact (proj1 (proj2 (proj1 Hr))).
Defined.

(** A selection that sorts everything meets the contract of [select_nth_unstable]. *)
Lemma sorting_selects : selects_nth (λ _, merge_sort N.le).
Proof.
  intros n l Hn. split; [apply merge_sort_Permutation|].
  assert (n < length (merge_sort N.le l))%nat as Hl by (by rewrite merge_sort_Permutation).
  destruct (lookup_lt_is_Some_2 _ _ Hl) as [x Hx]. exists x. split; [done|].
  pose proof (merge_sort_strong l) as Hs. split; apply List.Forall_forall; intros y Hy%list_elem_of_In.
  - apply list_elem_of_lookup_1 in Hy as [i Hi]. apply lookup_take_Some in Hi as [Hi Hlt].
    by apply (StronglySorted_lookup N.le _ i n y x Hs).
  - apply list_elem_of_lookup_1 in Hy as [i Hi]. rewrite lookup_drop in Hi.
    apply (StronglySorted_lookup N.le _ n (S n + i) x y Hs); [lia|done|done].
Qed.
Lemma listing_walk_meets_every_run_once_witness :
  ∃ rows, list_walk 3 (λ _, merge_sort N.le) None (Some 1) (shared Sample.s10) = Some rows ∧ map sum_id rows = [1; 2].
Proof.
  destruct (listing_walk_meets_every_run_once 1000 2 2 Sample.s0 Sample.s10 (λ _, merge_sort N.le) (Some 1)
    Sample.boot Sample.to_s10 sorting_selects) as (rows & Hw & Hr & _).
  exists rows. split; [exact Hw|exact Hr].
Defined.

Lemma removal_takes_only_idle_runs_witness :
  ∃ x e, remove_memory (λ _, false) (λ _, false) 1 (shared Sample.s10) = Ret (x, Ok e) ∧
    runs (registry x) = delete 1 (runs (g_of Sample.s10)).
Proof.
  eexists _, _. split; [vm_compute; reflexivity|].
  eapply (removal_takes_only_idle_runs 1000 2 2 Sample.s0 Sample.s10 (λ _, false) (λ _, false) 1 _ _
    Sample.boot Sample.to_s10). vm_compute. reflexivity.
Defined.

Lemma published_key_resolves_witness :
  ∃ c, heap (shared Sample.s13) !! 2 = Some c ∧
    resolve_creation_info "c" (ForkRequest 9 LevelA) (shared Sample.s13) =
      Ret (Err (protocol_error CreationConflict
                  "Run creation operation key is already bound to a different request")).
Proof.
  destruct (published_key_resolves 1000 2 2 Sample.s0 Sample.s12 3 2 "c" Sample.s13 Sample.boot Sample.to_s12)
    as (c & Hc & Hr).
  - eexists _, _, _. split; [vm_compute; reflexivity|]. split; [vm_compute; reflexivity|].
    split; [reflexivity|]. split; [left|]. split; [vm_compute; reflexivity|]. split; [reflexivity|by intros Hd].
  - vm_compute. reflexivity.
  - exists c. split; [exact Hc|]. rewrite Hr. vm_compute in Hc. injection Hc as <-. reflexivity.
Defined.
