(* ===== verification/StorageErrors.v ===== *)
(** * Errors of the durable store

    [persistence.rs], [PersistenceError]: what can go wrong with the SQLite database
    and the replay files, and how an error decides what may happen next: whether the
    mutation may be retried, whether it is only waiting for space, and whether the
    outcome of its transaction must be reconciled first.  The numbers of errno and of
    SQLite's extended codes belong to the host and to SQLite: class [StorageCodes]. *)

From S2P Require Import Prelude.
From S2P Require Import Protocol.

(** rusqlite's primary codes, of which the source tests four. *)
Inductive SqliteCode :=
  | DiskFull | SystemIoFailure | DatabaseBusy | CannotOpen | OtherSqliteCode (n : Z).
#[global] Instance SqliteCode_eq_dec : EqDecision SqliteCode.
Proof. solve_decision. Defined.

(** [io::Error]: what [raw_os_error] and [kind] answer, and its text. *)
Inductive IoKind := KindStorageFull | KindNotFound | OtherKind.
#[global] Instance IoKind_eq_dec : EqDecision IoKind.
Proof. solve_decision. Defined.
Record IoError := { raw_os_error : option Z; io_kind : IoKind; io_text : string }.

Inductive PersistenceError :=
  | InvalidDirectory (path message : string)
  | StateInUse (path : string)
  | UnsupportedSchema (found expected : Z)
  | Corrupt (message : string)
  | ResourcePressure (message : string)
  | PendingPressure (message : string)
  | DatabaseCapacity (pages free_pages page_limit : N)
  | Io (path : string) (source : IoError)
  | Database (message : string) (code : option SqliteCode) (extended errno : option Z)
  | FilesystemCapacity (available : option N) (required : N) (detail : string)
  | StorageUnavailable (available : option N) (error : PersistenceError)
  | Operation (context : string) (stage : StorageFailureStage)
      (outcome : StorageTransactionOutcome) (error : PersistenceError)
  | Uncertain (message : string) (error : PersistenceError)
  | RetainedFailure (message : string) (detail : option StorageFailure)
  | ActorStopped
  | WalCheckpointBusy (attempts : N) (detail : string)
  | ActorStart (message : string)
  | Mutation (message : string).

Class StorageCodes := {
  NOSPC : Z; DQUOT : Z; ACCESS : Z; PERM : Z; NOENT : Z; MFILE : Z; NFILE : Z;
  IOERR_WRITE : Z; IOERR_FSYNC : Z; IOERR_DIR_FSYNC : Z; IOERR_TRUNCATE : Z;
  error_text : PersistenceError → string;
}.

Section errors.
Context `{!StorageCodes}.

(** ** Classes of conditions *)

(** Conditions that may change while the same files and owner remain. *)
Definition path_retry_errno (errno : Z) : bool :=
  bool_decide (errno ∈ [ACCESS; PERM; NOENT; MFILE; NFILE]).
Definition removable_errno (errno : Z) : bool :=
  bool_decide (errno ∈ [NOSPC; DQUOT; ACCESS; PERM; NOENT; MFILE; NFILE]).

Definition not_yet_committed (o : StorageTransactionOutcome) : bool :=
  match o with TxNotStarted | TxNotCommitted => true | _ => false end.
Definition some_and {A} (f : A → bool) (o : option A) : bool :=
  match o with Some a => f a | None => false end.
Definition none_or {A} (f : A → bool) (o : option A) : bool :=
  match o with Some a => f a | None => true end.

Fixpoint is_disk_full (e : PersistenceError) : bool :=
  match e with
  | Operation _ _ o e => not_yet_committed o && is_disk_full e
  | Database _ (Some DiskFull) _ _ => true
  | _ => false
  end.

Definition is_storage_pressure_io_failure (e : PersistenceError) : bool :=
  match e with
  | Database _ (Some SystemIoFailure) (Some extended) errno =>
      none_or removable_errno errno &&
      bool_decide (extended ∈ [IOERR_WRITE; IOERR_FSYNC; IOERR_DIR_FSYNC; IOERR_TRUNCATE])
  | _ => false
  end.

Definition is_database_busy (e : PersistenceError) : bool :=
  match e with Database _ (Some DatabaseBusy) _ _ => true | _ => false end.

Fixpoint is_capacity_debt (e : PersistenceError) : bool :=
  match e with
  | Operation _ _ o e => not_yet_committed o && is_capacity_debt e
  | DatabaseCapacity _ _ _ | FilesystemCapacity _ _ _ | PendingPressure _
  | StorageUnavailable _ _ => true
  | _ => false
  end.

Fixpoint is_open_retry (e : PersistenceError) : bool :=
  match e with
  | Operation _ _ o e => not_yet_committed o && is_open_retry e
  | Database _ (Some CannotOpen) _ (Some errno) => removable_errno errno
  | Io _ source => some_and removable_errno (raw_os_error source)
  | _ => false
  end.

Fixpoint is_transient_storage (e : PersistenceError) : bool :=
  match e with
  | Operation _ _ o e => not_yet_committed o && is_transient_storage e
  | _ => is_open_retry e || is_disk_full e || is_storage_pressure_io_failure e ||
         match e with Io _ source => bool_decide (io_kind source = KindStorageFull) | _ => false end ||
         match e with WalCheckpointBusy _ _ => true | _ => false end
  end.

Definition is_admission_failure (e : PersistenceError) : bool :=
  is_capacity_debt e || is_transient_storage e ||
  match e with ResourcePressure _ | ActorStopped => true | _ => false end.

Fixpoint requires_owner_recheck (e : PersistenceError) : bool :=
  match e with
  | WalCheckpointBusy _ _ => true
  | StorageUnavailable _ e => requires_owner_recheck e
  | Operation _ _ o e => not_yet_committed o && requires_owner_recheck e
  | Database _ _ _ (Some errno) => is_transient_storage e && path_retry_errno errno
  | Io _ source => some_and path_retry_errno (raw_os_error source)
  | _ => false
  end.

Fixpoint requires_reconciliation (e : PersistenceError) : bool :=
  match e with
  | Operation _ _ o e => negb (not_yet_committed o) || requires_reconciliation e
  | Mutation _ | RetainedFailure _ _ | Uncertain _ _ => true
  | _ => false
  end.

(** ** The failure a client is told *)

Definition unknown_failure : StorageFailure :=
  {| storage_stage := None; sqlite_primary_code := None; sqlite_extended_code := None;
     system_errno := None; transaction_outcome := TxUnknown |}.

Fixpoint storage_failure_of (e : PersistenceError) : option StorageFailure :=
  match e with
  | Database _ _ extended errno =>
      Some {| storage_stage := None; sqlite_primary_code := (λ c, Z.land c 255) <$> extended;
              sqlite_extended_code := extended; system_errno := errno;
              transaction_outcome := TxUnknown |}
  | Io _ source =>
      Some {| storage_stage := None; sqlite_primary_code := None; sqlite_extended_code := None;
              system_errno := raw_os_error source; transaction_outcome := TxUnknown |}
  | Operation _ stage o e =>
      let v := default unknown_failure (storage_failure_of e) in
      Some {| storage_stage := Some stage; sqlite_primary_code := sqlite_primary_code v;
              sqlite_extended_code := sqlite_extended_code v; system_errno := system_errno v;
              transaction_outcome := o |}
  | StorageUnavailable _ e => storage_failure_of e
  | RetainedFailure _ detail => detail
  | Uncertain _ e =>
      let v := default unknown_failure (storage_failure_of e) in
      Some {| storage_stage := storage_stage v; sqlite_primary_code := sqlite_primary_code v;
              sqlite_extended_code := sqlite_extended_code v; system_errno := system_errno v;
              transaction_outcome := TxUnknown |}
  | Mutation _ | Corrupt _ | FilesystemCapacity _ _ _ | DatabaseCapacity _ _ _
  | PendingPressure _ | WalCheckpointBusy _ _ => Some unknown_failure
  | _ => None
  end.

(** [PersistenceError::at]. *)
Definition left_as_is (e : PersistenceError) : bool :=
  match e with
  | Operation _ _ _ _ | DatabaseCapacity _ _ _ | FilesystemCapacity _ _ _ | PendingPressure _ => true
  | _ => bool_decide (storage_failure_of e = None)
  end.
Definition error_at (stage : StorageFailureStage) (o : StorageTransactionOutcome)
    (e : PersistenceError) : PersistenceError :=
  if left_as_is e then e else
  Operation "" stage
    (if requires_reconciliation e && bool_decide (o = TxNotCommitted) then TxUnknown else o) e.

Definition combine_errors (primary secondary : PersistenceError) : PersistenceError :=
  Mutation (error_text primary +:+ "; additionally: " +:+ error_text secondary).

(** [remember_failure]: the first failure is the one that is kept. *)
Definition remember_failure (e : PersistenceError) (kept : option string * option StorageFailure)
    : option string * option StorageFailure :=
  match kept with
  | (None, _) => (Some (error_text e), storage_failure_of e)
  | _ => kept
  end.

(** ** Bounded retries *)

Definition STORAGE_RETRY_INTERVAL_MS : N := 50.
Definition WAL_CHECKPOINT_MAX_RETRIES : nat := 8.
Definition WAL_CHECKPOINT_INITIAL_BACKOFF_MS : N := 10.
Definition WAL_CHECKPOINT_MAX_BACKOFF_MS : N := 100.
Definition next_wal_checkpoint_backoff (current : N) : N :=
  N.min (current * 2) WAL_CHECKPOINT_MAX_BACKOFF_MS.

(** [retry_transient_storage] over the state its mutation owns: [stops] says at which of
    its looks shutdown is seen, and [None] is the abandoned loop. *)
Fixpoint retry_transient {S T} (fuel : nat) (stops : nat → bool)
    (mutation : S → S * result T PersistenceError) (storage_retried : bool) (s : S)
    : outcome (S * option (result T PersistenceError)) :=
  match fuel with
  | O => Panic "out of fuel"
  | Datatypes.S fuel =>
      if stops (2 * fuel + 1)%nat then Ret (s, None) else
      match mutation s with
      | (s, Err e) =>
          if is_transient_storage e then
            if storage_retried then Ret (s, Some (Err e)) else
            if stops (2 * fuel)%nat then Ret (s, None)
            else retry_transient fuel stops mutation true s
          else Ret (s, Some (Err e))
      | (s, r) => Ret (s, Some r)
      end
  end.
Definition retry_transient_storage {S T} (stops : nat → bool)
    (mutation : S → S * result T PersistenceError) (s : S)
    : outcome (S * option (result T PersistenceError)) :=
  retry_transient 2 stops mutation false s.

Definition wal_checkpoint_retry_exhausted (attempts : N) (detail : option string)
    : PersistenceError := WalCheckpointBusy attempts (default "checkpoint remained busy" detail).

(** One try of [retry_wal_checkpoint]: what SQLite and the file answered, and whether
    shutdown came before it or during the wait after it. *)
Record CheckpointTry := {
  stop_before : bool; stop_after : bool;
  checkpoint_answer : result (Z * Z * Z) PersistenceError;
  wal_len_answer : result N PersistenceError;
}.
Fixpoint retry_checkpoint (retries : nat) (tries : nat → CheckpointTry) (backoff : N)
    : result unit PersistenceError * list N :=
  let attempt := (WAL_CHECKPOINT_MAX_RETRIES - retries)%nat in
  let t := tries attempt in
  if stop_before t then (Err ActorStopped, []) else
  let again (detail : string) :=
    match retries with
    | O => (Err (wal_checkpoint_retry_exhausted (N.of_nat attempt + 1) (Some detail)), [])
    | Datatypes.S retries =>
        if stop_after t then (Err ActorStopped, [backoff]) else
        let '(r, waits) := retry_checkpoint retries tries (next_wal_checkpoint_backoff backoff) in
        (r, backoff :: waits)
    end in
  match checkpoint_answer t with
  | Err e => if is_database_busy e then again (error_text e) else (Err e, [])
  | Ok (busy, log_frames, checkpointed) =>
      match wal_len_answer t with
      | Err e => (Err e, [])
      | Ok wal_bytes =>
          if bool_decide (busy = 0%Z) && bool_decide (wal_bytes = 0) then (Ok tt, []) else
          again ("busy=" +:+ pretty busy +:+ ", log_frames=" +:+ pretty log_frames +:+
                 ", checkpointed_frames=" +:+ pretty checkpointed +:+
                 ", wal_bytes=" +:+ pretty wal_bytes)
      end
  end.
(** The result, and the waits slept in between, in milliseconds. *)
Definition retry_wal_checkpoint (tries : nat → CheckpointTry)
    : result unit PersistenceError * list N :=
  retry_checkpoint WAL_CHECKPOINT_MAX_RETRIES tries WAL_CHECKPOINT_INITIAL_BACKOFF_MS.

(** ** Lemmas *)

Lemma disk_full_settled e : is_disk_full e = true → requires_reconciliation e = false.
Proof. induction e; cbn; try done; destruct outcome; cbn; naive_solver. Qed.
Lemma open_retry_settled e : is_open_retry e = true → requires_reconciliation e = false.
Proof. induction e; cbn; try done; destruct outcome; cbn; naive_solver. Qed.
Lemma transient_settled e : is_transient_storage e = true → requires_reconciliation e = false.
Proof. induction e; cbn; try done; destruct outcome; cbn; naive_solver. Qed.
Lemma capacity_debt_settled e : is_capacity_debt e = true → requires_reconciliation e = false.
Proof. induction e; cbn; try done; destruct outcome; cbn; naive_solver. Qed.
Lemma admission_settled e : is_admission_failure e = true → requires_reconciliation e = false.
Proof.
  unfold is_admission_failure. rewrite !orb_true_iff.
  intros [[K|K]|K]; [by apply capacity_debt_settled|by apply transient_settled|by destruct e].
Qed.

Lemma requires_reconciliation_at stage o e :
  requires_reconciliation (error_at stage o e) =
    requires_reconciliation e || (negb (left_as_is e) && negb (not_yet_committed o)).
Proof.
  unfold error_at. destruct (left_as_is e); cbn; [by rewrite orb_false_r|].
  destruct (requires_reconciliation e), o; done.
Qed.
End errors.
