(* ===== verification/ReplayStore.v ===== *)
(** * The durable replay window

    [persistence.rs]: the tables [runs] and [replay_chunks], the files of replay
    bytes, and what one transaction does to them: appending output, pruning a Run and
    the whole daemon, reading pages back and validating a store at startup.

    A SQL statement is its effect on the tables.  It can fail at any time ([fault]);
    it fails when it would violate a constraint of the schema ([constraints]); a
    trigger of [initialize_transaction_accounting] fires with it.  [i64] columns are
    [Z]; a row number is never exhausted. *)

From S2P Require Import Prelude.
From S2P Require Import Protocol.
From S2P Require Import StorageErrors.

(** ** The schema ([create_schema]) *)

Record ReplayRow := {
  ordinal : Z; row_run : RunId; row_start : Z; row_end : Z;
  row_file : string; row_offset : Z; row_bytes : Z;
}.
#[global] Instance ReplayRow_eq_dec : EqDecision ReplayRow.
Proof. solve_decision. Defined.

Record RunRow := {
  row_creation_key : string; spec_json : string; lineage_json : option string;
  state_kind : string; state_json : string; source_epoch : string; row_pid : option Z;
  durable_first_available_byte : Z; durable_output_bytes : Z; replay_bytes : Z;
  row_truncated : bool; row_metadata_bytes : Z;
  created_at_ms : Z; updated_at_ms : Z; terminal_at_ms : option Z;
}.
#[global] Instance RunRow_eq_dec : EqDecision RunRow.
Proof. solve_decision. Defined.

(** The connection-local totals kept by triggers. *)
Record Accounting := {
  acc_records : Z; acc_metadata_bytes : Z; acc_replay_bytes : Z; acc_replay_runs : Z;
}.
Record Db := {
  chunk_rows : list ReplayRow;       (* in ordinal order *)
  chunk_sequence : Z;                (* AUTOINCREMENT *)
  run_rows : gmap RunId RunRow;
  active_replay_file : string;
  accounting : Accounting;
}.

Definition row_checks (r : ReplayRow) : Prop :=
  (0 ≤ row_start r ∧ row_start r < row_end r ∧ 0 ≤ row_offset r ∧ 0 < row_bytes r)%Z.
Definition run_checks (r : RunRow) : Prop :=
  (0 ≤ durable_first_available_byte r ∧ 0 ≤ durable_output_bytes r ∧ 0 ≤ replay_bytes r ∧
   0 ≤ row_metadata_bytes r)%Z ∧ state_kind r ∈ ["running"; "exited"; "interrupted"].
Definition constraints (d : Db) : Prop :=
  Forall row_checks (chunk_rows d) ∧
  NoDup (map (λ r, (row_run r, row_start r)) (chunk_rows d)) ∧
  Forall (λ r, is_Some (run_rows d !! row_run r)) (chunk_rows d) ∧
  map_Forall (λ _, run_checks) (run_rows d) ∧
  NoDup (map (λ kv, row_creation_key kv.2) (map_to_list (run_rows d))) ∧
  (0 ≤ acc_records (accounting d) ∧ 0 ≤ acc_metadata_bytes (accounting d) ∧
   0 ≤ acc_replay_bytes (accounting d) ∧ 0 ≤ acc_replay_runs (accounting d))%Z.
#[global] Instance constraints_dec d : Decision (constraints d).
Proof. unfold constraints, row_checks, run_checks. apply _. Defined.

Definition set_chunks (l : list ReplayRow) (d : Db) : Db :=
  {| chunk_rows := l; chunk_sequence := chunk_sequence d; run_rows := run_rows d;
     active_replay_file := active_replay_file d; accounting := accounting d |}.

Definition positive (n : Z) : Z := if decide (0 < n)%Z then 1 else 0.
(** [persistence_account_update]. *)
Definition account_update (old new : RunRow) (a : Accounting) : Accounting :=
  {| acc_records := acc_records a;
     acc_metadata_bytes := acc_metadata_bytes a - row_metadata_bytes old + row_metadata_bytes new;
     acc_replay_bytes := acc_replay_bytes a - replay_bytes old + replay_bytes new;
     acc_replay_runs := acc_replay_runs a - positive (replay_bytes old) + positive (replay_bytes new)
  |}%Z.
(** [UPDATE runs SET ... WHERE id = ?1]. *)
Definition update_run (id : RunId) (f : RunRow → RunRow) (d : Db) : Db :=
  match run_rows d !! id with
  | None => d
  | Some r =>
      {| chunk_rows := chunk_rows d; chunk_sequence := chunk_sequence d;
         run_rows := <[id := f r]> (run_rows d); active_replay_file := active_replay_file d;
         accounting := account_update r (f r) (accounting d) |}
  end.

(** [INSERT INTO replay_chunks]. *)
Definition insert_chunk (id : RunId) (start stop : Z) (file : string) (offset bytes : Z)
    (d : Db) : Db :=
  {| chunk_rows := chunk_rows d ++
       [{| ordinal := chunk_sequence d + 1; row_run := id; row_start := start; row_end := stop;
           row_file := file; row_offset := offset; row_bytes := bytes |}];
     chunk_sequence := chunk_sequence d + 1; run_rows := run_rows d;
     active_replay_file := active_replay_file d; accounting := accounting d |}%Z.

(** The rows of a Run, in ordinal order; [ORDER BY start_byte]. *)
Definition rows_of (id : RunId) (d : Db) : list ReplayRow :=
  filter (λ r, row_run r = id) (chunk_rows d).
Definition start_le (a b : ReplayRow) : Prop := (row_start a ≤ row_start b)%Z.
#[global] Instance start_le_dec a b : Decision (start_le a b) := decide (row_start a ≤ row_start b)%Z.
Definition by_start (l : list ReplayRow) : list ReplayRow := merge_sort start_le l.
Definition sumZ {A} (f : A → Z) (l : list A) : Z := foldr (λ x acc, f x + acc)%Z 0%Z l.
Definition min_start (l : list ReplayRow) : option Z :=
  foldr (λ r m, Some (match m with Some v => Z.min (row_start r) v | None => row_start r end)) None l.

(** ** Files and faults *)

(** The bytes of a replay file, and how many of them [sync_data] made durable. *)
Record ReplayFile := { contents : bytes; synced_bytes : N }.

Record Store := { db : Db; files : gmap string ReplayFile; clock : nat }.
Definition set_db (d : Db) (s : Store) : Store :=
  {| db := d; files := files s; clock := clock s |}.
Definition set_files (m : gmap string ReplayFile) (s : Store) : Store :=
  {| db := db s; files := m; clock := clock s |}.
Definition set_clock (n : nat) (s : Store) : Store :=
  {| db := db s; files := files s; clock := n |}.

(** What the host does at each call: fail it, and then how many bytes a failing write
    leaves behind; the time. *)
Record StorageEnv := {
  fault : nat → option PersistenceError;
  write_leaves : nat → N;
  now_millis : nat → Z;
}.

(** The lifecycle envelope of a Run row is JSON, which serde reads and writes: the
    source-gap member is absent, or present and perhaps a [u64]. *)
Class StateJson := {
  gap_member : string → result (option (option N)) string;
  encode_state : RunState → option N → string;
}.

Definition no_rows : PersistenceError := Database "Query returned no rows" None None None.
Definition constraint_failed : PersistenceError :=
  Database "constraint failed" (Some (OtherSqliteCode 19)) (Some 19%Z) None.
Definition not_found (path : string) : PersistenceError :=
  Io path {| raw_os_error := Some 2%Z; io_kind := KindNotFound; io_text := "No such file" |}.
Definition unexpected_eof (path : string) : PersistenceError :=
  Io path {| raw_os_error := None; io_kind := OtherKind; io_text := "failed to fill whole buffer" |}.

Definition i64_of (n : N) : option Z := if decide (n ≤ i64_max) then Some (Z.of_N n) else None.
Definition i64_or_max (n : N) : Z := Z.of_N (N.min n i64_max).
Definition i64_add_sat (a b : Z) : Z := Z.min (a + b) (Z.of_N i64_max).
Definition i64_checked_add (a b : Z) : option Z :=
  if decide (a + b ≤ Z.of_N i64_max)%Z then Some (a + b)%Z else None.
Definition nonnegative_u64 (v : Z) (label : string) : result N PersistenceError :=
  if decide (0 ≤ v)%Z then Ok (Z.to_N v)
  else Err (Corrupt ("negative " +:+ label +:+ " in durable state")).

(** One normal path component with the extension "bin". *)
Definition slash : Ascii.ascii := Ascii.ascii_of_nat 47.
Definition valid_replay_file_name (name : string) : bool :=
  let l := String.list_ascii_of_string name in
  let n := length l in
  bool_decide (4 < n)%nat && bool_decide (drop (n - 4) l = String.list_ascii_of_string ".bin") &&
  bool_decide (slash ∉ l).
Definition validate_replay_file_name (name : string) : result unit PersistenceError :=
  if valid_replay_file_name name then Ok tt else Err (Corrupt ("invalid replay file name " +:+ name)).

Section store.
Context `{!UuidDisplay, !StateJson} (env : StorageEnv).

Definition SM (A : Type) : Type := M Store PersistenceError A.

(** A call the host may fail before it has any effect. *)
Definition tick : SM nat := λ s, Ret (set_clock (S (clock s)) s, Ok (clock s)).
Definition guarded {A} (k : SM A) : SM A :=
  let* t := tick in
  match fault env t with Some e => mfail e | None => k end.
Definition query {A} (f : Db → A) : SM A := guarded (λ s, Ret (s, Ok (f (db s)))).
Definition query_row {A} (f : Db → option A) : SM A :=
  let* r := query f in
  match r with Some a => mret_ a | None => mfail no_rows end.
Definition execute (f : Db → Db) : SM unit := guarded (λ s,
  if decide (constraints (f (db s))) then Ret (set_db (f (db s)) s, Ok tt)
  else Ret (s, Err constraint_failed)).

Definition lift {A} (r : result A PersistenceError) : SM A := lift_result r.
Definition mutation_or {A} (message : string) (o : option A) : SM A :=
  lift (ok_or (Mutation message) o).

(** [file_len]: a missing file is empty. *)
Definition len_of_file (name : string) (s : Store) : N :=
  match files s !! name with Some f => len (contents f) | None => 0 end.
Definition file_len (name : string) : SM N := guarded (λ s, Ret (s, Ok (len_of_file name s))).
(** [validate_state_file]: it exists; its kind, owner and mode are the host's answer. *)
Definition validate_state_file (name : string) : SM unit := guarded (λ s,
  Ret (s, match files s !! name with Some _ => Ok tt | None => Err (not_found name) end)).

(** ** The append-only writer *)

Record ReplayFileWriter := { file_name : string; next_offset : N; unsynced : bool }.

(** [ReplayFileWriter::open]. *)
Definition writer_open (name : string) : SM ReplayFileWriter :=
  lift (validate_replay_file_name name) ;;;
  validate_state_file name ;;;
  let* n := file_len name in
  mret_ {| file_name := name; next_offset := n; unsynced := false |}.

Definition append_bytes (name : string) (d : bytes) (s : Store) : Store :=
  match files s !! name with
  | Some f => set_files (<[name := {| contents := contents f ++ d;
                                      synced_bytes := synced_bytes f |}]> (files s)) s
  | None => s
  end.
(** [ReplayFileWriter::append]; [write_all] may fail after some of the bytes. *)
Definition writer_append (d : bytes) (w : ReplayFileWriter) : SM (ReplayFileWriter * N) :=
  let offset := next_offset w in
  let* next := mutation_or "replay file offset overflows" (checked_add offset (len d)) in
  let* t := tick in
  match fault env t with
  | Some e => modify (append_bytes (file_name w) (takeN (write_leaves env t) d)) ;;; mfail e
  | None =>
      modify (append_bytes (file_name w) d) ;;;
      mret_ ({| file_name := file_name w; next_offset := next;
                unsynced := unsynced w || bool_decide (d ≠ []) |}, offset)
  end.
Definition sync_bytes (name : string) (s : Store) : Store :=
  match files s !! name with
  | Some f => set_files (<[name := {| contents := contents f;
                                      synced_bytes := len (contents f) |}]> (files s)) s
  | None => s
  end.
(** [ReplayFileWriter::sync]. *)
Definition writer_sync (w : ReplayFileWriter) : SM ReplayFileWriter :=
  if negb (unsynced w) then mret_ w else
  guarded (modify (sync_bytes (file_name w)) ;;;
           mret_ {| file_name := file_name w; next_offset := next_offset w; unsynced := false |}).

(** ** Appending one Run's replay *)

Definition COALESCE_ROW_BYTES : N := 64 * 1024.

Record ReplayCursors := {
  durable_oldest : Z; durable_head : Z; cursor_replay_bytes : Z;
  pending : bytes; pending_start : Z; writer : ReplayFileWriter;
}.

Definition flush_pending_row_for_cursors (id : RunId) (c : ReplayCursors) : SM ReplayCursors :=
  if decide (pending c = []) then mret_ c else
  let* n := mutation_or "coalesced row is too large" (i64_of (len (pending c))) in
  let* stop := mutation_or "coalesced row end byte exceeds SQLite"
                 (i64_checked_add (pending_start c) n) in
  let* '(w, offset) := writer_append (pending c) (writer c) in
  execute (insert_chunk id (pending_start c) stop (file_name w) (i64_or_max offset) n) ;;;
  mret_ {| durable_oldest := durable_oldest c; durable_head := durable_head c;
           cursor_replay_bytes := cursor_replay_bytes c; pending := [];
           pending_start := pending_start c; writer := w |}.

Definition file_bytes (name : string) (offset n : N) (s : Store) : bytes :=
  match files s !! name with Some f => takeN n (dropN offset (contents f)) | None => [] end.

Definition read_replay_segment (name : string) (offset n : N) : SM bytes :=
  lift (validate_replay_file_name name) ;;;
  validate_state_file name ;;;
  let* size := file_len name in
  match checked_add offset n with
  | None => mfail (Corrupt "replay segment range overflows the file offset")
  | Some stop =>
      if decide (size < stop) then mfail (Corrupt "replay segment exceeds file length")
      else guarded (λ s, Ret (s, Ok (file_bytes name offset n s)))
  end.

(** [stored_range_matches_in]: the loop over the rows that overlap the range. *)
Fixpoint stored_rows_match (rows : list ReplayRow) (start stop : Z) (expected : bytes)
    (cursor : Z) : SM bool :=
  if decide (stop ≤ cursor)%Z then mret_ true else
  match rows with
  | [] => mret_ false
  | r :: rows =>
      if decide (cursor < row_start r ∨ row_end r ≤ cursor)%Z then mret_ false else
      let through := Z.min (row_end r) stop in
      let* offset := lift (nonnegative_u64 (row_offset r + cursor - row_start r) "replay offset") in
      let* n := lift (nonnegative_u64 (through - cursor) "replay length") in
      let* d := read_replay_segment (row_file r) offset n in
      let from := Z.to_N (cursor - start) in
      let to := Z.to_N (through - start) in
      if bool_decide (to ≤ len expected) && bool_decide (takeN (to - from) (dropN from expected) = d)
      then stored_rows_match rows start stop expected through
      else mret_ false
  end.
Definition overlapping (id : RunId) (start stop : Z) (d : Db) : list ReplayRow :=
  by_start (filter (λ r, (start < row_end r ∧ row_start r < stop)%Z) (rows_of id d)).
Definition stored_range_matches_in (id : RunId) (start stop : Z) (expected : bytes) : SM bool :=
  let* rows := query (overlapping id start stop) in
  stored_rows_match rows start stop expected start.

(** [reset_window_to]. *)
Definition reset_window_to (id : RunId) (new_floor : Z) : SM Z :=
  execute (λ d, set_chunks (filter (λ r, ¬ (row_run r = id ∧ (row_start r < new_floor)%Z))
                              (chunk_rows d)) d) ;;;
  query (λ d, sumZ row_bytes (rows_of id d)).

Definition range_text (c : OutputChunk) : string :=
  "[" +:+ pretty (start_byte c) +:+ ", " +:+ pretty (end_byte c) +:+ ")".

(** [apply_replay_chunk]: a chunk that crosses the head is its committed prefix and
    then its fresh suffix, so the recursion is one deep. *)
Fixpoint apply_replay_chunk (fuel : nat) (id : RunId) (replay : OutputReplay) (chunk : OutputChunk)
    (c : ReplayCursors) : SM ReplayCursors :=
  match fuel with
  | O => mpanic "out of fuel"
  | S fuel =>
  let named := "Run " +:+ show_run_id id in
  if decide (end_byte chunk ≤ start_byte chunk ∨
             end_byte chunk - start_byte chunk ≠ len (data chunk)) then
    mfail (Mutation (named +:+ " replay range " +:+ range_text chunk +:+ " does not match its bytes"))
  else
  let* start := mutation_or "output start byte exceeds SQLite" (i64_of (start_byte chunk)) in
  let* stop := mutation_or "output end byte exceeds SQLite" (i64_of (end_byte chunk)) in
  if decide (start < durable_head c ∧ durable_head c < stop)%Z then
    let prefix := Z.to_N (durable_head c - start) in
    let* head := lift (nonnegative_u64 (durable_head c) "overlap replay head") in
    lift_outcome (check "slice index out of range" (bool_decide (prefix ≤ len (data chunk)))) ;;;
    let* c := apply_replay_chunk fuel id replay
                {| start_byte := start_byte chunk; end_byte := head;
                   data := takeN prefix (data chunk) |} c in
    apply_replay_chunk fuel id replay
      {| start_byte := start_byte chunk + prefix; end_byte := end_byte chunk;
         data := dropN prefix (data chunk) |} c
  else
  if decide (stop ≤ durable_head c)%Z then
    if decide (start < durable_oldest c)%Z then
      mfail (Mutation (named +:+ " cannot verify evicted replay range " +:+ range_text chunk))
    else
    let* c := flush_pending_row_for_cursors id c in
    let* same := stored_range_matches_in id start stop (data chunk) in
    if (same : bool) then mret_ c
    else mfail (Mutation (named +:+ " replay range " +:+ range_text chunk
                          +:+ " is missing or changed bytes"))
  else
  let* c :=
    if decide (start = durable_head c) then mret_ c else
    if negb (replay_truncated replay &&
             bool_decide (start_byte chunk = replay_first_available_byte replay)) then
      mfail (Mutation (named +:+ " durable replay gap: got " +:+ pretty start +:+ ", expected "
                       +:+ pretty (durable_head c)))
    else
    let* c := flush_pending_row_for_cursors id c in
    let* kept := reset_window_to id start in
    mret_ {| durable_oldest := start; durable_head := start; cursor_replay_bytes := kept;
             pending := pending c; pending_start := pending_start c; writer := writer c |} in
  let c := {| durable_oldest := if decide (durable_head c = 0)%Z then start else durable_oldest c;
              durable_head := durable_head c; cursor_replay_bytes := cursor_replay_bytes c;
              pending := pending c ++ data chunk;
              pending_start := if decide (pending c = []) then start else pending_start c;
              writer := writer c |} in
  let* c := if decide (COALESCE_ROW_BYTES ≤ len (pending c))
            then flush_pending_row_for_cursors id c else mret_ c in
  let* n := mutation_or "output chunk is too large" (i64_of (len (data chunk))) in
  mret_ {| durable_oldest := durable_oldest c; durable_head := stop;
           cursor_replay_bytes := i64_add_sat (cursor_replay_bytes c) n;
           pending := pending c; pending_start := pending_start c; writer := writer c |}
  end.

Fixpoint apply_chunks (id : RunId) (replay : OutputReplay) (chunks : list OutputChunk)
    (c : ReplayCursors) : SM ReplayCursors :=
  match chunks with
  | [] => mret_ c
  | chunk :: chunks =>
      let* c := apply_replay_chunk 2 id replay chunk c in
      apply_chunks id replay chunks c
  end.

(** [prune_run_replay_to]: whether it evicted, and the new floor and bytes. *)
Definition clip_row (front : Z) (r : ReplayRow) : ReplayRow :=
  {| ordinal := ordinal r; row_run := row_run r; row_start := front; row_end := row_end r;
     row_file := row_file r; row_offset := row_offset r + front - row_start r;
     row_bytes := row_end r - front |}%Z.
Definition clip_crossing (id : RunId) (front : Z) (d : Db) : Db :=
  set_chunks (map (λ r, if decide (row_run r = id ∧ (row_start r < front ∧ front < row_end r)%Z)
                        then clip_row front r else r) (chunk_rows d)) d.
Definition delete_before (id : RunId) (front : Z) (d : Db) : Db :=
  set_chunks (filter (λ r, ¬ (row_run r = id ∧ (row_end r ≤ front)%Z)) (chunk_rows d)) d.
Definition prune_run_replay_to (id : RunId) (oldest held : Z) (replay_limit : N)
    : SM (bool * Z * Z) :=
  if decide ((if decide (0 ≤ held)%Z then Z.to_N held else u64_max) ≤ replay_limit)
  then mret_ (false, oldest, held) else
  let shed := (held - i64_or_max replay_limit)%Z in
  match i64_checked_add oldest shed with
  | None => mfail (Corrupt ("Run " +:+ show_run_id id +:+ " replay floor overflows"))
  | Some front =>
      execute (clip_crossing id front) ;;;
      execute (delete_before id front) ;;;
      mret_ (true, front, (held - shed)%Z)
  end.

Definition set_window (oldest head held : Z) (truncated : bool) (now : Z) (r : RunRow) : RunRow :=
  {| row_creation_key := row_creation_key r; spec_json := spec_json r;
     lineage_json := lineage_json r; state_kind := state_kind r; state_json := state_json r;
     source_epoch := source_epoch r; row_pid := row_pid r;
     durable_first_available_byte := oldest; durable_output_bytes := head; replay_bytes := held;
     row_truncated := truncated; row_metadata_bytes := row_metadata_bytes r;
     created_at_ms := created_at_ms r; updated_at_ms := now; terminal_at_ms := terminal_at_ms r |}.

(** [append_replay_with_storage]: the writer, and whether it evicted. *)
Definition append_replay_with_storage (id : RunId) (replay : OutputReplay) (w : ReplayFileWriter)
    (replay_limit : N) : SM (ReplayFileWriter * bool) :=
  let* r := query_row (λ d, run_rows d !! id) in
  let* head := lift (nonnegative_u64 (durable_output_bytes r) "durable head") in
  if bool_decide (state_kind r ≠ "running") &&
     existsb (λ c, bool_decide (head < end_byte c)) (replay_chunks replay) then
    mfail (Mutation ("cannot advance replay for terminal Run " +:+ show_run_id id))
  else
  let* c := apply_chunks id replay (replay_chunks replay)
    {| durable_oldest := durable_first_available_byte r; durable_head := durable_output_bytes r;
       cursor_replay_bytes := replay_bytes r; pending := []; pending_start := 0; writer := w |} in
  let* c := flush_pending_row_for_cursors id c in
  let* '(evicted, oldest, held) :=
    prune_run_replay_to id (durable_oldest c) (cursor_replay_bytes c) replay_limit in
  let truncated := replay_truncated replay || bool_decide (0 < oldest)%Z in
  let* t := tick in
  execute (update_run id (set_window oldest (durable_head c) held truncated (now_millis env t))) ;;;
  mret_ (writer c, evicted).

(** ** Pruning the whole store *)

(** [shed_run_bytes]. *)
Definition shed_run (shed : Z) (first : option Z) (r : RunRow) : RunRow :=
  {| row_creation_key := row_creation_key r; spec_json := spec_json r;
     lineage_json := lineage_json r; state_kind := state_kind r; state_json := state_json r;
     source_epoch := source_epoch r; row_pid := row_pid r;
     durable_first_available_byte := default (durable_output_bytes r) first;
     durable_output_bytes := durable_output_bytes r; replay_bytes := replay_bytes r - shed;
     row_truncated := true; row_metadata_bytes := row_metadata_bytes r;
     created_at_ms := created_at_ms r; updated_at_ms := updated_at_ms r;
     terminal_at_ms := terminal_at_ms r |}%Z.
Definition shed_run_bytes (id : RunId) (shed : Z) : SM unit :=
  execute (λ d, update_run id (shed_run shed (min_start (rows_of id d))) d).

(** The two statements both eviction paths use. *)
Definition delete_row (o : Z) (d : Db) : Db :=
  set_chunks (filter (λ r, ordinal r ≠ o) (chunk_rows d)) d.
Definition shorten_row (o shed : Z) (d : Db) : Db :=
  set_chunks (map (λ r, if decide (ordinal r = o)
                        then {| ordinal := ordinal r; row_run := row_run r;
                                row_start := row_start r + shed; row_end := row_end r;
                                row_file := row_file r; row_offset := row_offset r + shed;
                                row_bytes := row_bytes r - shed |}%Z
                        else r) (chunk_rows d)) d.
Definition shed_row (r : ReplayRow) (shed : Z) : SM unit :=
  (if decide (shed = row_bytes r) then execute (delete_row (ordinal r))
   else execute (shorten_row (ordinal r) shed)) ;;;
  shed_run_bytes (row_run r) shed.

(** [ORDER BY runs.replay_bytes DESC, chunk.ordinal LIMIT 1]. *)
Definition run_replay (d : Db) (r : ReplayRow) : Z :=
  match run_rows d !! row_run r with Some x => replay_bytes x | None => 0%Z end.
Definition largest_row (d : Db) : option ReplayRow :=
  fold_left (λ best r, match best with
                       | Some b => if decide (run_replay d b < run_replay d r)%Z then Some r else best
                       | None => Some r
                       end) (chunk_rows d) None.

(** [trim_oldest_row]; [rows] is its row funding. *)
Fixpoint trim_oldest_row (rows : nat) (replay_limit : N) : SM bool :=
  let* a := query accounting in
  let* total := lift (nonnegative_u64 (acc_replay_bytes a) "global replay bytes") in
  if decide (total ≤ replay_limit ∨ acc_replay_runs a = 0%Z) then mret_ true else
  match rows with
  | O => mret_ false
  | S rows =>
      let* largest := query largest_row in
      match largest with
      | None => mfail (Corrupt "global replay accounting has no chunks")
      | Some r =>
          let* n := lift (nonnegative_u64 (acc_replay_runs a) "run count") in
          let share := i64_or_max (replay_limit / n) in
          let shed := Z.min (Z.min (row_bytes r - share) (row_bytes r))
                            (acc_replay_bytes a - i64_or_max replay_limit)%Z in
          if decide (shed ≤ 0)%Z then mret_ false else
          if decide (row_offset r < 0)%Z then mfail (Corrupt "replay row has no external offset") else
          shed_row r shed ;;;
          trim_oldest_row rows replay_limit
      end
  end.

(** [GLOBAL_REPLAY_CANDIDATE_SQL]: the oldest row that is not its Run's last. *)
Definition has_later (d : Db) (r : ReplayRow) : bool :=
  existsb (λ x, bool_decide (row_run x = row_run r ∧ (row_start r < row_start x)%Z)) (chunk_rows d).
Definition global_candidate (d : Db) : option ReplayRow :=
  head (filter (λ r, has_later d r = true) (chunk_rows d)).

(** [prune_global_replay_with_row_funding]. *)
Fixpoint prune_global_replay (rows : nat) (replay_limit : N) : SM bool :=
  let* a := query accounting in
  let* total := lift (nonnegative_u64 (acc_replay_bytes a) "global replay bytes") in
  if decide (total ≤ replay_limit) then mret_ true else
  match rows with
  | O => mret_ false
  | S rows =>
      let* candidate := query global_candidate in
      match candidate with
      | None => trim_oldest_row rows replay_limit
      | Some r =>
          shed_row r (Z.min (row_bytes r) (acc_replay_bytes a - i64_or_max replay_limit)%Z) ;;;
          prune_global_replay rows replay_limit
      end
  end.

(** ** Reading pages back *)

Definition REPLAY_PAGE_BYTES : N := 64 * 1024.

(** The inner loop over one row: [first] to [last] in page-sized reads, joined to the
    last chunk while that stays within a page. *)
Definition join_chunk (cursor through : N) (d : bytes) (chunks : list OutputChunk)
    : list OutputChunk :=
  match last chunks with
  | Some tail =>
      if bool_decide (end_byte tail = cursor) &&
         bool_decide (len (data tail) + len d ≤ REPLAY_PAGE_BYTES)
      then removelast chunks ++ [{| start_byte := start_byte tail; end_byte := through;
                                    data := data tail ++ d |}]
      else chunks ++ [{| start_byte := cursor; end_byte := through; data := d |}]
  | None => [{| start_byte := cursor; end_byte := through; data := d |}]
  end.
Fixpoint load_extent (fuel : nat) (name : string) (offset start last : N) (cursor : N)
    (chunks : list OutputChunk) : SM (list OutputChunk) :=
  if decide (last ≤ cursor) then mret_ chunks else
  match fuel with
  | O => mpanic "out of fuel"
  | S fuel =>
      let through := N.min last (cursor +sat REPLAY_PAGE_BYTES) in
      let physical := offset + cursor - start in
      let* d := guarded (λ s,
        if decide (physical + (through - cursor) ≤ len_of_file name s)
        then Ret (s, Ok (file_bytes name physical (through - cursor) s))
        else Ret (s, Err (unexpected_eof name))) in
      load_extent fuel name offset start last through (join_chunk cursor through d chunks)
  end.
Fixpoint load_rows (rows : list ReplayRow) (from to : N) (opened : option string)
    (chunks : list OutputChunk) : SM (list OutputChunk) :=
  match rows with
  | [] => mret_ chunks
  | r :: rows =>
      let* start := lift (nonnegative_u64 (row_start r) "replay start") in
      let* stop := lift (nonnegative_u64 (row_end r) "replay end") in
      let* offset := lift (nonnegative_u64 (row_offset r) "replay offset") in
      (if decide (opened = Some (row_file r)) then mret_ tt else
       lift (validate_replay_file_name (row_file r)) ;;;
       validate_state_file (row_file r)) ;;;
      let first := N.max start from in
      let last := N.min stop to in
      let* chunks := load_extent (S (N.to_nat ((last - first) / REPLAY_PAGE_BYTES)))
                       (row_file r) offset start last first chunks in
      load_rows rows from to (Some (row_file r)) chunks
  end.
Definition load_replay_chunks_range (id : RunId) (from to : N) : SM (list OutputChunk) :=
  if decide (to ≤ from) then mret_ [] else
  match i64_of from, i64_of to with
  | Some f, Some t =>
      let* rows := query (overlapping id f t) in
      load_rows rows from to None []
  | _, _ => mfail (ResourcePressure "replay cursor exceeds SQLite range")
  end.

(** [source_gap_fact]. *)
Definition source_gap_fact (json : string) (head : N) : result (option N) PersistenceError :=
  match gap_member json with
  | Err e => Err (Database e None None None)
  | Ok None => Ok None
  | Ok (Some (Some cursor)) =>
      if decide (cursor ≤ head) then Ok (Some cursor)
      else Err (Corrupt "invalid durable source-gap cursor")
  | Ok (Some None) => Err (Corrupt "invalid durable source-gap cursor")
  end.

Definition load_replay_page (id : RunId) (after through : N) : SM OutputReplay :=
  let* r := query_row (λ d, run_rows d !! id) in
  let* oldest := lift (nonnegative_u64 (durable_first_available_byte r) "replay floor") in
  let* head := lift (nonnegative_u64 (durable_output_bytes r) "replay head") in
  let from := N.max after oldest in
  let to := N.min (N.min through head) (from +sat REPLAY_PAGE_BYTES) in
  let* chunks := load_replay_chunks_range id from to in
  let* gap := if decide (after < oldest) then mret_ None
              else lift (source_gap_fact (state_json r) head) in
  mret_ {| replay_chunks := chunks; replay_first_available_byte := oldest;
           replay_latest_output_bytes := head;
           replay_truncated := bool_decide (after < oldest) ||
             match gap with Some cursor => bool_decide (after ≤ cursor) | None => false end ||
             (row_truncated r && bool_decide (oldest = 0)) |}.

(** ** Validation at startup *)

(** [validate_replay_window_in]: the walk over a Run's rows, with the file sizes
    already looked up. *)
Definition cached_len (name : string) (sizes : gmap string N) : SM (gmap string N * N) :=
  match sizes !! name with
  | Some n => mret_ (sizes, n)
  | None => let* n := file_len name in mret_ (<[name := n]> sizes, n)
  end.
Fixpoint walk_window (id : RunId) (rows : list ReplayRow) (sizes : gmap string N)
    (expected total : N) : SM (N * N) :=
  match rows with
  | [] => mret_ (expected, total)
  | r :: rows =>
      let* start := lift (nonnegative_u64 (row_start r) "chunk start byte") in
      let* stop := lift (nonnegative_u64 (row_end r) "chunk end byte") in
      let* n := lift (nonnegative_u64 (row_bytes r) "chunk length") in
      let* offset := lift (nonnegative_u64 (row_offset r) "chunk file offset") in
      lift (validate_replay_file_name (row_file r)) ;;;
      match checked_add offset n with
      | None => mfail (Corrupt "replay extent overflows")
      | Some extent =>
          let* '(sizes, size) := cached_len (row_file r) sizes in
          if decide (size < extent) then
            mfail (Corrupt ("Run " +:+ show_run_id id +:+ " replay exceeds its payload file"))
          else if decide (start ≠ expected ∨ stop ≤ start ∨ stop - start ≠ n) then
            mfail (Corrupt ("Run " +:+ show_run_id id +:+ " replay range is invalid or not contiguous"))
          else walk_window id rows sizes stop (total +sat n)
      end
  end.
Definition validate_replay_window_in (id : RunId) (oldest head held : N) (truncated : bool)
    : SM unit :=
  let named := "Run " +:+ show_run_id id in
  let* rows := query (λ d, by_start (rows_of id d)) in
  let* '(expected, total) := walk_window id rows ∅ oldest 0 in
  if decide (rows = []) then
    ensure (negb (bool_decide (oldest ≠ head) || bool_decide (held ≠ 0) ||
                  (bool_decide (0 < head) && negb truncated)))
           (Corrupt (named +:+ " has empty replay with non-empty cursors"))
  else
  if bool_decide (expected ≠ head) || bool_decide (total ≠ held) then
    mfail (Corrupt (named +:+ " replay cursors or bytes do not match chunks"))
  else
  ensure (negb (bool_decide (0 < oldest) && negb truncated))
         (Corrupt (named +:+ " pruned replay is not marked truncated")).

(** [validate_replay_extents]: [ORDER BY data_file, data_offset, ordinal]. *)
Definition extent_le (a b : ReplayRow) : Prop :=
  String.le (row_file a) (row_file b) ∧
  (row_file a = row_file b → (row_offset a < row_offset b)%Z ∨
     row_offset a = row_offset b ∧ (ordinal a ≤ ordinal b)%Z).
#[global] Instance extent_le_dec a b : Decision (extent_le a b).
Proof. unfold extent_le. apply _. Defined.
(** The file being walked, its size, and where its last extent ended. *)
Fixpoint walk_extents (rows : list ReplayRow) (current : string) (size : N) (previous : option N)
    : SM unit :=
  match rows with
  | [] => mret_ tt
  | r :: rows =>
      let* '(size, previous) :=
        if decide (row_file r = current) then mret_ (size, previous) else
        lift (validate_replay_file_name (row_file r)) ;;;
        validate_state_file (row_file r) ;;;
        let* size := file_len (row_file r) in
        mret_ (size, None) in
      let* offset := lift (nonnegative_u64 (row_offset r) "replay file offset") in
      let* n := lift (nonnegative_u64 (row_bytes r) "replay segment length") in
      match checked_add offset n with
      | None => mfail (Corrupt "replay extent range overflows the file offset")
      | Some stop =>
          if decide (size < stop) then
            mfail (Corrupt "replay extent exceeds its active generation file")
          else if match previous with Some p => bool_decide (offset < p) | None => false end then
            mfail (Corrupt "replay extents overlap in the active generation")
          else walk_extents rows (row_file r) size (Some stop)
      end
  end.
Definition validate_replay_extents (active : string) : SM unit :=
  validate_state_file active ;;;
  let* rows := query (λ d, merge_sort extent_le (chunk_rows d)) in
  walk_extents rows "" 0 None.
End store.
