(* ===== verification/ReplayStoreSpec.v ===== *)
(** * What a durable replay window is

    The invariant of the tables and files of [ReplayStore], the bytes a Run's rows
    denote, and how each SQL statement and file write acts on them. *)

From S2P Require Import Prelude.
From S2P Require Import Protocol.
From S2P Require Import StorageErrors.
From S2P Require Import ReplayStore.
Local Open Scope Z_scope.

(** ** Sums *)

Section sumZ.
Context {A : Type} (f : A → Z).
Lemma sumZ_cons x l : sumZ f (x :: l) = f x + sumZ f l.
Proof. done. Qed.
Lemma sumZ_app l l' : sumZ f (l ++ l') = sumZ f l + sumZ f l'.
Proof. induction l as [|x l IH]; cbn [app]; rewrite ?sumZ_cons; [done|lia]. Qed.
#[global] Instance sumZ_perm : Proper ((≡ₚ) ==> (=)) (sumZ f).
Proof. induction 1; rewrite ?sumZ_cons; lia. Qed.
Lemma sumZ_nonneg l : (∀ x, x ∈ l → 0 ≤ f x) → 0 ≤ sumZ f l.
Proof.
  induction l as [|x l IH]; [done|]. intros Hf. rewrite sumZ_cons.
  assert (0 ≤ f x) by (apply Hf; constructor).
  assert (0 ≤ sumZ f l) by (apply IH; intros; apply Hf; by constructor). lia.
Qed.
End sumZ.

(** Totals over the values of a map. *)
Definition mapZ {K V} `{Countable K} (f : V → Z) (m : gmap K V) : Z :=
  sumZ (λ kv, f kv.2) (map_to_list m).
Lemma sumZ_scale {A} (f g : A → Z) b l : (∀ x, x ∈ l → f x ≤ b * g x) → sumZ f l ≤ b * sumZ g l.
Proof.
  induction l as [|x l IH]; intros Hf; [cbn; lia|]. rewrite !sumZ_cons.
  assert (f x ≤ b * g x) by (apply Hf; constructor).
  assert (sumZ f l ≤ b * sumZ g l) by (apply IH; intros; apply Hf; by constructor). lia.
Qed.
Section mapZ.
Context {K V : Type} `{Countable K} (f : V → Z).
Implicit Types m : gmap K V.
Lemma mapZ_insert_None m k v : m !! k = None → mapZ f (<[k:=v]> m) = f v + mapZ f m.
Proof. intros Hk. unfold mapZ. by rewrite (map_to_list_insert m k v Hk), sumZ_cons. Qed.
Lemma mapZ_delete m k v : m !! k = Some v → mapZ f m = f v + mapZ f (delete k m).
Proof.
  intros Hk. rewrite <-(insert_delete_id m k v Hk) at 1.
  by rewrite mapZ_insert_None by apply lookup_delete_eq.
Qed.
Lemma mapZ_insert_Some m k v v' :
  m !! k = Some v → mapZ f (<[k:=v']> m) = mapZ f m - f v + f v'.
Proof.
  intros Hk. rewrite (mapZ_delete m k v Hk), <-insert_delete_eq.
  rewrite mapZ_insert_None by apply lookup_delete_eq. lia.
Qed.
Lemma mapZ_nonneg m : (∀ k v, m !! k = Some v → 0 ≤ f v) → 0 ≤ mapZ f m.
Proof.
  intros Hf. apply sumZ_nonneg. intros [k v] Hk. apply elem_of_map_to_list in Hk. by eapply Hf.
Qed.
Lemma mapZ_lookup_le m k v : (∀ k v, m !! k = Some v → 0 ≤ f v) → m !! k = Some v → f v ≤ mapZ f m.
Proof.
  intros Hf Hk. rewrite (mapZ_delete m k v Hk).
  enough (0 ≤ mapZ f (delete k m)) by lia. apply mapZ_nonneg.
  intros k' v' [_ Hk']%lookup_delete_Some. by eapply Hf.
Qed.
End mapZ.

(** ** Contiguous rows *)

(** The rows cover exactly the bytes from [a] to [b]. *)
Fixpoint covers (a : Z) (rows : list ReplayRow) (b : Z) : Prop :=
  match rows with
  | [] => a = b
  | r :: rows => row_start r = a ∧ row_start r < row_end r ∧ covers (row_end r) rows b
  end.

Lemma covers_app a l l' b : covers a (l ++ l') b ↔ ∃ m, covers a l m ∧ covers m l' b.
Proof.
  revert a. induction l as [|r l IH]; intros a; cbn [app covers]; [naive_solver|].
  rewrite IH. naive_solver.
Qed.
Lemma covers_le a l b : covers a l b → a ≤ b.
Proof. revert a. induction l as [|r l IH]; cbn; [lia|]. intros a (-> & ? & ?%IH). lia. Qed.
Lemma covers_elem a l b r : covers a l b → r ∈ l → a ≤ row_start r ∧ row_start r < row_end r ∧ row_end r ≤ b.
Proof.
  revert a. induction l as [|x l IH]; [by intros ? ? ?%elem_of_nil|]. intros a (Hs & Hlt & Hc).
  pose proof (covers_le _ _ _ Hc) as Hle. intros [->|Hin]%elem_of_cons; [lia|].
  specialize (IH _ Hc Hin). lia.
Qed.
Lemma covers_nil_inv a b l : covers a l b → a = b → l = [].
Proof. destruct l as [|r l]; [done|]. cbn. intros (? & ? & ?%covers_le) ?. lia. Qed.
Lemma covers_sorted a l b : covers a l b → StronglySorted start_le l.
Proof.
  revert a. induction l as [|r l IH]; intros a; [constructor|]. cbn. intros (? & ? & Hc).
  constructor; [by eapply IH|]. apply Forall_forall. intros x Hx.
  destruct (covers_elem _ _ _ _ Hc Hx) as (? & _). unfold start_le. lia.
Qed.
Lemma covers_starts a l b : covers a l b → NoDup (map row_start l).
Proof.
  revert a. induction l as [|r l IH]; intros a; cbn; [constructor|]. intros (? & ? & Hc).
  constructor; [|by eapply IH]. intros (x & Heq & Hx)%list_elem_of_fmap.
  destruct (covers_elem _ _ _ _ Hc Hx). lia.
Qed.

#[global] Instance start_le_trans : Transitive start_le.
Proof. intros ???. unfold start_le. lia. Qed.
#[global] Instance start_le_total : Total start_le.
Proof. intros ??. unfold start_le. lia. Qed.
(** Rows of a covers are already in [ORDER BY start_byte]. *)
Lemma sorted_unique l l' : StronglySorted start_le l → StronglySorted start_le l' →
  NoDup (map row_start l) → l ≡ₚ l' → l = l'.
Proof.
  revert l'. induction l as [|x l IH]; intros l' Hs Hs' Hnd Hp.
  { by apply Permutation_nil_l in Hp as ->. }
  destruct l' as [|y l']; [by apply symmetry, Permutation_nil_l in Hp|].
  inversion Hs as [|?? Hl Hx]; subst. inversion Hs' as [|?? Hl' Hy]; subst.
  inversion Hnd as [|?? Hn Hnd']; subst.
  assert (x = y) as ->.
  { assert (x ∈ y :: l') as Hin by (rewrite <-Hp; constructor).
    assert (y ∈ x :: l) as Hin' by (rewrite Hp; constructor).
    apply elem_of_cons in Hin as [->|Hin]; [done|]. apply elem_of_cons in Hin' as [->|Hin']; [done|].
    exfalso. rewrite Forall_forall in Hx, Hy. specialize (Hx _ Hin'). specialize (Hy _ Hin).
    unfold start_le in *. apply Hn. apply list_elem_of_fmap. exists y. split; [lia|done]. }
  f_equal. apply IH; [done..|]. by apply Permutation_cons_inv in Hp.
Qed.
Lemma by_start_covers a l b : covers a l b → by_start l = l.
Proof.
  intros Hc. symmetry. apply sorted_unique; [by eapply covers_sorted| |by eapply covers_starts|].
  - apply Sorted_StronglySorted; [apply _|]. apply Sorted_merge_sort, _.
  - symmetry. apply merge_sort_Permutation.
Qed.

(** ** What rows denote *)

Definition row_data (fs : gmap string ReplayFile) (r : ReplayRow) : bytes :=
  match fs !! row_file r with
  | Some f => takeN (Z.to_N (row_bytes r)) (dropN (Z.to_N (row_offset r)) (contents f))
  | None => []
  end.
Definition span (fs : gmap string ReplayFile) (l : list ReplayRow) : bytes :=
  concat (map (row_data fs) l).

Lemma span_nil fs : span fs [] = [].
Proof. done. Qed.
Lemma span_cons fs r l : span fs (r :: l) = row_data fs r ++ span fs l.
Proof. done. Qed.
Lemma span_app fs l l' : span fs (l ++ l') = span fs l ++ span fs l'.
Proof. unfold span. by rewrite map_app, concat_app. Qed.

Definition row_ok (fs : gmap string ReplayFile) (r : ReplayRow) : Prop :=
  0 ≤ row_start r ∧ row_start r < row_end r ∧ row_bytes r = row_end r - row_start r ∧
  0 ≤ row_offset r ∧ valid_replay_file_name (row_file r) = true ∧
  ∃ f, fs !! row_file r = Some f ∧ row_offset r + row_bytes r ≤ Z.of_N (len (contents f)).

Definition extends (fs fs' : gmap string ReplayFile) : Prop :=
  ∀ n f, fs !! n = Some f → ∃ f' x, fs' !! n = Some f' ∧ contents f' = contents f ++ x.
Lemma extends_refl fs : extends fs fs.
Proof. intros n f Hf. exists f, []. by rewrite app_nil_r. Qed.
Lemma extends_trans a b c : extends a b → extends b c → extends a c.
Proof.
  intros H1 H2 n f (f1 & x & Hf1 & Hx)%H1. destruct (H2 _ _ Hf1) as (f2 & y & Hf2 & Hy).
  exists f2, (x ++ y). split; [done|]. by rewrite Hy, Hx, app_assoc.
Qed.
Lemma row_ok_extends fs fs' r : extends fs fs' → row_ok fs r → row_ok fs' r.
Proof.
  intros He (? & ? & ? & ? & ? & f & Hf & Hlen). destruct (He _ _ Hf) as (f' & x & Hf' & Hx).
  unfold row_ok. split_and!; try done. exists f'. split; [done|]. rewrite Hx, len_app. lia.
Qed.
Lemma row_data_extends fs fs' r : extends fs fs' → row_ok fs r → row_data fs' r = row_data fs r.
Proof.
  intros He (? & ? & ? & ? & ? & f & Hf & Hlen). destruct (He _ _ Hf) as (f' & x & Hf' & Hx).
  unfold row_data. rewrite Hf, Hf', Hx. rewrite dropN_app_le by lia.
  apply takeN_app_le. rewrite len_dropN. lia.
Qed.
Lemma span_extends fs fs' l : extends fs fs' → Forall (row_ok fs) l → span fs' l = span fs l.
Proof.
  intros He. induction 1 as [|r l Hr Hl IH]; [done|].
  by rewrite !span_cons, IH, (row_data_extends fs fs').
Qed.
Lemma len_row_data fs r : row_ok fs r → Z.of_N (len (row_data fs r)) = row_bytes r.
Proof.
  intros (? & ? & ? & ? & ? & f & Hf & Hlen). unfold row_data. rewrite Hf.
  rewrite len_takeN, len_dropN. lia.
Qed.
Lemma len_span fs a l b : Forall (row_ok fs) l → covers a l b → Z.of_N (len (span fs l)) = b - a.
Proof.
  intros Hok. revert a. induction Hok as [|r l Hr Hl IH]; intros a; cbn [covers].
  - intros ->. rewrite span_nil, len_nil. lia.
  - intros (Hs & Hlt & Hc). rewrite span_cons, len_app. specialize (IH _ Hc).
    pose proof (len_row_data _ _ Hr). destruct Hr as (? & ? & ? & _). lia.
Qed.

(** ** Clipping the front of a window *)

(** What every eviction does to the rows of one Run. *)
Definition clip_one (front : Z) (r : ReplayRow) : option ReplayRow :=
  if decide (row_end r ≤ front) then None
  else if decide (row_start r < front) then Some (clip_row front r) else Some r.
Definition clip (front : Z) (l : list ReplayRow) : list ReplayRow := omap (clip_one front) l.

Lemma clip_cons front r l : clip front (r :: l) =
  match clip_one front r with Some r' => r' :: clip front l | None => clip front l end.
Proof. done. Qed.

Lemma clip_past a l b front : covers a l b → front ≤ a → clip front l = l.
Proof.
  revert a. induction l as [|r l IH]; intros a; [done|]. cbn [covers]. intros (Hs & Hlt & Hc) Hf.
  rewrite clip_cons. unfold clip_one. rewrite !decide_False by lia.
  f_equal. apply (IH (row_end r)); [done|lia].
Qed.
Lemma clip_covers a l b front : covers a l b → a ≤ front → front ≤ b → covers front (clip front l) b.
Proof.
  revert a. induction l as [|r l IH]; intros a; cbn [covers].
  { intros -> ??. cbn. lia. }
  intros (Hs & Hlt & Hc) Ha Hb. rewrite clip_cons. unfold clip_one.
  destruct (decide (row_end r ≤ front)); [by apply (IH (row_end r))|].
  fold (clip front l). rewrite (clip_past _ _ _ _ Hc) by lia.
  destruct (decide (row_start r < front)); cbn; split_and!; try done; lia.
Qed.
Lemma clip_beyond a l b front : covers a l b → b ≤ front → clip front l = [].
Proof.
  revert a. induction l as [|r l IH]; intros a; [done|]. cbn [covers]. intros (Hs & Hlt & Hc) Hf.
  pose proof (covers_le _ _ _ Hc). rewrite clip_cons. unfold clip_one.
  rewrite decide_True by lia. by apply (IH (row_end r)).
Qed.

Lemma row_data_clip fs r front : row_ok fs r → row_start r < front → front < row_end r →
  row_data fs (clip_row front r) = dropN (Z.to_N (front - row_start r)) (row_data fs r).
Proof.
  intros (? & ? & ? & ? & ? & f & Hf & Hlen) ??. unfold row_data. cbn. rewrite Hf.
  rewrite dropN_takeN, dropN_dropN. f_equal; [lia|]. f_equal. lia.
Qed.
Lemma span_clip fs a l b front : Forall (row_ok fs) l → covers a l b → a ≤ front → front ≤ b →
  span fs (clip front l) = dropN (Z.to_N (front - a)) (span fs l).
Proof.
  intros Hok. revert a. induction Hok as [|r l Hr Hl IH]; intros a; cbn [covers].
  { intros -> ??. change (clip front []) with (@nil ReplayRow). by rewrite span_nil, dropN_nil. }
  intros (Hs & Hlt & Hc) Ha Hb. pose proof (len_row_data _ _ Hr) as Hlen.
  assert (row_bytes r = row_end r - row_start r) as Hrb by apply Hr.
  rewrite clip_cons. unfold clip_one.
  destruct (decide (row_end r ≤ front)).
  - rewrite (IH (row_end r)) by (done || lia). rewrite span_cons.
    rewrite dropN_app_ge by lia. f_equal. lia.
  - rewrite (clip_past _ _ _ _ Hc) by lia. destruct (decide (row_start r < front)).
    + rewrite !span_cons, row_data_clip by (done || lia).
      rewrite dropN_app_le by lia. do 2 f_equal. lia.
    + replace (front - a) with 0 by lia. by rewrite dropN_0.
Qed.

(** Clipping keeps a row inside its own extent. *)
Definition within (r' r : ReplayRow) : Prop :=
  ordinal r' = ordinal r ∧ row_run r' = row_run r ∧ row_file r' = row_file r ∧
  row_end r' = row_end r ∧ row_start r ≤ row_start r' ∧ row_start r' < row_end r ∧
  row_offset r' = row_offset r + (row_start r' - row_start r) ∧
  row_bytes r' = row_end r' - row_start r'.
Lemma within_refl fs r : row_ok fs r → within r r.
Proof. intros (? & ? & ? & ? & _). unfold within. split_and!; try done; lia. Qed.
Lemma within_clip fs r front : row_ok fs r → row_start r ≤ front → front < row_end r →
  within (clip_row front r) r.
Proof. intros (? & ? & ? & ? & _) ??. unfold within. cbn. split_and!; try done; lia. Qed.
Lemma row_ok_within fs r r' : row_ok fs r → within r' r → row_ok fs r'.
Proof.
  intros (? & ? & ? & ? & ? & f & Hf & Hlen) (? & ? & Hfile & ? & ? & ? & ? & ?).
  unfold row_ok. rewrite Hfile. split_and!; try lia; try done. exists f. split; [done|]. lia.
Qed.

(** ** The rows that overlap a range *)

Definition overlaps (start stop : Z) (r : ReplayRow) : Prop := start < row_end r ∧ row_start r < stop.
#[global] Instance overlaps_dec start stop r : Decision (overlaps start stop r).
Proof. unfold overlaps. apply _. Defined.

Lemma overlaps_past a l b start stop : covers a l b → stop ≤ a → filter (overlaps start stop) l = [].
Proof.
  revert a. induction l as [|r l IH]; intros a; [done|]. cbn [covers]. intros (Hs & Hlt & Hc) Ha.
  rewrite filter_cons, decide_False by (unfold overlaps; lia). apply (IH (row_end r)); [done|lia].
Qed.
Lemma overlaps_from a l b start stop : covers a l b → start ≤ a → a ≤ stop → stop ≤ b →
  ∃ l' l2 b', l = l' ++ l2 ∧ filter (overlaps start stop) l = l' ∧ covers a l' b' ∧ stop ≤ b'.
Proof.
  revert a. induction l as [|r l IH]; intros a; cbn [covers].
  { intros -> ???. exists [], [], b. split_and!; try done. }
  intros (Hs & Hlt & Hc) Ha Hstop Hb. destruct (decide (stop = a)) as [->|Hne].
  { exists [], (r :: l), a. rewrite (overlaps_past a _ b) by (done || lia). done. }
  rewrite filter_cons, decide_True by (unfold overlaps; lia).
  destruct (decide (stop ≤ row_end r)).
  - exists [r], l, (row_end r). rewrite (overlaps_past _ _ _ _ _ Hc) by lia. done.
  - destruct (IH (row_end r)) as (l' & l2 & b' & -> & -> & Hc' & Hb'); [done|lia..|].
    exists (r :: l'), l2, b'. done.
Qed.
Lemma overlaps_covers a l b start stop : covers a l b → a ≤ start → start < stop → stop ≤ b →
  ∃ l1 l' l2 a' b', l = l1 ++ l' ++ l2 ∧ filter (overlaps start stop) l = l' ∧
    covers a l1 a' ∧ covers a' l' b' ∧ a' ≤ start ∧ stop ≤ b'.
Proof.
  revert a. induction l as [|r l IH]; intros a; cbn [covers]; [lia|].
  intros (Hs & Hlt & Hc) Ha Hstart Hb. rewrite filter_cons.
  destruct (decide (row_end r ≤ start)).
  - rewrite decide_False by (unfold overlaps; lia).
    destruct (IH (row_end r)) as (l1 & l' & l2 & a' & b' & -> & -> & Hc1 & ?); [done|lia..|].
    exists (r :: l1), l', l2, a', b'. done.
  - rewrite decide_True by (unfold overlaps; lia). exists [].
    destruct (decide (stop ≤ row_end r)).
    + exists [r], l, a, (row_end r). rewrite (overlaps_past _ _ _ _ _ Hc) by lia. done.
    + destruct (overlaps_from _ _ _ start stop Hc) as (l' & l2 & b' & -> & -> & Hc' & Hb'); [lia..|].
      exists (r :: l'), l2, a, b'. done.
Qed.

(** The bytes from [start] to [stop] of a window from [a]. *)
Definition slice (start stop a : Z) (d : bytes) : bytes :=
  takeN (Z.to_N (stop - start)) (dropN (Z.to_N (start - a)) d).
Lemma overlaps_slice fs a l b start stop : Forall (row_ok fs) l → covers a l b →
  a ≤ start → start < stop → stop ≤ b →
  ∃ l' a' b', by_start (filter (overlaps start stop) l) = l' ∧ Forall (row_ok fs) l' ∧
    covers a' l' b' ∧ a ≤ a' ∧ a' ≤ start ∧ stop ≤ b' ∧ Forall (overlaps start stop) l' ∧
    slice start stop a' (span fs l') = slice start stop a (span fs l).
Proof.
  intros Hok Hc Ha Hlt Hb.
  destruct (overlaps_covers _ _ _ _ _ Hc Ha Hlt Hb) as (l1 & l' & l2 & a' & b' & -> & Hf & Hc1 & Hc' & Ha' & Hb').
  exists l', a', b'. rewrite Hf, (by_start_covers _ _ _ Hc').
  apply Forall_app in Hok as [Hok1 [Hok' _]%Forall_app]. split_and!; try done.
  - by apply covers_le in Hc1.
  - apply Forall_forall. rewrite <-Hf. by intros r [Hr _]%list_elem_of_filter.
  - unfold slice. pose proof (len_span _ _ _ _ Hok1 Hc1). pose proof (len_span _ _ _ _ Hok' Hc').
    pose proof (covers_le _ _ _ Hc1). rewrite !span_app, (dropN_app_ge _ (span fs l1)) by lia.
    replace (Z.to_N (start - a) - len (span fs l1))%N with (Z.to_N (start - a')) by lia.
    rewrite dropN_app_le by lia. rewrite takeN_app_le; [done|]. rewrite len_dropN. lia.
Qed.
Lemma row_slice fs r d n : row_ok fs r → 0 ≤ d → (Z.to_N d + n ≤ Z.to_N (row_bytes r))%N →
  takeN n (dropN (Z.to_N d) (row_data fs r)) =
    match fs !! row_file r with
    | Some f => takeN n (dropN (Z.to_N (row_offset r + d)) (contents f))
    | None => []
    end.
Proof.
  intros (? & ? & ? & ? & ? & f & Hf & Hlen) Hd Hn. unfold row_data. rewrite Hf.
  rewrite dropN_takeN, takeN_takeN, dropN_dropN. f_equal; [lia|]. f_equal. lia.
Qed.
Lemma slice_beyond start stop a d : stop ≤ start → slice start stop a d = [].
Proof. intros. unfold slice. replace (Z.to_N (stop - start)) with 0%N by lia. apply takeN_0. Qed.
(** A slice that begins in the first row is its part of that row and the slice of the rest. *)
Lemma slice_first fs r l start stop : row_ok fs r → row_start r ≤ start → start < row_end r →
  start ≤ stop →
  let through := Z.min (row_end r) stop in
  slice start stop (row_start r) (span fs (r :: l)) =
    takeN (Z.to_N (through - start)) (dropN (Z.to_N (start - row_start r)) (row_data fs r)) ++
    slice through stop (row_end r) (span fs l).
Proof.
  intros Hok Hs He Hstop through. pose proof (len_row_data _ _ Hok). destruct Hok as (? & ? & ? & _).
  unfold slice. rewrite span_cons, dropN_app_le by lia. rewrite takeN_app. f_equal.
  - destruct (decide (row_end r ≤ stop)).
    + rewrite !takeN_ge by (rewrite len_dropN; lia). done.
    + f_equal. lia.
  - rewrite len_dropN. destruct (decide (row_end r ≤ stop)).
    + replace (Z.to_N (through - row_end r)) with 0%N by lia. rewrite dropN_0. f_equal. lia.
    + replace (Z.to_N (stop - through)) with 0%N by lia. rewrite takeN_0.
      replace (Z.to_N (stop - start) - _)%N with 0%N by lia. apply takeN_0.
Qed.
