(* ===== verification/ReplayTables.v ===== *)
(** * The invariant of the replay tables

    [tables_ok] is what every statement preserves by itself; [linked] ties a Run's
    cursors to its rows, and holds between transactions for every Run.  Each statement
    of [ReplayStore] has one lemma: what it does to the rows of its Run, and that it
    keeps the rest. *)

From S2P Require Import Prelude.
From S2P Require Import Protocol.
From S2P Require Import StorageErrors.
From S2P Require Import ReplayStore.
From S2P Require Import ReplayStoreSpec.
Local Open Scope Z_scope.

Definition files_ok (fs : gmap string ReplayFile) : Prop :=
  ∀ n f, fs !! n = Some f → (len (contents f) ≤ i64_max)%N ∧ (synced_bytes f ≤ len (contents f))%N.
Definition ordinal_lt (a b : ReplayRow) : Prop := ordinal a < ordinal b.
Definition apart (a b : ReplayRow) : Prop :=
  row_file a = row_file b →
  row_offset a + row_bytes a ≤ row_offset b ∨ row_offset b + row_bytes b ≤ row_offset a.

Definition run_ok (r : RunRow) : Prop :=
  0 ≤ durable_first_available_byte r ∧ durable_first_available_byte r ≤ durable_output_bytes r ∧
  durable_output_bytes r ≤ Z.of_N i64_max ∧
  replay_bytes r = durable_output_bytes r - durable_first_available_byte r ∧
  (0 < durable_first_available_byte r → row_truncated r = true) ∧
  0 ≤ row_metadata_bytes r ∧ state_kind r ∈ ["running"; "exited"; "interrupted"].
Definition keys_distinct (m : gmap RunId RunRow) : Prop :=
  NoDup (map (λ kv, row_creation_key kv.2) (map_to_list m)).
Definition account_of (m : gmap RunId RunRow) : Accounting :=
  {| acc_records := Z.of_nat (size m); acc_metadata_bytes := mapZ row_metadata_bytes m;
     acc_replay_bytes := mapZ replay_bytes m;
     acc_replay_runs := mapZ (λ r, positive (replay_bytes r)) m |}.

Record tables_ok (d : Db) (fs : gmap string ReplayFile) : Prop := {
  tables_files : files_ok fs;
  tables_rows : Forall (row_ok fs) (chunk_rows d);
  tables_owner : Forall (λ r, is_Some (run_rows d !! row_run r)) (chunk_rows d);
  tables_ordinals : StronglySorted ordinal_lt (chunk_rows d);
  tables_sequence : 0 ≤ chunk_sequence d ∧ Forall (λ r, 0 < ordinal r ∧ ordinal r ≤ chunk_sequence d) (chunk_rows d);
  tables_unique : ∀ id, NoDup (map row_start (rows_of id d));
  tables_apart : ∀ a b, a ∈ chunk_rows d → b ∈ chunk_rows d → ordinal a ≠ ordinal b → apart a b;
  tables_runs : map_Forall (λ _, run_ok) (run_rows d);
  tables_keys : keys_distinct (run_rows d);
  tables_account : accounting d = account_of (run_rows d);
}.

Definition linked (d : Db) (id : RunId) (r : RunRow) : Prop :=
  covers (durable_first_available_byte r) (rows_of id d) (durable_output_bytes r).
Definition store_ok (d : Db) (fs : gmap string ReplayFile) : Prop :=
  tables_ok d fs ∧ ∀ id r, run_rows d !! id = Some r → linked d id r.

Lemma rows_of_ok d fs id : tables_ok d fs → Forall (row_ok fs) (rows_of id d).
Proof.
  intros Ht. pose proof (tables_rows _ _ Ht) as Hok. rewrite Forall_forall in *.
  intros r [_ Hr]%list_elem_of_filter. auto.
Qed.

(** Every row was there under the same number and file, or is in [nm]. *)
Definition rows_from (nm : string) (d d' : Db) : Prop := ∀ x, x ∈ chunk_rows d' →
  row_file x = nm ∨ ∃ y, y ∈ chunk_rows d ∧ ordinal y = ordinal x ∧ row_file y = row_file x.
Lemma rows_from_refl nm d d' : chunk_rows d' = chunk_rows d → rows_from nm d d'.
Proof. intros Hd x. rewrite Hd. intros Hx. right. by exists x. Qed.
Lemma rows_from_trans nm a b c : rows_from nm a b → rows_from nm b c → rows_from nm a c.
Proof.
  intros K1 K2 x [?|(y & Hy & Ho & Hf)]%K2; [by left|]. destruct (K1 _ Hy) as [?|(z & Hz & Ho' & Hf')]; [left; congruence|].
  right. exists z. split_and!; [done|congruence..].
Qed.

(** ** The schema's constraints hold *)

Lemma nodup_pairs (l : list ReplayRow) :
  (∀ id, NoDup (map row_start (filter (λ r, row_run r = id) l))) →
  NoDup (map (λ r, (row_run r, row_start r)) l).
Proof.
  induction l as [|r l IH]; intros Hnd; cbn; [constructor|]. constructor.
  - intros (x & Heq & Hx)%list_elem_of_fmap. injection Heq as Hrun Hstart.
    specialize (Hnd (row_run r)). rewrite filter_cons, decide_True in Hnd by done.
    inversion Hnd as [|?? Hn _]; subst. apply Hn. apply list_elem_of_fmap. exists x.
    split; [done|]. apply list_elem_of_filter. done.
  - apply IH. intros id. specialize (Hnd id). rewrite filter_cons in Hnd.
    case_decide; [by inversion Hnd|done].
Qed.
Lemma account_nonneg m : map_Forall (λ _, run_ok) m →
  0 ≤ acc_records (account_of m) ∧ 0 ≤ acc_metadata_bytes (account_of m) ∧
  0 ≤ acc_replay_bytes (account_of m) ∧ 0 ≤ acc_replay_runs (account_of m).
Proof.
  intros Hm. cbn. split_and!; [lia|apply mapZ_nonneg..]; intros k v Hv.
  - apply (Hm k v Hv).
  - destruct (Hm k v Hv) as (? & ? & ? & ? & _). lia.
  - unfold positive. case_decide; lia.
Qed.
Lemma tables_constraints d fs : tables_ok d fs → constraints d.
Proof.
  intros Ht. pose proof (account_nonneg _ (tables_runs _ _ Ht)) as Hacc.
  unfold constraints. rewrite (tables_account _ _ Ht). split_and!; try apply Hacc.
  - eapply Forall_impl; [apply (tables_rows _ _ Ht)|]. intros r (? & ? & ? & ? & _).
    unfold row_checks. lia.
  - apply nodup_pairs, (tables_unique _ _ Ht).
  - apply (tables_owner _ _ Ht).
  - intros k r Hr. destruct (tables_runs _ _ Ht k r Hr) as (? & ? & ? & ? & ? & ? & ?).
    unfold run_checks. split_and!; try done; lia.
  - apply (tables_keys _ _ Ht).
Qed.

(** ** Deleting and shortening rows *)

(** A statement that deletes or shortens rows replaces each by nothing or by a row
    inside it. *)
Definition shrink (g : ReplayRow → option ReplayRow) (d : Db) : Db :=
  set_chunks (omap g (chunk_rows d)) d.
Definition shrinks (fs : gmap string ReplayFile) (g : ReplayRow → option ReplayRow) : Prop :=
  ∀ r r', row_ok fs r → g r = Some r' → within r' r.

Lemma rows_of_shrink fs g d id : tables_ok d fs → shrinks fs g →
  rows_of id (shrink g d) = omap g (rows_of id d).
Proof.
  intros Ht Hg. unfold rows_of, shrink. cbn.
  pose proof (tables_rows _ _ Ht) as Hok. induction Hok as [|r l Hr Hl IH]; [done|].
  rewrite filter_cons. cbn. destruct (g r) as [r'|] eqn:Hgr.
  - destruct (Hg _ _ Hr Hgr) as (_ & Hrun & _). rewrite filter_cons.
    destruct (decide (row_run r = id)) as [<-|Hne].
    + rewrite decide_True by done. cbn. rewrite Hgr. by f_equal.
    + rewrite decide_False by congruence. done.
  - destruct (decide (row_run r = id)); cbn; [by rewrite Hgr|done].
Qed.
Lemma omap_ordinals fs g l : shrinks fs g → Forall (row_ok fs) l →
  StronglySorted ordinal_lt l → StronglySorted ordinal_lt (omap g l).
Proof.
  intros Hg Hok Hs. induction Hs as [|r l Hl IH Hr]; [constructor|].
  inversion Hok as [|?? Hrok Hlok]; subst. cbn. destruct (g r) as [r'|] eqn:Hgr; [|by apply IH].
  constructor; [by apply IH|]. apply Forall_forall. intros x (y & Hy & Hgy)%list_elem_of_omap.
  rewrite Forall_forall in Hr, Hlok. destruct (Hg _ _ Hrok Hgr) as (Ho & _).
  destruct (Hg _ _ (Hlok _ Hy) Hgy) as (Ho' & _). specialize (Hr _ Hy). unfold ordinal_lt in *. lia.
Qed.
Lemma apart_within fs a b a' b' : row_ok fs a → row_ok fs b → within a' a → within b' b →
  apart a b → apart a' b'.
Proof.
  intros (? & ? & ? & _) (? & ? & ? & _)
    (? & ? & Hf & ? & ? & ? & ? & ?) (? & ? & Hf' & ? & ? & ? & ? & ?) Hab.
  unfold apart in *. rewrite Hf, Hf'. intros Heq. specialize (Hab Heq). lia.
Qed.
Lemma shrink_from fs g nm d : tables_ok d fs → shrinks fs g → rows_from nm d (shrink g d).
Proof.
  intros Ht Hg x (y & Hy & Hgy)%list_elem_of_omap. right. exists y.
  pose proof (tables_rows _ _ Ht) as Hok. rewrite Forall_forall in Hok.
  destruct (Hg _ _ (Hok _ Hy) Hgy) as (-> & _ & -> & _). done.
Qed.
Lemma shrink_tables fs g d : tables_ok d fs → shrinks fs g →
  (∀ id, NoDup (map row_start (omap g (rows_of id d)))) → tables_ok (shrink g d) fs.
Proof.
  intros Ht Hg Hnd. pose proof (tables_rows _ _ Ht) as Hok. rewrite Forall_forall in Hok.
  assert (∀ x, x ∈ omap g (chunk_rows d) → ∃ y, y ∈ chunk_rows d ∧ row_ok fs y ∧ within x y) as Hin.
  { intros x (y & Hy & Hgy)%list_elem_of_omap. exists y. split_and!; eauto. }
  constructor; cbn; try apply Ht.
  - apply Forall_forall. intros x (y & _ & Hy & Hw)%Hin. by eapply row_ok_within.
  - apply Forall_forall. intros x (y & Hy & _ & _ & -> & _)%Hin.
    pose proof (tables_owner _ _ Ht) as Ho. rewrite Forall_forall in Ho. auto.
  - eapply omap_ordinals; [done|apply Ht..].
  - pose proof (tables_sequence _ _ Ht) as [? Ho]. split; [done|]. rewrite Forall_forall in Ho.
    apply Forall_forall. intros x (y & Hy & _ & -> & _)%Hin. auto.
  - intros id. change (NoDup (map row_start (rows_of id (shrink g d)))).
    by rewrite (rows_of_shrink fs g d id).
  - intros a b (x & Hx & Hxok & Hxw)%Hin (y & Hy & Hyok & Hyw)%Hin Hne.
    eapply apart_within; [exact Hxok|exact Hyok|done..|]. apply (tables_apart _ _ Ht); [done..|].
    by destruct Hxw as (<- & _), Hyw as (<- & _).
Qed.

(** One Run's window clipped at [front], the others untouched. *)
Definition clipped (id : RunId) (front : Z) (r : ReplayRow) : option ReplayRow :=
  if decide (row_run r = id) then clip_one front r else Some r.
Lemma clipped_shrinks fs id front : shrinks fs (clipped id front).
Proof.
  intros r r' Hr. unfold clipped, clip_one. repeat case_decide; intros [= <-];
    by (eapply within_refl || (eapply within_clip; [done|lia..])).
Qed.
Lemma omap_step {A B} (g : A → option B) x (l : list A) :
  omap g (x :: l) = match g x with Some y => y :: omap g l | None => omap g l end.
Proof. done. Qed.
Lemma omap_id {A} (g : A → option A) (l : list A) : (∀ x, x ∈ l → g x = Some x) → omap g l = l.
Proof.
  induction l as [|x l IH]; intros Hg; [done|]. cbn. rewrite Hg by constructor. f_equal.
  apply IH. intros. apply Hg. by constructor.
Qed.
Lemma omap_clipped id front l : Forall (λ r, row_run r = id) l → omap (clipped id front) l = clip front l.
Proof.
  induction 1 as [|r l Hr Hl IH]; [done|]. rewrite clip_cons, <-IH. cbn. unfold clipped at 1.
  by rewrite decide_True.
Qed.
Lemma rows_of_run id d : Forall (λ r, row_run r = id) (rows_of id d).
Proof. apply Forall_forall. intros r [? _]%list_elem_of_filter. done. Qed.
Lemma rows_of_clipped fs d id front id' : tables_ok d fs →
  rows_of id' (shrink (clipped id front) d) =
    if decide (id' = id) then clip front (rows_of id d) else rows_of id' d.
Proof.
  intros Ht. rewrite (rows_of_shrink fs) by (done || apply clipped_shrinks).
  case_decide as Hid; [subst; apply omap_clipped, rows_of_run|].
  apply omap_id. intros x [Hx _]%list_elem_of_filter. unfold clipped. rewrite decide_False; congruence.
Qed.
Lemma clipped_tables fs d id front a b : tables_ok d fs → covers a (rows_of id d) b →
  tables_ok (shrink (clipped id front) d) fs.
Proof.
  intros Ht Hc. apply shrink_tables; [done|apply clipped_shrinks|]. intros id'.
  rewrite <-(rows_of_shrink fs) by (done || apply clipped_shrinks).
  rewrite (rows_of_clipped fs) by done. case_decide; [|apply Ht].
  destruct (decide (front ≤ a)).
  { rewrite (clip_past _ _ _ _ Hc) by done. by eapply covers_starts. }
  destruct (decide (front ≤ b)).
  - eapply covers_starts, clip_covers; [done|lia..].
  - rewrite (clip_beyond _ _ _ _ Hc) by lia. constructor.
Qed.

Lemma ordinals_inj d fs a b : tables_ok d fs → a ∈ chunk_rows d → b ∈ chunk_rows d →
  ordinal a = ordinal b → a = b.
Proof.
  intros Ht. pose proof (tables_ordinals _ _ Ht) as Hs.
  induction Hs as [|r l Hl IH Hr]; [by intros ?%elem_of_nil|].
  rewrite Forall_forall in Hr. intros [->|Ha]%elem_of_cons [->|Hb]%elem_of_cons Heq; auto.
  - specialize (Hr _ Hb). unfold ordinal_lt in Hr. lia.
  - specialize (Hr _ Ha). unfold ordinal_lt in Hr. lia.
Qed.

Lemma ordinals_nodup d fs : tables_ok d fs → NoDup (map ordinal (chunk_rows d)).
Proof.
  intros Ht. pose proof (tables_ordinals _ _ Ht) as Hs.
  induction Hs as [|r l Hl IH Hr]; cbn; constructor; [|done].
  intros (x & Heq & Hx)%list_elem_of_fmap. rewrite Forall_forall in Hr. specialize (Hr _ Hx).
  unfold ordinal_lt in Hr. lia.
Qed.

(** The statements of [prune_run_replay_to]. *)
Lemma prune_statements id front d :
  delete_before id front (clip_crossing id front d) = shrink (clipped id front) d.
Proof.
  unfold delete_before, clip_crossing, shrink, set_chunks. cbn. f_equal.
  induction (chunk_rows d) as [|r l IH]; [done|].
  rewrite map_cons, filter_cons, omap_step, IH. unfold clipped, clip_one. repeat case_decide; cbn in *; try done; exfalso; naive_solver lia.
Qed.
Definition crossing (id : RunId) (front : Z) (r : ReplayRow) : option ReplayRow :=
  Some (if decide (row_run r = id ∧ (row_start r < front ∧ front < row_end r)) then clip_row front r else r).
Lemma clip_crossing_shrink id front d : clip_crossing id front d = shrink (crossing id front) d.
Proof. done. Qed.
Lemma crossing_starts id front a l b : covers a l b →
  NoDup (map row_start (omap (crossing id front) l)) ∧
  ∀ x, x ∈ omap (crossing id front) l → a ≤ row_start x.
Proof.
  revert a. induction l as [|r l IH]; intros a; cbn [covers].
  { intros _. split; [constructor|]. by intros x ?%elem_of_nil. }
  intros (Hs & Hlt & Hc). destruct (IH _ Hc) as [Hnd Hge]. cbn. set (r' := if decide _ then _ else r).
  assert (a ≤ row_start r' ∧ row_start r' < row_end r) as [? ?].
  { subst r'. case_decide; cbn; lia. }
  split.
  - constructor; [|done]. intros (x & Heq & Hx)%list_elem_of_fmap. specialize (Hge _ Hx). lia.
  - intros x [->|Hx]%elem_of_cons; [lia|]. specialize (Hge _ Hx). lia.
Qed.
Lemma crossing_shrinks fs id front : shrinks fs (crossing id front).
Proof. intros r r' Hr [= <-]. case_decide; [eapply within_clip; [done|lia..]|by eapply within_refl]. Qed.
Lemma clip_crossing_tables fs d id front a b : tables_ok d fs → covers a (rows_of id d) b →
  tables_ok (clip_crossing id front d) fs.
Proof.
  intros Ht Hc. rewrite clip_crossing_shrink. apply shrink_tables; [done|apply crossing_shrinks|].
  intros id'. destruct (decide (id' = id)) as [->|Hne]; [by eapply crossing_starts|].
  rewrite omap_id; [apply Ht|]. intros x [Hx _]%list_elem_of_filter. unfold crossing.
  by rewrite decide_False by naive_solver.
Qed.

Lemma clip_crossing_rows id front d id' : id' ≠ id →
  rows_of id' (clip_crossing id front d) = rows_of id' d.
Proof.
  intros Hid. unfold rows_of, clip_crossing. cbn. induction (chunk_rows d) as [|r l IH]; [done|].
  rewrite map_cons, !filter_cons, IH. destruct (decide (row_run r = id ∧ _)) as [[Hr _]|]; [|done].
  cbn [clip_row row_run]. by rewrite !decide_False by congruence.
Qed.

(** [reset_window_to] past the head drops every row of the Run. *)
Lemma reset_statement fs id front d a b : tables_ok d fs → covers a (rows_of id d) b → b ≤ front →
  set_chunks (filter (λ r, ¬ (row_run r = id ∧ row_start r < front)) (chunk_rows d)) d =
  shrink (clipped id front) d.
Proof.
  intros Ht Hc Hb. unfold shrink. f_equal.
  assert (∀ r, r ∈ chunk_rows d → row_run r = id → row_start r < row_end r ∧ row_end r ≤ b) as Hin.
  { intros r Hr Hid. destruct (covers_elem _ _ _ r Hc) as (? & ? & ?); [|lia].
    by apply list_elem_of_filter. }
  clear Ht Hc. revert Hin. induction (chunk_rows d) as [|r l IH]; intros Hin; [done|].
  rewrite filter_cons, omap_step, IH by (intros; apply Hin; [by constructor|done]).
  specialize (Hin r (list_elem_of_here _ _)). unfold clipped, clip_one.
  repeat case_decide; try done; exfalso; naive_solver lia.
Qed.

(** The two statements of [shed_row], on the first row of a Run's window. *)
Lemma delete_statement fs d r rest a b : tables_ok d fs → rows_of (row_run r) d = r :: rest →
  covers a (r :: rest) b → delete_row (ordinal r) d = shrink (clipped (row_run r) (row_end r)) d.
Proof.
  intros Ht Hrows Hc. unfold delete_row, shrink. f_equal.
  assert (r ∈ rows_of (row_run r) d) as [_ Hr]%list_elem_of_filter by (rewrite Hrows; constructor).
  assert (∀ x, x ∈ chunk_rows d → (ordinal x = ordinal r → x = r) ∧
            (row_run x = row_run r → x = r ∨ row_end r ≤ row_start x ∧ row_start x < row_end x)) as Hin.
  { intros x Hx. split; [intros; by eapply ordinals_inj|]. intros Hrun.
    assert (x ∈ r :: rest) as Hx' by (rewrite <-Hrows; by apply list_elem_of_filter).
    apply elem_of_cons in Hx' as [->|Hx']; [by left|right]. destruct Hc as (_ & _ & Hc).
    destruct (covers_elem _ _ _ _ Hc Hx'). lia. }
  assert (row_start r < row_end r) as Hlt by apply Hc.
  clear Ht Hrows Hc Hr. revert Hin. induction (chunk_rows d) as [|x l IH]; intros Hin; [done|].
  rewrite filter_cons, omap_step, IH by (intros; apply Hin; by constructor).
  destruct (Hin x (list_elem_of_here _ _)) as [Ho Hrun]. unfold clipped, clip_one.
  repeat case_decide; try done; exfalso; naive_solver lia.
Qed.
Lemma shorten_statement fs d r rest shed a b : tables_ok d fs →
  rows_of (row_run r) d = r :: rest → covers a (r :: rest) b → 0 < shed → shed < row_bytes r →
  shorten_row (ordinal r) shed d = shrink (clipped (row_run r) (row_start r + shed)) d.
Proof.
  intros Ht Hrows Hc Hpos Hless. unfold shorten_row, shrink. f_equal.
  assert (r ∈ rows_of (row_run r) d) as [_ Hr]%list_elem_of_filter by (rewrite Hrows; constructor).
  assert (row_bytes r = row_end r - row_start r) as Hb.
  { pose proof (tables_rows _ _ Ht) as Hok. rewrite Forall_forall in Hok. apply (Hok _ Hr). }
  assert (∀ x, x ∈ chunk_rows d → (ordinal x = ordinal r → x = r) ∧
            (row_run x = row_run r → x = r ∨ row_end r ≤ row_start x ∧ row_start x < row_end x)) as Hin.
  { intros x Hx. split; [intros; by eapply ordinals_inj|]. intros Hrun.
    assert (x ∈ r :: rest) as Hx' by (rewrite <-Hrows; by apply list_elem_of_filter).
    apply elem_of_cons in Hx' as [->|Hx']; [by left|right]. destruct Hc as (_ & _ & Hc).
    destruct (covers_elem _ _ _ _ Hc Hx'). lia. }
  clear Ht Hrows Hc Hr. revert Hin. induction (chunk_rows d) as [|x l IH]; intros Hin; [done|].
  rewrite map_cons, omap_step, IH by (intros; apply Hin; by constructor).
  destruct (Hin x (list_elem_of_here _ _)) as [Ho Hrun].
  unfold clipped, clip_one. destruct (decide (ordinal x = ordinal r)) as [Heq|Hne].
  - rewrite (Ho Heq). rewrite decide_True by done. rewrite decide_False, decide_True by lia.
    f_equal. unfold clip_row. f_equal; lia.
  - destruct (decide (row_run x = row_run r)) as [Heq|]; [|done].
    destruct (Hrun Heq) as [->|?]; [done|]. by rewrite !decide_False by lia.
Qed.

(** ** Inserting a row and updating a Run *)

Lemma rows_of_insert id start stop file offset n d id' :
  rows_of id' (insert_chunk id start stop file offset n d) =
    rows_of id' d ++ (if decide (id' = id)
      then [{| ordinal := chunk_sequence d + 1; row_run := id; row_start := start; row_end := stop;
               row_file := file; row_offset := offset; row_bytes := n |}] else []).
Proof.
  unfold rows_of, insert_chunk. cbn. rewrite filter_app, filter_cons, filter_nil. cbn.
  repeat case_decide; by (done || congruence).
Qed.
Lemma tables_extends d fs fs' : tables_ok d fs → extends fs fs' → files_ok fs' → tables_ok d fs'.
Proof.
  intros Ht He Hf. constructor; try apply Ht; [done|].
  eapply Forall_impl; [apply (tables_rows _ _ Ht)|]. intros r. by apply row_ok_extends.
Qed.

(** The extent of the new row is the end of its file, past every indexed byte. *)
Lemma insert_tables d fs fs' id start stop file f data :
  tables_ok d fs → files_ok fs' → is_Some (run_rows d !! id) →
  fs !! file = Some f → extends fs fs' →
  fs' !! file = Some {| contents := contents f ++ data; synced_bytes := synced_bytes f |} →
  valid_replay_file_name file = true → data ≠ [] →
  0 ≤ start → stop = start + Z.of_N (len data) →
  (∀ x, x ∈ rows_of id d → row_start x < start) →
  tables_ok (insert_chunk id start stop file (Z.of_N (len (contents f))) (Z.of_N (len data)) d) fs'.
Proof.
  intros Ht Hfs' Hid Hf He Hf' Hname Hne Hstart -> Hfirst.
  assert (len data ≠ 0%N) as Hlen by (by rewrite len_zero).
  pose proof (tables_extends _ _ _ Ht He Hfs') as Ht'.
  assert (∀ r, r ∈ chunk_rows d → ordinal r ≤ chunk_sequence d ∧
     (row_file r = file → row_offset r + row_bytes r ≤ Z.of_N (len (contents f)))) as Hold.
  { intros r Hr. split.
    - pose proof (tables_sequence _ _ Ht) as [_ Ho]. rewrite Forall_forall in Ho. by apply Ho.
    - pose proof (tables_rows _ _ Ht) as Ho. rewrite Forall_forall in Ho.
      destruct (Ho _ Hr) as (_ & _ & _ & _ & _ & f1 & Hf1 & ?).
      intros Heq. rewrite Heq, Hf in Hf1. by injection Hf1 as <-. }
  constructor; try apply Ht'; cbn.
  - apply Forall_app. split; [apply Ht'|]. constructor; [|done]. unfold row_ok. cbn.
    split_and!; try lia; try done. eexists. split; [done|]. cbn. rewrite len_app. lia.
  - apply Forall_app. split; [apply Ht|]. by constructor.
  - apply StronglySorted_app. split_and!; [|apply Ht|repeat constructor].
    intros a b Ha [->|?%elem_of_nil]%elem_of_cons; [|done]. unfold ordinal_lt. cbn.
    destruct (Hold _ Ha). lia.
  - pose proof (tables_sequence _ _ Ht) as [? Ho]. split; [lia|]. apply Forall_app. split; [|repeat constructor; cbn; lia].
    eapply Forall_impl; [exact Ho|]. cbn. intros. lia.
  - intros id'. change (NoDup (map row_start (rows_of id' (insert_chunk id start
      (start + Z.of_N (len data)) file (Z.of_N (len (contents f))) (Z.of_N (len data)) d)))).
    rewrite rows_of_insert, map_app. apply NoDup_app. split_and!; [apply Ht| |].
    + intros x (y & -> & Hy)%list_elem_of_fmap. case_decide; [|by intros ?%elem_of_nil].
      subst. cbn. intros [Heq|?%elem_of_nil]%elem_of_cons; [|done]. specialize (Hfirst _ Hy). lia.
    + case_decide; cbn; repeat constructor. by intros ?%elem_of_nil.
  - intros a b [Ha|[->|?%elem_of_nil]%elem_of_cons]%elem_of_app
               [Hb|[->|?%elem_of_nil]%elem_of_cons]%elem_of_app Hne'; try done.
    + by apply (tables_apart _ _ Ht).
    + unfold apart. cbn. intros Heq. left. by apply (Hold _ Ha).
    + unfold apart. cbn. intros Heq. right. by apply (Hold _ Hb).
Qed.

Lemma update_run_chunks id f d : chunk_rows (update_run id f d) = chunk_rows d.
Proof. unfold update_run. by destruct (run_rows d !! id). Qed.
Lemma update_run_rows id f d id' : rows_of id' (update_run id f d) = rows_of id' d.
Proof. unfold rows_of, update_run. by destruct (run_rows d !! id). Qed.
Lemma account_update_of m id r r' : m !! id = Some r →
  account_update r r' (account_of m) = account_of (<[id := r']> m).
Proof.
  intros Hr. unfold account_update, account_of. cbn. rewrite !(mapZ_insert_Some _ _ _ _ _ Hr).
  f_equal. by rewrite map_size_insert_Some.
Qed.
Lemma keys_distinct_update m id r r' : keys_distinct m → m !! id = Some r →
  row_creation_key r' = row_creation_key r → keys_distinct (<[id := r']> m).
Proof.
  unfold keys_distinct. intros Hk Hr Heq.
  rewrite <-insert_delete_eq. rewrite map_to_list_insert by apply lookup_delete_eq.
  rewrite <-(insert_delete_id m id r Hr) in Hk.
  rewrite map_to_list_insert in Hk by apply lookup_delete_eq. cbn in *. by rewrite Heq.
Qed.
Lemma update_run_tables d fs id r r' f : tables_ok d fs → run_rows d !! id = Some r → f r = r' →
  run_ok r' → row_creation_key r' = row_creation_key r →
  tables_ok (update_run id f d) fs ∧ run_rows (update_run id f d) = <[id := r']> (run_rows d).
Proof.
  intros Ht Hr <- Hok Hkey. unfold update_run. rewrite Hr. split; [|done].
  constructor; cbn; try apply Ht.
  - eapply Forall_impl; [apply (tables_owner _ _ Ht)|]. cbn. intros x [y Hy].
    destruct (decide (row_run x = id)) as [->|]; [by rewrite lookup_insert_eq|].
    rewrite lookup_insert_ne by done. by eexists.
  - apply map_Forall_insert_2; [done|apply Ht].
  - by eapply keys_distinct_update; [apply Ht| |].
  - rewrite (tables_account _ _ Ht). by apply account_update_of.
Qed.
