(* ===== verification/ReplayAppend.v ===== *)
(** * Appending output to the durable window

    The reference semantics of an append ([absorb], [keep_last]) over the abstract
    window of a Run, and the proof that the statements, the row packing and the file
    writes of [append_replay_with_storage] implement it, whatever call fails. *)

From S2P Require Import Prelude.
From S2P Require Import Protocol.
From S2P Require Import StorageErrors.
From S2P Require Import ReplayStore.
From S2P Require Import ReplayStoreSpec.
From S2P Require Import ReplayTables.

(** ** The reference *)

(** A Run's durable output: its bytes from the floor to the head. *)
Record Window := { w_floor : N; w_data : bytes }.
Definition w_head (w : Window) : N := w_floor w + len (w_data w).

Definition well_formed (c : OutputChunk) : bool :=
  bool_decide (start_byte c < end_byte c) &&
  bool_decide (end_byte c - start_byte c = len (data c)) && bool_decide (end_byte c ≤ i64_max).

(** One chunk against a window: verify what is already there, append what is fresh, or
    restart the window at a gap the producer proves unrecoverable. *)
Definition absorb (replay : OutputReplay) (c : OutputChunk) (w : Window) : option Window :=
  if negb (well_formed c) then None else
  if decide (start_byte c < w_head w) then
    if decide (start_byte c < w_floor w) then None else
    let held := dropN (start_byte c - w_floor w) (w_data w) in
    if decide (takeN (len (data c)) held = takeN (len held) (data c))
    then Some {| w_floor := w_floor w; w_data := w_data w ++ dropN (len held) (data c) |}
    else None
  else if decide (start_byte c = w_head w)
  then Some {| w_floor := w_floor w; w_data := w_data w ++ data c |}
  else if replay_truncated replay && bool_decide (start_byte c = replay_first_available_byte replay)
  then Some {| w_floor := start_byte c; w_data := data c |}
  else None.
Fixpoint absorb_all (replay : OutputReplay) (cs : list OutputChunk) (w : Window) : option Window :=
  match cs with
  | [] => Some w
  | c :: cs => w' ← absorb replay c w; absorb_all replay cs w'
  end.

Section absorb.
Context (replay : OutputReplay).
Lemma well_formed_ok c : well_formed c = true →
  start_byte c < end_byte c ∧ end_byte c - start_byte c = len (data c) ∧ end_byte c ≤ i64_max.
Proof. unfold well_formed. rewrite !andb_true_iff, !bool_decide_eq_true. naive_solver. Qed.
Lemma absorb_malformed c w : well_formed c = false → absorb replay c w = None.
Proof. unfold absorb. by intros ->. Qed.
Lemma absorb_held c w : well_formed c = true → w_floor w ≤ start_byte c → end_byte c ≤ w_head w →
  absorb replay c w =
    if decide (slice (Z.of_N (start_byte c)) (Z.of_N (end_byte c)) (Z.of_N (w_floor w)) (w_data w) = data c)
    then Some w else None.
Proof.
  intros Hw Hf Hh. pose proof (well_formed_ok _ Hw) as (? & ? & ?). unfold absorb. rewrite Hw. cbn [negb].
  unfold w_head in *. rewrite decide_True, decide_False by lia. unfold slice.
  replace (Z.to_N (Z.of_N (end_byte c) - Z.of_N (start_byte c))) with (len (data c)) by lia.
  replace (Z.to_N (Z.of_N (start_byte c) - Z.of_N (w_floor w))) with (start_byte c - w_floor w) by lia.
  set (held := dropN _ _). assert (len (data c) ≤ len held) by (subst held; rewrite len_dropN; lia).
  rewrite (takeN_ge (len held)) by done. repeat case_decide; try done.
  rewrite dropN_ge, app_nil_r by done. by destruct w.
Qed.
Lemma absorb_evicted c w : start_byte c < w_head w → start_byte c < w_floor w →
  absorb replay c w = None.
Proof. intros. unfold absorb. case_match; [done|]. by rewrite !decide_True. Qed.
Lemma absorb_next c w : well_formed c = true → start_byte c = w_head w →
  absorb replay c w = Some {| w_floor := w_floor w; w_data := w_data w ++ data c |}.
Proof. intros Hw Hs. unfold absorb. rewrite Hw. cbn [negb]. by rewrite decide_False, decide_True by lia. Qed.
Lemma absorb_gap c w : well_formed c = true → w_head w < start_byte c →
  absorb replay c w =
    if replay_truncated replay && bool_decide (start_byte c = replay_first_available_byte replay)
    then Some {| w_floor := start_byte c; w_data := data c |} else None.
Proof. intros Hw Hs. unfold absorb. rewrite Hw. cbn [negb]. by rewrite !decide_False by lia. Qed.

(** The two halves of a chunk that crosses the head. *)
Definition first_half (p : N) (c : OutputChunk) : OutputChunk :=
  {| start_byte := start_byte c; end_byte := start_byte c + p; data := takeN p (data c) |}.
Definition second_half (p : N) (c : OutputChunk) : OutputChunk :=
  {| start_byte := start_byte c + p; end_byte := end_byte c; data := dropN p (data c) |}.
Lemma halves_well_formed p c : well_formed c = true → 0 < p → start_byte c + p < end_byte c →
  well_formed (first_half p c) = true ∧ well_formed (second_half p c) = true.
Proof.
  intros (? & ? & ?)%well_formed_ok ??. unfold well_formed, first_half, second_half. cbn.
  rewrite len_takeN, len_dropN. rewrite !bool_decide_true by lia. done.
Qed.
Lemma absorb_crossing p c w : well_formed c = true → 0 < p → start_byte c + p = w_head w →
  w_head w < end_byte c →
  absorb replay c w = (w' ← absorb replay (first_half p c) w; absorb replay (second_half p c) w').
Proof.
  intros Hw Hp Hh He. pose proof (well_formed_ok _ Hw) as (? & ? & ?).
  destruct (halves_well_formed p c Hw) as [Hw1 Hw2]; [lia..|].
  destruct (decide (start_byte c < w_floor w)).
  { rewrite !absorb_evicted by (cbn; lia). done. }
  rewrite (absorb_held (first_half p c)) by (done || (cbn [first_half start_byte end_byte]; lia)).
  cbn [first_half start_byte end_byte data].
  unfold absorb at 1. rewrite Hw. cbn [negb]. rewrite decide_True, decide_False by lia. unfold slice.
  replace (Z.to_N (Z.of_N (start_byte c + p) - Z.of_N (start_byte c))) with p by lia.
  replace (Z.to_N (Z.of_N (start_byte c) - Z.of_N (w_floor w))) with (start_byte c - w_floor w) by lia.
  set (held := dropN _ _). assert (len held = p) as Hl by (subst held; rewrite len_dropN; unfold w_head in *; lia).
  rewrite Hl, (takeN_ge (len (data c)) held), (takeN_ge p held) by lia. case_decide; [|done].
  cbn [mbind option_bind]. by rewrite absorb_next.
Qed.
End absorb.

(** Retention: the last [limit] bytes. *)
Definition keep_last (limit : N) (w : Window) : Window :=
  {| w_floor := w_floor w + (len (w_data w) - limit);
     w_data := dropN (len (w_data w) - limit) (w_data w) |}.

(** What a Run's window becomes: a terminal Run takes no byte past its head. *)
Definition receive (running : bool) (replay : OutputReplay) (limit : N) (w : Window) : option Window :=
  if negb running && existsb (λ c, bool_decide (w_head w < end_byte c)) (replay_chunks replay)
  then None else keep_last limit <$> absorb_all replay (replay_chunks replay) w.

(** The window a store holds for a Run. *)
Definition window_of (s : Store) (id : RunId) : option Window :=
  (λ r, {| w_floor := Z.to_N (durable_first_available_byte r);
           w_data := span (files s) (rows_of id (db s)) |}) <$> run_rows (db s) !! id.

(** ** What a call may change *)

(** Only the named file grows, and only the rows of [id] change. *)
Record only_appends (name : string) (id : RunId) (s s' : Store) : Prop := {
  oa_files : ∀ n, n ≠ name → files s' !! n = files s !! n;
  oa_file : ∀ f, files s !! name = Some f →
    ∃ x, files s' !! name = Some {| contents := contents f ++ x; synced_bytes := synced_bytes f |};
  oa_runs : run_rows (db s') = run_rows (db s);
  oa_active : active_replay_file (db s') = active_replay_file (db s);
  oa_rows : ∀ id', id' ≠ id → rows_of id' (db s') = rows_of id' (db s);
  oa_from : rows_from name (db s) (db s');
}.
Lemma only_appends_refl name id s s' : db s' = db s → files s' = files s → only_appends name id s s'.
Proof.
  intros Hd Hf. constructor; rewrite ?Hd, ?Hf; try done; [|by apply rows_from_refl].
  intros f Hn. exists []. rewrite app_nil_r. by destruct f.
Qed.
Lemma only_appends_trans name id a b c :
  only_appends name id a b → only_appends name id b c → only_appends name id a c.
Proof.
  intros [H1 H2 H3 H4 H5 H6] [K1 K2 K3 K4 K5 K6]. constructor.
  - intros n Hn. by rewrite K1, H1.
  - intros f Hf. destruct (H2 _ Hf) as (x & Hx). destruct (K2 _ Hx) as (y & Hy). cbn in Hy.
    exists (x ++ y). by rewrite Hy, app_assoc.
  - congruence.
  - congruence.
  - intros id' Hid. by rewrite K5, H5.
  - by eapply rows_from_trans.
Qed.
Lemma only_appends_extends name id s s' : only_appends name id s s' → extends (files s) (files s').
Proof.
  intros [H1 H2 _ _ _ _] n f Hf. destruct (decide (n = name)) as [->|Hne].
  - destruct (H2 _ Hf) as (x & Hx). by eexists _, x.
  - exists f, []. by rewrite H1, app_nil_r.
Qed.

(** Every indexed byte is on disk, or is the writer's to sync. *)
Definition row_synced (fs : gmap string ReplayFile) (r : ReplayRow) : Prop :=
  ∃ f, fs !! row_file r = Some f ∧ (row_offset r + row_bytes r ≤ Z.of_N (synced_bytes f))%Z.
Definition synced_but (w : ReplayFileWriter) (d : Db) (fs : gmap string ReplayFile) : Prop :=
  Forall (λ r, row_synced fs r ∨ row_file r = file_name w ∧ unsynced w = true) (chunk_rows d).

Lemma synced_shrink w g d fs : tables_ok d fs → shrinks fs g →
  synced_but w d fs → synced_but w (shrink g d) fs.
Proof.
  intros Ht Hg Hs. unfold synced_but in *. cbn. apply Forall_forall.
  intros x (y & Hy & Hgy)%list_elem_of_omap. rewrite Forall_forall in Hs.
  pose proof (tables_rows _ _ Ht) as Hok. rewrite Forall_forall in Hok.
  destruct (Hg _ _ (Hok _ Hy) Hgy) as (_ & _ & Hf & ? & ? & ? & ? & ?).
  destruct (Hok _ Hy) as (? & ? & ? & _). unfold row_synced. rewrite Hf.
  destruct (Hs _ Hy) as [(f & Hfs & ?)|?]; [left|by right]. exists f. split; [done|lia].
Qed.
Lemma synced_grows w name id s s' : only_appends name id s s' →
  synced_but w (db s) (files s) → synced_but w (db s) (files s').
Proof.
  intros [H1 H2 _ _ _ _] Hs. eapply Forall_impl; [exact Hs|]. intros r [(f & Hf & Hle)|?]; [left|by right].
  unfold row_synced. destruct (decide (row_file r = name)) as [Hn|Hne].
  - rewrite Hn in *. destruct (H2 _ Hf) as (x & Hx). eexists. by split.
  - exists f. by rewrite H1.
Qed.

Section append.
Context `{!UuidDisplay, !StateJson} (env : StorageEnv).

Definition faulty (e : PersistenceError) : Prop := ∃ t, fault env t = Some e.

(** ** Calls *)

Definition later (s : Store) : Store := set_clock (S (clock s)) s.
Lemma wp_tick s Q : Q (later s) (Ok (clock s)) → wp tick s Q.
Proof. done. Qed.
Lemma wp_guarded {A} (k : SM A) s Q :
  (∀ e, faulty e → Q (later s) (Err e)) → wp k (later s) Q → wp (guarded env k) s Q.
Proof.
  intros Herr Hk. unfold guarded. apply wp_bind. apply wp_tick.
  destruct (fault env (clock s)) as [e|] eqn:He; [|done]. apply wp_fail, Herr. by exists (clock s).
Qed.
Lemma wp_query {A} (f : Db → A) s Q :
  (∀ e, faulty e → Q (later s) (Err e)) → Q (later s) (Ok (f (db s))) → wp (query env f) s Q.
Proof. intros. by apply wp_guarded. Qed.
Lemma wp_query_row {A} (f : Db → option A) s a Q : f (db s) = Some a →
  (∀ e, faulty e → Q (later s) (Err e)) → Q (later s) (Ok a) → wp (query_row env f) s Q.
Proof.
  intros Hf Herr Hok. unfold query_row. apply wp_bind. apply wp_query; [done|]. by rewrite Hf.
Qed.
Lemma wp_execute f s Q : constraints (f (db s)) →
  (∀ e, faulty e → Q (later s) (Err e)) → Q (set_db (f (db s)) (later s)) (Ok tt) →
  wp (execute env f) s Q.
Proof.
  intros Hc Herr Hok. apply wp_guarded; [done|]. unfold wp. cbn. by rewrite decide_True.
Qed.
Lemma wp_lift_ok {A} (r : result A PersistenceError) a s Q : r = Ok a → Q s (Ok a) → wp (lift r) s Q.
Proof. by intros -> ?. Qed.
Lemma wp_mutation_or {A} m (o : option A) a s Q : o = Some a → Q s (Ok a) → wp (mutation_or m o) s Q.
Proof. by intros -> ?. Qed.

Lemma i64_of_ok n : (n ≤ i64_max)%N → i64_of n = Some (Z.of_N n).
Proof. intros. unfold i64_of. by rewrite decide_True. Qed.
Lemma nonnegative_ok z l : (0 ≤ z)%Z → nonnegative_u64 z l = Ok (Z.to_N z).
Proof. intros. unfold nonnegative_u64. by rewrite decide_True. Qed.

(** ** Where an append stands

    The rows, and then the pending bytes, are the window [win]; its file still has
    room for [room] more bytes.  [s0] is the store before the call and [nm] the file
    it appends to. *)
Section cursor.
Context (id : RunId) (nm : string) (s0 : Store).

Record at_cursor (room : N) (win : Window) (c : ReplayCursors) (s : Store) : Prop := {
  ac_frame : only_appends nm id s0 s;
  ac_tables : tables_ok (db s) (files s);
  ac_run : is_Some (run_rows (db s) !! id);
  ac_covers : covers (durable_oldest c) (rows_of id (db s))
                     (durable_head c - Z.of_N (len (pending c)));
  ac_pending : pending c ≠ [] → pending_start c = (durable_head c - Z.of_N (len (pending c)))%Z;
  ac_data : span (files s) (rows_of id (db s)) ++ pending c = w_data win;
  ac_floor : durable_oldest c = Z.of_N (w_floor win);
  ac_head : (durable_head c ≤ Z.of_N i64_max)%Z;
  ac_bytes : cursor_replay_bytes c = (durable_head c - durable_oldest c)%Z;
  ac_name : file_name (writer c) = nm ∧ valid_replay_file_name nm = true;
  ac_file : ∃ f, files s !! nm = Some f ∧ next_offset (writer c) = len (contents f) ∧
              len (contents f) + len (pending c) + room ≤ i64_max;
  ac_synced : synced_but (writer c) (db s) (files s);
}.

(** A call that only appends, and ends in [ok] or fails by the host's fault or by [bad]. *)
Definition ends {A} (ok : A → Store → Prop) (bad : PersistenceError → Prop)
    (s : Store) (r : result A PersistenceError) : Prop :=
  only_appends nm id s0 s ∧ match r with Ok a => ok a s | Err e => faulty e ∨ bad e end.

Lemma ends_bind {A B} (m : SM A) (k : A → SM B) s ok bad ok' bad' :
  wp m s (ends ok bad) → (∀ e, bad e → bad' e) →
  (∀ a s', only_appends nm id s0 s' → ok a s' → wp (k a) s' (ends ok' bad')) →
  wp (bind m k) s (ends ok' bad').
Proof.
  intros Hm Hbad Hk. apply wp_bind. eapply wp_mono; [exact Hm|].
  intros s' [a|e] [Hs' Hr]; [by apply Hk|]. split; [done|]. naive_solver.
Qed.
Lemma ends_mono {A} (m : SM A) s ok bad ok' bad' : wp m s (ends ok bad) →
  (∀ a s', only_appends nm id s0 s' → ok a s' → ok' a s') → (∀ e, bad e → bad' e) →
  wp m s (ends ok' bad').
Proof.
  intros Hm Hok Hbad. eapply wp_mono; [exact Hm|]. intros s' [a|e] [Hs' Hr]; split; naive_solver.
Qed.
Lemma only_appends_later s : only_appends nm id s0 s → only_appends nm id s0 (later s).
Proof. intros. eapply only_appends_trans; [done|]. by apply only_appends_refl. Qed.
Lemma ends_fault {A} s e ok bad : only_appends nm id s0 s → faulty e →
  ends (A := A) ok bad (later s) (Err e).
Proof. intros. split; [by apply only_appends_later|by left]. Qed.
Lemma at_cursor_later room win c s : at_cursor room win c s → at_cursor room win c (later s).
Proof. intros Hc. constructor; try apply Hc. by apply only_appends_later, Hc. Qed.
Lemma at_cursor_head room win c s : at_cursor room win c s → durable_head c = Z.of_N (w_head win).
Proof.
  intros Hc. pose proof (ac_covers _ _ _ _ Hc) as Hr. pose proof (ac_data _ _ _ _ Hc) as Hd.
  pose proof (len_span _ _ _ _ (rows_of_ok _ _ id (ac_tables _ _ _ _ Hc)) Hr) as Hl.
  unfold w_head. rewrite <-Hd, len_app. pose proof (ac_floor _ _ _ _ Hc). lia.
Qed.

(** ** Writing the pending row *)

Lemma i64_le_u64 : i64_max ≤ u64_max.
Proof. done. Qed.
Lemma append_bytes_frame f d s : only_appends nm id s0 s → files s !! nm = Some f →
  only_appends nm id s0 (append_bytes nm d s).
Proof.
  intros Hs Hf. eapply only_appends_trans; [done|]. unfold append_bytes. rewrite Hf.
  constructor; cbn; try done.
  - intros n Hn. by rewrite lookup_insert_ne.
  - intros f' Hf'. assert (f' = f) as -> by congruence. exists d. by rewrite lookup_insert_eq.
  - by apply rows_from_refl.
Qed.
Lemma append_spec d w f s : only_appends nm id s0 s → file_name w = nm →
  files s !! nm = Some f → next_offset w = len (contents f) → len (contents f) + len d ≤ i64_max →
  wp (writer_append env d w) s (ends (λ r s', s' = append_bytes nm d (later s) ∧
    r = ({| file_name := nm; next_offset := len (contents f) + len d;
            unsynced := unsynced w || bool_decide (d ≠ []) |}, len (contents f))) (λ _, False)).
Proof.
  intros Hs Hw Hf Hn Hlen. unfold writer_append. rewrite Hw, Hn. apply wp_bind.
  pose proof i64_le_u64. eapply wp_mutation_or; [unfold checked_add; rewrite decide_True by lia; done|].
  apply wp_bind, wp_tick. apply only_appends_later in Hs.
  destruct (fault env (clock s)) as [e|] eqn:He; apply wp_bind, wp_modify.
  - apply wp_fail. split; [by eapply append_bytes_frame|]. left. by exists (clock s).
  - apply wp_ret. split; [by eapply append_bytes_frame|done].
Qed.

(** The row of the pending bytes, at the end of the file. *)
Definition appended (f : ReplayFile) (d : bytes) : ReplayFile :=
  {| contents := contents f ++ d; synced_bytes := synced_bytes f |}.
Definition with_row (start : Z) (f : ReplayFile) (d : bytes) (s : Store) : Store :=
  let n := Z.of_N (len d) in
  set_db (insert_chunk id start (start + n) nm (Z.of_N (len (contents f))) n (db s))
    (set_files (<[nm := appended f d]> (files s)) s).
Lemma files_ok_append fs f d : files_ok fs → fs !! nm = Some f → len (contents f) + len d ≤ i64_max →
  files_ok (<[nm := appended f d]> fs).
Proof.
  intros Hfs Hf Hlen n f' [[<- <-]|[_ Hn]]%lookup_insert_Some; [|by eapply Hfs].
  destruct (Hfs _ _ Hf). cbn. rewrite len_app. lia.
Qed.
Lemma extends_append fs f d : fs !! nm = Some f → extends fs (<[nm := appended f d]> fs).
Proof.
  intros Hf n f' Hn. destruct (decide (n = nm)) as [->|Hne].
  - rewrite Hf in Hn. injection Hn as <-. eexists _, d. by rewrite lookup_insert_eq.
  - exists f', []. by rewrite lookup_insert_ne, app_nil_r.
Qed.
Lemma with_row_rows start f d s id' : rows_of id' (db (with_row start f d s)) =
  rows_of id' (db s) ++ (if decide (id' = id)
    then [{| ordinal := chunk_sequence (db s) + 1; row_run := id; row_start := start;
             row_end := start + Z.of_N (len d); row_file := nm;
             row_offset := Z.of_N (len (contents f)); row_bytes := Z.of_N (len d) |}]%Z else []).
Proof. apply rows_of_insert. Qed.
Lemma with_row_frame start f d s : only_appends nm id s0 s → files s !! nm = Some f →
  only_appends nm id s0 (with_row start f d s).
Proof.
  intros Hs Hf. eapply only_appends_trans; [done|]. constructor; try done.
  - intros n Hn. cbn. by rewrite lookup_insert_ne.
  - intros f' Hf'. assert (f' = f) as -> by congruence. exists d. cbn. by rewrite lookup_insert_eq.
  - intros id' Hid. by rewrite with_row_rows, decide_False, app_nil_r.
  - intros x [Hx| ->%list_elem_of_singleton]%elem_of_app; [right; by exists x|by left].
Qed.
Lemma with_row_tables room win c f s : at_cursor room win c s → files s !! nm = Some f →
  pending c ≠ [] → len (contents f) + len (pending c) ≤ i64_max →
  tables_ok (db (with_row (pending_start c) f (pending c) s))
            (files (with_row (pending_start c) f (pending c) s)).
Proof.
  intros Hc Hf Hne Hlen. pose proof (ac_tables _ _ _ _ Hc) as Ht. cbn.
  pose proof (ac_pending _ _ _ _ Hc Hne) as Hp. pose proof (covers_le _ _ _ (ac_covers _ _ _ _ Hc)).
  eapply insert_tables; try done.
  - apply files_ok_append; [apply Ht|done..].
  - apply (ac_run _ _ _ _ Hc).
  - by apply extends_append.
  - by rewrite lookup_insert_eq.
  - apply (ac_name _ _ _ _ Hc).
  - pose proof (ac_floor _ _ _ _ Hc). lia.
  - intros x Hx. destruct (covers_elem _ _ _ _ (ac_covers _ _ _ _ Hc) Hx). lia.
Qed.
Lemma row_data_appended fs f d r : fs !! row_file r = Some (appended f d) →
  row_offset r = Z.of_N (len (contents f)) → row_bytes r = Z.of_N (len d) → row_data fs r = d.
Proof.
  intros Hf Ho Hb. unfold row_data. rewrite Hf, Ho, Hb. cbn.
  rewrite !N2Z.id, dropN_app_ge, N.sub_diag, dropN_0 by lia. apply takeN_ge. lia.
Qed.
Lemma span_with_row start f d s : tables_ok (db s) (files s) → files s !! nm = Some f →
  span (files (with_row start f d s)) (rows_of id (db (with_row start f d s))) =
    span (files s) (rows_of id (db s)) ++ d.
Proof.
  intros Ht Hf. rewrite with_row_rows, decide_True, span_app by done. f_equal.
  - apply span_extends; [by apply extends_append|by apply rows_of_ok].
  - rewrite span_cons, span_nil, app_nil_r. eapply row_data_appended; cbn; [apply lookup_insert_eq|done..].
Qed.

Definition flushed (f : ReplayFile) (c : ReplayCursors) : ReplayCursors :=
  {| durable_oldest := durable_oldest c; durable_head := durable_head c;
     cursor_replay_bytes := cursor_replay_bytes c; pending := [];
     pending_start := pending_start c;
     writer := {| file_name := nm; next_offset := len (contents f) + len (pending c);
                  unsynced := true |} |}.
Lemma flushed_cursor room win c f s : at_cursor room win c s → files s !! nm = Some f →
  pending c ≠ [] → len (contents f) + len (pending c) + room ≤ i64_max →
  at_cursor room win (flushed f c) (with_row (pending_start c) f (pending c) s).
Proof.
  intros Hc Hf Hne Hlen. pose proof (ac_pending _ _ _ _ Hc Hne) as Hp.
  assert (len (pending c) ≠ 0) as Hpos by by rewrite len_zero.
  constructor; cbn [flushed durable_oldest durable_head cursor_replay_bytes pending pending_start writer file_name next_offset unsynced].
  - by apply with_row_frame; [apply Hc|].
  - eapply with_row_tables; [done..|lia].
  - apply Hc.
  - rewrite with_row_rows, decide_True by done. apply covers_app. eexists. split; [apply Hc|].
    cbn. rewrite len_nil. lia.
  - done.
  - rewrite span_with_row, app_nil_r; [apply Hc|apply Hc|done].
  - apply Hc.
  - apply Hc.
  - apply Hc.
  - split; [done|apply (ac_name _ _ _ _ Hc)].
  - eexists. split; [apply lookup_insert_eq|]. cbn. rewrite len_app, len_nil. split; [done|lia].
  - unfold synced_but. cbn. apply Forall_app. split.
    + pose proof (ac_synced _ _ _ _ Hc) as Hs. eapply Forall_impl; [exact Hs|].
      intros r [(g & Hg & Hle)|[Hr Hu]]; [left|right; split; [|done]].
      * destruct (decide (row_file r = nm)) as [Heq|Hn].
        -- eexists. rewrite Heq, lookup_insert_eq. split; [done|]. cbn. rewrite Heq in Hg. congruence.
        -- exists g. by rewrite lookup_insert_ne.
      * rewrite Hr. apply (ac_name _ _ _ _ Hc).
    + constructor; [by right|done].
Qed.

Lemma flush_spec room win c s : at_cursor room win c s →
  wp (flush_pending_row_for_cursors env id c) s (ends (λ c' s',
    at_cursor room win c' s' ∧ pending c' = [] ∧ durable_head c' = durable_head c ∧
    durable_oldest c' = durable_oldest c ∧ cursor_replay_bytes c' = cursor_replay_bytes c)
    (λ _, False)).
Proof.
  intros Hc. unfold flush_pending_row_for_cursors. case_decide as Hp.
  { apply wp_ret. split; [apply Hc|done]. }
  pose proof (ac_pending _ _ _ _ Hc Hp) as Hstart. pose proof (ac_head _ _ _ _ Hc).
  destruct (ac_file _ _ _ _ Hc) as (f & Hf & Hn & Hlen).
  destruct (ac_name _ _ _ _ Hc) as [Hname _].
  apply wp_bind. eapply wp_mutation_or; [apply i64_of_ok; lia|].
  apply wp_bind. eapply wp_mutation_or; [unfold i64_checked_add; rewrite decide_True by lia; done|].
  eapply ends_bind; [eapply append_spec; [apply Hc|done..|lia]|done|].
  intros [w o] s' Hs' [-> [= -> ->]]. apply wp_bind.
  assert (i64_or_max (len (contents f)) = Z.of_N (len (contents f))) as ->.
  { unfold i64_or_max. f_equal. lia. }
  assert (append_bytes nm (pending c) (later s) =
    set_files (<[nm := appended f (pending c)]> (files s)) (later s)) as Heq.
  { unfold append_bytes. cbn. by rewrite Hf. }
  rewrite Heq in Hs' |- *. clear Heq.
  apply wp_execute; [|intros; by apply ends_fault|].
  - eapply tables_constraints. apply (with_row_tables room win c f (later s)); [|done|done|lia].
    by apply at_cursor_later.
  - apply wp_ret. pose proof (flushed_cursor room win c f (later (later s))
      ltac:(by do 2 apply at_cursor_later) Hf Hp Hlen) as Hc'. unfold flushed in Hc'.
    rewrite Hstart in Hc' |- *. split; [apply (ac_frame _ _ _ _ Hc')|]. split; [|done].
    rewrite bool_decide_true, orb_true_r by done. exact Hc'.
Qed.

(** ** Verifying bytes that are already stored *)

Definition unchanged (s s' : Store) : Prop := db s' = db s ∧ files s' = files s.
Lemma unchanged_frame s s' : only_appends nm id s0 s → unchanged s s' → only_appends nm id s0 s'.
Proof. intros Hs [Hd Hf]. eapply only_appends_trans; [done|]. by apply only_appends_refl. Qed.
Lemma at_cursor_unchanged room win c s s' : at_cursor room win c s → unchanged s s' →
  at_cursor room win c s'.
Proof.
  intros Hc Hu. pose proof (unchanged_frame _ _ (ac_frame _ _ _ _ Hc) Hu). destruct Hu as [Hd Hf].
  constructor; rewrite ?Hd, ?Hf; try apply Hc. done.
Qed.

Lemma segment_spec r d n s : only_appends nm id s0 s → files_ok (files s) → row_ok (files s) r →
  (0 ≤ d)%Z → Z.to_N d + n ≤ Z.to_N (row_bytes r) →
  wp (read_replay_segment env (row_file r) (Z.to_N (row_offset r + d)) n) s
    (ends (λ b s', unchanged s s' ∧ b = takeN n (dropN (Z.to_N d) (row_data (files s) r)))
          (λ _, False)).
Proof.
  intros Hs Hfs Hok Hd Hn. pose proof (row_slice _ _ _ _ Hok Hd Hn) as Hslice.
  destruct Hok as (_ & ? & ? & ? & Hname & f & Hf & Hlen). rewrite Hf in Hslice.
  destruct (Hfs _ _ Hf) as [Hmax _]. pose proof i64_le_u64. unfold read_replay_segment.
  apply wp_bind. eapply wp_lift_ok; [unfold validate_replay_file_name; by rewrite Hname|].
  apply wp_bind, wp_guarded; [intros; by apply ends_fault|]. unfold wp at 1. cbn. rewrite Hf.
  apply wp_bind, wp_guarded.
  { intros. apply ends_fault; [by apply only_appends_later|done]. }
  unfold wp at 1. cbn. unfold len_of_file. cbn. rewrite Hf.
  unfold checked_add. rewrite decide_True by lia. rewrite decide_False by lia.
  apply wp_guarded.
  { intros. apply ends_fault; [by do 2 apply only_appends_later|done]. }
  unfold wp. cbn. split; [by do 3 apply only_appends_later|]. split; [done|].
  unfold file_bytes. cbn. by rewrite Hf, Hslice.
Qed.

Lemma app_split k (x y l : bytes) : len x = k → x ++ y = l ↔ takeN k l = x ∧ y = dropN k l.
Proof.
  intros <-. split.
  - intros <-. rewrite takeN_app_le, takeN_ge, dropN_app_ge, N.sub_diag by lia. done.
  - intros [Hx ->]. rewrite <-Hx at 1. apply takeN_dropN.
Qed.
Lemma stored_spec rows start stop expected cursor a b s : only_appends nm id s0 s →
  files_ok (files s) → Forall (row_ok (files s)) rows → covers a rows b → (stop ≤ b)%Z →
  (start ≤ cursor)%Z → (stop ≤ cursor ∨ a ≤ cursor ∧ Forall (λ r, cursor < row_end r) rows)%Z →
  Z.of_N (len expected) = (stop - start)%Z →
  wp (stored_rows_match env rows start stop expected cursor) s
    (ends (λ same s', unchanged s s' ∧ same = bool_decide
        (slice cursor stop a (span (files s) rows) = dropN (Z.to_N (cursor - start)) expected))
      (λ _, False)).
Proof.
  intros Hs Hfs Hok. revert cursor a s Hs Hfs Hok.
  induction rows as [|r rows IH]; intros cursor a s Hs Hfs Hok Hc Hb Hst Hpos Hlen; cbn [stored_rows_match].
  all: destruct (decide (stop ≤ cursor)%Z) as [Hle|Hlt].
  1,3: apply wp_ret; split; [done|]; split; [done|]; rewrite slice_beyond, dropN_ge by lia; done.
  { cbn in Hc. destruct Hpos as [?|[? _]]; lia. }
  destruct Hpos as [?|[Ha Hall]]; [lia|]. inversion Hall as [|?? Hr Hrest]; subst.
  inversion Hok as [|?? Hrok Hrestok]; subst. destruct Hc as (<- & Hne & Hc).
  pose proof Hrok as (? & ? & Hbytes & ? & _). rewrite decide_False by lia.
  set (through := Z.min (row_end r) stop).
  apply wp_bind. eapply wp_lift_ok; [apply nonnegative_ok; lia|].
  apply wp_bind. eapply wp_lift_ok; [apply nonnegative_ok; lia|].
  replace (row_offset r + cursor - row_start r)%Z with (row_offset r + (cursor - row_start r))%Z by lia.
  eapply ends_bind; [apply segment_spec; [done..|lia|lia]|done|].
  intros d s' Hs' [Hu ->]. rewrite bool_decide_true by lia. cbn [andb].
  rewrite (slice_first _ _ _ _ _ Hrok) by lia. fold through.
  set (mine := takeN (Z.to_N (through - cursor)) _).
  assert (len mine = Z.to_N (through - start) - Z.to_N (cursor - start)) as Hmine.
  { subst mine. rewrite len_takeN, len_dropN. pose proof (len_row_data _ _ Hrok). lia. }
  pose proof (app_split _ mine (slice through stop (row_end r) (span (files s) rows))
    (dropN (Z.to_N (cursor - start)) expected) Hmine) as Hsplit.
  case_bool_decide as Heq.
  - eapply ends_mono; [eapply (IH through (row_end r) s')|..]; try done.
    + by destruct Hu as [_ ->].
    + by destruct Hu as [_ ->].
    + lia.
    + destruct (decide (stop ≤ row_end r)%Z); [left; lia|right]. split; [lia|].
      apply Forall_forall. intros x Hx. destruct (covers_elem _ _ _ _ Hc Hx). lia.
    + intros same s2 _ [[Hd2 Hf2] ->]. destruct Hu as [Hd Hf]. split; [by split; congruence|].
      rewrite Hf. apply bool_decide_ext. rewrite Hsplit, dropN_dropN.
      replace (Z.to_N (cursor - start) + _) with (Z.to_N (through - start)) by lia. naive_solver.
  - apply wp_ret. split; [done|]. split; [done|]. symmetry. apply bool_decide_false. naive_solver.
Qed.

Lemma stored_range_spec room win c start stop expected s : at_cursor room win c s → pending c = [] →
  (durable_oldest c ≤ start)%Z → (start < stop)%Z → (stop ≤ durable_head c)%Z →
  Z.of_N (len expected) = (stop - start)%Z →
  wp (stored_range_matches_in env id start stop expected) s
    (ends (λ same s', unchanged s s' ∧
       same = bool_decide (slice start stop (durable_oldest c) (w_data win) = expected)) (λ _, False)).
Proof.
  intros Hc Hp Ha Hlt Hb Hlen. unfold stored_range_matches_in.
  pose proof (ac_covers _ _ _ _ Hc) as Hr. pose proof (ac_data _ _ _ _ Hc) as Hd.
  rewrite Hp, len_nil in Hr. rewrite Hp, app_nil_r in Hd.
  destruct (overlaps_slice (files s) _ _ _ start stop
              (rows_of_ok _ _ id (ac_tables _ _ _ _ Hc)) Hr) as
    (l' & a' & b' & Hl' & Hok & Hcov & _ & Ha' & Hb' & Hpast & Hslice); [lia..|].
  apply wp_bind, wp_query; [intros; apply ends_fault; [apply Hc|done]|].
  change (overlapping id start stop (db s)) with (by_start (filter (overlaps start stop) (rows_of id (db s)))).
  rewrite Hl'. eapply ends_mono; [apply (stored_spec l' start stop expected start a' b')|..]; try done.
  - apply only_appends_later, Hc.
  - apply Hc.
  - right. split; [lia|]. eapply Forall_impl; [exact Hpast|]. by intros x [? _].
  - intros same s' _ [Hu ->]. split; [done|]. change (files (later s)) with (files s).
    rewrite Hslice, Hd, Z.sub_diag. done.
Qed.

(** ** Restarting at a proven gap *)

Lemma reset_spec room win c start s : at_cursor room win c s → pending c = [] →
  (durable_head c < Z.of_N start)%Z → start ≤ i64_max →
  wp (reset_window_to env id (Z.of_N start)) s (ends (λ kept s',
    at_cursor room {| w_floor := start; w_data := [] |}
      {| durable_oldest := Z.of_N start; durable_head := Z.of_N start; cursor_replay_bytes := kept;
         pending := pending c; pending_start := pending_start c; writer := writer c |} s')
    (λ _, False)).
Proof.
  intros Hc Hp Hlt Hmax. unfold reset_window_to. pose proof (ac_covers _ _ _ _ Hc) as Hr.
  pose proof (ac_tables _ _ _ _ Hc) as Ht. rewrite Hp, len_nil in Hr.
  set (d' := shrink (clipped id (Z.of_N start)) (db s)).
  assert (rows_of id d' = []) as Hnil.
  { subst d'. rewrite (rows_of_clipped (files s)), decide_True by done. eapply clip_beyond; [done|lia]. }
  assert (only_appends nm id s0 (set_db d' (later (later s)))) as Hs'.
  { eapply only_appends_trans; [apply Hc|]. constructor; try done.
    - intros f Hf. exists []. cbn. rewrite app_nil_r. by destruct f.
    - intros id' Hid. cbn [db set_db]. unfold d'. by rewrite (rows_of_clipped (files s)), decide_False.
    - by eapply shrink_from, clipped_shrinks. }
  apply wp_bind, wp_execute.
  - rewrite (reset_statement (files s) _ _ _ _ _ Ht Hr) by lia. eapply tables_constraints.
    by eapply clipped_tables.
  - intros. apply ends_fault; [apply Hc|done].
  - rewrite (reset_statement (files s) _ _ _ _ _ Ht Hr) by lia. fold d'.
    apply wp_query; [intros; apply (ends_fault (set_db d' (later s))); [|done]|].
    { eapply only_appends_trans; [apply Hs'|]. by apply only_appends_refl. }
    split; [apply Hs'|]. cbn [db set_db]. rewrite Hnil. constructor; cbn [durable_oldest durable_head
      cursor_replay_bytes pending pending_start writer w_floor w_data db files later set_db set_clock];
      rewrite ?Hnil, ?Hp; try apply Hc; try done.
    + by eapply clipped_tables.
    + cbn. rewrite len_nil. lia.
    + lia.
    + cbn. lia.
    + destruct (ac_file _ _ _ _ Hc) as (f & Hf & Hn & Hroom). exists f. by rewrite Hp in Hroom.
    + eapply synced_shrink; [done|apply clipped_shrinks|apply Hc].
Qed.

(** ** One chunk *)

Definition absorbed (room : N) (o : option Window) (c : ReplayCursors) (s : Store) : Prop :=
  ∃ w, o = Some w ∧ at_cursor room w c s.
Definition refused (o : option Window) (e : PersistenceError) : Prop :=
  o = None ∧ ∃ m, e = Mutation m.

Definition advance (head held : Z) (c : ReplayCursors) : ReplayCursors :=
  {| durable_oldest := durable_oldest c; durable_head := head; cursor_replay_bytes := held;
     pending := pending c; pending_start := pending_start c; writer := writer c |}.
(** A flush does not look at the head. *)
Lemma wp_flush_advance head held c s Q :
  wp (let* c' := flush_pending_row_for_cursors env id (advance head held c) in
      mret_ (advance (durable_head c) (cursor_replay_bytes c) c')) s Q →
  wp (flush_pending_row_for_cursors env id c) s Q.
Proof.
  unfold wp, flush_pending_row_for_cursors, bind. cbn [advance pending pending_start writer durable_oldest].
  case_decide; [by destruct c|]. destruct (mutation_or _ _ s) as [[s1 [n|e]]|]; try done.
  destruct (mutation_or _ _ s1) as [[s2 [stop|e]]|]; try done.
  destruct (writer_append env (pending c) (writer c) s2) as [[s3 [[w o]|e]]|]; try done.
  by destruct (execute env _ s3) as [[s4 [u|e]]|].
Qed.

(** The chunk joins the pending row. *)
Definition with_chunk (start : Z) (d : bytes) (c : ReplayCursors) : ReplayCursors :=
  {| durable_oldest := if decide (durable_head c = 0)%Z then start else durable_oldest c;
     durable_head := durable_head c; cursor_replay_bytes := cursor_replay_bytes c;
     pending := pending c ++ d;
     pending_start := if decide (pending c = []) then start else pending_start c;
     writer := writer c |}.
Definition take_chunk (start stop : Z) (d : bytes) (c : ReplayCursors) : SM ReplayCursors :=
  let c := with_chunk start d c in
  let* c := if decide (COALESCE_ROW_BYTES ≤ len (pending c))
            then flush_pending_row_for_cursors env id c else mret_ c in
  let* n := mutation_or "output chunk is too large" (i64_of (len d)) in
  mret_ (advance stop (i64_add_sat (cursor_replay_bytes c) n) c).

Lemma with_chunk_cursor room win c d s : at_cursor (len d + room) win c s → d ≠ [] →
  (durable_head c + Z.of_N (len d) ≤ Z.of_N i64_max)%Z →
  at_cursor room {| w_floor := w_floor win; w_data := w_data win ++ d |}
    (advance (durable_head c + Z.of_N (len d)) (cursor_replay_bytes c + Z.of_N (len d))
             (with_chunk (durable_head c) d c)) s.
Proof.
  intros Hc Hne Hmax. pose proof (ac_covers _ _ _ _ Hc) as Hcov. pose proof (covers_le _ _ _ Hcov).
  pose proof (ac_floor _ _ _ _ Hc) as Hfloor. pose proof (ac_bytes _ _ _ _ Hc).
  assert ((if decide (durable_head c = 0)%Z then durable_head c else durable_oldest c) = durable_oldest c) as Ho.
  { case_decide; lia. }
  constructor; cbn [advance with_chunk durable_oldest durable_head cursor_replay_bytes pending
                    pending_start writer w_floor w_data]; rewrite ?Ho; try apply Hc; try done.
  - rewrite len_app. replace (_ + _ - _)%Z with (durable_head c - Z.of_N (len (pending c)))%Z by lia. done.
  - intros _. destruct (decide (pending c = [])) as [Hp|Hp]; rewrite len_app; [rewrite Hp, len_nil; lia|].
    rewrite (ac_pending _ _ _ _ Hc Hp). lia.
  - by rewrite app_assoc, (ac_data _ _ _ _ Hc).
  - lia.
  - destruct (ac_file _ _ _ _ Hc) as (f & Hf & Hn & Hroom). exists f. rewrite len_app.
    split_and!; [done..|lia].
Qed.
Lemma take_chunk_spec room win c d s : at_cursor (len d + room) win c s → d ≠ [] →
  (durable_head c + Z.of_N (len d) ≤ Z.of_N i64_max)%Z →
  wp (take_chunk (durable_head c) (durable_head c + Z.of_N (len d)) d c) s
    (ends (at_cursor room {| w_floor := w_floor win; w_data := w_data win ++ d |}) (λ _, False)).
Proof.
  intros Hc Hne Hmax. pose proof (with_chunk_cursor room win c d s Hc Hne Hmax) as Hc'.
  pose proof (ac_bytes _ _ _ _ Hc). pose proof (covers_le _ _ _ (ac_covers _ _ _ _ Hc)).
  pose proof (ac_floor _ _ _ _ Hc).
  set (win' := {| w_floor := _; w_data := _ |}) in *.
  assert (i64_add_sat (cursor_replay_bytes c) (Z.of_N (len d)) =
          cursor_replay_bytes c + Z.of_N (len d))%Z as Hsat by (unfold i64_add_sat; lia).
  unfold take_chunk. set (c1 := with_chunk (durable_head c) d c) in *. set (c2 := advance _ _ c1) in Hc'.
  eapply (ends_bind _ _ _ (λ c' s', at_cursor room win' (advance (durable_head c2) (cursor_replay_bytes c2) c') s' ∧
      cursor_replay_bytes c' = cursor_replay_bytes c) (λ _, False)); [|done|].
  - case_decide.
    + apply (wp_flush_advance (durable_head c2) (cursor_replay_bytes c2)).
      eapply ends_bind; [by apply flush_spec|done|].
      intros c' s' Hs' (Hc3 & _ & Hh & _ & Hb). apply wp_ret. split; [done|]. split; [|done].
      cbn [advance durable_head]. destruct c'. cbn in Hh, Hb. subst. apply Hc3.
    + apply wp_ret. split; [apply Hc|]. done.
  - intros c' s' Hs' [Hc3 Hb]. apply wp_bind. eapply wp_mutation_or; [apply i64_of_ok; lia|].
    apply wp_ret. split; [done|]. rewrite Hb, Hsat. exact Hc3.
Qed.

Lemma at_cursor_weaken room room' win c s : room' ≤ room → at_cursor room win c s →
  at_cursor room' win c s.
Proof.
  intros Hle Hc. destruct (ac_file _ _ _ _ Hc) as (f & ? & ? & ?).
  constructor; try apply Hc. exists f. split_and!; [done..|lia].
Qed.
Lemma refuse {A} s (ok : A → Store → Prop) o m : only_appends nm id s0 s → o = None →
  wp (mfail (Mutation m)) s (ends ok (refused o)).
Proof. intros Hs Ho. apply wp_fail. split; [done|]. right. split; [done|]. by eexists. Qed.

Section one_chunk.
Context (replay : OutputReplay) (chunk : OutputChunk).
Let lo := start_byte chunk.
Let hi := end_byte chunk.

(** Bytes the window already covers. *)
Lemma apply_held room win c s : at_cursor room win c s → well_formed chunk = true →
  start_byte chunk < w_head win → end_byte chunk ≤ w_head win → ∀ m m',
  wp (if decide (Z.of_N lo < durable_oldest c)%Z then mfail (Mutation m) else
      let* c := flush_pending_row_for_cursors env id c in
      let* same := stored_range_matches_in env id (Z.of_N lo) (Z.of_N hi) (data chunk) in
      if (same : bool) then mret_ c else mfail (Mutation m')) s
    (ends (absorbed room (absorb replay chunk win)) (refused (absorb replay chunk win))).
Proof.
  intros Hc Hw Hlo Hhi m m'. subst lo hi. pose proof (well_formed_ok _ Hw) as (? & ? & ?).
  pose proof (ac_floor _ _ _ _ Hc) as Hfloor. case_decide.
  { apply refuse; [apply Hc|]. apply absorb_evicted; [done|lia]. }
  rewrite absorb_held by (done || lia).
  eapply ends_bind; [by apply flush_spec|done|]. intros c' s' Hs' (Hc' & Hp & Hhead & Hold & _).
  pose proof (at_cursor_head _ _ _ _ Hc').
  eapply ends_bind; [eapply (stored_range_spec room win c'); try done; lia|done|].
  intros same s2 Hs2 [Hu ->]. rewrite Hold, Hfloor. case_bool_decide as Heq; rewrite ?decide_True, ?decide_False by done.
  - apply wp_ret. split; [done|]. exists win. split; [done|]. by eapply at_cursor_unchanged.
  - by apply refuse.
Qed.

(** Bytes from the head on, or past a gap. *)
Lemma apply_fresh room win c s : at_cursor (len (data chunk) + room) win c s →
  well_formed chunk = true → w_head win ≤ start_byte chunk → ∀ m,
  wp (let* c :=
        if decide (Z.of_N lo = durable_head c)%Z then mret_ c else
        if negb (replay_truncated replay &&
                 bool_decide (lo = replay_first_available_byte replay)) then mfail (Mutation m)
        else
        let* c := flush_pending_row_for_cursors env id c in
        let* kept := reset_window_to env id (Z.of_N lo) in
        mret_ {| durable_oldest := Z.of_N lo; durable_head := Z.of_N lo; cursor_replay_bytes := kept;
                 pending := pending c; pending_start := pending_start c; writer := writer c |} in
      take_chunk (Z.of_N lo) (Z.of_N hi) (data chunk) c) s
    (ends (absorbed room (absorb replay chunk win)) (refused (absorb replay chunk win))).
Proof.
  intros Hc Hw Hlo m. subst lo hi. pose proof (well_formed_ok _ Hw) as (? & ? & ?).
  pose proof (at_cursor_head _ _ _ _ Hc) as Hhead.
  assert (data chunk ≠ []) as Hne by (intros Hd; rewrite Hd, len_nil in *; lia).
  eapply (ends_bind _ _ _ (λ c' s', durable_head c' = Z.of_N (start_byte chunk) ∧ ∃ win',
      at_cursor (len (data chunk) + room) win' c' s' ∧ absorb replay chunk win =
        Some {| w_floor := w_floor win'; w_data := w_data win' ++ data chunk |})
      (refused (absorb replay chunk win))); [|done|].
  - case_decide as Heq.
    { apply wp_ret. split; [apply Hc|]. split; [done|]. exists win. split; [done|].
      apply absorb_next; [done|lia]. }
    rewrite (absorb_gap _ _ _ Hw) by lia. destruct (replay_truncated replay && _); cbn [negb];
      [|apply refuse; [apply Hc|done]].
    eapply ends_bind; [by apply flush_spec|done|]. intros c' s' Hs' (Hc' & Hp & Hh & _).
    eapply ends_bind; [eapply reset_spec; try done; lia|done|].
    intros kept s2 Hs2 Hc2. apply wp_ret. split; [done|]. split; [done|]. eexists. split; [exact Hc2|done].
  - intros c' s' Hs' [Hh (win' & Hc' & ->)]. rewrite <-Hh.
    replace (Z.of_N (end_byte chunk)) with (durable_head c' + Z.of_N (len (data chunk)))%Z by lia.
    eapply ends_mono; [eapply take_chunk_spec; try done; lia| |done].
    intros c2 s2 _ Hc2. by eexists.
Qed.

Lemma apply_malformed fuel room win c s : at_cursor room win c s → well_formed chunk = false →
  wp (apply_replay_chunk env (S fuel) id replay chunk c) s
    (ends (absorbed room (absorb replay chunk win)) (refused (absorb replay chunk win))).
Proof.
  intros Hc Hw. pose proof (absorb_malformed replay _ win Hw) as Hnone. cbn [apply_replay_chunk].
  case_decide as Hbad; [apply refuse; [apply Hc|done]|].
  unfold well_formed in Hw. rewrite !andb_false_iff, !bool_decide_eq_false in Hw.
  destruct Hw as [[?|?]|Hmax]; [exfalso; naive_solver lia..|].
  apply wp_bind. unfold mutation_or, i64_of at 1. destruct (decide (start_byte chunk ≤ i64_max)).
  - apply wp_lift_result. apply wp_bind. unfold i64_of at 1. rewrite decide_False by done.
    by apply refuse; [apply Hc|].
  - by apply refuse; [apply Hc|].
Qed.
Lemma apply_simple fuel room win c s : at_cursor (len (data chunk) + room) win c s →
  ¬ (start_byte chunk < w_head win ∧ w_head win < end_byte chunk) →
  wp (apply_replay_chunk env (S fuel) id replay chunk c) s
    (ends (absorbed room (absorb replay chunk win)) (refused (absorb replay chunk win))).
Proof.
  intros Hc Hcross. pose proof (at_cursor_weaken (len (data chunk) + room) room _ _ _ ltac:(lia) Hc) as Hc0.
  destruct (well_formed chunk) eqn:Hw; [|by apply apply_malformed].
  pose proof (well_formed_ok _ Hw) as (? & ? & ?). pose proof (at_cursor_head _ _ _ _ Hc) as Hhead.
  cbn [apply_replay_chunk]. rewrite decide_False by lia.
  apply wp_bind. eapply wp_mutation_or; [apply i64_of_ok; lia|].
  apply wp_bind. eapply wp_mutation_or; [apply i64_of_ok; lia|].
  rewrite decide_False by lia. case_decide.
  - apply (apply_held room); [done..|lia|lia].
  - apply (apply_fresh room); [done..|lia].
Qed.
End one_chunk.

Lemma apply_chunk_spec replay chunk room win c s : at_cursor (len (data chunk) + room) win c s →
  wp (apply_replay_chunk env 2 id replay chunk c) s
    (ends (absorbed room (absorb replay chunk win)) (refused (absorb replay chunk win))).
Proof.
  intros Hc. pose proof (at_cursor_head _ _ _ _ Hc) as Hhead.
  destruct (well_formed chunk) eqn:Hw.
  2: { apply apply_malformed; [|done]. eapply at_cursor_weaken; [|done]. lia. }
  destruct (decide (start_byte chunk < w_head win ∧ w_head win < end_byte chunk)) as [[Hlo Hhi]|];
    [|by apply apply_simple].
  pose proof (well_formed_ok _ Hw) as (? & ? & ?).
  set (p := w_head win - start_byte chunk).
  rewrite (absorb_crossing replay p) by (done || lia).
  assert (∃ fuel, fuel = 1%nat) as [fuel Hfuel] by by eexists.
  change 2%nat with (S 1). rewrite <-Hfuel. cbn [apply_replay_chunk]. rewrite decide_False by lia.
  apply wp_bind. eapply wp_mutation_or; [apply i64_of_ok; lia|].
  apply wp_bind. eapply wp_mutation_or; [apply i64_of_ok; lia|].
  rewrite decide_True by lia. rewrite Hhead.
  apply wp_bind. eapply wp_lift_ok; [apply nonnegative_ok; lia|].
  replace (Z.to_N (Z.of_N (w_head win) - Z.of_N (start_byte chunk))) with p by lia.
  rewrite N2Z.id. apply wp_bind, wp_lift_outcome. exists tt. rewrite bool_decide_true by lia. split; [done|].
  replace (w_head win) with (start_byte chunk + p) by lia. subst fuel.
  pose proof (len_takeN p (data chunk)). pose proof (len_dropN p (data chunk)).
  eapply ends_bind.
  - apply (apply_simple replay (first_half p chunk) 0 (len (dropN p (data chunk)) + room)).
    + cbn [data first_half]. eapply at_cursor_weaken; [|done]. lia.
    + cbn [start_byte end_byte first_half]. lia.
  - intros e [-> Hm]. done.
  - intros c' s' Hs' (w' & Hw' & Hc'). rewrite Hw'. cbn [mbind option_bind].
    apply (apply_simple replay (second_half p chunk)); [done|]. cbn [start_byte end_byte second_half].
    enough (w_head w' = w_head win) by lia.
    destruct (halves_well_formed p chunk Hw) as [Hw1 _]; [lia..|].
    destruct (decide (start_byte chunk < w_floor win)).
    { by rewrite absorb_evicted in Hw' by (cbn [start_byte first_half]; lia). }
    rewrite (absorb_held replay (first_half p chunk)) in Hw'
      by (done || (cbn [start_byte end_byte first_half]; lia)).
    case_decide; [by injection Hw' as ->|done].
Qed.
Lemma apply_chunks_spec replay cs room win c s :
  at_cursor (sumN (λ c, len (data c)) cs + room) win c s →
  wp (apply_chunks env id replay cs c) s
    (ends (absorbed room (absorb_all replay cs win)) (refused (absorb_all replay cs win))).
Proof.
  revert win c s. induction cs as [|chunk cs IH]; intros win c s Hc; cbn [apply_chunks absorb_all].
  { apply wp_ret. split; [apply Hc|]. by exists win. }
  rewrite sumN_cons, <-N.add_assoc in Hc.
  eapply ends_bind; [by apply apply_chunk_spec| |].
  - intros e [-> ?]. done.
  - intros c' s' Hs' (w & -> & Hc'). by apply IH.
Qed.

(** ** Pruning to the Run's limit *)

Lemma keep_last_all limit w : len (w_data w) ≤ limit → keep_last limit w = w.
Proof.
  intros. unfold keep_last. replace (len (w_data w) - limit) with 0 by lia.
  rewrite dropN_0, N.add_0_r. by destruct w.
Qed.
Definition pruned (o held : Z) (c : ReplayCursors) : ReplayCursors :=
  {| durable_oldest := o; durable_head := durable_head c; cursor_replay_bytes := held;
     pending := pending c; pending_start := pending_start c; writer := writer c |}.
Lemma pruned_cursor room win c limit s : at_cursor room win c s → pending c = [] →
  limit < len (w_data win) →
  let shed := Z.of_N (len (w_data win) - limit) in
  at_cursor room (keep_last limit win) (pruned (durable_oldest c + shed) (Z.of_N limit) c)
    (set_db (shrink (clipped id (durable_oldest c + shed)) (db s)) (later (later s))).
Proof.
  intros Hc Hp Hlt shed. pose proof (ac_covers _ _ _ _ Hc) as Hr. pose proof (ac_tables _ _ _ _ Hc) as Ht.
  pose proof (ac_data _ _ _ _ Hc) as Hd. pose proof (at_cursor_head _ _ _ _ Hc) as Hh.
  pose proof (ac_floor _ _ _ _ Hc). rewrite Hp, app_nil_r in Hd. rewrite Hp, len_nil in Hr.
  unfold w_head in Hh. rewrite Z.sub_0_r in Hr.
  assert (rows_of id (shrink (clipped id (durable_oldest c + shed)) (db s)) =
          clip (durable_oldest c + shed) (rows_of id (db s))) as Hrows.
  { by rewrite (rows_of_clipped (files s)), decide_True. }
  constructor; cbn [pruned durable_oldest durable_head cursor_replay_bytes pending pending_start
    writer w_floor w_data keep_last db files set_db later set_clock]; rewrite ?Hrows, ?Hp; try apply Hc; try done.
  - eapply only_appends_trans; [apply Hc|]. constructor; try done.
    + intros f Hf. exists []. cbn. rewrite app_nil_r. by destruct f.
    + intros id' Hid. cbn [db set_db]. by rewrite (rows_of_clipped (files s)), decide_False.
    + by eapply shrink_from, clipped_shrinks.
  - by eapply clipped_tables.
  - rewrite len_nil, Z.sub_0_r. eapply clip_covers; [done|lia..].
  - rewrite app_nil_r, (span_clip _ _ _ _ _ (rows_of_ok _ _ id Ht) Hr), Hd by lia.
    f_equal. lia.
  - lia.
  - lia.
  - destruct (ac_file _ _ _ _ Hc) as (f & Hf & Hn & Hroom). exists f. by rewrite Hp in Hroom.
  - eapply synced_shrink; [done|apply clipped_shrinks|apply Hc].
Qed.
Lemma prune_spec room win c limit s : at_cursor room win c s → pending c = [] →
  wp (prune_run_replay_to env id (durable_oldest c) (cursor_replay_bytes c) limit) s
    (ends (λ r s', let '(evicted, o, held) := r in
       at_cursor room (keep_last limit win) (pruned o held c) s' ∧
       evicted = bool_decide (limit < len (w_data win))) (λ _, False)).
Proof.
  intros Hc Hp. pose proof (at_cursor_head _ _ _ _ Hc) as Hh. unfold w_head in Hh.
  pose proof (ac_floor _ _ _ _ Hc). pose proof (ac_bytes _ _ _ _ Hc). pose proof (ac_head _ _ _ _ Hc).
  unfold prune_run_replay_to. rewrite (decide_True (P := (0 ≤ cursor_replay_bytes c)%Z)) by lia. case_decide.
  { apply wp_ret. split; [apply Hc|]. rewrite keep_last_all, bool_decide_false by lia.
    split; [|done]. by destruct c. }
  assert (i64_or_max limit = Z.of_N limit) as -> by (unfold i64_or_max; lia).
  set (shed := Z.of_N (len (w_data win) - limit)).
  replace (cursor_replay_bytes c - Z.of_N limit)%Z with shed by lia.
  unfold i64_checked_add. rewrite decide_True by lia.
  pose proof (ac_covers _ _ _ _ Hc) as Hr. pose proof (ac_tables _ _ _ _ Hc) as Ht.
  apply wp_bind, wp_execute.
  - eapply tables_constraints. by eapply clip_crossing_tables.
  - intros. apply ends_fault; [apply Hc|done].
  - apply wp_bind, wp_execute.
    + cbn [db set_db]. rewrite prune_statements. eapply tables_constraints. by eapply clipped_tables.
    + intros. apply (ends_fault (set_db (clip_crossing id (durable_oldest c + shed) (db s)) (later s))); [|done].
      eapply only_appends_trans; [apply Hc|]. constructor; try done.
      * intros f Hf. exists []. cbn. rewrite app_nil_r. by destruct f.
      * intros id' Hid. cbn [db set_db]. apply clip_crossing_rows. done.
      * cbn [db set_db]. rewrite clip_crossing_shrink. by eapply shrink_from, crossing_shrinks.
    + apply wp_ret. cbn [db set_db]. rewrite prune_statements.
      pose proof (pruned_cursor room win c limit s Hc Hp ltac:(lia)) as Hc'. cbn zeta in Hc'. fold shed in Hc'.
      split; [apply Hc'|]. rewrite bool_decide_true by lia. split; [|done].
      replace (cursor_replay_bytes c - shed)%Z with (Z.of_N limit) by lia. exact Hc'.
Qed.
End cursor.

(** ** The whole append *)

(** A Run row keeps everything but its window. *)
Definition same_identity (r r' : RunRow) : Prop :=
  row_creation_key r' = row_creation_key r ∧ spec_json r' = spec_json r ∧
  lineage_json r' = lineage_json r ∧ state_kind r' = state_kind r ∧ state_json r' = state_json r ∧
  source_epoch r' = source_epoch r ∧ row_pid r' = row_pid r ∧
  row_metadata_bytes r' = row_metadata_bytes r ∧ created_at_ms r' = created_at_ms r ∧
  terminal_at_ms r' = terminal_at_ms r.
(** What an append leaves alone. *)
Record appends_to (name : string) (id : RunId) (s s' : Store) : Prop := {
  at_files : ∀ n, n ≠ name → files s' !! n = files s !! n;
  at_file : ∀ f, files s !! name = Some f →
    ∃ x, files s' !! name = Some {| contents := contents f ++ x; synced_bytes := synced_bytes f |};
  at_active : active_replay_file (db s') = active_replay_file (db s);
  at_rows : ∀ id', id' ≠ id →
    rows_of id' (db s') = rows_of id' (db s) ∧ run_rows (db s') !! id' = run_rows (db s) !! id';
  at_run : ∀ r, run_rows (db s) !! id = Some r →
    ∃ r', run_rows (db s') !! id = Some r' ∧ same_identity r r';
  at_from : rows_from name (db s) (db s');
}.
Lemma same_identity_refl r : same_identity r r.
Proof. done. Qed.
Lemma same_identity_trans a b c : same_identity a b → same_identity b c → same_identity a c.
Proof.
  intros (? & ? & ? & ? & ? & ? & ? & ? & ? & ?) (? & ? & ? & ? & ? & ? & ? & ? & ? & ?).
  unfold same_identity. split_and!; congruence.
Qed.
Lemma only_appends_to name id s s' : only_appends name id s s' → appends_to name id s s'.
Proof.
  intros [K1 K2 K3 K4 K5 K6]. constructor; try done.
  - intros id' Hid. by rewrite K3, K5.
  - intros r Hr. rewrite K3. by exists r.
Qed.

(** A writer at the end of its file. *)
Definition writer_at (room : N) (w : ReplayFileWriter) (s : Store) : Prop :=
  valid_replay_file_name (file_name w) = true ∧ synced_but w (db s) (files s) ∧
  ∃ f, files s !! file_name w = Some f ∧ next_offset w = len (contents f) ∧
       len (contents f) + room ≤ i64_max.
Definition payload (replay : OutputReplay) : N := sumN (λ c, len (data c)) (replay_chunks replay).

Lemma window_of_run s id r win : run_rows (db s) !! id = Some r → window_of s id = Some win →
  w_data win = span (files s) (rows_of id (db s)) ∧
  w_floor win = Z.to_N (durable_first_available_byte r).
Proof. unfold window_of. intros ->. by intros [= <-]. Qed.
Lemma start_cursor id r room win w s : store_ok (db s) (files s) → run_rows (db s) !! id = Some r →
  window_of s id = Some win → writer_at room w s →
  at_cursor id (file_name w) s room win
    {| durable_oldest := durable_first_available_byte r; durable_head := durable_output_bytes r;
       cursor_replay_bytes := replay_bytes r; pending := []; pending_start := 0; writer := w |} s.
Proof.
  intros [Ht Hl] Hr Hw (Hname & Hsync & f & Hf & Hn & Hroom).
  destruct (window_of_run _ _ _ _ Hr Hw) as [Hd Hfl].
  destruct (tables_runs _ _ Ht _ _ Hr) as (? & ? & ? & ? & ? & _).
  constructor; cbn [durable_oldest durable_head cursor_replay_bytes pending pending_start writer];
    rewrite ?app_nil_r, ?len_nil, ?Z.sub_0_r; try done.
  - by apply only_appends_refl.
  - by apply Hl.
  - lia.
  - exists f. rewrite N.add_0_r. split_and!; done.
Qed.

(** The last statement makes the Run's cursors those of its rows. *)
Lemma commit_cursor id nm s0 r room win c now tr s : store_ok (db s0) (files s0) →
  run_rows (db s0) !! id = Some r → at_cursor id nm s0 room win c s → pending c = [] →
  let d' := update_run id (set_window (durable_oldest c) (durable_head c) (cursor_replay_bytes c)
                             (tr || bool_decide (0 < durable_oldest c)%Z) now) (db s) in
  store_ok d' (files s) ∧ window_of (set_db d' s) id = Some win ∧
  appends_to nm id s0 (set_db d' s) ∧ writer_at room (writer c) (set_db d' s).
Proof.
  intros [Ht0 Hl0] Hr Hc Hp d'. pose proof (ac_frame _ _ _ _ _ _ _ Hc) as Hs.
  pose proof (ac_tables _ _ _ _ _ _ _ Hc) as Ht. pose proof (ac_covers _ _ _ _ _ _ _ Hc) as Hcov.
  pose proof (ac_data _ _ _ _ _ _ _ Hc) as Hd. pose proof (ac_floor _ _ _ _ _ _ _ Hc) as Hf.
  pose proof (ac_bytes _ _ _ _ _ _ _ Hc). pose proof (ac_head _ _ _ _ _ _ _ Hc).
  rewrite Hp, len_nil, Z.sub_0_r in Hcov. rewrite Hp, app_nil_r in Hd. pose proof (covers_le _ _ _ Hcov).
  assert (run_rows (db s) !! id = Some r) as Hr' by by rewrite (oa_runs _ _ _ _ Hs).
  destruct (tables_runs _ _ Ht0 _ _ Hr) as (_ & _ & _ & _ & _ & ? & ?).
  destruct (update_run_tables (db s) (files s) id r _ (set_window (durable_oldest c) (durable_head c)
    (cursor_replay_bytes c) (tr || bool_decide (0 < durable_oldest c)%Z) now) Ht Hr' eq_refl) as [Ht' Hrows'].
  { unfold run_ok. cbn [set_window durable_first_available_byte durable_output_bytes replay_bytes
      row_truncated row_metadata_bytes state_kind]. split_and!; try done; try lia.
    intros. by rewrite bool_decide_true, orb_true_r. }
  { done. }
  fold d' in Ht', Hrows'.
  assert (∀ id', rows_of id' d' = rows_of id' (db s)) as Hrows by (intros; apply update_run_rows).
  split_and!.
  - split; [done|]. intros id' r' Hid. rewrite Hrows' in Hid. unfold linked. rewrite Hrows.
    apply lookup_insert_Some in Hid as [[<- <-]|[Hne Hid]]; [done|].
    rewrite (oa_rows _ _ _ _ Hs) by done. rewrite (oa_runs _ _ _ _ Hs) in Hid. by apply Hl0.
  - unfold window_of. cbn [db files set_db]. rewrite Hrows', lookup_insert_eq, Hrows, Hd. cbn.
    rewrite Hf, N2Z.id. by destruct win.
  - constructor; cbn [db files set_db]; try apply Hs.
    + unfold d', update_run. rewrite Hr'. apply Hs.
    + intros id' Hid. rewrite Hrows, Hrows', lookup_insert_ne by done. split; [by apply Hs|].
      by rewrite (oa_runs _ _ _ _ Hs).
    + intros r0 Hr0. rewrite Hr in Hr0. injection Hr0 as <-. rewrite Hrows', lookup_insert_eq. by eexists.
    + eapply rows_from_trans; [apply Hs|]. apply rows_from_refl, update_run_chunks.
  - destruct (ac_name _ _ _ _ _ _ _ Hc) as [<- Hname]. split; [done|]. split.
    + pose proof (ac_synced _ _ _ _ _ _ _ Hc) as Hsy. unfold synced_but in *. cbn [db files set_db].
      replace (chunk_rows d') with (chunk_rows (db s)); [done|]. unfold d', update_run. by destruct (run_rows (db s) !! id).
    + destruct (ac_file _ _ _ _ _ _ _ Hc) as (f & Hff & Hn & Hroom). exists f. rewrite Hp, len_nil in Hroom.
      split_and!; [done..|lia].
Qed.

(** The statement of what an append does, and of why it fails. *)
Definition appends (replay : OutputReplay) (limit room : N) (id : RunId) (r : RunRow) (win : Window)
    (nm : string) (s s' : Store) (result : result (ReplayFileWriter * bool) PersistenceError) : Prop :=
  let received := receive (bool_decide (state_kind r = "running")) replay limit win in
  appends_to nm id s s' ∧
  match result with
  | Ok (w, evicted) =>
      store_ok (db s') (files s') ∧ received = window_of s' id ∧ is_Some received ∧
      writer_at room w s' ∧ file_name w = nm ∧
      evicted = match absorb_all replay (replay_chunks replay) win with
                | Some all => bool_decide (limit < len (w_data all))
                | None => false
                end
  | Err e => faulty e ∨ received = None ∧ ∃ m, e = Mutation m
  end.

Lemma only_appends_set_clock nm id s0 s : only_appends nm id s0 s → appends_to nm id s0 (later s).
Proof. intros. by apply only_appends_to, only_appends_later. Qed.
Lemma append_replay_spec replay limit room id r win w s : store_ok (db s) (files s) →
  run_rows (db s) !! id = Some r → window_of s id = Some win →
  writer_at (payload replay + room) w s →
  wp (append_replay_with_storage env id replay w limit) s
    (appends replay limit room id r win (file_name w) s).
Proof.
  intros Hok Hr Hw Hwr. pose proof (start_cursor _ _ _ _ _ _ Hok Hr Hw Hwr) as Hc.
  apply (at_cursor_later) in Hc.
  pose proof (at_cursor_head _ _ _ _ _ _ _ Hc) as Hhead. cbn [durable_head] in Hhead.
  assert (appends_to (file_name w) id s (later s)) as Hlater.
  { apply only_appends_to. by apply only_appends_refl. }
  unfold append_replay_with_storage. apply wp_bind.
  eapply wp_query_row; [exact Hr|intros; split; [done|by left]|].
  apply wp_bind. eapply wp_lift_ok; [apply nonnegative_ok; lia|].
  replace (Z.to_N (durable_output_bytes r)) with (w_head win) by lia.
  set (terminal := bool_decide (state_kind r ≠ "running") && _).
  assert (terminal = negb (bool_decide (state_kind r = "running")) &&
    existsb (λ c, bool_decide (w_head win < end_byte c)) (replay_chunks replay)) as Hterm.
  { subst terminal. f_equal. by rewrite bool_decide_not. }
  destruct terminal.
  { apply wp_fail. split; [done|]. right. unfold receive. rewrite <-Hterm. split; [done|by eexists]. }
  assert (receive (bool_decide (state_kind r = "running")) replay limit win =
    keep_last limit <$> absorb_all replay (replay_chunks replay) win) as Hrec.
  { unfold receive. by rewrite <-Hterm. }
  unfold appends. rewrite Hrec. clear Hrec Hterm. apply wp_bind. eapply wp_mono; [apply (apply_chunks_spec id (file_name w) s replay (replay_chunks replay) room); exact Hc|].
  intros s1 [c1|e] [Hs1 Hr1].
  2: { split; [by apply only_appends_to|]. destruct Hr1 as [?|[-> ?]]; [by left|by right]. }
  destruct Hr1 as (all & Hall & Hc1). rewrite Hall. apply wp_bind.
  eapply wp_mono; [by apply flush_spec|]. intros s2 [c2|e] [Hs2 Hr2].
  2: { split; [by apply only_appends_to|]. destruct Hr2 as [?|[]]. by left. }
  destruct Hr2 as (Hc2 & Hp2 & _). apply wp_bind.
  eapply wp_mono; [by apply prune_spec|]. intros s3 [[[ev o] held]|e] [Hs3 Hr3].
  2: { split; [by apply only_appends_to|]. destruct Hr3 as [?|[]]. by left. }
  destruct Hr3 as [Hc3 ->]. apply wp_bind, wp_tick. do 2 apply at_cursor_later in Hc3.
  set (now := now_millis env (clock s3)).
  destruct (commit_cursor _ _ _ _ _ _ _ now (replay_truncated replay) _ Hok Hr Hc3) as (Hok' & Hwin & Hto & Hwr'); [done|].
  cbn [pruned durable_oldest durable_head cursor_replay_bytes writer] in *.
  apply wp_bind, wp_execute.
  - by eapply tables_constraints, Hok'.
  - intros e He. split; [by apply only_appends_set_clock, only_appends_later|by left].
  - apply wp_ret. cbn [fmap option_fmap option_map]. split; [exact Hto|].
    split_and!; [exact Hok'|symmetry; exact Hwin|by eexists|exact Hwr'|by apply (ac_name _ _ _ _ _ _ _ Hc2)|done].
Qed.
End append.
