(* ===== verification/ReplayRead.v ===== *)
(** * Reading a durable window back

    [load_replay_chunks_range] answers with chunks of at most a page that carry
    exactly the window's bytes, and the startup validation accepts every store the
    statements of [ReplayTables] keep. *)

From S2P Require Import Prelude.
From S2P Require Import Protocol.
From S2P Require Import StorageErrors.
From S2P Require Import ReplayStore.
From S2P Require Import ReplayStoreSpec.
From S2P Require Import ReplayTables.
From S2P Require Import ReplayAppend.

(** ** Chunks *)

Fixpoint chunks_cover (a : N) (cs : list OutputChunk) (b : N) : Prop :=
  match cs with
  | [] => a = b
  | c :: cs => start_byte c = a ∧ start_byte c < end_byte c ∧
               len (data c) = end_byte c - start_byte c ∧ len (data c) ≤ REPLAY_PAGE_BYTES ∧
               chunks_cover (end_byte c) cs b
  end.
Definition chunk_bytes (cs : list OutputChunk) : bytes := concat (map data cs).

Lemma chunks_cover_app a cs cs' b :
  chunks_cover a (cs ++ cs') b ↔ ∃ m, chunks_cover a cs m ∧ chunks_cover m cs' b.
Proof.
  revert a. induction cs as [|c cs IH]; intros a; cbn [app chunks_cover]; [naive_solver|].
  rewrite IH. naive_solver.
Qed.
Lemma chunk_bytes_app cs cs' : chunk_bytes (cs ++ cs') = chunk_bytes cs ++ chunk_bytes cs'.
Proof. unfold chunk_bytes. by rewrite map_app, concat_app. Qed.
Lemma chunk_bytes_one c : chunk_bytes [c] = data c.
Proof. unfold chunk_bytes. cbn. apply app_nil_r. Qed.

Lemma join_cover a cs cursor through d : chunks_cover a cs cursor → cursor < through →
  len d = through - cursor → len d ≤ REPLAY_PAGE_BYTES →
  chunks_cover a (join_chunk cursor through d cs) through ∧
  chunk_bytes (join_chunk cursor through d cs) = chunk_bytes cs ++ d.
Proof.
  intros Hc Hlt Hlen Hpage.
  assert (∀ cs, chunks_cover a cs cursor →
    chunks_cover a (cs ++ [{| start_byte := cursor; end_byte := through; data := d |}]) through ∧
    chunk_bytes (cs ++ [{| start_byte := cursor; end_byte := through; data := d |}]) = chunk_bytes cs ++ d) as Hpush.
  { intros cs' Hc'. rewrite chunks_cover_app, chunk_bytes_app, chunk_bytes_one. split; [|done].
    exists cursor. split; [done|]. cbn. done. }
  unfold join_chunk. destruct (last cs) as [tail|] eqn:Hl.
  2: { apply last_None in Hl as ->. by apply (Hpush []). }
  apply last_Some in Hl as [front ->]. rewrite removelast_last.
  destruct (_ && _) eqn:Hfit; [|by apply Hpush]. apply andb_true_iff in Hfit as [He%bool_decide_eq_true Hf%bool_decide_eq_true].
  apply chunks_cover_app in Hc as (m & Hfront & Hs & ? & Ht & ? & _).
  rewrite chunks_cover_app, !chunk_bytes_app, !chunk_bytes_one, <-app_assoc. split; [|done].
  exists m. split; [done|]. cbn [chunks_cover start_byte end_byte data]. rewrite len_app. split_and!; try done; lia.
Qed.
Lemma join_single cs cursor through d : (length cs ≤ 1)%nat → (∀ c, c ∈ cs → end_byte c = cursor) →
  len (chunk_bytes cs ++ d) ≤ REPLAY_PAGE_BYTES → (length (join_chunk cursor through d cs) ≤ 1)%nat.
Proof.
  destruct cs as [|c [|]]; cbn [length]; [done| |lia]. intros _ Hend. rewrite chunk_bytes_one, len_app.
  intros Hle. unfold join_chunk. cbn [last]. rewrite !bool_decide_true by (done || apply Hend; constructor).
  done.
Qed.

Section reads.
Context `{!UuidDisplay, !StateJson} (env : StorageEnv).

(** A call that changes nothing and fails only by the host. *)
Definition reads {A} (s0 : Store) (ok : A → Prop) (s : Store) (r : result A PersistenceError) : Prop :=
  unchanged s0 s ∧ match r with Ok a => ok a | Err e => faulty env e end.

Lemma unchanged_later s0 s : unchanged s0 s → unchanged s0 (later s).
Proof. done. Qed.
Lemma reads_bind {A B} (m : SM A) (k : A → SM B) s0 s ok ok' : wp m s (reads s0 ok) →
  (∀ a s', unchanged s0 s' → ok a → wp (k a) s' (reads s0 ok')) → wp (bind m k) s (reads s0 ok').
Proof. intros Hm Hk. apply wp_bind. eapply wp_mono; [exact Hm|]. intros s' [a|e] [Hu Hr]; [by apply Hk|done]. Qed.
Lemma reads_query {A} (f : Db → A) s0 s ok : unchanged s0 s → ok (f (db s0)) →
  wp (query env f) s (reads s0 ok).
Proof. intros [Hd Hf] Ha. apply wp_query; [done|]. split; [done|]. by rewrite Hd. Qed.
Lemma reads_query_row {A} (f : Db → option A) a s0 s ok : unchanged s0 s → f (db s0) = Some a →
  ok a → wp (query_row env f) s (reads s0 ok).
Proof. intros [Hd Hf] Ha Hok. eapply wp_query_row; [by rewrite Hd|done|]. done. Qed.
Lemma reads_ok {A} (r : result A PersistenceError) a s0 s ok : unchanged s0 s → r = Ok a → ok a →
  wp (lift r) s (reads s0 ok).
Proof. intros Hu -> Hok. done. Qed.
Lemma reads_ret {A} (a : A) s0 s (ok : A → Prop) : unchanged s0 s → ok a → wp (mret_ a) s (reads s0 ok).
Proof. done. Qed.
Lemma reads_validate name s0 s f : unchanged s0 s → files s0 !! name = Some f →
  wp (validate_state_file env name) s (reads s0 (λ _, True)).
Proof. intros [Hd Hf] Hn. apply wp_guarded; [done|]. unfold wp. cbn. by rewrite Hf, Hn. Qed.
Lemma reads_file_len name s0 s f : unchanged s0 s → files s0 !! name = Some f →
  wp (file_len env name) s (reads s0 (λ n, n = len (contents f))).
Proof.
  intros [Hd Hf] Hn. apply wp_guarded; [done|]. unfold wp. cbn. split; [done|].
  unfold len_of_file. cbn. by rewrite Hf, Hn.
Qed.
Lemma reads_mono {A} (m : SM A) s0 s (ok ok' : A → Prop) : wp m s (reads s0 ok) →
  (∀ a, ok a → ok' a) → wp m s (reads s0 ok').
Proof. intros Hm Hok. eapply wp_mono; [exact Hm|]. intros s' [a|e] [Hu Hr]; split; auto. Qed.

(** ** Pages *)

(** The chunks so far, from [from] to [cursor], with the bytes [d]; one chunk while they
    fit a page. *)
Definition loaded (from cursor : N) (d : bytes) (cs : list OutputChunk) : Prop :=
  chunks_cover from cs cursor ∧ chunk_bytes cs = d ∧
  (len d ≤ REPLAY_PAGE_BYTES → (length cs ≤ 1)%nat).
Lemma loaded_nil from : loaded from from [] [].
Proof. split_and!; [done..|]. cbn. lia. Qed.
Lemma loaded_join from cursor through d x cs : loaded from cursor d cs → cursor < through →
  len x = through - cursor → len x ≤ REPLAY_PAGE_BYTES →
  loaded from through (d ++ x) (join_chunk cursor through x cs).
Proof.
  intros (Hc & <- & Hone) Hlt Hx Hpage. destruct (join_cover _ _ _ _ _ Hc Hlt Hx Hpage) as [Hc' Hb'].
  split_and!; [done..|]. intros Hle. rewrite len_app in Hle.
  apply join_single; [apply Hone; lia| |by rewrite len_app].
  specialize (Hone ltac:(lia)). destruct cs as [|c [|]]; cbn in Hone; [|intros c' [->|?%elem_of_nil]%elem_of_cons|lia]; [by intros ? ?%elem_of_nil| |done].
  cbn in Hc. naive_solver.
Qed.

Definition nslice (a b start : N) (d : bytes) : bytes := takeN (b - a) (dropN (a - start) d).
Lemma nslice_split a m b start d : start ≤ a → a ≤ m → m ≤ b → nslice a m start d ++ nslice m b start d = nslice a b start d.
Proof.
  intros. unfold nslice. rewrite <-(takeN_dropN (m - a) (takeN (b - a) _)), takeN_takeN, dropN_takeN, dropN_dropN.
  f_equal; f_equal; try lia. f_equal. lia.
Qed.
Lemma len_nslice a b start d : start ≤ a → b ≤ start + len d → len (nslice a b start d) = b - a.
Proof. intros. unfold nslice. rewrite len_takeN, len_dropN. lia. Qed.
Lemma nslice_empty a b start d : b ≤ a → nslice a b start d = [].
Proof. intros. unfold nslice. replace (b - a) with 0 by lia. apply takeN_0. Qed.

Lemma load_extent_spec fuel r from last cursor d cs s0 s : unchanged s0 s → row_ok (files s0) r →
  let start := Z.to_N (row_start r) in
  start ≤ cursor → last ≤ Z.to_N (row_end r) → last ≤ i64_max → cursor ≤ last →
  last - cursor ≤ N.of_nat fuel * REPLAY_PAGE_BYTES → loaded from cursor d cs →
  wp (load_extent env fuel (row_file r) (Z.to_N (row_offset r)) start last cursor cs) s
    (reads s0 (loaded from last (d ++ nslice cursor last start (row_data (files s0) r)))).
Proof.
  intros Hu Hok start. revert cursor d cs s Hu.
  induction fuel as [|fuel IH]; intros cursor d cs s Hu Hcur Hlast Hmax Hle Hfuel Hcs; cbn [load_extent].
  all: destruct (decide (last ≤ cursor)).
  1,3: apply reads_ret; [done|]; assert (last = cursor) as -> by lia; by rewrite nslice_empty, app_nil_r by lia.
  { lia. }
  pose proof i64_le_u64. assert (REPLAY_PAGE_BYTES + i64_max ≤ u64_max) as Hpage by (vm_compute; congruence).
  set (through := last `min` _).
  assert (through = last `min` (cursor + REPLAY_PAGE_BYTES)) as Hth.
  { subst through. unfold saturating_add. lia. }
  clearbody through. pose proof (len_row_data _ _ Hok) as Hlen.
  pose proof Hok as (? & ? & ? & ? & _ & f & Hf & Hext).
  assert (0 < REPLAY_PAGE_BYTES) by done.
  apply (reads_bind _ _ _ _ (λ x, x = nslice cursor through start (row_data (files s0) r))).
  - apply wp_guarded; [done|]. destruct Hu as [Hd Hfs]. unfold wp. cbn [files later set_clock].
    unfold len_of_file. cbn [files later set_clock]. rewrite Hfs, Hf, decide_True by lia. split; [done|].
    unfold file_bytes. cbn [files later set_clock]. rewrite Hfs, Hf.
    unfold nslice, row_data. rewrite Hf, dropN_takeN, takeN_takeN, dropN_dropN. f_equal; [lia|]. f_equal. lia.
  - intros x s' Hu' ->. eapply reads_mono; [apply (IH through (d ++ nslice cursor through start (row_data (files s0) r)))|]; try done; try lia.
    + apply loaded_join; [done|lia|rewrite len_nslice; lia..].
    + intros cs'. by rewrite <-app_assoc, nslice_split by lia.
Qed.

Lemma nslice_app c f start (x y : bytes) : start ≤ c → c ≤ start + len x → c ≤ f →
  let m := N.min (start + len x) f in
  nslice c f start (x ++ y) = nslice c m start x ++ nslice m f (start + len x) y.
Proof.
  intros ??? m. unfold nslice. rewrite dropN_app_le, takeN_app by lia. f_equal.
  - destruct (decide (start + len x ≤ f)).
    + rewrite !takeN_ge by (rewrite len_dropN; lia). done.
    + f_equal. lia.
  - rewrite len_dropN. destruct (decide (start + len x ≤ f)).
    + replace (m - (start + len x)) with 0 by lia. rewrite dropN_0. f_equal. lia.
    + replace (f - m) with 0 by lia. replace (f - c - _) with 0 by lia. by rewrite !takeN_0.
Qed.

Definition cut (from to : N) (z : Z) : N := N.min (N.max (Z.to_N z) from) to.
Lemma load_rows_spec rows from to a b opened d cs s0 s : unchanged s0 s →
  Forall (row_ok (files s0)) rows → covers a rows b → (0 ≤ a)%Z → from < to → to ≤ i64_max →
  Forall (overlaps (Z.of_N from) (Z.of_N to)) rows → loaded from (cut from to a) d cs →
  wp (load_rows env rows from to opened cs) s
    (reads s0 (loaded from (cut from to b)
       (d ++ nslice (cut from to a) (cut from to b) (Z.to_N a) (span (files s0) rows)))).
Proof.
  intros Hu Hok. revert a opened d cs s Hu.
  induction Hok as [|r rows Hr Hrows IH]; intros a opened d cs s Hu Hc Ha Hlt Hmax Hov Hcs; cbn [load_rows covers] in *.
  { subst. apply reads_ret; [done|]. by rewrite nslice_empty, app_nil_r by lia. }
  destruct Hc as (<- & Hne & Hc). inversion Hov as [|?? [Hlo Hhi] Hov']; subst.
  pose proof (len_row_data _ _ Hr) as Hlen. pose proof (covers_le _ _ _ Hc).
  pose proof Hr as (_ & _ & Hbytes & Hoff & Hname & f & Hf & _).
  eapply (reads_bind _ _ _ _ (λ x, x = _)); [by eapply reads_ok; [|apply nonnegative_ok|]|].
  intros ? s1 Hu1 ->.
  eapply (reads_bind _ _ _ _ (λ x, x = _)); [by eapply reads_ok; [|apply nonnegative_ok; lia|]|].
  intros ? s2 Hu2 ->.
  eapply (reads_bind _ _ _ _ (λ x, x = _)); [by eapply reads_ok; [|apply nonnegative_ok|]|].
  intros ? s3 Hu3 ->.
  apply (reads_bind _ _ _ _ (λ _, True)).
  { case_decide; [by apply reads_ret|]. apply (reads_bind _ _ _ _ (λ _, True)).
    - eapply (reads_ok _ tt); [done| |done]. unfold validate_replay_file_name. by rewrite Hname.
    - intros _ s4 Hu4 _. by eapply reads_validate. }
  intros _ s4 Hu4 _.
  assert (N.max (Z.to_N (row_start r)) from = cut from to (row_start r)) as -> by (unfold cut; lia).
  assert (N.min (Z.to_N (row_end r)) to = cut from to (row_end r)) as -> by (unfold cut; lia).
  assert (0 < REPLAY_PAGE_BYTES) by done.
  eapply reads_bind; [eapply (load_extent_spec _ _ from); try done|].
  - unfold cut. lia.
  - unfold cut. lia.
  - unfold cut. lia.
  - unfold cut. lia.
  - pose proof (N.div_mod (cut from to (row_end r) - cut from to (row_start r)) REPLAY_PAGE_BYTES ltac:(lia)).
    pose proof (N.mod_lt (cut from to (row_end r) - cut from to (row_start r)) REPLAY_PAGE_BYTES ltac:(lia)).
    rewrite Nat2N.inj_succ, N2Nat.id. nia.
  - intros cs' s5 Hu5 Hcs'. eapply reads_mono; [apply (IH (row_end r)); try done; lia|].
    intros cs''. rewrite <-app_assoc, span_cons. intros Hl.
    rewrite nslice_app by (unfold cut; lia).
    replace (Z.to_N (row_start r) + len (row_data (files s0) r)) with (Z.to_N (row_end r)) by lia.
    replace (Z.to_N (row_end r) `min` cut from to b) with (cut from to (row_end r)) by (unfold cut; lia).
    exact Hl.
Qed.

(** ** A range and a page *)

Lemma slice_nslice from to a d : (0 ≤ a)%Z →
  slice (Z.of_N from) (Z.of_N to) a d = nslice from to (Z.to_N a) d.
Proof. intros. unfold slice, nslice. f_equal; [lia|]. f_equal. lia. Qed.
Lemma store_window id r win s : store_ok (db s) (files s) → run_rows (db s) !! id = Some r →
  window_of s id = Some win →
  durable_first_available_byte r = Z.of_N (w_floor win) ∧
  durable_output_bytes r = Z.of_N (w_head win) ∧ w_head win ≤ i64_max ∧
  w_data win = span (files s) (rows_of id (db s)).
Proof.
  intros [Ht Hl] Hr Hw. destruct (window_of_run _ _ _ _ Hr Hw) as [Hd Hf].
  destruct (tables_runs _ _ Ht _ _ Hr) as (? & ? & ? & _).
  pose proof (len_span _ _ _ _ (rows_of_ok _ _ id Ht) (Hl _ _ Hr)) as Hlen.
  unfold w_head. rewrite Hd, Hf. split_and!; lia || done.
Qed.
Lemma load_range_spec id r win from to s0 s : unchanged s0 s → store_ok (db s0) (files s0) →
  run_rows (db s0) !! id = Some r → window_of s0 id = Some win → w_floor win ≤ from →
  to ≤ w_head win →
  wp (load_replay_chunks_range env id from to) s
    (reads s0 (loaded from (N.max from to) (nslice from to (w_floor win) (w_data win)))).
Proof.
  intros Hu Hok Hr Hw Hfrom Hto. destruct (store_window _ _ _ _ Hok Hr Hw) as (Hf & Hh & Hmax & Hd).
  destruct Hok as [Ht Hl]. unfold load_replay_chunks_range. case_decide.
  { apply reads_ret; [done|]. rewrite nslice_empty, N.max_l by done. apply loaded_nil. }
  rewrite !i64_of_ok by lia. pose proof (Hl _ _ Hr) as Hc.
  destruct (overlaps_slice (files s0) _ _ _ (Z.of_N from) (Z.of_N to) (rows_of_ok _ _ id Ht) Hc) as
    (l' & a' & b' & Hl' & Hrows & Hcov & Hage & Ha' & Hb' & Hov & Hslice); [lia..|].
  eapply (reads_bind _ _ _ _ (λ rows, rows = l')); [by apply reads_query|]. intros ? s1 Hu1 ->.
  assert (cut from to a' = from) as Hca by (unfold cut; lia).
  assert (cut from to b' = N.max from to) as Hcb by (unfold cut; lia).
  eapply reads_mono; [apply (load_rows_spec l' from to a' b' None []); try done; try lia|].
  - rewrite Hca. apply loaded_nil.
  - intros cs. rewrite Hca, Hcb. cbn [app]. rewrite N.max_r by lia.
    rewrite <-slice_nslice, Hslice, Hf, slice_nslice, N2Z.id, <-Hd by lia. done.
Qed.

(** The page after [after]: one chunk, or none. *)
Definition page_of (win : Window) (after through : N) (page : OutputReplay) : Prop :=
  let from := N.max after (w_floor win) in
  let to := N.min (N.min through (w_head win)) (from + REPLAY_PAGE_BYTES) in
  replay_first_available_byte page = w_floor win ∧ replay_latest_output_bytes page = w_head win ∧
  replay_chunks page =
    if decide (from < to)
    then [{| start_byte := from; end_byte := to; data := nslice from to (w_floor win) (w_data win) |}]
    else [].
Lemma loaded_one from to d cs : loaded from to d cs → len d ≤ REPLAY_PAGE_BYTES →
  cs = if decide (from < to) then [{| start_byte := from; end_byte := to; data := d |}] else [].
Proof.
  intros (Hc & <- & Hone) Hle. specialize (Hone Hle). destruct cs as [|c [|]]; cbn in Hone, Hc; [| |lia].
  - subst. by rewrite decide_False by lia.
  - destruct Hc as (<- & ? & ? & ? & <-). rewrite decide_True by done. rewrite chunk_bytes_one. by destruct c.
Qed.
Lemma load_page_spec id r win after through s0 s : unchanged s0 s → store_ok (db s0) (files s0) →
  run_rows (db s0) !! id = Some r → window_of s0 id = Some win → 
  wp (load_replay_page env id after through) s (λ s' res, unchanged s0 s' ∧
    match res with
    | Ok page => page_of win after through page ∧
        (after < w_floor win → replay_truncated page = true)
    | Err e => faulty env e ∨ w_floor win ≤ after ∧ source_gap_fact (state_json r) (w_head win) = Err e
    end).
Proof.
  intros Hu Hok Hr Hw. destruct (store_window _ _ _ _ Hok Hr Hw) as (Hf & Hh & Hmax & Hd).
  pose proof i64_le_u64. assert (REPLAY_PAGE_BYTES + i64_max ≤ u64_max) as Hpage by (vm_compute; congruence).
  unfold load_replay_page. destruct Hu as [Hud Huf]. apply wp_bind.
  eapply wp_query_row; [by rewrite Hud|intros; by split; [|left]|].
  apply wp_bind. eapply wp_lift_ok; [apply nonnegative_ok; lia|].
  apply wp_bind. eapply wp_lift_ok; [apply nonnegative_ok; lia|]. rewrite Hf, Hh, !N2Z.id.
  change (N.min (N.min through (w_head win)) (N.max after (w_floor win) +sat REPLAY_PAGE_BYTES))
    with (N.min (N.min through (w_head win)) (N.min (N.max after (w_floor win) + REPLAY_PAGE_BYTES) u64_max)).
  set (from := N.max after (w_floor win)). set (to := N.min (N.min through (w_head win)) _).
  assert (to = N.min (N.min through (w_head win)) (from + REPLAY_PAGE_BYTES)) as Hto by (subst to; lia).
  clearbody to. apply wp_bind.
  eapply wp_mono; [apply (load_range_spec id r win from to s0); try done; try lia; by split|].
  intros s1 [cs|e] [Hu1 Hcs]; [|by split; [|left]].
  assert (cs = if decide (from < to) then [{| start_byte := from; end_byte := to;
      data := nslice from to (w_floor win) (w_data win) |}] else []) as ->.
  { rewrite (loaded_one _ _ _ _ Hcs) by (unfold nslice; rewrite len_takeN; lia).
    destruct (decide (from < to)); [rewrite decide_True by lia; by rewrite N.max_r by lia|].
    by rewrite decide_False by lia. }
  apply wp_bind. apply wp_mono with (Q := λ s' res, s' = s1 ∧ match res with
     | Ok gap => True | Err e => w_floor win ≤ after ∧ source_gap_fact (state_json r) (w_head win) = Err e end).
  { destruct (decide (after < w_floor win)); [done|]. apply wp_lift_result. split; [done|]. destruct (source_gap_fact _ _); [done|]. split; [lia|done]. }
  intros s2 [gap|e] [-> Hgap]; [|by split; [|right]].
  apply wp_ret. split; [done|]. split; [|intros; cbn; by rewrite bool_decide_true].
  unfold page_of. cbn [replay_first_available_byte replay_latest_output_bytes replay_chunks].
  fold from. rewrite <-Hto. done.
Qed.

(** ** Startup accepts what the statements keep *)

Definition sizes_of (fs : gmap string ReplayFile) (sizes : gmap string N) : Prop :=
  ∀ n k, sizes !! n = Some k → ∃ f, fs !! n = Some f ∧ k = len (contents f).
Lemma cached_len_spec name f sizes s0 s : unchanged s0 s → files s0 !! name = Some f →
  sizes_of (files s0) sizes →
  wp (cached_len env name sizes) s (reads s0 (λ r, sizes_of (files s0) r.1 ∧ r.2 = len (contents f))).
Proof.
  intros Hu Hf Hs. unfold cached_len. destruct (sizes !! name) as [k|] eqn:Hk.
  - apply reads_ret; [done|]. split; [done|]. destruct (Hs _ _ Hk) as (f' & Hf' & ->). cbn. congruence.
  - eapply reads_bind; [by eapply reads_file_len|]. intros n s1 Hu1 ->. apply reads_ret; [done|].
    split; [|done]. intros n k. cbn [fst]. intros [[<- <-]|[_ Hn]]%lookup_insert_Some; [by exists f|by apply Hs].
Qed.
Lemma walk_window_spec id rows a b sizes total s0 s : unchanged s0 s → files_ok (files s0) →
  Forall (row_ok (files s0)) rows → covers a rows b → (0 ≤ a)%Z → (b ≤ Z.of_N i64_max)%Z →
  total ≤ Z.to_N a → sizes_of (files s0) sizes →
  wp (walk_window env id rows sizes (Z.to_N a) total) s
    (reads s0 (λ r, r = (Z.to_N b, total + Z.to_N (b - a)))).
Proof.
  intros Hu Hfs Hok. revert a sizes total s Hu.
  induction Hok as [|r rows Hr Hrows IH]; intros a sizes total s Hu Hc Ha Hb Htot Hs; cbn [walk_window covers] in *.
  { subst. apply reads_ret; [done|]. f_equal. lia. }
  destruct Hc as (<- & Hlt & Hc). pose proof (covers_le _ _ _ Hc). pose proof i64_le_u64.
  pose proof Hr as (_ & _ & Hbytes & Hoff & Hname & f & Hf & Hext). destruct (Hfs _ _ Hf) as [Hmax _].
  do 4 (eapply (reads_bind _ _ _ _ (λ x, x = _)); [eapply reads_ok; [eassumption|apply nonnegative_ok; lia|reflexivity]|];
        intros ? ? ? ->).
  eapply (reads_bind _ _ _ _ (λ _, True)).
  { eapply (reads_ok _ tt); [done| |done]. unfold validate_replay_file_name. by rewrite Hname. }
  intros _ s5 Hu5 _. unfold checked_add. rewrite decide_True by lia.
  eapply reads_bind; [by eapply cached_len_spec|]. intros [sizes' size] s6 Hu6 [Hs' Hsize]. cbn [fst snd] in *.
  subst size. rewrite !decide_False by lia.
  replace (total +sat Z.to_N (row_bytes r)) with (total + Z.to_N (row_bytes r)) by (unfold saturating_add; lia).
  eapply reads_mono; [apply IH; try done; lia|]. intros x ->. f_equal. lia.
Qed.

Lemma validate_window_spec id r s0 s : unchanged s0 s → store_ok (db s0) (files s0) →
  run_rows (db s0) !! id = Some r →
  wp (validate_replay_window_in env id (Z.to_N (durable_first_available_byte r))
        (Z.to_N (durable_output_bytes r)) (Z.to_N (replay_bytes r)) (row_truncated r)) s
    (reads s0 (λ _, True)).
Proof.
  intros Hu [Ht Hl] Hr. pose proof (Hl _ _ Hr) as Hc. unfold linked in Hc.
  destruct (tables_runs _ _ Ht _ _ Hr) as (? & ? & ? & Hheld & Htr & _).
  unfold validate_replay_window_in.
  eapply (reads_bind _ _ _ _ (λ rows, rows = rows_of id (db s0))).
  { apply reads_query; [done|]. by eapply by_start_covers. }
  intros ? s1 Hu1 ->. eapply reads_bind.
  { apply (walk_window_spec id _ (durable_first_available_byte r) (durable_output_bytes r) ∅ 0); [exact Hu1|apply Ht|by apply rows_of_ok|exact Hc|done|done|lia|done]. }
  intros [expected total] s2 Hu2 [= -> ->]. case_decide as Hnil.
  - rewrite Hnil in Hc. cbn in Hc.
    assert (negb (bool_decide (Z.to_N (durable_first_available_byte r) ≠ Z.to_N (durable_output_bytes r)) ||
      bool_decide (Z.to_N (replay_bytes r) ≠ 0) ||
      bool_decide (0 < Z.to_N (durable_output_bytes r)) && negb (row_truncated r)) = true) as ->; [|by apply reads_ret].
    rewrite !(bool_decide_false (_ ≠ _)) by lia. cbn [orb].
    case_bool_decide; [|done]. by rewrite Htr by lia.
  - rewrite !(bool_decide_false (_ ≠ _)) by lia. cbn [orb].
    assert (negb (bool_decide (0 < Z.to_N (durable_first_available_byte r)) && negb (row_truncated r)) = true) as ->;
      [|by apply reads_ret].
    case_bool_decide; [|done]. by rewrite Htr by lia.
Qed.

(** Extents in file and offset order do not overlap, since no two rows do. *)
#[global] Instance extent_le_total : Total extent_le.
Proof.
  intros a b. unfold extent_le. destruct (String.le_total (row_file a) (row_file b)) as [Hle|Hle].
  - destruct (decide (row_file a = row_file b)) as [Heq|]; [|left; naive_solver].
    rewrite Heq in *. destruct (Z.lt_total (row_offset a) (row_offset b)) as [|[|]]; [left|destruct (Z.le_ge_cases (ordinal a) (ordinal b)); [left|right]|right]; naive_solver lia.
  - destruct (decide (row_file b = row_file a)) as [Heq|]; [|right; naive_solver].
    rewrite Heq in *. destruct (Z.lt_total (row_offset a) (row_offset b)) as [|[|]]; [left|destruct (Z.le_ge_cases (ordinal a) (ordinal b)); [left|right]|right]; naive_solver lia.
Qed.

(** Where the walk stands: at no file yet, or after the extent [x]. *)
Definition walking (fs : gmap string ReplayFile) (current : string) (size : N) (previous : option N)
    (l : list ReplayRow) : Prop :=
  (current = "" ∧ previous = None) ∨
  ∃ x f, row_ok fs x ∧ row_file x = current ∧ fs !! current = Some f ∧ size = len (contents f) ∧
    previous = Some (Z.to_N (row_offset x + row_bytes x)) ∧ HdRel extent_le x l ∧
    ∀ y, y ∈ l → apart x y.
Lemma nameless_row fs r : row_ok fs r → row_file r ≠ "".
Proof. intros (_ & _ & _ & _ & Hn & _) Heq. by rewrite Heq in Hn. Qed.
Lemma walk_extents_spec rows current size previous s0 s : unchanged s0 s → files_ok (files s0) →
  Forall (row_ok (files s0)) rows → Sorted extent_le rows →
  (∀ i j a b, rows !! i = Some a → rows !! j = Some b → i ≠ j → apart a b) →
  walking (files s0) current size previous rows →
  wp (walk_extents env rows current size previous) s (reads s0 (λ _, True)).
Proof.
  intros Hu Hfs Hok Hs. revert current size previous s Hu.
  induction Hs as [|r rows Hs IH Hhd]; intros current size previous s Hu Hap Hw; cbn [walk_extents].
  { by apply reads_ret. }
  inversion Hok as [|?? Hr Hrows]; subst. pose proof Hr as (? & ? & Hbytes & Hoff & Hname & f & Hf & Hext).
  destruct (Hfs _ _ Hf) as [Hmax _]. pose proof i64_le_u64.
  apply (reads_bind _ _ _ _ (λ sp, sp.1 = len (contents f) ∧
    (sp.2 = None ∨ ∃ p, sp.2 = Some p ∧ p ≤ Z.to_N (row_offset r)))).
  { destruct (decide (row_file r = current)) as [Hcur|Hcur].
    - apply reads_ret; [done|]. destruct Hw as [[-> ->]|(x & f' & Hx & Hxf & Hf' & -> & -> & Hle & Hxa)].
      { by apply nameless_row in Hr. }
      cbn [fst snd]. assert (f' = f) as -> by congruence. split; [done|]. right. eexists. split; [done|].
      inversion Hle as [|?? [_ Hxr]]; subst. destruct (Hxa r); [constructor|done| |].
      + lia.
      + destruct Hx as (? & ? & ? & ? & _). destruct Hxr as [|[]]; [done|lia|lia].
    - apply (reads_bind _ _ _ _ (λ _, True)).
      { eapply (reads_ok _ tt); [done| |done]. unfold validate_replay_file_name. by rewrite Hname. }
      intros _ s1 Hu1 _. apply (reads_bind _ _ _ _ (λ _, True)); [by eapply reads_validate|].
      intros _ s2 Hu2 _. eapply reads_bind; [by eapply reads_file_len|]. intros n s3 Hu3 ->.
      apply reads_ret; [done|]. split; [done|by left]. }
  intros [size' previous'] s1 Hu1 [Hsize Hprev]. cbn [fst snd] in *. subst size'.
  do 2 (eapply (reads_bind _ _ _ _ (λ x, x = _)); [eapply reads_ok; [eassumption|apply nonnegative_ok; lia|reflexivity]|];
        intros ? ? ? ->).
  unfold checked_add. rewrite decide_True by lia. rewrite decide_False by lia.
  replace (match previous' with Some p => bool_decide (Z.to_N (row_offset r) < p) | None => false end) with false.
  2: { destruct Hprev as [->|(p & -> & Hp)]; [done|]. by rewrite bool_decide_false by lia. }
  apply IH; [done..| |].
  - intros i j a b Hi Hj Hij. by apply (Hap (S i) (S j)); [..|congruence].
  - right. exists r, f. split_and!; try done; [f_equal; lia|].
    intros y [j Hj]%list_elem_of_lookup. by apply (Hap 0%nat (S j)).
Qed.
Lemma validate_extents_spec s0 s : unchanged s0 s → tables_ok (db s0) (files s0) →
  is_Some (files s0 !! active_replay_file (db s0)) →
  wp (validate_replay_extents env (active_replay_file (db s0))) s (reads s0 (λ _, True)).
Proof.
  intros Hu Ht [f Hf]. unfold validate_replay_extents.
  apply (reads_bind _ _ _ _ (λ _, True)); [by eapply reads_validate|]. intros _ s1 Hu1 _.
  eapply (reads_bind _ _ _ _ (λ rows, rows = _)); [by apply reads_query|]. intros ? s2 Hu2 ->.
  pose proof (merge_sort_Permutation extent_le (chunk_rows (db s0))) as Hp.
  apply walk_extents_spec; [done|apply Ht| |apply Sorted_merge_sort, _| |by left].
  - rewrite Hp. apply (tables_rows _ _ Ht).
  - intros i j a b Ha Hb Hij. apply (tables_apart _ _ Ht).
    + rewrite <-Hp. by eapply list_elem_of_lookup_2.
    + rewrite <-Hp. by eapply list_elem_of_lookup_2.
    + intros Heq. apply Hij. assert (NoDup (map ordinal (merge_sort extent_le (chunk_rows (db s0))))) as Hnd.
      { rewrite Hp. by eapply ordinals_nodup. }
      eapply NoDup_lookup; [exact Hnd|rewrite list_lookup_fmap, Ha; reflexivity|].
      rewrite list_lookup_fmap, Hb. cbn. by rewrite Heq.
Qed.
End reads.
