(* ===== verification/ReplayPrune.v ===== *)
(** * Pruning the whole store

    The two global eviction loops keep every Run a suffix of its window, never evict
    more than the excess, and with a funding of one row more than the store holds they
    reach the limit exactly. *)

From S2P Require Import Prelude.
From S2P Require Import Protocol.
From S2P Require Import StorageErrors.
From S2P Require Import ReplayStore.
From S2P Require Import ReplayStoreSpec.
From S2P Require Import ReplayTables.
From S2P Require Import ReplayAppend.
From S2P Require Import ReplayRead.
Local Open Scope Z_scope.

Definition total_replay (d : Db) : Z := acc_replay_bytes (accounting d).
(** What is left of a window without its first [n] bytes. *)
Definition drop_front (n : N) (w : Window) : Window :=
  {| w_floor := w_floor w + n; w_data := dropN n (w_data w) |}%N.

(** What eviction keeps: the files, each Run's identity and head, and a suffix of its window. *)
Record evicts (s s' : Store) : Prop := {
  ev_files : files s' = files s;
  ev_active : active_replay_file (db s') = active_replay_file (db s);
  ev_dom : ∀ id, run_rows (db s) !! id = None → run_rows (db s') !! id = None;
  ev_runs : ∀ id r, run_rows (db s) !! id = Some r → ∃ r', run_rows (db s') !! id = Some r' ∧
    same_identity r r' ∧ durable_output_bytes r' = durable_output_bytes r;
  ev_windows : ∀ id w, window_of s id = Some w →
    ∃ n, (n ≤ len (w_data w))%N ∧ window_of s' id = Some (drop_front n w);
  ev_synced : ∀ w, synced_but w (db s) (files s) → synced_but w (db s') (files s');
  ev_from : ∀ nm, rows_from nm (db s) (db s');
}.
Lemma drop_front_0 w : drop_front 0 w = w.
Proof. unfold drop_front. rewrite dropN_0, N.add_0_r. by destruct w. Qed.
Lemma drop_front_twice n m w : drop_front m (drop_front n w) = drop_front (n + m) w.
Proof. unfold drop_front. cbn. rewrite dropN_dropN. f_equal. lia. Qed.
Lemma evicts_refl s s' : unchanged s s' → evicts s s'.
Proof.
  intros [Hd Hf]. constructor; rewrite ?Hd, ?Hf; try done; [| |by intros; apply rows_from_refl].
  - intros id r Hr. by exists r.
  - intros id w Hw. exists 0%N. rewrite drop_front_0. split; [lia|].
    unfold window_of in *. by rewrite Hd, Hf.
Qed.
Lemma evicts_trans a b c : evicts a b → evicts b c → evicts a c.
Proof.
  intros [H1 H2 H3 H4 H5 H6 H7] [K1 K2 K3 K4 K5 K6 K7]. constructor; try congruence; [auto| | |auto|by intros; eapply rows_from_trans].
  - intros id r (r1 & Hr1 & Hi1 & Hh1)%H4. destruct (K4 _ _ Hr1) as (r2 & Hr2 & Hi2 & Hh2).
    exists r2. split; [done|]. split; [by eapply same_identity_trans|congruence].
  - intros id w Hw. destruct (H5 _ _ Hw) as (n & Hn & Hw1). destruct (K5 _ _ Hw1) as (m & Hm & Hw2).
    exists (n + m)%N. cbn in Hm. rewrite len_dropN in Hm. rewrite drop_front_twice in Hw2.
    split; [lia|done].
Qed.

(** ** Evicting the front of one row *)

Lemma min_start_covers a l b : covers a l b → default b (min_start l) = a.
Proof.
  revert a. induction l as [|r l IH]; intros a; cbn; [done|]. intros (<- & Hlt & Hc).
  specialize (IH _ Hc). fold (min_start l). destruct (min_start l) as [v|]; cbn in *; lia.
Qed.

(** The store after the two statements of [shed_row]. *)
Definition shed_db (r : ReplayRow) (shed : Z) (d : Db) : Db :=
  let d' := shrink (clipped (row_run r) (row_start r + shed)) d in
  update_run (row_run r) (shed_run shed (min_start (rows_of (row_run r) d'))) d'.

Section shed.
Context (fs : gmap string ReplayFile) (d : Db) (r : ReplayRow) (rest : list ReplayRow) (shed : Z).
Hypotheses (Hok : store_ok d fs) (Hrows : rows_of (row_run r) d = r :: rest)
  (Hpos : 0 < shed) (Hmax : shed ≤ row_bytes r).
Let id := row_run r.
Let d1 := shrink (clipped id (row_start r + shed)) d.

Lemma shed_in : r ∈ chunk_rows d.
Proof. assert (r ∈ rows_of id d) as [_ ?]%list_elem_of_filter by (unfold id; rewrite Hrows; constructor). done. Qed.
Lemma shed_run_row : ∃ x, run_rows d !! id = Some x ∧ covers (durable_first_available_byte x) (r :: rest) (durable_output_bytes x).
Proof.
  destruct Hok as [Ht Hl]. pose proof (tables_owner _ _ Ht) as Ho. rewrite Forall_forall in Ho.
  destruct (Ho _ shed_in) as [x Hx]. exists x. split; [done|]. rewrite <-Hrows. by apply Hl.
Qed.
Lemma shed_bytes : row_bytes r = row_end r - row_start r ∧ row_start r < row_end r ∧ 0 ≤ row_start r ∧ 0 ≤ row_offset r.
Proof.
  destruct Hok as [Ht _]. pose proof (tables_rows _ _ Ht) as Hr. rewrite Forall_forall in Hr.
  destruct (Hr _ shed_in) as (? & ? & ? & ? & _). done.
Qed.
Lemma shed_tables : tables_ok d1 fs.
Proof. destruct shed_run_row as (x & _ & Hc). rewrite <-Hrows in Hc. eapply clipped_tables; [apply Hok|exact Hc]. Qed.
Lemma shed_rows id' : rows_of id' d1 = if decide (id' = id) then clip (row_start r + shed) (r :: rest) else rows_of id' d.
Proof. unfold d1. rewrite (rows_of_clipped fs) by apply Hok. case_decide; [|done]. subst. unfold id. by rewrite Hrows. Qed.

Lemma shed_ok : ∃ x, run_rows d !! id = Some x ∧
  let x' := shed_run shed (Some (row_start r + shed)) x in
  tables_ok (shed_db r shed d) fs ∧ run_rows (shed_db r shed d) = <[id := x']> (run_rows d) ∧
  covers (row_start r + shed) (clip (row_start r + shed) (r :: rest)) (durable_output_bytes x) ∧
  durable_first_available_byte x = row_start r.
Proof.
  destruct shed_run_row as (x & Hx & Hc). exists x. split; [done|]. intros x'.
  destruct shed_bytes as (Hb & Hlt & Hs & _). pose proof Hc as (Hfirst & _ & Hrest). pose proof (covers_le _ _ _ Hrest).
  assert (covers (row_start r + shed) (clip (row_start r + shed) (r :: rest)) (durable_output_bytes x)) as Hc'.
  { eapply clip_covers; [exact Hc|lia..]. }
  destruct (tables_runs _ _ (proj1 Hok) _ _ Hx) as (? & ? & ? & ? & ? & ? & ?).
  assert (shed_run shed (min_start (rows_of id d1)) x = x') as Hx'.
  { unfold x', shed_run. rewrite shed_rows, decide_True by done. cbn [default].
    by rewrite (min_start_covers _ _ _ Hc'). }
  destruct (update_run_tables d1 fs id x x' _ shed_tables Hx Hx') as [Ht' Hr']; [|done|].
  { unfold run_ok, x'. cbn. split_and!; try done; lia. }
  done.
Qed.
End shed.

Record shed_by (r : ReplayRow) (shed : Z) (s s' : Store) : Prop := {
  sb_ok : store_ok (db s') (files s');
  sb_evicts : evicts s s';
  sb_rows : chunk_rows (db s') = omap (clipped (row_run r) (row_start r + shed)) (chunk_rows (db s));
  sb_total : total_replay (db s') = total_replay (db s) - shed;
  sb_runs : ∃ x, run_rows (db s) !! row_run r = Some x ∧
    run_rows (db s') = <[row_run r := shed_run shed (Some (row_start r + shed)) x]> (run_rows (db s));
}.
Lemma shed_store s s' r rest shed : store_ok (db s) (files s) → rows_of (row_run r) (db s) = r :: rest →
  0 < shed → shed ≤ row_bytes r → db s' = shed_db r shed (db s) → files s' = files s →
  shed_by r shed s s'.
Proof.
  intros Hok Hrows Hpos Hmax Hd Hf.
  destruct (shed_ok (files s) (db s) r rest shed Hok Hrows Hpos Hmax) as (x & Hx & Ht & Hruns & Hc & Hfirst).
  destruct (shed_run_row (files s) (db s) r rest Hok Hrows) as (x0 & Hx0 & Hc0).
  assert (x0 = x) as -> by congruence. rewrite Hfirst in Hc0.
  pose proof (shed_bytes _ _ _ _ Hok Hrows) as (Hb & Hlt & Hs & _).
  assert (∀ id', rows_of id' (shed_db r shed (db s)) = if decide (id' = row_run r)
    then clip (row_start r + shed) (r :: rest) else rows_of id' (db s)) as Hrows'.
  { intros id'. unfold shed_db. rewrite update_run_rows. by eapply shed_rows. }
  pose proof (rows_of_ok _ _ (row_run r) (proj1 Hok)) as Hrok. rewrite Hrows in Hrok.
  pose proof (len_span _ _ _ _ Hrok Hc0) as Hlen. pose proof (covers_le _ _ _ Hc).
  constructor; rewrite ?Hd, ?Hf.
  - split; [done|]. intros id' r' Hid. unfold linked. rewrite Hruns in Hid. rewrite Hrows'.
    apply lookup_insert_Some in Hid as [[<- <-]|[Hne Hid]].
    + rewrite decide_True by done. done.
    + rewrite decide_False by done. by apply Hok.
  - constructor; rewrite ?Hd, ?Hruns.
    + done.
    + unfold shed_db, update_run. cbn. by rewrite Hx.
    + intros id' Hid. rewrite lookup_insert_ne; congruence.
    + intros id' r' Hid. destruct (decide (row_run r = id')) as [<-|Hne].
      * rewrite lookup_insert_eq. eexists. split; [done|]. rewrite Hx in Hid. by injection Hid as <-.
      * rewrite lookup_insert_ne by done. by exists r'.
    + intros id' w. unfold window_of. rewrite Hd, Hruns, Hf, Hrows'. destruct (decide (row_run r = id')) as [<-|Hne].
      * rewrite Hx, lookup_insert_eq, decide_True, Hrows by done. intros [= <-]. exists (Z.to_N shed).
        cbn [w_data]. split; [lia|]. unfold drop_front. cbn [w_floor w_data fmap option_fmap option_map].
        f_equal. f_equal; [cbn; lia|]. rewrite (span_clip _ _ _ _ _ Hrok Hc0) by lia. f_equal. lia.
      * rewrite lookup_insert_ne, decide_False by done. intros ->. exists 0%N. rewrite drop_front_0. split; [lia|done].
    + intros w Hw. rewrite Hf. unfold synced_but.
      replace (chunk_rows (shed_db r shed (db s))) with (chunk_rows (shrink (clipped (row_run r) (row_start r + shed)) (db s))).
      * eapply synced_shrink; [apply Hok|apply clipped_shrinks|exact Hw].
      * unfold shed_db, update_run. cbn. by rewrite Hx.
    + intros nm. eapply rows_from_trans; [eapply shrink_from, clipped_shrinks; apply Hok|].
      apply rows_from_refl, update_run_chunks.
  - unfold shed_db, update_run. cbn. by rewrite Hx.
  - unfold total_replay. rewrite (tables_account _ _ Ht), (tables_account _ _ (proj1 Hok)), Hruns. cbn.
    rewrite (mapZ_insert_Some _ _ _ _ _ Hx). cbn. lia.
  - by exists x.
Qed.

(** ** Which row goes *)

Lemma head_filter {A} (P : A → Prop) `{∀ x, Decision (P x)} l r : head (filter P l) = Some r →
  ∃ l1 l2, l = l1 ++ r :: l2 ∧ P r ∧ Forall (λ x, ¬ P x) l1.
Proof.
  induction l as [|x l IH]; [done|]. rewrite filter_cons. case_decide as Hx.
  - intros [= ->]. by exists [], l.
  - intros (l1 & l2 & -> & Hr & Hl)%IH. exists (x :: l1), l2. split_and!; [done..|by constructor].
Qed.
Lemma rows_of_app id l1 r l2 : row_run r = id →
  filter (λ x, row_run x = id) (l1 ++ r :: l2) =
  filter (λ x, row_run x = id) l1 ++ r :: filter (λ x, row_run x = id) l2.
Proof. intros Hr. by rewrite filter_app, filter_cons, decide_True. Qed.
(** A row with no earlier row of its Run is the first of its window. *)
Lemma first_row d fs l1 r l2 : store_ok d fs → chunk_rows d = l1 ++ r :: l2 →
  (∀ x, x ∈ l1 → row_run x = row_run r → row_start x < row_start r → False) →
  ∃ rest, rows_of (row_run r) d = r :: rest.
Proof.
  intros [Ht Hl] Hd Hno. pose proof (rows_of_app (row_run r) l1 r l2 eq_refl) as Hrows.
  rewrite <-Hd in Hrows. fold (rows_of (row_run r) d) in Hrows.
  destruct (filter _ l1) as [|x l] eqn:Hf; [by eexists|]. exfalso.
  assert (x ∈ filter (λ x, row_run x = row_run r) l1) as [Hx Hin]%list_elem_of_filter by (rewrite Hf; constructor).
  pose proof (tables_owner _ _ Ht) as Ho. rewrite Forall_forall in Ho.
  destruct (Ho r) as [v Hv]; [rewrite Hd; set_solver|]. pose proof (Hl _ _ Hv) as Hc. unfold linked in Hc.
  rewrite Hrows in Hc. cbn in Hc. destruct Hc as (_ & Hlt & Hc).
  destruct (covers_elem _ _ _ r Hc) as [? _]; [set_solver|]. eapply Hno; [done..|lia].
Qed.
Lemma global_candidate_first d fs r : store_ok d fs → global_candidate d = Some r →
  ∃ rest, rows_of (row_run r) d = r :: rest.
Proof.
  intros Hok (l1 & l2 & Hd & _ & Hno)%head_filter. eapply first_row; [done..|].
  intros x Hx Hrun Hlt. rewrite Forall_forall in Hno. apply (Hno x Hx). unfold has_later.
  apply existsb_exists. exists r. split; [apply list_elem_of_In; rewrite Hd; set_solver|].
  by apply bool_decide_eq_true.
Qed.
(** No candidate: every Run holds at most one row. *)
Lemma no_candidate d fs r : store_ok d fs → global_candidate d = None → r ∈ chunk_rows d →
  rows_of (row_run r) d = [r].
Proof.
  intros [Ht Hl] Hn Hr. assert (r ∈ rows_of (row_run r) d) as Hin by by apply list_elem_of_filter.
  pose proof (tables_owner _ _ Ht) as Ho. rewrite Forall_forall in Ho.
  destruct (Ho _ Hr) as [v Hv]. pose proof (Hl _ _ Hv) as Hc. unfold linked in Hc.
  destruct (rows_of (row_run r) d) as [|x [|y l]] eqn:Hrows; [by apply elem_of_nil in Hin| |].
  { by apply list_elem_of_singleton in Hin as ->. }
  exfalso. cbn in Hc. destruct Hc as (_ & ? & ? & ? & _).
  assert (x ∈ rows_of (row_run r) d ∧ y ∈ rows_of (row_run r) d) as [[Hx Hxd]%list_elem_of_filter [Hy Hyd]%list_elem_of_filter].
  { rewrite Hrows. set_solver. }
  assert (x ∈ filter (λ r, has_later d r = true) (chunk_rows d)) as Hin'.
  { apply list_elem_of_filter. split; [|done]. apply existsb_exists. exists y.
    split; [by apply list_elem_of_In|]. apply bool_decide_eq_true. split; [congruence|lia]. }
  unfold global_candidate in Hn. destruct (filter _ _); [by apply elem_of_nil in Hin'|done].
Qed.

Definition larger (d : Db) (best : option ReplayRow) (r : ReplayRow) : option ReplayRow :=
  match best with
  | Some b => if decide (run_replay d b < run_replay d r) then Some r else best
  | None => Some r
  end.
Lemma fold_largest d l : match fold_left (larger d) l None with
  | None => l = []
  | Some r => ∃ l1 l2, l = l1 ++ r :: l2 ∧ Forall (λ x, run_replay d x < run_replay d r) l1 ∧
      Forall (λ x, run_replay d x ≤ run_replay d r) l
  end.
Proof.
  induction l as [|x l IH] using rev_ind; [done|]. rewrite fold_left_app. cbn.
  destruct (fold_left _ l None) as [b|]; cbn [larger].
  - destruct IH as (l1 & l2 & -> & Hlt & Hle). case_decide as Hx.
    + exists (l1 ++ b :: l2), []. split_and!; [done| |].
      * eapply Forall_impl; [exact Hle|]. cbn. intros. lia.
      * apply Forall_app. split; [|by repeat constructor]. eapply Forall_impl; [exact Hle|]. cbn. intros. lia.
    + exists l1, (l2 ++ [x]). rewrite <-app_assoc. split_and!; [done..|].
      rewrite app_assoc. apply Forall_app. split; [done|]. repeat constructor. lia.
  - subst. exists [], []. split_and!; [done..|]. repeat constructor. lia.
Qed.
Lemma largest_first d fs r : store_ok d fs → largest_row d = Some r →
  (∃ rest, rows_of (row_run r) d = r :: rest) ∧ r ∈ chunk_rows d ∧
  ∀ x, x ∈ chunk_rows d → run_replay d x ≤ run_replay d r.
Proof.
  intros Hok Hr. pose proof (fold_largest d (chunk_rows d)) as Hl. fold (largest_row d) in Hl.
  unfold largest_row in Hr. unfold larger in Hl. rewrite Hr in Hl. destruct Hl as (l1 & l2 & Hd & Hlt & Hle).
  rewrite Forall_forall in Hlt, Hle. split_and!; [|rewrite Hd; set_solver|done].
  eapply first_row; [done..|]. intros x Hx Hrun _. specialize (Hlt _ Hx). unfold run_replay in Hlt.
  rewrite Hrun in Hlt. lia.
Qed.

(** ** The largest Run is over its share *)

Lemma replay_total_bound d fs b : tables_ok d fs →
  (∀ id v, run_rows d !! id = Some v → replay_bytes v ≤ b) →
  total_replay d ≤ b * acc_replay_runs (accounting d).
Proof.
  intros Ht Hb. unfold total_replay. rewrite (tables_account _ _ Ht). cbn. unfold mapZ.
  apply sumZ_scale. intros [id v] Hin%elem_of_map_to_list. cbn. specialize (Hb _ _ Hin).
  destruct (tables_runs _ _ Ht _ _ Hin) as (? & ? & ? & ? & _). unfold positive. case_decide; lia.
Qed.
Lemma runs_nonneg d fs : tables_ok d fs → 0 ≤ acc_replay_runs (accounting d).
Proof. intros Ht. rewrite (tables_account _ _ Ht). by apply account_nonneg, (tables_runs _ _ Ht). Qed.
Lemma total_nonneg d fs : tables_ok d fs → 0 ≤ total_replay d.
Proof. intros Ht. unfold total_replay. rewrite (tables_account _ _ Ht). by apply account_nonneg, (tables_runs _ _ Ht). Qed.
Lemma no_runs_no_bytes d fs : tables_ok d fs → acc_replay_runs (accounting d) = 0 → total_replay d = 0.
Proof.
  intros Ht Hn. pose proof (total_nonneg _ _ Ht).
  enough (total_replay d ≤ total_replay d * acc_replay_runs (accounting d)) by lia.
  apply (replay_total_bound _ fs); [done|]. intros id v Hv. unfold total_replay. rewrite (tables_account _ _ Ht).
  apply (mapZ_lookup_le replay_bytes _ id); [|done]. intros k u Hu.
  destruct (tables_runs _ _ Ht _ _ Hu) as (? & ? & ? & ? & _). lia.
Qed.
(** A Run that holds bytes holds a row. *)
Lemma held_row d fs id v : store_ok d fs → run_rows d !! id = Some v → 0 < replay_bytes v →
  ∃ r, r ∈ chunk_rows d ∧ row_run r = id.
Proof.
  intros [Ht Hl] Hv Hpos. pose proof (Hl _ _ Hv) as Hc. unfold linked in Hc.
  destruct (tables_runs _ _ Ht _ _ Hv) as (? & ? & ? & ? & _).
  destruct (rows_of id d) as [|r l] eqn:Hrows; [cbn in Hc; lia|]. exists r.
  assert (r ∈ rows_of id d) as [??]%list_elem_of_filter by (rewrite Hrows; constructor). done.
Qed.
Lemma replay_bounded d fs b : store_ok d fs → 0 ≤ b → (∀ x, x ∈ chunk_rows d → run_replay d x ≤ b) →
  ∀ id v, run_rows d !! id = Some v → replay_bytes v ≤ b.
Proof.
  intros Hok Hb Hle id v Hv. destruct (decide (0 < replay_bytes v)); [|lia].
  destruct (held_row _ _ _ _ Hok Hv) as (x & Hx & Hrun); [done|].
  specialize (Hle _ Hx). unfold run_replay in Hle. by rewrite Hrun, Hv in Hle.
Qed.
Definition single (d : Db) : Prop := ∀ r, r ∈ chunk_rows d → rows_of (row_run r) d = [r].
Lemma single_bytes d fs r : store_ok d fs → single d → r ∈ chunk_rows d → run_replay d r = row_bytes r.
Proof.
  intros Hok Hs Hr. destruct (shed_run_row fs d r [] Hok (Hs _ Hr)) as (x & Hx & Hc).
  destruct (shed_bytes fs d r [] Hok (Hs _ Hr)) as (Hb & _).
  destruct (tables_runs _ _ (proj1 Hok) _ _ Hx) as (? & ? & ? & ? & _).
  unfold run_replay. rewrite Hx. cbn in Hc. lia.
Qed.
Lemma largest_over_share d fs r limit : store_ok d fs → single d → largest_row d = Some r →
  Z.of_N limit < total_replay d →
  let n := Z.to_N (acc_replay_runs (accounting d)) in
  (n ≠ 0)%N ∧ Z.of_N (limit / n) < row_bytes r.
Proof.
  intros Hok Hs Hr Hlt n. destruct (largest_first _ _ _ Hok Hr) as (_ & Hin & Hle).
  pose proof (single_bytes _ _ _ Hok Hs Hin) as Hb. rewrite Hb in Hle.
  destruct (shed_bytes fs d r [] Hok (Hs _ Hin)) as (? & ? & _).
  assert (0 ≤ row_bytes r) as Hpos by lia.
  pose proof (replay_total_bound d fs (row_bytes r) (proj1 Hok)
    (replay_bounded _ _ _ Hok Hpos Hle)) as Htot.
  pose proof (runs_nonneg _ _ (proj1 Hok)). assert (acc_replay_runs (accounting d) = Z.of_N n) as Hn by lia.
  rewrite Hn in Htot. assert (n ≠ 0)%N by nia. split; [done|].
  pose proof (N.Div0.mul_div_le limit n). nia.
Qed.

(** ** Counting rows *)

Lemma omap_no_longer {A} (g : A → option A) l : (length (omap g l) ≤ length l)%nat.
Proof. induction l as [|x l IH]; [done|]. rewrite omap_step. destruct (g x); cbn [length]; lia. Qed.
Lemma omap_shorter {A} (g : A → option A) l r : r ∈ l → g r = None → (length (omap g l) < length l)%nat.
Proof.
  intros Hr Hg. induction l as [|x l IH]; [by apply elem_of_nil in Hr|]. rewrite omap_step.
  apply elem_of_cons in Hr as [<-|Hr].
  - rewrite Hg. cbn [length]. pose proof (omap_no_longer g l). lia.
  - specialize (IH Hr). destruct (g x); cbn [length]; lia.
Qed.
Section fewer.
Context {A : Type} (P Q : A → Prop) `{∀ x, Decision (P x), ∀ x, Decision (Q x)} (g : A → option A).
Definition keeps_measure (l : list A) : Prop := ∀ x y, x ∈ l → g x = Some y → Q y → P x.
Lemma keeps_measure_cons x l : keeps_measure (x :: l) → keeps_measure l.
Proof. intros Hg y z Hy. apply Hg. by constructor. Qed.
Lemma omap_no_more l : keeps_measure l → (length (filter Q (omap g l)) ≤ length (filter P l))%nat.
Proof.
  induction l as [|x l IH]; intros Hg; [done|]. rewrite omap_step, (filter_cons P).
  specialize (IH (keeps_measure_cons _ _ Hg)).
  destruct (g x) as [y|] eqn:Hy; [rewrite filter_cons|]; repeat case_decide; cbn [length]; try lia.
  exfalso. pose proof (Hg x y (list_elem_of_here _ _) Hy). naive_solver.
Qed.
Lemma omap_fewer l r : r ∈ l → P r → keeps_measure l → (∀ y, g r = Some y → ¬ Q y) →
  (length (filter Q (omap g l)) < length (filter P l))%nat.
Proof.
  intros Hr HP Hg Hno. induction l as [|x l IH]; [by apply elem_of_nil in Hr|].
  rewrite omap_step, (filter_cons P). pose proof (keeps_measure_cons _ _ Hg) as Hg'.
  apply elem_of_cons in Hr as [<-|Hr].
  - rewrite decide_True by done. pose proof (omap_no_more l Hg').
    destruct (g r) as [y|]; [rewrite filter_cons, decide_False by by apply Hno|]; cbn [length]; lia.
  - specialize (IH Hr Hg'). destruct (g x) as [y|] eqn:Hy; [rewrite filter_cons|];
      repeat case_decide; cbn [length]; try lia.
    exfalso. pose proof (Hg x y (list_elem_of_here _ _) Hy). naive_solver.
Qed.
End fewer.

Section prune.
Context `{!UuidDisplay, !StateJson} (env : StorageEnv).

Lemma shed_row_spec s s1 r rest shed : unchanged s s1 → store_ok (db s) (files s) →
  rows_of (row_run r) (db s) = r :: rest → 0 < shed → shed ≤ row_bytes r →
  wp (shed_row env r shed) s1 (λ s' res, files s' = files s ∧
    match res with Ok _ => shed_by r shed s s' | Err e => faulty env e end).
Proof.
  intros [Hd Hf] Hok Hrows Hpos Hmax. pose proof (shed_bytes _ _ _ _ Hok Hrows) as (Hb & Hlt & Hs & _).
  destruct (shed_run_row _ _ _ _ Hok Hrows) as (x & Hx & Hc).
  set (d1 := shrink (clipped (row_run r) (row_start r + shed)) (db s)).
  assert (tables_ok d1 (files s)) as Ht1 by by eapply shed_tables.
  apply wp_bind. apply wp_mono with (Q := λ s' res, files s' = files s ∧
    match res with Ok _ => db s' = d1 | Err e => faulty env e end).
  { case_decide as Hall.
    - assert (delete_row (ordinal r) (db s) = d1) as Heq.
      { rewrite (delete_statement (files s) _ _ _ _ _ (proj1 Hok) Hrows Hc). unfold d1. do 2 f_equal. lia. }
      apply wp_execute; rewrite ?Hd, ?Heq; [by eapply tables_constraints|done|done].
    - assert (shorten_row (ordinal r) shed (db s) = d1) as Heq.
      { eapply (shorten_statement (files s)); [apply Hok|done..|lia]. }
      apply wp_execute; rewrite ?Hd, ?Heq; [by eapply tables_constraints|done|done]. }
  intros s2 [[]|e] [Hf2 Hr2]; [|done]. unfold shed_run_bytes. rewrite <-Hf2 in Ht1.
  destruct (shed_ok (files s) (db s) r rest shed Hok Hrows Hpos Hmax) as (_ & _ & Ht & _).
  apply wp_execute; rewrite ?Hr2.
  - eapply tables_constraints, Ht.
  - done.
  - split; [done|]. by eapply shed_store.
Qed.

(** ** The loops *)

Definition at_limit (limit : N) (s s' : Store) (reached : bool) : Prop :=
  store_ok (db s') (files s') ∧ evicts s s' ∧
  Z.min (total_replay (db s)) (Z.of_N limit) ≤ total_replay (db s') ≤ total_replay (db s) ∧
  (reached = true ↔ total_replay (db s') ≤ Z.of_N limit).
Lemma at_limit_now limit s s' b : unchanged s s' → store_ok (db s) (files s) →
  (b = true ↔ total_replay (db s) ≤ Z.of_N limit) → at_limit limit s s' b.
Proof.
  intros Hu Hok Hb. split_and!; try apply (evicts_refl _ _ Hu); destruct Hu as [Hd Hf];
    rewrite ?Hd, ?Hf; try apply Hok; try apply Hb; lia.
Qed.
Lemma at_limit_step limit r shed s s1 s2 b : shed_by r shed s s1 → 0 < shed →
  shed ≤ total_replay (db s) - Z.of_N limit → at_limit limit s1 s2 b → at_limit limit s s2 b.
Proof.
  intros Hs Hpos Hle (Hok & He & Ht & Hb). pose proof (sb_total _ _ _ _ Hs).
  split_and!; [done|eapply evicts_trans; [apply (sb_evicts _ _ _ _ Hs)|done]|lia|lia|apply Hb..].
Qed.
(** What a loop promises, and when its funding is enough. *)
Definition prunes (limit : N) (enough : Prop) (s : Store) (s' : Store)
    (r : result bool PersistenceError) : Prop :=
  files s' = files s ∧
  match r with
  | Ok reached => at_limit limit s s' reached ∧ (enough → reached = true)
  | Err e => faulty env e
  end.
Lemma prunes_step limit (enough enough' : Prop) r shed s s1 (m : SM bool) : shed_by r shed s s1 → 0 < shed →
  shed ≤ total_replay (db s) - Z.of_N limit →
  (enough → Z.of_N limit < total_replay (db s1) → enough') →
  wp m s1 (prunes limit enough' s1) → wp m s1 (prunes limit enough s).
Proof.
  intros Hs Hpos Hle Hen Hm. eapply wp_mono; [exact Hm|]. intros s2 res [Hf Hres].
  split; [by rewrite Hf; apply Hs|]. destruct res as [b|e]; [|done]. destruct Hres as [Hat Hb].
  split; [by eapply at_limit_step|]. intros Hn. destruct (decide (Z.of_N limit < total_replay (db s1))) as [|Hno]; [auto|].
  destruct Hat as (_ & _ & Ht & Hiff). apply Hiff. lia.
Qed.

Definition share_of (limit : N) (d : Db) : N := limit / Z.to_N (acc_replay_runs (accounting d)).
(** The rows the fair share would cut. *)
Definition over_share (limit : N) (d : Db) : list ReplayRow :=
  filter (λ r, Z.of_N (share_of limit d) < row_bytes r) (chunk_rows d).

Lemma shed_single r shed s s' : store_ok (db s) (files s) → shed_by r shed s s' → single (db s) → single (db s').
Proof.
  intros Hok Hs Hone x Hx. pose proof Hx as Hx'. rewrite (sb_rows _ _ _ _ Hs) in Hx'.
  apply list_elem_of_omap in Hx' as (y & Hy & Hg).
  assert (row_run x = row_run y) as Hrun.
  { pose proof (tables_rows _ _ (proj1 Hok)) as Hrok. rewrite Forall_forall in Hrok.
    by destruct (clipped_shrinks _ _ _ _ _ (Hrok _ Hy) Hg) as (_ & ? & _). }
  assert (rows_of (row_run x) (db s') = omap (clipped (row_run r) (row_start r + shed)) (rows_of (row_run x) (db s))) as ->.
  { rewrite <-(rows_of_shrink (files s)) by (apply Hok || apply clipped_shrinks).
    unfold rows_of. by rewrite (sb_rows _ _ _ _ Hs). }
  by rewrite Hrun, (Hone _ Hy), omap_step, Hg.
Qed.
Lemma shed_runs_le r shed s s' : store_ok (db s) (files s) → shed_by r shed s s' → 0 < shed →
  acc_replay_runs (accounting (db s')) ≤ acc_replay_runs (accounting (db s)).
Proof.
  intros Hok Hs Hpos. destruct (sb_runs _ _ _ _ Hs) as (x & Hx & Hr).
  rewrite (tables_account _ _ (proj1 Hok)), (tables_account _ _ (proj1 (sb_ok _ _ _ _ Hs))), Hr. cbn.
  rewrite (mapZ_insert_Some _ _ _ _ _ Hx). cbn. unfold positive. repeat case_decide; lia.
Qed.
Lemma share_grows limit d d' fs' : tables_ok d' fs' →
  acc_replay_runs (accounting d') ≤ acc_replay_runs (accounting d) →
  Z.of_N limit < total_replay d' → (share_of limit d ≤ share_of limit d')%N.
Proof.
  intros Ht Hle Hlt. pose proof (runs_nonneg _ _ Ht).
  assert (acc_replay_runs (accounting d') ≠ 0) as Hne.
  { intros Hz. pose proof (no_runs_no_bytes _ _ Ht Hz). lia. }
  apply N.div_le_compat_l. lia.
Qed.

Lemma over_share_shrinks limit r shed s s' : store_ok (db s) (files s) → single (db s) →
  r ∈ chunk_rows (db s) → Z.of_N (share_of limit (db s)) < row_bytes r → 0 < shed →
  shed = row_bytes r - Z.of_N (share_of limit (db s)) → shed_by r shed s s' →
  Z.of_N limit < total_replay (db s') →
  (length (over_share limit (db s')) < length (over_share limit (db s)))%nat.
Proof.
  intros Hok Hone Hr Hbig Hpos Hshed Hs Hlt.
  pose proof (share_grows limit _ _ _ (proj1 (sb_ok _ _ _ _ Hs)) (shed_runs_le _ _ _ _ Hok Hs Hpos) Hlt).
  unfold over_share. rewrite (sb_rows _ _ _ _ Hs).
  pose proof (tables_rows _ _ (proj1 Hok)) as Hrok. rewrite Forall_forall in Hrok.
  apply omap_fewer with (r := r); [done..| |].
  - intros x y Hx Hg Hy. destruct (Hrok _ Hx) as (_ & _ & Hbx & _).
    destruct (clipped_shrinks _ _ _ _ _ (Hrok _ Hx) Hg) as (_ & _ & _ & ? & ? & _ & _ & ?). lia.
  - intros y Hg. destruct (Hrok _ Hr) as (_ & _ & Hbr & _). unfold clipped, clip_one in Hg.
    rewrite decide_True in Hg by done. repeat case_decide; try done; injection Hg as <-; cbn; lia.
Qed.
Lemma i64_or_max_id n z : Z.of_N n ≤ z → z ≤ Z.of_N i64_max → i64_or_max n = Z.of_N n.
Proof. intros. unfold i64_or_max. lia. Qed.
Lemma no_rows_no_bytes d fs : store_ok d fs → chunk_rows d = [] → total_replay d = 0.
Proof.
  intros Hok Hnil. pose proof (total_nonneg _ _ (proj1 Hok)).
  enough (total_replay d ≤ 0 * acc_replay_runs (accounting d)) by lia.
  apply (replay_total_bound _ fs); [apply Hok|]. apply (replay_bounded _ fs); [done|done|].
  rewrite Hnil. by intros x ?%elem_of_nil.
Qed.

Lemma trim_spec limit rows s s1 : unchanged s s1 → store_ok (db s) (files s) → single (db s) →
  total_replay (db s) ≤ Z.of_N i64_max →
  wp (trim_oldest_row env rows limit) s1
    (prunes limit (length (over_share limit (db s)) ≤ rows)%nat s).
Proof.
  revert s s1. induction rows as [|rows IH]; intros s s1 Hu Hok Hone Hmax; cbn [trim_oldest_row].
  all: pose proof (total_nonneg _ _ (proj1 Hok)) as Hnn; destruct Hu as [Hd Hf].
  all: apply wp_bind, wp_query; [done|]; apply wp_bind; rewrite Hd; fold (total_replay (db s)).
  all: eapply wp_lift_ok; [by apply nonnegative_ok|]; destruct (decide (_ ∨ _)) as [Hstop|Hover].
  1,3: apply wp_ret; split; [done|]; split; [|done]; apply at_limit_now; [by split|done|];
    split; [|done]; intros _; destruct Hstop as [?|Hz]; [lia|rewrite (no_runs_no_bytes _ _ (proj1 Hok) Hz); lia].
  { apply wp_ret. split; [done|]. split.
    - apply at_limit_now; [by split|done|]. split; [done|lia].
    - intros Hlen. exfalso. unfold over_share in Hlen.
      assert (∃ r, largest_row (db s) = Some r) as [r Hr].
      { pose proof (fold_largest (db s) (chunk_rows (db s))) as Hl. unfold largest_row, larger in *.
        destruct (fold_left _ _ _) as [r|]; [by exists r|].
        pose proof (no_rows_no_bytes _ _ Hok Hl). lia. }
      destruct (largest_over_share _ _ _ limit Hok Hone Hr) as [_ Hbig]; [lia|].
      destruct (largest_first _ _ _ Hok Hr) as (_ & Hin & _).
      assert (r ∈ filter (λ r, Z.of_N (share_of limit (db s)) < row_bytes r) (chunk_rows (db s))) as Hin'.
      { by apply list_elem_of_filter. }
      destruct (filter _ _); [by apply elem_of_nil in Hin'|cbn in Hlen; lia]. }
  apply wp_bind, wp_query; [done|]. change (db (later s1)) with (db s1). rewrite Hd.
  destruct (largest_row (db s)) as [r|] eqn:Hr.
  2: { pose proof (fold_largest (db s) (chunk_rows (db s))) as Hl. unfold largest_row, larger in *.
       rewrite Hr in Hl. pose proof (no_rows_no_bytes _ _ Hok Hl). lia. }
  destruct (largest_over_share _ _ _ limit Hok Hone Hr) as [Hn Hbig]; [lia|].
  destruct (largest_first _ _ _ Hok Hr) as (_ & Hin & _).
  pose proof (runs_nonneg _ _ (proj1 Hok)). apply wp_bind. eapply wp_lift_ok; [by apply nonnegative_ok|].
  fold (share_of limit (db s)) in Hbig |- *.
  assert (share_of limit (db s) ≤ limit)%N by (apply N.Div0.div_le_upper_bound; nia).
  rewrite (i64_or_max_id (share_of limit (db s)) (total_replay (db s))),
    (i64_or_max_id limit (total_replay (db s))) by lia.
  destruct (shed_bytes _ _ r [] Hok (Hone _ Hin)) as (? & ? & ? & ?).
  set (shed := _ `min` _). assert (0 < shed ∧ shed ≤ row_bytes r ∧ shed ≤ total_replay (db s) - Z.of_N limit ∧
    (shed = total_replay (db s) - Z.of_N limit ∨ shed = row_bytes r - Z.of_N (share_of limit (db s))))
    as (Hpos & Hle & Hex & Hcase) by (subst shed; lia).
  clearbody shed. rewrite !decide_False by lia. apply wp_bind.
  eapply wp_mono; [apply (shed_row_spec s _ r []); [by split|done|by apply Hone|done..]|]. intros s2 [[]|e] [Hf2 Hs2]; [|done].
  apply (prunes_step _ _ (length (over_share limit (db s2)) ≤ rows)%nat r shed s s2); [done..| |].
  - intros Hen Hlt. destruct Hcase as [Hc|Hc]; [pose proof (sb_total _ _ _ _ Hs2); lia|].
    pose proof (over_share_shrinks _ _ _ _ _ Hok Hone Hin Hbig Hpos Hc Hs2 Hlt). lia.
  - apply IH; [done|apply Hs2|by eapply shed_single|]. pose proof (sb_total _ _ _ _ Hs2). lia.
Qed.

(** Each round deletes a row or ends, so one row of funding more than there are rows is
    enough. *)
Lemma prune_global_spec limit rows s s1 : unchanged s s1 → store_ok (db s) (files s) →
  total_replay (db s) ≤ Z.of_N i64_max →
  wp (prune_global_replay env rows limit) s1
    (prunes limit (length (chunk_rows (db s)) < rows)%nat s).
Proof.
  revert s s1. induction rows as [|rows IH]; intros s s1 Hu Hok Hmax; cbn [prune_global_replay].
  all: pose proof (total_nonneg _ _ (proj1 Hok)) as Hnn; destruct Hu as [Hd Hf].
  all: apply wp_bind, wp_query; [done|]; apply wp_bind; rewrite Hd; fold (total_replay (db s)).
  all: eapply wp_lift_ok; [by apply nonnegative_ok|]; destruct (decide (Z.to_N _ ≤ _)%N) as [Hstop|Hover].
  1,3: apply wp_ret; split; [done|]; split; [|done]; apply at_limit_now; [by split|done|];
    split; [|done]; intros _; lia.
  { apply wp_ret. split; [done|]. split; [|lia]. apply at_limit_now; [by split|done|]. split; [done|lia]. }
  apply wp_bind, wp_query; [done|]. change (db (later s1)) with (db s1). rewrite Hd.
  destruct (global_candidate (db s)) as [r|] eqn:Hr.
  - destruct (global_candidate_first _ _ _ Hok Hr) as [rest Hrows].
    destruct (shed_bytes _ _ _ _ Hok Hrows) as (? & ? & _). pose proof (shed_in _ _ _ Hrows) as Hin.
    rewrite (i64_or_max_id limit (total_replay (db s))) by lia.
    set (shed := _ `min` _). assert (0 < shed ∧ shed ≤ row_bytes r ∧ shed ≤ total_replay (db s) - Z.of_N limit ∧
      (shed = total_replay (db s) - Z.of_N limit ∨ shed = row_bytes r))
      as (Hpos & Hle & Hex & Hcase) by (subst shed; lia).
    clearbody shed. apply wp_bind.
    eapply wp_mono; [by apply (shed_row_spec s _ r rest)|]. intros s2 [[]|e] [Hf2 Hs2]; [|done].
    apply (prunes_step _ _ (length (chunk_rows (db s2)) < rows)%nat r shed s s2); [done..| |].
    + intros Hen Hlt. destruct Hcase as [Hc|Hc]; [pose proof (sb_total _ _ _ _ Hs2); lia|].
      rewrite (sb_rows _ _ _ _ Hs2). enough (length (omap (clipped (row_run r) (row_start r + shed))
        (chunk_rows (db s))) < length (chunk_rows (db s)))%nat by lia.
      apply omap_shorter with (r := r); [done|]. unfold clipped, clip_one.
      rewrite decide_True by done. by rewrite decide_True by lia.
    + apply IH; [done|apply Hs2|]. pose proof (sb_total _ _ _ _ Hs2). lia.
  - eapply wp_mono; [apply (trim_spec limit rows s); [by split|done| |done]|].
    + intros r Hin. by eapply no_candidate.
    + intros s2 [b|e] [Hf2 Hres]; split; [done| |done..]. destruct Hres as [Hat Hb]. split; [done|].
      intros Hlen. apply Hb. unfold over_share.
      pose proof (length_filter (λ r, Z.of_N (share_of limit (db s)) < row_bytes r) (chunk_rows (db s))). lia.
Qed.
End prune.
