(* ===== verification/ReplayProps.v ===== *)
(** * Properties of the durable replay window *)

From S2P Require Import Prelude.
From S2P Require Import Protocol.
From S2P Require Import StorageErrors.
From S2P Require Import ReplayStore.
From S2P Require Import ReplayStoreSpec.
From S2P Require Import ReplayTables.
From S2P Require Import ReplayAppend.
From S2P Require Import ReplayRead.
From S2P Require Import ReplayPrune.

(** ** A store with one Run, for the witnesses *)

Module Demo.
#[export] Instance display : UuidDisplay := λ id, pretty id.
#[export] Instance json : StateJson := {| gap_member := λ _, Ok None; encode_state := λ _ _, ""%string |}.
Definition env : StorageEnv :=
  {| fault := λ _, None; write_leaves := λ _, 0; now_millis := λ n, Z.of_nat n |}.
Definition run : RunRow :=
  {| row_creation_key := "key"; spec_json := ""; lineage_json := None; state_kind := "running";
     state_json := ""; source_epoch := ""; row_pid := None; durable_first_available_byte := 0;
     durable_output_bytes := 3; replay_bytes := 3; row_truncated := false; row_metadata_bytes := 0;
     created_at_ms := 0; updated_at_ms := 0; terminal_at_ms := None |}.
Definition row : ReplayRow :=
  {| ordinal := 1; row_run := 7; row_start := 0; row_end := 3; row_file := "a.bin";
     row_offset := 0; row_bytes := 3 |}.
Definition file : ReplayFile := {| contents := [x61; x62; x63]; synced_bytes := 3 |}.
Definition fs : gmap string ReplayFile := {["a.bin" := file]}.
Definition runs : gmap RunId RunRow := {[7 := run]}.
Definition store : Store :=
  {| db := {| chunk_rows := [row]; chunk_sequence := 1; run_rows := runs;
              active_replay_file := "a.bin";
              accounting := {| acc_records := 1; acc_metadata_bytes := 0; acc_replay_bytes := 3;
                               acc_replay_runs := 1 |} |};
     files := fs; clock := 0 |}.
Definition writer : ReplayFileWriter := {| file_name := "a.bin"; next_offset := 3; unsynced := false |}.
Definition chunk (start : N) (d : bytes) : OutputChunk :=
  {| start_byte := start; end_byte := start + len d; data := d |}.
(** Two bytes again and two fresh ones. *)
Definition replay : OutputReplay :=
  {| replay_chunks := [chunk 1 [x62; x63; x64; x65]]; replay_first_available_byte := 0;
     replay_latest_output_bytes := 5; replay_truncated := false |}.
Definition window : Window := {| w_floor := 0; w_data := [x61; x62; x63] |}.

Lemma file_is : fs !! "a.bin" = Some file.
Proof. apply lookup_singleton_eq. Qed.
Lemma run_is : runs !! 7 = Some run.
Proof. apply lookup_singleton_eq. Qed.
Lemma row_is_ok : row_ok fs row.
Proof. unfold row_ok. split_and!; try done. exists file. split; [apply file_is|by vm_compute]. Qed.
Lemma run_is_ok : run_ok run.
Proof. unfold run_ok. cbn. split_and!; try lia; try done. left. Qed.
Lemma rows id : rows_of id (db store) = if decide (7 = id) then [row] else [].
Proof. unfold rows_of. cbn. by case_decide. Qed.
Lemma tables : tables_ok (db store) fs.
Proof.
  constructor; cbn [store db chunk_rows run_rows chunk_sequence accounting].
  - intros n f Hf. unfold fs in Hf. apply lookup_singleton_Some in Hf as [<- <-]. by vm_compute.
  - repeat constructor; apply row_is_ok.
  - repeat constructor. exists run. apply run_is.
  - repeat constructor.
  - split; [done|]. repeat constructor; by vm_compute.
  - intros id. rewrite rows. case_decide; repeat constructor. by intros ?%elem_of_nil.
  - intros a b ->%list_elem_of_singleton ->%list_elem_of_singleton. done.
  - apply map_Forall_singleton, run_is_ok.
  - unfold keys_distinct, runs. rewrite map_to_list_singleton. repeat constructor. by intros ?%elem_of_nil.
  - unfold account_of, mapZ, runs. by rewrite map_to_list_singleton, map_size_singleton.
Qed.
Lemma ok : store_ok (db store) (files store).
Proof.
  split; [apply tables|]. intros id r Hr. change (runs !! id = Some r) in Hr.
  unfold runs in Hr. apply lookup_singleton_Some in Hr as [<- <-]. unfold linked. rewrite rows. done.
Qed.
Lemma window_is : window_of store 7 = Some window.
Proof. reflexivity. Qed.
Lemma writer_is n : n ≤ 1000 → writer_at n writer store.
Proof.
  intros Hn. split; [done|]. split.
  - constructor; [|constructor]. left. exists file. split; [apply file_is|]. done.
  - exists file. split; [apply file_is|]. split; [done|]. change (3 + n ≤ i64_max).
    assert (1003 ≤ i64_max) by (vm_compute; done). lia.
Qed.
End Demo.

Section properties.
Context `{!UuidDisplay, !StateJson} (env : StorageEnv).

(** C12: appending to a Run's durable window is exactly the absorption of its chunks in order,
    followed by keeping the last [limit] bytes: whatever file write, SQL statement or clock the
    host makes fail, [append_replay_with_storage] ends; when it answers it leaves a well
    formed store whose window for the Run is that result, reports whether it evicted, and
    leaves every other Run, every other file and every byte already written as they were;
    when it refuses, either the host failed a call or the reference refuses the replay too,
    and nothing that was written is lost. *)
Theorem append_absorbs_the_replay replay limit room id r win w s
    (Hok : store_ok (db s) (files s)) (Hrun : run_rows (db s) !! id = Some r)
    (Hwin : window_of s id = Some win) (Hw : writer_at (payload replay + room) w s) :
  ∃ s' result, append_replay_with_storage env id replay w limit s = Ret (s', result) ∧
    appends_to (file_name w) id s s' ∧
    let received := receive (bool_decide (state_kind r = "running")) replay limit win in
    match result with
    | Ok (w', evicted) =>
        store_ok (db s') (files s') ∧ received = window_of s' id ∧ is_Some received ∧
        writer_at room w' s' ∧ file_name w' = file_name w ∧
        evicted = match absorb_all replay (replay_chunks replay) win with
                  | Some all => bool_decide (limit < len (w_data all))
                  | None => false
                  end
    | Err e => (∃ t, fault env t = Some e) ∨ received = None ∧ ∃ m, e = Mutation m
    end.
Proof.
  destruct (wp_elim _ _ _ (append_replay_spec env replay limit room id r win w s Hok Hrun Hwin Hw))
    as (s' & result & -> & Hto & Hres).
  exists s', result. done.
Qed.

(** C20: a page of durable replay is the requested slice of the window: with [from] the later
    of the cursor and the floor and [to] at most one page further, the head or the caller's
    bound, the page is one chunk with exactly the bytes from [from] to [to], or no chunk when
    there is none; it says it is truncated when the cursor is behind the floor.  Reading
    changes nothing, and fails only by the host or by the recorded source gap. *)
Theorem page_is_a_slice_of_the_window id r win after through s
    (Hok : store_ok (db s) (files s)) (Hrun : run_rows (db s) !! id = Some r)
    (Hwin : window_of s id = Some win) :
  let from := N.max after (w_floor win) in
  let to := N.min (N.min through (w_head win)) (from + REPLAY_PAGE_BYTES) in
  ∃ s' result, load_replay_page env id after through s = Ret (s', result) ∧
    db s' = db s ∧ files s' = files s ∧
    match result with
    | Ok page =>
        replay_first_available_byte page = w_floor win ∧
        replay_latest_output_bytes page = w_head win ∧
        replay_chunks page =
          (if decide (from < to)
           then [{| start_byte := from; end_byte := to;
                    data := takeN (to - from) (dropN (from - w_floor win) (w_data win)) |}]
           else []) ∧
        (after < w_floor win → replay_truncated page = true)
    | Err e => (∃ t, fault env t = Some e) ∨
        w_floor win ≤ after ∧ source_gap_fact (state_json r) (w_head win) = Err e
    end.
Proof.
  intros from to.
  destruct (wp_elim _ _ _ (load_page_spec env id r win after through s s (conj eq_refl eq_refl) Hok Hrun Hwin))
    as (s' & result & -> & [Hd Hf] & Hres).
  exists s', result. split_and!; [done..|]. destruct result as [page|e]; [|done].
  destruct Hres as [(? & ? & ?) ?]. done.
Qed.

(** What appending and pruning leave behind is accepted at the next start: after an append
    and a global prune that answered, whatever they absorbed or evicted, the startup check of
    every Run's window and the check that extents neither overlap nor exceed their files
    succeed unless the host fails a call. *)
Theorem appended_store_passes_startup replay limit total_limit funding id r win w room s s1 s2 w' b reached
    (Hok : store_ok (db s) (files s)) (Hrun : run_rows (db s) !! id = Some r)
    (Hwin : window_of s id = Some win) (Hw : writer_at (payload replay + room) w s)
    (Hactive : active_replay_file (db s) = file_name w)
    (Happend : append_replay_with_storage env id replay w limit s = Ret (s1, Ok (w', b)))
    (Hmax : (total_replay (db s1) ≤ Z.of_N i64_max)%Z)
    (Hprune : prune_global_replay env funding total_limit s1 = Ret (s2, Ok reached)) :
  (∀ id' r', run_rows (db s2) !! id' = Some r' →
    ∃ s3 result, validate_replay_window_in env id' (Z.to_N (durable_first_available_byte r'))
        (Z.to_N (durable_output_bytes r')) (Z.to_N (replay_bytes r')) (row_truncated r') s2 = Ret (s3, result) ∧
      (result = Ok tt ∨ ∃ t e, fault env t = Some e ∧ result = Err e)) ∧
  ∃ s3 result, validate_replay_extents env (active_replay_file (db s2)) s2 = Ret (s3, result) ∧
    (result = Ok tt ∨ ∃ t e, fault env t = Some e ∧ result = Err e).
Proof.
  pose proof (append_replay_spec env replay limit room id r win w s Hok Hrun Hwin Hw) as Ha.
  unfold wp in Ha. rewrite Happend in Ha. destruct Ha as [Hto (Hok1 & _ & _ & Hw' & Hname & _)].
  pose proof (prune_global_spec env total_limit funding s1 s1 (conj eq_refl eq_refl) Hok1 Hmax) as Hp.
  unfold wp in Hp. rewrite Hprune in Hp. destruct Hp as [Hf2 [(Hok2 & He & _) _]].
  assert (is_Some (files s2 !! active_replay_file (db s2))) as Hact.
  { rewrite Hf2, (ev_active _ _ He), (at_active _ _ _ _ Hto), Hactive, <-Hname.
    destruct Hw' as (_ & _ & f & Hf & _). by eexists. }
  split.
  - intros id' r' Hr'.
    destruct (wp_elim _ _ _ (validate_window_spec env id' r' s2 s2 (conj eq_refl eq_refl) Hok2 Hr'))
      as (s3 & [[]|e] & -> & _ & Hres); eexists _, _; split; [done|by left|done|].
    destruct Hres as [t Ht]. right. eauto.
  - destruct (wp_elim _ _ _ (validate_extents_spec env s2 s2 (conj eq_refl eq_refl) (proj1 Hok2) Hact))
      as (s3 & [[]|e] & -> & _ & Hres); eexists _, _; split; [done|by left|done|].
    destruct Hres as [t Ht]. right. eauto.
Qed.

(** The global prune ends for every row funding; it never sheds more than the excess over
    the limit, leaves every Run a suffix of its window, its head and its identity, and reports
    [true] exactly when the total fits; a funding of one row more than the store holds is
    enough for it to reach the limit, so that the total is then the smaller of what it was and
    the limit. *)
Theorem global_prune_reaches_the_limit limit funding s
    (Hok : store_ok (db s) (files s)) (Hmax : (total_replay (db s) ≤ Z.of_N i64_max)%Z) :
  ∃ s' result, prune_global_replay env funding limit s = Ret (s', result) ∧ files s' = files s ∧
    match result with
    | Ok reached =>
        store_ok (db s') (files s') ∧
        (∀ id win, window_of s id = Some win → ∃ n, n ≤ len (w_data win) ∧
           window_of s' id = Some {| w_floor := w_floor win + n; w_data := dropN n (w_data win) |}) ∧
        (∀ id r, run_rows (db s) !! id = Some r → ∃ r', run_rows (db s') !! id = Some r' ∧
           same_identity r r' ∧ durable_output_bytes r' = durable_output_bytes r) ∧
        (Z.min (total_replay (db s)) (Z.of_N limit) ≤ total_replay (db s') ≤ total_replay (db s))%Z ∧
        (reached = true ↔ total_replay (db s') ≤ Z.of_N limit)%Z ∧
        ((length (chunk_rows (db s)) < funding)%nat →
           reached = true ∧ total_replay (db s') = Z.min (total_replay (db s)) (Z.of_N limit))
    | Err e => ∃ t, fault env t = Some e
    end.
Proof.
  destruct (wp_elim _ _ _ (prune_global_spec env limit funding s s (conj eq_refl eq_refl) Hok Hmax))
    as (s' & result & -> & Hf & Hres).
  exists s', result. split; [done|]. split; [done|]. destruct result as [reached|e]; [|exact Hres].
  destruct Hres as [(Hok' & He & Ht & Hiff) Hen]. split_and!; try apply Hok'; try apply Ht; try apply Hiff.
  - apply (ev_windows _ _ He).
  - apply (ev_runs _ _ He).
  - intros Hlen. specialize (Hen Hlen). split; [done|]. apply Hiff in Hen. lia.
Qed.
End properties.

(** ** Witnesses *)

#[local] Existing Instance Demo.display.
#[local] Existing Instance Demo.json.

Lemma append_absorbs_the_replay_witness :
  receive true Demo.replay 4 Demo.window = Some {| w_floor := 1; w_data := [x62; x63; x64; x65] |} ∧
  ∃ s' result, append_replay_with_storage Demo.env 7 Demo.replay Demo.writer 4 Demo.store = Ret (s', result) ∧
    match result with Ok (_, evicted) => evicted = true | Err _ => False end.
Proof.
  split; [reflexivity|].
  destruct (append_absorbs_the_replay Demo.env Demo.replay 4 0 7 Demo.run Demo.window Demo.writer Demo.store
    Demo.ok Demo.run_is Demo.window_is (Demo.writer_is 4 ltac:(by vm_compute)))
    as (s' & [[w' ev]|e] & He & _ & Hres).
  - eexists s', _. split; [exact He|]. by destruct Hres as (_ & _ & _ & _ & _ & ->).
  - exfalso. destruct Hres as [[t Ht]|[Hn _]]; [done|by vm_compute in Hn].
Defined.
Lemma page_is_a_slice_of_the_window_witness :
  ∃ s' page, load_replay_page Demo.env 7 1 100 Demo.store = Ret (s', Ok page) ∧
    replay_chunks page = [Demo.chunk 1 [x62; x63]].
Proof.
  destruct (page_is_a_slice_of_the_window Demo.env 7 Demo.run Demo.window 1 100 Demo.store
    Demo.ok Demo.run_is Demo.window_is) as (s' & [page|e] & He & _ & _ & Hres).
  - exists s', page. split; [exact He|]. destruct Hres as (_ & _ & -> & _). reflexivity.
  - exfalso. destruct Hres as [[t Ht]|[_ Hn]]; done.
Defined.

Lemma appended_store_passes_startup_witness :
  ∃ s1 s2 w' b reached,
    append_replay_with_storage Demo.env 7 Demo.replay Demo.writer 4 Demo.store = Ret (s1, Ok (w', b)) ∧
    prune_global_replay Demo.env 9 3 s1 = Ret (s2, Ok reached) ∧
    ∃ s3 result, validate_replay_extents Demo.env (active_replay_file (db s2)) s2 = Ret (s3, result) ∧
      (result = Ok tt ∨ ∃ t e, fault Demo.env t = Some e ∧ result = Err e).
Proof.
  eexists _, _, _, _, _. split; [vm_compute; reflexivity|]. split; [vm_compute; reflexivity|].
  eapply (appended_store_passes_startup Demo.env Demo.replay 4 3 9 7 Demo.run Demo.window Demo.writer 0
    Demo.store _ _ _ _ _ Demo.ok Demo.run_is Demo.window_is (Demo.writer_is 4 ltac:(by vm_compute)) eq_refl).
  - vm_compute. reflexivity.
  - vm_compute. discriminate.
  - vm_compute. reflexivity.
Defined.
Lemma global_prune_reaches_the_limit_witness :
  ∃ s' result, prune_global_replay Demo.env 2 1 Demo.store = Ret (s', result) ∧
    match result with Ok reached => reached = true ∧ total_replay (db s') = 1%Z | Err _ => False end.
Proof.
  destruct (global_prune_reaches_the_limit Demo.env 1 2 Demo.store Demo.ok ltac:(by vm_compute))
    as (s' & [reached|e] & He & _ & Hres).
  - eexists s', _. split; [exact He|]. destruct Hres as (_ & _ & _ & _ & _ & Hen).
    apply Hen. vm_compute. constructor.
  - exfalso. destruct Hres as [t Ht]. done.
Defined.
