(* ===== verification/StoreTransaction.v ===== *)
(** * One durable transaction

    [persistence.rs], [StateStore]: the transaction every maintenance step and every
    output batch commits through, and the reconciliation of one whose outcome is not
    known.  SQLite keeps what a rollback restores ([before_tx]); a failing statement
    may roll the transaction back by itself ([auto_rollback]); a failing COMMIT may
    have left it active, rolled it back or committed it ([commit_effect]).  The sizes
    of the cache and of the WAL, and the identity of a path, are the host's answers. *)

From S2P Require Import Prelude.
From S2P Require Import Protocol.
From S2P Require Import Resources.
From S2P Require Import StorageErrors.
From S2P Require Import ReplayStore.

(** ** Witnesses *)

Inductive SqlValue := VNull | VInteger (z : Z) | VText (s : string).
#[global] Instance SqlValue_eq_dec : EqDecision SqlValue.
Proof. solve_decision. Defined.
Inductive MaintenanceWitness :=
  | WitnessRun (id : RunId) | WitnessRuns (ids : list RunId)
  | WitnessReplayChunk (ordinal : Z) | WitnessActiveReplay.
Inductive CommitAttempt := NotIssued | Unconfirmed | Confirmed.
#[global] Instance CommitAttempt_eq_dec : EqDecision CommitAttempt.
Proof. solve_decision. Defined.

Definition sql_opt (o : option Z) : SqlValue := match o with Some z => VInteger z | None => VNull end.
Definition sql_bool (b : bool) : SqlValue := VInteger (if b then 1 else 0).
Definition run_values (r : RunRow) : list SqlValue :=
  [VText (row_creation_key r); VText (state_kind r); VText (state_json r); sql_opt (row_pid r);
   VInteger (durable_first_available_byte r); VInteger (durable_output_bytes r);
   VInteger (replay_bytes r); sql_bool (row_truncated r); VInteger (row_metadata_bytes r);
   VInteger (updated_at_ms r); sql_opt (terminal_at_ms r)].

Section witness.
Context `{!UuidDisplay}.
Definition chunk_values (r : ReplayRow) : list SqlValue :=
  [VText (show_run_id (row_run r)); VInteger (row_start r); VInteger (row_end r);
   VText (row_file r); VInteger (row_offset r); VInteger (row_bytes r)].
(** [MaintenanceWitness::read]. *)
Definition witness_value (w : MaintenanceWitness) (d : Db) : option (list SqlValue) :=
  match w with
  | WitnessRun id => run_values <$> run_rows d !! id
  | WitnessReplayChunk o =>
      chunk_values <$> List.find (λ r, bool_decide (ordinal r = o)) (chunk_rows d)
  | WitnessActiveReplay => Some [VText (active_replay_file d)]
  | WitnessRuns ids =>
      Some (flat_map (λ id, VText (show_run_id id) ::
        match run_rows d !! id with Some r => run_values r | None => [VNull] end) ids)
  end.
End witness.

(** ** The connection's owner *)

(** [st_dev] and [st_ino]. *)
Definition Identity : Type := N * N.
(** The address of a shared [AtomicU64], and of a reply channel of one slot. *)
Definition Cell : Type := N.

Inductive MaintenanceSettlement :=
  | IndexedRows
  | Removal (id : RunId) (reply : Cell)
  | OutputSettlement (path : string) (identity : Identity) (before : N)
      (heads : list (Cell * N)) (metadata : option (Cell * N)) (terminal : option RunId)
  | ReplayPublication (name : string) (identity : Identity) (sources : list string)
  | ReplayMove (path : string) (identity : Identity) (before : N) (through : Z).

Record UnresolvedMaintenance := {
  u_witness : MaintenanceWitness; u_old : option (list SqlValue); u_new : option (list SqlValue);
  u_commit : CommitAttempt; u_baseline : N; u_charge : option N; u_cache_spill : option Z;
  u_check_files : bool; u_retry : bool; u_settlement : MaintenanceSettlement;
}.
Record EffectiveStoragePolicy := {
  effective_database_bytes : N; effective_replay_bytes : N; effective_run_bytes : N;
}.
Record CompactionState := {
  force_compaction : bool; compaction_pending : bool; compaction_sources_pending : list string;
  compaction_cursor : Z; replay_cleanup_needed : bool;
}.
(** [StateStore]; [namespace] is the identity of the directories, the database and the
    lock it was opened with, [active_identity] that of the active replay file. *)
Record Session := {
  conn : Store; before_tx : option Db; cache_spill : Z;
  unresolved : option UnresolvedMaintenance;
  replay_file : string; active_identity : Identity; namespace : list (string * Identity);
  cells : gmap Cell N; replies : gmap Cell bool; checkpoint_files : gset RunId;
  effective : EffectiveStoragePolicy; compaction : CompactionState;
  reclaiming_output : gset RunId;
}.

Definition set_conn (c : Store) (s : Session) : Session :=
  {| conn := c; before_tx := before_tx s; cache_spill := cache_spill s; unresolved := unresolved s;
     replay_file := replay_file s; active_identity := active_identity s; namespace := namespace s;
     cells := cells s; replies := replies s; checkpoint_files := checkpoint_files s;
     effective := effective s; compaction := compaction s; reclaiming_output := reclaiming_output s |}.
Definition set_tx (d : Db) (o : option Db) (s : Session) : Session :=
  {| conn := set_db d (conn s); before_tx := o; cache_spill := cache_spill s; unresolved := unresolved s;
     replay_file := replay_file s; active_identity := active_identity s; namespace := namespace s;
     cells := cells s; replies := replies s; checkpoint_files := checkpoint_files s;
     effective := effective s; compaction := compaction s; reclaiming_output := reclaiming_output s |}.
Definition set_spill (z : Z) (s : Session) : Session :=
  {| conn := conn s; before_tx := before_tx s; cache_spill := z; unresolved := unresolved s;
     replay_file := replay_file s; active_identity := active_identity s; namespace := namespace s;
     cells := cells s; replies := replies s; checkpoint_files := checkpoint_files s;
     effective := effective s; compaction := compaction s; reclaiming_output := reclaiming_output s |}.
Definition set_unresolved (u : option UnresolvedMaintenance) (s : Session) : Session :=
  {| conn := conn s; before_tx := before_tx s; cache_spill := cache_spill s; unresolved := u;
     replay_file := replay_file s; active_identity := active_identity s; namespace := namespace s;
     cells := cells s; replies := replies s; checkpoint_files := checkpoint_files s;
     effective := effective s; compaction := compaction s; reclaiming_output := reclaiming_output s |}.
(** What a settlement publishes. *)
Definition set_published (name : string) (i : Identity) (c : CompactionState) (s : Session) : Session :=
  {| conn := conn s; before_tx := before_tx s; cache_spill := cache_spill s; unresolved := unresolved s;
     replay_file := name; active_identity := i; namespace := namespace s;
     cells := cells s; replies := replies s; checkpoint_files := checkpoint_files s;
     effective := effective s; compaction := c; reclaiming_output := reclaiming_output s |}.
Definition set_cells (m : gmap Cell N) (s : Session) : Session :=
  {| conn := conn s; before_tx := before_tx s; cache_spill := cache_spill s; unresolved := unresolved s;
     replay_file := replay_file s; active_identity := active_identity s; namespace := namespace s;
     cells := m; replies := replies s; checkpoint_files := checkpoint_files s;
     effective := effective s; compaction := compaction s; reclaiming_output := reclaiming_output s |}.
Definition set_removed (r : gmap Cell bool) (c : gset RunId) (s : Session) : Session :=
  {| conn := conn s; before_tx := before_tx s; cache_spill := cache_spill s; unresolved := unresolved s;
     replay_file := replay_file s; active_identity := active_identity s; namespace := namespace s;
     cells := cells s; replies := r; checkpoint_files := c;
     effective := effective s; compaction := compaction s; reclaiming_output := reclaiming_output s |}.
Definition set_compaction (c : CompactionState) (s : Session) : Session :=
  set_published (replay_file s) (active_identity s) c s.
(** The compaction state after a published file, and after a confirmed move. *)
Definition restart_compaction (sources : list string) (c : CompactionState) : CompactionState :=
  {| force_compaction := force_compaction c; compaction_pending := true;
     compaction_sources_pending := sources; compaction_cursor := - Z.of_N i64_max - 1;
     replay_cleanup_needed := true |}.
Definition moved_through (through : Z) (c : CompactionState) : CompactionState :=
  {| force_compaction := force_compaction c; compaction_pending := compaction_pending c;
     compaction_sources_pending := compaction_sources_pending c; compaction_cursor := through;
     replay_cleanup_needed := false |}.
(** [AtomicU64::store]. *)
Definition store_cell (cv : Cell * N) (s : Session) : Session := set_cells (<[cv.1 := cv.2]> (cells s)) s.

Definition is_autocommit (s : Session) : bool := bool_decide (before_tx s = None).

Inductive CommitEffect := CommitStillActive | CommitRolledBack | CommitHappened.
Record TxEnv := {
  storage : StorageEnv;
  resources : ResourceLimits;
  auto_rollback : nat → bool;
  commit_effect : nat → CommitEffect;
  rollback_happens : nat → bool;          (* of a ROLLBACK that answers an error *)
  file_sizes : nat → string → N;          (* the database, the WAL and the index *)
  checkpoint_tries : nat → nat → CheckpointTry;
  cache_status : nat → N * N * N;         (* used bytes, writes, spills *)
  spill_sticks : nat → bool;              (* PRAGMA cache_spill has no effect *)
  identity_of : nat → string → Identity;
  unlink_works : nat → bool;
}.
Definition database_file : string := "state.sqlite3".
Definition wal_file : string := "state.sqlite3-wal".
Definition shm_file : string := "state.sqlite3-shm".

Record StageFailure := { stage_error : PersistenceError; fatal : bool; capacity : bool }.

Section transaction.
Context `{!UuidDisplay, !StateJson, !StorageCodes} (env : TxEnv).

Definition SX (A : Type) : Type := M Session PersistenceError A.
(** A transaction body also owns the locals its closure captures. *)
Definition TX (L A : Type) : Type := M (Session * L) PersistenceError A.

Definition on_conn {A} (k : SM A) : SX A := λ s,
  match k (conn s) with Ret (c, r) => Ret (set_conn c s, r) | Panic w => Panic w end.
Definition on_session {L A} (k : SX A) : TX L A := λ '(s, l),
  match k s with Ret (s, r) => Ret ((s, l), r) | Panic w => Panic w end.
(** The closure: it sees the connection and its own locals. *)
Definition on_apply {L A} (k : M (Store * L) PersistenceError A) : TX L A := λ '(s, l),
  match k (conn s, l) with Ret ((c, l), r) => Ret ((set_conn c s, l), r) | Panic w => Panic w end.
Definition attempt {S E A} (k : M S E A) : M S E (result A E) := λ s,
  match k s with Ret (s, r) => Ret (s, Ok r) | Panic w => Panic w end.

(** A call that asks the host. *)
Definition ask {A} (f : nat → A) : SX A := on_conn (
  let* t := tick in
  match fault (storage env) t with Some e => mfail e | None => mret_ (f t) end).
Definition never_fails {A} (f : nat → A) : SX A := on_conn (let* t := tick in mret_ (f t)).
Definition state_file_len (name : string) : SX N := ask (λ t, file_sizes env t name).
(** [path_identity], [require_path_identity]. *)
Definition path_identity (name : string) : SX Identity := ask (λ t, identity_of env t name).
Definition require_path_identity (name : string) (expected : Identity) : SX unit :=
  let* i := path_identity name in
  ensure (bool_decide (i = expected)) (Corrupt ("original durable path identity changed: " +:+ name)).
Fixpoint require_namespace (l : list (string * Identity)) : SX unit :=
  match l with
  | [] => mret_ tt
  | (name, i) :: l => require_path_identity name i ;;; require_namespace l
  end.
Definition validate_recovery_identity : SX unit :=
  let* s := get in
  require_namespace (namespace s) ;;;
  require_path_identity (replay_file s) (active_identity s).

(** ** SQL transactions *)

Definition no_transaction : PersistenceError :=
  Database "cannot rollback - no transaction is active" (Some (OtherSqliteCode 1)) (Some 1%Z) None.
Definition begin_immediate : SX unit :=
  ask (λ _, tt) ;;; modify (λ s, set_tx (db (conn s)) (Some (db (conn s))) s).
Definition rolled_back (s : Session) : Session :=
  match before_tx s with Some d => set_tx d None s | None => s end.
Definition rollback : SX unit :=
  let* t := never_fails id in
  let* s := get in
  match fault (storage env) t with
  | Some e => modify (if rollback_happens env t then rolled_back else id) ;;; mfail e
  | None => if is_autocommit s then mfail no_transaction else modify rolled_back
  end.
Definition committed (s : Session) : Session := set_tx (db (conn s)) None s.
Definition commit : SX unit :=
  let* t := never_fails id in
  match fault (storage env) t with
  | Some e =>
      modify (match commit_effect env t with
              | CommitStillActive => id | CommitRolledBack => rolled_back
              | CommitHappened => committed
              end) ;;; mfail e
  | None => modify committed
  end.
(** SQLite may end the transaction itself when one of its statements fails. *)
Definition statement_failed : SX unit :=
  let* t := never_fails id in
  modify (if auto_rollback env t then rolled_back else id).

Definition read_witness (w : MaintenanceWitness) : SX (option (list SqlValue)) :=
  on_conn (query (storage env) (witness_value w)).

(** [rollback_maintenance_error]; [rollback_original_transaction] is [rollback]. *)
Definition rollback_maintenance_error {A} (e : PersistenceError) : SX A :=
  let* s := get in
  if is_autocommit s then mfail e else
  let* r := attempt rollback in
  let* s := get in
  match r with
  | Ok _ => if is_autocommit s then mfail e
            else mfail (Uncertain "maintenance rollback left a transaction active" e)
  | Err rollback => mfail (Uncertain ("maintenance rollback failed: " +:+ error_text rollback) e)
  end.

(** [classify_maintenance_commit_error]. *)
Definition unknown_commit (e : PersistenceError) : PersistenceError :=
  Uncertain "maintenance COMMIT outcome requires recovery" e.
Definition classify_maintenance_commit_error (e : PersistenceError) (w : MaintenanceWitness)
    (old new : option (list SqlValue)) : SX PersistenceError :=
  let* s := get in
  if negb (is_autocommit s) then
    let* r := attempt rollback in
    let* s := get in
    mret_ (if is_ok r && is_autocommit s && is_transient_storage e then e else unknown_commit e)
  else if is_transient_storage e && bool_decide (old ≠ new) then
    let* actual := attempt (read_witness w) in
    mret_ (match actual with
           | Ok v => if decide (v = old) then e else unknown_commit e
           | Err _ => unknown_commit e
           end)
  else mret_ (unknown_commit e).

(** ** Files and the WAL *)

(** [validate_physical_limits]; the replay directory holds the replay files. *)
Definition directory_len (fs : gmap string ReplayFile) : N :=
  N.min (sumN (λ kv, len (contents kv.2)) (map_to_list fs)) u64_max.
Definition directory_file_len : SX N :=
  let* s := get in ask (λ _, directory_len (files (conn s))).
Definition validate_physical_limits : SX unit :=
  let* database := state_file_len database_file in
  let* wal := state_file_len wal_file in
  let* shm := state_file_len shm_file in
  let* replay := directory_file_len in
  let limits := resources env in
  if match database_bytes limits with Some quota => bool_decide (quota < database) | None => false end
  then mfail (ResourcePressure "main database exceeds its policy") else
  if decide (wal_bytes limits < wal) then mfail (ResourcePressure "WAL exceeds its policy") else
  if decide (shm_bytes limits < shm) then
    mfail (ResourcePressure "shared-memory index exceeds the configured WAL funding") else
  let* limit := lift_result (map_err ResourcePressure (state_file_bytes limits)) in
  match limit with
  | Some limit =>
      ensure (bool_decide (database +sat wal +sat shm +sat replay ≤ limit))
             (ResourcePressure "state files exceed the compaction-aware file budget")
  | None => mret_ tt
  end.
Fixpoint validate_state_files (names : list string) : SX unit :=
  match names with
  | [] => mret_ tt
  | name :: names => ask (λ _, tt) ;;; validate_state_files names
  end.
Definition validate_files : SX unit :=
  validate_state_files [database_file; wal_file; shm_file] ;;; validate_physical_limits.
(** [finish_transaction]. *)
Definition finish_transaction : SX unit :=
  let* r := attempt validate_files in
  lift_result (map_err (error_at StorageMaintenance TxCommitted) r).

Definition wal_charge_for_cache (used : N) : option N :=
  pages ← checked_add used (SQLITE_PAGE_BYTES - 1);
  frames ← checked_mul (pages / SQLITE_PAGE_BYTES) WAL_FRAME_BYTES;
  checked_add WAL_HEADER_BYTES frames.

(** [truncate_wal_to_zero_with_shutdown], [fold_wal_below_ceiling]. *)
Definition truncate_wal_to_zero : SX unit :=
  let* tries := never_fails (checkpoint_tries env) in
  lift_result (retry_wal_checkpoint tries).1.
Definition fold_wal_below_ceiling : SX N :=
  let* wal := state_file_len wal_file in
  (if decide (wal_checkpoint_bytes (resources env) < wal) then truncate_wal_to_zero else mret_ tt) ;;;
  state_file_len wal_file.

(** [restore_cache_spill], [disable_cache_spill]. *)
Definition set_cache_spill (z : Z) : SX unit :=
  let* sticks := ask (spill_sticks env) in
  modify (if sticks then id else set_spill z).
Definition restore_cache_spill (previous : Z) : SX unit := set_cache_spill previous.
Definition cache_spill_now : SX Z := let* s := get in ask (λ _, cache_spill s).
Definition admission_failure (message : string) : StageFailure :=
  {| stage_error := Mutation message; fatal := false; capacity := true |}.
Definition combined_failure (e restore : PersistenceError) : StageFailure :=
  {| stage_error := combine_errors e restore; fatal := true; capacity := false |}.
Definition disable_cache_spill : SX (result Z StageFailure) :=
  let* previous := attempt cache_spill_now in
  match previous with
  | Err e => mret_ (Err (admission_failure
      ("persistent WAL admission could not read cache spill state: " +:+ error_text e)))
  | Ok previous =>
      let* updated := attempt (set_cache_spill 0) in
      match updated with
      | Err e => mret_ (Err (admission_failure
          ("persistent WAL admission could not disable cache spill: " +:+ error_text e)))
      | Ok _ =>
          let* disabled := attempt cache_spill_now in
          let undo (e : PersistenceError) (f : StageFailure) : SX (result Z StageFailure) :=
            let* restored := attempt (restore_cache_spill previous) in
            mret_ (Err (match restored with Ok _ => f | Err r => combined_failure e r end)) in
          match disabled with
          | Err e => undo e (admission_failure
              ("persistent WAL admission could not verify disabled cache spill: " +:+ error_text e))
          | Ok z =>
              if decide (z = 0%Z) then mret_ (Ok previous) else
              let e := Mutation "SQLite cache spill remained enabled" in
              undo e (admission_failure (error_text e))
          end
      end
  end.

(** ** The transaction *)

Definition record_unresolved (w : MaintenanceWitness) (old new : option (list SqlValue))
    (attempted : CommitAttempt) (baseline : N) (charge : option N) (check_files : bool) : SX unit :=
  modify (set_unresolved (Some
    {| u_witness := w; u_old := old; u_new := new; u_commit := attempted; u_baseline := baseline;
       u_charge := charge; u_cache_spill := None; u_check_files := check_files; u_retry := true;
       u_settlement := IndexedRows |})).
Definition confirm_commit (u : UnresolvedMaintenance) : UnresolvedMaintenance :=
  {| u_witness := u_witness u; u_old := u_old u; u_new := u_new u; u_commit := Confirmed;
     u_baseline := u_baseline u; u_charge := u_charge u; u_cache_spill := u_cache_spill u;
     u_check_files := u_check_files u; u_retry := u_retry u; u_settlement := u_settlement u |}.
Definition with_spill (z : Z) (u : UnresolvedMaintenance) : UnresolvedMaintenance :=
  {| u_witness := u_witness u; u_old := u_old u; u_new := u_new u; u_commit := u_commit u;
     u_baseline := u_baseline u; u_charge := u_charge u; u_cache_spill := Some z;
     u_check_files := u_check_files u; u_retry := u_retry u; u_settlement := u_settlement u |}.
Definition with_settlement (m : MaintenanceSettlement) (u : UnresolvedMaintenance) : UnresolvedMaintenance :=
  {| u_witness := u_witness u; u_old := u_old u; u_new := u_new u; u_commit := u_commit u;
     u_baseline := u_baseline u; u_charge := u_charge u; u_cache_spill := u_cache_spill u;
     u_check_files := u_check_files u; u_retry := u_retry u; u_settlement := m |}.

(** Whether the charge is refused. *)
Definition over_admission (baseline : N) (charge : option N) : bool :=
  match charge with
  | None => true
  | Some charge => bool_decide (wal_checkpoint_bytes (resources env) < charge) ||
                   bool_decide (wal_bytes (resources env) < baseline +sat charge)
  end.

Section body.
Context {L : Type} (baseline : N) (w : MaintenanceWitness) (check_files : bool)
  (body : M (Store * L) PersistenceError bool).

(** The proof closure; the witness it observed first outlives its failure. *)
Definition proof_of : TX L (option N * option (list SqlValue)) :=
  let* applied := on_apply body in
  let* new := on_session (read_witness w) in
  let* '(used, writes, spills) := on_session (ask (cache_status env)) in
  let changed := mfail (Mutation "maintenance changed the WAL before admission") in
  if decide (writes ≠ 0 ∨ spills ≠ 0) then changed else
  let* wal := on_session (state_file_len wal_file) in
  if decide (wal ≠ baseline) then changed
  else mret_ (if applied then wal_charge_for_cache used else None, new).
Definition failed_proof (old : option (list SqlValue)) (e : PersistenceError) : TX L bool :=
  on_session (
    statement_failed ;;;
    let* result := attempt (rollback_maintenance_error (A := bool) e) in
    let* s := get in
    when (negb (is_autocommit s))
      (record_unresolved w old None NotIssued baseline None check_files) ;;;
    lift_result result).

(** From COMMIT on. *)
Definition commit_admitted (charge : option N) (old new : option (list SqlValue)) : SX bool :=
  record_unresolved w old new Unconfirmed baseline charge check_files ;;;
  let* done := attempt commit in
  match done with
  | Err e =>
      let* e := classify_maintenance_commit_error e w old new in
      modify (if requires_reconciliation e then id else set_unresolved None) ;;;
      mfail e
  | Ok _ =>
      modify (λ s, set_unresolved (confirm_commit <$> unresolved s) s) ;;;
      let* actual := attempt (state_file_len wal_file) in
      match actual with
      | Err e => mfail (Operation "maintenance post-COMMIT WAL inspection requires recovery: "
                          StorageMaintenance TxCommitted e)
      | Ok actual =>
          if decide (default 0 charge < actual - baseline) then
            mfail (Mutation ("maintenance WAL exceeded its admitted page charge: " +:+ pretty actual +:+ " bytes"))
          else
          (if (check_files : bool) then finish_transaction else mret_ tt) ;;;
          mret_ true
      end
  end.
(** The explicit ROLLBACK of an unadmitted transaction. *)
Definition refuse_admission (charge : option N) (old new : option (list SqlValue)) : SX bool :=
  let* r := attempt rollback in
  match r with
  | Err e =>
      record_unresolved w old new NotIssued baseline charge check_files ;;;
      mfail (Uncertain "maintenance admission rollback failed" e)
  | Ok _ => mret_ false
  end.

(** [commit_maintenance_batch_without_spill]. *)
Definition commit_maintenance_batch_without_spill : TX L bool :=
  on_session (ask (λ _, tt)) ;;;
  on_session begin_immediate ;;;
  let* old := attempt (on_session (read_witness w)) in
  match old with
  | Err e => failed_proof None e
  | Ok old =>
      let* proof := attempt proof_of in
      match proof with
      | Err e => failed_proof old e
      | Ok (charge, new) =>
          on_session (if over_admission baseline charge then refuse_admission charge old new
                      else commit_admitted charge old new)
      end
  end.
End body.

(** The cache state could not be restored: whatever happened stays to be settled. *)
Definition unrestored (previous : Z) (baseline : N) (check_files retry : bool)
    (u : option UnresolvedMaintenance) : UnresolvedMaintenance :=
  with_spill previous (default
    {| u_witness := WitnessRuns []; u_old := Some []; u_new := None; u_commit := NotIssued;
       u_baseline := baseline; u_charge := None; u_cache_spill := None;
       u_check_files := check_files; u_retry := retry; u_settlement := IndexedRows |} u).
Definition admission_result (result : result bool PersistenceError) : bool :=
  match result with Ok _ => true | Err e => is_admission_failure e end.

(** [commit_maintenance_batch_with_admission]. *)
Definition commit_maintenance_batch_with_admission {L} (w : MaintenanceWitness) (check_files : bool)
    (body : M (Store * L) PersistenceError bool) : TX L bool :=
  let* baseline := on_session fold_wal_below_ceiling in
  on_session (ask (λ _, tt)) ;;;
  let* previous := on_session disable_cache_spill in
  match previous with
  | Err failure => mfail (stage_error failure)
  | Ok previous =>
      let* result := attempt (commit_maintenance_batch_without_spill baseline w check_files body) in
      let* restored := attempt (on_session (restore_cache_spill previous)) in
      match restored with
      | Ok _ =>
          on_session (modify (if is_ok result then set_unresolved None else id)) ;;;
          lift_result result
      | Err e =>
          on_session (modify (λ s, set_unresolved (Some (unrestored previous baseline check_files
            (admission_result result) (unresolved s))) s)) ;;;
          mfail (Uncertain "maintenance cache state could not be restored" e)
      end
  end.
(** [commit_maintenance_batch]. *)
Definition commit_maintenance_batch {L} (w : MaintenanceWitness)
    (body : M (Store * L) PersistenceError unit) : TX L bool :=
  commit_maintenance_batch_with_admission w false (body ;;; mret_ true).

(** ** Settling an unresolved transaction *)

(** [truncate_replay_tail]: [set_len]. *)
Definition resize (n : N) (f : ReplayFile) : ReplayFile :=
  {| contents := takeN n (contents f) ++ replicate (N.to_nat (n - len (contents f))) x00;
     synced_bytes := N.min (synced_bytes f) n |}.
Definition truncate_replay_tail (name : string) (n : N) : SM unit := guarded (storage env) (λ s,
  match files s !! name with
  | None => Ret (s, Err (not_found name))
  | Some f => Ret (set_files (<[name := resize n f]> (files s)) s, Ok tt)
  end).
Definition unlink (name : string) : SM unit := guarded (storage env) (λ s,
  match files s !! name with
  | None => Ret (s, Err (not_found name))
  | Some _ => Ret (set_files (delete name (files s)) s, Ok tt)
  end).

Definition try_send (reply : Cell) (b : bool) (m : gmap Cell bool) : gmap Cell bool :=
  match m !! reply with None => <[reply := b]> m | Some _ => m end.
Definition settle_removal (id : RunId) (reply : Cell) (done : bool) : SX unit :=
  let* t := never_fails Datatypes.id in
  modify (λ s, set_removed (try_send reply done (replies s))
    (if done && unlink_works env t then checkpoint_files s ∖ {[id]} else checkpoint_files s) s).
Fixpoint store_cells (l : list (Cell * N)) (s : Session) : Session :=
  match l with [] => s | cv :: l => store_cells l (store_cell cv s) end.
Definition settle_output (path : string) (identity : Identity) (before : N) (heads : list (Cell * N))
    (metadata : option (Cell * N)) (terminal : option RunId) (done : bool) : SX (option RunId) :=
  require_path_identity path identity ;;;
  if done then
    modify (store_cells (heads ++ match metadata with Some cv => [cv] | None => [] end)) ;;;
    mret_ terminal
  else on_conn (truncate_replay_tail path before) ;;; mret_ None.
Definition is_not_found (e : PersistenceError) : bool :=
  match e with Io _ source => bool_decide (io_kind source = KindNotFound) | _ => false end.
Definition settle_publication (name : string) (identity : Identity) (sources : list string)
    (done : bool) : SX unit :=
  if done then
    require_path_identity name identity ;;;
    modify (λ s, set_published name identity (restart_compaction sources (compaction s)) s)
  else
    let* r := attempt (require_path_identity name identity) in
    match r with
    | Ok _ => on_conn (unlink name)
    | Err e => if is_not_found e then mret_ tt else mfail e
    end.
Definition settle_move (path : string) (identity : Identity) (before : N) (through : Z)
    (done : bool) : SX unit :=
  require_path_identity path identity ;;;
  if done then
    modify (λ s, set_compaction (moved_through through (compaction s)) s)
  else on_conn (truncate_replay_tail path before).
Definition settle (m : MaintenanceSettlement) (done : bool) : SX (option RunId) :=
  match m with
  | IndexedRows => mret_ None
  | Removal id reply => settle_removal id reply done ;;; mret_ None
  | OutputSettlement path i before heads metadata terminal =>
      settle_output path i before heads metadata terminal done
  | ReplayPublication name i sources => settle_publication name i sources done ;;; mret_ None
  | ReplayMove path i before through => settle_move path i before through done ;;; mret_ None
  end.

(** Whether the transaction committed, once none is active: [Ok None] is not known yet. *)
Definition verdict (u : UnresolvedMaintenance) (actual : option (list SqlValue))
    : result (option bool) PersistenceError :=
  match u_commit u with
  | Confirmed => if decide (actual = u_new u) then Ok (Some true)
                 else Err (Corrupt "confirmed transaction witness changed")
  | NotIssued => Ok (Some false)
  | Unconfirmed =>
      if decide (u_old u = u_new u) then Ok None
      else if decide (actual = u_old u) then Ok (Some false)
      else if decide (actual = u_new u) then Ok (Some true)
      else Err (Corrupt "unresolved transaction has neither exact Old nor exact New witness")
  end.

(** [reconcile_maintenance]: [Some terminal] when the transaction is settled. *)
Definition reconcile_maintenance : SX (option (option RunId)) :=
  validate_recovery_identity ;;;
  let* s := get in
  match unresolved s with
  | None => mret_ None
  | Some u =>
      (if is_autocommit s then mret_ tt else rollback) ;;;
      let* s := get in
      if negb (is_autocommit s) then mret_ None else
      let* actual := read_witness (u_witness u) in
      let* known := lift_result (verdict u actual) in
      match known with
      | None => mret_ None
      | Some done =>
          (if done then
             let* wal := state_file_len wal_file in
             ensure (bool_decide (wal - u_baseline u ≤ default 0 (u_charge u)))
                    (Corrupt "reconciled WAL exceeds the original admitted charge")
           else mret_ tt) ;;;
          (match u_cache_spill u with Some z => restore_cache_spill z | None => mret_ tt end) ;;;
          (if u_check_files u then validate_files else mret_ tt) ;;;
          let* terminal := settle (u_settlement u) done in
          modify (set_unresolved None) ;;;
          mret_ (Some terminal)
      end
  end.
End transaction.
