(* ===== verification/StoreTransactionSpec.v ===== *)
(** * What a durable transaction promises

    However the host fails the statements, the COMMIT, the ROLLBACK and the inspections
    around them, [commit_maintenance_batch_with_admission] ends with the old database,
    the body's, or an unresolved record that [reconcile_maintenance] settles to exactly
    the one SQLite kept. *)

From S2P Require Import Prelude.
From S2P Require Import Protocol.
From S2P Require Import Resources.
From S2P Require Import StorageErrors.
From S2P Require Import ReplayStore.
From S2P Require Import StoreTransaction.

(** A session up to its clock and to the cache state. *)
Definition core (s : Session) : Session := set_spill 0 (set_conn (set_clock 0 (conn s)) s).
(** The database a crash or a rollback leaves. *)
Definition durable (s : Session) : Db := default (db (conn s)) (before_tx s).

Lemma core_db s s' : core s' = core s → db (conn s') = db (conn s).
Proof. intros Hc. exact (f_equal (λ x, db (conn x)) Hc). Qed.
Lemma core_files s s' : core s' = core s → files (conn s') = files (conn s).
Proof. intros Hc. exact (f_equal (λ x, files (conn x)) Hc). Qed.
Lemma core_before s s' : core s' = core s → before_tx s' = before_tx s.
Proof. intros Hc. exact (f_equal before_tx Hc). Qed.
Lemma core_unresolved s s' : core s' = core s → unresolved s' = unresolved s.
Proof. intros Hc. exact (f_equal unresolved Hc). Qed.
Lemma core_rolled_back s s' : core s' = core s → core (rolled_back s') = core (rolled_back s).
Proof.
  intros Hc. pose proof (core_before _ _ Hc) as Hb. unfold rolled_back. rewrite Hb.
  destruct (before_tx s) as [d|]; [|done].
  exact (f_equal (λ x, set_tx d None x) Hc).
Qed.
Lemma core_committed s s' : core s' = core s → core (committed s') = core (committed s).
Proof. intros Hc. exact (f_equal (λ x, set_tx (db (conn x)) None x) Hc). Qed.
Lemma core_set_unresolved u s s' : core s' = core s → core (set_unresolved u s') = core (set_unresolved u s).
Proof. intros Hc. exact (f_equal (set_unresolved u) Hc). Qed.
Lemma rolled_back_idle s : before_tx s = None → rolled_back s = s.
Proof. intros Hb. unfold rolled_back. by rewrite Hb. Qed.

Section spec.
Context `{!UuidDisplay, !StateJson, !StorageCodes} (env : TxEnv).

(** ** Lifting *)

Lemma wp_on_conn {A} (k : SM A) s Q :
  wp k (conn s) (λ c r, Q (set_conn c s) r) → wp (on_conn k) s Q.
Proof. unfold wp, on_conn. by destruct (k (conn s)) as [[c r]|]. Qed.
Lemma wp_on_session {L A} (k : SX A) s (l : L) Q :
  wp k s (λ s' r, Q (s', l) r) → wp (on_session k) (s, l) Q.
Proof. unfold wp, on_session. by destruct (k s) as [[s' r]|]. Qed.
Lemma wp_on_apply {L A} (k : M (Store * L) PersistenceError A) s l Q :
  wp k (conn s, l) (λ cl r, Q (set_conn cl.1 s, cl.2) r) → wp (on_apply k) (s, l) Q.
Proof. unfold wp, on_apply. by destruct (k (conn s, l)) as [[[c l'] r]|]. Qed.
Lemma wp_attempt {S E A} (k : M S E A) s (Q : S → result (result A E) E → Prop) :
  wp k s (λ s' r, Q s' (Ok r)) → wp (attempt k) s Q.
Proof. unfold wp, attempt. by destruct (k s) as [[s' r]|]. Qed.

(** ** Calls that only ask *)

Definition quiet {A} (m : SX A) : Prop := ∀ s, wp m s (λ s' _, core s' = core s).
Lemma quiet_ret {A} (a : A) : quiet (mret_ a).
Proof. done. Qed.
Lemma quiet_fail {A} e : quiet (A := A) (mfail e).
Proof. done. Qed.
Lemma quiet_get : quiet get.
Proof. done. Qed.
Lemma quiet_lift {A} (r : result A PersistenceError) : quiet (lift_result r).
Proof. done. Qed.
Lemma quiet_bind {A B} (m : SX A) (k : A → SX B) : quiet m → (∀ a, quiet (k a)) → quiet (bind m k).
Proof.
  intros Hm Hk s. apply wp_bind. eapply wp_mono; [apply Hm|]. intros s' [a|e] Hc; [|done].
  eapply wp_mono; [apply Hk|]. intros s2 r Hc2. by rewrite Hc2.
Qed.
Lemma quiet_attempt {A} (m : SX A) : quiet m → quiet (attempt m).
Proof. intros Hm s. apply wp_attempt. eapply wp_mono; [apply Hm|]. done. Qed.
Lemma quiet_ensure b e : quiet (ensure b e).
Proof. by destruct b. Qed.
Lemma quiet_ask {A} (f : nat → A) : quiet (ask env f).
Proof.
  intros s. apply wp_on_conn. unfold wp, bind, tick. by destruct (fault (storage env) (clock (conn s))).
Qed.
Lemma quiet_never {A} (f : nat → A) : quiet (never_fails f).
Proof. done. Qed.
Lemma quiet_spill f : (∀ s, core (f s) = core s) → quiet (modify f).
Proof. intros Hf s. apply Hf. Qed.
End spec.

Create HintDb quiet.
#[export] Hint Resolve quiet_ret quiet_fail quiet_get quiet_lift quiet_ensure quiet_ask quiet_never : quiet.
#[export] Hint Extern 2 (quiet (bind _ _)) => apply quiet_bind; intros : quiet.
#[export] Hint Extern 2 (quiet (attempt _)) => apply quiet_attempt : quiet.
#[export] Hint Extern 2 (quiet (match ?x with _ => _ end)) => destruct x : quiet.
Ltac quiet := eauto 40 with quiet.

Section spec.
Context `{!UuidDisplay, !StateJson, !StorageCodes} (env : TxEnv).

Lemma quiet_len name : quiet (state_file_len env name).
Proof. apply quiet_ask. Qed.
Lemma quiet_require name i : quiet (require_path_identity env name i).
Proof. unfold require_path_identity, path_identity. quiet. Qed.
Lemma quiet_namespace l : quiet (require_namespace env l).
Proof. induction l as [|[name i] l IH]; cbn [require_namespace]; [quiet|]. apply quiet_bind; [apply quiet_require|done]. Qed.
Lemma quiet_identity : quiet (validate_recovery_identity env).
Proof.
  apply quiet_bind; [quiet|]. intros s. apply quiet_bind; [apply quiet_namespace|]. intros.
  apply quiet_require.
Qed.
Lemma quiet_state_files names : quiet (validate_state_files env names).
Proof. induction names as [|name names IH]; cbn [validate_state_files]; quiet. Qed.
Lemma quiet_limits : quiet (validate_physical_limits env).
Proof.
  unfold validate_physical_limits, state_file_len, directory_file_len.
  do 3 (apply quiet_bind; [quiet|intros]). apply quiet_bind; [quiet|intros].
  repeat (case_match || case_decide); quiet.
Qed.
Lemma quiet_files : quiet (validate_files env).
Proof. apply quiet_bind; [apply quiet_state_files|]. intros. apply quiet_limits. Qed.
Lemma quiet_finish : quiet (finish_transaction env).
Proof. apply quiet_bind; [apply quiet_attempt, quiet_files|]. quiet. Qed.
Lemma quiet_fold : quiet (fold_wal_below_ceiling env).
Proof.
  unfold fold_wal_below_ceiling, truncate_wal_to_zero, state_file_len.
  apply quiet_bind; [quiet|]. intros. apply quiet_bind; [case_decide; quiet|]. quiet.
Qed.
Lemma quiet_set_spill z : quiet (set_cache_spill env z).
Proof. apply quiet_bind; [quiet|]. intros [|]; by apply quiet_spill. Qed.
Lemma quiet_restore z : quiet (restore_cache_spill env z).
Proof. apply quiet_set_spill. Qed.
Lemma quiet_disable : quiet (disable_cache_spill env).
Proof.
  unfold disable_cache_spill, cache_spill_now.
  assert (∀ p (k : result unit PersistenceError → SX (result Z StageFailure)), (∀ r, quiet (k r)) →
    quiet (bind (attempt (restore_cache_spill env p)) k)) as Hundo.
  { intros p k Hk. apply quiet_bind; [apply quiet_attempt, quiet_restore|done]. }
  apply quiet_bind; [quiet|]. intros [previous|e]; [|quiet].
  apply quiet_bind; [apply quiet_attempt, quiet_set_spill|]. intros [u|e]; [|quiet].
  apply quiet_bind; [quiet|]. intros [z|e]; [case_decide; [quiet|]|]; apply Hundo; quiet.
Qed.
Lemma read_witness_spec w s : wp (read_witness env w) s (λ s' r, core s' = core s ∧
  match r with Ok v => v = witness_value w (db (conn s)) | Err e => True end).
Proof.
  apply wp_on_conn. unfold query, guarded, wp, bind, tick.
  by destruct (fault (storage env) (clock (conn s))).
Qed.

(** ** BEGIN, COMMIT and ROLLBACK *)

(** [s0] with another database, other files, transaction and unresolved record. *)
Definition at_state (s0 : Session) (fs : gmap string ReplayFile) (d : Db) (o : option Db)
    (u : option UnresolvedMaintenance) : Session :=
  core (set_unresolved u (set_tx d o (set_conn {| db := d; files := fs; clock := 0 |} s0))).
Lemma at_state_self s0 : before_tx s0 = None → unresolved s0 = None →
  core s0 = at_state s0 (files (conn s0)) (db (conn s0)) None None.
Proof.
  intros Hb Hu. unfold at_state, core. destruct s0 as [c ? ? ? ? ? ? ? ? ? ? ? ?]; cbn in *. subst. by destruct c.
Qed.
Lemma at_state_refl s : core s = at_state s (files (conn s)) (db (conn s)) (before_tx s) (unresolved s).
Proof. destruct s as [[] ? ? ? ? ? ? ? ? ? ? ? ?]. done. Qed.
Lemma at_state_db s0 s fs d o u : core s = at_state s0 fs d o u → db (conn s) = d.
Proof. intros Hc. exact (f_equal (λ x, db (conn x)) Hc). Qed.
Lemma at_state_files s0 s fs d o u : core s = at_state s0 fs d o u → files (conn s) = fs.
Proof. intros Hc. exact (f_equal (λ x, files (conn x)) Hc). Qed.
Lemma at_state_before s0 s fs d o u : core s = at_state s0 fs d o u → before_tx s = o.
Proof. intros Hc. exact (f_equal before_tx Hc). Qed.
Lemma at_state_unresolved s0 s fs d o u : core s = at_state s0 fs d o u → unresolved s = u.
Proof. intros Hc. exact (f_equal unresolved Hc). Qed.
Lemma at_state_set s0 s fs d o u u' : core s = at_state s0 fs d o u →
  core (set_unresolved u' s) = at_state s0 fs d o u'.
Proof. intros Hc. exact (f_equal (set_unresolved u') Hc). Qed.
Lemma at_state_rolled_back s0 s fs d d0 u : core s = at_state s0 fs d (Some d0) u →
  core (rolled_back s) = at_state s0 fs d0 None u.
Proof.
  intros Hc. unfold rolled_back. rewrite (at_state_before _ _ _ _ _ _ Hc).
  exact (f_equal (λ x, set_tx d0 None x) Hc).
Qed.
Lemma at_state_ended s0 s fs d u : core s = at_state s0 fs d None u →
  core (rolled_back s) = at_state s0 fs d None u.
Proof. intros Hc. by rewrite rolled_back_idle by exact (at_state_before _ _ _ _ _ _ Hc). Qed.
Lemma at_state_committed s0 s fs d o u : core s = at_state s0 fs d o u →
  core (committed s) = at_state s0 fs d None u.
Proof. intros Hc. exact (f_equal (λ x, set_tx (db (conn x)) None x) Hc). Qed.

Lemma rollback_spec s0 s fs d d0 u : core s = at_state s0 fs d (Some d0) u →
  wp (rollback env) s (λ s' r, core s' = at_state s0 fs d0 None u ∨
    (∃ e, r = Err e) ∧ core s' = at_state s0 fs d (Some d0) u).
Proof.
  intros Hc. unfold rollback. apply wp_bind. eapply wp_mono; [apply quiet_never|].
  intros s1 [t|e] K1; [|right; split; [by eexists|by rewrite K1]]. rewrite Hc in K1.
  apply wp_bind, wp_get. destruct (fault (storage env) t) as [e|].
  - apply wp_bind, wp_modify, wp_fail. destruct (rollback_happens env t); [left|right; split; [by eexists|done]].
    by eapply at_state_rolled_back.
  - unfold is_autocommit. rewrite (at_state_before _ _ _ _ _ _ K1). rewrite bool_decide_false by done.
    apply wp_modify. left. by eapply at_state_rolled_back.
Qed.
Lemma rollback_ended s0 s fs d u : core s = at_state s0 fs d None u →
  wp (rollback env) s (λ s' r, core s' = at_state s0 fs d None u).
Proof.
  intros Hc. unfold rollback. apply wp_bind. eapply wp_mono; [apply quiet_never|].
  intros s1 [t|e] K1; [|by rewrite K1]. rewrite Hc in K1.
  apply wp_bind, wp_get. destruct (fault (storage env) t) as [e|].
  - apply wp_bind, wp_modify, wp_fail. destruct (rollback_happens env t); [|done]. by apply at_state_ended.
  - unfold is_autocommit. rewrite (at_state_before _ _ _ _ _ _ K1). by rewrite bool_decide_true.
Qed.
Lemma commit_spec s0 s fs d d0 u : core s = at_state s0 fs d (Some d0) u →
  wp (commit env) s (λ s' r, core s' = at_state s0 fs d None u ∨
    (∃ e, r = Err e) ∧ (core s' = at_state s0 fs d (Some d0) u ∨ core s' = at_state s0 fs d0 None u)).
Proof.
  intros Hc. unfold commit. apply wp_bind. eapply wp_mono; [apply quiet_never|].
  intros s1 [t|e] K1; [|right; split; [by eexists|left; by rewrite K1]]. rewrite Hc in K1.
  destruct (fault (storage env) t) as [e|].
  - apply wp_bind, wp_modify, wp_fail. destruct (commit_effect env t).
    + right. split; [by eexists|by left].
    + right. split; [by eexists|right]. by eapply at_state_rolled_back.
    + left. by eapply at_state_committed.
  - apply wp_modify. left. by eapply at_state_committed.
Qed.
Lemma begin_spec s0 s fs d u : core s = at_state s0 fs d None u →
  wp (begin_immediate env) s (λ s' r, match r with
    | Ok _ => core s' = at_state s0 fs d (Some d) u
    | Err e => core s' = at_state s0 fs d None u end).
Proof.
  intros Hc. apply wp_bind. eapply wp_mono; [apply quiet_ask|].
  intros s1 [t|e] K1; rewrite Hc in K1; [|done]. apply wp_modify.
  pose proof (at_state_db _ _ _ _ _ _ K1) as Hd. rewrite Hd.
  exact (f_equal (λ x, set_tx d (Some d) x) K1).
Qed.

Lemma never_at {A} (f : nat → A) s0 s fs d o u : core s = at_state s0 fs d o u →
  wp (never_fails f) s (λ s' r, ∃ t, r = Ok (f t) ∧ core s' = at_state s0 fs d o u).
Proof. intros Hc. exists (clock (conn s)). split; [done|]. by rewrite <-Hc. Qed.
(** A quiet call keeps such a state. *)
Lemma quiet_at {A} (m : SX A) s0 s fs d o u : quiet m → core s = at_state s0 fs d o u →
  wp m s (λ s' _, core s' = at_state s0 fs d o u).
Proof. intros Hm Hc. eapply wp_mono; [apply Hm|]. intros s' r Hr. by rewrite Hr. Qed.
Lemma witness_at w s0 s fs d o u : core s = at_state s0 fs d o u →
  wp (read_witness env w) s (λ s' r, core s' = at_state s0 fs d o u ∧
    match r with Ok v => v = witness_value w d | Err e => True end).
Proof.
  intros Hc. eapply wp_mono; [apply read_witness_spec|]. intros s' r [Hr Hv].
  rewrite (at_state_db _ _ _ _ _ _ Hc) in Hv. split; [by rewrite Hr|done].
Qed.

(** [classify_maintenance_commit_error]: only an error that proves the old database may be
    retried. *)
Lemma classify_spec s0 s fs d d0 u w e : 
  core s = at_state s0 fs d (Some d0) u ∨ core s = at_state s0 fs d0 None u ∨ core s = at_state s0 fs d None u →
  wp (classify_maintenance_commit_error env e w (witness_value w d0) (witness_value w d)) s (λ s' r,
    ∃ e', r = Ok e' ∧
    (core s' = at_state s0 fs d (Some d0) u ∨ core s' = at_state s0 fs d0 None u ∨ core s' = at_state s0 fs d None u) ∧
    (requires_reconciliation e' = false → core s' = at_state s0 fs d0 None u)).
Proof.
  intros Hs. unfold classify_maintenance_commit_error. apply wp_bind, wp_get.
  unfold is_autocommit at 1. destruct Hs as [Hs|Hs].
  - rewrite (at_state_before _ _ _ _ _ _ Hs), bool_decide_false by done. cbn [negb].
    apply wp_bind, wp_attempt. eapply wp_mono; [by eapply rollback_spec|]. intros s1 r Hr.
    apply wp_bind, wp_get, wp_ret. eexists. split; [done|].
    destruct Hr as [K1|[[e' ->] K1]].
    + split; [by right; left|done].
    + split; [by left|]. cbn [is_ok andb]. done.
  - assert (∃ d', (d' = d0 ∨ d' = d) ∧ core s = at_state s0 fs d' None u) as (d' & Hd' & Hc).
    { destruct Hs as [Hs|Hs]; eauto. }
    rewrite (at_state_before _ _ _ _ _ _ Hc), bool_decide_true by done. cbn [negb].
    assert (∀ s', core s' = at_state s0 fs d' None u → core s' = at_state s0 fs d (Some d0) u ∨
      core s' = at_state s0 fs d0 None u ∨ core s' = at_state s0 fs d None u) as Hin.
    { intros s' Hs'. destruct Hd' as [->| ->]; auto. }
    destruct (is_transient_storage e && _) eqn:Htr.
    2: { apply wp_ret. eexists. split; [done|]. split; [auto|done]. }
    apply andb_true_iff in Htr as [_ Hne%bool_decide_eq_true].
    apply wp_bind, wp_attempt. eapply wp_mono; [by eapply witness_at|]. intros s1 r [K1 Hv].
    apply wp_ret. eexists. split; [done|]. split; [auto|]. destruct r as [v|e']; [|done]. subst v.
    case_decide as Heq; [|done]. intros _. destruct Hd' as [->| ->]; [done|congruence].
Qed.
End spec.

(** ** The whole transaction *)

Section outcome.
Context `{!UuidDisplay, !StateJson, !StorageCodes} (env : TxEnv).
Context {L : Type} (s0 : Session) (l0 : L) (w : MaintenanceWitness) (check_files : bool)
  (body : M (Store * L) PersistenceError bool) (P : Store → L → result bool PersistenceError → Prop).
Let d0 := db (conn s0).
Hypotheses (Hidle : before_tx s0 = None) (Hclear : unresolved s0 = None)
  (Hbody : ∀ c, db c = d0 → files c = files (conn s0) → wp body (c, l0) (λ cl r, P cl.1 cl.2 r)).

(** What a failed transaction leaves: its database, the transaction's own copy of the old
    one, its unresolved record and the error's verdict. *)
Inductive failure (c : Store) (l : L) (e : PersistenceError)
    : Db → option Db → option UnresolvedMaintenance → Prop :=
  | failed_old : failure c l e d0 None None
  | failed_kept d o u : u_commit u = NotIssued → u_settlement u = IndexedRows →
      d = d0 ∧ o = None ∨ o = Some d0 → requires_reconciliation e = true →
      failure c l e d o (Some u)
  | failed_unconfirmed d o u : P c l (Ok true) → u_commit u = Unconfirmed → u_settlement u = IndexedRows →
      u_witness u = w → u_old u = witness_value w d0 → u_new u = witness_value w (db c) →
      u_check_files u = check_files →
      d = db c ∧ o = Some d0 ∨ d = d0 ∧ o = None ∨ d = db c ∧ o = None →
      requires_reconciliation e = true → failure c l e d o (Some u)
  | failed_confirmed u : P c l (Ok true) → u_commit u = Confirmed → u_settlement u = IndexedRows →
      u_witness u = w → u_new u = witness_value w (db c) → u_check_files u = check_files →
      requires_reconciliation e = true ∨ check_files = true ∧ left_as_is e = true →
      failure c l e (db c) None (Some u).
(** Where the body stopped. *)
Definition ran (c : Store) (l : L) : Prop :=
  files c = files (conn s0) ∧ l = l0 ∨ ∃ r, P c l r.
Definition outcome_of (s : Session) (l : L) (r : result bool PersistenceError) : Prop :=
  ∃ c,
  match r with
  | Ok true => P c l (Ok true) ∧ core s = at_state s0 (files c) (db c) None None
  | Ok false => (∃ b, P c l (Ok b)) ∧ core s = at_state s0 (files c) d0 None None
  | Err e => ran c l ∧ ∃ d o u, core s = at_state s0 (files c) d o u ∧ failure c l e d o u
  end.

(** While the cache state is still changed, a success keeps its record. *)
Definition inner_outcome (s : Session) (l : L) (r : result bool PersistenceError) : Prop :=
  ∃ c,
  match r with
  | Ok true => P c l (Ok true) ∧ ∃ u, u_commit u = Confirmed ∧ u_settlement u = IndexedRows ∧
      u_witness u = w ∧ u_new u = witness_value w (db c) ∧ u_check_files u = check_files ∧
      core s = at_state s0 (files c) (db c) None (Some u)
  | Ok false => (∃ b, P c l (Ok b)) ∧ core s = at_state s0 (files c) d0 None None
  | Err e => ran c l ∧ ∃ d o u, core s = at_state s0 (files c) d o u ∧ failure c l e d o u
  end.

Lemma failed_proof_spec baseline old e c l s d : ran c l →
  core s = at_state s0 (files c) d (Some d0) None →
  wp (failed_proof env baseline w check_files old e) (s, l)
    (λ sl r, inner_outcome sl.1 sl.2 r).
Proof.
  intros Hran Hc. apply wp_on_session. unfold statement_failed. apply wp_bind, wp_bind.
  eapply wp_mono; [by eapply never_at|]. intros s1 r1 (t & -> & K1). change (id t) with t. apply wp_modify.
  assert (∃ d' o, core ((if auto_rollback env t then rolled_back else id) s1) = at_state s0 (files c) d' o None ∧
    (d' = d0 ∧ o = None ∨ o = Some d0)) as (d' & o & K2 & Ho).
  { destruct (auto_rollback env t).
    - eexists _, _. split; [by eapply at_state_rolled_back|by left].
    - eexists _, _. split; [exact K1|by right]. }
  revert K2. generalize ((if auto_rollback env t then rolled_back else id) s1). intros s2 K2.
  apply wp_bind, wp_attempt. unfold rollback_maintenance_error.
  apply wp_bind, wp_get. unfold is_autocommit at 1. rewrite (at_state_before _ _ _ _ _ _ K2).
  destruct Ho as [[-> ->]| ->].
  - rewrite bool_decide_true by done. apply wp_fail. apply wp_bind, wp_get.
    unfold is_autocommit. rewrite (at_state_before _ _ _ _ _ _ K2), bool_decide_true by done.
    cbn [negb when]. apply wp_bind, wp_ret, wp_lift_result. exists c. split; [done|].
    do 3 eexists. split; [exact K2|constructor].
  - rewrite bool_decide_false by done. apply wp_bind, wp_attempt.
    eapply wp_mono; [by eapply rollback_spec|]. intros s3 r3 K3. apply wp_bind, wp_get.
    unfold is_autocommit at 1. destruct K3 as [K3|[[e' ->] K3]].
    + rewrite (at_state_before _ _ _ _ _ _ K3), bool_decide_true by done.
      apply wp_mono with (Q := λ s' r, s' = s3 ∧ ∃ e', r = Err e').
      { destruct r3; (split; [done|by eexists]). }
      intros ? r4 [-> [e' ->]]. apply wp_bind, wp_get. unfold is_autocommit.
      rewrite (at_state_before _ _ _ _ _ _ K3), bool_decide_true by done.
      cbn [negb when]. apply wp_bind, wp_ret, wp_lift_result. exists c. split; [done|].
      do 3 eexists. split; [exact K3|constructor].
    + apply wp_fail. apply wp_bind, wp_get. unfold is_autocommit.
      rewrite (at_state_before _ _ _ _ _ _ K3), bool_decide_false by done. cbn [negb when].
      apply wp_bind, wp_modify, wp_lift_result. exists c. split; [done|].
      do 3 eexists. split; [by eapply at_state_set|]. eapply failed_kept; try done. by right.
Qed.

Lemma refuse_admission_spec baseline charge old new c l b s : P c l (Ok b) →
  core s = at_state s0 (files c) (db c) (Some d0) None →
  wp (refuse_admission env baseline w check_files charge old new) s (λ s' r, inner_outcome s' l r).
Proof.
  intros HP Hc. apply wp_bind, wp_attempt. eapply wp_mono; [by eapply rollback_spec|].
  intros s1 r [K1|[[e ->] K1]].
  - destruct r as [u|e].
    + apply wp_ret. exists c. split; [by exists b|done].
    + apply wp_bind, wp_modify, wp_fail. exists c. split; [right; by eexists|].
      do 3 eexists. split; [by eapply at_state_set|]. eapply failed_kept; try done. by left.
  - apply wp_bind, wp_modify, wp_fail. exists c. split; [right; by eexists|].
    do 3 eexists. split; [by eapply at_state_set|]. eapply failed_kept; try done. by right.
Qed.

Lemma finish_error s : wp (finish_transaction env) s (λ s' r, core s' = core s ∧
  match r with Ok _ => True | Err e => requires_reconciliation e = true ∨ left_as_is e = true end).
Proof.
  apply wp_bind, wp_attempt. eapply wp_mono; [apply quiet_files|]. intros s' [[]|e] Hc; [done|].
  apply wp_lift_result. split; [done|]. cbn [map_err]. rewrite requires_reconciliation_at.
  destruct (left_as_is e) eqn:Hl; [right; unfold error_at; by rewrite Hl|].
  left. cbn. by rewrite orb_true_r.
Qed.

Lemma commit_admitted_spec baseline charge c l s : P c l (Ok true) →
  core s = at_state s0 (files c) (db c) (Some d0) None →
  wp (commit_admitted env baseline w check_files charge (witness_value w d0) (witness_value w (db c))) s
    (λ s' r, inner_outcome s' l r).
Proof.
  intros HP Hc. unfold commit_admitted. apply wp_bind, wp_modify. set (u := {| u_witness := w |}).
  apply (at_state_set _ _ _ _ _ _ (Some u)) in Hc.
  apply wp_bind, wp_attempt. eapply wp_mono; [by eapply commit_spec|]. intros s1 r1 K1.
  destruct r1 as [[]|e].
  - destruct K1 as [K1|[[e ?] _]]; [|done]. apply wp_bind, wp_modify.
    rewrite (at_state_unresolved _ _ _ _ _ _ K1). cbn [fmap option_fmap option_map].
    apply (at_state_set _ _ _ _ _ _ (Some (confirm_commit u))) in K1.
    assert (∀ e, requires_reconciliation e = true ∨ check_files = true ∧ left_as_is e = true →
      failure c l e (db c) None (Some (confirm_commit u))) as Hfail.
    { intros e He. by apply failed_confirmed. }
    apply wp_bind, wp_attempt. eapply wp_mono; [apply (quiet_at _ _ _ _ _ _ _ (quiet_len env wal_file) K1)|].
    intros s2 [actual|e] K2.
    2: { apply wp_fail. exists c. split; [right; by eexists|]. do 3 eexists. split; [exact K2|]. by apply Hfail; left. }
    case_decide.
    { apply wp_fail. exists c. split; [right; by eexists|]. do 3 eexists. split; [exact K2|]. by apply Hfail; left. }
    apply wp_bind. destruct check_files eqn:Hcheck.
    + eapply wp_mono; [apply finish_error|]. intros s3 [[]|e] [K3 He]; rewrite K2 in K3.
      * apply wp_ret. exists c. split; [done|]. exists (confirm_commit u). split_and!; done.
      * exists c. split; [right; by eexists|]. do 3 eexists. split; [exact K3|]. apply Hfail. naive_solver.
    + apply wp_ret, wp_ret. exists c. split; [done|]. exists (confirm_commit u). split_and!; done.
  - assert (core s1 = at_state s0 (files c) (db c) (Some d0) (Some u) ∨
            core s1 = at_state s0 (files c) d0 None (Some u) ∨
            core s1 = at_state s0 (files c) (db c) None (Some u)) as K1' by naive_solver.
    apply wp_bind. eapply wp_mono; [by eapply classify_spec|]. intros s2 r2 (e' & -> & K2 & Hold).
    apply wp_bind, wp_modify, wp_fail. exists c. split; [right; by eexists|].
    destruct (requires_reconciliation e') eqn:Hreq.
    + destruct K2 as [K2|[K2|K2]]; do 3 eexists; (split; [exact K2|]);
        (eapply failed_unconfirmed; try done; auto).
    + do 3 eexists. split; [by eapply at_state_set, Hold|]. constructor.
Qed.

Lemma proof_spec baseline s : core s = at_state s0 (files (conn s0)) d0 (Some d0) None →
  wp (proof_of env baseline w body) (s, l0) (λ sl r, ∃ c rb, P c sl.2 rb ∧
    core sl.1 = at_state s0 (files c) (db c) (Some d0) None ∧
    match r with
    | Ok (charge, new) => new = witness_value w (db c) ∧ ∃ b, rb = Ok b ∧ (charge ≠ None → b = true)
    | Err e => True
    end).
Proof.
  intros Hc. unfold proof_of. apply wp_bind, wp_on_apply. eapply wp_mono.
  { apply Hbody; [by eapply at_state_db|by eapply at_state_files]. }
  intros [c l] rb HP. cbn [fst snd] in *.
  assert (core (set_conn c s) = at_state s0 (files c) (db c) (Some d0) None) as K1.
  { exact (f_equal (set_conn {| db := db c; files := files c; clock := 0 |}) Hc). }
  destruct rb as [b|e]; [|by exists c, (Err e)].
  assert (∀ s', core s' = at_state s0 (files c) (db c) (Some d0) None →
    ∃ c' rb, P c' l rb ∧ core s' = at_state s0 (files c') (db c') (Some d0) None ∧ True) as Herr.
  { intros s' Hs'. by exists c, (Ok b). }
  apply wp_bind, wp_on_session. eapply wp_mono; [by eapply witness_at|]. intros s2 [v|e] [K2 Hv]; [|by apply Herr].
  apply wp_bind, wp_on_session. eapply wp_mono; [apply (quiet_at _ _ _ _ _ _ _ (quiet_ask env _) K2)|].
  intros s3 [[[used writes] spills]|e] K3; [|by apply Herr]. case_decide; [by apply wp_fail, Herr|].
  apply wp_bind, wp_on_session. eapply wp_mono; [apply (quiet_at _ _ _ _ _ _ _ (quiet_len env wal_file) K3)|].
  intros s4 [wal|e] K4; [|by apply Herr]. case_decide; [by apply wp_fail, Herr|].
  apply wp_ret. exists c, (Ok b). split; [done|]. split; [done|]. subst v. split; [done|].
  exists b. split; [done|]. by destruct b.
Qed.

Lemma without_spill_spec baseline s : core s = at_state s0 (files (conn s0)) d0 None None →
  wp (commit_maintenance_batch_without_spill env baseline w check_files body) (s, l0)
    (λ sl r, inner_outcome sl.1 sl.2 r).
Proof.
  intros Hc.
  assert (∀ s' e, core s' = at_state s0 (files (conn s0)) d0 None None → inner_outcome s' l0 (Err e)) as Herr.
  { intros s' e Hs'. exists (conn s0). split; [by left|]. do 3 eexists. split; [exact Hs'|constructor]. }
  unfold commit_maintenance_batch_without_spill. apply wp_bind, wp_on_session.
  eapply wp_mono; [apply (quiet_at _ _ _ _ _ _ _ (quiet_ask env _) Hc)|]. intros s1 [[]|e] K1; [|by apply Herr].
  apply wp_bind, wp_on_session. eapply wp_mono; [by eapply begin_spec|]. intros s2 [[]|e] K2; [|by apply Herr].
  apply wp_bind, wp_attempt, wp_on_session. eapply wp_mono; [by eapply witness_at|].
  intros s3 [old|e] [K3 Hold].
  2: { apply (failed_proof_spec _ _ _ (conn s0) l0 _ d0); [by left|done]. }
  apply wp_bind, wp_attempt. eapply wp_mono; [by apply proof_spec|].
  intros [s4 l] r (c & rb & HP & K4 & Hr). cbn [fst snd] in *. destruct r as [[charge new]|e].
  2: { eapply failed_proof_spec; [right; by eexists|done]. }
  destruct Hr as (-> & b & -> & Hcharge). subst old. apply wp_on_session.
  destruct (over_admission env baseline charge) eqn:Hover.
  - eapply wp_mono; [by eapply refuse_admission_spec|done].
  - destruct charge as [n|]; [|done]. rewrite (Hcharge ltac:(done)) in HP.
    eapply wp_mono; [by apply commit_admitted_spec|done].
Qed.

Lemma inner_failure c l e d o u z baseline retry : requires_reconciliation e = true →
  failure c l e d o u →
  failure c l e d o (Some (unrestored z baseline check_files retry u)) ∨ u = None ∧ d = d0 ∧ o = None.
Proof.
  intros He Hf. destruct Hf; [by right|left..].
  - by apply failed_kept.
  - by apply failed_unconfirmed.
  - by apply failed_confirmed; try left.
Qed.
Lemma with_admission_spec : wp (commit_maintenance_batch_with_admission env w check_files body) (s0, l0)
  (λ sl r, outcome_of sl.1 sl.2 r).
Proof.
  pose proof (at_state_self s0 Hidle Hclear) as Hc. fold d0 in Hc.
  assert (∀ s' e, core s' = at_state s0 (files (conn s0)) d0 None None → outcome_of s' l0 (Err e)) as Herr.
  { intros s' e Hs'. exists (conn s0). split; [by left|]. do 3 eexists. split; [exact Hs'|constructor]. }
  unfold commit_maintenance_batch_with_admission. apply wp_bind, wp_on_session.
  eapply wp_mono; [apply (quiet_at _ _ _ _ _ _ _ (quiet_fold env) Hc)|]. intros s1 [baseline|e] K1; [|by apply Herr].
  apply wp_bind, wp_on_session.
  eapply wp_mono; [apply (quiet_at _ _ _ _ _ _ _ (quiet_ask env _) K1)|]. intros s2 [[]|e] K2; [|by apply Herr].
  apply wp_bind, wp_on_session.
  eapply wp_mono; [apply (quiet_at _ _ _ _ _ _ _ (quiet_disable env) K2)|]. intros s3 [[z|f]|e] K3; [|by apply Herr..].
  apply wp_bind, wp_attempt. eapply wp_mono; [by apply without_spill_spec|]. intros [s4 l] r Hr. cbn [fst snd] in *.
  apply wp_bind, wp_attempt, wp_on_session. eapply wp_mono; [apply quiet_restore|]. intros s5 r5 K5.
  set (done := match r with Ok _ => true | Err e => is_admission_failure e end).
  destruct r5 as [[]|e5].
  - apply wp_bind, wp_on_session, wp_modify, wp_lift_result. destruct Hr as [c Hr]. exists c. cbn [fst snd].
    destruct r as [[]|e]; cbn [is_ok].
    + destruct Hr as (HP & u & _ & _ & _ & _ & _ & K4). split; [done|]. rewrite K4 in K5. by eapply at_state_set.
    + destruct Hr as [HP K4]. split; [done|]. rewrite K4 in K5. by eapply at_state_set.
    + destruct Hr as (Hran & d & o & u & K4 & Hf). split; [done|]. exists d, o, u. by rewrite K4 in K5.
  - apply wp_bind, wp_on_session, wp_modify, wp_fail. destruct Hr as [c Hr]. exists c. cbn [fst snd].
    set (e' := Uncertain _ e5). assert (requires_reconciliation e' = true) as He' by done.
    destruct r as [[]|e].
    + destruct Hr as (HP & u & Hu & Hset & Hwit & Hnew & Hcheck & K4). rewrite K4 in K5.
      split; [right; by eexists|]. do 3 eexists.
      rewrite (at_state_unresolved _ _ _ _ _ _ K5). split; [by eapply at_state_set|].
      by apply failed_confirmed; try left.
    + destruct Hr as [[b HP] K4]. rewrite K4 in K5. split; [right; by eexists|]. do 3 eexists.
      rewrite (at_state_unresolved _ _ _ _ _ _ K5). split; [by eapply at_state_set|].
      by apply failed_kept; try left.
    + destruct Hr as (Hran & d & o & u & K4 & Hf). rewrite K4 in K5. split; [done|]. do 3 eexists.
      rewrite (at_state_unresolved _ _ _ _ _ _ K5). split; [by eapply at_state_set|].
      assert (failure c l e' d o u) as Hf'.
      { destruct Hf; [constructor|by apply failed_kept|by apply failed_unconfirmed|].
        by apply failed_confirmed; try left. }
      destruct (inner_failure _ _ _ _ _ _ z baseline (admission_result (Err e)) He' Hf') as [|(-> & -> & ->)]; [done|].
      by apply failed_kept; try left.
Qed.
End outcome.

(** ** Settling it *)

(** What settling does besides forgetting the record, up to the clock. *)
Definition set_file_map (fs : gmap string ReplayFile) (s : Session) : Session :=
  set_conn (set_files fs (conn s)) s.
Definition settled (m : MaintenanceSettlement) (done : bool) (s s' : Session) (t : option RunId) : Prop :=
  match m with
  | IndexedRows => s' = s ∧ t = None
  | Removal id reply => t = None ∧ ∃ kept,
      (kept = checkpoint_files s ∨ done = true ∧ kept = checkpoint_files s ∖ {[id]}) ∧
      s' = set_removed (try_send reply done (replies s)) kept s
  | OutputSettlement path _ before heads metadata terminal =>
      if done then t = terminal ∧
        s' = store_cells (heads ++ match metadata with Some cv => [cv] | None => [] end) s
      else t = None ∧ ∃ f, files (conn s) !! path = Some f ∧
        s' = set_file_map (<[path := resize before f]> (files (conn s))) s
  | ReplayPublication name identity sources => t = None ∧
      if done then s' = set_published name identity (restart_compaction sources (compaction s)) s
      else s' = s ∨ s' = set_file_map (delete name (files (conn s))) s
  | ReplayMove path _ before through => t = None ∧
      if done then s' = set_compaction (moved_through through (compaction s)) s
      else ∃ f, files (conn s) !! path = Some f ∧
        s' = set_file_map (<[path := resize before f]> (files (conn s))) s
  end.

(** The databases a record may stand for: [d], with [o] still to roll back. *)
Definition pending `{!UuidDisplay} (u : UnresolvedMaintenance) (d0 dn d : Db) (o : option Db) : Prop :=
  match u_commit u with
  | NotIssued => d = d0 ∧ o = None ∨ o = Some d0
  | Unconfirmed =>
      u_old u = witness_value (u_witness u) d0 ∧ u_new u = witness_value (u_witness u) dn ∧
      (d = dn ∧ o = Some d0 ∨ d = d0 ∧ o = None ∨ d = dn ∧ o = None)
  | Confirmed => d = dn ∧ o = None
  end.

(** What a failed transaction left stands for the old database or the body's. *)
Lemma failure_pending `{!UuidDisplay, !StateJson, !StorageCodes} {L} (s0 : Session) (w : MaintenanceWitness) check_files
    (P : Store → L → result bool PersistenceError → Prop) c l e d o u :
  failure s0 w check_files P c l e d o (Some u) → ∃ dn,
    (u_commit u = NotIssued ∧ dn = db (conn s0) ∨ P c l (Ok true) ∧ dn = db c) ∧
    (requires_reconciliation e = true ∨ check_files = true ∧ left_as_is e = true) ∧
    (default d o = db (conn s0) ∨ default d o = dn) ∧
    ∀ m, pending (with_settlement m u) (db (conn s0)) dn d o.
Proof.
  unfold pending. cbn. inversion 1 as [|? ? ? Hk1 ? Hk2|? ? ? ? Hk1 ? <- Hold Hnew ? Hk2|? ? Hk1].
  - exists (db (conn s0)). rewrite Hk1. split_and!; [by left|by left| |done].
    left. destruct Hk2 as [[-> ->]| ->]; done.
  - exists (db c). rewrite Hk1. split_and!; [naive_solver|by left| |done].
    destruct Hk2 as [[-> ->]|[[-> ->]|[-> ->]]]; cbn; auto.
  - exists (db c). rewrite Hk1. split_and!; [naive_solver|done|by right|done].
Qed.

Section reconcile.
Context `{!UuidDisplay, !StateJson, !StorageCodes} (env : TxEnv).

Lemma pending_rolled_back u d0 dn d o : pending u d0 dn d o → pending u d0 dn (default d o) None.
Proof. unfold pending. destruct (u_commit u); intros Hp; [| |]; naive_solver. Qed.
(** The verdict names the database. *)
Lemma verdict_exact u d0 dn d b : pending u d0 dn d None →
  verdict u (witness_value (u_witness u) d) = Ok (Some b) → d = (if b then dn else d0).
Proof.
  unfold pending, verdict. destruct (u_commit u).
  - intros [[-> _]|?]; [|done]. by intros [= <-].
  - intros (Hold & Hnew & Hd). repeat case_decide; intros [= <-]; destruct Hd as [[]|[[-> _]|[-> _]]]; congruence.
  - intros [-> _]. case_decide; [|done]. by intros [= <-].
Qed.

Lemma wp_truncate {Q : Session → result unit PersistenceError → Prop} path n s :
  (∀ s' e, core s' = core s → Q s' (Err e)) →
  (∀ s' f, files (conn s) !! path = Some f →
    core s' = set_file_map (<[path := resize n f]> (files (conn s))) (core s) → Q s' (Ok tt)) →
  wp (on_conn (truncate_replay_tail env path n)) s Q.
Proof.
  intros Herr Hok. apply wp_on_conn. unfold truncate_replay_tail, guarded, wp, bind, tick.
  destruct (fault _ _); [by apply Herr|]. cbn. destruct (files (conn s) !! path) as [f|] eqn:Hf; [|by apply Herr].
  by apply Hok with f.
Qed.
Lemma wp_unlink {Q : Session → result unit PersistenceError → Prop} path s :
  (∀ s' e, core s' = core s → Q s' (Err e)) →
  (∀ s', core s' = set_file_map (delete path (files (conn s))) (core s) → Q s' (Ok tt)) →
  wp (on_conn (unlink env path)) s Q.
Proof.
  intros Herr Hok. apply wp_on_conn. unfold unlink, guarded, wp, bind, tick.
  destruct (fault _ _); [by apply Herr|]. cbn. destruct (files (conn s) !! path) as [f|] eqn:Hf; [|by apply Herr].
  by apply Hok.
Qed.
Lemma core_store_cells l s s' : core s' = core s → core (store_cells l s') = store_cells l (core s).
Proof.
  revert s s'. induction l as [|cv l IH]; intros s s' Hc; [done|]. cbn [store_cells].
  apply (IH (store_cell cv s)). exact (f_equal (store_cell cv) Hc).
Qed.

Lemma settle_spec m done s : wp (settle env m done) s (λ s' r,
  match r with Ok t => settled m done (core s) (core s') t | Err _ => core s' = core s end).
Proof.
  assert (∀ name i, quiet (require_path_identity env name i)) as Hq by (intros; apply quiet_require).
  destruct m as [|id reply|path i before heads metadata terminal|name i sources|path i before through]; cbn [settle].
  - by apply wp_ret.
  - apply wp_bind, wp_bind. eapply wp_mono; [apply quiet_never|]. intros s1 [t|e] K1; [|done].
    apply wp_modify, wp_ret. split; [done|]. exists (checkpoint_files (core (set_removed (replies s1)
      (if done && unlink_works env t then checkpoint_files s1 ∖ {[id]} else checkpoint_files s1) s1))).
    split; [|exact (f_equal (λ x, set_removed (try_send reply done (replies x)) _ x) K1)].
    pose proof (f_equal checkpoint_files K1) as Kc. cbn in *. rewrite Kc. destruct done, (unlink_works env t); auto.
  - apply wp_bind. eapply wp_mono; [apply Hq|]. intros s1 [[]|e] K1; [|done]. destruct done.
    + apply wp_bind, wp_modify, wp_ret. split; [done|]. by apply core_store_cells.
    + apply wp_bind, wp_truncate; [by intros s2 e K2; rewrite K2|]. intros s2 f Hf K2. apply wp_ret.
      pose proof (core_files _ _ K1) as Kf. rewrite Kf in Hf, K2. rewrite K1 in K2.
      split; [done|]. by exists f.
  - apply wp_bind. unfold settle_publication. destruct done.
    + apply wp_bind. eapply wp_mono; [apply Hq|]. intros s1 [[]|e] K1; [|done]. apply wp_modify, wp_ret.
      split; [done|]. exact (f_equal (λ x, set_published name i (restart_compaction sources (compaction x)) x) K1).
    + apply wp_bind, wp_attempt. eapply wp_mono; [apply Hq|]. intros s1 [[]|e] K1.
      * apply wp_unlink; [by intros s2 e K2; rewrite K2|]. intros s2 K2. apply wp_ret.
        rewrite (core_files _ _ K1), K1 in K2. split; [done|by right].
      * destruct (is_not_found e); [|by apply wp_fail]. apply wp_ret, wp_ret. split; [done|by left].
  - apply wp_bind, wp_bind. eapply wp_mono; [apply Hq|]. intros s1 [[]|e] K1; [|done]. destruct done.
    + apply wp_modify, wp_ret. split; [done|]. exact (f_equal (λ x, set_compaction (moved_through through (compaction x)) x) K1).
    + apply wp_truncate; [by intros s2 e K2; rewrite K2|]. intros s2 f Hf K2. apply wp_ret.
      pose proof (core_files _ _ K1) as Kf. rewrite Kf in Hf, K2. rewrite K1 in K2.
      split; [done|]. by exists f.
Qed.

(** [reconcile_maintenance] ends the transaction as SQLite did and settles it for that, or
    leaves what a crash would keep and the record as they were. *)
Definition reconciled (s0 : Session) (u : UnresolvedMaintenance) (d0 dn d : Db) (o : option Db)
    (s' : Session) (r : result (option (option RunId)) PersistenceError) : Prop :=
  match r with
  | Ok (Some t) => ∃ done s1, default d o = (if done : bool then dn else d0) ∧
      (done = true → u_commit u ≠ NotIssued) ∧
      settled (u_settlement u) done (at_state s0 (files (conn s0)) (default d o) None (Some u)) s1 t ∧
      core s' = set_unresolved None s1
  | _ => ∃ d' o', core s' = at_state s0 (files (conn s0)) d' o' (Some u) ∧ pending u d0 dn d' o' ∧
      default d' o' = default d o
  end.
Lemma reconcile_spec s0 s u d0 dn d o :
  core s = at_state s0 (files (conn s0)) d o (Some u) → pending u d0 dn d o →
  wp (reconcile_maintenance env) s (λ s' r, reconciled s0 u d0 dn d o s' r).
Proof.
  intros Hc Hp. set (fs := files (conn s0)) in *. unfold reconcile_maintenance.
  assert (∀ s' r, core s' = at_state s0 fs d o (Some u) → match r with Ok (Some _) => False | _ => True end →
    reconciled s0 u d0 dn d o s' r) as Hkeep.
  { intros s' [[t|]|e] Hs' Hr; [done| |]; by exists d, o. }
  apply wp_bind. eapply wp_mono; [apply (quiet_at _ _ _ _ _ _ _ (quiet_identity env) Hc)|].
  intros s1 [[]|e] K1; [|by apply Hkeep]. apply wp_bind, wp_get.
  rewrite (at_state_unresolved _ _ _ _ _ _ K1). apply wp_bind.
  apply wp_mono with (Q := λ s2 r, core s2 = at_state s0 fs (default d o) None (Some u) ∨
    core s2 = at_state s0 fs d o (Some u) ∧ (before_tx s2 = None → o = None)).
  { unfold is_autocommit. rewrite (at_state_before _ _ _ _ _ _ K1). destruct o as [d1|].
    - rewrite bool_decide_false by done. eapply wp_mono; [by eapply rollback_spec|]. intros s2 r [K2|[_ K2]]; [by left|].
      right. split; [done|]. by rewrite (at_state_before _ _ _ _ _ _ K2).
    - rewrite bool_decide_true by done. apply wp_ret. by left. }
  intros s2 r K2. assert (∀ s' r, core s' = core s2 → match r with Ok (Some _) => False | _ => True end →
    reconciled s0 u d0 dn d o s' r) as Hkeep2.
  { intros s' r' Hs' Hr. destruct K2 as [K2|[K2 _]]; [|apply Hkeep; [by rewrite Hs'|done]].
    apply pending_rolled_back in Hp. rewrite K2 in Hs'. destruct r' as [[t|]|e]; [done| |]; by exists (default d o), None. }
  destruct r as [[]|e]; [|by apply Hkeep2]. apply wp_bind, wp_get.
  destruct (is_autocommit s2) eqn:Hauto; [|by apply wp_ret, Hkeep2]. cbn [negb].
  assert (core s2 = at_state s0 fs (default d o) None (Some u)) as K3.
  { apply bool_decide_eq_true in Hauto. destruct K2 as [K2|[K2 Ho]]; [done|]. specialize (Ho Hauto). by subst o. }
  apply wp_bind. eapply wp_mono; [by eapply witness_at|]. intros s3 r [K4 Hv].
  assert (core s3 = core s2) as K5 by (by rewrite K3).
  destruct r as [v|e]; [|by apply Hkeep2]. subst v. apply wp_bind, wp_lift_result.
  destruct (verdict u _) as [[done|]|e] eqn:Hverdict; [|by apply wp_ret, Hkeep2|by apply Hkeep2].
  assert (done = true → u_commit u ≠ NotIssued) as Hissued.
  { intros -> Hni. unfold verdict in Hverdict. by rewrite Hni in Hverdict. }
  apply verdict_exact with (d0 := d0) (dn := dn) in Hverdict; [|by apply pending_rolled_back].
  apply wp_bind. eapply wp_mono.
  { apply quiet_at with (m := if done then _ else _); [|exact K4]. destruct done; [|quiet].
    apply quiet_bind; [apply quiet_len|quiet]. }
  intros s4 [[]|e] K6; [|apply Hkeep2; [by rewrite K3|done]]. apply wp_bind.
  eapply wp_mono.
  { apply quiet_at with (m := match u_cache_spill u with Some z => restore_cache_spill env z | None => _ end); [|exact K6].
    destruct (u_cache_spill u); [apply quiet_restore|quiet]. }
  intros s5 [[]|e] K7; [|apply Hkeep2; [by rewrite K3|done]]. apply wp_bind.
  eapply wp_mono.
  { apply quiet_at with (m := if u_check_files u then validate_files env else _); [|exact K7].
    destruct (u_check_files u); [apply quiet_files|quiet]. }
  intros s6 [[]|e] K8; [|apply Hkeep2; [by rewrite K3|done]]. apply wp_bind.
  eapply wp_mono; [apply settle_spec|]. intros s7 [t|e] K9; [|apply Hkeep2; [by rewrite K3, <-K8|done]].
  rewrite K8 in K9. apply wp_bind, wp_modify, wp_ret. exists done, (core s7). done.
Qed.
End reconcile.
