(* ===== verification/StoreTransactionProps.v ===== *)
(** * Properties of the durable transactions *)

From S2P Require Import Prelude.
From S2P Require Import Protocol.
From S2P Require Import Resources.
From S2P Require Import StorageErrors.
From S2P Require Import ReplayStore.
From S2P Require Import ReplayProps.
From S2P Require Import StoreTransaction.
From S2P Require Import StoreTransactionSpec.

(** ** A COMMIT that answers an error after it happened, for the witness *)

Module TxDemo.
#[export] Instance codes : StorageCodes :=
  {| NOSPC := 28; DQUOT := 122; ACCESS := 13; PERM := 1; NOENT := 2; MFILE := 24; NFILE := 23;
     IOERR_WRITE := 778; IOERR_FSYNC := 1034; IOERR_DIR_FSYNC := 1290; IOERR_TRUNCATE := 1546;
     error_text := λ _, ""%string |}.
Definition disk_error : PersistenceError := Database "disk I/O error" (Some (OtherSqliteCode 10)) (Some 10%Z) None.
Definition host (fails : nat → bool) : TxEnv :=
  {| storage := {| fault := λ t, if fails t then Some disk_error else None; write_leaves := λ _, 0;
                   now_millis := λ n, Z.of_nat n |};
     resources := Resources.DEFAULT; auto_rollback := λ _, false; commit_effect := λ _, CommitHappened;
     rollback_happens := λ _, false; file_sizes := λ _ _, 0;
     checkpoint_tries := λ _ _, {| stop_before := false; stop_after := false;
                                     checkpoint_answer := Ok (0, 0, 0)%Z; wal_len_answer := Ok 0 |};
     cache_status := λ _, (4096, 0, 0); spill_sticks := λ _, false; identity_of := λ _ _, (0, 0);
     unlink_works := λ _, true |}.
Definition session : Session :=
  {| conn := Demo.store; before_tx := None; cache_spill := 1; unresolved := None;
     replay_file := "a.bin"; active_identity := (0, 0); namespace := []; cells := ∅; replies := ∅;
     checkpoint_files := ∅;
     effective := {| effective_database_bytes := 0; effective_replay_bytes := 0; effective_run_bytes := 0 |};
     compaction := {| force_compaction := false; compaction_pending := false;
                      compaction_sources_pending := []; compaction_cursor := 0; replay_cleanup_needed := false |};
     reclaiming_output := ∅ |}.
Definition renamed (d : Db) : Db :=
  {| chunk_rows := chunk_rows d; chunk_sequence := chunk_sequence d; run_rows := run_rows d;
     active_replay_file := "b.bin"; accounting := accounting d |}.
Definition body : M (Store * unit) PersistenceError bool :=
  modify (λ '(c, l), (set_db (renamed (db c)) c, l)) ;;; mret_ true.
End TxDemo.

Section settling.
Context `{!UuidDisplay, !StateJson, !StorageCodes}.

(** The owner tries again, in whatever the host has become, until it knows. *)
Fixpoint reconcile_until (envs : list TxEnv) : SX (option (option RunId)) :=
  match envs with
  | [] => mret_ None
  | env :: envs =>
      let* r := attempt (reconcile_maintenance env) in
      match r with
      | Ok (Some t) => mret_ (Some t)
      | _ => reconcile_until envs
      end
  end.
(** The store once the open transaction is rolled back, and without its record. *)
Definition without_transaction (s : Session) : Session := core (rolled_back s).
(** How [reconcile_until] may end on [s], [dn] being the body's database and [d0] the old one:
    settled for the database SQLite kept, or nothing lost and still recorded. *)
Definition settles (d0 dn : Db) (s s' : Session) (m : MaintenanceSettlement)
    (r : result (option (option RunId)) PersistenceError) : Prop :=
  match r with
  | Ok (Some t) => ∃ done s1, durable s = (if done : bool then dn else d0) ∧
      settled m done (without_transaction s) s1 t ∧ core s' = set_unresolved None s1
  | _ => durable s' = durable s ∧ unresolved s' = unresolved s ∧ files (conn s') = files (conn s)
  end.

Lemma reconcile_until_spec envs s0 s u d0 dn d o :
  core s = at_state s0 (files (conn s0)) d o (Some u) → pending u d0 dn d o →
  wp (reconcile_until envs) s (λ s' r, reconciled s0 u d0 dn d o s' r).
Proof.
  revert s d o. induction envs as [|env envs IH]; intros s d o Hc Hp; cbn [reconcile_until].
  { apply wp_ret. by exists d, o. }
  apply wp_bind, wp_attempt. eapply wp_mono; [by eapply reconcile_spec|]. intros s1 r Hr.
  assert (match r with Ok (Some _) => True | _ => wp (reconcile_until envs) s1 (reconciled s0 u d0 dn d o) end) as Hnext.
  { destruct r as [[t|]|e]; [done| |]; destruct Hr as (d' & o' & K1 & K2 & K3);
      (eapply wp_mono; [by eapply IH|]); intros s2 r2; unfold reconciled; rewrite K3; auto. }
  destruct r as [[t|]|e]; try done.
Qed.

Lemma without_transaction_at s :
  without_transaction s = at_state s (files (conn s)) (durable s) None (unresolved s).
Proof.
  unfold without_transaction, rolled_back, durable. destruct s as [[] [d|] ? ? ? ? ? ? ? ? ? ? ?]; done.
Qed.
Lemma reconcile_until_settles envs s u d0 dn : unresolved s = Some u →
  pending u d0 dn (db (conn s)) (before_tx s) →
  wp (reconcile_until envs) s (λ s' r, settles d0 dn s s' (u_settlement u) r).
Proof.
  intros Hu Hp. pose proof (at_state_refl s) as Hc. rewrite Hu in Hc.
  eapply wp_mono; [by eapply reconcile_until_spec|]. intros s' r Hr.
  assert (∀ d o, core s' = at_state s (files (conn s)) d o (Some u) → default d o = default (db (conn s)) (before_tx s) →
    durable s' = durable s ∧ unresolved s' = unresolved s ∧ files (conn s') = files (conn s)) as Hkept.
  { intros d o K1 K2. unfold durable. rewrite (at_state_before _ _ _ _ _ _ K1), (at_state_db _ _ _ _ _ _ K1).
    by rewrite (at_state_unresolved _ _ _ _ _ _ K1), (at_state_files _ _ _ _ _ _ K1). }
  destruct r as [[t|]|e]; [|destruct Hr as (d & o & K1 & _ & K2); by apply (Hkept d o)..].
  destruct Hr as (done & s1 & K1 & _ & K2 & K3). exists done, s1. by rewrite without_transaction_at, Hu.
Qed.

Context (env : TxEnv).

(** What is known after a transaction of [body] on [c0], [P] being what [body] does. *)
Definition known_or_recorded {L} (c0 : Store) (check_files : bool)
    (P : Store → L → result bool PersistenceError → Prop) (s : Session) (l : L)
    (r : result bool PersistenceError) : Prop :=
  match r with
  | Ok true => ∃ c, P c l (Ok true) ∧ db (conn s) = db c ∧ files (conn s) = files c ∧
      before_tx s = None ∧ unresolved s = None
  | Ok false => db (conn s) = db c0 ∧ before_tx s = None ∧ unresolved s = None
  | Err e =>
      match unresolved s with
      | None => db (conn s) = db c0 ∧ before_tx s = None
      | Some u => ∃ dn,
          (dn = db c0 ∨ ∃ c, P c l (Ok true) ∧ dn = db c) ∧
          (requires_reconciliation e = true ∨ check_files = true ∧ left_as_is e = true) ∧
          (durable s = db c0 ∨ durable s = dn) ∧
          ∀ envs m, let s := set_unresolved (Some (with_settlement m u)) s in
            wp (reconcile_until envs) s (λ s' r', settles (db c0) dn s s' m r')
      end
  end.

(** C13: a durable transaction ends with the old database, with what its body built, or with
    an unresolved record.  However the host fails or delays its statements, its COMMIT, its
    ROLLBACK and the inspections of cache, WAL and files around them,
    [commit_maintenance_batch_with_admission] ends; success means the body's database is
    durable, a refused admission and an error without a record mean the old one is.  With a
    record, which of the two SQLite kept is not known; but however the owner tries
    [reconcile_maintenance] afterwards, under whatever further failures, no attempt changes
    it, and an attempt that answers has settled the transaction for exactly that database:
    output heads published or the uncommitted tail cut, the replay file published or
    unlinked, as the record says. *)
Theorem transaction_settles_as_sqlite_kept_it {L} (s0 : Session) (l0 : L) (w : MaintenanceWitness)
    (check_files : bool) (body : M (Store * L) PersistenceError bool)
    (P : Store → L → result bool PersistenceError → Prop)
    (Hidle : before_tx s0 = None) (Hclear : unresolved s0 = None)
    (Hbody : ∀ c, db c = db (conn s0) → files c = files (conn s0) →
      wp body (c, l0) (λ cl r, P cl.1 cl.2 r)) :
  wp (commit_maintenance_batch_with_admission env w check_files body) (s0, l0)
    (λ sl r, known_or_recorded (conn s0) check_files P sl.1 sl.2 r).
Proof.
  eapply wp_mono; [by apply with_admission_spec|]. intros [s l] r [c Hr]. cbn [fst snd] in *.
  unfold known_or_recorded. destruct r as [[]|e].
  - destruct Hr as [HP K1]. exists c. split; [done|]. rewrite (at_state_db _ _ _ _ _ _ K1).
    by rewrite (at_state_files _ _ _ _ _ _ K1), (at_state_before _ _ _ _ _ _ K1), (at_state_unresolved _ _ _ _ _ _ K1).
  - destruct Hr as [_ K1]. rewrite (at_state_db _ _ _ _ _ _ K1).
    by rewrite (at_state_before _ _ _ _ _ _ K1), (at_state_unresolved _ _ _ _ _ _ K1).
  - destruct Hr as (_ & d & o & u & K1 & Hf). rewrite (at_state_unresolved _ _ _ _ _ _ K1).
    pose proof (at_state_db _ _ _ _ _ _ K1) as Kd. pose proof (at_state_before _ _ _ _ _ _ K1) as Ko.
    destruct u as [u|]; [|by inversion Hf; subst].
    destruct (failure_pending _ _ _ _ _ _ _ _ _ _ Hf) as (dn & Hdn & He & Hd & Hp).
    exists dn. split; [naive_solver|]. split; [done|]. split; [by unfold durable; rewrite Kd, Ko|].
    intros envs m. cbv zeta. apply (reconcile_until_settles envs _ (with_settlement m u)); [done|].
    cbn [conn before_tx set_unresolved]. rewrite Kd, Ko. apply Hp.
Qed.
End settling.

Import Demo TxDemo.
(** SQLite answers an error for a COMMIT that happened: the record stays, and the next
    attempt settles it as committed. *)
Lemma transaction_settles_as_sqlite_kept_it_witness :
  let host := TxDemo.host (λ t, Nat.eqb t 12) in
  let transaction := commit_maintenance_batch_with_admission host WitnessActiveReplay true TxDemo.body in
  let did (c : Store) (_ : unit) r := db c = TxDemo.renamed (db Demo.store) ∧ r = Ok true in
  match transaction (TxDemo.session, tt) with
  | Ret ((s, _), Err e) =>
      u_commit <$> unresolved s = Some Unconfirmed ∧
      match reconcile_until [host; TxDemo.host (λ _, false)] s with
      | Ret (s', Ok (Some None)) => unresolved s' = None ∧ active_replay_file (db (conn s')) = "b.bin"
      | _ => False
      end
  | _ => False
  end ∧
  wp transaction (TxDemo.session, tt)
    (λ sl r, known_or_recorded Demo.store true did sl.1 sl.2 r).
Proof.
  cbv zeta. split; [vm_compute; done|].
  apply (transaction_settles_as_sqlite_kept_it _ TxDemo.session); [done|done|].
  intros c Hc _. apply wp_bind, wp_modify, wp_ret. cbn. by rewrite Hc.
Defined.
