(* ===== verification/StoreAppend.v ===== *)
(** * One durable output transaction

    [persistence.rs], [StateStore::append_transaction_once]: a batch of output, and
    perhaps the terminal state of one Run, appended to the active replay file, indexed
    in one transaction and published to the watermarks that producers read. *)

From S2P Require Import Prelude.
From S2P Require Import Protocol.
From S2P Require Import Resources.
From S2P Require Import StorageErrors.
From S2P Require Import ReplayStore.
From S2P Require Import StoreTransaction.

Definition MAX_TRANSACTION_PAYLOAD_BYTES : N := 1024 * 1024.
Definition LIFECYCLE_METADATA_RESERVE_BYTES : N := 128.

(** ** Batches *)

(** Output of a Run and the cell its producer reads the durable head from. *)
Definition BatchEntry : Type := RunId * OutputReplay * Cell.
Definition replay_payload (replay : OutputReplay) : N := sumN (λ c, len (data c)) (replay_chunks replay).
Definition batch_payload (batch : list BatchEntry) : N := sumN (λ e, replay_payload e.1.2) batch.

(** [coalesce_batch]: one entry per Run, in the order of their first output. *)
Definition join_replay (existing replay : OutputReplay) : OutputReplay :=
  {| replay_chunks := replay_chunks existing ++ replay_chunks replay;
     replay_first_available_byte := replay_first_available_byte replay;
     replay_latest_output_bytes := replay_latest_output_bytes replay;
     replay_truncated := replay_truncated replay |}.
Fixpoint merge_entry (id : RunId) (replay : OutputReplay) (head : Cell) (merged : list BatchEntry)
    : list BatchEntry :=
  match merged with
  | [] => [(id, replay, head)]
  | (id', existing, head') :: merged =>
      if decide (id' = id) then (id', join_replay existing replay, head') :: merged
      else (id', existing, head') :: merge_entry id replay head merged
  end.
Definition coalesce_batch (batch : list BatchEntry) : list BatchEntry :=
  fold_left (λ merged '(id, replay, head), merge_entry id replay head merged) batch [].

(** [split_chunks]: groups of at most one transaction's payload. *)
Fixpoint split_from (chunks current : list OutputChunk) (bytes : N)
    : result (list (list OutputChunk)) PersistenceError :=
  match chunks with
  | [] => Ok (if decide (current = []) then [] else [current])
  | c :: chunks =>
      if decide (MAX_TRANSACTION_PAYLOAD_BYTES < len (data c)) then
        Err (Mutation ("output range " +:+ range_text c +:+ " exceeds the transaction payload ceiling"))
      else if bool_decide (current ≠ []) &&
              bool_decide (MAX_TRANSACTION_PAYLOAD_BYTES < bytes +sat len (data c)) then
        match split_from chunks [c] (len (data c)) with
        | Ok groups => Ok (current :: groups)
        | Err e => Err e
        end
      else split_from chunks (current ++ [c]) (bytes +sat len (data c))
  end.
Definition split_chunks (chunks : list OutputChunk) : result (list (list OutputChunk)) PersistenceError :=
  split_from chunks [] 0.

(** ** The terminal state of a Run *)

Record TerminalSettlement := {
  term_run : RunId; term_pid : N; term_state : RunState; term_metadata : Cell; term_gap : option N;
}.
Definition state_kind_for (s : RunState) : string :=
  match s with Running => "running" | Exited _ _ => "exited" | Interrupted _ => "interrupted" end.
Definition string_bytes (s : string) : N := N.of_nat (String.length s).
Definition metadata_size (id creation_key spec : string) (lineage : option string) (state epoch : string)
    : N :=
  string_bytes id +sat string_bytes creation_key +sat string_bytes spec
    +sat match lineage with Some l => string_bytes l | None => 0 end
    +sat N.max (string_bytes state) LIFECYCLE_METADATA_RESERVE_BYTES +sat string_bytes epoch.
Definition set_terminal (kind json : string) (now bytes pid : Z) (r : RunRow) : RunRow :=
  {| row_creation_key := row_creation_key r; spec_json := spec_json r;
     lineage_json := lineage_json r; state_kind := kind; state_json := json;
     source_epoch := source_epoch r; row_pid := Some pid;
     durable_first_available_byte := durable_first_available_byte r;
     durable_output_bytes := durable_output_bytes r; replay_bytes := replay_bytes r;
     row_truncated := row_truncated r; row_metadata_bytes := bytes;
     created_at_ms := created_at_ms r; updated_at_ms := now; terminal_at_ms := Some now |}.

(** What the closure leaves for the settlement. *)
Record StagedOutput := {
  cursor_updates : gmap RunId N;
  terminal_metadata : option (Cell * N);
}.

Section append.
Context `{!UuidDisplay, !StateJson, !StorageCodes} (env : TxEnv).

Definition read_run_head (id : RunId) : SM N :=
  let* r := query_row (storage env) (λ d, run_rows d !! id) in
  lift (nonnegative_u64 (durable_output_bytes r) "durable head").

(** An [UPDATE] with a condition, and how many rows it changed. *)
Definition update_running (id : RunId) (f : RunRow → RunRow) : SM N := guarded (storage env) (λ s,
  match run_rows (db s) !! id with
  | Some r =>
      if decide (state_kind r = "running") then
        let d := update_run id f (db s) in
        if decide (constraints d) then Ret (set_db d s, Ok 1) else Ret (s, Err constraint_failed)
      else Ret (s, Ok 0)
  | None => Ret (s, Ok 0)
  end).

Definition write_terminal (t : TerminalSettlement) : SM (Cell * N) :=
  let id := term_run t in
  let kind := state_kind_for (term_state t) in
  let json := encode_state (term_state t) (term_gap t) in
  let* r := query_row (storage env) (λ d, run_rows d !! id) in
  let bytes := metadata_size (show_run_id id) (row_creation_key r) (spec_json r) (lineage_json r)
                 json (source_epoch r) in
  let* n := tick in
  lift_outcome (check "metadata budget fits SQLite" (bool_decide (bytes ≤ i64_max))) ;;;
  let* updated := update_running id
    (set_terminal kind json (now_millis (storage env) n) (Z.of_N bytes) (Z.of_N (term_pid t))) in
  if decide (updated = 1) then mret_ (term_metadata t, bytes)
  else mfail (Mutation ("Run " +:+ show_run_id id +:+ " is not durable running state")).

(** The Runs of a coalesced batch, one after the other. *)
Fixpoint append_runs (batch : list BatchEntry) (limit : N) (w : ReplayFileWriter) (updates : gmap RunId N)
    : SM (ReplayFileWriter * gmap RunId N) :=
  match batch with
  | [] => mret_ (w, updates)
  | (id, replay, _) :: batch =>
      let* '(w, _) := append_replay_with_storage (storage env) id replay w limit in
      let* head := read_run_head id in
      append_runs batch limit w (<[id := head]> updates)
  end.

(** The closure of the transaction; [false] refuses admission. *)
Definition on_store {L A} (k : SM A) : M (Store * L) PersistenceError A := λ '(s, l),
  match k s with Ret (s, r) => Ret ((s, l), r) | Panic w => Panic w end.
Definition row_funding : N := N.max (wal_checkpoint_bytes (resources env) / WAL_FRAME_BYTES) 1.
Definition stage_output (batch : list BatchEntry) (terminal : option TerminalSettlement)
    (limits : EffectiveStoragePolicy) (w : ReplayFileWriter)
    : M (Store * option StagedOutput) PersistenceError bool :=
  let* '(w, updates) := on_store (append_runs (coalesce_batch batch) (effective_run_bytes limits) w ∅) in
  let* funded := on_store (prune_global_replay (storage env) (N.to_nat row_funding)
                             (effective_replay_bytes limits)) in
  if negb funded then mret_ false else
  let* metadata := on_store (match terminal with
                             | Some t => let* m := write_terminal t in mret_ (Some m)
                             | None => mret_ None
                             end) in
  on_store (writer_sync (storage env) w) ;;;
  modify (λ '(s, _), (s, Some {| cursor_updates := updates; terminal_metadata := metadata |})) ;;;
  mret_ true.

(** A transaction with the locals of its closure. *)
Definition with_locals {L A} (l : L) (k : TX L A) : SX (L * A) := λ s,
  match k (s, l) with
  | Ret ((s, l), Ok a) => Ret (s, Ok (l, a))
  | Ret ((s, _), Err e) => Ret (s, Err e)
  | Panic w => Panic w
  end.

Definition witness_runs (batch : list BatchEntry) (terminal : option TerminalSettlement) : list RunId :=
  let ids := map (λ e, e.1.1) batch in
  match terminal with
  | Some t => if decide (term_run t ∈ ids) then ids else ids ++ [term_run t]
  | None => ids
  end.
(** The watermarks a settlement publishes. *)
Definition settled_heads (batch : list BatchEntry) (updates : gmap RunId N) : list (Cell * N) :=
  omap (λ '(id, _, head), (λ value, (head, value)) <$> updates !! id) batch.
Definition output_settlement (path : string) (identity : Identity) (before : N)
    (batch : list BatchEntry) (terminal : option TerminalSettlement) (staged : option StagedOutput)
    : MaintenanceSettlement :=
  let updates := match staged with Some o => cursor_updates o | None => ∅ end in
  OutputSettlement path identity before (settled_heads batch updates)
    (match staged with Some o => terminal_metadata o | None => None end) (term_run <$> terminal).
Definition publish (batch : list BatchEntry) (o : StagedOutput) (s : Session) : Session :=
  store_cells (settled_heads batch (cursor_updates o) ++
               match terminal_metadata o with Some cv => [cv] | None => [] end) s.

(** [append_transaction_once] once its writer is open, and from the opening on. *)
Definition commit_output (batch : list BatchEntry) (terminal : option TerminalSettlement)
    (w : ReplayFileWriter) : SX bool :=
  let* s := get in
  let path := replay_file s in
  let before := next_offset w in
  let* '(staged, committed) := with_locals None
    (attempt (commit_maintenance_batch_with_admission env (WitnessRuns (witness_runs batch terminal)) true
                (stage_output batch terminal (effective s) w))) in
  match committed with
  | Ok true =>
      match staged with
      | None => mpanic "committed staged output has a settlement"
      | Some o => modify (publish batch o) ;;; mret_ true
      end
  | Ok false => on_conn (truncate_replay_tail env path before) ;;; mret_ false
  | Err e =>
      modify (λ s, set_unresolved (with_settlement
        (output_settlement path (active_identity s) before batch terminal staged) <$> unresolved s) s) ;;;
      (if requires_reconciliation e then mret_ tt
       else on_conn (truncate_replay_tail env path before)) ;;;
      mfail e
  end.
Definition write_output (batch : list BatchEntry) (terminal : option TerminalSettlement) : SX bool :=
  let* s := get in
  let* w := on_conn (writer_open (storage env) (replay_file s)) in
  commit_output batch terminal w.
End append.
