(* ===== verification/StoreAppendSpec.v ===== *)
(** * What an output transaction keeps

    Whatever fails, the rows SQLite keeps stay backed by synced bytes of the replay
    files ([recoverable]): a transaction only lets the active file grow, and only a
    tail that no kept row names is ever cut. *)

From S2P Require Import Prelude.
From S2P Require Import Protocol.
From S2P Require Import Resources.
From S2P Require Import StorageErrors.
From S2P Require Import ReplayStore.
From S2P Require Import ReplayStoreSpec.
From S2P Require Import ReplayTables.
From S2P Require Import ReplayAppend.
From S2P Require Import ReplayRead.
From S2P Require Import ReplayPrune.
From S2P Require Import StoreTransaction.
From S2P Require Import StoreTransactionSpec.
From S2P Require Import StoreAppend.

(** ** Growing files *)

(** Only the file [nm] changed, by bytes at its end, and no byte lost its sync. *)
Record grown (nm : string) (fs fs' : gmap string ReplayFile) : Prop := {
  grown_others : ∀ n, n ≠ nm → fs' !! n = fs !! n;
  grown_file : ∀ f, fs !! nm = Some f → ∃ f' x, fs' !! nm = Some f' ∧ contents f' = contents f ++ x ∧
    synced_bytes f ≤ synced_bytes f' ∧ synced_bytes f' ≤ len (contents f');
  grown_new : fs !! nm = None → fs' !! nm = None;
}.
Lemma grown_refl nm fs : files_ok fs → grown nm fs fs.
Proof.
  intros Hok. constructor; [done| |done]. intros f Hf. exists f, []. rewrite app_nil_r.
  split_and!; [done..|]. by apply (Hok nm).
Qed.
Lemma grown_trans nm a b c : grown nm a b → grown nm b c → grown nm a c.
Proof.
  intros [K1 K2 K3] [J1 J2 J3]. constructor; [intros n Hn; by rewrite J1, K1| |auto].
  intros f (f1 & x & Hf1 & Hx & Hs & _)%K2. destruct (J2 _ Hf1) as (f2 & y & Hf2 & Hy & Hs2 & ?).
  exists f2, (x ++ y). split_and!; [done|by rewrite Hy, Hx, app_assoc|lia|done].
Qed.
Lemma grown_extends nm fs fs' : grown nm fs fs' → extends fs fs'.
Proof.
  intros [K1 K2 K3] n f Hf. destruct (decide (n = nm)) as [->|Hn].
  - destruct (K2 _ Hf) as (f' & x & ? & ? & _). by exists f', x.
  - exists f, []. by rewrite K1, app_nil_r.
Qed.
Lemma grown_files_ok nm fs fs' f : files_ok fs → grown nm fs fs' → fs' !! nm = Some f →
  len (contents f) ≤ i64_max → files_ok fs'.
Proof.
  intros Hok [K1 K2 K3] Hf Hlen n f' Hf'. destruct (decide (n = nm)) as [->|Hn].
  - rewrite Hf in Hf'. injection Hf' as <-. split; [done|].
    destruct (fs !! nm) as [f0|] eqn:Hf0; [|by rewrite K3 in Hf].
    destruct (K2 _ eq_refl) as (f1 & x & Hf1 & _ & _ & ?). by rewrite Hf in Hf1; injection Hf1 as <-.
  - rewrite K1 in Hf' by done. by eapply Hok.
Qed.
(** Cutting the tail again. *)
Lemma grown_cut nm fs fs' f f' : files_ok fs → grown nm fs fs' → fs !! nm = Some f → fs' !! nm = Some f' →
  grown nm fs (<[nm := resize (len (contents f)) f']> fs').
Proof.
  intros Hok [K1 K2 K3] Hf Hf'. constructor.
  - intros n Hn. rewrite lookup_insert_ne by done. by apply K1.
  - intros g Hg. rewrite Hf in Hg. injection Hg as <-.
    destruct (K2 _ Hf) as (f1 & x & Hf1 & Hx & Hs & Hl). rewrite Hf' in Hf1. injection Hf1 as <-.
    exists (resize (len (contents f)) f'), []. rewrite lookup_insert_eq. split; [done|].
    unfold resize. cbn [contents synced_bytes]. rewrite app_nil_r, Hx, len_app.
    replace (len (contents f) - (len (contents f) + len x)) with 0 by lia. cbn [N.to_nat replicate].
    rewrite takeN_app_le, takeN_ge, app_nil_r by lia. destruct (Hok _ _ Hf) as [_ ?].
    split_and!; [done|lia|lia].
  - by rewrite Hf.
Qed.
Lemma grown_is_some nm fs fs' : grown nm fs fs' → is_Some (fs !! nm) → is_Some (fs' !! nm).
Proof. intros Hg [f Hf]. destruct (grown_file _ _ _ Hg _ Hf) as (f' & _ & -> & _). done. Qed.
Lemma appends_grown nm id s s' : files_ok (files s) → appends_to nm id s s' → grown nm (files s) (files s') ∨
  files s !! nm = None.
Proof.
  intros Hok [K1 K2 _ _ _ _]. destruct (files s !! nm) as [f|] eqn:Hf; [left|by right]. constructor; [done| |by rewrite Hf].
  intros g Hg. rewrite Hf in Hg. injection Hg as <-. destruct (K2 _ eq_refl) as (x & Hx).
  eexists _, x. split; [exact Hx|]. cbn. split_and!; [done..|]. rewrite len_app. destruct (Hok _ _ Hf). lia.
Qed.

(** ** What a crash finds *)

(** Well formed rows over synced bytes. *)
Definition sound (d : Db) (fs : gmap string ReplayFile) : Prop :=
  store_ok d fs ∧ Forall (row_synced fs) (chunk_rows d).
(** The same, up to bytes past the last one that a row may name. *)
Definition recoverable (nm : string) (d : Db) (fs : gmap string ReplayFile) : Prop :=
  ∃ fs0, sound d fs0 ∧ is_Some (fs0 !! nm) ∧ grown nm fs0 fs.

Lemma row_synced_grown nm fs fs' r : grown nm fs fs' → row_synced fs r → row_synced fs' r.
Proof.
  intros [K1 K2 K3] (f & Hf & Hle). unfold row_synced. destruct (decide (row_file r = nm)) as [Hn|Hn].
  - rewrite Hn in *. destruct (K2 _ Hf) as (f' & x & Hf' & _ & Hs & _). exists f'. split; [done|lia].
  - exists f. by rewrite K1.
Qed.
Lemma sound_grown nm d fs fs' : sound d fs → grown nm fs fs' → files_ok fs' → sound d fs'.
Proof.
  intros [[Ht Hl] Hs] Hg Hok. split; [split; [|done]|].
  - eapply tables_extends; [done|by eapply grown_extends|done].
  - eapply Forall_impl; [exact Hs|]. intros r. by eapply row_synced_grown.
Qed.
Lemma recoverable_grown nm d fs fs' : recoverable nm d fs → grown nm fs fs' → recoverable nm d fs'.
Proof. intros (fs0 & ? & ? & ?) Hg. exists fs0. split_and!; [done..|by eapply grown_trans]. Qed.
Lemma recoverable_sound nm d fs f : recoverable nm d fs → fs !! nm = Some f →
  len (contents f) ≤ i64_max → sound d fs.
Proof.
  intros (fs0 & Hs & _ & Hg) Hf Hl. eapply sound_grown; [done..|]. eapply grown_files_ok; [|done..].
  apply Hs.
Qed.
Lemma recoverable_file nm d fs : recoverable nm d fs → is_Some (fs !! nm).
Proof. intros (fs0 & _ & ? & ?). by eapply grown_is_some. Qed.
Lemma sound_recoverable nm d fs : sound d fs → is_Some (fs !! nm) → recoverable nm d fs.
Proof. intros Hs Hf. exists fs. split_and!; [done..|]. apply grown_refl, Hs. Qed.

(** ** Windows only move forward *)

Lemma absorb_grows replay c w w' : absorb replay c w = Some w' →
  w_head w ≤ w_head w' ∧ len (w_data w') ≤ len (w_data w) + len (data c).
Proof.
  unfold absorb. destruct (well_formed c) eqn:Hwf; [|done]. cbn [negb].
  pose proof (well_formed_ok _ Hwf). unfold w_head.
  repeat (case_decide || case_match); try done; intros [= <-]; cbn [w_floor w_data];
    rewrite ?len_app, ?len_dropN; lia.
Qed.
Lemma absorb_all_grows replay cs w w' : absorb_all replay cs w = Some w' →
  w_head w ≤ w_head w' ∧ len (w_data w') ≤ len (w_data w) + sumN (λ c, len (data c)) cs.
Proof.
  revert w. induction cs as [|c cs IH]; intros w; cbn [absorb_all]; [intros [= <-]; rewrite sumN_nil; lia|].
  destruct (absorb replay c w) as [w1|] eqn:Hc; [|done]. cbn. intros Hw. apply IH in Hw.
  apply absorb_grows in Hc. rewrite sumN_cons. lia.
Qed.
Lemma receive_grows running replay limit w w' : receive running replay limit w = Some w' →
  w_head w ≤ w_head w' ∧ len (w_data w') ≤ len (w_data w) + payload replay.
Proof.
  unfold receive. case_match; [done|]. destruct (absorb_all _ _ _) as [w1|] eqn:Hw; [|done].
  intros [= <-]. apply absorb_all_grows in Hw. unfold keep_last, w_head, payload in *. cbn [w_floor w_data].
  rewrite len_dropN. lia.
Qed.
Lemma window_bounds s id r w : store_ok (db s) (files s) → run_rows (db s) !! id = Some r →
  window_of s id = Some w →
  durable_output_bytes r = Z.of_N (w_head w) ∧ replay_bytes r = Z.of_N (len (w_data w)).
Proof.
  intros [Ht Hl] Hr Hw. destruct (window_of_run _ _ _ _ Hr Hw) as [Hd Hf].
  pose proof (len_span _ _ _ _ (rows_of_ok _ _ id Ht) (Hl _ _ Hr)) as Hlen.
  destruct (tables_runs _ _ Ht _ _ Hr) as (? & ? & ? & ? & _). unfold w_head. rewrite Hd, Hf. lia.
Qed.
Lemma window_of_some s id r : run_rows (db s) !! id = Some r → is_Some (window_of s id).
Proof. unfold window_of. intros ->. by eexists. Qed.

(** ** Coalesced batches *)

Definition entry_of (batch : list BatchEntry) (id : RunId) : option OutputReplay :=
  (λ e, e.1.2) <$> List.find (λ e, bool_decide (e.1.1 = id)) batch.
Lemma entry_of_cons id0 replay head batch id :
  entry_of ((id0, replay, head) :: batch) id = if decide (id0 = id) then Some replay else entry_of batch id.
Proof. unfold entry_of. cbn [List.find fst snd]. case_decide; [by rewrite bool_decide_true|by rewrite bool_decide_false]. Qed.
Definition runs_of (batch : list BatchEntry) : list RunId := map (λ e, e.1.1) batch.
Lemma entry_of_none batch id : id ∉ runs_of batch → entry_of batch id = None.
Proof.
  induction batch as [|[[id0 replay] head] batch IH]; [done|]. cbn [runs_of map fst]. rewrite not_elem_of_cons, entry_of_cons.
  intros [Hne Hn]. rewrite decide_False by done. by apply IH.
Qed.

Lemma batch_payload_cons id replay head batch :
  batch_payload ((id, replay, head) :: batch) = replay_payload replay + batch_payload batch.
Proof. done. Qed.
Lemma merge_entry_runs id replay head merged x : x ∈ runs_of (merge_entry id replay head merged) ↔ x = id ∨ x ∈ runs_of merged.
Proof.
  induction merged as [|[[id' r'] h'] merged IH]; cbn [merge_entry runs_of map fst].
  - rewrite list_elem_of_singleton, elem_of_nil. naive_solver.
  - case_decide as Hid; cbn [map fst]; rewrite !elem_of_cons; [subst; naive_solver|].
    unfold runs_of in IH. rewrite IH. naive_solver.
Qed.
Lemma merge_entry_nodup id replay head merged : NoDup (runs_of merged) → NoDup (runs_of (merge_entry id replay head merged)).
Proof.
  induction merged as [|[[id' r'] h'] merged IH]; cbn [merge_entry runs_of map fst].
  - intros _. repeat constructor. by intros ?%elem_of_nil.
  - intros Hnd. apply NoDup_cons in Hnd as [Hn Hnd]. case_decide as Hid; cbn [map fst]; apply NoDup_cons; [done|].
    split; [|by apply IH]. fold (runs_of (merge_entry id replay head merged)). rewrite merge_entry_runs. naive_solver.
Qed.
Lemma merge_entry_payload id replay head merged :
  batch_payload (merge_entry id replay head merged) = batch_payload merged + replay_payload replay.
Proof.
  induction merged as [|[[id' r'] h'] merged IH]; cbn [merge_entry]; rewrite ?batch_payload_cons.
  - change (batch_payload []) with 0. lia.
  - case_decide; rewrite batch_payload_cons; [|rewrite IH; lia].
    unfold replay_payload, join_replay. cbn [replay_chunks]. rewrite sumN_app. lia.
Qed.
Lemma coalesce_ok batch : NoDup (runs_of (coalesce_batch batch)) ∧
  batch_payload (coalesce_batch batch) = batch_payload batch ∧
  ∀ x, x ∈ runs_of (coalesce_batch batch) ↔ x ∈ runs_of batch.
Proof.
  unfold coalesce_batch. enough (∀ merged, NoDup (runs_of merged) →
    let out := fold_left (λ merged '(id, replay, head), merge_entry id replay head merged) batch merged in
    NoDup (runs_of out) ∧ batch_payload out = batch_payload merged + batch_payload batch ∧
    ∀ x, x ∈ runs_of out ↔ x ∈ runs_of merged ∨ x ∈ runs_of batch) as Hgen.
  { destruct (Hgen [] ltac:(constructor)) as (? & Hp & Hx). split_and!; [done|by rewrite Hp|].
    intros x. rewrite Hx. cbn. rewrite elem_of_nil. naive_solver. }
  induction batch as [|[[id replay] head] batch IH]; intros merged Hnd; cbn [fold_left].
  - split_and!; [done|change (batch_payload []) with 0; lia|]. intros x. cbn. rewrite elem_of_nil. naive_solver.
  - destruct (IH (merge_entry id replay head merged)) as (Hn & Hp & Hx); [by apply merge_entry_nodup|].
    split_and!; [done|rewrite Hp, merge_entry_payload, batch_payload_cons; lia|].
    intros x. rewrite Hx, merge_entry_runs. cbn [runs_of map fst]. rewrite elem_of_cons. naive_solver.
Qed.

(** ** Appending the batch *)

(** No Run goes, changes its identity or loses what its head promises. *)
Record forward (s s' : Store) : Prop := {
  fw_active : active_replay_file (db s') = active_replay_file (db s);
  fw_dom : ∀ id, run_rows (db s) !! id = None → run_rows (db s') !! id = None;
  fw_runs : ∀ id r, run_rows (db s) !! id = Some r → ∃ r', run_rows (db s') !! id = Some r' ∧
    same_identity r r' ∧ (durable_output_bytes r ≤ durable_output_bytes r')%Z;
}.
Lemma forward_refl s : forward s s.
Proof. constructor; [done..|]. intros id r Hr. exists r. split_and!; [done|done|lia]. Qed.
Lemma forward_trans a b c : forward a b → forward b c → forward a c.
Proof.
  intros [K1 K2 K3] [J1 J2 J3]. constructor; [congruence|auto|].
  intros id r (r1 & Hr1 & Hi1 & ?)%K3. destruct (J3 _ _ Hr1) as (r2 & ? & ? & ?). exists r2.
  split_and!; [done|by eapply same_identity_trans|lia].
Qed.
(** Each Run of the batch received its replay; the others kept their window. *)
Definition received (batch : list BatchEntry) (limit : N) (s s' : Store) : Prop := ∀ id r win,
  run_rows (db s) !! id = Some r → window_of s id = Some win →
  match entry_of batch id with
  | None => window_of s' id = Some win ∧ run_rows (db s') !! id = Some r
  | Some replay => ∃ win', receive (bool_decide (state_kind r = "running")) replay limit win = Some win' ∧
      window_of s' id = Some win'
  end.

Lemma total_after nm id s s' r r' : store_ok (db s) (files s) → store_ok (db s') (files s') →
  appends_to nm id s s' → run_rows (db s) !! id = Some r → run_rows (db s') !! id = Some r' →
  total_replay (db s') = (total_replay (db s) - replay_bytes r + replay_bytes r')%Z.
Proof.
  intros [Ht _] [Ht' _] Ha Hr Hr'. unfold total_replay.
  rewrite (tables_account _ _ Ht), (tables_account _ _ Ht'). cbn.
  replace (run_rows (db s')) with (<[id := r']> (run_rows (db s))).
  { apply mapZ_insert_Some, Hr. }
  apply map_eq. intros id'. destruct (decide (id = id')) as [<-|Hne]; [by rewrite lookup_insert_eq|].
  rewrite lookup_insert_ne by done. symmetry. by apply (at_rows _ _ _ _ Ha).
Qed.
Lemma appends_others nm id s s' id' win : store_ok (db s) (files s) → is_Some (files s !! nm) →
  appends_to nm id s s' → id' ≠ id → window_of s id' = Some win → window_of s' id' = Some win.
Proof.
  intros Hok [f Hf] Ha Hne. destruct (at_rows _ _ _ _ Ha id' Hne) as [Hrows Hruns]. unfold window_of.
  rewrite Hrows, Hruns. intros <-. destruct (run_rows (db s) !! id'); [|done]. cbn. do 2 f_equal.
  destruct (appends_grown nm id s s') as [Hg|Hn]; [apply Hok|done| |by rewrite Hf in Hn].
  apply span_extends; [by eapply grown_extends|]. apply rows_of_ok, Hok.
Qed.

Section spec.
Context `{!UuidDisplay, !StateJson, !StorageCodes} (env : TxEnv).

Lemma wp_on_store {L A} (k : SM A) s (l : L) Q :
  wp k s (λ s' r, Q (s', l) r) → wp (on_store k) (s, l) Q.
Proof. unfold wp, on_store. by destruct (k s) as [[s' r]|]. Qed.
Lemma query_only {A} (f : Db → A) s : wp (query (storage env) f) s (λ s' r,
  db s' = db s ∧ files s' = files s ∧ match r with Ok a => a = f (db s) | Err _ => True end).
Proof. apply wp_query; done. Qed.
Lemma query_row_only {A} (f : Db → option A) s : wp (query_row (storage env) f) s (λ s' r,
  db s' = db s ∧ files s' = files s ∧ match r with Ok a => f (db s) = Some a | Err _ => True end).
Proof.
  unfold query_row. apply wp_bind. eapply wp_mono; [apply query_only|]. intros s' [o|e] (Hd & Hf & Ho); [|done].
  subst o. destruct (f (db s)); by split_and!.
Qed.
Lemma read_head_spec id s r : run_rows (db s) !! id = Some r → (0 ≤ durable_output_bytes r)%Z →
  wp (read_run_head env id) s (λ s' h, db s' = db s ∧ files s' = files s ∧
    match h with Ok h => h = Z.to_N (durable_output_bytes r) | Err _ => True end).
Proof.
  intros Hr Hpos. apply wp_bind. eapply wp_mono; [apply query_row_only|]. intros s' [r'|e] (Hd & Hf & Hq); [|done].
  rewrite Hr in Hq. injection Hq as <-. rewrite nonnegative_ok by done. done.
Qed.

(** One Run of the batch. *)
Lemma append_one_spec id replay limit room w s : store_ok (db s) (files s) →
  writer_at (payload replay + room) w s →
  wp (append_replay_with_storage (storage env) id replay w limit) s (λ s' r,
    grown (file_name w) (files s) (files s') ∧
    match r with
    | Err e => True
    | Ok (w', _) => ∃ r win win' r', run_rows (db s) !! id = Some r ∧ window_of s id = Some win ∧
        receive (bool_decide (state_kind r = "running")) replay limit win = Some win' ∧
        window_of s' id = Some win' ∧ run_rows (db s') !! id = Some r' ∧
        store_ok (db s') (files s') ∧ writer_at room w' s' ∧ file_name w' = file_name w ∧
        appends_to (file_name w) id s s'
    end).
Proof.
  intros Hok Hw. destruct (run_rows (db s) !! id) as [r|] eqn:Hr.
  - destruct (window_of_some _ _ _ Hr) as [win Hwin].
    eapply wp_mono; [by eapply append_replay_spec|]. intros s' res [Ha Hres].
    destruct Hw as (_ & _ & f & Hf & _).
    destruct (appends_grown _ _ _ _ (tables_files _ _ (proj1 Hok)) Ha) as [Hg|Hn]; [|by rewrite Hf in Hn].
    split; [done|]. destruct res as [[w' ev]|e]; [|done]. destruct Hres as (Hok' & Hrec & [win' Hwin'] & Hw' & Hn & _).
    rewrite Hwin' in Hrec. destruct (at_run _ _ _ _ Ha _ Hr) as (r' & Hr' & _).
    exists r, win, win', r'. done.
  - unfold append_replay_with_storage. apply wp_bind. eapply wp_mono; [apply query_row_only|].
    intros s' [r|e] (Hd & Hf & Hq); [by rewrite Hr in Hq|]. rewrite Hf. split; [|done].
    apply grown_refl, Hok.
Qed.

Definition appended_all (batch : list BatchEntry) (limit room : N) (u : gmap RunId N) (nm : string) (s : Store)
    (s' : Store) (r : result (ReplayFileWriter * gmap RunId N) PersistenceError) : Prop :=
  grown nm (files s) (files s') ∧
  match r with
  | Err _ => True
  | Ok (w, u') => store_ok (db s') (files s') ∧ writer_at room w s' ∧ file_name w = nm ∧
      forward s s' ∧ rows_from nm (db s) (db s') ∧ received batch limit s s' ∧
      (total_replay (db s') ≤ total_replay (db s) + Z.of_N (batch_payload batch))%Z ∧
      (∀ id, id ∈ runs_of batch → is_Some (run_rows (db s') !! id)) ∧
      ∀ id, u' !! id = match entry_of batch id with
                       | Some _ => (λ r, Z.to_N (durable_output_bytes r)) <$> run_rows (db s') !! id
                       | None => u !! id
                       end
  end.

(** What one Run's append gives the rest of the batch. *)
Lemma appended_one id replay limit nm s s1 r win win1 r1 : store_ok (db s) (files s) →
  store_ok (db s1) (files s1) → is_Some (files s !! nm) → appends_to nm id s s1 →
  run_rows (db s) !! id = Some r → window_of s id = Some win →
  receive (bool_decide (state_kind r = "running")) replay limit win = Some win1 →
  window_of s1 id = Some win1 → run_rows (db s1) !! id = Some r1 →
  forward s s1 ∧ (total_replay (db s1) ≤ total_replay (db s) + Z.of_N (payload replay))%Z.
Proof.
  intros Hok Hok1 Hf Ha Hr Hwin Hrec Hwin1 Hr1.
  destruct (window_bounds _ _ _ _ Hok Hr Hwin) as [Hh Hb].
  destruct (window_bounds _ _ _ _ Hok1 Hr1 Hwin1) as [Hh1 Hb1]. destruct (receive_grows _ _ _ _ _ Hrec) as [? ?].
  split; [|rewrite (total_after _ _ _ _ _ _ Hok Hok1 Ha Hr Hr1); lia].
  constructor; [by apply (at_active _ _ _ _ Ha)| |].
  - intros id' Hn. destruct (decide (id' = id)) as [->|Hne]; [congruence|].
    by rewrite (proj2 (at_rows _ _ _ _ Ha id' Hne)).
  - intros id' r' Hr'. destruct (decide (id' = id)) as [->|Hne].
    + rewrite Hr in Hr'. injection Hr' as <-. destruct (at_run _ _ _ _ Ha _ Hr) as (r2 & Hr2 & Hi).
      rewrite Hr1 in Hr2. injection Hr2 as <-. exists r1. split_and!; [done..|lia].
    + rewrite (proj2 (at_rows _ _ _ _ Ha id' Hne)). exists r'. split_and!; [done..|lia].
Qed.
Lemma received_cons id replay head batch limit nm s s1 s' r win win1 : store_ok (db s) (files s) →
  is_Some (files s !! nm) → appends_to nm id s s1 → id ∉ runs_of batch →
  run_rows (db s) !! id = Some r → window_of s id = Some win →
  receive (bool_decide (state_kind r = "running")) replay limit win = Some win1 →
  window_of s1 id = Some win1 → received batch limit s1 s' →
  received ((id, replay, head) :: batch) limit s s'.
Proof.
  intros Hok Hf Ha Hid Hr Hwin Hrec Hwin1 Hrest id' r' win' Hr' Hwin'. rewrite entry_of_cons.
  destruct (decide (id = id')) as [<-|Hne].
  - rewrite Hr in Hr'. injection Hr' as <-. rewrite Hwin in Hwin'. injection Hwin' as <-.
    exists win1. split; [done|]. destruct (at_run _ _ _ _ Ha _ Hr) as (r1 & Hr1 & _).
    specialize (Hrest _ _ _ Hr1 Hwin1). rewrite entry_of_none in Hrest by done. apply Hrest.
  - apply Hrest; [|by eapply appends_others].
    by rewrite (proj2 (at_rows _ _ _ _ Ha id' (not_eq_sym Hne))).
Qed.
Lemma append_runs_spec batch limit room w u s : NoDup (runs_of batch) → store_ok (db s) (files s) →
  writer_at (batch_payload batch + room) w s →
  wp (append_runs env batch limit w u) s (appended_all batch limit room u (file_name w) s).
Proof.
  revert w u s. induction batch as [|[[id replay] head] batch IH]; intros w u s Hnd Hok Hw; cbn [append_runs].
  { apply wp_ret. split; [apply grown_refl, Hok|]. split_and!; try done; [apply forward_refl|by apply rows_from_refl|..].
    - change (batch_payload []) with 0. lia.
    - by intros id ?%elem_of_nil. }
  apply NoDup_cons in Hnd as [Hid Hnd]. cbn [fst] in Hid. rewrite batch_payload_cons in Hw.
  assert (is_Some (files s !! file_name w)) as Hfile by (destruct Hw as (_ & _ & f & -> & _); done).
  apply wp_bind. eapply wp_mono.
  { apply append_one_spec with (room := batch_payload batch + room); [done|].
    by rewrite N.add_assoc. }
  intros s1 [[w1 ev]|e] [Hg1 Hr1]; [|done].
  destruct Hr1 as (r & win & win1 & r1 & Hr & Hwin & Hrec & Hwin1 & Hr1 & Hok1 & Hw1 & Hn & Ha).
  destruct (appended_one _ _ _ _ _ _ _ _ _ _ Hok Hok1 Hfile Ha Hr Hwin Hrec Hwin1 Hr1) as [Hfw Htot].
  apply wp_bind. eapply wp_mono.
  { apply (read_head_spec id s1 r1 Hr1). destruct (tables_runs _ _ (proj1 Hok1) _ _ Hr1) as (? & ? & _). lia. }
  intros s2 [h|e] (Hd2 & Hf2 & Hh); [|by split; rewrite ?Hf2]. subst h.
  eapply wp_mono.
  { apply IH; [done|by rewrite Hd2, Hf2|]. unfold writer_at in *. by rewrite Hd2, Hf2. }
  rewrite Hn. intros s3 res [Hg3 Hr3]. rewrite Hf2 in Hg3. split; [by eapply grown_trans|].
  destruct res as [[w3 u3]|e]; [|done]. destruct Hr3 as (Hok3 & Hw3 & Hn3 & Hfw3 & Hfrom3 & Hrec3 & Htot3 & Hin3 & Hu3).
  assert (forward s1 s3 ∧ received batch limit s1 s3) as [Hfw3' Hrec3'].
  { split; [destruct Hfw3 as [K1 K2 K3]; constructor; by rewrite <-Hd2|].
    unfold received, window_of in *. rewrite Hd2, Hf2 in Hrec3. exact Hrec3. }
  rewrite Hd2 in Hfrom3. split_and!; try done; [by eapply forward_trans|by eapply rows_from_trans; [apply Ha|]|by eapply received_cons|rewrite batch_payload_cons; rewrite Hd2 in *; unfold replay_payload, payload in *; lia| |].
  { cbn [runs_of map fst]. intros id'. rewrite elem_of_cons. intros [->|?]; [|by apply Hin3].
    destruct (fw_runs _ _ Hfw3' _ _ Hr1) as (r3 & -> & _). done. }
  intros id'. rewrite Hu3, entry_of_cons. destruct (decide (id = id')) as [<-|Hne].
  - rewrite entry_of_none, lookup_insert_eq by done.
    destruct (window_bounds _ _ _ _ Hok1 Hr1 Hwin1) as [Hh1 _].
    specialize (Hrec3' _ _ _ Hr1 Hwin1). rewrite entry_of_none in Hrec3' by done.
    destruct Hrec3' as [_ ->]. done.
  - by rewrite lookup_insert_ne.
Qed.

(** ** The terminal state *)

Definition metadata_of (t : TerminalSettlement) (r : RunRow) : N :=
  metadata_size (show_run_id (term_run t)) (row_creation_key r) (spec_json r) (lineage_json r)
    (encode_state (term_state t) (term_gap t)) (source_epoch r).
(** The row a terminal settlement leaves. *)
Definition terminal_row (t : TerminalSettlement) (now : Z) (r : RunRow) : RunRow :=
  set_terminal (state_kind_for (term_state t)) (encode_state (term_state t) (term_gap t)) now
    (Z.of_N (metadata_of t r)) (Z.of_N (term_pid t)) r.
(** Its metadata is addressable in SQLite. *)
Definition terminal_fits (t : TerminalSettlement) (d : Db) : Prop :=
  ∀ r, run_rows d !! term_run t = Some r → metadata_of t r ≤ i64_max.

Definition after_terminal (t : TerminalSettlement) (now : Z) (d d' : Db) : Prop := ∃ r,
  run_rows d !! term_run t = Some r ∧ state_kind r = "running" ∧
  d' = update_run (term_run t) (terminal_row t now) d.
Lemma terminal_store t now d d' fs : store_ok d fs → after_terminal t now d d' →
  store_ok d' fs ∧ (∀ r, run_rows d !! term_run t = Some r →
    run_rows d' = <[term_run t := terminal_row t now r]> (run_rows d)) ∧ chunk_rows d' = chunk_rows d.
Proof.
  intros [Ht Hl] (r & Hr & _ & ->). destruct (tables_runs _ _ Ht _ _ Hr) as (? & ? & ? & ? & ? & _).
  destruct (update_run_tables d fs (term_run t) r _ (terminal_row t now) Ht Hr eq_refl) as [Ht' Hruns].
  { unfold run_ok, terminal_row. cbn. split_and!; try done; [lia|]. destruct (term_state t); set_solver. }
  { done. }
  split_and!.
  - split; [done|]. intros id' r' Hid. unfold linked. rewrite update_run_rows. rewrite Hruns in Hid.
    apply lookup_insert_Some in Hid as [[<- <-]|[_ Hid]]; [|by apply Hl]. apply (Hl _ _ Hr).
  - intros r' Hr'. rewrite Hr in Hr'. by injection Hr' as <-.
  - unfold update_run. by rewrite Hr.
Qed.
Lemma write_terminal_spec t s : store_ok (db s) (files s) → terminal_fits t (db s) →
  wp (write_terminal env t) s (λ s' res, files s' = files s ∧
    match res with
    | Ok (cell, bytes) => cell = term_metadata t ∧ ∃ now, after_terminal t now (db s) (db s') ∧
        ∀ r, run_rows (db s) !! term_run t = Some r → bytes = metadata_of t r
    | Err _ => True
    end).
Proof.
  intros Hok Hfits. unfold write_terminal. apply wp_bind. eapply wp_mono; [apply query_row_only|].
  intros s1 [r|e] (Hd & Hf & Hr); [|done]. apply wp_bind, wp_tick. apply wp_bind, wp_lift_outcome.
  exists tt. fold (metadata_of t r). rewrite bool_decide_true by by apply Hfits. split; [done|].
  apply wp_bind. unfold update_running. apply wp_guarded; [done|]. unfold wp. cbn [later set_clock db].
  rewrite Hd, Hr. destruct (decide (state_kind r = "running")) as [Hrun|]; [|done].
  set (now := now_millis _ _).
  assert (after_terminal t now (db s) (update_run (term_run t) (terminal_row t now) (db s))) as Hafter.
  { by exists r. }
  destruct (terminal_store _ _ _ _ _ Hok Hafter) as ([Ht _] & _ & _).
  replace (update_run (term_run t) (set_terminal _ _ _ _ _) (db s)) with
    (update_run (term_run t) (terminal_row t now) (db s)).
  2: { unfold update_run. rewrite Hr. done. }
  rewrite decide_True by by eapply tables_constraints. cbn. split; [exact Hf|]. split; [done|].
  exists now. split; [done|]. by intros r' [= ->].
Qed.


(** ** The sync *)

Lemma sync_spec w s : store_ok (db s) (files s) → synced_but w (db s) (files s) →
  is_Some (files s !! file_name w) →
  wp (writer_sync (storage env) w) s (λ s' res, db s' = db s ∧ grown (file_name w) (files s) (files s') ∧
    match res with Ok _ => sound (db s') (files s') | Err _ => True end).
Proof.
  intros Hok Hsync [f Hf]. pose proof (grown_refl (file_name w) (files s) (tables_files _ _ (proj1 Hok))) as Hg.
  unfold writer_sync. destruct (unsynced w) eqn:Hw; cbn [negb].
  2: { apply wp_ret. split_and!; [done|done|]. split; [done|]. eapply Forall_impl; [exact Hsync|].
    intros r [?|[_ ?]]; [done|congruence]. }
  apply wp_guarded; [done|]. apply wp_bind, wp_modify, wp_ret. unfold sync_bytes. cbn [later set_clock files db].
  rewrite Hf. set (fs := <[_ := _]> (files s)).
  assert (grown (file_name w) (files s) fs) as Hgrown.
  { constructor; [intros n Hn; by apply lookup_insert_ne| |by rewrite Hf]. intros g Hfg. rewrite Hf in Hfg. injection Hfg as <-.
    eexists _, []. rewrite app_nil_r. split; [apply lookup_insert_eq|]. cbn. destruct (tables_files _ _ (proj1 Hok) _ _ Hf). done. }
  split; [done|]. split; [done|].
  destruct (tables_files _ _ (proj1 Hok) _ _ Hf) as [Hlen _].
  assert (files_ok fs) as Hfs.
  { eapply grown_files_ok; [apply Hok|done|apply lookup_insert_eq|done]. }
  split.
  { destruct Hok as [Ht Hl]. split; [|done]. eapply tables_extends; [done|by eapply grown_extends|done]. }
  apply Forall_forall. intros r Hr. pose proof (tables_rows _ _ (proj1 Hok)) as Hrows. unfold synced_but in Hsync.
  rewrite Forall_forall in Hsync, Hrows. cbn [db set_files set_clock later] in Hr.
  destruct (Hsync r Hr) as [?|[Hn _]]; [by eapply row_synced_grown|].
  destruct (Hrows r Hr) as (_ & _ & _ & _ & _ & g & Hfg & Hle). rewrite Hn, Hf in Hfg. injection Hfg as <-.
  eexists. rewrite Hn. split; [apply lookup_insert_eq|]. done.
Qed.

(** ** The staged transaction *)

Definition same_head (r r' : RunRow) : Prop := durable_output_bytes r' = durable_output_bytes r.
(** From [s0], the batch was received, then room was made, then the terminal state was set. *)
Definition staged_as (batch : list BatchEntry) (terminal : option TerminalSettlement)
    (limits : EffectiveStoragePolicy) (s0 s : Store) : Prop := ∃ s1 s2 now,
  received (coalesce_batch batch) (effective_run_bytes limits) s0 s1 ∧ forward s0 s1 ∧
  evicts s1 s2 ∧ (total_replay (db s2) ≤ Z.of_N (effective_replay_bytes limits))%Z ∧
  match terminal with None => db s = db s2 | Some t => after_terminal t now (db s2) (db s) end.
Record staged_ok (batch : list BatchEntry) (terminal : option TerminalSettlement)
    (limits : EffectiveStoragePolicy) (s0 s : Store) (o : StagedOutput) : Prop := {
  so_sound : sound (db s) (files s);
  so_staged : staged_as batch terminal limits s0 s;
  so_active : active_replay_file (db s) = active_replay_file (db s0);
  so_forward : ∀ id r, run_rows (db s0) !! id = Some r → ∃ r', run_rows (db s) !! id = Some r' ∧
    (durable_output_bytes r ≤ durable_output_bytes r')%Z;
  so_heads : ∀ id v, cursor_updates o !! id = Some v → ∃ r, run_rows (db s) !! id = Some r ∧
    Z.of_N v = durable_output_bytes r;
  so_updates : ∀ id, id ∈ runs_of batch → is_Some (cursor_updates o !! id);
  so_metadata : match terminal, terminal_metadata o with
    | None, None => True
    | Some t, Some (cell, bytes) => cell = term_metadata t ∧ ∃ r, run_rows (db s) !! term_run t = Some r ∧
        row_metadata_bytes r = Z.of_N bytes
    | _, _ => False
    end;
}.
Definition staged (batch : list BatchEntry) (terminal : option TerminalSettlement)
    (limits : EffectiveStoragePolicy) (nm : string) (s0 s : Store) (l : option StagedOutput)
    (r : result bool PersistenceError) : Prop :=
  grown nm (files s0) (files s) ∧
  match r with
  | Ok true => ∃ o, l = Some o ∧ staged_ok batch terminal limits s0 s o ∧ rows_from nm (db s0) (db s)
  | _ => l = None
  end.

Lemma entry_of_some batch id : id ∈ runs_of batch → is_Some (entry_of batch id).
Proof.
  induction batch as [|[[id0 replay] head] batch IH]; cbn [runs_of map fst]; [by intros ?%elem_of_nil|].
  rewrite elem_of_cons, entry_of_cons. intros [->|Hin]; [rewrite decide_True by done; by eexists|].
  case_decide; [by eexists|by apply IH].
Qed.
Lemma metadata_of_identity t r r' : same_identity r r' → metadata_of t r' = metadata_of t r.
Proof. intros (K1 & K2 & K3 & _ & _ & K6 & _). unfold metadata_of. by rewrite K1, K2, K3, K6. Qed.
Lemma terminal_fits_later t s0 s1 s2 : terminal_fits t (db s0) → forward s0 s1 → evicts s1 s2 →
  terminal_fits t (db s2).
Proof.
  intros Hfits Hfw Hev r2 Hr2. destruct (run_rows (db s0) !! term_run t) as [r|] eqn:Hr.
  - destruct (fw_runs _ _ Hfw _ _ Hr) as (r1 & Hr1 & Hi1 & _). destruct (ev_runs _ _ Hev _ _ Hr1) as (r2' & Hr2' & Hi2 & _).
    assert (r2' = r2) as -> by congruence. rewrite (metadata_of_identity _ _ _ Hi2), (metadata_of_identity _ _ _ Hi1).
    by apply Hfits.
  - pose proof (ev_dom _ _ Hev _ (fw_dom _ _ Hfw _ Hr)). congruence.
Qed.
Lemma terminal_heads t now s2 d id r : store_ok (db s2) (files s2) → after_terminal t now (db s2) d →
  run_rows (db s2) !! id = Some r → ∃ r', run_rows d !! id = Some r' ∧ same_head r r'.
Proof.
  intros Hok Ha Hr. destruct (terminal_store _ _ _ _ _ Hok Ha) as (_ & Hruns & _). destruct Ha as (rt & Hrt & _).
  rewrite (Hruns _ Hrt). destruct (decide (term_run t = id)) as [<-|Hne].
  - rewrite lookup_insert_eq. eexists. split; [done|]. rewrite Hrt in Hr. by injection Hr as <-.
  - rewrite lookup_insert_ne by done. by exists r.
Qed.
Lemma staged_parts batch terminal limits s0 s1 s2 s now updates metadata :
  received (coalesce_batch batch) (effective_run_bytes limits) s0 s1 → forward s0 s1 → evicts s1 s2 →
  store_ok (db s2) (files s2) → (total_replay (db s2) ≤ Z.of_N (effective_replay_bytes limits))%Z →
  match terminal with None => db s = db s2 | Some t => after_terminal t now (db s2) (db s) end →
  match terminal, metadata with
  | None, None => True
  | Some t, Some (cell, bytes) => cell = term_metadata t ∧
      ∀ r, run_rows (db s2) !! term_run t = Some r → bytes = metadata_of t r
  | _, _ => False
  end →
  (∀ id, updates !! id = match entry_of (coalesce_batch batch) id with
     | Some _ => (λ r, Z.to_N (durable_output_bytes r)) <$> run_rows (db s1) !! id | None => None end) →
  (∀ id r, run_rows (db s1) !! id = Some r → (0 ≤ durable_output_bytes r)%Z) →
  (∀ id, id ∈ runs_of batch → is_Some (run_rows (db s1) !! id)) →
  sound (db s) (files s) →
  staged_ok batch terminal limits s0 s {| cursor_updates := updates; terminal_metadata := metadata |}.
Proof.
  intros Hrec Hfw Hev Hok2 Htot Hterm Hmeta Hup Hpos Hin Hsound.
  assert (∀ id r, run_rows (db s2) !! id = Some r → ∃ r', run_rows (db s) !! id = Some r' ∧ same_head r r') as Hlast.
  { intros id r Hr. destruct terminal as [t|]; [by eapply terminal_heads|]. rewrite Hterm. by exists r. }
  constructor; cbn [cursor_updates StoreAppend.terminal_metadata]; [done|by exists s1, s2, now| | | | |].
  - rewrite <-(fw_active _ _ Hfw), <-(ev_active _ _ Hev). destruct terminal as [t|]; [|by rewrite Hterm].
    destruct Hterm as (r & Hr & _ & ->). unfold update_run. by rewrite Hr.
  - intros id r Hr. destruct (fw_runs _ _ Hfw _ _ Hr) as (r1 & Hr1 & _ & Hle).
    destruct (ev_runs _ _ Hev _ _ Hr1) as (r2 & Hr2 & _ & Hh). destruct (Hlast _ _ Hr2) as (r3 & Hr3 & Hh3).
    exists r3. split; [done|]. rewrite Hh3, Hh. done.
  - intros id v Hv. rewrite Hup in Hv. case_match; [|done].
    destruct (run_rows (db s1) !! id) as [r1|] eqn:Hr1; [|done]. injection Hv as <-.
    destruct (ev_runs _ _ Hev _ _ Hr1) as (r2 & Hr2 & _ & Hh). destruct (Hlast _ _ Hr2) as (r3 & Hr3 & Hh3).
    exists r3. split; [done|]. rewrite Hh3, Hh. specialize (Hpos _ _ Hr1). lia.
  - intros id Hid. rewrite Hup. destruct (coalesce_ok batch) as (_ & _ & Hruns).
    destruct (entry_of_some (coalesce_batch batch) id) as [replay ->]; [by apply Hruns|].
    destruct (Hin _ Hid) as [r ->]. by eexists.
  - destruct terminal as [t|], metadata as [[cell bytes]|]; try done. destruct Hmeta as [-> Hbytes]. split; [done|].
    destruct (terminal_store _ _ _ _ _ Hok2 Hterm) as (_ & Hruns & _). destruct Hterm as (r & Hr & _).
    rewrite (Hruns _ Hr), lookup_insert_eq. eexists. split; [done|]. cbn. by rewrite (Hbytes _ Hr).
Qed.

Lemma stage_output_spec batch terminal limits w s : store_ok (db s) (files s) →
  writer_at (batch_payload batch) w s →
  (total_replay (db s) + Z.of_N (batch_payload batch) ≤ Z.of_N i64_max)%Z →
  match terminal with Some t => terminal_fits t (db s) | None => True end →
  wp (stage_output env batch terminal limits w) (s, None)
    (λ sl r, staged batch terminal limits (file_name w) s sl.1 sl.2 r).
Proof.
  intros Hok Hw Htot Hfits. destruct (coalesce_ok batch) as (Hnd & Hpay & Hruns).
  unfold stage_output. apply wp_bind, wp_on_store. eapply wp_mono.
  { apply append_runs_spec with (room := 0); [done|done|]. by rewrite Hpay, N.add_0_r. }
  intros s1 [[w1 updates]|e] [Hg1 Hr1]; [|by split].
  destruct Hr1 as (Hok1 & Hw1 & Hn1 & Hfw & Hfrom & Hrec & Htot1 & Hin & Hup). rewrite Hpay in Htot1.
  assert (∀ s' r, files s' = files s1 → r ≠ Ok true →
    staged batch terminal limits (file_name w) s s' None r) as Hstop.
  { intros s' r Hf Hr. split; [by rewrite Hf|]. by destruct r as [[]|]. }
  apply wp_bind, wp_on_store. eapply wp_mono.
  { apply (prune_global_spec (storage env) _ _ s1 s1); [done|done|lia]. }
  intros s2 [reached|e] [Hf2 Hr2]; [|by apply Hstop].
  destruct Hr2 as [(Hok2 & Hev & _ & Hreached) _].
  destruct reached; [|by apply wp_ret, Hstop]. cbn [negb].
  assert (sound_later : synced_but w1 (db s2) (files s2)) by apply (ev_synced _ _ Hev), Hw1.
  assert (is_Some (files s2 !! file_name w1)) as Hfile.
  { rewrite Hf2. destruct Hw1 as (_ & _ & f & -> & _). done. }
  apply wp_bind, wp_on_store. eapply wp_mono with (Q := λ s3 res, files s3 = files s2 ∧
    match res with Ok metadata => ∃ now,
      match terminal with None => db s3 = db s2 | Some t => after_terminal t now (db s2) (db s3) end ∧
      match terminal, metadata with
      | None, None => True
      | Some t, Some (cell, bytes) => cell = term_metadata t ∧
          ∀ r, run_rows (db s2) !! term_run t = Some r → bytes = metadata_of t r
      | _, _ => False
      end | Err _ => True end).
  { destruct terminal as [t|]; [|by apply wp_ret; split; [|exists 0%Z]]. apply wp_bind. eapply wp_mono.
    { apply write_terminal_spec; [done|by eapply terminal_fits_later]. }
    intros s3 [[cell bytes]|e] [Hf3 Hr3]; [|done]. apply wp_ret. split; [done|]. destruct Hr3 as (? & now & ? & ?).
    exists now. done. }
  intros s3 [metadata|e] [Hf3 Hr3]; [|by apply Hstop; [etrans|]]. destruct Hr3 as (now & Hterm & Hmeta).
  assert (store_ok (db s3) (files s3) ∧ synced_but w1 (db s3) (files s3)) as [Hok3 Hsync3].
  { rewrite Hf3. destruct terminal as [t|]; [|by rewrite Hterm].
    destruct (terminal_store _ _ _ _ _ Hok2 Hterm) as (? & _ & Hrows). unfold synced_but. by rewrite Hrows. }
  apply wp_bind, wp_on_store. eapply wp_mono; [apply sync_spec; [done|done|by rewrite Hf3]|].
  intros s4 [w4|e] (Hd4 & Hg4 & Hr4); rewrite Hf3, Hf2, Hn1 in Hg4; [|by split; [eapply grown_trans|]].
  apply wp_bind, wp_modify, wp_ret. split; [by eapply grown_trans|]. eexists. split; [done|].
  rewrite <-Hd4 in Hterm. assert (rows_from (file_name w) (db s) (db s4)) as Hall.
  { eapply rows_from_trans; [exact Hfrom|]. eapply rows_from_trans; [apply (ev_from _ _ Hev)|]. apply rows_from_refl.
    destruct terminal as [t|]; [|by rewrite Hterm]. by destruct (terminal_store _ _ _ _ _ Hok2 Hterm) as (_ & _ & ?). }
  split; [|exact Hall]. apply (staged_parts batch terminal limits s s1 s2 s4 now updates metadata); try done; [by apply Hreached| |].
  - intros id r Hr. destruct (tables_runs _ _ (proj1 Hok1) _ _ Hr) as (? & ? & _). lia.
  - intros id Hid. by apply Hin, Hruns.
Qed.
End spec.
