(* ===== verification/StoreSession.v ===== *)
(** * The states of a session

    Between its transactions a session is [clear], or [stuck] on one whose outcome is not
    known.  Both keep what a crash would find recoverable and every published watermark at
    or below the durable head of its Run; reconciling leads from the second to the first. *)

From S2P Require Import Prelude.
From S2P Require Import Protocol.
From S2P Require Import StorageErrors.
From S2P Require Import ReplayStore.
From S2P Require Import ReplayStoreSpec.
From S2P Require Import ReplayTables.
From S2P Require Import ReplayAppend.
From S2P Require Import StoreTransaction.
From S2P Require Import StoreTransactionSpec.
From S2P Require Import StoreAppend.
From S2P Require Import StoreAppendSpec.

(** ** Watermarks *)

(** [heads] names the cell each Run's producer reads; a published value is durable. *)
Definition watermarks (heads : gmap RunId Cell) (d : Db) (m : gmap Cell N) : Prop := ∀ id c v,
  heads !! id = Some c → m !! c = Some v →
  ∃ r, run_rows d !! id = Some r ∧ (Z.of_N v ≤ durable_output_bytes r)%Z.
Definition heads_forward (d d' : Db) : Prop := ∀ id r, run_rows d !! id = Some r →
  ∃ r', run_rows d' !! id = Some r' ∧ (durable_output_bytes r ≤ durable_output_bytes r')%Z.
Lemma heads_forward_refl d : heads_forward d d.
Proof. intros id r Hr. exists r. split; [done|lia]. Qed.
Lemma heads_forward_trans a b c : heads_forward a b → heads_forward b c → heads_forward a c.
Proof. intros K1 K2 id r (r1 & Hr1 & ?)%K1. destruct (K2 _ _ Hr1) as (r2 & ? & ?). exists r2. split; [done|lia]. Qed.
Lemma watermarks_forward heads d d' m : heads_forward d d' → watermarks heads d m → watermarks heads d' m.
Proof.
  intros Hf Hw id c v Hc Hv. destruct (Hw _ _ _ Hc Hv) as (r & Hr & Hle).
  destruct (Hf _ _ Hr) as (r' & ? & ?). exists r'. split; [done|lia].
Qed.
Section session.
Context `{!UuidDisplay, !StateJson, !StorageCodes} (heads : gmap RunId Cell).

(** ** The states *)

(** The files still to be migrated are not the active one; of the first no row was passed
    by, and no row is in yet another file.  The cursor is before every row when none is left. *)
Definition within_files (nm : string) (sources : list string) (d : Db) : Prop := ∀ x, x ∈ chunk_rows d →
  row_file x = nm ∨ row_file x ∈ sources.
Definition migrating (c : CompactionState) (nm : string) (d : Db) : Prop :=
  nm ∉ compaction_sources_pending c ∧
  match compaction_sources_pending c with
  | [] => (compaction_cursor c ≤ 0)%Z
  | source :: _ => (∀ x, x ∈ chunk_rows d → row_file x = source → (compaction_cursor c < ordinal x)%Z) ∧
      within_files nm (compaction_sources_pending c) d
  end.
Definition clear (s : Session) : Prop :=
  before_tx s = None ∧ unresolved s = None ∧
  recoverable (replay_file s) (db (conn s)) (files (conn s)) ∧ watermarks heads (db (conn s)) (cells s) ∧
  migrating (compaction s) (replay_file s) (db (conn s)).
Lemma within_from nm sources d d' : rows_from nm d d' → within_files nm sources d → within_files nm sources d'.
Proof. intros Hf Hw x Hx. destruct (Hf _ Hx) as [?|(y & Hy & _ & <-)]; [by left|by apply Hw]. Qed.
Lemma migrating_from c nm d d' : rows_from nm d d' → migrating c nm d → migrating c nm d'.
Proof.
  unfold migrating. intros Hf [Hn Hm]. split; [done|]. destruct (compaction_sources_pending c) as [|source l]; [done|].
  destruct Hm as [Hm Hw]. split; [|by eapply within_from].
  intros x Hx Hxs. destruct (Hf _ Hx) as [Ha|(y & Hy & <- & Hyf)]; [|apply Hm; [done|congruence]].
  destruct Hn. rewrite <-Ha, Hxs. by left.
Qed.
(** Both databases the record may stand for are recoverable, the new one behind no head of
    the old; whichever SQLite kept, settling the record for it leads back to [clear]. *)
Record stuck_on (s : Session) (u : UnresolvedMaintenance) (d0 dn : Db) : Prop := {
  st_record : unresolved s = Some u;
  st_pending : pending u d0 dn (db (conn s)) (before_tx s);
  st_watermarks : watermarks heads d0 (cells s);
  st_old : recoverable (replay_file s) d0 (files (conn s));
  st_new : u_commit u ≠ NotIssued →
    recoverable (replay_file s) dn (files (conn s)) ∧ heads_forward d0 dn;
  st_settles : ∀ (done : bool) s1 t, (done = true → u_commit u ≠ NotIssued) →
    settled (u_settlement u) done
      (at_state s (files (conn s)) (if done then dn else d0) None (Some u)) s1 t →
    clear (set_unresolved None s1) ∧ db (conn s1) = (if done then dn else d0);
}.
Definition stuck (s : Session) : Prop := ∃ u d0 dn, stuck_on s u d0 dn.
Definition standing (s : Session) : Prop := clear s ∨ stuck s.

Lemma core_clear s s' : core s' = core s → clear s → clear s'.
Proof.
  intros Hc (K1 & K2 & K3 & K4 & K5). unfold clear. rewrite (core_before _ _ Hc), (core_unresolved _ _ Hc), (core_db _ _ Hc), (core_files _ _ Hc).
  assert (cells s' = cells s ∧ replay_file s' = replay_file s ∧ compaction s' = compaction s) as (-> & -> & ->); [|done].
  split_and!; [exact (f_equal cells Hc)|exact (f_equal replay_file Hc)|exact (f_equal compaction Hc)].
Qed.
Lemma clear_durable s : clear s → durable s = db (conn s).
Proof. intros (Hb & _). unfold durable. by rewrite Hb. Qed.
Lemma stuck_durable s u d0 dn : stuck_on s u d0 dn →
  durable s = d0 ∨ u_commit u ≠ NotIssued ∧ durable s = dn.
Proof.
  intros Hs. pose proof (st_pending _ _ _ _ Hs) as Hp. unfold durable. revert Hp. unfold pending.
  destruct (u_commit u); intros Hp.
  - destruct Hp as [[-> ->]| ->]; by left.
  - destruct Hp as (_ & _ & [[-> ->]|[[-> ->]|[-> ->]]]); [by left|by left|by right].
  - destruct Hp as [-> ->]. by right.
Qed.
(** Whatever the session is in, a crash finds a recoverable store and no watermark beyond it. *)
Lemma standing_recoverable s : standing s →
  recoverable (replay_file s) (durable s) (files (conn s)) ∧ watermarks heads (durable s) (cells s).
Proof.
  intros [Hc|(u & d0 & dn & Hs)]; [rewrite (clear_durable _ Hc); by destruct Hc as (_ & _ & ? & ? & _)|].
  pose proof (st_watermarks _ _ _ _ Hs) as Hw.
  destruct (stuck_durable _ _ _ _ Hs) as [->|[Hc ->]]; [split; [apply Hs|done]|].
  destruct (st_new _ _ _ _ Hs Hc) as [? Hfw]. split; [done|by eapply watermarks_forward].
Qed.
Lemma standing_clear s : standing s → unresolved s = None → clear s.
Proof. intros [?|(u & d0 & dn & Hs)] Hn; [done|]. by rewrite (st_record _ _ _ _ Hs) in Hn. Qed.
Lemma standing_stuck s : standing s → is_Some (unresolved s) → stuck s.
Proof. intros [(_ & Hn & _)|?] [u Hu]; [congruence|done]. Qed.
Lemma clear_standing s0 s : clear s → db (conn s) = db (conn s0) →
  standing s ∧ heads_forward (db (conn s0)) (durable s).
Proof.
  intros Hc Hd. split; [by left|]. destruct Hc as (Hb & _). unfold durable. rewrite Hb. cbn. rewrite Hd. apply heads_forward_refl.
Qed.

Lemma at_state_rest s0 s fs d o u : core s = at_state s0 fs d o u →
  cells s = cells s0 ∧ replay_file s = replay_file s0 ∧ effective s = effective s0.
Proof.
  intros Hc. split_and!; [exact (f_equal cells Hc)|exact (f_equal replay_file Hc)|exact (f_equal effective Hc)].
Qed.
Lemma at_state_compaction s0 s fs d o u : core s = at_state s0 fs d o u → compaction s = compaction s0.
Proof. intros Hc. exact (f_equal compaction Hc). Qed.

(** ** Settling a record *)

Lemma wp_with_locals {L A} (l : L) (k : TX L A) s (Q : Session → result (L * A) PersistenceError → Prop) :
  wp k (s, l) (λ sl r, Q sl.1 (match r with Ok a => Ok (sl.2, a) | Err e => Err e end)) →
  wp (with_locals l k) s Q.
Proof. unfold wp, with_locals. by destruct (k (s, l)) as [[[s' l'] [a|e]]|]. Qed.

Lemma at_state_again s0 s fs d o u fs' d' o' u' : core s = at_state s0 fs d o u →
  at_state s fs' d' o' u' = at_state s0 fs' d' o' u'.
Proof. intros Hc. exact (f_equal (λ x, at_state x fs' d' o' u') Hc). Qed.
Lemma reconcile_stuck (env : TxEnv) s : stuck s → wp (reconcile_maintenance env) s (λ s' r,
  match r with
  | Ok (Some _) => clear s' ∧ db (conn s') = durable s
  | _ => stuck s' ∧ durable s' = durable s
  end).
Proof.
  intros (u & d0 & dn & Hs). pose proof (at_state_refl s) as Hc.
  rewrite (st_record _ _ _ _ Hs) in Hc. eapply wp_mono; [eapply reconcile_spec; [exact Hc|apply Hs]|].
  intros s' r Hr. assert (match r with Ok (Some _) => True | _ => stuck s' ∧ durable s' = durable s end) as Hstay.
  { destruct r as [[t|]|e]; [done| |]; destruct Hr as (d' & o' & K1 & K2 & K3).
    all: assert (durable s' = durable s) as Hdur by
      (unfold durable; by rewrite (at_state_before _ _ _ _ _ _ K1), (at_state_db _ _ _ _ _ _ K1)).
    all: split; [|done]; destruct (at_state_rest _ _ _ _ _ _ K1) as (Hcells & Hname & _).
    all: exists u, d0, dn; destruct Hs as [L1 L2 L3 L4 L5 L6]; constructor;
      rewrite ?(at_state_unresolved _ _ _ _ _ _ K1), ?(at_state_db _ _ _ _ _ _ K1), ?(at_state_before _ _ _ _ _ _ K1),
        ?(at_state_files _ _ _ _ _ _ K1), ?Hcells, ?Hname; try done.
    all: intros done s1 t Hd; rewrite (at_state_again _ _ _ _ _ _ _ _ _ _ K1); by apply L6. }
  destruct r as [[t|]|e]; [|exact Hstay..]. destruct Hr as (done & s1 & K1 & K2 & K3 & K4).
  assert (default (db (conn s)) (before_tx s) = durable s) as Hdur by done. rewrite Hdur in *. rewrite K1 in *.
  destruct (st_settles _ _ _ _ Hs done s1 t K2 K3) as [Hclear Hd]. split; [eapply core_clear; [exact (f_equal core K4)|exact Hclear]|].
  rewrite <-Hd. exact (f_equal (λ x, db (conn x)) K4).
Qed.
End session.
