(* ===== verification/StoreAppendSession.v ===== *)
(** * Output transactions and the session

    Writing output leads a [clear] session to a clear one, or to a standing one whose
    record settles to publish the new heads or to cut the uncommitted tail. *)

From S2P Require Import Prelude.
From S2P Require Import Protocol.
From S2P Require Import Resources.
From S2P Require Import StorageErrors.
From S2P Require Import ReplayStore.
From S2P Require Import ReplayStoreSpec.
From S2P Require Import ReplayTables.
From S2P Require Import ReplayAppend.
From S2P Require Import ReplayPrune.
From S2P Require Import StoreTransaction.
From S2P Require Import StoreTransactionSpec.
From S2P Require Import StoreAppend.
From S2P Require Import StoreAppendSpec.
From S2P Require Import StoreSession.

(** ** What a batch publishes *)

(** Values that may be published over [d]. *)
Definition publishable (heads : gmap RunId Cell) (d : Db) (l : list (Cell * N)) : Prop := ∀ c v id,
  (c, v) ∈ l → heads !! id = Some c →
  ∃ r, run_rows d !! id = Some r ∧ (Z.of_N v ≤ durable_output_bytes r)%Z.
Lemma watermarks_publish heads d l s : watermarks heads d (cells s) → publishable heads d l →
  watermarks heads d (cells (store_cells l s)).
Proof.
  revert s. induction l as [|[c v] l IH]; intros s Hw Hl; [done|]. cbn [store_cells].
  apply IH; [|intros c' v' id Hin; apply Hl; by right].
  intros id c' v' Hc Hv. cbn [cells store_cell set_cells fst snd] in Hv.
  destruct (decide (c = c')) as [<-|Hne].
  - rewrite lookup_insert_eq in Hv. injection Hv as <-. eapply Hl; [by left|done].
  - rewrite lookup_insert_ne in Hv by done. by eapply Hw.
Qed.
Lemma store_cells_frame l s : conn (store_cells l s) = conn s ∧ before_tx (store_cells l s) = before_tx s ∧
  unresolved (store_cells l s) = unresolved s ∧ replay_file (store_cells l s) = replay_file s ∧
  compaction (store_cells l s) = compaction s.
Proof. revert s. induction l as [|cv l IH]; intros s; cbn [store_cells]; [done|]. apply (IH (store_cell cv s)). Qed.

Lemma store_cells_cells l a b : cells a = cells b → cells (store_cells l a) = cells (store_cells l b).
Proof.
  revert a b. induction l as [|cv l IH]; intros a b Hab; [done|]. cbn [store_cells]. apply IH. cbn. by rewrite Hab.
Qed.

(** Cells are not shared, and the batch writes to its Runs' own. *)
Record owned (heads : gmap RunId Cell) (batch : list BatchEntry) (terminal : option TerminalSettlement) : Prop := {
  owned_once : ∀ id id' c, heads !! id = Some c → heads !! id' = Some c → id = id';
  owned_batch : ∀ id replay c, (id, replay, c) ∈ batch → heads !! id = Some c;
  owned_metadata : ∀ t id c, terminal = Some t → heads !! id = Some c → c ≠ term_metadata t;
}.
Section session.
Context `{!UuidDisplay, !StateJson, !StorageCodes}.

Lemma settled_publishable heads batch terminal limits s0 s o : owned heads batch terminal →
  staged_ok batch terminal limits s0 s o →
  publishable heads (db s) (settled_heads batch (cursor_updates o) ++
    match terminal_metadata o with Some cv => [cv] | None => [] end).
Proof.
  intros Ho Hs c v id [Hin|Hin]%elem_of_app Hc.
  - apply list_elem_of_omap in Hin as ([[id0 replay] c0] & Hin & Hv).
    destruct (cursor_updates o !! id0) as [v0|] eqn:Hv0; [|done]. injection Hv as -> ->.
    pose proof (owned_batch _ _ _ Ho _ _ _ Hin) as Hc0. assert (id0 = id) as -> by by eapply (owned_once _ _ _ Ho).
    destruct (so_heads _ _ _ _ _ _ Hs _ _ Hv0) as (r & Hr & Heq). exists r. split; [done|lia].
  - pose proof (so_metadata _ _ _ _ _ _ Hs) as Hm. destruct (StoreAppend.terminal_metadata o) as [[c' v']|]; [|by apply elem_of_nil in Hin].
    apply list_elem_of_singleton in Hin. injection Hin as -> ->. destruct terminal as [t|]; [|done].
    destruct Hm as [-> _]. by destruct (owned_metadata _ _ _ Ho _ _ _ eq_refl Hc).
Qed.

(** ** Writing output *)

Context (env : TxEnv) (heads : gmap RunId Cell).

Lemma writer_open_spec nm c : wp (writer_open (storage env) nm) c (λ c' r,
  db c' = db c ∧ files c' = files c ∧
  match r with
  | Ok w => file_name w = nm ∧ valid_replay_file_name nm = true ∧ unsynced w = false ∧
      next_offset w = len_of_file nm c
  | Err _ => True
  end).
Proof.
  unfold writer_open, validate_replay_file_name, lift. apply wp_bind, wp_lift_result.
  destruct (valid_replay_file_name nm); [|done]. apply wp_bind. unfold validate_state_file, file_len.
  apply wp_guarded; [done|]. unfold wp at 1. cbn [later set_clock files].
  destruct (files c !! nm); [|done]. by apply wp_bind, wp_guarded; [|apply wp_ret].
Qed.
(** The output fits the file, the accounting and SQLite's integers. *)
Definition output_fits (batch : list BatchEntry) (terminal : option TerminalSettlement) (s : Session) : Prop :=
  (∀ f, files (conn s) !! replay_file s = Some f → len (contents f) + batch_payload batch ≤ i64_max) ∧
  (total_replay (db (conn s)) + Z.of_N (batch_payload batch) ≤ Z.of_N i64_max)%Z ∧
  match terminal with Some t => terminal_fits t (db (conn s)) | None => True end.

(** A transaction that is known to have left the old database: the tail may be cut or stay. *)
Lemma clear_again s0 s fs f0 : clear heads s0 → core s = at_state s0 fs (db (conn s0)) None None →
  sound (db (conn s0)) (files (conn s0)) → files (conn s0) !! replay_file s0 = Some f0 →
  grown (replay_file s0) (files (conn s0)) fs → clear heads s.
Proof.
  intros (_ & _ & Hr & Hw & Hm) Hc Hs Hf Hg. destruct (at_state_rest _ _ _ _ _ _ Hc) as (Hcells & Hfile & _).
  unfold clear. rewrite (at_state_before _ _ _ _ _ _ Hc), (at_state_unresolved _ _ _ _ _ _ Hc).
  rewrite (at_state_db _ _ _ _ _ _ Hc), (at_state_files _ _ _ _ _ _ Hc), (at_state_compaction _ _ _ _ _ _ Hc), Hcells, Hfile.
  split; [done|]. split; [done|]. split; [|done]. by eapply recoverable_grown.
Qed.
Lemma cut_clear s0 s fs f0 (Q : Session → result unit PersistenceError → Prop) :
  clear heads s0 → core s = at_state s0 fs (db (conn s0)) None None →
  sound (db (conn s0)) (files (conn s0)) → files (conn s0) !! replay_file s0 = Some f0 →
  grown (replay_file s0) (files (conn s0)) fs →
  (∀ s' r, clear heads s' → db (conn s') = db (conn s0) → cells s' = cells s0 → Q s' r) →
  wp (on_conn (truncate_replay_tail env (replay_file s0) (len (contents f0)))) s Q.
Proof.
  intros Hclear Hc Hs Hf Hg HQ. apply wp_truncate.
  - intros s' e Hs'. rewrite Hc in Hs'. destruct (at_state_rest _ _ _ _ _ _ Hs') as (? & _ & _).
    apply HQ; [by eapply clear_again|by eapply at_state_db|done].
  - intros s' f Hf' Hs'. rewrite (at_state_files _ _ _ _ _ _ Hc) in Hf', Hs'. rewrite Hc in Hs'.
    destruct (at_state_rest s0 s' (<[replay_file s0 := resize (len (contents f0)) f]> fs) (db (conn s0)) None None) as (? & _ & _); [exact Hs'|].
    assert (core s' = at_state s0 (<[replay_file s0 := resize (len (contents f0)) f]> fs) (db (conn s0)) None None) as Hs2
      by exact Hs'.
    apply HQ; [|exact (at_state_db _ _ _ _ _ _ Hs2)|done]. eapply clear_again; [done|exact Hs2|done|done|].
    apply grown_cut; [|done..]. apply Hs.
Qed.

(** What [write_output] leaves. *)
Definition wrote (batch : list BatchEntry) (terminal : option TerminalSettlement) (s0 s : Session)
    (r : result bool PersistenceError) : Prop :=
  match r with
  | Ok true => clear heads s ∧ ∃ o, staged_ok batch terminal (effective s0) (conn s0) (conn s) o ∧
      cells s = cells (publish batch o s0)
  | Ok false => clear heads s ∧ db (conn s) = db (conn s0) ∧ cells s = cells s0
  | Err e => cells s = cells s0 ∧
      (unresolved s = None → clear heads s ∧ db (conn s) = db (conn s0)) ∧
      (requires_reconciliation e = true → standing heads s ∧ heads_forward (db (conn s0)) (durable s))
  end.

Lemma staged_ok_clock batch terminal limits s0 n s o :
  staged_ok batch terminal limits (set_clock n s0) s o → staged_ok batch terminal limits s0 s o.
Proof.
  intros [K1 K2 K3 K4 K5 K6 K7]. constructor; try done. destruct K2 as (s1 & s2 & now & Hrec & [L1 L2 L3] & Hrest).
  exists s1, s2, now. split; [exact Hrec|]. by split; [constructor|].
Qed.

Section write.
Context (batch : list BatchEntry) (terminal : option TerminalSettlement) (s0 : Session) (f0 : ReplayFile).
Hypotheses (Hclear : clear heads s0) (Hsound : sound (db (conn s0)) (files (conn s0)))
  (Hfile : files (conn s0) !! replay_file s0 = Some f0) (Howned : owned heads batch terminal).
Let nm := replay_file s0.
Let P := staged batch terminal (effective s0) nm (conn s0).

Lemma ran_grown c l : ran s0 None P c l → grown nm (files (conn s0)) (files c).
Proof.
  intros [[-> _]|[r [Hg _]]]; [|done]. apply grown_refl, Hsound.
Qed.
(** Settling an output record publishes the staged values, or cuts the tail. *)
Lemma output_settles c l i u s1 t (done : bool) d : grown nm (files (conn s0)) (files c) →
  d = (if done then db c else db (conn s0)) →
  (done = true → P c l (Ok true)) →
  settled (output_settlement nm i (len (contents f0)) batch terminal l) done (at_state s0 (files c) d None u) s1 t →
  clear heads (set_unresolved None s1) ∧ db (conn s1) = d.
Proof.
  intros Hg Hd Hdone Hset. cbn [settled output_settlement] in Hset. pose proof Hclear as (Hb & Hu & Hr & Hw & Hmig). destruct done.
  - destruct Hset as [_ ->]. destruct (Hdone eq_refl) as [_ (so & -> & Hso & Hfrom)]. subst d.
    set (vs := _ ++ _). destruct (store_cells_frame vs (at_state s0 (files c) (db c) None u)) as (K1 & K2 & _ & K4 & K5).
    split; [|by rewrite K1]. unfold clear. cbn [set_unresolved conn before_tx unresolved replay_file cells compaction]. rewrite K1, K2, K4, K5.
    split; [done|]. split; [done|]. split; [|split; [|by eapply migrating_from]].
    + apply sound_recoverable; [apply Hso|]. eapply grown_is_some; [done|]. by exists f0.
    + apply watermarks_publish; [|by eapply (settled_publishable heads batch terminal _ _ c)].
      by eapply watermarks_forward; [exact (so_forward _ _ _ _ _ _ Hso)|].
  - destruct Hset as (_ & f & Hf & ->). subst d. split; [|done]. split; [done|]. split; [done|]. split; [|done].
    exists (files (conn s0)). split; [done|]. split; [by exists f0|].
    change (grown nm (files (conn s0)) (<[nm := resize (len (contents f0)) f]> (files c))).
    apply grown_cut; [apply Hsound|done..].
Qed.
Lemma failure_stuck c l e d o u i s : ran s0 None P c l →
  failure s0 (WitnessRuns (witness_runs batch terminal)) true P c l e d o (Some u) →
  core s = at_state s0 (files c) d o
    (Some (with_settlement (output_settlement nm i (len (contents f0)) batch terminal l) u)) →
  stuck heads s.
Proof.
  intros Hran Hf Hc. destruct (failure_pending _ _ _ _ _ _ _ _ _ _ Hf) as (dn & Hdn & _ & _ & Hp).
  destruct (at_state_rest _ _ _ _ _ _ Hc) as (Hcells & Hname & _). pose proof (ran_grown _ _ Hran) as Hg.
  assert (∀ b : bool, (b = true → u_commit u ≠ NotIssued) → b = true → P c l (Ok true) ∧ dn = db c) as Hissued.
  { intros b Hb Ht. destruct Hdn as [[Hn _]|?]; [by destruct (Hb Ht)|done]. }
  eexists _, (db (conn s0)), dn. constructor;
    rewrite ?(at_state_unresolved _ _ _ _ _ _ Hc), ?(at_state_db _ _ _ _ _ _ Hc), ?(at_state_before _ _ _ _ _ _ Hc),
      ?(at_state_files _ _ _ _ _ _ Hc), ?Hcells, ?Hname; [done| | | | |].
  - apply Hp.
  - apply Hclear.
  - exists (files (conn s0)). split; [done|]. split; [by exists f0|done].
  - cbn [u_commit with_settlement]. intros Hne. destruct (Hissued true ltac:(done) eq_refl) as [[_ (so & -> & Hso & _)] ->].
    split; [|exact (so_forward _ _ _ _ _ _ Hso)]. apply sound_recoverable; [apply Hso|].
    eapply grown_is_some; [done|]. by exists f0.
  - intros done s1 t Hd Hset. rewrite (at_state_again _ _ _ _ _ _ _ _ _ _ Hc) in Hset.
    eapply output_settles; [done| |by intros Ht; apply (Hissued done Hd Ht)|exact Hset].
    destruct done; [by apply (Hissued true Hd)|done].
Qed.

Lemma failure_forward c l e d o u s : failure s0 (WitnessRuns (witness_runs batch terminal)) true P c l e d o (Some u) →
  db (conn s) = d → before_tx s = o → heads_forward (db (conn s0)) (durable s).
Proof.
  intros Hf Hd Ho. destruct (failure_pending _ _ _ _ _ _ _ _ _ _ Hf) as (dn & Hdn & _ & Hdur & _).
  unfold durable. rewrite Hd, Ho. destruct Hdur as [->| ->]; [apply heads_forward_refl|].
  destruct Hdn as [[_ ->]|[[_ (so & _ & Hso & _)] ->]]; [apply heads_forward_refl|]. exact (so_forward _ _ _ _ _ _ Hso).
Qed.

(** After a COMMIT. *)
Lemma published_clear c o s : staged_ok batch terminal (effective s0) (conn s0) c o →
  grown nm (files (conn s0)) (files c) → rows_from nm (db (conn s0)) (db c) →
  core s = at_state s0 (files c) (db c) None None →
  wrote batch terminal s0 (publish batch o s) (Ok true).
Proof.
  intros Hso Hg Hfrom Hc. destruct (at_state_rest _ _ _ _ _ _ Hc) as (Hcells & Hname & _).
  pose proof (at_state_db _ _ _ _ _ _ Hc) as Hd. pose proof (at_state_files _ _ _ _ _ _ Hc) as Hf.
  unfold publish. set (l := settled_heads _ _ ++ _). destruct (store_cells_frame l s) as (K1 & K2 & K3 & K4 & K5).
  split.
  - unfold clear. rewrite K1, K2, K3, K4, K5, Hd, Hf, Hname, (at_state_compaction _ _ _ _ _ _ Hc).
    rewrite (at_state_before _ _ _ _ _ _ Hc), (at_state_unresolved _ _ _ _ _ _ Hc).
    split; [done|]. split; [done|]. split; [|split; [|by eapply migrating_from; [|apply Hclear]]].
    + apply sound_recoverable; [apply Hso|]. eapply grown_is_some; [done|]. by rewrite Hfile.
    + apply watermarks_publish; [|by eapply settled_publishable]. rewrite Hcells.
      eapply watermarks_forward; [exact (so_forward _ _ _ _ _ _ Hso)|apply Hclear].
  - exists o. rewrite K1. split; [|].
    + destruct Hso as [L1 (s1 & s2 & now & L2) L3 L4 L5 L6 L7]. constructor; rewrite ?Hd, ?Hf; try done.
      exists s1, s2, now. rewrite Hd. exact L2.
    + by apply store_cells_cells.
Qed.

(** The error path of [write_output]. *)
Definition record_output (i : Identity) (l : option StagedOutput) (s : Session) : Session :=
  set_unresolved (with_settlement (output_settlement nm i (len (contents f0)) batch terminal l) <$> unresolved s) s.
Lemma write_failed_spec c l e d o u i s : ran s0 None P c l →
  failure s0 (WitnessRuns (witness_runs batch terminal)) true P c l e d o u →
  core s = at_state s0 (files c) d o u →
  wp (let* _ := if requires_reconciliation e then mret_ tt
                else on_conn (truncate_replay_tail env nm (len (contents f0))) in mfail e)
    (record_output i l s) (wrote batch terminal s0).
Proof.
  intros Hran Hf Hc. pose proof (ran_grown _ _ Hran) as Hg. unfold record_output.
  rewrite (at_state_unresolved _ _ _ _ _ _ Hc). destruct u as [u|].
  - apply (at_state_set _ _ _ _ _ _ (Some (with_settlement (output_settlement nm i (len (contents f0)) batch terminal l) u))) in Hc.
    cbn [fmap option_fmap option_map].
    assert (∀ s' e', core s' = at_state s0 (files c) d o
      (Some (with_settlement (output_settlement nm i (len (contents f0)) batch terminal l) u)) →
      wrote batch terminal s0 s' (Err e')) as Hstuck.
    { intros s' e' Hs'. destruct (at_state_rest _ _ _ _ _ _ Hs') as (? & _ & _). split; [done|].
      rewrite (at_state_unresolved _ _ _ _ _ _ Hs'). split; [done|]. intros _.
      split; [right; by eapply failure_stuck|].
      eapply failure_forward; [done|by eapply at_state_db|by eapply at_state_before]. }
    apply wp_bind. destruct (requires_reconciliation e) eqn:He; [by apply wp_ret, wp_fail, Hstuck|].
    apply wp_truncate; [intros s' e' Hs'; apply Hstuck; by rewrite Hs'|].
    intros s' f _ Hs'. apply wp_fail. rewrite Hc in Hs'.
    assert (cells s' = cells s0 ∧ is_Some (unresolved s')) as [? [u' Hu']].
    { split; [exact (f_equal cells Hs')|]. eexists. exact (f_equal unresolved Hs'). }
    split; [done|]. rewrite Hu'. by rewrite He.
  - assert (d = db (conn s0) ∧ o = None) as [-> ->] by by inversion Hf.
    apply (at_state_set _ _ _ _ _ _ None) in Hc. cbn [fmap option_fmap option_map].
    assert (∀ s' e', clear heads s' → db (conn s') = db (conn s0) → cells s' = cells s0 →
      wrote batch terminal s0 s' (Err e')) as Hdone.
    { intros s' e' Hs' Hd Hcells. split_and!; [done|done|]. intros _. by apply clear_standing. }
    apply wp_bind. destruct (requires_reconciliation e) eqn:He.
    + apply wp_ret, wp_fail. destruct (at_state_rest _ _ _ _ _ _ Hc) as (? & _ & _).
      apply Hdone; [by eapply clear_again|by eapply at_state_db|done].
    + eapply cut_clear; [done..|]. intros s' [[]|e'] ? ? ?; [by apply wp_fail, Hdone|by apply Hdone].
Qed.

Lemma staged_clock n s l r : staged batch terminal (effective s0) nm (set_clock n (conn s0)) s l r → P s l r.
Proof.
  intros [Hg Hr]. split; [exact Hg|]. destruct r as [[]|]; try done. destruct Hr as (o & -> & Hso & Hfrom).
  exists o. split; [done|]. split; [|exact Hfrom]. exact (staged_ok_clock _ _ _ _ _ _ _ Hso).
Qed.
Hypotheses (Htotal : (total_replay (db (conn s0)) + Z.of_N (batch_payload batch) ≤ Z.of_N i64_max)%Z)
  (Hterminal : match terminal with Some t => terminal_fits t (db (conn s0)) | None => True end).
Lemma transaction_spec w : writer_at (batch_payload batch) w (conn s0) → file_name w = nm →
  wp (commit_maintenance_batch_with_admission env (WitnessRuns (witness_runs batch terminal)) true
        (stage_output env batch terminal (effective s0) w)) (s0, None)
    (λ sl r, outcome_of s0 None (WitnessRuns (witness_runs batch terminal)) true P sl.1 sl.2 r).
Proof.
  intros Hw Hn. apply with_admission_spec; [apply Hclear|apply Hclear|]. intros c Hd Hf.
  assert (c = set_clock (clock c) (conn s0)) as ->.
  { destruct c, (conn s0). cbn in *. by subst. }
  pose proof (stage_output_spec env batch terminal (effective s0) w (set_clock (clock c) (conn s0))
    (proj1 Hsound) Hw Htotal Hterminal) as Hst. rewrite Hn in Hst.
  eapply wp_mono; [exact Hst|]. intros cl r Hr. exact (staged_clock _ _ _ _ Hr).
Qed.
Lemma write_committed_spec w : writer_at (batch_payload batch) w (conn s0) → file_name w = nm →
  next_offset w = len (contents f0) →
  wp (commit_output env batch terminal w) s0 (wrote batch terminal s0).
Proof.
  intros Hw Hn Hnext. unfold commit_output. apply wp_bind, wp_get. apply wp_bind, wp_with_locals, wp_attempt. eapply wp_mono.
  { by apply transaction_spec. }
  intros [s1 l] r [c Hr]. cbn [fst snd] in *. rewrite Hnext. destruct r as [[]|e].
  - destruct Hr as [[Hg (so & -> & Hso & Hfrom)] K1]. apply wp_bind, wp_modify, wp_ret. by eapply published_clear.
  - destruct Hr as [[b [Hg _]] K1]. apply wp_bind. eapply cut_clear; [done..|].
    intros s' [[]|e] K2 K3 K4; [by apply wp_ret|]. split_and!; [done|done|]. intros _. by apply clear_standing.
  - destruct Hr as (Hran & d & o & u & K1 & Hf). apply wp_bind, wp_modify. by eapply write_failed_spec.
Qed.

(** A transaction that SQLite committed and whose error counts as not committed: only the
    inspection of the files after COMMIT answers it ([left_as_is]), and the error path then
    cuts the file under the rows, unless the cut fails itself. *)
Definition refused (s : Session) (r : result bool PersistenceError) : Prop :=
  match r with
  | Ok _ => True
  | Err e => is_Some (unresolved s) → requires_reconciliation e = false → ∃ c o u i fs,
      staged_ok batch terminal (effective s0) (conn s0) c o ∧
      grown nm (files (conn s0)) (files c) ∧ u_commit u = Confirmed ∧
      core s = at_state s0 fs (db c) None
        (Some (with_settlement (output_settlement nm i (len (contents f0)) batch terminal (Some o)) u)) ∧
      (fs = files c ∧ (∃ t, fault (storage env) t = Some e) ∨
       left_as_is e = true ∧ ∃ f, files c !! nm = Some f ∧
         fs = <[nm := resize (len (contents f0)) f]> (files c))
  end.
(** Cutting a file that exists fails only as the host says. *)
Lemma wp_truncate_file {Q : Session → result unit PersistenceError → Prop} path n f s :
  files (conn s) !! path = Some f →
  (∀ s' e, core s' = core s → (∃ t, fault (storage env) t = Some e) → Q s' (Err e)) →
  (∀ s', core s' = set_file_map (<[path := resize n f]> (files (conn s))) (core s) → Q s' (Ok tt)) →
  wp (on_conn (truncate_replay_tail env path n)) s Q.
Proof.
  intros Hf Herr Hok. apply wp_on_conn. unfold truncate_replay_tail, guarded, wp, bind, tick.
  destruct (fault _ _) as [e|] eqn:He; [apply Herr; [done|by eexists]|]. cbn. rewrite Hf. by apply Hok.
Qed.
Lemma refused_failure c l e d o u i s :
  failure s0 (WitnessRuns (witness_runs batch terminal)) true P c l e d o u →
  core s = at_state s0 (files c) d o u →
  wp (let* _ := if requires_reconciliation e then mret_ tt
                else on_conn (truncate_replay_tail env nm (len (contents f0))) in mfail e)
    (record_output i l s) refused.
Proof.
  intros Hf Hc. unfold record_output. rewrite (at_state_unresolved _ _ _ _ _ _ Hc).
  apply (at_state_set _ _ _ _ _ _ (with_settlement (output_settlement nm i (len (contents f0)) batch terminal l) <$> u)) in Hc.
  apply wp_bind. destruct (requires_reconciliation e) eqn:He; [apply wp_ret, wp_fail; intros _; by rewrite He|].
  inversion Hf as [|? ? ? ? ? ? ?|? ? ? ? ? ? ? ? ? ? ?|u' HP Hcommit ? ? ? ? Hleft]; subst; try congruence.
  { apply wp_truncate; [intros s' e' Hs'|intros s' f _ Hs'; apply wp_fail]; rewrite Hc in Hs';
      intros [u' Hu']; pose proof (f_equal unresolved Hs') as Hn; cbn in Hn; congruence. }
  destruct Hleft as [|[_ Hleft]]; [congruence|]. destruct HP as [Hg (so & -> & Hso & _)].
  destruct (grown_file _ _ _ Hg _ Hfile) as (f & _ & Hf' & _).
  apply wp_truncate_file with f; [by rewrite (at_state_files _ _ _ _ _ _ Hc)|..].
  - intros s' e' Hs' Hfault _ _. exists c, so, u', i, (files c). split_and!; [done..|by rewrite Hs'|by left].
  - intros s' Hs'. apply wp_fail. intros _ _.
    rewrite (at_state_files _ _ _ _ _ _ Hc) in Hs'. rewrite Hc in Hs'.
    exists c, so, u', i, (<[nm := resize (len (contents f0)) f]> (files c)).
    split_and!; [done..|exact Hs'|]. right. split; [done|]. by exists f.
Qed.
Lemma refused_spec w : writer_at (batch_payload batch) w (conn s0) → file_name w = nm →
  next_offset w = len (contents f0) → wp (commit_output env batch terminal w) s0 refused.
Proof.
  intros Hw Hn Hnext. unfold commit_output. apply wp_bind, wp_get. apply wp_bind, wp_with_locals, wp_attempt. eapply wp_mono.
  { by apply transaction_spec. }
  intros [s1 l] r [c Hr]. cbn [fst snd] in *. rewrite Hnext. destruct r as [[]|e].
  - destruct Hr as [[Hg (so & -> & Hso & Hfrom)] K1]. by apply wp_bind, wp_modify, wp_ret.
  - destruct Hr as [[b [Hg _]] K1]. apply wp_bind. eapply cut_clear; [done..|].
    intros s' [[]|e] K2 K3 K4; [by apply wp_ret|]. destruct K2 as (_ & Hn' & _). intros [? Hu]. congruence.
  - destruct Hr as (Hran & d & o & u & K1 & Hf). apply wp_bind, wp_modify. by eapply refused_failure.
Qed.
End write.

(** Opening the writer first. *)
Lemma wrote_clock batch terminal s n s' r :
  wrote batch terminal (set_conn (set_clock n (conn s)) s) s' r → wrote batch terminal s s' r.
Proof.
  unfold wrote. destruct r as [[]|e]; try done. intros (Hc & o & Hso & Hcells). split; [done|]. exists o.
  split; [exact (staged_ok_clock _ _ _ _ _ _ _ Hso)|]. rewrite Hcells. by apply store_cells_cells.
Qed.
(** Every write starts like this. *)
Lemma wp_write_output batch terminal s (Q : Session → result bool PersistenceError → Prop) :
  clear heads s → output_fits batch terminal s →
  (∀ n e, Q (set_conn (set_clock n (conn s)) s) (Err e)) →
  (∀ n w f0, let s0 := set_conn (set_clock n (conn s)) s in
     files (conn s) !! replay_file s = Some f0 → sound (db (conn s)) (files (conn s)) →
     writer_at (batch_payload batch) w (conn s0) → file_name w = replay_file s →
     next_offset w = len (contents f0) → wp (commit_output env batch terminal w) s0 Q) →
  wp (write_output env batch terminal) s Q.
Proof.
  intros Hclear (Hlen & Htot & Hfits) Herr Hok. unfold write_output. apply wp_bind, wp_get.
  apply wp_bind, wp_on_conn. eapply wp_mono; [apply writer_open_spec|]. intros c r (Hd & Hf & Hr).
  assert (c = set_clock (clock c) (conn s)) as Hcc by (destruct c, (conn s); cbn in *; by subst).
  destruct Hclear as (Hb & Hu & Hrec & Hw). destruct (recoverable_file _ _ _ Hrec) as [f0 Hf0].
  pose proof (Hlen _ Hf0) as Hl. pose proof (recoverable_sound _ _ _ _ Hrec Hf0 ltac:(lia)) as Hsound.
  rewrite Hcc. destruct r as [w|e]; [|apply Herr]. destruct Hr as (Hn & Hvalid & Hsync & Hnext).
  apply (Hok _ _ f0); [done|done| |done|].
  - split; [by rewrite Hn|]. split.
    + eapply Forall_impl; [apply Hsound|]. intros x Hx. by left.
    + exists f0. rewrite Hn. split_and!; [exact Hf0|by rewrite Hnext; unfold len_of_file; rewrite Hf0|lia].
  - rewrite Hnext. unfold len_of_file. by rewrite Hf0.
Qed.
Lemma write_output_spec batch terminal s : clear heads s → owned heads batch terminal →
  output_fits batch terminal s → wp (write_output env batch terminal) s (wrote batch terminal s).
Proof.
  intros Hclear Howned Hfits. apply wp_write_output; [done..| |].
  - intros n e. split; [done|]. split; [done|]. intros _. by apply clear_standing.
  - intros n w f0 s0 Hf0 Hsound Hw Hn Hnext. eapply wp_mono with (Q := wrote batch terminal s0);
      [|intros s' r; apply wrote_clock].
    eapply write_committed_spec; [exact Hclear|exact Hsound|exact Hf0|done|apply Hfits|apply Hfits|done..].
Qed.
Lemma write_output_refused batch terminal s f0 : clear heads s → owned heads batch terminal →
  output_fits batch terminal s → files (conn s) !! replay_file s = Some f0 →
  wp (write_output env batch terminal) s (λ s' r, ∃ n, refused batch terminal (set_conn (set_clock n (conn s)) s) f0 s' r).
Proof.
  intros Hclear Howned Hfits Hfile. apply wp_write_output; [done..| |].
  - intros n e. exists n. intros [u Hu]. destruct Hclear as (_ & Hn & _). cbn in Hu. congruence.
  - intros n w f s0 Hf0 Hsound Hw Hn Hnext. rewrite Hfile in Hf0. injection Hf0 as <-.
    eapply wp_mono; [|intros s' r Hr; exists n; exact Hr].
    eapply refused_spec; [exact Hclear|exact Hsound|exact Hfile|apply Hfits|apply Hfits|done..].
Qed.
End session.
