(* ===== verification/StoreReclaim.v ===== *)
(** * Retiring confirmed output

    [persistence.rs], [StateStore]: the maintenance transactions that retire the oldest
    confirmed replay, and the funding of storage work from what the file system has.
    The rows of one transaction are bounded by what the WAL can hold; when the proof of
    admission refuses, the next try takes half as many. *)

From S2P Require Import Prelude.
From S2P Require Import Protocol.
From S2P Require Import Resources.
From S2P Require Import StorageErrors.
From S2P Require Import ReplayStore.
From S2P Require Import StoreTransaction.
From S2P Require Import StoreAppend.

(** What else the host answers: pages, allocated and available bytes, a fresh UUID, and
    whether shutdown was requested. *)
Record SpaceEnv := {
  tx : TxEnv;
  page_counts : nat → Z * Z * Z;           (* page_count, freelist_count, max_page_count *)
  page_size : nat → Z;
  allocated_replay : nat → N;
  allocated : nat → string → N;
  available_bytes : nat → option N;        (* [None]: the product overflows *)
  fresh_uuid : nat → Store → RunId;       (* v4: may avoid the names in use *)
  stopping : nat → bool;
}.

Definition set_effective (p : EffectiveStoragePolicy) (s : Session) : Session :=
  {| conn := conn s; before_tx := before_tx s; cache_spill := cache_spill s; unresolved := unresolved s;
     replay_file := replay_file s; active_identity := active_identity s; namespace := namespace s;
     cells := cells s; replies := replies s; checkpoint_files := checkpoint_files s;
     effective := p; compaction := compaction s; reclaiming_output := reclaiming_output s |}.
Definition set_reclaiming (l : gset RunId) (s : Session) : Session :=
  {| conn := conn s; before_tx := before_tx s; cache_spill := cache_spill s; unresolved := unresolved s;
     replay_file := replay_file s; active_identity := active_identity s; namespace := namespace s;
     cells := cells s; replies := replies s; checkpoint_files := checkpoint_files s;
     effective := effective s; compaction := compaction s; reclaiming_output := l |}.

(** ** One batch of extents *)

(** [ORDER BY ordinal LIMIT ?]; the rows are in ordinal order. *)
Definition in_target (target : option RunId) (r : ReplayRow) : Prop :=
  match target with Some id => row_run r = id | None => True end.
#[global] Instance in_target_dec target r : Decision (in_target target r).
Proof. destruct target; unfold in_target; apply _. Defined.
Definition oldest_rows (target : option RunId) (rows : nat) (d : Db) : list ReplayRow :=
  take rows (filter (in_target target) (chunk_rows d)).
(** The [scan]: how much of each row goes; [None] where a row of negative length fails the
    source's expectation. *)
Fixpoint shed_plan (remaining : N) (rows : list ReplayRow) : option (list (ReplayRow * Z)) :=
  match rows with
  | [] => Some []
  | r :: rows =>
      if decide (remaining = 0) then Some [] else
      if decide (row_bytes r < 0)%Z then None else
      let shed := N.min remaining (Z.to_N (row_bytes r)) in
      plan ← shed_plan (remaining - shed) rows;
      Some ((r, Z.of_N shed) :: plan)
  end.
(** [retired]: the bytes each Run loses; the order of the map does not matter. *)
Fixpoint retire (id : RunId) (shed : Z) (retired : list (RunId * Z)) : list (RunId * Z) :=
  match retired with
  | [] => [(id, shed)]
  | (id', n) :: retired =>
      if decide (id' = id) then (id', n + shed)%Z :: retired else (id', n) :: retire id shed retired
  end.
Definition retired_of (plan : list (ReplayRow * Z)) : list (RunId * Z) :=
  fold_left (λ retired '(r, shed), retire (row_run r) shed retired) plan [].

Section reclaim.
Context `{!UuidDisplay, !StateJson, !StorageCodes} (env : SpaceEnv).

Definition host : StorageEnv := storage (tx env).
Definition cut_row (r : ReplayRow) (shed : Z) : SM unit :=
  if decide (shed = row_bytes r) then execute host (delete_row (ordinal r))
  else execute host (shorten_row (ordinal r) shed).
Fixpoint cut_rows (plan : list (ReplayRow * Z)) : SM unit :=
  match plan with [] => mret_ tt | (r, shed) :: plan => cut_row r shed ;;; cut_rows plan end.
Fixpoint shed_runs (retired : list (RunId * Z)) : SM unit :=
  match retired with [] => mret_ tt | (id, n) :: retired => shed_run_bytes host id n ;;; shed_runs retired end.
Definition retire_rows (plan : list (ReplayRow * Z)) : M (Store * unit) PersistenceError unit :=
  on_store (cut_rows plan ;;; shed_runs (retired_of plan)).

(** A batch transaction whose locals are nobody's. *)
Definition maintenance (w : MaintenanceWitness) (body : M (Store * unit) PersistenceError unit) : SX bool :=
  let* '(_, committed) := with_locals tt (commit_maintenance_batch (tx env) w body) in mret_ committed.

Definition unit_too_large : PersistenceError :=
  ResourcePressure "one replay reclamation unit exceeds the configured WAL window".
(** The loop of [reclaim_confirmed_prefix]: [rows] halves. *)
Fixpoint reclaim_rows (fuel : nat) (rows : N) (needed : N) (target : option RunId) : SX bool :=
  match fuel with
  | O => mpanic "out of fuel"
  | S fuel =>
      let* candidates := on_conn (query host (λ d, shed_plan needed (oldest_rows target (N.to_nat rows) d))) in
      match candidates with
      | None => mpanic "validated positive extent length"
      | Some [] => mret_ false
      | Some (((r, _) :: _) as candidates) =>
          let* committed := maintenance (WitnessReplayChunk (ordinal r)) (retire_rows candidates) in
          if (committed : bool) then mret_ true else
          if decide (rows = 1) then mfail unit_too_large else
          reclaim_rows fuel (rows / 2) needed target
      end
  end.
Definition reclaim_confirmed_prefix (needed : N) (target : option RunId) : SX bool :=
  let rows := row_funding (tx env) in
  reclaim_rows (S (N.to_nat (N.log2 rows))) rows needed target.

(** [reclaim_output_prefix]. *)
Definition fresh_total (head : N) (replay : OutputReplay) : N :=
  sumN (λ c, end_byte c - N.max (start_byte c) head) (replay_chunks replay).
(** The sum as a [u64]: its partial sums only grow, so one overflows when the total does. *)
Definition fresh_bytes (head : N) (replay : OutputReplay) : option N :=
  let total := fresh_total head replay in
  if decide (total ≤ u64_max) then Some total else None.
Definition reclaim_output_prefix (id : RunId) (replay : OutputReplay) : SX bool :=
  let* r := on_conn (query_row host (λ d, run_rows d !! id)) in
  let* head := lift_result (nonnegative_u64 (durable_output_bytes r) "replay head") in
  let* held := lift_result (nonnegative_u64 (replay_bytes r) "replay bytes") in
  let* fresh := match fresh_bytes head replay with
                | Some fresh => mret_ fresh
                | None => mpanic "attempt to add with overflow"
                end in
  let gap := replay_truncated replay && bool_decide (head < replay_first_available_byte replay) in
  let* a := on_conn (query host accounting) in
  let* s := get in
  let own := if gap then held else (held +sat fresh) - effective_run_bytes (effective s) in
  let* total := lift_result (nonnegative_u64 (acc_replay_bytes a) "global replay bytes") in
  let* s := get in
  let global := (total +sat fresh) - effective_replay_bytes (effective s) in
  let needed := N.max own global in
  if decide (needed = 0) then mret_ false else
  reclaim_confirmed_prefix needed (if decide (0 < own) then Some id else None).

(** [database_capacity]: three pragmas. *)
Definition pages_of (f : Z * Z * Z → Z) : SX N :=
  let* v := ask (tx env) (λ t, f (page_counts env t)) in
  lift_result (nonnegative_u64 v "SQLite page funding").
Definition database_capacity : SX (N * N * N) :=
  let* pages := pages_of (λ p, p.1.1) in
  let* free := pages_of (λ p, p.1.2) in
  let* limit := pages_of (λ p, p.2) in
  mret_ (pages, free, limit).

(** [reclaim_database_pages]: whole rows, and only when SQLite has no page left. *)
Definition whole_rows (rows : list ReplayRow) : list (ReplayRow * Z) := map (λ r, (r, row_bytes r)) rows.
Fixpoint reclaim_pages (fuel : nat) (rows : N) (capacity : PersistenceError) : SX bool :=
  match fuel with
  | O => mpanic "out of fuel"
  | S fuel =>
      let* candidates := on_conn (query host (oldest_rows None (N.to_nat rows))) in
      match candidates with
      | [] => mfail capacity
      | r :: _ =>
          let* committed := maintenance (WitnessReplayChunk (ordinal r)) (retire_rows (whole_rows candidates)) in
          if (committed : bool) then mret_ true else
          if decide (rows = 1) then
            mfail (PendingPressure "one confirmed replay reclamation unit exceeds the configured WAL window")
          else reclaim_pages fuel (rows / 2) capacity
      end
  end.
Definition reclaim_database_pages (e : PersistenceError) : SX bool :=
  let* s := get in
  if negb (is_disk_full e) || negb (is_autocommit s) then mret_ false else
  let* '(pages, free, limit) := database_capacity in
  if bool_decide (pages < limit) || bool_decide (0 < free) then mret_ false else
  let rows := row_funding (tx env) in
  reclaim_pages (S (N.to_nat (N.log2 rows))) rows (DatabaseCapacity pages free limit).
End reclaim.
