(* ===== verification/StoreReclaimSpec.v ===== *)
(** * What retiring leaves

    A plan cuts rows off the front of the store's extents, then charges each Run once:
    between the two the Runs owe the bytes already cut ([owing]); afterwards the store is
    well formed again and every Run keeps a suffix of its window. *)

From S2P Require Import Prelude.
From S2P Require Import Protocol.
From S2P Require Import Resources.
From S2P Require Import StorageErrors.
From S2P Require Import ReplayStore.
From S2P Require Import ReplayStoreSpec.
From S2P Require Import ReplayTables.
From S2P Require Import ReplayAppend.
From S2P Require Import ReplayRead.
From S2P Require Import ReplayPrune.
From S2P Require Import StoreTransaction.
From S2P Require Import StoreTransactionSpec.
From S2P Require Import StoreAppend.
From S2P Require Import StoreAppendSpec.
From S2P Require Import StoreAppendSession.
From S2P Require Import StoreReclaim.
Local Open Scope Z_scope.

(** ** Plans *)

(** Whole rows from the front, and perhaps a part of the next one. *)
Inductive front_plan : list ReplayRow → list (ReplayRow * Z) → Prop :=
  | plan_end rows : front_plan rows []
  | plan_whole r rows plan : front_plan rows plan → front_plan (r :: rows) ((r, row_bytes r) :: plan)
  | plan_part r rows shed : 0 < shed → shed < row_bytes r → front_plan (r :: rows) [(r, shed)].
Lemma front_plan_amounts rows plan : front_plan rows plan → Forall (λ r, 0 < row_bytes r) rows →
  Forall (λ e, 0 < e.2) plan.
Proof. induction 1; [constructor|intros [? ?]%Forall_cons; constructor; auto|by repeat constructor]. Qed.
Lemma front_plan_rows rows plan e : front_plan rows plan → e ∈ plan → e.1 ∈ rows.
Proof.
  induction 1 as [|r rows plan _ IH|r rows shed]; [by intros ?%elem_of_nil|..].
  - intros [->|?]%elem_of_cons; [by left|right; auto].
  - intros ->%list_elem_of_singleton. by left.
Qed.
(** The scan of positive rows is such a plan, of at most [n] bytes; it is empty only for
    want of a need or of rows. *)
Lemma shed_plan_front n rows : Forall (λ r, 0 < row_bytes r) rows → ∃ plan, shed_plan n rows = Some plan ∧
  front_plan rows plan ∧ sumZ snd plan ≤ Z.of_N n ∧ (plan = [] → n = 0%N ∨ rows = []).
Proof.
  intros Hpos. revert n. induction Hpos as [|r rows Hr Hrows IH]; intros n; cbn [shed_plan].
  { exists []. split; [done|]. split; [constructor|]. split; [cbn; lia|by right]. }
  case_decide as Hn; [exists []; split; [done|]; split; [constructor|]; split; [cbn; lia|by left]|].
  rewrite decide_False by lia. set (shed := N.min n (Z.to_N (row_bytes r))).
  destruct (IH (n - shed)%N) as (plan & -> & Hp & Ht & _). eexists. split; [done|]. rewrite sumZ_cons. cbn [snd].
  split; [|split; [lia|done]]. destruct (decide (row_bytes r ≤ Z.of_N n)) as [Hle|Hgt].
  - replace (Z.of_N shed) with (row_bytes r) by lia. by constructor.
  - destruct plan as [|[x k] plan]; [constructor; lia|]. exfalso. clear IH Hn.
    assert (0 < k ∧ 0 ≤ sumZ snd plan) as [? ?]; [|rewrite sumZ_cons in Ht; cbn [snd] in Ht; lia].
    eapply front_plan_amounts in Hp as [? Hk]%Forall_cons; [|done]. split; [done|].
    apply sumZ_nonneg. intros y Hy. rewrite Forall_forall in Hk. specialize (Hk _ Hy). cbn in Hk. lia.
Qed.
Lemma whole_rows_front rows : front_plan rows (whole_rows rows).
Proof. induction rows as [|r rows IH]; cbn; by constructor. Qed.
Lemma front_plan_app rows more plan : front_plan rows plan → front_plan (rows ++ more) plan.
Proof. induction 1; cbn; by constructor. Qed.
Definition plan_total (plan : list (ReplayRow * Z)) : Z := sumZ snd plan.
(** What a plan takes from the Run [id]. *)
Definition taken_from (plan : list (ReplayRow * Z)) (id : RunId) : Z :=
  sumZ (λ e, if decide (row_run e.1 = id) then e.2 else 0) plan.
Lemma taken_from_cons r shed plan id :
  taken_from ((r, shed) :: plan) id = (if decide (row_run r = id) then shed else 0) + taken_from plan id.
Proof. unfold taken_from. by rewrite sumZ_cons. Qed.
Lemma taken_from_app a b id : taken_from (a ++ b) id = taken_from a id + taken_from b id.
Proof. unfold taken_from. apply sumZ_app. Qed.
Lemma taken_from_none plan id : (∀ e, e ∈ plan → row_run e.1 ≠ id) → taken_from plan id = 0.
Proof.
  induction plan as [|[r shed] plan IH]; intros Hn; [done|]. rewrite taken_from_cons.
  rewrite decide_False by (apply (Hn (r, shed)); by left). rewrite IH; [done|]. intros e He. apply Hn. by right.
Qed.

(** ** Debts *)

Definition owes (retired : list (RunId * Z)) (id : RunId) : Z :=
  match List.find (λ kv, bool_decide (kv.1 = id)) retired with Some kv => kv.2 | None => 0 end.
Lemma owes_cons id' n retired id : owes ((id', n) :: retired) id = if decide (id' = id) then n else owes retired id.
Proof. unfold owes. cbn [List.find fst]. case_decide; [by rewrite bool_decide_true|by rewrite bool_decide_false]. Qed.
Lemma owes_none retired id : id ∉ map fst retired → owes retired id = 0.
Proof.
  induction retired as [|[id' n] retired IH]; [done|]. cbn [map fst]. rewrite not_elem_of_cons, owes_cons.
  intros [? ?]. rewrite decide_False by done. by apply IH.
Qed.
Lemma owes_retire id shed retired id' : NoDup (map fst retired) →
  owes (retire id shed retired) id' = owes retired id' + (if decide (id' = id) then shed else 0).
Proof.
  induction retired as [|[id0 n] retired IH]; cbn [retire]; intros Hnd.
  - rewrite owes_cons. unfold owes. cbn. repeat case_decide; congruence || lia.
  - cbn [map fst] in Hnd. apply NoDup_cons in Hnd as [Hn Hnd]. specialize (IH Hnd).
    destruct (decide (id0 = id)) as [->|Hne]; rewrite !owes_cons; [repeat case_decide; congruence || lia|].
    destruct (decide (id0 = id')) as [->|]; [rewrite decide_False by done; lia|done].
Qed.
Lemma retire_ids id shed retired x : x ∈ map fst (retire id shed retired) ↔ x = id ∨ x ∈ map fst retired.
Proof.
  induction retired as [|[id0 n] retired IH]; cbn [retire map fst].
  - rewrite list_elem_of_singleton, elem_of_nil. naive_solver.
  - case_decide as Hid; cbn [map fst]; rewrite !elem_of_cons; [subst; naive_solver|rewrite IH; naive_solver].
Qed.
Lemma retire_nodup id shed retired : NoDup (map fst retired) → NoDup (map fst (retire id shed retired)).
Proof.
  induction retired as [|[id0 n] retired IH]; cbn [retire map fst].
  - intros _. repeat constructor. by intros ?%elem_of_nil.
  - intros [Hn Hnd]%NoDup_cons. case_decide as Hid; cbn [map fst]; apply NoDup_cons; [done|].
    split; [|by apply IH]. rewrite retire_ids. naive_solver.
Qed.
Lemma retire_total id shed retired : sumZ snd (retire id shed retired) = sumZ snd retired + shed.
Proof.
  induction retired as [|[id0 n] retired IH]; cbn [retire]; rewrite ?sumZ_cons; [cbn; lia|].
  case_decide; rewrite sumZ_cons; cbn [snd]; lia.
Qed.

(** The extents of [gone] are cut already, the Runs not yet charged. *)
Record owing (s0 s : Store) (retired : list (RunId * Z)) (gone : list (ReplayRow * Z)) : Prop := {
  ow_tables : tables_ok (db s) (files s);
  ow_files : files s = files s0;
  ow_active : active_replay_file (db s) = active_replay_file (db s0);
  ow_nodup : NoDup (map fst retired);
  ow_owners : ∀ id, id ∈ map fst retired → is_Some (run_rows (db s) !! id);
  ow_covers : ∀ id r, run_rows (db s) !! id = Some r → 0 ≤ owes retired id ∧
    covers (durable_first_available_byte r + owes retired id) (rows_of id (db s)) (durable_output_bytes r);
  ow_dom : ∀ id, run_rows (db s0) !! id = None → run_rows (db s) !! id = None;
  ow_runs : ∀ id r, run_rows (db s0) !! id = Some r → ∃ r', run_rows (db s) !! id = Some r' ∧
    same_identity r r' ∧ durable_output_bytes r' = durable_output_bytes r;
  ow_amounts : Forall (λ e, 0 < e.2) gone;
  ow_retired : ∀ id, id ∈ map fst retired → 0 < taken_from gone id;
  ow_same : ∀ id, taken_from gone id = 0 →
    run_rows (db s) !! id = run_rows (db s0) !! id ∧ rows_of id (db s) = rows_of id (db s0);
  ow_windows : ∀ id w, window_of s0 id = Some w → ∃ r, run_rows (db s) !! id = Some r ∧
    taken_from gone id ≤ Z.of_N (len (w_data w)) ∧
    durable_first_available_byte r + owes retired id = Z.of_N (w_floor w) + taken_from gone id ∧
    span (files s) (rows_of id (db s)) = dropN (Z.to_N (taken_from gone id)) (w_data w);
  ow_synced : ∀ w, synced_but w (db s0) (files s0) → synced_but w (db s) (files s);
  ow_from : ∀ nm, rows_from nm (db s0) (db s);
  ow_total : total_replay (db s) - sumZ snd retired = total_replay (db s0) - plan_total gone;
}.
Lemma taken_nonneg gone id : Forall (λ e, 0 < e.2) gone → 0 ≤ taken_from gone id.
Proof.
  intros Hg. apply sumZ_nonneg. intros e He. rewrite Forall_forall in Hg. specialize (Hg _ He). case_decide; lia.
Qed.
(** What a plan takes, exactly: each Run loses the plan's bytes off the front of its window,
    and a Run of which the plan takes nothing is not touched. *)
Definition took (plan : list (ReplayRow * Z)) (s0 s : Store) : Prop :=
  (∀ id w, window_of s0 id = Some w → window_of s id = Some (drop_front (Z.to_N (taken_from plan id)) w)) ∧
  ∀ id, taken_from plan id = 0 →
    run_rows (db s) !! id = run_rows (db s0) !! id ∧ rows_of id (db s) = rows_of id (db s0).
Lemma owing_start s0 s : unchanged s0 s → store_ok (db s0) (files s0) → owing s0 s [] [].
Proof.
  intros [Hd Hf] [Ht Hl]. constructor; rewrite ?Hd, ?Hf; try done.
  - constructor.
  - by intros id ?%elem_of_nil.
  - intros id r Hr. change (owes [] id) with 0. rewrite Z.add_0_r. split; [lia|by apply Hl].
  - intros id r Hr. by exists r.
  - by intros id ?%elem_of_nil.
  - intros id w Hw. unfold window_of in Hw. destruct (run_rows (db s0) !! id) as [r|] eqn:Hr; [|done].
    injection Hw as <-. exists r. change (owes [] id) with 0. change (taken_from [] id) with 0. cbn [w_floor w_data].
    destruct (tables_runs _ _ Ht _ _ Hr) as (? & _). change (Z.to_N 0) with 0%N. rewrite dropN_0. split_and!; [done|lia|lia|done].
  - intros nm. by apply rows_from_refl.
Qed.
Lemma owing_end s0 s gone : owing s0 s [] gone →
  store_ok (db s) (files s) ∧ evicts s0 s ∧ total_replay (db s) = total_replay (db s0) - plan_total gone ∧
  took gone s0 s.
Proof.
  intros Ho.
  assert (∀ id w, window_of s0 id = Some w → (Z.to_N (taken_from gone id) ≤ len (w_data w))%N ∧
    window_of s id = Some (drop_front (Z.to_N (taken_from gone id)) w)) as Hwin.
  { intros id w Hw. destruct (ow_windows _ _ _ _ Ho _ _ Hw) as (r & Hr & Hn & Hfl & Hsp).
    pose proof (taken_nonneg _ id (ow_amounts _ _ _ _ Ho)). split; [lia|].
    unfold window_of. rewrite Hr. cbn. rewrite Hsp. unfold drop_front.
    change (owes [] id) with 0 in Hfl. do 2 f_equal. lia. }
  split_and!.
  - split; [apply Ho|]. intros id r Hr. destruct (ow_covers _ _ _ _ Ho _ _ Hr) as [_ Hc].
    change (owes [] id) with 0 in Hc. by rewrite Z.add_0_r in Hc.
  - constructor; try apply Ho. intros id w Hw. eexists. by apply Hwin.
  - pose proof (ow_total _ _ _ _ Ho) as Ht. cbn in Ht. lia.
  - split; [intros id w Hw; by apply Hwin|]. apply Ho.
Qed.

(** ** Cutting the rows *)

(** The rows a plan takes from, oldest first. *)
Definition targets (target : option RunId) (d : Db) : list ReplayRow := filter (in_target target) (chunk_rows d).
Lemma targets_first target d r rest : targets target d = r :: rest →
  ∃ more, rows_of (row_run r) d = r :: more.
Proof.
  intros Ht. assert (rows_of (row_run r) d = filter (λ x, row_run x = row_run r) (targets target d)) as Hr.
  { unfold rows_of, targets. rewrite list_filter_filter. apply list_filter_iff. intros x.
    assert (in_target target r) as Hin.
    { assert (r ∈ targets target d) as [? _]%list_elem_of_filter by (rewrite Ht; constructor). done. }
    unfold in_target in *. destruct target; naive_solver. }
  rewrite Hr, Ht, filter_cons, decide_True by done. by eexists.
Qed.
Lemma targets_shrink fs g target d : tables_ok d fs → shrinks fs g →
  targets target (shrink g d) = omap g (targets target d).
Proof.
  intros Ht Hg. unfold targets, shrink. cbn. pose proof (tables_rows _ _ Ht) as Hok.
  induction Hok as [|r l Hr Hl IH]; [done|]. rewrite (omap_step g), (filter_cons _ r).
  destruct (g r) as [r'|] eqn:Hgr.
  - destruct (Hg _ _ Hr Hgr) as (_ & Hrun & _). rewrite filter_cons.
    assert (in_target target r' ↔ in_target target r) as Hiff by (unfold in_target; destruct target; [by rewrite Hrun|done]).
    destruct (decide (in_target target r)) as [Hin|Hin].
    + rewrite decide_True by naive_solver. rewrite omap_step, Hgr. by f_equal.
    + rewrite decide_False by naive_solver. done.
  - case_decide; [by rewrite omap_step, Hgr|done].
Qed.
(** Dropping the whole first target leaves the others. *)
Lemma targets_dropped fs target d r rest a b more : tables_ok d fs → targets target d = r :: rest →
  rows_of (row_run r) d = r :: more → covers a (r :: more) b →
  targets target (shrink (clipped (row_run r) (row_end r)) d) = rest.
Proof.
  intros Ht Htg Hrows Hc. rewrite (targets_shrink fs) by (done || apply clipped_shrinks). rewrite Htg, omap_step.
  unfold clipped at 1, clip_one. rewrite decide_True by done. rewrite decide_True by lia.
  apply omap_id. intros x Hx. unfold clipped, clip_one. case_decide as Hrun; [|done].
  assert ((r ∉ rest) ∧ x ∈ chunk_rows d) as [Hnr Hxd].
  { split.
    - pose proof (ordinals_nodup _ _ Ht) as Hnd. unfold targets in Htg. intros Hin.
      assert (NoDup (r :: rest)) as [? _]%NoDup_cons; [|done]. rewrite <-Htg. apply NoDup_filter.
      by eapply NoDup_fmap_1 with (f := ordinal).
    - assert (x ∈ targets target d) as [_ ?]%list_elem_of_filter by (rewrite Htg; by constructor). done. }
  assert (x ∈ rows_of (row_run r) d) as Hin by by apply list_elem_of_filter.
  rewrite Hrows in Hin. apply elem_of_cons in Hin as [->|Hin]; [done|].
  destruct Hc as (_ & _ & Hc). destruct (covers_elem _ _ _ _ Hc Hin). by rewrite !decide_False by lia.
Qed.

Section cut.
Context `{!UuidDisplay, !StateJson, !StorageCodes} (env : SpaceEnv).

Lemma owing_cut s0 s s' r rest shed retired gone : owing s0 s retired gone →
  rows_of (row_run r) (db s) = r :: rest → 0 < shed → shed ≤ row_bytes r → files s' = files s →
  db s' = shrink (clipped (row_run r) (row_start r + shed)) (db s) →
  owing s0 s' (retire (row_run r) shed retired) (gone ++ [(r, shed)]).
Proof.
  intros Ho Hrows Hpos Hmax Hf Hd. pose proof (ow_tables _ _ _ _ Ho) as Ht.
  assert (r ∈ chunk_rows (db s)) as Hin.
  { assert (r ∈ rows_of (row_run r) (db s)) as [_ ?]%list_elem_of_filter by (rewrite Hrows; constructor). done. }
  assert (∃ x, run_rows (db s) !! row_run r = Some x) as [x Hx].
  { pose proof (tables_owner _ _ Ht) as Hown. rewrite Forall_forall in Hown. by apply Hown. }
  destruct (ow_covers _ _ _ _ Ho _ _ Hx) as [Hnn Hc]. rewrite Hrows in Hc.
  assert (row_bytes r = row_end r - row_start r) as Hb.
  { pose proof (tables_rows _ _ Ht) as Hr. rewrite Forall_forall in Hr. by destruct (Hr _ Hin) as (? & ? & ? & ? & _). }
  pose proof Hc as (Hfirst & Hlt & Hrest). pose proof (covers_le _ _ _ Hrest) as Hle.
  assert (tables_ok (shrink (clipped (row_run r) (row_start r + shed)) (db s)) (files s)) as Ht'.
  { rewrite <-Hrows in Hc. eapply clipped_tables; [done|exact Hc]. }
  assert (∀ id, rows_of id (db s') = if decide (id = row_run r) then clip (row_start r + shed) (r :: rest) else rows_of id (db s)) as Hrows'.
  { intros id. rewrite Hd, (rows_of_clipped (files s)) by done. by rewrite Hrows. }
  assert (run_rows (db s') = run_rows (db s)) as Hruns by by rewrite Hd.
  pose proof (ow_nodup _ _ _ _ Ho) as Hnd.
  pose proof (rows_of_ok _ _ (row_run r) Ht) as Hrok. rewrite Hrows in Hrok.
  pose proof (len_span _ _ _ _ Hrok Hc) as Hlen.
  assert (∀ id, taken_from (gone ++ [(r, shed)]) id =
    taken_from gone id + (if decide (row_run r = id) then shed else 0)) as Htaken.
  { intros id. rewrite taken_from_app, taken_from_cons. change (taken_from [] id) with 0. lia. }
  assert (∀ id, 0 ≤ taken_from gone id) as Hgone by (intros id; apply taken_nonneg, Ho).
  constructor.
  - by rewrite Hd, Hf.
  - rewrite Hf. apply Ho.
  - rewrite Hd. apply Ho.
  - by apply retire_nodup.
  - intros id [->|Hid]%retire_ids; rewrite Hruns; [by eexists|by apply (ow_owners _ _ _ _ Ho)].
  - intros id y Hy. rewrite Hruns in Hy. rewrite owes_retire, Hrows' by done.
    destruct (ow_covers _ _ _ _ Ho _ _ Hy) as [Hnn' Hc']. destruct (decide (id = row_run r)) as [->|Hne].
    + assert (y = x) as -> by congruence. split; [lia|].
      replace (durable_first_available_byte x + (owes retired (row_run r) + shed)) with (row_start r + shed) by lia.
      eapply clip_covers; [exact Hc|lia..].
    + by rewrite Z.add_0_r.
  - intros id Hid. rewrite Hruns. by apply (ow_dom _ _ _ _ Ho).
  - rewrite Hruns. apply Ho.
  - apply Forall_app. split; [apply Ho|by repeat constructor].
  - intros id [->|Hid]%retire_ids; rewrite Htaken.
    + specialize (Hgone (row_run r)). rewrite decide_True by done. lia.
    + apply (ow_retired _ _ _ _ Ho) in Hid. case_decide; lia.
  - intros id. rewrite Htaken, Hruns, Hrows'. specialize (Hgone id). destruct (decide (row_run r = id)) as [Heq|Hne]; [lia|].
    rewrite decide_False by congruence. intros Hz. apply Ho. lia.
  - intros id w Hw. destruct (ow_windows _ _ _ _ Ho _ _ Hw) as (y & Hy & Hn & Hfl & Hsp). specialize (Hgone id).
    rewrite Hruns, owes_retire, Hrows', Hf, Htaken by done. exists y. split; [done|].
    destruct (decide (id = row_run r)) as [->|Hne].
    + rewrite decide_True by done. assert (y = x) as -> by congruence. rewrite Hrows in Hsp.
      rewrite Hsp, len_dropN in Hlen. split_and!; [lia|lia|].
      rewrite (span_clip _ _ _ _ _ Hrok Hc) by lia. rewrite Hsp, dropN_dropN. f_equal. lia.
    + rewrite decide_False by congruence. rewrite !Z.add_0_r. done.
  - intros w Hw. rewrite Hd, Hf. eapply synced_shrink; [done|apply clipped_shrinks|by apply Ho].
  - intros nm. eapply rows_from_trans; [apply Ho|]. rewrite Hd. by eapply shrink_from, clipped_shrinks.
  - rewrite retire_total. pose proof (ow_total _ _ _ _ Ho) as Htot. unfold total_replay, plan_total in *.
    rewrite Hd, sumZ_app. cbn in *. lia.
Qed.

Lemma cut_row_spec s0 s r rest shed retired gone : owing s0 s retired gone →
  rows_of (row_run r) (db s) = r :: rest → 0 < shed → shed ≤ row_bytes r →
  wp (cut_row env r shed) s (λ s' res, files s' = files s ∧
    match res with
    | Ok _ => owing s0 s' (retire (row_run r) shed retired) (gone ++ [(r, shed)]) ∧
        db s' = shrink (clipped (row_run r) (row_start r + shed)) (db s)
    | Err e => True
    end).
Proof.
  intros Ho Hrows Hpos Hmax. pose proof (ow_tables _ _ _ _ Ho) as Ht.
  assert (∃ x, run_rows (db s) !! row_run r = Some x ∧ row_bytes r = row_end r - row_start r) as (x & Hx & Hb).
  { assert (r ∈ rows_of (row_run r) (db s)) as [_ Hin]%list_elem_of_filter by (rewrite Hrows; constructor).
    pose proof (tables_owner _ _ Ht) as Hown. rewrite Forall_forall in Hown. destruct (Hown _ Hin) as [x ?]. exists x.
    pose proof (tables_rows _ _ Ht) as Hr. rewrite Forall_forall in Hr. by destruct (Hr _ Hin) as (? & ? & ? & ? & _). }
  destruct (ow_covers _ _ _ _ Ho _ _ Hx) as [_ Hc]. rewrite Hrows in Hc.
  set (d' := shrink (clipped (row_run r) (row_start r + shed)) (db s)).
  assert (tables_ok d' (files s)) as Ht' by (rewrite <-Hrows in Hc; by eapply clipped_tables).
  assert (∀ f, f (db s) = d' → wp (execute (host env) f) s (λ s' res, files s' = files s ∧
    match res with Ok _ => owing s0 s' (retire (row_run r) shed retired) (gone ++ [(r, shed)]) ∧ db s' = d' | Err e => True end)) as Hrun.
  { intros f Hf. apply wp_execute; rewrite ?Hf; [by eapply tables_constraints|done|].
    split; [done|]. split; [by eapply owing_cut|done]. }
  unfold cut_row. case_decide as Hall; apply Hrun.
  - rewrite (delete_statement (files s) _ _ _ _ _ Ht Hrows Hc). unfold d'. do 2 f_equal. lia.
  - by eapply (shorten_statement (files s)); [..|lia].
Qed.
Lemma cut_rows_spec target s0 rows plan : front_plan rows plan → ∀ s retired gone, owing s0 s retired gone →
  targets target (db s) = rows →
  wp (cut_rows env plan) s (λ s' res, files s' = files s ∧
    match res with
    | Ok _ => owing s0 s' (fold_left (λ l '(r, shed), retire (row_run r) shed l) plan retired) (gone ++ plan)
    | Err e => True
    end).
Proof.
  intros Hp. assert (∀ s r rows, targets target (db s) = r :: rows → tables_ok (db s) (files s) →
    0 < row_bytes r ∧ row_start r + row_bytes r = row_end r) as Hpos.
  { intros s r l Htg Ht. pose proof (tables_rows _ _ Ht) as Hr. rewrite Forall_forall in Hr.
    assert (r ∈ targets target (db s)) as [_ Hin]%list_elem_of_filter by (rewrite Htg; constructor).
    destruct (Hr _ Hin) as (? & ? & ? & ? & _). lia. }
  induction Hp as [rows|r rows plan Hp IH|r rows shed K1 K2]; intros s retired gone Ho Htg; cbn [cut_rows fold_left].
  - apply wp_ret. by rewrite app_nil_r.
  - destruct (targets_first _ _ _ _ Htg) as [more Hrows]. pose proof (ow_tables _ _ _ _ Ho) as Ht.
    destruct (Hpos _ _ _ Htg Ht) as [? Hend]. apply wp_bind.
    eapply wp_mono; [by eapply (cut_row_spec s0 s r more)|]. intros s1 [[]|e] [Hf Hr]; [|done]. destruct Hr as [Ho1 Hd1].
    rewrite (app_assoc gone [_] plan : gone ++ (r, row_bytes r) :: plan = _), <-Hf. apply IH; [done|].
    rewrite Hd1, Hend. assert (r ∈ chunk_rows (db s)) as Hin.
    { assert (r ∈ targets target (db s)) as [_ ?]%list_elem_of_filter by (rewrite Htg; constructor). done. }
    pose proof (tables_owner _ _ Ht) as Hown. rewrite Forall_forall in Hown. destruct (Hown _ Hin) as [x Hx].
    destruct (ow_covers _ _ _ _ Ho _ _ Hx) as [_ Hc]. rewrite Hrows in Hc. by eapply (targets_dropped (files s)).
  - destruct (targets_first _ _ _ _ Htg) as [more Hrows]. apply wp_bind.
    eapply wp_mono; [eapply (cut_row_spec s0 s r more); [done..|lia]|]. intros s1 [[]|e] [Hf Hr]; [|done].
    apply wp_ret. split; [done|]. by destruct Hr as [Ho1 _].
Qed.

(** ** Charging the Runs *)

Lemma owing_charge s0 s s' id n retired gone x : owing s0 s ((id, n) :: retired) gone → run_rows (db s) !! id = Some x →
  files s' = files s → db s' = update_run id (shed_run n (min_start (rows_of id (db s)))) (db s) →
  tables_ok (db s') (files s) ∧ owing s0 s' retired gone.
Proof.
  intros Ho Hx Hf Hd. pose proof (ow_tables _ _ _ _ Ho) as Ht.
  pose proof (ow_nodup _ _ _ _ Ho) as [Hn Hnd]%NoDup_cons. apply owes_none in Hn. cbn [fst] in Hn.
  destruct (ow_covers _ _ _ _ Ho _ _ Hx) as [Hnn Hc]. rewrite owes_cons, decide_True in Hnn, Hc by done.
  set (x' := shed_run n (Some (durable_first_available_byte x + n)) x).
  assert (shed_run n (min_start (rows_of id (db s))) x = x') as Hx'.
  { unfold x', shed_run. cbn [default]. by rewrite (min_start_covers _ _ _ Hc). }
  pose proof (covers_le _ _ _ Hc). destruct (tables_runs _ _ Ht _ _ Hx) as (? & ? & ? & ? & ? & ? & ?).
  destruct (update_run_tables (db s) (files s) id x x' _ Ht Hx Hx') as [Ht' Hr']; [|done|].
  { unfold run_ok, x'. cbn. split_and!; try done; lia. }
  rewrite <-Hd in Ht', Hr'. split; [done|].
  assert (∀ id', rows_of id' (db s') = rows_of id' (db s)) as Hrows by (intros; by rewrite Hd, update_run_rows).
  assert (∀ id' y, run_rows (db s') !! id' = Some y → ∃ y0, run_rows (db s) !! id' = Some y0 ∧ same_identity y0 y ∧
    durable_output_bytes y = durable_output_bytes y0 ∧ owes retired id' ≤ owes ((id, n) :: retired) id' ∧
    durable_first_available_byte y + owes retired id' = durable_first_available_byte y0 + owes ((id, n) :: retired) id') as Hback.
  { intros id' y. rewrite Hr', owes_cons. intros [[<- <-]|[Hne Hy]]%lookup_insert_Some.
    - exists x. rewrite Hn, decide_True by done. split_and!; [done|done|done|lia|cbn; lia].
    - exists y. rewrite decide_False by done. done. }
  assert (∀ id' y0, run_rows (db s) !! id' = Some y0 → is_Some (run_rows (db s') !! id')) as Hforth.
  { intros id' y0 Hy. rewrite Hr'. destruct (decide (id = id')) as [->|]; [rewrite lookup_insert_eq|rewrite lookup_insert_ne by done]; by eexists. }
  constructor; rewrite ?Hf; try apply Ho; try done.
  - rewrite Hd. unfold update_run. rewrite Hx. apply Ho.
  - intros id' Hid. destruct (ow_owners _ _ _ _ Ho id') as [y Hy]; [by right|]. by eapply Hforth.
  - intros id' y Hy. rewrite Hrows. destruct (Hback _ _ Hy) as (y0 & Hy0 & _ & -> & _ & ->).
    destruct (ow_covers _ _ _ _ Ho _ _ Hy0) as [Hnn0 ?]. split; [|done]. rewrite owes_cons in Hnn0. case_decide; [subst; lia|done].
  - intros id' Hid. apply (ow_dom _ _ _ _ Ho) in Hid. rewrite Hr'. by rewrite lookup_insert_ne by congruence.
  - intros id' r Hr. destruct (ow_runs _ _ _ _ Ho _ _ Hr) as (y0 & Hy0 & Hi & Hh).
    destruct (Hforth _ _ Hy0) as [y Hy]. destruct (Hback _ _ Hy) as (y1 & Hy1 & Hi1 & Hh1 & _).
    assert (y1 = y0) as -> by congruence. exists y. split_and!; [done|by eapply same_identity_trans|congruence].
  - intros id' Hid. apply (ow_retired _ _ _ _ Ho). by right.
  - intros id' Hz. rewrite Hrows. assert (id ≠ id') as Hne.
    { intros <-. pose proof (ow_retired _ _ _ _ Ho id ltac:(by left)). lia. }
    rewrite Hr', lookup_insert_ne by done. by apply Ho.
  - intros id' w Hw. destruct (ow_windows _ _ _ _ Ho _ _ Hw) as (y0 & Hy0 & Hk & Hfl & Hsp).
    destruct (Hforth _ _ Hy0) as [y Hy]. destruct (Hback _ _ Hy) as (y1 & Hy1 & _ & _ & _ & Hfirst).
    assert (y1 = y0) as -> by congruence. exists y. rewrite Hrows, Hfirst. done.
  - intros w Hw%(ow_synced _ _ _ _ Ho). unfold synced_but in *.
    assert (chunk_rows (db s') = chunk_rows (db s)) as ->; [|done]. rewrite Hd. apply update_run_chunks.
  - intros nm. eapply rows_from_trans; [apply Ho|]. apply rows_from_refl. rewrite Hd. apply update_run_chunks.
  - pose proof (ow_total _ _ _ _ Ho) as Htot. rewrite sumZ_cons in Htot. cbn [snd] in Htot.
    unfold total_replay in *. rewrite (tables_account _ _ Ht'), Hr'. rewrite (tables_account _ _ Ht) in Htot. cbn in *.
    rewrite (mapZ_insert_Some _ _ _ _ _ Hx). cbn. lia.
Qed.
Lemma shed_runs_spec s0 retired : ∀ s gone, owing s0 s retired gone →
  wp (shed_runs env retired) s (λ s' res, files s' = files s ∧
    match res with Ok _ => owing s0 s' [] gone | Err e => True end).
Proof.
  induction retired as [|[id n] retired IH]; intros s gone Ho; cbn [shed_runs]; [by apply wp_ret|].
  destruct (ow_owners _ _ _ _ Ho id) as [x Hx]; [by left|]. apply wp_bind. unfold shed_run_bytes.
  destruct (owing_charge _ _ (set_db (update_run id (shed_run n (min_start (rows_of id (db s)))) (db s)) (later s))
    _ _ _ _ _ Ho Hx eq_refl eq_refl) as [Ht Ho'].
  apply wp_execute; [by eapply tables_constraints|done|]. eapply wp_mono; [by apply IH|]. done.
Qed.

(** What one reclamation promises. *)
Definition reclaimed (s0 s : Store) (plan : list (ReplayRow * Z)) : Prop :=
  store_ok (db s) (files s) ∧ evicts s0 s ∧ total_replay (db s) = total_replay (db s0) - plan_total plan ∧
  took plan s0 s.
Lemma retire_rows_spec target s0 s plan l : unchanged s0 s → store_ok (db s0) (files s0) →
  front_plan (targets target (db s0)) plan →
  wp (retire_rows env plan) (s, l) (λ sl res, files sl.1 = files s0 ∧
    match res with Ok _ => reclaimed s0 sl.1 plan | Err e => True end).
Proof.
  intros Hu Hok Hp. pose proof (owing_start _ _ Hu Hok) as Ho. destruct Hu as [Hd Hf]. rewrite <-Hd in Hp.
  unfold retire_rows. apply wp_on_store, wp_bind. rewrite <-Hf.
  eapply wp_mono; [by eapply cut_rows_spec|]. intros s1 [[]|e] [Hf1 Hr]; [|done].
  rewrite <-Hf1. eapply wp_mono; [by apply shed_runs_spec|]. intros s2 [[]|e] [Hf2 Hr2]; [|done].
  split; [done|]. by apply owing_end in Hr2.
Qed.
End cut.
