(* ===== verification/StoreReclaimSession.v ===== *)
(** * Reclamation and the session

    The reclamation loops always end, and what they commit is a nonempty front of the
    confirmed output. *)

From S2P Require Import Prelude.
From S2P Require Import Protocol.
From S2P Require Import Resources.
From S2P Require Import StorageErrors.
From S2P Require Import ReplayStore.
From S2P Require Import ReplayStoreSpec.
From S2P Require Import ReplayTables.
From S2P Require Import ReplayAppend.
From S2P Require Import ReplayPrune.
From S2P Require Import StoreTransaction.
From S2P Require Import StoreTransactionSpec.
From S2P Require Import StoreAppend.
From S2P Require Import StoreAppendSpec.
From S2P Require Import StoreSession.
From S2P Require Import StoreAppendSession.
From S2P Require Import StoreReclaim.
From S2P Require Import StoreReclaimSpec.

Section session.
Context `{!UuidDisplay, !StateJson, !StorageCodes} (env : SpaceEnv) (heads : gmap RunId Cell).

(** The body's database, over the files of [s0]. *)
Definition made (R : Store → Prop) (s0 : Session) (d : Db) : Prop :=
  ∃ c, R c ∧ files c = files (conn s0) ∧ db c = d.
(** Suspended on a record whose settlement is the caller's to set. *)
Record suspended_on (R : Store → Prop) (s0 s : Session) (u : UnresolvedMaintenance) (dn d : Db) (o : option Db) : Prop := {
  su_state : core s = at_state s0 (files (conn s0)) d o (Some u);
  su_plain : u_settlement u = IndexedRows;
  su_new : u_commit u = NotIssued ∧ dn = db (conn s0) ∨ made R s0 dn;
  su_durable : default d o = db (conn s0) ∨ default d o = dn;
  su_pending : ∀ m, pending (with_settlement m u) (db (conn s0)) dn d o;
}.
Definition suspended (R : Store → Prop) (s0 s : Session) : Prop := ∃ u dn d o, suspended_on R s0 s u dn d o.

(** What a failed maintenance transaction leaves. *)
Definition kept (s0 s : Session) : Prop :=
  standing heads s ∧ heads_forward (db (conn s0)) (durable s) ∧ cells s = cells s0 ∧
  files (conn s) = files (conn s0) ∧ (unresolved s = None → core s = core s0).

Lemma kept_core s0 s : clear heads s0 → core s = core s0 → kept s0 s.
Proof.
  intros Hc Hcore. pose proof (core_clear heads _ _ Hcore Hc) as Hc'. destruct (clear_standing _ s0 _ Hc' (core_db _ _ Hcore)).
  unfold kept. rewrite (core_files _ _ Hcore). assert (cells s = cells s0) as -> by exact (f_equal cells Hcore). done.
Qed.
Lemma kept_trans s0 s1 s : core s1 = core s0 → kept s1 s → kept s0 s.
Proof.
  intros Hc (K1 & K2 & K3 & K4 & K5). unfold kept. rewrite <-(core_db _ _ Hc), <-(core_files _ _ Hc), <-Hc.
  assert (cells s0 = cells s1) as -> by exact (f_equal cells (eq_sym Hc)). done.
Qed.

Section maintenance.
Context (s0 : Session) (w : MaintenanceWitness) (body : M (Store * unit) PersistenceError unit) (R : Store → Prop).
Hypotheses (Hclear : clear heads s0)
  (Hbody : ∀ c, unchanged (conn s0) c → wp body (c, tt) (λ cl r,
     files cl.1 = files (conn s0) ∧ match r with Ok _ => R cl.1 | Err _ => True end)).

Definition maintained (s : Session) (r : result bool PersistenceError) : Prop :=
  match r with
  | Ok true => ∃ d, made R s0 d ∧ core s = at_state s0 (files (conn s0)) d None None
  | Ok false => core s = core s0
  | Err e => core s = core s0 ∨ requires_reconciliation e = true ∧ suspended R s0 s
  end.
Let P (c : Store) (l : unit) (r : result bool PersistenceError) : Prop :=
  files c = files (conn s0) ∧ match r with Ok _ => R c | Err _ => True end.

Lemma failure_suspends c l e d o u s : ran s0 l P c l →
  failure s0 w false P c l e d o u → core s = at_state s0 (files c) d o u → maintained s (Err e).
Proof.
  intros Hran Hf Hc. assert (files c = files (conn s0)) as Hfiles by (by destruct Hran as [[? _]|[r [? _]]]).
  rewrite Hfiles in Hc. destruct u as [u|].
  2: { assert (d = db (conn s0) ∧ o = None) as [-> ->] by by inversion Hf. left.
       rewrite Hc. symmetry. apply at_state_self; apply Hclear. }
  destruct (failure_pending _ _ _ _ _ _ _ _ _ _ Hf) as (dn & Hdn & He & Hdur & Hp).
  right. split; [naive_solver|]. exists u, dn, d, o. constructor; [done|by inversion Hf| |done|done].
  destruct Hdn as [[? ->]|[[Hfc HRc] ->]]; [by left|right; by exists c].
Qed.
Lemma maintenance_spec : wp (maintenance env w body) s0 maintained.
Proof.
  unfold maintenance. apply wp_bind, wp_with_locals. eapply wp_mono.
  { unfold commit_maintenance_batch. apply with_admission_spec with (P := P); [apply Hclear|apply Hclear|].
    intros c Hd Hf. apply wp_bind. eapply wp_mono; [by apply Hbody|]. intros [c' []] [[]|e] Hr; cbn [fst snd] in *; done. }
  intros [s []] r [c Hr]. cbn [fst snd] in *. destruct r as [[]|e].
  - destruct Hr as [[Hf HRc] Hc]. rewrite Hf in Hc. apply wp_ret. exists (db c). split; [by exists c|done].
  - destruct Hr as [[b [Hf _]] Hc]. rewrite Hf in Hc. apply wp_ret. unfold maintained. rewrite Hc. symmetry.
    apply at_state_self; apply Hclear.
  - destruct Hr as (Hran & d & o & u & Hc & Hf). by eapply failure_suspends.
Qed.
End maintenance.

(** ** Recording the settlement *)

Section recorded.
Context (s0 : Session) (R : Store → Prop) (m : MaintenanceSettlement).
Hypotheses (Hclear : clear heads s0) (Hsound : sound (db (conn s0)) (files (conn s0)))
  (HR : ∀ d, made R s0 d → sound d (files (conn s0)) ∧ heads_forward (db (conn s0)) d ∧
     rows_from (replay_file s0) (db (conn s0)) d)
  (Hsettles : ∀ (done : bool) d u s1 t, (if done then made R s0 d else d = db (conn s0)) →
     settled m done (at_state s0 (files (conn s0)) d None u) s1 t →
     clear heads (set_unresolved None s1) ∧ db (conn s1) = d).

Lemma kept_state d : d = db (conn s0) ∨ made R s0 d →
  recoverable (replay_file s0) d (files (conn s0)) ∧ heads_forward (db (conn s0)) d ∧
  migrating (compaction s0) (replay_file s0) d.
Proof.
  intros Hd. assert (sound d (files (conn s0)) ∧ heads_forward (db (conn s0)) d ∧
    rows_from (replay_file s0) (db (conn s0)) d) as (Hs & Hf & Hfrom).
  { destruct Hd as [->|Hd]; [|by apply HR]. split; [done|]. split; [apply heads_forward_refl|by apply rows_from_refl]. }
  split; [|split; [done|eapply migrating_from; [done|]; apply Hclear]]. apply sound_recoverable; [done|]. destruct Hclear as (_ & _ & Hr & _). by apply recoverable_file in Hr.
Qed.
Lemma clear_made s d : d = db (conn s0) ∨ made R s0 d → core s = at_state s0 (files (conn s0)) d None None → clear heads s.
Proof.
  intros Hd Hc. destruct (kept_state _ Hd) as (Hr & Hf & Hm). destruct (at_state_rest _ _ _ _ _ _ Hc) as (Hcells & Hname & _).
  unfold clear. rewrite (at_state_before _ _ _ _ _ _ Hc), (at_state_unresolved _ _ _ _ _ _ Hc), (at_state_db _ _ _ _ _ _ Hc),
    (at_state_files _ _ _ _ _ _ Hc), (at_state_compaction _ _ _ _ _ _ Hc), Hcells, Hname. split_and!; [done..| |done].
  eapply watermarks_forward; [done|]. apply Hclear.
Qed.
Lemma recorded_kept s s' u dn d o : suspended_on R s0 s u dn d o →
  core s' = at_state s0 (files (conn s0)) d o (Some (with_settlement m u)) → kept s0 s'.
Proof.
  intros Hs Hc. destruct (at_state_rest _ _ _ _ _ _ Hc) as (Hcells & Hname & _).
  assert (dn = db (conn s0) ∨ made R s0 dn) as Hdn by (destruct (su_new _ _ _ _ _ _ _ Hs) as [[_ ?]|?]; [by left|by right]).
  destruct (kept_state _ Hdn) as (Hrn & Hfn & _).
  destruct (kept_state (db (conn s0)) (or_introl eq_refl)) as (Hr0 & Hf0 & _). split; [right|split].
  - exists (with_settlement m u), (db (conn s0)), dn. constructor;
      rewrite ?(at_state_unresolved _ _ _ _ _ _ Hc), ?(at_state_db _ _ _ _ _ _ Hc),
      ?(at_state_before _ _ _ _ _ _ Hc), ?(at_state_files _ _ _ _ _ _ Hc), ?Hcells, ?Hname; try done.
    + apply Hs.
    + apply Hclear.
    + intros done s1 t Hne Hset. rewrite (at_state_again _ _ _ _ _ _ _ _ _ _ Hc) in Hset.
      eapply Hsettles; [|exact Hset]. destruct done; [|done]. specialize (Hne eq_refl).
      by destruct (su_new _ _ _ _ _ _ _ Hs) as [[? _]|?].
  - unfold durable. rewrite (at_state_db _ _ _ _ _ _ Hc), (at_state_before _ _ _ _ _ _ Hc).
    destruct (su_durable _ _ _ _ _ _ _ Hs) as [->| ->]; done.
  - rewrite (at_state_files _ _ _ _ _ _ Hc), (at_state_unresolved _ _ _ _ _ _ Hc). done.
Qed.
End recorded.

(** Rows only: nothing to settle but the record. *)
Lemma rows_settle s0 R : clear heads s0 → sound (db (conn s0)) (files (conn s0)) →
  (∀ d, made R s0 d → sound d (files (conn s0)) ∧ heads_forward (db (conn s0)) d ∧
     rows_from (replay_file s0) (db (conn s0)) d) →
  ∀ (done : bool) d u s1 t, (if done then made R s0 d else d = db (conn s0)) →
     settled IndexedRows done (at_state s0 (files (conn s0)) d None u) s1 t →
     clear heads (set_unresolved None s1) ∧ db (conn s1) = d.
Proof.
  intros Hclear Hsound HR done d u s1 t Hd [-> _]. split; [|done].
  eapply (clear_made s0 R Hclear Hsound HR _ d); [by destruct done; [right|left]|done].
Qed.
Lemma suspended_rows s0 R s : clear heads s0 → sound (db (conn s0)) (files (conn s0)) →
  (∀ d, made R s0 d → sound d (files (conn s0)) ∧ heads_forward (db (conn s0)) d ∧
     rows_from (replay_file s0) (db (conn s0)) d) → suspended R s0 s → kept s0 s.
Proof.
  intros Hclear Hsound HR (u & dn & d & o & Hs). eapply (recorded_kept s0 R IndexedRows); try done; [by apply rows_settle|].
  rewrite (su_state _ _ _ _ _ _ _ Hs). pose proof (su_plain _ _ _ _ _ _ _ Hs) as Hp. destruct u. cbn in *. by subst.
Qed.
End session.

Local Open Scope Z_scope.

Section session.
Context `{!UuidDisplay, !StateJson, !StorageCodes} (env : SpaceEnv) (heads : gmap RunId Cell).

(** ** The loops *)

Lemma query_core {A} (f : Db → A) s : wp (on_conn (query (host env) f)) s (λ s' r,
  core s' = core s ∧ match r with Ok a => a = f (db (conn s)) | Err _ => True end).
Proof.
  apply wp_on_conn. eapply wp_mono; [apply (query_only (tx env))|]. intros c r (Hd & Hf & Hr).
  split; [|by destruct r]. destruct s as [[] ? ? ? ? ? ? ? ? ? ? ? ?], c. cbn in *. by subst.
Qed.
Lemma evicts_forward s s' : evicts s s' → heads_forward (db s) (db s').
Proof. intros He id r Hr. destruct (ev_runs _ _ He _ _ Hr) as (r' & ? & _ & Hh). exists r'. split; [done|lia]. Qed.
Lemma evicts_sound s s' : evicts s s' → store_ok (db s') (files s') → sound (db s) (files s) → sound (db s') (files s').
Proof.
  intros He Hok [_ Hs]. split; [done|].
  assert (∀ d fs, Forall (row_synced fs) (chunk_rows d) ↔ synced_but {| file_name := EmptyString; next_offset := 0; unsynced := false |} d fs) as Hiff.
  { intros d fs. split; intros Hl; (eapply Forall_impl; [exact Hl|]); cbn; naive_solver. }
  rewrite Hiff in Hs. apply Hiff. by apply (ev_synced _ _ He).
Qed.

(** What a reclamation promises about the store. *)
Definition reclaim_ends (s0 : Session) (target : option RunId) (most : Z) (nothing : Prop) (s : Session) (r : result bool PersistenceError) : Prop :=
  match r with
  | Ok true => clear heads s ∧ cells s = cells s0 ∧ (effective s = effective s0 ∧ replay_file s = replay_file s0) ∧
      ∃ plan, front_plan (targets target (db (conn s0))) plan ∧ 0 < plan_total plan ∧ plan_total plan ≤ most ∧
        reclaimed (conn s0) (conn s) plan
  | Ok false => core s = core s0 ∧ nothing
  | Err e => kept heads s0 s
  end.
Lemma reclaimed_ext a b a' b' plan : unchanged a a' → unchanged b b' → reclaimed a b plan → reclaimed a' b' plan.
Proof.
  intros [Hda Hfa] [Hdb Hfb] (Hok & [K1 K2 K3 K4 K5 K6 K7] & Ht & Hw & Hs). unfold reclaimed, took, total_replay in *.
  unfold window_of in *. rewrite Hda, Hdb, ?Hfa, Hfb.
  split; [done|]. split; [|done]. constructor; rewrite ?Hda, ?Hdb, ?Hfa, ?Hfb; try done.
  intros id w. unfold window_of in *. rewrite Hda, Hdb, Hfa, Hfb. apply K5.
Qed.
Lemma front_plan_total rows plan : front_plan rows plan → Forall (λ r, 0 < row_bytes r) rows → 0 ≤ plan_total plan.
Proof.
  unfold plan_total. induction 1 as [|r rows plan Hp IH|r rows shed]; rewrite ?sumZ_cons; cbn [snd sumZ foldr]; [lia| |lia].
  intros [Hr Hrows]%Forall_cons. specialize (IH Hrows). unfold plan_total in IH. lia.
Qed.
Lemma front_plan_pos rows r shed plan : front_plan rows ((r, shed) :: plan) → Forall (λ r, 0 < row_bytes r) rows →
  0 < plan_total ((r, shed) :: plan).
Proof.
  unfold plan_total. rewrite sumZ_cons. cbn [snd]. inversion 1 as [|r' rows' plan' Hp|]; subst.
  - intros [Hr Hrows]%Forall_cons. pose proof (front_plan_total _ _ Hp Hrows). unfold plan_total in *. lia.
  - cbn. lia.
Qed.
Lemma rows_positive d fs : tables_ok d fs → ∀ target n, Forall (λ r, 0 < row_bytes r) (take n (targets target d)).
Proof.
  intros Ht target n. apply Forall_take, Forall_forall. intros r [_ Hr]%list_elem_of_filter.
  pose proof (tables_rows _ _ Ht) as Hok. rewrite Forall_forall in Hok. destruct (Hok _ Hr) as (? & ? & ? & _). lia.
Qed.

(** One try of either loop. *)
Lemma try_spec s0 s target n r shed plan : clear heads s0 → sound (db (conn s0)) (files (conn s0)) → core s = core s0 →
  front_plan (take n (targets target (db (conn s0)))) ((r, shed) :: plan) →
  wp (maintenance env (WitnessReplayChunk (ordinal r)) (retire_rows env ((r, shed) :: plan))) s (λ s' res,
    match res with
    | Ok true => reclaim_ends s0 target (plan_total ((r, shed) :: plan)) False s' (Ok true)
    | Ok false => core s' = core s0
    | Err e => kept heads s0 s'
    end).
Proof.
  intros Hclear Hsound Hcore Hp. rewrite <-(core_db _ _ Hcore), <-(core_files _ _ Hcore) in *.
  pose proof (core_clear heads _ _ Hcore Hclear) as Hc.
  pose proof (front_plan_app _ (drop n (targets target (db (conn s)))) _ Hp) as Hall. rewrite take_drop in Hall.
  set (R := λ c, reclaimed (conn s) c ((r, shed) :: plan)).
  assert (∀ d, made R s d → sound d (files (conn s)) ∧ heads_forward (db (conn s)) d ∧
    rows_from (replay_file s) (db (conn s)) d) as HR.
  { intros d (c & (Hok & He & _) & Hf & <-). split; [|split; [by apply evicts_forward|apply He]].
    rewrite <-Hf. by eapply evicts_sound. }
  eapply wp_mono. { apply (maintenance_spec _ heads) with (R := R); [done|].
    intros c Hu. eapply retire_rows_spec; [done|apply Hsound|exact Hall]. }
  intros s' [[]|e] Hr.
  - destruct Hr as (d & Hmade & Hs'). destruct (at_state_rest _ _ _ _ _ _ Hs') as (Hcells & Hname & Heff).
    split; [by eapply (clear_made heads s R); [..|right|]|].
    assert (cells s0 = cells s ∧ effective s0 = effective s ∧ replay_file s0 = replay_file s) as (-> & -> & ->).
    { split; [exact (f_equal cells (eq_sym Hcore))|]. split; [exact (f_equal effective (eq_sym Hcore))|exact (f_equal replay_file (eq_sym Hcore))]. }
    split_and!; [done..|]. eexists. split; [by rewrite <-(core_db _ _ Hcore)|].
    split; [eapply front_plan_pos; [exact Hp|by eapply rows_positive, Hsound]|]. split; [done|].
    destruct Hmade as (c & HRc & Hfc & Hd). eapply reclaimed_ext; [| |exact HRc].
    + split; [by rewrite (core_db _ _ Hcore)|by rewrite (core_files _ _ Hcore)].
    + split; [rewrite (at_state_db _ _ _ _ _ _ Hs'); by subst|by rewrite (at_state_files _ _ _ _ _ _ Hs')].
  - by rewrite Hr.
  - eapply kept_trans; [done|]. destruct Hr as [Hr|[_ Hr]]; [by apply kept_core|by eapply suspended_rows].
Qed.

(** Each refused try halves the rows, so the binary length of their number is enough fuel. *)
Lemma halved rows fuel : (1 ≤ rows)%N → rows ≠ 1%N → (N.to_nat (N.log2 rows) < S fuel)%nat →
  (1 ≤ rows / 2)%N ∧ (N.to_nat (N.log2 (rows / 2)) < fuel)%nat.
Proof.
  intros K1 K2 K3. assert (1 ≤ rows / 2)%N as Hhalf by (apply N.div_le_lower_bound; lia). split; [done|].
  rewrite <-(N.pow_1_r 2), <-N.shiftr_div_pow2, N.log2_shiftr.
  assert (1 ≤ N.log2 rows)%N by (change 1%N with (N.log2 2); apply N.log2_le_mono; lia). lia.
Qed.
Lemma taken rows (l : list ReplayRow) : (1 ≤ rows)%N → take (N.to_nat rows) l = [] → l = [].
Proof. intros Hr. replace (N.to_nat rows) with (S (N.to_nat (rows - 1))) by lia. by destruct l. Qed.

Lemma reclaim_rows_spec s0 needed target fuel : clear heads s0 → sound (db (conn s0)) (files (conn s0)) →
  ∀ rows s, core s = core s0 → (1 ≤ rows)%N → (N.to_nat (N.log2 rows) < fuel)%nat →
  wp (reclaim_rows env fuel rows needed target) s
    (reclaim_ends s0 target (Z.of_N needed) (needed = 0%N ∨ targets target (db (conn s0)) = [])).
Proof.
  intros Hclear Hsound. induction fuel as [|fuel IH]; intros rows s Hcore Hrows Hfuel; [lia|]. cbn [reclaim_rows].
  apply wp_bind. eapply wp_mono; [apply query_core|]. intros s1 r [Hc1 Hr]. rewrite Hcore in Hc1.
  destruct r as [plan|e]; [|by apply kept_core]. rewrite (core_db _ _ Hcore) in Hr.
  change (oldest_rows target (N.to_nat rows) (db (conn s0))) with (take (N.to_nat rows) (targets target (db (conn s0)))) in Hr.
  pose proof (rows_positive _ _ (proj1 (proj1 Hsound)) target (N.to_nat rows)) as Hpos.
  destruct (shed_plan_front needed _ Hpos) as (found & Hfound & Hfront & Hmost & Hnone).
  rewrite Hfound in Hr. subst plan. destruct found as [|[x shed] plan].
  { apply wp_ret. split; [done|]. destruct Hnone as [?|Htake]; [done|by left|right; by eapply taken]. }
  apply wp_bind. eapply wp_mono; [by eapply try_spec|]. intros s2 [[]|e] Hr2; [| |done].
  - apply wp_ret. destruct Hr2 as (K1 & K2 & [] & cut & K3 & K4 & K5 & K6). split_and!; [done..|]. exists cut.
    split_and!; [done|done|by etrans|done].
  - case_decide as Hone; [by apply wp_fail, kept_core|].
    destruct (halved _ _ Hrows Hone Hfuel). by apply IH.
Qed.
Lemma targets_all d : targets None d = chunk_rows d.
Proof. unfold targets. induction (chunk_rows d) as [|x l IH]; [done|]. by rewrite filter_cons, decide_True, IH. Qed.
Lemma whole_rows_total l : plan_total (whole_rows l) = sumZ row_bytes l.
Proof. unfold plan_total, whole_rows. induction l as [|x l IH]; [done|]. by rewrite map_cons, !sumZ_cons, IH. Qed.
Lemma reclaim_pages_spec s0 capacity fuel : clear heads s0 → sound (db (conn s0)) (files (conn s0)) →
  ∀ rows s, core s = core s0 → (1 ≤ rows)%N → (N.to_nat (N.log2 rows) < fuel)%nat →
  wp (reclaim_pages env fuel rows capacity) s
    (reclaim_ends s0 None (sumZ row_bytes (chunk_rows (db (conn s0)))) False).
Proof.
  intros Hclear Hsound. induction fuel as [|fuel IH]; intros rows s Hcore Hrows Hfuel; [lia|]. cbn [reclaim_pages].
  apply wp_bind. eapply wp_mono; [apply query_core|]. intros s1 r [Hc1 Hr]. rewrite Hcore in Hc1.
  destruct r as [l|e]; [|by apply kept_core]. rewrite (core_db _ _ Hcore) in Hr.
  change (oldest_rows None (N.to_nat rows) (db (conn s0))) with (take (N.to_nat rows) (targets None (db (conn s0)))) in Hr.
  pose proof (whole_rows_front l) as Hfront. rewrite Hr in Hfront at 1.
  assert (plan_total (whole_rows l) ≤ sumZ row_bytes (chunk_rows (db (conn s0)))) as Hmost.
  { rewrite targets_all in Hr. rewrite whole_rows_total.
    pose proof (Forall_drop _ (N.to_nat rows) _ (tables_rows _ _ (proj1 (proj1 Hsound)))) as Hok. rewrite Forall_forall in Hok.
    rewrite <-(take_drop (N.to_nat rows) (chunk_rows (db (conn s0)))) at 1. rewrite sumZ_app, <-Hr.
    assert (0 ≤ sumZ row_bytes (drop (N.to_nat rows) (chunk_rows (db (conn s0))))); [|lia].
    apply sumZ_nonneg. intros x Hx. destruct (Hok x Hx) as (? & ? & ? & _). lia. }
  destruct l as [|x l]; [by apply wp_fail, kept_core|].
  apply wp_bind. eapply wp_mono; [by eapply try_spec|]. intros s2 [[]|e] Hr2; [| |done].
  - apply wp_ret. destruct Hr2 as (K1 & K2 & [] & cut & K3 & K4 & K5 & K6). split_and!; [done..|]. exists cut.
    split_and!; [done|done|by etrans; [exact K5|exact Hmost]|done].
  - case_decide as Hone; [by apply wp_fail, kept_core|].
    destruct (halved _ _ Hrows Hone Hfuel). by apply IH.
Qed.

(** ** The entry points *)

(** The active file is within SQLite's integers. *)
Definition file_fits (s : Session) : Prop :=
  ∀ f, files (conn s) !! replay_file s = Some f → (len (contents f) ≤ i64_max)%N.
Lemma clear_sound s : clear heads s → file_fits s → sound (db (conn s)) (files (conn s)).
Proof.
  intros (_ & _ & Hr & _) Hf. destruct (recoverable_file _ _ _ Hr) as [f Hff]. eapply recoverable_sound; [done..|by apply Hf].
Qed.
Lemma funding_positive : (1 ≤ row_funding (tx env))%N.
Proof. unfold row_funding. lia. Qed.
Lemma reclaim_confirmed_spec s0 s needed target : clear heads s0 → file_fits s0 → core s = core s0 →
  wp (reclaim_confirmed_prefix env needed target) s
    (reclaim_ends s0 target (Z.of_N needed) (needed = 0%N ∨ targets target (db (conn s0)) = [])).
Proof.
  intros Hc Hf Hcore. apply reclaim_rows_spec; [done|by apply clear_sound|done|apply funding_positive|lia].
Qed.

Lemma quiet_pages : quiet (database_capacity env).
Proof. unfold database_capacity, pages_of. quiet. Qed.
(** Quiet calls in front of a reclamation. *)
Lemma quiet_then {A} (m : SX A) (k : A → SX bool) s0 s target most nothing : clear heads s0 → quiet m → core s = core s0 →
  (∀ a s', core s' = core s0 → wp (k a) s' (reclaim_ends s0 target most nothing)) →
  wp (bind m k) s (reclaim_ends s0 target most nothing).
Proof.
  intros Hc Hq Hcore Hk. apply wp_bind. eapply wp_mono; [apply Hq|]. intros s' [a|e] Hs; rewrite Hcore in Hs; [by apply Hk|].
  by apply kept_core.
Qed.
Lemma reclaim_weaken s0 target most most' (nothing nothing' : Prop) s r : most ≤ most' → (nothing → nothing') →
  reclaim_ends s0 target most nothing s r → reclaim_ends s0 target most' nothing' s r.
Proof.
  intros Hm Hn. destruct r as [[]|e]; cbn; [|intros [? ?]; auto|done]. intros (? & ? & [] & cut & ? & ? & ? & ?).
  split_and!; [done..|]. exists cut. split_and!; [done|done|lia|done].
Qed.
Lemma reclaim_database_pages_spec s0 s e : clear heads s0 → file_fits s0 → core s = core s0 →
  wp (reclaim_database_pages env e) s (reclaim_ends s0 None (sumZ row_bytes (chunk_rows (db (conn s0)))) True).
Proof.
  intros Hc Hf Hcore. unfold reclaim_database_pages. apply quiet_then; [done|apply quiet_get|done|].
  intros s1 s2 Hs2. case_match; [by apply wp_ret|]. apply quiet_then; [done|apply quiet_pages|done|].
  intros [[pages free] limit] s3 Hs3. case_match; [by apply wp_ret|]. eapply wp_mono.
  { apply reclaim_pages_spec; [done|by apply clear_sound|done|apply funding_positive|lia]. }
  intros s' r. apply reclaim_weaken; [lia|done].
Qed.

(** What [reclaim_output_prefix] asks for. *)
Definition run_need (limits : EffectiveStoragePolicy) (r : RunRow) (replay : OutputReplay) : N :=
  let head := Z.to_N (durable_output_bytes r) in
  if replay_truncated replay && bool_decide (head < replay_first_available_byte replay)%N then Z.to_N (replay_bytes r)
  else ((Z.to_N (replay_bytes r) +sat fresh_total head replay) - effective_run_bytes limits)%N.
Definition store_need (limits : EffectiveStoragePolicy) (d : Db) (r : RunRow) (replay : OutputReplay) : N :=
  ((Z.to_N (total_replay d) +sat fresh_total (Z.to_N (durable_output_bytes r)) replay) - effective_replay_bytes limits)%N.
(** The Run, when the Run is over its own limit; else any. *)
Definition reclaim_target (own : N) (id : RunId) : option RunId := if decide (0 < own)%N then Some id else None.

(** [reclaim_output_prefix] takes from the Run when the Run is over its limit, from the
    store when the store is, and nothing when there is room. *)
Definition output_reclaimed (s0 : Session) (id : RunId) (replay : OutputReplay) (s : Session) (r : result bool PersistenceError) : Prop :=
  match r with
  | Err e => kept heads s0 s
  | Ok _ => ∃ row, run_rows (db (conn s0)) !! id = Some row ∧
      let own := run_need (effective s0) row replay in
      let needed := N.max own (store_need (effective s0) (db (conn s0)) row replay) in
      reclaim_ends s0 (reclaim_target own id) (Z.of_N needed)
        (needed = 0%N ∨ targets (reclaim_target own id) (db (conn s0)) = []) s r
  end.
Lemma query_row_core {A} (f : Db → option A) s : wp (on_conn (query_row (host env) f)) s (λ s' r,
  core s' = core s ∧ match r with Ok a => f (db (conn s)) = Some a | Err _ => True end).
Proof.
  assert (∀ s c, db c = db (conn s) → files c = files (conn s) → core (set_conn c s) = core s) as Hcore.
  { intros [[] ? ? ? ? ? ? ? ? ? ? ? ?] [] ??. cbn in *. by subst. }
  apply wp_on_conn. unfold query_row. apply wp_bind. eapply wp_mono; [apply (query_only (tx env))|].
  intros c [[a|]|e] (Hd & Hf & Hr); (split; [by apply Hcore|]); done.
Qed.
Lemma fresh_fits head replay : (fresh_total 0 replay ≤ u64_max)%N →
  fresh_bytes head replay = Some (fresh_total head replay).
Proof.
  intros Hmax. unfold fresh_bytes. rewrite decide_True; [done|]. etrans; [|exact Hmax].
  unfold fresh_total. induction (replay_chunks replay) as [|c l IH]; rewrite ?sumN_cons; [done|]. lia.
Qed.
(** What is asked once the Run's row and the sum are read. *)
Lemma reclaim_needed_spec s0 s id replay row : clear heads s0 → file_fits s0 → core s = core s0 →
  run_rows (db (conn s0)) !! id = Some row →
  let head := Z.to_N (durable_output_bytes row) in
  wp (let gap := replay_truncated replay && bool_decide (head < replay_first_available_byte replay)%N in
      let* a := on_conn (query (host env) accounting) in
      let* s := get in
      let own := if gap then Z.to_N (replay_bytes row)
                 else ((Z.to_N (replay_bytes row) +sat fresh_total head replay) - effective_run_bytes (effective s))%N in
      let* total := lift_result (nonnegative_u64 (acc_replay_bytes a) "global replay bytes") in
      let* s := get in
      let global := ((total +sat fresh_total head replay) - effective_replay_bytes (effective s))%N in
      let needed := N.max own global in
      if decide (needed = 0%N) then mret_ false else
      reclaim_confirmed_prefix env needed (if decide (0 < own)%N then Some id else None)) s
    (output_reclaimed s0 id replay).
Proof.
  intros Hc Hf Hc1 Hrow head. pose proof (clear_sound _ Hc Hf) as [[Ht _] _].
  apply wp_bind. eapply wp_mono; [apply query_core|]. intros s2 [a|e] [Hc2 Ha]; rewrite Hc1 in Hc2; [|by apply kept_core].
  rewrite (core_db _ _ Hc1) in Ha. subst a. apply wp_bind, wp_get.
  apply wp_bind, wp_lift_result. rewrite nonnegative_ok by by eapply total_nonneg.
  apply wp_bind, wp_get. cbv zeta. rewrite (f_equal effective Hc2 : effective s2 = effective s0).
  fold (total_replay (db (conn s0))).
  change (if _ && _ then _ else _) with (run_need (effective s0) row replay).
  change ((Z.to_N (total_replay (db (conn s0))) +sat fresh_total head replay) - effective_replay_bytes (effective s0))%N
    with (store_need (effective s0) (db (conn s0)) row replay).
  set (needed := N.max _ _). case_decide as Hz.
  { apply wp_ret. exists row. split; [done|]. split; [done|by left]. }
  eapply wp_mono; [by apply (reclaim_confirmed_spec s0)|]. intros s' [b|e] Hr; [|done]. by exists row.
Qed.
(** The sum of the chunks' lengths overflows, or the reclamation ends as it promises. *)
Lemma reclaim_output_runs s0 id replay : clear heads s0 → file_fits s0 →
  match reclaim_output_prefix env id replay s0 with
  | Ret (s, r) => output_reclaimed s0 id replay s r
  | Panic _ => ∃ head, fresh_bytes head replay = None
  end.
Proof.
  intros Hc Hf. pose proof (clear_sound _ Hc Hf) as [[Ht _] _]. unfold reclaim_output_prefix, bind at 1.
  pose proof (query_row_core (λ d, run_rows d !! id) s0) as Hq. unfold wp in Hq.
  destruct (on_conn _ s0) as [[s1 [row|e]]|]; [|by destruct Hq; apply kept_core|done]. destruct Hq as [Hc1 Hrow].
  destruct (tables_runs _ _ Ht _ _ Hrow) as (? & ? & ? & Hheld & _).
  unfold bind at 1, lift_result at 1. rewrite nonnegative_ok by lia.
  unfold bind at 1, lift_result at 1. rewrite nonnegative_ok by lia. unfold bind at 1.
  set (head := Z.to_N (durable_output_bytes row)). destruct (fresh_bytes head replay) as [fresh|] eqn:Hfresh; [|by exists head].
  assert (fresh = fresh_total head replay) as -> by (unfold fresh_bytes in Hfresh; by case_decide; simplify_eq).
  pose proof (reclaim_needed_spec s0 s1 id replay row Hc Hf Hc1 Hrow) as Hw. unfold wp in Hw. cbv zeta in Hw. cbn [mret_].
  match goal with |- match ?x with _ => _ end => match type of Hw with match ?y with _ => _ end => change x with y end end.
  match type of Hw with match ?y with _ => _ end => by destruct y as [[s2 r]|] end.
Qed.
Lemma reclaim_output_spec s0 id replay : clear heads s0 → file_fits s0 → (fresh_total 0 replay ≤ u64_max)%N →
  wp (reclaim_output_prefix env id replay) s0 (output_reclaimed s0 id replay).
Proof.
  intros Hc Hf Hmax. pose proof (reclaim_output_runs s0 id replay Hc Hf) as Hr. unfold wp.
  destruct (reclaim_output_prefix env id replay s0) as [[s r]|]; [done|]. destruct Hr as [head Hn].
  by rewrite fresh_fits in Hn.
Qed.
End session.
