(* ===== verification/StoreCompaction.v ===== *)
(** * Compacting the replay files

    [persistence.rs], [StateStore]: output is appended to one active file and eviction only
    drops rows, so the files keep bytes no row names.  Compaction publishes a fresh active
    file, moves the rows of every older file into it in page-admitted batches, and removes
    files no row names.  What is still to do is the session's [CompactionState], so a step
    that stops (after a batch, or at an error) is resumed by the next one.

    A [BufWriter] is modelled as writing through: what it delays it writes at its flush or
    when it is dropped. *)

From S2P Require Import Prelude.
From S2P Require Import Protocol.
From S2P Require Import Resources.
From S2P Require Import StorageErrors.
From S2P Require Import ReplayStore.
From S2P Require Import StoreTransaction.
From S2P Require Import StoreAppend.
From S2P Require Import StoreReclaim.

(** ** The compaction state *)

Definition set_force (b : bool) (c : CompactionState) : CompactionState :=
  {| force_compaction := b; compaction_pending := compaction_pending c;
     compaction_sources_pending := compaction_sources_pending c;
     compaction_cursor := compaction_cursor c; replay_cleanup_needed := replay_cleanup_needed c |}.
Definition set_pending (b : bool) (c : CompactionState) : CompactionState :=
  {| force_compaction := force_compaction c; compaction_pending := b;
     compaction_sources_pending := compaction_sources_pending c;
     compaction_cursor := compaction_cursor c; replay_cleanup_needed := replay_cleanup_needed c |}.
Definition set_sources (l : list string) (c : CompactionState) : CompactionState :=
  {| force_compaction := force_compaction c; compaction_pending := compaction_pending c;
     compaction_sources_pending := l;
     compaction_cursor := compaction_cursor c; replay_cleanup_needed := replay_cleanup_needed c |}.
Definition set_cursor (z : Z) (c : CompactionState) : CompactionState :=
  {| force_compaction := force_compaction c; compaction_pending := compaction_pending c;
     compaction_sources_pending := compaction_sources_pending c;
     compaction_cursor := z; replay_cleanup_needed := replay_cleanup_needed c |}.
Definition set_cleanup (b : bool) (c : CompactionState) : CompactionState :=
  {| force_compaction := force_compaction c; compaction_pending := compaction_pending c;
     compaction_sources_pending := compaction_sources_pending c;
     compaction_cursor := compaction_cursor c; replay_cleanup_needed := b |}.
Definition i64_min : Z := (- Z.of_N i64_max - 1)%Z.

(** ** What the rows name *)

(** [SELECT data_file, max(data_offset + data_bytes) ... GROUP BY data_file]; the order of
    the map is the host's, here that of the first rows. *)
Fixpoint note_end (name : string) (stop : Z) (l : list (string * Z)) : list (string * Z) :=
  match l with
  | [] => [(name, stop)]
  | (n, z) :: l => if decide (n = name) then (n, Z.max z stop) :: l else (n, z) :: note_end name stop l
  end.
Definition referenced_ends (d : Db) : list (string * Z) :=
  fold_left (λ l r, note_end (row_file r) (row_offset r + row_bytes r)%Z l) (chunk_rows d) [].
(** [entry(active).or_insert(0)]. *)
Definition or_insert (name : string) (l : list (string * Z)) : list (string * Z) :=
  if decide (name ∈ map fst l) then l else l ++ [(name, 0%Z)].
(** [compaction_sources_for]: [SELECT DISTINCT]. *)
Definition sources_of (active : string) (d : Db) : list string :=
  filter (λ n, n ≠ active) (map fst (referenced_ends d)).
(** The next rows of a source, [ORDER BY ordinal LIMIT ?]. *)
Definition source_rows (after : Z) (source : string) (limit : N) (d : Db) : list ReplayRow :=
  take (N.to_nat limit) (filter (λ r, (after < ordinal r)%Z ∧ row_file r = source) (chunk_rows d)).
(** [UPDATE replay_chunks SET data_file, data_offset WHERE ordinal AND data_file]. *)
Definition move_row (o : Z) (target : string) (offset : Z) (r : ReplayRow) : ReplayRow :=
  {| ordinal := o; row_run := row_run r; row_start := row_start r; row_end := row_end r;
     row_file := target; row_offset := offset; row_bytes := row_bytes r |}.
Definition relocate (o : Z) (source target : string) (offset : Z) (d : Db) : Db :=
  set_chunks (map (λ r, if decide (ordinal r = o ∧ row_file r = source) then move_row o target offset r else r)
                (chunk_rows d)) d.
Definition matching (o : Z) (source : string) (d : Db) : list ReplayRow :=
  filter (λ r, ordinal r = o ∧ row_file r = source) (chunk_rows d).
Definition set_active_file (name : string) (d : Db) : Db :=
  {| chunk_rows := chunk_rows d; chunk_sequence := chunk_sequence d; run_rows := run_rows d;
     active_replay_file := name; accounting := accounting d |}.

Definition already_exists (path : string) : PersistenceError :=
  Io path {| raw_os_error := Some 17%Z; io_kind := OtherKind; io_text := "File exists" |}.
Definition file_too_large (path : string) : PersistenceError :=
  Io path {| raw_os_error := Some 27%Z; io_kind := OtherKind; io_text := "File too large" |}.

Section compaction.
Context `{!UuidDisplay, !StateJson, !StorageCodes} (env : SpaceEnv).

Definition on_compaction (f : CompactionState → CompactionState) : SX unit :=
  modify (λ s, set_compaction (f (compaction s)) s).

(** ** Files *)

Definition open_file (name : string) : SM unit := guarded (host env) (λ s,
  Ret (s, match files s !! name with Some _ => Ok tt | None => Err (not_found name) end)).
Definition create_file (name : string) : SM unit := guarded (host env) (λ s,
  match files s !! name with
  | Some _ => Ret (s, Err (already_exists name))
  | None => Ret (set_files (<[name := {| contents := []; synced_bytes := 0 |}]> (files s)) s, Ok tt)
  end).
Definition sync_file (name : string) : SM unit := guarded (host env) (modify (sync_bytes name)).
Definition sync_directory : SX unit := ask (tx env) (λ _, tt).
(** [write_all] may fail after some of the bytes; a file ends at the largest [off_t]. *)
Definition write_all (name : string) (d : bytes) : SM unit :=
  let* t := tick in
  let* s := get in
  let fits := i64_max - len_of_file name s in
  match fault (host env) t with
  | Some e => modify (append_bytes name (takeN (N.min (write_leaves (host env) t) fits) d)) ;;; mfail e
  | None =>
      if decide (len d ≤ fits) then modify (append_bytes name d)
      else modify (append_bytes name (takeN fits d)) ;;; mfail (file_too_large name)
  end.
Definition read_exact (name : string) (at_ n : N) : SM bytes := guarded (host env) (λ s,
  if decide (at_ + n ≤ len_of_file name s) then Ret (s, Ok (file_bytes name at_ n s))
  else Ret (s, Err (unexpected_eof name))).
(** [fs::remove_file(..).is_err()]. *)
Definition try_remove (name : string) : SX bool :=
  let* r := attempt (on_conn (unlink (tx env) name)) in mret_ (is_ok r).

(** ** [normalize_replay_files] *)

Definition trim_file (e : string * Z) : SX unit :=
  lift_result (validate_replay_file_name e.1) ;;;
  on_conn (validate_state_file (host env) e.1) ;;;
  let* stop := lift_result (nonnegative_u64 e.2 "replay file end") in
  let* actual := on_conn (file_len (host env) e.1) in
  if decide (actual < stop) then
    mfail (Corrupt ("replay file " +:+ e.1 +:+ " is shorter than its durable references"))
  else if decide (stop < actual) then
    on_conn (open_file e.1) ;;;
    on_conn (truncate_replay_tail (tx env) e.1 stop) ;;;
    on_conn (sync_file e.1)
  else mret_ tt.
Fixpoint trim_files (l : list (string * Z)) : SX unit :=
  match l with [] => mret_ tt | e :: l => trim_file e ;;; trim_files l end.
(** The entries of the directory, each of which may fail to be read. *)
Fixpoint retire_unreferenced (names : list string) (referenced : list (string * Z)) (retired : bool) : SX bool :=
  match names with
  | [] => mret_ retired
  | name :: names =>
      ask (tx env) (λ _, tt) ;;;
      if decide (name ∈ map fst referenced) then retire_unreferenced names referenced retired else
      let* removed := try_remove name in
      retire_unreferenced names referenced (retired && removed)
  end.
Definition normalize_replay_files : SX bool :=
  let* ends := on_conn (query (host env) referenced_ends) in
  let* s := get in
  let referenced := or_insert (replay_file s) ends in
  trim_files referenced ;;;
  ask (tx env) (λ _, tt) ;;;
  let* s := get in
  let* retired := retire_unreferenced (map fst (map_to_list (files (conn s)))) referenced true in
  let* synced := attempt sync_directory in
  mret_ (retired && is_ok synced).
Definition normalize_if_needed : SX unit :=
  let* s := get in
  if replay_cleanup_needed (compaction s) then
    let* retired := normalize_replay_files in on_compaction (set_cleanup (negb retired))
  else mret_ tt.

(** ** [compact_source] *)

Definition COPY_BUFFER : N := 8192.
(** The inner loop: one buffer at a time. *)
Fixpoint copy_bytes (fuel : nat) (source target : string) (at_ left : N) : SM unit :=
  if decide (left = 0) then mret_ tt else
  match fuel with
  | O => mpanic "out of fuel"
  | S fuel =>
      let count := N.min left COPY_BUFFER in
      let* d := read_exact source at_ count in
      write_all target d ;;;
      copy_bytes fuel source target (at_ + count) (left - count)
  end.
(** One batch of rows: their new offsets, the end of the copy and the position of the
    reader. *)
Fixpoint copy_rows (source target : string) (start : N) (rows : list ReplayRow)
    (offset : N) (moves : list (Z * Z)) (input_offset : N) : SM (list (Z * Z) * N) :=
  match rows with
  | [] => mret_ (moves, input_offset)
  | r :: rows =>
      let* old_offset := lift (nonnegative_u64 (row_offset r) "compaction source offset") in
      let* n := lift (nonnegative_u64 (row_bytes r) "compaction length") in
      if bool_decide (moves ≠ []) && bool_decide (MAX_TRANSACTION_PAYLOAD_BYTES < offset - start + n)
      then mret_ (moves, input_offset) else
      (if decide (input_offset = old_offset) then mret_ tt else guarded (host env) (mret_ tt)) ;;;
      copy_bytes (S (N.to_nat (n / COPY_BUFFER))) source target old_offset n ;;;
      let* input_offset := lift (ok_or (Corrupt "compaction source range overflow") (checked_add old_offset n)) in
      let* z := mutation_or "compaction offset overflow" (i64_of offset) in
      let* offset := mutation_or "compaction extent overflow" (checked_add offset n) in
      copy_rows source target start rows offset (moves ++ [(ordinal r, z)]) input_offset
  end.
(** The statements of one batch: each must find its row. *)
Fixpoint relocate_rows (source target : string) (moves : list (Z * Z)) : SM unit :=
  match moves with
  | [] => mret_ tt
  | (o, offset) :: moves =>
      let* before := get in
      execute (host env) (relocate o source target offset) ;;;
      ensure (bool_decide (length (matching o source (db before)) = 1%nat))
             (Mutation "compaction coordinate owner changed") ;;;
      relocate_rows source target moves
  end.
Definition last_move (moves : list (Z * Z)) : Z := List.last (map fst moves) 0%Z.
Definition record_settlement (m : MaintenanceSettlement) (s : Session) : Session :=
  set_unresolved (with_settlement m <$> unresolved s) s.

(** The loop of [compact_source]; [left] is how many more batches it may commit. *)
Fixpoint move_batches (fuel : nat) (source : string) (limit : N) (after : Z) (left : option nat)
    (input_offset : N) : SX bool :=
  match fuel with
  | O => mpanic "out of fuel"
  | S fuel =>
      let* rows := on_conn (query (host env) (source_rows after source limit)) in
      match rows with
      | [] => mret_ true
      | _ =>
          let* s := get in
          let target := replay_file s in
          let* start := on_conn (file_len (host env) target) in
          let* '(moves, input_offset) := on_conn (copy_rows source target start rows start [] input_offset) in
          on_conn (guarded (host env) (mret_ tt)) ;;;
          on_conn (sync_file target) ;;;
          match moves with
          | [] => mpanic "nonempty compaction batch"
          | (first, _) :: _ =>
              let* result := attempt (maintenance env (WitnessReplayChunk first)
                                        (on_store (relocate_rows source target moves))) in
              match result with
              | Err e =>
                  modify (record_settlement (ReplayMove target (active_identity s) start (last_move moves))) ;;;
                  (if requires_reconciliation e then mret_ tt
                   else on_conn (truncate_replay_tail (tx env) target start)) ;;;
                  mfail e
              | Ok false =>
                  on_conn (truncate_replay_tail (tx env) target start) ;;;
                  if decide (limit = 1) then
                    mfail (ResourcePressure "one compaction extent cannot fit wal_checkpoint_bytes; increase the policy")
                  else move_batches fuel source (N.max (limit / 2) 1) after left input_offset
              | Ok true =>
                  on_compaction (set_cursor (last_move moves)) ;;;
                  match left with
                  | None => move_batches fuel source limit (last_move moves) None input_offset
                  | Some (S (S n)) => move_batches fuel source limit (last_move moves) (Some (S n)) input_offset
                  | Some _ => mret_ false
                  end
              end
          end
      end
  end.
Definition compact_source (source : string) (batches : option nat) : SX bool :=
  let* s := get in
  on_conn (open_file source) ;;;
  on_conn (open_file (replay_file s)) ;;;
  let limit := row_funding (tx env) in
  let rows := length (chunk_rows (db (conn s))) in
  let* moved := move_batches (S (S (rows + N.to_nat (N.log2 limit)))) source limit
                  (compaction_cursor (compaction s)) batches 0 in
  if negb (moved : bool) then mret_ false else
  let* removed := try_remove source in
  (if (removed : bool) then mret_ tt else on_compaction (set_cleanup true)) ;;;
  mret_ true.

(** ** [compact_replay] *)

Definition replay_compaction_trigger_bytes (s : Session) : N := saturating_mul (effective_replay_bytes (effective s)) 2.
(** The guard removes the file unless its publication may be kept. *)
Definition dropping (name : string) {A} (k : SX A) : SX A :=
  let* r := attempt k in
  match r with
  | Ok a => mret_ a
  | Err e => let* _ := try_remove name in mfail e
  end.
Definition generation_name (id : RunId) : string := "replay-" +:+ show_run_id id +:+ ".bin".
(** Publishing a fresh active file; [false] when there is nothing to reclaim. *)
Definition publish_generation : SX bool :=
  let* s := get in
  let old := replay_file s in
  let* small := (if force_compaction (compaction s) then mret_ false else
    let* size := on_conn (file_len (host env) old) in
    mret_ (bool_decide (size ≤ replay_compaction_trigger_bytes s))) in
  if (small : bool) then
    on_compaction (set_pending false) ;;; mret_ false
  else
  let* indexed := on_conn (query (host env) (λ d, sumZ row_bytes (filter (λ r, row_file r = old) (chunk_rows d)))) in
  let* skip := (if force_compaction (compaction s) then mret_ false else
    let* size := on_conn (file_len (host env) old) in
    let* indexed := lift_result (nonnegative_u64 indexed "indexed replay bytes") in
    mret_ (bool_decide (size - indexed < replay_compaction_trigger_bytes s / 2))) in
  if (skip : bool) then mret_ false else
  let* s := get in
  let* id := never_fails (λ t, fresh_uuid env t (conn s)) in
  let name := generation_name id in
  let* '(identity, sources) := dropping name (
    on_conn (create_file name) ;;;
    on_conn (sync_file name) ;;;
    sync_directory ;;;
    let* identity := path_identity (tx env) name in
    let* sources := on_conn (query (host env) (sources_of name)) in
    mret_ (identity, sources)) in
  let* result := attempt (maintenance env WitnessActiveReplay
                            (on_store (execute (host env) (set_active_file name)))) in
  modify (record_settlement (ReplayPublication name identity sources)) ;;;
  match result with
  | Ok true =>
      modify (λ s, set_published name identity
                (set_cursor i64_min (set_sources sources (set_pending true (compaction s)))) s) ;;;
      match sources with
      | [] =>
          let* removed := try_remove old in
          (if (removed : bool) then mret_ tt else on_compaction (set_cleanup true)) ;;;
          on_compaction (set_pending false) ;;; mret_ true
      | _ => mret_ true
      end
  | Ok false =>
      let* _ := try_remove name in
      mfail (ResourcePressure "active replay publication cannot fit wal_checkpoint_bytes; increase the policy")
  | Err e =>
      let* _ := if requires_reconciliation e then mret_ true else try_remove name in mfail e
  end.

(** [while let Some(source) = ..front()]: [true] when every source was migrated. *)
Fixpoint migrate (sources : list string) (batches : option nat) : SX bool :=
  match sources with
  | [] => mret_ true
  | source :: rest =>
      let* moved := compact_source source batches in
      if negb (moved : bool) then mret_ false else
      on_compaction (λ c, set_cursor i64_min (set_sources rest c)) ;;;
      if bool_decide (is_Some batches) && bool_decide (rest ≠ []) then mret_ false
      else migrate rest batches
  end.
Definition compact_replay_once (batches : option nat) : SX unit :=
  normalize_if_needed ;;;
  let* s := get in
  let* active := on_conn (file_len (host env) (replay_file s)) in
  let c := compaction s in
  if negb (force_compaction c) && negb (compaction_pending c) &&
     bool_decide (active ≤ replay_compaction_trigger_bytes s) then mret_ tt else
  (if compaction_pending c && bool_decide (compaction_sources_pending c = []) then
     let* sources := on_conn (query (host env) (sources_of (replay_file s))) in
     on_compaction (set_sources sources)
   else mret_ tt) ;;;
  let* s := get in
  let* going := (if bool_decide (compaction_sources_pending (compaction s) = []) then publish_generation
                 else mret_ true) in
  if negb (going : bool) then mret_ tt else
  normalize_if_needed ;;;
  let* s := get in
  let* finished := migrate (compaction_sources_pending (compaction s)) batches in
  if negb (finished : bool) then mret_ tt else
  let* retired := normalize_replay_files in
  on_compaction (λ c, set_force false (set_pending false (set_cleanup (negb retired) c))).

(** A full database is retried after retiring confirmed rows, each of which holds a byte. *)
Fixpoint compact_until (fuel : nat) (batches : option nat) : SX unit :=
  match fuel with
  | O => mpanic "out of fuel"
  | S fuel =>
      let* result := attempt (compact_replay_once batches) in
      match result with
      | Ok _ => mret_ tt
      | Err e =>
          let* reclaimed := reclaim_database_pages env e in
          if (reclaimed : bool) then compact_until fuel batches else mfail e
      end
  end.
Definition compact_replay (batches : option nat) : SX unit :=
  validate_recovery_identity (tx env) ;;;
  let* s := get in
  compact_until (S (Z.to_nat (acc_replay_bytes (accounting (db (conn s)))))) batches.
Definition maybe_compact_replay : SX unit := compact_replay None.
Definition compact_replay_step : SX unit :=
  let* r := attempt (compact_replay (Some 1%nat)) in
  (if is_ok r then mret_ tt else on_compaction (set_cleanup true)) ;;;
  lift_result r.
End compaction.

Section funding.
Context `{!UuidDisplay, !StateJson, !StorageCodes} (env : SpaceEnv).

Definition filesystem_available_bytes : SX N :=
  let* v := ask (tx env) (available_bytes env) in
  lift_result (ok_or (ResourcePressure "filesystem available-byte observation overflows") v).
Definition write_capacity_error (e : PersistenceError) : SX PersistenceError :=
  let* s := get in
  if is_transient_storage e && is_autocommit s then
    let* available := attempt filesystem_available_bytes in
    mret_ (StorageUnavailable (match available with Ok n => Some n | Err _ => None end) e)
  else mret_ e.
(** [capacity_funding]. *)
Definition capacity_funding (observe_filesystem filesystem_debt : bool) : SX (N * N * N * N) :=
  let* '(pages, free, limit) := database_capacity env in
  let* bytes :=
    if observe_filesystem && (filesystem_debt || bool_decide (pages < limit) || bool_decide (0 < free))
    then filesystem_available_bytes else mret_ 0 in
  mret_ (pages, free, limit, bytes).

(** [file_allocated_bytes(..).min(file_len(..))]. *)
Definition allocated_part (name : string) : SX N :=
  let* held := ask (tx env) (λ t, allocated env t name) in
  let* n := state_file_len (tx env) name in
  mret_ (N.min held n).
Definition effective_database (s : Session) : SX N :=
  if decide (effective_database_bytes (effective s) = 0) then
    let* pages := ask (tx env) (λ t, (page_counts env t).2) in
    let* size := ask (tx env) (page_size env) in
    let* pages := lift_result (nonnegative_u64 pages "SQLite maximum pages") in
    let* size := lift_result (nonnegative_u64 size "SQLite page size") in
    lift_result (ok_or (ResourcePressure "SQLite effective page capacity overflows") (checked_mul pages size))
  else mret_ (effective_database_bytes (effective s)).
(** The scratch of one transaction: the growth of the WAL and of its index, a checkpoint
    and an append. *)
Definition scratch (r : ResourceLimits) (wal shm : N) : option N :=
  checked_add (wal_bytes r - wal) (shm_bytes r - shm) ≫= λ n,
  checked_add n (wal_checkpoint_bytes r) ≫= λ n, checked_add n MAX_TRANSACTION_PAYLOAD_BYTES.
Definition quota_or (quota : option N) (funded : N) : N :=
  match quota with Some q => N.min q funded | None => funded end.
(** The effective policy for what was observed, and whether to compact. *)
Definition fund (r : ResourceLimits) (database physical allocated work available : N)
    : option (EffectiveStoragePolicy * bool) :=
  match checked_add available allocated with
  | None => None
  | Some total =>
      let funded := (total - work) / 3 in
      let aggregate := quota_or (durable_replay_bytes r) funded in
      let compact := bool_decide (saturating_mul aggregate 2 < physical) in
      let aggregate := if compact then N.min aggregate (available - work) else aggregate in
      Some ({| effective_database_bytes := database; effective_replay_bytes := aggregate;
               effective_run_bytes := quota_or (durable_run_output_bytes r) aggregate |}, compact)
  end.
Definition no_scratch (available : option N) (required : N) (detail : string) : PersistenceError :=
  FilesystemCapacity available required detail.

(** Every round retires at least a byte. *)
Fixpoint retire_until (fuel : nat) (aggregate available work : N) : SX unit :=
  match fuel with
  | O => mpanic "out of fuel"
  | S fuel =>
      let* a := on_conn (query (host env) accounting) in
      let* retained := lift_result (nonnegative_u64 (acc_replay_bytes a) "confirmed replay funding") in
      if decide (retained ≤ aggregate) then mret_ tt else
      let* made := reclaim_confirmed_prefix env (retained - aggregate) None in
      if (made : bool) then retire_until fuel aggregate available work
      else mfail (no_scratch (Some available) (work +sat retained) "confirmed suffix has no funded replacement scratch")
  end.

Definition set_database_bytes (n : N) (p : EffectiveStoragePolicy) : EffectiveStoragePolicy :=
  {| effective_database_bytes := n; effective_replay_bytes := effective_replay_bytes p;
     effective_run_bytes := effective_run_bytes p |}.
Definition unfunded (p : EffectiveStoragePolicy) : EffectiveStoragePolicy :=
  {| effective_database_bytes := effective_database_bytes p; effective_replay_bytes := 0; effective_run_bytes := 0 |}.
Definition prepare_storage_work (payload : N) : SX unit :=
  validate_recovery_identity (tx env) ;;;
  let r := resources (tx env) in
  let* s := get in
  let* database := effective_database s in
  modify (λ s, set_effective (set_database_bytes database (effective s)) s) ;;;
  let* physical := directory_file_len (tx env) in
  let* held := ask (tx env) (allocated_replay env) in
  let* wal := allocated_part wal_file in
  let* shm := allocated_part shm_file in
  let* work := lift_result (ok_or (ResourcePressure "filesystem scratch arithmetic overflows") (scratch r wal shm)) in
  let* observed := attempt filesystem_available_bytes in
  match observed with
  | Err e =>
      modify (λ s, set_effective (unfunded (effective s)) s) ;;;
      mfail (no_scratch None (work +sat payload) ("filesystem funding is unknown: " +:+ error_text e))
  | Ok available =>
      match fund r database physical held work available with
      | None => mfail (ResourcePressure "filesystem owner funding overflows")
      | Some (policy, compact) =>
          modify (set_effective policy) ;;;
          if bool_decide (available < work) || bool_decide (available - work < payload) then
            mfail (no_scratch (Some available) (work +sat payload) "next append/compaction scratch is not funded")
          else if compact then
            let* s := get in
            retire_until (S (Z.to_nat (acc_replay_bytes (accounting (db (conn s))))))
              (effective_replay_bytes policy) available work ;;;
            on_compaction (set_force true) ;;;
            maybe_compact_replay env
          else mret_ tt
      end
  end.
End funding.
