(* ===== verification/StoreCompactionSpec.v ===== *)
(** * What compaction keeps

    Moving a row changes the file and the offset it names and nothing else, and the bytes
    there are the same; so every Run keeps its window.  A batch copies the bytes of its rows
    to the end of the active file before it moves them. *)

From S2P Require Import Prelude.
From S2P Require Import Protocol.
From S2P Require Import Resources.
From S2P Require Import StorageErrors.
From S2P Require Import ReplayStore.
From S2P Require Import ReplayStoreSpec.
From S2P Require Import ReplayTables.
From S2P Require Import ReplayAppend.
From S2P Require Import StoreTransaction.
From S2P Require Import StoreTransactionSpec.
From S2P Require Import StoreAppend.
From S2P Require Import StoreAppendSpec.
From S2P Require Import StoreReclaim.
From S2P Require Import StoreCompaction.
Local Open Scope Z_scope.

(** ** Moved rows *)

Definition same_place (a b : ReplayRow) : Prop :=
  ordinal b = ordinal a ∧ row_run b = row_run a ∧ row_start b = row_start a ∧
  row_end b = row_end a ∧ row_bytes b = row_bytes a.
Definition same_extent (fs fs' : gmap string ReplayFile) (a b : ReplayRow) : Prop :=
  same_place a b ∧ row_data fs' b = row_data fs a.
Record repacked (s s' : Store) : Prop := {
  rp_runs : run_rows (db s') = run_rows (db s);
  rp_sequence : chunk_sequence (db s') = chunk_sequence (db s);
  rp_account : accounting (db s') = accounting (db s);
  rp_rows : Forall2 (same_extent (files s) (files s')) (chunk_rows (db s)) (chunk_rows (db s'));
}.
Lemma same_place_refl a : same_place a a.
Proof. done. Qed.
Lemma repacked_refl s s' : unchanged s s' → repacked s s'.
Proof.
  intros [Hd Hf]. constructor; rewrite ?Hd, ?Hf; try done.
  induction (chunk_rows (db s)) as [|x l IH]; constructor; [done|exact IH].
Qed.
Lemma Forall2_compose {A} (P Q R : A → A → Prop) l k m : (∀ x y z, P x y → Q y z → R x z) →
  Forall2 P l k → Forall2 Q k m → Forall2 R l m.
Proof.
  intros HPQ Hl. revert m. induction Hl as [|x y l k Hxy Hl IH]; intros m Hm; inversion Hm; subst; constructor; eauto.
Qed.
Lemma repacked_trans a b c : repacked a b → repacked b c → repacked a c.
Proof.
  intros [K1 K2 K3 K4] [L1 L2 L3 L4]. constructor; try congruence. eapply Forall2_compose; [|exact K4|exact L4].
  intros x y z [(P1 & P2 & P3 & P4 & P5) Pd] [(Q1 & Q2 & Q3 & Q4 & Q5) Qd]. unfold same_extent, same_place.
  split_and!; congruence.
Qed.
Lemma same_rows_of fs fs' id l l' : Forall2 (same_extent fs fs') l l' →
  Forall2 (same_extent fs fs') (filter (λ r, row_run r = id) l) (filter (λ r, row_run r = id) l').
Proof.
  induction 1 as [|x y l l' Hxy Hl IH]; [constructor|]. rewrite !filter_cons. destruct Hxy as [Hp Hd].
  pose proof Hp as (_ & Hrun & _). rewrite Hrun. case_decide; [|done]. by constructor.
Qed.
Lemma same_span fs fs' l l' : Forall2 (same_extent fs fs') l l' → span fs' l' = span fs l.
Proof. induction 1 as [|x y l l' [_ Hd] Hl IH]; [done|]. by rewrite !span_cons, Hd, IH. Qed.
Lemma same_covers fs fs' l l' a b : Forall2 (same_extent fs fs') l l' → covers a l b → covers a l' b.
Proof.
  intros Hl. revert a. induction Hl as [|x y l l' [(_ & _ & Hs & He & _) _] Hl IH]; intros a; cbn [covers]; [done|].
  rewrite Hs, He. intros (? & ? & ?). auto.
Qed.
Lemma repacked_window s s' id : repacked s s' → window_of s' id = window_of s id.
Proof.
  intros [K1 _ _ K4]. unfold window_of. rewrite K1. destruct (run_rows (db s) !! id); [|done]. cbn. do 2 f_equal.
  by eapply same_span, same_rows_of.
Qed.
Lemma repacked_store s s' : repacked s s' → store_ok (db s) (files s) → tables_ok (db s') (files s') → store_ok (db s') (files s').
Proof.
  intros [K1 _ _ K4] [_ Hl] Ht. split; [done|]. intros id r. rewrite K1. intros Hr.
  eapply same_covers; [by eapply same_rows_of|]. by apply Hl.
Qed.

(** ** Mapping the rows *)

Lemma rows_of_map g d id : (∀ x, x ∈ chunk_rows d → row_run (g x) = row_run x) →
  rows_of id (set_chunks (map g (chunk_rows d)) d) = map g (rows_of id d).
Proof.
  unfold rows_of. cbn. induction (chunk_rows d) as [|x l IH]; intros Hg; [done|].
  rewrite map_cons, !filter_cons, IH by (intros; apply Hg; by constructor). rewrite Hg by constructor. by case_decide.
Qed.
Lemma sorted_map g l : (∀ x, x ∈ l → ordinal (g x) = ordinal x) → StronglySorted ordinal_lt l → StronglySorted ordinal_lt (map g l).
Proof.
  intros Hg Hs. induction Hs as [|x l Hl IH Hx]; [constructor|]. rewrite map_cons. constructor.
  - apply IH. intros y Hy. apply Hg. by constructor.
  - rewrite Forall_forall in *. intros y (z & -> & Hz)%list_elem_of_fmap. unfold ordinal_lt in *.
    rewrite !Hg by (by constructor || constructor). by apply Hx.
Qed.
Lemma map_tables fs d g : tables_ok d fs →
  (∀ x, x ∈ chunk_rows d → same_place x (g x) ∧ row_ok fs (g x)) →
  (∀ x y, x ∈ chunk_rows d → y ∈ chunk_rows d → ordinal x ≠ ordinal y → apart (g x) (g y)) →
  tables_ok (set_chunks (map g (chunk_rows d)) d) fs.
Proof.
  intros Ht Hg Ha. assert (∀ x, x ∈ map g (chunk_rows d) → ∃ y, x = g y ∧ y ∈ chunk_rows d ∧ same_place y x) as Hin.
  { intros x (y & -> & Hy)%list_elem_of_fmap. exists y. split_and!; [done|done|]. by apply Hg. }
  constructor; cbn; try apply Ht.
  - apply Forall_forall. intros x (y & -> & Hy & _)%Hin. by apply Hg.
  - apply Forall_forall. intros x (y & -> & Hy & _ & -> & _)%Hin.
    pose proof (tables_owner _ _ Ht) as Ho. rewrite Forall_forall in Ho. auto.
  - apply sorted_map; [|apply Ht]. intros x Hx. by apply Hg.
  - pose proof (tables_sequence _ _ Ht) as [? Ho]. split; [done|]. rewrite Forall_forall in Ho.
    apply Forall_forall. intros x (y & -> & Hy & -> & _)%Hin. auto.
  - intros id. change (NoDup (map row_start (rows_of id (set_chunks (map g (chunk_rows d)) d)))).
    rewrite rows_of_map by (intros; by apply Hg). rewrite map_map.
    rewrite (map_ext_in _ row_start); [apply Ht|]. intros x Hx%list_elem_of_In.
    apply list_elem_of_filter in Hx as [_ Hx]. by apply Hg.
  - intros a b (x & -> & Hx & Hox & _)%Hin (y & -> & Hy & Hoy & _)%Hin Hne. apply Ha; [done..|congruence].
Qed.

(** ** The ends of the files *)

Lemma note_end_names name stop l n : n ∈ map fst (note_end name stop l) ↔ n = name ∨ n ∈ map fst l.
Proof.
  induction l as [|[n' z'] l IH]; cbn [note_end map fst].
  - rewrite list_elem_of_singleton, elem_of_nil. naive_solver.
  - case_decide as Hn; cbn [map fst]; rewrite !elem_of_cons; [subst; naive_solver|rewrite IH; naive_solver].
Qed.
Lemma note_end_nodup name stop l : NoDup (map fst l) → NoDup (map fst (note_end name stop l)).
Proof.
  induction l as [|[n z] l IH]; cbn [note_end map fst].
  - intros _. repeat constructor. by intros ?%elem_of_nil.
  - intros [Hn Hnd]%NoDup_cons. case_decide as Hne; cbn [map fst]; apply NoDup_cons; [done|].
    split; [|by apply IH]. rewrite note_end_names. naive_solver.
Qed.
Lemma note_end_here name stop l : ∃ z, (name, z) ∈ note_end name stop l ∧ stop ≤ z.
Proof.
  induction l as [|[n z] l (w & Hw & Hle)]; cbn [note_end]; [exists stop; split; [by left|lia]|].
  case_decide as Hn; [subst; exists (Z.max z stop); split; [by left|lia]|]. exists w. split; [by right|done].
Qed.
Lemma note_end_grows name stop l n z : (n, z) ∈ l → ∃ z', (n, z') ∈ note_end name stop l ∧ z ≤ z'.
Proof.
  induction l as [|[n0 z0] l IH]; [by intros ?%elem_of_nil|]. cbn [note_end]. rewrite elem_of_cons. intros Hin.
  case_decide as Hn.
  - destruct Hin as [[= -> ->]|Hin]; [exists (Z.max z0 stop); split; [by left|lia]|]. exists z. split; [by right|lia].
  - destruct Hin as [[= -> ->]|Hin]; [exists z0; split; [by left|lia]|]. destruct (IH Hin) as (z' & Hz' & ?).
    exists z'. split; [by right|done].
Qed.
(** Every row is within the end noted for its file. *)
Definition ends_ok (l : list (string * Z)) (rows : list ReplayRow) : Prop := NoDup (map fst l) ∧
  ∀ r, r ∈ rows → ∃ z, (row_file r, z) ∈ l ∧ row_offset r + row_bytes r ≤ z.
Lemma referenced_ends_ok d : ends_ok (referenced_ends d) (chunk_rows d).
Proof.
  unfold referenced_ends. assert (ends_ok [] []) as Hbase by (split; [constructor|by intros r ?%elem_of_nil]).
  revert Hbase. change (chunk_rows d) with ([] ++ chunk_rows d) at 2. generalize (@nil ReplayRow) as seen. generalize (@nil (string * Z)) as l.
  induction (chunk_rows d) as [|x rows IH]; intros l seen Hl; [by rewrite app_nil_r|]. cbn [fold_left].
  change (seen ++ x :: rows) with (seen ++ [x] ++ rows). rewrite app_assoc. apply IH. destruct Hl as [Hnd Hall].
  split; [by apply note_end_nodup|]. intros r [Hr|Hr]%elem_of_app.
  - destruct (Hall _ Hr) as (z & Hz & ?). destruct (note_end_grows (row_file x) (row_offset x + row_bytes x) _ _ _ Hz) as (z' & ? & ?).
    exists z'. split; [done|lia].
  - apply list_elem_of_singleton in Hr as ->. apply note_end_here.
Qed.
Lemma ends_ok_insert name l rows : ends_ok l rows → ends_ok (or_insert name l) rows ∧ name ∈ map fst (or_insert name l).
Proof.
  intros [Hnd Hall]. unfold or_insert. case_decide as Hin; [done|]. rewrite map_app. split; [split|set_solver].
  - rewrite map_app. apply NoDup_app. split_and!; [done| |repeat constructor; by intros ?%elem_of_nil].
    intros n Hn ->%list_elem_of_singleton. done.
  - intros r Hr. destruct (Hall _ Hr) as (z & Hz & ?). exists z. split; [|done]. apply elem_of_app. by left.
Qed.
Lemma ends_ok_unique l rows r z : ends_ok l rows → r ∈ rows → (row_file r, z) ∈ l → row_offset r + row_bytes r ≤ z.
Proof.
  intros [Hnd Hall] Hr Hz. destruct (Hall _ Hr) as (z' & Hz' & Hle). enough (z' = z) by lia. clear -Hnd Hz Hz'.
  induction l as [|[n w] l IH]; [by apply elem_of_nil in Hz|]. cbn [map fst] in Hnd. apply NoDup_cons in Hnd as [Hn Hnd].
  assert (∀ z, (row_file r, z) ∈ l → row_file r ∈ map fst l) as Hmem.
  { intros z0 Hz0. apply list_elem_of_fmap. by exists (row_file r, z0). }
  apply elem_of_cons in Hz as [Hz|Hz]; apply elem_of_cons in Hz' as [Hz'|Hz']; [congruence| | |by apply IH].
  - injection Hz as <- <-. by apply Hmem in Hz'.
  - injection Hz' as <- <-. by apply Hmem in Hz.
Qed.
Lemma ends_ok_named l rows r : ends_ok l rows → r ∈ rows → row_file r ∈ map fst l.
Proof. intros [_ Hall] Hr. destruct (Hall _ Hr) as (z & Hz & _). apply list_elem_of_fmap. by exists (row_file r, z). Qed.

(** ** Relocating one row *)

(** No row names a byte of [target] from [off] on. *)
Definition below (target : string) (off : Z) (d : Db) : Prop := ∀ x, x ∈ chunk_rows d →
  row_file x = target → row_offset x + row_bytes x ≤ off.
(** The rows numbered [os] are in [target] now, the others where they were. *)
Definition moves_rows (target : string) (os : list Z) (d d' : Db) : Prop := ∃ g,
  chunk_rows d' = map g (chunk_rows d) ∧ ∀ x, x ∈ chunk_rows d →
  same_place x (g x) ∧ (if decide (ordinal x ∈ os) then row_file (g x) = target else g x = x).
Lemma moves_rows_nil target d d' : chunk_rows d' = chunk_rows d → moves_rows target [] d d'.
Proof.
  intros Hd. exists id. rewrite map_id. split; [done|]. intros x _. split; [done|].
  by rewrite decide_False by apply not_elem_of_nil.
Qed.
Lemma moves_rows_trans target os os' a b c : moves_rows target os a b → moves_rows target os' b c → moves_rows target (os ++ os') a c.
Proof.
  intros (g & Hb & Hg) (h & Hc & Hh). exists (λ x, h (g x)). split; [by rewrite Hc, Hb, map_map|].
  intros x Hx. destruct (Hg x Hx) as [(P1 & P2 & P3 & P4 & P5) Hf]. assert (g x ∈ chunk_rows b) as Hgx.
  { rewrite Hb. apply list_elem_of_fmap. by exists x. }
  destruct (Hh _ Hgx) as [(Q1 & Q2 & Q3 & Q4 & Q5) Hf']. split; [unfold same_place; split_and!; congruence|].
  rewrite P1 in Hf'. destruct (decide (ordinal x ∈ os)) as [Hin|Hin].
  - rewrite decide_True by set_solver. case_decide; [done|by rewrite Hf'].
  - rewrite Hf in Hf'. rewrite Hf. destruct (decide (ordinal x ∈ os')); [rewrite decide_True by set_solver; done|].
    by rewrite decide_False by set_solver.
Qed.

Section relocate.
Context (fs : gmap string ReplayFile) (d : Db) (r : ReplayRow) (target : string) (off : Z) (f : ReplayFile).
Hypotheses (Ht : tables_ok d fs) (Hin : r ∈ chunk_rows d) (Hne : row_file r ≠ target)
  (Hf : fs !! target = Some f) (Hvalid : valid_replay_file_name target = true) (Hoff : 0 ≤ off)
  (Hlen : off + row_bytes r ≤ Z.of_N (len (contents f))) (Hbelow : below target off d)
  (Hdata : takeN (Z.to_N (row_bytes r)) (dropN (Z.to_N off) (contents f)) = row_data fs r).
Let go (x : ReplayRow) : ReplayRow :=
  if decide (ordinal x = ordinal r ∧ row_file x = row_file r) then move_row (ordinal r) target off x else x.

Lemma go_row x : x ∈ chunk_rows d → same_place x (go x) ∧ row_ok fs (go x) ∧ row_data fs (go x) = row_data fs x ∧
  (if decide (ordinal x = ordinal r) then x = r ∧ row_file (go x) = target ∧ row_offset (go x) = off else go x = x).
Proof.
  intros Hx. pose proof (tables_rows _ _ Ht) as Hok. rewrite Forall_forall in Hok. pose proof (Hok _ Hx) as Hxok.
  unfold go. destruct (decide (ordinal x = ordinal r)) as [Ho|Ho].
  - assert (x = r) as -> by by eapply ordinals_inj. rewrite decide_True by done.
    destruct Hxok as (? & ? & ? & ? & ? & _). split_and!; try done.
    + unfold row_ok. cbn. split_and!; try done. by exists f.
    + rewrite <-Hdata. unfold row_data. cbn. by rewrite Hf.
  - rewrite decide_False by naive_solver. done.
Qed.
Lemma relocate_tables : tables_ok (relocate (ordinal r) (row_file r) target off d) fs.
Proof.
  unfold relocate. apply map_tables; [done| |].
  - intros x Hx. destruct (go_row _ Hx) as (? & ? & _). done.
  - intros x y Hx Hy Hxy. fold (go x) (go y). destruct (go_row _ Hx) as (Hpx & _ & _ & Hgx), (go_row _ Hy) as (Hpy & _ & _ & Hgy).
    pose proof (tables_apart _ _ Ht _ _ Hx Hy Hxy) as Ha. unfold apart. destruct Hpx as (_ & _ & _ & _ & ->), Hpy as (_ & _ & _ & _ & ->).
    repeat case_decide.
    + congruence.
    + rewrite Hgx. destruct Hgy as (-> & -> & ->). intros Heq. left. by apply Hbelow.
    + rewrite Hgy. destruct Hgx as (-> & -> & ->). intros Heq. right. by apply Hbelow.
    + by rewrite Hgx, Hgy.
Qed.
Lemma relocate_extents : Forall2 (same_extent fs fs) (chunk_rows d)
  (chunk_rows (relocate (ordinal r) (row_file r) target off d)).
Proof.
  cbn. assert (∀ x, x ∈ chunk_rows d → same_extent fs fs x (go x)) as Hgo.
  { intros x Hx. destruct (go_row _ Hx) as (? & _ & ? & _). done. }
  clear -Hgo. fold go. change (λ r0, _) with go. revert Hgo. induction (chunk_rows d) as [|x l IH]; intros Hgo; [constructor|].
  rewrite map_cons. constructor; [apply Hgo; by constructor|]. apply IH. intros. apply Hgo. by constructor.
Qed.
Lemma relocate_moves : moves_rows target [ordinal r] d (relocate (ordinal r) (row_file r) target off d).
Proof.
  exists go. split; [done|]. intros x Hx. destruct (go_row _ Hx) as (Hp & _ & _ & Hg). split; [done|].
  destruct (decide (ordinal x = ordinal r)) as [Ho|Ho]; [rewrite decide_True by set_solver; by apply Hg|].
  by rewrite decide_False by set_solver.
Qed.
Lemma relocate_below : below target (off + row_bytes r) (relocate (ordinal r) (row_file r) target off d).
Proof.
  assert (0 < row_bytes r) as Hpos.
  { pose proof (tables_rows _ _ Ht) as Hok. rewrite Forall_forall in Hok. destruct (Hok _ Hin) as (? & ? & ? & _). lia. }
  intros x (y & -> & Hy)%list_elem_of_fmap. fold (go y). destruct (go_row _ Hy) as (Hp & _ & _ & Hg). destruct Hp as (_ & _ & _ & _ & ->).
  case_decide.
  - destruct Hg as (-> & _ & ->). lia.
  - rewrite Hg. intros Heq. specialize (Hbelow _ Hy Heq). lia.
Qed.
Lemma relocate_synced : Forall (row_synced fs) (chunk_rows d) → off + row_bytes r ≤ Z.of_N (synced_bytes f) →
  Forall (row_synced fs) (chunk_rows (relocate (ordinal r) (row_file r) target off d)).
Proof.
  rewrite !Forall_forall. intros Hs Hle x (y & -> & Hy)%list_elem_of_fmap. fold (go y).
  destruct (go_row _ Hy) as ((_ & _ & _ & _ & Hb) & _ & _ & Hg). case_decide; [|by rewrite Hg; apply Hs].
  destruct Hg as (-> & Hfile & Ho). exists f. rewrite Hfile, Ho, Hb. done.
Qed.
Lemma relocate_matching : matching (ordinal r) (row_file r) d = [r].
Proof.
  unfold matching. pose proof (ordinals_nodup _ _ Ht) as Hnd.
  assert (∀ l, NoDup (map ordinal l) → (∀ x, x ∈ l → x ∈ chunk_rows d) → 
    filter (λ x, ordinal x = ordinal r ∧ row_file x = row_file r) l = if decide (r ∈ l) then [r] else []) as Hgen.
  { induction l as [|x l IH]; intros Hl Hsub; [by rewrite decide_False by apply not_elem_of_nil|].
    cbn [map] in Hl. apply NoDup_cons in Hl as [Hx Hl]. rewrite filter_cons, IH by (done || (intros; apply Hsub; by constructor)).
    destruct (decide (ordinal x = ordinal r ∧ row_file x = row_file r)) as [[Ho _]|Hno].
    - assert (x = r) as -> by (eapply ordinals_inj; [done|apply Hsub; by constructor|done|done]).
      rewrite decide_False, decide_True; [done|by constructor|]. intros Hr. apply Hx, list_elem_of_fmap. by exists r.
    - assert (x ≠ r) by naive_solver. repeat case_decide; set_solver. }
  rewrite Hgen by done. by rewrite decide_True.
Qed.
Lemma relocate_facts : let d' := relocate (ordinal r) (row_file r) target off d in
  tables_ok d' fs ∧ Forall2 (same_extent fs fs) (chunk_rows d) (chunk_rows d') ∧ moves_rows target [ordinal r] d d' ∧
  below target (off + row_bytes r) d' ∧ matching (ordinal r) (row_file r) d = [r] ∧
  (Forall (row_synced fs) (chunk_rows d) → off + row_bytes r ≤ Z.of_N (synced_bytes f) → Forall (row_synced fs) (chunk_rows d')).
Proof.
  split_and!; [apply relocate_tables|apply relocate_extents|apply relocate_moves|apply relocate_below|
    apply relocate_matching|apply relocate_synced].
Qed.
End relocate.

(** ** Relocating a batch *)

(** Consecutive rows from an offset on. *)
Fixpoint placed (off : Z) (rows : list ReplayRow) : list (Z * Z) :=
  match rows with [] => [] | r :: rows => (ordinal r, off) :: placed (off + row_bytes r) rows end.
Lemma placed_app off l l' : placed off (l ++ l') = placed off l ++ placed (off + sumZ row_bytes l) l'.
Proof.
  revert off. induction l as [|r l IH]; intros off; [cbn; by rewrite Z.add_0_r|]. cbn [app placed]. rewrite IH, sumZ_cons.
  by rewrite Z.add_assoc.
Qed.
Lemma placed_ordinals off l : map fst (placed off l) = map ordinal l.
Proof. revert off. induction l as [|r l IH]; intros off; [done|]. cbn. by rewrite IH. Qed.
Lemma row_ok_pos fs r : row_ok fs r → 0 < row_bytes r.
Proof. intros (? & ? & ? & _). lia. Qed.
Lemma sum_bytes_nonneg fs l : Forall (row_ok fs) l → 0 ≤ sumZ row_bytes l.
Proof. intros Hok. rewrite Forall_forall in Hok. apply sumZ_nonneg. intros x Hx. pose proof (row_ok_pos _ _ (Hok x Hx)). lia. Qed.
Lemma len_span_rows fs l : Forall (row_ok fs) l → Z.of_N (len (span fs l)) = sumZ row_bytes l.
Proof.
  induction 1 as [|r l Hr Hl IH]; [done|]. rewrite span_cons, len_app, sumZ_cons.
  pose proof (len_row_data _ _ Hr). lia.
Qed.

Lemma takeN_exact {A} (l l' : list A) : takeN (len l) (l ++ l') = l.
Proof. rewrite takeN_app_le by lia. by apply takeN_ge. Qed.
Lemma dropN_exact {A} (l l' : list A) : dropN (len l) (l ++ l') = l'.
Proof. rewrite dropN_app_ge, N.sub_diag by lia. apply dropN_0. Qed.

(** What a committed batch leaves. *)
Record batch_moved (target : string) (rows : list ReplayRow) (s s' : Store) : Prop := {
  bm_files : files s' = files s;
  bm_sound : sound (db s') (files s');
  bm_repacked : repacked s s';
  bm_moves : moves_rows target (map ordinal rows) (db s) (db s');
}.
Section batch.
Context `{!UuidDisplay, !StateJson, !StorageCodes} (env : SpaceEnv).

(** The rows are still in the source, and their bytes are on disk in the target. *)
Record staged_copy (source target : string) (f : ReplayFile) (off : Z) (rows : list ReplayRow) (s : Store) : Prop := {
  sc_sound : sound (db s) (files s);
  sc_file : files s !! target = Some f;
  sc_valid : valid_replay_file_name target = true;
  sc_rows : ∀ x, x ∈ rows → x ∈ chunk_rows (db s) ∧ row_file x = source;
  sc_once : NoDup (map ordinal rows);
  sc_below : below target off (db s);
  sc_start : 0 ≤ off;
  sc_data : ∃ rest, dropN (Z.to_N off) (contents f) = span (files s) rows ++ rest;
  sc_synced : off + sumZ row_bytes rows ≤ Z.of_N (synced_bytes f);
}.
Lemma staged_len source target f off rows s : staged_copy source target f off rows s →
  Forall (row_ok (files s)) rows ∧ off + sumZ row_bytes rows ≤ Z.of_N (len (contents f)).
Proof.
  intros Hs. pose proof (tables_rows _ _ (proj1 (proj1 (sc_sound _ _ _ _ _ _ Hs)))) as Hok.
  assert (Forall (row_ok (files s)) rows) as Hrows.
  { rewrite Forall_forall in *. intros x Hx. apply Hok. by apply (sc_rows _ _ _ _ _ _ Hs). }
  split; [done|]. pose proof (tables_files _ _ (proj1 (proj1 (sc_sound _ _ _ _ _ _ Hs))) _ _ (sc_file _ _ _ _ _ _ Hs)) as [_ Hle].
  pose proof (sc_synced _ _ _ _ _ _ Hs). lia.
Qed.
Lemma staged_next source target f off r rows s n : staged_copy source target f off (r :: rows) s → source ≠ target →
  let s' := set_db (relocate (ordinal r) source target off (db s)) (set_clock n s) in
  staged_copy source target f (off + row_bytes r) rows s' ∧ batch_moved target [r] s s' ∧
  matching (ordinal r) source (db s) = [r].
Proof.
  intros Hs Hne s'. destruct (staged_len _ _ _ _ _ _ Hs) as [Hok Hlen]. inversion Hok as [|?? Hrok Hrows]; subst.
  destruct (sc_rows _ _ _ _ _ _ Hs r) as [Hin Hsource]; [by left|]. rewrite sumZ_cons in Hlen.
  pose proof (sum_bytes_nonneg _ _ Hrows). pose proof (row_ok_pos _ _ Hrok). pose proof (len_row_data _ _ Hrok) as Hld.
  pose proof (sc_start _ _ _ _ _ _ Hs) as Hoff. pose proof (sc_sound _ _ _ _ _ _ Hs) as [[Ht Hl] Hsync].
  destruct (sc_data _ _ _ _ _ _ Hs) as [rest Hdata]. rewrite span_cons, <-app_assoc in Hdata.
  assert (takeN (Z.to_N (row_bytes r)) (dropN (Z.to_N off) (contents f)) = row_data (files s) r) as Htake.
  { rewrite Hdata, <-Hld, N2Z.id. apply takeN_exact. }
  pose proof (sc_synced _ _ _ _ _ _ Hs) as Hsy. rewrite sumZ_cons in Hsy.
  rewrite <-Hsource in Hne. pose proof (sc_below _ _ _ _ _ _ Hs) as Hbelow.
  destruct (relocate_facts (files s) (db s) r target off f Ht Hin Hne (sc_file _ _ _ _ _ _ Hs) (sc_valid _ _ _ _ _ _ Hs) Hoff
    ltac:(lia) Hbelow Htake) as (Ht' & He & Hm & Hb & Hmatch & Hy). specialize (Hy Hsync ltac:(lia)).
  rewrite Hsource in Ht', He, Hm, Hb, Hmatch, Hy. assert (repacked s s') as Hrp by by constructor.
  assert (sound (db s') (files s')) as Hs' by by split; [by eapply repacked_store|].
  split; [|split; [by constructor|done]].
  constructor; try done.
  - apply Hs.
  - apply Hs.
  - intros x Hx. destruct (sc_rows _ _ _ _ _ _ Hs x) as [Hxin Hxf]; [by right|]. split; [|done].
    destruct Hm as (g & Heq & Hg). change (x ∈ chunk_rows (relocate (ordinal r) source target off (db s))). rewrite Heq.
    apply list_elem_of_fmap. exists x. split; [|done]. destruct (Hg _ Hxin) as [_ Hgx].
    rewrite decide_False in Hgx; [done|]. intros Ho%list_elem_of_singleton.
    pose proof (sc_once _ _ _ _ _ _ Hs) as [Hn _]%NoDup_cons. apply Hn. apply list_elem_of_fmap. by exists x.
  - by pose proof (sc_once _ _ _ _ _ _ Hs) as [_ ?]%NoDup_cons.
  - lia.
  - exists rest. change (files s') with (files s). rewrite Z2N.inj_add, <-dropN_dropN, Hdata by lia.
    rewrite <-Hld, N2Z.id. apply dropN_exact.
  - lia.
Qed.
Lemma batch_moved_trans target a b c s0 s1 s2 : batch_moved target a s0 s1 → batch_moved target b s1 s2 →
  c = a ++ b → batch_moved target c s0 s2.
Proof.
  intros [K1 K2 K3 K4] [L1 L2 L3 L4] ->. constructor; [congruence|done|by eapply repacked_trans|].
  rewrite map_app. by eapply moves_rows_trans.
Qed.
Lemma relocate_rows_spec source target f rows : source ≠ target → ∀ off s, staged_copy source target f off rows s →
  wp (relocate_rows env source target (placed off rows)) s (λ s' res, files s' = files s ∧
    match res with Ok _ => batch_moved target rows s s' | Err _ => True end).
Proof.
  intros Hne. induction rows as [|r rows IH]; intros off s Hs; cbn [placed relocate_rows].
  - apply wp_ret. split; [done|]. constructor; [done|apply Hs|by apply repacked_refl|by apply moves_rows_nil].
  - apply wp_bind, wp_get. destruct (staged_next _ _ _ _ _ _ _ (S (clock s)) Hs Hne) as (Hs' & Hm & Hmatch).
    apply wp_bind. apply wp_execute; [eapply tables_constraints, (sc_sound _ _ _ _ _ _ Hs')|done|].
    rewrite Hmatch, bool_decide_true by done. apply wp_bind, wp_ret.
    eapply wp_mono; [by apply IH|]. intros s2 [[]|e] [Hf Hr]; (split; [done|]); [|done].
    by eapply (batch_moved_trans _ [r] rows).
Qed.

(** ** Copying *)

(** Nothing but the end of [target] changed, by the bytes [x]. *)
Definition copied (target : string) (f : ReplayFile) (x : bytes) (s0 s : Store) : Prop :=
  db s = db s0 ∧ files s = <[target := appended f x]> (files s0) ∧ (len (contents f) + len x ≤ i64_max)%N.
Lemma copied_later target f x s0 s : copied target f x s0 s → copied target f x s0 (later s).
Proof. done. Qed.
Lemma appended_app f x y : appended (appended f x) y = appended f (x ++ y).
Proof. unfold appended. cbn. by rewrite app_assoc. Qed.
Lemma copied_len target f x s0 s : copied target f x s0 s → len_of_file target s = (len (contents f) + len x)%N.
Proof. intros (_ & Hf & _). unfold len_of_file. rewrite Hf, lookup_insert_eq. cbn. by rewrite len_app. Qed.
Lemma append_bytes_copied target f x y s0 s : copied target f x s0 s → (len (contents f) + len x + len y ≤ i64_max)%N →
  copied target f (x ++ y) s0 (append_bytes target y s).
Proof.
  intros (Hd & Hf & Hl) Hy. unfold append_bytes. rewrite Hf, lookup_insert_eq. split; [done|]. split; [|rewrite len_app; lia].
  cbn [files set_files]. by rewrite insert_insert_eq, <-appended_app.
Qed.
Lemma write_all_spec target f x y s0 s : copied target f x s0 s → wp (write_all env target y) s (λ s' res,
  match res with Ok _ => copied target f (x ++ y) s0 s' | Err _ => ∃ z, copied target f z s0 s' end).
Proof.
  intros Hc. unfold write_all. apply wp_bind, wp_tick. apply wp_bind, wp_get.
  change (len_of_file target (later s)) with (len_of_file target s). rewrite (copied_len _ _ _ _ _ Hc).
  pose proof Hc as (_ & _ & Hl). destruct (fault _ _) as [e|].
  - apply wp_bind, wp_modify, wp_fail. eexists. apply append_bytes_copied; [done|]. rewrite len_takeN. lia.
  - case_decide as Hfits; [apply wp_modify, append_bytes_copied; [done|lia]|].
    apply wp_bind, wp_modify, wp_fail. eexists. apply append_bytes_copied; [done|]. rewrite len_takeN. lia.
Qed.

Section copy.
Context (source target : string) (f fsrc : ReplayFile) (s0 : Store).
Hypotheses (Hne : source ≠ target) (Hsource : files s0 !! source = Some fsrc).

Lemma copied_source x s : copied target f x s0 s → files s !! source = Some fsrc.
Proof. intros (_ & -> & _). by rewrite lookup_insert_ne. Qed.
(** A buffer less, and the fuel is one less. *)
Lemma buffers_left left fuel : (N.to_nat (left / COPY_BUFFER) < S fuel)%nat → (COPY_BUFFER ≤ left)%N →
  (N.to_nat ((left - COPY_BUFFER) / COPY_BUFFER) < fuel)%nat.
Proof.
  intros Hf Hle. replace left with ((left - COPY_BUFFER) + 1 * COPY_BUFFER)%N in Hf at 1 by lia.
  rewrite N.div_add in Hf by done. lia.
Qed.
Lemma copy_bytes_spec fuel : ∀ at_ left x s, copied target f x s0 s → (at_ + left ≤ len (contents fsrc))%N →
  (left ≠ 0%N → (N.to_nat (left / COPY_BUFFER) < fuel)%nat) →
  wp (copy_bytes env fuel source target at_ left) s (λ s' res,
    match res with
    | Ok _ => copied target f (x ++ takeN left (dropN at_ (contents fsrc))) s0 s'
    | Err _ => ∃ y, copied target f y s0 s'
    end).
Proof.
  induction fuel as [|fuel IH]; intros at_ left x s Hc Hlen Hfuel; cbn [copy_bytes];
    (case_decide as Hz; [apply wp_ret; by rewrite Hz, takeN_0, app_nil_r|]); specialize (Hfuel Hz); [by apply Nat.nlt_0_r in Hfuel|].
  set (count := N.min left COPY_BUFFER). assert (0 < count ∧ count ≤ left)%N as [Hpos Hcount] by (subst count; unfold COPY_BUFFER; lia).
  pose proof (copied_source _ _ Hc) as Hs. apply wp_bind. unfold read_exact. apply wp_guarded; [by intros e _; exists x|].
  unfold wp at 1. change (len_of_file source (later s)) with (len_of_file source s). unfold len_of_file, file_bytes.
  cbn [later set_clock files]. rewrite Hs, decide_True by lia.
  apply wp_bind. eapply wp_mono; [by apply write_all_spec|]. intros s1 [[]|e] Hc1; [|done].
  - eapply wp_mono.
    { apply IH; [exact Hc1|lia|]. intros Hnz. unfold count in *.
      replace (N.min left COPY_BUFFER) with COPY_BUFFER in * by lia. apply buffers_left; [done|lia]. }
    intros s' [[]|e]; [|done]. rewrite <-app_assoc. replace (takeN left _) with
      (takeN count (dropN at_ (contents fsrc)) ++ takeN (left - count) (dropN (at_ + count) (contents fsrc))); [done|].
    rewrite <-dropN_dropN, <-dropN_takeN, <-(N.min_l count left) at 1 by done. rewrite <-takeN_takeN. apply takeN_dropN.
Qed.

(** A batch is a front of the rows, copied in order; at least one row when there is one. *)
Definition batched (start : N) (rows : list ReplayRow) (moves : list (Z * Z)) (s : Store) : Prop :=
  ∃ taken rest, rows = taken ++ rest ∧ moves = placed (Z.of_N start) taken ∧ (rows ≠ [] → taken ≠ []) ∧
    copied target f (span (files s0) taken) s0 s.
Lemma copy_rows_spec start all : start = len (contents f) → Forall (row_ok (files s0)) all →
  Forall (λ r, row_file r = source) all →
  (len (contents fsrc) ≤ i64_max)%N →
  ∀ rows taken offset input s, all = taken ++ rows → copied target f (span (files s0) taken) s0 s →
  Z.of_N offset = Z.of_N start + sumZ row_bytes taken →
  wp (copy_rows env source target start rows offset (placed (Z.of_N start) taken) input) s (λ s' res,
    match res with
    | Ok (moves, _) => batched start all moves s'
    | Err _ => ∃ y, copied target f y s0 s'
    end).
Proof.
  intros Hstart Hok Hfile Hsrc rows. induction rows as [|r rows IH]; intros taken offset input s Hall Hc Hoff; cbn [copy_rows].
  { apply wp_ret. rewrite app_nil_r in Hall. exists taken, []. rewrite app_nil_r. split_and!; [done|done|by rewrite Hall|done]. }
  pose proof (proj2 (proj1 (Forall_app _ _ _) (eq_ind _ (Forall _) Hok _ Hall))) as Hrows.
  apply Forall_cons in Hrows as [Hr _]. pose proof Hr as (? & ? & ? & ? & _ & f1 & Hf1 & Hlen).
  assert (row_file r = source) as Hrf.
  { rewrite Forall_forall in Hfile. apply Hfile. rewrite Hall. set_solver. }
  rewrite Hrf, Hsource in Hf1. injection Hf1 as <-. pose proof (row_ok_pos _ _ Hr).
  assert (row_data (files s0) r = takeN (Z.to_N (row_bytes r)) (dropN (Z.to_N (row_offset r)) (contents fsrc))) as Hdata.
  { unfold row_data. by rewrite Hrf, Hsource. }
  rewrite Hall in Hok. apply Forall_app in Hok as [Hokt Hokr]. apply Forall_cons in Hokr as [_ Hoks].
  pose proof (sum_bytes_nonneg _ _ Hokt). pose proof (sum_bytes_nonneg _ _ Hoks).
  apply wp_bind, wp_lift_result. rewrite nonnegative_ok by lia. apply wp_bind, wp_lift_result. rewrite nonnegative_ok by lia.
  destruct (bool_decide (placed _ taken ≠ []) && _) eqn:Hbreak.
  { apply wp_ret. apply andb_true_iff in Hbreak as [Hb%bool_decide_eq_true _]. exists taken, (r :: rows). split_and!; [done|done| |done].
    intros _ ->. by apply Hb. }
  clear Hbreak. apply wp_bind. apply wp_mono with (Q := λ s1 res, match res with
    | Ok _ => copied target f (span (files s0) taken) s0 s1 | Err _ => ∃ y, copied target f y s0 s1 end).
  { case_decide; [by apply wp_ret|]. apply wp_guarded; [intros e _; by eexists|by apply wp_ret]. }
  intros s1 [[]|e] Hc1; [|done]. apply wp_bind. eapply wp_mono.
  { apply copy_bytes_spec; [exact Hc1|lia|]. intros _. lia. }
  intros s2 [[]|e] Hc2; [|done]. rewrite <-Hdata in Hc2.
  pose proof Hc2 as (_ & _ & Hmax). rewrite len_app in Hmax. pose proof (len_row_data _ _ Hr) as Hld.
  pose proof (len_span_rows _ _ Hokt) as Hls. pose proof i64_le_u64. apply wp_bind, wp_lift_result. unfold checked_add at 1. rewrite decide_True by lia. cbn [ok_or].
  apply wp_bind. eapply wp_mutation_or; [apply i64_of_ok; lia|].
  apply wp_bind. eapply wp_mutation_or; [unfold checked_add; rewrite decide_True by lia; reflexivity|].
  replace (placed (Z.of_N start) taken ++ [(ordinal r, Z.of_N offset)]) with (placed (Z.of_N start) (taken ++ [r])).
  2: { rewrite placed_app. cbn. do 3 f_equal. by rewrite Hoff. }
  apply IH; [by rewrite <-app_assoc| |].
  - rewrite span_app, span_cons, span_nil, app_nil_r. exact Hc2.
  - rewrite sumZ_app, sumZ_cons. cbn. lia.
Qed.
End copy.
End batch.
