(* ===== verification/StoreCompactionSession.v ===== *)
(** * Compaction and the session

    Whatever the host fails, every operation of a compaction ends with a session that is
    [ready] for the next one, or with a standing one whose record settles to such; and
    every Run keeps its window at every moment, for the rows are only repacked. *)

From S2P Require Import Prelude.
From S2P Require Import Protocol.
From S2P Require Import Resources.
From S2P Require Import StorageErrors.
From S2P Require Import ReplayStore.
From S2P Require Import ReplayStoreSpec.
From S2P Require Import ReplayTables.
From S2P Require Import ReplayAppend.
From S2P Require Import ReplayPrune.
From S2P Require Import StoreTransaction.
From S2P Require Import StoreTransactionSpec.
From S2P Require Import StoreAppend.
From S2P Require Import StoreAppendSpec.
From S2P Require Import StoreSession.
From S2P Require Import StoreReclaim.
From S2P Require Import StoreReclaimSession.
From S2P Require Import StoreCompaction.
From S2P Require Import StoreCompactionSpec.
Local Open Scope Z_scope.

Section session.
Context `{!UuidDisplay, !StateJson, !StorageCodes} (env : SpaceEnv) (heads : gmap RunId Cell).

(** ** States *)

(** The active file is within SQLite's integers and has a valid name. *)
Definition fitting (s : Session) : Prop := file_fits s ∧ valid_replay_file_name (replay_file s) = true.
Definition ready (s : Session) : Prop := clear heads s ∧ fitting s.
Definition packs (s0 s : Session) : Prop :=
  cells s = cells s0 ∧ effective s = effective s0 ∧ repacked (conn s0) (conn s).
Definition durable_store (s : Session) : Store := {| db := durable s; files := files (conn s); clock := clock (conn s) |}.
Record halted (s0 s : Session) : Prop := {
  ha_standing : standing heads s;
  ha_cells : cells s = cells s0;
  ha_repacked : repacked (conn s0) (durable_store s);
  ha_ready : unresolved s = None → ready s;
}.

Lemma ready_sound s : ready s → sound (db (conn s)) (files (conn s)).
Proof. intros [Hc [Hf _]]. by apply (clear_sound heads). Qed.
Lemma packs_refl s0 s : core s = core s0 → packs s0 s.
Proof.
  intros Hc. split; [exact (f_equal cells Hc)|]. split; [exact (f_equal effective Hc)|].
  apply repacked_refl. split; [by apply core_db|by apply core_files].
Qed.
Lemma packs_trans a b c : packs a b → packs b c → packs a c.
Proof. intros (K1 & K2 & K3) (L1 & L2 & L3). split; [congruence|]. split; [congruence|by eapply repacked_trans]. Qed.
Lemma fitting_core s s' : core s' = core s → fitting s → fitting s'.
Proof. intros Hc. unfold fitting, file_fits. rewrite (core_files _ _ Hc). by rewrite (f_equal replay_file Hc : replay_file s' = replay_file s). Qed.
Lemma ready_core s s' : core s' = core s → ready s → ready s'.
Proof. intros Hc [K1 K2]. split; [by eapply core_clear|by eapply fitting_core]. Qed.
Lemma halted_ready s0 s : ready s → packs s0 s → halted s0 s.
Proof.
  intros Hr (Hc & _ & Hp). constructor; [left; apply Hr|done| |done].
  unfold durable_store. rewrite (clear_durable heads _ (proj1 Hr)).
  eapply repacked_trans; [exact Hp|]. by apply repacked_refl.
Qed.
Lemma halted_trans s0 s1 s : packs s0 s1 → halted s1 s → halted s0 s.
Proof.
  intros (K1 & _ & K3) [L1 L2 L3 L4]. constructor; [done|congruence|by eapply repacked_trans|done].
Qed.

(** ** Tidying files *)

(** Other files, in which every row still finds its bytes, on disk. *)
Definition holds_rows (d : Db) (fs fs' : gmap string ReplayFile) : Prop :=
  files_ok fs' ∧ ∀ r, r ∈ chunk_rows d → row_ok fs' r ∧ row_data fs' r = row_data fs r ∧ row_synced fs' r.
Lemma holds_sound d fs fs' : sound d fs → holds_rows d fs fs' → sound d fs'.
Proof.
  intros [[Ht Hl] _] [Hf Hr]. split; [split; [|done]|apply Forall_forall; intros r Hin; by apply Hr].
  constructor; try apply Ht; [done|]. apply Forall_forall. intros r Hin. by apply Hr.
Qed.
Lemma holds_refl d fs : sound d fs → holds_rows d fs fs.
Proof.
  intros [[Ht _] Hs]. split; [apply Ht|]. intros r Hr. pose proof (tables_rows _ _ Ht) as Hok.
  rewrite Forall_forall in Hok, Hs. split; [by apply Hok|]. split; [done|by apply Hs].
Qed.
Lemma holds_trans d a b c : holds_rows d a b → holds_rows d b c → holds_rows d a c.
Proof. intros [_ K1] [Hf K2]. split; [done|]. intros r Hr. destruct (K1 r Hr) as (_ & K & _), (K2 r Hr) as (? & -> & ?). done. Qed.
(** Changing one file that keeps the bytes of its rows. *)
Lemma holds_update d fs nm f f' : sound d fs → fs !! nm = Some f →
  (len (contents f') ≤ len (contents f))%N → (synced_bytes f' ≤ len (contents f'))%N →
  (∀ r, r ∈ chunk_rows d → row_file r = nm → row_offset r + row_bytes r ≤ Z.of_N (len (contents f')) ∧
     row_offset r + row_bytes r ≤ Z.of_N (synced_bytes f')) →
  (∃ x, contents f = contents f' ++ x) →
  holds_rows d fs (<[nm := f']> fs).
Proof.
  intros Hs Hf Hlen Hsy Hrows [x Hx]. pose proof Hs as [[Ht _] Hsync]. split.
  - intros n g Hg. apply lookup_insert_Some in Hg as [[<- <-]|[_ Hg]]; [|by apply (tables_files _ _ Ht n)].
    pose proof (tables_files _ _ Ht _ _ Hf). lia.
  - intros r Hr. pose proof (tables_rows _ _ Ht) as Hok. rewrite Forall_forall in Hok, Hsync.
    specialize (Hok _ Hr). specialize (Hsync _ Hr). destruct (decide (row_file r = nm)) as [Hn|Hn].
    + destruct (Hrows r Hr Hn) as [K1 K2]. destruct Hok as (L1 & L2 & L3 & L4 & L5 & _). unfold row_ok, row_data, row_synced.
      rewrite Hn, lookup_insert_eq, Hf in *. split_and!; try done; [by eexists| |by eexists].
      rewrite Hx, dropN_app_le by lia. symmetry. apply takeN_app_le. rewrite len_dropN. lia.
    + unfold row_ok, row_data, row_synced in *. rewrite !lookup_insert_ne by done. done.
Qed.
Lemma holds_delete d fs nm : sound d fs → (∀ r, r ∈ chunk_rows d → row_file r ≠ nm) → holds_rows d fs (delete nm fs).
Proof.
  intros Hs Hno. pose proof Hs as [[Ht _] Hsync]. split.
  - intros n g [_ Hg]%lookup_delete_Some. by apply (tables_files _ _ Ht n).
  - intros r Hr. pose proof (tables_rows _ _ Ht) as Hok. rewrite Forall_forall in Hok, Hsync.
    specialize (Hok _ Hr). specialize (Hsync _ Hr). specialize (Hno _ Hr).
    unfold row_ok, row_data, row_synced in *. rewrite !lookup_delete_ne by done. done.
Qed.

(** Only the files changed, and the active one did not grow. *)
Definition tidy (s0 s : Session) : Prop := ∃ fs f f',
  core s = at_state s0 fs (db (conn s0)) None None ∧ holds_rows (db (conn s0)) (files (conn s0)) fs ∧
  files (conn s0) !! replay_file s0 = Some f ∧ fs !! replay_file s0 = Some f' ∧ (len (contents f') ≤ len (contents f))%N.
Lemma tidy_refl s0 s : ready s0 → core s = core s0 → tidy s0 s.
Proof.
  intros Hr Hc. pose proof (ready_sound _ Hr) as Hs. destruct Hr as [(Hb & Hu & Hrec & _) _].
  destruct (recoverable_file _ _ _ Hrec) as [f Hf]. exists (files (conn s0)), f, f.
  split; [rewrite Hc; by apply at_state_self|]. split; [by apply holds_refl|]. done.
Qed.
Lemma Forall2_diag {A} (P : A → A → Prop) l : (∀ x, x ∈ l → P x x) → Forall2 P l l.
Proof.
  induction l as [|x l IH]; intros Hl; constructor; [apply Hl; by left|]. apply IH. intros y Hy. apply Hl. by right.
Qed.
Lemma tidy_ready s0 s : ready s0 → tidy s0 s → ready s ∧ packs s0 s.
Proof.
  intros Hr (fs & f & f' & Hc & Hh & Hf & Hf' & Hlen). pose proof (ready_sound _ Hr) as Hs.
  destruct (at_state_rest _ _ _ _ _ _ Hc) as (Hcells & Hname & Heff). pose proof Hr as [(_ & _ & _ & Hw & Hm) Hfits].
  split; [split|].
  - unfold clear. rewrite (at_state_before _ _ _ _ _ _ Hc), (at_state_unresolved _ _ _ _ _ _ Hc), (at_state_db _ _ _ _ _ _ Hc),
      (at_state_files _ _ _ _ _ _ Hc), (at_state_compaction _ _ _ _ _ _ Hc), Hcells, Hname.
    split; [done|]. split; [done|]. split; [|done]. apply sound_recoverable; [by eapply holds_sound|by eexists].
  - unfold fitting, file_fits. rewrite (at_state_files _ _ _ _ _ _ Hc), Hname. destruct Hfits as [Hfits Hv]. split; [|done].
    intros g Hg. assert (g = f') as -> by congruence. specialize (Hfits _ Hf). lia.
  - split; [done|]. split; [done|]. constructor; rewrite ?(at_state_db _ _ _ _ _ _ Hc), ?(at_state_files _ _ _ _ _ _ Hc); try done.
    destruct Hh as [_ Hh]. apply Forall2_diag. intros r Hin. split; [done|by apply Hh].
Qed.
Lemma tidy_trans a b c : tidy a b → tidy b c → tidy a c.
Proof.
  intros (fs & f & f' & Hc & Hh & Hf & Hf' & Hlen) (gs & g & g' & Lc & Lh & Lf & Lf' & Llen).
  destruct (at_state_rest _ _ _ _ _ _ Hc) as (_ & Hname & _).
  rewrite (at_state_db _ _ _ _ _ _ Hc) in *. rewrite (at_state_files _ _ _ _ _ _ Hc), Hname in *.
  exists gs, f, g'. split; [by rewrite Lc, (at_state_again _ _ _ _ _ _ _ _ _ _ Hc)|].
  split; [by eapply holds_trans|]. split; [done|]. split; [done|]. assert (g = f') as -> by congruence. lia.
Qed.

(** ** [normalize_replay_files] *)

Lemma tidy_core s0 s s' : core s' = core s → tidy s0 s → tidy s0 s'.
Proof. intros Hc (fs & f & f' & K & Hrest). exists fs, f, f'. split; [by rewrite Hc|done]. Qed.
Lemma tidy_frame s0 s : tidy s0 s → db (conn s) = db (conn s0) ∧ replay_file s = replay_file s0 ∧ compaction s = compaction s0.
Proof.
  intros (fs & f & f' & Hc & _). destruct (at_state_rest _ _ _ _ _ _ Hc) as (_ & ? & _).
  split; [by eapply at_state_db|]. split; [done|by eapply at_state_compaction].
Qed.
(** A tidy step on one file. *)
Lemma tidy_update s0 s s' nm f f' : ready s0 → tidy s0 s → files (conn s) !! nm = Some f →
  core s' = set_file_map (<[nm := f']> (files (conn s))) (core s) →
  (len (contents f') ≤ len (contents f))%N → (synced_bytes f' ≤ len (contents f'))%N →
  (∀ r, r ∈ chunk_rows (db (conn s0)) → row_file r = nm → row_offset r + row_bytes r ≤ Z.of_N (len (contents f')) ∧
     row_offset r + row_bytes r ≤ Z.of_N (synced_bytes f')) →
  (∃ x, contents f = contents f' ++ x) → tidy s0 s'.
Proof.
  intros Hr Ht Hf Hc Hlen Hsy Hrows Hx. destruct (tidy_ready _ _ Hr Ht) as [Hrs _]. pose proof (ready_sound _ Hrs) as Hs.
  destruct (tidy_frame _ _ Ht) as (Hd & Hn & _). rewrite <-Hd in Hrows.
  eapply tidy_trans; [exact Ht|]. destruct Hrs as [(Hb & Hu & Hrec & _) _]. destruct (recoverable_file _ _ _ Hrec) as [g Hg].
  exists (<[nm := f']> (files (conn s))), g, (if decide (nm = replay_file s) then f' else g).
  split; [rewrite Hc, (at_state_self _ Hb Hu); reflexivity|]. split; [by eapply holds_update|]. split; [done|].
  case_decide as Hnm; [subst nm; rewrite lookup_insert_eq|by rewrite lookup_insert_ne]. split; [done|].
  assert (g = f) as -> by congruence. done.
Qed.
Lemma tidy_remove s0 s s' nm : ready s0 → tidy s0 s → nm ≠ replay_file s0 →
  (∀ r, r ∈ chunk_rows (db (conn s0)) → row_file r ≠ nm) →
  core s' = set_file_map (delete nm (files (conn s))) (core s) → tidy s0 s'.
Proof.
  intros Hr Ht Hne Hrows Hc. destruct (tidy_ready _ _ Hr Ht) as [Hrs _]. pose proof (ready_sound _ Hrs) as Hs.
  destruct (tidy_frame _ _ Ht) as (Hd & Hn & _). rewrite <-Hd in Hrows. rewrite <-Hn in Hne.
  eapply tidy_trans; [exact Ht|]. destruct Hrs as [(Hb & Hu & Hrec & _) _]. destruct (recoverable_file _ _ _ Hrec) as [g Hg].
  exists (delete nm (files (conn s))), g, g. split; [rewrite Hc, (at_state_self _ Hb Hu); reflexivity|].
  split; [by apply holds_delete|]. split; [done|]. by rewrite lookup_delete_ne.
Qed.
Lemma store_call_core {A} (k : SM A) s (Q : Session → result A PersistenceError → Prop) :
  wp k (conn s) (λ c r, (db c = db (conn s) → files c = files (conn s) → core (set_conn c s) = core s → Q (set_conn c s) r) ∧
    db c = db (conn s) ∧ files c = files (conn s)) →
  wp (on_conn k) s Q.
Proof.
  intros Hk. apply wp_on_conn. eapply wp_mono; [exact Hk|]. intros c r (HQ & Hd & Hf). apply HQ; [done|done|].
  destruct s as [[] ? ? ? ? ? ? ? ? ? ? ? ?], c. cbn in *. by subst.
Qed.
(** Calls that only look at the files. *)
Lemma look_core {A} (f : Store → result A PersistenceError) s :
  wp (on_conn (guarded (host env) (λ c, Ret (c, f c)))) s (λ s' r, core s' = core s ∧
    match r with Ok a => ∃ c, db c = db (conn s) ∧ files c = files (conn s) ∧ f c = Ok a | Err _ => True end).
Proof.
  apply store_call_core. apply wp_guarded.
  - intros e _. by split; [intros _ _ Hc; split|].
  - unfold wp. split; [|done]. intros _ _ Hc. split; [exact Hc|]. destruct (f _) eqn:Hr; [|done]. by exists (later (conn s)).
Qed.
Lemma file_len_core nm s : wp (on_conn (file_len (host env) nm)) s (λ s' r, core s' = core s ∧
  match r with Ok n => n = len_of_file nm (conn s) | Err _ => True end).
Proof.
  eapply wp_mono; [apply (look_core (λ c, Ok (len_of_file nm c)))|]. intros s' r [Hc Hr]. split; [done|].
  destruct r as [n|]; [|done]. destruct Hr as (c & _ & Hf & [= <-]). unfold len_of_file. by rewrite Hf.
Qed.
Lemma wp_sync nm s (Q : Session → result unit PersistenceError → Prop) : (∀ s' e, core s' = core s → Q s' (Err e)) →
  (∀ s', core s' = set_file_map (files (sync_bytes nm (conn s))) (core s) → Q s' (Ok tt)) →
  wp (on_conn (sync_file env nm)) s Q.
Proof.
  intros Herr Hok. apply wp_on_conn. unfold sync_file. apply wp_guarded; [intros e _; by apply Herr|].
  apply wp_modify, Hok. unfold sync_bytes. change (files (later (conn s))) with (files (conn s)). by destruct (files (conn s) !! nm).
Qed.

Lemma trim_file_spec s0 s e : ready s0 → tidy s0 s →
  (∀ r, r ∈ chunk_rows (db (conn s0)) → row_file r = e.1 → row_offset r + row_bytes r ≤ e.2) →
  wp (trim_file env e) s (λ s' _, tidy s0 s').
Proof.
  intros Hr Ht Hrows. unfold trim_file. apply wp_bind, wp_lift_result. destruct (validate_replay_file_name _); [|done].
  apply wp_bind. eapply wp_mono; [apply look_core|]. intros s1 [[]|x] [Hc1 _]; [|by eapply tidy_core].
  pose proof (tidy_core _ _ _ Hc1 Ht) as Ht1. apply wp_bind, wp_lift_result.
  destruct (nonnegative_u64 _ _) as [stop|] eqn:Hstop; [|done].
  assert (Z.of_N stop = e.2) as Hz by (unfold nonnegative_u64 in Hstop; case_decide; [injection Hstop as <-; lia|done]).
  apply wp_bind. eapply wp_mono; [apply file_len_core|]. intros s2 [actual|x] [Hc2 Hlen]; [|by eapply tidy_core].
  pose proof (tidy_core _ _ _ Hc2 Ht1) as Ht2. case_decide; [by apply wp_fail|]. case_decide as Hover; [|by apply wp_ret].
  apply wp_bind. eapply wp_mono; [apply look_core|]. intros s3 [[]|x] [Hc3 _]; [|by eapply tidy_core].
  pose proof (tidy_core _ _ _ Hc3 Ht2) as Ht3. apply wp_bind, wp_truncate; [intros s4 x Hc4; by eapply tidy_core|].
  intros s4 f Hf Hc4. assert (actual = len (contents f)) as Hact.
  { rewrite Hlen. unfold len_of_file. by rewrite <-(core_files _ _ Hc2), <-(core_files _ _ Hc3), Hf. }
  destruct (tidy_ready _ _ Hr Ht3) as [Hr3 _]. pose proof (ready_sound _ Hr3) as [_ Hsync3].
  destruct (tidy_frame _ _ Ht3) as (Hd3 & _). rewrite Hd3 in Hsync3.
  assert (resize stop f = {| contents := takeN stop (contents f); synced_bytes := N.min (synced_bytes f) stop |}) as Hres.
  { unfold resize. replace (stop - len (contents f))%N with 0%N by lia. by rewrite app_nil_r. }
  assert (len (takeN stop (contents f)) = stop) as Hcut by (rewrite len_takeN; lia).
  assert (tidy s0 s4) as Ht4.
  { eapply tidy_update; [done|exact Ht3|exact Hf|exact Hc4|..]; rewrite Hres; cbn [contents synced_bytes]; rewrite ?Hcut; [lia|lia| |].
    - intros r Hin Hn. specialize (Hrows _ Hin Hn). split; [lia|]. rewrite Forall_forall in Hsync3.
      destruct (Hsync3 _ Hin) as (g & Hg & Hle). rewrite Hn, Hf in Hg. injection Hg as <-. lia.
    - exists (dropN stop (contents f)). by rewrite takeN_dropN. }
  apply wp_sync; [intros s5 x Hc5; by eapply tidy_core|]. intros s5 Hc5. unfold sync_bytes in Hc5.
  destruct (files (conn s4) !! e.1) as [g|] eqn:Hg.
  2: { eapply tidy_core; [|exact Ht4]. rewrite Hc5. by destruct s4 as [[] ? ? ? ? ? ? ? ? ? ? ? ?]. }
  eapply tidy_update; [done|exact Ht4|exact Hg|exact Hc5|..]; cbn [contents synced_bytes]; [lia|lia| |exists []; by rewrite app_nil_r].
  intros r Hin Hn. destruct (tidy_ready _ _ Hr Ht4) as [Hr4 _]. pose proof (ready_sound _ Hr4) as [[Ht5 _] _].
  pose proof (tables_rows _ _ Ht5) as Hok. rewrite Forall_forall in Hok. destruct (tidy_frame _ _ Ht4) as (Hd4 & _). rewrite Hd4 in Hok.
  destruct (Hok _ Hin) as (_ & _ & _ & _ & _ & g' & Hg' & Hle). rewrite Hn, Hg in Hg'. injection Hg' as <-. done.
Qed.
Lemma trim_files_spec s0 l : ready s0 → (∀ e, e ∈ l → ∀ r, r ∈ chunk_rows (db (conn s0)) → row_file r = e.1 → row_offset r + row_bytes r ≤ e.2) →
  ∀ s, tidy s0 s → wp (trim_files env l) s (λ s' _, tidy s0 s').
Proof.
  intros Hr. induction l as [|e l IH]; intros Hl s Ht; cbn [trim_files]; [by apply wp_ret|]. apply wp_bind.
  eapply wp_mono; [apply trim_file_spec; [done|done|apply Hl; by left]|]. intros s1 [[]|x] Ht1; [|done].
  apply IH; [|done]. intros e' He'. apply Hl. by right.
Qed.

(** Removing a file no row names, as far as it works. *)
Lemma try_remove_spec s0 s nm : ready s0 → tidy s0 s → nm ≠ replay_file s0 →
  (∀ r, r ∈ chunk_rows (db (conn s0)) → row_file r ≠ nm) → wp (try_remove env nm) s (λ s' r, is_ok r = true ∧ tidy s0 s').
Proof.
  intros Hr Ht Hne Hrows. unfold try_remove. apply wp_bind, wp_attempt. apply wp_unlink.
  - intros s' e Hc. apply wp_ret. split; [done|by eapply tidy_core].
  - intros s' Hc. apply wp_ret. split; [done|by eapply tidy_remove].
Qed.
Lemma quiet_tidy {A} (m : SX A) s0 s : quiet m → tidy s0 s → wp m s (λ s' _, tidy s0 s').
Proof. intros Hm Ht. eapply wp_mono; [apply Hm|]. intros s' r Hc. eapply tidy_core; [exact Hc|done]. Qed.
Lemma retire_spec s0 referenced : ready s0 → ends_ok referenced (chunk_rows (db (conn s0))) →
  replay_file s0 ∈ map fst referenced →
  ∀ names retired s, tidy s0 s → wp (retire_unreferenced env names referenced retired) s (λ s' _, tidy s0 s').
Proof.
  intros Hr Hends Hactive. induction names as [|nm names IH]; intros retired s Ht; cbn [retire_unreferenced]; [by apply wp_ret|].
  apply wp_bind. eapply wp_mono; [by apply quiet_tidy; [apply quiet_ask|]|]. intros s1 [[]|e] Ht1; [|done].
  case_decide as Hin; [by apply IH|]. apply wp_bind. eapply wp_mono.
  { apply try_remove_spec; [done|done|intros Heq; apply Hin; by rewrite Heq|]. intros r Hrin Hn. apply Hin. rewrite <-Hn. by eapply ends_ok_named. }
  intros s2 [b|e] [_ Ht2]; [|done]. by apply IH.
Qed.
Lemma normalize_spec s0 s : ready s0 → tidy s0 s → wp (normalize_replay_files env) s (λ s' _, tidy s0 s').
Proof.
  intros Hr Ht. unfold normalize_replay_files. apply wp_bind. eapply wp_mono; [apply query_core|].
  intros s1 [ends|e] [Hc1 Hends]; [|by eapply tidy_core]. pose proof (tidy_core _ _ _ Hc1 Ht) as Ht1.
  destruct (tidy_frame _ _ Ht) as (Hd & _ & _). rewrite Hd in Hends. destruct (tidy_frame _ _ Ht1) as (_ & Hn1 & _).
  apply wp_bind, wp_get. rewrite Hn1. pose proof (referenced_ends_ok (db (conn s0))) as Hok. rewrite <-Hends in Hok.
  destruct (ends_ok_insert (replay_file s0) _ _ Hok) as [Hok' Hactive].
  apply wp_bind. eapply wp_mono.
  { apply trim_files_spec; [done| |exact Ht1]. intros [nm z] He r Hin Hrn. cbn [fst snd] in *. rewrite <-Hrn in He.
    by eapply ends_ok_unique. }
  intros s2 [[]|e] Ht2; [|done]. apply wp_bind. eapply wp_mono; [by apply quiet_tidy; [apply quiet_ask|]|].
  intros s3 [[]|e] Ht3; [|done]. apply wp_bind, wp_get. apply wp_bind. eapply wp_mono; [by apply retire_spec|].
  intros s4 [retired|e] Ht4; [|done]. apply wp_bind, wp_attempt. eapply wp_mono; [by apply quiet_tidy; [apply quiet_ask|]|].
  intros s5 r Ht5. by apply wp_ret.
Qed.

(** ** Compaction flags *)

(** The rows, the active file and what is to be migrated are the same. *)
Definition same_work (s0 s : Session) : Prop :=
  db (conn s) = db (conn s0) ∧ replay_file s = replay_file s0 ∧
  compaction_sources_pending (compaction s) = compaction_sources_pending (compaction s0) ∧
  compaction_cursor (compaction s) = compaction_cursor (compaction s0) ∧
  force_compaction (compaction s) = force_compaction (compaction s0).
Definition steady (s0 s : Session) : Prop := ready s ∧ packs s0 s ∧ same_work s0 s.
Lemma tidy_steady s0 s : ready s0 → tidy s0 s → steady s0 s.
Proof.
  intros Hr Ht. destruct (tidy_ready _ _ Hr Ht) as [? ?]. destruct (tidy_frame _ _ Ht) as (Hd & Hn & Hc).
  split; [done|]. split; [done|]. unfold same_work. by rewrite Hd, Hn, Hc.
Qed.
Lemma steady_trans a b c : steady a b → steady b c → steady a c.
Proof.
  intros (_ & P1 & (D1 & N1 & S1 & C1 & F1)) (R2 & P2 & (D2 & N2 & S2 & C2 & F2)). split; [done|]. split; [by eapply packs_trans|].
  split; [congruence|]. split; [congruence|]. split; [congruence|]. split; congruence.
Qed.
Lemma steady_core s0 s : ready s0 → core s = core s0 → steady s0 s.
Proof. intros Hr Hc. by apply tidy_steady, tidy_refl. Qed.
Lemma steady_halted s0 s : steady s0 s → halted s0 s.
Proof. intros (Hr & Hp & _). by apply halted_ready. Qed.
Lemma ready_compaction f s : ready s → migrating (f (compaction s)) (replay_file s) (db (conn s)) →
  ready (set_compaction (f (compaction s)) s).
Proof. intros [(K1 & K2 & K3 & K4 & _) Hfits] Hm. by split. Qed.
Lemma flag_steady f s0 s : steady s0 s → compaction_sources_pending (f (compaction s)) = compaction_sources_pending (compaction s) →
  compaction_cursor (f (compaction s)) = compaction_cursor (compaction s) →
  force_compaction (f (compaction s)) = force_compaction (compaction s) → steady s0 (set_compaction (f (compaction s)) s).
Proof.
  intros (Hr & Hp & (D1 & N1 & S1 & C1 & F1)) Hs Hc Hf. split; [|split; [done|]].
  - apply ready_compaction; [done|]. unfold migrating. rewrite Hs, Hc. apply Hr.
  - unfold same_work. cbn. rewrite Hs, Hc, Hf. done.
Qed.
Lemma wp_on_compaction f s (Q : Session → result unit PersistenceError → Prop) :
  Q (set_compaction (f (compaction s)) s) (Ok tt) → wp (on_compaction f) s Q.
Proof. intros HQ. by apply wp_modify. Qed.
Lemma normalize_if_needed_spec s0 s : steady s0 s → wp (normalize_if_needed env) s (λ s' _, steady s0 s').
Proof.
  intros Hst. pose proof Hst as (Hr & _). unfold normalize_if_needed. apply wp_bind, wp_get.
  destruct (replay_cleanup_needed _); [|by apply wp_ret]. apply wp_bind.
  eapply wp_mono; [apply (normalize_spec s s Hr), tidy_refl; done|]. intros s1 [retired|e] Ht.
  - apply wp_on_compaction. apply flag_steady; [|done|done|done]. eapply steady_trans; [exact Hst|by apply tidy_steady].
  - eapply steady_trans; [exact Hst|by apply tidy_steady].
Qed.

(** ** Copying into the active file *)

(** [x] was appended to the active file, whose bytes are as much synced as they were. *)
Definition swollen (s0 s : Session) (f : ReplayFile) (x : bytes) : Prop := ∃ g,
  files (conn s0) !! replay_file s0 = Some f ∧ (len (contents f) + len x ≤ i64_max)%N ∧
  contents g = contents f ++ x ∧ (synced_bytes f ≤ synced_bytes g ∧ synced_bytes g ≤ len (contents g))%N ∧
  core s = at_state s0 (<[replay_file s0 := g]> (files (conn s0))) (db (conn s0)) None None.
Lemma swollen_steady s0 s f x : ready s0 → swollen s0 s f x →
  steady s0 s ∧ grown (replay_file s0) (files (conn s0)) (files (conn s)).
Proof.
  intros Hr (g & Hf & Hlen & Hx & [Hs1 Hs2] & Hc). pose proof (ready_sound _ Hr) as Hs. pose proof Hs as [[Ht _] _].
  destruct (at_state_rest _ _ _ _ _ _ Hc) as (Hcells & Hname & Heff). pose proof Hr as [(_ & _ & _ & Hw & Hm) Hfits].
  assert (grown (replay_file s0) (files (conn s0)) (<[replay_file s0 := g]> (files (conn s0)))) as Hg.
  { constructor; [intros n Hn; by apply lookup_insert_ne| |by rewrite Hf]. intros f' Hfg. rewrite Hf in Hfg. injection Hfg as <-.
    exists g, x. by rewrite lookup_insert_eq. }
  assert (sound (db (conn s0)) (<[replay_file s0 := g]> (files (conn s0)))) as Hs'.
  { eapply sound_grown; [done..|]. eapply grown_files_ok; [apply Hs|done|apply lookup_insert_eq|]. rewrite Hx, len_app. lia. }
  split; [|by rewrite (at_state_files _ _ _ _ _ _ Hc)]. split; [split|split].
  - unfold clear. rewrite (at_state_before _ _ _ _ _ _ Hc), (at_state_unresolved _ _ _ _ _ _ Hc), (at_state_db _ _ _ _ _ _ Hc),
      (at_state_files _ _ _ _ _ _ Hc), (at_state_compaction _ _ _ _ _ _ Hc), Hcells, Hname.
    split; [done|]. split; [done|]. split; [|done]. apply sound_recoverable; [done|]. by rewrite lookup_insert_eq.
  - unfold fitting, file_fits. rewrite (at_state_files _ _ _ _ _ _ Hc), Hname, lookup_insert_eq. split; [|apply Hfits].
    intros g' [= <-]. rewrite Hx, len_app. lia.
  - split; [done|]. split; [done|]. constructor; rewrite ?(at_state_db _ _ _ _ _ _ Hc), ?(at_state_files _ _ _ _ _ _ Hc); try done.
    pose proof (tables_rows _ _ Ht) as Hok. rewrite Forall_forall in Hok. apply Forall2_diag. intros r Hin. split; [done|].
    apply row_data_extends; [by eapply grown_extends|by apply Hok].
  - unfold same_work. by rewrite (at_state_db _ _ _ _ _ _ Hc), (at_state_compaction _ _ _ _ _ _ Hc), Hname.
Qed.
Lemma copied_swollen s0 f x c : ready s0 → files (conn s0) !! replay_file s0 = Some f →
  copied (replay_file s0) f x (conn s0) c → swollen s0 (set_conn c s0) f x.
Proof.
  intros Hr Hf (Hd & Hfs & Hlen). pose proof (ready_sound _ Hr) as [[Ht _] _]. destruct (tables_files _ _ Ht _ _ Hf) as [_ Hsy].
  destruct Hr as [(Hb & Hu & _) _]. exists (appended f x). split; [done|]. split; [done|]. split; [done|].
  split; [cbn; rewrite len_app; lia|]. clear Ht Hsy.
  destruct s0 as [c0 ? ? ? ? ? ? ? ? ? ? ? ?], c. cbn in *. subst. done.
Qed.
Lemma swollen_core s0 s s' f x : core s' = core s → swollen s0 s f x → swollen s0 s' f x.
Proof. intros Hc (g & K1 & K2 & K3 & K4 & K5). exists g. rewrite Hc. done. Qed.
Lemma swollen_sync s0 s s' f x : swollen s0 s f x →
  core s' = set_file_map (files (sync_bytes (replay_file s0) (conn s))) (core s) → swollen s0 s' f x ∧
  files (conn s') !! replay_file s0 = Some {| contents := contents f ++ x; synced_bytes := len (contents f) + len x |}.
Proof.
  intros (g & Hf & Hlen & Hx & Hs & Hc) Hs'.
  pose proof (at_state_files _ _ _ _ _ _ Hc) as Hfs. unfold sync_bytes in Hs'. rewrite Hfs, lookup_insert_eq in Hs'.
  cbn [files set_files] in Hs'. rewrite insert_insert_eq, Hx, len_app, Hc in Hs'.
  set (h := {| contents := contents f ++ x; synced_bytes := len (contents f) + len x |}) in *.
  split; [|rewrite (f_equal (λ x, files (conn x)) Hs' : files (conn s') = <[replay_file s0 := h]> (files (conn s0))); apply lookup_insert_eq].
  exists h. split; [done|]. split; [done|]. split; [done|]. split; [cbn; rewrite Hx, len_app in Hs; rewrite len_app; lia|].
  exact Hs'.
Qed.
(** Cutting the copy off again. *)
Lemma cut_steady s0 s f x (Q : Session → result unit PersistenceError → Prop) : ready s0 → swollen s0 s f x →
  (∀ s' r, steady s0 s' → Q s' r) →
  wp (on_conn (truncate_replay_tail (tx env) (replay_file s0) (len (contents f)))) s Q.
Proof.
  intros Hr Hsw HQ. destruct (swollen_steady _ _ _ _ Hr Hsw) as [Hst _]. pose proof Hst as (Hrs & _ & (Hd & Hn & _)).
  pose proof Hsw as (h & Hf & _ & Hx & [Hs1 Hs2] & Hc). apply wp_truncate.
  - intros s' e Hs'. apply HQ. eapply steady_trans; [exact Hst|by apply steady_core].
  - intros s' g Hg Hs'. apply HQ. eapply steady_trans; [exact Hst|]. apply tidy_steady; [done|].
    pose proof Hg as Hg'. rewrite (at_state_files _ _ _ _ _ _ Hc), lookup_insert_eq in Hg. injection Hg as <-.
    pose proof (ready_sound _ Hr) as [[Ht _] Hsync]. destruct (tables_files _ _ Ht _ _ Hf) as [_ Hsy].
    assert (contents (resize (len (contents f)) h) = contents f) as Hres.
    { unfold resize. cbn [contents]. rewrite Hx, len_app, takeN_exact.
      replace (len (contents f) - (len (contents f) + len x))%N with 0%N by lia. by rewrite app_nil_r. }
    eapply (tidy_update s s s' (replay_file s0)); [done|by apply tidy_refl|exact Hg'|exact Hs'|..]; rewrite ?Hres; cbn [resize synced_bytes].
    + rewrite Hx, len_app. lia.
    + lia.
    + rewrite Hd. intros r Hin Hrn. pose proof (tables_rows _ _ Ht) as Hok. rewrite Forall_forall in Hok, Hsync.
      destruct (Hok _ Hin) as (_ & _ & _ & _ & _ & k & Hk & Hle). destruct (Hsync _ Hin) as (k' & Hk' & Hle').
      rewrite Hrn, Hf in Hk, Hk'. injection Hk as <-. injection Hk' as <-. lia.
    + by exists x.
Qed.
End session.
