(* ===== verification/StoreCompactionOnce.v ===== *)
(** * A whole compaction

    The batches of a source end: each moves at least one of its rows or halves what the
    next may take.  A batch that does not commit leaves the copy to be cut off again, and
    the record of one that may have committed settles to the moved rows or to the old ones;
    no Run loses a byte either way.  Then draining all sources, publishing a fresh active
    file, and the loop that retires confirmed pages when the database is full. *)

From S2P Require Import Prelude.
From S2P Require Import Protocol.
From S2P Require Import Resources.
From S2P Require Import StorageErrors.
From S2P Require Import ReplayStore.
From S2P Require Import ReplayStoreSpec.
From S2P Require Import ReplayTables.
From S2P Require Import ReplayAppend.
From S2P Require Import ReplayPrune.
From S2P Require Import StoreTransaction.
From S2P Require Import StoreTransactionSpec.
From S2P Require Import StoreAppend.
From S2P Require Import StoreAppendSpec.
From S2P Require Import StoreSession.
From S2P Require Import StoreReclaim.
From S2P Require Import StoreReclaimSpec.
From S2P Require Import StoreReclaimSession.
From S2P Require Import StoreCompaction.
From S2P Require Import StoreCompactionSpec.
From S2P Require Import StoreCompactionSession.
Local Open Scope Z_scope.

Section session.
Context `{!UuidDisplay, !StateJson, !StorageCodes} (env : SpaceEnv) (heads : gmap RunId Cell).

(** ** A transaction of compaction *)

Lemma record_idle m s : unresolved s = None → record_settlement m s = s.
Proof. destruct s. cbn. by intros ->. Qed.
Lemma repacked_forward s s' : repacked s s' → heads_forward (db s) (db s').
Proof. intros Hp id r Hr. exists r. rewrite (rp_runs _ _ Hp). split; [done|lia]. Qed.

Section transact.
Context (s0 : Session) (w : MaintenanceWitness) (body : M (Store * unit) PersistenceError unit) (R : Store → Prop)
  (m : MaintenanceSettlement).
Hypotheses (Hready : ready heads s0)
  (Hbody : ∀ c, unchanged (conn s0) c → wp body (c, tt) (λ cl r,
     files cl.1 = files (conn s0) ∧ match r with Ok _ => R cl.1 | Err _ => True end))
  (HR : ∀ c, R c → files c = files (conn s0) → sound (db c) (files c) ∧ repacked (conn s0) c ∧
     rows_from (replay_file s0) (db (conn s0)) (db c))
  (Hsettles : ∀ (done : bool) d u s1 t, (if done then made R s0 d else d = db (conn s0)) →
     settled m done (at_state s0 (files (conn s0)) d None u) s1 t →
     clear heads (set_unresolved None s1) ∧ db (conn s1) = d).

Lemma made_ok d : made R s0 d → sound d (files (conn s0)) ∧ heads_forward (db (conn s0)) d ∧
  rows_from (replay_file s0) (db (conn s0)) d.
Proof.
  intros (c & Hc & Hf & <-). destruct (HR _ Hc Hf) as (Hs & Hp & Hrows). rewrite Hf in Hs.
  split; [done|]. split; [by apply repacked_forward|done].
Qed.
Lemma made_repacked d c : made R s0 d → db c = d → files c = files (conn s0) → repacked (conn s0) c.
Proof.
  intros (c' & Hc & Hf & Hd) Hdc Hfc. destruct (HR _ Hc Hf) as (_ & Hp & _). eapply repacked_trans; [exact Hp|].
  apply repacked_refl. split; congruence.
Qed.
Lemma transact_clear s d : made R s0 d → core s = at_state s0 (files (conn s0)) d None None → ready heads s ∧ packs s0 s.
Proof.
  intros Hd Hc. destruct (at_state_rest _ _ _ _ _ _ Hc) as (Hcells & Hname & Heff). split; [split|].
  - eapply (clear_made heads s0 R); [apply Hready|by apply (ready_sound heads)|by apply made_ok|by right|done].
  - unfold fitting, file_fits. rewrite (at_state_files _ _ _ _ _ _ Hc), Hname. apply Hready.
  - split; [done|]. split; [done|]. eapply made_repacked; [done|by eapply at_state_db|by eapply at_state_files].
Qed.
Lemma transact_halted s : suspended R s0 s → halted heads s0 (record_settlement m s).
Proof.
  intros (u & dn & d & o & Hs). pose proof (su_state _ _ _ _ _ _ _ Hs) as Hc.
  assert (core (record_settlement m s) = at_state s0 (files (conn s0)) d o (Some (with_settlement m u))) as Hc'.
  { unfold record_settlement. rewrite (at_state_unresolved _ _ _ _ _ _ Hc). exact (f_equal (set_unresolved (Some (with_settlement m u))) Hc). }
  pose proof (recorded_kept heads s0 R m (proj1 Hready) (ready_sound _ _ Hready) made_ok Hsettles _ _ _ _ _ _ Hs Hc')
    as (Hst & _ & Hcells & Hf & _).
  constructor; [done|done| |].
  - assert (durable (record_settlement m s) = default d o) as Hdur.
    { unfold durable. by rewrite (at_state_before _ _ _ _ _ _ Hc'), (at_state_db _ _ _ _ _ _ Hc'). }
    assert (default d o = db (conn s0) ∨ made R s0 (default d o)) as [Hd|Hd].
    { destruct (su_durable _ _ _ _ _ _ _ Hs) as [->| ->]; [by left|]. destruct (su_new _ _ _ _ _ _ _ Hs) as [[_ ->]|?]; auto. }
    + apply repacked_refl. split; [by rewrite <-Hd, <-Hdur|done].
    + by eapply made_repacked.
  - by rewrite (at_state_unresolved _ _ _ _ _ _ Hc').
Qed.
Lemma transact_spec : wp (maintenance env w body) s0 (λ s r,
  match r with
  | Ok true => ready heads s ∧ packs s0 s ∧ ∃ d, made R s0 d ∧ core s = at_state s0 (files (conn s0)) d None None
  | Ok false => core s = core s0
  | Err e => core s = core s0 ∨ requires_reconciliation e = true ∧ halted heads s0 (record_settlement m s)
  end).
Proof.
  eapply wp_mono. { apply (maintenance_spec _ heads) with (R := R); [apply Hready|done]. }
  intros s [[]|e] Hr; [|done|].
  - destruct Hr as (d & Hd & Hc). destruct (transact_clear s d Hd Hc). split; [done|]. split; [done|]. by exists d.
  - destruct Hr as [?|[? Hs]]; [by left|]. right. split; [done|by apply transact_halted].
Qed.
End transact.

(** How an operation fails: ready for another one unless the error says otherwise. *)
Definition stopped (s0 s : Session) (e : PersistenceError) : Prop :=
  halted heads s0 s ∧ (requires_reconciliation e = false → unresolved s = None).
Lemma ready_stopped s0 s e : ready heads s → packs s0 s → stopped s0 s e.
Proof. intros Hr Hp. split; [by apply halted_ready|]. intros _. apply Hr. Qed.
Lemma stopped_trans s0 s1 s e : packs s0 s1 → stopped s1 s e → stopped s0 s e.
Proof. intros Hp [Hh Hu]. split; [by eapply halted_trans|done]. Qed.

(** ** The rows of a source *)

Definition named (source : string) (d : Db) : nat := length (filter (λ r, row_file r = source) (chunk_rows d)).
Definition unnamed (source : string) (d : Db) : Prop := ∀ x, x ∈ chunk_rows d → row_file x ≠ source.
Definition waiting (after : Z) (source : string) (d : Db) : list ReplayRow :=
  filter (λ r, after < ordinal r ∧ row_file r = source) (chunk_rows d).
Lemma filter_sorted (P : ReplayRow → Prop) `{∀ x, Decision (P x)} l :
  StronglySorted ordinal_lt l → StronglySorted ordinal_lt (filter P l).
Proof.
  induction 1 as [|x l Hl IH Hx]; [constructor|]. rewrite filter_cons. case_decide; [|done]. constructor; [done|].
  rewrite Forall_forall in *. intros y [_ Hy]%list_elem_of_filter. auto.
Qed.
Lemma sorted_app_lt a b x y : StronglySorted ordinal_lt (a ++ b) → x ∈ a → y ∈ b → ordinal x < ordinal y.
Proof.
  induction a as [|z a IH]; intros Hs Hx Hy; [by apply elem_of_nil in Hx|]. cbn [app] in Hs.
  apply StronglySorted_inv in Hs as [Hs Hz]. apply elem_of_cons in Hx as [->|Hx]; [|by apply IH].
  rewrite Forall_forall in Hz. apply Hz, elem_of_app. by right.
Qed.
Lemma last_ordinal (l : list ReplayRow) : l ≠ [] → ∃ r, r ∈ l ∧ List.last (map ordinal l) 0 = ordinal r.
Proof.
  induction l as [|x l IH]; [done|]. intros _. destruct l as [|y l]; [exists x; split; [by left|done]|].
  destruct IH as (r & Hr & Heq); [done|]. exists r. split; [by right|]. done.
Qed.
(** Moving a front of the waiting rows: what remains is numbered past it, and is fewer. *)
Lemma moved_past source nm after taken rest d d' : source ≠ nm → StronglySorted ordinal_lt (chunk_rows d) →
  waiting after source d = taken ++ rest → taken ≠ [] →
  (∀ x, x ∈ chunk_rows d → row_file x = source → after < ordinal x) →
  moves_rows nm (map ordinal taken) d d' →
  (∀ x, x ∈ chunk_rows d' → row_file x = source → List.last (map ordinal taken) 0 < ordinal x) ∧
  (named source d' < named source d)%nat.
Proof.
  intros Hne Hsort Hw Htaken Hafter (g & Hd' & Hg). split.
  - rewrite Hd'. intros x (y & -> & Hy)%list_elem_of_fmap Hxs. destruct (Hg _ Hy) as [_ Hgy].
    case_decide as Ho; [congruence|]. rewrite Hgy in *. destruct (last_ordinal _ Htaken) as (r & Hr & ->).
    eapply (sorted_app_lt taken rest); [rewrite <-Hw; by apply filter_sorted|done|].
    assert (y ∈ waiting after source d) as Hyw by (apply list_elem_of_filter; auto). rewrite Hw in Hyw.
    apply elem_of_app in Hyw as [Hyt|?]; [|done]. destruct Ho. apply list_elem_of_fmap. by exists y.
  - destruct taken as [|r taken]; [done|]. assert (r ∈ waiting after source d) as Hr by (rewrite Hw; by left).
    apply list_elem_of_filter in Hr as [[_ Hrs] Hr]. unfold named. rewrite Hd'.
    assert (map g (chunk_rows d) = omap (λ x, Some (g x)) (chunk_rows d)) as ->.
    { clear. induction (chunk_rows d) as [|x l IH]; [done|]. rewrite omap_step, <-IH. done. }
    eapply omap_fewer; [exact Hr|done| |].
    + intros x y Hx [= <-] Hy. destruct (Hg _ Hx) as [_ Hgx]. case_decide; congruence.
    + intros y [= <-] Hy. destruct (Hg _ Hr) as [_ Hgr]. rewrite decide_True in Hgr by (by left). congruence.
Qed.
Lemma waiting_prefix after source limit d taken rest : source_rows after source limit d = taken ++ rest →
  waiting after source d = taken ++ (rest ++ drop (N.to_nat limit) (waiting after source d)).
Proof. intros Hrows. rewrite app_assoc, <-Hrows. unfold source_rows. by rewrite take_drop. Qed.
Lemma last_move_placed off taken : last_move (placed off taken) = List.last (map ordinal taken) 0.
Proof. unfold last_move. by rewrite placed_ordinals. Qed.

(** ** One batch *)

Lemma staged_ext source target f off rows s c : unchanged s c → staged_copy source target f off rows s →
  staged_copy source target f off rows c.
Proof. intros [Hd Hf] [K1 K2 K3 K4 K5 K6 K7 K8 K9]. constructor; rewrite ?Hd, ?Hf; done. Qed.
Lemma moved_ext target rows s c c' : unchanged s c → batch_moved target rows c c' → batch_moved target rows s c'.
Proof.
  intros [Hd Hf] [K1 K2 K3 K4]. constructor; rewrite <-?Hd, <-?Hf; try done.
  eapply repacked_trans; [|exact K3]. by apply repacked_refl.
Qed.
Lemma moved_from nm taken d d' : moves_rows nm (map ordinal taken) d d' → rows_from nm d d'.
Proof.
  intros (g & Hd & Hg) x. rewrite Hd. intros (y & -> & Hy)%list_elem_of_fmap. destruct (Hg _ Hy) as [_ Hgy].
  case_decide; [by left|]. rewrite Hgy. right. by exists y.
Qed.
Lemma clear_compaction c s : clear heads s → migrating c (replay_file s) (db (conn s)) → clear heads (set_compaction c s).
Proof. intros (K1 & K2 & K3 & K4 & _) Hm. done. Qed.

(** [s] with the copy of [taken] at the end of its active file, synced: [s3]. *)
Section batch.
Context (s s3 : Session) (f : ReplayFile) (source : string) (rest : list string) (after : Z) (taken others : list ReplayRow).
Let nm : string := replay_file s.
Let x : bytes := span (files (conn s)) taken.
Let f3 : ReplayFile := {| contents := contents f ++ x; synced_bytes := len (contents f) + len x |}.
Let R : Store → Prop := batch_moved nm taken (conn s3).
Hypotheses (Hready : ready heads s) (Hswollen : swollen s s3 f x) (Hf3 : files (conn s3) !! nm = Some f3)
  (Hsources : compaction_sources_pending (compaction s) = source :: rest)
  (Hcursor : compaction_cursor (compaction s) = after)
  (Hwaiting : waiting after source (db (conn s)) = taken ++ others) (Htaken : taken ≠ []).

Lemma batch_frame : ready heads s3 ∧ packs s s3 ∧ same_work s s3 ∧ grown nm (files (conn s)) (files (conn s3)) ∧
  files (conn s) !! nm = Some f ∧ source ≠ nm ∧
  (∀ y, y ∈ chunk_rows (db (conn s)) → row_file y = source → after < ordinal y) ∧
  within_files nm (source :: rest) (db (conn s)).
Proof.
  destruct (swollen_steady _ _ _ _ _ Hready Hswollen) as [(K1 & K2 & K3) K4].
  destruct Hready as [(_ & _ & _ & _ & Hm) _]. unfold migrating in Hm. rewrite Hsources, Hcursor in Hm.
  destruct Hm as (Hn & Hm & Hw). destruct Hswollen as (g & Hf & _). repeat (split; [done|]). split; [|done].
  intros ->. apply Hn. by left.
Qed.
Lemma batch_rows r : r ∈ taken → r ∈ chunk_rows (db (conn s)) ∧ row_file r = source.
Proof.
  intros Hr. assert (r ∈ waiting after source (db (conn s))) as Hw by (rewrite Hwaiting; by apply elem_of_app; left).
  apply list_elem_of_filter in Hw as [[_ ?] ?]. done.
Qed.
Lemma batch_ok : Forall (row_ok (files (conn s))) taken ∧ NoDup (map ordinal taken).
Proof.
  pose proof (ready_sound _ _ Hready) as [[Ht _] _]. split.
  - pose proof (tables_rows _ _ Ht) as Hok. rewrite Forall_forall in *. intros r Hr. apply Hok. by apply batch_rows.
  - pose proof (filter_sorted (λ r, after < ordinal r ∧ row_file r = source) _ (tables_ordinals _ _ Ht)) as Hsort.
    change (filter _ _) with (waiting after source (db (conn s))) in Hsort. rewrite Hwaiting in Hsort. clear -Hsort.
    induction taken as [|r l IH]; [constructor|]. cbn [app] in Hsort. apply StronglySorted_inv in Hsort as [Hs Hr].
    rewrite map_cons. apply NoDup_cons. split; [|by apply IH]. intros (y & Heq & Hy)%list_elem_of_fmap.
    rewrite Forall_forall in Hr. assert (ordinal_lt r y) as Hlt by (apply Hr, elem_of_app; by left). unfold ordinal_lt in Hlt. lia.
Qed.
Lemma batch_staged : staged_copy source nm f3 (Z.of_N (len (contents f))) taken (conn s3).
Proof.
  destruct batch_frame as (Hr3 & _ & (Hd & Hn & _) & Hg & Hf & Hne & _). destruct batch_ok as [Hok Hnd].
  pose proof (ready_sound _ _ Hready) as [[Ht _] _].
  assert (span (files (conn s3)) taken = x) as Hspan by (eapply span_extends; [by eapply grown_extends|done]).
  constructor; try done.
  - by apply (ready_sound heads).
  - apply Hready.
  - rewrite Hd. apply batch_rows.
  - intros y. rewrite Hd. intros Hy Hyf. pose proof (tables_rows _ _ Ht) as Hall. rewrite Forall_forall in Hall.
    destruct (Hall _ Hy) as (_ & _ & _ & _ & _ & g & Hg' & Hle). rewrite Hyf, Hf in Hg'. by injection Hg' as <-.
  - lia.
  - exists []. rewrite N2Z.id, app_nil_r, Hspan. apply dropN_exact.
  - cbn. pose proof (len_span_rows _ _ Hok). unfold x. lia.
Qed.
Lemma batch_body c : unchanged (conn s3) c →
  wp (on_store (relocate_rows env source nm (placed (Z.of_N (len (contents f))) taken))) (c, tt) (λ cl r,
    files cl.1 = files (conn s3) ∧ match r with Ok _ => R cl.1 | Err _ => True end).
Proof.
  intros Hu. destruct batch_frame as (_ & _ & _ & _ & _ & Hne & _). apply wp_on_store.
  eapply wp_mono; [eapply relocate_rows_spec; [exact Hne|eapply staged_ext; [exact Hu|apply batch_staged]]|].
  intros c' r [Hf Hr]. cbn [fst]. destruct Hu as [Hd Hfu]. split; [congruence|]. destruct r; [|done]. by eapply moved_ext.
Qed.
Lemma batch_keeps c : R c → files c = files (conn s3) → sound (db c) (files c) ∧ repacked (conn s3) c ∧
  rows_from (replay_file s3) (db (conn s3)) (db c).
Proof.
  intros [_ Hs Hp Hm] _. destruct batch_frame as (_ & _ & (_ & -> & _) & _). split; [done|]. split; [done|]. by eapply moved_from.
Qed.
Lemma batch_past d : made R s3 d → (∀ y, y ∈ chunk_rows d → row_file y = source → List.last (map ordinal taken) 0 < ordinal y) ∧
  (named source d < named source (db (conn s)))%nat ∧ within_files nm (source :: rest) d.
Proof.
  intros (c & [_ _ _ Hm] & _ & <-). destruct batch_frame as (_ & _ & (Hd & _) & _ & _ & Hne & Hafter & Hw). rewrite Hd in Hm.
  rewrite (assoc (∧)). split; [|eapply within_from; [by eapply moved_from|done]].
  eapply moved_past; [exact Hne| |exact Hwaiting|done|done|exact Hm]. pose proof (ready_sound _ _ Hready) as [[Ht _] _]. apply Ht.
Qed.
Lemma batch_settles identity : ∀ (done : bool) d u s1 t, (if done then made R s3 d else d = db (conn s3)) →
  settled (ReplayMove nm identity (len (contents f)) (List.last (map ordinal taken) 0)) done
    (at_state s3 (files (conn s3)) d None u) s1 t →
  clear heads (set_unresolved None s1) ∧ db (conn s1) = d.
Proof.
  destruct batch_frame as (Hr3 & _ & (Hd & Hn & Hsrc & Hcur) & Hg & Hf & Hne & _). intros done d u s1 t Hmade [_ Hset]. destruct done.
  - rewrite Hset. split; [|done].
    apply (clear_compaction _ (at_state s3 (files (conn s3)) d None None)).
    + eapply (clear_made heads s3 R); [apply Hr3|by apply (ready_sound heads)| |by right|done].
      apply (made_ok s3 R), batch_keeps.
    + destruct Hr3 as [(_ & _ & _ & _ & [Hnot _]) _]. change (compaction_sources_pending (moved_through _ _)) with (compaction_sources_pending (compaction s3)).
      split; [exact Hnot|]. cbn. rewrite Hsrc, Hsources, Hn. destruct (batch_past _ Hmade) as (? & _ & ?). done.
  - destruct Hset as (g & Hg' & ->). cbn in Hg'. rewrite Hf3 in Hg'. injection Hg' as <-. split; [|done]. subst d.
    destruct Hr3 as [(_ & _ & Hrec & Hw & Hm) _]. split; [done|]. split; [done|]. split; [|done].
    destruct Hready as [(_ & _ & Hrec0 & _) _]. cbn. fold nm in Hn. rewrite Hn, Hd. eapply recoverable_grown; [exact Hrec0|].
    eapply grown_cut; [|exact Hg|done|done]. pose proof (ready_sound _ _ Hready) as [[Ht _] _]. apply Ht.
Qed.
End batch.

(** Copying a batch: what is copied is a front of the waiting rows. *)
Lemma copy_spec s source after limit input : ready heads s → source ≠ replay_file s →
  source_rows after source limit (db (conn s)) ≠ [] →
  let start := len_of_file (replay_file s) (conn s) in
  wp (on_conn (copy_rows env source (replay_file s) start (source_rows after source limit (db (conn s))) start [] input)) s
    (λ s' r, match r with
     | Ok (moves, _) => ∃ f taken others, files (conn s) !! replay_file s = Some f ∧ start = len (contents f) ∧
         moves = placed (Z.of_N start) taken ∧ taken ≠ [] ∧ waiting after source (db (conn s)) = taken ++ others ∧
         swollen s s' f (span (files (conn s)) taken)
     | Err _ => steady heads s s'
     end).
Proof.
  intros Hr Hne Hrows start. pose proof (ready_sound _ _ Hr) as [[Ht _] _].
  destruct (recoverable_file _ _ _ (proj1 (proj2 (proj2 (proj1 Hr))))) as [f Hf].
  assert (start = len (contents f)) as Hstart by (subst start; unfold len_of_file; by rewrite Hf).
  set (rows := source_rows _ _ _ _) in *. assert (∀ r, r ∈ rows → row_file r = source ∧ r ∈ chunk_rows (db (conn s))) as Hin.
  { intros r Hr1. assert (r ∈ waiting after source (db (conn s))) as [[_ ?] ?]%list_elem_of_filter; [|done].
    rewrite <-(take_drop (N.to_nat limit) (waiting _ _ _)). apply elem_of_app. by left. }
  assert (Forall (row_ok (files (conn s))) rows) as Hok.
  { pose proof (tables_rows _ _ Ht) as Hall. rewrite Forall_forall in *. intros r Hr1. apply Hall. by apply Hin. }
  assert (Forall (λ r, row_file r = source) rows) as Hfile by (apply Forall_forall; intros r Hr1; by apply Hin).
  assert (∃ fsrc, files (conn s) !! source = Some fsrc) as [fsrc Hsrc].
  { destruct rows as [|r rows]; [done|]. apply Forall_cons in Hok as [(_ & _ & _ & _ & _ & g & Hg & _) _].
    apply Forall_cons in Hfile as [<- _]. by exists g. }
  assert (copied (replay_file s) f [] (conn s) (conn s)) as Hc0.
  { split; [done|]. destruct (tables_files _ _ Ht _ _ Hf). split; [|by rewrite N.add_0_r].
    symmetry. apply insert_id. rewrite Hf. f_equal. unfold appended. rewrite app_nil_r. by destruct f. }
  apply wp_on_conn. eapply wp_mono.
  { eapply (copy_rows_spec env source (replay_file s) f fsrc (conn s) Hne Hsrc start rows Hstart Hok Hfile
      (proj1 (tables_files _ _ Ht _ _ Hsrc)) rows []); [done|exact Hc0|cbn; lia]. }
  intros c [[moves i]|e] Hc.
  - destruct Hc as (taken & others & Hsplit & Hm & Hnil & Hc). exists f, taken. eexists.
    split; [done|]. split; [done|]. split; [done|]. split; [by apply Hnil|]. split; [by eapply waiting_prefix|].
    by apply copied_swollen with (heads := heads).
  - destruct Hc as [y Hc]. eapply swollen_steady; [done|]. by apply copied_swollen with (heads := heads).
Qed.

(** ** The batches of a source *)

Definition toward (s0 s : Session) : Prop := ready heads s ∧ packs s0 s ∧ replay_file s = replay_file s0.
Definition moving (s0 : Session) (source : string) (rest : list string) (after : Z) (s : Session) : Prop :=
  toward s0 s ∧ compaction_sources_pending (compaction s) = source :: rest ∧ compaction_cursor (compaction s) = after.
Definition drained (s0 : Session) (source : string) (rest : list string) (limited : Prop) (s : Session) (r : result bool PersistenceError) : Prop :=
  match r with
  | Ok true => toward s0 s ∧ compaction_sources_pending (compaction s) = source :: rest ∧ unnamed source (db (conn s))
  | Ok false => toward s0 s ∧ limited
  | Err e => stopped s0 s e
  end.
Lemma moving_steady s0 source rest after s s' : moving s0 source rest after s → steady heads s s' →
  moving s0 source rest after s' ∧ db (conn s') = db (conn s).
Proof.
  intros ((_ & K2 & K3) & K4 & K5) (L1 & L2 & (L3 & L4 & L5 & L6 & _)). split; [|done].
  split; [split; [done|split; [by eapply packs_trans|congruence]]|]. split; congruence.
Qed.
Lemma moving_stopped s0 source rest after s s' e : moving s0 source rest after s → steady heads s s' → stopped s0 s' e.
Proof. intros Hm Hs. destruct (moving_steady _ _ _ _ _ _ Hm Hs) as [((K1 & K2 & _) & _) _]. by apply ready_stopped. Qed.
Lemma moving_ne s0 source rest after s : moving s0 source rest after s → source ≠ replay_file s ∧
  ∀ y, y ∈ chunk_rows (db (conn s)) → row_file y = source → after < ordinal y.
Proof.
  intros ((((_ & _ & _ & _ & Hm) & _) & _) & Hs & Hc). unfold migrating in Hm. rewrite Hs, Hc in Hm. destruct Hm as (Hn & Hm & _).
  split; [|done]. intros ->. apply Hn. by left.
Qed.
Lemma nothing_waits s0 source rest after limit s : moving s0 source rest after s → (1 ≤ limit)%N →
  source_rows after source limit (db (conn s)) = [] → unnamed source (db (conn s)).
Proof.
  intros Hm Hl Hrows x Hx Hxs. apply taken in Hrows; [|done]. destruct (moving_ne _ _ _ _ _ Hm) as [_ Hafter].
  assert (x ∈ waiting after source (db (conn s))) as Hw by (apply list_elem_of_filter; auto).
  unfold waiting in Hw. rewrite Hrows in Hw. by apply elem_of_nil in Hw.
Qed.
Lemma cursor_moving s0 s s3 source rest through : packs s0 s → replay_file s = replay_file s0 →
  compaction_sources_pending (compaction s3) = source :: rest →
  replay_file s3 = replay_file s → ready heads s3 → packs s s3 →
  (∀ y, y ∈ chunk_rows (db (conn s3)) → row_file y = source → through < ordinal y) →
  within_files (replay_file s) (source :: rest) (db (conn s3)) →
  moving s0 source rest through (set_compaction (set_cursor through (compaction s3)) s3).
Proof.
  intros Hp Hn Hs Hn3 Hr3 Hp3 Hpast Hw. split; [|done]. split; [|split; [by eapply packs_trans|cbn; congruence]].
  apply ready_compaction; [done|]. destruct Hr3 as [(_ & _ & _ & _ & [Hnot _]) _].
  split; [exact Hnot|]. cbn. by rewrite Hs, Hn3.
Qed.

(** Committing a copied batch. *)
Lemma batch_commit w s s3 f source rest after taken others identity : ready heads s →
  swollen s s3 f (span (files (conn s)) taken) →
  files (conn s3) !! replay_file s = Some {| contents := contents f ++ span (files (conn s)) taken;
    synced_bytes := len (contents f) + len (span (files (conn s)) taken) |} →
  compaction_sources_pending (compaction s) = source :: rest → compaction_cursor (compaction s) = after →
  waiting after source (db (conn s)) = taken ++ others → taken ≠ [] →
  wp (maintenance env w
        (on_store (relocate_rows env source (replay_file s) (placed (Z.of_N (len (contents f))) taken)))) s3 (λ s' r,
    match r with
    | Ok true => ready heads s' ∧ packs s s' ∧ replay_file s' = replay_file s ∧
        compaction_sources_pending (compaction s') = source :: rest ∧
        (∀ y, y ∈ chunk_rows (db (conn s')) → row_file y = source → List.last (map ordinal taken) 0 < ordinal y) ∧
        (named source (db (conn s')) < named source (db (conn s)))%nat ∧ within_files (replay_file s) (source :: rest) (db (conn s'))
    | Ok false => core s' = core s3
    | Err e => core s' = core s3 ∨ requires_reconciliation e = true ∧
        halted heads s (record_settlement (ReplayMove (replay_file s) identity (len (contents f)) (List.last (map ordinal taken) 0)) s')
    end).
Proof.
  intros Hr Hsw Hf3 Hs Hc Hw Ht. destruct (batch_frame s s3 f source rest after taken others Hr Hsw Hs Hc Hw) as (Hr3 & Hp3 & (Hd3 & Hn3 & Hs3 & _) & _).
  eapply wp_mono. { apply (transact_spec s3) with (R := batch_moved (replay_file s) taken (conn s3))
    (m := ReplayMove (replay_file s) identity (len (contents f)) (List.last (map ordinal taken) 0)); [done| | |].
    - by eapply batch_body.
    - by eapply batch_keeps.
    - by eapply batch_settles. }
  intros s' [[]|e] Hres; [|done|].
  - destruct Hres as (Hr' & Hp' & d & Hmade & Hc'). destruct (at_state_rest _ _ _ _ _ _ Hc') as (_ & Hn' & _).
    rewrite (at_state_db _ _ _ _ _ _ Hc'), (at_state_compaction _ _ _ _ _ _ Hc'), Hn', Hn3, Hs3.
    destruct (batch_past s s3 f source rest after taken others Hr Hsw Hs Hc Hw Ht d Hmade).
    split; [done|]. split; [by eapply packs_trans|]. done.
  - destruct Hres as [?|[? ?]]; [by left|right]. split; [done|by eapply halted_trans].
Qed.

(** What is done after the COMMIT of a batch, or without one. *)
Lemma batch_failed s0 s f x source rest after s3 s4 m e : moving s0 source rest after s → swollen s s3 f x →
  (core s4 = core s3 ∨ requires_reconciliation e = true ∧ halted heads s (record_settlement m s4)) →
  wp (modify (record_settlement m) ;;;
      (if requires_reconciliation e then mret_ tt
       else on_conn (truncate_replay_tail (tx env) (replay_file s) (len (contents f)))) ;;;
      mfail (A := bool) e) s4 (λ s' r, match r with Ok _ => False | Err e => stopped s0 s' e end).
Proof.
  intros Hm Hsw Hres. pose proof Hm as [(Hr & Hp & _) _]. apply wp_bind, wp_modify. destruct Hres as [Hc|[He Hh]].
  - pose proof (swollen_core _ _ _ _ _ Hc Hsw) as Hsw4. destruct (swollen_steady _ _ _ _ _ Hr Hsw4) as [Hst4 _].
    rewrite record_idle by apply Hst4. apply wp_bind. destruct (requires_reconciliation e).
    + apply wp_ret, wp_fail. by eapply moving_stopped.
    + eapply cut_steady; [done|exact Hsw4|]. intros s' [[]|e'] Hst; [apply wp_fail|]; by eapply moving_stopped.
  - rewrite He. apply wp_bind, wp_ret, wp_fail. split; [by eapply halted_trans|by rewrite He].
Qed.

(** Flushing and syncing the copy. *)
Lemma wp_flushed {A} (k : SX A) s s3 f x (Q : Session → result A PersistenceError → Prop) :
  swollen s s3 f x → (∀ s' e, swollen s s' f x → Q s' (Err e)) →
  (∀ s', swollen s s' f x → files (conn s') !! replay_file s =
     Some {| contents := contents f ++ x; synced_bytes := len (contents f) + len x |} → wp k s' Q) →
  wp (on_conn (guarded (host env) (mret_ tt)) ;;; on_conn (sync_file env (replay_file s)) ;;; k) s3 Q.
Proof.
  intros Hsw Hfail Hk. apply wp_bind, wp_on_conn, wp_guarded.
  { intros e _. eapply Hfail, swollen_core; [|exact Hsw]. by destruct s3 as [[] ? ? ? ? ? ? ? ? ? ? ? ?]. }
  apply wp_ret. set (s4 := set_conn (later (conn s3)) s3). assert (swollen s s4 f x) as Hsw4.
  { eapply swollen_core; [|exact Hsw]. by destruct s3 as [[] ? ? ? ? ? ? ? ? ? ? ? ?]. }
  apply wp_bind, wp_sync; [intros s' e Hc; eapply Hfail, swollen_core; [exact Hc|exact Hsw4]|].
  intros s5 Hc5. destruct (swollen_sync _ _ _ _ _ Hsw4 Hc5). by apply Hk.
Qed.
Lemma move_batches_spec s0 source rest limited fuel : ∀ limit after left input s, moving s0 source rest after s → (1 ≤ limit)%N →
  (is_Some left → limited) →
  (named source (db (conn s)) + N.to_nat (N.log2 limit) < fuel)%nat →
  wp (move_batches env fuel source limit after left input) s (drained s0 source rest limited).
Proof.
  induction fuel as [|fuel IH]; intros limit after left input s Hm Hlimit Hleft Hfuel; [lia|]. cbn [move_batches].
  assert (∀ s' e, steady heads s s' → drained s0 source rest limited s' (Err e)) as Hfail by (intros; by eapply moving_stopped).
  apply wp_bind. eapply wp_mono; [apply query_core|]. intros s1 [rows|e] [Hc1 Hrows];
    (assert (steady heads s s1) as Hst1 by (apply steady_core; [apply Hm|done])); [|by apply Hfail].
  destruct (moving_steady _ _ _ _ _ _ Hm Hst1) as [Hm1 Hd1]. rewrite <-Hd1 in Hrows, Hfuel. clear Hfail Hc1 Hst1 Hd1.
  destruct rows as [|r0 rows].
  { apply wp_ret. destruct Hm1 as (K1 & K2 & K3). split; [done|]. split; [done|]. by eapply nothing_waits. }
  apply wp_bind, wp_get. apply wp_bind. eapply wp_mono; [apply file_len_core|]. intros s2 [start|e] [Hc2 Hstart];
    (assert (steady heads s1 s2) as Hst2 by (apply steady_core; [apply Hm1|done])); [|by eapply moving_stopped].
  assert (replay_file s1 = replay_file s2) as Hn2 by (symmetry; apply Hst2).
  assert (start = len_of_file (replay_file s2) (conn s2)) as -> .
  { rewrite <-Hn2. unfold len_of_file in *. by rewrite (core_files _ _ Hc2). }
  rewrite Hrows, Hn2. destruct (moving_steady _ _ _ _ _ _ Hm1 Hst2) as [Hm2 Hd2]. rewrite <-Hd2 in *.
  clear Hm Hm1 Hst2 Hc2 Hd2 Hstart. assert (∀ s' e, steady heads s2 s' → drained s0 source rest limited s' (Err e)) as Hfail by (intros; by eapply moving_stopped).
  apply wp_bind. eapply wp_mono. { apply copy_spec; [apply Hm2|by eapply moving_ne|by rewrite <-Hrows]. }
  intros s3 [[moves i]|e] Hcopy; [|by apply Hfail]. destruct Hcopy as (f & taken & others & Hf & Hstart & -> & Htaken & Hwait & Hsw).
  pose proof Hm2 as [(Hr2 & Hp2 & Hn20) [Hsrc2 Hcur2]]. rewrite Hstart.
  assert (∀ s' (x : bytes) e, swollen s2 s' f x → drained s0 source rest limited s' (Err e)) as Hfail3.
  { intros s' x e Hx. apply Hfail. by eapply swollen_steady. }
  destruct taken as [|r taken]; [done|]. cbn [placed]. change ((ordinal r, Z.of_N (len (contents f))) :: _) with
    (placed (Z.of_N (len (contents f))) (r :: taken)).
  apply (wp_flushed _ s2 s3 f (span (files (conn s2)) (r :: taken))); [exact Hsw|intros s' e; apply Hfail3|]. intros s5 Hsw5 Hf5.
  apply wp_bind, wp_attempt. eapply wp_mono; [by eapply (batch_commit _ s2 s5)|].
  rewrite last_move_placed. intros s6 [[]|e] Hres; [| |].
  3: { eapply wp_mono; [eapply batch_failed; [exact Hm2|exact Hsw5|exact Hres]|by intros s' []]. }
  - destruct Hres as (Hr6 & Hp6 & Hn6 & Hsrc6 & Hpast & Hfewer & Hw6). apply wp_bind, wp_on_compaction.
    pose proof (cursor_moving s0 s2 s6 source rest _ Hp2 Hn20 Hsrc6 Hn6 Hr6 Hp6 Hpast Hw6) as Hm7.
    set (s7 := set_compaction _ s6) in *.
    assert (∀ left, (is_Some left → limited) → wp (move_batches env fuel source limit (List.last (map ordinal (r :: taken)) 0) left i) s7 (drained s0 source rest limited)) as Hgo.
    { intros l Hl. apply IH; [exact Hm7|done|done|]. change (db (conn s7)) with (db (conn s6)). lia. }
    destruct left as [[|[|n]]|]; [| |by apply Hgo; eauto|by apply Hgo].
    all: apply wp_ret; split; [apply Hm7|by apply Hleft].
  - apply wp_bind. eapply cut_steady; [exact Hr2|by eapply swollen_core|]. intros s' [[]|e'] Hst; [|by apply Hfail].
    case_decide as Hone; [by apply wp_fail, Hfail|]. destruct (moving_steady _ _ _ _ _ _ Hm2 Hst) as [Hm' Hd'].
    destruct (halved limit (S (N.to_nat (N.log2 limit)) - 1)) as [Hhalf Hlog]; [done|done|lia|].
    replace (N.max (limit / 2) 1) with (limit / 2)%N by lia. apply IH; [done|done|done|]. rewrite Hd'. lia.
Qed.
End session.

Local Open Scope Z_scope.

Section session.
Context `{!UuidDisplay, !StateJson, !StorageCodes} (env : SpaceEnv) (heads : gmap RunId Cell).

(** ** The sources *)

Lemma toward_steady s0 s s' : toward heads s0 s → steady heads s s' → toward heads s0 s'.
Proof. intros (_ & K2 & K3) (L1 & L2 & (_ & L3 & _)). split; [done|]. split; [by eapply packs_trans|congruence]. Qed.
Lemma toward_stopped s0 s s' e : toward heads s0 s → steady heads s s' → stopped heads s0 s' e.
Proof. intros Ht Hs. destruct (toward_steady _ _ _ Ht Hs) as (? & ? & _). by apply ready_stopped. Qed.
Lemma sources_rows s source rest : ready heads s → compaction_sources_pending (compaction s) = source :: rest →
  source ≠ replay_file s ∧ within_files (replay_file s) (source :: rest) (db (conn s)).
Proof.
  intros [(_ & _ & _ & _ & Hm) _] Hs. unfold migrating in Hm. rewrite Hs in Hm. destruct Hm as (Hn & _ & Hw).
  split; [|done]. intros ->. apply Hn. by left.
Qed.
Lemma compact_source_spec s0 source rest limited batches s : toward heads s0 s →
  compaction_sources_pending (compaction s) = source :: rest → (is_Some batches → limited) →
  wp (compact_source env source batches) s (drained heads s0 source rest limited).
Proof.
  intros Ht Hs Hlimited. assert (∀ s' e, steady heads s s' → drained heads s0 source rest limited s' (Err e)) as Hfail
    by (intros; by eapply toward_stopped).
  unfold compact_source. apply wp_bind, wp_get.
  apply wp_bind. eapply wp_mono; [apply look_core|]. intros s1 [[]|e] [Hc1 _];
    [|by apply Hfail, steady_core; [apply Ht|]].
  apply wp_bind. eapply wp_mono; [apply look_core|]. intros s2 [[]|e] [Hc2 _]; rewrite Hc1 in Hc2;
    (assert (steady heads s s2) as Hst by (apply steady_core; [apply Ht|done])); [|by apply Hfail].
  apply wp_bind. eapply wp_mono.
  { apply (move_batches_spec env heads s0 source rest limited); [|unfold row_funding; lia|done|].
    - pose proof (toward_steady _ _ _ Ht Hst). destruct Hst as (_ & _ & (_ & _ & Hs2 & Hcur & _)). split; [done|]. split; congruence.
    - destruct Hst as (_ & _ & (-> & _)). unfold named.
      pose proof (length_filter (λ r, row_file r = source) (chunk_rows (db (conn s)))). lia. }
  intros s3 [[]|e] Hd; cbn [negb]; [|by apply wp_ret|done]. destruct Hd as (Ht3 & Hs3 & Hun).
  destruct (sources_rows _ _ _ (proj1 Ht3) Hs3) as [Hne _].
  apply wp_bind. eapply wp_mono; [apply (try_remove_spec env heads s3); [apply Ht3|by apply (tidy_refl heads); [apply Ht3|]|done|done]|].
  intros s4 [removed|e] [Hok Htidy]; [|done]. apply (tidy_steady heads) in Htidy; [|apply Ht3].
  assert (∀ s', steady heads s3 s' → drained heads s0 source rest limited s' (Ok true)) as Hdone.
  { intros s' Hst'. split; [by eapply toward_steady|]. destruct Hst' as (_ & _ & (-> & _ & -> & _)). done. }
  apply wp_bind. destruct removed; [by apply wp_ret, wp_ret, Hdone|].
  apply wp_on_compaction, wp_ret, Hdone. by apply flag_steady.
Qed.

Lemma rows_after_min d fs x : tables_ok d fs → x ∈ chunk_rows d → i64_min < ordinal x.
Proof.
  intros Ht Hx. pose proof (tables_sequence _ _ Ht) as [_ Ho]. rewrite Forall_forall in Ho.
  destruct (Ho _ Hx). unfold i64_min. lia.
Qed.
(** Starting on other sources, from their first rows. *)
Lemma next_source sources (s : Session) : ready heads s → replay_file s ∉ sources →
  within_files (replay_file s) sources (db (conn s)) → ∀ pending force,
  ready heads (set_compaction (set_cursor i64_min (set_sources sources (set_pending pending (set_force force (compaction s))))) s).
Proof.
  intros Hr Hn Hw pending force. split; [|apply Hr]. destruct (ready_sound _ _ Hr) as [[Ht _] _].
  apply clear_compaction; [apply Hr|]. unfold migrating. cbn. destruct sources as [|source rest].
  - split; [done|]. unfold i64_min. lia.
  - split; [done|]. split; [|done]. intros x Hx _. by eapply rows_after_min.
Qed.
Lemma flags_self c : set_pending (compaction_pending c) (set_force (force_compaction c) c) = c.
Proof. by destruct c. Qed.
Lemma drop_source source rest s : ready heads s → compaction_sources_pending (compaction s) = source :: rest →
  unnamed source (db (conn s)) → let s' := set_compaction (set_cursor i64_min (set_sources rest (compaction s))) s in
  ready heads s' ∧ within_files (replay_file s) rest (db (conn s)).
Proof.
  intros Hr Hs Hun. assert (within_files (replay_file s) rest (db (conn s))) as Hw.
  { destruct (sources_rows _ _ _ Hr Hs) as [_ Hw]. intros x Hx. destruct (Hw x Hx) as [?|[Hxs|?]%elem_of_cons]; [by left| |by right].
    by apply Hun in Hx. }
  split; [|done]. rewrite <-(flags_self (compaction s)). apply next_source; [done| |done].
  destruct Hr as [(_ & _ & _ & _ & [Hn _]) _]. rewrite Hs in Hn. intros Hin. apply Hn. by right.
Qed.

(** What [migrate] leaves; [limited] when it may stop early. *)
Definition migrated (s0 : Session) (limited : Prop) (s : Session) (r : result bool PersistenceError) : Prop :=
  match r with
  | Ok true => toward heads s0 s ∧ compaction_sources_pending (compaction s) = []
  | Ok false => toward heads s0 s ∧ limited
  | Err e => stopped heads s0 s e
  end.
Lemma migrate_spec s0 batches sources : ∀ s, toward heads s0 s →
  compaction_sources_pending (compaction s) = sources →
  wp (migrate env sources batches) s (λ s' r, migrated s0 (is_Some batches) s' r ∧
    (r = Ok true → within_files (replay_file s) sources (db (conn s)) → within_files (replay_file s) [] (db (conn s')))).
Proof.
  induction sources as [|source rest IH]; intros s Ht Hs; cbn [migrate]; [by apply wp_ret|].
  apply wp_bind. eapply wp_mono; [by eapply (compact_source_spec s0 source rest (is_Some batches))|].
  intros s1 [[]|e] Hd; cbn [negb]; [|by apply wp_ret|done]. destruct Hd as (Ht1 & Hs1 & Hun).
  destruct (drop_source _ _ _ (proj1 Ht1) Hs1 Hun) as [Hr2 Hw2]. apply wp_bind, wp_on_compaction.
  set (s2 := set_compaction _ s1) in *. assert (toward heads s0 s2) as Ht2 by (split; [done|apply Ht1]).
  assert (replay_file s2 = replay_file s) as Hn2 by (destruct Ht1 as (_ & _ & ?), Ht as (_ & _ & ?); cbn; congruence).
  destruct (bool_decide (is_Some batches) && _) eqn:Hstop.
  - apply wp_ret. apply andb_true_iff in Hstop as [Hb%bool_decide_eq_true _]. done.
  - eapply wp_mono; [by apply IH|]. intros s' r [Hm Hw]. split; [done|]. intros Hr _. rewrite <-Hn2. by apply Hw.
Qed.

(** ** Publishing a fresh file *)

(** A UUID is displayed without a slash, and a fresh one names no file. *)
Definition plain_uuids : Prop := ∀ id, slash ∉ String.list_ascii_of_string (show_run_id id).
Definition fresh_names : Prop := ∀ t c, files c !! generation_name (fresh_uuid env t c) = None.
Context (Hplain : plain_uuids) (Hfresh : fresh_names).

Lemma ascii_app a b : String.list_ascii_of_string (a +:+ b) =
  String.list_ascii_of_string a ++ String.list_ascii_of_string b.
Proof. induction a as [|c a IH]; [done|]. cbn. by rewrite <-IH. Qed.
Lemma generation_valid id : valid_replay_file_name (generation_name id) = true.
Proof.
  unfold valid_replay_file_name, generation_name. rewrite !ascii_app. set (x := String.list_ascii_of_string (show_run_id id)).
  set (dot := String.list_ascii_of_string ".bin"). set (pre := String.list_ascii_of_string "replay-").
  assert (length (pre ++ x ++ dot) = (7 + length x + 4)%nat) as Hl by (rewrite !length_app; cbn; lia).
  rewrite Hl, !bool_decide_true; [done| |by rewrite app_assoc, drop_app_length'; [|rewrite length_app; cbn; lia]|lia].
  assert ((slash ∉ pre) ∧ (slash ∉ dot)) as [Hpre Hdot] by (by apply (bool_decide_unpack ((slash ∉ pre) ∧ (slash ∉ dot))); vm_compute).
  rewrite !elem_of_app. intros [Hin|[Hin|Hin]]; [done|by apply (Hplain id)|done].
Qed.
Lemma unnamed_absent s name : ready heads s → files (conn s) !! name = None → unnamed name (db (conn s)) ∧ name ≠ replay_file s.
Proof.
  intros Hr Hno. destruct (ready_sound _ _ Hr) as [[Ht _] _]. split.
  - intros x Hx Hn. pose proof (tables_rows _ _ Ht) as Hok. rewrite Forall_forall in Hok.
    destruct (Hok _ Hx) as (_ & _ & _ & _ & _ & f & Hf & _). congruence.
  - intros ->. destruct Hr as [(_ & _ & Hrec & _) _]. destruct (recoverable_file _ _ _ Hrec). congruence.
Qed.
Definition empty_file : ReplayFile := {| contents := []; synced_bytes := 0 |}.
(** The fresh file is there, and that is all. *)
Definition spare (name : string) (s0 s : Session) : Prop := tidy s0 s ∧ files (conn s) !! name = Some empty_file.
Lemma tidy_create s s' name : ready heads s → files (conn s) !! name = None →
  core s' = set_file_map (<[name := empty_file]> (files (conn s))) (core s) → spare name s s'.
Proof.
  intros Hr Hno Hc. pose proof (ready_sound _ _ Hr) as Hs. destruct (unnamed_absent _ _ Hr Hno) as [Hun Hne].
  pose proof Hr as [(Hb & Hu & Hrec & _) _]. destruct (recoverable_file _ _ _ Hrec) as [f Hf].
  split; [|rewrite (f_equal (λ x, files (conn x)) Hc : files (conn s') = _); apply lookup_insert_eq].
  exists (<[name := empty_file]> (files (conn s))), f, f.
  split; [rewrite Hc; by rewrite (at_state_self _ Hb Hu)|]. split; [|by rewrite lookup_insert_ne].
  destruct (holds_refl _ _ Hs) as [Hfo Hh]. split.
  - intros n g [[_ <-]|[_ Hg]]%lookup_insert_Some; [split; by vm_compute|by apply (Hfo n)].
  - intros r Hr'. destruct (Hh r Hr') as (K1 & K2 & K3). specialize (Hun r Hr').
    unfold row_ok, row_data, row_synced in *. rewrite !lookup_insert_ne by done. done.
Qed.
Lemma spare_core name s0 s s' : core s' = core s → spare name s0 s → spare name s0 s'.
Proof. intros Hc [K1 K2]. split; [by eapply tidy_core|]. by rewrite (core_files _ _ Hc). Qed.
Lemma spare_sync name s0 s s' : ready heads s0 → files (conn s0) !! name = None → spare name s0 s →
  core s' = set_file_map (files (sync_bytes name (conn s))) (core s) → spare name s0 s'.
Proof.
  intros Hr Hno [Ht Hf] Hc. destruct (unnamed_absent _ _ Hr Hno) as [Hun _]. unfold sync_bytes in Hc. rewrite Hf in Hc. cbn [files set_files] in Hc.
  change {| contents := contents empty_file; synced_bytes := len (contents empty_file) |} with empty_file in Hc.
  split; [|rewrite (f_equal (λ x, files (conn x)) Hc : files (conn s') = _); apply lookup_insert_eq].
  eapply (tidy_update heads); [done|exact Ht|exact Hf|exact Hc|done|done| |by exists []].
  intros r Hin Hn. by apply Hun in Hn.
Qed.
Lemma wp_create name s (Q : Session → result unit PersistenceError → Prop) : (∀ s' e, core s' = core s → Q s' (Err e)) →
  (∀ s', files (conn s) !! name = None → core s' = set_file_map (<[name := empty_file]> (files (conn s))) (core s) → Q s' (Ok tt)) →
  wp (on_conn (create_file env name)) s Q.
Proof.
  intros Herr Hok. apply wp_on_conn. unfold create_file. apply wp_guarded; [intros e _; by apply Herr|].
  unfold wp. cbn [later set_clock files]. destruct (files (conn s) !! name) eqn:Hf; [by apply Herr|]. by apply Hok.
Qed.
Lemma dropping_spec {A} name (k : SX A) s (P : Session → A → Prop) : ready heads s → files (conn s) !! name = None →
  wp k s (λ s' r, tidy s s' ∧ match r with Ok a => P s' a | Err _ => True end) →
  wp (dropping env name k) s (λ s' r, tidy s s' ∧ match r with Ok a => P s' a | Err _ => True end).
Proof.
  intros Hr Hno Hk. destruct (unnamed_absent _ _ Hr Hno) as [Hun Hne]. unfold dropping. apply wp_bind, wp_attempt.
  eapply wp_mono; [exact Hk|]. intros s1 [a|e] [Ht Hp]; [by apply wp_ret|]. apply wp_bind.
  eapply wp_mono; [by apply (try_remove_spec env heads s)|]. intros s2 [b|e'] [_ Ht2]; [by apply wp_fail|done].
Qed.
Lemma generation_spec name s : ready heads s → files (conn s) !! name = None →
  wp (on_conn (create_file env name) ;;; on_conn (sync_file env name) ;;; sync_directory env ;;;
      let* identity := path_identity (tx env) name in
      let* sources := on_conn (query (host env) (sources_of name)) in
      mret_ (identity, sources)) s (λ s' r, tidy s s' ∧
    match r with Ok (_, sources) => spare name s s' ∧ sources = sources_of name (db (conn s)) | Err _ => True end).
Proof.
  intros Hr Hno. apply wp_bind, wp_create; [intros s' e Hc; split; [by eapply tidy_refl|done]|].
  intros s1 _ Hc1. pose proof (tidy_create _ _ _ Hr Hno Hc1) as Hsp1. assert (∀ s' e, spare name s s' → tidy s s' ∧
    match Err e : result (Identity * list string) PersistenceError with Ok (_, sources) => spare name s s' ∧ sources = sources_of name (db (conn s)) | Err _ => True end)
    as Hfail by (by intros s' e [K _]).
  apply wp_bind, wp_sync; [intros s' e Hc; by eapply Hfail, spare_core|].
  intros s2 Hc2. pose proof (spare_sync _ _ _ _ Hr Hno Hsp1 Hc2) as Hsp2. clear Hsp1 Hc1 Hc2.
  assert (quiet (sync_directory env)) as Hq1 by apply quiet_ask.
  assert (quiet (path_identity (tx env) name)) as Hq2 by apply quiet_ask.
  apply wp_bind. eapply wp_mono; [apply Hq1|]. intros s3 [[]|e] Hc3; [|by eapply Hfail, spare_core].
  apply wp_bind. eapply wp_mono; [apply Hq2|]. intros s4 [i|e] Hc4; rewrite Hc3 in Hc4; [|by eapply Hfail, spare_core].
  apply wp_bind. eapply wp_mono; [apply query_core|]. intros s5 [l|e] [Hc5 Hl]; rewrite Hc4 in Hc5; [|by eapply Hfail, spare_core].
  apply wp_ret. pose proof (spare_core _ _ _ _ Hc5 Hsp2) as Hsp5. split; [apply Hsp5|]. split; [done|].
  rewrite Hl, (core_db _ _ Hc4). destruct Hsp2 as [Ht2 _]. by destruct (tidy_frame _ _ Ht2) as (-> & _).
Qed.

(** The transaction that names it: the rows stay. *)
Lemma active_sound name d fs : sound d fs → sound (set_active_file name d) fs.
Proof. intros [[[] Hl] Hs]. split; [split; [by constructor|exact Hl]|exact Hs]. Qed.
Lemma sources_within name d : (name ∉ sources_of name d) ∧ within_files name (sources_of name d) d.
Proof.
  unfold sources_of. split; [by intros [? _]%list_elem_of_filter|]. intros x Hx. destruct (decide (row_file x = name)) as [?|Hn]; [by left|right].
  apply list_elem_of_filter. split; [done|]. eapply ends_ok_named; [apply referenced_ends_ok|done].
Qed.

Section publish.
Context (s3 : Session) (name : string).
Let sources : list string := sources_of name (db (conn s3)).
Let R : Store → Prop := λ c, db c = set_active_file name (db (conn s3)) ∧ files c = files (conn s3).
Hypotheses (Hr : ready heads s3) (Hvalid : valid_replay_file_name name = true)
  (Hfile : files (conn s3) !! name = Some empty_file) (Hun : unnamed name (db (conn s3))) (Hne : name ≠ replay_file s3).

Lemma named_body c : unchanged (conn s3) c → wp (on_store (execute (host env) (set_active_file name))) (c, tt) (λ cl r,
  files cl.1 = files (conn s3) ∧ match r with Ok _ => R cl.1 | Err _ => True end).
Proof.
  intros [Hd Hf]. pose proof (ready_sound _ _ Hr) as Hs. apply wp_on_store.
  assert (constraints (set_active_file name (db c))) as Hcon.
  { rewrite Hd. eapply tables_constraints. by apply (active_sound name) in Hs as [[Ht _] _]. }
  apply wp_execute; [exact Hcon|intros e _; done|]. split; [done|]. split; [cbn; by rewrite Hd|done].
Qed.
Lemma named_keeps c : R c → files c = files (conn s3) → sound (db c) (files c) ∧ repacked (conn s3) c ∧
  rows_from (replay_file s3) (db (conn s3)) (db c).
Proof.
  intros [Hd Hf] _. pose proof (ready_sound _ _ Hr) as Hs. rewrite Hf. split; [rewrite Hd; by apply active_sound|].
  split; [|by apply rows_from_refl; rewrite Hd]. constructor; rewrite ?Hd; try done. rewrite Hf.
  apply Forall2_diag. intros r _. done.
Qed.
(** The session once the name is published. *)
Lemma published_ready s identity c : core s = at_state s3 (files (conn s3)) (set_active_file name (db (conn s3))) None None →
  compaction_sources_pending c = sources → compaction_cursor c = i64_min → ready heads (set_published name identity c s).
Proof.
  intros Hc Hs Hcur. pose proof (ready_sound _ _ Hr) as Hsd. pose proof (at_state_db _ _ _ _ _ _ Hc) as Hd.
  destruct Hr as [(_ & _ & _ & Hw & _) _]. destruct (at_state_rest _ _ _ _ _ _ Hc) as (Hcells & _ & _).
  destruct (sources_within name (db (conn s3))) as [Hnot Hwithin]. split; [split; [|split; [|split; [|split]]]|split].
  - exact (at_state_before _ _ _ _ _ _ Hc).
  - exact (at_state_unresolved _ _ _ _ _ _ Hc).
  - cbn. rewrite Hd, (at_state_files _ _ _ _ _ _ Hc). apply sound_recoverable; [by apply active_sound|by rewrite Hfile].
  - cbn. by rewrite Hd, Hcells.
  - cbn. rewrite Hd. unfold migrating. rewrite Hs, Hcur. split; [exact Hnot|]. destruct sources as [|source rest] eqn:He; [unfold i64_min; lia|].
    split; [|unfold sources in He; rewrite <-He; exact Hwithin]. intros x Hx _. destruct Hsd as [[Ht _] _]. by eapply rows_after_min.
  - intros f. cbn. rewrite (at_state_files _ _ _ _ _ _ Hc), Hfile. intros [= <-]. by vm_compute.
  - exact Hvalid.
Qed.
Lemma named_settles identity : ∀ (done : bool) d u s1 t, (if done then made R s3 d else d = db (conn s3)) →
  settled (ReplayPublication name identity sources) done (at_state s3 (files (conn s3)) d None u) s1 t →
  clear heads (set_unresolved None s1) ∧ db (conn s1) = d.
Proof.
  intros done d u s1 t Hmade [_ Hset]. destruct done.
  - destruct Hmade as (c & [Hd _] & _ & <-). rewrite Hset, Hd. split; [|done].
    refine (proj1 (published_ready (at_state s3 (files (conn s3)) (set_active_file name (db (conn s3))) None None) identity
      (restart_compaction sources (compaction s3)) _ _ _)); done.
  - subst d. pose proof (ready_sound _ _ Hr) as Hs. destruct Hr as [(Hb & Hu & Hrec & Hw & Hm) _]. destruct Hset as [->| ->]; split; try done.
    split; [done|]. split; [done|]. split; [|done]. cbn. destruct (recoverable_file _ _ _ Hrec) as [f Hf].
    apply sound_recoverable; [eapply holds_sound; [done|by apply holds_delete]|]. by rewrite lookup_delete_ne.
Qed.
End publish.

Lemma never_value {A} (f : nat → A) s : wp (never_fails f) s (λ s' r, core s' = core s ∧ ∃ t, r = Ok (f t)).
Proof. unfold never_fails. apply wp_on_conn, wp_bind, wp_tick, wp_ret. split; [by destruct s as [[] ? ? ? ? ? ? ? ? ? ? ? ?]|by eexists]. Qed.
(** What [publish_generation] leaves; [idle] when it publishes nothing. *)
Definition published (s0 : Session) (idle : Prop) (s : Session) (r : result bool PersistenceError) : Prop :=
  match r with
  | Ok true => ready heads s ∧ packs s0 s ∧ within_files (replay_file s) (compaction_sources_pending (compaction s)) (db (conn s))
  | Ok false => ready heads s ∧ packs s0 s ∧ idle
  | Err e => stopped heads s0 s e
  end.
Lemma published_steady s0 s1 idle s r : steady heads s0 s1 → published s1 False s r → published s0 idle s r.
Proof.
  intros (_ & Hp & _). destruct r as [[]|e]; cbn; [| |by apply stopped_trans].
  - intros (? & ? & ?). split; [done|]. split; [by eapply packs_trans|done].
  - by intros (_ & _ & []).
Qed.
Lemma published_fails s0 idle s e : steady heads s0 s → published s0 idle s (Err e).
Proof. intros (? & ? & _). by apply ready_stopped. Qed.

(** From the answer of the naming transaction on. *)
Lemma published_after s3 name identity old s4 : ready heads s3 → spare name s3 s3 → unnamed name (db (conn s3)) → name ≠ old →
  old = replay_file s3 → valid_replay_file_name name = true →
  core s4 = at_state s3 (files (conn s3)) (set_active_file name (db (conn s3))) None None →
  let sources := sources_of name (db (conn s3)) in
  wp (modify (λ s, set_published name identity
        (set_cursor i64_min (set_sources sources (set_pending true (compaction s)))) s) ;;;
      match sources with
      | [] =>
          let* removed := try_remove env old in
          (if (removed : bool) then mret_ tt else on_compaction (set_cleanup true)) ;;;
          on_compaction (set_pending false) ;;; mret_ true
      | _ => mret_ true
      end) s4 (published s3 False).
Proof.
  intros Hr [_ Hf] Hun Hne -> Hvalid Hc sources. apply wp_bind, wp_modify. set (s5 := set_published _ _ _ s4).
  assert (ready heads s5) as Hr5 by (by apply (published_ready s3 name)).
  assert (db (conn s5) = set_active_file name (db (conn s3))) as Hd5 by exact (at_state_db _ _ _ _ _ _ Hc).
  assert (packs s3 s5) as Hp5.
  { destruct (at_state_rest _ _ _ _ _ _ Hc) as (? & _ & ?). split; [done|]. split; [done|]. constructor; rewrite ?Hd5; try done.
    cbn. rewrite (at_state_files _ _ _ _ _ _ Hc). apply Forall2_diag. intros x _. done. }
  assert (∀ s, steady heads s5 s → published s3 False s (Ok true)) as Hdone.
  { intros s (K1 & K2 & (K3 & K4 & K5 & _)). split; [done|]. split; [by eapply packs_trans|]. rewrite K3, K4, K5, Hd5.
    exact (proj2 (sources_within name (db (conn s3)))). }
  destruct sources as [|source rest] eqn:Hs; [|apply wp_ret, Hdone; by apply steady_core].
  apply wp_bind. eapply wp_mono.
  { apply (try_remove_spec env heads s5 s5); [done|by eapply tidy_refl|by apply not_eq_sym|].
    intros x Hx. rewrite Hd5 in Hx. destruct (proj2 (sources_within name (db (conn s3))) x Hx) as [->|Hin]; [done|].
    unfold sources in Hs. rewrite Hs in Hin. by apply elem_of_nil in Hin. }
  intros s6 [removed|e] [Hok Ht]; [|done]. apply (tidy_steady heads) in Ht; [|done].
  assert (∀ s', steady heads s5 s' → wp (on_compaction (set_pending false) ;;; mret_ true) s' (published s3 False)) as Hend.
  { intros s' Hst. apply wp_bind, wp_on_compaction, wp_ret, Hdone. by apply flag_steady. }
  apply wp_bind. destruct removed; [by apply wp_ret, Hend|]. apply wp_on_compaction, Hend. by apply flag_steady.
Qed.
(** The naming transaction and what follows it. *)
Lemma publish_spec s3 name identity : ready heads s3 → spare name s3 s3 → unnamed name (db (conn s3)) → name ≠ replay_file s3 →
  valid_replay_file_name name = true → ∀ (k : SX bool),
  (∀ s4, core s4 = at_state s3 (files (conn s3)) (set_active_file name (db (conn s3))) None None → wp k s4 (published s3 False)) →
  let sources := sources_of name (db (conn s3)) in
  wp (let* result := attempt (maintenance env WitnessActiveReplay (on_store (execute (host env) (set_active_file name)))) in
      modify (record_settlement (ReplayPublication name identity sources)) ;;;
      match result with
      | Ok true => k
      | Ok false =>
          let* _ := try_remove env name in
          mfail (ResourcePressure "active replay publication cannot fit wal_checkpoint_bytes; increase the policy")
      | Err e =>
          let* _ := if requires_reconciliation e then mret_ true else try_remove env name in mfail e
      end) s3 (published s3 False).
Proof.
  intros Hr [_ Hf] Hun Hne Hvalid k Hk sources. apply wp_bind, wp_attempt. eapply wp_mono.
  { apply (transact_spec env heads s3) with (R := λ c, db c = set_active_file name (db (conn s3)) ∧ files c = files (conn s3))
      (m := ReplayPublication name identity sources); [done| | |].
    - by apply named_body.
    - by apply named_keeps.
    - by apply named_settles. }
  assert (∀ s4 e, core s4 = core s3 → wp (let* _ := try_remove env name in mfail e) s4 (published s3 False)) as Hdrop.
  { intros s4 e Hc. apply wp_bind. eapply wp_mono; [apply (try_remove_spec env heads s3); [done|by eapply tidy_refl|done|done]|].
    intros s5 [b|e'] [Hok Ht]; [|done]. apply wp_fail, published_fails. by apply tidy_steady. }
  intros s4 r Hres. apply wp_bind, wp_modify. destruct r as [[]|e].
  - destruct Hres as (Hr4 & _ & d & (c & [Hd _] & _ & <-) & Hc). rewrite Hd in Hc. rewrite record_idle by apply Hr4. by apply Hk.
  - rewrite record_idle; [by apply Hdrop|]. rewrite (core_unresolved _ _ Hres). apply Hr.
  - destruct Hres as [Hc|[He Hh]].
    + rewrite record_idle by (rewrite (core_unresolved _ _ Hc); apply Hr). destruct (requires_reconciliation e); [|by apply Hdrop].
      apply wp_bind, wp_ret, wp_fail, published_fails. by apply steady_core.
    + rewrite He. apply wp_bind, wp_ret, wp_fail. split; [done|by rewrite He].
Qed.
Lemma publish_generation_spec s : ready heads s → wp (publish_generation env) s (published s (force_compaction (compaction s) = false)).
Proof.
  intros Hr. unfold publish_generation. apply wp_bind, wp_get.
  set (idle := force_compaction (compaction s) = false).
  assert (∀ s' e, steady heads s s' → published s idle s' (Err e)) as Hfail by (intros; by apply published_fails).
  apply wp_bind. apply wp_mono with (Q := λ s' (r : result bool PersistenceError), core s' = core s ∧
    (r = Ok true → force_compaction (compaction s) = false)).
  { destruct (force_compaction _); [by apply wp_ret|]. apply wp_bind. eapply wp_mono; [apply file_len_core|].
    intros s1 [n|e] [Hc _]; [by apply wp_ret|done]. }
  intros s1 [small|e] [Hc1 Hsmall]; [|by apply Hfail, steady_core].
  assert (steady heads s s1) as Hst1 by by apply steady_core. destruct small.
  { apply wp_bind, wp_on_compaction, wp_ret. destruct (flag_steady heads (set_pending false) s s1 Hst1) as (? & ? & _); [done..|].
    split; [done|]. split; [done|by apply Hsmall]. }
  apply wp_bind. eapply wp_mono; [apply query_core|]. intros s2 [indexed|e] [Hc2 _]; rewrite Hc1 in Hc2; [|by apply Hfail, steady_core].
  apply wp_bind. apply wp_mono with (Q := λ s' (r : result bool PersistenceError), core s' = core s ∧
    (r = Ok true → force_compaction (compaction s) = false)).
  { destruct (force_compaction _); [by apply wp_ret|]. apply wp_bind. eapply wp_mono; [apply file_len_core|].
    intros s3 [n|e] [Hc _]; rewrite Hc2 in Hc; [|done]. apply wp_bind, wp_lift_result. by destruct (nonnegative_u64 _ _); [apply wp_ret|]. }
  intros s3 [skip|e] [Hc3 Hskip]; [|by apply Hfail, steady_core].
  assert (steady heads s s3) as Hst3 by by apply steady_core. destruct skip; [apply wp_ret; destruct Hst3 as (? & ? & _); split; [done|split; [done|by apply Hskip]]|].
  clear s1 s2 Hc1 Hc2 Hst1 Hsmall Hskip indexed. apply wp_bind, wp_get. apply wp_bind. eapply wp_mono; [apply never_value|].
  intros s4 r [Hc4 [t ->]]. set (name := generation_name _). pose proof Hst3 as (Hr3 & _ & (_ & Hn3 & _)).
  assert (files (conn s4) !! name = None) as Hno by (rewrite (core_files _ _ Hc4); apply Hfresh).
  rewrite Hc3 in Hc4. assert (steady heads s s4) as Hst4 by by apply steady_core. pose proof Hst4 as (Hr4 & _ & (_ & Hn4 & _)).
  apply wp_bind. eapply wp_mono; [by apply dropping_spec, generation_spec|]. cbv beta.
  intros s5 [[identity sources]|e] [Ht Hsp]; apply (tidy_steady heads) in Ht as Hst5; [|done| |done];
    pose proof (steady_trans heads _ _ _ Hst4 Hst5) as Hst45; [|by apply Hfail].
  destruct Hsp as [[_ Hf5] ->]. destruct (unnamed_absent _ _ Hr4 Hno) as [Hun Hne]. pose proof Hst5 as (Hr5 & _ & (Hd5 & Hn5 & _)).
  rewrite <-Hd5 in *. rewrite <-Hn5 in Hne. assert (replay_file s = replay_file s5) as -> by congruence.
  assert (spare name s5 s5) as Hsp5 by (split; [by eapply tidy_refl|done]). pose proof (generation_valid (fresh_uuid env t (conn s3))) as Hvalid.
  eapply wp_mono.
  { apply (publish_spec s5 name identity); [done..|]. intros s6 Hc6. by apply (published_after s5 name identity (replay_file s5)). }
  intros s' r Hp. by eapply published_steady.
Qed.

(** ** One compaction *)

(** The session is ready again, every Run has its window, and a forced compaction that was
    not limited to one batch has left every row in the active file. *)
Definition compacted (s0 : Session) (full : Prop) (s : Session) (r : result unit PersistenceError) : Prop :=
  match r with
  | Ok _ => ready heads s ∧ packs s0 s ∧ (full → within_files (replay_file s) [] (db (conn s)))
  | Err e => stopped heads s0 s e
  end.
Lemma compacted_steady s0 s1 full s r : steady heads s0 s1 → compacted s1 full s r → compacted s0 full s r.
Proof.
  intros (_ & Hp & _). destruct r as [[]|e]; cbn; [|by apply stopped_trans].
  intros (? & ? & ?). split; [done|]. split; [by eapply packs_trans|done].
Qed.
Lemma compacted_packs s0 s1 full s r : packs s0 s1 → compacted s1 full s r → compacted s0 full s r.
Proof.
  intros Hp. destruct r as [[]|e]; cbn; [|by apply stopped_trans].
  intros (? & ? & ?). split; [done|]. split; [by eapply packs_trans|done].
Qed.
Lemma compacted_fails s0 full s e : steady heads s0 s → compacted s0 full s (Err e).
Proof. intros (? & ? & _). by apply ready_stopped. Qed.
Lemma refilled s : ready heads s → compaction_sources_pending (compaction s) = [] →
  ready heads (set_compaction (set_sources (sources_of (replay_file s) (db (conn s))) (compaction s)) s).
Proof.
  intros Hr Hs. destruct (sources_within (replay_file s) (db (conn s))) as [Hn Hw]. destruct (ready_sound _ _ Hr) as [[Ht _] _].
  apply (ready_compaction heads (set_sources (sources_of (replay_file s) (db (conn s))))); [done|].
  destruct Hr as [(_ & _ & _ & _ & [_ Hc]) _]. rewrite Hs in Hc. unfold migrating. cbn.
  split; [done|]. destruct (sources_of _ _); [done|]. split; [|done]. intros x Hx _.
  pose proof (tables_sequence _ _ Ht) as [_ Ho]. rewrite Forall_forall in Ho. destruct (Ho _ Hx). lia.
Qed.
(** From the sources on. *)
Lemma drain_spec batches s : ready heads s → within_files (replay_file s) (compaction_sources_pending (compaction s)) (db (conn s)) →
  wp (normalize_if_needed env ;;;
      let* s := get in
      let* finished := migrate env (compaction_sources_pending (compaction s)) batches in
      if negb (finished : bool) then mret_ tt else
      let* retired := normalize_replay_files env in
      on_compaction (λ c, set_force false (set_pending false (set_cleanup (negb retired) c)))) s
    (compacted s (batches = None)).
Proof.
  intros Hr Hw. apply wp_bind. eapply wp_mono; [by apply normalize_if_needed_spec, steady_core|].
  intros s1 [[]|e] Hst1; [|by apply compacted_fails]. pose proof Hst1 as (Hr1 & Hp1 & (Hd1 & Hn1 & Hs1 & _)).
  apply wp_bind, wp_get. apply wp_bind.
  eapply wp_mono; [apply (migrate_spec s1 batches); [split; [done|split; [by apply packs_refl|done]]|done]|].
  intros s2 [finished|e] [Hm Hwithin]; [|by eapply compacted_steady]. destruct finished; cbn [negb].
  2: { destruct Hm as [(Hr2 & Hp2 & _) [b Hb]]. apply wp_ret. split; [done|]. split; [by eapply packs_trans|]. intros ->. done. }
  destruct Hm as [(Hr2 & Hp2 & Hn2) Hs2]. specialize (Hwithin eq_refl). rewrite Hs1, Hn1, Hd1 in Hwithin. specialize (Hwithin Hw).
  apply wp_bind. eapply wp_mono; [apply (normalize_spec env heads s2 s2); [done|by eapply tidy_refl]|].
  intros s3 [retired|e] Ht; apply (tidy_steady heads) in Ht; [|done| |done]; destruct Ht as (Hr3 & Hp3 & (Hd3 & Hn3 & Hs3 & _)).
  - apply wp_on_compaction. split; [|split; [do 2 (eapply packs_trans; [done|]); exact Hp3|]].
    + apply (ready_compaction heads (λ c, set_force false (set_pending false (set_cleanup (negb retired) c)))); [done|apply Hr3].
    + intros _. cbn. rewrite Hd3, Hn3, Hn2, Hn1. exact Hwithin.
  - apply ready_stopped; [done|]. by do 2 (eapply packs_trans; [done|]).
Qed.
Lemma compact_replay_once_spec batches s : ready heads s →
  wp (compact_replay_once env batches) s (compacted s (batches = None ∧ force_compaction (compaction s) = true)).
Proof.
  intros Hr. set (full := batches = None ∧ _). unfold compact_replay_once. apply wp_bind.
  eapply wp_mono; [by apply normalize_if_needed_spec, steady_core|]. intros s1 [[]|e] Hst1; [|by apply compacted_fails].
  apply wp_bind, wp_get. apply wp_bind. eapply wp_mono; [apply file_len_core|].
  intros s2 [active|e] [Hc2 _]; (assert (steady heads s s2) as Hst2 by (eapply steady_trans; [exact Hst1|apply steady_core; [apply Hst1|done]]));
    [|by apply compacted_fails]. pose proof Hst1 as (_ & _ & (_ & _ & _ & _ & Hforce)).
  destruct (negb _ && _ && _) eqn:Hidle.
  { apply wp_ret. destruct Hst2 as (? & ? & _). split; [done|]. split; [done|]. intros [_ Hf].
    rewrite Hforce, Hf in Hidle. done. }
  clear Hidle. apply wp_bind. apply wp_mono with (Q := λ s3 (r : result unit PersistenceError), match r with
    | Ok _ => ready heads s3 ∧ packs s s3 ∧ force_compaction (compaction s3) = force_compaction (compaction s)
    | Err e => compacted s full s3 (Err e) end).
  { destruct (_ && _) eqn:Hrefill; [|by apply wp_ret; destruct Hst2 as (? & ? & (_ & _ & _ & _ & ?))].
    apply andb_true_iff in Hrefill as [_ Hs%bool_decide_eq_true]. apply wp_bind. eapply wp_mono; [apply query_core|].
    intros s3 [l|e] [Hc3 Hl]; (assert (steady heads s s3) as Hst3 by (eapply steady_trans; [exact Hst2|apply steady_core; [apply Hst2|done]]));
      [|by apply compacted_fails].
    apply wp_on_compaction. destruct Hst3 as (Hr3 & Hp3 & (_ & Hn3 & Hs3 & _ & Hf3)), Hst1 as (_ & _ & (_ & Hn1 & Hs1 & _)).
    rewrite Hl, <-(core_db _ _ Hc3), Hn1, <-Hn3. split; [apply refilled; [done|congruence]|]. split; [exact Hp3|exact Hf3]. }
  intros s3 [[]|e] H3; [|done]. destruct H3 as (Hr3 & Hp3 & Hf3). apply wp_bind, wp_get. apply wp_bind.
  apply wp_mono with (Q := published s3 (force_compaction (compaction s3) = false)).
  { case_bool_decide as Hs3; [by apply publish_generation_spec|]. apply wp_ret. split; [done|]. split; [by apply packs_refl|].
    destruct (compaction_sources_pending (compaction s3)) as [|source rest] eqn:He; [done|]. by apply sources_rows. }
  intros s4 [[]|e] Hp; cbn [negb].
  - destruct Hp as (Hr4 & Hp4 & Hw4). eapply wp_mono; [by apply drain_spec|]. intros s5 r Hc. eapply compacted_packs; [exact Hp3|].
    eapply compacted_packs; [exact Hp4|]. destruct r; [|done]. destruct Hc as (? & ? & Hc). split; [done|]. split; [done|].
    intros [? _]. by apply Hc.
  - apply wp_ret. destruct Hp as (? & ? & Hno). split; [done|]. split; [by eapply packs_trans|]. intros [_ Hf]. congruence.
  - by eapply stopped_trans.
Qed.

(** ** Until it succeeds *)

(** Every Run keeps its identity, its head and a suffix of its window. *)
Record outlives (s s' : Store) : Prop := {
  ol_runs : ∀ id r, run_rows (db s) !! id = Some r → ∃ r', run_rows (db s') !! id = Some r' ∧
    same_identity r r' ∧ durable_output_bytes r' = durable_output_bytes r;
  ol_windows : ∀ id w, window_of s id = Some w →
    ∃ n, (n ≤ len (w_data w))%N ∧ window_of s' id = Some (drop_front n w);
  ol_total : total_replay (db s') ≤ total_replay (db s);
}.
Lemma outlives_trans a b c : outlives a b → outlives b c → outlives a c.
Proof.
  intros [K1 K2 K3] [L1 L2 L3]. constructor; [| |lia].
  - intros id r (r1 & Hr1 & Hi1 & Hh1)%K1. destruct (L1 _ _ Hr1) as (r2 & Hr2 & Hi2 & Hh2).
    exists r2. split; [done|]. split; [by eapply same_identity_trans|congruence].
  - intros id w Hw. destruct (K2 _ _ Hw) as (n & Hn & Hw1). destruct (L2 _ _ Hw1) as (m & Hm & Hw2).
    exists (n + m)%N. cbn in Hm. rewrite len_dropN in Hm. rewrite drop_front_twice in Hw2. split; [lia|done].
Qed.
Lemma repacked_outlives s s' : repacked s s' → outlives s s' ∧ total_replay (db s') = total_replay (db s).
Proof.
  intros Hp. assert (total_replay (db s') = total_replay (db s)) as Ht by (unfold total_replay; by rewrite (rp_account _ _ Hp)).
  split; [|done]. constructor; [| |lia].
  - intros id r Hr. exists r. by rewrite (rp_runs _ _ Hp).
  - intros id w Hw. exists 0%N. rewrite drop_front_0. split; [lia|]. by rewrite (repacked_window _ _ _ Hp).
Qed.
Lemma evicts_outlives s s' : evicts s s' → total_replay (db s') ≤ total_replay (db s) → outlives s s'.
Proof. intros He Ht. constructor; [apply He|apply He|done]. Qed.
Lemma outlives_forward s s' : outlives s s' → heads_forward (db s) (db s').
Proof. intros [Hr _ _] id r (r' & ? & _ & Hh)%Hr. exists r'. split; [done|lia]. Qed.

(** Between the operations of a session: ready, and the store outlives that of [s0]. *)
Definition lasting (s0 s : Session) : Prop :=
  ready heads s ∧ cells s = cells s0 ∧ outlives (conn s0) (conn s).
Definition lasted (s0 : Session) (s : Session) (r : result unit PersistenceError) : Prop :=
  match r with
  | Ok _ => lasting s0 s
  | Err _ => standing heads s ∧ cells s = cells s0 ∧ heads_forward (db (conn s0)) (durable s) ∧
      (unresolved s = None → lasting s0 s)
  end.
Lemma lasting_ready s : ready heads s → lasting s s.
Proof. intros Hr. split; [done|]. split; [done|]. apply repacked_outlives. by apply repacked_refl. Qed.
Lemma lasting_trans a b c : lasting a b → lasting b c → lasting a c.
Proof. intros (_ & K2 & K3) (L1 & L2 & L3). split; [done|]. split; [congruence|by eapply outlives_trans]. Qed.
Lemma lasting_packs s0 s : ready heads s → packs s0 s → lasting s0 s ∧ total_replay (db (conn s)) = total_replay (db (conn s0)).
Proof. intros Hr (Hc & _ & Hp). destruct (repacked_outlives _ _ Hp). split; [split; done|done]. Qed.
Lemma lasting_fails s0 s e : lasting s0 s → lasted s0 s (Err e).
Proof.
  intros Hl. pose proof Hl as (Hr & Hc & Ho). split; [left; apply Hr|]. split; [done|].
  rewrite (clear_durable heads _ (proj1 Hr)). split; [by apply outlives_forward|done].
Qed.
Lemma lasted_lasting s0 s1 s r : lasting s0 s1 → lasted s1 s r → lasted s0 s r.
Proof.
  intros Hl. destruct r as [[]|e].
  - intros ?. by eapply lasting_trans.
  - intros (K1 & K2 & K3 & K4). pose proof Hl as (_ & Hc & Ho). split; [done|]. split; [congruence|].
    split; [eapply heads_forward_trans; [by eapply outlives_forward|done]|]. intros Hu. eapply lasting_trans; [done|by apply K4].
Qed.
Lemma halted_lasting s0 s : halted heads s0 s → unresolved s = None →
  lasting s0 s ∧ total_replay (db (conn s)) = total_replay (db (conn s0)).
Proof.
  intros [_ K2 K3 K4] Hu. pose proof (K4 Hu) as Hr. assert (repacked (conn s0) (conn s)) as Hp.
  { eapply repacked_trans; [exact K3|]. apply repacked_refl. split; [|done]. symmetry. by apply (clear_durable heads), Hr. }
  destruct (repacked_outlives _ _ Hp). split; [split; done|done].
Qed.
Lemma stopped_lasted s0 s e : stopped heads s0 s e → lasted s0 s (Err e).
Proof.
  intros [Hh _]. split; [apply Hh|]. split; [apply Hh|]. split; [|by apply halted_lasting].
  apply (outlives_forward _ (durable_store s)). by apply repacked_outlives, (ha_repacked heads).
Qed.
Lemma kept_lasted s0 s e : ready heads s0 → kept heads s0 s → lasted s0 s (Err e).
Proof.
  intros Hr (K1 & K2 & K3 & K4 & K5). split; [done|]. split; [done|]. split; [done|].
  intros Hu. specialize (K5 Hu). apply lasting_packs; [by eapply ready_core|by apply packs_refl].
Qed.
Lemma reclaimed_lasting s0 s most : ready heads s0 → reclaim_ends heads s0 None most False s (Ok true) →
  lasting s0 s ∧ total_replay (db (conn s)) < total_replay (db (conn s0)).
Proof.
  intros [_ [Hfits Hv]] (Hc & Hcells & [_ Hn] & plan & _ & Hpos & _ & (Hok & He & Ht & _)). split; [|lia].
  split; [split; [done|]|split; [done|apply evicts_outlives; [done|lia]]].
  unfold fitting, file_fits. by rewrite Hn, (ev_files _ _ He).
Qed.
(** Every retry has retired a byte: their number is bounded by the bytes held. *)
Lemma compact_until_spec batches fuel : ∀ s, ready heads s → (Z.to_nat (total_replay (db (conn s))) < fuel)%nat →
  wp (compact_until env fuel batches) s (lasted s).
Proof.
  induction fuel as [|fuel IH]; intros s Hr Hfuel; [lia|]. cbn [compact_until]. apply wp_bind, wp_attempt.
  eapply wp_mono; [by apply compact_replay_once_spec|]. intros s1 [[]|e] Hres.
  { apply wp_ret. destruct Hres as (? & ? & _). by apply lasting_packs. }
  apply wp_bind. destruct (requires_reconciliation e) eqn:He.
  { unfold reclaim_database_pages. apply wp_bind, wp_get. destruct (is_disk_full e) eqn:Hfull; [by apply disk_full_settled in Hfull; congruence|].
    apply wp_ret, wp_fail. by apply stopped_lasted. }
  destruct Hres as [Hh Hu]. specialize (Hu He). pose proof (ha_ready _ _ _ Hh Hu) as Hr1.
  destruct (halted_lasting _ _ Hh Hu) as [Hl1 Ht1].
  eapply wp_mono; [by apply (reclaim_database_pages_spec env heads s1); [apply Hr1|apply Hr1|]|].
  intros s2 [[]|e'] Hrec.
  - destruct (reclaimed_lasting s1 s2 (sumZ row_bytes (chunk_rows (db (conn s1))))) as [Hl2 Ht2]; [done|exact Hrec|].
    eapply wp_mono; [apply IH; [apply Hl2|]|].
    + destruct (ready_sound _ _ (proj1 Hl2)) as [[Ht _] _]. pose proof (total_nonneg _ _ Ht). lia.
    + intros s' r. apply lasted_lasting. by eapply lasting_trans.
  - apply wp_fail, lasting_fails. destruct Hrec as [Hc _]. eapply lasting_trans; [exact Hl1|].
    apply lasting_packs; [by eapply ready_core|by apply packs_refl].
  - eapply lasted_lasting; [exact Hl1|]. by apply kept_lasted.
Qed.
Lemma compact_replay_spec batches s : ready heads s → wp (compact_replay env batches) s (lasted s).
Proof.
  intros Hr. unfold compact_replay. apply wp_bind. eapply wp_mono; [apply quiet_identity|].
  intros s1 [[]|e] Hc; (assert (lasting s s1) as Hl by (apply lasting_packs; [by eapply ready_core|by apply packs_refl])); [|by apply lasting_fails].
  apply wp_bind, wp_get. eapply wp_mono; [apply compact_until_spec; [apply Hl|unfold total_replay; lia]|].
  intros s' r. by apply lasted_lasting.
Qed.

(** ** Funding *)

Lemma effective_lasting p s0 s : lasting s0 s → lasting s0 (set_effective p s).
Proof. intros ([Hc Hf] & Hcells & Ho). by split; [split|]. Qed.
Lemma core_lasting s0 s s' : lasting s0 s → core s' = core s → lasting s0 s'.
Proof.
  intros Hl Hc. eapply lasting_trans; [exact Hl|]. apply lasting_packs; [by eapply ready_core, Hl|by apply packs_refl].
Qed.
(** Calls that keep the session. *)
Lemma quiet_lasted {A} (m : SX A) (k : A → SX unit) s0 s : quiet m → lasting s0 s →
  (∀ a s', lasting s0 s' → wp (k a) s' (lasted s0)) → wp (bind m k) s (lasted s0).
Proof.
  intros Hm Hl Hk. apply wp_bind. eapply wp_mono; [apply Hm|].
  intros s' [a|e] Hc; pose proof (core_lasting _ _ _ Hl Hc); [by apply Hk|by apply lasting_fails].
Qed.
Lemma retire_until_spec s0 aggregate available work fuel : ∀ s, lasting s0 s → (Z.to_nat (total_replay (db (conn s))) < fuel)%nat →
  wp (retire_until env fuel aggregate available work) s (lasted s0).
Proof.
  induction fuel as [|fuel IH]; intros s Hl Hfuel; [lia|]. cbn [retire_until]. pose proof Hl as (Hr & _).
  apply wp_bind. eapply wp_mono; [apply query_core|]. intros s1 [a|e] [Hc Ha]; pose proof (core_lasting _ _ _ Hl Hc) as Hl1;
    [|by apply lasting_fails].
  apply wp_bind, wp_lift_result. destruct (nonnegative_u64 _ _) as [retained|]; [|by apply lasting_fails].
  case_decide; [by apply wp_ret|]. apply wp_bind. eapply wp_mono; [apply (reclaim_confirmed_spec env heads s1); [apply Hl1|apply Hl1|done]|].
  intros s2 [[]|e] Hrec.
  - destruct (reclaimed_lasting s1 s2 (Z.of_N (retained - aggregate))) as [Hl2 Ht2]; [apply Hl1|exact Hrec|].
    apply IH; [by eapply lasting_trans|]. rewrite (core_db _ _ Hc) in Ht2.
    destruct (ready_sound _ _ (proj1 Hl2)) as [[Ht _] _]. pose proof (total_nonneg _ _ Ht). lia.
  - apply wp_fail, lasting_fails. destruct Hrec as [Hc2 _]. by eapply core_lasting.
  - eapply lasted_lasting; [exact Hl1|]. apply kept_lasted; [apply Hl1|done].
Qed.
Lemma quiet_effective s1 : quiet (effective_database env s1).
Proof.
  unfold effective_database. case_decide; [|apply quiet_ret]. unfold pages_of. quiet.
Qed.
Lemma quiet_allocated name : quiet (allocated_part env name).
Proof. unfold allocated_part. apply quiet_bind; [apply quiet_ask|intros held]. apply quiet_bind; [apply quiet_len|intros n; apply quiet_ret]. Qed.
Lemma quiet_directory : quiet (directory_file_len (tx env)).
Proof. unfold directory_file_len. apply quiet_bind; [apply quiet_get|intros s; apply quiet_ask]. Qed.
Lemma quiet_available : quiet (filesystem_available_bytes env).
Proof. unfold filesystem_available_bytes. apply quiet_bind; [apply quiet_ask|intros v; apply quiet_lift]. Qed.
Lemma prepare_storage_work_spec payload s : ready heads s → wp (prepare_storage_work env payload) s (lasted s).
Proof.
  intros Hr. unfold prepare_storage_work. apply quiet_lasted; [apply quiet_identity|by apply lasting_ready|]. intros _ s1 Hl1.
  apply quiet_lasted; [apply quiet_get|done|]. intros v s2 Hl2. apply quiet_lasted; [apply quiet_effective|done|]. intros database s3 Hl3.
  apply wp_bind, wp_modify. apply quiet_lasted; [apply quiet_directory|by apply effective_lasting|]. clear Hl1 Hl2 Hl3 s1 s2 s3.
  intros physical s1 Hl1. apply quiet_lasted; [apply quiet_ask|done|]. intros held s2 Hl2.
  apply quiet_lasted; [apply quiet_allocated|done|]. intros wal s3 Hl3. apply quiet_lasted; [apply quiet_allocated|done|]. intros shm s4 Hl4.
  apply quiet_lasted; [apply quiet_lift|done|]. intros work s5 Hl5. apply quiet_lasted; [apply quiet_attempt, quiet_available|done|].
  clear Hl1 Hl2 Hl3 Hl4 Hl5 s1 s2 s3 s4 s5. intros [available|e] s1 Hl1.
  2: { apply wp_bind, wp_modify, wp_fail, lasting_fails. by apply effective_lasting. }
  destruct (fund _ _ _ _ _ _) as [[policy compact]|]; [|by apply lasting_fails].
  apply wp_bind, wp_modify. pose proof (effective_lasting policy _ _ Hl1) as Hl2. set (s2 := set_effective policy s1) in *.
  destruct (_ || _); [by apply wp_fail, lasting_fails|]. destruct compact; [|by apply wp_ret].
  apply wp_bind, wp_get. apply wp_bind. eapply wp_mono; [apply retire_until_spec; [exact Hl2|unfold total_replay; lia]|].
  intros s3 [[]|e] Hl3; [|done]. apply wp_bind, wp_on_compaction. set (s4 := set_compaction _ s3).
  assert (lasting s s4) as Hl4.
  { destruct Hl3 as (Hr3 & Hc3 & Ho3). split; [|done]. apply (ready_compaction heads (set_force true)); [done|apply Hr3]. }
  eapply wp_mono; [apply compact_replay_spec, Hl4|]. intros s' r. by apply lasted_lasting.
Qed.
End session.
