(* ===== verification/StoreAppendProps.v ===== *)
(** * Properties of the output transactions and of the reclamation *)

From S2P Require Import Prelude.
From S2P Require Import Protocol.
From S2P Require Import Resources.
From S2P Require Import StorageErrors.
From S2P Require Import ReplayStore.
From S2P Require Import ReplayStoreSpec.
From S2P Require Import ReplayTables.
From S2P Require Import ReplayAppend.
From S2P Require Import ReplayPrune.
From S2P Require Import ReplayProps.
From S2P Require Import StoreTransaction.
From S2P Require Import StoreTransactionSpec.
From S2P Require Import StoreTransactionProps.
From S2P Require Import StoreAppend.
From S2P Require Import StoreAppendSpec.
From S2P Require Import StoreSession.
From S2P Require Import StoreAppendSession.
From S2P Require Import StoreReclaim.
From S2P Require Import StoreReclaimSpec.
From S2P Require Import StoreReclaimSession.
From S2P Require Import StoreCompaction.
From S2P Require Import StoreCompactionSession.
From S2P Require Import StoreCompactionOnce.

Section properties.
Context `{!UuidDisplay, !StateJson, !StorageCodes} (heads : gmap RunId Cell).

(** ** What publishing writes *)

Lemma store_cells_lookup l c v s : (c, v) ∈ l → (∀ v', (c, v') ∈ l → v' = v) →
  cells (store_cells l s) !! c = Some v.
Proof.
  revert s. induction l as [|[c' v'] l IH]; intros s Hin Hall; [by apply elem_of_nil in Hin|]. cbn [store_cells].
  destruct (decide ((c, v) ∈ l)) as [Hl|Hl]; [apply IH; [done|]; intros v2 H2; apply Hall; by right|].
  apply elem_of_cons in Hin as [[= <- <-]|?]; [|done].
  assert (∀ s, cells (store_cells l s) !! c = cells s !! c) as ->.
  { clear -Hl Hall. assert (∀ v', (c, v') ∉ l) as Hn.
    { intros v' Hv. apply Hl. by rewrite <-(Hall v') by by right. }
    clear Hl Hall. induction l as [|[c' v'] l IH]; intros s; [done|]. cbn [store_cells].
    rewrite IH by (intros v2 H2; apply (Hn v2); by right). cbn. apply lookup_insert_ne. intros ->.
    apply (Hn v'). by left. }
  cbn. apply lookup_insert_eq.
Qed.
Lemma published_head batch terminal limits s0 c o id replay cell s : owned heads batch terminal →
  staged_ok batch terminal limits s0 c o → (id, replay, cell) ∈ batch →
  ∃ r, run_rows (db c) !! id = Some r ∧
    (Z.of_N <$> cells (publish batch o s) !! cell) = Some (durable_output_bytes r).
Proof.
  intros Ho Hs Hin. destruct (so_updates _ _ _ _ _ _ Hs id) as [v Hv].
  { apply list_elem_of_fmap. by exists (id, replay, cell). }
  destruct (so_heads _ _ _ _ _ _ Hs _ _ Hv) as (r & Hr & Heq). exists r. split; [done|]. unfold publish.
  rewrite (store_cells_lookup _ cell v); [by cbn; rewrite Heq| |].
  - apply elem_of_app. left. apply list_elem_of_omap. exists (id, replay, cell). split; [done|]. by rewrite Hv.
  - pose proof (owned_batch _ _ _ Ho _ _ _ Hin) as Hc. intros v' [Hin'|Hin']%elem_of_app.
    + apply list_elem_of_omap in Hin' as ([[id' replay'] c'] & Hin' & Hv').
      destruct (cursor_updates o !! id') as [v2|] eqn:Hv2; [|done]. injection Hv' as -> ->.
      assert (id' = id) as -> by (eapply (owned_once _ _ _ Ho); [by eapply (owned_batch _ _ _ Ho)|done]). congruence.
    + pose proof (so_metadata _ _ _ _ _ _ Hs) as Hm.
      destruct (StoreAppend.terminal_metadata o) as [[c' v2]|]; [|by apply elem_of_nil in Hin'].
      apply list_elem_of_singleton in Hin'. injection Hin' as -> ->. destruct terminal as [t|]; [|done].
      destruct Hm as [-> _]. by destruct (owned_metadata _ _ _ Ho _ _ _ eq_refl Hc).
Qed.

(** ** The interleavings *)

(** One owner action between crashes: writing output, retiring confirmed output for room
    or for pages, compacting the replay files, funding storage work, or settling a transaction
    whose outcome is not known.  A write whose only failure is that the files it committed to
    were refused by the inspection after COMMIT ([requires_reconciliation] false, the
    record kept) is left out: see [refused_commit_loses_its_tail]. *)
Inductive output_step : Session → Session → Prop :=
  | step_write env batch terminal s s' r : unresolved s = None → owned heads batch terminal →
      output_fits batch terminal s → write_output env batch terminal s = Ret (s', r) →
      (∀ e, r = Err e → requires_reconciliation e = true ∨ unresolved s' = None) → output_step s s'
  | step_reclaim env id replay s s' r : unresolved s = None → file_fits s →
      reclaim_output_prefix env id replay s = Ret (s', r) → output_step s s'
  | step_pages env e s s' r : unresolved s = None → file_fits s →
      reclaim_database_pages env e s = Ret (s', r) → output_step s s'
  | step_compact env batches s s' r : plain_uuids → fresh_names env → unresolved s = None → fitting s →
      compact_replay env batches s = Ret (s', r) → output_step s s'
  | step_fund env payload s s' r : plain_uuids → fresh_names env → unresolved s = None → fitting s →
      prepare_storage_work env payload s = Ret (s', r) → output_step s s'
  | step_reconcile env s s' r : is_Some (unresolved s) →
      reconcile_maintenance env s = Ret (s', r) → output_step s s'.

Lemma reclaim_standing s target most nothing s' r : clear heads s → reclaim_ends heads s target most nothing s' r →
  standing heads s' ∧ heads_forward (durable s) (durable s').
Proof.
  intros Hc. rewrite (clear_durable heads _ Hc). destruct r as [[]|e]; cbn.
  - intros (Hc' & _ & _ & plan & _ & _ & _ & _ & He & _). split; [by left|]. rewrite (clear_durable heads _ Hc'). by apply evicts_forward.
  - intros [Hcore _]. apply clear_standing; [by eapply core_clear|by apply core_db].
  - intros (? & ? & _). done.
Qed.
Lemma lasted_standing s s' r : clear heads s → lasted heads s s' r →
  standing heads s' ∧ heads_forward (durable s) (durable s').
Proof.
  intros Hc. rewrite (clear_durable heads _ Hc). destruct r as [[]|e].
  - intros ([Hc' _] & _ & Ho). split; [by left|]. rewrite (clear_durable heads _ Hc'). by apply outlives_forward.
  - intros (? & _ & ? & _). done.
Qed.
Lemma output_step_standing s s' : output_step s s' → standing heads s →
  standing heads s' ∧ heads_forward (durable s) (durable s').
Proof.
  intros [env batch terminal s1 s2 r Hn Ho Hfits Hrun Hok|env id replay s1 s2 r Hn Hf Hrun|
    env e s1 s2 r Hn Hf Hrun|env batches s1 s2 r Hp Hfr Hn Hf Hrun|env payload s1 s2 r Hp Hfr Hn Hf Hrun|env s1 s2 r Hu Hrun] Hs.
  - pose proof (standing_clear heads _ Hs Hn) as Hc.
    pose proof (write_output_spec env heads batch terminal s1 Hc Ho Hfits) as Hw. unfold wp in Hw. rewrite Hrun in Hw.
    rewrite (clear_durable heads _ Hc). destruct r as [[]|e].
    + destruct Hw as (Hc2 & o & Hso & _). split; [by left|]. rewrite (clear_durable heads _ Hc2).
      exact (so_forward _ _ _ _ _ _ Hso).
    + destruct Hw as (Hc2 & Hd & _). by apply clear_standing.
    + destruct Hw as (_ & Hdone & Hrec). destruct (Hok _ eq_refl) as [He|Hn2]; [by apply Hrec|].
      destruct (Hdone Hn2) as [Hc2 Hd]. by apply clear_standing.
  - pose proof (standing_clear heads _ Hs Hn) as Hc. pose proof (reclaim_output_runs env heads s1 id replay Hc Hf) as Hw.
    rewrite Hrun in Hw. destruct r as [b|e]; [destruct Hw as (row & _ & Hw)|destruct Hw as (? & Hfw & _)].
    + by eapply reclaim_standing.
    + by rewrite (clear_durable heads _ Hc).
  - pose proof (standing_clear heads _ Hs Hn) as Hc. pose proof (reclaim_database_pages_spec env heads s1 s1 e Hc Hf eq_refl) as Hw.
    unfold wp in Hw. rewrite Hrun in Hw. by eapply reclaim_standing.
  - pose proof (standing_clear heads _ Hs Hn) as Hc. pose proof (compact_replay_spec env heads Hp Hfr batches s1 (conj Hc Hf)) as Hw.
    unfold wp in Hw. rewrite Hrun in Hw. by eapply lasted_standing.
  - pose proof (standing_clear heads _ Hs Hn) as Hc. pose proof (prepare_storage_work_spec env heads Hp Hfr payload s1 (conj Hc Hf)) as Hw.
    unfold wp in Hw. rewrite Hrun in Hw. by eapply lasted_standing.
  - pose proof (standing_stuck heads _ Hs Hu) as Hst. pose proof (reconcile_stuck heads env s1 Hst) as Hw.
    unfold wp in Hw. rewrite Hrun in Hw. destruct r as [[t|]|e].
    + destruct Hw as [Hc Hd]. split; [by left|]. destruct Hc as (Hb & _). unfold durable at 2. rewrite Hb.
      cbn. rewrite Hd. apply heads_forward_refl.
    + destruct Hw as [Hc ->]. split; [by right|]. apply heads_forward_refl.
    + destruct Hw as [Hc ->]. split; [by right|]. apply heads_forward_refl.
Qed.
Lemma output_steps_standing s s' : rtc output_step s s' → standing heads s →
  standing heads s' ∧ heads_forward (durable s) (durable s').
Proof.
  induction 1 as [|s s1 s2 Hstep _ IH]; intros Hs; [split; [done|apply heads_forward_refl]|].
  destruct (output_step_standing _ _ Hstep Hs) as [Hs1 Hf]. destruct (IH Hs1) as [? ?].
  split; [done|by eapply heads_forward_trans].
Qed.

(** ** Properties *)

(** C15: an output transaction publishes exactly what it made durable.  However the host
    behaves, [write_output] ends.  When it answers [true], every Run of the batch received its
    coalesced replay (the reference [receive] on its window), then the store was pruned to the
    effective limit, then the terminal row was set; and the cell of every Run in the batch
    holds exactly the Run's durable head.  When it answers [false], the database and every cell
    are as they were.  When it fails, every cell is as it was; the database is as it was if no
    record of the transaction is left, and nothing is said here of a failure that leaves one
    (see C13 and C16 for those). *)
Theorem output_publishes_what_it_kept env batch terminal s (Hclear : clear heads s)
    (Howned : owned heads batch terminal) (Hfits : output_fits batch terminal s) :
  ∃ s' r, write_output env batch terminal s = Ret (s', r) ∧
  match r with
  | Ok true => clear heads s' ∧
      (∃ s1 s2 now, received (coalesce_batch batch) (effective_run_bytes (effective s)) (conn s) s1 ∧
         evicts s1 s2 ∧ (total_replay (db s2) ≤ Z.of_N (effective_replay_bytes (effective s)))%Z ∧
         match terminal with
         | None => db (conn s') = db s2
         | Some t => after_terminal t now (db s2) (db (conn s'))
         end) ∧
      ∀ id replay cell, (id, replay, cell) ∈ batch → ∃ row, run_rows (db (conn s')) !! id = Some row ∧
        (Z.of_N <$> cells s' !! cell) = Some (durable_output_bytes row)
  | Ok false => clear heads s' ∧ db (conn s') = db (conn s) ∧ cells s' = cells s
  | Err e => cells s' = cells s ∧ (unresolved s' = None → db (conn s') = db (conn s))
  end.
Proof.
  destruct (wp_elim _ _ _ (write_output_spec env heads batch terminal s Hclear Howned Hfits)) as (s' & r & -> & Hr).
  exists s', r. split; [done|]. destruct r as [[]|e]; [|done|].
  - destruct Hr as (Hc & o & Hso & Hcells). split; [done|]. split.
    + destruct (so_staged _ _ _ _ _ _ Hso) as (s1 & s2 & now & ? & _ & ? & ? & ?). exists s1, s2, now. done.
    + intros id replay cell Hin. rewrite Hcells. by eapply published_head.
  - destruct Hr as (? & Hn & _). split; [done|]. intros Hu. by apply Hn.
Qed.

(** C14: take any sequence of output transactions, reclamations, compactions, fundings and
    reconciliations, under any failures of SQLite and of the files but one: no output
    transaction of the sequence ended with an error that requires no reconciliation while its
    record was kept, which is what the inspection of the files after a successful COMMIT can
    do ([step_write]; C16 says what that one costs).  Then between any two of them a crash finds
    a recoverable store (well formed rows over synced bytes, up to bytes no row names), no
    published watermark is past the durable head of its Run, and no durable head ever moved
    back; and the next output transaction, or the next reconciliation of an unresolved one,
    neither panics nor fails to end. *)
Theorem published_output_survives s s' (Hclear : clear heads s) (Hsteps : rtc output_step s s') :
  recoverable (replay_file s') (durable s') (files (conn s')) ∧
  watermarks heads (durable s') (cells s') ∧
  heads_forward (db (conn s)) (durable s') ∧
  match unresolved s' with
  | None => ∀ env batch terminal, owned heads batch terminal → output_fits batch terminal s' →
      ∃ s2 r, write_output env batch terminal s' = Ret (s2, r)
  | Some _ => ∀ env, ∃ s2 r, reconcile_maintenance env s' = Ret (s2, r)
  end.
Proof.
  destruct (output_steps_standing _ _ Hsteps (or_introl Hclear)) as [Hs Hf].
  destruct (standing_recoverable _ _ Hs) as [Hr Hw]. split_and!; [done|done| |].
  - destruct Hclear as (Hb & _). unfold durable at 1 in Hf. by rewrite Hb in Hf.
  - destruct (unresolved s') as [u|] eqn:Hu.
    + intros env. destruct (wp_elim _ _ _ (reconcile_stuck heads env s' (standing_stuck heads _ Hs ltac:(by rewrite Hu))))
        as (s2 & r & -> & _). by exists s2, r.
    + intros env batch terminal Ho Hfits.
      destruct (wp_elim _ _ _ (write_output_spec env heads batch terminal s' (standing_clear heads _ Hs Hu) Ho Hfits))
        as (s2 & r & -> & _). by exists s2, r.
Qed.
End properties.

(** ** A session over the demonstration store *)

Module OutputDemo.
Import Demo TxDemo.
Definition session : Session :=
  {| conn := Demo.store; before_tx := None; cache_spill := 1; unresolved := None;
     replay_file := "a.bin"; active_identity := (0, 0); namespace := []; cells := {[1 := 3]};
     replies := ∅; checkpoint_files := ∅;
     effective := {| effective_database_bytes := 0; effective_replay_bytes := 100; effective_run_bytes := 100 |};
     compaction := compaction TxDemo.session; reclaiming_output := ∅ |}.
Definition heads : gmap RunId Cell := {[7 := 1]}.
Definition batch : list BatchEntry := [(7, Demo.replay, 1)].
Definition sound_host : TxEnv := host (λ _, false).
(** The shared-memory index is over its policy whenever it is measured. *)
Definition pressed_host : TxEnv :=
  {| storage := storage sound_host; resources := resources sound_host;
     auto_rollback := auto_rollback sound_host; commit_effect := commit_effect sound_host;
     rollback_happens := rollback_happens sound_host;
     file_sizes := λ _ name, if decide (name = shm_file) then u64_max else 0;
     checkpoint_tries := checkpoint_tries sound_host; cache_status := cache_status sound_host;
     spill_sticks := spill_sticks sound_host; identity_of := identity_of sound_host;
     unlink_works := unlink_works sound_host |}.

(** SQLite commits the batch but answers an error. *)
Definition failing_host : TxEnv := host (λ t, Nat.eqb t 26).
Definition unknown : PersistenceError :=
  Uncertain "maintenance COMMIT outcome requires recovery" disk_error.
Definition stuck_session : Session :=
  match write_output failing_host batch None session with Ret (s, _) => s | Panic _ => session end.
Definition settled_session : Session :=
  match reconcile_maintenance sound_host stuck_session with Ret (s, _) => s | Panic _ => session end.
(** SQLite commits the batch, and the files it leaves are refused. *)
Definition over_policy : PersistenceError :=
  ResourcePressure "shared-memory index exceeds the configured WAL funding".
Definition refused_session : Session :=
  match write_output pressed_host batch None session with Ret (s, _) => s | Panic _ => session end.

Lemma is_head id c : heads !! id = Some c → 7 = id ∧ 1 = c.
Proof. unfold heads. by rewrite lookup_singleton_Some. Qed.
Lemma is_clear : clear heads session.
Proof.
  split; [done|]. split; [done|]. split; [|split; [|split; [by apply not_elem_of_nil|done]]].
  - apply sound_recoverable; [|by exists Demo.file]. split; [apply Demo.ok|]. repeat constructor.
    exists Demo.file. split; [apply Demo.file_is|by vm_compute].
  - intros id c v [<- <-]%is_head Hv. change (({[1 := 3]} : gmap Cell N) !! 1 = Some v) in Hv.
    apply lookup_singleton_Some in Hv as [_ <-].
    exists Demo.run. split; [apply Demo.run_is|by vm_compute].
Qed.
Lemma is_owned : owned heads batch None.
Proof.
  constructor.
  - by intros id id' c [<- _]%is_head [<- _]%is_head.
  - intros id replay c [= -> -> ->]%list_elem_of_singleton. apply lookup_singleton_eq.
  - done.
Qed.
Lemma fits : output_fits batch None session.
Proof.
  split_and!; [|by vm_compute|done]. intros f Hf. cbn in Hf. rewrite Demo.file_is in Hf. injection Hf as <-.
  by vm_compute.
Qed.
End OutputDemo.
Import Demo TxDemo OutputDemo.

Lemma output_publishes_what_it_kept_witness : ∃ s' r,
  write_output OutputDemo.sound_host OutputDemo.batch None OutputDemo.session = Ret (s', r) ∧
  match r with
  | Ok true => ∃ row, run_rows (db (conn s')) !! 7 = Some row ∧
      (Z.of_N <$> cells s' !! 1) = Some (durable_output_bytes row)
  | _ => False
  end.
Proof.
  destruct (output_publishes_what_it_kept OutputDemo.heads OutputDemo.sound_host OutputDemo.batch None
    OutputDemo.session OutputDemo.is_clear OutputDemo.is_owned OutputDemo.fits) as (s' & r & Hrun & Hr).
  exists s', r. split; [done|].
  assert (match write_output OutputDemo.sound_host OutputDemo.batch None OutputDemo.session with
          | Ret (_, Ok true) => True | _ => False end) as Hok by (vm_compute; done).
  rewrite Hrun in Hok. destruct r as [[]|]; [|done..]. destruct Hr as (_ & _ & Hpub).
  apply (Hpub 7 Demo.replay 1). left.
Defined.

(** A COMMIT that happened but answered an error, then its reconciliation. *)
Lemma published_output_survives_witness :
  rtc (output_step OutputDemo.heads) OutputDemo.session OutputDemo.settled_session ∧
  is_Some (unresolved OutputDemo.stuck_session) ∧ cells OutputDemo.settled_session !! 1 = Some 5 ∧
  recoverable (replay_file OutputDemo.settled_session) (durable OutputDemo.settled_session)
    (files (conn OutputDemo.settled_session)).
Proof.
  assert (rtc (output_step OutputDemo.heads) OutputDemo.session OutputDemo.settled_session) as Hsteps.
  { eapply rtc_l with OutputDemo.stuck_session.
    - apply (step_write _ OutputDemo.failing_host OutputDemo.batch None _ _ (Err OutputDemo.unknown)).
      + reflexivity.
      + exact OutputDemo.is_owned.
      + exact OutputDemo.fits.
      + vm_compute. reflexivity.
      + intros e [= <-]. left. reflexivity.
    - apply rtc_once. apply (step_reconcile _ OutputDemo.sound_host _ _ (Ok (Some None))).
      + vm_compute. eexists. reflexivity.
      + vm_compute. reflexivity. }
  split; [exact Hsteps|]. split; [vm_compute; eexists; reflexivity|]. split; [vm_compute; reflexivity|].
  exact (proj1 (published_output_survives OutputDemo.heads _ _ OutputDemo.is_clear Hsteps)).
Defined.

Section properties.
Context `{!UuidDisplay, !StateJson, !StorageCodes} (heads : gmap RunId Cell).

Lemma short_read host nm f offset n c : files c !! nm = Some f → len (contents f) < offset + n →
  ∀ c' d, read_replay_segment host nm offset n c ≠ Ret (c', Ok d).
Proof.
  intros Hf Hlt. enough (wp (read_replay_segment host nm offset n) c (λ _ r, is_ok r = false)) as Hw.
  { intros c' d Hrun. unfold wp in Hw. by rewrite Hrun in Hw. }
  unfold read_replay_segment, lift. apply wp_bind, wp_lift_result.
  destruct (validate_replay_file_name nm); [|done].
  apply wp_bind. unfold validate_state_file. apply wp_guarded; [done|]. unfold wp at 1. cbn [later set_clock files].
  rewrite Hf. apply wp_bind. unfold file_len. apply wp_guarded; [done|].
  unfold wp at 1. cbn [later set_clock files].
  destruct (checked_add offset n) as [stop|] eqn:Hstop; [|done].
  apply checked_add_Some in Hstop as [-> _].
  rewrite decide_True; [done|]. unfold len_of_file. cbn [later set_clock files]. rewrite Hf. lia.
Qed.

Lemma refused_settles env2 s0 s' fs d u path i before batch terminal o s2 t : u_commit u = Confirmed →
  core s' = at_state s0 fs d None
    (Some (with_settlement (output_settlement path i before batch terminal (Some o)) u)) →
  reconcile_maintenance env2 s' = Ret (s2, Ok (Some t)) →
  db (conn s2) = d ∧ files (conn s2) = fs ∧ cells s2 = cells (publish batch o s0).
Proof.
  intros Hu Hc Hrun. set (u' := with_settlement _ u) in *.
  (* The verdict on a confirmed COMMIT does not look at the old database: any other one will do. *)
  set (d0 := {| chunk_rows := chunk_rows d; chunk_sequence := (chunk_sequence d + 1)%Z; run_rows := run_rows d;
                active_replay_file := active_replay_file d; accounting := accounting d |}).
  assert (d0 ≠ d) as Hne by (intros Hd; apply (f_equal chunk_sequence) in Hd; cbn in Hd; lia).
  pose proof (at_state_files _ _ _ _ _ _ Hc) as Hf.
  pose proof (at_state_refl s') as Hs. rewrite (at_state_db _ _ _ _ _ _ Hc), (at_state_before _ _ _ _ _ _ Hc),
    (at_state_unresolved _ _ _ _ _ _ Hc) in Hs.
  pose proof (reconcile_spec env2 s' s' u' d0 d d None Hs) as Hw. unfold wp in Hw. rewrite Hrun in Hw.
  destruct Hw as (done & s1 & Hd & _ & Hset & Hs2); [by unfold pending; cbn; rewrite Hu|].
  cbn in Hd. destruct done; [|by destruct Hne]. cbn in Hset. destruct Hset as [_ ->].
  assert (∀ l x, conn (store_cells l x) = conn x) as Hconn by (intros l x; apply store_cells_frame).
  split_and!.
  - apply (f_equal (λ x, db (conn x))) in Hs2. cbn in Hs2. by rewrite Hs2, Hconn.
  - apply (f_equal (λ x, files (conn x))) in Hs2. cbn in Hs2. by rewrite Hs2, Hconn, <-Hf.
  - apply (f_equal cells) in Hs2. cbn in Hs2. rewrite Hs2. apply store_cells_cells. cbn.
    by apply (at_state_rest _ _ _ _ _ _ Hc).
Qed.

(** C16: a pressure answered by the inspection after COMMIT costs rows their bytes.  Whenever
    [write_output] answers an error that requires no reconciliation although the record of its
    transaction is kept, SQLite has committed: the database is the one the transaction built
    (every Run of the batch with its new head) and no transaction is open.  Then either the
    error is one that [PersistenceError::at] leaves as it is and the replay file is back to
    exactly its bytes of before, so that no read reaching past its old end succeeds, whatever
    the host; or the host failed the cut too, with this error, and the file stayed.  And whenever a later reconciliation
    settles the record, it publishes the new heads over this file. *)
Theorem refused_commit_loses_its_tail env batch terminal s s' e f0 (Hclear : clear heads s)
    (Howned : owned heads batch terminal) (Hfits : output_fits batch terminal s)
    (Hfile : files (conn s) !! replay_file s = Some f0)
    (Hrun : write_output env batch terminal s = Ret (s', Err e))
    (Hkept : is_Some (unresolved s')) (Herr : requires_reconciliation e = false) :
  ∃ c o, staged_ok batch terminal (effective s) (conn s) c o ∧
  before_tx s' = None ∧ db (conn s') = db c ∧ cells s' = cells s ∧
  (left_as_is e = true ∧
     (∃ f, files (conn s') !! replay_file s = Some f ∧ contents f = contents f0) ∧
     (∀ host offset n c1, files c1 = files (conn s') → len (contents f0) < offset + n →
        ∀ c2 d, read_replay_segment host (replay_file s) offset n c1 ≠ Ret (c2, Ok d))
   ∨ files (conn s') = files c ∧ ∃ t, fault (storage env) t = Some e) ∧
  ∀ env2 s2 t, reconcile_maintenance env2 s' = Ret (s2, Ok (Some t)) →
    db (conn s2) = db c ∧ files (conn s2) = files (conn s') ∧ cells s2 = cells (publish batch o s).
Proof.
  pose proof (write_output_refused env heads batch terminal s f0 Hclear Howned Hfits Hfile) as Hw.
  unfold wp in Hw. rewrite Hrun in Hw. destruct Hw as [n Hw].
  destruct (Hw Hkept Herr) as (c & o & u & i & fs & Hso & Hg & Hu & Hc & Hfs). apply staged_ok_clock in Hso.
  destruct (at_state_rest _ _ _ _ _ _ Hc) as (Hcells & _ & _). pose proof (at_state_files _ _ _ _ _ _ Hc) as Hf.
  exists c, o. split; [done|]. split; [exact (at_state_before _ _ _ _ _ _ Hc)|].
  split; [exact (at_state_db _ _ _ _ _ _ Hc)|]. split; [exact Hcells|]. split.
  - destruct Hfs as [[-> Hfault]|(Hl & f & Hfc & ->)]; [by right|left]. split; [done|].
    destruct (grown_file _ _ _ Hg _ Hfile) as (f1 & x & Hf1 & Hx & _). cbn in Hf1, Hfc.
    rewrite Hfc in Hf1. injection Hf1 as <-.
    assert (contents (resize (len (contents f0)) f) = contents f0) as Hold.
    { unfold resize. cbn [contents]. rewrite Hx, len_app.
      replace (len (contents f0) - (len (contents f0) + len x)) with 0 by lia. cbn [N.to_nat replicate].
      by rewrite app_nil_r, takeN_app_le, takeN_ge by lia. }
    cbn in Hf. split; [exists (resize (len (contents f0)) f); by rewrite Hf, lookup_insert_eq|].
    intros host offset m c1 Hc1 Hlt. apply short_read with (resize (len (contents f0)) f); [|by rewrite Hold].
    by rewrite Hc1, Hf, lookup_insert_eq.
  - intros env2 s2 t Hrec. destruct (refused_settles _ _ _ _ _ _ _ _ _ _ _ _ _ _ Hu Hc Hrec) as (-> & -> & ->).
    split_and!; [done|done|]. by apply store_cells_cells.
Qed.

(** C18: making room for a Run's output takes confirmed output off the front of windows and
    nothing else.  Whatever the host fails, the halving loop ends.  [true] means that the plan
    that was carried out is a front of the oldest rows of its target, whole rows and perhaps a
    part of the next one, of at least one byte and at most the bytes needed; that every Run
    lost exactly the plan's bytes off the front of its window; that the store is still well
    formed with the accounting lowered by exactly that; and, when the Run is over its own
    limit, that it alone is the target and the row and the extents of every other Run are
    untouched.  [false] means that there was room, or no row of the target left to take; an
    error without an unresolved record changed nothing. *)
Theorem reclamation_takes_the_front env s id replay (Hclear : clear heads s) (Hfits : file_fits s)
    (Hbytes : fresh_total 0 replay ≤ u64_max) :
  ∃ s' r, reclaim_output_prefix env id replay s = Ret (s', r) ∧ cells s' = cells s ∧
  files (conn s') = files (conn s) ∧
  match r with
  | Err e => heads_forward (db (conn s)) (durable s') ∧ (unresolved s' = None → db (conn s') = db (conn s))
  | Ok made => ∃ row, run_rows (db (conn s)) !! id = Some row ∧
      let own := run_need (effective s) row replay in
      let needed := N.max own (store_need (effective s) (db (conn s)) row replay) in
      let target := if decide (0 < own) then Some id else None in
      if made
      then ∃ plan, front_plan (targets target (db (conn s))) plan ∧ (0 < plan_total plan ≤ Z.of_N needed)%Z ∧
           (∀ id' w, window_of (conn s) id' = Some w →
              window_of (conn s') id' = Some (drop_front (Z.to_N (taken_from plan id')) w)) ∧
           (0 < own → ∀ id', id' ≠ id → run_rows (db (conn s')) !! id' = run_rows (db (conn s)) !! id' ∧
              rows_of id' (db (conn s')) = rows_of id' (db (conn s))) ∧
           evicts (conn s) (conn s') ∧ store_ok (db (conn s')) (files (conn s')) ∧
           total_replay (db (conn s')) = (total_replay (db (conn s)) - plan_total plan)%Z
      else db (conn s') = db (conn s) ∧ (needed = 0 ∨ targets target (db (conn s)) = [])
  end.
Proof.
  destruct (wp_elim _ _ _ (reclaim_output_spec env heads s id replay Hclear Hfits Hbytes)) as (s' & r & -> & Hr).
  exists s', r. split; [done|]. destruct r as [made|e].
  - destruct Hr as (row & Hrow & Hr). fold (reclaim_target (run_need (effective s) row replay) id).
    destruct made; cbn [reclaim_ends] in Hr.
    + destruct Hr as (_ & Hcells & _ & plan & Hfront & Kpos & Kmost & Hok & He & Ht & Hwin & Hsame).
      split; [done|]. split; [apply (ev_files _ _ He)|]. exists row. split; [done|]. exists plan.
      split_and!; [done..| |done|done|done]. intros Hown id' Hne. apply Hsame, taken_from_none. intros e Hin.
      apply (front_plan_rows _ _ _ Hfront), list_elem_of_filter in Hin as [Hin _].
      unfold reclaim_target in Hin. rewrite decide_True in Hin by done. cbn in Hin. congruence.
    + destruct Hr as [Hcore Hn]. split; [exact (f_equal cells Hcore)|]. split; [by apply core_files|].
      exists row. split; [done|]. split; [by apply core_db|done].
  - destruct Hr as (_ & Hfw & Hcells & Hf & Hd). split; [done|]. split; [done|]. split; [done|].
    intros Hu. by apply core_db, Hd.
Qed.
End properties.

Lemma refused_commit_loses_its_tail_witness : ∃ s2 s3 e,
  write_output OutputDemo.pressed_host OutputDemo.batch None OutputDemo.session =
    Ret (OutputDemo.refused_session, Err OutputDemo.over_policy) ∧
  Exists (λ r, Z.of_N (len_of_file (row_file r) (conn OutputDemo.refused_session)) < row_offset r + row_bytes r)%Z
    (chunk_rows (db (conn OutputDemo.refused_session))) ∧
  (∃ c o, staged_ok OutputDemo.batch None (effective OutputDemo.session) (conn OutputDemo.session) c o ∧
     db (conn OutputDemo.refused_session) = db c) ∧
  reconcile_maintenance OutputDemo.sound_host OutputDemo.refused_session = Ret (s2, Ok (Some None)) ∧
  cells OutputDemo.session !! 1 = Some 3 ∧ cells s2 !! 1 = Some 5 ∧
  load_replay_page Demo.env 7 3 5 (conn s2) = Ret (s3, Err e).
Proof.
  eexists _, _, _. split; [vm_compute; reflexivity|].
  split; [refine (bool_decide_unpack _ _); vm_compute; exact I|].
  split; [|split; [vm_compute; reflexivity|]; split; [reflexivity|]; split; [vm_compute; reflexivity|]; vm_compute; reflexivity].
  destruct (refused_commit_loses_its_tail OutputDemo.heads OutputDemo.pressed_host OutputDemo.batch None
    OutputDemo.session OutputDemo.refused_session OutputDemo.over_policy Demo.file
    OutputDemo.is_clear OutputDemo.is_owned OutputDemo.fits ltac:(reflexivity) ltac:(vm_compute; reflexivity)
    ltac:(vm_compute; eexists; reflexivity) ltac:(reflexivity)) as (c & o & Hstaged & _ & Hdb & _).
  exists c, o. split; [exact Hstaged|exact Hdb].
Defined.

(** ** The demonstration store over its Run's limit *)

Module ReclaimDemo.
Import Demo TxDemo OutputDemo.
Definition host : SpaceEnv :=
  {| tx := OutputDemo.sound_host; page_counts := λ _, (10, 0, 10)%Z; page_size := λ _, 4096%Z;
     allocated_replay := λ _, 0; allocated := λ _ _, 0; available_bytes := λ _, Some 0;
     fresh_uuid := λ _ _, 9; stopping := λ _, false |}.
Definition session : Session :=
  set_effective {| effective_database_bytes := 0; effective_replay_bytes := 100; effective_run_bytes := 4 |}
    OutputDemo.session.
Lemma reclaim_is_clear : clear OutputDemo.heads session.
Proof. exact OutputDemo.is_clear. Qed.
Lemma reclaim_fits : file_fits session.
Proof. intros f Hf. cbn in Hf. rewrite Demo.file_is in Hf. injection Hf as <-. by vm_compute. Qed.
End ReclaimDemo.
Import Demo TxDemo OutputDemo.

Lemma reclamation_takes_the_front_witness : ∃ s',
  reclaim_output_prefix ReclaimDemo.host 7 Demo.replay ReclaimDemo.session = Ret (s', Ok true) ∧
  (total_replay (db (conn s')) < total_replay (db (conn ReclaimDemo.session)))%Z ∧
  evicts (conn ReclaimDemo.session) (conn s').
Proof.
  destruct (reclamation_takes_the_front OutputDemo.heads ReclaimDemo.host ReclaimDemo.session 7 Demo.replay
    ReclaimDemo.reclaim_is_clear ReclaimDemo.reclaim_fits ltac:(vm_compute; discriminate))
    as (s' & r & Hrun & _ & _ & Hr).
  assert (match reclaim_output_prefix ReclaimDemo.host 7 Demo.replay ReclaimDemo.session with
          | Ret (_, Ok true) => True | _ => False end) as Hok by (vm_compute; done).
  rewrite Hrun in Hok. destruct r as [[]|]; [|destruct Hok..]. destruct Hr as (row & _ & plan & _ & Hcut & _ & _ & He & _ & Ht).
  exists s'. split; [exact Hrun|]. split; [lia|exact He].
Defined.
