(* ===== verification/StoreCompactionProps.v ===== *)
(** * Properties of the compaction *)

From S2P Require Import Prelude.
From S2P Require Import Protocol.
From S2P Require Import Resources.
From S2P Require Import StorageErrors.
From S2P Require Import ReplayStore.
From S2P Require Import ReplayStoreSpec.
From S2P Require Import ReplayTables.
From S2P Require Import ReplayAppend.
From S2P Require Import ReplayPrune.
From S2P Require Import ReplayProps.
From S2P Require Import StoreTransaction.
From S2P Require Import StoreTransactionSpec.
From S2P Require Import StoreTransactionProps.
From S2P Require Import StoreAppend.
From S2P Require Import StoreAppendSpec.
From S2P Require Import StoreSession.
From S2P Require Import StoreReclaim.
From S2P Require Import StoreReclaimSession.
From S2P Require Import StoreCompaction.
From S2P Require Import StoreCompactionSpec.
From S2P Require Import StoreCompactionSession.
From S2P Require Import StoreCompactionOnce.
From S2P Require Import StoreAppendProps.

Section properties.
Context `{!UuidDisplay, !StateJson, !StorageCodes} (heads : gmap RunId Cell).

(** C17: compaction moves output and loses none.  Whatever the host fails, it ends.  Every
    Run's window reads the same from the rows and files it leaves, in the session and after a
    crash, even when the COMMIT of a batch is not known to have happened; no published
    watermark changes; and a forced compaction that is not limited to a batch leaves every row
    in the active file. *)
Theorem compaction_keeps_every_window env s batches (Hplain : plain_uuids) (Hfresh : fresh_names env) (Hready : ready heads s) :
  ∃ s' r, compact_replay_once env batches s = Ret (s', r) ∧ cells s' = cells s ∧
  (∀ id, window_of (durable_store s') id = window_of (conn s) id) ∧
  total_replay (durable s') = total_replay (db (conn s)) ∧
  match r with
  | Ok _ => ready heads s' ∧ (batches = None → force_compaction (compaction s) = true →
      ∀ row, row ∈ chunk_rows (db (conn s')) → row_file row = replay_file s')
  | Err e => standing heads s' ∧ (requires_reconciliation e = false → ready heads s')
  end.
Proof.
  destruct (wp_elim _ _ _ (compact_replay_once_spec env heads Hplain Hfresh batches s Hready)) as (s' & r & -> & Hr).
  exists s', r. split; [done|]. assert (cells s' = cells s ∧ repacked (conn s) (durable_store s')) as [Hc Hp].
  { destruct r as [[]|e]; [|split; apply Hr]. destruct Hr as (Hr' & Hp & _). destruct (halted_ready heads _ _ Hr' Hp). done. }
  split; [done|]. split; [intros id; by apply repacked_window|]. split; [by destruct (repacked_outlives _ _ Hp)|].
  destruct r as [[]|e].
  - destruct Hr as (Hr' & _ & Hw). split; [done|]. intros Hb Hf row Hrow.
    destruct (Hw (conj Hb Hf) row Hrow) as [?|Hin]; [done|by apply elem_of_nil in Hin].
  - destruct Hr as [Hh Hu]. split; [apply Hh|]. intros He. apply Hh. by apply Hu.
Qed.

(** C19: funding the next append always ends, whatever is observed of the file system: the loop
    that retires confirmed output and the compaction it may start, retried while the database
    is full, cannot go on for ever, and at its end the session is ready for the next append or
    waits for a reconciliation.  Every Run keeps its identity, its head and a suffix of its
    window. *)
Theorem storage_work_ends env s payload (Hplain : plain_uuids) (Hfresh : fresh_names env) (Hready : ready heads s) :
  ∃ s' r, prepare_storage_work env payload s = Ret (s', r) ∧ cells s' = cells s ∧ standing heads s' ∧
  heads_forward (db (conn s)) (durable s') ∧
  (unresolved s' = None → ready heads s' ∧ outlives (conn s) (conn s')).
Proof.
  destruct (wp_elim _ _ _ (prepare_storage_work_spec env heads Hplain Hfresh payload s Hready)) as (s' & r & -> & Hr).
  exists s', r. split; [done|]. destruct r as [[]|e].
  - destruct Hr as (Hr' & Hc & Ho). split; [done|]. split; [left; apply Hr'|].
    rewrite (clear_durable heads _ (proj1 Hr')). split; [by apply outlives_forward|done].
  - destruct Hr as (Hs & Hc & Hf & Hl). split; [done|]. split; [done|]. split; [done|]. intros Hu.
    destruct (Hl Hu) as (? & _ & ?). done.
Qed.
End properties.

(** ** The demonstration store, to be compacted *)

Module CompactDemo.
#[export] Instance display : UuidDisplay := λ id,
  String.string_of_list_ascii (replicate (N.to_nat id) (Ascii.ascii_of_nat 97)).
#[export] Existing Instance Demo.json.
#[export] Existing Instance TxDemo.codes.
(** The first identity whose file is not there. *)
Definition fresh_id (_ : nat) (c : Store) : RunId :=
  default 0 (head (filter (λ id, files c !! generation_name id = None) (map N.of_nat (seq 0 (S (size (files c))))))).
Definition host : SpaceEnv :=
  {| tx := OutputDemo.sound_host; page_counts := λ _, (10, 0, 10)%Z; page_size := λ _, 4096%Z;
     allocated_replay := λ _, 0; allocated := λ _ _, 0; available_bytes := λ _, Some 0;
     fresh_uuid := fresh_id; stopping := λ _, false |}.
Definition session : Session := set_compaction (set_force true (compaction OutputDemo.session)) OutputDemo.session.

Lemma shown id : String.list_ascii_of_string (show_run_id id) = replicate (N.to_nat id) (Ascii.ascii_of_nat 97).
Proof. apply String.list_ascii_of_string_of_list_ascii. Qed.
Lemma plain : plain_uuids.
Proof. intros id. rewrite shown. by intros [? _]%elem_of_replicate. Qed.
Lemma names_inj a b : generation_name a = generation_name b → a = b.
Proof.
  intros Hab%(f_equal String.list_ascii_of_string). unfold generation_name in Hab. rewrite !ascii_app, !shown in Hab.
  apply (f_equal length) in Hab. rewrite !length_app, !length_replicate in Hab. lia.
Qed.
Lemma is_fresh : fresh_names host.
Proof.
  intros t c. cbn. unfold fresh_id. set (ids := map N.of_nat _). destruct (filter _ ids) as [|id l] eqn:Hf.
  - exfalso. assert (∀ n, n ∈ ids → is_Some (files c !! generation_name n)) as Hall.
    { intros n Hn. destruct (files c !! generation_name n) eqn:Hfile; [done|].
      assert (n ∈ filter (λ id, files c !! generation_name id = None) ids) as Hin by (by apply list_elem_of_filter).
      rewrite Hf in Hin. by apply elem_of_nil in Hin. }
    set (names := list_to_set (map generation_name ids) : gset string).
    assert (size names = S (size (files c))) as Hsize.
    { unfold names. rewrite size_list_to_set; [unfold ids; by rewrite !length_map, length_seq|].
      apply NoDup_fmap_2; [intros ??; apply names_inj|]. apply NoDup_fmap_2; [intros ??; lia|]. apply NoDup_seq. }
    assert (names ⊆ dom (files c)) as Hsub.
    { intros n (m & -> & Hm)%elem_of_list_to_set%list_elem_of_fmap. apply elem_of_dom. by apply Hall. }
    apply subseteq_size in Hsub. rewrite size_dom in Hsub. lia.
  - cbn. assert (id ∈ filter (λ id, files c !! generation_name id = None) ids) as Hin by (rewrite Hf; by left).
    by apply list_elem_of_filter in Hin as [? _].
Qed.
Lemma is_ready : ready OutputDemo.heads session.
Proof. split; [exact OutputDemo.is_clear|]. split; [exact ReclaimDemo.reclaim_fits|by vm_compute]. Qed.
End CompactDemo.
Import CompactDemo.

Lemma compaction_keeps_every_window_witness : ∃ s' u,
  compact_replay_once CompactDemo.host None CompactDemo.session = Ret (s', Ok u) ∧
  replay_file s' ≠ replay_file CompactDemo.session ∧
  (∀ id, window_of (durable_store s') id = window_of (conn CompactDemo.session) id) ∧
  ∀ row, row ∈ chunk_rows (db (conn s')) → row_file row = replay_file s'.
Proof.
  destruct (compaction_keeps_every_window OutputDemo.heads CompactDemo.host CompactDemo.session None
    CompactDemo.plain CompactDemo.is_fresh CompactDemo.is_ready) as (s' & r & Hrun & _ & Hw & _ & Hr).
  assert (match compact_replay_once CompactDemo.host None CompactDemo.session with
          | Ret (s, Ok _) => replay_file s ≠ replay_file CompactDemo.session | _ => False end) as Hok by (vm_compute; congruence).
  rewrite Hrun in Hok. destruct r as [u|]; [|destruct Hok]. destruct Hr as [_ Hr].
  exists s', u. split; [exact Hrun|]. split; [exact Hok|]. split; [exact Hw|]. by apply Hr.
Defined.

Lemma storage_work_ends_witness : ∃ s' r,
  prepare_storage_work CompactDemo.host 1 CompactDemo.session = Ret (s', r) ∧
  heads_forward (db (conn CompactDemo.session)) (durable s').
Proof.
  destruct (storage_work_ends OutputDemo.heads CompactDemo.host CompactDemo.session 1
    CompactDemo.plain CompactDemo.is_fresh CompactDemo.is_ready) as (s' & r & Hrun & _ & _ & Hf & _).
  exists s', r. split; [exact Hrun|exact Hf].
Defined.
