(* ===== verification/ClientErrors.v ===== *)
(** * Client errors and receipts

    The failure type of [crates/ctxmux-client/src/lib.rs], the typed receipts it
    decodes from a daemon's answer, and the checks a receipt or a rejection has to
    pass before the client reports it.  [terminal_seed.rs] gives the local resource
    policy of one checkpoint download. *)

From S2P Require Import Prelude.
From S2P Require Import Protocol.
From S2P Require Import Wire.

(** ** Failures *)

Inductive LinesCodecError := MaxLineLengthExceeded | LinesIo (why : string).

Inductive AttachmentUnavailableReason :=
  | ObservationUnavailable | Detaching | ClosedAttachment | CommandIdsExhausted.
#[global] Instance AttachmentUnavailableReason_eq_dec : EqDecision AttachmentUnavailableReason.
Proof. solve_decision. Defined.

Inductive AttachmentUnknownReason :=
  | TransportTerminated | ProtocolViolation | ClosedLocally.
#[global] Instance AttachmentUnknownReason_eq_dec : EqDecision AttachmentUnknownReason.
Proof. solve_decision. Defined.

(** [TerminalSeedResourceError]; the allocator's own reason stays text. *)
Inductive TerminalSeedResourceError :=
  | RestoreLimit (requested_bytes limit_bytes : N)
  | HostByteCapacity (requested_bytes : N)
  | HostScrollbackCapacity (requested_rows : N)
  | Allocation (requested_bytes : N) (source : string).

Inductive ClientError :=
  | Connect (path source : string)
  | Closed
  | ForegroundObservationDeadline
  | Transport (e : LinesCodecError)
  | Frame (e : FrameError)
  | ProtocolFailure (code : ErrorCode) (message : string)
      (creation_failure : option CreationFailure) (storage_failure : option StorageFailure)
  | InvalidCapabilityRequirement (capability : string) (required_version : N)
      (source : RuntimeCapabilityVersionError)
  | UnsupportedCapabilityVersion (capability : string) (required_version : N)
      (advertised_version : option N)
  | RuntimeIdentityMismatch (expected actual : RuntimeIdentity)
  | ControlRejected (failure : ControlFailure)
  | ControlRequestUnknown (source : ClientError)
  | ControlNotApplied (source : ClientError)
  | AttachmentBackpressure (limit : string)
  | AttachmentUnavailable (reason : AttachmentUnavailableReason)
  | AttachmentCommandUnknown (command_id : N) (reason : AttachmentUnknownReason)
  | InvalidAttachmentEventLimits
  | AttachmentObservationUnavailable (payload_bytes envelope_bytes : N)
  | TerminalSeedResource (e : TerminalSeedResourceError)
  | ConcurrentEventRead
  | ProtocolContractViolation (why : string)
  | UnexpectedFrame (why : string).

Definition control_disposition (e : ClientError) : option CommandDisposition :=
  match e with
  | ControlRejected failure => Some (disposition failure)
  | ControlRequestUnknown _ | AttachmentCommandUnknown _ _ => Some Unknown
  | ControlNotApplied _ | AttachmentBackpressure _ | AttachmentUnavailable _
  | UnsupportedCapabilityVersion _ _ _ | RuntimeIdentityMismatch _ _ => Some NotApplied
  | Connect _ _ | Closed | ForegroundObservationDeadline | Transport _ | Frame _
  | ProtocolFailure _ _ _ _ | InvalidCapabilityRequirement _ _ _ | ConcurrentEventRead
  | InvalidAttachmentEventLimits | AttachmentObservationUnavailable _ _
  | TerminalSeedResource _ | ProtocolContractViolation _ | UnexpectedFrame _ => None
  end.

(** [From<ProtocolError> for ClientError] *)
Definition from_protocol_error (e : ProtocolError) : ClientError :=
  ProtocolFailure (code e) (message e) (creation_failure e) (storage_failure e).

Definition control_request_unknown (source : ClientError) : ClientError :=
  ControlRequestUnknown source.
Definition control_not_applied (source : ClientError) : ClientError :=
  match source with
  | UnsupportedCapabilityVersion _ _ _ | RuntimeIdentityMismatch _ _ => source
  | _ => ControlNotApplied source
  end.

(** ** Runtime identity and capabilities *)

Definition PROTOCOL_VERSION : N := 23.
Definition RUNTIME_CAPABILITY_FOREGROUND_OBSERVATION : string := "native.foreground_observation".
Definition RUNTIME_CAPABILITY_STORAGE_OBSERVATION : string := "services.storage_observation".
Definition RUNTIME_CAPABILITY_CREATION_OBSERVATION : string := "services.creation_observation".
Definition RUNTIME_CAPABILITY_NATIVE_RECOVERABLE_STOP : string := "native.recoverable_stop".

Definition validate_runtime_identity (runtime : RuntimeIdentity) : result unit ClientError :=
  if decide (protocol_generation runtime ≠ PROTOCOL_VERSION)
  then Err (UnexpectedFrame "expected compatible hello")
  else Ok tt.

(** [RuntimeCapabilityRequirements] is a [BTreeMap]: its entries in key order. *)
Abbreviation RuntimeCapabilityRequirements := (list (string * N)) (only parsing).

Fixpoint validate_required_capabilities (requirements : RuntimeCapabilityRequirements)
    : result unit ClientError :=
  match requirements with
  | [] => Ok tt
  | (capability, required_version) :: requirements =>
      let? _ := map_err (InvalidCapabilityRequirement capability required_version)
                  (validate_runtime_capability_version required_version) in
      validate_required_capabilities requirements
  end.

Fixpoint validate_runtime_capability_requirements (runtime : RuntimeIdentity)
    (requirements : RuntimeCapabilityRequirements) : result unit ClientError :=
  match requirements with
  | [] => Ok tt
  | (capability, required_version) :: requirements =>
      let advertised_version := capabilities runtime !! capability in
      let missing := match advertised_version with
                     | None => true | Some version => bool_decide (version < required_version)
                     end in
      if missing
      then Err (UnsupportedCapabilityVersion capability required_version advertised_version)
      else validate_runtime_capability_requirements runtime requirements
  end.

Definition require_recoverable_stop (runtime : RuntimeIdentity) : result unit ClientError :=
  let advertised_version := capabilities runtime !! RUNTIME_CAPABILITY_NATIVE_RECOVERABLE_STOP in
  let missing := match advertised_version with
                 | None => true | Some version => bool_decide (version < 1)
                 end in
  if missing
  then Err (UnsupportedCapabilityVersion RUNTIME_CAPABILITY_NATIVE_RECOVERABLE_STOP 1 advertised_version)
  else Ok tt.

(** ** Receipts *)

Module Receipt.
Record InputReceipt := { written_bytes : N }.
Record ResizeReceipt := { applied_size : TerminalSize }.
Record SignalReceipt := { signal : RunSignal }.
Record StopReceipt := { stop_disposition : StopDisposition }.
End Receipt.

Record ControlAccepted (R : Type) := { accepted_run : RunInfo; receipt : R }.
Arguments accepted_run {R}.
Arguments receipt {R}.

Definition decode_input_receipt (r : ControlReceipt) (expected_bytes : N)
    : result Receipt.InputReceipt ClientError :=
  match r with
  | InputReceipt written_bytes =>
      if decide (written_bytes = expected_bytes) then Ok {| Receipt.written_bytes := written_bytes |}
      else Err (ProtocolContractViolation "input receipt byte count differs from the command payload")
  | ResizeReceipt _ | SignalReceipt _ | StopReceipt _ =>
      Err (ProtocolContractViolation "input returned another receipt kind")
  end.

Definition decode_resize_receipt (r : ControlReceipt) : result Receipt.ResizeReceipt ClientError :=
  match r with
  | ResizeReceipt applied_size =>
      if bool_decide (cols applied_size ≠ 0) && bool_decide (rows applied_size ≠ 0)
      then Ok {| Receipt.applied_size := applied_size |}
      else Err (ProtocolContractViolation "resize receipt reported a zero applied dimension")
  | InputReceipt _ | SignalReceipt _ | StopReceipt _ =>
      Err (ProtocolContractViolation "resize returned another receipt kind")
  end.

Definition decode_stop_receipt (r : ControlReceipt) : result Receipt.StopReceipt ClientError :=
  match r with
  | StopReceipt disposition => Ok {| Receipt.stop_disposition := disposition |}
  | InputReceipt _ | ResizeReceipt _ | SignalReceipt _ =>
      Err (ProtocolContractViolation "stop returned another receipt kind")
  end.

Definition decode_signal_receipt (r : ControlReceipt) (expected : RunSignal)
    : result Receipt.SignalReceipt ClientError :=
  match r with
  | SignalReceipt signal =>
      if decide (signal = expected) then Ok {| Receipt.signal := signal |}
      else Err (ProtocolContractViolation "signal receipt differs from the requested signal")
  | InputReceipt _ | ResizeReceipt _ | StopReceipt _ =>
      Err (ProtocolContractViolation "signal returned another receipt kind")
  end.

(** A rejection that contradicts itself is no proof of anything. *)
Definition validate_control_failure (failure : ControlFailure) : result unit string :=
  if bool_decide (disposition failure = NotApplied) &&
     match confirmed_input_bytes failure with Some n => bool_decide (0 < n) | None => false end
  then Err "not_applied input cannot have a positive confirmed prefix"
  else if bool_decide (code (error failure) = ControlBackpressure) &&
          bool_decide (disposition failure ≠ NotApplied)
  then Err "control_backpressure must have not_applied disposition"
  else Ok tt.

Section short_control.
Context {R : Type} (decode_receipt : ControlReceipt → result R ClientError).

Definition decode_short_control (response : Response) : result (ControlAccepted R) ClientError :=
  match response with
  | RespControlAccepted run receipt =>
      map_err control_request_unknown
        (result_map (λ r, {| accepted_run := run; receipt := r |}) (decode_receipt receipt))
  | RespControlRejected failure =>
      let? _ := map_err (λ why, control_request_unknown (ProtocolContractViolation why))
                  (validate_control_failure failure) in
      Err (ControlRejected failure)
  | _ => Err (control_request_unknown (UnexpectedFrame "expected correlated control response"))
  end.
End short_control.

Definition decode_recoverable_stop_attachment_response (response : Response)
    : result (ControlAccepted Receipt.StopReceipt) ClientError :=
  match response with
  | RespControlAccepted _ _ => decode_short_control decode_stop_receipt response
  | RespControlRejected _ =>
      Err (control_request_unknown (ProtocolContractViolation
        "recoverable Stop attachment was rejected after its snapshot"))
  | _ => Err (control_request_unknown (UnexpectedFrame
        "expected recoverable Stop result after attached snapshot"))
  end.

(** ** The buffer of one checkpoint download *)

Record TerminalSeedLimits := { restore_bytes_limit : N }.
Definition TerminalSeedLimits_default : TerminalSeedLimits :=
  {| restore_bytes_limit := 32 * 1024 * 1024 |}.

(** [try_reserve_exact] of a [Vec<u8>]: the host's allocator, asked for [bytes]
    beyond the [used] ones, answers with a reason when it refuses. *)
Definition reserve_restore (allocator : N → N → option string) (used requested_bytes : N)
    (limits : TerminalSeedLimits) : result unit TerminalSeedResourceError :=
  if decide (restore_bytes_limit limits < requested_bytes)
  then Err (RestoreLimit requested_bytes (restore_bytes_limit limits))
  else if decide (usize_max < requested_bytes) then Err (HostByteCapacity requested_bytes)
  else match allocator used requested_bytes with
       | Some source => Err (Allocation requested_bytes source)
       | None => Ok tt
       end.
