(* ===== verification/ClientInbox.v ===== *)
(** * The client's event view

    [EventInbox] of [crates/ctxmux-client/src/attachment.rs]: the bounded view
    between the connection's reader and the one consumer of an attachment's events.
    Output that does not fit becomes a gap, an observation that does not fit ends
    the view with an explicit discontinuity. *)

From S2P Require Import Prelude.
From S2P Require Import Protocol.
From S2P Require Import Wire.
From S2P Require Import ClientErrors.

(** ** Limits *)

(** An event as it lies in memory: [room] is the allocated capacity of the buffer
    it owns (output data, a session name or a signal name). *)
Record Held := { event : RunEvent; room : N }.

Record AttachmentEventLimits := { payload_bytes : N; envelope_bytes : N }.
Definition AttachmentEventLimits_default : AttachmentEventLimits :=
  {| payload_bytes := MAX_FRAME_BYTES; envelope_bytes := MAX_FRAME_BYTES |}.

(** [size_of::<EventInbox>()], [size_of::<RunEvent>()] and what the host's allocator
    gives a queue of a given capacity that asks for more: its new capacity, or a
    refusal. *)
Record Host := {
  inbox_size : N;
  event_size : N;
  grow : N → N → option N;
}.
Definition isize_max : N := i64_max.

Definition limits_validate (host : Host) (l : AttachmentEventLimits) : result unit ClientError :=
  if bool_decide (payload_bytes l = 0) || bool_decide (envelope_bytes l < inbox_size host) ||
     match checked_add (payload_bytes l) (envelope_bytes l) with
     | Some n => bool_decide (isize_max < n) | None => true
     end
  then Err InvalidAttachmentEventLimits else Ok tt.

Definition event_envelope_payload_bytes (h : Held) : N :=
  match event h with
  | OutputEvent chunk => room h - len (data chunk)
  | Tmux (SessionRenamedEvent name) => room h - len name
  | ExitedEvent (Exited _ (Some _)) => room h
  | _ => 0
  end.
Definition event_bytes (h : Held) : N :=
  match event h with
  | OutputEvent chunk => len (data chunk)
  | Tmux (SessionRenamedEvent name) => len name
  | _ => 0
  end.

(** ** State *)

Inductive LocalObservationState := Available | LostMarkerPending | LostMarkerDelivered.
#[global] Instance LocalObservationState_eq_dec : EqDecision LocalObservationState.
Proof. solve_decision. Defined.

Record EventInbox := {
  queue : list Held;
  queue_capacity : N;
  queued_bytes : N;
  envelope_payload_bytes : N;
  pending_gap : option (N * OutputGapCauses);
  local_observation : LocalObservationState;
  terminal : option Held;
  saw_terminal : bool;
  saw_observation_discontinuity : bool;
  closed : bool;
  inbox_error : option ClientError;
  consumer_active : bool;
  limits : AttachmentEventLimits;
  observation_unavailable : bool;
}.

Definition with_limits (l : AttachmentEventLimits) : EventInbox :=
  {| queue := []; queue_capacity := 0; queued_bytes := 0; envelope_payload_bytes := 0;
     pending_gap := None; local_observation := Available; terminal := None;
     saw_terminal := false; saw_observation_discontinuity := false; closed := false;
     inbox_error := None; consumer_active := false; limits := l;
     observation_unavailable := false |}.

Definition set_queue (q : list Held) (s : EventInbox) : EventInbox :=
  {| queue := q; queue_capacity := queue_capacity s; queued_bytes := queued_bytes s;
     envelope_payload_bytes := envelope_payload_bytes s; pending_gap := pending_gap s;
     local_observation := local_observation s; terminal := terminal s;
     saw_terminal := saw_terminal s;
     saw_observation_discontinuity := saw_observation_discontinuity s; closed := closed s;
     inbox_error := inbox_error s; consumer_active := consumer_active s; limits := limits s;
     observation_unavailable := observation_unavailable s |}.
Definition set_capacity (c : N) (s : EventInbox) : EventInbox :=
  {| queue := queue s; queue_capacity := c; queued_bytes := queued_bytes s;
     envelope_payload_bytes := envelope_payload_bytes s; pending_gap := pending_gap s;
     local_observation := local_observation s; terminal := terminal s;
     saw_terminal := saw_terminal s;
     saw_observation_discontinuity := saw_observation_discontinuity s; closed := closed s;
     inbox_error := inbox_error s; consumer_active := consumer_active s; limits := limits s;
     observation_unavailable := observation_unavailable s |}.
Definition set_bytes (b e : N) (s : EventInbox) : EventInbox :=
  {| queue := queue s; queue_capacity := queue_capacity s; queued_bytes := b;
     envelope_payload_bytes := e; pending_gap := pending_gap s;
     local_observation := local_observation s; terminal := terminal s;
     saw_terminal := saw_terminal s;
     saw_observation_discontinuity := saw_observation_discontinuity s; closed := closed s;
     inbox_error := inbox_error s; consumer_active := consumer_active s; limits := limits s;
     observation_unavailable := observation_unavailable s |}.
Definition set_marks g o t st sd c er un (s : EventInbox) : EventInbox :=
  {| queue := queue s; queue_capacity := queue_capacity s; queued_bytes := queued_bytes s;
     envelope_payload_bytes := envelope_payload_bytes s; pending_gap := g;
     local_observation := o; terminal := t; saw_terminal := st;
     saw_observation_discontinuity := sd; closed := c; inbox_error := er;
     consumer_active := consumer_active s; limits := limits s;
     observation_unavailable := un |}.
Definition set_pending_gap (g : option (N * OutputGapCauses)) (s : EventInbox) : EventInbox :=
  set_marks g (local_observation s) (terminal s) (saw_terminal s) (saw_observation_discontinuity s)
    (closed s) (inbox_error s) (observation_unavailable s) s.
Definition set_terminal (t : option Held) (s : EventInbox) : EventInbox :=
  set_marks (pending_gap s) (local_observation s) t (saw_terminal s)
    (saw_observation_discontinuity s) (closed s) (inbox_error s) (observation_unavailable s) s.
Definition set_saw_terminal (s : EventInbox) : EventInbox :=
  set_marks (pending_gap s) (local_observation s) (terminal s) true
    (saw_observation_discontinuity s) (closed s) (inbox_error s) (observation_unavailable s) s.
Definition set_saw_discontinuity (s : EventInbox) : EventInbox :=
  set_marks (pending_gap s) (local_observation s) (terminal s) (saw_terminal s) true
    (closed s) (inbox_error s) (observation_unavailable s) s.
Definition set_local_observation (o : LocalObservationState) (s : EventInbox) : EventInbox :=
  set_marks (pending_gap s) o (terminal s) (saw_terminal s) (saw_observation_discontinuity s)
    (closed s) (inbox_error s) (observation_unavailable s) s.
Definition set_error (e : option ClientError) (s : EventInbox) : EventInbox :=
  set_marks (pending_gap s) (local_observation s) (terminal s) (saw_terminal s)
    (saw_observation_discontinuity s) (closed s) e (observation_unavailable s) s.
Definition set_consumer_active (b : bool) (s : EventInbox) : EventInbox :=
  {| queue := queue s; queue_capacity := queue_capacity s; queued_bytes := queued_bytes s;
     envelope_payload_bytes := envelope_payload_bytes s; pending_gap := pending_gap s;
     local_observation := local_observation s; terminal := terminal s;
     saw_terminal := saw_terminal s;
     saw_observation_discontinuity := saw_observation_discontinuity s; closed := closed s;
     inbox_error := inbox_error s; consumer_active := b; limits := limits s;
     observation_unavailable := observation_unavailable s |}.

(** ** Retaining an event *)

Section inbox.
Context (host : Host).

Definition mark_observation_loss (s : EventInbox) : EventInbox :=
  set_marks (pending_gap s) LostMarkerPending (terminal s) (saw_terminal s)
    (saw_observation_discontinuity s) true
    (Some (AttachmentObservationUnavailable (payload_bytes (limits s)) (envelope_bytes (limits s))))
    true s.

(** [VecDeque::push_back]: a full queue reallocates, which the code never lets
    happen; the model stops there. *)
Definition push_back (h : Held) (s : EventInbox) : outcome EventInbox :=
  let! _ := check "event queue grew without funding" (bool_decide (len (queue s) < queue_capacity s)) in
  Ret (set_queue (queue s ++ [h]) s).

(** The queue's capacity after [try_reserve_exact(target - len)]; [None] when the
    allocator refuses. *)
Definition try_reserve_exact (target : N) (s : EventInbox) : option EventInbox :=
  if decide (target ≤ queue_capacity s) then Some s
  else match grow host (queue_capacity s) target with
       | Some capacity => Some (set_capacity capacity s)
       | None => None
       end.

Definition reserve_slots (additional payload : N) (s : EventInbox) : EventInbox * bool :=
  match checked_add (len (queue s)) additional, checked_add (envelope_payload_bytes s) payload with
  | Some required, Some extra =>
      match checked_sub (envelope_bytes (limits s)) (inbox_size host) ≫= λ n, checked_sub n extra with
      | Some available =>
          let maximum := available / event_size host in
          if bool_decide (maximum < required) || bool_decide (maximum < queue_capacity s)
          then (s, false)
          else if decide (queue_capacity s < required)
          then
            let target := N.min (N.max (saturating_mul (queue_capacity s) 2) required) maximum in
            match try_reserve_exact target s with
            | None => (s, false)
            | Some s => if decide (maximum < queue_capacity s) then (s, false) else (s, true)
            end
          else (s, true)
      | None => (s, false)
      end
  | _, _ => (s, false)
  end.

(** A newer snapshot of the same unsettled command replaces the one the consumer
    has not read yet. *)
Definition advances (previous next : NativeServiceSnapshot) : bool :=
  negb (bool_decide (revision next ≤ revision previous)
   || bool_decide (owner next ≠ owner previous)
   || bool_decide (output next ≠ output previous)
   || bool_decide (terminal_fault next ≠ terminal_fault previous)
   || bool_decide (input_phase (input next) ≠ input_phase (input previous))
   || bool_decide (unsettled_commands (input next) = 0)
   || bool_decide (unsettled_commands (input next) ≠ unsettled_commands (input previous))
   || bool_decide (unsettled_request_bytes (input next) ≠ unsettled_request_bytes (input previous))
   || bool_decide (write_blocked (input next) ≠ write_blocked (input previous))
   || bool_decide (completed_input_bytes (input next) ≠ completed_input_bytes (input previous))
   || bool_decide (current_size (input next) ≠ current_size (input previous))
   || bool_decide (active_confirmed_bytes (input next) ≤ active_confirmed_bytes (input previous))).

Definition replace_input_progress (h : Held) (s : EventInbox) : option EventInbox :=
  match pending_gap s, event h, last (queue s) with
  | None, ServiceChanged next, Some previous =>
      match event previous with
      | ServiceChanged service =>
          if advances service next
          then Some (set_queue (take (length (queue s) - 1) (queue s) ++
                                  [{| event := ServiceChanged next; room := room previous |}]) s)
          else None
      | _ => None
      end
  | _, _, _ => None
  end.

Definition gap_event (g : N * OutputGapCauses) : Held := {| event := Gap g.1 g.2; room := 0 |}.

Definition retain_pending_gap (s : EventInbox) : outcome EventInbox :=
  match pending_gap s with
  | Some g => push_back (gap_event g) (set_pending_gap None s)
  | None => Ret s
  end.

(** The window's refusal: too many payload bytes, or no slot funded. *)
Definition fund (h : Held) (s : EventInbox) : EventInbox * bool :=
  match checked_add (queued_bytes s) (event_bytes h) with
  | Some total =>
      if decide (payload_bytes (limits s) < total) then (s, false)
      else reserve_slots (1 + (if pending_gap s is Some _ then 1 else 0)) (event_envelope_payload_bytes h) s
  | None => (s, false)
  end.

Definition append_event (h : Held) (s : EventInbox) : outcome EventInbox :=
  let! s := retain_pending_gap s in
  let! queued := plus_u64 (queued_bytes s) (event_bytes h) in
  let! envelope := plus_u64 (envelope_payload_bytes s) (event_envelope_payload_bytes h) in
  push_back h (set_bytes queued envelope s).

(** The terminal event outside the queue: behind the gap that precedes it, or with
    no slot left. *)
Definition keep_terminal (h : Held) (s : EventInbox) : outcome EventInbox :=
  let envelope := event_envelope_payload_bytes h in
  let! backing := expect "attempt to multiply with overflow"
                    (checked_mul (queue_capacity s) (event_size host)) in
  let funded := checked_add (inbox_size host) backing ≫= λ n,
                checked_add n (envelope_payload_bytes s) ≫= λ n, checked_add n envelope in
  match funded with
  | Some n =>
      if decide (n ≤ envelope_bytes (limits s)) then
        let! total := plus_u64 (envelope_payload_bytes s) envelope in
        Ret (set_terminal (Some h) (set_bytes (queued_bytes s) total s))
      else Ret (mark_observation_loss s)
  | None => Ret (mark_observation_loss s)
  end.

Definition retain_terminal (h : Held) (s : EventInbox) : outcome EventInbox :=
  let s := set_saw_terminal s in
  let envelope := event_envelope_payload_bytes h in
  let '(s, slot) := if pending_gap s is Some _ then (s, false) else
                    if terminal s is Some _ then (s, false) else reserve_slots 1 envelope s in
  if slot : bool then
    let! total := plus_u64 (envelope_payload_bytes s) envelope in
    push_back h (set_bytes (queued_bytes s) total s)
  else keep_terminal h s.

Definition add_gap (head : N) (causes : OutputGapCauses) (s : EventInbox) : EventInbox :=
  let '(known, previous) := default (0, OutputGapCauses.NONE) (pending_gap s) in
  set_pending_gap (Some (N.max known head, OutputGapCauses.union previous causes)) s.

Definition CLIENT_VIEW_PRESSURE : OutputGapCauses :=
  {| live_event_pressure := false; subscriber_lag := false; source_discontinuity := false;
     terminal_catchup := false; geometry_lag := false; client_view_pressure := true;
     unknown_cause := false |}.

Definition is_terminal (e : RunEvent) : bool :=
  match e with ExitedEvent _ | InterruptedEvent _ => true | _ => false end.

(** The lock's body for one event that the view can still retain. *)
Definition retain (h : Held) (s : EventInbox) : outcome EventInbox :=
  match event h with
  | OutputEvent chunk =>
      let '(s, funded) := fund h s in
      if funded then append_event h s
      else Ret (add_gap (end_byte chunk) CLIENT_VIEW_PRESSURE s)
  | Gap latest_output_bytes causes => Ret (add_gap latest_output_bytes causes s)
  | ExitedEvent _ | InterruptedEvent _ => retain_terminal h s
  | ServiceChanged _ | Tmux _ | ObservationDiscontinuity | Resized _ _ _ =>
      let s := match event h with
               | ObservationDiscontinuity => set_saw_discontinuity s | _ => s
               end in
      let '(s, funded) := fund h s in
      if funded then append_event h s else Ret (mark_observation_loss s)
  end.

Definition push (h : Held) (s : EventInbox) : outcome (EventInbox * result unit string) :=
  if closed s && bool_decide (local_observation s = Available)
  then Ret (s, Err "daemon sent an event after attachment termination")
  else if saw_terminal s then Ret (s, Err "daemon sent an event after terminal lifecycle")
  else if saw_observation_discontinuity s && negb (is_terminal (event h))
  then Ret (s, Err "daemon sent a non-terminal event after observation discontinuity")
  else if negb (bool_decide (local_observation s = Available)) then
    Ret (match event h with
         | ExitedEvent _ | InterruptedEvent _ => set_saw_terminal s
         | ObservationDiscontinuity => set_saw_discontinuity s
         | _ => s
         end, Ok tt)
  else match replace_input_progress h s with
       | Some s => Ret (s, Ok tt)
       | None => let! s := retain h s in Ret (s, Ok tt)
       end.

Definition accepts_clean_eof (s : EventInbox) : bool :=
  saw_terminal s || saw_observation_discontinuity s.

Definition close (e : option ClientError) (s : EventInbox) : EventInbox :=
  if closed s then s
  else set_marks (pending_gap s) (local_observation s) (terminal s) (saw_terminal s)
         (saw_observation_discontinuity s) true e (observation_unavailable s) s.

(** ** Reading *)

(** What one turn of the consumer's loop returns; [Waiting] sleeps until the next
    notification and turns again. *)
Inductive Turn := Delivered (e : Held) | Ended | Failed (e : ClientError) | Waiting.

Definition take_next (s : EventInbox) : outcome (EventInbox * Turn) :=
  match queue s with
  | h :: rest =>
      let! queued := minus_u64 (queued_bytes s) (event_bytes h) in
      let! envelope := minus_u64 (envelope_payload_bytes s) (event_envelope_payload_bytes h) in
      Ret (set_bytes queued envelope (set_queue rest s), Delivered h)
  | [] =>
      match pending_gap s with
      | Some g => Ret (set_pending_gap None s, Delivered (gap_event g))
      | None =>
          if decide (local_observation s = LostMarkerPending) then
            Ret (set_local_observation LostMarkerDelivered s,
                 Delivered {| event := ObservationDiscontinuity; room := 0 |})
          else match terminal s with
               | Some h =>
                   let! envelope := minus_u64 (envelope_payload_bytes s) (event_envelope_payload_bytes h) in
                   Ret (set_bytes (queued_bytes s) envelope (set_terminal None s), Delivered h)
               | None =>
                   match inbox_error s with
                   | Some e => Ret (set_error None s, Failed e)
                   | None => Ret (s, if closed s then Ended else Waiting)
                   end
               end
      end
  end.

(** [EventConsumerGuard::acquire]; dropping the guard clears the flag. *)
Definition acquire (s : EventInbox) : EventInbox * result unit ClientError :=
  if consumer_active s then (s, Err ConcurrentEventRead) else (set_consumer_active true s, Ok tt).

(** [next], up to the point where it returns or goes to sleep.  A sleeping reader
    keeps its guard. *)
Definition next (s : EventInbox) : outcome (EventInbox * Turn) :=
  match acquire s with
  | (s, Err e) => Ret (s, Failed e)
  | (s, Ok _) =>
      let! '(s, turn) := take_next s in
      Ret (match turn with Waiting => s | _ => set_consumer_active false s end, turn)
  end.
(** The sleeping reader, woken. *)
Definition wake (s : EventInbox) : outcome (EventInbox * Turn) :=
  let! '(s, turn) := take_next s in
  Ret (match turn with Waiting => s | _ => set_consumer_active false s end, turn).
End inbox.

(** ** The view's contract *)

(** What the host promises: an event takes space, a queue that grows gets at least
    what it asked for, and an allocation is addressable. *)
Record host_ok (host : Host) : Prop := {
  ho_event : 0 < event_size host;
  ho_grow : ∀ c t c', grow host c t = Some c' → t ≤ c' ∧ c' * event_size host ≤ isize_max;
}.
(** An allocator that gives exactly what it is asked. *)
Definition exact_host (host : Host) : Prop := ∀ c t c', grow host c t = Some c' → c' = t.

Definition gap_list (s : EventInbox) : list Held :=
  match pending_gap s with Some g => [gap_event g] | None => [] end.
Definition terminal_list (s : EventInbox) : list Held :=
  match terminal s with Some h => [h] | None => [] end.
Definition marker_list (s : EventInbox) : list Held :=
  if decide (local_observation s = LostMarkerPending)
  then [{| event := ObservationDiscontinuity; room := 0 |}] else [].
(** What the consumer has yet to read, in the order it will. *)
Definition unread (s : EventInbox) : list Held :=
  queue s ++ gap_list s ++ marker_list s ++ terminal_list s.

Definition funded (host : Host) (s : EventInbox) : Prop :=
  inbox_size host + queue_capacity s * event_size host + envelope_payload_bytes s
  ≤ envelope_bytes (limits s).

Record windows (host : Host) (s : EventInbox) : Prop := {
  wi_limits : limits_validate host (limits s) = Ok tt;
  wi_payload : queued_bytes s = sumN event_bytes (queue s);
  wi_payload_le : queued_bytes s ≤ payload_bytes (limits s);
  wi_envelope : envelope_payload_bytes s =
    sumN event_envelope_payload_bytes (queue s) + sumN event_envelope_payload_bytes (terminal_list s);
  wi_envelope_le : envelope_payload_bytes s ≤ envelope_bytes (limits s);
  wi_slots : len (queue s) ≤ queue_capacity s;
  wi_capacity : queue_capacity s * event_size host ≤ isize_max;
  wi_funded : exact_host host → funded host s;
}.

Record order (s : EventInbox) : Prop := {
  or_terminal : terminal s ≠ None → saw_terminal s = true ∧ local_observation s = Available;
  or_lost : local_observation s ≠ Available → closed s = true;
  or_read : local_observation s = LostMarkerDelivered → queue s = [] ∧ pending_gap s = None;
}.

Section view.
Context (host : Host) (Hhost : host_ok host).
Implicit Types (s : EventInbox) (h : Held).

Lemma set_capacity_id s : set_capacity (queue_capacity s) s = s.
Proof. by destruct s. Qed.

Lemma limits_valid l : limits_validate host l = Ok tt →
  inbox_size host ≤ envelope_bytes l ∧ payload_bytes l + envelope_bytes l ≤ isize_max.
Proof.
  unfold limits_validate, checked_add. intros Hl.
  destruct (bool_decide (payload_bytes l = 0)) eqn:K1; [done|].
  destruct (bool_decide (envelope_bytes l < inbox_size host)) eqn:K2; [done|]. cbn [orb] in Hl.
  apply bool_decide_eq_false in K2. case_decide; [|done].
  case_bool_decide; [done|]. lia.
Qed.
Lemma isize_fits : isize_max ≤ u64_max.
Proof. by vm_compute. Qed.

(** A reservation changes the capacity only; a granted one has the slots and pays
    for them. *)
Lemma reserve_slots_spec additional payload s : windows host s →
  ∃ c ok, reserve_slots host additional payload s = (set_capacity c s, ok) ∧
    queue_capacity s ≤ c ∧ c * event_size host ≤ isize_max ∧
    (exact_host host → funded host (set_capacity c s)) ∧
    (ok = true → len (queue s) + additional ≤ c ∧
       inbox_size host + c * event_size host + envelope_payload_bytes s + payload
       ≤ envelope_bytes (limits s)).
Proof.
  intros Hw. pose proof (wi_capacity _ _ Hw) as Hc. pose proof (wi_funded _ _ Hw) as Hf.
  pose proof (ho_event _ Hhost) as Hev.
  assert (∃ c ok, (s, false) = (set_capacity c s, ok) ∧ queue_capacity s ≤ c ∧
    c * event_size host ≤ isize_max ∧ (exact_host host → funded host (set_capacity c s)) ∧
    (ok = true → len (queue s) + additional ≤ c ∧
       inbox_size host + c * event_size host + envelope_payload_bytes s + payload
       ≤ envelope_bytes (limits s))) as Hno.
  { exists (queue_capacity s), false. by rewrite set_capacity_id. }
  unfold reserve_slots. destruct (checked_add _ additional) as [required|] eqn:K1; [|done].
  destruct (checked_add _ payload) as [extra|] eqn:K2; [|done].
  destruct (checked_sub _ _ ≫= _) as [available|] eqn:K3; [|done].
  apply checked_add_Some in K1 as [-> _], K2 as [-> _].
  apply bind_Some in K3 as (n & [-> Hn]%checked_sub_Some & [-> Hroom]%checked_sub_Some).
  set (maximum := (envelope_bytes (limits s) - inbox_size host - (envelope_payload_bytes s + payload)) / event_size host).
  assert (maximum * event_size host ≤ envelope_bytes (limits s) - inbox_size host - (envelope_payload_bytes s + payload)) as Hmax.
  { rewrite N.mul_comm. apply N.Div0.mul_div_le. }
  assert (∀ c, c ≤ maximum → inbox_size host + c * event_size host + envelope_payload_bytes s + payload
     ≤ envelope_bytes (limits s)) as Hpaid.
  { intros c Hle. apply (N.mul_le_mono_r _ _ (event_size host)) in Hle. clearbody maximum. lia. }
  clearbody maximum.
  destruct (bool_decide _) eqn:K4; [done|]. destruct (bool_decide (maximum < queue_capacity s)) eqn:K5; [done|].
  apply bool_decide_eq_false in K4, K5. cbn [orb]. case_decide as K6.
  2: { exists (queue_capacity s), true. rewrite set_capacity_id.
    split; [done|]. split; [done|]. split; [done|]. split; [done|]. intros _. split; [lia|]. apply Hpaid. lia. }
  unfold try_reserve_exact. case_decide as K7; [lia|].
  destruct (grow host _ _) as [c|] eqn:Hg; [|done]. destruct (ho_grow _ Hhost _ _ _ Hg) as [Hle Hadd].
  case_decide as K8; change (queue_capacity (set_capacity c s)) with c in K8.
  - exists c, false. split; [done|]. split; [lia|]. split; [done|]. split; [|done].
    intros Hx. specialize (Hx _ _ _ Hg). lia.
  - exists c, true. split; [done|]. split; [lia|]. split; [done|]. split.
    + intros _. unfold funded. cbn. specialize (Hpaid c ltac:(lia)). lia.
    + intros _. split; [lia|]. apply Hpaid. lia.
Qed.

Lemma fund_spec h s : windows host s →
  ∃ c ok, fund host h s = (set_capacity c s, ok) ∧
    queue_capacity s ≤ c ∧ c * event_size host ≤ isize_max ∧
    (exact_host host → funded host (set_capacity c s)) ∧
    (ok = true → len (queue s ++ gap_list s) + 1 ≤ c ∧
       queued_bytes s + event_bytes h ≤ payload_bytes (limits s) ∧
       inbox_size host + c * event_size host + envelope_payload_bytes s + event_envelope_payload_bytes h
       ≤ envelope_bytes (limits s)).
Proof.
  intros Hw. unfold fund, checked_add.
  assert (∃ c ok, (s, false) = (set_capacity c s, ok) ∧ queue_capacity s ≤ c ∧
    c * event_size host ≤ isize_max ∧ (exact_host host → funded host (set_capacity c s)) ∧
    (ok = true → len (queue s ++ gap_list s) + 1 ≤ c ∧
       queued_bytes s + event_bytes h ≤ payload_bytes (limits s) ∧
       inbox_size host + c * event_size host + envelope_payload_bytes s + event_envelope_payload_bytes h
       ≤ envelope_bytes (limits s))) as Hno.
  { exists (queue_capacity s), false. rewrite set_capacity_id.
    split; [done|]. split; [done|]. split; [apply Hw|]. split; [apply Hw|done]. }
  case_decide as K1; [|done]. case_decide as K2; [done|].
  destruct (reserve_slots_spec (1 + (if pending_gap s is Some _ then 1 else 0)) (event_envelope_payload_bytes h) s Hw)
    as (c & ok & -> & Hle & Hadd & Hf & Hok).
  exists c, ok. split; [done|]. split; [done|]. split; [done|]. split; [done|]. intros Ht. destruct (Hok Ht) as [Hlen Hpay].
  split; [|split; [lia|done]]. revert Hlen. rewrite len_app. unfold gap_list.
  destruct (pending_gap s); autorewrite with lens; lia.
Qed.

Lemma append_event_eq h s : len (queue s ++ gap_list s) + 1 ≤ queue_capacity s →
  queued_bytes s + event_bytes h ≤ u64_max →
  envelope_payload_bytes s + event_envelope_payload_bytes h ≤ u64_max →
  append_event h s = Ret (set_queue ((queue s ++ gap_list s) ++ [h])
    (set_bytes (queued_bytes s + event_bytes h) (envelope_payload_bytes s + event_envelope_payload_bytes h)
       (set_pending_gap None s))).
Proof.
  intros Hslots Hq He. unfold append_event, retain_pending_gap, gap_list in *. destruct (pending_gap s) as [g|] eqn:Hg.
  - rewrite len_app, len_cons, len_nil in Hslots. unfold push_back, check. cbn.
    rewrite bool_decide_true by lia. cbn. unfold plus_u64, checked_add. rewrite !decide_True by done. cbn.
    rewrite bool_decide_true by (rewrite len_app, len_cons, len_nil; lia). cbn. by destruct s.
  - rewrite app_nil_r in *. cbn. unfold plus_u64, checked_add. rewrite !decide_True by done. cbn.
    unfold push_back, check. cbn. rewrite bool_decide_true by lia. cbn. destruct s; cbn in *. by subst.
Qed.

Lemma windows_same s s' : windows host s → limits s' = limits s → queue s' = queue s →
  queue_capacity s' = queue_capacity s → queued_bytes s' = queued_bytes s →
  envelope_payload_bytes s' = envelope_payload_bytes s → terminal s' = terminal s → windows host s'.
Proof.
  intros [] E1 E2 E3 E4 E5 E6. unfold funded, terminal_list in *.
  constructor; unfold funded, terminal_list; rewrite ?E1, ?E2, ?E3, ?E4, ?E5, ?E6; done.
Qed.
Lemma windows_grown c s : windows host s → queue_capacity s ≤ c → c * event_size host ≤ isize_max →
  (exact_host host → funded host (set_capacity c s)) → windows host (set_capacity c s).
Proof. intros [] Hle Hadd Hf. constructor; cbn [set_capacity limits queue queue_capacity queued_bytes envelope_payload_bytes terminal]; try done. lia. Qed.

(** ** What a push does to the view *)

(** What a gap says about an event it stands for. *)
Definition gap_facts (e : RunEvent) : option (N * OutputGapCauses) :=
  match e with
  | OutputEvent chunk => Some (end_byte chunk, CLIENT_VIEW_PRESSURE)
  | Gap head causes => Some (head, causes)
  | _ => None
  end.

(** One event enters a view that shows [v]; the flag says that the view has already
    told its reader of a loss. *)
Inductive tell (e : RunEvent) : bool → list RunEvent → bool → list RunEvent → Prop :=
  | tell_kept v : tell e false v false (v ++ [e])
  | tell_advanced v previous next : e = ServiceChanged next → advances previous next = true →
      tell e false (v ++ [ServiceChanged previous]) false (v ++ [ServiceChanged next])
  | tell_gap v head causes : gap_facts e = Some (head, causes) →
      tell e false v false (v ++ [Gap head causes])
  | tell_wider v known previous head causes : gap_facts e = Some (head, causes) →
      tell e false (v ++ [Gap known previous]) false
        (v ++ [Gap (N.max known head) (OutputGapCauses.union previous causes)])
  | tell_loss v : gap_facts e = None → tell e false v true (v ++ [ObservationDiscontinuity])
  | tell_after v : tell e true v true v.

Lemma tell_app e d b v b' v' : tell e b v b' v' → tell e b (d ++ v) b' (d ++ v').
Proof. destruct 1; rewrite ?(assoc_L app); by econstructor. Qed.

Definition lost (s : EventInbox) : bool := negb (bool_decide (local_observation s = Available)).
Definition view (s : EventInbox) : list RunEvent := map event (unread s).

(** What an inbox operation on one event ends in. *)
Definition told (h : Held) (s s' : EventInbox) : Prop :=
  windows host s' ∧ order s' ∧ limits s' = limits s ∧ consumer_active s' = consumer_active s ∧
  tell (event h) (lost s) (view s) (lost s') (view s').

Lemma unread_open s : order s → saw_terminal s = false → local_observation s = Available →
  unread s = queue s ++ gap_list s ∧ terminal s = None.
Proof.
  intros Ho Hsaw Ha. assert (terminal s = None) as Ht.
  { destruct (terminal s) eqn:Ht; [|done]. destruct (or_terminal _ Ho); congruence. }
  split; [|done]. unfold unread, marker_list, terminal_list. rewrite Ht, Ha. by rewrite !app_nil_r.
Qed.

Lemma union_NONE c : OutputGapCauses.union OutputGapCauses.NONE c = c.
Proof. by destruct c. Qed.

Lemma add_gap_told h head causes s : windows host s → order s → saw_terminal s = false →
  local_observation s = Available → gap_facts (event h) = Some (head, causes) →
  told h s (add_gap head causes s).
Proof.
  intros Hw Ho Hsaw Ha Hg. destruct (unread_open _ Ho Hsaw Ha) as [Hu Ht].
  unfold add_gap. destruct (default _ _) as [known previous] eqn:Hd.
  split; [by apply (windows_same s)|]. split; [destruct Ho; constructor; cbn; [done..|congruence]|].
  split; [done|]. split; [done|]. unfold view, lost. cbn [set_pending_gap local_observation]. cbn. rewrite Hu.
  unfold unread, gap_list, marker_list, terminal_list. cbn. rewrite Ht, Ha. cbn. rewrite app_nil_r, !map_app.
  unfold gap_list. destruct (pending_gap s) as [[k p]|]; cbn in Hd; injection Hd as <- <-; cbn.
  - by apply tell_wider.
  - rewrite app_nil_r, N.max_0_l, union_NONE. by apply tell_gap.
Qed.

Lemma mark_loss_told h s : windows host s → order s → local_observation s = Available →
  terminal s = None → gap_facts (event h) = None → told h s (mark_observation_loss s).
Proof.
  intros Hw Ho Ha Ht Hg. split; [by apply (windows_same s)|].
  split; [destruct Ho; constructor; cbn; naive_solver|]. split; [done|]. split; [done|].
  unfold view, lost, unread, gap_list, marker_list, terminal_list. cbn. rewrite Ha, Ht. cbn.
  rewrite !app_nil_r, !map_app, app_assoc. by apply tell_loss.
Qed.

Lemma append_told h s : windows host s → order s → saw_terminal s = false →
  local_observation s = Available → is_terminal (event h) = false →
  len (queue s ++ gap_list s) + 1 ≤ queue_capacity s →
  queued_bytes s + event_bytes h ≤ payload_bytes (limits s) →
  inbox_size host + queue_capacity s * event_size host + envelope_payload_bytes s +
    event_envelope_payload_bytes h ≤ envelope_bytes (limits s) →
  ∃ s', append_event h s = Ret s' ∧ told h s s'.
Proof.
  intros Hw Ho Hsaw Ha Hlive Hslots Hq He. destruct (unread_open _ Ho Hsaw Ha) as [Hu Ht].
  destruct (limits_valid _ (wi_limits _ _ Hw)) as [_ Hval]. pose proof isize_fits as Hfit.
  eexists. split; [apply append_event_eq; [done|lia|lia]|].
  assert (terminal_list s = []) as Hnone by (unfold terminal_list; by rewrite Ht).
  assert (sumN event_bytes (gap_list s) = 0 ∧ sumN event_envelope_payload_bytes (gap_list s) = 0) as [Hg1 Hg2].
  { unfold gap_list. destruct (pending_gap s) as [[]|]; done. }
  split.
  { destruct Hw. constructor; cbn [set_queue set_bytes set_pending_gap set_marks limits queue queue_capacity queued_bytes
      envelope_payload_bytes terminal]; try done.
    - rewrite !sumN_app, sumN_cons, sumN_nil. lia.
    - change (terminal_list _) with (terminal_list s). rewrite Hnone in *.
      rewrite !sumN_app, sumN_cons, !sumN_nil. rewrite sumN_nil in wi_envelope0. lia.
    - lia.
    - rewrite len_app, len_cons, len_nil. lia.
    - intros Hx. unfold funded. cbn [set_queue set_bytes set_pending_gap set_marks queue_capacity envelope_payload_bytes limits]. lia. }
  split; [destruct Ho; constructor; cbn; [done..|congruence]|]. split; [done|]. split; [done|].
  unfold view, lost. cbn [set_queue set_bytes set_pending_gap set_marks local_observation]. rewrite Hu.
  unfold unread, marker_list. cbn [set_queue set_bytes set_pending_gap set_marks local_observation queue]. rewrite Ha.
  rewrite decide_False by done. change (terminal_list _) with (terminal_list s). rewrite Hnone. cbn.
  rewrite app_nil_r, !(map_app _ _ [h]). apply tell_kept.
Qed.
Lemma told_grown h s c s' : told h (set_capacity c s) s' → told h s s'.
Proof. done. Qed.
Lemma told_saw h s s' : told h (set_saw_discontinuity s) s' → told h s s'.
Proof. done. Qed.
Lemma order_same s s' : order s → terminal s' = terminal s → (saw_terminal s = true → saw_terminal s' = true) →
  local_observation s' = local_observation s → closed s' = closed s → queue s' = queue s →
  pending_gap s' = pending_gap s → order s'.
Proof. intros [] E1 E2 E3 E4 E5 E6. constructor; rewrite ?E1, ?E3, ?E4, ?E5, ?E6; naive_solver. Qed.

(** An event that needs a slot is kept when the window funds it, and otherwise
    reported: the caller chooses how. *)
Lemma funded_told h s refuse : windows host s → order s → saw_terminal s = false →
  local_observation s = Available → is_terminal (event h) = false →
  (∀ c, windows host (set_capacity c s) → order (set_capacity c s) →
     told h (set_capacity c s) (refuse (set_capacity c s))) →
  ∃ s', (let '(s, ok) := fund host h s in if ok then append_event h s else Ret (refuse s)) = Ret s' ∧ told h s s'.
Proof.
  intros Hw Ho Hsaw Ha Hlive Hrefuse. destruct (fund_spec h s Hw) as (c & ok & -> & Hle & Hadd & Hf & Hok).
  assert (windows host (set_capacity c s)) as Hw' by (by apply windows_grown).
  assert (order (set_capacity c s)) as Ho' by (by apply (order_same s)).
  destruct ok; [|exists (refuse (set_capacity c s)); split; [done|]; apply (told_grown h s c); auto].
  destruct (Hok eq_refl) as (K1 & K2 & K3).
  destruct (append_told h (set_capacity c s)) as (s' & Hs' & Ht); [done..|]. exists s'. split; [done|].
  by apply (told_grown h s c).
Qed.

Lemma terminal_free h : is_terminal (event h) = true → event_bytes h = 0 ∧ gap_facts (event h) = None.
Proof. unfold event_bytes. by destruct (event h). Qed.

Lemma keep_terminal_told h s : windows host s → order s → saw_terminal s = true →
  local_observation s = Available → terminal s = None → is_terminal (event h) = true →
  ∃ s', keep_terminal host h s = Ret s' ∧ told h s s'.
Proof.
  intros Hw Ho Hsaw Ha Ht Hend. destruct (terminal_free h Hend) as [Hb Hg].
  pose proof isize_fits as Hfit. pose proof (wi_capacity _ _ Hw) as Hcap.
  assert (∃ s', Ret (mark_observation_loss s) = Ret s' ∧ told h s s') as Hloss
    by (eexists; split; [done|]; by apply mark_loss_told).
  unfold keep_terminal. rewrite (proj2 (checked_mul_Some _ _ _)) by (split; [done|lia]). cbn [obind expect].
  destruct (checked_add _ _ ≫= _) as [n|] eqn:Hn; [|done].
  apply bind_Some in Hn as (a & [-> _]%checked_add_Some & Hn).
  apply bind_Some in Hn as (a & [-> _]%checked_add_Some & [-> Hmax]%checked_add_Some).
  case_decide as Hle; [|done]. rewrite plus_u64_ok by lia. eexists. split; [done|].
  split.
  { destruct Hw. unfold terminal_list in *. rewrite Ht in wi_envelope0. rewrite sumN_nil in wi_envelope0.
    constructor; try done; cbn [set_terminal set_bytes set_marks queue envelope_payload_bytes limits terminal_list terminal];
      rewrite ?sumN_cons, ?sumN_nil; try lia.
    intros Hx. unfold funded. cbn [set_terminal set_bytes set_marks queue_capacity envelope_payload_bytes limits]. lia. }
  split; [destruct Ho; constructor; cbn; done|]. split; [done|]. split; [done|].
  unfold view, lost, unread, marker_list, terminal_list. cbn [set_terminal set_bytes set_marks local_observation terminal queue].
  rewrite Ha, Ht, decide_False, !app_nil_r by done. cbn [app]. rewrite (app_assoc (queue s)), (map_app event (_ ++ _) [h]).
  apply tell_kept.
Qed.

(** The terminal event takes a slot of the queue, or the place kept for it. *)
Lemma retain_terminal_told h s : windows host s → order s → saw_terminal s = false →
  local_observation s = Available → is_terminal (event h) = true →
  ∃ s', retain_terminal host h s = Ret s' ∧ told h s s'.
Proof.
  intros Hw Ho Hsaw Ha Hend. destruct (unread_open _ Ho Hsaw Ha) as [Hu Ht].
  destruct (terminal_free h Hend) as [Hb Hg]. destruct (limits_valid _ (wi_limits _ _ Hw)) as [_ Hval].
  pose proof isize_fits as Hfit. unfold retain_terminal.
  assert (windows host (set_saw_terminal s)) as Hw1 by (by apply (windows_same s)).
  assert (order (set_saw_terminal s)) as Ho1 by (by apply (order_same s)).
  cbn [set_saw_terminal set_marks pending_gap terminal]. rewrite Ht.
  assert (∀ c, windows host (set_capacity c (set_saw_terminal s)) →
    ∃ s', keep_terminal host h (set_capacity c (set_saw_terminal s)) = Ret s' ∧ told h s s') as Hkeep.
  { intros c Hwc. destruct (keep_terminal_told h (set_capacity c (set_saw_terminal s))) as (s' & Hs' & Htold);
      [done|by apply (order_same s)|done..|]. by exists s'. }
  destruct (pending_gap s) as [g|] eqn:Hp.
  { exact (Hkeep (queue_capacity s) Hw1). }
  destruct (reserve_slots_spec 1 (event_envelope_payload_bytes h) _ Hw1) as (c & ok & -> & Hle & Hadd & Hf & Hok).
  assert (windows host (set_capacity c (set_saw_terminal s))) as Hw2 by (by apply windows_grown).
  destruct ok; [|by apply Hkeep]. clear Hkeep. destruct (Hok eq_refl) as [Hlen Hpay]. clear Hok Hf.
  cbn [set_saw_terminal set_marks set_capacity queue limits envelope_payload_bytes queue_capacity queued_bytes] in *.
  rewrite plus_u64_ok by lia. unfold push_back, check. cbn [obind set_capacity set_bytes set_saw_terminal set_marks queue queue_capacity].
  rewrite bool_decide_true by lia. eexists. split; [done|].
  split.
  { destruct Hw2. constructor; try done; cbn [set_queue set_capacity set_bytes set_saw_terminal set_marks queue
      envelope_payload_bytes queued_bytes limits queue_capacity] in *.
    - rewrite sumN_app, sumN_cons, sumN_nil. lia.
    - change (terminal_list _) with (terminal_list s). change (terminal_list _) with (terminal_list s) in wi_envelope0.
      rewrite sumN_app, sumN_cons, sumN_nil. lia.
    - lia.
    - rewrite len_app, len_cons, len_nil. lia.
    - intros Hx. unfold funded. cbn [set_queue set_capacity set_bytes set_saw_terminal set_marks queue_capacity envelope_payload_bytes limits]. lia. }
  split; [destruct Ho1; constructor; cbn; [done..|congruence]|]. split; [done|]. split; [done|].
  unfold view, lost. rewrite Hu. unfold unread, marker_list, gap_list, terminal_list.
  cbn [set_queue set_capacity set_bytes set_saw_terminal set_marks local_observation terminal queue pending_gap].
  rewrite Ha, Ht, Hp, decide_False, !app_nil_r, (map_app _ _ [h]) by done. apply tell_kept.
Qed.

Lemma replace_told h s s' : windows host s → order s → saw_terminal s = false →
  local_observation s = Available → replace_input_progress h s = Some s' → told h s s'.
Proof.
  intros Hw Ho Hsaw Ha Hr. destruct (unread_open _ Ho Hsaw Ha) as [Hu Ht].
  unfold replace_input_progress in Hr. destruct (pending_gap s) eqn:Hp; [done|].
  destruct (event h) as [|next| | | | | |] eqn:He; try done.
  destruct (last (queue s)) as [previous|] eqn:Hlast; [|done].
  destruct (event previous) as [|service| | | | | |] eqn:Hprev; try done.
  destruct (advances service next) eqn:Hadv; [|done]. injection Hr as <-.
  apply last_Some in Hlast as [q Hq]. rewrite Hq, length_app, Nat.add_sub, take_app_length.
  set (fresh := {| event := ServiceChanged next; room := room previous |}).
  assert (event_bytes previous = 0 ∧ event_envelope_payload_bytes previous = 0) as [Hb He'].
  { unfold event_bytes, event_envelope_payload_bytes. by rewrite Hprev. }
  split.
  { destruct Hw. rewrite Hq in *. constructor; try done; cbn [set_queue queue queued_bytes envelope_payload_bytes queue_capacity].
    - rewrite sumN_app, sumN_cons, sumN_nil in *. rewrite wi_payload0, Hb. done.
    - rewrite sumN_app, sumN_cons, sumN_nil in *. rewrite wi_envelope0, He'. done.
    - rewrite len_app in *. done. }
  split; [destruct Ho; constructor; cbn; [done..|congruence]|]. split; [done|]. split; [done|].
  unfold view, lost. rewrite Hu. unfold unread, gap_list, marker_list, terminal_list.
  cbn [set_queue queue pending_gap local_observation terminal]. rewrite Hq, Hp, Ha, Ht, decide_False by done.
  rewrite !app_nil_r, !map_app. cbn. rewrite Hprev. by apply tell_advanced.
Qed.

Lemma retain_told h s : windows host s → order s → saw_terminal s = false →
  local_observation s = Available → ∃ s', retain host h s = Ret s' ∧ told h s s'.
Proof.
  intros Hw Ho Hsaw Ha.
  assert (∀ s, windows host s → order s → saw_terminal s = false → local_observation s = Available →
    gap_facts (event h) = None → is_terminal (event h) = false →
    ∃ s', (let '(s, ok) := fund host h s in if ok then append_event h s else Ret (mark_observation_loss s)) = Ret s'
          ∧ told h s s') as Hobserve.
  { clear s Hw Ho Hsaw Ha. intros s Hw Ho Hsaw Ha Hg Hlive. destruct (unread_open _ Ho Hsaw Ha) as [_ Ht].
    apply funded_told; try done. intros c Hwc Hoc. by apply mark_loss_told. }
  unfold retain. destruct (event h) as [chunk|service|size through rev|state|reason|e| |head causes] eqn:He;
    try (apply Hobserve; done).
  - apply (funded_told h s (add_gap (end_byte chunk) CLIENT_VIEW_PRESSURE)); try done; [by rewrite He|].
    intros c Hwc Hoc. apply add_gap_told; try done. by rewrite He.
  - apply retain_terminal_told; try done. by rewrite He.
  - apply retain_terminal_told; try done. by rewrite He.
  - destruct (Hobserve (set_saw_discontinuity s)) as (s' & Hs' & Ht); [by apply (windows_same s)|by apply (order_same s)|done..|].
    by exists s'.
  - eexists. split; [done|]. apply add_gap_told; try done. by rewrite He.
Qed.

(** A push never panics; a refused one changes nothing, an accepted one tells the
    view. *)
Lemma push_spec h s : windows host s → order s →
  ∃ s' r, push host h s = Ret (s', r) ∧
    match r with Ok _ => told h s s' | Err _ => s' = s end.
Proof.
  intros Hw Ho. unfold push. case_match; [by eexists _, _|]. case_match eqn:Hsaw; [by eexists _, _|].
  case_match; [by eexists _, _|]. destruct (bool_decide (local_observation s = Available)) eqn:Hav; cbn [negb].
  - apply bool_decide_eq_true in Hav.
    destruct (replace_input_progress h s) as [s'|] eqn:Hr; [eexists _, _; split; [done|]; by apply replace_told|].
    destruct (retain_told h s) as (s' & -> & Ht); [done..|]. eexists _, _. by split; [done|].
  - eexists _, _. split; [done|]. apply bool_decide_eq_false in Hav.
    assert (∀ s', windows host s' → order s' → limits s' = limits s → consumer_active s' = consumer_active s →
      lost s' = lost s → unread s' = unread s → told h s s') as Hq.
    { intros s' K1 K2 K3 K4 K5 K6. split; [done|]. split; [done|]. split; [done|]. split; [done|].
      unfold view. rewrite K5, K6. replace (lost s) with true by (unfold lost; by rewrite bool_decide_false).
      apply tell_after. }
    destruct (event h); apply Hq; try done; try (by apply (windows_same s)); by apply (order_same s).
Qed.

(** What one turn of the reader leaves. *)
Definition turned (s s' : EventInbox) (t : Turn) : Prop :=
  windows host s' ∧ order s' ∧ limits s' = limits s ∧ consumer_active s' = consumer_active s ∧
  lost s' = lost s ∧
  match unread s with
  | h :: rest => t = Delivered h ∧ unread s' = rest
  | [] => (∀ h, t ≠ Delivered h) ∧ unread s' = []
  end.

Lemma take_queued h rest s : windows host s → order s → queue s = h :: rest →
  ∃ s' t, take_next s = Ret (s', t) ∧ turned s s' t.
Proof.
  intros Hw Ho Hq. unfold take_next. pose proof (wi_payload _ _ Hw) as K1. pose proof (wi_envelope _ _ Hw) as K2.
  rewrite Hq, sumN_cons in *. rewrite !minus_u64_ok by lia. cbn [obind]. eexists _, _. split; [done|].
  split.
  { destruct Hw. rewrite Hq in *. rewrite len_cons in *. rewrite sumN_cons in *.
    constructor; try done; cbn [set_bytes set_queue queue queued_bytes envelope_payload_bytes limits queue_capacity].
    - lia.
    - lia.
    - change (terminal_list _) with (terminal_list s). lia.
    - lia.
    - lia.
    - intros Hx. specialize (wi_funded0 Hx). unfold funded in *.
      cbn [set_bytes set_queue envelope_payload_bytes limits queue_capacity]. lia. }
  split; [destruct Ho; constructor; cbn; [done..|]; intros Hl; destruct (or_read0 Hl); congruence|].
  do 3 (split; [done|]). unfold unread at 1. by rewrite Hq.
Qed.

(** One turn of the reader hands over the first unread event, and only that. *)
Lemma take_next_spec s : windows host s → order s → ∃ s' t, take_next s = Ret (s', t) ∧ turned s s' t.
Proof.
  intros Hw Ho. destruct (queue s) as [|h rest] eqn:Hq; [|by apply (take_queued h rest)].
  unfold take_next. rewrite Hq. destruct (pending_gap s) as [g|] eqn:Hp.
  { eexists _, _. split; [done|]. split; [by apply (windows_same s)|].
    split; [destruct Ho; constructor; cbn; [done..|naive_solver]|]. do 3 (split; [done|]).
    unfold unread, gap_list. cbn [set_pending_gap set_marks queue pending_gap]. by rewrite Hq, Hp. }
  case_decide as Hlost.
  { assert (terminal s = None) as Ht.
    { destruct (terminal s) eqn:Ht; [|done]. destruct (or_terminal _ Ho); congruence. }
    eexists _, _. split; [done|]. split; [by apply (windows_same s)|].
    split; [destruct Ho; constructor; cbn; [congruence|intros _; apply or_lost0; by rewrite Hlost|done]|].
    do 2 (split; [done|]). split; [unfold lost; cbn; by rewrite Hlost|].
    unfold unread, gap_list, marker_list, terminal_list. cbn [set_local_observation set_marks queue pending_gap terminal local_observation].
    by rewrite Hq, Hp, Hlost, Ht, decide_True, decide_False by done. }
  assert (unread s = terminal_list s) as Hu.
  { unfold unread, gap_list, marker_list. by rewrite Hq, Hp, decide_False by done. }
  unfold turned. rewrite Hu. destruct (terminal s) as [h|] eqn:Ht.
  { assert (terminal_list s = [h]) as Hl by (unfold terminal_list; by rewrite Ht).
    pose proof (wi_envelope _ _ Hw) as K2. rewrite Hq, Hl, sumN_cons, !sumN_nil in K2.
    rewrite minus_u64_ok by lia. cbn [obind]. eexists _, _. split; [done|]. rewrite Hl. split.
    { destruct Hw. constructor; try done;
        cbn [set_bytes set_terminal set_marks queue queued_bytes envelope_payload_bytes limits queue_capacity terminal_list terminal].
      - rewrite Hq, !sumN_nil. lia.
      - lia.
      - intros Hx. specialize (wi_funded0 Hx). unfold funded in *.
        cbn [set_bytes set_terminal set_marks envelope_payload_bytes limits queue_capacity]. lia. }
    split; [destruct Ho; constructor; cbn; done|]. do 3 (split; [done|]).
    unfold unread, gap_list, marker_list. cbn [set_bytes set_terminal set_marks queue pending_gap local_observation terminal_list terminal].
    by rewrite Hq, Hp, decide_False by done. }
  assert (terminal_list s = []) as Hl by (unfold terminal_list; by rewrite Ht). rewrite Hl.
  destruct (inbox_error s); (eexists _, _; split; [done|]; split; [by apply (windows_same s)|];
    split; [by apply (order_same s)|]; do 3 (split; [done|])); (split; [by destruct (closed s)|]).
  all: rewrite <-Hl; exact Hu || (rewrite Hl in Hu; exact Hu).
Qed.

(** ** Whole histories *)

(** What the reader's turn showed it. *)
Definition shown (t : Turn) : list RunEvent := match t with Delivered h => [event h] | _ => [] end.

(** A view with limits [l]: the events its connection was accepted, the events its
    consumer was shown, and the inbox they left. *)
Inductive history (l : AttachmentEventLimits) : list RunEvent → list RunEvent → EventInbox → Prop :=
  | history_start : history l [] [] (with_limits l)
  | history_push p d s h s' : history l p d s → push host h s = Ret (s', Ok tt) →
      history l (p ++ [event h]) d s'
  | history_refuse p d s h s' why : history l p d s → push host h s = Ret (s', Err why) →
      history l p d s'
  | history_next p d s s' t : history l p d s → next s = Ret (s', t) → history l p (d ++ shown t) s'
  | history_wake p d s s' t : history l p d s → consumer_active s = true → wake s = Ret (s', t) →
      history l p (d ++ shown t) s'
  | history_close p d s e : history l p d s → history l p d (close e s).

(** A whole stream told to one reader. *)
Inductive tells : list RunEvent → bool → list RunEvent → Prop :=
  | tells_nil : tells [] false []
  | tells_snoc p e b v b' v' : tells p b v → tell e b v b' v' → tells (p ++ [e]) b' v'.

Lemma turned_shown s s' t : turned s s' t → shown t ++ view s' = view s.
Proof.
  intros (_ & _ & _ & _ & _ & Ht). unfold view. destruct (unread s) as [|h rest].
  - destruct Ht as [Hno ->]. destruct t; [by destruct (Hno e)|done..].
  - by destruct Ht as [-> ->].
Qed.
Lemma guard_same b s : windows host s → order s →
  windows host (set_consumer_active b s) ∧ order (set_consumer_active b s).
Proof. intros Hw Ho. split; [by apply (windows_same s)|by apply (order_same s)]. Qed.

(** [next] and [wake] are a turn under the reader's guard. *)
Definition read_turn (s s' : EventInbox) (t : Turn) : Prop :=
  windows host s' ∧ order s' ∧ limits s' = limits s ∧ lost s' = lost s ∧ shown t ++ view s' = view s.
Lemma wake_spec s : windows host s → order s → ∃ s' t, wake s = Ret (s', t) ∧ read_turn s s' t ∧
  (consumer_active s' = true → t = Waiting ∧ consumer_active s = true) ∧
  match unread s with h :: rest => t = Delivered h ∧ unread s' = rest
                    | [] => (∀ h, t ≠ Delivered h) ∧ unread s' = [] end.
Proof.
  intros Hw Ho. destruct (take_next_spec s Hw Ho) as (s' & t & Hrun & Ht).
  pose proof (turned_shown _ _ _ Ht) as Hs. destruct Ht as (Hw' & Ho' & Hl & Hc & Hlost & Hu).
  unfold wake. rewrite Hrun. cbn [obind]. destruct (guard_same false s' Hw' Ho') as [Hw2 Ho2].
  destruct t; eexists _, _; (split; [done|]); (split; [done|]); (split; [|done]); cbn; try done.
  intros K. by rewrite <-Hc.
Qed.
Lemma next_spec s : windows host s → order s → ∃ s' t, next s = Ret (s', t) ∧ read_turn s s' t ∧
  (consumer_active s = false → (consumer_active s' = true → t = Waiting) ∧
   match unread s with h :: rest => t = Delivered h ∧ unread s' = rest
                     | [] => (∀ h, t ≠ Delivered h) ∧ unread s' = [] end).
Proof.
  intros Hw Ho. unfold next, acquire. destruct (consumer_active s) eqn:Hc.
  { eexists _, _. split; [done|]. split; [|done]. done. }
  destruct (guard_same true s Hw Ho) as [Hw1 Ho1].
  destruct (wake_spec _ Hw1 Ho1) as (s' & t & Hrun & Ht & Hact & Hu). unfold wake in Hrun.
  exists s', t. split; [exact Hrun|]. split; [exact Ht|]. intros _. split; [|exact Hu]. intros K. by apply Hact.
Qed.

Lemma history_ok l p d s : limits_validate host l = Ok tt → history l p d s →
  windows host s ∧ order s ∧ limits s = l ∧ tells p (lost s) (d ++ view s).
Proof.
  intros Hl. induction 1 as [|p d s h s' _ (Hw & Ho & Hlim & Ht) Hrun|p d s h s' why _ (Hw & Ho & Hlim & Ht) Hrun
    |p d s s' t _ (Hw & Ho & Hlim & Ht) Hrun|p d s s' t _ (Hw & Ho & Hlim & Ht) Hact Hrun|p d s e _ (Hw & Ho & Hlim & Ht)].
  - destruct (limits_valid l Hl) as [Hsize _].
    split; [|split; [by constructor|split; [done|apply tells_nil]]].
    constructor; unfold funded; cbn; rewrite ?len_nil, ?sumN_nil; try done; lia.
  - destruct (push_spec h s Hw Ho) as (s1 & r & Hrun' & Hr). rewrite Hrun in Hrun'. injection Hrun' as <- <-.
    destruct Hr as (Hw' & Ho' & Hlim' & _ & Htell). split; [done|]. split; [done|]. split; [congruence|].
    eapply tells_snoc; [done|]. by apply tell_app.
  - destruct (push_spec h s Hw Ho) as (s1 & r & Hrun' & Hr). rewrite Hrun in Hrun'. injection Hrun' as <- <-.
    by subst.
  - destruct (next_spec s Hw Ho) as (s1 & t1 & Hrun' & (Hw' & Ho' & Hlim' & Hlost & Hs) & _).
    rewrite Hrun in Hrun'. injection Hrun' as <- <-. split; [done|]. split; [done|]. split; [congruence|].
    by rewrite Hlost, <-(assoc_L app), Hs.
  - destruct (wake_spec s Hw Ho) as (s1 & t1 & Hrun' & (Hw' & Ho' & Hlim' & Hlost & Hs) & _).
    rewrite Hrun in Hrun'. injection Hrun' as <- <-. split; [done|]. split; [done|]. split; [congruence|].
    by rewrite Hlost, <-(assoc_L app), Hs.
  - unfold close. destruct (closed s) eqn:Hc; [done|].
    split; [by apply (windows_same s)|]. split; [|done]. destruct Ho. constructor; cbn; done.
Qed.
End view.

(** ** Theorems *)

(** C25: The view of an attachment is a faithful account of what its connection was
    handed: in the order of arrival every event is either shown as it is, replaced by
    a newer snapshot of the same unsettled input, covered by a gap whose head and
    causes are those of what it stands for, or reported as a discontinuity, after
    which the view shows nothing more.  [d] is what the consumer has read and
    [view s] what it will read next. *)
Theorem view_tells_the_stream host l p d s (Hhost : host_ok host)
    (Hlimits : limits_validate host l = Ok tt) (Hhistory : history host l p d s) :
  tells p (lost s) (d ++ view s).
Proof. by apply (history_ok host Hhost l). Qed.

(** C26: The view stays inside its two windows: the payload counter is exactly the bytes
    the queue holds, the envelope counter exactly the slack it holds, both within
    the configured limits, the queue never grows past the slots paid for, and, with
    an allocator that gives what it is asked, slots, slack and inbox together fit the
    envelope.  No event, read or wake-up makes the arithmetic fail. *)
Theorem view_stays_in_its_windows host l p d s (Hhost : host_ok host)
    (Hlimits : limits_validate host l = Ok tt) (Hhistory : history host l p d s) :
  (queued_bytes s = sumN event_bytes (queue s) ∧ queued_bytes s ≤ payload_bytes l) ∧
  (envelope_payload_bytes s = sumN event_envelope_payload_bytes (queue s ++ terminal_list s) ∧
   envelope_payload_bytes s ≤ envelope_bytes l) ∧
  len (queue s) ≤ queue_capacity s ∧
  (exact_host host → inbox_size host + queue_capacity s * event_size host +
     envelope_payload_bytes s ≤ envelope_bytes l) ∧
  (∀ h, ∃ s' r, push host h s = Ret (s', r)) ∧ (∃ s' t, next s = Ret (s', t)) ∧
  (∃ s' t, wake s = Ret (s', t)).
Proof.
  destruct (history_ok host Hhost l p d s Hlimits Hhistory) as (Hw & Ho & Hl & _).
  pose proof Hw as []. unfold funded in *. rewrite Hl in *. rewrite sumN_app.
  split; [done|]. split; [done|]. split; [done|]. split; [done|]. split; [|split].
  - intros h. destruct (push_spec host Hhost h s Hw Ho) as (s' & r & Hr & _). by exists s', r.
  - destruct (next_spec host s Hw Ho) as (s' & t & Hr & _). by exists s', t.
  - destruct (wake_spec host s Hw Ho) as (s' & t & Hr & _). by exists s', t.
Qed.

(** *** Output positions *)

(** Where a reader that follows output by position stands after an event: output
    must start there, and a gap moves it forward. *)
Definition walk_event (pos : N) (e : RunEvent) : option N :=
  match e with
  | OutputEvent chunk =>
      if bool_decide (start_byte chunk = pos) && bool_decide (start_byte chunk ≤ end_byte chunk)
      then Some (end_byte chunk) else None
  | Gap head _ => if decide (pos ≤ head) then Some head else None
  | _ => Some pos
  end.
Fixpoint walk (pos : N) (es : list RunEvent) : option N :=
  match es with [] => Some pos | e :: es => walk_event pos e ≫= λ pos, walk pos es end.

Lemma walk_app es es' : ∀ pos, walk pos (es ++ es') = walk pos es ≫= λ pos, walk pos es'.
Proof.
  induction es as [|e es IH]; intros pos; [done|]. cbn. destruct (walk_event pos e); cbn; [apply IH|done].
Qed.
Lemma walk_snoc es e pos : walk pos (es ++ [e]) = walk pos es ≫= λ pos, walk_event pos e.
Proof. rewrite walk_app. destruct (walk pos es) as [q|]; [|done]. cbn. by destruct (walk_event q e). Qed.

Lemma gap_covers e head causes pos next : gap_facts e = Some (head, causes) →
  walk_event pos e = Some next → pos ≤ head ∧ next = head.
Proof.
  destruct e; try done; intros [= <- <-]; cbn.
  - case_match eqn:Hb; [|done]. apply andb_true_iff in Hb as [?%bool_decide_eq_true ?%bool_decide_eq_true].
    intros [= <-]. split; [lia|done].
  - case_decide; naive_solver.
Qed.
Lemma walk_event_up pos e next : walk_event pos e = Some next → pos ≤ next.
Proof.
  destruct e; cbn; try (intros [= <-]; lia).
  - case_match eqn:Hb; [|done]. apply andb_true_iff in Hb as [?%bool_decide_eq_true ?%bool_decide_eq_true].
    intros [= <-]. lia.
  - case_decide; [|done]. intros [= <-]. done.
Qed.

Lemma tells_walk p b v x y : tells p b v → walk x p = Some y →
  ∃ z, walk x v = Some z ∧ z ≤ y ∧ (b = false → z = y).
Proof.
  intros Ht. revert y. induction Ht as [|p e b v b' v' Ht IH Hstep]; intros y Hw; [by exists y|].
  rewrite walk_snoc in Hw. apply bind_Some in Hw as (y0 & Hp & He).
  destruct (IH y0 Hp) as (z & Hz & Hle & Hb). pose proof (walk_event_up _ _ _ He) as Hup.
  destruct Hstep as [v|v a n Hn _|v head causes Hg|v known prev head causes Hg|v Hg|v].
  - rewrite Hb in Hz by done. exists y. by rewrite walk_snoc, Hz.
  - rewrite Hb in Hz by done. rewrite walk_snoc in Hz. apply bind_Some in Hz as (q & Hv & [= ->]).
    rewrite Hn in He. injection He as <-. exists y0. by rewrite walk_snoc, Hv.
  - rewrite Hb in Hz by done. destruct (gap_covers _ _ _ _ _ Hg He) as [Hh ->].
    exists head. rewrite walk_snoc, Hz. cbn. by rewrite decide_True.
  - rewrite Hb in Hz by done. destruct (gap_covers _ _ _ _ _ Hg He) as [Hh ->].
    rewrite walk_snoc in Hz. apply bind_Some in Hz as (q & Hv & Hq). cbn in Hq. case_decide; [|done].
    injection Hq as ->. exists head. rewrite walk_snoc, Hv. cbn. rewrite N.max_r by done.
    rewrite decide_True by lia. done.
  - exists z. rewrite walk_snoc, Hz. split; [done|]. split; [lia|done].
  - exists z. split; [done|]. split; [lia|done].
Qed.

(** A consumer that follows output by position never meets a silent hole: if the
    daemon's stream is contiguous up to its gaps, so is what the consumer is shown,
    and a view that was not lost ends at the daemon's own position. *)
Theorem view_has_no_silent_hole host l p d s x y (Hhost : host_ok host)
    (Hlimits : limits_validate host l = Ok tt) (Hhistory : history host l p d s)
    (Hstream : walk x p = Some y) :
  ∃ z, walk x (d ++ view s) = Some z ∧ z ≤ y ∧ (lost s = false → z = y).
Proof.
  apply (tells_walk p); [|done]. by apply (history_ok host Hhost l).
Qed.

(** *** Draining *)

(** The consumer's loop: read until a turn shows nothing. *)
Fixpoint read_all (fuel : nat) (s : EventInbox) : outcome (EventInbox * list Held * Turn) :=
  match fuel with
  | O => Panic "out of fuel"
  | S fuel =>
      let! '(s, t) := next s in
      match t with
      | Delivered h => let! '(s, hs, t) := read_all fuel s in Ret (s, h :: hs, t)
      | _ => Ret (s, [], t)
      end
  end.

(** C27: A consumer that keeps reading gets everything the view holds, in order, and then
    learns that the view failed, ended or waits: nothing is stuck in it. *)
Theorem view_drains host l p d s (Hhost : host_ok host) (Hlimits : limits_validate host l = Ok tt)
    (Hhistory : history host l p d s) (Hidle : consumer_active s = false) :
  ∃ s' t, read_all (S (length (unread s))) s = Ret (s', unread s, t) ∧ view s' = [] ∧
    (∀ h, t ≠ Delivered h).
Proof.
  destruct (history_ok host Hhost l p d s Hlimits Hhistory) as (Hw & Ho & _). clear Hhistory.
  remember (unread s) as hs eqn:Hhs. revert s Hhs Hw Ho Hidle.
  induction hs as [|h hs IH]; intros s Hhs Hw Ho Hidle;
    destruct (next_spec host s Hw Ho) as (s' & t & Hrun & (Hw' & Ho' & _) & Hidle');
    destruct (Hidle' Hidle) as [Hc Ht]; clear Hidle'; rewrite <-Hhs in Ht; cbn [read_all]; rewrite Hrun; cbn [obind].
  - destruct Ht as [Hno Hu]. destruct t as [h| | |]; [by destruct (Hno h)|..]; eexists _, _; unfold view; by rewrite Hu.
  - destruct Ht as [-> Hu]. destruct (IH s') as (s2 & t2 & Hread & Hv & Hno); [done|done|done| |].
    { destruct (consumer_active s'); [by specialize (Hc eq_refl)|done]. }
    change (read_all (length (h :: hs)) s') with (read_all (S (length hs)) s'). rewrite Hread. by exists s2, t2.
Qed.

(** ** An evaluated view *)

Module InboxDemo.
Definition host : Host :=
  {| inbox_size := 200; event_size := 100;
     grow := λ _ target, if decide (target ≤ 1000) then Some target else None |}.
Definition small : AttachmentEventLimits := {| payload_bytes := 4; envelope_bytes := 700 |}.
Definition ab : Held :=
  {| event := OutputEvent {| start_byte := 0; end_byte := 2; data := [x61; x62] |}; room := 2 |}.
Definition cdef : Held :=
  {| event := OutputEvent {| start_byte := 2; end_byte := 6; data := [x63; x64; x65; x66] |}; room := 8 |}.
Definition resized : Held := {| event := Resized {| cols := 100; rows := 40 |} 6 1; room := 0 |}.
Definition exited : Held := {| event := ExitedEvent (Exited 0 None); room := 0 |}.

(** The state after a list of accepted pushes. *)
Fixpoint feed (hs : list Held) (s : EventInbox) : option EventInbox :=
  match hs with
  | [] => Some s
  | h :: hs => match push host h s with Ret (s', Ok _) => feed hs s' | _ => None end
  end.
Lemma feed_history l d hs : ∀ p s s', history host l p d s → feed hs s = Some s' →
  history host l (p ++ map event hs) d s'.
Proof.
  induction hs as [|h hs IH]; intros p s s' Hs; cbn [feed map]; [intros [= <-]; by rewrite app_nil_r|].
  destruct (push host h s) as [[s1 [[]|]]|] eqn:Hp; try done. intros Hf.
  change (p ++ event h :: map event hs) with (p ++ [event h] ++ map event hs). rewrite (assoc_L app). apply (IH _ s1); [|done]. by apply (history_push host l p d s).
Qed.
Definition full : EventInbox :=
  Eval vm_compute in default (with_limits small) (feed [ab; cdef; resized; exited] (with_limits small)).
(** The same after one read. *)
Definition read_once : EventInbox :=
  Eval vm_compute in match next full with Ret (s, _) => s | Panic _ => full end.
Definition stream : list RunEvent := map event [ab; cdef; resized; exited].

Example second_chunk_became_a_gap :
  view full = [event ab; Gap 6 CLIENT_VIEW_PRESSURE; event resized; event exited] ∧ lost full = false.
Proof. by vm_compute. Qed.

Lemma host_promises : host_ok host.
Proof.
  split; [done|]. intros c t c'. unfold host; cbn. case_decide as K; [|done]. intros [= <-]. split; [done|].
  pose proof (eq_refl : (100000 <=? isize_max) = true) as Hmax%N.leb_le. lia.
Qed.

Lemma history_full : history host small stream [] full.
Proof.
  apply (feed_history small [] [ab; cdef; resized; exited] [] (with_limits small)); [apply history_start|].
  by vm_compute.
Qed.
Lemma history_read : history host small stream [event ab] read_once.
Proof.
  eapply (history_next host small stream [] full read_once (Delivered ab)); [exact history_full|by vm_compute].
Qed.
End InboxDemo.

Lemma view_tells_the_stream_witness :
  tells InboxDemo.stream (lost InboxDemo.read_once) ([event InboxDemo.ab] ++ view InboxDemo.read_once).
Proof.
  apply (view_tells_the_stream InboxDemo.host InboxDemo.small); [exact InboxDemo.host_promises|by vm_compute|].
  exact InboxDemo.history_read.
Defined.
Lemma view_stays_in_its_windows_witness :
  queued_bytes InboxDemo.full = 2 ∧ ∃ s' r, push InboxDemo.host InboxDemo.ab InboxDemo.full = Ret (s', r).
Proof.
  split; [done|].
  apply (view_stays_in_its_windows InboxDemo.host InboxDemo.small InboxDemo.stream []
    InboxDemo.full InboxDemo.host_promises eq_refl InboxDemo.history_full).
Defined.
Lemma view_has_no_silent_hole_witness :
  ∃ z, walk 0 ([event InboxDemo.ab] ++ view InboxDemo.read_once) = Some z ∧ z ≤ 6 ∧
    (lost InboxDemo.read_once = false → z = 6).
Proof.
  apply (view_has_no_silent_hole InboxDemo.host InboxDemo.small InboxDemo.stream); [exact InboxDemo.host_promises|
    by vm_compute|exact InboxDemo.history_read|by vm_compute].
Defined.
Lemma view_drains_witness :
  ∃ s' t, read_all 4 InboxDemo.read_once = Ret (s', unread InboxDemo.read_once, t) ∧ view s' = [] ∧
    (∀ h, t ≠ Delivered h).
Proof.
  apply (view_drains InboxDemo.host InboxDemo.small InboxDemo.stream [event InboxDemo.ab]);
    [exact InboxDemo.host_promises|by vm_compute|exact InboxDemo.history_read|done].
Defined.
