(* ===== verification/ClientAttachment.v ===== *)
(** * The client's attachment

    [Attachment] of [crates/ctxmux-client/src/attachment.rs]: the commands a client
    has outstanding on one connection, the results its reader hands back, its writer
    queue, and the end of the attachment by detach, failure or drop. *)

From S2P Require Import Prelude.
From S2P Require Import Protocol.
From S2P Require Import Wire.
From S2P Require Import ClientErrors.
From S2P Require Import ClientInbox.

Definition MAX_PENDING_COMMANDS : N := 64.
Definition MAX_PENDING_INPUT_COMMANDS : N := 32.
Definition MAX_PENDING_INPUT_BYTES : N := 1024 * 1024.

(** ** Commands and their results *)

Inductive PendingKind :=
  | PendingInput (expected_bytes : N)
  | PendingResize
  | PendingSignal (signal : RunSignal)
  | PendingStop.
#[global] Instance PendingKind_eq_dec : EqDecision PendingKind.
Proof. solve_decision. Defined.

Inductive ValidatedReceipt :=
  | ValidatedInput (r : Receipt.InputReceipt)
  | ValidatedResize (r : Receipt.ResizeReceipt)
  | ValidatedSignal (r : Receipt.SignalReceipt)
  | ValidatedStop (r : Receipt.StopReceipt).

Inductive PendingResolution :=
  | ResolvedAccepted (receipt : ValidatedReceipt)
  | ResolvedRejected (failure : ControlFailure)
  | ResolvedUnknown (reason : AttachmentUnknownReason).

Definition input_bytes (k : PendingKind) : N :=
  match k with PendingInput expected_bytes => expected_bytes | _ => 0 end.
Definition is_input (k : PendingKind) : bool :=
  match k with PendingInput _ => true | _ => false end.

Definition validate (k : PendingKind) (r : ControlReceipt) : result ValidatedReceipt string :=
  match k with
  | PendingInput expected_bytes =>
      map_err (λ _, "attachment input receipt does not match its command"%string)
        (result_map ValidatedInput (decode_input_receipt r expected_bytes))
  | PendingResize =>
      map_err (λ _, "attachment resize receipt does not match its command"%string)
        (result_map ValidatedResize (decode_resize_receipt r))
  | PendingSignal signal =>
      map_err (λ _, "attachment signal receipt does not match its command"%string)
        (result_map ValidatedSignal (decode_signal_receipt r signal))
  | PendingStop =>
      map_err (λ _, "attachment stop receipt does not match its command"%string)
        (result_map ValidatedStop (decode_stop_receipt r))
  end.

(** A command under way; [ticket] names the one-shot channel its caller awaits. *)
Record PendingCommand := { kind : PendingKind; ticket : N }.

Inductive WriterCommand := WriteControl (encoded : bytes) | WriteDetach.
Inductive AttachmentEnd := Detached | Terminated.

Record AttachmentState := {
  next_command_id : N;
  fence : option AttachmentUnavailableReason;
  detaching : bool;
  attachment_end : option AttachmentEnd;
  pending : gmap N PendingCommand;
  pending_inputs : N;
  pending_input_bytes : N;
}.
Definition AttachmentState_default : AttachmentState :=
  {| next_command_id := 1; fence := None; detaching := false; attachment_end := None;
     pending := ∅; pending_inputs := 0; pending_input_bytes := 0 |}.

(** The shared state, the writer's channel and what the one-shot channels were
    sent; [writer_gone] once the channel's receiver is dropped. *)
Record AttachmentShared := {
  state : AttachmentState;
  events : EventInbox;
  reader_abort : bool;
  writer_abort : bool;
  writer_queue : list WriterCommand;
  writer_gone : bool;
  results : list (N * PendingResolution);
}.
Definition with_event_limits (l : AttachmentEventLimits) : AttachmentShared :=
  {| state := AttachmentState_default; events := with_limits l; reader_abort := false;
     writer_abort := false; writer_queue := []; writer_gone := false; results := [] |}.

Definition set_state (st : AttachmentState) (s : AttachmentShared) : AttachmentShared :=
  {| state := st; events := events s; reader_abort := reader_abort s; writer_abort := writer_abort s;
     writer_queue := writer_queue s; writer_gone := writer_gone s; results := results s |}.
Definition set_events (e : EventInbox) (s : AttachmentShared) : AttachmentShared :=
  {| state := state s; events := e; reader_abort := reader_abort s; writer_abort := writer_abort s;
     writer_queue := writer_queue s; writer_gone := writer_gone s; results := results s |}.
Definition set_aborts (r w : bool) (s : AttachmentShared) : AttachmentShared :=
  {| state := state s; events := events s; reader_abort := r; writer_abort := w;
     writer_queue := writer_queue s; writer_gone := writer_gone s; results := results s |}.
Definition set_writer (q : list WriterCommand) (gone : bool) (s : AttachmentShared) : AttachmentShared :=
  {| state := state s; events := events s; reader_abort := reader_abort s; writer_abort := writer_abort s;
     writer_queue := q; writer_gone := gone; results := results s |}.
(** [result_tx.send] *)
Definition send_results (rs : list (N * PendingResolution)) (s : AttachmentShared) : AttachmentShared :=
  {| state := state s; events := events s; reader_abort := reader_abort s; writer_abort := writer_abort s;
     writer_queue := writer_queue s; writer_gone := writer_gone s; results := results s ++ rs |}.

Definition set_fence (f : option AttachmentUnavailableReason) (st : AttachmentState) : AttachmentState :=
  {| next_command_id := next_command_id st; fence := f; detaching := detaching st;
     attachment_end := attachment_end st; pending := pending st;
     pending_inputs := pending_inputs st; pending_input_bytes := pending_input_bytes st |}.
Definition set_next_command_id (n : N) (st : AttachmentState) : AttachmentState :=
  {| next_command_id := n; fence := fence st; detaching := detaching st;
     attachment_end := attachment_end st; pending := pending st;
     pending_inputs := pending_inputs st; pending_input_bytes := pending_input_bytes st |}.
Definition set_pending (p : gmap N PendingCommand) (inputs bytes : N) (st : AttachmentState) : AttachmentState :=
  {| next_command_id := next_command_id st; fence := fence st; detaching := detaching st;
     attachment_end := attachment_end st; pending := p; pending_inputs := inputs;
     pending_input_bytes := bytes |}.
Definition set_end (e : AttachmentEnd) (st : AttachmentState) : AttachmentState :=
  {| next_command_id := next_command_id st; fence := Some ClosedAttachment; detaching := detaching st;
     attachment_end := Some e; pending := pending st;
     pending_inputs := pending_inputs st; pending_input_bytes := pending_input_bytes st |}.
Definition set_detaching (st : AttachmentState) : AttachmentState :=
  {| next_command_id := next_command_id st; fence := Some Detaching; detaching := true;
     attachment_end := attachment_end st; pending := pending st;
     pending_inputs := pending_inputs st; pending_input_bytes := pending_input_bytes st |}.

(** ** The shared operations *)

Definition register_command (k : PendingKind) (result_tx : N) (s : AttachmentShared)
    : outcome (AttachmentShared * result N ClientError) :=
  let st := state s in
  if attachment_end st is Some _ then Ret (s, Err (AttachmentUnavailable ClosedAttachment))
  else match fence st with Some reason => Ret (s, Err (AttachmentUnavailable reason)) | None =>
  if observation_unavailable (events s) then Ret (s, Err (AttachmentUnavailable ObservationUnavailable))
  else if decide (N.of_nat (size (pending st)) = MAX_PENDING_COMMANDS)
  then Ret (s, Err (AttachmentBackpressure "64 unresolved commands"))
  else if is_input k && bool_decide (pending_inputs st = MAX_PENDING_INPUT_COMMANDS)
  then Ret (s, Err (AttachmentBackpressure "32 unresolved input commands"))
  else if match checked_add (pending_input_bytes st) (input_bytes k) with
          | Some bytes => bool_decide (MAX_PENDING_INPUT_BYTES < bytes) | None => true end
  then Ret (s, Err (AttachmentBackpressure "1 MiB unresolved input data"))
  else
    let! command_id := expect "attachment state never allocates command id zero"
        (match attachment_command_id_new (next_command_id st) with Ok id => Some id | Err _ => None end) in
    let st1 := if decide (next_command_id st = u32_max) then set_fence (Some CommandIdsExhausted) st
               else set_next_command_id (next_command_id st + 1) st in
    let! inputs := plus_u64 (pending_inputs st) (if is_input k then 1 else 0) in
    let! bytes := plus_u64 (pending_input_bytes st) (input_bytes k) in
    let! _ := check "command IDs are never reused" (bool_decide (pending st !! command_id = None)) in
    Ret (set_state (set_pending (<[command_id := {| kind := k; ticket := result_tx |}]> (pending st)) inputs bytes st1) s,
         Ok command_id)
  end.

Definition release_pending_capacity (k : PendingKind) (st : AttachmentState) : outcome AttachmentState :=
  if is_input k then
    let! inputs := minus_u64 (pending_inputs st) 1 in
    let! bytes := minus_u64 (pending_input_bytes st) (input_bytes k) in
    Ret (set_pending (pending st) inputs bytes st)
  else Ret st.

(** The resolution an outcome gives a pending command, or why it is no answer. *)
Definition resolution (k : PendingKind) (o : ControlOutcome) : result PendingResolution string :=
  match o with
  | Accepted receipt => result_map ResolvedAccepted (validate k receipt)
  | Rejected failure =>
      let? _ := validate_control_failure failure in
      match confirmed_input_bytes failure with
      | Some confirmed =>
          match k with
          | PendingInput expected_bytes =>
              if decide (confirmed ≤ expected_bytes) then Ok (ResolvedRejected failure)
              else Err "confirmed input prefix exceeds its original input request"
          | _ => Err "confirmed input prefix exceeds its original input request"
          end
      | None => Ok (ResolvedRejected failure)
      end
  end.

Definition resolve_command (command_id : N) (o : ControlOutcome) (s : AttachmentShared)
    : outcome (AttachmentShared * result unit string) :=
  match pending (state s) !! command_id with
  | None => Ret (s, Err "command result names an unknown or completed ID")
  | Some p =>
      match resolution (kind p) o with
      | Err why => Ret (s, Err why)
      | Ok r =>
          let st := set_pending (delete command_id (pending (state s))) (pending_inputs (state s))
                      (pending_input_bytes (state s)) (state s) in
          let! st := release_pending_capacity (kind p) st in
          Ret (send_results [(ticket p, r)] (set_state st s), Ok tt)
      end
  end.

Definition cancel_unsent_command (command_id : N) (s : AttachmentShared) : outcome AttachmentShared :=
  match pending (state s) !! command_id with
  | None => Ret s
  | Some p =>
      let st := set_pending (delete command_id (pending (state s))) (pending_inputs (state s))
                  (pending_input_bytes (state s)) (state s) in
      let! st := release_pending_capacity (kind p) st in
      if decide (command_id = u32_max) then
        Ret (set_state (if decide (fence st = Some CommandIdsExhausted) then set_fence None st else st) s)
      else
        let! _ := check "assertion failed: next_command_id == command_id + 1"
                    (bool_decide (next_command_id st = command_id + 1)) in
        Ret (set_state (set_next_command_id command_id st) s)
  end.

Definition begin_detach (s : AttachmentShared) : AttachmentShared * result unit ClientError :=
  if attachment_end (state s) is Some _ then (s, Err (AttachmentUnavailable ClosedAttachment))
  else (set_state (set_detaching (state s)) s, Ok tt).

(** The loops of [wait_until_pending_empty] and [wait_until_detached] return when
    these do; [None] sleeps. *)
Definition pending_empty (s : AttachmentShared) : option (result unit ClientError) :=
  if decide (pending (state s) = ∅) then Some (Ok tt)
  else if attachment_end (state s) is Some _ then Some (Err Closed) else None.
Definition detached (s : AttachmentShared) : option (result unit ClientError) :=
  match attachment_end (state s) with
  | Some Detached => Some (Ok tt) | Some Terminated => Some (Err Closed) | None => None
  end.

Definition finish_detach (s : AttachmentShared) : AttachmentShared * result unit string :=
  if negb (detaching (state s)) then (s, Err "daemon acknowledged a detach the client did not request")
  else if decide (pending (state s) ≠ ∅)
  then (s, Err "daemon acknowledged detach while commands were unresolved")
  else
    let s := set_state (set_end Detached (state s)) s in
    let s := set_events (close None (events s)) s in
    (set_aborts (reader_abort s) true s, Ok tt).

Definition terminate (reason : AttachmentUnknownReason) (event_error : option ClientError)
    (s : AttachmentShared) : AttachmentShared :=
  if attachment_end (state s) is Some _ then s
  else
    let dropped := (map_to_list (pending (state s))).*2 in
    let s := set_state (set_pending ∅ 0 0 (set_end Terminated (state s))) s in
    let s := send_results (map (λ p, (ticket p, ResolvedUnknown reason)) dropped) s in
    let s := set_events (close event_error (events s)) s in
    set_aborts true true s.

(** ** Issuing a command *)

(** [mpsc::Sender::try_send] on the channel of [MAX_PENDING_COMMANDS] commands. *)
Inductive TrySend := Queued (s : AttachmentShared) | ChannelFull | ChannelClosed.
Definition try_send (c : WriterCommand) (s : AttachmentShared) : TrySend :=
  if writer_gone s then ChannelClosed
  else if decide (len (writer_queue s) < MAX_PENDING_COMMANDS)
  then Queued (set_writer (writer_queue s ++ [c]) false s)
  else ChannelFull.

Section issue.
Context `{!Serde ClientFrame, !Serde ServerFrame}.

(** The second half of [issue_command], after [register_command]: encode and queue
    the frame, or take the registration back. *)
Definition issue_send (command_id : N) (frame : N → ClientFrame) (s : AttachmentShared)
    : outcome (AttachmentShared * result unit ClientError) :=
  match encode_frame (frame command_id) with
  | Err e => let! s := cancel_unsent_command command_id s in Ret (s, Err (control_not_applied (Frame e)))
  | Ok encoded =>
      match try_send (WriteControl encoded) s with
      | Queued s => Ret (s, Ok tt)
      | ChannelFull =>
          let! s := cancel_unsent_command command_id s in
          Ret (s, Err (AttachmentBackpressure "64 queued writer commands"))
      | ChannelClosed =>
          let! s := cancel_unsent_command command_id s in
          Ret (terminate TransportTerminated (Some Closed) s, Err (control_not_applied Closed))
      end
  end.

(** What the caller of a queued command is told, from what its channel was sent. *)
Definition issue_result (command_id : N) (r : option PendingResolution)
    : result (N * ValidatedReceipt) ClientError :=
  match r with
  | Some (ResolvedAccepted receipt) => Ok (command_id, receipt)
  | Some (ResolvedRejected failure) => Err (ControlRejected failure)
  | Some (ResolvedUnknown reason) => Err (AttachmentCommandUnknown command_id reason)
  | None => Err (AttachmentCommandUnknown command_id TransportTerminated)
  end.

Record AttachmentControlAccepted (R : Type) := { accepted_command_id : N; accepted_receipt : R }.
Arguments accepted_command_id {R}.
Arguments accepted_receipt {R}.

Definition input_result (r : result (N * ValidatedReceipt) ClientError)
    : result (AttachmentControlAccepted Receipt.InputReceipt) ClientError :=
  let? '(command_id, receipt) := r in
  match receipt with
  | ValidatedInput receipt => Ok {| accepted_command_id := command_id; accepted_receipt := receipt |}
  | _ => Err (ProtocolContractViolation "validated input command resolved with another receipt kind")
  end.
Definition resize_result (r : result (N * ValidatedReceipt) ClientError)
    : result (AttachmentControlAccepted Receipt.ResizeReceipt) ClientError :=
  let? '(command_id, receipt) := r in
  match receipt with
  | ValidatedResize receipt => Ok {| accepted_command_id := command_id; accepted_receipt := receipt |}
  | _ => Err (ProtocolContractViolation "validated resize command resolved with another receipt kind")
  end.
Definition interrupt_result (r : result (N * ValidatedReceipt) ClientError)
    : result (AttachmentControlAccepted Receipt.SignalReceipt) ClientError :=
  let? '(command_id, receipt) := r in
  match receipt with
  | ValidatedSignal receipt => Ok {| accepted_command_id := command_id; accepted_receipt := receipt |}
  | _ => Err (ProtocolContractViolation "validated signal command resolved with another receipt kind")
  end.
Definition stop_result (r : result (N * ValidatedReceipt) ClientError)
    : result (AttachmentControlAccepted Receipt.StopReceipt) ClientError :=
  let? '(command_id, receipt) := r in
  match receipt with
  | ValidatedStop receipt => Ok {| accepted_command_id := command_id; accepted_receipt := receipt |}
  | _ => Err (ProtocolContractViolation "validated stop command resolved with another receipt kind")
  end.

(** The frame each command sends. *)
Definition input_frame (d : bytes) (command_id : N) : ClientFrame := ClientInput command_id d.
Definition resize_frame (size : TerminalSize) (command_id : N) : ClientFrame := ClientResize command_id size.
Definition interrupt_frame (command_id : N) : ClientFrame := ClientSignal command_id Interrupt.
Definition stop_frame (operation : RecoverableStop) (command_id : N) : ClientFrame :=
  ClientStop command_id operation.

(** ** The tasks *)

(** One turn of [writer_loop]: the head of the queue went to the transport, with
    this result.  A failed send ends the task and drops the channel. *)
Definition writer_turn (sent : result unit ClientError) (s : AttachmentShared) : AttachmentShared :=
  match writer_queue s with
  | [] => s
  | _ :: rest =>
      match sent with
      | Ok _ => set_writer rest false s
      | Err e => set_writer [] true (terminate TransportTerminated (Some e) (set_writer rest false s))
      end
  end.

(** What the reader's stream yields. *)
Inductive Read := Line (line : bytes) | ReadFailure (e : LinesCodecError) | EndOfStream.

(** One turn of [reader_loop]; [true] when the task returns.  [room] is the allocated
    capacity of the event's buffer. *)
Definition reader_turn (host : Host) (room : N) (r : Read) (s : AttachmentShared)
    : outcome (AttachmentShared * bool) :=
  match r with
  | ReadFailure e => Ret (terminate TransportTerminated (Some (Transport e)) s, true)
  | EndOfStream =>
      let event_error := if accepts_clean_eof (events s) then None else Some Closed in
      Ret (terminate TransportTerminated event_error s, true)
  | Line line =>
      match decode_frame (T := ServerFrame) line with
      | Err e => Ret (terminate ProtocolViolation (Some (Frame e)) s, true)
      | Ok frame =>
          let! '(s, r) := match frame with
            | FEvent event =>
                let! '(e, r) := push host {| event := event; room := room |} (events s) in
                Ret (set_events e s, map_err inl r)
            | FCommandResult command_id o =>
                let! '(s, r) := resolve_command command_id o s in Ret (s, map_err inl r)
            | FDetached => let '(s, r) := finish_detach s in Ret (s, map_err inl r)
            | FError error => Ret (s, Err (inr error))
            | FReplayWindow _ _ | FHello _ | FResponse _ | FAttached _ | FTerminalCheckpointChunk _ _ =>
                Ret (s, Err (inl "daemon sent a non-attachment frame after attach"%string))
            end in
          match r with
          | Err (inr error) => Ret (terminate ProtocolViolation (Some (from_protocol_error error)) s, true)
          | Err (inl why) => Ret (terminate ProtocolViolation (Some (ProtocolContractViolation why)) s, true)
          | Ok _ => Ret (s, if frame is FDetached then true else false)
          end
      end
  end.
End issue.

(** ** A life of an attachment *)

(** A registered command: its identifier, its caller's channel and its kind. *)
Record Issued := { issued_id : N; issued_ticket : N; issued_kind : PendingKind }.

(** Who holds the attachment: commands borrow it, [detach] and drop consume it. *)
Inductive Holder := Held_ | DetachBegun | DetachQueued | Dropped.

(** Everything one attachment did: its shared state, the holder, the command between
    registration and queueing (under [issue_lock]), the commands queued for the
    writer, in order, and the next unused channel. *)
Record Life := {
  shared : AttachmentShared;
  holder : Holder;
  issuing : option Issued;
  sent : list Issued;
  tickets : N;
}.

Section life.
Context `{!Serde ClientFrame, !Serde ServerFrame} (host : Host).

Definition born (l : AttachmentEventLimits) : Life :=
  {| shared := with_event_limits l; holder := Held_; issuing := None; sent := []; tickets := 0 |}.
Definition lives (s : AttachmentShared) (w : Life) : Life :=
  {| shared := s; holder := holder w; issuing := issuing w; sent := sent w; tickets := tickets w |}.

(** The steps of the caller, the two tasks and the consumer, in any order the locks
    allow. *)
Inductive step (w : Life) : Life → Prop :=
  | step_register k s command_id : holder w = Held_ → issuing w = None →
      register_command k (tickets w) (shared w) = Ret (s, Ok command_id) →
      step w {| shared := s; holder := Held_;
                issuing := Some {| issued_id := command_id; issued_ticket := tickets w; issued_kind := k |};
                sent := sent w; tickets := tickets w + 1 |}
  | step_sent c frame s : issuing w = Some c → issue_send (issued_id c) frame (shared w) = Ret (s, Ok tt) →
      step w {| shared := s; holder := holder w; issuing := None; sent := sent w ++ [c]; tickets := tickets w |}
  | step_unsent c frame s e : issuing w = Some c → issue_send (issued_id c) frame (shared w) = Ret (s, Err e) →
      step w {| shared := s; holder := holder w; issuing := None; sent := sent w; tickets := tickets w |}
  | step_reader room r s over : reader_turn host room r (shared w) = Ret (s, over) → step w (lives s w)
  | step_writer r : step w (lives (writer_turn r (shared w)) w)
  | step_writer_gone : writer_abort (shared w) = true → step w (lives (set_writer [] true (shared w)) w)
  | step_view s t : next (events (shared w)) = Ret (s, t) → step w (lives (set_events s (shared w)) w)
  | step_wake s t : wake (events (shared w)) = Ret (s, t) → step w (lives (set_events s (shared w)) w)
  | step_begin_detach s : holder w = Held_ → issuing w = None → begin_detach (shared w) = (s, Ok tt) →
      step w {| shared := s; holder := DetachBegun; issuing := None; sent := sent w; tickets := tickets w |}
  | step_queue_detach s : holder w = DetachBegun → pending_empty (shared w) = Some (Ok tt) →
      try_send WriteDetach (shared w) = Queued s →
      step w {| shared := s; holder := DetachQueued; issuing := None; sent := sent w; tickets := tickets w |}
  | step_drop : issuing w = None →
      step w {| shared := terminate ClosedLocally None (shared w); holder := Dropped; issuing := None;
                sent := sent w; tickets := tickets w |}.

Inductive reached (l : AttachmentEventLimits) : Life → Prop :=
  | reached_born : reached l (born l)
  | reached_step w w' : reached l w → step w w' → reached l w'.
End life.

(** ** What holds of every life *)

(** A result that answers a command of this kind. *)
Definition answers (k : PendingKind) (r : PendingResolution) : Prop :=
  match r with
  | ResolvedAccepted receipt =>
      match k, receipt with
      | PendingInput n, ValidatedInput r => Receipt.written_bytes r = n
      | PendingResize, ValidatedResize r =>
          cols (Receipt.applied_size r) ≠ 0 ∧ rows (Receipt.applied_size r) ≠ 0
      | PendingSignal g, ValidatedSignal r => Receipt.signal r = g
      | PendingStop, ValidatedStop _ => True
      | _, _ => False
      end
  | ResolvedRejected failure =>
      validate_control_failure failure = Ok tt ∧
      match confirmed_input_bytes failure with
      | Some n => ∃ expected, k = PendingInput expected ∧ n ≤ expected | None => True
      end
  | ResolvedUnknown _ => True
  end.

(** The capacity a pending table takes up. *)
Definition input_weight (p : PendingCommand) : N := if is_input (kind p) then 1 else 0.
Definition inputs_of (m : gmap N PendingCommand) : N := msum input_weight m.
Definition bytes_of (m : gmap N PendingCommand) : N := msum (λ p, input_bytes (kind p)) m.

Record capacity (st : AttachmentState) : Prop := {
  ca_inputs : pending_inputs st = inputs_of (pending st);
  ca_bytes : pending_input_bytes st = bytes_of (pending st);
  ca_size : N.of_nat (size (pending st)) ≤ MAX_PENDING_COMMANDS;
  ca_inputs_le : pending_inputs st ≤ MAX_PENDING_INPUT_COMMANDS;
  ca_bytes_le : pending_input_bytes st ≤ MAX_PENDING_INPUT_BYTES;
}.

(** An identifier that was handed out and not taken back. *)
Definition used (st : AttachmentState) (id : N) : Prop :=
  id ≠ 0 ∧ (id < next_command_id st ∨ (id = u32_max ∧ next_command_id st = u32_max ∧ fence st ≠ None)).

(** The books of an attachment that knows the commands [known] and has handed out
    the channels below [n]: identifiers and channels are never shared, and every
    known command is pending under its own identifier or has its one answer. *)
Record ledger (known : list Issued) (n : N) (s : AttachmentShared) : Prop := {
  le_capacity : capacity (state s);
  le_ended : attachment_end (state s) ≠ None → pending (state s) = ∅ ∧ fence (state s) ≠ None;
  le_next : next_command_id (state s) ≠ 0 ∧ next_command_id (state s) ≤ u32_max;
  le_ids : NoDup (map issued_id known);
  le_used : ∀ c, c ∈ known → used (state s) (issued_id c);
  le_tickets : NoDup (map issued_ticket known);
  le_fresh : ∀ c, c ∈ known → issued_ticket c < n;
  le_once : NoDup (results s).*1;
  le_answered : ∀ t, t ∈ (results s).*1 → t < n;
  le_pending : ∀ id p, pending (state s) !! id = Some p → (ticket p ∉ (results s).*1) ∧
    {| issued_id := id; issued_ticket := ticket p; issued_kind := kind p |} ∈ known;
  le_settled : ∀ c, c ∈ known →
    pending (state s) !! issued_id c = Some {| kind := issued_kind c; ticket := issued_ticket c |} ∨
    ∃ r, (issued_ticket c, r) ∈ results s ∧ answers (issued_kind c) r;
}.

Lemma ledger_same known n s s' : ledger known n s → state s' = state s → results s' = results s → ledger known n s'.
Proof. intros [] E1 E2. constructor; rewrite ?E1, ?E2; done. Qed.

Lemma limits_small : MAX_PENDING_INPUT_BYTES ≤ u64_max ∧ MAX_PENDING_INPUT_COMMANDS + 1 ≤ u64_max.
Proof. by vm_compute. Qed.

(** *** Registration *)

Lemma capacity_insert st id k t inputs bytes nid f : capacity st → pending st !! id = None →
  N.of_nat (size (pending st)) ≠ MAX_PENDING_COMMANDS →
  (is_input k = true → pending_inputs st ≠ MAX_PENDING_INPUT_COMMANDS) →
  inputs = pending_inputs st + (if is_input k then 1 else 0) → bytes = pending_input_bytes st + input_bytes k →
  bytes ≤ MAX_PENDING_INPUT_BYTES →
  capacity (set_pending (<[id := {| kind := k; ticket := t |}]> (pending st)) inputs bytes
              (set_next_command_id nid (set_fence f st))).
Proof.
  intros [] Hid Hsize Hin -> -> Hb. constructor; cbn [set_pending pending pending_inputs pending_input_bytes].
  - unfold inputs_of in *. rewrite msum_insert_None by done. unfold input_weight at 1. cbn [kind]. lia.
  - unfold bytes_of in *. rewrite msum_insert_None by done. cbn [kind]. lia.
  - rewrite map_size_insert_None by done. lia.
  - destruct (is_input k); [specialize (Hin eq_refl); lia|lia].
  - done.
Qed.

(** A registration that succeeds hands out the next identifier, and the last one
    closes the space. *)
Definition registered (k : PendingKind) (t : N) (s : AttachmentShared) : AttachmentShared :=
  let st := state s in
  let last := bool_decide (next_command_id st = u32_max) in
  set_state (set_pending (<[next_command_id st := {| kind := k; ticket := t |}]> (pending st))
    (pending_inputs st + (if is_input k then 1 else 0)) (pending_input_bytes st + input_bytes k)
    (set_next_command_id (if last then next_command_id st else next_command_id st + 1)
       (set_fence (if last then Some CommandIdsExhausted else fence st) st))) s.

Lemma register_command_spec k t s : capacity (state s) → next_command_id (state s) ≠ 0 →
  (fence (state s) = None → pending (state s) !! next_command_id (state s) = None) →
  ∃ s' r, register_command k t s = Ret (s', r) ∧
    match r with
    | Err _ => s' = s
    | Ok id => id = next_command_id (state s) ∧ attachment_end (state s) = None ∧ fence (state s) = None ∧
        s' = registered k t s ∧ capacity (state s')
    end.
Proof.
  intros Hc Hnz Hfree. unfold register_command.
  destruct (attachment_end (state s)) eqn:He; [by eexists _, _|].
  destruct (fence (state s)) eqn:Hf; [by eexists _, _|]. specialize (Hfree eq_refl).
  case_match; [by eexists _, _|]. case_decide as Hsize; [by eexists _, _|].
  case_match eqn:Hin; [by eexists _, _|].
  destruct (checked_add _ _) as [total|] eqn:Hadd; [|by eexists _, _].
  apply checked_add_Some in Hadd as [-> Hmax]. destruct (bool_decide (MAX_PENDING_INPUT_BYTES < _)) eqn:Hb; [by eexists _, _|].
  apply bool_decide_eq_false in Hb. unfold attachment_command_id_new. rewrite decide_False by done. cbn [obind expect].
  pose proof limits_small as [_ Hl]. pose proof (ca_inputs_le _ Hc) as Hle.
  assert (pending_inputs (state s) + (if is_input k then 1 else 0) ≤ u64_max) as Hp by (destruct (is_input k); lia).
  rewrite (plus_u64_ok _ _ Hp), (plus_u64_ok _ _ Hmax). cbn [obind]. unfold check. rewrite bool_decide_true by done.
  cbn [obind]. eexists _, _. split; [done|]. split; [done|]. split; [done|]. split; [done|].
  assert (∀ x, x = registered k t s → x = registered k t s ∧ capacity (state x)) as Hdone.
  { intros x ->. split; [done|]. unfold registered. cbn [set_state state].
    apply capacity_insert; try done; [|lia]. intros Hi. rewrite Hi in Hin. by apply bool_decide_eq_false in Hin. }
  apply Hdone. unfold registered. destruct s as [[] ? ? ? ? ? ?]. cbn in *. subst.
  destruct (decide _) as [->|Hlast]; [by rewrite bool_decide_true|by rewrite bool_decide_false].
Qed.

(** *** Settling *)

Lemma NoDup_map_inj {A B} (f : A → B) (l : list A) x y :
  NoDup (map f l) → x ∈ l → y ∈ l → f x = f y → x = y.
Proof.
  induction l as [|z l IH]; cbn; [set_solver|]. intros [Hz Hl]%NoDup_cons Hx Hy E.
  apply elem_of_cons in Hx as [->|Hx], Hy as [->|Hy]; [done| | |by auto]; exfalso; apply Hz.
  - rewrite E. by apply list_elem_of_fmap_2.
  - rewrite <-E. by apply list_elem_of_fmap_2.
Qed.

(** Commands leave the table with an answer each, and nothing else changes. *)
Lemma ledger_settle known n s s' rs : ledger known n s → capacity (state s') →
  next_command_id (state s') = next_command_id (state s) →
  (fence (state s) ≠ None → fence (state s') ≠ None) →
  (attachment_end (state s') ≠ None → pending (state s') = ∅ ∧ fence (state s') ≠ None) →
  results s' = results s ++ rs → NoDup rs.*1 → pending (state s') ⊆ pending (state s) →
  (∀ t r, (t, r) ∈ rs → ∃ id p, pending (state s) !! id = Some p ∧ pending (state s') !! id = None ∧
     ticket p = t ∧ answers (kind p) r) →
  (∀ id p, pending (state s) !! id = Some p → pending (state s') !! id = Some p ∨ ticket p ∈ rs.*1) →
  ledger known n s'.
Proof.
  intros Hl Hc Hn Hf He Hr Hnd Hsub Hrs Hall.
  assert (∀ id p id' p', pending (state s) !! id = Some p → pending (state s) !! id' = Some p' →
    ticket p = ticket p' → id = id') as Hinj.
  { intros id p id' p' K1 K2 E. destruct (le_pending _ _ _ Hl _ _ K1) as [_ K1'], (le_pending _ _ _ Hl _ _ K2) as [_ K2'].
    pose proof (NoDup_map_inj _ _ _ _ (le_tickets _ _ _ Hl) K1' K2' E) as [=]. done. }
  constructor; try done; rewrite ?Hr, ?Hn; try apply Hl.
  - intros c Hin. destruct (le_used _ _ _ Hl c Hin) as [K1 K2]. split; [done|]. rewrite Hn. naive_solver.
  - rewrite fmap_app. apply NoDup_app. split; [apply Hl|]. split; [|done].
    intros t Ht ([t' r] & -> & Hin)%list_elem_of_fmap. cbn in Ht.
    destruct (Hrs t' r Hin) as (id & p & Hp & _ & <- & _). by destruct (le_pending _ _ _ Hl _ _ Hp).
  - intros t. rewrite fmap_app, elem_of_app. intros [Ht|([t' r] & -> & Hin)%list_elem_of_fmap]; [by apply Hl|].
    destruct (Hrs t' r Hin) as (id & p & Hp & _ & <- & _). cbn.
    destruct (le_pending _ _ _ Hl _ _ Hp) as [_ Hk]. by apply (le_fresh _ _ _ Hl) in Hk.
  - intros id p Hp. pose proof (lookup_weaken _ _ _ _ Hp Hsub) as Hp0. destruct (le_pending _ _ _ Hl _ _ Hp0) as [Hno Hk].
    split; [|done]. rewrite fmap_app, elem_of_app. intros [?|([t' r] & Ht & Hin)%list_elem_of_fmap]; [done|].
    destruct (Hrs t' r Hin) as (id' & p' & Hp' & Hgone & Ht' & _). cbn in Ht.
    assert (id = id') as -> by (apply (Hinj id p id' p'); congruence). congruence.
  - intros c Hin. destruct (le_settled _ _ _ Hl c Hin) as [Hp|(r & Hr' & Ha)].
    + destruct (Hall _ _ Hp) as [?|([t r] & Ht & Hin')%list_elem_of_fmap]; [by left|right]. cbn in Ht.
      destruct (Hrs t r Hin') as (id' & p' & Hp' & _ & Ht' & Ha). exists r. rewrite elem_of_app, Ht.
      split; [by right|]. assert (issued_id c = id') as <- by (apply (Hinj _ _ _ _ Hp Hp'); cbn; congruence).
      rewrite Hp in Hp'. by injection Hp' as <-.
    + right. exists r. by rewrite elem_of_app; auto.
Qed.

(** A command's capacity comes back when it leaves the table. *)
Definition released (id : N) (p : PendingCommand) (st : AttachmentState) : AttachmentState :=
  set_pending (delete id (pending st)) (pending_inputs st - input_weight p)
    (pending_input_bytes st - input_bytes (kind p)) st.
Lemma release_spec st id p : capacity st → pending st !! id = Some p →
  release_pending_capacity (kind p)
    (set_pending (delete id (pending st)) (pending_inputs st) (pending_input_bytes st) st) = Ret (released id p st) ∧
  capacity (released id p st).
Proof.
  intros Hc Hp. pose proof (ca_inputs _ Hc) as K1. pose proof (ca_bytes _ Hc) as K2.
  unfold inputs_of, bytes_of in *. rewrite (msum_delete _ _ _ _ Hp) in K1. rewrite (msum_delete _ _ _ _ Hp) in K2. split.
  - unfold release_pending_capacity, released, input_weight in *. cbn [set_pending pending pending_inputs pending_input_bytes].
    destruct (is_input (kind p)) eqn:Hk.
    + rewrite !minus_u64_ok by lia. done.
    + replace (input_bytes (kind p)) with 0 by (by destruct (kind p)). by rewrite !N.sub_0_r.
  - destruct Hc. constructor; cbn [released set_pending pending pending_inputs pending_input_bytes];
      unfold inputs_of, bytes_of in *; try lia. rewrite map_size_delete_Some by done. lia.
Qed.

Lemma validate_answers k r receipt : validate k r = Ok receipt → answers k (ResolvedAccepted receipt).
Proof.
  destruct k, r; cbn; try done.
  - case_decide; [|done]. by intros [= <-].
  - destruct (bool_decide (cols _ ≠ 0)) eqn:K1; [|done]. cbn [andb]. destruct (bool_decide (rows _ ≠ 0)) eqn:K2; [|done].
    apply bool_decide_eq_true in K1, K2. by intros [= <-].
  - case_decide; [|done]. by intros [= <-].
  - by intros [= <-].
Qed.
Lemma resolution_answers k o r : resolution k o = Ok r → answers k r.
Proof.
  destruct o as [receipt|failure]; cbn.
  - destruct (validate k receipt) eqn:Hv; [|done]. intros [= <-]. by apply validate_answers in Hv.
  - destruct (validate_control_failure failure) as [[]|] eqn:Hv; [|done]. cbn.
    destruct (confirmed_input_bytes failure) as [n|] eqn:Hn.
    + destruct k as [expected| | |]; try done. case_decide; [|done]. intros [= <-]. cbn. rewrite Hn. eauto.
    + intros [= <-]. cbn. by rewrite Hn.
Qed.

(** What the connection's tasks leave alone: no frame is queued, no identifier is
    handed out, no command is admitted and no fence is lifted. *)
Definition calm (s s' : AttachmentShared) : Prop :=
  writer_queue s' = writer_queue s ∧ next_command_id (state s') = next_command_id (state s) ∧
  pending (state s') ⊆ pending (state s) ∧ (fence (state s) ≠ None → fence (state s') ≠ None).
Lemma calm_refl s : calm s s.
Proof. done. Qed.
Lemma calm_trans s s1 s' : calm s s1 → calm s1 s' → calm s s'.
Proof.
  intros (K1 & K2 & K3 & K4) (K5 & K6 & K7 & K8). split; [congruence|]. split; [congruence|].
  split; [by etrans|]. auto.
Qed.
Lemma calm_events e s : calm s (set_events e s).
Proof. done. Qed.
Lemma terminate_calm reason e s : calm s (terminate reason e s).
Proof.
  unfold terminate. destruct (attachment_end (state s)); [done|]. split; [done|]. split; [done|].
  split; [apply map_empty_subseteq|done].
Qed.

Lemma resolve_ledger known n id o s : ledger known n s →
  ∃ s' r, resolve_command id o s = Ret (s', r) ∧ ledger known n s' ∧ events s' = events s ∧ calm s s'.
Proof.
  intros Hl. unfold resolve_command. destruct (pending (state s) !! id) as [p|] eqn:Hp; [|by eexists _, _].
  destruct (resolution (kind p) o) as [r|] eqn:Hr; [|by eexists _, _].
  destruct (release_spec _ _ _ (le_capacity _ _ _ Hl) Hp) as [-> Hc]. cbn [obind]. eexists _, _. split; [done|].
  split; [|split; [done|split; [done|split; [done|split; [apply delete_subseteq|done]]]]].
  apply (ledger_settle known n s _ [(ticket p, r)]); try done.
  - intros He. destruct (le_ended _ _ _ Hl He) as [E _]. by rewrite E, lookup_empty in Hp.
  - cbn. apply NoDup_singleton.
  - cbn. apply delete_subseteq.
  - intros t r' [= -> ->]%list_elem_of_singleton. exists id, p. split; [done|]. cbn.
    rewrite lookup_delete_eq. split; [done|]. split; [done|]. by apply resolution_answers in Hr.
  - intros id' p' Hp'. cbn. destruct (decide (id' = id)) as [->|Hne].
    + right. rewrite Hp in Hp'. injection Hp' as ->. set_solver.
    + left. by rewrite lookup_delete_ne.
Qed.

Lemma terminate_ledger known n reason e s : ledger known n s →
  ledger known n (terminate reason e s) ∧ attachment_end (state (terminate reason e s)) ≠ None.
Proof.
  intros Hl. unfold terminate. destruct (attachment_end (state s)) eqn:He; [by rewrite He|]. split; [|done].
  assert (∀ p, p ∈ (map_to_list (pending (state s))).*2 ↔ ∃ id, pending (state s) !! id = Some p) as Hin.
  { intros p. split.
    - intros ([id p'] & -> & Hin)%list_elem_of_fmap. exists id. by apply elem_of_map_to_list.
    - intros [id Hp]. apply list_elem_of_fmap. exists (id, p). split; [done|]. by apply elem_of_map_to_list. }
  set (rs := map (λ p, (ticket p, ResolvedUnknown reason)) (map_to_list (pending (state s))).*2).
  apply (ledger_settle known n s _ rs); try done.
  - unfold rs. rewrite <-list_fmap_compose. rewrite <-list_fmap_compose.
    apply NoDup_fmap_2_strong; [|apply NoDup_map_to_list].
    intros [id p] [id' p'] K1%elem_of_map_to_list K2%elem_of_map_to_list E. cbn in E.
    destruct (le_pending _ _ _ Hl _ _ K1) as [_ K1'], (le_pending _ _ _ Hl _ _ K2) as [_ K2'].
    pose proof (NoDup_map_inj _ _ _ _ (le_tickets _ _ _ Hl) K1' K2' E) as [= -> _]. congruence.
  - cbn. apply map_empty_subseteq.
  - intros t r. unfold rs. intros (p & [= -> ->] & Hp)%list_elem_of_fmap. apply Hin in Hp as [id Hp].
    exists id, p. cbn. by rewrite lookup_empty.
  - intros id p Hp. right. unfold rs. rewrite <-list_fmap_compose. apply list_elem_of_fmap. exists p. split; [done|].
    apply Hin. eauto.
Qed.
Lemma finish_detach_ledger known n s s' r : ledger known n s → finish_detach s = (s', r) →
  ledger known n s' ∧ calm s s'.
Proof.
  intros Hl. unfold finish_detach. case_match; [by intros [= <- <-]|]. case_decide as Hp; [by intros [= <- <-]|].
  intros [= <- <-]. split; [|done]. apply (ledger_settle known n s _ []); try done.
  - destruct (le_capacity _ _ _ Hl). by constructor.
  - cbn. by rewrite app_nil_r.
  - constructor.
  - set_solver.
  - intros id p Hp'. by left.
Qed.

Lemma detaching_ledger known n s : ledger known n s → attachment_end (state s) = None →
  ledger known n (set_state (set_detaching (state s)) s).
Proof.
  intros Hl He. apply (ledger_settle known n s _ []); try done.
  - destruct (le_capacity _ _ _ Hl). by constructor.
  - cbn. by rewrite app_nil_r.
  - constructor.
  - set_solver.
  - intros id p Hp'. by left.
Qed.

(** *** Registering and taking back *)

Lemma registered_ledger known n k s : ledger known n s → fence (state s) = None →
  attachment_end (state s) = None → capacity (state (registered k n s)) →
  ledger (known ++ [{| issued_id := next_command_id (state s); issued_ticket := n; issued_kind := k |}]) (n + 1)
    (registered k n s).
Proof.
  intros Hl Hf He Hc. destruct (le_next _ _ _ Hl) as [Hnz Hmax].
  set (c := {| issued_id := next_command_id (state s); issued_ticket := n; issued_kind := k |}).
  assert (∀ c', c' ∈ known → issued_id c' < next_command_id (state s)) as Hlt.
  { intros c' Hin. destruct (le_used _ _ _ Hl c' Hin) as [_ [?|(_ & _ & ?)]]; done. }
  assert (∀ id, id ≠ 0 → id < next_command_id (state s) ∨ id = next_command_id (state s) →
    used (state (registered k n s)) id) as Hused.
  { intros id Hid Hcase. split; [done|]. cbn. case_bool_decide as Hb; cbn; [|left; lia].
    destruct Hcase as [?| ->]; [by left|right; done]. }
  constructor; try done.
  - cbn. case_bool_decide; split; try lia; done.
  - rewrite map_app. apply NoDup_app. split; [apply Hl|]. split; [|apply NoDup_singleton].
    intros id (c' & -> & Hin)%list_elem_of_fmap E%list_elem_of_singleton.
    apply Hlt in Hin. cbn in E. lia.
  - intros c' [Hin| ->%list_elem_of_singleton]%elem_of_app; apply Hused; [apply (le_used _ _ _ Hl c' Hin)|left; by apply Hlt|done|by right].
  - rewrite map_app. apply NoDup_app. split; [apply Hl|]. split; [|apply NoDup_singleton].
    intros t (c' & -> & Hin)%list_elem_of_fmap E%list_elem_of_singleton.
    apply (le_fresh _ _ _ Hl) in Hin. cbn in E. lia.
  - intros c' [Hin| ->%list_elem_of_singleton]%elem_of_app; [apply (le_fresh _ _ _ Hl) in Hin; lia|cbn; lia].
  - apply Hl.
  - intros t Ht. apply (le_answered _ _ _ Hl) in Ht. lia.
  - intros id p Hp. cbn in Hp. apply lookup_insert_Some in Hp as [[<- <-]|[Hne Hp]].
    + split; [|apply elem_of_app; right; set_solver]. intros Ht. apply (le_answered _ _ _ Hl) in Ht. cbn in Ht. lia.
    + destruct (le_pending _ _ _ Hl _ _ Hp) as [? ?]. split; [done|]. apply elem_of_app. by left.
  - intros c' [Hin| ->%list_elem_of_singleton]%elem_of_app.
    + destruct (le_settled _ _ _ Hl c' Hin) as [Hp|?]; [left|by right]. cbn. rewrite lookup_insert_ne; [done|].
      apply Hlt in Hin. lia.
    + left. cbn. by rewrite lookup_insert_eq.
Qed.

(** A command that is no longer pending may be forgotten. *)
Lemma ledger_forget known n c s : ledger (known ++ [c]) n s → pending (state s) !! issued_id c = None →
  ledger known n s.
Proof.
  intros [] Hno. assert (∀ c', c' ∈ known → c' ∈ known ++ [c]) as Hin by (intros; apply elem_of_app; by left).
  constructor; auto.
  - rewrite map_app in le_ids0. by apply NoDup_app in le_ids0 as (? & _ & _).
  - rewrite map_app in le_tickets0. by apply NoDup_app in le_tickets0 as (? & _ & _).
  - intros id p Hp. destruct (le_pending0 _ _ Hp) as [? [Hk|Hk%list_elem_of_singleton]%elem_of_app]; [done|].
    rewrite <-Hk in Hno. cbn in Hno. congruence.
Qed.

(** The identifier the issuing command took is the last one handed out. *)
Definition latest (id : N) (st : AttachmentState) : Prop :=
  next_command_id st = id + 1 ∨ (id = u32_max ∧ next_command_id st = u32_max).

Lemma cancel_ledger known n c s : ledger (known ++ [c]) n s → latest (issued_id c) (state s) →
  (∀ c', c' ∈ known → issued_id c' < issued_id c) →
  ∃ s', cancel_unsent_command (issued_id c) s = Ret s' ∧ ledger known n s' ∧
    events s' = events s ∧ writer_queue s' = writer_queue s ∧ pending (state s') ⊆ pending (state s) ∧
    attachment_end (state s') = attachment_end (state s).
Proof.
  intros Hl Hlast Hbelow. unfold cancel_unsent_command.
  destruct (pending (state s) !! issued_id c) as [p|] eqn:Hp; [|eexists; split; [done|]; split; [by eapply ledger_forget|done]].
  destruct (release_spec _ _ _ (le_capacity _ _ _ Hl) Hp) as [-> Hc]. cbn [obind].
  assert (attachment_end (state s) = None) as Hend.
  { destruct (attachment_end (state s)) eqn:He; [|done]. destruct (le_ended _ _ _ Hl) as [E _]; [congruence|].
    by rewrite E, lookup_empty in Hp. }
  destruct (le_next _ _ _ Hl) as [Hnz Hmax].
  assert (c ∈ known ++ [c]) as Hinc by set_solver. destruct (le_used _ _ _ Hl c Hinc) as [Hid _].
  assert (∀ f nid, nid ≠ 0 → nid ≤ u32_max →
    (∀ c', c' ∈ known → issued_id c' < nid ∨ (issued_id c' = u32_max ∧ nid = u32_max ∧ f ≠ None)) →
    ledger known n (set_state (set_next_command_id nid (set_fence f (released (issued_id c) p (state s)))) s)) as Hdone.
  { intros f nid K1 K2 K3. assert (∀ c', c' ∈ known → c' ∈ known ++ [c]) as Hin by (intros; apply elem_of_app; by left).
    constructor; try done.
    - destruct Hc. by constructor.
    - pose proof (le_ids _ _ _ Hl) as Hnd. rewrite map_app in Hnd. by apply NoDup_app in Hnd as (? & _ & _).
    - intros c' Hk. destruct (le_used _ _ _ Hl c' (Hin _ Hk)) as [? _]. split; [done|]. cbn. by apply K3.
    - pose proof (le_tickets _ _ _ Hl) as Hnd. rewrite map_app in Hnd. by apply NoDup_app in Hnd as (? & _ & _).
    - intros c' Hk. apply (le_fresh _ _ _ Hl). auto.
    - apply Hl.
    - apply Hl.
    - intros id q Hq. cbn in Hq. apply lookup_delete_Some in Hq as [Hne Hq].
      destruct (le_pending _ _ _ Hl _ _ Hq) as [? [Hk|Hk%list_elem_of_singleton]%elem_of_app]; [done|].
      by rewrite <-Hk in Hne.
    - intros c' Hk. destruct (le_settled _ _ _ Hl c' (Hin _ Hk)) as [Hq|?]; [left|by right]. cbn.
      rewrite lookup_delete_ne; [done|]. apply Hbelow in Hk. lia. }
  case_decide as Hlast'.
  - assert (∀ c', c' ∈ known → issued_id c' < next_command_id (state s)) as Hlt.
    { intros c' Hk. apply Hbelow in Hk. destruct Hlast as [?|[_ ?]]; lia. }
    eexists. split; [done|]. split; [|split; [done|split; [done|split; [|by case_decide]]]].
    + case_decide.
      * apply (Hdone None (next_command_id (state s))); [done|done|]. intros c' Hk. left. by apply Hlt.
      * apply (Hdone (fence (state s)) (next_command_id (state s))); [done|done|]. intros c' Hk. left. by apply Hlt.
    + case_decide; cbn; apply delete_subseteq.
  - destruct Hlast as [Hn|[? _]]; [|done]. unfold check. cbn [released set_pending next_command_id].
    rewrite bool_decide_true by done. cbn [obind]. eexists. split; [done|].
    split; [|split; [done|split; [done|split; [apply delete_subseteq|done]]]].
    apply (Hdone (fence (state s)) (issued_id c)); [done|lia|]. intros c' Hk. left. by apply Hbelow.
Qed.

(** *** The issuing command, the tasks *)

Definition view_ok (host : Host) (e : EventInbox) : Prop := windows host e ∧ order e.

Lemma view_close_ok host e v : view_ok host v → view_ok host (close e v).
Proof.
  intros [Hw Ho]. unfold close. destruct (closed v) eqn:Hc; [done|].
  split; [by apply (windows_same host v)|]. destruct Ho. constructor; cbn; done.
Qed.
Lemma terminate_events host reason e s : view_ok host (events s) → view_ok host (events (terminate reason e s)).
Proof. intros Hv. unfold terminate. destruct (attachment_end (state s)); [done|]. by apply view_close_ok. Qed.
Lemma terminate_queue reason e s : writer_queue (terminate reason e s) = writer_queue s ∧
  writer_gone (terminate reason e s) = writer_gone s.
Proof. unfold terminate. by destruct (attachment_end (state s)). Qed.
Lemma not_applied_disposition e : control_disposition (control_not_applied e) = Some NotApplied.
Proof. by destruct e. Qed.

Section tasks.
Context `{!Serde ClientFrame, !Serde ServerFrame} (host : Host) (Hhost : host_ok host).

Lemma issue_send_spec known n c frame s : ledger (known ++ [c]) n s → latest (issued_id c) (state s) →
  (∀ c', c' ∈ known → issued_id c' < issued_id c) → view_ok host (events s) →
  ∃ s' r, issue_send (issued_id c) frame s = Ret (s', r) ∧ view_ok host (events s') ∧
    match r with
    | Ok _ => ledger (known ++ [c]) n s' ∧ state s' = state s ∧
        ∃ encoded, writer_queue s' = writer_queue s ++ [WriteControl encoded]
    | Err e => ledger known n s' ∧ writer_queue s' = writer_queue s ∧ control_disposition e = Some NotApplied ∧
        pending (state s') ⊆ pending (state s) ∧ (attachment_end (state s) ≠ None → attachment_end (state s') ≠ None)
    end.
Proof.
  intros Hl Hlast Hbelow Hv.
  destruct (cancel_ledger known n c s Hl Hlast Hbelow) as (s1 & Hcancel & Hl1 & He1 & Hq1 & Hp1 & Hend1).
  unfold issue_send. destruct (encode_frame _) as [encoded|e].
  - unfold try_send. destruct (writer_gone s).
    + rewrite Hcancel. cbn [obind]. eexists _, _. split; [done|]. split; [apply terminate_events; by rewrite He1|].
      destruct (terminate_ledger known n TransportTerminated (Some Closed) s1 Hl1) as [Hl2 Hend2].
      split; [done|]. split; [by rewrite (proj1 (terminate_queue _ _ _))|]. split; [done|]. split; [|done].
      unfold terminate. destruct (attachment_end (state s1)); [done|]. apply map_empty_subseteq.
    + case_decide.
      * eexists _, _. split; [done|]. split; [done|]. split; [by apply (ledger_same _ _ s)|]. split; [done|]. by eexists.
      * rewrite Hcancel. cbn [obind]. eexists _, _. split; [done|]. rewrite He1. split; [done|]. by rewrite Hend1.
  - rewrite Hcancel. cbn [obind]. eexists _, _. split; [done|]. rewrite He1. split; [done|]. split; [done|].
    split; [done|]. split; [apply not_applied_disposition|]. by rewrite Hend1.
Qed.

Lemma finish_detach_events s s' r : finish_detach s = (s', r) → view_ok host (events s) → view_ok host (events s').
Proof.
  unfold finish_detach. case_match; [by intros [= <- <-]|]. case_decide; [by intros [= <- <-]|].
  intros [= <- <-] Hv. by apply view_close_ok.
Qed.

(** The connection's tasks: what each turn of theirs may do. *)
Definition tended (known : list Issued) (n : N) (s s' : AttachmentShared) : Prop :=
  ledger known n s' ∧ view_ok host (events s') ∧ calm s s'.
Lemma tended_terminate known n s s1 reason e : tended known n s s1 → tended known n s (terminate reason e s1).
Proof.
  intros (Hl & Hv & Hc). split; [by apply terminate_ledger|]. split; [by apply terminate_events|].
  eapply calm_trans; [done|apply terminate_calm].
Qed.

Lemma reader_turn_spec known n room r s : ledger known n s → view_ok host (events s) →
  ∃ s' over, reader_turn host room r s = Ret (s', over) ∧ tended known n s s'.
Proof.
  intros Hl Hv. assert (tended known n s s) as Hs by done.
  unfold reader_turn. destruct r as [line|e|]; [|eexists _, _; split; [done|]; by apply tended_terminate..].
  destruct (decode_frame line) as [frame|e]; [|eexists _, _; split; [done|]; by apply tended_terminate].
  assert (∀ m : outcome (AttachmentShared * result unit (string + ProtocolError)),
    (∃ s1 r, m = Ret (s1, r) ∧ tended known n s s1) →
    ∃ s' over, (let! '(s, r) := m in
      match r with
      | Ok _ => Ret (s, if frame is FDetached then true else false)
      | Err (inl why) => Ret (terminate ProtocolViolation (Some (ProtocolContractViolation why)) s, true)
      | Err (inr error) => Ret (terminate ProtocolViolation (Some (from_protocol_error error)) s, true)
      end) = Ret (s', over) ∧ tended known n s s') as Hafter.
  { intros m (s1 & r & -> & Ht). cbn [obind]. destruct r as [[]|[why|error]]; eexists _, _; (split; [done|]);
      [done|by apply tended_terminate..]. }
  apply Hafter. clear Hafter. destruct frame as [| | | | |event|command_id o| |]; try (by eexists _, _).
  - destruct Hv as [Hw Ho]. destruct (push_spec host Hhost {| event := event; room := room |} _ Hw Ho) as (e' & r & -> & Hr).
    cbn [obind]. eexists _, _. split; [done|]. split; [by apply (ledger_same _ _ s)|]. split; [|done].
    cbn. destruct r as [[]|]; [|by subst]. by destruct Hr as (? & ? & _).
  - destruct (resolve_ledger known n command_id o s Hl) as (s1 & r & -> & Hl1 & He1 & Hc1). cbn [obind].
    eexists _, _. split; [done|]. split; [done|]. by rewrite He1.
  - destruct (finish_detach s) as [s1 r] eqn:Hf. eexists _, _. split; [done|].
    destruct (finish_detach_ledger known n s s1 r Hl Hf). split; [done|]. split; [|done].
    by eapply finish_detach_events.
Qed.

Lemma writer_turn_spec known n r s : ledger known n s → view_ok host (events s) →
  ledger known n (writer_turn r s) ∧ view_ok host (events (writer_turn r s)) ∧
  next_command_id (state (writer_turn r s)) = next_command_id (state s) ∧
  pending (state (writer_turn r s)) ⊆ pending (state s) ∧
  (fence (state s) ≠ None → fence (state (writer_turn r s)) ≠ None) ∧
  (writer_queue (writer_turn r s) = tail (writer_queue s) ∨ writer_queue (writer_turn r s) = []).
Proof.
  intros Hl Hv. unfold writer_turn. destruct (writer_queue s) as [|c rest] eqn:Hq; [by auto 10|].
  destruct r as [[]|e].
  - split; [by apply (ledger_same _ _ s)|]. do 4 (split; [done|]). by left.
  - set (s1 := set_writer rest false s). assert (ledger known n s1) as Hl1 by (by apply (ledger_same _ _ s)).
    destruct (terminate_calm TransportTerminated (Some e) s1) as (_ & K2 & K3 & K4).
    split; [apply (ledger_same _ _ (terminate TransportTerminated (Some e) s1)); [by apply terminate_ledger|done..]|].
    split; [by apply (terminate_events host TransportTerminated (Some e) s1)|]. by auto 10.
Qed.
End tasks.

Definition known (w : Life) : list Issued :=
  sent w ++ match issuing w with Some c => [c] | None => [] end.

Record sound (host : Host) (w : Life) : Prop := {
  so_ledger : ledger (known w) (tickets w) (shared w);
  so_view : view_ok host (events (shared w));
  so_issuing : ∀ c, issuing w = Some c → holder w = Held_ ∧ latest (issued_id c) (state (shared w)) ∧
    ∀ c', c' ∈ sent w → issued_id c' < issued_id c;
  so_detach : WriteDetach ∈ writer_queue (shared w) → (holder w = DetachQueued ∨ holder w = Dropped) ∧
    issuing w = None ∧ pending (state (shared w)) = ∅ ∧
    ∃ a, writer_queue (shared w) = a ++ [WriteDetach] ∧ WriteDetach ∉ a;
}.

Section sound.
Context `{!Serde ClientFrame, !Serde ServerFrame} (host : Host) (Hhost : host_ok host).

Lemma born_sound l : limits_validate host l = Ok tt → sound host (born l).
Proof.
  intros Hl. constructor; [|split|by intros c [=]|by intros ?%not_elem_of_nil].
  - constructor; try done; try apply NoDup_nil_2; try (intros c Hin; by apply not_elem_of_nil in Hin).
  - by destruct (history_ok host Hhost l [] [] (with_limits l) Hl (history_start host l)) as (? & ? & _).
  - by destruct (history_ok host Hhost l [] [] (with_limits l) Hl (history_start host l)) as (? & ? & _).
Qed.

(** Steps that only tend the shared state keep a life sound. *)
Lemma lives_sound w s : sound host w → ledger (known w) (tickets w) s → view_ok host (events s) →
  next_command_id (state s) = next_command_id (state (shared w)) →
  pending (state s) ⊆ pending (state (shared w)) →
  (writer_queue s = writer_queue (shared w) ∨ writer_queue s = tail (writer_queue (shared w)) ∨ writer_queue s = []) →
  sound host (lives s w).
Proof.
  intros Hs Hl Hv Hn Hp Hq. constructor; cbn [lives shared holder issuing sent tickets known]; try done.
  - intros c Hc. destruct (so_issuing _ _ Hs c Hc) as (K1 & K2 & K3). split; [done|]. split; [|done].
    unfold latest. by rewrite Hn.
  - intros Hin. assert (WriteDetach ∈ writer_queue (shared w)) as Hin0.
    { destruct Hq as [Hq|[Hq|Hq]]; rewrite Hq in Hin; [done| |by apply not_elem_of_nil in Hin].
      destruct (writer_queue (shared w)); [done|]. by apply list_elem_of_further. }
    destruct (so_detach _ _ Hs Hin0) as (K1 & K2 & K3 & a & K4 & K5). split; [done|]. split; [done|].
    split; [apply (anti_symm (⊆)); [by rewrite <-K3|apply map_empty_subseteq]|].
    destruct Hq as [Hq|[Hq|Hq]]; rewrite Hq in *; [by exists a| |by apply not_elem_of_nil in Hin].
    rewrite K4 in *. destruct a as [|x a]; [by apply not_elem_of_nil in Hin|]. exists a. split; [done|]. set_solver.
Qed.

Lemma register_sound w k s id : sound host w → holder w = Held_ → issuing w = None →
  register_command k (tickets w) (shared w) = Ret (s, Ok id) →
  sound host {| shared := s; holder := Held_;
    issuing := Some {| issued_id := id; issued_ticket := tickets w; issued_kind := k |};
    sent := sent w; tickets := tickets w + 1 |}.
Proof.
  intros Hs Hh Hi Hr. pose proof (so_ledger _ _ Hs) as Hl. unfold known in Hl. rewrite Hi, app_nil_r in Hl.
  assert (fence (state (shared w)) = None → ∀ c, c ∈ sent w → issued_id c < next_command_id (state (shared w))) as Hbelow.
  { intros Hf c Hc. destruct (le_used _ _ _ Hl c Hc) as [_ [?|(_ & _ & ?)]]; done. }
  destruct (register_command_spec k (tickets w) (shared w)) as (s' & r & Hr' & Hspec);
    [apply Hl|apply Hl| |].
  { intros Hf. destruct (pending _ !! _) as [p|] eqn:Hp; [|done]. destruct (le_pending _ _ _ Hl _ _ Hp) as [_ Hk].
    apply (Hbelow Hf) in Hk. cbn in Hk. lia. }
  rewrite Hr in Hr'. injection Hr' as <- <-. destruct Hspec as (-> & Hend & Hf & -> & Hc).
  constructor; unfold known; cbn [shared holder issuing sent tickets].
  - by apply registered_ledger.
  - exact (so_view _ _ Hs).
  - intros c [= <-]. split; [done|]. cbn [issued_id]. split; [|by apply Hbelow].
    unfold latest, registered. cbn. case_bool_decide; [by right|by left].
  - intros Hin. change (WriteDetach ∈ writer_queue (shared w)) in Hin.
    destruct (so_detach _ _ Hs Hin) as ([?|?] & _); congruence.
Qed.

Lemma send_sound w c frame s r : sound host w → issuing w = Some c →
  issue_send (issued_id c) frame (shared w) = Ret (s, r) →
  sound host {| shared := s; holder := holder w; issuing := None;
    sent := sent w ++ (if r is Ok _ then [c] else []); tickets := tickets w |} ∧
  (∀ e, r = Err e → writer_queue s = writer_queue (shared w) ∧ control_disposition e = Some NotApplied).
Proof.
  intros Hs Hi Hr. pose proof (so_ledger _ _ Hs) as Hl. unfold known in Hl. rewrite Hi in Hl.
  destruct (so_issuing _ _ Hs c Hi) as (Hh & Hlast & Hbelow).
  assert (WriteDetach ∉ writer_queue (shared w)) as Hno.
  { intros Hin. destruct (so_detach _ _ Hs Hin) as (_ & ? & _). congruence. }
  destruct (issue_send_spec host (sent w) (tickets w) c frame (shared w) Hl Hlast Hbelow (so_view _ _ Hs))
    as (s' & r' & Hr' & Hv & Hspec). rewrite Hr in Hr'. injection Hr' as <- <-.
  destruct r as [[]|e].
  - destruct Hspec as (Hl' & _ & encoded & Hq). split; [|done].
    constructor; unfold known; cbn [shared holder issuing sent tickets]; try done; [by rewrite app_nil_r|].
    rewrite Hq. intros Hin. set_solver.
  - destruct Hspec as (Hl' & Hq & Hd & _). rewrite app_nil_r. split; [|by intros ? [= <-]].
    constructor; unfold known; cbn [shared holder issuing sent tickets]; try done; [by rewrite app_nil_r|].
    by rewrite Hq.
Qed.

Lemma step_sound w w' : sound host w → step host w w' → sound host w'.
Proof.
  intros Hs Hstep. pose proof (so_ledger _ _ Hs) as Hl. pose proof (so_view _ _ Hs) as Hv.
  destruct Hstep as [k s id Hh Hi Hr|c frame s Hi Hr|c frame s e Hi Hr|room r s over Hr|r|Hab|s t Hr|s t Hr
    |s Hh Hi Hb|s Hh Hp Hq|Hi].
  - by apply (register_sound w).
  - by apply (send_sound w c frame s (Ok tt)).
  - pose proof (proj1 (send_sound w c frame s (Err e) Hs Hi Hr)) as K. by rewrite app_nil_r in K.
  - destruct (reader_turn_spec host Hhost (known w) (tickets w) room r (shared w) Hl Hv) as (s' & over' & Hr' & Ht).
    rewrite Hr in Hr'. injection Hr' as <- <-. destruct Ht as (K1 & K2 & K3 & K4 & K5 & _).
    apply lives_sound; auto.
  - destruct (writer_turn_spec host (known w) (tickets w) r (shared w) Hl Hv) as (K1 & K2 & K3 & K4 & _ & K5).
    apply lives_sound; auto.
  - apply lives_sound; auto. by apply (ledger_same _ _ (shared w)).
  - destruct Hv as [Hw Ho]. destruct (next_spec host _ Hw Ho) as (s' & t' & Hr' & (? & ? & _) & _).
    rewrite Hr in Hr'. injection Hr' as <- <-. apply lives_sound; auto; [by apply (ledger_same _ _ (shared w))|done].
  - destruct Hv as [Hw Ho]. destruct (wake_spec host _ Hw Ho) as (s' & t' & Hr' & (? & ? & _) & _).
    rewrite Hr in Hr'. injection Hr' as <- <-. apply lives_sound; auto; [by apply (ledger_same _ _ (shared w))|done].
  - unfold known in Hl. rewrite Hi in Hl. unfold begin_detach in Hb. destruct (attachment_end _) eqn:He; [done|].
    injection Hb as <-.
    constructor; unfold known; cbn [shared holder issuing sent tickets]; [by apply detaching_ledger|done|done|].
    intros Hin. destruct (so_detach _ _ Hs Hin) as ([?|?] & _); congruence.
  - assert (issuing w = None) as Hi.
    { destruct (issuing w) as [c|] eqn:Hi; [|done]. destruct (so_issuing _ _ Hs c Hi) as [? _]. congruence. }
    unfold known in Hl. rewrite Hi in Hl. unfold try_send in Hq. destruct (writer_gone _); [done|].
    case_decide; [|done]. injection Hq as <-. unfold pending_empty in Hp.
    destruct (decide (pending (state (shared w)) = ∅)) as [Hempty|]; [|by destruct (attachment_end _)].
    constructor; unfold known; cbn [shared holder issuing sent tickets]; [by apply (ledger_same _ _ (shared w))|done|done|].
    intros _. split; [by left|]. split; [done|]. split; [done|]. exists (writer_queue (shared w)). split; [done|].
    intros Hin. destruct (so_detach _ _ Hs Hin) as ([?|?] & _); congruence.
  - unfold known in Hl. rewrite Hi in Hl.
    destruct (terminate_calm ClosedLocally None (shared w)) as (K1 & _ & K3 & _).
    constructor; unfold known; cbn [shared holder issuing sent tickets];
      [by apply terminate_ledger|by apply terminate_events|done|].
    rewrite K1. intros Hin. destruct (so_detach _ _ Hs Hin) as (_ & _ & K5 & K6). split; [by right|]. split; [done|].
    split; [|done]. apply (anti_symm (⊆)); [by rewrite <-K5|apply map_empty_subseteq].
Qed.

Lemma reached_sound l w : limits_validate host l = Ok tt → reached host l w → sound host w.
Proof. intros Hl. induction 1 as [|w w' _ IH Hstep]; [by apply born_sound|by eapply step_sound]. Qed.
End sound.

(** ** Theorems *)

Section theorems.
Context `{!Serde ClientFrame, !Serde ServerFrame} (host : Host) (l : AttachmentEventLimits) (w : Life).

(** C28: Every command whose frame was queued has an identifier no other command of the
    connection ever had, and either still waits with nothing told to its caller, or
    left the table and its caller's channel was sent exactly one answer: a receipt
    of its own kind and extent, a consistent rejection, or that the outcome is
    unknown.  When the attachment has ended no command waits. *)
Theorem every_command_settles_once (Hhost : host_ok host) (Hlimits : limits_validate host l = Ok tt)
    (Hreached : reached host l w) :
  NoDup (map issued_id (sent w)) ∧
  ∀ c, c ∈ sent w →
    let waits := pending (state (shared w)) !! issued_id c =
                 Some {| kind := issued_kind c; ticket := issued_ticket c |} in
    (waits ∧ attachment_end (state (shared w)) = None ∧ ∀ r, (issued_ticket c, r) ∉ results (shared w)) ∨
    (¬ waits ∧ ∃ r, answers (issued_kind c) r ∧ ∀ r', (issued_ticket c, r') ∈ results (shared w) ↔ r' = r).
Proof.
  destruct (reached_sound host Hhost l w Hlimits Hreached) as [Hl _ _ _].
  assert (∀ c, c ∈ sent w → c ∈ known w) as Hin by (intros c Hc; apply elem_of_app; by left).
  pose proof (le_ids _ _ _ Hl) as Hids. unfold known in Hids. rewrite map_app in Hids.
  split; [by apply NoDup_app in Hids as (? & _ & _)|]. intros c Hc. cbn zeta.
  assert (∀ r, pending (state (shared w)) !! issued_id c = Some {| kind := issued_kind c; ticket := issued_ticket c |} →
    (issued_ticket c, r) ∉ results (shared w)) as Hone.
  { intros r Hp Hr. destruct (le_pending _ _ _ Hl _ _ Hp) as [Hno _]. apply Hno. cbn.
    apply list_elem_of_fmap. by exists (issued_ticket c, r). }
  destruct (le_settled _ _ _ Hl c (Hin c Hc)) as [Hp|(r & Hr & Ha)].
  - left. split; [done|]. split; [|auto]. destruct (attachment_end _) eqn:He; [|done].
    destruct (le_ended _ _ _ Hl) as [E _]; [by rewrite He|]. by rewrite E, lookup_empty in Hp.
  - right. split; [intros Hp; by apply (Hone r)|]. exists r. split; [done|]. intros r'. split; [|by intros ->].
    intros Hr'. pose proof (NoDup_map_inj fst _ _ _ (le_once _ _ _ Hl) Hr' Hr eq_refl) as [=]. done.
Qed.

(** The table never exceeds its windows, its counters are exactly what it holds,
    and no registration, queueing or frame from the daemon makes them over- or
    underflow. *)
Theorem commands_stay_in_their_windows (Hhost : host_ok host) (Hlimits : limits_validate host l = Ok tt)
    (Hreached : reached host l w) :
  let st := state (shared w) in
  N.of_nat (size (pending st)) ≤ MAX_PENDING_COMMANDS ∧
  (pending_inputs st = inputs_of (pending st) ∧ pending_inputs st ≤ MAX_PENDING_INPUT_COMMANDS) ∧
  (pending_input_bytes st = bytes_of (pending st) ∧ pending_input_bytes st ≤ MAX_PENDING_INPUT_BYTES) ∧
  (issuing w = None → ∀ k, ∃ s' r, register_command k (tickets w) (shared w) = Ret (s', r)) ∧
  (∀ c frame, issuing w = Some c → ∃ s' r, issue_send (issued_id c) frame (shared w) = Ret (s', r)) ∧
  (∀ room r, ∃ s' over, reader_turn host room r (shared w) = Ret (s', over)).
Proof.
  pose proof (reached_sound host Hhost l w Hlimits Hreached) as Hs. pose proof (so_ledger _ _ Hs) as Hl. cbn zeta.
  destruct (le_capacity _ _ _ Hl) as [K1 K2 K3 K4 K5]. split; [done|]. split; [done|]. split; [done|]. split; [|split].
  - intros Hi k. destruct (register_command_spec k (tickets w) (shared w)) as (s' & r & Hr & _); [by apply Hl|by apply Hl| |by eauto].
    intros Hf. destruct (pending _ !! _) as [p|] eqn:Hp; [|done]. destruct (le_pending _ _ _ Hl _ _ Hp) as [_ Hk].
    destruct (le_used _ _ _ Hl _ Hk) as [_ [Hlt|(_ & _ & ?)]]; [cbn in Hlt; lia|done].
  - intros c frame Hi. unfold known in Hl. rewrite Hi in Hl. destruct (so_issuing _ _ Hs c Hi) as (_ & Hlast & Hbelow).
    destruct (issue_send_spec host (sent w) (tickets w) c frame (shared w) Hl Hlast Hbelow (so_view _ _ Hs))
      as (s' & r & Hr & _). eauto.
  - intros room r. destruct (reader_turn_spec host Hhost _ _ room r (shared w) Hl (so_view _ _ Hs)) as (s' & over & Hr & _). eauto.
Qed.

(** A command that the client refuses itself was not sent: whether registration,
    encoding or the queue refused it, nothing was put on the writer's queue and the
    error says that the command was not applied. *)
Theorem refused_command_was_not_sent (Hhost : host_ok host) (Hlimits : limits_validate host l = Ok tt)
    (Hreached : reached host l w) :
  (∀ k t s e, register_command k t (shared w) = Ret (s, Err e) →
     s = shared w ∧ control_disposition e = Some NotApplied) ∧
  (∀ c frame s e, issuing w = Some c → issue_send (issued_id c) frame (shared w) = Ret (s, Err e) →
     writer_queue s = writer_queue (shared w) ∧ control_disposition e = Some NotApplied).
Proof.
  pose proof (reached_sound host Hhost l w Hlimits Hreached) as Hs. split.
  - intros k t s e. unfold register_command. repeat (case_match; [by intros [= <- <-]|]).
    all: repeat (case_match; try (by intros [= <- <-])).
    all: unfold obind; repeat case_match; by intros [=].
  - intros c frame s e Hi Hr. destruct (send_sound host Hhost w c frame s (Err e) Hs Hi Hr) as [_ K]. by apply K.
Qed.

(** C29: While the detach frame is in the writer's queue it is the last one, no command
    is being issued, and every command ever queued has its answer. *)
Theorem detach_follows_every_result (Hhost : host_ok host) (Hlimits : limits_validate host l = Ok tt)
    (Hreached : reached host l w) (Hdetach : WriteDetach ∈ writer_queue (shared w)) :
  (∃ a, writer_queue (shared w) = a ++ [WriteDetach] ∧ WriteDetach ∉ a) ∧ issuing w = None ∧
  ∀ c, c ∈ sent w → ∃ r, (issued_ticket c, r) ∈ results (shared w) ∧ answers (issued_kind c) r.
Proof.
  pose proof (reached_sound host Hhost l w Hlimits Hreached) as Hs.
  destruct (so_detach _ _ Hs Hdetach) as (_ & Hi & Hp & Ha). split; [done|]. split; [done|].
  intros c Hc. destruct (le_settled _ _ _ (so_ledger _ _ Hs) c) as [K|?]; [apply elem_of_app; by left| |done].
  by rewrite Hp, lookup_empty in K.
Qed.
End theorems.

(** ** An evaluated attachment *)

Module AttachmentDemo.
#[local] Instance client_serde : Serde ClientFrame :=
  {| to_string _ := Ok [x63]; json_value _ := Ok JScalar; from_slice _ := Ok ClientDetach; show_member s := s |}.
(** Two answers a daemon may give. *)
#[local] Instance server_serde : Serde ServerFrame :=
  {| to_string _ := Ok [x73]; json_value _ := Ok JScalar;
     from_slice b := match b with
                     | [x31] => Ok (FCommandResult 1 (Accepted (InputReceipt 2)))
                     | _ => Ok (FCommandResult 2 (Accepted (ResizeReceipt {| cols := 90; rows := 30 |})))
                     end;
     show_member s := s |}.
Definition host : Host := InboxDemo.host.
Definition small : AttachmentEventLimits := InboxDemo.small.

(** The value of a step that is taken, and the shared state it leaves. *)
Definition after {A} (s : AttachmentShared) (m : outcome (AttachmentShared * A)) : AttachmentShared :=
  match m with Ret (s', _) => s' | Panic _ => s end.
Definition typed : Issued := {| issued_id := 1; issued_ticket := 0; issued_kind := PendingInput 2 |}.
Definition sized : Issued := {| issued_id := 2; issued_ticket := 1; issued_kind := PendingResize |}.
Definition frame1 : N → ClientFrame := input_frame [x61; x62].
Definition frame2 : N → ClientFrame := resize_frame {| cols := 90; rows := 30 |}.

Definition s0 : AttachmentShared := with_event_limits small.
Definition s1 : AttachmentShared := Eval vm_compute in after s0 (register_command (PendingInput 2) 0 s0).
Definition s2 : AttachmentShared := Eval vm_compute in after s1 (issue_send 1 frame1 s1).
Definition s3 : AttachmentShared := Eval vm_compute in after s2 (register_command PendingResize 1 s2).
Definition s4 : AttachmentShared := Eval vm_compute in after s3 (issue_send 2 frame2 s3).
Definition s5 : AttachmentShared := Eval vm_compute in after s4 (reader_turn host 0 (Line [x31]) s4).
Definition s6 : AttachmentShared := Eval vm_compute in (begin_detach s5).1.
Definition s7 : AttachmentShared := Eval vm_compute in after s6 (reader_turn host 0 (Line [x32]) s6).
Definition s8 : AttachmentShared :=
  Eval vm_compute in match try_send WriteDetach s7 with Queued s => s | _ => s7 end.

Definition life (s : AttachmentShared) (h : Holder) (i : option Issued) (cs : list Issued) (n : N) : Life :=
  {| shared := s; holder := h; issuing := i; sent := cs; tickets := n |}.
Definition one_issuing : Life := life s3 Held_ (Some sized) [typed] 2.
Definition one_answered : Life := life s5 Held_ None [typed; sized] 2.
Definition all_answered : Life := life s8 DetachQueued None [typed; sized] 2.

Lemma reached_issuing : reached host small one_issuing.
Proof.
  eapply (reached_step host small (life s2 Held_ None [typed] 1)).
  - eapply (reached_step host small (life s1 Held_ (Some typed) [] 1)).
    + eapply reached_step; [apply reached_born|].
      by apply (step_register host (born small) (PendingInput 2) s1 1).
    + by apply (step_sent host (life s1 Held_ (Some typed) [] 1) typed frame1 s2).
  - by apply (step_register host (life s2 Held_ None [typed] 1) PendingResize s3 2).
Qed.
Lemma reached_answered : reached host small one_answered.
Proof.
  eapply (reached_step host small (life s4 Held_ None [typed; sized] 2)).
  - eapply reached_step; [exact reached_issuing|]. by apply (step_sent host one_issuing sized frame2 s4).
  - by apply (step_reader host (life s4 Held_ None [typed; sized] 2) 0 (Line [x31]) s5 false).
Qed.
Lemma reached_detaching : reached host small all_answered.
Proof.
  eapply (reached_step host small (life s7 DetachBegun None [typed; sized] 2)).
  - eapply (reached_step host small (life s6 DetachBegun None [typed; sized] 2)).
    + eapply reached_step; [exact reached_answered|]. by apply (step_begin_detach host one_answered s6).
    + by apply (step_reader host (life s6 DetachBegun None [typed; sized] 2) 0 (Line [x32]) s7 false).
  - by apply (step_queue_detach host (life s7 DetachBegun None [typed; sized] 2) s8).
Qed.

Example callers_are_told :
  input_result (issue_result 1 (Some (ResolvedAccepted (ValidatedInput {| Receipt.written_bytes := 2 |})))) =
  Ok {| accepted_command_id := 1; accepted_receipt := {| Receipt.written_bytes := 2 |} |} ∧
  results s5 = [(0, ResolvedAccepted (ValidatedInput {| Receipt.written_bytes := 2 |}))].
Proof. by vm_compute. Qed.
End AttachmentDemo.

Lemma every_command_settles_once_witness :
  NoDup (map issued_id [AttachmentDemo.typed; AttachmentDemo.sized]) ∧
  ∃ r, answers (PendingInput 2) r ∧ ∀ r', (0, r') ∈ results AttachmentDemo.s5 ↔ r' = r.
Proof.
  destruct (every_command_settles_once (Serde0 := AttachmentDemo.client_serde) (Serde1 := AttachmentDemo.server_serde)
    AttachmentDemo.host AttachmentDemo.small AttachmentDemo.one_answered InboxDemo.host_promises eq_refl
    AttachmentDemo.reached_answered) as [Hids Hall]. split; [exact Hids|].
  destruct (Hall AttachmentDemo.typed) as [(Hw & _)|[_ Hr]]; [by left|by vm_compute in Hw|exact Hr].
Defined.
Lemma commands_stay_in_their_windows_witness :
  N.of_nat (size (pending (state AttachmentDemo.s5))) ≤ MAX_PENDING_COMMANDS.
Proof.
  exact (proj1 (commands_stay_in_their_windows (Serde0 := AttachmentDemo.client_serde)
    (Serde1 := AttachmentDemo.server_serde) AttachmentDemo.host AttachmentDemo.small AttachmentDemo.one_answered
    InboxDemo.host_promises eq_refl AttachmentDemo.reached_answered)).
Defined.
Lemma refused_command_was_not_sent_witness :
  ∀ k t s e, register_command k t AttachmentDemo.s5 = Ret (s, Err e) →
    s = AttachmentDemo.s5 ∧ control_disposition e = Some NotApplied.
Proof.
  exact (proj1 (refused_command_was_not_sent (Serde0 := AttachmentDemo.client_serde)
    (Serde1 := AttachmentDemo.server_serde) AttachmentDemo.host AttachmentDemo.small AttachmentDemo.one_answered
    InboxDemo.host_promises eq_refl AttachmentDemo.reached_answered)).
Defined.
Lemma detach_follows_every_result_witness :
  ∃ r, (1, r) ∈ results AttachmentDemo.s8 ∧ answers PendingResize r.
Proof.
  destruct (detach_follows_every_result (Serde0 := AttachmentDemo.client_serde) (Serde1 := AttachmentDemo.server_serde)
    AttachmentDemo.host AttachmentDemo.small AttachmentDemo.all_answered InboxDemo.host_promises eq_refl
    AttachmentDemo.reached_detaching) as (_ & _ & Hall); [vm_compute; by right; right; left|].
  exact (Hall AttachmentDemo.sized ltac:(by right; left)).
Defined.
