(* ===== verification/ClientRequests.v ===== *)
(** * The client's requests

    [Client] of [crates/ctxmux-client/src/lib.rs]: one connection per request, the
    handshake in front of it, the mapping of every failure of a control command to
    an application boundary, and the download of an attachment's snapshot. *)

From S2P Require Import Prelude.
From S2P Require Import Protocol.
From S2P Require Import Wire.
From S2P Require Import ClientErrors.
From S2P Require Import ClientInbox.
From S2P Require Import ClientAttachment.

#[global] Instance RuntimeIdPersistence_eq_dec : EqDecision RuntimeIdPersistence.
Proof. solve_decision. Defined.
#[global] Instance RuntimeIdentity_eq_dec : EqDecision RuntimeIdentity.
Proof. solve_decision. Defined.
#[global] Instance AttachmentView_eq_dec : EqDecision AttachmentView.
Proof. solve_decision. Defined.

(** ** Connections *)

(** A connection as its peer will behave: the lines or read failures it yields
    before its end, and how successive writes end ([None]: well). *)
Record Connection := {
  incoming : list (result bytes LinesCodecError);
  writes : list (option LinesCodecError);
}.
(** The network: what successive dials meet, the connection in use, and every line
    ever handed to a connection's sink. *)
Record Net := { dials : list (result Connection string); wire : Connection; log : list bytes }.

Record Client := {
  socket_path : string;
  attachment_event_limits : AttachmentEventLimits;
  terminal_seed_limits : TerminalSeedLimits;
  required_capabilities : RuntimeCapabilityRequirements;
  expected_runtime_identity : option RuntimeIdentity;
}.
Definition client_new (path : string) : Client :=
  {| socket_path := path; attachment_event_limits := AttachmentEventLimits_default;
     terminal_seed_limits := TerminalSeedLimits_default; required_capabilities := [];
     expected_runtime_identity := None |}.
Definition with_expected_runtime_identity (expected : RuntimeIdentity) (c : Client) : Client :=
  {| socket_path := socket_path c; attachment_event_limits := attachment_event_limits c;
     terminal_seed_limits := terminal_seed_limits c; required_capabilities := required_capabilities c;
     expected_runtime_identity := Some expected |}.
Definition with_required_capabilities (requirements : RuntimeCapabilityRequirements) (c : Client)
    : result Client ClientError :=
  let? _ := validate_required_capabilities requirements in
  Ok {| socket_path := socket_path c; attachment_event_limits := attachment_event_limits c;
        terminal_seed_limits := terminal_seed_limits c; required_capabilities := requirements;
        expected_runtime_identity := expected_runtime_identity c |}.
Definition with_attachment_event_limits (host : Host) (l : AttachmentEventLimits) (c : Client)
    : result Client ClientError :=
  let? _ := limits_validate host l in
  Ok {| socket_path := socket_path c; attachment_event_limits := l;
        terminal_seed_limits := terminal_seed_limits c; required_capabilities := required_capabilities c;
        expected_runtime_identity := expected_runtime_identity c |}.
Definition with_terminal_seed_limits (l : TerminalSeedLimits) (c : Client) : Client :=
  {| socket_path := socket_path c; attachment_event_limits := attachment_event_limits c;
     terminal_seed_limits := l; required_capabilities := required_capabilities c;
     expected_runtime_identity := expected_runtime_identity c |}.

Abbreviation Io := (M Net ClientError).

(** [.map_err(f)] on an operation. *)
Definition or_else {A} (f : ClientError → ClientError) (m : Io A) : Io A := λ n,
  match m n with
  | Ret (n, Err e) => Ret (n, Err (f e))
  | r => r
  end.

Section requests.
Context `{!Serde ClientFrame, !Serde ServerFrame} (client : Client).

(** [UnixStream::connect] *)
Definition dial : Io unit := λ n,
  match dials n with
  | Ok c :: ds => Ret ({| dials := ds; wire := c; log := log n |}, Ok tt)
  | Err why :: ds => Ret ({| dials := ds; wire := wire n; log := log n |}, Err (Connect (socket_path client) why))
  | [] => Ret (n, Err (Connect (socket_path client) "no listener"))
  end.

Definition send_encoded_sink (encoded : bytes) : Io unit := λ n,
  let n' r := {| dials := dials n; wire := {| incoming := incoming (wire n); writes := r |};
                 log := log n ++ [encoded] |} in
  match writes (wire n) with
  | Some e :: r => Ret (n' r, Err (Transport e))
  | None :: r => Ret (n' r, Ok tt)
  | [] => Ret (n' [], Ok tt)
  end.
Definition send_sink (frame : ClientFrame) : Io unit :=
  let* encoded := lift_result (map_err Frame (encode_frame frame)) in send_encoded_sink encoded.
Definition send (frame : ClientFrame) : Io unit := send_sink frame.

Definition receive_optional : Io (option ServerFrame) := λ n,
  let n' r := {| dials := dials n; wire := {| incoming := r; writes := writes (wire n) |}; log := log n |} in
  match incoming (wire n) with
  | Ok line :: r => Ret (n' r, result_map Some (map_err Frame (decode_frame (T := ServerFrame) line)))
  | Err e :: r => Ret (n' r, Err (Transport e))
  | [] => Ret (n, Ok None)
  end.
Definition receive : Io ServerFrame :=
  let* frame := receive_optional in lift_result (ok_or Closed frame).

Definition connect : Io RuntimeIdentity :=
  dial ;;;
  send (ClientHello PROTOCOL_VERSION) ;;;
  let* frame := receive in
  match frame with
  | FHello runtime => lift_result (validate_runtime_identity runtime) ;;; mret_ runtime
  | FError error => mfail (from_protocol_error error)
  | _ => mfail (UnexpectedFrame "expected compatible hello")
  end.

Definition connect_for_dispatch : Io RuntimeIdentity :=
  let* runtime := connect in
  match expected_runtime_identity client with
  | Some expected => ensure (bool_decide (runtime = expected)) (RuntimeIdentityMismatch expected runtime)
  | None => mret_ tt
  end ;;;
  lift_result (validate_runtime_capability_requirements runtime (required_capabilities client)) ;;;
  mret_ runtime.

(** ** Plain requests *)

Definition ping : Io unit := connect ;;; mret_ tt.
Definition runtime_info : Io RuntimeIdentity := connect.
Definition daemon_instance : Io DaemonInstanceId :=
  let* runtime := runtime_info in mret_ (daemon_instance_id runtime).

Definition creation_key (r : Request) : option CreateOperationKey :=
  match r with ReqStart key _ | ReqFork key _ _ => Some key | _ => None end.

Definition request (r : Request) : Io Response :=
  connect_for_dispatch ;;;
  send (ClientRequest r) ;;;
  let* frame := receive in
  match frame with
  | FResponse response => mret_ response
  | FError error =>
      match creation_failure error with
      | Some failure =>
          if decide (Some (failed_operation_key failure) ≠ creation_key r)
          then mfail (ProtocolContractViolation "creation failure named another operation")
          else mfail (from_protocol_error error)
      | None => mfail (from_protocol_error error)
      end
  | _ => mfail (UnexpectedFrame "expected request response")
  end.

Definition diagnostics : Io DiagnosticsSnapshot :=
  let* response := request ReqDiagnostics in
  match response with
  | RespDiagnostics d => mret_ d | _ => mfail (UnexpectedFrame "expected Diagnostics response")
  end.

Definition observe_storage (id : RunId) : Io (RuntimeIdentity * RunStorageObservation) :=
  let* runtime := connect_for_dispatch in
  lift_result (validate_runtime_capability_requirements runtime [(RUNTIME_CAPABILITY_STORAGE_OBSERVATION, 1)]) ;;;
  send (ClientRequest (ReqObserveStorage id)) ;;;
  let* frame := receive in
  match frame with
  | FResponse (RespStorageObservation observation) =>
      if decide (obs_run_id observation = id) then mret_ (runtime, observation)
      else mfail (UnexpectedFrame "expected exact Run storage observation")
  | FError error => mfail (from_protocol_error error)
  | _ => mfail (UnexpectedFrame "expected exact Run storage observation")
  end.

Definition observe_creation (operation_key : CreateOperationKey) : Io (RuntimeIdentity * CreationObservation) :=
  let* runtime := connect_for_dispatch in
  lift_result (validate_runtime_capability_requirements runtime [(RUNTIME_CAPABILITY_CREATION_OBSERVATION, 1)]) ;;;
  send (ClientRequest (ReqObserveCreation operation_key)) ;;;
  let* frame := receive in
  match frame with
  | FResponse (RespCreationObservation observation) =>
      if decide (observation_operation_key observation = operation_key) then mret_ (runtime, observation)
      else mfail (UnexpectedFrame "expected exact creation observation")
  | FError error => mfail (from_protocol_error error)
  | _ => mfail (UnexpectedFrame "expected exact creation observation")
  end.

(** Operation keys the caller does not give are fresh random ones. *)
Definition start_with_operation_key (spec : RunSpec) (operation_key : CreateOperationKey) : Io RunInfo :=
  let* response := request (ReqStart operation_key spec) in
  match response with
  | RespStarted run => mret_ run | _ => mfail (UnexpectedFrame "expected started response")
  end.
Definition start (random : CreateOperationKey) (spec : RunSpec) : Io RunInfo :=
  start_with_operation_key spec random.
Definition discover_tmux (path : string) : Io (string * list TmuxPaneInfo) :=
  let* response := request (ReqDiscoverTmux path) in
  match response with
  | RespTmuxPanes version panes => mret_ (version, panes)
  | _ => mfail (UnexpectedFrame "expected tmux panes response")
  end.
Definition import_tmux (path pane_id : string) : Io RunInfo :=
  let* response := request (ReqImportTmux path pane_id) in
  match response with
  | RespImported run => mret_ run | _ => mfail (UnexpectedFrame "expected imported response")
  end.
Definition fork_with_operation_key (parent : RunId) (plan : ForkPlan) (operation_key : CreateOperationKey)
    : Io RunInfo :=
  let* response := request (ReqFork operation_key parent plan) in
  match response with
  | RespForked run => mret_ run | _ => mfail (UnexpectedFrame "expected forked response")
  end.
Definition fork (random : CreateOperationKey) (parent : RunId) (plan : ForkPlan) : Io RunInfo :=
  fork_with_operation_key parent plan random.

Definition list_page (after : option RunId) (limit : option N) : Io (list RunSummary * option RunId) :=
  let* response := request (ReqList after limit) in
  match response with
  | RespRuns runs next_cursor => mret_ (runs, next_cursor)
  | _ => mfail (UnexpectedFrame "expected runs response")
  end.
(** The loop of [list]; every turn dials once, so the dials left bound it. *)
Fixpoint list_from (fuel : nat) (runs : list RunSummary) (cursor : option RunId) : Io (list RunSummary) :=
  match fuel with
  | O => mpanic "out of fuel"
  | S fuel =>
      let* page := list_page cursor None in
      match page.2 with
      | Some next => list_from fuel (runs ++ page.1) (Some next)
      | None => mret_ (runs ++ page.1)
      end
  end.
Definition list_runs : Io (list RunSummary) :=
  let* n := get in list_from (S (length (dials n))) [] None.

Definition status (id : RunId) : Io RunInfo :=
  let* response := request (ReqStatus id) in
  match response with
  | RespStatus run => mret_ run | _ => mfail (UnexpectedFrame "expected status response")
  end.

Definition foreground_id (o : RunForegroundObservation) : RunId :=
  match o with
  | ForegroundObserved id _ _ _ _ _ _ _ | ForegroundUnknown id _ | ForegroundUnsupported id _ => id
  end.
(** The [dispatch] of [observe_foreground]; the caller's deadline is not modelled. *)
Definition observe_foreground (id : RunId) : Io (RuntimeIdentity * RunForegroundObservation) :=
  let* runtime := connect_for_dispatch in
  if decide (default 0 (capabilities runtime !! RUNTIME_CAPABILITY_FOREGROUND_OBSERVATION) < 1)
  then mret_ (runtime, ForegroundUnsupported id "capability-missing")
  else
    send (ClientRequest (ReqObserveForeground id)) ;;;
    let* frame := receive in
    match frame with
    | FResponse (RespForegroundObservation observation) =>
        if decide (foreground_id observation ≠ id)
        then mfail (UnexpectedFrame "foreground observation named another Run")
        else mret_ (runtime, observation)
    | FError error => mfail (from_protocol_error error)
    | _ => mfail (UnexpectedFrame "expected foreground observation response")
    end.

Definition remove (id : RunId) : Io unit :=
  let* response := request (ReqRemove id) in
  match response with
  | RespRemoved removed =>
      if decide (removed = id) then mret_ tt
      else mfail (UnexpectedFrame "remove response named a different Run")
  | _ => mfail (UnexpectedFrame "expected removed response")
  end.

(** ** Control commands *)

Definition control_request (r : Request) : Io Response :=
  or_else control_not_applied connect_for_dispatch ;;;
  let* encoded := lift_result (map_err control_not_applied (map_err Frame (encode_frame (ClientRequest r)))) in
  or_else control_request_unknown (send_encoded_sink encoded) ;;;
  let* frame := or_else control_request_unknown receive in
  match frame with
  | FResponse response => mret_ response
  | FError error => mfail (control_request_unknown (from_protocol_error error))
  | _ => mfail (control_request_unknown (UnexpectedFrame "expected correlated control response"))
  end.

Definition input (id : RunId) (d : bytes) : Io (ControlAccepted Receipt.InputReceipt) :=
  let* response := control_request (ReqInput id d) in
  lift_result (decode_short_control (λ r, decode_input_receipt r (len d)) response).

Definition recoverable_input (operation : RecoverableInput) : Io (ControlAccepted AppliedInputRange) :=
  let* expected_end := lift_result (ok_or
      (control_not_applied (ProtocolContractViolation "recoverable Input expected cursor overflows"))
      (checked_add (rin_expected_byte operation) (len (rin_data operation)))) in
  let* response := control_request (ReqRecoverableInput operation) in
  match response with
  | RespInputApplied run range =>
      if bool_decide (info_id run = rin_id operation) &&
         bool_decide (range_start_byte range = rin_expected_byte operation) &&
         bool_decide (range_end_byte range = expected_end) &&
         match info_applied_input_bytes run with
         | Some cursor => bool_decide (range_end_byte range ≤ cursor) | None => false end
      then mret_ {| accepted_run := run; receipt := range |}
      else mfail (control_request_unknown (ProtocolContractViolation
             "recoverable Input Run, range, or cursor does not prove its request"))
  | RespControlRejected failure =>
      lift_result (map_err (λ why, control_request_unknown (ProtocolContractViolation why))
        (validate_control_failure failure)) ;;;
      mfail (ControlRejected failure)
  | _ => mfail (control_request_unknown (UnexpectedFrame "expected recoverable Input result"))
  end.

Definition resize (id : RunId) (size : TerminalSize) : Io (ControlAccepted Receipt.ResizeReceipt) :=
  let* response := control_request (ReqResize id size) in
  lift_result (decode_short_control decode_resize_receipt response).

Definition interrupt (id : RunId) : Io (ControlAccepted Receipt.SignalReceipt) :=
  let* response := control_request (ReqSignal id Interrupt) in
  lift_result (decode_short_control (λ r, decode_signal_receipt r Interrupt) response).

(** A stop whose answer names another Run proves nothing. *)
Definition exact_stop (id : RunId) (accepted : ControlAccepted Receipt.StopReceipt)
    : Io (ControlAccepted Receipt.StopReceipt) :=
  if decide (info_id (accepted_run accepted) ≠ id)
  then mfail (control_request_unknown (ProtocolContractViolation
         "recoverable Stop response names another Run"))
  else mret_ accepted.

Definition stop_once (random : StopOperationKey) (id : RunId) : Io (ControlAccepted Receipt.StopReceipt) :=
  let* runtime := or_else control_not_applied connect_for_dispatch in
  lift_result (map_err control_not_applied (require_recoverable_stop runtime)) ;;;
  let operation := {| rst_daemon_instance := daemon_instance_id runtime; rst_operation_key := random; rst_id := id |} in
  let* encoded := lift_result (map_err control_not_applied
                    (map_err Frame (encode_frame (ClientRequest (ReqStop operation))))) in
  or_else control_request_unknown (send_encoded_sink encoded) ;;;
  let* frame := or_else control_request_unknown receive in
  match frame with
  | FResponse response =>
      let* accepted := lift_result (decode_short_control decode_stop_receipt response) in
      exact_stop id accepted
  | FError error => mfail (control_request_unknown (from_protocol_error error))
  | _ => mfail (control_request_unknown (UnexpectedFrame "expected correlated control response"))
  end.

Definition stop (operation : RecoverableStop) : Io (ControlAccepted Receipt.StopReceipt) :=
  let* response := control_request (ReqStop operation) in
  let* accepted := lift_result (decode_short_control decode_stop_receipt response) in
  exact_stop (rst_id operation) accepted.

Definition prepare_stop (random : StopOperationKey) (id : RunId) : Io RecoverableStop :=
  let* runtime := runtime_info in
  lift_result (require_recoverable_stop runtime) ;;;
  mret_ {| rst_daemon_instance := daemon_instance_id runtime; rst_operation_key := random; rst_id := id |}.

(** ** Attaching *)

Definition seed_limits_ok (cp : TerminalCheckpointHeader) (s : AttachedSnapshot) : bool :=
  negb (bool_decide (cp_run_id cp ≠ info_id (snap_run s))
   || bool_decide (replay_latest_output_bytes (snap_replay s) < cp_through_byte cp)
   || bool_decide (cp_through_byte cp < replay_first_available_byte (snap_replay s))
   || bool_decide (cp_restore_bytes cp = 0)
   || bool_decide (rows (cp_size cp) = 0) || bool_decide (cols (cp_size cp) = 0)
   || bool_decide (rows (cp_restore_size cp) = 0) || bool_decide (cols (cp_restore_size cp) = 0)
   || bool_decide (cp_restore_bytes cp < cp_resize_after_restore_bytes cp)).

(** The geometry tail: revisions without a hole, positions in order. *)
Fixpoint geometry_tail (latest revision position : N) (resizes : list TerminalResize)
    : result N ClientError :=
  match resizes with
  | [] => Ok revision
  | r :: resizes =>
      if bool_decide (Some (resize_resize_revision r) ≠ checked_add revision 1)
         || bool_decide (resize_through_byte r < position)
         || bool_decide (latest < resize_through_byte r)
         || bool_decide (rows (resize_size r) = 0) || bool_decide (cols (resize_size r) = 0)
      then Err (ProtocolContractViolation "invalid terminal geometry tail")
      else geometry_tail latest (resize_resize_revision r) (resize_through_byte r) resizes
  end.

(** The checkpoint's bytes, in order; every turn reads one line. *)
Fixpoint restore_loop (fuel : nat) (total : N) (restore : bytes) : Io bytes :=
  match fuel with
  | O => mpanic "out of fuel"
  | S fuel =>
      if decide (len restore < total) then
        let* frame := receive in
        match frame with
        | FTerminalCheckpointChunk offset d =>
            if bool_decide (offset = len restore) && bool_decide (d ≠ []) &&
               match checked_add offset (len d) with
               | Some e => bool_decide (e ≤ total) | None => false end
            then restore_loop fuel total (restore ++ d)
            else mfail (UnexpectedFrame "expected ordered synthetic terminal seed")
        | FError error => mfail (from_protocol_error error)
        | _ => mfail (UnexpectedFrame "expected ordered synthetic terminal seed")
        end
      else mret_ restore
  end.

Definition set_restore (restore : bytes) (s : AttachedSnapshot) : AttachedSnapshot :=
  {| snap_run := snap_run s; snap_replay := snap_replay s; snap_terminal := snap_terminal s;
     snap_terminal_restore := restore; snap_resize_revision := snap_resize_revision s |}.
Definition set_chunks (chunks : list OutputChunk) (s : AttachedSnapshot) : AttachedSnapshot :=
  {| snap_run := snap_run s;
     snap_replay := {| replay_chunks := chunks;
                       replay_first_available_byte := replay_first_available_byte (snap_replay s);
                       replay_latest_output_bytes := replay_latest_output_bytes (snap_replay s);
                       replay_truncated := replay_truncated (snap_replay s) |};
     snap_terminal := snap_terminal s; snap_terminal_restore := snap_terminal_restore s;
     snap_resize_revision := snap_resize_revision s |}.
(** The window moved under the download: what came so far is dropped. *)
Definition move_window (first : N) (s : AttachedSnapshot) : AttachedSnapshot :=
  let run := snap_run s in
  {| snap_run := {| info_id := info_id run; info_spec := info_spec run; info_lineage := info_lineage run;
                    info_backend := info_backend run; info_capabilities := info_capabilities run;
                    info_pid := info_pid run; info_state := info_state run;
                    info_native_service := info_native_service run;
                    info_latest_output_bytes := info_latest_output_bytes run;
                    info_durable_output_bytes := info_durable_output_bytes run;
                    info_first_available_byte := first; info_attachments := info_attachments run;
                    info_applied_input_bytes := info_applied_input_bytes run;
                    info_current_size := info_current_size run |};
     snap_replay := {| replay_chunks := []; replay_first_available_byte := first;
                       replay_latest_output_bytes := replay_latest_output_bytes (snap_replay s);
                       replay_truncated := true |};
     snap_terminal := snap_terminal s; snap_terminal_restore := snap_terminal_restore s;
     snap_resize_revision := snap_resize_revision s |}.

Section attach.
Context (allocator : N → N → option string).

(** How many lines can still come: the fuel of the two download loops. *)
Definition lines_left : Io nat := let* n := get in mret_ (S (length (incoming (wire n)))).

Definition receive_terminal_seed (after_byte : N) (s : AttachedSnapshot) (limits : TerminalSeedLimits)
    : Io (AttachedSnapshot * N) :=
  match snap_terminal s with
  | BasicVt cp resizes =>
      ensure (seed_limits_ok cp s) (ProtocolContractViolation "invalid terminal checkpoint fence") ;;;
      let* revision := lift_result (geometry_tail (replay_latest_output_bytes (snap_replay s))
                                      (cp_resize_revision cp) (cp_through_byte cp) resizes) in
      ensure (bool_decide (revision = snap_resize_revision s))
        (ProtocolContractViolation "incomplete terminal geometry tail") ;;;
      match cp_restore_scrollback_rows cp with
      | Some rows => ensure (bool_decide (rows ≤ usize_max)) (TerminalSeedResource (HostScrollbackCapacity rows))
      | None => mret_ tt
      end ;;;
      lift_result (map_err TerminalSeedResource
        (reserve_restore allocator (len (snap_terminal_restore s)) (cp_restore_bytes cp) limits)) ;;;
      let* fuel := lines_left in
      let* restore := restore_loop fuel (cp_restore_bytes cp) (snap_terminal_restore s) in
      mret_ (set_restore restore s, cp_through_byte cp)
  | _ => mret_ (s, after_byte)
  end.

Fixpoint replay_loop (fuel : nat) (expected_byte : N) (s : AttachedSnapshot) : Io AttachedSnapshot :=
  match fuel with
  | O => mpanic "out of fuel"
  | S fuel =>
      let latest := replay_latest_output_bytes (snap_replay s) in
      let* frame := receive in
      match frame with
      | FEvent (OutputEvent chunk) =>
          if bool_decide (start_byte chunk = expected_byte) && bool_decide (start_byte chunk < end_byte chunk) &&
             bool_decide (end_byte chunk ≤ latest) &&
             bool_decide (end_byte chunk - start_byte chunk = len (data chunk))
          then
            let s := set_chunks (replay_chunks (snap_replay s) ++ [chunk]) s in
            if decide (end_byte chunk = latest) then mret_ s else replay_loop fuel (end_byte chunk) s
          else mfail (UnexpectedFrame "expected ordered replay output")
      | FReplayWindow first_available_byte latest_output_bytes =>
          if bool_decide (latest_output_bytes = latest) && bool_decide (expected_byte < first_available_byte) &&
             bool_decide (first_available_byte ≤ latest_output_bytes)
          then
            match snap_terminal s with
            | BasicVt _ _ => mfail (ProtocolContractViolation
                "terminal checkpoint original tail was evicted during replay")
            | _ =>
                let s := move_window first_available_byte s in
                if decide (first_available_byte = latest_output_bytes) then mret_ s
                else replay_loop fuel first_available_byte s
            end
          else mfail (UnexpectedFrame "expected ordered replay output")
      | FError error => mfail (from_protocol_error error)
      | _ => mfail (UnexpectedFrame "expected ordered replay output")
      end
  end.

Definition receive_replay (after_byte : N) (s : AttachedSnapshot) (limits : TerminalSeedLimits)
    : Io AttachedSnapshot :=
  let* '(s, after_byte) := receive_terminal_seed after_byte s limits in
  let replay := snap_replay s in
  let latest := replay_latest_output_bytes replay in
  if match last (replay_chunks replay) with
     | Some chunk => bool_decide (end_byte chunk = latest)
     | None => bool_decide (latest ≤ after_byte)
     end
  then mret_ s
  else
    let expected_byte := match last (replay_chunks replay) with
                         | Some chunk => end_byte chunk
                         | None => N.max after_byte (replay_first_available_byte replay)
                         end in
    if decide (latest ≤ expected_byte) then mret_ s
    else let* fuel := lines_left in replay_loop fuel expected_byte s.

Definition snapshot_of (header : AttachedHeader) : AttachedSnapshot :=
  {| snap_run := head_run header;
     snap_replay := {| replay_chunks := [];
                       replay_first_available_byte := hdr_first_available_byte (head_replay header);
                       replay_latest_output_bytes := hdr_latest_output_bytes (head_replay header);
                       replay_truncated := hdr_truncated (head_replay header) |};
     snap_terminal := head_terminal header; snap_terminal_restore := [];
     snap_resize_revision := head_resize_revision header |}.
Definition not_requested (t : TerminalContinuation) : bool :=
  match t with NotRequested => true | _ => false end.

Definition attach_with_view (id : RunId) (after_byte : N) (view : AttachmentView)
    : Io (AttachmentShared * AttachedSnapshot) :=
  connect_for_dispatch ;;;
  send (ClientRequest (ReqAttach id view after_byte)) ;;;
  let* frame := receive in
  match frame with
  | FAttached header =>
      if bool_decide (info_id (head_run header) ≠ id) ||
         xorb (not_requested (head_terminal header)) (bool_decide (view = RawView))
      then mfail (UnexpectedFrame "attachment Run or view differs from request")
      else
        let* s := receive_replay after_byte (snapshot_of header) (terminal_seed_limits client) in
        mret_ (with_event_limits (attachment_event_limits client), s)
  | FError error => mfail (from_protocol_error error)
  | _ => mfail (UnexpectedFrame "expected attached snapshot")
  end.
Definition attach (id : RunId) (after_byte : N) := attach_with_view id after_byte RawView.
Definition attach_terminal (id : RunId) (after_byte : N) := attach_with_view id after_byte TerminalView.

Record RecoverableStopAttachment := {
  stop_attachment : AttachmentShared;
  stop_snapshot : AttachedSnapshot;
  stop_accepted : ControlAccepted Receipt.StopReceipt;
}.
Definition attach_recoverable_stop (operation : RecoverableStop) (after_byte : N)
    : Io RecoverableStopAttachment :=
  or_else control_not_applied connect_for_dispatch ;;;
  let* encoded := lift_result (map_err control_not_applied
                    (map_err Frame (encode_frame (ClientRequest (ReqAttachRecoverableStop operation after_byte))))) in
  or_else control_request_unknown (send_encoded_sink encoded) ;;;
  let* first := or_else control_request_unknown receive in
  match first with
  | FResponse response =>
      mfail (match decode_short_control decode_stop_receipt response with
             | Err error => error
             | Ok _ => control_request_unknown (UnexpectedFrame
                 "attach recoverable Stop accepted without an attachment snapshot")
             end)
  | FAttached header =>
      if negb (not_requested (head_terminal header))
      then mfail (control_request_unknown (UnexpectedFrame "recoverable Stop requires a raw attachment"))
      else
        let* s := or_else control_request_unknown
                    (receive_replay after_byte (snapshot_of header) (terminal_seed_limits client)) in
        let* frame := or_else control_request_unknown receive in
        match frame with
        | FResponse response =>
            let* accepted := lift_result (decode_recoverable_stop_attachment_response response) in
            if bool_decide (info_id (accepted_run accepted) ≠ rst_id operation) ||
               bool_decide (info_id (snap_run s) ≠ rst_id operation)
            then mfail (control_request_unknown (ProtocolContractViolation
                   "recoverable Stop attachment names another Run"))
            else mret_ {| stop_attachment := with_event_limits (attachment_event_limits client);
                          stop_snapshot := s; stop_accepted := accepted |}
        | FError error => mfail (control_request_unknown (from_protocol_error error))
        | _ => mfail (control_request_unknown (UnexpectedFrame
                 "expected recoverable Stop result after attached snapshot"))
        end
  | FError error => mfail (control_request_unknown (from_protocol_error error))
  | _ => mfail (control_request_unknown (UnexpectedFrame "expected recoverable Stop attachment snapshot"))
  end.
End attach.
End requests.

(** [replay_bytes] *)
Definition replay_bytes (chunks : list OutputChunk) : bytes := concat (map data chunks).

(** ** What goes over a connection *)

Section wire.
Context `{!Serde ClientFrame, !Serde ServerFrame} (client : Client).
Implicit Types n : Net.

(** The lines still to come on the connection in use. *)
Definition lines (n : Net) : nat := length (incoming (wire n)).

Lemma receive_optional_spec n : wp receive_optional n (λ n' r, log n' = log n ∧ dials n' = dials n ∧
  match r with Ok (Some _) => (lines n' < lines n)%nat | _ => True end).
Proof.
  unfold receive_optional, wp, lines. destruct (incoming (wire n)) as [|[line|e] r]; cbn; [done| |done].
  destruct (decode_frame line); cbn; auto.
Qed.
Lemma receive_spec n : wp receive n (λ n' r, log n' = log n ∧ dials n' = dials n ∧
  match r with Ok _ => (lines n' < lines n)%nat | Err _ => True end).
Proof.
  apply wp_bind. eapply wp_mono; [apply receive_optional_spec|]. intros n' [[frame|]|e] K; [by apply wp_lift_result| |done].
  apply wp_lift_result. by destruct K as (? & ? & _).
Qed.

Lemma wp_or_else {A} (f : ClientError → ClientError) (m : Io A) n Q :
  wp m n (λ n' r, Q n' (match r with Ok a => Ok a | Err e => Err (f e) end)) → wp (or_else f m) n Q.
Proof. unfold wp, or_else. by destruct (m n) as [[n' [a|e]]|]. Qed.


Definition hello_line : result bytes FrameError := encode_frame (ClientHello PROTOCOL_VERSION).
(** Nothing but a handshake was handed to a connection. *)
Definition only_hello (n n' : Net) : Prop :=
  log n' = log n ∨ ∃ hello, hello_line = Ok hello ∧ log n' = log n ++ [hello].
(** The handshake and the line of one request were. *)
Definition sent_request (r : Request) (n n' : Net) : Prop :=
  ∃ hello line, hello_line = Ok hello ∧ encode_frame (ClientRequest r) = Ok line ∧
    log n' = log n ++ [hello; line].
Definition shook (n n' : Net) : Prop := ∃ hello, hello_line = Ok hello ∧ log n' = log n ++ [hello].

Lemma connect_spec n : wp (connect client) n (λ n' r, match r with Ok _ => shook n n' | Err _ => only_hello n n' end).
Proof.
  unfold connect. apply wp_bind. unfold dial, wp at 1.
  destruct (dials n) as [|[c|why] ds]; [by left| |by left]. apply wp_bind. unfold send, send_sink. apply wp_bind, wp_lift_result.
  destruct (encode_frame (ClientHello PROTOCOL_VERSION)) as [hello|e] eqn:Hh; [|by left]. cbn [map_err].
  assert (∀ n', log n' = log n ++ [hello] → shook n n') as Hs by (intros n' E; by exists hello).
  unfold send_encoded_sink, wp at 1. cbn [wire writes dials incoming log].
  destruct (writes c) as [|[e|] ws]; [|by right; apply Hs|];
    (apply wp_bind; eapply wp_mono; [apply receive_spec|]; intros n' [frame|e] (Hlog & _); cbn [log] in Hlog;
     [|by right; apply Hs]).
  all: destruct frame; try (apply wp_fail; right; by apply Hs).
  all: apply wp_bind, wp_lift_result; unfold validate_runtime_identity; case_decide; [right; by apply Hs|apply wp_ret; by apply Hs].
Qed.

(** The daemon's lines on the connection this opens, its hello read. *)
Definition opened (n n' : Net) : Prop :=
  ∃ c ds hello, dials n = Ok c :: ds ∧ incoming c = Ok hello :: incoming (wire n').
Lemma receive_line n : wp receive n (λ n' r, match r with
  | Ok f => ∃ line, incoming (wire n) = Ok line :: incoming (wire n') ∧ decode_frame line = Ok f
  | Err _ => True
  end).
Proof.
  unfold receive, receive_optional, wp, bind, lift_result. destruct (incoming (wire n)) as [|[line|e] r]; cbn; [done| |done].
  destruct (decode_frame line) as [f|] eqn:Hf; cbn; [|done]. by exists line.
Qed.
Lemma connect_opened n : wp (connect client) n (λ n' r, match r with Ok _ => opened n n' | Err _ => True end).
Proof.
  unfold connect. apply wp_bind. unfold dial, wp at 1. destruct (dials n) as [|[c|why] ds] eqn:Hds; [done| |done].
  apply wp_bind. unfold send, send_sink. apply wp_bind, wp_lift_result.
  destruct (encode_frame (ClientHello PROTOCOL_VERSION)) as [line|e]; [|done]. cbn [map_err].
  unfold send_encoded_sink, wp at 1. cbn [wire writes dials incoming log].
  destruct (writes c) as [|[e|] ws]; [|done|];
    (apply wp_bind; eapply wp_mono; [apply receive_line|]; intros n' [frame|e] Hline; [|done]; cbn [wire incoming] in Hline;
     destruct frame; try (by apply wp_fail); apply wp_bind, wp_lift_result; destruct (validate_runtime_identity _) as [[]|]; [|done];
     apply wp_ret; destruct Hline as (hello & Hin & _); by exists c, ds, hello).
Qed.
Lemma dispatch_opened n : wp (connect_for_dispatch client) n (λ n' r, match r with Ok _ => opened n n' | Err _ => True end).
Proof.
  unfold connect_for_dispatch. apply wp_bind. eapply wp_mono; [apply connect_opened|]. intros n' [runtime|e] Hn; [|done].
  apply wp_bind. eapply (wp_mono _ _ (λ n2 r, n2 = n')).
  { destruct (expected_runtime_identity client); [apply wp_ensure; by case_bool_decide|by apply wp_ret]. }
  intros n2 [[]|e] ->; [|done]. apply wp_bind, wp_lift_result.
  destruct (validate_runtime_capability_requirements _ _) as [[]|e]; [by apply wp_ret|done].
Qed.

Lemma connect_for_dispatch_spec n :
  wp (connect_for_dispatch client) n (λ n' r, match r with Ok _ => shook n n' | Err _ => only_hello n n' end).
Proof.
  unfold connect_for_dispatch. apply wp_bind. eapply wp_mono; [apply connect_spec|]. intros n' [runtime|e] Hn; [|done].
  assert (only_hello n n') as Ho by by right.
  apply wp_bind. eapply (wp_mono _ _ (λ n2 r, n2 = n')).
  { destruct (expected_runtime_identity client); [apply wp_ensure; by case_bool_decide|by apply wp_ret]. }
  intros n2 [[]|e] ->; [|done]. apply wp_bind, wp_lift_result.
  destruct (validate_runtime_capability_requirements _ _) as [[]|e]; [by apply wp_ret|done].
Qed.

(** ** Control commands *)

(** A failure that names its application boundary: "not applied" is said only by
    the daemon itself, or when the command never reached a connection. *)
Definition boundary (n n' : Net) (e : ClientError) : Prop :=
  match control_disposition e with
  | Some Unknown => True
  | Some NotApplied => (∃ f, e = ControlRejected f ∧ validate_control_failure f = Ok tt) ∨ only_hello n n'
  | None => False
  end.
(** A failure after the command went out. *)
Definition judged (e : ClientError) : Prop :=
  (∃ source, e = ControlRequestUnknown source) ∨
  (∃ f, e = ControlRejected f ∧ validate_control_failure f = Ok tt).
Lemma judged_boundary n n' e : judged e → boundary n n' e.
Proof.
  intros [[source ->]|(f & -> & Hf)]; unfold boundary; cbn; [done|]. destruct (disposition f); [left; eauto|done].
Qed.
Lemma not_applied_boundary n n' e : only_hello n n' → boundary n n' (control_not_applied e).
Proof. intros Hn. unfold boundary. rewrite not_applied_disposition. by right. Qed.
Lemma unknown_judged e : judged (control_request_unknown e).
Proof. left. by eexists. Qed.

Lemma decode_short_control_judged {R} (decode : ControlReceipt → result R ClientError) response :
  match decode_short_control decode response with Ok _ => True | Err e => judged e end.
Proof.
  destruct response; cbn; try apply unknown_judged.
  - destruct (decode receipt); [done|apply unknown_judged].
  - destruct (validate_control_failure failure) as [[]|] eqn:Hf; cbn; [right; eauto|apply unknown_judged].
Qed.

(** Handshake, then one line; what the answer is made into is the rest. *)
Lemma dispatch_spec {A} (r : Request) (k : Io A) n (Q : Net → result A ClientError → Prop) :
  (∀ n' e, boundary n n' e → Q n' (Err e)) →
  (∀ n', sent_request r n n' → wp k n' Q) →
  (∀ n', shook n n' → wp (let* encoded := lift_result (map_err control_not_applied (map_err Frame (encode_frame (ClientRequest r)))) in
     or_else control_request_unknown (send_encoded_sink encoded) ;;; k) n' Q).
Proof.
  intros Hfail Hk n' (hello & Hh & Hlog). apply wp_bind, wp_lift_result.
  destruct (encode_frame (ClientRequest r)) as [line|e] eqn:He; cbn [map_err];
    [|apply Hfail, not_applied_boundary; right; by exists hello].
  apply wp_bind, wp_or_else. unfold send_encoded_sink, wp at 1.
  assert (∀ n2, log n2 = log n' ++ [line] → sent_request r n n2) as Hs.
  { intros n2 E. exists hello, line. split; [done|]. split; [done|]. by rewrite E, Hlog, <-(assoc_L app). }
  destruct (writes (wire n')) as [|[e|] ws]; [by apply Hk, Hs| |by apply Hk, Hs].
  apply Hfail, judged_boundary, unknown_judged.
Qed.
Lemma connected_boundary n : wp (or_else control_not_applied (connect_for_dispatch client)) n
  (λ n' r, match r with Ok _ => shook n n' | Err e => boundary n n' e end).
Proof.
  apply wp_or_else. eapply wp_mono; [apply connect_for_dispatch_spec|]. intros n' [r|e] Hn; [done|].
  by apply not_applied_boundary.
Qed.
Lemma answer_spec (r : Request) n n' : sent_request r n n' →
  wp (or_else control_request_unknown receive) n' (λ n2 res, sent_request r n n2 ∧
    match res with Ok _ => True | Err e => judged e end).
Proof.
  intros (hello & line & Hh & Hl & Hlog). apply wp_or_else. eapply wp_mono; [apply receive_spec|].
  intros n2 res (Hlog2 & _). split; [exists hello, line; by rewrite Hlog2|]. destruct res; [done|apply unknown_judged].
Qed.

Definition settled {A} (r : Request) (n n' : Net) (res : result A ClientError) : Prop :=
  match res with Ok _ => sent_request r n n' | Err e => boundary n n' e end.

Lemma control_request_spec r n : wp (control_request client r) n (settled r n).
Proof.
  unfold control_request. apply wp_bind. eapply wp_mono; [apply connected_boundary|].
  intros n' [runtime|e] Hn; [|done]. revert n' Hn. apply dispatch_spec; [done|]. intros n' Hs.
  apply wp_bind. eapply wp_mono; [by apply answer_spec|]. intros n2 [frame|e] [Hs2 Hj]; [|by apply judged_boundary].
  destruct frame; try (apply wp_fail; apply judged_boundary, unknown_judged). by apply wp_ret.
Qed.
Lemma control_then {A} r (k : Response → Io A) n :
  (∀ response n', sent_request r n n' → wp (k response) n' (settled r n)) →
  wp (let* response := control_request client r in k response) n (settled r n).
Proof.
  intros Hk. apply wp_bind. eapply wp_mono; [apply control_request_spec|]. intros n' [response|e] Hn; [by apply Hk|done].
Qed.
Lemma decoded_spec {R} (decode : ControlReceipt → result R ClientError) response r n n' : sent_request r n n' →
  settled r n n' (decode_short_control decode response).
Proof.
  intros Hs. pose proof (decode_short_control_judged decode response) as Hj.
  destruct (decode_short_control decode response); [done|by apply judged_boundary].
Qed.
Lemma exact_stop_spec id accepted r n n' : sent_request r n n' → wp (exact_stop id accepted) n' (settled r n).
Proof.
  intros Hs. unfold exact_stop. case_decide; [apply wp_fail, judged_boundary, unknown_judged|by apply wp_ret].
Qed.

(** ** Snapshots *)

(** The chunks cover the positions from [from] without a hole; where they end. *)
Fixpoint spans (from : N) (chunks : list OutputChunk) : option N :=
  match chunks with
  | [] => Some from
  | c :: chunks =>
      if bool_decide (start_byte c = from) && bool_decide (start_byte c < end_byte c) &&
         bool_decide (end_byte c - start_byte c = len (data c))
      then spans (end_byte c) chunks else None
  end.
Lemma spans_snoc c chunks : ∀ from, spans from (chunks ++ [c]) = spans from chunks ≫= λ p, spans p [c].
Proof.
  induction chunks as [|c' chunks IH]; intros from; [done|]. cbn. case_match; [apply IH|done].
Qed.
Lemma spans_bytes chunks : ∀ from p, spans from chunks = Some p → from ≤ p ∧ len (replay_bytes chunks) = p - from.
Proof.
  induction chunks as [|c chunks IH]; intros from p; cbn.
  { intros [= <-]. unfold replay_bytes. cbn. rewrite len_nil. lia. }
  destruct (bool_decide (start_byte c = from)) eqn:K1; [|done]. destruct (bool_decide (start_byte c < _)) eqn:K2; [|done].
  destruct (bool_decide (_ - _ = _)) eqn:K3; [|done]. cbn [andb].
  apply bool_decide_eq_true in K1, K2, K3. intros Hs. destruct (IH _ _ Hs) as [Hle Hlen].
  unfold replay_bytes in *. cbn [map concat]. rewrite len_app. lia.
Qed.

Definition latest_byte (s : AttachedSnapshot) : N := replay_latest_output_bytes (snap_replay s).
Definition first_byte (s : AttachedSnapshot) : N := replay_first_available_byte (snap_replay s).
(** Where the replay of a client that asked from [start] begins. *)
Definition base (start : N) (s : AttachedSnapshot) : N := N.max start (first_byte s).

(** A download from [start] that began as [s0] and stands at [expected]. *)
Record downloads (start : N) (s0 s : AttachedSnapshot) (expected : N) : Prop := {
  dl_spans : spans (base start s) (replay_chunks (snap_replay s)) = Some expected;
  dl_latest : latest_byte s = latest_byte s0;
  dl_id : info_id (snap_run s) = info_id (snap_run s0);
  dl_terminal : snap_terminal s = snap_terminal s0;
  dl_restore : snap_terminal_restore s = snap_terminal_restore s0;
  dl_revision : snap_resize_revision s = snap_resize_revision s0;
  dl_first : first_byte s0 ≤ first_byte s;
  dl_moved : first_byte s ≠ first_byte s0 →
    replay_truncated (snap_replay s) = true ∧ (∀ cp rs, snap_terminal s ≠ BasicVt cp rs);
  dl_stayed : first_byte s = first_byte s0 → replay_truncated (snap_replay s) = replay_truncated (snap_replay s0);
}.

Lemma downloads_chunk start s0 s expected c : downloads start s0 s expected →
  start_byte c = expected → start_byte c < end_byte c → end_byte c - start_byte c = len (data c) →
  downloads start s0 (set_chunks (replay_chunks (snap_replay s) ++ [c]) s) (end_byte c).
Proof.
  intros [] K1 K2 K3. constructor; try done. cbn. unfold base, first_byte in *. cbn.
  rewrite spans_snoc, dl_spans0. cbn. by rewrite !bool_decide_true by done.
Qed.
Lemma downloads_window start s0 s expected first : downloads start s0 s expected → expected < first →
  (∀ cp rs, snap_terminal s ≠ BasicVt cp rs) → downloads start s0 (move_window first s) first.
Proof.
  intros [] Hlt Ht. apply spans_bytes in dl_spans0 as [Hle _].
  constructor; try done; unfold base, first_byte, latest_byte in *; cbn [move_window snap_replay replay_chunks replay_first_available_byte spans].
  - f_equal. lia.
  - lia.
  - intros ?. lia.
Qed.

Section download.
Context (allocator : N → N → option string).

Lemma restore_loop_spec total fuel : ∀ restore n, (lines n < fuel)%nat → len restore ≤ total →
  wp (restore_loop fuel total restore) n (λ n' r, log n' = log n ∧
    match r with Ok b => len b = total | Err _ => True end).
Proof.
  induction fuel as [|fuel IH]; intros restore n Hf Hle; [lia|]. cbn [restore_loop].
  case_decide; [|apply wp_ret; split; [done|lia]].
  apply wp_bind. eapply wp_mono; [apply receive_spec|]. intros n1 [frame|e] (Hlog & _ & Hlines); [|done].
  destruct frame; try (by apply wp_fail).
  destruct (bool_decide (offset = _)) eqn:K1; [|by apply wp_fail]. destruct (bool_decide (d ≠ [])); [|by apply wp_fail].
  destruct (checked_add _ _) as [e|] eqn:Hadd; [|by apply wp_fail]. destruct (bool_decide (e ≤ total)) eqn:Hend; [|by apply wp_fail].
  cbn [andb]. apply bool_decide_eq_true in K1, Hend. apply checked_add_Some in Hadd as [-> _].
  eapply wp_mono; [apply IH; [lia|rewrite len_app; lia]|]. intros n2 r (E & Hr). split; [congruence|done].
Qed.

Lemma replay_loop_spec start s0 fuel : ∀ expected s n, (lines n < fuel)%nat → downloads start s0 s expected →
  expected < latest_byte s0 →
  wp (replay_loop fuel expected s) n (λ n' r, log n' = log n ∧
    match r with Ok s' => downloads start s0 s' (latest_byte s0) | Err _ => True end).
Proof.
  induction fuel as [|fuel IH]; intros expected s n Hf Hd Hlt; [lia|]. cbn [replay_loop].
  pose proof (dl_latest _ _ _ _ Hd) as Hl. unfold latest_byte in Hl at 1. rewrite Hl.
  apply wp_bind. eapply wp_mono; [apply receive_spec|]. intros n1 [frame|e] (Hlog & _ & Hlines); [|done].
  destruct frame as [| | |first lat| |event| | |]; try (by apply wp_fail).
  - destruct (bool_decide (lat = _)) eqn:K1; [|by apply wp_fail].
    destruct (bool_decide (expected < first)) eqn:K2; [|by apply wp_fail].
    destruct (bool_decide (first ≤ lat)) eqn:K3; [|by apply wp_fail].
    apply bool_decide_eq_true in K1 as ->, K2, K3. cbn [andb].
    assert ((∀ cp rs, snap_terminal s ≠ BasicVt cp rs) → wp (if decide (first = latest_byte s0) then mret_ (move_window first s)
      else replay_loop fuel first (move_window first s)) n1 (λ n' r, log n' = log n ∧
        match r with Ok s' => downloads start s0 s' (latest_byte s0) | Err _ => True end)) as Hmove.
    { intros Ht. pose proof (downloads_window start s0 s expected first Hd K2 Ht) as Hd'.
      case_decide as Heq; [apply wp_ret; split; [done|by rewrite <-Heq]|].
      eapply wp_mono; [apply IH; [lia|done|lia]|]. intros n2 r (E & Hr). split; [congruence|done]. }
    destruct (snap_terminal s); [by apply Hmove|by apply wp_fail|by apply Hmove..].
  - destruct event as [c| | | | | | |]; try (by apply wp_fail).
    destruct (bool_decide (start_byte c = expected)) eqn:K1; [|by apply wp_fail].
    destruct (bool_decide (start_byte c < end_byte c)) eqn:K2; [|by apply wp_fail].
    destruct (bool_decide (end_byte c ≤ _)) eqn:K3; [|by apply wp_fail].
    destruct (bool_decide (_ - _ = _)) eqn:K4; [|by apply wp_fail].
    apply bool_decide_eq_true in K1, K2, K3, K4. cbn [andb].
    pose proof (downloads_chunk start s0 s expected c Hd K1 K2 K4) as Hd'.
    case_decide as Heq; [apply wp_ret; split; [done|by rewrite <-Heq]|].
    eapply wp_mono; [apply IH; [lia|done|lia]|]. intros n2 r (E & Hr). split; [congruence|done].
Qed.

(** Where a snapshot's replay starts: behind the checkpoint, or where the client
    asked. *)
Definition start_of (after_byte : N) (s : AttachedSnapshot) : N :=
  match snap_terminal s with BasicVt cp _ => cp_through_byte cp | _ => after_byte end.
(** A checkpoint comes whole, fits the window and brings its complete geometry. *)
Definition seeded (s : AttachedSnapshot) : Prop :=
  match snap_terminal s with
  | BasicVt cp resizes => seed_limits_ok cp s = true ∧
      geometry_tail (latest_byte s) (cp_resize_revision cp) (cp_through_byte cp) resizes = Ok (snap_resize_revision s) ∧
      len (snap_terminal_restore s) = cp_restore_bytes cp
  | _ => snap_terminal_restore s = []
  end.

Lemma receive_terminal_seed_spec after s limits n : snap_terminal_restore s = [] →
  wp (receive_terminal_seed allocator after s limits) n (λ n' r, log n' = log n ∧
    match r with
    | Ok (s', start) => start = start_of after s ∧ (∃ restore, s' = set_restore restore s) ∧ seeded s'
    | Err _ => True
    end).
Proof.
  intros Hr. unfold receive_terminal_seed, start_of.
  assert (s = set_restore [] s) as Hself by (destruct s; cbn in *; by subst).
  destruct (snap_terminal s) as [|cp resizes|reason|reason] eqn:Ht.
  2: { apply wp_bind, wp_ensure. destruct (seed_limits_ok cp s) eqn:Hok; [|done].
    apply wp_bind, wp_lift_result. destruct (geometry_tail _ _ _ _) as [revision|] eqn:Hg; [|done].
    apply wp_bind, wp_ensure. destruct (bool_decide (revision = _)) eqn:Hrev; [|done]. apply bool_decide_eq_true in Hrev as ->.
    apply wp_bind. eapply (wp_mono _ _ (λ n2 _, n2 = n)).
    { destruct (cp_restore_scrollback_rows cp); [apply wp_ensure; by case_bool_decide|by apply wp_ret]. }
    intros n2 [[]|e] ->; [|done]. apply wp_bind, wp_lift_result. destruct (reserve_restore _ _ _ _) as [[]|e]; [|done].
    apply wp_bind. unfold lines_left. apply wp_bind, wp_get, wp_ret, wp_bind. rewrite Hr.
    eapply wp_mono; [apply restore_loop_spec; [unfold lines; lia|rewrite len_nil; lia]|].
    intros n2 [restore|e] (Hlog & Hlen); [|done]. apply wp_ret. split; [done|]. split; [done|].
    split; [by exists restore|]. unfold seeded. cbn [set_restore snap_terminal snap_terminal_restore snap_resize_revision]. by rewrite Ht. }
  all: apply wp_ret; split; [done|]; split; [done|]; split; [by eexists|]; unfold seeded; by rewrite Ht.
Qed.

(** A finished download. *)
Definition whole (after : N) (s0 s : AttachedSnapshot) : Prop :=
  seeded s ∧ (∃ restore, downloads (start_of after s) (set_restore restore s0) s
                           (N.max (base (start_of after s) s) (latest_byte s0))).

Lemma seeded_downloads start s0 s expected : seeded s0 → downloads start s0 s expected → seeded s.
Proof.
  intros Hs []. unfold seeded in *. rewrite dl_terminal0.
  destruct (snap_terminal s0) as [|cp resizes|reason|reason] eqn:Ht; try congruence.
  assert (first_byte s = first_byte s0) as Hf.
  { destruct (decide (first_byte s = first_byte s0)); [done|]. destruct (dl_moved0 n) as [_ Hno]. by destruct (Hno cp resizes). }
  rewrite dl_latest0, dl_restore0, dl_revision0. destruct Hs as (Hok & ? & ?). split; [|done].
  unfold seed_limits_ok in *. unfold latest_byte, first_byte in *. by rewrite dl_id0, dl_latest0, Hf.
Qed.

Lemma receive_replay_spec after s0 limits n : snap_terminal_restore s0 = [] → replay_chunks (snap_replay s0) = [] →
  wp (receive_replay allocator after s0 limits) n (λ n' r, log n' = log n ∧
    match r with Ok s => whole after s0 s | Err _ => True end).
Proof.
  intros Hr Hc. unfold receive_replay. apply wp_bind.
  eapply wp_mono; [by apply receive_terminal_seed_spec|]. intros n1 [[s1 start]|e] (Hlog & Hs); [|done].
  destruct Hs as (-> & (restore & ->) & Hseed). set (s1 := set_restore restore s0) in *.
  change (replay_chunks (snap_replay s1)) with (replay_chunks (snap_replay s0)). rewrite Hc. cbn [last].
  change (start_of after s0) with (start_of after s1). set (start := start_of after s1).
  assert (downloads start s1 s1 (base start s1)) as Hd.
  { constructor; try done. change (replay_chunks (snap_replay s1)) with (replay_chunks (snap_replay s0)). by rewrite Hc. }
  assert (∀ s e, e = N.max (base start s) (latest_byte s0) → downloads start s1 s e → whole after s0 s) as Hwhole.
  { intros s e -> Hds. split; [by eapply seeded_downloads|]. exists restore.
    assert (start_of after s = start) as -> by (unfold start, start_of; by rewrite (dl_terminal _ _ _ _ Hds)). done. }
  change (replay_latest_output_bytes (snap_replay s1)) with (latest_byte s0).
  change (N.max start (replay_first_available_byte (snap_replay s1))) with (base start s1).
  case_bool_decide as Hle; [apply wp_ret; split; [done|]; apply (Hwhole _ (base start s1)); [unfold base in *; lia|done]|].
  case_decide as Hle'; [apply wp_ret; split; [done|]; apply (Hwhole _ (base start s1)); [lia|done]|].
  unfold lines_left. apply wp_bind, wp_bind, wp_get, wp_ret.
  eapply wp_mono; [apply (replay_loop_spec start s1); [unfold lines; lia|exact Hd|change (latest_byte s1) with (latest_byte s0); lia]|].
  intros n2 [s|e] (Hlog2 & Hds); (split; [congruence|]); [|done]. apply (Hwhole s (latest_byte s0)); [|exact Hds].
  destruct (spans_bytes _ _ _ (dl_spans _ _ _ _ Hds)) as [Hb _]. change (latest_byte s1) with (latest_byte s0) in Hb. lia.
Qed.

(** The header the daemon announced: the second line on the connection that was opened. *)
Definition announced (n : Net) (header : AttachedHeader) : Prop := ∃ c ds hello line rest,
  dials n = Ok c :: ds ∧ incoming c = Ok hello :: Ok line :: rest ∧
  decode_frame (T := ServerFrame) line = Ok (FAttached header).
(** The attachment a client opens: what it asked, and a whole snapshot of what the daemon
    announced. *)
Definition attached (id : RunId) (after : N) (view : AttachmentView) (n n' : Net)
    (a : AttachmentShared) (s : AttachedSnapshot) : Prop :=
  sent_request (ReqAttach id view after) n n' ∧
  a = with_event_limits (attachment_event_limits client) ∧
  info_id (snap_run s) = id ∧ (view = RawView ↔ snap_terminal s = NotRequested) ∧
  ∃ header, announced n header ∧ whole after (snapshot_of header) s.

Lemma attach_with_view_spec id after view n :
  wp (attach_with_view client allocator id after view) n (λ n' r,
    match r with Ok (a, s) => attached id after view n n' a s | Err _ => True end).
Proof.
  unfold attach_with_view. apply wp_bind. eapply wp_mono; [apply wp_conj; [apply connect_for_dispatch_spec|apply dispatch_opened]|].
  intros n1 [runtime|e] [Hshook Hopen]; [|done]. destruct Hshook as (hello & Hh & Hlog1). apply wp_bind. unfold send, send_sink.
  apply wp_bind, wp_lift_result. destruct (encode_frame _) as [line|e] eqn:He; [|done]. cbn [map_err].
  eapply (wp_mono _ _ (λ n2 r, log n2 = log n1 ++ [line] ∧ incoming (wire n2) = incoming (wire n1))).
  { unfold send_encoded_sink, wp. by destruct (writes (wire n1)) as [|[e|] ws]. }
  intros n2 [[]|e] [Hlog2 Hin2]; [|done].
  apply wp_bind. eapply wp_mono; [apply wp_conj; [apply receive_spec|apply receive_line]|].
  intros n3 [frame|e] [(Hlog3 & _) Hline]; [|done]. destruct Hline as (answer & Hin3 & Hanswer).
  destruct Hopen as (c & ds & hi & Hds & Hin). rewrite <-Hin2, Hin3 in Hin.
  destruct frame as [| |header| | | | | |]; try (by apply wp_fail).
  destruct (bool_decide (info_id (head_run header) ≠ id)) eqn:K1; [by apply wp_fail|].
  destruct (xorb _ _) eqn:K2; [by apply wp_fail|]. cbn [orb].
  apply bool_decide_eq_false in K1. apply dec_stable in K1. apply xorb_eq in K2.
  apply wp_bind. eapply wp_mono; [by apply receive_replay_spec|]. intros n4 [s|e] (Hlog4 & Hs); [|done].
  apply wp_ret. split; [exists hello, line; split; [done|]; split; [done|]; by rewrite Hlog4, Hlog3, Hlog2, Hlog1, <-(assoc_L app)|].
  split; [done|]. pose proof Hs as (_ & restore & Hd). split; [by rewrite (dl_id _ _ _ _ Hd)|].
  split; [|exists header; split; [by exists c, ds, hi, answer, (incoming (wire n3))|done]].
  rewrite (dl_terminal _ _ _ _ Hd). cbn. unfold not_requested in K2.
  destruct (head_terminal header), view; cbn in K2; split; try done.
Qed.

Lemma attach_recoverable_stop_spec operation after n :
  wp (attach_recoverable_stop client allocator operation after) n (λ n' r,
    settled (ReqAttachRecoverableStop operation after) n n' r ∧
    match r with Ok a => ∃ header, whole after (snapshot_of header) (stop_snapshot a) | Err _ => True end).
Proof.
  set (req := ReqAttachRecoverableStop operation after).
  assert (∀ n' e, boundary n n' e → settled (A := RecoverableStopAttachment) req n n' (Err e) ∧ True) as Hfail by done.
  assert (∀ n' e, judged e → settled (A := RecoverableStopAttachment) req n n' (Err e) ∧ True) as Hjudged
    by (intros; split; [by apply judged_boundary|done]).
  unfold attach_recoverable_stop. apply wp_bind. eapply wp_mono; [apply connected_boundary|].
  intros n1 [runtime|e] Hn; [|by apply Hfail]. revert n1 Hn. apply dispatch_spec; [by apply Hfail|]. intros n1 Hs.
  apply wp_bind. eapply wp_mono; [by apply answer_spec|]. intros n2 [frame|e] [Hs2 Hj]; [|by apply Hjudged].
  destruct frame as [|response|header| | | | | |]; try (apply wp_fail, Hjudged, unknown_judged).
  { apply wp_fail, Hjudged. pose proof (decode_short_control_judged decode_stop_receipt response) as Hdec.
    destruct (decode_short_control _ _); [apply unknown_judged|done]. }
  destruct (negb _); [apply wp_fail, Hjudged, unknown_judged|].
  apply wp_bind, wp_or_else. eapply wp_mono; [by apply receive_replay_spec|]. intros n3 [s|e] (Hlog3 & Hw); [|apply Hjudged, unknown_judged].
  assert (sent_request req n n3) as Hs3.
  { destruct Hs2 as (hello & line & ? & ? & ?). exists hello, line. by rewrite Hlog3. }
  apply wp_bind. eapply wp_mono; [by apply answer_spec|]. intros n4 [frame|e] [Hs4 Hj4]; [|by apply Hjudged].
  destruct frame as [|response| | | | | | |]; try (apply wp_fail, Hjudged, unknown_judged).
  apply wp_bind, wp_lift_result.
  assert (match decode_recoverable_stop_attachment_response response with Ok _ => True | Err e => judged e end) as Hdec.
  { destruct response; try apply unknown_judged. apply decode_short_control_judged. }
  destruct (decode_recoverable_stop_attachment_response response) as [accepted|e]; [|by apply Hjudged].
  destruct (_ || _); [apply wp_fail, Hjudged, unknown_judged|]. apply wp_ret. split; [exact Hs4|]. by exists header.
Qed.
End download.
End wire.

(** ** Theorems *)

(** Every control command of the client, with its arguments. *)
Inductive ControlOp :=
  | CoInput (id : RunId) (d : bytes)
  | CoRecoverableInput (operation : RecoverableInput)
  | CoResize (id : RunId) (size : TerminalSize)
  | CoInterrupt (id : RunId)
  | CoStopOnce (random : StopOperationKey) (id : RunId)
  | CoStop (operation : RecoverableStop)
  | CoAttachStop (operation : RecoverableStop) (after_byte : N).

Section commands.
Context `{!Serde ClientFrame, !Serde ServerFrame} (client : Client) (allocator : N → N → option string).

Definition run_control (op : ControlOp) : Io unit :=
  match op with
  | CoInput id d => input client id d ;;; mret_ tt
  | CoRecoverableInput operation => recoverable_input client operation ;;; mret_ tt
  | CoResize id size => resize client id size ;;; mret_ tt
  | CoInterrupt id => interrupt client id ;;; mret_ tt
  | CoStopOnce random id => stop_once client random id ;;; mret_ tt
  | CoStop operation => stop client operation ;;; mret_ tt
  | CoAttachStop operation after_byte => attach_recoverable_stop client allocator operation after_byte ;;; mret_ tt
  end.
(** The request a command asks; a one-shot stop names the daemon it reached. *)
Definition asks (op : ControlOp) (r : Request) : Prop :=
  match op with
  | CoInput id d => r = ReqInput id d
  | CoRecoverableInput operation => r = ReqRecoverableInput operation
  | CoResize id size => r = ReqResize id size
  | CoInterrupt id => r = ReqSignal id Interrupt
  | CoStopOnce random id => ∃ instance,
      r = ReqStop {| rst_daemon_instance := instance; rst_operation_key := random; rst_id := id |}
  | CoStop operation => r = ReqStop operation
  | CoAttachStop operation after_byte => r = ReqAttachRecoverableStop operation after_byte
  end.

Lemma forget_spec {A} (m : Io A) op r n : asks op r → wp m n (settled r n) →
  wp (m ;;; mret_ tt) n (λ n' res, match res with
    | Ok _ => ∃ r, asks op r ∧ sent_request r n n' | Err e => boundary n n' e end).
Proof.
  intros Ha Hm. apply wp_bind. eapply wp_mono; [exact Hm|]. intros n' [a|e] Hs; [|done]. apply wp_ret. by exists r.
Qed.

Lemma recoverable_input_settled operation n :
  wp (recoverable_input client operation) n (settled (ReqRecoverableInput operation) n).
Proof.
  unfold recoverable_input. apply wp_bind, wp_lift_result.
  destruct (checked_add _ _) as [e|]; cbn [ok_or]; [|apply not_applied_boundary; by left].
  apply control_then. intros response n' Hs.
  destruct response; try (apply wp_fail, judged_boundary, unknown_judged).
  - apply wp_bind, wp_lift_result. destruct (validate_control_failure failure) as [[]|] eqn:Hf; cbn [map_err];
      [apply wp_fail; apply judged_boundary; right; eauto|apply judged_boundary, unknown_judged].
  - destruct (_ && _); [by apply wp_ret|apply wp_fail, judged_boundary, unknown_judged].
Qed.

Lemma stop_once_settled random id n : wp (stop_once client random id) n (λ n' res, match res with
    | Ok _ => ∃ r, asks (CoStopOnce random id) r ∧ sent_request r n n' | Err e => boundary n n' e end).
Proof.
  unfold stop_once. apply wp_bind. eapply wp_mono; [apply connected_boundary|]. intros n1 [runtime|e] Hn; [|done].
  apply wp_bind, wp_lift_result. destruct (require_recoverable_stop runtime) as [[]|e]; cbn [map_err];
    [|apply not_applied_boundary; by right].
  set (r := ReqStop _). cbn zeta. revert n1 Hn. apply (dispatch_spec r); [done|]. intros n2 Hs.
  apply wp_bind. eapply wp_mono; [by apply answer_spec|]. intros n3 [frame|e] [Hs3 Hj]; [|by apply judged_boundary].
  destruct frame as [|response| | | | | | |]; try (apply wp_fail, judged_boundary, unknown_judged).
  apply wp_bind, wp_lift_result. pose proof (decoded_spec decode_stop_receipt response r n n3 Hs3) as Hd.
  destruct (decode_short_control decode_stop_receipt response) as [accepted|e]; [|exact Hd].
  eapply wp_mono; [by apply exact_stop_spec|]. intros n4 [a|e] K; [|done]. exists r. split; [by eexists|done].
Qed.

(** C30: A control command always knows whether it can have been applied.  It ends; a
    success put exactly the handshake and its own request on a connection; and every
    failure names a boundary: "not applied" is said only when the daemon itself
    said so, without contradicting itself, or when nothing but a handshake was ever
    handed to a connection; anything later is unknown. *)
Theorem control_command_knows_its_boundary op n :
  ∃ n' res, run_control op n = Ret (n', res) ∧
    match res with
    | Ok _ => ∃ r, asks op r ∧ sent_request r n n'
    | Err e => ∃ d, control_disposition e = Some d ∧
        (d = NotApplied → (∃ f, e = ControlRejected f ∧ validate_control_failure f = Ok tt) ∨ only_hello n n')
    end.
Proof.
  assert (wp (run_control op) n (λ n' res, match res with
    | Ok _ => ∃ r, asks op r ∧ sent_request r n n' | Err e => boundary n n' e end)) as Hwp.
  { destruct op as [id d|operation|id size|id|random id|operation|operation after]; cbn [run_control].
    - apply (forget_spec _ _ (ReqInput id d)); [done|]. apply control_then. intros. by apply wp_lift_result, decoded_spec.
    - apply (forget_spec _ _ (ReqRecoverableInput operation)); [done|]. apply recoverable_input_settled.
    - apply (forget_spec _ _ (ReqResize id size)); [done|]. apply control_then. intros. by apply wp_lift_result, decoded_spec.
    - apply (forget_spec _ _ (ReqSignal id Interrupt)); [done|]. apply control_then. intros. by apply wp_lift_result, decoded_spec.
    - apply wp_bind. eapply wp_mono; [apply stop_once_settled|]. intros n' [a|e] K; [by apply wp_ret|done].
    - apply (forget_spec _ _ (ReqStop operation)); [done|]. apply control_then. intros response n' Hs.
      apply wp_bind, wp_lift_result. pose proof (decoded_spec decode_stop_receipt response _ n n' Hs) as Hd.
      destruct (decode_short_control decode_stop_receipt response) as [accepted|e]; [by apply exact_stop_spec|exact Hd].
    - apply (forget_spec _ _ (ReqAttachRecoverableStop operation after)); [done|].
      eapply wp_mono; [apply attach_recoverable_stop_spec|]. by intros n' r [K _]. }
  apply wp_elim in Hwp as (n' & res & Hrun & K). exists n', res. split; [done|].
  destruct res as [|e]; [done|]. unfold boundary in K. destruct (control_disposition e) as [d|]; [|done].
  exists d. split; [done|]. by intros ->.
Qed.

(** C31: A snapshot the client accepts is whole.  Opening an attachment ends; on success
    the daemon has announced a header on the connection that was dialed, and the snapshot is
    of the Run and view asked for: its newest byte is the header's, its output runs without a
    hole to that byte from where the client asked, its checkpoint stands or its window begins,
    whichever is later.  The window begins at the header's first byte, with the header's word
    on truncation, or later: then it moved during the download, the snapshot says it is
    truncated and has no checkpoint.  A checkpoint brings all its bytes and geometry. *)
Theorem attachment_snapshot_is_whole id after view n :
  ∃ n' res, attach_with_view client allocator id after view n = Ret (n', res) ∧
    match res with
    | Err _ => True
    | Ok (a, s) => ∃ header, announced n header ∧
        attached client id after view n n' a s ∧ seeded s ∧
        latest_byte s = hdr_latest_output_bytes (head_replay header) ∧
        (let start := start_of after s in
         spans (base start s) (replay_chunks (snap_replay s)) = Some (N.max (base start s) (latest_byte s)) ∧
         len (replay_bytes (replay_chunks (snap_replay s))) = latest_byte s - base start s) ∧
        (first_byte s = hdr_first_available_byte (head_replay header) ∧
           replay_truncated (snap_replay s) = hdr_truncated (head_replay header) ∨
         hdr_first_available_byte (head_replay header) < first_byte s ∧
           replay_truncated (snap_replay s) = true ∧ ∀ cp rs, snap_terminal s ≠ BasicVt cp rs)
    end.
Proof.
  pose proof (attach_with_view_spec client allocator id after view n) as Hwp.
  apply wp_elim in Hwp as (n' & res & Hrun & K). exists n', res. split; [done|]. destruct res as [[a s]|e]; [|done].
  pose proof K as (_ & _ & _ & _ & header & Hann & Hseed & restore & Hd). exists header. split; [done|]. split; [done|]. split; [done|].
  pose proof (dl_latest _ _ _ _ Hd) as Hl. pose proof (dl_spans _ _ _ _ Hd) as Hs. rewrite Hl.
  change (latest_byte (set_restore restore (snapshot_of header))) with (latest_byte (snapshot_of header)) in *.
  split; [done|]. split; [split; [done|]; destruct (spans_bytes _ _ _ Hs) as [_ ->]; lia|].
  destruct (decide (first_byte s = hdr_first_available_byte (head_replay header))) as [Heq|Hne].
  - left. split; [done|]. by apply (dl_stayed _ _ _ _ Hd).
  - right. pose proof (dl_first _ _ _ _ Hd) as Hfirst. split; [|by apply (dl_moved _ _ _ _ Hd)].
    change (first_byte (set_restore restore (snapshot_of header))) with (hdr_first_available_byte (head_replay header)) in Hfirst. lia.
Qed.

(** *** Walking every page *)

Definition spends (n n' : Net) (b : bool) : Prop :=
  if b then (length (dials n') < length (dials n))%nat else True.
Lemma send_dials frame n : wp (send frame) n (λ n' r, dials n' = dials n).
Proof.
  unfold send, send_sink. apply wp_bind, wp_lift_result. destruct (encode_frame frame); [|done]. cbn [map_err].
  unfold send_encoded_sink, wp. by destruct (writes (wire n)) as [|[]].
Qed.
Lemma connect_dials n : wp (connect client) n (λ n' r, spends n n' (is_ok r)).
Proof.
  unfold connect. apply wp_bind. unfold dial, wp at 1. destruct (dials n) as [|[c|why] ds] eqn:Hds; [done| |done].
  apply wp_bind. eapply wp_mono; [apply send_dials|]. intros n1 [[]|e] Hd; [|done].
  apply wp_bind. eapply wp_mono; [apply receive_spec|]. intros n2 [frame|e] (_ & Hd2 & _); [|done].
  assert (spends n n2 true) as Hs by (unfold spends; rewrite Hd2, Hd, Hds; cbn; lia).
  destruct frame; try (by apply wp_fail). apply wp_bind, wp_lift_result.
  destruct (validate_runtime_identity runtime) as [[]|]; [by apply wp_ret|done].
Qed.
Lemma list_page_dials after limit n : wp (list_page client after limit) n (λ n' r, spends n n' (is_ok r)).
Proof.
  unfold list_page, request. apply wp_bind, wp_bind. unfold connect_for_dispatch. apply wp_bind.
  eapply wp_mono; [apply connect_dials|]. intros n1 [runtime|e] Hs; [|done].
  apply wp_bind. eapply (wp_mono _ _ (λ n2 r, n2 = n1)).
  { destruct (expected_runtime_identity client); [apply wp_ensure; by case_bool_decide|by apply wp_ret]. }
  intros n2 [[]|e] ->; [|done]. apply wp_bind, wp_lift_result.
  destruct (validate_runtime_capability_requirements _ _) as [[]|e]; [|done]. apply wp_ret, wp_bind.
  eapply wp_mono; [apply send_dials|]. intros n2 [[]|e] Hd2; [|done].
  apply wp_bind. eapply wp_mono; [apply receive_spec|]. intros n3 [frame|e] (_ & Hd3 & _); [|done].
  assert (spends n n3 true) as Hs3 by (unfold spends in *; by rewrite Hd3, Hd2).
  destruct frame as [|response| | | | | | |error]; try (by apply wp_fail).
  - apply wp_ret. destruct response; try (by apply wp_fail). by apply wp_ret.
  - destruct (creation_failure error) as [failure|]; [case_decide|]; by apply wp_fail.
Qed.
Lemma list_from_ends fuel : ∀ runs cursor n, (length (dials n) < fuel)%nat → wp (list_from client fuel runs cursor) n (λ _ _, True).
Proof.
  induction fuel as [|fuel IH]; intros runs cursor n Hf; [lia|]. cbn [list_from]. apply wp_bind.
  eapply wp_mono; [apply list_page_dials|]. intros n1 [[page next]|e] Hs; [|done]. cbn [snd].
  destruct next; [|by apply wp_ret]. apply IH. cbn in Hs. lia.
Qed.

(** Walking every page ends: a page costs one dial, and a failed dial ends the walk. *)
Lemma list_ends n : ∃ n' res, list_runs client n = Ret (n', res).
Proof.
  assert (wp (list_runs client) n (λ _ _, True)) as Hwp by (apply wp_bind, wp_get, list_from_ends; lia).
  apply wp_elim in Hwp as (n' & res & Hrun & _). eauto.
Qed.
End commands.

(** ** Evaluated requests *)

Module RequestDemo.
#[local] Instance client_frames : Serde ClientFrame :=
  {| to_string f := Ok (if f is ClientHello _ then [x68] else [x72]); json_value _ := Ok JScalar;
     from_slice _ := Ok ClientDetach; show_member s := s |}.
Definition runtime : RuntimeIdentity :=
  {| daemon_instance_id := 7; runtime_id := 9; runtime_id_persistence := DaemonLifetime; build_id := "b";
     protocol_generation := PROTOCOL_VERSION; platform := "linux"; arch := "x86_64"; capabilities := ∅ |}.
(** The daemon's lines: its hello, and a rejection of what was asked. *)
#[local] Instance server_frames : Serde ServerFrame :=
  {| to_string _ := Ok []; json_value _ := Ok JScalar;
     from_slice b := match b with
                     | [x68] => Ok (FHello runtime)
                     | _ => Ok (FError (protocol_error InvalidRequest "no"))
                     end;
     show_member s := s |}.
Definition net (cs : list (result Connection string)) : Net :=
  {| dials := cs; wire := {| incoming := []; writes := [] |}; log := [] |}.
Definition client : Client := client_new "/run/ctxmux".
Definition stop_op : RecoverableStop := {| rst_daemon_instance := 7; rst_operation_key := "k"; rst_id := 3 |}.

Definition outcome_of (op : ControlOp) (n : Net) : option (list bytes * option CommandDisposition) :=
  match run_control client (λ _ _, None) op n with
  | Ret (n', Err e) => Some (log n', control_disposition e)
  | Ret (n', Ok _) => Some (log n', None)
  | Panic _ => None
  end.
Example nobody_listens : outcome_of (CoStop stop_op) (net [Err "refused"%string]) = Some ([], Some NotApplied).
Proof. by vm_compute. Qed.
Example daemon_without_recoverable_stop :
  outcome_of (CoStopOnce "k" 3) (net [Ok {| incoming := [Ok [x68]]; writes := [] |}]) = Some ([[x68]], Some NotApplied).
Proof. by vm_compute. Qed.
Example daemon_closed_after_the_request :
  outcome_of (CoStop stop_op) (net [Ok {| incoming := [Ok [x68]]; writes := [] |}]) = Some ([[x68]; [x72]], Some Unknown).
Proof. by vm_compute. Qed.
Example daemon_answered_with_an_error :
  outcome_of (CoStop stop_op) (net [Ok {| incoming := [Ok [x68]; Ok [x65]]; writes := [] |}]) =
  Some ([[x68]; [x72]], Some Unknown).
Proof. by vm_compute. Qed.
End RequestDemo.
