(* ===== verification/PersistenceActor.v ===== *)
(** * The persistence actor

    [persistence.rs]: the thread that owns the durable store.  Producers hand it output
    on a bounded channel and lifecycle commands on a lane of their own; each turn of
    [actor_main] takes one command, lets an interrupted transaction or a shortage of
    space settle first, and either finishes the command or keeps it for a later turn.

    Modelled: the commands, the two channels with their credits and permits, the
    producers' sections, and every branch of a turn.  The store is an interface
    ([ActorStore]).  Other threads run between any two looks of the actor at what they
    share: an [Event] is what they did before such a look.  Left out: test hooks,
    diagnostics, [Notify], which only says that a permit may be free, and a channel whose
    senders are gone: their owner sends [Shutdown] before it drops them. *)

From S2P Require Import Prelude.
From S2P Require Import Protocol.
From S2P Require Import TerminalCheckpoint.
From S2P Require Import StorageErrors.
From S2P Require Import StoreTransaction.
From S2P Require Import StoreAppend.

Definition PERSISTENCE_QUEUE_CAPACITY : N := 16.
Definition LIFECYCLE_QUEUE_CAPACITY : nat := 8.
Definition STORAGE_RETRY_INTERVAL : N := STORAGE_RETRY_INTERVAL_MS.
Definition APPEND_BATCH_WINDOW : N := 10.
Definition RECOVERY_BACKOFF_CEILING : N := 1000.

(** ** Commands *)

Record PersistentCandidate := {
  candidate_id : RunId; candidate_key : CreateOperationKey; candidate_metadata_bytes : N;
}.
Record PreparedPersistentStart := {
  prepared_key : CreateOperationKey; prepared_id : RunId; prepared_spec_json : string;
  prepared_lineage_json : option string; prepared_state_json : string; prepared_epoch : string;
  prepared_metadata_bytes : N;
}.
Record StageRequest := {
  stage_permit : bool; prepared : PreparedPersistentStart; candidates : list PersistentCandidate;
}.
Record Finalization := {
  final_run : RunId; final_pid : N; final_replay : OutputReplay; final_state : RunState;
  final_gap : option N; final_head : Cell; final_metadata : Cell;
}.
(** A permit is whether the command holds a lifecycle slot; a reply is whether somebody
    waits on its channel. *)
Inductive Command :=
  | ReadReplay (lifecycle_permit : bool) (id : RunId) (after through : N)
  | SaveCheckpoint (id : RunId) (saved : option StoredCheckpoint) (durable_head : Cell) (reply : bool)
  | StageStart (request : StageRequest)
  | RemoveTerminal (lifecycle_permit : bool) (candidate : PersistentCandidate)
  | Append (id : RunId) (replay : OutputReplay) (durable_head : Cell)
  | Finalize (lifecycle_permit : bool) (f : Finalization) (reply : bool)
  | Barrier
  | LifecycleWake
  | Shutdown.

Definition lifecycle_permit_mut (permit : bool) (c : Command) : option Command :=
  match c with
  | StageStart r => Some (StageStart {| stage_permit := permit; prepared := prepared r; candidates := candidates r |})
  | Finalize _ f reply => Some (Finalize permit f reply)
  | RemoveTerminal _ candidate => Some (RemoveTerminal permit candidate)
  | ReadReplay _ id after through => Some (ReadReplay permit id after through)
  | _ => None
  end.
Definition has_permit (c : Command) : bool :=
  match c with
  | StageStart r => stage_permit r
  | Finalize permit _ _ | RemoveTerminal permit _ | ReadReplay permit _ _ _ => permit
  | _ => false
  end.
Definition is_append (c : Command) : bool := match c with Append _ _ _ => true | _ => false end.
Definition appends_to (id : RunId) (c : Command) : bool :=
  match c with Append id' _ _ => bool_decide (id' = id) | _ => false end.
Definition finalizes (id : RunId) (c : Command) : bool :=
  match c with Finalize _ f _ => bool_decide (final_run f = id) | _ => false end.
(** What the append channel carries besides output. *)
Definition is_control (c : Command) : bool :=
  match c with SaveCheckpoint _ _ _ _ | Barrier | LifecycleWake | Shutdown => true | _ => false end.
(** What may be handled while appends wait for space. *)
Definition unblocked (c : Command) : bool :=
  match c with Barrier | ReadReplay _ _ _ _ | LifecycleWake | Shutdown => true | _ => false end.

(** A command in a channel, with its number among all sends.  The code has no such number:
    it names the command, and the channel its sender waits on. *)
Definition Sent : Type := N * Command.
Definition append_weight (x : Sent) : N := if is_append x.2 then 1 else 0.

(** ** The lifecycle lane *)

Definition lifecycle_touches (c : Command) (id : RunId) : bool :=
  match c with
  | StageStart r => bool_decide (prepared_id (prepared r) = id) ||
                    existsb (λ x, bool_decide (candidate_id x = id)) (candidates r)
  | RemoveTerminal _ x => bool_decide (candidate_id x = id)
  | Finalize _ f _ => bool_decide (final_run f = id)
  | SaveCheckpoint target _ _ _ => bool_decide (target = id)
  | _ => false
  end.
Definition lifecycle_conflicts (earlier later : Command) : bool :=
  match earlier with
  | StageStart r => lifecycle_touches later (prepared_id (prepared r)) ||
                    existsb (λ x, lifecycle_touches later (candidate_id x)) (candidates r)
  | RemoveTerminal _ x => lifecycle_touches later (candidate_id x)
  | Finalize _ f _ => lifecycle_touches later (final_run f)
  | _ => false
  end.

Fixpoint position {A} (f : A → bool) (l : list A) : option nat :=
  match l with
  | [] => None
  | x :: l => if f x then Some O else S <$> position f l
  end.
(** [VecDeque::remove]. *)
Definition remove_at {A} (i : nat) (l : list A) : option (A * list A) :=
  match l !! i with Some x => Some (x, delete i l) | None => None end.
Definition independent (lane : list Sent) (i : nat) : bool :=
  match lane !! i with
  | Some later => forallb (λ earlier, negb (lifecycle_conflicts earlier.2 later.2)) (take i lane)
  | None => false
  end.
(** Which of the waiting commands gets the turn. *)
Definition next_turn (yielded : bool) (lane : list Sent) : nat :=
  if yielded then default O (find (independent lane) (seq 1 (length lane - 1))) else O.
Definition take_turn (yielded : bool) (lane : list Sent) : option (Sent * list Sent) :=
  remove_at (next_turn yielded lane) lane.
Definition requeue_lifecycle_continuation (c : Sent) (lane : list Sent) : list Sent :=
  let before := default (length lane) (position (λ later, lifecycle_conflicts c.2 later.2) lane) in
  take before lane ++ c :: drop before lane.

(** ** What the store answers *)

Inductive StartDisposition := StartPending | StartNotCommitted | StartCommitted | StartCommitUnknown.
#[global] Instance StartDisposition_eq_dec : EqDecision StartDisposition.
Proof. solve_decision. Defined.
Inductive StageCompletion :=
  | CompletionNotCommitted (e : StageFailure)
  | CompletionCommitted (post_commit : option PersistenceError)
  | CompletionCommitUnknown (e : PersistenceError).
Inductive StageDriveResult := ReadyFailed (e : StageFailure) | Completed (c : StageCompletion).
Inductive RemovalDisposition := Removed | NotRemoved (e : PersistenceError) | RemovalUnknown (e : PersistenceError).
Definition Funding : Type := N * N * N * N.

(** [StateStore] as the actor uses it.  An operation may answer differently each time it
    is called: what SQLite and the files do is part of the state. *)
Class ActorStore (St : Type) := {
  reconciliation_pending : St → bool;
  compaction_due : St → bool;
  cell_value : Cell → St → N;
  reconcile_transaction : St → result (option (option RunId)) PersistenceError * St;
  stop_retrying : St → St;                     (* clears [retry] of the unresolved record *)
  recovery_identity : St → result unit PersistenceError * St;
  recovery_namespace : St → result unit PersistenceError * St;
  committed_read : St → result unit PersistenceError * St;
  replay_directory : St → result unit PersistenceError * St;   (* [require_path_identity] of it *)
  replay_page : RunId → N → N → St → result OutputReplay PersistenceError * St;
  funding_now : bool → bool → St → result Funding PersistenceError * St;
  run_head : RunId → St → result N PersistenceError * St;
  run_exists : RunId → St → result bool PersistenceError * St;
  capacity_error : PersistenceError → St → PersistenceError * St;  (* [write_capacity_error] *)
  compact_step : St → result unit PersistenceError * St;
  fold_wal : bool → St → St;                   (* [idle_fold_wal], told whether shutdown was seen *)
  drive_staged_start : StageRequest → bool → St → option StageDriveResult * St;
  start_disposition : PreparedPersistentStart → St → StartDisposition;
  decide_start : PreparedPersistentStart → StartDisposition → St → St;  (* [StartReceipt::decide] *)
  keep_unresolved_start : StageRequest → St → St;
  remove_terminal : PersistentCandidate → bool → St → option RemovalDisposition * St;
  missing_bytes : RunId → OutputReplay → St → result (list OutputChunk) PersistenceError * St;
  append_batch : list BatchEntry → bool → St → result bool PersistenceError * St;
  finalize_run : Finalization → bool → St → result bool PersistenceError * St;
  write_checkpoint : RunId → option StoredCheckpoint → St → result unit string * St;
  remove_checkpoint : RunId → St → St;
}.

(** ** The state *)

Inductive Answer :=
  | AnswerReplay (r : result OutputReplay PersistenceError)
  | AnswerCheckpoint (r : result unit string)
  | AnswerReady (e : StageFailure)
  | AnswerCompletion (c : StageCompletion)
  | AnswerRemoval (r : RemovalDisposition)
  | AnswerFinal (r : result unit PersistenceError)
  | AnswerBarrier (r : result unit PersistenceError).
(** What the actor did: an answer to the sender of a command, an append the store took,
    and the command it had in hand when an interrupted transaction was settled. *)
Inductive Act :=
  | Answered (t : N) (a : Answer)
  | Settled (t : N) (id : RunId)
  | Reconciled (c : Sent).

(** What another thread does in one section. *)
Inductive Send :=
  | ReserveAppend
  | ReserveBlocking
  | ReturnReserved
  | SendAppend (id : RunId) (replay : OutputReplay) (durable_head : Cell)
  | SendControl (c : Command)
  | TakeSlot
  | ReturnSlot
  | SendLifecycle (c : Command)
  | RequestWake
  | RegisterWake
  | CancelWaits.
(** Before a look of the actor: how long it took, what others did, and at which looks of a
    wait they ask for shutdown. *)
Record Event := { elapsed : N; sends : list Send; stops : nat → bool }.
Definition quiet_event : Event := {| elapsed := 0; sends := []; stops := λ _, false |}.

Record Queues := {
  pending : list Sent;
  pending_lifecycle : option Sent;
  lifecycle_pending : list Sent;
  lifecycle_yielded : bool;
}.
Definition set_pending (v : list Sent) (s : Queues) : Queues :=
  {| pending := v; pending_lifecycle := pending_lifecycle s; lifecycle_pending := lifecycle_pending s;
     lifecycle_yielded := lifecycle_yielded s |}.
Definition set_pending_lifecycle (v : option Sent) (s : Queues) : Queues :=
  {| pending := pending s; pending_lifecycle := v; lifecycle_pending := lifecycle_pending s;
     lifecycle_yielded := lifecycle_yielded s |}.
Definition set_lifecycle_pending (v : list Sent) (s : Queues) : Queues :=
  {| pending := pending s; pending_lifecycle := pending_lifecycle s; lifecycle_pending := v;
     lifecycle_yielded := lifecycle_yielded s |}.
Definition set_lifecycle_yielded (v : bool) (s : Queues) : Queues :=
  {| pending := pending s; pending_lifecycle := pending_lifecycle s;
     lifecycle_pending := lifecycle_pending s; lifecycle_yielded := v |}.

Record Debt := {
  blocked_funding : option Funding;
  capacity_debt : bool;
  capacity_progress : bool;
  pending_reason : string;
  recovery_retry : option N;
  recovery_backoff : N;
  external_capacity : bool;
  filesystem_debt : bool;
}.
Definition set_blocked_funding (v : option Funding) (s : Debt) : Debt :=
  {| blocked_funding := v; capacity_debt := capacity_debt s; capacity_progress := capacity_progress s;
     pending_reason := pending_reason s; recovery_retry := recovery_retry s;
     recovery_backoff := recovery_backoff s; external_capacity := external_capacity s;
     filesystem_debt := filesystem_debt s |}.
Definition set_capacity_debt (v : bool) (s : Debt) : Debt :=
  {| blocked_funding := blocked_funding s; capacity_debt := v; capacity_progress := capacity_progress s;
     pending_reason := pending_reason s; recovery_retry := recovery_retry s;
     recovery_backoff := recovery_backoff s; external_capacity := external_capacity s;
     filesystem_debt := filesystem_debt s |}.
Definition set_capacity_progress (v : bool) (s : Debt) : Debt :=
  {| blocked_funding := blocked_funding s; capacity_debt := capacity_debt s; capacity_progress := v;
     pending_reason := pending_reason s; recovery_retry := recovery_retry s;
     recovery_backoff := recovery_backoff s; external_capacity := external_capacity s;
     filesystem_debt := filesystem_debt s |}.
Definition set_pending_reason (v : string) (s : Debt) : Debt :=
  {| blocked_funding := blocked_funding s; capacity_debt := capacity_debt s;
     capacity_progress := capacity_progress s; pending_reason := v; recovery_retry := recovery_retry s;
     recovery_backoff := recovery_backoff s; external_capacity := external_capacity s;
     filesystem_debt := filesystem_debt s |}.
Definition set_recovery_retry (v : option N) (s : Debt) : Debt :=
  {| blocked_funding := blocked_funding s; capacity_debt := capacity_debt s;
     capacity_progress := capacity_progress s; pending_reason := pending_reason s; recovery_retry := v;
     recovery_backoff := recovery_backoff s; external_capacity := external_capacity s;
     filesystem_debt := filesystem_debt s |}.
Definition set_recovery_backoff (v : N) (s : Debt) : Debt :=
  {| blocked_funding := blocked_funding s; capacity_debt := capacity_debt s;
     capacity_progress := capacity_progress s; pending_reason := pending_reason s;
     recovery_retry := recovery_retry s; recovery_backoff := v; external_capacity := external_capacity s;
     filesystem_debt := filesystem_debt s |}.
Definition set_external_capacity (v : bool) (s : Debt) : Debt :=
  {| blocked_funding := blocked_funding s; capacity_debt := capacity_debt s;
     capacity_progress := capacity_progress s; pending_reason := pending_reason s;
     recovery_retry := recovery_retry s; recovery_backoff := recovery_backoff s; external_capacity := v;
     filesystem_debt := filesystem_debt s |}.
Definition set_filesystem_debt (v : bool) (s : Debt) : Debt :=
  {| blocked_funding := blocked_funding s; capacity_debt := capacity_debt s;
     capacity_progress := capacity_progress s; pending_reason := pending_reason s;
     recovery_retry := recovery_retry s; recovery_backoff := recovery_backoff s;
     external_capacity := external_capacity s; filesystem_debt := v |}.

Record Shared := {
  receiver : list Sent;
  lifecycle_rx : list Sent;
  lifecycle_slots : N;
  queue_depth : N;
  capacity_blocked : bool;
  capacity_pressure : bool;
  latch : option string * option StorageFailure;
  shutdown : bool;
  output_wake : bool;
  output_wake_requested : bool;
}.
Definition set_receiver (v : list Sent) (s : Shared) : Shared :=
  {| receiver := v; lifecycle_rx := lifecycle_rx s; lifecycle_slots := lifecycle_slots s;
     queue_depth := queue_depth s; capacity_blocked := capacity_blocked s;
     capacity_pressure := capacity_pressure s; latch := latch s; shutdown := shutdown s;
     output_wake := output_wake s; output_wake_requested := output_wake_requested s |}.
Definition set_lifecycle_rx (v : list Sent) (s : Shared) : Shared :=
  {| receiver := receiver s; lifecycle_rx := v; lifecycle_slots := lifecycle_slots s;
     queue_depth := queue_depth s; capacity_blocked := capacity_blocked s;
     capacity_pressure := capacity_pressure s; latch := latch s; shutdown := shutdown s;
     output_wake := output_wake s; output_wake_requested := output_wake_requested s |}.
Definition set_lifecycle_slots (v : N) (s : Shared) : Shared :=
  {| receiver := receiver s; lifecycle_rx := lifecycle_rx s; lifecycle_slots := v;
     queue_depth := queue_depth s; capacity_blocked := capacity_blocked s;
     capacity_pressure := capacity_pressure s; latch := latch s; shutdown := shutdown s;
     output_wake := output_wake s; output_wake_requested := output_wake_requested s |}.
Definition set_queue_depth (v : N) (s : Shared) : Shared :=
  {| receiver := receiver s; lifecycle_rx := lifecycle_rx s; lifecycle_slots := lifecycle_slots s;
     queue_depth := v; capacity_blocked := capacity_blocked s; capacity_pressure := capacity_pressure s;
     latch := latch s; shutdown := shutdown s; output_wake := output_wake s;
     output_wake_requested := output_wake_requested s |}.
Definition set_capacity_blocked (v : bool) (s : Shared) : Shared :=
  {| receiver := receiver s; lifecycle_rx := lifecycle_rx s; lifecycle_slots := lifecycle_slots s;
     queue_depth := queue_depth s; capacity_blocked := v; capacity_pressure := capacity_pressure s;
     latch := latch s; shutdown := shutdown s; output_wake := output_wake s;
     output_wake_requested := output_wake_requested s |}.
Definition set_capacity_pressure (v : bool) (s : Shared) : Shared :=
  {| receiver := receiver s; lifecycle_rx := lifecycle_rx s; lifecycle_slots := lifecycle_slots s;
     queue_depth := queue_depth s; capacity_blocked := capacity_blocked s; capacity_pressure := v;
     latch := latch s; shutdown := shutdown s; output_wake := output_wake s;
     output_wake_requested := output_wake_requested s |}.
Definition set_latch (v : option string * option StorageFailure) (s : Shared) : Shared :=
  {| receiver := receiver s; lifecycle_rx := lifecycle_rx s; lifecycle_slots := lifecycle_slots s;
     queue_depth := queue_depth s; capacity_blocked := capacity_blocked s;
     capacity_pressure := capacity_pressure s; latch := v; shutdown := shutdown s;
     output_wake := output_wake s; output_wake_requested := output_wake_requested s |}.
Definition set_shutdown (v : bool) (s : Shared) : Shared :=
  {| receiver := receiver s; lifecycle_rx := lifecycle_rx s; lifecycle_slots := lifecycle_slots s;
     queue_depth := queue_depth s; capacity_blocked := capacity_blocked s;
     capacity_pressure := capacity_pressure s; latch := latch s; shutdown := v;
     output_wake := output_wake s; output_wake_requested := output_wake_requested s |}.
Definition set_output_wake (v : bool) (s : Shared) : Shared :=
  {| receiver := receiver s; lifecycle_rx := lifecycle_rx s; lifecycle_slots := lifecycle_slots s;
     queue_depth := queue_depth s; capacity_blocked := capacity_blocked s;
     capacity_pressure := capacity_pressure s; latch := latch s; shutdown := shutdown s; output_wake := v;
     output_wake_requested := output_wake_requested s |}.
Definition set_output_wake_requested (v : bool) (s : Shared) : Shared :=
  {| receiver := receiver s; lifecycle_rx := lifecycle_rx s; lifecycle_slots := lifecycle_slots s;
     queue_depth := queue_depth s; capacity_blocked := capacity_blocked s;
     capacity_pressure := capacity_pressure s; latch := latch s; shutdown := shutdown s;
     output_wake := output_wake s; output_wake_requested := v |}.

Record History := {
  now : N;
  env : list Event;
  sent : list Sent;
  reserved : N;
  slots_in_flight : N;
  offered_head : gmap RunId N;
  wakes : N;
  acts : list Act;
}.
Definition set_now (v : N) (s : History) : History :=
  {| now := v; env := env s; sent := sent s; reserved := reserved s; slots_in_flight := slots_in_flight s;
     offered_head := offered_head s; wakes := wakes s; acts := acts s |}.
Definition set_env (v : list Event) (s : History) : History :=
  {| now := now s; env := v; sent := sent s; reserved := reserved s; slots_in_flight := slots_in_flight s;
     offered_head := offered_head s; wakes := wakes s; acts := acts s |}.
Definition set_sent (v : list Sent) (s : History) : History :=
  {| now := now s; env := env s; sent := v; reserved := reserved s; slots_in_flight := slots_in_flight s;
     offered_head := offered_head s; wakes := wakes s; acts := acts s |}.
Definition set_reserved (v : N) (s : History) : History :=
  {| now := now s; env := env s; sent := sent s; reserved := v; slots_in_flight := slots_in_flight s;
     offered_head := offered_head s; wakes := wakes s; acts := acts s |}.
Definition set_slots_in_flight (v : N) (s : History) : History :=
  {| now := now s; env := env s; sent := sent s; reserved := reserved s; slots_in_flight := v;
     offered_head := offered_head s; wakes := wakes s; acts := acts s |}.
Definition set_offered_head (v : gmap RunId N) (s : History) : History :=
  {| now := now s; env := env s; sent := sent s; reserved := reserved s;
     slots_in_flight := slots_in_flight s; offered_head := v; wakes := wakes s; acts := acts s |}.
Definition set_wakes (v : N) (s : History) : History :=
  {| now := now s; env := env s; sent := sent s; reserved := reserved s;
     slots_in_flight := slots_in_flight s; offered_head := offered_head s; wakes := v; acts := acts s |}.
Definition set_acts (v : list Act) (s : History) : History :=
  {| now := now s; env := env s; sent := sent s; reserved := reserved s;
     slots_in_flight := slots_in_flight s; offered_head := offered_head s; wakes := wakes s; acts := v |}.

(** The locals of [actor_main], what it shares with other threads, the store, and what has
    happened: [sent] are all commands that entered a channel, in order, [reserved] the
    credits and [slots_in_flight] the permits whose senders are not there yet. *)
Record World (St : Type) := { q : Queues; d : Debt; sh : Shared; hist : History; store : St }.
Arguments q {St} _.
Arguments d {St} _.
Arguments sh {St} _.
Arguments hist {St} _.
Arguments store {St} _.

Inductive Leave := NextTurn | ActorReturned | Parked.

(** ** Producers *)

(** [PersistentRun::append] up to the reservation of a credit, and from the send on. *)
Definition reserve_append (s : Shared) : bool * Shared :=
  match (latch s).1 with
  | Some _ => (false, s)
  | None => if decide (queue_depth s < PERSISTENCE_QUEUE_CAPACITY)
            then (true, set_queue_depth (queue_depth s + 1) s)
            else (false, set_output_wake_requested true s)
  end.
Definition channel_room (s : Shared) : bool := bool_decide (len (receiver s) < PERSISTENCE_QUEUE_CAPACITY).
Definition refuse_append (s : Shared) : Shared :=
  set_output_wake_requested true (set_queue_depth (wrapping_sub (queue_depth s) 1) s).
Definition try_send_append (t : N) (id : RunId) (replay : OutputReplay) (head : Cell) (s : Shared)
    : bool * Shared :=
  if channel_room s then (true, set_receiver (receiver s ++ [(t, Append id replay head)]) s)
  else (false, refuse_append s).
Definition offer (id : RunId) (through : N) (m : gmap RunId N) : gmap RunId N :=
  <[id := N.max (default 0 (m !! id)) through]> m.
Definition append (t : N) (id : RunId) (replay : OutputReplay) (head : Cell) (s : Shared) (offered : gmap RunId N)
    : bool * Shared * gmap RunId N :=
  let '(reserved, s) := reserve_append s in
  if negb reserved then (false, s, offered) else
  let '(accepted, s) := try_send_append t id replay head s in
  (accepted, s, if (accepted : bool) then offer id (replay_latest_output_bytes replay) offered else offered).
(** The advisory look before a replay is rendered; [others] is what happens to the counter
    between the request of a wake and the second look. *)
Definition queue_has_room (others : Shared → Shared) (s : Shared) : bool * Shared :=
  if decide (queue_depth s < PERSISTENCE_QUEUE_CAPACITY) then (true, s)
  else
    let s := others (set_output_wake_requested true s) in
    (bool_decide (queue_depth s < PERSISTENCE_QUEUE_CAPACITY), s).
Definition publish_capacity_pressure (value : bool) (s : Shared) (h : History) : Shared * History :=
  (set_capacity_pressure value s,
   if negb (Bool.eqb (capacity_pressure s) value) && output_wake s then set_wakes (wakes h + 1) h else h).

Section actor.
Context {St : Type} `{!ActorStore St, !StorageCodes}.
Implicit Types w : World St.

Definition on_q (f : Queues → Queues) w : World St :=
  {| q := f (q w); d := d w; sh := sh w; hist := hist w; store := store w |}.
Definition on_d (f : Debt → Debt) w : World St :=
  {| q := q w; d := f (d w); sh := sh w; hist := hist w; store := store w |}.
Definition on_sh (f : Shared → Shared) w : World St :=
  {| q := q w; d := d w; sh := f (sh w); hist := hist w; store := store w |}.
Definition on_hist (f : History → History) w : World St :=
  {| q := q w; d := d w; sh := sh w; hist := f (hist w); store := store w |}.
Definition set_store (s : St) w : World St :=
  {| q := q w; d := d w; sh := sh w; hist := hist w; store := s |}.

Definition next_ticket w : N := len (sent (hist w)).
(** A command enters one of the two channels. *)
Definition enter_append (c : Command) w : World St :=
  let x : Sent := (next_ticket w, c) in
  on_hist (λ h, set_sent (sent h ++ [x]) h) (on_sh (λ s, set_receiver (receiver s ++ [x]) s) w).
Definition enter_lane (c : Command) w : World St :=
  let x : Sent := (next_ticket w, c) in
  on_hist (λ h, set_sent (sent h ++ [x]) h) (on_sh (λ s, set_lifecycle_rx (lifecycle_rx s ++ [x]) s) w).

(** The number of appends ever begun: no process lives to wrap it. *)
Definition appends_begun (h : History) : N :=
  sumN append_weight (sent h) + reserved h.
(** One section of another thread; a send that would block, or whose first half did not
    happen, is not taken. *)
Definition send (a : Send) w : World St :=
  let s := sh w in
  let h := hist w in
  match a with
  | ReserveAppend =>
      if decide (appends_begun h < u64_max) then
        let '(ok, s) := reserve_append s in
        let w := on_sh (λ _, s) w in
        if (ok : bool) then on_hist (set_reserved (reserved h + 1)) w else w
      else w
  | ReserveBlocking =>
      if bool_decide (appends_begun h < u64_max) && bool_decide ((latch s).1 = None) then
        on_hist (set_reserved (reserved h + 1)) (on_sh (set_queue_depth (queue_depth s + 1)) w)
      else w
  | ReturnReserved =>
      if bool_decide (0 < reserved h) && negb (channel_room s) then
        on_hist (set_reserved (reserved h - 1)) (on_sh refuse_append w)
      else w
  | SendAppend id replay head =>
      if bool_decide (0 < reserved h) && channel_room s then
        let w := enter_append (Append id replay head) w in
        on_hist (λ h, set_offered_head (offer id (replay_latest_output_bytes replay) (offered_head h))
                        (set_reserved (reserved h - 1) h)) w
      else w
  | SendControl c => if is_control c && channel_room s then enter_append c w else w
  | TakeSlot =>
      if decide (0 < lifecycle_slots s) then
        on_hist (set_slots_in_flight (slots_in_flight h + 1)) (on_sh (set_lifecycle_slots (lifecycle_slots s - 1)) w)
      else w
  | ReturnSlot =>
      (* a command with a slot is dropped before it could be sent: its wait was cancelled, or
         its send failed *)
      if decide (0 < slots_in_flight h) then
        on_hist (set_slots_in_flight (slots_in_flight h - 1)) (on_sh (set_lifecycle_slots (lifecycle_slots s + 1)) w)
      else w
  | SendLifecycle c =>
      match lifecycle_permit_mut true c with
      | Some c =>
          if bool_decide (0 < slots_in_flight h) && bool_decide (length (lifecycle_rx s) < LIFECYCLE_QUEUE_CAPACITY)%nat
          then on_hist (λ h, set_slots_in_flight (slots_in_flight h - 1) h) (enter_lane c w)
          else w
      | None => w
      end
  | RequestWake => on_sh (set_output_wake_requested true) w
  | RegisterWake => on_sh (set_output_wake true) w
  | CancelWaits => on_sh (set_shutdown true) w
  end.
Definition deliver (e : Event) w : World St :=
  foldl (λ w a, send a w) (on_hist (λ h, set_now (now h + elapsed e) h) w) (sends e).

(** ** Looks and waits *)

Abbreviation Turn := (M (World St) Leave).

(** A look at what is shared, after what others did. *)
Definition observe : Turn (nat → bool) := λ w,
  match env (hist w) with
  | e :: es => Ret (deliver e (on_hist (set_env es) w), Ok (stops e))
  | [] => Ret (w, Ok (λ _, false))
  end.
Definition instant_now : Turn N := observe ;;; let* w := get in mret_ (now (hist w)).
Definition call {A} (f : St → A * St) : Turn A := λ w,
  let '(a, s) := f (store w) in Ret (set_store s w, Ok a).
Definition tell (f : St → St) : Turn unit := modify (λ w, set_store (f (store w)) w).
Definition record (a : Act) : Turn unit := modify (on_hist (λ h, set_acts (acts h ++ [a]) h)).
Definition answer (t : N) (reply : bool) (a : Answer) : Turn unit := when reply (record (Answered t a)).
Definition leave {A} (l : Leave) : Turn A := mfail l.

Definition pop_receiver : Turn (option Sent) :=
  let* w := get in
  match receiver (sh w) with
  | c :: r => modify (on_sh (set_receiver r)) ;;; mret_ (Some c)
  | [] => mret_ None
  end.
Definition try_recv : Turn (option Sent) := observe ;;; pop_receiver.
Definition try_recv_lifecycle : Turn (option Sent) :=
  observe ;;;
  let* w := get in
  match lifecycle_rx (sh w) with
  | c :: r => modify (on_sh (set_lifecycle_rx r)) ;;; mret_ (Some c)
  | [] => mret_ None
  end.
(** Waiting for a command on the append channel, for at most until [deadline]. *)
Fixpoint park (deadline : option N) (es : list Event) w : World St :=
  let w := on_hist (set_env es) w in
  match receiver (sh w), deadline with
  | _ :: _, _ => w
  | [], Some t => if decide (t ≤ now (hist w)) then w else
      match es with e :: es => park deadline es (deliver e w) | [] => on_hist (set_now t) w end
  | [], None => match es with e :: es => park deadline es (deliver e w) | [] => w end
  end.
Definition recv_timeout (deadline : option N) : Turn (option Sent) :=
  modify (λ w, park deadline (env (hist w)) w) ;;; pop_receiver.

Definition wake_owner : Turn unit :=
  let* w := get in
  when (output_wake (sh w)) (modify (on_hist (λ h, set_wakes (wakes h + 1) h))).
Definition publish_pressure (value : bool) : Turn unit := modify (λ w,
  let '(s, h) := publish_capacity_pressure value (sh w) (hist w) in
  on_hist (λ _, h) (on_sh (λ _, s) w)).
(** [Drop] of a command's permit. *)
Definition release (permit : bool) : Turn unit :=
  when permit (modify (on_sh (λ s, set_lifecycle_slots (lifecycle_slots s + 1) s))).
Definition credit (n : N) : Turn unit := modify (on_sh (λ s, set_queue_depth (wrapping_add (queue_depth s) n) s)).
Definition spend (n : N) : Turn unit := modify (on_sh (λ s, set_queue_depth (wrapping_sub (queue_depth s) n) s)).

Definition push_front (c : Sent) : Turn unit := modify (on_q (λ x, set_pending (c :: pending x) x)).
Definition push_back (c : Sent) : Turn unit := modify (on_q (λ x, set_pending (pending x ++ [c]) x)).
Definition set_failure (e : PersistenceError) : Turn unit := modify (on_sh (λ s, set_latch (remember_failure e (latch s)) s)).
Definition failed w : bool := negb (bool_decide ((latch (sh w)).1 = None)).
Definition block (b : bool) : Turn unit := modify (on_sh (set_capacity_blocked b)).
Definition retry_at (t : option N) : Turn unit := modify (on_d (set_recovery_retry t)).
(** The next attempt, and twice as long to the one after it. *)
Definition retry_later : Turn unit :=
  let* t := instant_now in
  modify (on_d (λ x, set_recovery_backoff (N.min (recovery_backoff x * 2) RECOVERY_BACKOFF_CEILING)
                       (set_recovery_retry (Some (t + recovery_backoff x)) x))).
Definition due : Turn bool :=
  let* w := get in
  match recovery_retry (d w) with
  | None => mret_ false
  | Some deadline => let* t := instant_now in mret_ (bool_decide (deadline ≤ t))
  end.
(** The loops over the channels end: each round takes a command out of it. *)
Definition to_come (es : list Event) : nat := sum_list (map (λ e, length (sends e)) es).
Definition backlog w : nat :=
  length (pending (q w)) + length (receiver (sh w)) + to_come (env (hist w)).

(** [retry_transient_storage] around a store operation. *)
Definition retrying {A} (f : bool → St → result A PersistenceError * St) : Turn (option (result A PersistenceError)) :=
  let* stop := observe in
  let* w := get in
  let body s := let '(r, s) := f (shutdown (sh w)) s in (s, r) in
  let* '(s, r) := lift_outcome (retry_transient_storage (λ n, shutdown (sh w) || stop n) body (store w)) in
  modify (set_store s) ;;;
  match r with None => modify (on_sh (set_shutdown true)) | Some _ => mret_ tt end ;;;
  mret_ r.

(** ** Debts *)

(** A shortage of space is noted where it was met, and what was funded then. *)
Definition note_capacity (e : PersistenceError) : Turn unit :=
  modify (on_d (set_pending_reason (error_text e))) ;;;
  when (requires_owner_recheck e) retry_later ;;;
  modify (on_sh (λ s, set_latch ((latch s).1, storage_failure_of e) s)) ;;;
  let filesystem := match e with FilesystemCapacity _ _ _ | StorageUnavailable _ _ => true | _ => false end in
  let external := match e with DatabaseCapacity _ _ _ => true | _ => filesystem end in
  modify (on_d (λ x, set_external_capacity external (set_filesystem_debt filesystem x))) ;;;
  let* funding := call (funding_now external filesystem) in
  modify (on_d (λ x, set_capacity_progress false
    (set_blocked_funding (match funding with Ok f => Some f | Err _ => None end) x))) ;;;
  publish_pressure true ;;;
  block true.

Definition fence_reconciliation : Turn unit :=
  let* w := get in
  if reconciliation_pending (store w) && bool_decide (recovery_retry (d w) = None) then
    let* t := instant_now in
    retry_at (Some (t + recovery_backoff (d w))) ;;;
    block true
  else mret_ tt.
Definition no_pending w : bool := match pending (q w) with [] => true | _ => false end.
Definition settle_debt : Turn unit :=
  observe ;;;
  let* w := get in
  if no_pending w && bool_decide (queue_depth (sh w) = 0) && negb (capacity_blocked (sh w)) then
    modify (on_d (set_capacity_debt false)) ;;;
    when (capacity_progress (d w)) (
      modify (on_d (λ x, set_recovery_backoff STORAGE_RETRY_INTERVAL (set_recovery_retry None x))) ;;;
      when (negb (failed w)) (modify (on_sh (set_latch (None, None)))) ;;;
      publish_pressure false) ;;;
    modify (on_d (set_capacity_progress false))
  else mret_ tt.

(** ** The next command *)

Definition restore_lifecycle : Turn unit := modify (λ w,
  match pending_lifecycle (q w) with
  | Some c => on_q (λ x, set_pending_lifecycle None (set_lifecycle_pending (c :: lifecycle_pending x) x)) w
  | None => w
  end).
Fixpoint refill (room : nat) : Turn unit :=
  match room with
  | O => mret_ tt
  | S room =>
      let* c := try_recv_lifecycle in
      match c with
      | Some c => modify (on_q (λ x, set_lifecycle_pending (lifecycle_pending x ++ [c]) x)) ;;; refill room
      | None => mret_ tt
      end
  end.
Definition take_lifecycle_turn : Turn (option Sent) :=
  let* w := get in
  refill (LIFECYCLE_QUEUE_CAPACITY - length (lifecycle_pending (q w))) ;;;
  let* w := get in
  match take_turn (lifecycle_yielded (q w)) (lifecycle_pending (q w)) with
  | Some (c, rest) => modify (on_q (set_lifecycle_pending rest)) ;;; mret_ (Some c)
  | None => mret_ None
  end.
Definition take_pending (i : option nat) : Turn (option Sent) :=
  let* w := get in
  match (match i with Some i => remove_at i (pending (q w)) | None => None end) with
  | Some (c, rest) => modify (on_q (set_pending rest)) ;;; mret_ (Some c)
  | None => mret_ None
  end.

(** With nothing queued: a step of compaction, a fold of the WAL, and the wait. *)
Definition idle_compaction : Turn unit :=
  let* w := get in
  if negb (failed w) && negb (capacity_blocked (sh w)) && compaction_due (store w) then
    let* r := call compact_step in
    match r with
    | Ok _ =>
        modify (on_d (set_capacity_progress true)) ;;;
        observe ;;;
        let* w := get in
        when (no_pending w && bool_decide (queue_depth (sh w) = 0)) (publish_pressure false) ;;;
        leave NextTurn
    | Err e =>
        let* e := call (capacity_error (error_at StorageMaintenance TxNotCommitted e)) in
        if is_capacity_debt e then note_capacity e
        else if is_transient_storage e then
          (observe ;;; let* w := get in leave (if shutdown (sh w) then ActorReturned else NextTurn))
        else set_failure e
    end
  else mret_ tt.
(** Whether blocked work may find space without any command. *)
Definition watches_funding w : bool :=
  capacity_blocked (sh w) &&
  (negb (bool_decide (recovery_retry (d w) = None)) ||
   external_capacity (d w) &&
   (filesystem_debt (d w) ||
    match blocked_funding (d w) with
    | Some (pages, free, limit, _) => bool_decide (pages < limit) || bool_decide (0 < free)
    | None => false
    end)).
Definition idle : Turn Sent :=
  idle_compaction ;;;
  observe ;;;
  let* w := get in
  when (negb (failed w) && negb (capacity_blocked (sh w))) (tell (fold_wal (shutdown (sh w)))) ;;;
  let* w := get in
  if watches_funding w then
    let* t := instant_now in
    let* c := recv_timeout (Some (match recovery_retry (d w) with
                                  | Some deadline => N.max deadline t
                                  | None => t + STORAGE_RETRY_INTERVAL
                                  end)) in
    mret_ (default (0, LifecycleWake) c)
  else
    let* c := recv_timeout None in
    match c with Some c => mret_ c | None => leave Parked end.

Definition or_take (m k : Turn (option Sent)) : Turn (option Sent) :=
  let* c := m in match c with Some c => mret_ (Some c) | None => k end.
Definition next_command : Turn Sent :=
  let* c := or_take take_lifecycle_turn (
    let* w := get in
    or_take (take_pending (if capacity_debt (d w) && negb (capacity_blocked (sh w)) then Some O else None)) (
    or_take (take_pending (if capacity_blocked (sh w)
                           then position (λ x, unblocked x.2) (pending (q w)) else Some O))
      try_recv)) in
  match c with Some c => mret_ c | None => idle end.

(** ** Before a command is handled *)

Fixpoint settle_finalizes (queue : list Sent) (id : RunId) : list Sent * list Sent :=
  match queue with
  | [] => ([], [])
  | c :: queue =>
      let '(settled, kept) := settle_finalizes queue id in
      if finalizes id c.2 then (c :: settled, kept) else (settled, c :: kept)
  end.
Fixpoint answer_settled (l : list Sent) : Turn unit :=
  match l with
  | [] => mret_ tt
  | (t, Finalize permit _ reply) :: l => answer t reply (AnswerFinal (Ok tt)) ;;; release permit ;;; answer_settled l
  | _ :: l => answer_settled l
  end.
Definition settle_original_finalize (id : RunId) : Turn unit :=
  let* w := get in
  let '(settled, kept) := settle_finalizes (pending (q w)) id in
  modify (on_q (set_pending kept)) ;;;
  answer_settled settled ;;;
  let* w := get in
  let '(settled, kept) := settle_finalizes (lifecycle_pending (q w)) id in
  modify (on_q (set_lifecycle_pending kept)) ;;;
  answer_settled settled.

(** The attempt to settle a transaction of unknown outcome, at its deadline. *)
Definition reconciled (c : Sent) (terminal : option RunId) : Turn unit :=
  modify (on_sh (set_latch (None, None))) ;;;
  modify (on_d (λ x, set_capacity_progress true (set_recovery_backoff STORAGE_RETRY_INTERVAL (set_recovery_retry None x)))) ;;;
  block false ;;;
  wake_owner ;;;
  record (Reconciled c) ;;;
  match terminal with
  | Some id =>
      settle_original_finalize id ;;;
      if finalizes id c.2 then answer_settled [c] else push_front c
  | None => push_front c
  end ;;;
  leave NextTurn.
Definition reconcile_turn (c : Sent) : Turn unit :=
  let* w := get in
  if negb (reconciliation_pending (store w)) then mret_ tt else
  let* now := due in
  if negb now then mret_ tt else
  let* r := call reconcile_transaction in
  match r with
  | Ok (Some terminal) => reconciled c terminal
  | Ok None => retry_later
  | Err e => if is_transient_storage e then retry_later else tell stop_retrying ;;; retry_at None
  end.

Fixpoint drain_receiver (fuel : nat) : Turn unit :=
  match fuel with
  | O => mpanic "out of fuel"
  | S fuel =>
      let* c := try_recv in
      match c with Some c => push_back c ;;; drain_receiver fuel | None => mret_ tt end
  end.
(** The recheck of files that may have come back, and of the space. *)
Definition recheck_identity (c : Sent) : Turn unit :=
  let* w := get in
  if failed w then mret_ tt else
  let* now := due in
  if negb now then mret_ tt else
  let* r := call recovery_identity in
  match r with
  | Ok _ => retry_at None ;;; block false ;;; push_back c ;;; leave NextTurn
  | Err e => if is_transient_storage e then retry_later else set_failure e ;;; retry_at None
  end.
Definition recheck_funding (c : Sent) : Turn unit :=
  let* w := get in
  if failed w || negb (bool_decide (recovery_retry (d w) = None)) then mret_ tt else
  let* r := call (funding_now (external_capacity (d w)) (filesystem_debt (d w))) in
  match r with
  | Ok funding =>
      if match blocked_funding (d w) with
         | Some old => negb (bool_decide (old = funding))
         | None => filesystem_debt (d w)
         end
      then block false ;;; push_back c ;;; leave NextTurn else mret_ tt
  | Err _ => mret_ tt
  end.
(** A Finalize waits behind appends of its own Run that wait; it gives its slot back. *)
Definition waits_for_prefix w (c : Command) : bool :=
  match c with
  | Finalize _ f _ => (negb (failed w) || reconciliation_pending (store w)) &&
                      existsb (λ x, appends_to (final_run f) x.2) (pending (q w))
  | _ => false
  end.
Definition without_permit (c : Sent) : Sent := (c.1, default c.2 (lifecycle_permit_mut false c.2)).
Definition blocked_turn (c : Sent) : Turn unit :=
  let* w := get in
  if negb (capacity_blocked (sh w)) then mret_ tt else
  match c.2 with Finalize _ _ _ => drain_receiver (S (backlog w)) | _ => mret_ tt end ;;;
  recheck_identity c ;;;
  recheck_funding c ;;;
  let* w := get in
  if is_append c.2 || waits_for_prefix w c.2 then
    release (has_permit c.2) ;;; push_back (without_permit c) ;;; leave NextTurn
  else mret_ tt.

Fixpoint hunt_append (fuel : nat) (id : RunId) : Turn (option Sent) :=
  match fuel with
  | O => mpanic "out of fuel"
  | S fuel =>
      let* c := try_recv in
      match c with
      | Some c => if appends_to id c.2 then mret_ (Some c) else push_back c ;;; hunt_append fuel id
      | None => mret_ None
      end
  end.
Definition take_required_append (id : RunId) : Turn (option Sent) :=
  let* w := get in
  match position (λ x, appends_to id x.2) (pending (q w)) with
  | Some i => take_pending (Some i)
  | None => hunt_append (S (backlog w)) id
  end.
Definition set_aside (c : option Sent) : Turn unit := modify (on_q (set_pending_lifecycle c)).
(** A Finalize lets the accepted output of its Run go first. *)
Definition settle_prefix (c : Sent) : Turn Sent :=
  let* w := get in
  match c.2 with
  | Finalize _ f _ =>
      if capacity_blocked (sh w) || failed w then mret_ c else
      let* head := call (run_head (final_run f)) in
      match head with
      | Ok head =>
          if decide (head < replay_latest_output_bytes (final_replay f)) then
            set_aside (Some c) ;;;
            let* a := take_required_append (final_run f) in
            match a with
            | Some a => mret_ a
            | None =>
                let* w := get in
                match pending_lifecycle (q w) with
                | Some c => set_aside None ;;; mret_ c
                | None => mpanic "pending Finalize is retained"
                end
            end
          else mret_ c
      | Err _ => mret_ c
      end
  | _ => mret_ c
  end.

(** ** Appends *)

(** An append in a batch, with the number of its send. *)
Definition Batched : Type := N * BatchEntry.
Definition batched_append (b : Batched) : Sent := let '(t, (id, replay, head)) := b in (t, Append id replay head).

(** What the batch takes next: while a lifecycle command waits, only what a Finalize needs. *)
Definition next_of_batch (first : RunId) (deadline : N) : Turn (option Sent) :=
  let* w := get in
  match pending_lifecycle (q w) with
  | Some (_, Finalize _ f _) =>
      if decide (final_run f = first) then take_required_append (final_run f) else mret_ None
  | Some _ => mret_ None
  | None =>
      let* t := instant_now in
      if decide (deadline < t) then mret_ None else
      or_take (take_pending (Some O)) (recv_timeout (Some deadline))
  end.
(** Whether the batch ends here: a lifecycle command has come. *)
Definition lifecycle_arrived : Turn bool :=
  let* w := get in
  match lifecycle_pending (q w), pending_lifecycle (q w) with
  | _ :: _, _ => mret_ true
  | [], Some _ => mret_ false
  | [], None =>
      let* c := try_recv_lifecycle in
      match c with Some c => set_aside (Some c) ;;; mret_ true | None => mret_ false end
  end.
Fixpoint collect (fuel : nat) (held : bool) (first : RunId) (deadline : N) (batch : list Batched) (payload : N)
    : Turn (list Batched) :=
  match fuel with
  | O => mpanic "out of fuel"
  | S fuel =>
      if decide (MAX_TRANSACTION_PAYLOAD_BYTES ≤ payload) then mret_ batch else
      let* stop := lifecycle_arrived in
      if (stop : bool) then mret_ batch else
      let* next := next_of_batch first deadline in
      match next with
      | None => mret_ batch
      | Some (t, Append id replay head) =>
          let more := payload +sat replay_payload replay in
          if decide (more ≤ MAX_TRANSACTION_PAYLOAD_BYTES) then
            when (negb held) (spend 1) ;;;
            collect fuel held first deadline (batch ++ [(t, (id, replay, head))]) more
          else push_front (t, Append id replay head) ;;; mret_ batch
      | Some c => push_front c ;;; mret_ batch
      end
  end.

Definition with_chunks (replay : OutputReplay) (chunks : list OutputChunk) : OutputReplay :=
  {| replay_chunks := chunks; replay_first_available_byte := replay_first_available_byte replay;
     replay_latest_output_bytes := replay_latest_output_bytes replay; replay_truncated := replay_truncated replay |}.
(** Appends that were held are offered again without what has been committed since. *)
Fixpoint trim_batch (batch : list Batched) : Turn (list Batched) :=
  match batch with
  | [] => mret_ []
  | (t, (id, replay, head)) :: batch =>
      let* exists_ := call (run_exists id) in
      let* replay := match exists_ with
        | Ok false => mret_ replay
        | _ =>
            let* chunks := call (missing_bytes id replay) in
            match chunks with
            | Ok chunks => mret_ (with_chunks replay chunks)
            | Err e => set_failure e ;;; mret_ replay
            end
        end in
      let* batch := trim_batch batch in
      mret_ ((t, (id, replay, head)) :: batch)
  end.
(** The batch keeps its credits and its place. *)
Definition keep_batch (held : bool) (batch : list Batched) : Turn unit :=
  when (negb held) (credit (len batch)) ;;;
  modify (on_d (set_capacity_debt true)) ;;;
  modify (on_q (λ x, set_pending (map batched_append batch ++ pending x) x)).
Fixpoint record_settled (batch : list Batched) : Turn unit :=
  match batch with
  | [] => mret_ tt
  | (t, (id, _, _)) :: batch => record (Settled t id) ;;; record_settled batch
  end.
Definition capacity_result (stage : StorageFailureStage) (r : result bool PersistenceError) : Turn (result bool PersistenceError) :=
  match r with
  | Ok b => mret_ (Ok b)
  | Err e => let* e := call (capacity_error (error_at stage TxNotCommitted e)) in mret_ (Err e)
  end.
Definition is_stopped (e : PersistenceError) : bool := match e with ActorStopped => true | _ => false end.

Definition offer_batch (held : bool) (batch : list Batched) : Turn unit :=
  let annotated stopping s :=
    let '(r, s) := append_batch (map snd batch) stopping s in (map_err (error_at StorageAppend TxNotCommitted) r, s) in
  let* r := retrying annotated in
  match r with
  | None => leave ActorReturned
  | Some r =>
      let* r := match r with
                | Ok b => mret_ (Ok b)
                | Err e => let* e := call (capacity_error e) in mret_ (Err e)
                end in
      observe ;;;
      let* w := get in
      match r with
      | Ok false =>
          keep_batch held batch ;;;
          modify (on_q (λ x, set_lifecycle_yielded (match pending_lifecycle x with Some _ => true | None => false end) x)) ;;;
          leave NextTurn
      | Ok true => modify (on_d (set_capacity_progress true))
      | Err e =>
          if is_stopped e && shutdown (sh w) then leave ActorReturned
          else if is_capacity_debt e then
            note_capacity e ;;;
            keep_batch held batch ;;;
            leave NextTurn
          else set_failure e
      end
  end.
Definition append_turn (c : Batched) : Turn unit :=
  let* w := get in
  let held := capacity_debt (d w) in
  when (negb held) (spend 1) ;;;
  let* start := instant_now in
  let* w := get in
  let* batch := collect (S (backlog w)) held c.2.1.1 (start + APPEND_BATCH_WINDOW) [c] (replay_payload c.2.1.2) in
  let* batch := if held then trim_batch batch else mret_ batch in
  let* w := get in
  when (negb (failed w)) (offer_batch held batch) ;;;
  let* w := get in
  if failed w then
    keep_batch held batch ;;;
    block true ;;;
    retry_at None ;;;
    leave NextTurn
  else
    when held (spend (len batch)) ;;;
    record_settled batch.

(** ** The other commands *)

Definition read_replay_turn (t : N) (permit : bool) (id : RunId) (after through : N) : Turn unit :=
  let* committed := call committed_read in
  let* r := match committed with
    | Err e => mret_ (Err e)
    | Ok _ =>
        let* same := call replay_directory in
        match same with
        | Err e => mret_ (Err e)
        | Ok _ => call (replay_page id after through)
        end
    end in
  answer t true (AnswerReplay (map_err (error_at StorageRead TxNotStarted) r)) ;;;
  release permit.

(** Removing the row of a Run funds what waits for space. *)
Definition funded : Turn unit := block false ;;; modify (on_d (set_capacity_progress true)).
Fixpoint forget_candidates (l : list PersistentCandidate) : Turn unit :=
  match l with
  | [] => mret_ tt
  | x :: l =>
      let* exists_ := call (run_exists (candidate_id x)) in
      match exists_ with
      | Ok false => funded ;;; tell (remove_checkpoint (candidate_id x))
      | _ => mret_ tt
      end ;;;
      forget_candidates l
  end.
Definition handle_staged_start_result (t : N) (r : StageDriveResult) : Turn unit :=
  match r with
  | ReadyFailed e =>
      when (fatal e) (set_failure (stage_error e)) ;;;
      answer t true (AnswerReady e)
  | Completed c =>
      match c with
      | CompletionCommitted (Some e) | CompletionCommitUnknown e => set_failure e
      | CompletionNotCommitted e => when (fatal e) (set_failure (stage_error e))
      | CompletionCommitted None => mret_ tt
      end ;;;
      answer t true (AnswerCompletion c)
  end.
Definition stage_start_turn (t : N) (r : StageRequest) : Turn unit :=
  let* w := get in
  match (latch (sh w)).1 with
  | Some message =>
      tell (decide_start (prepared r) StartNotCommitted) ;;;
      answer t true (AnswerReady {| stage_error := RetainedFailure message (latch (sh w)).2;
                                    fatal := true; capacity := false |}) ;;;
      release (stage_permit r) ;;;
      leave NextTurn
  | None =>
      observe ;;;
      let* w := get in
      let* result := call (drive_staged_start r (shutdown (sh w))) in
      match result with
      | None => leave ActorReturned
      | Some result =>
          let* w := get in
          let unresolved :=
            bool_decide (start_disposition (prepared r) (store w) = StartCommitUnknown) ||
            match result with Completed (CompletionCommitted (Some _)) => true | _ => false end in
          handle_staged_start_result t result ;;;
          if (unresolved : bool) then
            tell (keep_unresolved_start r) ;;; release (stage_permit r) ;;; leave NextTurn
          else forget_candidates (candidates r) ;;; release (stage_permit r)
      end
  end.

Definition remove_terminal_turn (t : N) (permit : bool) (x : PersistentCandidate) : Turn unit :=
  let* w := get in
  let* disposition := match (latch (sh w)).1 with
    | Some message => mret_ (NotRemoved (Mutation message))
    | None =>
        observe ;;;
        let* w := get in
        let* r := call (remove_terminal x (shutdown (sh w))) in
        match r with
        | Some (RemovalUnknown e) => set_failure e ;;; mret_ (RemovalUnknown e)
        | Some r => mret_ r
        | None => leave ActorReturned
        end
    end in
  match disposition with
  | Removed => funded ;;; tell (remove_checkpoint (candidate_id x))
  | _ => mret_ tt
  end ;;;
  answer t true (AnswerRemoval disposition) ;;;
  release permit.

(** A Finalize that cannot end yet joins the waiting appends, without its slot. *)
Definition keep_finalize (t : N) (permit : bool) (f : Finalization) (reply : bool) : Turn unit :=
  release permit ;;; push_back (t, Finalize false f reply).
Definition finalize_turn (t : N) (permit : bool) (f : Finalization) (reply : bool) : Turn unit :=
  let* w := get in
  if reconciliation_pending (store w) then keep_finalize t permit f reply ;;; leave NextTurn else
  let* r := match (latch (sh w)).1 with
    | Some message => mret_ (Some (Err (Mutation message)))
    | None => retrying (finalize_run f)
    end in
  match r with
  | None => leave ActorReturned
  | Some r =>
      let* r := capacity_result StorageFinalize r in
      observe ;;;
      let* w := get in
      match r with
      | Ok true =>
          block false ;;;
          modify (on_d (set_capacity_progress true)) ;;;
          answer t reply (AnswerFinal (Ok tt)) ;;;
          release permit
      | Ok false =>
          modify (on_q (λ x, set_lifecycle_yielded true
            (set_lifecycle_pending (requeue_lifecycle_continuation (t, Finalize permit f reply) (lifecycle_pending x)) x))) ;;;
          leave NextTurn
      | Err e =>
          if is_stopped e && shutdown (sh w) then leave ActorReturned
          else if is_capacity_debt e then
            note_capacity e ;;;
            modify (on_d (set_capacity_debt true)) ;;;
            keep_finalize t permit f reply ;;;
            leave NextTurn
          else
            set_failure e ;;;
            let* w := get in
            (if reconciliation_pending (store w) then keep_finalize t permit f reply
             else answer t reply (AnswerFinal (Err e)) ;;; keep_finalize t permit f false) ;;;
            modify (on_d (set_capacity_debt true)) ;;;
            block true ;;;
            retry_at None ;;;
            leave NextTurn
      end
  end.

Definition latest_fence (saved : option StoredCheckpoint) : N :=
  match saved with
  | None => 0
  | Some s => match last (resizes s) with
              | Some r => resize_through_byte r
              | None => cp_through_byte (checkpoint s)
              end
  end.
Definition checkpoint_turn (t : N) (id : RunId) (saved : option StoredCheckpoint) (head : Cell) (reply : bool) : Turn unit :=
  let* exists_ := call (run_exists id) in
  let* committed := call committed_read in
  let* usable := match committed with Ok _ => call recovery_namespace | Err e => mret_ (Err e) end in
  let* w := get in
  let* r := match usable with
    | Err e => mret_ (Err (error_text e))
    | Ok _ =>
        if negb (match exists_ with Ok b => b | Err _ => false end) ||
           bool_decide (cell_value head (store w) < latest_fence saved)
        then mret_ (Err "checkpoint does not have a committed original-output fence"%string)
        else call (write_checkpoint id saved)
    end in
  answer t reply (AnswerCheckpoint r).

Definition barrier_turn (t : N) : Turn unit :=
  let* w := get in
  answer t true (AnswerBarrier (
    match (latch (sh w)).1 with
    | Some message => Err (RetainedFailure message (latch (sh w)).2)
    | None => if capacity_blocked (sh w) then Err (PendingPressure (pending_reason (d w))) else Ok tt
    end)).

Definition handle (c : Sent) : Turn unit :=
  let t := c.1 in
  match c.2 with
  | ReadReplay permit id after through => read_replay_turn t permit id after through
  | LifecycleWake => mret_ tt
  | StageStart r => stage_start_turn t r
  | RemoveTerminal permit x => remove_terminal_turn t permit x
  | Append id replay head => append_turn (t, (id, replay, head))
  | Finalize permit f reply => finalize_turn t permit f reply
  | SaveCheckpoint id saved head reply => checkpoint_turn t id saved head reply
  | Barrier => barrier_turn t
  | Shutdown => leave ActorReturned
  end.

(** ** One turn of [actor_main] *)

Definition requested_wake : Turn unit :=
  observe ;;;
  let* w := get in
  when (output_wake_requested (sh w)) wake_owner.
Definition turn_body : Turn unit :=
  fence_reconciliation ;;;
  settle_debt ;;;
  restore_lifecycle ;;;
  let* c := next_command in
  modify (on_q (set_lifecycle_yielded false)) ;;;
  reconcile_turn c ;;;
  blocked_turn c ;;;
  let* c := settle_prefix c in
  requested_wake ;;;
  handle c ;;;
  requested_wake ;;;
  modify (on_sh (set_output_wake_requested false)).
Definition actor_turn w : outcome (World St * Leave) :=
  match turn_body w with
  | Ret (w, Ok _) => Ret (w, NextTurn)
  | Ret (w, Err l) => Ret (w, l)
  | Panic why => Panic why
  end.

(** The actor after [StateStore::open], and what turns lead to; [es] is what others do
    during the turn. *)
Definition actor_start (s : St) : World St :=
  {| q := {| pending := []; pending_lifecycle := None; lifecycle_pending := []; lifecycle_yielded := false |};
     d := {| blocked_funding := None; capacity_debt := false; capacity_progress := false; pending_reason := "";
             recovery_retry := None; recovery_backoff := STORAGE_RETRY_INTERVAL; external_capacity := false;
             filesystem_debt := false |};
     sh := {| receiver := []; lifecycle_rx := []; lifecycle_slots := N.of_nat LIFECYCLE_QUEUE_CAPACITY + 1;
              queue_depth := 0; capacity_blocked := false; capacity_pressure := false; latch := (None, None);
              shutdown := false; output_wake := false; output_wake_requested := false |};
     hist := {| now := 0; env := []; sent := []; reserved := 0; slots_in_flight := 0; offered_head := ∅;
                wakes := 0; acts := [] |};
     store := s |}.
Definition with_env (es : list Event) w : World St := on_hist (set_env es) w.
Inductive actor_reached (s : St) : World St → Prop :=
  | reached_start : actor_reached s (actor_start s)
  | reached_turn w es w' l : actor_reached s w → actor_turn (with_env es w) = Ret (w', l) → l ≠ ActorReturned →
      actor_reached s w'.
End actor.
