(* ===== verification/PersistenceActorSpec.v ===== *)
(** * What the persistence actor keeps

    The invariant of the actor between its steps, in hand-over style: [f] are the commands
    in hand that stand before the queue [pending], [k] those that stand behind it. *)

From S2P Require Import Prelude.
From S2P Require Import Protocol.
From S2P Require Import StorageErrors.
From S2P Require Import StoreTransaction.
From S2P Require Import StoreAppend.
From S2P Require Import PersistenceActor.

(** ** Weights and marks *)

Definition permit_weight (x : Sent) : N := if has_permit x.2 then 1 else 0.
(** Whether somebody is owed something for a command: an answer, or the durability of output. *)
Definition owes (c : Command) : bool :=
  match c with
  | LifecycleWake | Shutdown => false
  | SaveCheckpoint _ _ _ reply | Finalize _ _ reply => reply
  | _ => true
  end.
(** By number, and for output by Run. *)
Definition due_of (x : Sent) : option (N * option RunId) :=
  match x.2 with
  | Append id _ _ => Some (x.1, Some id)
  | c => if owes c then Some (x.1, None) else None
  end.
Definition owed (t : N * option RunId) (x : Sent) : N := if bool_decide (due_of x = Some t) then 1 else 0.
Definition paid (a : Act) : option (N * option RunId) :=
  match a with
  | Answered t _ => Some (t, None)
  | Settled t id => Some (t, Some id)
  | Reconciled _ => None
  end.
Definition act_pays (t : N * option RunId) (a : Act) : N := if bool_decide (paid a = Some t) then 1 else 0.

Definition settles (a : Act) : N := match a with Settled _ _ => 1 | _ => 0 end.

(** What must keep its order: the output of one Run, and output behind a barrier. *)
Inductive Mark := OutputOf (id : RunId) | Fence.
Definition mark (x : Sent) : option (N * Mark) :=
  match x.2 with
  | Append id _ _ => Some (x.1, OutputOf id)
  | Barrier => Some (x.1, Fence)
  | _ => None
  end.
Definition act_mark (a : Act) : option (N * Mark) :=
  match a with
  | Settled t id => Some (t, OutputOf id)
  | Answered t (AnswerBarrier (Ok _)) => Some (t, Fence)
  | _ => None
  end.
Definition follows (x y : Mark) : Prop :=
  match x, y with
  | OutputOf id, OutputOf id' => id = id'
  | Fence, OutputOf _ => True
  | _, Fence => False
  end.
Definition in_order (x y : N * Mark) : Prop := follows x.2 y.2 → x.1 < y.1.
(** No transaction was settled while output or a barrier was in hand. *)
Definition undisturbed (l : list Act) : Prop := ∀ c, Reconciled c ∈ l → mark c = None.
Definition is_lane (x : Sent) : Prop := is_Some (lifecycle_permit_mut true x.2).

Lemma owed_le t x : owed t x ≤ 1.
Proof. unfold owed. case_bool_decide; lia. Qed.
Lemma lane_quiet x : is_lane x → append_weight x = 0 ∧ mark x = None.
Proof. destruct x as [t []]; cbn; intros [? [=]]; done. Qed.
Lemma mark_append x : mark x = None → append_weight x = 0.
Proof. by destruct x as [t []]. Qed.

Section spec.
Context {St : Type} `{!ActorStore St, !StorageCodes}.
Implicit Types w : World St.

Definition held w : list Sent :=
  pending (q w) ++ option_list (pending_lifecycle (q w)) ++ lifecycle_pending (q w) ++
  receiver (sh w) ++ lifecycle_rx (sh w).
Definition line (f k : list Sent) w : list (N * Mark) :=
  omap act_mark (acts (hist w)) ++ omap mark f ++ omap mark (pending (q w)) ++ omap mark k ++
  omap mark (receiver (sh w)).

Record holds (b : bool) (a : option Sent) (f k : list Sent) (n p : N) w : Prop := {
  h_blocked : capacity_blocked (sh w) = b;
  h_aside : pending_lifecycle (q w) = a;
  h_lane : Forall is_lane (option_list a ++ lifecycle_pending (q w) ++ lifecycle_rx (sh w));
  h_room : len (receiver (sh w)) ≤ PERSISTENCE_QUEUE_CAPACITY ∧
           (length (lifecycle_rx (sh w)) ≤ LIFECYCLE_QUEUE_CAPACITY)%nat;
  h_credits : queue_depth (sh w) = sumN append_weight (pending (q w)) +
    sumN append_weight (receiver (sh w)) + reserved (hist w) + n;
  h_hand : n ≤ sumN append_weight (f ++ k);
  h_appends : sumN append_weight (sent (hist w)) =
    sumN settles (acts (hist w)) + sumN append_weight (f ++ k ++ held w : list Sent);
  h_life : appends_begun (hist w) ≤ u64_max;
  h_slots : lifecycle_slots (sh w) + slots_in_flight (hist w) +
    sumN permit_weight (f ++ k ++ held w : list Sent) + p = N.of_nat LIFECYCLE_QUEUE_CAPACITY + 1;
  h_owed : ∀ t, sumN (owed t) (sent (hist w)) =
    sumN (act_pays t) (acts (hist w)) + sumN (owed t) (f ++ k ++ held w : list Sent);
  h_sent : ∀ i x, sent (hist w) !! i = Some x → x.1 = N.of_nat i;
  h_past : Forall (λ x, x.1 < len (sent (hist w))) (line f k w);
  h_order : undisturbed (acts (hist w)) → Sorted.StronglySorted in_order (line f k w);
}.

(** *** Small facts *)

Lemma h_depth b a f k n p w : holds b a f k n p w → queue_depth (sh w) ≤ u64_max.
Proof.
  intros Hh. pose proof (h_hand _ _ _ _ _ _ _ Hh) as Hn. pose proof (h_credits _ _ _ _ _ _ _ Hh). pose proof (h_appends _ _ _ _ _ _ _ Hh) as Ha.
  pose proof (h_life _ _ _ _ _ _ _ Hh) as Hl. unfold appends_begun, held in *.
  simp_len. lia.
Qed.
(** A command without a mark may stand on either side of the queue. *)
Lemma holds_shift b a c n p w : mark c = None → holds b a [] [c] n p w ↔ holds b a [c] [] n p w.
Proof.
  intros Hm. assert (line [] [c] w = line [c] [] w) as Hl by (unfold line; cbn; by rewrite Hm).
  split; intros []; constructor; try done; by rewrite ?Hl in * || by rewrite <-?Hl in *.
Qed.

(** What others may change without the actor's books noticing. *)
Record same_books w w' : Prop := {
  sb_q : q w' = q w; sb_receiver : receiver (sh w') = receiver (sh w);
  sb_rx : lifecycle_rx (sh w') = lifecycle_rx (sh w); sb_depth : queue_depth (sh w') = queue_depth (sh w);
  sb_blocked : capacity_blocked (sh w') = capacity_blocked (sh w);
  sb_slots : lifecycle_slots (sh w') = lifecycle_slots (sh w);
  sb_flight : slots_in_flight (hist w') = slots_in_flight (hist w);
  sb_sent : sent (hist w') = sent (hist w); sb_reserved : reserved (hist w') = reserved (hist w);
  sb_acts : acts (hist w') = acts (hist w);
}.
Lemma books_holds b a f k n p w w' : same_books w w' → holds b a f k n p w → holds b a f k n p w'.
Proof.
  intros [E1 E2 E3 E4 E5 E6 E7 E8 E9 E10] [].
  constructor; unfold line, held, appends_begun in *; rewrite ?E1, ?E2, ?E3, ?E4, ?E5, ?E6, ?E7, ?E8, ?E9, ?E10; done.
Qed.

End spec.

Ltac fields := cbn [q d sh hist store on_q on_d on_sh on_hist set_store
  pending pending_lifecycle lifecycle_pending lifecycle_yielded
  set_pending set_pending_lifecycle set_lifecycle_pending set_lifecycle_yielded
  receiver lifecycle_rx lifecycle_slots queue_depth capacity_blocked capacity_pressure latch shutdown
  output_wake output_wake_requested
  set_receiver set_lifecycle_rx set_lifecycle_slots set_queue_depth set_capacity_blocked set_capacity_pressure
  set_latch set_shutdown set_output_wake set_output_wake_requested
  now env sent reserved slots_in_flight offered_head wakes acts
  set_now set_env set_sent set_reserved set_slots_in_flight set_offered_head set_wakes set_acts] in *.
Ltac carry Hh :=
  pose proof (h_depth _ _ _ _ _ _ _ Hh) as Hdepth;
  destruct Hh as [Hblocked Haside Hlane Hroom Hcredits Hhand Happends Hlife Hslots Howed Hsent Hpast Horder];
  constructor; unfold held, line, appends_begun in *; fields; simp_len;
  try done; try (intros ?t; specialize (Howed t); simp_len); try lia.
Ltac books := eapply books_holds; [|eassumption]; by constructor.

Section steps.
Context {St : Type} `{!ActorStore St, !StorageCodes}.
Implicit Types w : World St.

(** ** Sections of other threads *)

(** A new command in the append channel. *)
Lemma past_weaken (l : list (N * Mark)) m m' : m ≤ m' → Forall (λ x, x.1 < m) l → Forall (λ x, x.1 < m') l.
Proof. intros Hm Hf. eapply Forall_impl; [exact Hf|]. intros [y z]. cbn [fst]. lia. Qed.
Lemma sorted_snoc (l : list (N * Mark)) x : Forall (λ y, y.1 < x.1) l → Sorted.StronglySorted in_order l →
  Sorted.StronglySorted in_order (l ++ [x]).
Proof.
  intros Hf Hs. apply StronglySorted_app. split; [|split; [done|repeat constructor]].
  intros y z Hy Hz%list_elem_of_singleton. subst. rewrite Forall_forall in Hf. intros _. by apply Hf.
Qed.
Lemma mark_ticket x m : mark x = Some m → m.1 = x.1.
Proof. destruct x as [t []]; cbn; intros [= <-]; done. Qed.
Lemma sent_snoc w (x : Sent) : x.1 = next_ticket w → (∀ i (y : Sent), sent (hist w) !! i = Some y → y.1 = N.of_nat i) →
  ∀ i (y : Sent), (sent (hist w) ++ [x]) !! i = Some y → y.1 = N.of_nat i.
Proof.
  intros Hx Hs i y [Hi|[Hi Hy]]%lookup_app_Some; [by apply Hs|].
  apply list_lookup_singleton_Some in Hy as [E <-]. rewrite Hx. unfold next_ticket, len, Sent in *. lia.
Qed.
Lemma line_snoc f k w (x : Sent) : line f k (on_sh (λ s, set_receiver (receiver s ++ [x]) s) w) =
  line f k w ++ omap mark [x].
Proof. unfold line. fields. rewrite omap_app, !app_assoc. done. Qed.

Lemma enter_append_holds b a f k n p w c : holds b a f k n p w → ¬ is_lane (0, c) → channel_room (sh w) = true →
  (is_append c = true → 0 < reserved (hist w)) →
  holds b a f k n p (on_hist (λ h, set_reserved (reserved h - append_weight (0, c)) h) (enter_append c w)).
Proof.
  intros Hh Hc Hr%bool_decide_eq_true Hres.
  assert (Hres' : append_weight (next_ticket w, c) ≤ reserved (hist w)).
  { unfold append_weight. cbn. destruct (is_append c); [specialize (Hres eq_refl); lia|lia]. }
  unfold enter_append. change (append_weight (0, c)) with (append_weight (next_ticket w, c)).
  assert (¬ is_lane (next_ticket w, c)) as Hc' by done. clear Hc. cbv zeta.
  assert (Hx : (next_ticket w, c).1 = next_ticket w) by done. remember ((next_ticket w, c) : Sent) as x eqn:Ex.
  assert (Hper : permit_weight x = 0) by (rewrite Ex in *; destruct c; try done; destruct Hc'; eexists; done).
  assert (Hlife' : sumN append_weight (sent (hist w)) + append_weight x + (reserved (hist w) - append_weight x) ≤ u64_max).
  { pose proof (h_life _ _ _ _ _ _ _ Hh) as Hl. unfold appends_begun in Hl.
    lia. }
  pose proof (line_snoc f k w x) as El.
  carry Hh.
  - by apply sent_snoc.
  - unfold line in El. fields. rewrite El. apply Forall_app. split.
    + eapply past_weaken; [|exact Hpast]. lia.
    + apply Forall_forall. intros y (z & [->|[]%elem_of_nil]%elem_of_cons & Hz)%list_elem_of_omap.
      rewrite (mark_ticket _ _ Hz), Hx. unfold next_ticket. lia.
  - intros Hu. unfold line in El. fields. rewrite El. cbn [omap list_omap]. destruct (mark x) as [m|] eqn:Em.
    + apply sorted_snoc; [|by apply Horder]. by rewrite (mark_ticket _ _ Em), Hx.
    + rewrite app_nil_r. by apply Horder.
Qed.
Lemma enter_lane_holds b a f k n p w c : holds b a f k n p w → is_lane (0, c) → has_permit c = true →
  (length (lifecycle_rx (sh w)) < LIFECYCLE_QUEUE_CAPACITY)%nat → 0 < slots_in_flight (hist w) →
  holds b a f k n p (on_hist (λ h, set_slots_in_flight (slots_in_flight h - 1) h) (enter_lane c w)).
Proof.
  intros Hh Hc Hp Hr Hfl. unfold enter_lane. cbv zeta.
  assert (Hc' : is_lane (next_ticket w, c)) by done. assert (Hx : (next_ticket w, c).1 = next_ticket w) by done.
  assert (permit_weight (next_ticket w, c) = 1) by (unfold permit_weight; cbn; by rewrite Hp).
  clear Hc Hp. remember ((next_ticket w, c) : Sent) as x eqn:Ex.
  destruct (lane_quiet x) as [Ha Hm]; [done|].
  carry Hh.
  - rewrite !app_assoc in *. apply Forall_app. split; [done|by apply Forall_singleton].
  - split; [lia|]. rewrite length_app. cbn. lia.
  - by apply sent_snoc.
  - eapply past_weaken; [|exact Hpast]. lia.
Qed.

(** Credits, as long as their sum is what it should be. *)
Lemma credits_holds b a f k n p w depth r : holds b a f k n p w →
  sumN append_weight (sent (hist w)) + r ≤ u64_max →
  depth = sumN append_weight (pending (q w)) + sumN append_weight (receiver (sh w)) + r + n →
  holds b a f k n p (on_hist (set_reserved r) (on_sh (set_queue_depth depth) w)).
Proof. intros Hh Hl Hd. carry Hh. Qed.
Lemma send_holds x b a f k n p w : holds b a f k n p w → holds b a f k n p (send x w).
Proof.
  intros Hh. pose proof (h_depth _ _ _ _ _ _ _ Hh) as Hd. pose proof (h_credits _ _ _ _ _ _ _ Hh) as Hc.
  pose proof (h_life _ _ _ _ _ _ _ Hh) as Hl. unfold appends_begun in Hl.
  destruct x; cbn [send]; unfold appends_begun, reserve_append, refuse_append.
  - case_decide; [|done]. destruct (latch (sh w)).1; [books|]. case_decide; [|books].
    apply (credits_holds _ _ _ _ _ _ w); [done|lia|lia].
  - destruct (bool_decide _ && _) eqn:E; [|done]. apply andb_true_iff in E as [E%bool_decide_eq_true _].
    apply (credits_holds _ _ _ _ _ _ w); [done|lia|lia].
  - destruct (bool_decide _ && _) eqn:E; [|done]. apply andb_true_iff in E as [E%bool_decide_eq_true _].
    eapply books_holds; [|apply (credits_holds _ _ _ _ _ _ w (wrapping_sub (queue_depth (sh w)) 1) (reserved (hist w) - 1)); [done|lia|]].
    + by constructor.
    + rewrite wrapping_sub_ok; lia.
  - destruct (bool_decide _ && _) eqn:E; [|done]. apply andb_true_iff in E as [E%bool_decide_eq_true Er].
    eapply books_holds; [|apply (enter_append_holds _ _ _ _ _ _ w (Append id replay durable_head)); [done|by intros [? ?]|done|done]].
    by constructor.
  - destruct (is_control c && _) eqn:E; [|done]. apply andb_true_iff in E as [E Er].
    eapply books_holds; [|apply (enter_append_holds _ _ _ _ _ _ w c); [done|by destruct c; intros [? ?]|done|by destruct c]].
    constructor; try done. destruct c; try done; fields; by rewrite N.sub_0_r.
  - case_decide; [|done]. clear Hc Hl. carry Hh.
  - case_decide; [|done]. clear Hc Hl. carry Hh.
  - destruct (lifecycle_permit_mut true c) as [c'|] eqn:Ec; [|done].
    destruct (bool_decide _ && _) eqn:E; [|done].
    apply andb_true_iff in E as [E%bool_decide_eq_true Er%bool_decide_eq_true].
    apply enter_lane_holds; [done| | |done|done]; destruct c; simplify_eq/=; try done; by eexists.
  - books.
  - books.
  - books.
Qed.
Lemma deliver_holds e b a f k n p w : holds b a f k n p w → holds b a f k n p (deliver e w).
Proof.
  intros Hh. unfold deliver. assert (holds b a f k n p (on_hist (λ h, set_now (now h + elapsed e) h) w)) as Hh' by books.
  clear Hh. revert Hh'. generalize (on_hist (λ h, set_now (now h + elapsed e) h) w). induction (sends e) as [|x l IH]; intros w' Hh; [done|].
  cbn [foldl]. apply IH. by apply send_holds.
Qed.

(** ** Triples

    A section that is left early leaves the actor between turns, or for good. *)

Definition quiet w : Prop := ∃ b a, holds b a [] [] 0 0 w.
Definition lands {A} (R : A → World St → Prop) w (r : result A Leave) : Prop :=
  match r with Ok x => R x w | Err ActorReturned => True | Err _ => quiet w end.
Definition runs {A} (P : World St → Prop) (m : M (World St) Leave A) (R : A → World St → Prop) : Prop :=
  ∀ w, P w → wp m w (lands R).

Lemma runs_bind {A B} P (m : M (World St) Leave A) (k : A → M (World St) Leave B) R R' :
  runs P m R → (∀ x, runs (R x) (k x) R') → runs P (let* x := m in k x) R'.
Proof.
  intros Hm Hk w Hw. apply wp_bind. eapply wp_mono; [by apply Hm|].
  intros w' [x|l] Hr; [by apply Hk|done].
Qed.
Lemma runs_ret {A} (x : A) (P : World St → Prop) (R : A → World St → Prop) : (∀ w, P w → R x w) → runs P (mret_ x) R.
Proof. intros Hp w Hw. by apply Hp. Qed.
Lemma runs_get P (R : World St → World St → Prop) : (∀ w, P w → R w w) → runs P get R.
Proof. intros Hp w Hw. by apply Hp. Qed.
Lemma runs_modify P f (R : unit → World St → Prop) : (∀ w, P w → R tt (f w)) → runs P (modify f) R.
Proof. intros Hp w Hw. by apply Hp. Qed.
Lemma runs_leave {A} P l (R : A → World St → Prop) : (∀ w, P w → l = ActorReturned ∨ quiet w) → runs P (leave l) R.
Proof. intros Hp w Hw. destruct l; [| |]; cbn; try done; by destruct (Hp w Hw). Qed.
Lemma runs_mono {A} P P' (m : M (World St) Leave A) R R' : runs P' m R' → (∀ w, P w → P' w) → (∀ x w, R' x w → R x w) → runs P m R.
Proof.
  intros Hm Hp Hr w Hw. eapply wp_mono; [by apply Hm, Hp|]. intros w' [x|[]] Hl; try done. by apply Hr.
Qed.
Lemma runs_when P c (m : M (World St) Leave unit) (R : unit → World St → Prop) :
  (c = true → runs P m R) → (c = false → ∀ w, P w → R tt w) → runs P (when c m) R.
Proof. intros Ht Hf. destruct c; [by apply Ht|]. intros w Hw. by apply Hf. Qed.
(** Reading the state first. *)
Lemma runs_read {A} P (k : World St → M (World St) Leave A) R :
  (∀ w, P w → runs (λ w', w' = w ∧ P w') (k w) R) → runs P (let* w := get in k w) R.
Proof. intros Hk w Hw. apply wp_bind. unfold wp, get. by apply Hk. Qed.

Lemma runs_look {A} P (k : World St → M (World St) Leave A) R :
  (∀ w, P w → runs P (k w) R) → runs P (let* w := get in k w) R.
Proof. intros Hk. apply runs_read. intros w Hw. eapply runs_mono; [by apply Hk|by intros ? []|done]. Qed.

Lemma holds_quiet b a w : holds b a [] [] 0 0 w → quiet w.
Proof. intros. by exists b, a. Qed.

(** *** Looks *)

Lemma to_come_cons e es : to_come (e :: es) = (length (sends e) + to_come es)%nat.
Proof. done. Qed.
Definition incoming w : nat := length (receiver (sh w)) + to_come (env (hist w)).
Definition hold b a f k n p i m w : Prop := holds b a f k n p w ∧ (incoming w ≤ i)%nat ∧ (backlog w ≤ m)%nat.

Lemma send_size x w : pending (q (send x w)) = pending (q w) ∧ env (hist (send x w)) = env (hist w) ∧
  (length (receiver (sh (send x w))) ≤ S (length (receiver (sh w))))%nat.
Proof.
  destruct x; cbn [send]; unfold reserve_append, refuse_append, enter_append, enter_lane;
    repeat first [case_decide | case_match]; simplify_eq; fields; rewrite ?length_app; cbn [length]; split_and!; done || lia.
Qed.
Lemma deliver_size e w : pending (q (deliver e w)) = pending (q w) ∧ env (hist (deliver e w)) = env (hist w) ∧
  (length (receiver (sh (deliver e w))) ≤ length (sends e) + length (receiver (sh w)))%nat.
Proof.
  unfold deliver. assert (pending (q (on_hist (λ h, set_now (now h + elapsed e) h) w)) = pending (q w) ∧
    env (hist (on_hist (λ h, set_now (now h + elapsed e) h) w)) = env (hist w) ∧
    receiver (sh (on_hist (λ h, set_now (now h + elapsed e) h) w)) = receiver (sh w)) as (<- & <- & <-) by done.
  generalize (on_hist (λ h, set_now (now h + elapsed e) h) w). clear w.
  induction (sends e) as [|x l IH]; intros w; [done|]. cbn [foldl length].
  destruct (IH (send x w)) as (-> & -> & ?). destruct (send_size x w) as (-> & -> & ?). split_and!; [done|done|lia].
Qed.
Lemma runs_observe b a f k n p i m : runs (hold b a f k n p i m) observe (λ _, hold b a f k n p i m).
Proof.
  intros w (Hh & Hi & Hb). unfold wp, observe, lands. destruct (env (hist w)) as [|e es] eqn:He; [done|].
  set (w1 := on_hist (set_env es) w). destruct (deliver_size e w1) as (Ep & Ee & El).
  unfold incoming, backlog in *. rewrite He, to_come_cons in Hi, Hb.
  change (env (hist w1)) with es in Ee. change (pending (q w1)) with (pending (q w)) in Ep.
  change (receiver (sh w1)) with (receiver (sh w)) in El.
  split; [apply deliver_holds; by books|]. unfold incoming, backlog. rewrite Ep, Ee. lia.
Qed.

Lemma hold_weaken b a f k n p i m i' m' w : (i ≤ i')%nat → (m ≤ m')%nat → hold b a f k n p i m w → hold b a f k n p i' m' w.
Proof. intros ?? (? & ? & ?). split_and!; [done|lia|lia]. Qed.
Lemma hold_here b a f k n p w : holds b a f k n p w → hold b a f k n p (incoming w) (backlog w) w.
Proof. intros ?. split_and!; done. Qed.
(** A triple about any bounds holds without bounds. *)
Lemma runs_any {A} b a f k n p (m : M (World St) Leave A) R :
  (∀ i j, runs (hold b a f k n p i j) m R) → runs (holds b a f k n p) m R.
Proof. intros Hm w Hw. by eapply Hm, hold_here. Qed.
Lemma observe_holds b a f k n p : runs (holds b a f k n p) observe (λ _, holds b a f k n p).
Proof. apply runs_any. intros i j. eapply runs_mono; [apply runs_observe|done|]. intros ? w [? _]. done. Qed.
Lemma instant_now_hold b a f k n p i m : runs (hold b a f k n p i m) instant_now (λ _, hold b a f k n p i m).
Proof. eapply runs_bind; [apply runs_observe|]. intros ?. apply runs_read. intros w Hw. apply runs_ret. by intros ? []. Qed.
Lemma instant_now_holds b a f k n p : runs (holds b a f k n p) instant_now (λ _, holds b a f k n p).
Proof. apply runs_any. intros i j. eapply runs_mono; [apply instant_now_hold|done|]. intros ? w [? _]. done. Qed.

(** *** Taking from the channels *)

Definition taken b a f n p i m (o : option Sent) w : Prop :=
  match o with
  | Some c => ∃ i' m', i = S i' ∧ m = S m' ∧ hold b a f [c] (n + append_weight c) p i' m' w
  | None => hold b a f [] n p i m w
  end.
Lemma pop_holds b a f n p c r w : receiver (sh w) = c :: r → holds b a f [] n p w →
  holds b a f [c] (n + append_weight c) p (on_sh (set_receiver r) w).
Proof.
  intros Hr Hh. assert (Hl : line f [c] (on_sh (set_receiver r) w) = line f [] w).
  { unfold line. fields. rewrite Hr. cbn [omap list_omap]. destruct (mark c); cbn; by rewrite ?app_nil_r. }
  unfold line in Hl. fields. rewrite Hr in Hl. carry Hh; rewrite Hr in *; simp_len; try lia.
  - by rewrite Hl.
  - by rewrite Hl.
Qed.
Lemma pop_receiver_hold b a f n p i m : runs (hold b a f [] n p i m) pop_receiver (taken b a f n p i m).
Proof.
  apply runs_read. intros w (Hh & Hi & Hm). destruct (receiver (sh w)) as [|c r] eqn:Hr.
  - apply runs_ret. by intros ? [-> ?].
  - eapply (runs_bind _ _ _ (λ _, taken b a f n p i m (Some c))); [|intros ?; by apply runs_ret].
    apply runs_modify. intros ? [-> _]. unfold incoming, backlog in Hi, Hm. rewrite Hr in Hi, Hm. cbn [length] in Hi, Hm.
    exists (Nat.pred i), (Nat.pred m). split_and!; [lia|lia|]. split; [by apply pop_holds|]. unfold incoming, backlog; fields; lia.
Qed.
Lemma try_recv_hold b a f n p i m : runs (hold b a f [] n p i m) try_recv (taken b a f n p i m).
Proof. eapply runs_bind; [apply runs_observe|]. intros ?. apply pop_receiver_hold. Qed.
Lemma park_hold b a f k n p i m t : runs (hold b a f k n p i m) (modify (λ w, park t (env (hist w)) w)) (λ _, hold b a f k n p i m).
Proof.
  apply runs_modify. intros w Hw. assert (on_hist (set_env (env (hist w))) w = w) as Hid by by destruct w as [? ? ? [] ?].
  assert (hold b a f k n p i m (on_hist (set_env (env (hist w))) w)) as Hw' by by rewrite Hid.
  clear Hw Hid. generalize dependent w. intros w. generalize (env (hist w)). intros es. revert w.
  induction es as [|e es IH]; intros w Hw; cbn [park].
  - destruct (receiver _); [|done]. destruct t; [|done]. case_decide; [done|].
    destruct Hw as (Hh & Hi & Hm). split_and!; [books|done|done].
  - assert (hold b a f k n p i m (on_hist (set_env es) (deliver e (on_hist (set_env (e :: es)) w)))) as Hd.
    { pose proof (runs_observe b a f k n p i m (on_hist (set_env (e :: es)) w) Hw) as Hr. unfold wp, observe, lands in Hr. fields.
      destruct (deliver_size e (on_hist (set_env (e :: es)) w)) as (Ep & Ee & El). fields.
      destruct Hw as (Hh & Hi & Hm). split_and!.
      - eapply books_holds; [|by apply deliver_holds, Hh]. by constructor.
      - unfold incoming in *. fields. rewrite to_come_cons in Hi. lia.
      - unfold backlog in *. fields. rewrite Ep. rewrite to_come_cons in Hm. lia. }
    destruct (receiver _); [|done]. destruct t; [case_decide; [done|]|]; by apply IH.
Qed.
Lemma recv_timeout_hold b a f n p i m t : runs (hold b a f [] n p i m) (recv_timeout t) (taken b a f n p i m).
Proof. eapply runs_bind; [apply park_hold|]. intros ?. apply pop_receiver_hold. Qed.

Definition received b a f n p (o : option Sent) w : Prop :=
  match o with Some c => holds b a f [c] (n + append_weight c) p w | None => holds b a f [] n p w end.
Lemma taken_received b a f n p i m o w : taken b a f n p i m o w → received b a f n p o w.
Proof. destruct o; [by intros (i' & m' & _ & _ & Hh & _)|by intros []]. Qed.
Lemma try_recv_holds b a f n p : runs (holds b a f [] n p) try_recv (received b a f n p).
Proof. apply runs_any. intros i m. eapply runs_mono; [apply try_recv_hold|done|]. intros o w. apply taken_received. Qed.
Lemma recv_timeout_holds b a f n p t : runs (holds b a f [] n p) (recv_timeout t) (received b a f n p).
Proof. apply runs_any. intros i m. eapply runs_mono; [apply recv_timeout_hold|done|]. intros o w. apply taken_received. Qed.

(** *** Moving commands *)

Abbreviation sorted := (Sorted.StronglySorted in_order).
Lemma sorted_left pre l1 o l2 : (∀ x y, o = Some x → y ∈ l1 → in_order x y) →
  sorted (pre ++ l1 ++ option_list o ++ l2) → sorted (pre ++ option_list o ++ l1 ++ l2).
Proof.
  destruct o as [x|]; [|done]. simpl. rewrite !StronglySorted_app. intros Hx (Hp & Hpre & H1 & Hl1 & H2).
  apply Sorted.StronglySorted_inv in H2 as [Hl2 Hf2]. rewrite Forall_forall in Hf2. split; [|split; [done|]].
  - intros y z Hy Hz. apply Hp; [done|]. clear -Hz. set_solver.
  - constructor.
    + apply StronglySorted_app. split; [|done]. intros y z Hy Hz. apply H1; [done|by right].
    + apply Forall_forall. intros y [Hy|Hy]%elem_of_app; [by apply Hx|by apply Hf2].
Qed.
Lemma sorted_right pre l1 o l2 : (∀ x y, o = Some x → y ∈ l1 → in_order y x) →
  sorted (pre ++ option_list o ++ l1 ++ l2) → sorted (pre ++ l1 ++ option_list o ++ l2).
Proof.
  destruct o as [x|]; [|done]. simpl. rewrite !StronglySorted_app. intros Hx (Hp & Hpre & H2).
  apply Sorted.StronglySorted_inv in H2 as [Hl Hf]. rewrite Forall_forall in Hf. apply StronglySorted_app in Hl as (H1 & Hl1 & Hl2).
  split; [|split; [done|split; [|split; [done|]]]].
  - intros y z Hy Hz. apply Hp; [done|]. clear -Hz. set_solver.
  - intros y z Hy [->|Hz]%elem_of_cons; [by apply Hx|by apply H1].
  - constructor; [done|]. apply Forall_forall. intros y Hy. apply Hf. clear -Hy. set_solver.
Qed.
Lemma sorted_drop pre o l : sorted (pre ++ option_list o ++ l) → sorted (pre ++ l).
Proof.
  destruct o as [x|]; [|done]. simpl. rewrite !StronglySorted_app. intros (Hp & Hpre & H2).
  apply Sorted.StronglySorted_inv in H2 as [H2 _]. split; [|done]. intros y z Hy Hz. apply Hp; [done|by right].
Qed.
Lemma omap_mark_cons c (l : list Sent) : omap mark (c :: l) = option_list (mark c) ++ omap mark l.
Proof. cbn. by destruct (mark c). Qed.
Lemma Forall_move {A} (P : A → Prop) pre l1 o l2 : Forall P (pre ++ l1 ++ option_list o ++ l2) ↔ Forall P (pre ++ option_list o ++ l1 ++ l2).
Proof. rewrite !Forall_app. tauto. Qed.
Lemma Forall_less {A} (P : A → Prop) pre o l : Forall P (pre ++ option_list o ++ l) → Forall P (pre ++ l).
Proof. rewrite !Forall_app. tauto. Qed.

Definition with_pending (l : list Sent) w : World St := on_q (set_pending l) w.
Lemma take_front b a f n p w l1 c l2 : pending (q w) = l1 ++ c :: l2 →
  (∀ x y, mark c = Some x → y ∈ omap mark l1 → in_order x y) → holds b a f [] n p w →
  holds b a (f ++ [c]) [] (n + append_weight c) p (with_pending (l1 ++ l2) w).
Proof.
  intros Hp Hx Hh. unfold with_pending.
  carry Hh; rewrite Hp in *; simp_len; try lia; rewrite ?omap_app, omap_mark_cons in *; cbn [omap list_omap app] in *.
  - rewrite !app_nil_r, <-!app_assoc in *. rewrite (app_assoc _ (omap mark f)) in *. by apply (Forall_move _ _ (omap mark l1)).
  - intros Hu. specialize (Horder Hu). rewrite !app_nil_r, <-!app_assoc in *. rewrite (app_assoc _ (omap mark f)) in *. by apply sorted_left.
Qed.
Lemma take_back b a f n p w l1 (c : Sent) l2 : pending (q w) = l1 ++ c :: l2 → is_append c.2 = false → holds b a f [] n p w →
  holds b a f [c] n p (with_pending (l1 ++ l2) w).
Proof.
  intros Hp Hc Hh. unfold with_pending. assert (append_weight c = 0) by (unfold append_weight; by rewrite Hc).
  assert (∀ x y, mark c = Some x → y ∈ omap mark l2 → in_order y x) as Hx.
  { destruct c as [t []]; try done. intros x [? []] [= <-] _ Hf; done. }
  carry Hh; rewrite Hp in *; simp_len; try lia; rewrite ?omap_app, ?omap_mark_cons in *; cbn [omap list_omap app] in *.
  - rewrite ?app_nil_r, <-?app_assoc in *. rewrite (app_assoc _ (omap mark f)), (app_assoc (_ ++ _) (omap mark l1)) in *.
    by apply (Forall_move _ _ (omap mark l2)).
  - intros Hu. specialize (Horder Hu). rewrite ?app_nil_r, <-?app_assoc in *. rewrite (app_assoc _ (omap mark f)), (app_assoc (_ ++ _) (omap mark l1)) in *.
    by apply (sorted_right _ (omap mark l2)).
Qed.

Lemma put_front b a f n p c w : holds b a (f ++ [c]) [] (n + append_weight c) p w → n ≤ sumN append_weight f →
  holds b a f [] n p (with_pending (c :: pending (q w)) w).
Proof.
  intros Hh Hn. unfold with_pending.
  carry Hh; rewrite ?omap_app, ?omap_mark_cons in *; cbn [omap list_omap app] in *; by rewrite ?app_nil_r, <-?app_assoc in *.
Qed.
Lemma put_back b a f n p c w : holds b a f [c] (n + append_weight c) p w → n ≤ sumN append_weight f →
  holds b a f [] n p (with_pending (pending (q w) ++ [c]) w).
Proof.
  intros Hh Hn. unfold with_pending.
  carry Hh; rewrite ?omap_app, ?omap_mark_cons in *; cbn [omap list_omap app] in *; by rewrite ?app_nil_r, <-?app_assoc in *.
Qed.
Lemma put_batch b a f p w : holds b a f [] (sumN append_weight f) p w →
  holds b a [] [] 0 p (with_pending (f ++ pending (q w)) w).
Proof.
  intros Hh. unfold with_pending.
  carry Hh; rewrite ?omap_app in *; cbn [omap list_omap app] in *; by rewrite <-?app_assoc in *.
Qed.
(** A command of no mark goes anywhere. *)
Lemma unmarked_line c f k w : mark c = None → line (f ++ [c]) k w = line f k w ∧ line f (c :: k) w = line f k w.
Proof. intros Hm. unfold line. rewrite omap_app, !omap_mark_cons, Hm. cbn. by rewrite app_nil_r. Qed.
Definition with_aside (o : option Sent) w : World St := on_q (set_pending_lifecycle o) w.
Lemma put_aside b f n p c w : holds b None (f ++ [c]) [] n p w → is_lane c → n ≤ sumN append_weight f →
  holds b (Some c) f [] n p (with_aside (Some c) w).
Proof.
  intros Hh Hc Hn. destruct (lane_quiet c Hc) as [Ha Hm]. destruct (unmarked_line c f [] w Hm) as [El _].
  pose proof (h_past _ _ _ _ _ _ _ Hh) as Hpast0. pose proof (h_order _ _ _ _ _ _ _ Hh) as Horder0. rewrite El in *.
  unfold with_aside, line in *. carry Hh; rewrite ?Haside in *; simpl option_list in *; simp_len; try lia.
  by constructor.
Qed.
Lemma take_aside b n p c w : holds b (Some c) [] [] n p w → holds b None [c] [] n p (with_aside None w) ∧ is_lane c.
Proof.
  intros Hh. pose proof (h_lane _ _ _ _ _ _ _ Hh) as Hl. simpl in Hl. apply Forall_cons in Hl as [Hc Hl]. split; [|done].
  destruct (lane_quiet c Hc) as [Ha Hm]. unfold with_aside.
  carry Hh; rewrite ?Haside in *; simpl option_list in *; simp_len; try lia; rewrite omap_mark_cons, Hm; done.
Qed.
Definition with_lane (l : list Sent) w : World St := on_q (set_lifecycle_pending l) w.
Lemma put_lane b a n p c w l1 l2 : lifecycle_pending (q w) = l1 ++ l2 → holds b a [c] [] n p w → is_lane c → n = 0 →
  holds b a [] [] n p (with_lane (l1 ++ c :: l2) w).
Proof.
  intros El Hh Hc ->. destruct (lane_quiet c Hc) as [Ha Hm]. unfold with_lane.
  carry Hh; rewrite ?El in *; simp_len; try lia.
  - rewrite !Forall_app in *. rewrite Forall_cons. tauto.
  - cbn [omap list_omap] in Hpast. by rewrite Hm in Hpast.
  - intros Hu. specialize (Horder Hu). cbn [omap list_omap] in Horder. by rewrite Hm in Horder.
Qed.
Lemma take_lane b a n p c w l1 l2 : lifecycle_pending (q w) = l1 ++ c :: l2 → holds b a [] [] n p w →
  holds b a [c] [] n p (with_lane (l1 ++ l2) w) ∧ is_lane c.
Proof.
  intros El Hh. pose proof (h_lane _ _ _ _ _ _ _ Hh) as Hl. rewrite El, !Forall_app, Forall_cons in Hl.
  assert (is_lane c) as Hc by tauto. split; [|done]. destruct (lane_quiet c Hc) as [Ha Hm]. unfold with_lane.
  carry Hh; rewrite ?El in *; simp_len; try lia; rewrite ?omap_mark_cons, ?Hm; try done.
  rewrite !Forall_app, ?Forall_cons in *. tauto.
Qed.
Lemma pop_lane b a f n p c r w : lifecycle_rx (sh w) = c :: r → holds b a f [] n p w →
  holds b a (f ++ [c]) [] n p (on_sh (set_lifecycle_rx r) w) ∧ is_lane c.
Proof.
  intros Er Hh. pose proof (h_lane _ _ _ _ _ _ _ Hh) as Hl. rewrite Er, !Forall_app, Forall_cons in Hl.
  assert (is_lane c) as Hc by tauto. split; [|done]. destruct (lane_quiet c Hc) as [Ha Hm].
  destruct (unmarked_line c f [] (on_sh (set_lifecycle_rx r) w) Hm) as [El _]. unfold line in El. fields.
  carry Hh; rewrite ?Er in *; simp_len; rewrite ?El; try done; try lia.
  - rewrite !Forall_app. tauto.
  - split; [lia|]. cbn [length] in *. lia.
Qed.
Lemma credit_holds b a f k n p m w : holds b a f k n p w → n + m ≤ sumN append_weight (f ++ k) →
  holds b a f k (n + m) p (on_sh (λ s, set_queue_depth (wrapping_add (queue_depth s) m) s) w).
Proof.
  intros Hh Hm. pose proof Hh as []. unfold appends_begun, held in *. rewrite !sumN_app in *.
  assert (wrapping_add (queue_depth (sh w)) m = queue_depth (sh w) + m) as E by (apply wrapping_add_ok; lia).
  constructor; unfold held, line, appends_begun in *; fields; rewrite ?E, ?sumN_app in *; try done; lia.
Qed.
Lemma spend_holds b a f k n p m w : holds b a f k (n + m) p w →
  holds b a f k n p (on_sh (λ s, set_queue_depth (wrapping_sub (queue_depth s) m) s) w).
Proof.
  intros Hh. pose proof (h_depth _ _ _ _ _ _ _ Hh) as Hd. pose proof Hh as [].
  assert (wrapping_sub (queue_depth (sh w)) m = queue_depth (sh w) - m) as E by (apply wrapping_sub_ok; lia).
  constructor; unfold held, line, appends_begun in *; fields; rewrite ?E in *; try done; lia.
Qed.
Lemma release_holds b a f k n p m w : holds b a f k n (p + m) w →
  holds b a f k n p (on_sh (λ s, set_lifecycle_slots (lifecycle_slots s + m) s) w).
Proof. intros Hh. carry Hh. Qed.
Lemma block_holds b b' a f k n p w : holds b a f k n p w → holds b' a f k n p (on_sh (set_capacity_blocked b') w).
Proof. intros Hh. carry Hh. Qed.

(** *** Answers *)

Lemma sumN_act_snoc (f : Act → N) l x : sumN f (l ++ [x]) = sumN f l + f x.
Proof. simp_len. lia. Qed.
Lemma undisturbed_snoc l x : undisturbed (l ++ [x]) → undisturbed l.
Proof. intros Hu c Hc. apply Hu. apply elem_of_app. by left. Qed.
Lemma omap_snoc l x : omap act_mark (l ++ [x]) = omap act_mark l ++ option_list (act_mark x).
Proof. rewrite omap_app. cbn. by destruct (act_mark x). Qed.
Definition with_act (x : Act) w : World St := on_hist (λ h, set_acts (acts h ++ [x]) h) w.
Definition pays (x : Act) (c : Sent) : Prop :=
  (∀ t, act_pays t x = owed t c) ∧ settles x = append_weight c ∧ (act_mark x = None ∨ act_mark x = mark c).
Lemma pay_front b a c f k n p x w : holds b a (c :: f) k n p w → pays x c → n ≤ sumN append_weight (f ++ k) →
  holds b a f k n (p + permit_weight c) (with_act x w).
Proof.
  intros Hh (Hpay & Hset & Hm) Hn. unfold with_act.
  carry Hh; rewrite ?sumN_act_snoc, ?Hset, ?omap_snoc in *; simp_len; try lia.
  - rewrite Hpay. lia.
  - rewrite omap_mark_cons, <-?app_assoc in *. destruct Hm as [->| ->]; [by eapply Forall_less|done].
  - intros Hu%undisturbed_snoc. specialize (Horder Hu). rewrite omap_mark_cons, <-?app_assoc in *.
    destruct Hm as [->| ->]; [by eapply sorted_drop|done].
Qed.
Lemma pay_back b a c n p x w : holds b a [] [c] n p w → pays x c → act_mark x = None → n = 0 →
  holds b a [] [] n (p + permit_weight c) (with_act x w).
Proof.
  intros Hh (Hpay & Hset & _) Hm ->. unfold with_act.
  carry Hh; rewrite ?sumN_act_snoc, ?Hset, ?omap_snoc, ?Hm in *; simp_len; try lia; rewrite ?omap_mark_cons in *; cbn [omap list_omap app] in *.
  - rewrite Hpay. lia.
  - rewrite ?app_nil_r in *. simpl. rewrite app_assoc in *. by eapply (Forall_less _ _ (mark c)).
  - intros Hu%undisturbed_snoc. specialize (Horder Hu). rewrite ?app_nil_r in *. simpl. rewrite app_assoc in *. by eapply (sorted_drop _ (mark c)).
Qed.
(** A command that owes nothing is let go. *)
Lemma drop_front b a (c : Sent) f k n p w : holds b a (c :: f) k n p w → owes c.2 = false → n ≤ sumN append_weight (f ++ k) →
  holds b a f k n (p + permit_weight c) w.
Proof.
  intros Hh Hc Hn. assert (append_weight c = 0 ∧ mark c = None ∧ ∀ t, owed t c = 0) as (Ha & Hm & Ho).
  { destruct c as [t' []]; try done; (split; [done|split; [done|]]); intros t; unfold owed, due_of; cbn in *; by rewrite ?Hc. }
  carry Hh; rewrite ?Ho in *; try lia; cbn [omap list_omap] in *; by rewrite Hm in *.
Qed.
Lemma add_back b a (c : Sent) n p w : holds b a [] [] n p w → owes c.2 = false → has_permit c.2 = false →
  holds b a [] [] n p (with_pending (pending (q w) ++ [c]) w).
Proof.
  intros Hh Hc Hp. assert (append_weight c = 0 ∧ mark c = None ∧ permit_weight c = 0 ∧ ∀ t, owed t c = 0) as (Ha & Hm & Hpe & Ho).
  { unfold permit_weight. rewrite Hp.
    destruct c as [t' []]; try done; (split; [done|split; [done|split; [done|]]]); intros t; unfold owed, due_of; cbn in *; by rewrite ?Hc. }
  unfold with_pending. carry Hh; rewrite ?Ho in *; try lia; rewrite omap_app, omap_mark_cons, Hm; cbn [omap list_omap]; simpl option_list; by rewrite ?app_nil_r.
Qed.
(** The command in hand at a reconciliation goes to the front; if it has a mark, order is lost. *)
Lemma reconciled_holds b a c n p w : holds b a [c] [] n p w ∨ holds b a [] [c] n p w →
  holds b a [c] [] n p (with_act (Reconciled c) w).
Proof.
  assert (∀ l, undisturbed (l ++ [Reconciled c]) → mark c = None) as Hd.
  { intros l Hu. apply Hu, elem_of_app. right. by left. }
  unfold with_act. intros [Hh|Hh]; carry Hh; rewrite ?sumN_act_snoc, ?omap_snoc in *; change (act_pays _ (Reconciled c)) with 0 in *; cbn [settles act_mark] in *;
    simpl option_list; rewrite ?app_nil_r; try lia; try done.
  - intros Hu%undisturbed_snoc. by apply Horder.
  - rewrite omap_mark_cons in *. cbn [omap list_omap app] in *. rewrite app_nil_r in *.
    by apply (Forall_move _ _ (omap mark (pending (q w))) (mark c)).
  - intros Hu. pose proof (Hd _ Hu) as Hm. apply undisturbed_snoc in Hu. specialize (Horder Hu).
    rewrite omap_mark_cons, Hm in *. done.
Qed.
(** From behind the queue to the front of it. *)
Lemma back_to_front b a f c n p w : (∀ x y, mark c = Some x → y ∈ omap mark (pending (q w)) → in_order x y) →
  holds b a f [c] n p w → holds b a (f ++ [c]) [] n p w.
Proof.
  intros Hx Hh. carry Hh; rewrite ?omap_app, ?omap_mark_cons in *; cbn [omap list_omap app] in *;
    rewrite ?app_nil_r, <-?app_assoc in *.
  - rewrite (app_assoc _ (omap mark f)) in *. by apply (Forall_move _ _ (omap mark (pending (q w)))).
  - intros Hu. specialize (Horder Hu). rewrite (app_assoc _ (omap mark f)) in *. by apply sorted_left.
Qed.
(** A permit that is given back stays with the hand until it is released. *)
Lemma strip_back b a c n p w : holds b a [] [c] n p w →
  holds b a [] [without_permit c] n (p + permit_weight c) w ∧ append_weight (without_permit c) = append_weight c.
Proof.
  intros Hh. assert (append_weight (without_permit c) = append_weight c ∧ mark (without_permit c) = mark c ∧
    permit_weight (without_permit c) = 0 ∧ ∀ t, owed t (without_permit c) = owed t c) as (Ha & Hm & Hp & Ho).
  { destruct c as [t' []]; done. }
  split; [|done]. carry Hh; rewrite ?Ho, ?Hp in *; try lia; rewrite ?omap_mark_cons, ?Hm in *; done.
Qed.
Lemma add_front b a (c : Sent) f k n p w : owes c.2 = false → has_permit c.2 = false → holds b a f k n p w → holds b a (c :: f) k n p w.
Proof.
  intros Hc Hp Hh. assert (append_weight c = 0 ∧ mark c = None ∧ permit_weight c = 0 ∧ ∀ t, owed t c = 0) as (Ha & Hm & Hpe & Ho).
  { unfold permit_weight. rewrite Hp.
    destruct c as [t' []]; try done; (split; [done|split; [done|split; [done|]]]); intros t; unfold owed, due_of; cbn in *; by rewrite ?Hc. }
  carry Hh; rewrite ?Ho in *; try lia; by rewrite omap_mark_cons, Hm.
Qed.
End steps.
