(* ===== verification/PersistenceActorTurns.v ===== *)
(** * Every branch of a turn keeps the books

    The triples of [PersistenceActorSpec] for the sections of [actor_main], up to the
    whole turn. *)

From S2P Require Import Prelude.
From S2P Require Import Protocol.
From S2P Require Import StorageErrors.
From S2P Require Import StoreTransaction.
From S2P Require Import StoreAppend.
From S2P Require Import PersistenceActor.
From S2P Require Import PersistenceActorSpec.

Section turns.
Context {St : Type} `{!ActorStore St, !StorageCodes}.
Implicit Types w : World St.
Abbreviation Turn := (M (World St) Leave).
Abbreviation triple P m R := (@runs St _ P (m : Turn _) R).

(** ** Sections that leave the books alone *)

Definition neutral {A} (m : Turn A) : Prop := ∀ b a f k n p, runs (holds b a f k n p) m (λ _, holds b a f k n p).

Lemma by_neutral {A} (m : Turn A) b a f k n p : neutral m → runs (holds b a f k n p) m (λ _, holds b a f k n p).
Proof. done. Qed.
Lemma neutral_bind {A B} (m : Turn A) (g : A → Turn B) : neutral m → (∀ x, neutral (g x)) → neutral (let* x := m in g x).
Proof. intros Hm Hg b a f k n p. eapply runs_bind; [apply Hm|]. intros x. apply Hg. Qed.
Lemma neutral_ret {A} (x : A) : neutral (mret_ x).
Proof. intros b a f k n p. by apply runs_ret. Qed.
Lemma neutral_get : neutral get.
Proof. intros b a f k n p. by apply runs_get. Qed.
Lemma neutral_modify g : (∀ w, same_books w (g w)) → neutral (modify g).
Proof. intros Hg b a f k n p. apply runs_modify. intros w. by apply books_holds. Qed.
Lemma neutral_observe : neutral observe.
Proof. intros b a f k n p. apply observe_holds. Qed.
Lemma neutral_when c (m : Turn unit) : neutral m → neutral (when c m).
Proof. intros Hm. destruct c; [done|]. apply neutral_ret. Qed.
Lemma neutral_call {A} (g : St → A * St) : neutral (call g).
Proof.
  intros b a f k n p w Hw. unfold wp, call, lands. destruct (g (store w)) as [x s]. eapply books_holds; [|exact Hw]. by constructor.
Qed.
Lemma neutral_tell g : neutral (tell g).
Proof. apply neutral_modify. by constructor. Qed.
Lemma neutral_returned {A} : neutral (leave (A := A) ActorReturned).
Proof. intros b a f k n p. apply runs_leave. by left. Qed.
Lemma neutral_retrying {A} (g : bool → St → result A PersistenceError * St) : neutral (retrying g).
Proof.
  apply neutral_bind; [apply neutral_observe|]. intros stop. apply neutral_bind; [apply neutral_get|]. intros w0.
  apply neutral_bind; [|intros [s r]; apply neutral_bind; [by apply neutral_modify|]; intros []; apply neutral_bind; [|intros []; apply neutral_ret]].
  - intros b a f k n p w Hw. apply wp_lift_outcome.
    set (body := λ s, let '(r, s) := g (shutdown (sh w0)) s in (s, r)).
    assert (∀ flag fuel s, (S (if (flag : bool) then 0 else 1) ≤ fuel)%nat → ∃ x, retry_transient fuel (λ n, shutdown (sh w0) || stop n) body flag s = Ret x) as Hr.
    { intros flag fuel. revert flag. induction fuel as [|fuel IH]; intros flag s Hf; [lia|]. cbn [retry_transient].
      destruct (_ || _); [by eexists|]. destruct (body s) as [s' [x|e]]; [by eexists|].
      destruct (is_transient_storage e); [|by eexists]. destruct flag; [by eexists|]. destruct (_ || _); [by eexists|]. apply IH. cbn in *. lia. }
    destruct (Hr false 2%nat (store w0) ltac:(cbn; lia)) as [x Hx]. exists x. split; [exact Hx|]. done.
  - destruct r; [apply neutral_ret|]. by apply neutral_modify.
Qed.
Create HintDb neutral.
Hint Resolve neutral_ret neutral_get neutral_observe neutral_call neutral_tell neutral_returned neutral_retrying : neutral.
Ltac neutral := repeat first
  [ solve [auto with neutral] | apply neutral_bind; [|intros ?] | apply neutral_when
  | apply neutral_modify; intros ?; by constructor
  | match goal with |- neutral (match ?x with _ => _ end) => destruct x end ].

Lemma neutral_instant_now : neutral instant_now.
Proof. unfold instant_now. neutral. Qed.
Lemma neutral_wake_owner : neutral wake_owner.
Proof. unfold wake_owner. neutral. Qed.
Lemma neutral_publish value : neutral (publish_pressure value).
Proof.
  apply neutral_modify. intros w. unfold publish_capacity_pressure. destruct (negb _ && _); by constructor.
Qed.
Lemma neutral_set_failure e : neutral (set_failure e).
Proof. unfold set_failure. neutral. Qed.
Lemma neutral_retry_at t : neutral (retry_at t).
Proof. unfold retry_at. neutral. Qed.
Hint Resolve neutral_instant_now neutral_wake_owner neutral_publish neutral_set_failure neutral_retry_at : neutral.
Lemma neutral_retry_later : neutral retry_later.
Proof. unfold retry_later. neutral. Qed.
Lemma neutral_due : neutral due.
Proof. unfold due. neutral. Qed.
Hint Resolve neutral_retry_later neutral_due : neutral.
Lemma neutral_settle_debt : neutral settle_debt.
Proof. unfold settle_debt. neutral. Qed.
Lemma neutral_requested_wake : neutral requested_wake.
Proof. unfold requested_wake. neutral. Qed.
Lemma neutral_capacity_result stage r : neutral (capacity_result stage r).
Proof. unfold capacity_result. neutral. Qed.
Hint Resolve neutral_settle_debt neutral_requested_wake neutral_capacity_result : neutral.

Lemma runs_block b b' a f k n p : triple (holds b a f k n p) (block b') (λ _, holds b' a f k n p).
Proof. apply runs_modify. intros w. apply block_holds. Qed.
Lemma runs_note_capacity e b a f k n p : triple (holds b a f k n p) (note_capacity e) (λ _, holds true a f k n p).
Proof.
  unfold note_capacity. repeat (eapply runs_bind; [eapply (_ : neutral _)|intros ?]).
  Unshelve. all: try neutral. apply runs_block.
Qed.

Lemma runs_ex {A X} (P : X → World St → Prop) (m : Turn A) R : (∀ x, runs (P x) m R) → runs (λ w, ∃ x, P x w) m R.
Proof. intros Hm w [x Hx]. by eapply Hm. Qed.
Lemma runs_or {A} P P' (m : Turn A) R : runs P m R → runs P' m R → runs (λ w, P w ∨ P' w) m R.
Proof. intros Hm Hm' w [Hw|Hw]; [by apply Hm|by apply Hm']. Qed.
Lemma runs_pure {A} (P : World St → Prop) φ (m : Turn A) R : (φ → runs P m R) → runs (λ w, φ ∧ P w) m R.
Proof. intros Hm w [Hp Hw]. by apply Hm. Qed.

(** ** The order of the queue under a section *)

Definition still {A} (m : Turn A) : Prop := ∀ w w' r, m w = Ret (w', r) → pending (q w') = pending (q w).
Lemma still_bind {A B} (m : Turn A) (g : A → Turn B) : still m → (∀ x, still (g x)) → still (let* x := m in g x).
Proof.
  intros Hm Hg w w' r. unfold bind. destruct (m w) as [[w1 [x|e]]|] eqn:E; intros Hr; simplify_eq.
  - rewrite (Hg _ _ _ _ Hr). by eapply Hm.
  - by eapply Hm.
Qed.
Lemma still_ret {A} (r : result A Leave) : still (lift_result r).
Proof. intros w w' r'. by intros [= <- _]. Qed.
Lemma still_get : still get.
Proof. intros w w' r'. by intros [= <- _]. Qed.
Lemma still_modify g : (∀ w, pending (q (g w)) = pending (q w)) → still (modify g).
Proof. intros Hg w w' r. intros [= <- _]. apply Hg. Qed.
Lemma still_observe : still observe.
Proof.
  intros w w' r. unfold observe. destruct (env _) as [|e es]; intros [= <- _]; [done|].
  by destruct (deliver_size e (on_hist (set_env es) w)) as [-> _].
Qed.
Lemma still_call {A} (g : St → A * St) : still (call g).
Proof. intros w w' r. unfold call. destruct (g _). by intros [= <- _]. Qed.
Lemma still_park t : still (modify (λ w, park t (env (hist w)) w)).
Proof.
  apply still_modify. intros w. generalize (env (hist w)). intros es. revert w.
  induction es as [|e es IH]; intros w; cbn [park]; (destruct (receiver _); [|done]); (destruct t; [case_decide; [done|]|]);
    try done; rewrite IH; destruct (deliver_size e (on_hist (set_env (e :: es)) w)) as [Hd _]; exact Hd.
Qed.
Lemma still_pop : still pop_receiver.
Proof. apply still_bind; [apply still_get|]. intros w. destruct (receiver _); [apply still_ret|]. apply still_bind; [by apply still_modify|intros; apply still_ret]. Qed.
Lemma still_retrying {A} (g : bool → St → result A PersistenceError * St) : still (retrying g).
Proof.
  unfold retrying. apply still_bind; [apply still_observe|]. intros stop. apply still_bind; [apply still_get|]. intros w0.
  apply still_bind.
  - intros w w' r. unfold lift_outcome. destruct (retry_transient_storage _ _ _); by intros [= <- _].
  - intros [s r]. apply still_bind; [by apply still_modify|]. intros _. apply still_bind; [|intros _; apply still_ret].
    destruct r; [apply still_ret|by apply still_modify].
Qed.
Lemma still_when c (m : Turn unit) : still m → still (when c m).
Proof. intros Hm. destruct c; [done|apply still_ret]. Qed.
Lemma still_leave {A} l : still (leave (A := A) l).
Proof. apply (still_ret (Err l)). Qed.
Create HintDb still.
Hint Resolve still_get still_observe still_call still_park still_pop still_retrying still_leave : still.
Hint Extern 1 (still (mret_ _)) => apply (still_ret (Ok _)) : still.
Ltac still := repeat first
  [ solve [auto with still] | apply still_bind; [|intros ?] | apply still_when
  | apply still_modify; intros ?; done
  | match goal with |- still (match ?x with _ => _ end) => destruct x end ].
Lemma still_publish value : still (publish_pressure value).
Proof. apply still_modify. intros w. unfold publish_capacity_pressure. by destruct (negb _ && _). Qed.
Hint Resolve still_publish : still.
Lemma still_note_capacity e : still (note_capacity e).
Proof. unfold note_capacity, retry_later, instant_now, block. still. Qed.
Hint Resolve still_note_capacity : still.
Lemma still_try_recv : still try_recv.
Proof. unfold try_recv. still. Qed.
Lemma still_recv_timeout t : still (recv_timeout t).
Proof. unfold recv_timeout. still. Qed.
Lemma still_idle_compaction : still idle_compaction.
Proof. unfold idle_compaction, set_failure. still. Qed.
Hint Resolve still_try_recv still_recv_timeout still_idle_compaction : still.

(** A triple with what a still section leaves of the queue. *)
Lemma runs_still {A} P (m : Turn A) R (φ : list Sent → Prop) : still m → runs P m R →
  runs (λ w, φ (pending (q w)) ∧ P w) m (λ x w, φ (pending (q w)) ∧ R x w).
Proof.
  intros Hs Hm w [Hp Hw]. specialize (Hm w Hw). unfold wp in *. specialize (Hs w).
  destruct (m w) as [[w' r]|]; [|done]. rewrite <-(Hs _ _ eq_refl) in Hp. by destruct r.
Qed.

(** ** Which command gets the turn *)

(** The command in hand, before the queue, or behind it while appends wait for space;
    [o] is the command set aside. *)
Definition ready (o : option Sent) (c : Sent) w : Prop :=
  holds false o [c] [] (append_weight c) 0 w ∨ holds true o [] [c] (append_weight c) 0 w.
Definition at_rest w : Prop := ∃ b, holds b None [] [] 0 0 w.
Definition given (b : bool) (P : World St → Prop) (o : option Sent) w : Prop :=
  match o with Some c => is_lane c ∧ holds b None [c] [] 0 0 w | None => P w end.

Lemma lane_ready b c w : is_lane c → holds b None [c] [] 0 0 w → ready None c w.
Proof.
  intros Hc Hw. destruct (lane_quiet c Hc) as [Ha Hm]. unfold ready. rewrite Ha.
  destruct b; [right; by apply holds_shift|by left].
Qed.
Lemma runs_restore : triple quiet restore_lifecycle (λ _, at_rest).
Proof.
  apply runs_modify. intros w (b & a & Hw). rewrite (h_aside _ _ _ _ _ _ _ Hw). exists b. destruct a as [c|]; [|done].
  destruct (take_aside _ _ _ _ _ Hw) as [Hc Hl].
  eapply books_holds; [|apply (put_lane _ _ _ _ c (with_aside None w) [] (lifecycle_pending (q w))); [done|exact Hc|done|done]]. by constructor.
Qed.
Lemma runs_fence : triple quiet fence_reconciliation (λ _, quiet).
Proof.
  apply runs_ex. intros b. apply runs_ex. intros a. unfold fence_reconciliation. apply runs_look. intros w0 _. destruct (_ && _).
  - eapply runs_bind; [apply neutral_instant_now|intros t]. eapply runs_bind; [apply neutral_retry_at|intros ?].
    eapply runs_mono; [apply runs_block|done|]. intros ? w. apply holds_quiet.
  - apply runs_ret. intros w. apply holds_quiet.
Qed.
Lemma runs_try_recv_lifecycle b a f n p : triple (holds b a f [] n p) try_recv_lifecycle
  (λ o w, match o with Some c => is_lane c ∧ holds b a (f ++ [c]) [] n p w | None => holds b a f [] n p w end).
Proof.
  eapply runs_bind; [apply neutral_observe|]. intros ?. apply runs_read. intros w _.
  destruct (lifecycle_rx (sh w)) as [|c r] eqn:Er; [apply runs_ret; by intros w' [_ ?]|].
  eapply (runs_bind _ _ _ (λ _ w', is_lane c ∧ holds b a (f ++ [c]) [] n p w')); [|intros ?; by apply runs_ret].
  apply runs_modify. intros ? [-> Hw]. destruct (pop_lane _ _ _ _ _ _ _ _ Er Hw). done.
Qed.
Lemma runs_refill b room : triple (holds b None [] [] 0 0) (refill room) (λ _, holds b None [] [] 0 0).
Proof.
  induction room as [|room IH]; [by apply runs_ret|]. cbn [refill]. eapply runs_bind; [apply runs_try_recv_lifecycle|].
  intros [c|]; [|by apply runs_ret]. eapply runs_bind; [|intros ?; apply IH].
  apply runs_modify. intros w [Hc Hw]. apply (put_lane _ _ _ _ c w (lifecycle_pending (q w)) []); try done. by rewrite app_nil_r.
Qed.
Lemma remove_at_split {A} i (l : list A) c r : remove_at i l = Some (c, r) → ∃ l1 l2, l = l1 ++ c :: l2 ∧ r = l1 ++ l2 ∧ length l1 = i.
Proof.
  unfold remove_at. destruct (l !! i) as [x|] eqn:E; [|done]. intros [= -> <-]. apply list_elem_of_split_length in E as (l1 & l2 & -> & ->).
  exists l1, l2. by rewrite delete_middle.
Qed.
Lemma runs_take_lifecycle b : triple (holds b None [] [] 0 0) take_lifecycle_turn (given b (holds b None [] [] 0 0)).
Proof.
  apply runs_look. intros w0 _. eapply runs_bind; [apply runs_refill|]. intros ?.
  apply runs_read. intros w _. destruct (take_turn _ _) as [[c r]|] eqn:E; [|apply runs_ret; by intros w' []].
  apply remove_at_split in E as (l1 & l2 & El & -> & _).
  eapply (runs_bind _ _ _ (λ _, given b (holds b None [] [] 0 0) (Some c))); [|intros ?; by apply runs_ret].
  apply runs_modify. intros ? [-> Hw]. destruct (take_lane _ _ _ _ _ _ _ _ El Hw). done.
Qed.
(** [pop_front] of the queue. *)
Lemma runs_pop_front b a f n p : triple (holds b a f [] n p) (take_pending (Some O))
  (λ o w, match o with Some c => holds b a (f ++ [c]) [] (n + append_weight c) p w
                     | None => pending (q w) = [] ∧ holds b a f [] n p w end).
Proof.
  apply runs_read. intros w _. destruct (remove_at O (pending (q w))) as [[c r]|] eqn:E.
  - apply remove_at_split in E as ([|] & l2 & El & -> & Hl); [|done].
    eapply (runs_bind _ _ _ (λ _, holds b a (f ++ [c]) [] (n + append_weight c) p)); [|intros ?; by apply runs_ret].
    apply runs_modify. intros ? [-> Hw]. apply (take_front _ _ _ _ _ _ [] c l2 El); [|done]. by intros x y _ ?%elem_of_nil.
  - apply runs_ret. intros ? [-> Hw]. split; [|done]. unfold remove_at in E. by destruct (pending (q w)).
Qed.
Lemma position_split {A} (f : A → bool) l i : position f l = Some i →
  ∃ l1 x l2, l = l1 ++ x :: l2 ∧ length l1 = i ∧ f x = true ∧ Forall (λ y, f y = false) l1.
Proof.
  revert i. induction l as [|x l IH]; intros i; [done|]. cbn [position]. destruct (f x) eqn:E.
  - intros [= <-]. exists [], x, l. done.
  - destruct (position f l) as [j|]; [|done]. intros [= <-]. destruct (IH j eq_refl) as (l1 & y & l2 & -> & <- & ? & ?).
    exists (x :: l1), y, l2. split_and!; [done|done|done|by constructor].
Qed.
Lemma position_none {A} (f : A → bool) l : position f l = None → Forall (λ y, f y = false) l.
Proof. induction l as [|x l IH]; [by constructor|]. cbn. destruct (f x) eqn:E; [done|]. destruct (position f l); [done|]. constructor; auto. Qed.
(** While appends wait: the first command that need not. *)
Lemma runs_take_unblocked w0 : triple (λ w, w = w0 ∧ holds true None [] [] 0 0 w) (take_pending (position (λ x, unblocked x.2) (pending (q w0))))
  (λ o w, match o with Some c => ready None c w | None => holds true None [] [] 0 0 w end).
Proof.
  apply runs_read. intros w _. intros w1 (-> & -> & Hw). revert Hw.
  enough (triple (λ w, w = w0 ∧ holds true None [] [] 0 0 w) (match match position (λ x, unblocked x.2) (pending (q w0)) with Some i => remove_at i (pending (q w0)) | None => None end with
    | Some (c, rest) => modify (on_q (set_pending rest)) ;;; mret_ (Some c) | None => mret_ None end)
    (λ o w, match o with Some c => ready None c w | None => holds true None [] [] 0 0 w end)) as Ht by (intros Hw; by apply Ht).
  destruct (position _ _) as [i|] eqn:Ep; [|apply runs_ret; by intros w []].
  destruct (remove_at i _) as [[c r]|] eqn:E; [|apply runs_ret; by intros w []].
  apply position_split in Ep as (l1 & x & l2 & El & Hi & Hx & _). unfold remove_at in E. rewrite El, list_lookup_middle in E by done.
  injection E as -> <-. rewrite <-Hi, delete_middle.
  eapply (runs_bind _ _ _ (λ _, ready None c)); [|intros ?; by apply runs_ret].
  apply runs_modify. intros ? [-> Hw]. right. assert (is_append c.2 = false) as Ha by by destruct c as [? []].
  unfold append_weight. rewrite Ha. by apply (take_back _ _ _ _ _ _ l1 c l2 El).
Qed.

(** Nothing may be taken but what comes: while appends do not wait the queue is empty. *)
Definition idling w : Prop := ∃ b, (b = false → pending (q w) = []) ∧ holds b None [] [] 0 0 w.
Lemma from_receiver b c n w : (b = false → pending (q w) = []) → holds b None [] [c] n 0 w → n = append_weight c → ready None c w.
Proof.
  intros Hp Hw ->. destruct b; [by right|]. left. apply (back_to_front _ _ []); [|done]. rewrite Hp by done. by intros x y _ ?%elem_of_nil.
Qed.
Lemma neutral_idling {A} (m : Turn A) : still m → neutral m → triple idling m (λ _, idling).
Proof.
  intros Hs Hm. apply runs_ex. intros b.
  eapply (runs_mono _ (λ w, (λ l, b = false → l = []) (pending (q w)) ∧ holds b None [] [] 0 0 w)); [|done|].
  - apply (runs_still _ _ (λ _, holds b None [] [] 0 0) (λ l, b = false → l = [])); [done|apply Hm].
  - intros x w Hw. by exists b.
Qed.
Lemma runs_idle_compaction : triple idling idle_compaction (λ _, idling).
Proof.
  unfold idle_compaction. apply runs_look. intros w0 _. destruct (_ && _); [|by apply runs_ret].
  eapply runs_bind; [apply neutral_idling; [still|neutral]|]. intros [x|e].
  - apply runs_ex. intros b. eapply (runs_bind _ _ _ (λ _, holds b None [] [] 0 0)).
    + eapply runs_mono; [eapply (neutral_modify (on_d (set_capacity_progress true)))|by intros w []|done]. by constructor.
    + intros ?. eapply runs_bind; [apply neutral_observe|intros ?]. apply runs_look. intros w1 _.
      eapply runs_bind; [apply neutral_when; neutral|intros ?]. apply runs_leave. right. by eapply holds_quiet.
  - eapply runs_bind; [apply neutral_idling; [still|neutral]|]. intros e'. destruct (is_capacity_debt e').
    + apply runs_ex. intros b. eapply runs_mono; [|intros w [_ Hw]; exact Hw|intros x w Hw; exists true; split; [discriminate|exact Hw]].
      apply runs_note_capacity.
    + destruct (is_transient_storage e'); [|apply neutral_idling; [unfold set_failure; still|neutral]].
      apply runs_ex. intros b. eapply runs_mono; [|intros w [_ Hw]; exact Hw|intros ? w Hw; exact Hw].
      eapply runs_bind; [apply neutral_observe|intros ?]. apply runs_look. intros w1 _. apply runs_leave. right. by eapply holds_quiet.
Qed.
Lemma runs_wait t : triple idling (recv_timeout t) (λ o w, match o with Some c => ready None c w | None => at_rest w end).
Proof.
  apply runs_ex. intros b.
  eapply (runs_mono _ (λ w, (λ l, b = false → l = []) (pending (q w)) ∧ holds b None [] [] 0 0 w)); [|done|].
  - apply (runs_still _ _ (received b None [] 0 0) (λ l, b = false → l = [])); [still|apply recv_timeout_holds].
  - intros [c|] w [Hp Ht]; [by eapply from_receiver|by exists b].
Qed.
Lemma runs_idle : triple idling idle (λ c, ready None c).
Proof.
  unfold idle. eapply runs_bind; [apply runs_idle_compaction|intros ?].
  eapply runs_bind; [apply neutral_idling; [still|neutral]|intros ?]. apply runs_look. intros w0 _.
  eapply runs_bind; [apply neutral_idling; [unfold tell; still|neutral]|intros ?]. apply runs_look. intros w1 _. destruct (watches_funding w1).
  - eapply runs_bind; [apply neutral_idling; [unfold instant_now; still|neutral]|intros t]. eapply runs_bind; [apply runs_wait|].
    intros [c|]; apply runs_ret; [done|]. intros w [b Hb]. unfold default.
    assert (holds b None [(0, LifecycleWake)] [] 0 0 w) as Hf by by apply add_front.
    destruct b; [right; by apply holds_shift|by left].
  - eapply runs_bind; [apply runs_wait|]. intros [c|]; [by apply runs_ret|]. apply runs_leave. intros w [b Hb]. right. by eapply holds_quiet.
Qed.
Lemma or_take_runs (m k : Turn (option Sent)) P Q R : triple P m (λ o w, match o with Some c => R c w | None => Q w end) →
  triple Q k (λ o w, match o with Some c => R c w | None => idling w end) →
  triple P (or_take m k) (λ o w, match o with Some c => R c w | None => idling w end).
Proof. intros Hm Hk. eapply runs_bind; [apply Hm|]. intros [c|]; [by apply runs_ret|done]. Qed.
Lemma runs_next_command : triple at_rest next_command (λ c, ready None c).
Proof.
  unfold next_command.
  eapply (runs_bind _ _ _ (λ o w, match o with Some c => ready None c w | None => idling w end)); [|intros [c|]; [by apply runs_ret|apply runs_idle]].
  apply runs_ex. intros b. apply (or_take_runs _ _ _ (holds b None [] [] 0 0)).
  { eapply runs_mono; [apply runs_take_lifecycle|done|]. intros [c|] w; [|done]. intros [Hc Hw]. by eapply lane_ready. }
  apply runs_read. intros w0 Hw0. rewrite (h_blocked _ _ _ _ _ _ _ Hw0). destruct b.
  - rewrite andb_false_r. apply (or_take_runs _ _ _ (λ w, w = w0 ∧ holds true None [] [] 0 0 w)).
    { unfold take_pending. apply runs_look. intros ? _. by apply runs_ret. }
    apply (or_take_runs _ _ _ (holds true None [] [] 0 0)); [apply runs_take_unblocked|].
    eapply runs_mono; [apply try_recv_holds|done|]. intros [c|] w Ht; [by right|]. exists true. split; [discriminate|done].
  - apply (or_take_runs _ _ _ (holds false None [] [] 0 0)).
    { eapply runs_mono; [|intros w [_ Hw]; exact Hw|intros ? w Hw; exact Hw]. destruct (capacity_debt (d w0) && _).
      - eapply runs_mono; [apply runs_pop_front|done|]. intros [c|] w; [by left|by intros []].
      - unfold take_pending. apply runs_look. intros ? _. by apply runs_ret. }
    apply (or_take_runs _ _ _ (λ w, (λ l, l = []) (pending (q w)) ∧ holds false None [] [] 0 0 w)).
    { eapply runs_mono; [apply runs_pop_front|done|]. intros [c|] w; [by left|done]. }
    eapply (runs_mono _ (λ w, (λ l, l = []) (pending (q w)) ∧ holds false None [] [] 0 0 w)); [apply (runs_still _ _ (received false None [] 0 0) (λ l, l = [])); [still|apply try_recv_holds]|done|].
    intros [c|] w [Hp Ht]; [by eapply from_receiver|by exists false].
Qed.

(** ** Before the command is handled *)

Lemma neutral_ready {A} (m : Turn A) o c : neutral m → triple (ready o c) m (λ _, ready o c).
Proof.
  intros Hm. apply runs_or; (eapply runs_mono; [apply Hm|done|]); intros x w Hw; [by left|by right].
Qed.

Lemma settle_split (l : list Sent) id s k : settle_finalizes l id = (s, k) →
  l ≡ₚ s ++ k ∧ omap mark l = omap mark k ∧ Forall (λ c, finalizes id c.2 = true) s.
Proof.
  revert s k. induction l as [|c l IH]; intros s k; cbn [settle_finalizes]; [by intros [= <- <-]|].
  destruct (settle_finalizes l id) as [s' k']. destruct (IH _ _ eq_refl) as (Hp & Hm & Hf). rewrite omap_mark_cons, Hm.
  destruct (finalizes id c.2) eqn:E; intros [= <- <-].
  - split_and!; [by rewrite Hp|by destruct c as [? []]|by constructor].
  - split_and!; [|by rewrite omap_mark_cons|done]. rewrite Hp. by rewrite Permutation_middle.
Qed.
Lemma finalizes_lane id (c : Sent) : finalizes id c.2 = true → is_lane c.
Proof. destruct c as [? []]; try done. by eexists. Qed.
Lemma sum_unmarked (s : list Sent) id : Forall (λ c, finalizes id c.2 = true) s → sumN append_weight s = 0 ∧ omap mark s = [].
Proof.
  induction 1 as [|c s Hc Hs [IH1 IH2]]; [done|]. destruct (lane_quiet c) as [Ha Hm]; [by eapply finalizes_lane|].
  rewrite sumN_cons, omap_mark_cons, Ha, Hm, IH1, IH2. done.
Qed.
(** Finalizes leave the queue, or the lane, for the hand. *)
Lemma settle_pending b a f n p id s k w : settle_finalizes (pending (q w)) id = (s, k) → holds b a f [] n p w →
  holds b a (s ++ f) [] n p (with_pending k w).
Proof.
  intros E Hh. destruct (settle_split _ _ _ _ E) as (Hp & Hm & Hf). destruct (sum_unmarked _ _ Hf) as [Ha Hu]. unfold with_pending.
  carry Hh; rewrite ?Hp in *; simp_len; try lia; rewrite ?omap_app, ?Hm, ?Hu in *; done.
Qed.
Lemma settle_lane b a f n p id s k w : settle_finalizes (lifecycle_pending (q w)) id = (s, k) → holds b a f [] n p w →
  holds b a (s ++ f) [] n p (with_lane k w).
Proof.
  intros E Hh. destruct (settle_split _ _ _ _ E) as (Hp & _ & Hf). destruct (sum_unmarked _ _ Hf) as [Ha Hu]. unfold with_lane.
  carry Hh; rewrite ?Hp, ?omap_app in *; simp_len; try lia; rewrite ?Hu; try done.
  rewrite !Forall_app in *. tauto.
Qed.
Lemma runs_record b a f n p x c : pays x c → n ≤ sumN append_weight f →
  triple (holds b a (c :: f) [] n p) (record x) (λ _, holds b a f [] n (p + permit_weight c)).
Proof. intros Hx Hn. apply runs_modify. intros w Hw. apply (pay_front _ _ c); [done|done|]. by rewrite app_nil_r. Qed.
Lemma runs_release (permit : bool) b a f k n p :
  triple (holds b a f k n (p + (if permit then 1 else 0))) (release permit) (λ _, holds b a f k n p).
Proof.
  destruct permit; [apply runs_modify; intros w; apply release_holds|]. apply runs_ret. intros w. by rewrite N.add_0_r.
Qed.
Definition act_owed (reply : bool) (t : N) (x : Answer) (c : Sent) : Prop :=
  owes c.2 = reply ∧ c.1 = t ∧ is_append c.2 = false ∧ (act_mark (Answered t x) = None ∨ c.2 = Barrier).
Lemma owed_pays t x c : act_owed true t x c → pays (Answered t x) c.
Proof.
  intros (Ho & <- & Ha & Hm). split; [|split].
  - intros t. assert (due_of c = Some (c.1, None)) as E by (destruct c as [? []]; cbn in *; by rewrite ?Ho).
    unfold owed. by rewrite E.
  - unfold append_weight. by rewrite Ha.
  - destruct Hm as [Hm|Hm]; [by left|]. destruct c as [t c]. cbn in Hm. subst c. destruct x as [| | | | | |[]]; try (by left). by right.
Qed.
(** The sender is answered, or nobody waits. *)
Lemma runs_answer b a f n p reply t x c : act_owed reply t x c → n ≤ sumN append_weight f →
  triple (holds b a (c :: f) [] n p) (answer t reply x) (λ _, holds b a f [] n (p + permit_weight c)).
Proof.
  intros Hx Hn. destruct reply; [apply runs_record; [by apply owed_pays|done]|]. destruct Hx as (Ho & _).
  apply runs_ret. intros w Hw. apply drop_front; [done|done|by rewrite app_nil_r].
Qed.
Lemma runs_answer_settled b a f n p id (l : list Sent) : n ≤ sumN append_weight f → Forall (λ c, finalizes id c.2 = true) l →
  triple (holds b a (l ++ f) [] n p) (answer_settled l) (λ _, holds b a f [] n p).
Proof.
  intros Hn. induction 1 as [|[t c] l Hc Hl IH]; [by apply runs_ret|]. destruct c; try done. cbn [app answer_settled].
  eapply runs_bind; [apply (runs_answer _ _ _ _ _ _ _ _ (t, Finalize lifecycle_permit f0 reply)); [by split_and!; [done|done|done|left]|simp_len; lia]|].
  intros ?. eapply runs_bind; [apply runs_release|]. done.
Qed.
Lemma runs_settle_original b a f n p id : triple (holds b a f [] n p) (settle_original_finalize id) (λ _, holds b a f [] n p).
Proof.
  intros w0 Hw0. pose proof (h_hand _ _ _ _ _ _ _ Hw0) as Hn. rewrite app_nil_r in Hn. revert w0 Hw0.
  change (triple (holds b a f [] n p) (settle_original_finalize id) (λ _, holds b a f [] n p)). unfold settle_original_finalize. apply runs_read. intros w _. destruct (settle_finalizes _ id) as [s k] eqn:E.
  destruct (settle_split _ _ _ _ E) as (_ & _ & Hs).
  eapply (runs_bind _ _ _ (λ _, holds b a (s ++ f) [] n p)).
  { apply runs_modify. intros ? [-> Hw]. by eapply settle_pending. }
  intros ?. eapply runs_bind; [by eapply runs_answer_settled|intros ?]. clear w E. apply runs_read. intros w _.
  destruct (settle_finalizes _ id) as [s' k'] eqn:E. destruct (settle_split _ _ _ _ E) as (_ & _ & Hs').
  eapply (runs_bind _ _ _ (λ _, holds b a (s' ++ f) [] n p)).
  { apply runs_modify. intros ? [-> Hw]. by eapply settle_lane. }
  intros ?. by eapply runs_answer_settled.
Qed.
Lemma runs_push_front b a f n p c : n ≤ sumN append_weight f →
  triple (holds b a (f ++ [c]) [] (n + append_weight c) p) (push_front c) (λ _, holds b a f [] n p).
Proof. intros Hn. apply runs_modify. intros w Hw. by apply put_front. Qed.
Lemma runs_push_back b a f n p c : n ≤ sumN append_weight f →
  triple (holds b a f [c] (n + append_weight c) p) (push_back c) (λ _, holds b a f [] n p).
Proof. intros Hn. apply runs_modify. intros w Hw. by apply put_back. Qed.

(** A settled transaction lets the waiting commands go on; the one in hand is kept. *)
Lemma runs_reconciled c terminal (R : unit → World St → Prop) : triple (ready None c) (reconciled c terminal) R.
Proof.
  set (handy := λ b w, holds b None [c] [] (append_weight c) 0 w ∨ holds b None [] [c] (append_weight c) 0 w).
  assert (∀ b A (m : Turn A), neutral m → triple (handy b) m (λ _, handy b)) as Hn.
  { intros b A m Hm. apply runs_or; (eapply runs_mono; [apply Hm|done|]); intros x w Hw; [by left|by right]. }
  apply (runs_mono _ (λ w, ∃ b, handy b w) _ R R); [|intros w [Hw|Hw]; [exists false; by left|exists true; by right]|done].
  apply runs_ex. intros b. unfold reconciled.
  eapply runs_bind; [apply Hn; neutral|intros ?]. eapply runs_bind; [apply Hn; neutral|intros ?].
  eapply (runs_bind _ _ _ (λ _, handy false)).
  { apply runs_modify. intros w [Hw|Hw]; [left|right]; by eapply block_holds. }
  intros ?. eapply runs_bind; [apply Hn; neutral|intros ?].
  eapply (runs_bind _ _ _ (λ _, holds false None [c] [] (append_weight c) 0)).
  { apply runs_modify. intros w Hw. by apply reconciled_holds. }
  intros ?. eapply (runs_bind _ _ _ (λ _, holds false None [] [] 0 0)).
  - assert (triple (holds false None [c] [] (append_weight c) 0) (push_front c) (λ _, holds false None [] [] 0 0)) as Hfront.
    { apply (runs_push_front _ _ [] 0). lia. }
    destruct terminal as [id|]; [|done]. destruct (finalizes id c.2) eqn:E.
    + destruct (lane_quiet c) as [Ha _]; [by eapply finalizes_lane|]. rewrite Ha.
      eapply runs_bind; [apply runs_settle_original|intros ?]. eapply (runs_answer_settled _ _ [] _ _ id [c]); [done|by constructor].
    + eapply runs_bind; [apply runs_settle_original|intros ?]. done.
  - intros ?. apply runs_leave. right. by eapply holds_quiet.
Qed.

Lemma runs_reconcile_turn c : triple (ready None c) (reconcile_turn c) (λ _, ready None c).
Proof.
  unfold reconcile_turn. apply runs_look. intros w0 _. destruct (negb _); [by apply runs_ret|].
  eapply runs_bind; [apply neutral_ready; neutral|]. intros []; cbn [negb]; [|by apply runs_ret].
  eapply runs_bind; [apply neutral_ready; neutral|]. intros [[terminal|]|e].
  - apply runs_reconciled.
  - apply neutral_ready. neutral.
  - apply neutral_ready. neutral.
Qed.

(** *** While appends wait for space *)

Lemma push_back_hold b a f n p c i m : n ≤ sumN append_weight f →
  triple (hold b a f [c] (n + append_weight c) p i m) (push_back c) (λ _, hold b a f [] n p i (S m)).
Proof.
  intros Hn. apply runs_modify. intros w (Hh & Hi & Hm). split; [by apply put_back|].
  unfold incoming, backlog in *. fields. rewrite length_app. cbn [length]. lia.
Qed.
Lemma runs_taken {A} b a f n p i m (g : option Sent → Turn A) R :
  (∀ c i' m', i = S i' → m = S m' → triple (hold b a f [c] (n + append_weight c) p i' m') (g (Some c)) R) →
  triple (hold b a f [] n p i m) (g None) R → triple (hold b a f [] n p i m) (let* c := try_recv in g c) R.
Proof.
  intros Hs Hn. eapply runs_bind; [apply try_recv_hold|]. intros [c|]; [|done].
  intros w (i' & m' & -> & -> & Hw). by eapply Hs.
Qed.
Lemma runs_drain_bounded fuel b a f n p i m : n ≤ sumN append_weight f → (i < fuel)%nat →
  triple (hold b a f [] n p i m) (drain_receiver fuel) (λ _, holds b a f [] n p).
Proof.
  intros Hn. revert i m. induction fuel as [|fuel IH]; intros i m Hi; [lia|]. cbn [drain_receiver]. apply runs_taken.
  - intros c i' m' -> ->. eapply runs_bind; [by apply push_back_hold|]. intros ?. apply IH. lia.
  - apply runs_ret. by intros w [].
Qed.
Lemma runs_drain b a f n p w0 : n ≤ sumN append_weight f →
  triple (λ w, w = w0 ∧ holds b a f [] n p w) (drain_receiver (S (backlog w0))) (λ _, holds b a f [] n p).
Proof.
  intros Hn w [-> Hw]. eapply (runs_drain_bounded _ _ _ _ _ _ (incoming w0)); [done| |by apply hold_here].
  unfold incoming, backlog. lia.
Qed.
Lemma unmarked_of (c : Sent) : match c.2 with Append _ _ _ | Barrier => False | _ => True end → mark c = None ∧ append_weight c = 0.
Proof. by destruct c as [? []]. Qed.

(** A command behind the queue joins it. *)
Lemma runs_requeue {A} c (R : A → World St → Prop) : triple (holds true None [] [c] (append_weight c) 0)
  (block false ;;; push_back c ;;; leave NextTurn) R.
Proof.
  eapply runs_bind; [apply runs_block|intros ?]. eapply runs_bind; [by apply (runs_push_back _ _ [] 0)|intros ?].
  apply runs_leave. right. by eapply holds_quiet.
Qed.
Definition behind (c : Sent) : World St → Prop := holds true None [] [c] (append_weight c) 0.
Lemma runs_recheck_identity c : triple (behind c) (recheck_identity c) (λ _, behind c).
Proof.
  unfold recheck_identity. apply runs_look. intros w0 _. destruct (failed w0); [by apply runs_ret|].
  eapply runs_bind; [apply neutral_due|]. intros []; cbn [negb]; [|by apply runs_ret].
  eapply runs_bind; [apply neutral_call|]. intros [x|e].
  - eapply runs_bind; [apply neutral_retry_at|intros ?]. apply runs_requeue.
  - apply by_neutral. neutral.
Qed.
Lemma runs_recheck_funding c : triple (behind c) (recheck_funding c) (λ _, behind c).
Proof.
  unfold recheck_funding. apply runs_look. intros w0 _. destruct (failed w0 || _); [by apply runs_ret|].
  eapply runs_bind; [apply neutral_call|]. intros [x|e]; [|by apply runs_ret].
  destruct (match blocked_funding (d w0) with Some _ => _ | None => _ end); [apply runs_requeue|by apply runs_ret].
Qed.
Definition settled_ready (o : option Sent) (c : Sent) w : Prop :=
  holds false o [c] [] (append_weight c) 0 w ∨ is_append c.2 = false ∧ holds true o [] [c] 0 0 w.
Lemma runs_blocked_turn c : triple (ready None c) (blocked_turn c) (λ _, settled_ready None c).
Proof.
  unfold blocked_turn. apply runs_read. intros w0 Hw0. destruct (capacity_blocked (sh w0)) eqn:Eb; cbn [negb].
  2: { apply runs_ret. intros w [-> [Hw|Hw]]; [by left|]. pose proof (h_blocked _ _ _ _ _ _ _ Hw). congruence. }
  assert (∀ w, w = w0 ∧ ready None c w → w = w0 ∧ behind c w) as Hb.
  { intros w [-> [Hw|Hw]]; [|done]. pose proof (h_blocked _ _ _ _ _ _ _ Hw). congruence. }
  eapply (runs_bind _ _ _ (λ _, behind c)).
  { eapply runs_mono; [|exact Hb|intros x w Hw; exact Hw]. destruct c as [t []]; try (apply runs_ret; by intros w []).
    set (c := (t, Finalize lifecycle_permit f reply)). unfold behind. change (append_weight c) with 0.
    eapply runs_mono; [apply (runs_drain true None [c] 0 0 w0); cbn; lia| |].
    - intros w [-> Hw]. split; [done|]. by apply holds_shift.
    - intros x w Hw. by apply holds_shift. }
  intros ?. eapply runs_bind; [apply runs_recheck_identity|intros ?]. eapply runs_bind; [apply runs_recheck_funding|intros ?].
  apply runs_look. intros w1 _. destruct (is_append c.2 || _) eqn:E.
  - assert (triple (behind c) (release (has_permit c.2)) (λ _, holds true None [] [without_permit c] (append_weight (without_permit c)) 0)) as Hr.
    { intros w Hw. destruct (strip_back _ _ _ _ _ _ Hw) as [Hs Ha]. rewrite Ha. by apply (runs_release (has_permit c.2)). }
    eapply runs_bind; [exact Hr|intros ?]. eapply runs_bind; [by apply (runs_push_back _ _ [] 0)|intros ?].
    apply runs_leave. right. by eapply holds_quiet.
  - apply runs_ret. intros w Hw. right. apply orb_false_iff in E as [E _]. split; [done|].
    unfold behind, append_weight in Hw. by rewrite E in Hw.
Qed.

(** *** What a Finalize waits for *)

Lemma no_output id l (y : N * Mark) : Forall (λ x : Sent, appends_to id x.2 = false) l → y ∈ omap mark l → y.2 ≠ OutputOf id.
Proof.
  intros Hl ([t c] & Hx & Hm)%list_elem_of_omap. rewrite Forall_forall in Hl. specialize (Hl _ Hx).
  destruct c; try done; injection Hm as <-; [|done]. cbn in *. apply bool_decide_eq_false in Hl. by intros [= ->].
Qed.
Lemma append_of id (c : Sent) : appends_to id c.2 = true → append_weight c = 1 ∧ mark c = Some (c.1, OutputOf id).
Proof. destruct c as [t []]; try done. cbn. intros ->%bool_decide_eq_true. done. Qed.
Definition required id b a f n p m (o : option Sent) w : Prop :=
  match o with
  | Some c => appends_to id c.2 = true ∧ ∃ i' m', m = S m' ∧ hold b a (f ++ [c]) [] (n + 1) p i' m' w
  | None => holds b a f [] n p w
  end.
Lemma skipped id b a f n p c w : Forall (λ x : Sent, appends_to id x.2 = false) (pending (q w)) → appends_to id c.2 = true →
  holds b a f [c] (n + append_weight c) p w → holds b a (f ++ [c]) [] (n + 1) p w.
Proof.
  intros Hl Hc Hw. destruct (append_of _ _ Hc) as [Ha Hm]. rewrite Ha in Hw. apply back_to_front; [|done].
  rewrite Hm. intros x y [= <-] Hy Hf. destruct y as [t y]. pose proof (no_output _ _ _ Hl Hy) as Hn. cbn in *. by destruct y; subst.
Qed.
Lemma runs_hunt fuel id b a f n p i m : n ≤ sumN append_weight f → (i < fuel)%nat →
  triple (λ w, Forall (λ x : Sent, appends_to id x.2 = false) (pending (q w)) ∧ hold b a f [] n p i m w)
    (hunt_append fuel id) (required id b a f n p m).
Proof.
  intros Hn. revert i m. induction fuel as [|fuel IH]; intros i m Hi; [lia|]. cbn [hunt_append].
  eapply runs_bind.
  { apply (runs_still _ _ (taken b a f n p i m) (Forall (λ x : Sent, appends_to id x.2 = false))); [still|apply try_recv_hold]. }
  intros [c|].
  - intros w [Hl (i' & m' & -> & -> & Hw)]. destruct (appends_to id c.2) eqn:Ec.
    + split; [done|]. exists i', m'. split; [done|]. destruct Hw as (Hh & ? & ?). split; [by eapply skipped|done].
    + revert w Hl Hw. assert (triple (λ w, Forall (λ x : Sent, appends_to id x.2 = false) (pending (q w)) ∧ hold b a f [c] (n + append_weight c) p i' m' w)
        (push_back c ;;; hunt_append fuel id) (required id b a f n p (S m'))) as Ht; [|intros w ??; by apply Ht].
      eapply runs_bind; [|intros ?; apply (IH i'); lia].
      apply runs_modify. intros w [Hl (Hh & Hi' & Hm')]. split.
      * fields. apply Forall_app. split; [done|by constructor].
      * split; [by apply put_back|]. unfold incoming, backlog in *. fields. rewrite length_app. cbn [length]. lia.
  - apply runs_ret. by intros w [_ []].
Qed.
Lemma runs_required id b a f n p i m : n ≤ sumN append_weight f →
  triple (hold b a f [] n p i m) (take_required_append id) (required id b a f n p m).
Proof.
  intros Hn. unfold take_required_append. apply runs_read. intros w0 Hw0. destruct (position _ _) as [j|] eqn:E.
  - apply position_split in E as (l1 & c & l2 & El & Hj & Hc & Hl1). unfold take_pending. apply runs_read. intros w [-> _].
    unfold remove_at. rewrite El, list_lookup_middle by done. rewrite <-Hj, delete_middle.
    eapply (runs_bind _ _ _ (λ _, required id b a f n p m (Some c))); [|intros ?; by apply runs_ret].
    apply runs_modify. intros w (-> & _ & Hh & Hi & Hm). split; [done|]. destruct (append_of _ _ Hc) as [Ha Hmk].
    exists i, (Nat.pred m). unfold incoming, backlog in *. rewrite El, length_app in Hm. cbn [length] in Hm.
    split; [lia|]. split; [|unfold incoming, backlog; fields; rewrite length_app; unfold Sent in *; lia].
    rewrite <-Ha. apply (take_front _ _ _ _ _ _ l1 c l2 El); [|done].
    rewrite Hmk. intros x y [= <-] Hy Hf. destruct y as [t y]. pose proof (no_output _ _ _ Hl1 Hy). cbn in *. by destruct y; subst.
  - apply position_none in E. eapply runs_mono; [apply (runs_hunt _ id b a f n p (incoming w0) m Hn)| |done].
    + unfold incoming, backlog. lia.
    + intros w [-> (Hh & _ & Hm)]. done.
Qed.
Lemma runs_set_aside (o : option Sent) (P Q : World St → Prop) : (∀ w, P w → Q (with_aside o w)) → triple P (set_aside o) (λ _, Q).
Proof. intros Hp. by apply runs_modify. Qed.
Lemma runs_settle_prefix c : triple (settled_ready None c) (settle_prefix c)
  (λ c' w, ∃ o, (o ≠ None → is_append c'.2 = true) ∧ settled_ready o c' w).
Proof.
  assert (∀ c w, settled_ready None c w → ∃ o, (o ≠ None → is_append c.2 = true) ∧ settled_ready o c w) as Hn by (intros ???; by exists None).
  unfold settle_prefix. apply runs_read. intros w0 Hw0. destruct c as [t []]; try (apply runs_ret; intros w [_ Hw]; by apply Hn).
  set (c := (t, Finalize lifecycle_permit f reply)) in *. cbn [snd c]. destruct (_ || _) eqn:E; [apply runs_ret; intros w [_ Hw]; by apply Hn|].
  apply orb_false_iff in E as [Eb _].
  eapply (runs_mono _ (holds false None [c] [] 0 0)); [| |intros ?? Hw; exact Hw].
  2: { intros w [-> [Hw|[_ Hw]]]; [done|]. pose proof (h_blocked _ _ _ _ _ _ _ Hw). congruence. }
  assert (∀ w, holds false None [c] [] 0 0 w → ∃ o, (o ≠ None → is_append c.2 = true) ∧ settled_ready o c w) as Hself by (intros w Hw; apply Hn; by left).
  eapply runs_bind; [apply neutral_call|]. intros [head|e]; [|by apply runs_ret]. case_decide; [|by apply runs_ret].
  eapply runs_bind; [apply (runs_set_aside _ _ (holds false (Some c) [] [] 0 0)); intros w Hw; by apply (put_aside _ []); [|eexists|]|]. intros ?.
  eapply (runs_bind _ _ _ (λ o w, ∃ m, required (final_run f) false (Some c) [] 0 0 m o w)).
  { apply runs_any. intros i m. eapply runs_mono; [apply (runs_required (final_run f) false (Some c) [] 0 0); cbn; lia|done|]. intros o w Hw. by exists m. }
  intros [ap|].
  - apply runs_ret. intros w (m & Hx & i' & m' & _ & Hw & _). exists (Some c). destruct (append_of _ _ Hx) as [Ha _].
    split; [by destruct ap as [? []]|]. left. by rewrite Ha.
  - eapply (runs_mono _ (holds false (Some c) [] [] 0 0)); [|by intros w (m & Hw)|intros ?? Hw; exact Hw].
    apply runs_look. intros w1 Hw1. rewrite (h_aside _ _ _ _ _ _ _ Hw1).
    eapply runs_bind; [apply (runs_set_aside _ _ (holds false None [c] [] 0 0)); intros w Hw; by destruct (take_aside _ _ _ _ _ Hw)|].
    intros ?. by apply runs_ret.
Qed.

(** ** Batches *)

Definition hand (batch : list Batched) : list Sent := map batched_append batch.
Definition kept_credits (held : bool) (batch : list Batched) : N := if held then len batch else 0.
Definition batch_held b (keeps : bool) o (batch : list Batched) : World St → Prop :=
  holds b o (hand batch) [] (kept_credits keeps batch) 0.
Lemma hand_weight batch : sumN append_weight (hand batch) = len batch.
Proof. induction batch as [|[t [[id replay] head]] l IH]; [done|]. cbn [hand map]. rewrite sumN_cons, len_cons. fold (hand l). rewrite IH. done. Qed.
Lemma kept_le keeps batch : kept_credits keeps batch ≤ sumN append_weight (hand batch).
Proof. rewrite hand_weight. destruct keeps; cbn; lia. Qed.
Lemma hand_snoc batch t id replay head : hand (batch ++ [(t, (id, replay, head))]) = hand batch ++ [(t, Append id replay head)].
Proof. unfold hand. by rewrite map_app. Qed.

Lemma hold_holds {A} b a f k n p i m (x : Turn A) R : triple (holds b a f k n p) x R → triple (hold b a f k n p i m) x R.
Proof. intros Hx w (Hw & _). by apply Hx. Qed.
Lemma runs_spend b o f n m : triple (holds b o f [] (n + m) 0) (spend m) (λ _, holds b o f [] n 0).
Proof. apply runs_modify. intros w. apply spend_holds. Qed.
Lemma spend_hold b o f n m i j : triple (hold b o f [] (n + m) 0 i j) (spend m) (λ _, hold b o f [] n 0 i j).
Proof. apply runs_modify. intros w (Hw & ? & ?). split; [by apply spend_holds|done]. Qed.
Lemma arrived_hold f n i m o : n ≤ sumN append_weight f →
  triple (hold false o f [] n 0 i m) lifecycle_arrived (λ _ w, ∃ o', hold false o' f [] n 0 i m w).
Proof.
  intros Hn. unfold lifecycle_arrived. apply runs_look. intros w0 (Hw0 & _). rewrite (h_aside _ _ _ _ _ _ _ Hw0).
  destruct (lifecycle_pending _); [|apply runs_ret; intros w Hw; by exists o]. destruct o as [c|]; [apply runs_ret; intros w Hw; by exists (Some c)|].
  eapply (runs_bind _ _ _ (λ x w, match x with Some c => is_lane c ∧ hold false None (f ++ [c]) [] n 0 i m w | None => hold false None f [] n 0 i m w end)).
  - eapply runs_bind; [apply runs_observe|]. intros ?. apply runs_read. intros w _. destruct (lifecycle_rx (sh w)) as [|c r] eqn:Er.
    + apply runs_ret. by intros ? [-> ?].
    + eapply (runs_bind _ _ _ (λ _ w', is_lane c ∧ hold false None (f ++ [c]) [] n 0 i m w')); [|intros ?; by apply runs_ret].
      apply runs_modify. intros ? [-> (Hw & Hi & Hm)]. destruct (pop_lane _ _ _ _ _ _ _ _ Er Hw) as [Hp Hc]. by split_and!.
  - intros [c|]; [|apply runs_ret; intros w Hw; by exists None].
    eapply (runs_bind _ _ _ (λ _, hold false (Some c) f [] n 0 i m)); [|intros ?; apply runs_ret; intros w Hw; by exists (Some c)].
    apply runs_modify. intros w (Hc & Hw & Hi & Hm). split; [by apply put_aside|done].
Qed.
Definition grown f n m b o (x : option Sent) w : Prop :=
  match x with
  | Some c => ∃ i' m', m = S m' ∧ hold b o (f ++ [c]) [] (n + append_weight c) 0 i' m' w
  | None => holds b o f [] n 0 w
  end.
Lemma pop_front_grown b o f n i m : triple (hold b o f [] n 0 i m) (take_pending (Some O))
  (λ x w, match x with Some c => grown f n m b o (Some c) w | None => pending (q w) = [] ∧ hold b o f [] n 0 i m w end).
Proof.
  apply runs_read. intros w _. destruct (remove_at O (pending (q w))) as [[c r]|] eqn:E.
  - apply remove_at_split in E as ([|] & l2 & El & -> & Hl); [|done].
    eapply (runs_bind _ _ _ (λ _, grown f n m b o (Some c))); [|intros ?; by apply runs_ret].
    apply runs_modify. intros ? [-> (Hw & Hi & Hm)]. unfold incoming, backlog in Hi, Hm. rewrite El in Hm. cbn [length app] in Hm.
    exists i, (Nat.pred m). split; [lia|]. split; [|unfold incoming, backlog; fields; cbn [app]; lia].
    apply (take_front _ _ _ _ _ _ [] c l2 El); [|done]. by intros x y _ ?%elem_of_nil.
  - apply runs_ret. intros ? [-> Hw]. split; [|done]. unfold remove_at in E. by destruct (pending (q w)).
Qed.
Lemma runs_next_of_batch first deadline f n i m o : n ≤ sumN append_weight f →
  triple (hold false o f [] n 0 i m) (next_of_batch first deadline) (grown f n m false o).
Proof.
  intros Hn. unfold next_of_batch. apply runs_look. intros w0 (Hw0 & _). rewrite (h_aside _ _ _ _ _ _ _ Hw0).
  assert (triple (hold false o f [] n 0 i m) (mret_ None) (grown f n m false o)) as Hnone by (apply runs_ret; by intros w []).
  destruct o as [[t []]|]; try done.
  - case_decide; [|done]. eapply runs_mono; [by apply runs_required|done|]. intros [x|] w; [|done].
    intros [Hx Hw]. destruct (append_of _ _ Hx) as [Ha _]. cbn. by rewrite Ha.
  - eapply runs_bind; [apply instant_now_hold|]. intros t. case_decide; [done|].
    eapply runs_bind; [apply pop_front_grown|]. intros [c|]; [by apply runs_ret|].
    eapply (runs_mono _ (λ w, (λ l, l = []) (pending (q w)) ∧ hold false None f [] n 0 i m w)).
    + apply (runs_still _ _ (taken false None f n 0 i m) (λ l, l = [])); [still|apply recv_timeout_hold].
    + done.
    + intros [c|] w [Hp Ht]; [|by destruct Ht]. destruct Ht as (i' & m' & -> & -> & Hw & ? & ?). exists i', m'. split; [done|].
      split; [|done]. apply back_to_front; [|done]. rewrite Hp. by intros x y _ ?%elem_of_nil.
Qed.
Lemma runs_collect fuel keeps first deadline batch payload i m o : (m < fuel)%nat →
  triple (hold false o (hand batch) [] (kept_credits keeps batch) 0 i m) (collect fuel keeps first deadline batch payload)
    (λ batch' w, ∃ o', batch_held false keeps o' batch' w).
Proof.
  revert batch payload i m o. induction fuel as [|fuel IH]; intros batch payload i m o Hf; [lia|]. cbn [collect].
  assert (∀ o, triple (holds false o (hand batch) [] (kept_credits keeps batch) 0) (mret_ batch) (λ batch' w, ∃ o', batch_held false keeps o' batch' w)) as Hret.
  { intros o'. apply runs_ret. intros w Hw. by exists o'. }
  case_decide; [by apply hold_holds|].
  eapply runs_bind; [apply arrived_hold, kept_le|]. intros stop. apply runs_ex. intros o'. destruct stop; [by apply hold_holds|].
  eapply runs_bind; [apply runs_next_of_batch, kept_le|]. intros [c|]; [|by apply Hret].
  apply runs_ex. intros i'. apply runs_ex. intros m'. apply runs_pure. intros ->.
  assert (triple (hold false o' (hand batch ++ [c]) [] (kept_credits keeps batch + append_weight c) 0 i' m') (push_front c ;;; mret_ batch)
    (λ batch' w, ∃ o', batch_held false keeps o' batch' w)) as Hback.
  { apply hold_holds. eapply runs_bind; [apply runs_push_front, kept_le|]. intros ?. apply Hret. }
  destruct c as [t []]; try done. case_decide; [|done]. rewrite <-hand_snoc.
  eapply (runs_bind _ _ _ (λ _, hold false o' (hand (batch ++ [(t, (id, replay, durable_head))])) []
    (kept_credits keeps (batch ++ [(t, (id, replay, durable_head))])) 0 i' m')).
  - destruct keeps; cbn [negb when kept_credits]; [|apply (spend_hold _ _ _ 0 1)]. apply runs_ret. intros w. by rewrite len_app.
  - intros ?. apply IH. lia.
Qed.

(** The books see of a batch only the numbers and the Runs. *)
Definition tag (b : Batched) : N * RunId := (b.1, b.2.1.1).
Lemma retag b keeps o batch batch' w : map tag batch' = map tag batch → batch_held b keeps o batch w → batch_held b keeps o batch' w.
Proof.
  intros Ht Hw. unfold batch_held in *.
  assert (∀ f g : Sent → N, (∀ x, f (batched_append x) = g (0, Append (tag x).2 {| replay_chunks := []; replay_first_available_byte := 0;
     replay_latest_output_bytes := 0; replay_truncated := false |} (tag x).1)) → sumN f (hand batch') = sumN f (hand batch)) as Hs.
  { intros f g Hf. clear Hw. revert batch Ht. induction batch' as [|x l IH]; intros [|y l'] Ht; try done.
    injection Ht as Hx1 Hx2 Ht. cbn [hand map]. rewrite !sumN_cons, !Hf. unfold tag. rewrite Hx1, Hx2. f_equal. by apply IH. }
  assert (omap mark (hand batch') = omap mark (hand batch)) as Hm.
  { clear Hw Hs. revert batch Ht. induction batch' as [|[t [[id ?] ?]] l IH]; intros [|[t' [[id' ?] ?]] l'] Ht; try done.
    injection Ht as -> -> Ht. cbn. f_equal. by apply IH. }
  assert (len batch' = len batch) as Hl by (by rewrite <-(len_map tag), Ht, len_map).
  assert (kept_credits keeps batch' = kept_credits keeps batch) as Hk by (unfold kept_credits; by rewrite Hl). rewrite Hk.
  assert (sumN append_weight (hand batch') = sumN append_weight (hand batch)) as Ha by (by rewrite !hand_weight).
  assert (sumN permit_weight (hand batch') = sumN permit_weight (hand batch)) as Hp.
  { apply (Hs _ (λ _, 0)). by intros [? [[? ?] ?]]. }
  assert (∀ t, sumN (owed t) (hand batch') = sumN (owed t) (hand batch)) as Ho.
  { intros t. apply (Hs _ (λ x, match x.2 with Append id _ c => if bool_decide (Some ((c : N), Some id) = Some t) then 1 else 0 | _ => 0 end)).
    by intros [? [[? ?] ?]]. }
  carry Hw; rewrite ?Ho, ?Hm; try done; lia.
Qed.
Lemma runs_trim b keeps o batch : triple (batch_held b keeps o batch) (trim_batch batch)
  (λ batch' w, map tag batch' = map tag batch ∧ batch_held b keeps o batch w).
Proof.
  unfold batch_held. generalize (hand batch) (kept_credits keeps batch). intros f n.
  induction batch as [|[t [[id replay] head]] l IH]; [by apply runs_ret|]. cbn [trim_batch].
  eapply runs_bind; [apply neutral_call|]. intros ex. eapply runs_bind.
  { eapply (by_neutral (match ex with Ok false => mret_ replay | _ => _ end)). neutral. }
  intros replay'. eapply runs_bind; [apply IH|]. intros l'. apply runs_ret. intros w [Ht Hw]. split; [|done].
  cbn [map]. by rewrite Ht.
Qed.
Lemma runs_keep_batch b keeps o batch : triple (batch_held b keeps o batch) (keep_batch keeps batch) (λ _, holds b o [] [] 0 0).
Proof.
  unfold keep_batch. eapply (runs_bind _ _ _ (λ _, holds b o (hand batch) [] (sumN append_weight (hand batch)) 0)).
  - rewrite hand_weight. destruct keeps; [by apply runs_ret|]. apply runs_modify. intros w Hw.
    apply (credit_holds _ _ _ _ 0); [done|]. rewrite app_nil_r, hand_weight. lia.
  - intros ?. eapply runs_bind; [eapply (neutral_modify (on_d (set_capacity_debt true))); by constructor|]. intros ?.
    apply runs_modify. intros w Hw. by apply put_batch.
Qed.
Lemma runs_record_settled b o batch : triple (holds b o (hand batch) [] 0 0) (record_settled batch) (λ _, holds b o [] [] 0 0).
Proof.
  induction batch as [|[t [[id replay] head]] l IH]; [by apply runs_ret|]. cbn [record_settled hand map].
  eapply runs_bind; [|intros ?; apply IH].
  eapply runs_mono; [apply (runs_record b o (hand l) 0 0 (Settled t id) (t, Append id replay head)); [|lia]|done|done].
  split; [|split; [done|by right]]. done.
Qed.
Lemma neutral_offer_result r : neutral (match r with Ok b => mret_ (Ok b) | Err e => let* e := call (capacity_error e) in mret_ (Err e) end : Turn (result bool PersistenceError)).
Proof. neutral. Qed.
Lemma leave_kept {A} b keeps o batch (m : Turn unit) (R : A → World St → Prop) : neutral m →
  triple (batch_held b keeps o batch) (keep_batch keeps batch ;;; m ;;; leave NextTurn) R.
Proof.
  intros Hm. eapply runs_bind; [apply runs_keep_batch|intros ?]. eapply runs_bind; [apply Hm|intros ?].
  apply runs_leave. intros w Hw. right. by exists b, o.
Qed.
Lemma yield_holds v b a f k n p w : holds b a f k n p w → holds b a f k n p (on_q (set_lifecycle_yielded v) w).
Proof. intros Hh. carry Hh. Qed.
Lemma neutral_yield g : neutral (modify (on_q (λ x, set_lifecycle_yielded (g x) x))).
Proof. intros b a f k n p. apply runs_modify. intros w. apply yield_holds. Qed.
Hint Resolve neutral_yield : neutral.
Lemma runs_offer keeps o batch : triple (batch_held false keeps o batch) (offer_batch keeps batch) (λ _, batch_held false keeps o batch).
Proof.
  unfold offer_batch. eapply runs_bind; [apply neutral_retrying|]. intros [r|]; [|apply by_neutral; neutral].
  eapply runs_bind; [apply neutral_offer_result|]. intros r'. eapply runs_bind; [apply neutral_observe|intros ?].
  apply runs_look. intros w0 _. destruct r' as [[]|e].
  - apply by_neutral. neutral.
  - apply leave_kept, neutral_yield.
  - destruct (_ && _); [apply by_neutral; neutral|]. destruct (is_capacity_debt e); [|apply by_neutral; neutral].
    eapply runs_bind; [apply runs_note_capacity|]. intros ?. eapply runs_bind; [apply runs_keep_batch|intros ?].
    apply runs_leave. intros w Hw. right. by exists true, o.
Qed.

(** A triple that ends between turns, or leaves the turn. *)
Lemma quiet_neutral {A} (m : Turn A) : neutral m → triple quiet m (λ _, quiet).
Proof. intros Hm. apply runs_ex. intros b. apply runs_ex. intros a. eapply runs_mono; [apply Hm|done|]. intros ? w. apply holds_quiet. Qed.
Lemma runs_kept b o batch : triple (batch_held b true o batch) (spend (len batch) ;;; record_settled batch) (λ _, quiet).
Proof.
  unfold batch_held. cbn [kept_credits]. eapply runs_bind; [apply (runs_spend _ _ _ 0)|intros ?].
  eapply runs_mono; [apply runs_record_settled|done|]. intros ? w. apply holds_quiet.
Qed.
Lemma runs_append_turn o t id replay head :
  triple (holds false o [(t, Append id replay head)] [] 1 0) (append_turn (t, (id, replay, head))) (λ _, quiet).
Proof.
  unfold append_turn. set (c := (t, (id, replay, head)) : Batched). apply runs_look. intros w0 _. set (keeps := capacity_debt (d w0)).
  eapply (runs_bind _ _ _ (λ _, batch_held false keeps o [c])).
  { unfold batch_held. destruct keeps; [by apply runs_ret|]. apply (runs_spend _ _ _ 0 1). }
  intros ?. eapply runs_bind; [apply by_neutral, neutral_instant_now|intros start].
  apply runs_read. intros w1 _. eapply (runs_bind _ _ _ (λ batch w, ∃ o', batch_held false keeps o' batch w)).
  { eapply runs_mono; [apply (runs_collect (S (backlog w1)) keeps id _ [c] _ (incoming w1) (backlog w1) o); lia| |done].
    intros w [-> Hw]. by apply hold_here. }
  intros batch. apply runs_ex. intros o'. eapply (runs_bind _ _ _ (λ batch', batch_held false keeps o' batch')).
  { destruct keeps; [|by apply runs_ret]. eapply runs_mono; [apply runs_trim|done|]. intros batch' w [Ht Hw]. by eapply retag. }
  intros batch'. apply runs_look. intros w2 _. eapply (runs_bind _ _ _ (λ _, batch_held false keeps o' batch')).
  { destruct (negb _); [apply runs_offer|by apply runs_ret]. }
  intros ?. apply runs_look. intros w3 _. destruct (failed w3).
  - eapply runs_bind; [apply runs_keep_batch|intros ?]. eapply runs_bind; [apply runs_block|intros ?].
    eapply runs_bind; [apply by_neutral; neutral|intros ?]. apply runs_leave. intros w Hw. right. by eapply holds_quiet.
  - destruct keeps; [apply runs_kept|]. eapply (runs_bind _ _ _ (λ _, batch_held false false o' batch')); [by apply runs_ret|intros ?].
    eapply runs_mono; [apply runs_record_settled|done|]. intros ? w. apply holds_quiet.
Qed.

(** ** The other commands *)

Definition whether f n p w : Prop := ∃ b, holds b None f [] n p w.
Lemma whether_neutral {A} (m : Turn A) f n p : neutral m → triple (whether f n p) m (λ _, whether f n p).
Proof. intros Hm. apply runs_ex. intros b. eapply runs_mono; [apply Hm|done|]. intros ? w Hw. by exists b. Qed.
Lemma whether_quiet w : whether [] 0 0 w → quiet w.
Proof. intros [b Hw]. by eapply holds_quiet. Qed.
Lemma whether_block b f n p : triple (whether f n p) (block b) (λ _, whether f n p).
Proof. apply runs_ex. intros b'. eapply runs_mono; [apply runs_block|done|]. intros ? w Hw. by exists b. Qed.
Lemma whether_leave {A} l (R : A → World St → Prop) : triple (whether [] 0 0) (leave l) R.
Proof. apply runs_leave. intros w Hw. right. by apply whether_quiet. Qed.
(** Any command but output and barriers is handled as if it came before the queue. *)
Lemma settled_whether c w : mark c = None → settled_ready None c w → whether [c] 0 0 w.
Proof.
  intros Hm [Hw|[_ Hw]]; [|exists true; by apply holds_shift]. rewrite (mark_append _ Hm) in Hw. by exists false.
Qed.
Lemma whether_answer t reply x c : act_owed reply t x c → triple (whether [c] 0 0) (answer t reply x) (λ _, whether [] 0 (permit_weight c)).
Proof.
  intros Hx. apply runs_ex. intros b. eapply runs_mono; [apply (runs_answer b None [] 0 0 reply t x c Hx); done|done|]. intros ? w Hw. by exists b.
Qed.
Lemma whether_release (permit : bool) : triple (whether [] 0 (if permit then 1 else 0)) (release permit) (λ _, whether [] 0 0).
Proof. apply runs_ex. intros b. eapply runs_mono; [apply (runs_release permit b None [] [] 0 0)|done|]. intros ? w Hw. by exists b. Qed.

Lemma runs_read_replay t permit id after through :
  triple (whether [(t, ReadReplay permit id after through)] 0 0) (read_replay_turn t permit id after through) (λ _, whether [] 0 0).
Proof.
  unfold read_replay_turn. eapply runs_bind; [apply whether_neutral; neutral|intros committed].
  eapply runs_bind; [apply whether_neutral; neutral|intros r].
  eapply runs_bind; [by apply (whether_answer _ true _ (t, ReadReplay permit id after through)); split_and!; [..|left]|intros ?]. apply whether_release.
Qed.
Lemma runs_forget l n p : triple (whether [] n p) (forget_candidates l) (λ _, whether [] n p).
Proof.
  induction l as [|x l IH]; [by apply runs_ret|]. cbn [forget_candidates].
  eapply runs_bind; [apply whether_neutral; neutral|intros [[]|e]]; (eapply runs_bind; [|intros ?; apply IH]); try by apply runs_ret.
  unfold funded. eapply runs_bind; [eapply runs_bind; [apply whether_block|intros ?]; apply whether_neutral; neutral|intros ?]. apply whether_neutral. neutral.
Qed.
Lemma runs_stage_start t r : triple (whether [(t, StageStart r)] 0 0) (stage_start_turn t r) (λ _, whether [] 0 0).
Proof.
  assert (∀ x, act_mark (Answered t x) = None → triple (whether [(t, StageStart r)] 0 0) (answer t true x) (λ _, whether [] 0 (if stage_permit r then 1 else 0))) as Ha.
  { intros x Hx. apply (whether_answer t true x (t, StageStart r)). split_and!; [done..|by left]. }
  unfold stage_start_turn. apply runs_look. intros w0 _. destruct (latch (sh w0)).1.
  { eapply runs_bind; [apply whether_neutral; neutral|intros ?].
    eapply runs_bind; [by apply Ha|intros ?]. eapply runs_bind; [apply whether_release|intros ?]. apply whether_leave. }
  eapply runs_bind; [apply whether_neutral; neutral|intros ?]. apply runs_look. intros w1 _.
  eapply runs_bind; [apply whether_neutral; neutral|intros [result|]]; [|apply runs_leave; by left].
  apply runs_look. intros w2 _. eapply (runs_bind _ _ _ (λ _, whether [] 0 (if stage_permit r then 1 else 0))).
  { destruct result as [e|c]; cbn [handle_staged_start_result]; (eapply runs_bind; [apply whether_neutral; neutral|intros ?]; by apply Ha). }
  intros ?. destruct (_ || _).
  - eapply runs_bind; [apply whether_neutral; neutral|intros ?]. eapply runs_bind; [apply whether_release|intros ?]. apply whether_leave.
  - eapply runs_bind; [apply runs_forget|intros ?]. apply whether_release.
Qed.
Lemma runs_remove_terminal t permit x :
  triple (whether [(t, RemoveTerminal permit x)] 0 0) (remove_terminal_turn t permit x) (λ _, whether [] 0 0).
Proof.
  unfold remove_terminal_turn. apply runs_look. intros w0 _.
  eapply runs_bind; [apply whether_neutral; neutral|intros disposition]. eapply (runs_bind _ _ _ (λ _, whether [(t, RemoveTerminal permit x)] 0 0)).
  { destruct disposition; try by apply runs_ret. unfold funded.
    eapply runs_bind; [eapply runs_bind; [apply whether_block|intros ?]; apply whether_neutral; neutral|intros ?]. apply whether_neutral. neutral. }
  intros ?. eapply runs_bind; [by apply (whether_answer _ true _ (t, RemoveTerminal permit x)); split_and!; [..|left]|intros ?]. apply whether_release.
Qed.
Lemma runs_checkpoint t id saved head reply :
  triple (whether [(t, SaveCheckpoint id saved head reply)] 0 0) (checkpoint_turn t id saved head reply) (λ _, whether [] 0 0).
Proof.
  unfold checkpoint_turn. do 3 (eapply runs_bind; [apply whether_neutral; neutral|intros ?]). apply runs_look. intros w0 _.
  eapply runs_bind; [apply whether_neutral; neutral|intros r].
  eapply runs_mono; [by apply (whether_answer _ reply _ (t, SaveCheckpoint id saved head reply)); split_and!; [..|left]|done|done].
Qed.

(** *** Finalize *)

Lemma whether_keep t permit f reply :
  triple (whether [(t, Finalize permit f reply)] 0 0) (keep_finalize t permit f reply) (λ _, whether [] 0 0).
Proof.
  apply runs_ex. intros b. unfold keep_finalize. set (c := (t, Finalize permit f reply)).
  eapply (runs_bind _ _ _ (λ _, holds b None [] [without_permit c] 0 0)).
  - intros w Hw%holds_shift; [|done]. destruct (strip_back _ _ _ _ _ _ Hw) as [Hs _]. by apply (runs_release permit).
  - intros ?. eapply runs_mono; [by apply (runs_push_back b None [] 0 0 (without_permit c))|done|]. intros ? w Hw. by exists b.
Qed.
(** The sender has its answer; the command is kept for what it still does. *)
Lemma whether_keep_answered t (permit : bool) f :
  triple (whether [] 0 (if permit then 1 else 0)) (keep_finalize t permit f false) (λ _, whether [] 0 0).
Proof.
  unfold keep_finalize. eapply runs_bind; [apply whether_release|intros ?]. apply runs_ex. intros b.
  apply runs_modify. intros w Hw. exists b. by apply (add_back b None (t, Finalize false f false)).
Qed.
Lemma whether_requeue t permit f reply :
  triple (whether [(t, Finalize permit f reply)] 0 0)
    (modify (on_q (λ x, set_lifecycle_yielded true
       (set_lifecycle_pending (requeue_lifecycle_continuation (t, Finalize permit f reply) (lifecycle_pending x)) x))))
    (λ _, whether [] 0 0).
Proof.
  apply runs_ex. intros b. apply runs_modify. intros w Hw. exists b. set (c := (t, Finalize permit f reply)) in *.
  assert (is_lane c) as Hc by by eexists.
  set (i := default (length (lifecycle_pending (q w))) (position (λ later, lifecycle_conflicts c.2 later.2) (lifecycle_pending (q w)))).
  pose proof (put_lane _ _ _ _ c w (take i (lifecycle_pending (q w))) (drop i (lifecycle_pending (q w))) (eq_sym (take_drop _ _)) Hw Hc eq_refl) as Hp.
  apply (yield_holds true) in Hp. exact Hp.
Qed.
Lemma runs_finalize t permit f reply :
  triple (whether [(t, Finalize permit f reply)] 0 0) (finalize_turn t permit f reply) (λ _, whether [] 0 0).
Proof.
  assert (∀ x, triple (whether [(t, Finalize permit f reply)] 0 0) (answer t reply (AnswerFinal x)) (λ _, whether [] 0 (if permit then 1 else 0))) as Ha.
  { intros x. apply (whether_answer t reply _ (t, Finalize permit f reply)). split_and!; [done..|by left]. }
  assert (triple (whether [] 0 0) (leave NextTurn) (λ _ : unit, whether [] 0 0)) as Hl by apply whether_leave.
  unfold finalize_turn. apply runs_look. intros w0 _. destruct (reconciliation_pending (store w0)).
  { eapply runs_bind; [apply whether_keep|intros ?]. done. }
  eapply runs_bind; [apply whether_neutral; neutral|intros [r|]]; [|apply runs_leave; by left].
  eapply runs_bind; [apply whether_neutral; neutral|intros r']. eapply runs_bind; [apply whether_neutral; neutral|intros ?].
  apply runs_look. intros w1 _. destruct r' as [[]|e].
  - eapply runs_bind; [apply whether_block|intros ?]. eapply runs_bind; [apply whether_neutral; neutral|intros ?].
    eapply runs_bind; [apply Ha|intros ?]. apply whether_release.
  - eapply runs_bind; [apply whether_requeue|intros ?]. done.
  - destruct (_ && _); [apply runs_leave; by left|]. destruct (is_capacity_debt e).
    + eapply (runs_bind _ _ _ (λ _, whether [(t, Finalize permit f reply)] 0 0)).
      { apply runs_ex. intros b. eapply runs_mono; [apply runs_note_capacity|done|]. intros ? w Hw. by exists true. }
      intros ?. eapply runs_bind; [apply whether_neutral; neutral|intros ?]. eapply runs_bind; [apply whether_keep|intros ?]. done.
    + eapply runs_bind; [apply whether_neutral; neutral|intros ?]. apply runs_look. intros w2 _.
      eapply (runs_bind _ _ _ (λ _, whether [] 0 0)).
      { destruct (reconciliation_pending (store w2)); [apply whether_keep|]. eapply runs_bind; [apply Ha|intros ?]. apply whether_keep_answered. }
      intros ?. eapply runs_bind; [apply whether_neutral; neutral|intros ?]. eapply runs_bind; [apply whether_block|intros ?].
      eapply runs_bind; [apply whether_neutral; neutral|intros ?]. done.
Qed.

(** *** Barriers *)

(** A barrier is answered with success only when it came before the queue. *)
Lemma runs_barrier t : triple (settled_ready None (t, Barrier)) (barrier_turn t) (λ _, quiet).
Proof.
  unfold barrier_turn. apply runs_read. intros w0 _. set (x := AnswerBarrier _).
  intros w [-> [Hw|[_ Hw]]].
  - exists false, None. apply (pay_front _ _ _ _ _ 0 0 _ _ Hw); [|done]. apply owed_pays. split_and!; [done..|by right].
  - assert (act_mark (Answered t x) = None) as Hx.
    { unfold x. destruct (latch (sh w0)).1; [done|]. by rewrite (h_blocked _ _ _ _ _ _ _ Hw). }
    exists true, None. apply (pay_back _ _ _ 0 0 _ _ Hw); [|done|done]. apply owed_pays. split_and!; [done..|by left].
Qed.

(** ** The turn *)

Lemma runs_handle o c : (o ≠ None → is_append c.2 = true) → triple (settled_ready o c) (handle c) (λ _, quiet).
Proof.
  intros Ho. destruct c as [t c].
  destruct (decide (is_append c = true)) as [Ea|Ea%not_true_is_false].
  { destruct c; try done. eapply runs_mono; [apply (runs_append_turn o)|intros w [Hw|[? _]]; done|done]. }
  assert (o = None) as -> by (destruct o; [cbn in Ho; rewrite Ea in Ho; by discriminate Ho|done]). clear Ho.
  destruct (mark (t, c)) eqn:Em; [destruct c; try done; apply runs_barrier|].
  apply (runs_mono _ (whether [(t, c)] 0 0) _ _ (λ _, quiet)); [|intros w; by apply settled_whether|done].
  assert (∀ m : Turn unit, triple (whether [(t, c)] 0 0) m (λ _, whether [] 0 0) → triple (whether [(t, c)] 0 0) m (λ _, quiet)) as Hq.
  { intros m Hm. eapply runs_mono; [exact Hm|done|]. intros ?. apply whether_quiet. }
  destruct c; try done; unfold handle; cbn [fst snd]; apply Hq.
  - apply runs_read_replay.
  - apply runs_checkpoint.
  - apply runs_stage_start.
  - apply runs_remove_terminal.
  - apply runs_finalize.
  - apply runs_ret. intros w [b Hw]. exists b. by apply (drop_front b None (t, LifecycleWake) [] [] 0 0 w).
Qed.
Lemma runs_turn : triple quiet turn_body (λ _, quiet).
Proof.
  unfold turn_body. eapply runs_bind; [apply runs_fence|intros ?]. eapply runs_bind; [apply quiet_neutral; neutral|intros ?].
  eapply runs_bind; [apply runs_restore|intros ?]. eapply runs_bind; [apply runs_next_command|intros c].
  eapply runs_bind; [apply neutral_ready, (neutral_yield (λ _, false))|intros ?].
  eapply runs_bind; [apply runs_reconcile_turn|intros ?]. eapply runs_bind; [apply runs_blocked_turn|intros ?].
  eapply runs_bind; [apply runs_settle_prefix|intros c']. apply runs_ex. intros o. apply runs_pure. intros Ho.
  eapply (runs_bind _ _ _ (λ _, settled_ready o c')).
  { apply runs_or; [|apply runs_pure; intros Hc]; (eapply runs_mono; [apply neutral_requested_wake|done|]); intros ? w Hw; [by left|by right]. }
  intros ?. eapply runs_bind; [by apply runs_handle|intros ?]. eapply runs_bind; [apply quiet_neutral; neutral|intros ?].
  apply quiet_neutral. neutral.
Qed.
End turns.
