(* ===== verification/PersistenceActorProps.v ===== *)
(** * What the persistence actor promises

    Every turn ends, nothing that was sent is lost or answered twice, credits and slots
    stay exact, and output keeps its order, until an interrupted transaction is settled
    with output or a barrier in hand. *)

From S2P Require Import Prelude.
From S2P Require Import Protocol.
From S2P Require Import StorageErrors.
From S2P Require Import StoreTransaction.
From S2P Require Import StoreAppend.
From S2P Require Import StoreTransactionProps.
From S2P Require Import PersistenceActor.
From S2P Require Import PersistenceActorSpec.
From S2P Require Import PersistenceActorTurns.

(** ** A store that loses its first transaction *)

Module ActorDemo.
Import TxDemo.
(** The first output transaction may have committed; once that is settled all succeed. *)
Inductive Phase := Fresh | InDoubt | Settled_.
Definition lost_commit : PersistenceError :=
  Operation "commit" StorageAppend TxUnknown (Database "disk I/O error" (Some (OtherSqliteCode 10)) (Some 10%Z) None).
Definition no_replay : OutputReplay :=
  {| replay_chunks := []; replay_first_available_byte := 0; replay_latest_output_bytes := 4; replay_truncated := false |}.
#[export] Instance demo_store : ActorStore Phase := {|
  reconciliation_pending := λ s, match s with InDoubt => true | _ => false end;
  compaction_due := λ _, false;
  cell_value := λ _ _, 0;
  reconcile_transaction := λ s, (Ok (Some None), Settled_);
  stop_retrying := λ s, s;
  recovery_identity := λ s, (Ok tt, s);
  recovery_namespace := λ s, (Ok tt, s);
  committed_read := λ s, (Ok tt, s);
  replay_directory := λ s, (Ok tt, s);
  replay_page := λ _ _ _ s, (Ok no_replay, s);
  funding_now := λ _ _ s, (Ok (0, 0, 0, 0), s);
  run_head := λ _ s, (Ok 0, s);
  run_exists := λ _ s, (Ok true, s);
  capacity_error := λ e s, (e, s);
  compact_step := λ s, (Ok tt, s);
  fold_wal := λ _ s, s;
  drive_staged_start := λ _ _ s, (Some (Completed (CompletionCommitted None)), s);
  start_disposition := λ _ _, StartCommitted;
  decide_start := λ _ _ s, s;
  keep_unresolved_start := λ _ s, s;
  remove_terminal := λ _ _ s, (Some Removed, s);
  missing_bytes := λ _ r s, (Ok (replay_chunks r), s);
  append_batch := λ _ _ s, match s with Fresh => (Err lost_commit, InDoubt) | _ => (Ok true, s) end;
  finalize_run := λ _ _ s, (Ok true, s);
  write_checkpoint := λ _ _ s, (Ok tt, s);
  remove_checkpoint := λ _ s, s;
|}.
Definition event (l : list Send) : Event := {| elapsed := 100; sends := l; stops := λ _, false |}.
Definition run : RunId := 7.
Definition final : Finalization :=
  {| final_run := run; final_pid := 1; final_replay := no_replay; final_state := Exited 0 None; final_gap := None;
     final_head := 0; final_metadata := 0 |}.
Definition output : list Send := [ReserveAppend; SendAppend run no_replay 0].
Definition after w (es : list Event) : option (World Phase) :=
  match actor_turn (with_env es w) with
  | Ret (w, NextTurn) | Ret (w, Parked) => Some w
  | _ => None
  end.
Definition after_all (l : list (list Event)) : option (World Phase) :=
  foldl (λ o es, match o with Some w => after w es | None => None end) (Some (actor_start Fresh)) l.
Definition quick : list Event := repeat quiet_event 4.
End ActorDemo.

Section props.
Context {St : Type} `{!ActorStore St, !StorageCodes}.
Implicit Types w : World St.

(** ** Reached states *)

Lemma start_holds (s : St) : holds false None [] [] 0 0 (actor_start s).
Proof. constructor; try done; try (by intros []); try (by constructor). split; cbn; [done|lia]. Qed.
Lemma with_env_quiet es w : quiet w → quiet (with_env es w).
Proof. intros (b & a & Hw). exists b, a. eapply books_holds; [|exact Hw]. by constructor. Qed.
Lemma turn_lands es w : quiet w → ∃ w' l, actor_turn (with_env es w) = Ret (w', l) ∧ (l = ActorReturned ∨ quiet w').
Proof.
  intros Hw. pose proof (runs_turn _ (with_env_quiet es _ Hw)) as Ht. unfold wp in Ht. unfold actor_turn.
  destruct (turn_body (with_env es w)) as [[w' [x|l]]|]; [..|done].
  - exists w', NextTurn. split; [done|]. by right.
  - exists w', l. split; [done|]. destruct l; [by right|by left|by right].
Qed.
Lemma reached_quiet s w : actor_reached s w → quiet w.
Proof.
  induction 1 as [|w es w' l Hr IH Ht Hl]; [exists false, None; apply start_holds|].
  destruct (turn_lands es w IH) as (w2 & l2 & E & Hq). rewrite E in Ht. injection Ht as -> ->.
  by destruct Hq.
Qed.

(** ** Counting *)

Definition times {A B} `{EqDecision B} (f : A → option B) (x : B) (l : list A) : nat :=
  length (filter (λ a, f a = Some x) l).
Lemma times_cons {A B} `{EqDecision B} (f : A → option B) x a l : times f x (a :: l) = ((if decide (f a = Some x) then 1 else 0) + times f x l)%nat.
Proof. unfold times. rewrite filter_cons. by destruct (decide _). Qed.
Lemma times_owed t (l : list Sent) : sumN (owed t) l = N.of_nat (times due_of t l).
Proof.
  induction l as [|x l IH]; [done|]. rewrite sumN_cons, times_cons, IH. unfold owed.
  case_decide; [rewrite bool_decide_eq_true_2 by done|rewrite bool_decide_eq_false_2 by done]; lia.
Qed.
Lemma times_paid t l : sumN (act_pays t) l = N.of_nat (times paid t l).
Proof.
  induction l as [|x l IH]; [done|]. rewrite sumN_cons, times_cons, IH. unfold act_pays.
  case_decide; [rewrite bool_decide_eq_true_2 by done|rewrite bool_decide_eq_false_2 by done]; lia.
Qed.
Lemma times_none {A B} `{EqDecision B} (f : A → option B) x l : (∀ a, a ∈ l → f a ≠ Some x) → times f x l = O.
Proof.
  induction l as [|a l IH]; intros Hl; [done|]. rewrite times_cons, decide_False by (apply Hl; by left).
  apply IH. intros b Hb. apply Hl. by right.
Qed.
Lemma times_once {A B} `{EqDecision B} (f : A → option B) x l i a : l !! i = Some a → f a = Some x →
  (∀ j b, l !! j = Some b → f b = Some x → j = i) → times f x l = 1%nat.
Proof.
  revert i. induction l as [|c l IH]; intros i Ha Hf Hu; [done|]. rewrite times_cons. destruct i as [|i].
  - injection Ha as ->. rewrite decide_True by done. rewrite times_none; [done|].
    intros b [j Hj]%list_elem_of_lookup Hb. by discriminate (Hu (S j) b Hj Hb).
  - rewrite decide_False by (intros Hc; by discriminate (Hu O c eq_refl Hc)).
    rewrite (IH i); [done|done|done|]. intros j b Hj Hb. by injection (Hu (S j) b Hj Hb).
Qed.
Lemma due_ticket x t : due_of x = Some t → t.1 = x.1.
Proof. destruct x as [i []]; cbn; repeat case_match; intros [= <-]; done. Qed.

(** ** The properties *)

(** C7: In every state the actor reaches, whatever other threads do at its every look, the
    books are exact.  The queue depth counts the appends queued or reserved; every lifecycle
    slot is free, on its way to a send, or held by one queued command; the channels stay
    within their bounds; and of each thing a sent command is owed (an answer, or the
    durability of one Run's output) there is exactly one of a queued command that owes it
    and an act that paid it, and nothing is paid that was not owed. *)
Theorem actor_books_are_exact (s : St) w : actor_reached s w →
  queue_depth (sh w) = sumN append_weight (pending (q w)) + sumN append_weight (receiver (sh w)) + reserved (hist w) ∧
  lifecycle_slots (sh w) + slots_in_flight (hist w) + sumN permit_weight (held w) = N.of_nat LIFECYCLE_QUEUE_CAPACITY + 1 ∧
  len (receiver (sh w)) ≤ PERSISTENCE_QUEUE_CAPACITY ∧ (length (lifecycle_rx (sh w)) ≤ LIFECYCLE_QUEUE_CAPACITY)%nat ∧
  (∀ i x t, sent (hist w) !! i = Some x → due_of x = Some t → (times paid t (acts (hist w)) + times due_of t (held w) = 1)%nat) ∧
  (∀ x t, paid x = Some t → x ∈ acts (hist w) → ∃ c, c ∈ sent (hist w) ∧ due_of c = Some t).
Proof.
  intros (b & a & Hw)%reached_quiet. pose proof (h_owed _ _ _ _ _ _ _ Hw) as Ho. cbn [app] in Ho.
  pose proof (h_sent _ _ _ _ _ _ _ Hw) as Hs.
  split; [by rewrite (h_credits _ _ _ _ _ _ _ Hw), N.add_0_r|]. split; [by rewrite <-(h_slots _ _ _ _ _ _ _ Hw), N.add_0_r|].
  destruct (h_room _ _ _ _ _ _ _ Hw). split; [done|split; [done|split]].
  - intros i x t Hx Ht. specialize (Ho t). rewrite !times_owed, times_paid in Ho.
    rewrite (times_once due_of t (sent (hist w)) i x Hx Ht) in Ho; [lia|].
    intros j y Hj Hy. apply Hs in Hj, Hx. apply due_ticket in Ht, Hy. lia.
  - intros x t Hp Hx. specialize (Ho t). rewrite !times_owed, times_paid in Ho.
    destruct (decide (Exists (λ c, due_of c = Some t) (sent (hist w)))) as [(c & ? & ?)%Exists_exists|Hn]; [by exists c|exfalso].
    rewrite (times_none due_of t (sent (hist w))) in Ho by (intros c Hc ?; apply Hn, Exists_exists; by exists c).
    assert (x ∈ filter (λ y, paid y = Some t) (acts (hist w))) as Hf by by apply list_elem_of_filter.
    unfold times in Ho. destruct (filter _ (acts (hist w))); [by apply elem_of_nil in Hf|]. cbn [length] in Ho. lia.
Qed.

(** C10: Every turn of the actor ends, from every state it reaches and whatever others do
    meanwhile: no loop over a channel runs on, no expectation fails, and what is then
    reached keeps the books. *)
Theorem actor_turn_ends (s : St) w es : actor_reached s w →
  ∃ w' l, actor_turn (with_env es w) = Ret (w', l) ∧ (l ≠ ActorReturned → actor_reached s w').
Proof.
  intros Hr. destruct (turn_lands es w (reached_quiet s w Hr)) as (w' & l & E & _).
  exists w', l. split; [done|]. intros Hl. by eapply reached_turn.
Qed.

(** ** Order *)

Definition settled_of (id : RunId) (a : Act) : option N :=
  match a with Settled t id' => if decide (id' = id) then Some t else None | _ => None end.
Definition output_of (id : RunId) (x : Sent) : option N := if appends_to id x.2 then Some x.1 else None.
Definition of_run (id : RunId) (m : N * Mark) : option N :=
  match m.2 with OutputOf id' => if decide (id' = id) then Some m.1 else None | Fence => None end.
Lemma omap_settled id (l : list Act) : omap (of_run id) (omap act_mark l) = omap (settled_of id) l.
Proof.
  induction l as [|x l IH]; [done|]. cbn [omap list_omap]. destruct x as [t a|t id'|c]; [destruct a as [| | | | | |[]]; exact IH| |exact IH].
  cbn. unfold of_run at 1. cbn. case_decide; [f_equal|]; exact IH.
Qed.
Lemma omap_output id (l : list Sent) : omap (of_run id) (omap mark l) = omap (output_of id) l.
Proof.
  induction l as [|[t c] l IH]; [done|]. cbn [omap list_omap]. destruct c; try exact IH. cbn.
  unfold of_run at 1, output_of at 1. cbn. case_bool_decide; [rewrite decide_True by done; f_equal|rewrite decide_False by done]; exact IH.
Qed.
Lemma sorted_run id (l : list (N * Mark)) : Sorted.StronglySorted in_order l → Sorted.StronglySorted N.lt (omap (of_run id) l).
Proof.
  induction 1 as [|x l Hl IH Hx]; [constructor|]. cbn [omap list_omap]. destruct (of_run id x) as [t|] eqn:E; [|done].
  constructor; [done|]. apply Forall_forall. intros u (y & Hy & Hu)%list_elem_of_omap. rewrite Forall_forall in Hx.
  specialize (Hx y Hy). destruct x as [i [id'|]], y as [j [id2|]]; cbn in *; try done.
  unfold of_run in *. cbn in *. repeat case_decide; simplify_eq. by apply Hx.
Qed.
Lemma queued_due w i id : Forall is_lane (option_list (pending_lifecycle (q w)) ++ lifecycle_pending (q w) ++ lifecycle_rx (sh w)) →
  (0 < times due_of (i, Some id) (held w))%nat → (i, OutputOf id) ∈ omap mark (pending (q w)) ++ omap mark (receiver (sh w)).
Proof.
  intros Hl Ht. unfold times in Ht. destruct (filter _ (held w)) as [|x r] eqn:E; [cbn in Ht; lia|].
  assert (x ∈ filter (λ x, due_of x = Some (i, Some id)) (held w)) as [Hd Hx]%list_elem_of_filter by (rewrite E; by left).
  assert (mark x = Some (i, OutputOf id) ∧ ¬ is_lane x) as [Hm Hn].
  { destruct x as [j []]; cbn in Hd; repeat case_match; simplify_eq; split; try done; by intros [? [=]]. }
  rewrite !Forall_app, !Forall_forall in Hl. destruct Hl as (H1 & H2 & H3).
  unfold held in Hx. rewrite !elem_of_app in Hx. rewrite elem_of_app, !list_elem_of_omap.
  destruct Hx as [Hx|[Hx|[Hx|[Hx|Hx]]]]; [left; by exists x|by destruct (Hn (H1 _ Hx))|by destruct (Hn (H2 _ Hx))|right; by exists x|by destruct (Hn (H3 _ Hx))].
Qed.

Lemma paid_settled i id l : (0 < times paid (i, Some id) l)%nat → Settled i id ∈ l.
Proof.
  unfold times. destruct (filter _ l) as [|x r] eqn:E; [cbn; lia|]. intros _.
  assert (x ∈ filter (λ x, paid x = Some (i, Some id)) l) as [Hd Hx]%list_elem_of_filter by (rewrite E; by left).
  destruct x; cbn in Hd; by simplify_eq.
Qed.
Lemma actor_books (s : St) w : actor_reached s w →
  Forall is_lane (option_list (pending_lifecycle (q w)) ++ lifecycle_pending (q w) ++ lifecycle_rx (sh w)) ∧
  (undisturbed (acts (hist w)) → Sorted.StronglySorted in_order
     (omap act_mark (acts (hist w)) ++ omap mark (pending (q w)) ++ omap mark (receiver (sh w)))) ∧
  (∀ i id replay head, (i, Append id replay head) ∈ sent (hist w) →
     Settled i id ∈ acts (hist w) ∨ (0 < times due_of (i, Some id) (held w))%nat).
Proof.
  intros (b & a & Hw)%reached_quiet. split; [rewrite (h_aside _ _ _ _ _ _ _ Hw); by apply (h_lane _ _ _ _ _ _ _ Hw)|].
  split; [exact (h_order _ _ _ _ _ _ _ Hw)|]. intros i id replay head Hi.
  pose proof (h_owed _ _ _ _ _ _ _ Hw (i, Some id)) as Ho. cbn [app] in Ho. rewrite !times_owed, times_paid in Ho.
  assert ((i, Append id replay head) ∈ filter (λ x, due_of x = Some (i, Some id)) (sent (hist w))) as Hf by by apply list_elem_of_filter.
  assert (0 < times due_of (i, Some id) (sent (hist w)))%nat as Hpos.
  { unfold times. destruct (filter _ (sent (hist w))); [by apply elem_of_nil in Hf|]. cbn. lia. }
  destruct (decide (0 < times paid (i, Some id) (acts (hist w)))%nat) as [Hp%paid_settled|Hp]; [by left|right; lia].
Qed.

(** C8: Unless an interrupted transaction was settled while output or a barrier was in hand:
    the output of each Run is made durable in the order it was sent, and what waits is
    younger and in order too; and when a barrier is answered with success, all output sent
    before it has been taken by the store. *)
Theorem output_keeps_its_order (s : St) w : actor_reached s w → undisturbed (acts (hist w)) →
  (∀ id, Sorted.StronglySorted N.lt (omap (settled_of id) (acts (hist w)) ++ omap (output_of id) (pending (q w) ++ receiver (sh w)))) ∧
  (∀ t i id replay head, Answered t (AnswerBarrier (Ok tt)) ∈ acts (hist w) → (i, Append id replay head) ∈ sent (hist w) → i < t →
     Settled i id ∈ acts (hist w)).
Proof.
  intros Hr Hu. destruct (actor_books s w Hr) as (Hl & Hline & Hone). specialize (Hline Hu). split.
  - intros id. apply (sorted_run id) in Hline. by rewrite !omap_app, omap_settled, !omap_output, <-omap_app in Hline.
  - intros t i id replay head Ht Hi Hlt. specialize (Hone _ _ _ _ Hi) as [Hp|Hq]; [done|exfalso].
    apply queued_due in Hq; [|done]. apply StronglySorted_app in Hline as (Hc & _ & _).
    assert ((t, Fence) ∈ omap act_mark (acts (hist w))) as Hf by (apply list_elem_of_omap; by exists (Answered t (AnswerBarrier (Ok tt)))).
    specialize (Hc _ _ Hf Hq I). cbn in Hc. lia.
Qed.

(** ** After a settlement *)

(** A turn up to the command it takes. *)
Definition command_taken : M (World St) Leave Sent :=
  fence_reconciliation ;;;
  settle_debt ;;;
  restore_lifecycle ;;;
  let* c := next_command in
  modify (on_q (set_lifecycle_yielded false)) ;;;
  mret_ c.
Definition command_handled (c : Sent) : M (World St) Leave unit :=
  reconcile_turn c ;;;
  blocked_turn c ;;;
  let* c := settle_prefix c in
  requested_wake ;;;
  handle c ;;;
  requested_wake ;;;
  modify (on_sh (set_output_wake_requested false)).
Lemma turn_body_split w : turn_body w = (let* c := command_taken in command_handled c) w.
Proof.
  unfold turn_body, command_taken, command_handled, bind, modify, mret_.
  destruct (fence_reconciliation w) as [[w1 []]|]; try done. destruct (settle_debt w1) as [[w2 []]|]; try done.
  destruct (restore_lifecycle w2) as [[w3 []]|]; try done. by destruct (next_command w3) as [[w4 []]|].
Qed.

(** A settlement with [c] in hand: where its command goes. *)
Lemma reconciled_front c w : ∃ w', reconciled c None w = Ret (w', Err NextTurn) ∧
  pending (q w') = c :: pending (q w) ∧ lifecycle_pending (q w') = lifecycle_pending (q w) ∧
  pending_lifecycle (q w') = pending_lifecycle (q w) ∧ lifecycle_rx (sh w') = lifecycle_rx (sh w) ∧
  acts (hist w') = acts (hist w) ++ [Reconciled c] ∧ store w' = store w ∧
  latch (sh w') = (None, None) ∧ capacity_blocked (sh w') = false.
Proof.
  unfold reconciled, block, wake_owner, record, push_front, leave, bind, modify, get, mfail, when, mret_. cbn.
  destruct (output_wake (sh w)); eexists; split; [reflexivity|by cbn|reflexivity|by cbn].
Qed.
Lemma observe_quiet w : env (hist w) = [] → observe w = Ret (w, Ok (λ _, false)).
Proof. unfold observe. by intros ->. Qed.
Lemma bind_ret {A B} (m : M (World St) Leave A) (k : A → M (World St) Leave B) w w' a :
  m w = Ret (w', Ok a) → bind m k w = k a w'.
Proof. unfold bind. by intros ->. Qed.
Lemma lane_empty w : env (hist w) = [] → lifecycle_pending (q w) = [] → lifecycle_rx (sh w) = [] →
  take_lifecycle_turn w = Ret (w, Ok None).
Proof.
  intros He Hlp Hlr. unfold take_lifecycle_turn. rewrite (bind_ret get _ w w w eq_refl), Hlp.
  assert (refill (LIFECYCLE_QUEUE_CAPACITY - length (@nil Sent)) w = Ret (w, Ok tt)) as Hrefill.
  { change (_ - _)%nat with 8%nat. cbn [refill]. unfold try_recv_lifecycle, bind. rewrite observe_quiet by done. cbn. by rewrite Hlr. }
  rewrite (bind_ret _ _ _ _ _ Hrefill), (bind_ret get _ w w w eq_refl), Hlp. unfold take_turn, remove_at. by rewrite lookup_nil.
Qed.
Lemma pending_front c rest w : pending (q w) = c :: rest →
  take_pending (Some O) w = Ret (on_q (set_pending rest) w, Ok (Some c)).
Proof. intros Hp. unfold take_pending. rewrite (bind_ret get _ w w w eq_refl), Hp. done. Qed.
(** With nobody else acting, no lifecycle work and nothing to settle, the front of the queue
    is the next command. *)
Lemma front_taken c rest w : env (hist w) = [] → reconciliation_pending (store w) = false →
  pending (q w) = c :: rest → pending_lifecycle (q w) = None → lifecycle_pending (q w) = [] → lifecycle_rx (sh w) = [] →
  capacity_blocked (sh w) = false →
  command_taken w = Ret (on_q (set_lifecycle_yielded false) (on_q (set_pending rest) w), Ok c).
Proof.
  intros He Hr Hp Hl Hlp Hlr Hb.
  assert (fence_reconciliation w = Ret (w, Ok tt)) as H1.
  { unfold fence_reconciliation. rewrite (bind_ret get _ w w w eq_refl), Hr. done. }
  assert (settle_debt w = Ret (w, Ok tt)) as H2.
  { unfold settle_debt. rewrite (bind_ret _ _ _ _ _ (observe_quiet w He)), (bind_ret get _ w w w eq_refl).
    unfold no_pending. by rewrite Hp. }
  assert (restore_lifecycle w = Ret (w, Ok tt)) as H3 by (unfold restore_lifecycle, modify; by rewrite Hl).
  assert (next_command w = Ret (on_q (set_pending rest) w, Ok c)) as H4.
  { unfold next_command, or_take. unfold bind at 1 2. rewrite lane_empty by done. rewrite (bind_ret get _ w w w eq_refl), Hb.
    destruct (capacity_debt (d w)); cbn [andb negb].
    - by rewrite (bind_ret _ _ _ _ _ (pending_front c rest w Hp)).
    - unfold bind at 1. change (take_pending None w) with (Ret (w, Ok (@None Sent)) : outcome (World St * result (option Sent) Leave)).
      cbv beta iota. by rewrite (bind_ret _ _ _ _ _ (pending_front c rest w Hp)). }
  unfold command_taken. by rewrite (bind_ret _ _ _ _ _ H1), (bind_ret _ _ _ _ _ H2), (bind_ret _ _ _ _ _ H3), (bind_ret _ _ _ _ _ H4).
Qed.
Lemma wake_quiet w : env (hist w) = [] → ∃ w', requested_wake w = Ret (w', Ok tt) ∧ q w' = q w ∧ sh w' = sh w ∧
  d w' = d w ∧ acts (hist w') = acts (hist w) ∧ env (hist w') = [].
Proof.
  intros He. unfold requested_wake. rewrite (bind_ret _ _ _ _ _ (observe_quiet w He)), (bind_ret get _ w w w eq_refl).
  unfold when, wake_owner. destruct (output_wake_requested (sh w)); [|by exists w].
  rewrite (bind_ret get _ w w w eq_refl). unfold when. destruct (output_wake (sh w)); [|by exists w].
  by exists (on_hist (λ h, set_wakes (wakes h + 1) h) w).
Qed.
Lemma barrier_handled t w : env (hist w) = [] → reconciliation_pending (store w) = false →
  latch (sh w) = (None, None) → capacity_blocked (sh w) = false →
  ∃ w', command_handled (t, Barrier) w = Ret (w', Ok tt) ∧ pending (q w') = pending (q w) ∧
    acts (hist w') = acts (hist w) ++ [Answered t (AnswerBarrier (Ok tt))].
Proof.
  intros He Hr Hl Hb.
  assert (reconcile_turn (t, Barrier) w = Ret (w, Ok tt)) as H1.
  { unfold reconcile_turn. rewrite (bind_ret get _ w w w eq_refl), Hr. done. }
  assert (blocked_turn (t, Barrier) w = Ret (w, Ok tt)) as H2.
  { unfold blocked_turn. rewrite (bind_ret get _ w w w eq_refl), Hb. done. }
  assert (settle_prefix (t, Barrier) w = Ret (w, Ok (t, Barrier))) as H3 by done.
  destruct (wake_quiet w He) as (w1 & H4 & Hq1 & Hs1 & Hd1 & Ha1 & He1).
  set (w2 := on_hist (λ h, set_acts (acts h ++ [Answered t (AnswerBarrier (Ok tt))]) h) w1).
  assert (handle (t, Barrier) w1 = Ret (w2, Ok tt)) as H5.
  { unfold handle. cbn [fst snd]. unfold barrier_turn. rewrite (bind_ret get _ w1 w1 w1 eq_refl), Hs1, Hl, Hb. done. }
  destruct (wake_quiet w2 He1) as (w3 & H6 & Hq3 & _ & _ & Ha3 & _).
  exists (on_sh (set_output_wake_requested false) w3). unfold command_handled.
  rewrite (bind_ret _ _ _ _ _ H1), (bind_ret _ _ _ _ _ H2), (bind_ret _ _ _ _ _ H3), (bind_ret _ _ _ _ _ H4),
    (bind_ret _ _ _ _ _ H5), (bind_ret _ _ _ _ _ H6). split; [done|]. cbn. rewrite Hq3, Ha3. cbn. by rewrite Hq1, Ha1.
Qed.

(** C9: Whenever a transaction of unknown outcome is settled with a command in hand (and the
    settlement names no Run whose Finalize ends here), that command goes in front of all
    output that waits, and the reason to hold back is gone.  So when nobody else acts and no
    lifecycle work waits, the next turn takes it before that output, be it newer output of the
    same Run; and if it is a barrier, the turn answers it with success while every append
    that waited, those sent before the barrier too, still waits. *)
Theorem settled_transaction_lets_overtake (s : St) w es c w1 w2 settled :
  actor_reached s w → command_taken (with_env es w) = Ret (w1, Ok c) →
  reconciliation_pending (store w1) = true → due w1 = Ret (w2, Ok true) →
  reconcile_transaction (store w2) = (Ok (Some None), settled) → reconciliation_pending settled = false →
  pending_lifecycle (q w2) = None → lifecycle_pending (q w2) = [] → lifecycle_rx (sh w2) = [] →
  ∃ w3, actor_turn (with_env es w) = Ret (w3, NextTurn) ∧ actor_reached s w3 ∧
  pending (q w3) = c :: pending (q w2) ∧ capacity_blocked (sh w3) = false ∧
  (∃ w4, command_taken (with_env [] w3) = Ret (w4, Ok c) ∧ pending (q w4) = pending (q w2)) ∧
  ∀ t, c = (t, Barrier) → ∃ w4, actor_turn (with_env [] w3) = Ret (w4, NextTurn) ∧
    pending (q w4) = pending (q w2) ∧
    acts (hist w4) = acts (hist w2) ++ [Reconciled c; Answered t (AnswerBarrier (Ok tt))].
Proof.
  intros Hreach Htaken Hpend Hdue Hrec Hsettled Hpl Hlp Hlr.
  destruct (reconciled_front c (set_store settled w2)) as (w3 & Hw3 & Hp & Hlp3 & Hpl3 & Hlr3 & Ha & Hs & Hl & Hb).
  cbn [q sh hist store set_store] in Hp, Hlp3, Hpl3, Hlr3, Ha, Hs.
  assert (actor_turn (with_env es w) = Ret (w3, NextTurn)) as Hturn.
  { unfold actor_turn. rewrite turn_body_split. unfold bind at 1. rewrite Htaken. unfold command_handled, bind at 1.
    unfold reconcile_turn. rewrite (bind_ret get _ w1 w1 w1 eq_refl), Hpend. cbn [negb].
    rewrite (bind_ret _ _ _ _ _ Hdue). cbn [negb]. unfold bind at 1, call. by rewrite Hrec, Hw3. }
  exists w3. split; [done|]. split; [by eapply reached_turn|]. split; [done|]. split; [done|].
  pose proof (front_taken c (pending (q w2)) (with_env [] w3) eq_refl) as Hnext. cbn in Hnext.
  rewrite Hs, Hlp3, Hpl3, Hlr3, Hp, Hb in Hnext. specialize (Hnext Hsettled eq_refl Hpl Hlp Hlr eq_refl).
  split; [by eexists|]. intros t ->. set (w4 := on_q _ _) in Hnext.
  destruct (barrier_handled t w4) as (w5 & Hw5 & Hp5 & Ha5); [done|by cbn; rewrite Hs|done|done|].
  exists w5. unfold actor_turn. rewrite turn_body_split. unfold bind. rewrite Hnext, Hw5. split; [done|].
  split; [done|]. rewrite Ha5. cbn. by rewrite Ha, <-app_assoc.
Qed.
End props.

(** ** The lifecycle lane *)

(** The Runs whose rows a lane command adds, removes or finishes; a read of replay changes
    none and may go anywhere. *)
Definition about (c : Command) : list RunId :=
  match c with
  | StageStart r => prepared_id (prepared r) :: map candidate_id (candidates r)
  | RemoveTerminal _ x => [candidate_id x]
  | Finalize _ f _ => [final_run f]
  | _ => []
  end.
(** Two commands about one Run, and lanes in which those follow each other by [R]. *)
Definition related (x y : Sent) : Prop := ∃ id, id ∈ about x.2 ∧ id ∈ about y.2.
Definition depends (R : Sent → Sent → Prop) (x y : Sent) : Prop := related x y → R x y.
Lemma related_sym x y : related x y → related y x.
Proof. intros (id & ? & ?). by exists id. Qed.
Lemma existsb_mem {A} (f : A → bool) (P : RunId → Prop) (g : A → RunId) l : (∀ x, f x = true ↔ P (g x)) →
  existsb f l = true ↔ ∃ id, id ∈ map g l ∧ P id.
Proof.
  intros Hf. induction l as [|x l IH]; cbn [existsb map].
  - split; [done|]. by intros (id & ?%elem_of_nil & _).
  - rewrite orb_true_iff, IH, Hf. set_solver.
Qed.
Lemma touches_about (c : Sent) id : is_lane c → lifecycle_touches c.2 id = true ↔ id ∈ about c.2.
Proof.
  destruct c as [t []]; intros [? [=]]; cbn; rewrite ?orb_true_iff, ?bool_decide_eq_true; try set_solver.
  rewrite (existsb_mem _ (λ i, i = id) candidate_id) by (intros; by rewrite bool_decide_eq_true). set_solver.
Qed.
Lemma conflicts_about (x y : Sent) : is_lane x → is_lane y →
  lifecycle_conflicts x.2 y.2 = true ↔ ∃ id, id ∈ about x.2 ∧ id ∈ about y.2.
Proof.
  intros Hx Hy. destruct x as [t []]; destruct Hx as [? Hx]; cbn in Hx; try done; clear Hx; cbn;
    rewrite ?orb_true_iff, ?(touches_about y) by done; try set_solver.
  rewrite (existsb_mem _ (λ i, i ∈ about y.2) candidate_id) by (intros; by rewrite touches_about). set_solver.
Qed.
Lemma conflicts_related (x y : Sent) : is_lane x → is_lane y → lifecycle_conflicts x.2 y.2 = true ↔ related x y.
Proof. apply conflicts_about. Qed.
Lemma unrelated (x y : Sent) : is_lane x → is_lane y → lifecycle_conflicts x.2 y.2 = false ↔ ¬ related x y.
Proof. intros Hx Hy. by rewrite <-conflicts_related, not_true_iff_false by done. Qed.
Lemma unrelated_all (f : Sent → Sent * Sent) l : Forall (λ e, is_lane (f e).1 ∧ is_lane (f e).2) l →
  Forall (λ e, lifecycle_conflicts (f e).1.2 (f e).2.2 = false) l → Forall (λ e, ¬ related (f e).1 (f e).2) l.
Proof. rewrite !Forall_forall. intros Hl Hf e He. destruct (Hl e He). apply unrelated; auto. Qed.

Lemma independent_split lane i : independent lane i = true →
  ∃ l1 c l2, lane = l1 ++ c :: l2 ∧ length l1 = i ∧ Forall (λ e, lifecycle_conflicts e.2 c.2 = false) l1.
Proof.
  unfold independent. destruct (lane !! i) as [c|] eqn:E; [|done]. apply list_elem_of_split_length in E as (l1 & l2 & -> & ->).
  rewrite take_app_length, forallb_forall. intros Hf. exists l1, c, l2. split; [done|split; [done|]].
  apply Forall_forall. intros e He%list_elem_of_In. by apply negb_true_iff, Hf.
Qed.
Lemma turn_split yielded c lane rest : take_turn yielded lane = Some (c, rest) →
  ∃ l1 l2, lane = l1 ++ c :: l2 ∧ rest = l1 ++ l2 ∧ Forall (λ e, lifecycle_conflicts e.2 c.2 = false) l1.
Proof.
  unfold take_turn. intros (l1 & l2 & El & Er & Hl)%remove_at_split. exists l1, l2. split; [done|split; [done|]].
  unfold next_turn in Hl. destruct yielded; [|by destruct l1]. destruct (find _ _) as [i|] eqn:Ef; [|by destruct l1].
  apply find_some in Ef as [_ (k1 & x & k2 & Ek & Hk & Hf)%independent_split]. cbn in Hl. rewrite El in Ek.
  by destruct (app_inj_1 _ _ _ _ (eq_trans Hl (eq_sym Hk)) Ek) as [-> [= -> _]].
Qed.
Lemma requeue_split c lane : ∃ l1 l2, lane = l1 ++ l2 ∧ requeue_lifecycle_continuation c lane = l1 ++ c :: l2 ∧
  Forall (λ e, lifecycle_conflicts c.2 e.2 = false) l1 ∧ (l2 = [] ∨ ∃ e l3, l2 = e :: l3 ∧ lifecycle_conflicts c.2 e.2 = true).
Proof.
  unfold requeue_lifecycle_continuation. destruct (position (λ later : N * Command, lifecycle_conflicts c.2 later.2) lane) as [i|] eqn:E.
  - apply position_split in E as (l1 & e & l2 & -> & <- & He & Hf). exists l1, (e :: l2). cbn [default from_option id].
    rewrite take_app_length, drop_app_length. split; [done|split; [done|split; [done|]]]. right. by exists e, l2.
  - exists lane, []. cbn [default from_option id]. rewrite firstn_all, drop_all, app_nil_r. split; [done|split; [done|split; [|by left]]].
    by apply position_none.
Qed.
Lemma turn_given yielded lane : lane ≠ [] → is_Some (take_turn yielded lane).
Proof.
  intros Hn. unfold take_turn, remove_at. assert (is_Some (lane !! next_turn yielded lane)) as [x ->]; [|done].
  apply lookup_lt_is_Some_2. unfold next_turn. destruct lane as [|y l]; [done|]. destruct yielded; [|cbn; lia].
  destruct (find _ _) as [i|] eqn:Ef; cbn [default from_option id]; [|cbn; lia]. apply find_some in Ef as [Hi _]. apply in_seq in Hi. lia.
Qed.
(** A command moved over unrelated ones. *)
Lemma moved_sorted R (c : Sent) l1 l2 k1 k2 : Sorted.StronglySorted (depends R) (l1 ++ c :: l2) →
  Forall (λ e, ¬ related e c) l1 → l1 ++ l2 = k1 ++ k2 → Forall (λ e, ¬ related c e) k1 →
  Sorted.StronglySorted (depends R) (k1 ++ c :: k2).
Proof.
  intros Hs Hf El Hk. rewrite !Forall_forall in *. assert (Sorted.StronglySorted (depends R) (k1 ++ k2)) as Hr.
  { rewrite <-El. apply StronglySorted_app in Hs as (H1 & H2 & [H3 _]%Sorted.StronglySorted_inv).
    apply StronglySorted_app. split; [|done]. intros x y Hx Hy. apply H1; [done|by right]. }
  apply StronglySorted_app in Hs as (_ & _ & [_ Hc]%Sorted.StronglySorted_inv). rewrite Forall_forall in Hc.
  apply StronglySorted_app in Hr as (H1 & H2 & H3). apply StronglySorted_app. split; [|split; [done|]].
  - intros x y Hx [->|Hy]%elem_of_cons; [|by apply H1]. intros Hxc. by destruct (Hk x Hx (related_sym _ _ Hxc)).
  - constructor; [done|]. apply Forall_forall. intros e Hin. assert (e ∈ l1 ++ l2) as He by (rewrite El; set_solver).
    apply elem_of_app in He as [He|He]; [|by apply Hc]. intros Hx. by destruct (Hf e He (related_sym _ _ Hx)).
Qed.

(** After a page of a Finalize the turn is to go to another command; when one independent
    command waits, it goes to the Finalize again. *)
Lemma yielded_turn_returns (x f : Sent) : lifecycle_conflicts f.2 x.2 = false → lifecycle_conflicts x.2 f.2 = false →
  take_turn true (requeue_lifecycle_continuation f [x]) = Some (f, [x]).
Proof.
  intros Hf Hx. unfold requeue_lifecycle_continuation. cbn. rewrite Hf. cbn. unfold take_turn, next_turn. cbn.
  unfold independent. cbn. by rewrite Hx.
Qed.

(** C11: The lane never reorders two commands about one Run ([about]: starts, removals and
    finalizations; a read depends on nothing).  The command that gets the turn passes only
    commands that share no Run with it, and when it yields with work left and is put back,
    whatever relation held between any two commands about one Run holds still.  It is put
    behind every unrelated command before the first that shares a Run with it, and a waiting
    lane always gives somebody the turn.  With one unrelated command waiting that is, after a
    yield, the command that yielded. *)
Theorem lane_keeps_dependencies (R : Sent → Sent → Prop) yielded lane : Forall is_lane lane →
  Sorted.StronglySorted (depends R) lane →
  (lane ≠ [] → is_Some (take_turn yielded lane)) ∧
  (∀ x f, is_lane x → is_lane f → ¬ related f x →
     take_turn true (requeue_lifecycle_continuation f [x]) = Some (f, [x])) ∧
  (∀ c rest, take_turn yielded lane = Some (c, rest) →
     (∃ l1 l2, lane = l1 ++ c :: l2 ∧ rest = l1 ++ l2 ∧ Forall (λ e, ¬ related e c) l1) ∧
     Sorted.StronglySorted (depends R) (requeue_lifecycle_continuation c rest) ∧
     ∃ l1 l2, rest = l1 ++ l2 ∧ requeue_lifecycle_continuation c rest = l1 ++ c :: l2 ∧
       Forall (λ e, ¬ related c e) l1 ∧ (l2 = [] ∨ ∃ e l3, l2 = e :: l3 ∧ related c e)).
Proof.
  intros Hl Hs. split; [apply turn_given|]. split.
  { intros x f Hx Hf Hn. apply yielded_turn_returns; apply unrelated; auto. intros ?%related_sym. done. }
  intros c rest Ht. pose proof (turn_split _ _ _ _ Ht) as (l1 & l2 & El & Er & Hf).
  rewrite El, Forall_app, Forall_cons in Hl. destruct Hl as (Hl1 & Hlc & Hl2).
  assert (Forall is_lane rest) as Hrest by (rewrite Er; by apply Forall_app).
  destruct (requeue_split c rest) as (k1 & k2 & Ek & Eq & Hk & Hlast).
  rewrite Ek, Forall_app in Hrest. destruct Hrest as [Hk1 Hk2].
  apply (unrelated_all (λ e, (e, c))) in Hf; [|by eapply Forall_impl; [exact Hl1|]].
  apply (unrelated_all (λ e, (c, e))) in Hk; [|by eapply Forall_impl; [exact Hk1|]].
  split; [by exists l1, l2|]. split.
  - rewrite Eq. eapply moved_sorted; [by rewrite <-El|exact Hf|by rewrite <-Er|exact Hk].
  - exists k1, k2. split_and!; [done..|]. destruct Hlast as [->|(e & l3 & -> & He)]; [by left|right].
    exists e, l3. split; [done|]. apply Forall_cons in Hk2 as [He2 _]. by apply conflicts_related.
Qed.

(** ** What others see go wrong *)

Section demo.
Import ActorDemo TxDemo.

Lemma after_reached l w : after_all l = Some w → actor_reached Fresh w.
Proof.
  revert w. induction l as [|es l IH] using rev_ind; intros w; [intros [= <-]; constructor|].
  unfold after_all. rewrite foldl_snoc. fold (after_all l). destruct (after_all l) as [w0|]; [|done]. unfold after.
  destruct (actor_turn _) as [[w1 []]|] eqn:E; intros [= <-]; (eapply reached_turn; [by apply IH|exact E|done]).
Qed.
Definition reached_world (l : list (list Event)) : World Phase := default (actor_start Fresh) (after_all l).
Lemma world_reached l : is_Some (after_all l) → actor_reached Fresh (reached_world l).
Proof. intros [w Hw]. apply after_reached with l. unfold reached_world. by rewrite Hw. Qed.
(** A look that takes longer than the wait before the next attempt to settle a transaction. *)
Definition slow : list Event := repeat (event []) 30.
(** A barrier sent while the first output is in doubt, and the world in which it is in hand. *)
Definition in_doubt : World Phase := reached_world [[event output]].
Definition fenced : list Event := event [SendControl Barrier] :: slow.
Definition barrier_in_hand : World Phase :=
  match command_taken (with_env fenced in_doubt) with Ret (w, _) => w | Panic _ => in_doubt end.
Definition barrier_due : World Phase :=
  match due barrier_in_hand with Ret (w, _) => w | Panic _ => in_doubt end.
Definition swapping : list (list Event) := [[event (ReserveAppend :: output)]; event [SendAppend run no_replay 0] :: slow; []; []].
Definition orderly : list (list Event) :=
  [[event output]; slow; [event output]; [event [TakeSlot; SendLifecycle (Finalize true final true)]];
   [event [SendControl Barrier]]; []].

(** ** Witnesses *)

(** The barrier sent after the output is answered before it; and of two outputs of one Run
    the newer one is settled first. *)
Lemma settled_transaction_lets_overtake_witness : ∃ w3 w4,
  sent (hist barrier_due) = [(0, Append run no_replay 0); (1, Barrier)] ∧
  actor_turn (with_env fenced in_doubt) = Ret (w3, NextTurn) ∧
  actor_turn (with_env [] w3) = Ret (w4, NextTurn) ∧
  pending (q w4) = [(0, Append run no_replay 0)] ∧
  acts (hist w4) = [Reconciled (1, Barrier); Answered 1 (AnswerBarrier (Ok tt))] ∧
  is_Some (after_all swapping) ∧ omap (settled_of run) (acts (hist (reached_world swapping))) = [1; 0].
Proof.
  destruct (settled_transaction_lets_overtake Fresh in_doubt fenced (1, Barrier) barrier_in_hand barrier_due Settled_)
    as (w3 & Hturn & _ & _ & _ & _ & Hnext).
  - apply world_reached. eexists. vm_compute. reflexivity.
  - vm_compute. reflexivity.
  - reflexivity.
  - vm_compute. reflexivity.
  - reflexivity.
  - reflexivity.
  - reflexivity.
  - vm_compute. reflexivity.
  - vm_compute. reflexivity.
  - destruct (Hnext 1 eq_refl) as (w4 & Hturn4 & Hp & Ha). exists w3, w4.
    split; [vm_compute; reflexivity|]. split; [exact Hturn|]. split; [exact Hturn4|].
    split; [rewrite Hp; vm_compute; reflexivity|]. split; [rewrite Ha; vm_compute; reflexivity|].
    split; [eexists; vm_compute; reflexivity|vm_compute; reflexivity].
Defined.

Lemma actor_books_are_exact_witness : actor_reached Fresh (reached_world orderly) ∧
  (times paid (0%N, Some run) (acts (hist (reached_world orderly))) + times due_of (0%N, Some run) (held (reached_world orderly)) = 1)%nat.
Proof.
  assert (actor_reached Fresh (reached_world orderly)) as Hr by (apply world_reached; eexists; vm_compute; reflexivity). split; [exact Hr|].
  destruct (actor_books_are_exact Fresh (reached_world orderly) Hr) as (_ & _ & _ & _ & Ho & _).
  apply (Ho O (0, Append run no_replay 0)); [by vm_compute|done].
Defined.
Lemma actor_turn_ends_witness : ∃ w l, actor_turn (with_env [event [SendControl Shutdown]] (reached_world orderly)) = Ret (w, l).
Proof.
  assert (actor_reached Fresh (reached_world orderly)) as Hr by (apply world_reached; eexists; vm_compute; reflexivity).
  destruct (actor_turn_ends Fresh (reached_world orderly) [event [SendControl Shutdown]] Hr) as (w & l & E & _). by exists w, l.
Defined.
Lemma output_keeps_its_order_witness : undisturbed (acts (hist (reached_world orderly))) ∧
  Settled 1 run ∈ acts (hist (reached_world orderly)).
Proof.
  assert (actor_reached Fresh (reached_world orderly)) as Hr by (apply world_reached; eexists; vm_compute; reflexivity).
  assert (acts (hist (reached_world orderly)) = [Reconciled (0, LifecycleWake); Settled 0 run; Settled 1 run;
    Answered 2 (AnswerFinal (Ok tt)); Answered 3 (AnswerBarrier (Ok tt))]) as Ea by (vm_compute; reflexivity).
  assert (undisturbed (acts (hist (reached_world orderly)))) as Hu.
  { rewrite Ea. clear. intros c Hc. rewrite !elem_of_cons, elem_of_nil in Hc. by destruct Hc as [[= ->]|[?|[?|[?|[?|?]]]]]. }
  split; [exact Hu|]. destruct (output_keeps_its_order Fresh (reached_world orderly) Hr Hu) as [_ Hb].
  apply (Hb 3 1 run no_replay 0); [rewrite Ea; clear; set_solver| |lia].
  assert ((sent (hist (reached_world orderly))) !! 1%nat = Some (1, Append run no_replay 0)) as Hs by (vm_compute; reflexivity).
  by eapply list_elem_of_lookup_2.
Defined.
Definition removal : Sent := (4, RemoveTerminal true {| candidate_id := 9; candidate_key := ""; candidate_metadata_bytes := 0 |}).
Definition finalize : Sent := (3, Finalize true final true).
Lemma lane_keeps_dependencies_witness :
  Sorted.StronglySorted (depends (λ x y, x.1 < y.1)) (requeue_lifecycle_continuation finalize [removal]) ∧
  requeue_lifecycle_continuation finalize [removal] = [removal; finalize].
Proof.
  assert (Forall is_lane [finalize; removal]) as Hl by (repeat constructor; by eexists).
  assert (Sorted.StronglySorted (depends (λ x y, x.1 < y.1)) [finalize; removal]) as Hs by (repeat constructor).
  split; [|by vm_compute]. destruct (lane_keeps_dependencies (λ x y, x.1 < y.1) false [finalize; removal] Hl Hs) as (_ & _ & Ht).
  by destruct (Ht finalize [removal] eq_refl) as (_ & ? & _).
Defined.
End demo.
